(* ===== verification/_CoqProject ===== *)
-Q . S2P
Prelude.v
Bytes.v
Text.v
Core.v
Record.v
Glob.v
Clock.v
Arith.v
Command.v
Backend.v
IndexKeys.v
Tags.v
Engine.v
Apply.v
Cache.v
ApplySpec.v
ApplyRefines.v
TagOps.v
Read.v
Shard.v
Maint.v
MaintSpec.v
ReclaimSpec.v
Queue.v
QueueSpec.v
Writer.v
WriterSpec.v
Env.v
Life.v
Listing.v
Store.v
StoreSpec.v
NodeWrites.v
Float.v
Vcp.v
VcpEncode.v
VcpClient.v
VcpSpec.v
VcpReply.v
Auth.v
AuthFile.v
AuthFileSpec.v
AuthLoadSpec.v
Server.v
ServerBatch.v
ServerSpec.v
ServerRef.v
Mc.v
McEncode.v
McServer.v
McSpec.v
McTrip.v
McServerSpec.v
Resp.v
RespCommand.v
RespParse.v
RespTrip.v
RespEncode.v
Scan.v
RespServer.v
RespServerSpec.v
RespGate.v
Conn.v
ConnSpec.v
ConnDialects.v
ConnStream.v
Memory.v
MemorySpec.v
Demo.v
DemoNode.v
DemoVcp.v
DemoMc.v
DemoResp.v
DemoConn.v
Gossip.v
Introspect.v
IntrospectSpec.v
Config.v
DemoServer.v
DemoAuth.v
