(* ===== verification/Prelude.v ===== *)
(** * vash, a tag-invalidated cache server: what is modelled and what is proved

    ** The program

    A vash node keeps its data in a fixed number of shards.  A shard is one
    database environment (six B-trees: records, metadata, expiry index, tag
    index, tag registry, reclamation jobs) with one writer thread, which groups
    the writes waiting in its queue into one transaction, and with the memory
    that answers without the disk: the tag registry, the flush epoch, the token
    counters.  Reads open their own transactions.  A record dies by its
    deadline, by the epoch, or because the generation of one of its tags has
    moved past the one it was written under; dead records are collected later.
    A server parses a client protocol, checks the roles of the connection,
    executes the command against the store and encodes the reply.

    ** The files

    Foundations: [Prelude] (widths, results, lists), [Bytes], [Text], [Float]
    (byte strings, UTF-8 and decimals, binary64 layouts).

    [vash-core]: [Core] (error.rs, key.rs, value.rs), [Record] (record.rs: the
    stored format and the liveness rules), [Glob] (glob.rs), [Clock] (clock.rs),
    [Arith] (arith.rs), [Command] (command.rs, listing.rs, cluster.rs).

    [vash-store], one shard: [Backend] (what the hash and the storage engine
    are assumed to do, and an engine in memory that does it), [IndexKeys]
    (expiry.rs, reclaim.rs: the two indexes' keys and the job record), [Tags] (tags.rs in
    memory), [Engine] (engine.rs: the state and the monad of a write
    transaction), [Apply] (apply.rs), [TagOps] (tags.rs on disk), [Read]
    (read.rs), [Maint] (the passes of expiry.rs and reclaim.rs), [Queue] and
    [Writer] (queue.rs, writer.rs: operations, effects, group commit,
    maintenance, recovery from a full map), [Env] (env.rs: opening).

    [vash-store], the node: [Shard] (shard.rs), [Listing] (listing.rs), [Store]
    (store.rs), and [Memory] (memory.rs: the other implementation of the [Store]
    trait, held in memory).

    The native protocol: [Vcp] and [VcpEncode] (vash-proto/src/vcp: frame.rs,
    decode.rs, encode.rs), [VcpClient] (vash-client), [Auth] and [Server]
    (vash-server: auth.rs, dispatch.rs, vcp.rs).  The server is stated over the
    class [StoreOps], the [Store] trait.

    Around the protocols, all of vash-server: [AuthFile] (the rest of auth.rs:
    the credential file, loading, reload, generation; certificates of tls.rs),
    [Gossip] (cluster.rs: digests, exchanges, rounds, a cluster of nodes),
    [Introspect] (introspect: the sampler, the hot keys and tags, the slow log,
    what dispatch offers them) and [Config] (config.rs: the settings, their
    validation, and what the store and a connection are given of them).

    The memcached protocol: [Mc] (vash-proto/src/memcached: mod.rs, text.rs,
    meta.rs), [McEncode] (its encode.rs), [McServer] (vash-server's
    memcached.rs).  What running commands and holding writes back need of a store
    is [ServerBatch], which the theorems of all three protocols share.

    The Redis protocol: [Resp] (vash-proto/src/resp: mod.rs, the framing),
    [RespCommand] (its command.rs), [RespEncode] (its encode.rs), [Scan]
    (vash-server's scan.rs: the tokens of [SCAN]), [RespServer] (vash-server's
    resp.rs, in the build without the introspect feature).

    Connections: [Conn] (vash-server's conn.rs and vash-proto/src/lib.rs: the
    dialect the first byte settles, measuring a buffer into runs, the tier of
    each, draining, and the loop of a connection, whose sockets and timers are
    events).  [ConnSpec] states what a dialect promises ([Lawful]),
    [ConnDialects] shows that the three keep it, [ConnStream] that their replies
    are only ever appended.

    A definition has the name of the function it translates, with the type in
    front where Rust would qualify it ([Key_new], [ValuesFrame_finish]).  A
    loop of a function is a [Fixpoint] next to it.

    ** How code is rendered

    Integers are [Z] within their width, with every wrap, saturation and check
    written out.  Fallible code returns [Result], whose third outcome is a
    panic; no theorem accepts one.  A write transaction is a state monad over
    the open transaction and the engine's memory ([StoreM]): an error keeps
    what was written so far, as the source does, and what is committed or
    dropped is decided by the writer.  The storage engine is a class of
    transactions with laws ([Backend]), a batch's effects are values published
    after the commit, and a node is a list of shards.  Sharing between the two
    ways into the tag registry is kept: entries live once and both maps refer
    to them.  Clock, hash, number-to-text conversion of floats, digest and the
    order an unstable sort leaves equal elements in are parameters.

    ** What is proved

    - Data: stored records round-trip and malformed ones are refused with the
      right error ([Record]); the pattern matcher decides its declarative
      meaning ([Glob]); arithmetic is exact, saturates or refuses where it says
      ([Arith]); deadlines mean what the TTL said ([Clock]); index keys sort in
      time ([IndexKeys]).
    - A shard's operations refine an abstract cache ([Cache]) that knows only
      the record a client sees: [ApplyRefines] for each write, [Read] for reads,
      [TagOps] for tags, with the invariant that ties records to their index
      rows ([Cache]) kept by each.
    - Maintenance is invisible: sweeping, eviction and reclamation remove only
      what they may, keep the indexes in order, and finish ([MaintSpec],
      [ReclaimSpec]).
    - Group commit is atomic, answers truthfully and keeps memory in step with
      the disk, whatever fails, and recovery from a full map frees the records
      soonest to expire, by the first of its budgets that commits ([QueueSpec],
      [WriterSpec]); tokens never repeat while batches commit ([Life]); opening
      refuses the wrong database and restores the rest ([Env]).  Over any history
      of turns, syncs, crashes and restarts memory agrees with the disk; a crash
      of the process loses nothing committed, one of the machine falls back to a
      commit since the last sync, by the durability configured ([Life]).
    - A node's batch reads, listings and invalidations are right across shards
      ([StoreSpec], [Listing], [NodeWrites]); its writes, tagged ones too, answer
      as the abstract cache does on what the node serves and touch no other key,
      and what they refuse the abstract cache refuses ([NodeWrites]).  The in-memory store refines the same abstract cache and
      obeys the laws [ServerRef] asks of a store ([MemorySpec]).
    - The protocol: requests round-trip and arbitrary bytes decode safely to
      well-formed commands ([VcpSpec]); replies round-trip, so a call returns
      what execution returned ([VcpReply]); commands run exactly when the
      connection holds their roles, and every frame of a pipelined block gets
      its answer in order ([ServerSpec]); holding writes back, batching,
      retrying and streaming change nothing that can be observed ([ServerRef]).
    - The memcached dialects: any bytes parse safely, a command depends on the
      bytes it consumes and no other ([McSpec]); a request a client writes is the
      request the server reads ([McTrip]); a block acts as its items do one at a
      time, the roles are checked before a command runs, a stranger's bytes do
      nothing, a key dump ends ([McServerSpec]).
    - The Redis dialect: any bytes parse to well-formed commands or to refusals,
      and the one kind of request that panics the parser is named exactly
      ([RespParse]); what a client's words say is
      what is parsed ([RespTrip]); a block acts as its items do one at a time and
      a stranger's bytes do nothing ([RespServerSpec]); the roles are checked,
      over single commands and whole blocks, and the tier picked without parsing
      is right ([RespGate]); a [SCAN] iteration is answered the pages of the store
      of each moment and ends where they do, and a deadline keeps its meaning on
      the way in and out ([RespGate]).
    - Connections: but for sign-ins of Redis connections that may write and
      memcached lines refused for their data block, the tier a run of commands
      takes and the packets they come in cannot be observed; a stranger's bytes
      do nothing whatever the dialect and the tier, and an open connection is
      within its bounds, a stranger's within the stranger's ([ConnStream], over
      the dialects' common laws in [ConnSpec]).

    - Credentials: a file loads in full or not at all, by a grammar stated apart
      from the parser ([AuthFileSpec]); a server starts with exactly the
      credentials of its one source, a generated row verifies, a certificate is
      unambiguous, a reload is whole ([AuthLoadSpec]).
    - A cluster: whatever is lost, repeated or reordered no node forgets an
      invalidation and none is invented, and while the invalidated tags fit in one
      message rounds between every two nodes bring all to the latest; the window
      of a larger table reaches every tag of a pair.  Both are over any store of
      the class [StoreSync], whose merges succeed ([Gossip]).
    - Introspection: both rankings refine the Space-Saving summary, whose bounds
      are carried through the merge of the lanes; the log's short pages are the
      newest entries; what is logged of a command adds up ([IntrospectSpec]).
    - Configuration: what validation promises the parts it configures, and that a
      connection is not closed for sending a value the store accepts ([Config]).

    The files [Demo], [DemoNode], [DemoVcp], [DemoMc], [DemoResp], [DemoConn],
    [DemoServer] and [DemoAuth] apply the theorems to concrete shards, nodes,
    servers, connections and files, so that no hypothesis is empty.

    ** Bounds and fuel

    Loops over a cursor into a finite table take the rows, or a number of rounds,
    as their measure: the matcher's rounds are bounded by the product of the
    lengths ([Glob]), freeing space by the number of records ([Writer]), paging
    by the number of keys not yet passed ([StoreSpec]), a block of frames by its
    length, since each round takes at least a header ([Server]) or a newline
    ([McServer]), a dump by its scan budget, empty arrays before a Redis command
    by the bytes of the buffer ([Resp]), its options by their tokens
    ([RespCommand]), a binary search by the length of the table ([Scan]),
    measuring by the buffer and draining by the runs it was split into ([Conn]).
    Each bound is shown to be enough by the theorem about the loop.

    ** Assumed

    The engine keeps the laws of [Backend] (ordered maps, atomic commit, errors
    that change nothing); keys that are in play do not collide under the 64-bit
    hash; conversions between floats and text satisfy the laws named in [Arith].
    [ServerRef] asks of a store that [set_many] is all or nothing and agrees with
    the same writes made one by one: a node keeps this within a shard, not across
    shards; the in-memory store keeps it outright ([MemorySpec]).  The awaited
    run of [Conn] also needs [set_many] to keep the order of a repeated key
    ([ServerBatch.StoreInOrder]), which the unstable sort of a node does not
    promise for a long run.

    ** Not modelled

    The [stats] sections that describe the process are a parameter, and so are the
    constants of the build and the two-decimal rendering [INFO] uses
    ([RespEncode.BuildInfo]).  Parameters too, being other people's code or the
    machine's: SHA-256, X.509 matching, the file system, TOML, the environment,
    and which thread runs where.  Left out because they are not the program's logic
    or cannot be stated here: sockets, TLS handshakes, listeners and tasks, the
    registry of connections, and a credential table replaced under an open
    connection; the administrative interface and the counters, which observe only;
    the queues and timers that decide when gossip happens; the bindings to LMDB and
    libmdbx, map warming and memory accounting; benchmarks and fuzzing. *)

From stdpp Require Export prelude list gmap sorting.
From Stdlib Require Export ZArith Lia.
From Stdlib Require Export Strings.Byte.
From Stdlib Require String.
Export String.StringSyntax.
Bind Scope string_scope with String.string.

#[global] Open Scope Z_scope.

(** ** Machine-width integers

    A [w]-bit unsigned integer is a [Z] in [0, 2^w).  The operations Rust
    spells [wrapping_*], [saturating_*] and [checked_*] are written out. *)

Definition fits (w z : Z) : Prop := 0 <= z < 2 ^ w.

Definition U8_MAX : Z := 255.
Definition U16_MAX : Z := 65535.
Definition U32_MAX : Z := 4294967295.
Definition U64_MAX : Z := 18446744073709551615.
Definition I64_MAX : Z := 9223372036854775807.
Definition I64_MIN : Z := -9223372036854775808.

#[global] Instance fits_dec w z : Decision (fits w z).
Proof. unfold fits. apply _. Defined.

Definition wrapping (w z : Z) : Z := z mod 2 ^ w.

Definition saturating_add64 (a b : Z) : Z := Z.min (a + b) U64_MAX.

Definition saturating_sub (a b : Z) : Z := Z.max 0 (a - b).

Definition checked_add64 (a b : Z) : option Z :=
  if a + b <=? U64_MAX then Some (a + b) else None.

Definition in_i64 (z : Z) : bool := (I64_MIN <=? z) && (z <=? I64_MAX).

Definition checked_i64 (z : Z) : option Z := if in_i64 z then Some z else None.

Definition div_ceil (a b : Z) : Z := (a + b - 1) / b.

Lemma wrapping_fits w z : 0 <= w -> fits w (wrapping w z).
Proof. intros Hw. unfold fits, wrapping. apply Z.mod_pos_bound. lia. Qed.

Lemma wrapping_small w z : fits w z -> wrapping w z = z.
Proof. unfold fits, wrapping. intros. by apply Z.mod_small. Qed.

Lemma saturating_add64_fits a b :
  fits 64 a -> fits 64 b -> fits 64 (saturating_add64 a b).
Proof. unfold fits, saturating_add64, U64_MAX. lia. Qed.

Lemma saturating_sub_fits w a b :
  fits w a -> fits w b -> fits w (saturating_sub a b).
Proof. unfold fits, saturating_sub. lia. Qed.

(** Arithmetic side conditions on widths: unfold the bounds, then [lia]. *)
Ltac width :=
  repeat match goal with H : fits _ _ |- _ => unfold fits in H end;
  unfold fits, wrapping, saturating_add64, saturating_sub,
    U8_MAX, U16_MAX, U32_MAX, U64_MAX, I64_MAX, I64_MIN in *;
  change (2 ^ 8) with 256 in *; change (2 ^ 16) with 65536 in *;
  change (2 ^ 32) with 4294967296 in *;
  change (2 ^ 64) with 18446744073709551616 in *;
  lia.

(** Split conjunctions, and only those ([split] also opens [<->]). *)
Ltac conjs := repeat match goal with |- _ /\ _ => split end.

(** ** Fallible code

    [Result E A] is Rust's [Result<A, E>] with one more outcome: a panic
    ([expect] on a [None], a slice index out of range, [unreachable!]).
    Specifications never accept a panic. *)

Inductive Result (E A : Type) : Type :=
| Ok (a : A)
| Err (e : E)
| Panic (why : String.string).

Arguments Ok {E A} a.
Arguments Err {E A} e.
Arguments Panic {E A} why.

#[global] Instance Result_ret {E} : MRet (Result E) := fun A a => Ok a.

#[global] Instance Result_bind {E} : MBind (Result E) :=
  fun A B f m =>
    match m with
    | Ok a => f a
    | Err e => Err e
    | Panic why => Panic why
    end.

#[global] Instance Result_map {E} : FMap (Result E) :=
  fun A B f m => mbind (fun a => Ok (f a)) m.

Definition is_ok {E A} (r : Result E A) : bool :=
  match r with Ok _ => true | _ => false end.

Definition result_ok {E A} (r : Result E A) : option A :=
  match r with Ok a => Some a | _ => None end.

(** [Option::ok_or]. *)
Definition ok_or {E A} (o : option A) (e : E) : Result E A :=
  match o with Some a => Ok a | None => Err e end.

(** [Option::expect]. *)
Definition expect {E A} (o : option A) (why : String.string) : Result E A :=
  match o with Some a => Ok a | None => Panic why end.

(** [Result::map_err]. *)
Definition map_err {E F A} (f : E -> F) (r : Result E A) : Result F A :=
  match r with Ok a => Ok a | Err e => Err (f e) | Panic why => Panic why end.

Definition guard_or {E} (b : bool) (e : E) : Result E unit :=
  if b then Ok () else Err e.

(** [iter().map(f).collect::<Result<Vec<_>>>()]: left to right, first error wins. *)
Fixpoint collect {E A B} (f : A -> Result E B) (l : list A) : Result E (list B) :=
  match l with
  | [] => Ok []
  | x :: l' => y ← f x; ys ← collect f l'; Ok (y :: ys)
  end.

Section ResultLaws.
Context {E : Type}.

Lemma bind_ok {A B} (a : A) (f : A -> Result E B) : (Ok a ≫= f) = f a.
Proof. reflexivity. Qed.

Lemma bind_err {A B} (e : E) (f : A -> Result E B) : (Err e ≫= f) = Err e.
Proof. reflexivity. Qed.

Lemma bind_inv_ok {A B} (m : Result E A) (f : A -> Result E B) b :
  (m ≫= f) = Ok b -> exists a, m = Ok a /\ f a = Ok b.
Proof. destruct m; simpl; intros; naive_solver. Qed.

Lemma ok_or_inv {A} (o : option A) (e : E) a : ok_or o e = Ok a -> o = Some a.
Proof. destruct o; simpl; naive_solver. Qed.

Lemma collect_length {A B} (f : A -> Result E B) l ys :
  collect f l = Ok ys -> length ys = length l.
Proof.
  revert ys. induction l as [|x l IH]; simpl; intros ys H; [naive_solver|].
  apply bind_inv_ok in H as (y & _ & H). apply bind_inv_ok in H as (zs & Hz & H).
  injection H as <-. simpl. f_equal. by apply IH.
Qed.

Lemma collect_total {A B} (f : A -> Result E B) (g : A -> B) l :
  (forall x, x ∈ l -> f x = Ok (g x)) -> collect f l = Ok (g <$> l).
Proof.
  induction l as [|x l IH]; intros H; [done|]. simpl.
  rewrite H by set_solver. simpl. rewrite IH by set_solver. done.
Qed.

End ResultLaws.

(** Break a hypothesis [m ≫= f = Ok b] into its successful steps. *)
Ltac inv_ok :=
  repeat match goal with
  | H : (_ ≫= _) = Ok _ |- _ =>
      let a := fresh "a" in let Ha := fresh "Ha" in
      apply bind_inv_ok in H as (a & Ha & H)
  | H : Ok _ = Ok _ |- _ => injection H as H; subst
  | H : Err _ = Ok _ |- _ => discriminate H
  | H : Panic _ = Ok _ |- _ => discriminate H
  | H : ok_or _ _ = Ok _ |- _ => apply ok_or_inv in H
  end.

(** ** Lemma databases *)

Create HintDb vash.
Create Rewrite HintDb vash.
#[export] Hint Resolve wrapping_fits saturating_add64_fits saturating_sub_fits : vash.
#[export] Hint Rewrite @bind_ok @bind_err : vash.

(** ** Lists *)

Lemma take_length_app {A} (l k : list A) : take (length l) (l ++ k) = l.
Proof. by rewrite take_app_length. Qed.

Lemma drop_length_app {A} (l k : list A) : drop (length l) (l ++ k) = k.
Proof. by rewrite drop_app_length. Qed.

Lemma take_app_exact {A} n (l k : list A) : length l = n -> take n (l ++ k) = l.
Proof. intros <-. apply take_length_app. Qed.

Lemma drop_app_exact {A} n (l k : list A) : length l = n -> drop n (l ++ k) = k.
Proof. intros <-. apply drop_length_app. Qed.

(** [slice.get(..n)] and [split_at]: the first [n] items and what follows, or
    [None] when there are not that many. *)
Definition split_at {A} (n : nat) (l : list A) : option (list A * list A) :=
  if (n <=? length l)%nat then Some (take n l, drop n l) else None.

Lemma split_at_app {A} n (l k : list A) :
  length l = n -> split_at n (l ++ k) = Some (l, k).
Proof.
  intros Hn. unfold split_at. rewrite length_app.
  replace (n <=? length l + length k)%nat with true
    by (symmetry; apply Nat.leb_le; lia).
  by rewrite take_app_exact, drop_app_exact.
Qed.

Lemma split_at_Some {A} n (l a b : list A) :
  split_at n l = Some (a, b) -> l = a ++ b /\ length a = n.
Proof.
  unfold split_at. destruct (Nat.leb_spec n (length l)); [|done].
  intros [= <- <-]. split; [by rewrite take_drop|]. rewrite length_take. lia.
Qed.

Lemma split_at_None {A} n (l : list A) :
  split_at n l = None <-> (length l < n)%nat.
Proof.
  unfold split_at. destruct (Nat.leb_spec n (length l)); split; intros; try done; lia.
Qed.

Lemma filter_none {A} (P : A -> Prop) {HP : forall x, Decision (P x)} (l : list A) :
  (forall x, x ∈ l -> ~ P x) -> filter P l = [].
Proof.
  induction l as [|x l IH]; intros H; [done|]. rewrite filter_cons, decide_False by (apply H; left).
  apply IH. intros y Hy. apply H. by right.
Qed.
