(* ===== verification/Bytes.v ===== *)
(** Byte strings: [&[u8]], [Vec<u8>] and [Box<[u8]>] are [list byte].  This
    file holds the conversion to [Z], the lexicographic order the B-tree keys
    are kept in, and the little- and big-endian integer encodings. *)

From S2P Require Import Prelude.

Abbreviation bytes := (list byte).

#[global] Instance byte_eq_dec' : EqDecision byte := Byte.byte_eq_dec.

#[global] Program Instance byte_countable : Countable byte :=
  inj_countable Byte.to_N Byte.of_N _.
Next Obligation. intros x. apply Byte.of_to_N. Qed.

(** ** Bytes as numbers *)

Definition byte_val (b : byte) : Z := Z.of_N (Byte.to_N b).

Definition byte_of (z : Z) : byte :=
  match Byte.of_N (Z.to_N (z mod 256)) with Some b => b | None => Byte.x00 end.

Lemma byte_val_range b : 0 <= byte_val b < 256.
Proof. unfold byte_val. pose proof (Byte.to_N_bounded b). lia. Qed.

Lemma byte_val_fits b : fits 8 (byte_val b).
Proof. pose proof (byte_val_range b). width. Qed.

Lemma byte_val_of z : byte_val (byte_of z) = z mod 256.
Proof.
  unfold byte_val, byte_of. pose proof (Z.mod_pos_bound z 256 ltac:(lia)) as Hb.
  destruct (Byte.of_N (Z.to_N (z mod 256))) as [b|] eqn:E.
  - apply Byte.to_of_N in E. rewrite E. lia.
  - apply Byte.of_N_None_iff in E. lia.
Qed.

Lemma byte_of_val b : byte_of (byte_val b) = b.
Proof.
  unfold byte_of, byte_val.
  rewrite Z.mod_small by (pose proof (Byte.to_N_bounded b); lia).
  by rewrite N2Z.id, Byte.of_to_N.
Qed.

Lemma byte_val_inj a b : byte_val a = byte_val b -> a = b.
Proof. intros H. by rewrite <- (byte_of_val a), <- (byte_of_val b), H. Qed.

(** A string literal's bytes, as Rust's [b"..."]. *)
Definition bs (s : String.string) : bytes := String.list_byte_of_string s.

Arguments bs s%_string_scope.

(** ** Lexicographic order: how both storage engines order keys *)

Fixpoint lex_le (a b : bytes) : bool :=
  match a, b with
  | [], _ => true
  | _ :: _, [] => false
  | x :: a', y :: b' =>
      (byte_val x <? byte_val y) || ((byte_val x =? byte_val y) && lex_le a' b')
  end.

Definition lex_lt (a b : bytes) : bool := negb (lex_le b a).

Lemma lex_le_refl a : lex_le a a = true.
Proof. induction a as [|x a IH]; simpl; [done|]. rewrite Z.eqb_refl, IH. by destruct (_ <? _). Qed.

Lemma lex_le_total a b : lex_le a b = true \/ lex_le b a = true.
Proof.
  revert b. induction a as [|x a IH]; intros [|y b]; simpl; auto.
  destruct (IH b) as [H|H]; rewrite H;
    destruct (Z.ltb_spec (byte_val x) (byte_val y)), (Z.ltb_spec (byte_val y) (byte_val x)),
      (Z.eqb_spec (byte_val x) (byte_val y)), (Z.eqb_spec (byte_val y) (byte_val x));
    simpl; auto; lia.
Qed.

Lemma lex_le_antisym a b : lex_le a b = true -> lex_le b a = true -> a = b.
Proof.
  revert b. induction a as [|x a IH]; intros [|y b]; simpl; try done.
  destruct (Z.ltb_spec (byte_val x) (byte_val y)), (Z.ltb_spec (byte_val y) (byte_val x)),
    (Z.eqb_spec (byte_val x) (byte_val y)), (Z.eqb_spec (byte_val y) (byte_val x));
    simpl; intros; try done; try lia.
  f_equal; [by apply byte_val_inj|by apply IH].
Qed.

Lemma lex_le_trans a b c : lex_le a b = true -> lex_le b c = true -> lex_le a c = true.
Proof.
  revert b c. induction a as [|x a IH]; intros [|y b] [|z c]; simpl; try done.
  destruct (Z.ltb_spec (byte_val x) (byte_val y)), (Z.ltb_spec (byte_val y) (byte_val z)),
    (Z.ltb_spec (byte_val x) (byte_val z)),
    (Z.eqb_spec (byte_val x) (byte_val y)), (Z.eqb_spec (byte_val y) (byte_val z)),
    (Z.eqb_spec (byte_val x) (byte_val z)); simpl; intros; try done; try lia.
  eauto.
Qed.

Definition key_le {A} (x y : bytes * A) : Prop := lex_le x.1 y.1 = true.

#[global] Instance key_le_dec {A} (x y : bytes * A) : Decision (key_le x y).
Proof. unfold key_le. apply _. Defined.

#[global] Instance key_le_total {A} : Total (@key_le A).
Proof. intros x y. apply lex_le_total. Qed.

#[global] Instance key_le_trans {A} : Transitive (@key_le A).
Proof. intros x y z. apply lex_le_trans. Qed.

Lemma lex_lt_irrefl a : lex_lt a a = false.
Proof. unfold lex_lt. by rewrite lex_le_refl. Qed.

Lemma lex_lt_le a b : lex_lt a b = true -> lex_le a b = true.
Proof. unfold lex_lt. intros H. destruct (lex_le_total a b) as [->|H']; [done|]. by rewrite H' in H. Qed.

Lemma lex_le_not_lt a b : lex_le a b = true <-> lex_lt b a = false.
Proof. unfold lex_lt. destruct (lex_le a b); naive_solver. Qed.

Lemma lex_le_lt_or_eq a b : lex_le a b = true -> lex_lt a b = true \/ a = b.
Proof.
  intros H. unfold lex_lt. destruct (lex_le b a) eqn:E; [right|by left].
  by apply lex_le_antisym.
Qed.

Lemma lex_lt_trans a b c : lex_lt a b = true -> lex_lt b c = true -> lex_lt a c = true.
Proof.
  intros H1 H2. unfold lex_lt. destruct (lex_le c a) eqn:E; [|done]. exfalso.
  assert (lex_le c b = true) as H3 by (eapply lex_le_trans; [done|by apply lex_lt_le]).
  unfold lex_lt in H2. by rewrite H3 in H2.
Qed.

Lemma lex_le_app_same a b c : lex_le (a ++ b) (a ++ c) = lex_le b c.
Proof.
  induction a as [|x a IH]; simpl; [done|].
  rewrite Z.eqb_refl, Z.ltb_irrefl. simpl. apply IH.
Qed.

(** ** Little- and big-endian integers *)

Fixpoint le_bytes (n : nat) (z : Z) : bytes :=
  match n with
  | O => []
  | S n' => byte_of z :: le_bytes n' (z / 256)
  end.

Fixpoint le_val (l : bytes) : Z :=
  match l with
  | [] => 0
  | b :: l' => byte_val b + 256 * le_val l'
  end.

Definition be_bytes (n : nat) (z : Z) : bytes := reverse (le_bytes n z).

Definition be_val (l : bytes) : Z := le_val (reverse l).

Lemma length_le_bytes n z : length (le_bytes n z) = n.
Proof. revert z. induction n; simpl; auto. Qed.

Lemma length_be_bytes n z : length (be_bytes n z) = n.
Proof. unfold be_bytes. by rewrite length_reverse, length_le_bytes. Qed.

Lemma le_val_bytes n z : le_val (le_bytes n z) = z mod 256 ^ Z.of_nat n.
Proof.
  revert z. induction n as [|n IH]; intros z; [by rewrite Z.mod_1_r|].
  simpl le_bytes. simpl le_val. rewrite byte_val_of, IH, Nat2Z.inj_succ, Z.pow_succ_r by lia.
  rewrite Z.rem_mul_r; [|lia|]; [lia|]. apply Z.pow_pos_nonneg; lia.
Qed.

Lemma pow256 w n : w = 8 * Z.of_nat n -> 256 ^ Z.of_nat n = 2 ^ w.
Proof. intros ->. change 256 with (2 ^ 8). by rewrite Z.pow_mul_r by lia. Qed.

Lemma le_val_bytes_fits w n z :
  w = 8 * Z.of_nat n -> fits w z -> le_val (le_bytes n z) = z.
Proof.
  intros Hw Hz. rewrite le_val_bytes, (pow256 w n Hw). by apply Z.mod_small.
Qed.

Lemma le_val_range l : 0 <= le_val l < 256 ^ Z.of_nat (length l).
Proof.
  induction l as [|b l IH]; simpl length; simpl le_val; [lia|].
  rewrite Nat2Z.inj_succ, Z.pow_succ_r by lia. pose proof (byte_val_range b). lia.
Qed.

Lemma le_val_fits w l : w = 8 * Z.of_nat (length l) -> fits w (le_val l).
Proof. intros Hw. unfold fits. rewrite <- (pow256 w _ Hw). apply le_val_range. Qed.

Lemma le_bytes_val l : le_bytes (length l) (le_val l) = l.
Proof.
  induction l as [|b l IH]; simpl; [done|]. pose proof (byte_val_range b).
  f_equal.
  - apply byte_val_inj. rewrite byte_val_of.
    rewrite (Z.mul_comm 256), Z.mod_add by lia. by apply Z.mod_small.
  - rewrite (Z.mul_comm 256), Z.div_add by lia. by rewrite Z.div_small, Z.add_0_l.
Qed.

Lemma le_bytes_val_n n l : length l = n -> le_bytes n (le_val l) = l.
Proof. intros <-. apply le_bytes_val. Qed.

Lemma be_val_bytes_fits w n z :
  w = 8 * Z.of_nat n -> fits w z -> be_val (be_bytes n z) = z.
Proof.
  intros. unfold be_val, be_bytes. rewrite reverse_involutive.
  by eapply le_val_bytes_fits.
Qed.

Lemma be_bytes_val_n n l : length l = n -> be_bytes n (be_val l) = l.
Proof.
  intros. unfold be_val, be_bytes. rewrite le_bytes_val_n by by rewrite length_reverse.
  by rewrite reverse_involutive.
Qed.

Lemma be_val_fits w l : w = 8 * Z.of_nat (length l) -> fits w (be_val l).
Proof. intros. unfold be_val. apply le_val_fits. by rewrite length_reverse. Qed.

Lemma be_val_app a b : be_val (a ++ b) = be_val a * 256 ^ Z.of_nat (length b) + be_val b.
Proof.
  unfold be_val. rewrite reverse_app.
  assert (forall k l : bytes, le_val (k ++ l) = le_val k + 256 ^ Z.of_nat (length k) * le_val l) as Happ.
  { induction k as [|x k IH]; intros l; simpl le_val; [simpl length; lia|].
    simpl length. rewrite IH, Nat2Z.inj_succ, Z.pow_succ_r by lia. lia. }
  rewrite Happ, length_reverse. lia.
Qed.

Lemma be_bytes_inj w n x y :
  w = 8 * Z.of_nat n -> fits w x -> fits w y -> be_bytes n x = be_bytes n y -> x = y.
Proof.
  intros Hw Hx Hy H. rewrite <- (be_val_bytes_fits w n x), <- (be_val_bytes_fits w n y); auto.
  by rewrite H.
Qed.

(** For strings of equal length, byte order is the order of the big-endian
    values: the fact the expiry index rests on. *)
Lemma lex_le_be_val a b :
  length a = length b -> lex_le a b = (be_val a <=? be_val b).
Proof.
  revert b. induction a as [|x a IH]; intros [|y b] Hl; simpl in Hl; try done; [injection Hl as Hl].
  change (x :: a) with ([x] ++ a). change (y :: b) with ([y] ++ b).
  rewrite !be_val_app, <- Hl. unfold be_val at 1 3. simpl.
  pose proof (le_val_range (reverse a)) as Ra. pose proof (le_val_range (reverse b)) as Rb.
  rewrite length_reverse in Ra, Rb. rewrite <- Hl in Rb. fold (be_val a) (be_val b) in *.
  rewrite IH by done.
  destruct (Z.ltb_spec (byte_val x) (byte_val y)) as [Hlt|Hge]; simpl.
  - symmetry. apply Z.leb_le. nia.
  - destruct (Z.eqb_spec (byte_val x) (byte_val y)) as [->|Hne]; simpl.
    + destruct (Z.leb_spec (be_val a) (be_val b)); symmetry; [apply Z.leb_le|apply Z.leb_gt]; lia.
    + symmetry. apply Z.leb_gt. nia.
Qed.

#[export] Hint Rewrite length_le_bytes length_be_bytes : vash.
#[export] Hint Resolve byte_val_fits : vash.

Arguments le_bytes : simpl never.
Arguments le_val : simpl never.
Arguments be_bytes : simpl never.
Arguments be_val : simpl never.
