(* ===== verification/Text.v ===== *)
(** Text as the Rust standard library handles it: strict UTF-8 decoding
    ([str::from_utf8]), [str::trim], [u64::from_str] and the decimal rendering
    shared by [to_string] and [vash-proto/src/digits.rs]. *)

From S2P Require Import Prelude Bytes.

(** ** UTF-8 *)

Definition in_range (lo hi : Z) (b : byte) : bool :=
  (lo <=? byte_val b) && (byte_val b <=? hi).

Definition cont (b : byte) : bool := in_range 128 191 b.

(** The bounds on the second byte that exclude overlong forms, surrogates and
    code points past U+10FFFF. *)
Definition second_ok (b0 b1 : byte) : bool :=
  let v := byte_val b0 in
  if v =? 224 then in_range 160 191 b1
  else if v =? 237 then in_range 128 159 b1
  else if v =? 240 then in_range 144 191 b1
  else if v =? 244 then in_range 128 143 b1
  else cont b1.

Fixpoint utf8_decode (l : bytes) : option (list Z) :=
  match l with
  | [] => Some []
  | b0 :: l1 =>
      let v0 := byte_val b0 in
      if v0 <? 128 then cons v0 <$> utf8_decode l1
      else
        match l1 with
        | [] => None
        | b1 :: l2 =>
            if in_range 194 223 b0 then
              if cont b1 then
                cons ((v0 - 192) * 64 + (byte_val b1 - 128)) <$> utf8_decode l2
              else None
            else
              match l2 with
              | [] => None
              | b2 :: l3 =>
                  if in_range 224 239 b0 then
                    if second_ok b0 b1 && cont b2 then
                      cons ((v0 - 224) * 4096 + (byte_val b1 - 128) * 64
                            + (byte_val b2 - 128)) <$> utf8_decode l3
                    else None
                  else
                    match l3 with
                    | [] => None
                    | b3 :: l4 =>
                        if in_range 240 244 b0 && second_ok b0 b1
                           && cont b2 && cont b3 then
                          cons ((v0 - 240) * 262144 + (byte_val b1 - 128) * 4096
                                + (byte_val b2 - 128) * 64 + (byte_val b3 - 128))
                            <$> utf8_decode l4
                        else None
                    end
              end
        end
  end.

(** [char::is_whitespace]: the Unicode [White_Space] property. *)
Definition is_whitespace (c : Z) : bool :=
  ((9 <=? c) && (c <=? 13)) || (c =? 32) || (c =? 133) || (c =? 160)
  || (c =? 5760) || ((8192 <=? c) && (c <=? 8202)) || (c =? 8232) || (c =? 8233)
  || (c =? 8239) || (c =? 8287) || (c =? 12288).

Fixpoint trim_start (l : list Z) : list Z :=
  match l with
  | [] => []
  | c :: l' => if is_whitespace c then trim_start l' else l
  end.

Definition trim (l : list Z) : list Z := reverse (trim_start (reverse (trim_start l))).

(** ** Decimal digits *)

Definition is_digit_char (c : Z) : bool := (48 <=? c) && (c <=? 57).

Definition is_ascii_digit (b : byte) : bool := is_digit_char (byte_val b).

(** [u64::from_str] over code points: one optional [+], then at least one
    digit, with overflow checked at every step. *)
Fixpoint parse_digits (acc : Z) (l : list Z) : option Z :=
  match l with
  | [] => Some acc
  | c :: l' =>
      if is_digit_char c then
        let acc' := acc * 10 + (c - 48) in
        if acc' <=? U64_MAX then parse_digits acc' l' else None
      else None
  end.

Definition parse_u64 (l : list Z) : option Z :=
  match l with
  | [] => None
  | 43 :: (_ :: _) as l' => parse_digits 0 l'
  | _ => parse_digits 0 l
  end.

(** [i64::from_str]: a sign, then digits, with overflow checked. *)
Definition parse_i64 (l : list Z) : option Z :=
  match l with
  | 45 :: (_ :: _) as digits =>
      v ← parse_digits 0 digits; if v <=? - I64_MIN then Some (- v) else None
  | _ => v ← parse_u64 l; if v <=? I64_MAX then Some v else None
  end.

(** The loop of [push_u64]: digits written back to front.  Twenty rounds are
    enough for any [u64]. *)
Fixpoint digit_loop (fuel : nat) (value : Z) (acc : bytes) : bytes :=
  match fuel with
  | O => acc
  | S fuel' =>
      let acc' := byte_of (48 + value mod 10) :: acc in
      if value / 10 =? 0 then acc' else digit_loop fuel' (value / 10) acc'
  end.

Definition u64_text (value : Z) : bytes := digit_loop 20 value [].

Definition i64_text (value : Z) : bytes :=
  if value <? 0 then bs "-" ++ u64_text (- value) else u64_text value.

(** ** Buffers: an index into one is a [nat] *)

Definition SPACE : byte := Byte.x20.
Definition LF : byte := Byte.x0a.
Definition CR : byte := Byte.x0d.
Definition CRLF : bytes := [CR; LF].

(** [memchr]. *)
Fixpoint find_byte (b : byte) (l : bytes) : option nat :=
  match l with
  | [] => None
  | x :: l' => if bool_decide (x = b) then Some 0%nat else S <$> find_byte b l'
  end.

(** [&buf[from..to]]. *)
Definition slice_of (buf : bytes) (from to : nat) : bytes := take (to - from) (drop from buf).

(** ** Facts *)

Lemma digit_byte d : 0 <= d < 10 -> byte_val (byte_of (48 + d)) = 48 + d.
Proof. intros. rewrite byte_val_of. apply Z.mod_small. lia. Qed.

Lemma utf8_decode_ascii l :
  Forall (fun b => byte_val b < 128) l -> utf8_decode l = Some (byte_val <$> l).
Proof.
  induction 1 as [|b l Hb Hl IH]; [done|]. cbn [utf8_decode].
  rewrite (proj2 (Z.ltb_lt _ _) Hb), IH. done.
Qed.

Lemma is_ascii_digit_lt b : is_ascii_digit b = true -> 48 <= byte_val b <= 57.
Proof.
  unfold is_ascii_digit, is_digit_char. rewrite andb_true_iff, !Z.leb_le. lia.
Qed.

(** Reading the digits of [value] on top of an accumulator. *)
Lemma parse_digits_app acc l k :
  parse_digits acc (l ++ k) = (a ← parse_digits acc l; parse_digits a k).
Proof.
  revert acc. induction l as [|c l IH]; intros acc; [done|]. simpl.
  destruct (is_digit_char c); [|done]. by destruct (_ <=? _).
Qed.

Lemma digit_loop_acc fuel value acc :
  digit_loop fuel value acc = digit_loop fuel value [] ++ acc.
Proof.
  revert value acc. induction fuel as [|fuel IH]; intros; [done|].
  cbn [digit_loop]. destruct (_ =? 0); [done|].
  rewrite (IH _ (_ :: acc)), (IH _ [_]). by rewrite <- app_assoc.
Qed.

Lemma digit_loop_parse fuel value :
  0 <= value < 10 ^ Z.of_nat fuel -> value <= U64_MAX ->
  parse_digits 0 (byte_val <$> digit_loop fuel value []) = Some value.
Proof.
  revert value. induction fuel as [|fuel IH]; intros value Hv Hm.
  { replace value with 0 by lia. done. }
  rewrite Nat2Z.inj_succ, Z.pow_succ_r in Hv by lia.
  pose proof (Z.mod_pos_bound value 10 ltac:(lia)) as Hd.
  pose proof (Z.div_mod value 10 ltac:(lia)) as Hdm.
  assert (0 <= value / 10) by (apply Z.div_pos; lia).
  cbn [digit_loop]. destruct (Z.eqb_spec (value / 10) 0) as [H0|H0].
  - cbn [fmap list_fmap parse_digits]. rewrite digit_byte by lia.
    unfold is_digit_char. unfold U64_MAX.
    replace (48 <=? 48 + value mod 10) with true by (symmetry; apply Z.leb_le; lia).
    replace (48 + value mod 10 <=? 57) with true by (symmetry; apply Z.leb_le; lia).
    cbn [andb]. rewrite (proj2 (Z.leb_le _ _)) by lia. f_equal. lia.
  - rewrite digit_loop_acc, fmap_app, parse_digits_app.
    rewrite IH by (try lia; apply Z.div_lt_upper_bound; lia).
    cbn [mbind option_bind fmap list_fmap parse_digits]. rewrite digit_byte by lia.
    unfold is_digit_char.
    replace (48 <=? 48 + value mod 10) with true by (symmetry; apply Z.leb_le; lia).
    replace (48 + value mod 10 <=? 57) with true by (symmetry; apply Z.leb_le; lia).
    cbn [andb]. rewrite (proj2 (Z.leb_le _ _)) by lia. f_equal. lia.
Qed.

Lemma digit_loop_digits fuel value acc :
  0 <= value -> Forall (fun b => is_ascii_digit b = true) acc ->
  Forall (fun b => is_ascii_digit b = true) (digit_loop fuel value acc).
Proof.
  revert value acc. induction fuel as [|fuel IH]; intros value acc Hv Ha; [done|].
  cbn [digit_loop]. pose proof (Z.mod_pos_bound value 10 ltac:(lia)).
  assert (Forall (fun b => is_ascii_digit b = true) (byte_of (48 + value mod 10) :: acc)).
  { constructor; [|done]. unfold is_ascii_digit, is_digit_char.
    rewrite digit_byte by lia. rewrite andb_true_iff, !Z.leb_le. lia. }
  destruct (_ =? 0); [done|]. apply IH; [|done]. apply Z.div_pos; lia.
Qed.

Lemma digit_loop_nonempty fuel value acc : digit_loop (S fuel) value acc <> [].
Proof.
  revert value acc. induction fuel as [|fuel IH]; intros; cbn [digit_loop];
    destruct (_ =? 0); try done. apply IH.
Qed.

(** No leading zero: the first digit is [0] only for zero itself. *)
Lemma digit_loop_head fuel value acc :
  0 < value < 10 ^ Z.of_nat fuel ->
  exists b l, digit_loop fuel value acc = b :: l /\ 49 <= byte_val b <= 57.
Proof.
  revert value acc. induction fuel as [|fuel IH]; intros value acc Hv.
  { simpl in Hv. lia. }
  rewrite Nat2Z.inj_succ, Z.pow_succ_r in Hv by lia.
  pose proof (Z.mod_pos_bound value 10 ltac:(lia)).
  pose proof (Z.div_mod value 10 ltac:(lia)).
  cbn [digit_loop]. destruct (Z.eqb_spec (value / 10) 0) as [Hz|Hz].
  - eexists _, _. split; [done|]. rewrite digit_byte by lia. lia.
  - apply IH. split; [assert (0 <= value / 10) by (apply Z.div_pos; lia); lia|].
    apply Z.div_lt_upper_bound; lia.
Qed.

Lemma u64_text_digits value :
  0 <= value -> Forall (fun b => is_ascii_digit b = true) (u64_text value).
Proof. intros. by apply digit_loop_digits. Qed.

Lemma u64_text_nonempty value : u64_text value <> [].
Proof. apply digit_loop_nonempty. Qed.

Lemma u64_text_parse_digits value :
  fits 64 value -> parse_digits 0 (byte_val <$> u64_text value) = Some value.
Proof. intros Hv. apply digit_loop_parse; width. Qed.

(** Decimal text reads back as the number it was printed from. *)
Lemma u64_text_roundtrip value :
  fits 64 value -> parse_u64 (byte_val <$> u64_text value) = Some value.
Proof.
  intros Hv. pose proof (u64_text_parse_digits value Hv) as Hp.
  pose proof (u64_text_nonempty value) as Hne.
  pose proof (u64_text_digits value ltac:(width)) as Hd.
  destruct (u64_text value) as [|b l] eqn:E; [done|].
  apply Forall_cons in Hd as [Hb _]. apply is_ascii_digit_lt in Hb.
  cbn [fmap list_fmap] in *. unfold parse_u64.
  destruct (byte_val b) as [|p|p] eqn:Eb; try lia.
  repeat (destruct p as [p|p|]; try lia; try exact Hp).
Qed.

(** Digits are not whitespace, so trimming leaves decimal text alone. *)
Lemma digit_not_whitespace c : is_digit_char c = true -> is_whitespace c = false.
Proof.
  unfold is_digit_char, is_whitespace. rewrite andb_true_iff, !Z.leb_le. intros.
  rewrite !orb_false_iff, !andb_false_iff, !Z.leb_gt, !Z.eqb_neq. lia.
Qed.

Lemma trim_start_digits l :
  Forall (fun c => is_digit_char c = true) l -> trim_start l = l.
Proof. intros [|c l' Hc Hl]; [done|]. simpl. by rewrite digit_not_whitespace. Qed.

Lemma trim_digits l : Forall (fun c => is_digit_char c = true) l -> trim l = l.
Proof.
  intros H. unfold trim. rewrite (trim_start_digits l H), trim_start_digits.
  - by rewrite reverse_involutive.
  - by rewrite Forall_reverse.
Qed.

(** Numbers whose text the parser accepts fit their type. *)
Lemma parse_digits_range acc l v :
  fits 64 acc -> parse_digits acc l = Some v -> fits 64 v.
Proof.
  revert acc. induction l as [|c l IH]; simpl; intros acc Ha H; [naive_solver|].
  destruct (is_digit_char c) eqn:Hc; [|done].
  destruct (Z.leb_spec (acc * 10 + (c - 48)) U64_MAX); [|done].
  apply IH in H; [done|]. unfold is_digit_char in Hc.
  apply andb_true_iff in Hc as [H1%Z.leb_le H2%Z.leb_le]. width.
Qed.

Lemma parse_u64_range l v : parse_u64 l = Some v -> fits 64 v.
Proof.
  assert (forall l, parse_digits 0 l = Some v -> fits 64 v) as Hd.
  { intros k. apply parse_digits_range. width. }
  unfold parse_u64. repeat (case_match; try done); eauto.
Qed.

(** ** Buffers *)

Lemma find_byte_cases b l :
  match find_byte b l with
  | Some n => exists x y, l = x ++ b :: y /\ b ∉ x /\ length x = n
  | None => b ∉ l
  end.
Proof.
  induction l as [|a l IH]; cbn [find_byte]; [apply not_elem_of_nil|].
  case_bool_decide as Ha.
  - subst. exists [], l. by conjs; [|apply not_elem_of_nil|].
  - destruct (find_byte b l) as [n|]; cbn.
    + destruct IH as (x & y & -> & Hx & <-). exists (a :: x), y. conjs; [done| |done]. by apply not_elem_of_cons.
    + by apply not_elem_of_cons.
Qed.

Lemma find_byte_app b x y : b ∉ x -> find_byte b (x ++ b :: y) = Some (length x).
Proof.
  induction x as [|a x IH]; intros H; cbn [find_byte app].
  - by rewrite bool_decide_eq_true_2.
  - apply not_elem_of_cons in H as [Ha Hx]. by rewrite bool_decide_eq_false_2, IH.
Qed.

Lemma find_byte_none b l : b ∉ l -> find_byte b l = None.
Proof. intros H. pose proof (find_byte_cases b l) as Hc. destruct (find_byte b l); [|done]. destruct Hc as (x & y & -> & _). set_solver. Qed.

Lemma last_lookup_snoc (l : bytes) x y : (l ++ x :: y) !! length l = Some x.
Proof. by rewrite list_lookup_middle. Qed.

(** [b'] agrees with [b] up to [k]. *)
Definition agree (k : nat) (b b' : bytes) : Prop :=
  (k <= length b)%nat /\ (k <= length b')%nat /\ take k b = take k b'.

Lemma slice_of_take b i j k : (j <= k)%nat -> slice_of (take k b) i j = slice_of b i j.
Proof.
  intros Hj. unfold slice_of. rewrite skipn_firstn_comm, take_take. f_equal. lia.
Qed.

Lemma agree_slice k b b' i j : agree k b b' -> (j <= k)%nat -> slice_of b i j = slice_of b' i j.
Proof. intros (_ & _ & H) Hj. by rewrite <- (slice_of_take b i j k), H, slice_of_take. Qed.

Lemma agree_app b more : agree (length b) b (b ++ more).
Proof. split; [done|]. rewrite length_app. split; [lia|]. by rewrite take_length_app, take_ge. Qed.

Lemma agree_take k b more : (k <= length b)%nat -> agree k b (take k b ++ more).
Proof.
  intros H. split; [done|]. rewrite length_app, length_take. split; [lia|].
  rewrite take_app_le by (rewrite length_take; lia). by rewrite take_take, Nat.min_id.
Qed.

Lemma agree_le j k b b' : (j <= k)%nat -> agree k b b' -> agree j b b'.
Proof.
  intros Hj (H1 & H2 & H). split; [lia|]. split; [lia|].
  rewrite <- (Nat.min_l j k), <- !take_take by done. by rewrite H.
Qed.

Lemma slice_here (a b rest : bytes) i j :
  i = length a -> j = (length a + length b)%nat -> slice_of (a ++ b ++ rest) i j = b.
Proof. intros -> ->. unfold slice_of. rewrite drop_length_app. apply take_app_exact. lia. Qed.
