(* ===== verification/Core.v ===== *)
(** [vash-core]: the error type, keys and values ([error.rs], [key.rs],
    [value.rs]).  Nothing here performs I/O. *)

From S2P Require Import Prelude Bytes Text.

(** ** error.rs *)

Inductive CoreError : Type :=
| EmptyKey
| KeyTooLong (len max : Z)
| InvalidKeyByte (b : byte) (offset : Z)
| ValueTooLarge (len max : Z)
| TooManyTags (count max : Z)
| EmptyTag
| TagTooLong (len max : Z)
| BadLimit (limit max : Z)
| BadPattern
| BadCursor (detail : String.string)
| NotAnInteger
| NotAFloat
| Overflow
| NotFinite
| MalformedRecord (detail : String.string)
| RecordVersion (found expected : Z).

#[global] Instance CoreError_eq_dec : EqDecision CoreError.
Proof.
  intros x y. unfold Decision. decide equality; try apply Z.eq_dec;
    try apply Byte.byte_eq_dec; apply String.string_dec.
Defined.

(** [slice.len()]. *)
Definition len {A} (l : list A) : Z := Z.of_nat (length l).

Lemma len_app {A} (l k : list A) : len (l ++ k) = len l + len k.
Proof. unfold len. rewrite length_app. lia. Qed.

Lemma len_nonneg {A} (l : list A) : 0 <= len l.
Proof. unfold len. lia. Qed.

(** ** key.rs *)

Definition MAX_KEY_LEN : Z := 511.

(** A [Key] is the bytes it borrows; [Key_new] is the only checked way in. *)
Definition Key_new (b : bytes) : Result CoreError bytes :=
  if len b =? 0 then Err EmptyKey
  else if MAX_KEY_LEN <? len b then Err (KeyTooLong (len b) MAX_KEY_LEN)
  else Ok b.

(** [Key::from_stored]: no validation. *)
Definition Key_from_stored (b : bytes) : bytes := b.

Definition valid_key (b : bytes) : Prop := 1 <= len b <= MAX_KEY_LEN.

#[global] Instance valid_key_dec b : Decision (valid_key b).
Proof. unfold valid_key. apply _. Defined.

(** ** value.rs *)

Definition DEFAULT_MAX_VALUE_LEN : Z := 1024 * 1024.

Definition ABSOLUTE_MAX_VALUE_LEN : Z := 64 * 1024 * 1024.

Definition validate_value (value : bytes) (max : Z) : Result CoreError unit :=
  if max <? len value then Err (ValueTooLarge (len value) max) else Ok ().

(** ** Facts *)

Lemma Key_new_ok b : Key_new b = Ok b <-> valid_key b.
Proof.
  unfold Key_new, valid_key. pose proof (len_nonneg b).
  destruct (Z.eqb_spec (len b) 0); [split; [done|lia]|].
  destruct (Z.ltb_spec MAX_KEY_LEN (len b)); split; try done; lia.
Qed.

Lemma Key_new_inv b k : Key_new b = Ok k -> k = b /\ valid_key b.
Proof.
  intros H. assert (k = b) as ->.
  { revert H. unfold Key_new. repeat case_match; naive_solver. }
  split; [done|]. by apply Key_new_ok.
Qed.

Lemma validate_value_ok v max : validate_value v max = Ok () <-> len v <= max.
Proof. unfold validate_value. destruct (Z.ltb_spec max (len v)); split; try done; lia. Qed.

Lemma len_slice b i j : (i <= j)%nat -> (j <= length b)%nat -> len (slice_of b i j) = Z.of_nat (j - i).
Proof. intros. unfold len, slice_of. rewrite length_take, length_drop. lia. Qed.
