(* ===== verification/Record.v ===== *)
(** [vash-core/src/record.rs]: the on-disk record format and the liveness
    rules every read applies to it. *)

From S2P Require Import Prelude Bytes Core.

#[local] Delimit Scope string_scope with str.

Definition RECORD_VERSION : Z := 1.

Definition RECORD_HEADER_LEN : Z := 28.

Definition TAG_REF_LEN : Z := 12.

Definition DEFAULT_MAX_TAGS : Z := 32.

Definition ABSOLUTE_MAX_TAGS : Z := U8_MAX.

Definition MAX_TAG_LEN : Z := 255.

Definition NEVER : Z := 0.

Definition validate_tags (count max : Z) : Result CoreError unit :=
  if max <? count then Err (TooManyTags count max) else Ok ().

(** ** Layout

    [RecordHeader] and [TagRef] are [repr(C)], unaligned and little-endian, so
    their bytes are the concatenation of their fields. *)

Record RecordHeader := mkHeader {
  h_version : Z;
  h_tag_count : Z;
  h_reserved : Z;
  h_epoch : Z;
  h_mc_flags : Z;
  h_expires_at_ms : Z;
  h_cas : Z
}.

Record TagRef := mkTagRef { tag_id : Z; generation : Z }.

#[global] Instance TagRef_eq_dec : EqDecision TagRef.
Proof. solve_decision. Defined.

Record RecordMeta := mkMeta {
  m_epoch : Z;
  m_mc_flags : Z;
  m_expires_at_ms : Z;
  m_cas : Z
}.

(** A parsed record: its header, its tag table and its value. *)
Record RecordRef := mkRecordRef {
  header : RecordHeader;
  tags : list TagRef;
  value : bytes
}.

Definition RecordMeta_default : RecordMeta := mkMeta 0 0 0 0.

(** [header.as_bytes()]. *)
Definition header_bytes (h : RecordHeader) : bytes :=
  le_bytes 1 (h_version h) ++ le_bytes 1 (h_tag_count h) ++ le_bytes 2 (h_reserved h)
  ++ le_bytes 4 (h_epoch h) ++ le_bytes 4 (h_mc_flags h)
  ++ le_bytes 8 (h_expires_at_ms h) ++ le_bytes 8 (h_cas h).

(** One field off the front of a buffer. *)
Definition take_field (n : nat) (b : bytes) : option (Z * bytes) :=
  '(f, rest) ← split_at n b; Some (le_val f, rest).

(** [RecordHeader::ref_from_prefix]. *)
Definition header_from_prefix (b : bytes) : option (RecordHeader * bytes) :=
  '(v, b) ← take_field 1 b;
  '(tc, b) ← take_field 1 b;
  '(rs, b) ← take_field 2 b;
  '(ep, b) ← take_field 4 b;
  '(fl, b) ← take_field 4 b;
  '(ex, b) ← take_field 8 b;
  '(cas, b) ← take_field 8 b;
  Some (mkHeader v tc rs ep fl ex cas, b).

Definition tag_bytes (t : TagRef) : bytes :=
  le_bytes 4 (tag_id t) ++ le_bytes 8 (generation t).

(** [tags.as_bytes()]. *)
Definition tags_bytes (ts : list TagRef) : bytes := mjoin (tag_bytes <$> ts).

(** [<[TagRef]>::ref_from_prefix_with_elems]. *)
Fixpoint tags_from_prefix (n : nat) (b : bytes) : option (list TagRef * bytes) :=
  match n with
  | O => Some ([], b)
  | S n' =>
      '(id, b) ← take_field 4 b;
      '(g, b) ← take_field 8 b;
      '(ts, b) ← tags_from_prefix n' b;
      Some (mkTagRef id g :: ts, b)
  end.

(** ** RecordRef *)

Definition RecordRef_parse (buf : bytes) : Result CoreError RecordRef :=
  match header_from_prefix buf with
  | None => Err (MalformedRecord "shorter than the header")
  | Some (h, rest) =>
      if negb (h_version h =? RECORD_VERSION)
      then Err (RecordVersion (h_version h) RECORD_VERSION)
      else
        match tags_from_prefix (Z.to_nat (h_tag_count h)) rest with
        | None => Err (MalformedRecord "tag table extends past the record")
        | Some (ts, v) => Ok (mkRecordRef h ts v)
        end
  end.

Definition cas (r : RecordRef) : Z := h_cas (header r).

Definition mc_flags (r : RecordRef) : Z := h_mc_flags (header r).

Definition expires_at_ms (r : RecordRef) : Z := h_expires_at_ms (header r).

Definition is_expired (r : RecordRef) (now_ms : Z) : bool :=
  negb (expires_at_ms r =? NEVER) && (expires_at_ms r <=? now_ms).

Definition is_flushed (r : RecordRef) (current_epoch : Z) : bool :=
  negb (h_epoch (header r) =? current_epoch).

Definition tags_alive (r : RecordRef) (current_generation : Z -> option Z) : bool :=
  forallb (fun t => match current_generation (tag_id t) with
                    | Some current => current =? generation t
                    | None => false
                    end) (tags r).

Definition needs_tag_registry (r : RecordRef) : bool :=
  match tags r with [] => false | _ => true end.

Definition is_alive (r : RecordRef) (now_ms current_epoch : Z)
    (current_generation : Z -> option Z) : bool :=
  negb (is_expired r now_ms) && negb (is_flushed r current_epoch)
  && tags_alive r current_generation.

(** ** Encoding and patching *)

Definition RECORD_CAS_OFFSET : Z := 20.

Definition RECORD_EXPIRES_AT_OFFSET : Z := 12.

Definition patch_u64 (record : bytes) (offset value : Z) : Result CoreError bytes :=
  let stop := offset + 8 in
  if len record <? stop then Err (MalformedRecord "record is shorter than its header")
  else Ok (take (Z.to_nat offset) record ++ le_bytes 8 value
           ++ drop (Z.to_nat stop) record).

Definition patch_cas (record : bytes) (c : Z) : Result CoreError bytes :=
  patch_u64 record RECORD_CAS_OFFSET c.

Definition patch_expiry (record : bytes) (e : Z) : Result CoreError bytes :=
  patch_u64 record RECORD_EXPIRES_AT_OFFSET e.

Definition record_len (tag_count value_len : Z) : Z :=
  RECORD_HEADER_LEN + tag_count * TAG_REF_LEN + value_len.

Definition encode_record (meta : RecordMeta) (ts : list TagRef) (v : bytes)
    : Result CoreError bytes :=
  _ ← validate_tags (len ts) ABSOLUTE_MAX_TAGS;
  let h := mkHeader RECORD_VERSION (wrapping 8 (len ts)) 0 (m_epoch meta)
             (m_mc_flags meta) (m_expires_at_ms meta) (m_cas meta) in
  Ok (header_bytes h ++ tags_bytes ts ++ v).

(** ** Well-formed contents: every field fits its width. *)

Definition tag_ok (t : TagRef) : Prop := fits 32 (tag_id t) /\ fits 64 (generation t).

Definition meta_ok (m : RecordMeta) : Prop :=
  fits 32 (m_epoch m) /\ fits 32 (m_mc_flags m) /\ fits 64 (m_expires_at_ms m)
  /\ fits 64 (m_cas m).

Definition header_ok (h : RecordHeader) : Prop :=
  fits 8 (h_version h) /\ fits 8 (h_tag_count h) /\ fits 16 (h_reserved h)
  /\ fits 32 (h_epoch h) /\ fits 32 (h_mc_flags h) /\ fits 64 (h_expires_at_ms h)
  /\ fits 64 (h_cas h).

#[global] Instance tag_ok_dec t : Decision (tag_ok t).
Proof. unfold tag_ok. apply _. Defined.

#[global] Instance meta_ok_dec m : Decision (meta_ok m).
Proof. unfold meta_ok. apply _. Defined.

(** The record a write produces from its metadata. *)
Definition record_of (m : RecordMeta) (ts : list TagRef) (v : bytes) : RecordRef :=
  mkRecordRef (mkHeader RECORD_VERSION (len ts) 0 (m_epoch m) (m_mc_flags m)
                 (m_expires_at_ms m) (m_cas m)) ts v.

Definition set_cas (r : RecordRef) (c : Z) : RecordRef :=
  let h := header r in
  mkRecordRef (mkHeader (h_version h) (h_tag_count h) (h_reserved h) (h_epoch h)
                 (h_mc_flags h) (h_expires_at_ms h) c) (tags r) (value r).

Definition set_expiry (r : RecordRef) (e : Z) : RecordRef :=
  let h := header r in
  mkRecordRef (mkHeader (h_version h) (h_tag_count h) (h_reserved h) (h_epoch h)
                 (h_mc_flags h) e (h_cas h)) (tags r) (value r).

(** ** Lemmas *)

Lemma take_field_app w n z rest :
  w = 8 * Z.of_nat n -> fits w z -> take_field n (le_bytes n z ++ rest) = Some (z, rest).
Proof.
  intros Hw Hz. unfold take_field.
  rewrite split_at_app by apply length_le_bytes. simpl.
  by rewrite (le_val_bytes_fits w) by done.
Qed.

Lemma take_field_inv w n b z rest :
  w = 8 * Z.of_nat n -> take_field n b = Some (z, rest) ->
  b = le_bytes n z ++ rest /\ fits w z.
Proof.
  intros Hw H. unfold take_field in H.
  destruct (split_at n b) as [[f r]|] eqn:E; simpl in H; [|done].
  injection H as <- <-. apply split_at_Some in E as [-> Hl].
  rewrite le_bytes_val_n by done. split; [done|]. apply le_val_fits. by rewrite Hl.
Qed.

Lemma take_field_None n b : take_field n b = None <-> (length b < n)%nat.
Proof.
  unfold take_field. rewrite <- split_at_None. by destruct (split_at n b) as [[]|].
Qed.

Lemma header_from_prefix_app h rest :
  header_ok h -> header_from_prefix (header_bytes h ++ rest) = Some (h, rest).
Proof.
  intros (H1 & H2 & H3 & H4 & H5 & H6 & H7). destruct h.
  cbn [h_version h_tag_count h_reserved h_epoch h_mc_flags h_expires_at_ms h_cas] in *.
  unfold header_from_prefix, header_bytes. cbn [h_version h_tag_count h_reserved h_epoch h_mc_flags h_expires_at_ms h_cas].
  rewrite <- !app_assoc.
  rewrite (take_field_app 8 1) by done. cbn [mbind option_bind].
  rewrite (take_field_app 8 1) by done. cbn [mbind option_bind].
  rewrite (take_field_app 16 2) by done. cbn [mbind option_bind].
  rewrite (take_field_app 32 4) by done. cbn [mbind option_bind].
  rewrite (take_field_app 32 4) by done. cbn [mbind option_bind].
  rewrite (take_field_app 64 8) by done. cbn [mbind option_bind].
  by rewrite (take_field_app 64 8) by done.
Qed.

(** Peel the fields a successful prefix parse consumed. *)
Ltac inv_fields :=
  repeat match goal with
  | H : (take_field ?n ?b ≫= _) = Some _ |- _ =>
      let z := fresh "z" in let r := fresh "r" in let E := fresh "E" in
      destruct (take_field n b) as [[z r]|] eqn:E; [|discriminate H];
      cbn [mbind option_bind] in H;
      first [ apply (take_field_inv 8 1) in E as [-> ?]; [|reflexivity]
            | apply (take_field_inv 16 2) in E as [-> ?]; [|reflexivity]
            | apply (take_field_inv 32 4) in E as [-> ?]; [|reflexivity]
            | apply (take_field_inv 64 8) in E as [-> ?]; [|reflexivity] ]
  end.

Lemma header_from_prefix_inv b h rest :
  header_from_prefix b = Some (h, rest) -> b = header_bytes h ++ rest /\ header_ok h.
Proof.
  unfold header_from_prefix. intros H. inv_fields. injection H as <- <-.
  unfold header_bytes, header_ok. cbn [h_version h_tag_count h_reserved h_epoch h_mc_flags h_expires_at_ms h_cas].
  rewrite <- !app_assoc. split_and!; done.
Qed.

Lemma length_header_bytes h : length (header_bytes h) = 28%nat.
Proof. unfold header_bytes. by rewrite !length_app, !length_le_bytes. Qed.

Lemma length_tag_bytes t : length (tag_bytes t) = 12%nat.
Proof. unfold tag_bytes. by rewrite !length_app, !length_le_bytes. Qed.

Lemma tags_bytes_cons t ts : tags_bytes (t :: ts) = tag_bytes t ++ tags_bytes ts.
Proof. reflexivity. Qed.

Lemma length_tags_bytes ts : length (tags_bytes ts) = (12 * length ts)%nat.
Proof.
  induction ts as [|t ts IH]; [done|].
  rewrite tags_bytes_cons, length_app, length_tag_bytes, IH. simpl. lia.
Qed.

Lemma header_from_prefix_None b : header_from_prefix b = None <-> (length b < 28)%nat.
Proof.
  split.
  - intros H. destruct (decide (length b < 28)%nat) as [|Hge]; [done|]. exfalso.
    unfold header_from_prefix in H.
    repeat match goal with
    | H : (take_field ?n ?b ≫= _) = None |- _ =>
        let z := fresh "z" in let r := fresh "r" in let E := fresh "E" in
        destruct (take_field n b) as [[z r]|] eqn:E; cbn [mbind option_bind] in H;
        [ unfold take_field in E; destruct (split_at n b) as [[? ?]|] eqn:Es; [|done];
          cbn [mbind option_bind] in E; injection E as <- <-;
          apply split_at_Some in Es as [-> ?]; rewrite length_app in Hge
        | apply take_field_None in E; lia ]
    end. done.
  - intros Hl. destruct (header_from_prefix b) as [[h r]|] eqn:E; [|done].
    apply header_from_prefix_inv in E as [-> _].
    rewrite length_app, length_header_bytes in Hl. lia.
Qed.

Lemma tags_from_prefix_app ts v :
  Forall tag_ok ts -> tags_from_prefix (length ts) (tags_bytes ts ++ v) = Some (ts, v).
Proof.
  induction 1 as [|[id g] ts [H1 H2] Hts IH]; [done|].
  rewrite tags_bytes_cons. unfold tag_bytes. cbn [length tags_from_prefix tag_id generation] in *.
  rewrite <- !app_assoc.
  rewrite (take_field_app 32 4) by done. cbn [mbind option_bind].
  rewrite (take_field_app 64 8) by done. cbn [mbind option_bind].
  by rewrite IH.
Qed.

Lemma tags_from_prefix_inv n b ts v :
  tags_from_prefix n b = Some (ts, v) ->
  b = tags_bytes ts ++ v /\ length ts = n /\ Forall tag_ok ts.
Proof.
  revert b ts v. induction n as [|n IH]; intros b ts v H; cbn [tags_from_prefix] in H.
  { injection H as <- <-. by repeat split; try constructor. }
  inv_fields. destruct (tags_from_prefix n _) as [[ts' v']|] eqn:E; [|done].
  cbn [mbind option_bind] in H. injection H as <- <-.
  apply IH in E as (-> & <- & Hok). split_and!; [|done|by constructor].
  rewrite tags_bytes_cons. unfold tag_bytes. cbn [tag_id generation].
  by rewrite <- !app_assoc.
Qed.

Lemma tags_from_prefix_None n b :
  tags_from_prefix n b = None <-> (length b < 12 * n)%nat.
Proof.
  revert b. induction n as [|n IH]; intros b; cbn [tags_from_prefix]; [split; [done|lia]|].
  destruct (take_field 4 b) as [[id b1]|] eqn:E1; cbn [mbind option_bind].
  2:{ apply take_field_None in E1. split; [lia|done]. }
  apply (take_field_inv 32 4) in E1 as [-> _]; [|done]. rewrite length_app, length_le_bytes.
  destruct (take_field 8 b1) as [[g b2]|] eqn:E2; cbn [mbind option_bind].
  2:{ apply take_field_None in E2. split; [lia|done]. }
  apply (take_field_inv 64 8) in E2 as [-> _]; [|done]. rewrite length_app, length_le_bytes.
  specialize (IH b2). destruct (tags_from_prefix n b2) as [[ts v]|]; cbn [mbind option_bind].
  - split; [done|]. intros. exfalso. destruct IH as [_ IH]. by discriminate IH; lia.
  - split; [|done]. intros _. pose proof (proj1 IH eq_refl). lia.
Qed.

Lemma header_bytes_app_inj h rest : header_ok h ->
  header_from_prefix (header_bytes h ++ rest) = Some (h, rest).
Proof. apply header_from_prefix_app. Qed.

(** Exactly the byte strings [RecordRef_parse] accepts, and as what. *)
Lemma parse_ok_iff buf r :
  RecordRef_parse buf = Ok r <->
  buf = header_bytes (header r) ++ tags_bytes (tags r) ++ value r
  /\ header_ok (header r) /\ h_version (header r) = RECORD_VERSION
  /\ len (tags r) = h_tag_count (header r) /\ Forall tag_ok (tags r).
Proof.
  unfold RecordRef_parse. split.
  - destruct (header_from_prefix buf) as [[h rest]|] eqn:Eh; [|done].
    apply header_from_prefix_inv in Eh as [-> Hh].
    destruct (Z.eqb_spec (h_version h) RECORD_VERSION) as [Hv|]; simpl; [|done].
    destruct (tags_from_prefix _ rest) as [[ts v]|] eqn:Et; [|done].
    apply tags_from_prefix_inv in Et as (-> & Hl & Hok). intros [= <-].
    cbn [header tags value]. split_and!; try done. unfold len. rewrite Hl.
    destruct Hh as (_ & [] & _). lia.
  - intros (-> & Hh & Hv & Hl & Hok). rewrite header_from_prefix_app by done.
    rewrite Hv. simpl. rewrite <- Hl. unfold len. rewrite Nat2Z.id.
    rewrite tags_from_prefix_app by done. by destruct r.
Qed.

Lemma parse_no_panic buf why : RecordRef_parse buf <> Panic why.
Proof. unfold RecordRef_parse. repeat case_match; done. Qed.

Lemma encode_record_ok m ts v :
  len ts <= ABSOLUTE_MAX_TAGS ->
  encode_record m ts v =
    Ok (header_bytes (header (record_of m ts v)) ++ tags_bytes ts ++ v).
Proof.
  intros Hl. unfold encode_record, validate_tags.
  rewrite (proj2 (Z.ltb_ge _ _)) by done. simpl. unfold record_of. cbn [header].
  rewrite wrapping_small; [done|]. unfold ABSOLUTE_MAX_TAGS in Hl.
  pose proof (len_nonneg ts). width.
Qed.

Lemma encode_record_inv m ts v buf :
  encode_record m ts v = Ok buf -> len ts <= ABSOLUTE_MAX_TAGS.
Proof.
  unfold encode_record, validate_tags. destruct (Z.ltb_spec ABSOLUTE_MAX_TAGS (len ts)); [done|].
  lia.
Qed.

Lemma record_of_parse m ts v :
  meta_ok m -> Forall tag_ok ts -> len ts <= ABSOLUTE_MAX_TAGS ->
  RecordRef_parse (header_bytes (header (record_of m ts v)) ++ tags_bytes ts ++ v)
  = Ok (record_of m ts v).
Proof.
  intros (H1 & H2 & H3 & H4) Hts Hl. apply parse_ok_iff.
  unfold record_of. cbn [header tags value]. split_and!; try done.
  unfold header_ok. cbn [h_version h_tag_count h_reserved h_epoch h_mc_flags h_expires_at_ms h_cas].
  unfold ABSOLUTE_MAX_TAGS in Hl. pose proof (len_nonneg ts).
  unfold RECORD_VERSION. split_and!; width || done.
Qed.

Lemma encode_parse m ts v buf :
  meta_ok m -> Forall tag_ok ts -> encode_record m ts v = Ok buf ->
  RecordRef_parse buf = Ok (record_of m ts v).
Proof.
  intros Hm Hts H. pose proof (encode_record_inv _ _ _ _ H) as Hl.
  rewrite encode_record_ok in H by done. injection H as <-. by apply record_of_parse.
Qed.

(** Splitting a header around one eight-byte field. *)
Lemma patch_u64_app pre old post offset v :
  offset = len pre -> len old = 8 ->
  patch_u64 (pre ++ old ++ post) offset v = Ok (pre ++ le_bytes 8 v ++ post).
Proof.
  intros -> Ho. unfold patch_u64. rewrite !len_app, Ho.
  pose proof (len_nonneg post).
  rewrite (proj2 (Z.ltb_ge _ _)) by lia. unfold len at 1. rewrite Nat2Z.id, take_length_app.
  f_equal. f_equal. f_equal. rewrite app_assoc. apply drop_app_exact.
  rewrite length_app. unfold len in *. lia.
Qed.

Lemma patch_cas_parse buf r c :
  RecordRef_parse buf = Ok r -> fits 64 c ->
  exists buf', patch_cas buf c = Ok buf' /\ RecordRef_parse buf' = Ok (set_cas r c).
Proof.
  intros Hp Hc. apply parse_ok_iff in Hp as (-> & Hh & Hv & Hl & Ht).
  destruct r as [[v tc rs ep fl ex c0] ts val].
  eexists. split.
  - unfold patch_cas, header_bytes. cbn [header h_version h_tag_count h_reserved h_epoch
      h_mc_flags h_expires_at_ms h_cas]. rewrite <- !app_assoc.
    do 5 rewrite app_assoc. apply patch_u64_app.
    + unfold len. by rewrite !length_app, !length_le_bytes.
    + unfold len. by rewrite length_le_bytes.
  - apply parse_ok_iff. unfold set_cas, header_bytes, header_ok in *.
    cbn [header tags value h_version h_tag_count h_reserved h_epoch h_mc_flags
      h_expires_at_ms h_cas] in *. rewrite <- !app_assoc.
    destruct Hh as (? & ? & ? & ? & ? & ? & ?). by split_and!.
Qed.

Lemma patch_expiry_parse buf r e :
  RecordRef_parse buf = Ok r -> fits 64 e ->
  exists buf', patch_expiry buf e = Ok buf' /\ RecordRef_parse buf' = Ok (set_expiry r e).
Proof.
  intros Hp Hc. apply parse_ok_iff in Hp as (-> & Hh & Hv & Hl & Ht).
  destruct r as [[v tc rs ep fl ex c0] ts val].
  eexists. split.
  - unfold patch_expiry, header_bytes. cbn [header h_version h_tag_count h_reserved h_epoch
      h_mc_flags h_expires_at_ms h_cas]. rewrite <- !app_assoc.
    do 4 rewrite app_assoc. apply patch_u64_app.
    + unfold len. by rewrite !length_app, !length_le_bytes.
    + unfold len. by rewrite length_le_bytes.
  - apply parse_ok_iff. unfold set_expiry, header_bytes, header_ok in *.
    cbn [header tags value h_version h_tag_count h_reserved h_epoch h_mc_flags
      h_expires_at_ms h_cas] in *. rewrite <- !app_assoc.
    destruct Hh as (? & ? & ? & ? & ? & ? & ?). by split_and!.
Qed.

Lemma tags_alive_spec r gen :
  tags_alive r gen = true <->
  forall t, t ∈ tags r -> gen (tag_id t) = Some (generation t).
Proof.
  unfold tags_alive. rewrite forallb_forall. split; intros H t Ht.
  - specialize (H t (proj1 (list_elem_of_In _ _) Ht)). case_match; [|done].
    by apply Z.eqb_eq in H as ->.
  - rewrite (H t) by by apply list_elem_of_In. apply Z.eqb_refl.
Qed.

Lemma is_alive_spec r now_ms epoch gen :
  is_alive r now_ms epoch gen = true <->
  (expires_at_ms r = NEVER \/ now_ms < expires_at_ms r)
  /\ h_epoch (header r) = epoch
  /\ forall t, t ∈ tags r -> gen (tag_id t) = Some (generation t).
Proof.
  unfold is_alive. rewrite !andb_true_iff, !negb_true_iff, tags_alive_spec.
  unfold is_expired, is_flushed. rewrite negb_false_iff, Z.eqb_eq, andb_false_iff,
    negb_false_iff, Z.eqb_eq, Z.leb_gt. tauto.
Qed.

Lemma parse_fields buf r :
  RecordRef_parse buf = Ok r ->
  header_ok (header r) /\ Forall tag_ok (tags r) /\ len (tags r) <= ABSOLUTE_MAX_TAGS.
Proof.
  intros (_ & Hh & _ & Hl & Ht)%parse_ok_iff. split_and!; try done.
  rewrite Hl. destruct Hh as (_ & H & _). unfold ABSOLUTE_MAX_TAGS. width.
Qed.

(** ** Properties *)

(** A record survives encoding and decoding: whatever metadata, tag table
    (up to the 255 the header can count) and value go in, [encode_record]
    succeeds with exactly [record_len] bytes and [RecordRef_parse] gives back
    every field. *)
Theorem record_roundtrip m ts v :
  meta_ok m -> Forall tag_ok ts -> len ts <= ABSOLUTE_MAX_TAGS ->
  exists buf, encode_record m ts v = Ok buf
    /\ len buf = record_len (len ts) (len v)
    /\ RecordRef_parse buf = Ok (record_of m ts v).
Proof.
  intros Hm Hts Hl. rewrite encode_record_ok by done. eexists. split_and!; [done| |].
  - rewrite !len_app. unfold record_len, RECORD_HEADER_LEN, TAG_REF_LEN, len.
    rewrite length_header_bytes, length_tags_bytes. lia.
  - by apply record_of_parse.
Qed.

(** C30 Parsing is total and exact on arbitrary bytes: it accepts a buffer if
    and only if the buffer is the encoding, at the one version there is, of the
    record it returns (so header, tag table and value always account for every
    byte), and otherwise it reports precisely which of the three defects it met:
    too short for a header, a header of another version, or a tag table of this
    version that runs past the end.  The outcomes exclude one another, and it
    never panics. *)
Theorem record_parse_exact buf :
  match RecordRef_parse buf with
  | Ok r =>
      buf = header_bytes (header r) ++ tags_bytes (tags r) ++ value r
      /\ header_ok (header r) /\ h_version (header r) = 1
      /\ len (tags r) = h_tag_count (header r) /\ Forall tag_ok (tags r)
      /\ len buf = record_len (len (tags r)) (len (value r))
  | Err (RecordVersion found expected) =>
      exists h rest, buf = header_bytes h ++ rest /\ header_ok h
        /\ found = h_version h /\ expected = 1 /\ found <> 1
  | Err (MalformedRecord defect) =>
      defect = "shorter than the header"%str /\ len buf < 28
      \/ defect = "tag table extends past the record"%str
         /\ exists h rest, buf = header_bytes h ++ rest /\ header_ok h /\ h_version h = 1
              /\ len buf < record_len (h_tag_count h) 0
  | Err _ => False
  | Panic _ => False
  end.
Proof.
  destruct (RecordRef_parse buf) as [r|e|why] eqn:E.
  - apply parse_ok_iff in E as (E & Hh & Hv & Hl & Ht). split_and!; try done.
    rewrite E, !len_app. unfold record_len, RECORD_HEADER_LEN, TAG_REF_LEN, len.
    rewrite length_header_bytes, length_tags_bytes. lia.
  - revert E. unfold RecordRef_parse.
    destruct (header_from_prefix buf) as [[h rest]|] eqn:Eh.
    + apply header_from_prefix_inv in Eh as [-> Hh].
      destruct (Z.eqb_spec (h_version h) RECORD_VERSION) as [Hv|Hv]; cbn [negb].
      * destruct (tags_from_prefix _ rest) as [[ts v]|] eqn:Et; [done|]. intros [= <-].
        right. split; [done|]. exists h, rest. split_and!; try done.
        apply tags_from_prefix_None in Et. rewrite len_app.
        unfold record_len, RECORD_HEADER_LEN, TAG_REF_LEN, len.
        rewrite length_header_bytes. destruct Hh as (_ & [] & _). lia.
      * intros [= <-]. by exists h, rest.
    + intros [= <-]. left. split; [done|]. apply header_from_prefix_None in Eh.
      unfold len. lia.
  - by apply parse_no_panic in E.
Qed.

(** Stamping the CAS token and the deadline into an encoded record changes
    those two fields and nothing else, in either order, for any record that
    parses. *)
Theorem patches_move_nothing_else buf r c e :
  RecordRef_parse buf = Ok r -> fits 64 c -> fits 64 e ->
  exists buf' buf'', patch_cas buf c = Ok buf' /\ patch_expiry buf' e = Ok buf''
    /\ RecordRef_parse buf' = Ok (set_cas r c)
    /\ RecordRef_parse buf'' = Ok (set_expiry (set_cas r c) e)
    /\ len buf'' = len buf.
Proof.
  intros Hp Hc He. destruct (patch_cas_parse _ _ _ Hp Hc) as (b1 & E1 & P1).
  destruct (patch_expiry_parse _ _ _ P1 He) as (b2 & E2 & P2).
  exists b1, b2. split_and!; try done.
  apply parse_ok_iff in Hp as (-> & _). apply parse_ok_iff in P2 as (-> & _).
  unfold len. rewrite !length_app, !length_header_bytes. done.
Qed.

(** A record with no tags is judged without the registry: when
    [needs_tag_registry] is false the generation lookup cannot influence
    [is_alive], and when it is true some lookup can kill the record; so
    deferring the registry lock on that predicate is exact. *)
Theorem needs_tag_registry_exact r now_ms epoch :
  if needs_tag_registry r
  then is_alive r now_ms epoch (fun _ => None) = false
  else forall g g', is_alive r now_ms epoch g = is_alive r now_ms epoch g'.
Proof.
  unfold needs_tag_registry, is_alive, tags_alive.
  destruct (tags r) as [|t ts]; simpl; [done|]. by rewrite andb_false_r.
Qed.

(** ** Witnesses *)

Definition sample_meta : RecordMeta := mkMeta 7 3735928559 1700000000000 42.

Definition sample_tags : list TagRef := [mkTagRef 1 100; mkTagRef 9 U64_MAX].

Lemma record_roundtrip_witness :
  exists buf, encode_record sample_meta sample_tags (bs "hello") = Ok buf
    /\ len buf = 57 /\ RecordRef_parse buf = Ok (record_of sample_meta sample_tags (bs "hello")).
Proof.
  apply (record_roundtrip sample_meta sample_tags (bs "hello")).
  - apply (bool_decide_unpack _). vm_compute. exact I.
  - apply (bool_decide_unpack _). vm_compute. exact I.
  - vm_compute. discriminate.
Defined.

Definition sample_record : bytes :=
  header_bytes (header (record_of sample_meta sample_tags [])) ++ tags_bytes sample_tags ++ bs "v".

Lemma patches_move_nothing_else_witness :
  exists buf' buf'',
    patch_cas sample_record 5 = Ok buf' /\ patch_expiry buf' 6 = Ok buf''
    /\ RecordRef_parse buf' = Ok (set_cas (record_of sample_meta sample_tags (bs "v")) 5)
    /\ RecordRef_parse buf''
         = Ok (set_expiry (set_cas (record_of sample_meta sample_tags (bs "v")) 5) 6)
    /\ len buf'' = len sample_record.
Proof.
  apply (patches_move_nothing_else sample_record (record_of sample_meta sample_tags (bs "v")) 5 6).
  - vm_compute. reflexivity.
  - apply (bool_decide_unpack _). vm_compute. exact I.
  - apply (bool_decide_unpack _). vm_compute. exact I.
Defined.
