(* ===== verification/Glob.v ===== *)
(** [vash-core/src/glob.rs]: the byte-wise pattern matcher the listings apply,
    its declarative meaning, and the proof that the greedy two-pointer walk
    decides it in a number of rounds bounded by the product of the lengths. *)

From S2P Require Import Prelude Bytes Core.

Definition STAR : byte := "*"%byte.

Definition QUESTION : byte := "?"%byte.

Definition ESCAPE : byte := "\"%byte.

Definition beq (a b : byte) : bool := bool_decide (a = b).

Fixpoint validate (pattern : bytes) : Result CoreError unit :=
  match pattern with
  | [] => Ok ()
  | b :: rest =>
      if beq b ESCAPE then
        match rest with
        | [] => Err BadPattern
        | _ :: rest' => validate rest'
        end
      else validate rest
  end.

(** One round per unit of [fuel]; [star] and [retry] are the two variables the
    source remembers the last star by.  [None] is running out of fuel. *)
Fixpoint match_loop (fuel : nat) (pattern candidate : bytes)
    (p c : nat) (star : option nat) (retry : nat) : option bool :=
  match fuel with
  | O => None
  | S fuel' =>
      match candidate !! c with
      | None => Some (forallb (fun b => beq b STAR) (drop p pattern))
      | Some ch =>
          let backtrack (_ : unit) :=
            match star with
            | None => Some false
            | Some position =>
                match_loop fuel' pattern candidate (position + 1) (retry + 1) star (retry + 1)
            end in
          match pattern !! p with
          | None => backtrack ()
          | Some token =>
              if beq token STAR then
                match_loop fuel' pattern candidate (p + 1) c (Some p) c
              else if beq token QUESTION then
                match_loop fuel' pattern candidate (p + 1) (c + 1) star retry
              else if beq token ESCAPE then
                match pattern !! (p + 1)%nat with
                | Some literal =>
                    if beq literal ch then
                      match_loop fuel' pattern candidate (p + 2) (c + 1) star retry
                    else backtrack ()
                | None => backtrack ()
                end
              else if beq token ch then
                match_loop fuel' pattern candidate (p + 1) (c + 1) star retry
              else backtrack ()
          end
      end
  end%nat.

Definition match_rounds (pattern candidate : bytes) : nat :=
  S (S (length pattern) * S (length candidate)).

Definition matches (pattern candidate : bytes) : bool :=
  match pattern with
  | [] => true
  | _ =>
      default false
        (match_loop (match_rounds pattern candidate) pattern candidate 0 0 None 0)
  end.

(** ** What a pattern means *)

Definition is_meta (b : byte) : bool := beq b STAR || beq b QUESTION || beq b ESCAPE.

Inductive glob : bytes -> bytes -> Prop :=
| glob_nil : glob [] []
| glob_star_stop p c : glob p c -> glob (STAR :: p) c
| glob_star_more p x c : glob (STAR :: p) c -> glob (STAR :: p) (x :: c)
| glob_question p x c : glob p c -> glob (QUESTION :: p) (x :: c)
| glob_escape p x c : glob p c -> glob (ESCAPE :: x :: p) (x :: c)
| glob_literal p x c : is_meta x = false -> glob p c -> glob (x :: p) (x :: c).

(** ** Lemmas *)

Lemma beq_eq a b : beq a b = true <-> a = b.
Proof. unfold beq. apply bool_decide_eq_true. Qed.

Lemma beq_neq a b : beq a b = false <-> a <> b.
Proof. unfold beq. apply bool_decide_eq_false. Qed.

Lemma is_meta_false b :
  is_meta b = false <-> b <> STAR /\ b <> QUESTION /\ b <> ESCAPE.
Proof. unfold is_meta. rewrite !orb_false_iff, !beq_neq. tauto. Qed.

Lemma glob_nil_inv p : glob p [] <-> forallb (fun b => beq b STAR) p = true.
Proof.
  induction p as [|b p IH]; simpl.
  - split; [done|constructor].
  - rewrite andb_true_iff, beq_eq, <- IH. split.
    + intros H. inversion H; subst. done.
    + intros [-> H]. by constructor.
Qed.

(** A star matches exactly when what follows it matches some suffix. *)
Lemma glob_star_iff p c :
  glob (STAR :: p) c <-> exists k, (k <= length c)%nat /\ glob p (drop k c).
Proof.
  split.
  - remember (STAR :: p) as q eqn:Hq. intros H. revert p Hq.
    induction H as [|p' c' H _|p' x c' H IH|p' x c' H _|p' x c' H _|p' x c' Hm H _];
      intros p [= ]; subst.
    + exists 0%nat. rewrite drop_0. split; [lia|done].
    + destruct (IH p eq_refl) as (k & Hk & Hg). exists (S k). simpl. split; [lia|done].
    + done.
  - intros (k & Hk & Hg). revert c Hk Hg. induction k as [|k IH]; intros c Hk Hg.
    + rewrite drop_0 in Hg. by constructor.
    + destruct c as [|x c]; simpl in *; [lia|]. apply glob_star_more, IH; [lia|done].
Qed.

(** Every other token consumes exactly one byte. *)
Definition token_len (p : bytes) : nat :=
  match p with b :: _ => if beq b ESCAPE then 2 else 1 | [] => 0 end.

Definition token_accepts (p : bytes) (ch : byte) : bool :=
  match p with
  | [] => false
  | b :: rest =>
      if beq b QUESTION then true
      else if beq b ESCAPE then
        match rest with x :: _ => beq x ch | [] => false end
      else beq b ch
  end.

Lemma glob_token_iff b p c :
  b <> STAR ->
  glob (b :: p) c <->
  exists ch c', c = ch :: c' /\ token_accepts (b :: p) ch = true
    /\ glob (drop (token_len (b :: p)) (b :: p)) c'.
Proof.
  intros Hb. unfold token_accepts, token_len. split.
  - intros H. inversion H; subst; try done; eexists _, _; (split; [done|]).
    + by split.
    + split; [|done]. change (beq x x = true). by apply beq_eq.
    + match goal with H : is_meta _ = false |- _ => apply is_meta_false in H as (? & ? & ?) end.
      rewrite (proj2 (beq_neq b QUESTION)), (proj2 (beq_neq b ESCAPE)) by done.
      split; [by apply beq_eq|done].
  - intros (ch & c' & -> & Ha & Hg).
    destruct (beq b QUESTION) eqn:Eq.
    { apply beq_eq in Eq as ->. by constructor. }
    destruct (beq b ESCAPE) eqn:Ee.
    { apply beq_eq in Ee as ->. destruct p as [|x p]; [done|].
      apply beq_eq in Ha as ->. by constructor. }
    apply beq_neq in Eq, Ee. apply beq_eq in Ha as ->. constructor; [|done]. by apply is_meta_false.
Qed.

(** ** The walk

    [walk_inv] ties a state of the loop to the question it was asked: the
    pattern matches iff either the current alignment goes through, or the last
    star absorbs more than it has so far.  [segment] is why older stars can be
    forgotten: since the last star, exactly [c - retry] bytes were consumed by
    tokens of fixed width. *)

Section Walk.
Context (P C : bytes).

Definition segment (s p w : nat) : Prop :=
  forall y, glob (drop (S s) P) y -> (w <= length y)%nat /\ glob (drop p P) (drop w y).

Definition later_star (star : option nat) (retry : nat) : Prop :=
  exists s k, star = Some s /\ (retry < k <= length C)%nat /\ glob (drop (S s) P) (drop k C).

Record walk_inv (p c : nat) (star : option nat) (retry : nat) : Prop := {
  wi_p : (p <= length P)%nat;
  wi_c : (c <= length C)%nat;
  wi_retry : (retry <= c)%nat;
  wi_star : forall s, star = Some s -> (S s <= p)%nat /\ segment s p (c - retry);
  wi_iff : glob P C <-> glob (drop p P) (drop c C) \/ later_star star retry
}.

Definition rounds_left (p retry : nat) : nat :=
  ((length C - retry) * S (length P) + (length P - p))%nat.

Lemma walk_start : walk_inv 0 0 None 0.
Proof.
  split; try lia; [done|]. rewrite !drop_0. split; [by left|].
  intros [H|(s & k & [=] & _)]; done.
Qed.

Lemma walk_star p c star retry :
  walk_inv p c star retry -> P !! p = Some STAR ->
  walk_inv (p + 1) c (Some p) c.
Proof.
  intros [Hp Hc Hr Hs Hiff] Htok. pose proof (lookup_lt_Some _ _ _ Htok).
  rewrite Nat.add_1_r. split; try lia.
  - intros s [= <-]. split; [lia|]. rewrite Nat.sub_diag. intros y Hy.
    split; [lia|]. by rewrite drop_0.
  - rewrite Hiff. rewrite (drop_S P STAR p) by done. split.
    + assert (glob (STAR :: drop (S p) P) (drop c C) ->
        glob (drop (S p) P) (drop c C) \/ later_star (Some p) c) as Hstar.
      { intros (k & Hk & Hg)%glob_star_iff. rewrite drop_drop in Hg.
        rewrite length_drop in Hk. destruct k as [|k].
        - left. by rewrite Nat.add_0_r in Hg.
        - right. exists p, (c + S k)%nat. split_and!; [done|lia|lia|done]. }
      intros [H'|(s & k & -> & Hk & Hg)]; [by apply Hstar|].
      destruct (Hs s eq_refl) as [_ Hseg]. destruct (Hseg _ Hg) as [Hw Hg'].
      rewrite (drop_S P STAR p) in Hg' by done. rewrite drop_drop in Hg'.
      rewrite length_drop in Hw.
      apply glob_star_iff in Hg' as (k' & Hk' & Hg'). rewrite drop_drop in Hg'.
      rewrite length_drop in Hk'. right.
      exists p, (k + (c - retry) + k')%nat. split_and!; [done|lia|lia|done].
    + intros [H'|(s & k & [= <-] & Hk & Hg)]; left.
      * by constructor.
      * apply glob_star_iff. exists (k - c)%nat. rewrite length_drop, drop_drop.
        split; [lia|]. by replace (c + (k - c))%nat with k by lia.
Qed.

(** Advancing over a token that accepts the current byte. *)
Lemma walk_advance p c star retry b ch :
  walk_inv p c star retry -> P !! p = Some b -> b <> STAR -> C !! c = Some ch ->
  token_accepts (drop p P) ch = true ->
  (p + token_len (drop p P) <= length P)%nat ->
  walk_inv (p + token_len (drop p P)) (c + 1) star retry.
Proof.
  intros [Hp Hc Hr Hs Hiff] Htok Hb Hch Ha Hlen.
  pose proof (lookup_lt_Some _ _ _ Hch).
  assert (forall y, glob (drop p P) y <->
    exists x c', y = x :: c' /\ token_accepts (drop p P) x = true
      /\ glob (drop (p + token_len (drop p P)) P) c') as Hone.
  { intros y. rewrite <- drop_drop. rewrite (drop_S P b p) by done.
    by apply glob_token_iff. }
  split; try lia.
  - intros s ->. destruct (Hs s eq_refl) as [Hsp Hseg]. split; [lia|].
    intros y Hy. destruct (Hseg y Hy) as [Hw Hg].
    apply Hone in Hg as (x & c' & Hd & _ & Hg).
    assert (length (drop (c - retry) y) = S (length c')) as Hl by by rewrite Hd.
    rewrite length_drop in Hl. split; [lia|].
    replace (c + 1 - retry)%nat with ((c - retry) + 1)%nat by lia.
    rewrite <- (drop_drop y), Hd. simpl. by rewrite drop_0.
  - rewrite Hiff, (Hone (drop c C)), (drop_S C ch c) by done.
    rewrite Nat.add_1_r. split; (intros [H'|H']; [left|by right]).
    + destruct H' as (x & c' & [= -> ->] & _ & H'). done.
    + by eexists _, _.
Qed.

(** A mismatch with a star behind: give the star one more byte. *)
Lemma walk_backtrack p c s retry :
  walk_inv p c (Some s) retry -> (c < length C)%nat ->
  ~ glob (drop p P) (drop c C) ->
  walk_inv (s + 1) (retry + 1) (Some s) (retry + 1).
Proof.
  intros [Hp Hc Hr Hs Hiff] Hlt Hno. destruct (Hs s eq_refl) as [Hsp _].
  rewrite !Nat.add_1_r. split; try lia.
  - intros s' [= <-]. split; [lia|]. rewrite Nat.sub_diag. intros y Hy.
    split; [lia|]. by rewrite drop_0.
  - rewrite Hiff. split.
    + intros [H'|(s' & k & [= <-] & Hk & Hg)]; [done|].
      destruct (decide (k = S retry)) as [->|Hne]; [by left|].
      right. exists s, k. split_and!; [done|lia|lia|done].
    + intros [H'|(s' & k & [= <-] & Hk & Hg)]; right.
      * exists s, (S retry). split_and!; [done|lia|lia|done].
      * exists s, k. split_and!; [done|lia|lia|done].
Qed.

(** At the end of the candidate only trailing stars help. *)
Lemma walk_end p star retry :
  walk_inv p (length C) star retry ->
  glob P C <-> forallb (fun b => beq b STAR) (drop p P) = true.
Proof.
  intros [Hp Hc Hr Hs Hiff]. rewrite Hiff, <- glob_nil_inv, drop_all.
  split; [|by left]. intros [H'|(s & k & -> & Hk & Hg)]; [done|].
  destruct (Hs s eq_refl) as [_ Hseg]. destruct (Hseg _ Hg) as [Hw _].
  rewrite length_drop in Hw. lia.
Qed.

Lemma walk_backtrack_loop fuel p c star retry :
  (forall p c star retry, walk_inv p c star retry ->
     (rounds_left p retry < fuel)%nat ->
     exists b, match_loop fuel P C p c star retry = Some b /\ (b = true <-> glob P C)) ->
  walk_inv p c star retry -> (c < length C)%nat ->
  (rounds_left p retry < S fuel)%nat ->
  ~ glob (drop p P) (drop c C) ->
  exists b,
    match star with
    | None => Some false
    | Some position => match_loop fuel P C (position + 1) (retry + 1) star (retry + 1)
    end = Some b /\ (b = true <-> glob P C).
Proof.
  intros IH Hinv Hlt Hfuel Hno. destruct star as [s|].
  - apply IH; [by eapply walk_backtrack|].
    destruct Hinv as [? ? ? Hs _]. destruct (Hs s eq_refl) as [? _].
    unfold rounds_left in *. nia.
  - exists false. split; [done|]. rewrite (wi_iff _ _ _ _ Hinv).
    split; [done|]. intros [?|(s & k & [=] & _)]; done.
Qed.

(** The loop returns, with the right answer, given as many rounds as
    [rounds_left] says. *)
Lemma match_loop_correct fuel p c star retry :
  walk_inv p c star retry -> (rounds_left p retry < fuel)%nat ->
  exists b, match_loop fuel P C p c star retry = Some b /\ (b = true <-> glob P C).
Proof.
  revert p c star retry. induction fuel as [|fuel IH]; intros p c star retry Hinv Hfuel; [lia|].
  cbn [match_loop]. destruct (C !! c) as [ch|] eqn:Hch.
  2:{ apply lookup_ge_None in Hch.
      assert (c = length C) as -> by (pose proof (wi_c _ _ _ _ Hinv); lia).
      eexists. split; [done|]. symmetry. by eapply walk_end. }
  pose proof (lookup_lt_Some _ _ _ Hch) as Hlt.
  assert (walk_inv p c star retry) as Hinv' by done.
  destruct Hinv' as [Hp Hc Hr Hs _].
  destruct (P !! p) as [b|] eqn:Htok.
  2:{ apply lookup_ge_None in Htok. eapply walk_backtrack_loop; eauto.
      rewrite drop_ge by done. rewrite (drop_S C ch c) by done. intros H. inversion H. }
  pose proof (lookup_lt_Some _ _ _ Htok) as Hpl.
  destruct (beq b STAR) eqn:Es.
  { apply beq_eq in Es as ->. apply IH; [by eapply walk_star|]. unfold rounds_left in *. nia. }
  apply beq_neq in Es.
  (* The two outcomes for a one-byte token, stated once. *)
  assert (token_accepts (drop p P) ch = true ->
    (p + token_len (drop p P) <= length P)%nat ->
    exists r, match_loop fuel P C (p + token_len (drop p P)) (c + 1) star retry = Some r
      /\ (r = true <-> glob P C)) as Hadv.
  { intros Ha Hl. apply IH; [by eapply walk_advance|].
    assert (1 <= token_len (drop p P))%nat.
    { rewrite (drop_S P b p) by done. simpl. destruct (beq b ESCAPE); lia. }
    unfold rounds_left in *. nia. }
  assert (token_accepts (drop p P) ch = false -> ~ glob (drop p P) (drop c C)) as Hmis.
  { intros Ha Hg. rewrite (drop_S P b p) in * by done. rewrite (drop_S C ch c) in Hg by done.
    apply glob_token_iff in Hg as (x & c' & [= <- <-] & Ha' & _); [|done]. by rewrite Ha in Ha'. }
  assert (drop p P = b :: drop (S p) P) as Hd by by apply drop_S.
  destruct (beq b QUESTION) eqn:Eq.
  { apply beq_eq in Eq as ->. rewrite Hd in Hadv. simpl in Hadv. apply Hadv; [done|lia]. }
  destruct (beq b ESCAPE) eqn:Ee.
  - rewrite Hd in Hadv, Hmis. unfold token_accepts, token_len in Hadv, Hmis.
    rewrite Eq, Ee in Hadv, Hmis. rewrite Nat.add_1_r.
    destruct (P !! S p) as [x|] eqn:Hx.
    + pose proof (lookup_lt_Some _ _ _ Hx). rewrite (drop_S P x (S p)) in Hadv, Hmis by done.
      destruct (beq x ch) eqn:Ex; [apply Hadv; [done|lia]|].
      eapply walk_backtrack_loop; eauto.
      rewrite Hd, (drop_S P x (S p)) by done. by apply Hmis.
    + apply lookup_ge_None in Hx. rewrite (drop_ge P (S p)) in Hadv, Hmis by lia.
      eapply walk_backtrack_loop; eauto. rewrite Hd, (drop_ge P (S p)) by lia. by apply Hmis.
  - rewrite Hd in Hadv, Hmis. unfold token_accepts, token_len in Hadv, Hmis.
    rewrite Eq, Ee in Hadv, Hmis.
    destruct (beq b ch) eqn:Eb; [apply Hadv; [done|lia]|].
    eapply walk_backtrack_loop; eauto. rewrite Hd. by apply Hmis.
Qed.

End Walk.

Lemma match_rounds_enough P C : (rounds_left P C 0 0 < match_rounds P C)%nat.
Proof. unfold rounds_left, match_rounds. nia. Qed.

Lemma validate_cases P : validate P = Ok () \/ validate P = Err BadPattern.
Proof.
  induction P as [P IH] using (induction_ltof1 _ length). unfold ltof in IH.
  destruct P as [|b rest]; [by left|]. simpl. destruct (beq b ESCAPE).
  - destruct rest as [|x rest]; [by right|]. apply IH. simpl. lia.
  - apply IH. simpl. lia.
Qed.

(** A string a valid pattern matches: each token's own byte. *)
Fixpoint sample_match (P : bytes) : bytes :=
  match P with
  | [] => []
  | b :: rest =>
      if beq b ESCAPE then
        match rest with [] => [] | x :: rest' => x :: sample_match rest' end
      else if beq b STAR then sample_match rest
      else b :: sample_match rest
  end.

Lemma validate_sample P : validate P = Ok () -> glob P (sample_match P).
Proof.
  induction P as [P IH] using (induction_ltof1 _ length). unfold ltof in IH.
  destruct P as [|b rest]; [constructor|]. simpl.
  destruct (beq b ESCAPE) eqn:Ee.
  - apply beq_eq in Ee as ->. destruct rest as [|x rest]; [done|]. intros Hv.
    constructor. apply IH; [simpl; lia|done].
  - intros Hv. assert (glob rest (sample_match rest)) by (apply IH; [simpl; lia|done]).
    destruct (beq b STAR) eqn:Es; [apply beq_eq in Es as ->; by constructor|].
    destruct (beq b QUESTION) eqn:Eq; [apply beq_eq in Eq as ->; by constructor|].
    constructor; [|done]. apply beq_neq in Ee, Es, Eq. by apply is_meta_false.
Qed.

Lemma glob_validate P C : glob P C -> validate P = Ok ().
Proof.
  induction 1 as [|p c H IH|p x c H IH|p x c H IH|p x c H IH|p x c Hm H IH]; simpl; try done.
  apply is_meta_false in Hm as (_ & _ & Hm). by rewrite (proj2 (beq_neq _ _)).
Qed.

(** C32 The greedy walk decides the declarative meaning of patterns: on every
    pattern and candidate, after at most [(|pattern|+1)*(|candidate|+1)+1]
    rounds the loop has returned, and [matches] answers [true] exactly for the
    empty pattern (match-all) and for candidates related by [glob]. *)
Theorem matches_correct pattern candidate :
  (exists b, match_loop (match_rounds pattern candidate) pattern candidate 0 0 None 0 = Some b)
  /\ (matches pattern candidate = true <-> pattern = [] \/ glob pattern candidate).
Proof.
  destruct (match_loop_correct pattern candidate (match_rounds pattern candidate) 0 0 None 0
    (walk_start _ _) (match_rounds_enough _ _)) as (b & Hb & Hiff).
  split; [by exists b|]. unfold matches. destruct pattern as [|x pattern].
  - split; [by left|done].
  - rewrite Hb. cbn [default]. rewrite Hiff. split; [by right|by intros [?|?]].
Qed.

(** Validation refuses exactly the patterns that no string can match (the
    ones ending in a lone escape), and with [BadPattern]; so what it lets
    through is what the matcher can use. *)
Theorem validate_exact pattern :
  (validate pattern = Ok () <-> exists candidate, glob pattern candidate)
  /\ (validate pattern = Err BadPattern <-> forall candidate, ~ glob pattern candidate).
Proof.
  split; split.
  - intros H. exists (sample_match pattern). by apply validate_sample.
  - intros (c & H). by eapply glob_validate.
  - intros H c Hg. apply glob_validate in Hg. by rewrite Hg in H.
  - intros H. destruct (validate_cases pattern) as [Hv|Hv]; [|done].
    destruct (H (sample_match pattern)). by apply validate_sample.
Qed.

(** The pathological pattern of the source's regression test. *)
Example pathological_pattern :
  matches (bs "a*a*a*a*b") (replicate 40 "a"%byte) = false.
Proof. vm_compute. reflexivity. Qed.

Example glob_examples :
  matches (bs "a*b*c") (bs "axxbyyc") = true /\ matches (bs "user:?") (bs "user:12") = false
  /\ matches (bs "a\*b") (bs "axxb") = false /\ matches (bs "[abc]") (bs "a") = false.
Proof. vm_compute. auto. Qed.
