(* ===== verification/Clock.v ===== *)
(** [vash-core/src/clock.rs]: TTLs and deadlines.  The system clock is an
    argument ([now_ms]) of everything that reads it. *)

From S2P Require Import Prelude Bytes Core Record.

Definition MAX_TTL_SECS : Z := 60 * 60 * 24 * 30.

Definition TTL_ALREADY_EXPIRED : Z := U32_MAX.

Definition ALREADY_EXPIRED_MS : Z := 1.

Definition expiry_from_ttl (now_ms ttl_secs : Z) : Z :=
  if ttl_secs =? 0 then NEVER
  else if ttl_secs =? TTL_ALREADY_EXPIRED then ALREADY_EXPIRED_MS
  else if MAX_TTL_SECS <? ttl_secs then ttl_secs * 1000
  else wrapping 64 (now_ms + ttl_secs * 1000).

Definition ttl_from_offset (now_ms offset_secs : Z) : Z :=
  if offset_secs <=? MAX_TTL_SECS then offset_secs
  else
    let stamp := wrapping 64 (div_ceil now_ms 1000 + offset_secs) in
    Z.min (if stamp <=? U32_MAX then stamp else U32_MAX) (U32_MAX - 1).

(** A clock that has not come within 2^32 seconds of the end of [u64]
    milliseconds: the year 584 million. *)
Definition sane_clock (now_ms : Z) : Prop := 0 <= now_ms < 2 ^ 63.

#[global] Instance sane_clock_dec now_ms : Decision (sane_clock now_ms).
Proof. unfold sane_clock. apply _. Defined.

Ltac clock :=
  unfold sane_clock, MAX_TTL_SECS, TTL_ALREADY_EXPIRED, ALREADY_EXPIRED_MS, NEVER in *;
  change (2 ^ 63) with 9223372036854775808 in *; width.

(** ** Lemmas *)

Lemma expiry_from_ttl_fits now_ms ttl :
  fits 64 now_ms -> fits 32 ttl -> fits 64 (expiry_from_ttl now_ms ttl).
Proof.
  intros Hn Ht. unfold expiry_from_ttl. repeat case_match; try apply wrapping_fits; clock.
Qed.

Lemma expiry_relative now_ms ttl :
  sane_clock now_ms -> 0 < ttl <= MAX_TTL_SECS ->
  expiry_from_ttl now_ms ttl = now_ms + ttl * 1000.
Proof.
  intros Hn Ht. unfold expiry_from_ttl.
  rewrite (proj2 (Z.eqb_neq _ _)) by lia.
  rewrite (proj2 (Z.eqb_neq _ _)) by clock. rewrite (proj2 (Z.ltb_ge _ _)) by lia.
  apply wrapping_small. clock.
Qed.

Lemma expiry_absolute now_ms ttl :
  MAX_TTL_SECS < ttl < TTL_ALREADY_EXPIRED -> expiry_from_ttl now_ms ttl = ttl * 1000.
Proof.
  intros Ht. unfold expiry_from_ttl. rewrite (proj2 (Z.eqb_neq ttl 0)) by clock.
  rewrite (proj2 (Z.eqb_neq ttl TTL_ALREADY_EXPIRED)) by lia.
  by rewrite (proj2 (Z.ltb_lt _ _)) by lia.
Qed.

Lemma div_ceil_bounds a b : 0 < b -> a <= b * div_ceil a b < a + b.
Proof.
  intros Hb. unfold div_ceil.
  pose proof (Z.div_mod (a + b - 1) b ltac:(lia)).
  pose proof (Z.mod_pos_bound (a + b - 1) b Hb). lia.
Qed.

(** ** Properties *)

(** The three readings of [ttl_secs]: zero stores a record no clock
    expires, the sentinel stores one that every clock reading (from the first
    millisecond on) finds expired, a value above 30 days is an absolute stamp
    taken literally, and anything else lives exactly that many seconds from
    now: alive strictly before the deadline, gone at it. *)
Theorem expiry_from_ttl_meaning now_ms ttl r :
  sane_clock now_ms -> fits 32 ttl -> expires_at_ms r = expiry_from_ttl now_ms ttl ->
  forall at_ms, 1 <= at_ms ->
  is_expired r at_ms =
    if decide (ttl = 0) then false
    else if decide (ttl = TTL_ALREADY_EXPIRED) then true
    else if decide (MAX_TTL_SECS < ttl) then ttl * 1000 <=? at_ms
    else now_ms + ttl * 1000 <=? at_ms.
Proof.
  intros Hn Ht He at_ms Hat. unfold is_expired. rewrite He.
  destruct (decide (ttl = 0)) as [->|H0]; [done|].
  destruct (decide (ttl = TTL_ALREADY_EXPIRED)) as [->|H1].
  { change (expiry_from_ttl now_ms TTL_ALREADY_EXPIRED) with 1. simpl. by apply Z.leb_le. }
  destruct (decide (MAX_TTL_SECS < ttl)) as [H2|H2].
  - rewrite expiry_absolute by clock. by rewrite (proj2 (Z.eqb_neq _ _)) by clock.
  - rewrite expiry_relative by clock. by rewrite (proj2 (Z.eqb_neq _ _)) by clock.
Qed.

(** A plain offset keeps its meaning through the overloaded encoding: an
    offset of any size the encoding can hold becomes, when the store resolves
    it at [later_ms], a deadline no earlier than the offset asked for (counted
    from when it was encoded) and less than one second later than it (counted
    from when it was resolved); zero still means never, and the result is never
    the already-expired sentinel. *)
Theorem ttl_from_offset_meaning now_ms later_ms offset :
  sane_clock now_ms -> sane_clock later_ms -> now_ms <= later_ms -> fits 32 offset ->
  let ttl := ttl_from_offset now_ms offset in
  let deadline := expiry_from_ttl later_ms ttl in
  fits 32 ttl /\ ttl <> TTL_ALREADY_EXPIRED
  /\ (offset = 0 -> deadline = NEVER)
  /\ (0 < offset -> div_ceil now_ms 1000 + offset < U32_MAX ->
      now_ms + offset * 1000 <= deadline < later_ms + (offset + 1) * 1000)
  /\ (MAX_TTL_SECS < offset -> U32_MAX <= div_ceil now_ms 1000 + offset ->
      deadline = (U32_MAX - 1) * 1000).
Proof.
  intros Hn Hl Hle Ho ttl deadline.
  pose proof (div_ceil_bounds now_ms 1000 ltac:(lia)) as Hd.
  assert (wrapping 64 (div_ceil now_ms 1000 + offset) = div_ceil now_ms 1000 + offset) as Hw.
  { apply wrapping_small. clock. }
  unfold deadline, ttl, ttl_from_offset. rewrite Hw. clear deadline ttl Hw.
  destruct (Z.leb_spec offset MAX_TTL_SECS) as [Hs|Hs].
  - split_and!; [done|clock|by intros ->| |lia].
    intros Hpos _. rewrite expiry_relative by (done || lia). lia.
  - destruct (Z.leb_spec (div_ceil now_ms 1000 + offset) U32_MAX) as [Hf|Hf].
    + split_and!; [clock|clock|clock| |].
      * intros _ Hlt. rewrite Z.min_l by lia. rewrite expiry_absolute by clock. lia.
      * intros _ Hge. rewrite Z.min_r by lia. apply expiry_absolute. clock.
    + split_and!; [clock|clock|clock|lia|].
      intros _ _. rewrite Z.min_r by lia. apply expiry_absolute. clock.
Qed.

(** ** Witnesses *)

Lemma expiry_from_ttl_meaning_witness :
  is_expired (record_of (mkMeta 0 0 (expiry_from_ttl 1700000000000 60) 0) [] []) 1700000059999
  = (1700000000000 + 60 * 1000 <=? 1700000059999).
Proof.
  apply (expiry_from_ttl_meaning 1700000000000 60
    (record_of (mkMeta 0 0 (expiry_from_ttl 1700000000000 60) 0) [] [])).
  - unfold sane_clock. lia.
  - unfold fits. lia.
  - reflexivity.
  - lia.
Defined.

Lemma ttl_from_offset_meaning_witness :
  let ttl := ttl_from_offset 1700000000001 7776000 in
  let deadline := expiry_from_ttl 1700000000005 ttl in
  fits 32 ttl /\ ttl <> TTL_ALREADY_EXPIRED /\ (7776000 = 0 -> deadline = NEVER)
  /\ (0 < 7776000 -> div_ceil 1700000000001 1000 + 7776000 < U32_MAX ->
      1700000000001 + 7776000 * 1000 <= deadline < 1700000000005 + (7776000 + 1) * 1000)
  /\ (MAX_TTL_SECS < 7776000 -> U32_MAX <= div_ceil 1700000000001 1000 + 7776000 ->
      deadline = (U32_MAX - 1) * 1000).
Proof.
  apply (ttl_from_offset_meaning 1700000000001 1700000000005 7776000);
    unfold sane_clock, fits; lia.
Defined.
