(* ===== verification/Arith.v ===== *)
(** [vash-core/src/arith.rs]: counter arithmetic in three numeric domains, and
    the decimal text a counter is stored as.

    [f64] values are IEEE binary64 as the standard library's executable
    [spec_float] computes them.  The two conversions between an [f64] and its
    decimal text ([f64::from_str] and [f64]'s [Display]) are the parameters of
    the class [FloatText]. *)

From S2P Require Import Prelude Bytes Text Core.
From Stdlib Require Export SpecFloat.

(** ** f64 *)

Abbreviation f64 := spec_float.

Definition f64_add (x y : f64) : f64 := SFadd 53 1024 x y.

Definition f64_sub (x y : f64) : f64 := SFsub 53 1024 x y.

Definition f64_MAX : f64 := S754_finite false 9007199254740991 971.

Definition f64_MIN : f64 := S754_finite true 9007199254740991 971.

Definition f64_zero : f64 := S754_zero false.

Definition is_finite (x : f64) : bool :=
  match x with S754_zero _ | S754_finite _ _ _ => true | _ => false end.

(** [z as f64], for a [u64] and an [i64] alike: to nearest, ties to even. *)
Definition f64_of_int (z : Z) : f64 := binary_normalize 53 1024 z 0 false.

Definition f64_div (x y : f64) : f64 := SFdiv 53 1024 x y.

Definition is_nan (x : f64) : bool := match x with S754_nan => true | _ => false end.

Class FloatText := {
  f64_from_str : bytes -> option f64;
  f64_display : f64 -> bytes
}.

(** ** Data *)

Inductive Number : Type :=
| Number_Int (v : Z)
| Number_Float (v : f64)
| Number_Counter (v : Z).

Inductive Delta : Type :=
| Delta_Counter (delta : Z) (decrement : bool)
| Delta_Int (delta lower upper : Z)
| Delta_Float (delta lower upper : f64).

Definition Delta_int (delta : Z) : Delta := Delta_Int delta I64_MIN I64_MAX.

Definition Delta_float (delta : f64) : Delta := Delta_Float delta f64_MIN f64_MAX.

Inductive OnBound : Type := OnBound_Fail | OnBound_Skip | OnBound_Clamp.

Inductive Missing : Type := Missing_Fail | Missing_CreateAtZero.

Inductive TtlChange : Type :=
| Ttl_Keep
| Ttl_Set (ttl_secs : Z)
| Ttl_SetIfPersistent (ttl_secs : Z).

Record Arithmetic := mkArithmetic {
  ar_key : bytes;
  ar_delta : Delta;
  ar_on_bound : OnBound;
  ar_missing : Missing;
  ar_ttl : TtlChange
}.

Definition Arithmetic_counter (key : bytes) (delta : Z) (decrement : bool) : Arithmetic :=
  mkArithmetic key (Delta_Counter delta decrement) OnBound_Fail Missing_Fail Ttl_Keep.

Definition Arithmetic_redis (key : bytes) (delta : Delta) : Arithmetic :=
  mkArithmetic key delta OnBound_Fail Missing_CreateAtZero Ttl_Keep.

Record Applied := mkApplied { ap_value : Number; ap_applied : Number; ap_wrote : bool }.

Inductive Outcome : Type :=
| Outcome_Missing
| Outcome_Unchanged (applied : Applied)
| Outcome_Store (text : bytes) (applied : Applied).

(** ** Text *)

Definition strip_dot_zero (text : bytes) : bytes :=
  match reverse text with
  | z :: d :: rest => if bool_decide (z = "0"%byte /\ d = "."%byte) then reverse rest else text
  | _ => text
  end.

Definition format_float `{FT : FloatText} (v : f64) : bytes := strip_dot_zero (f64_display v).

Definition to_text `{FT : FloatText} (n : Number) : bytes :=
  match n with
  | Number_Int v => i64_text v
  | Number_Counter v => u64_text v
  | Number_Float v => format_float v
  end.

Definition parse_counter (stored : bytes) : Result CoreError Z :=
  ok_or (text ← utf8_decode stored; parse_u64 (trim text)) NotAnInteger.

(** [magnitude as i64] followed by [wrapping_neg]. *)
Definition as_i64 (z : Z) : Z := if z <=? I64_MAX then z else z - 2 ^ 64.

Definition wrapping_neg (z : Z) : Z := if z =? I64_MIN then I64_MIN else - z.

Definition parse_int (token : bytes) : option Z :=
  if bool_decide (token = bs "0") then Some 0
  else
    let '(negative, digits) :=
      match token with
      | b :: rest => if bool_decide (b = "-"%byte) then (true, rest) else (false, token)
      | [] => (false, token)
      end in
    match digits with
    | [] => None
    | d :: _ =>
        if bool_decide (d = "0"%byte) || negb (forallb is_ascii_digit digits) then None
        else
          text ← utf8_decode digits;
          magnitude ← parse_u64 text;
          if negative : bool then
            if magnitude <=? I64_MAX + 1 then Some (wrapping_neg (as_i64 magnitude)) else None
          else checked_i64 magnitude
    end.

Definition parse_float `{FT : FloatText} (token : bytes) : option f64 :=
  text ← utf8_decode token;
  if bool_decide (text = []) || negb (bool_decide (trim text = text)) then None
  else
    v ← f64_from_str token;
    if is_nan v then None else Some v.

(** ** Evaluation *)

Definition stored_at `{FT : FloatText} (v applied : Number) : Outcome :=
  Outcome_Store (to_text v) (mkApplied v applied true).

Definition evaluate_counter `{FT : FloatText} (delta : Z) (decrement : bool) (current : option bytes)
    : Result CoreError Outcome :=
  current ← (match current with Some b => parse_counter b | None => Ok 0 end);
  let updated :=
    if decrement then saturating_sub current delta else wrapping 64 (current + delta) in
  Ok (stored_at (Number_Counter updated) (Number_Counter (wrapping 64 (updated - current)))).

Definition evaluate_int `{FT : FloatText} (on_bound : OnBound) (delta lower upper : Z)
    (current : option bytes) : Result CoreError Outcome :=
  current ← (match current with Some b => ok_or (parse_int b) NotAnInteger | None => Ok 0 end);
  let candidate := checked_i64 (current + delta) in
  let within :=
    updated ← candidate;
    if (lower <=? updated) && (updated <=? upper) then Some updated else None in
  match within with
  | Some updated => Ok (stored_at (Number_Int updated) (Number_Int delta))
  | None =>
    match on_bound with
    | OnBound_Fail => Err Overflow
    | OnBound_Skip =>
        Ok (Outcome_Unchanged (mkApplied (Number_Int current) (Number_Int 0) false))
    | OnBound_Clamp =>
        let clamped :=
          match candidate with
          | Some updated => if upper <? updated then upper else lower
          | None => if 0 <? delta then upper else lower
          end in
        applied ← ok_or (checked_i64 (clamped - current)) Overflow;
        Ok (stored_at (Number_Int clamped) (Number_Int applied))
    end
  end.

Definition evaluate_float `{FT : FloatText} (on_bound : OnBound) (delta lower upper : f64)
    (current : option bytes) : Result CoreError Outcome :=
  current ← (match current with
             | Some b =>
                 ok_or (v ← parse_float b; if is_finite v then Some v else None) NotAFloat
             | None => Ok f64_zero
             end);
  let updated := f64_add current delta in
  if is_finite updated && (SFleb lower updated && SFleb updated upper)
  then Ok (stored_at (Number_Float updated) (Number_Float delta))
  else
    match on_bound with
    | OnBound_Fail => Err NotFinite
    | OnBound_Skip =>
        Ok (Outcome_Unchanged (mkApplied (Number_Float current) (Number_Float f64_zero) false))
    | OnBound_Clamp =>
        let clamped :=
          if SFltb upper updated || (negb (is_finite updated) && SFltb f64_zero delta)
          then upper else lower in
        let applied := f64_sub clamped current in
        if negb (is_finite applied) then Err NotFinite
        else Ok (stored_at (Number_Float clamped) (Number_Float applied))
    end.

Definition evaluate `{FT : FloatText} (op : Arithmetic) (stored : option bytes)
    : Result CoreError Outcome :=
  match stored, ar_missing op with
  | None, Missing_Fail => Ok Outcome_Missing
  | _, _ =>
      match ar_delta op with
      | Delta_Counter delta decrement => evaluate_counter delta decrement stored
      | Delta_Int delta lower upper => evaluate_int (ar_on_bound op) delta lower upper stored
      | Delta_Float delta lower upper => evaluate_float (ar_on_bound op) delta lower upper stored
      end
  end.

(** ** Lemmas: decimal text *)

Lemma i64_of_checked z : in_i64 z = true <-> I64_MIN <= z <= I64_MAX.
Proof. unfold in_i64. rewrite andb_true_iff, !Z.leb_le. tauto. Qed.

Lemma checked_i64_Some z v : checked_i64 z = Some v <-> v = z /\ I64_MIN <= z <= I64_MAX.
Proof.
  unfold checked_i64. rewrite <- i64_of_checked. destruct (in_i64 z); split; intros; simplify_eq; try done; by destruct_and?; simplify_eq.
Qed.

Lemma checked_i64_None z : checked_i64 z = None <-> z < I64_MIN \/ I64_MAX < z.
Proof.
  unfold checked_i64, in_i64.
  destruct (Z.leb_spec I64_MIN z), (Z.leb_spec z I64_MAX); simpl; split; (done || lia).
Qed.

Lemma digits_char l :
  Forall (fun b => is_ascii_digit b = true) l <->
  Forall (fun c => is_digit_char c = true) (byte_val <$> l).
Proof. rewrite Forall_fmap. done. Qed.

Lemma digits_utf8 l :
  Forall (fun b => is_ascii_digit b = true) l -> utf8_decode l = Some (byte_val <$> l).
Proof.
  intros H. apply utf8_decode_ascii. eapply Forall_impl; [done|].
  intros b Hb%is_ascii_digit_lt. lia.
Qed.

Lemma forallb_digits l :
  forallb is_ascii_digit l = true <-> Forall (fun b => is_ascii_digit b = true) l.
Proof. rewrite forallb_forall, Forall_forall. by setoid_rewrite list_elem_of_In. Qed.

(** Text without a leading zero is the canonical text of what it reads as. *)
Lemma digit_loop_step fuel v d :
  0 < v -> 0 <= d < 10 ->
  digit_loop (S fuel) (v * 10 + d) [] = digit_loop fuel v [] ++ [byte_of (48 + d)].
Proof.
  intros Hv Hd. cbn [digit_loop].
  replace ((v * 10 + d) mod 10) with d by (rewrite Z.add_comm, Z.mod_add by lia; symmetry; apply Z.mod_small; lia).
  replace ((v * 10 + d) / 10) with v by (rewrite Z.div_add_l, Z.div_small by lia; lia).
  rewrite (proj2 (Z.eqb_neq v 0)) by lia. apply digit_loop_acc.
Qed.

Lemma digit_loop_fuel fuel k v acc :
  0 <= v < 10 ^ Z.of_nat (S fuel) ->
  digit_loop (S fuel + k) v acc = digit_loop (S fuel) v acc.
Proof.
  revert v acc. induction fuel as [|fuel IH]; intros v acc Hv;
    rewrite Nat.add_succ_l; cbn [digit_loop];
    rewrite Nat2Z.inj_succ, Z.pow_succ_r in Hv by lia.
  - simpl in Hv. rewrite Z.div_small by lia. done.
  - destruct (_ =? 0); [done|]. apply IH. split; [apply Z.div_pos; lia|].
    apply Z.div_lt_upper_bound; lia.
Qed.

Lemma parse_digits_canonical l v :
  parse_digits 0 (byte_val <$> l) = Some v ->
  Forall (fun b => is_ascii_digit b = true) l -> head l <> Some "0"%byte -> l <> [] ->
  0 < v /\ l = digit_loop (length l) v [] /\ v < 10 ^ Z.of_nat (length l).
Proof.
  revert v. induction l as [|b l IH] using rev_ind; intros v Hp Hd Hh Hne; [done|].
  rewrite fmap_app, parse_digits_app in Hp.
  destruct (parse_digits 0 (byte_val <$> l)) as [a|] eqn:Ea; [|done].
  apply Forall_app in Hd as [Hdl Hdb]. rewrite Forall_singleton in Hdb.
  cbn [mbind option_bind fmap list_fmap parse_digits] in Hp.
  change (is_digit_char (byte_val b)) with (is_ascii_digit b) in Hp. rewrite Hdb in Hp.
  apply is_ascii_digit_lt in Hdb. destruct (_ <=? U64_MAX) eqn:Hm; [|done].
  injection Hp as <-. rewrite length_app, Nat.add_1_r.
  assert (b = byte_of (48 + (byte_val b - 48))) as Hb.
  { apply byte_val_inj. rewrite digit_byte by lia. lia. }
  destruct l as [|x l'].
  - injection Ea as <-. cbn [app length]. rewrite Z.mul_0_l, Z.add_0_l.
    assert (byte_val b <> 48).
    { intros E. apply Hh. simpl. f_equal. apply byte_val_inj. by rewrite E. }
    change (10 ^ Z.of_nat 1) with 10. split; [lia|]. split; [|lia].
    cbn [digit_loop]. rewrite Z.mod_small, Z.div_small by lia. by rewrite <- Hb.
  - destruct (IH a eq_refl Hdl) as (Ha & Hl & Hlt); [done|done|].
    split; [lia|]. split.
    + rewrite digit_loop_step by lia. by rewrite <- Hl, <- Hb.
    + rewrite Nat2Z.inj_succ, Z.pow_succ_r by lia. lia.
Qed.

Lemma canonical_u64_text l v :
  parse_digits 0 (byte_val <$> l) = Some v ->
  Forall (fun b => is_ascii_digit b = true) l -> head l <> Some "0"%byte -> l <> [] ->
  l = u64_text v.
Proof.
  intros Hp Hd Hh Hne.
  assert (fits 64 v) as Hv by (eapply parse_digits_range; [|done]; width).
  destruct (parse_digits_canonical l v Hp Hd Hh Hne) as (H0 & Hl & Hlt).
  unfold u64_text. rewrite Hl at 1. destruct l as [|x l']; [done|]. cbn [length] in *.
  destruct (decide (S (length l') <= 20)%nat) as [Hle|Hgt].
  - replace 20%nat with (S (length l') + (19 - length l'))%nat by lia.
    symmetry. apply digit_loop_fuel. lia.
  - replace (S (length l')) with (20 + (S (length l') - 20))%nat by lia.
    apply (digit_loop_fuel 19). change (10 ^ Z.of_nat 20) with 100000000000000000000. width.
Qed.

Lemma u64_text_head v : 0 < v -> fits 64 v -> head (u64_text v) <> Some "0"%byte.
Proof.
  intros H0 Hv. destruct (digit_loop_head 20 v []) as (b & l & E & Hb).
  { change (10 ^ Z.of_nat 20) with 100000000000000000000. width. }
  unfold u64_text. rewrite E. simpl. intros [= ->].
  change (byte_val "0") with 48 in Hb. lia.
Qed.

Lemma parse_u64_digits l :
  Forall (fun b => is_ascii_digit b = true) l -> l <> [] ->
  parse_u64 (byte_val <$> l) = parse_digits 0 (byte_val <$> l).
Proof.
  intros [|b l' Hb Hl]; [done|]. intros _. apply is_ascii_digit_lt in Hb.
  cbn [fmap list_fmap]. unfold parse_u64.
  destruct (byte_val b) as [|p|p] eqn:Eb; try lia.
  repeat (destruct p as [p|p|]; try lia; try reflexivity).
Qed.

(** What [parse_int] computes on digits with no leading zero. *)
Lemma parse_int_digits (neg : bool) d l :
  Forall (fun b => is_ascii_digit b = true) (d :: l) -> d <> "0"%byte ->
  parse_int ((if neg then bs "-" else []) ++ d :: l) =
  m ← parse_digits 0 (byte_val <$> (d :: l));
  if neg then if m <=? I64_MAX + 1 then Some (- m) else None else checked_i64 m.
Proof.
  intros Hd H0. pose proof Hd as Hd'. apply Forall_cons in Hd' as [Hdd _].
  apply is_ascii_digit_lt in Hdd.
  assert (parse_int ((if neg then bs "-" else []) ++ d :: l) =
    text ← utf8_decode (d :: l); m ← parse_u64 text;
    if neg then if m <=? I64_MAX + 1 then Some (wrapping_neg (as_i64 m)) else None
    else checked_i64 m) as ->.
  { unfold parse_int. change (bs "0") with ["0"%byte]. change (bs "-") with ["-"%byte].
    rewrite bool_decide_eq_false_2 by (destruct neg; cbn [app]; congruence).
    destruct neg; cbn [app].
    - rewrite (bool_decide_eq_true_2 _ eq_refl).
      rewrite bool_decide_eq_false_2 by done. by rewrite (proj2 (forallb_digits _) Hd).
    - rewrite (bool_decide_eq_false_2 (d = "-"%byte)) by (intros ->; change (byte_val "-") with 45 in Hdd; lia).
      rewrite bool_decide_eq_false_2 by done. by rewrite (proj2 (forallb_digits _) Hd). }
  rewrite digits_utf8 by done. cbn [mbind option_bind]. rewrite parse_u64_digits by done.
  destruct (parse_digits 0 _) as [m|] eqn:Em; [|done]. cbn [mbind option_bind].
  destruct neg; [|done]. destruct (Z.leb_spec m (I64_MAX + 1)); [|done]. f_equal.
  assert (fits 64 m) by (eapply parse_digits_range; [|done]; width).
  unfold wrapping_neg, as_i64. destruct (Z.leb_spec m I64_MAX).
  - destruct (Z.eqb_spec m I64_MIN); width.
  - assert (m = 9223372036854775808) as -> by width. done.
Qed.

(** [parse_int] refuses everything that is not an optional minus sign, then
    digits with no leading zero, or [0] alone. *)
Lemma parse_int_shape t v :
  parse_int t = Some v ->
  t = bs "0" /\ v = 0 \/
  exists neg d l, t = (if neg : bool then bs "-" else []) ++ d :: l /\ d <> "0"%byte
    /\ Forall (fun b => is_ascii_digit b = true) (d :: l).
Proof.
  unfold parse_int. case_bool_decide as E0; [intros [= <-]; by left|].
  intros H. right. destruct t as [|b rest]; [done|].
  case_bool_decide as Eb.
  - subst b. destruct rest as [|d l]; [done|].
    case_bool_decide as Ed; [done|]. cbn [orb] in H.
    destruct (forallb is_ascii_digit (d :: l)) eqn:Ef; [|done].
    exists true, d, l. split_and!; [done|done|]. by apply forallb_digits.
  - case_bool_decide as Ed; [done|]. cbn [orb] in H.
    destruct (forallb is_ascii_digit (b :: rest)) eqn:Ef; [|done].
    exists false, b, rest. split_and!; [done|done|]. by apply forallb_digits.
Qed.

Lemma i64_text_parse v :
  I64_MIN <= v <= I64_MAX -> parse_int (i64_text v) = Some v.
Proof.
  intros Hv. destruct (decide (v = 0)) as [->|H0]; [done|].
  set (m := Z.abs v). assert (0 < m <= I64_MAX + 1) as Hm by (unfold m; width).
  assert (i64_text v = (if v <? 0 then bs "-" else []) ++ u64_text m) as ->.
  { unfold i64_text, m. destruct (Z.ltb_spec v 0).
    - by rewrite Z.abs_neq by lia.
    - by rewrite Z.abs_eq by lia. }
  assert (fits 64 m) as Hf by width.
  pose proof (u64_text_head m ltac:(lia) Hf) as Hh.
  pose proof (u64_text_digits m ltac:(lia)) as Hd.
  pose proof (u64_text_parse_digits m Hf) as Hp.
  destruct (u64_text m) as [|d l] eqn:E; [by apply u64_text_nonempty in E|].
  rewrite parse_int_digits by (done || (simpl in Hh; congruence)).
  rewrite Hp. cbn [mbind option_bind]. destruct (Z.ltb_spec v 0).
  - rewrite (proj2 (Z.leb_le _ _)) by lia. f_equal. unfold m. lia.
  - apply checked_i64_Some. unfold m. lia.
Qed.

Lemma parse_int_canonical t v :
  parse_int t = Some v -> I64_MIN <= v <= I64_MAX /\ t = i64_text v.
Proof.
  intros H. pose proof H as Hs.
  apply parse_int_shape in Hs as [[-> ->]|(neg & d & l & -> & Hd0 & Hd)]; [done|].
  rewrite parse_int_digits in H by done.
  destruct (parse_digits 0 _) as [m|] eqn:Em; [|done]. cbn [mbind option_bind] in H.
  assert (head (d :: l) <> Some "0"%byte) by (simpl; congruence).
  assert (d :: l = u64_text m) as El by by apply canonical_u64_text.
  apply parse_digits_canonical in Em as (Hm0 & _); [|done..].
  rewrite El. destruct neg.
  - destruct (Z.leb_spec m (I64_MAX + 1)); [|done]. injection H as <-.
    split; [width|]. unfold i64_text. rewrite (proj2 (Z.ltb_lt _ _)) by lia.
    by rewrite Z.opp_involutive.
  - apply checked_i64_Some in H as [-> Hr]. split; [done|].
    unfold i64_text. by rewrite (proj2 (Z.ltb_ge _ _)) by lia.
Qed.

Lemma u64_text_parse_counter v : fits 64 v -> parse_counter (u64_text v) = Ok v.
Proof.
  intros Hv. unfold parse_counter.
  pose proof (u64_text_digits v ltac:(width)) as Hd.
  rewrite digits_utf8 by done. cbn [mbind option_bind].
  rewrite trim_digits by by apply digits_char.
  by rewrite u64_text_roundtrip.
Qed.

Lemma parse_counter_range b v : parse_counter b = Ok v -> fits 64 v.
Proof.
  unfold parse_counter. intros H. apply ok_or_inv in H.
  destruct (utf8_decode b); [|done]. by eapply parse_u64_range.
Qed.

Section Evaluation.
Context `{FT : FloatText}.

(** The sum an integer operation aims at, kept inside its bounds. *)
Definition clamp (lower upper v : Z) : Z := Z.max lower (Z.min upper v).

Lemma evaluate_int_within on_bound delta lower upper v b :
  parse_int b = Some v -> I64_MIN <= lower -> upper <= I64_MAX ->
  lower <= v + delta <= upper ->
  evaluate_int on_bound delta lower upper (Some b)
  = Ok (stored_at (Number_Int (v + delta)) (Number_Int delta)).
Proof.
  intros Hp Hl Hu Hb. unfold evaluate_int. rewrite Hp. cbn [ok_or mbind Result_bind].
  rewrite (proj2 (checked_i64_Some (v + delta) _)) by (split; [done|lia]).
  cbn [mbind option_bind]. by rewrite !(proj2 (Z.leb_le _ _)) by lia.
Qed.

Lemma evaluate_int_outside on_bound delta lower upper v b :
  parse_int b = Some v -> I64_MIN <= v <= I64_MAX ->
  I64_MIN <= lower <= upper -> upper <= I64_MAX ->
  ~ (lower <= v + delta <= upper) ->
  evaluate_int on_bound delta lower upper (Some b) =
    match on_bound with
    | OnBound_Fail => Err Overflow
    | OnBound_Skip => Ok (Outcome_Unchanged (mkApplied (Number_Int v) (Number_Int 0) false))
    | OnBound_Clamp =>
        let target := clamp lower upper (v + delta) in
        if in_i64 (target - v)
        then Ok (stored_at (Number_Int target) (Number_Int (target - v)))
        else Err Overflow
    end.
Proof.
  intros Hp Hv Hl Hu Hb. unfold evaluate_int. rewrite Hp. cbn [ok_or mbind Result_bind].
  assert ((u ← checked_i64 (v + delta);
           if (lower <=? u) && (u <=? upper) then Some u else None) = None) as ->.
  { destruct (checked_i64 (v + delta)) as [u|] eqn:E; [|done].
    apply checked_i64_Some in E as [-> _]. cbn [mbind option_bind].
    destruct (Z.leb_spec lower (v + delta)), (Z.leb_spec (v + delta) upper); simpl; (done || lia). }
  destruct on_bound; [done|done|].
  assert ((match checked_i64 (v + delta) with
           | Some u => if upper <? u then upper else lower
           | None => if 0 <? delta then upper else lower
           end) = clamp lower upper (v + delta)) as ->.
  { unfold clamp. destruct (checked_i64 (v + delta)) as [u|] eqn:E.
    - apply checked_i64_Some in E as [-> _]. destruct (Z.ltb_spec upper (v + delta)); lia.
    - apply checked_i64_None in E. destruct (Z.ltb_spec 0 delta); lia. }
  unfold checked_i64. by destruct (in_i64 _).
Qed.

Lemma evaluate_counter_spec delta decrement v b :
  parse_counter b = Ok v -> fits 64 delta ->
  let updated := if decrement : bool then Z.max 0 (v - delta) else (v + delta) mod 2 ^ 64 in
  fits 64 updated
  /\ evaluate_counter delta decrement (Some b)
     = Ok (stored_at (Number_Counter updated) (Number_Counter (wrapping 64 (updated - v)))).
Proof.
  intros Hp Hd updated. pose proof (parse_counter_range _ _ Hp) as Hv.
  unfold evaluate_counter. rewrite Hp. split; [|by destruct decrement].
  unfold updated. destruct decrement; [|by apply wrapping_fits]. width.
Qed.

(** The numbers an operation is built from fit their machine types, and float
    bounds are finite. *)
Definition delta_ok (d : Delta) : Prop :=
  match d with
  | Delta_Counter delta _ => fits 64 delta
  | Delta_Int delta lower upper =>
      in_i64 delta = true /\ in_i64 lower = true /\ in_i64 upper = true
  | Delta_Float _ lower upper => is_finite lower = true /\ is_finite upper = true
  end.

(** A stored text reads back in the domain it was written in. *)
Definition reads_back (text : bytes) (n : Number) : Prop :=
  match n with
  | Number_Int v => parse_int text = Some v
  | Number_Counter v => parse_counter text = Ok v
  | Number_Float v => text = format_float v /\ is_finite v = true
  end.

Lemma evaluate_int_readable on_bound delta lower upper cur text ap :
  in_i64 lower = true -> in_i64 upper = true ->
  evaluate_int on_bound delta lower upper cur = Ok (Outcome_Store text ap) ->
  text = to_text (ap_value ap) /\ reads_back text (ap_value ap).
Proof.
  intros Hl Hu He. unfold evaluate_int in He. apply bind_inv_ok in He as (v & _ & He).
  assert (forall x y, in_i64 x = true ->
    Ok (E:=CoreError) (stored_at (Number_Int x) y) = Ok (Outcome_Store text ap) ->
    text = to_text (ap_value ap) /\ reads_back text (ap_value ap)) as Hst.
  { intros x y Hx [= <- <-]. split; [done|]. apply i64_text_parse. by apply i64_of_checked. }
  destruct (checked_i64 (v + delta)) as [u|] eqn:Ec; cbn [mbind option_bind] in He.
  - assert (in_i64 u = true) by (apply checked_i64_Some in Ec as [-> ?]; by apply i64_of_checked).
    destruct ((lower <=? u) && (u <=? upper)); [eapply Hst; [|exact He]; done|].
    destruct on_bound; [done|done|]. apply bind_inv_ok in He as (a & _ & He).
    destruct (upper <? u); (eapply Hst; [|exact He]; done).
  - destruct on_bound; [done|done|]. apply bind_inv_ok in He as (a & _ & He).
    destruct (0 <? delta); (eapply Hst; [|exact He]; done).
Qed.

Lemma evaluate_float_readable on_bound delta lower upper cur text ap :
  is_finite lower = true -> is_finite upper = true ->
  evaluate_float on_bound delta lower upper cur = Ok (Outcome_Store text ap) ->
  text = to_text (ap_value ap) /\ reads_back text (ap_value ap).
Proof.
  intros Hl Hu He. unfold evaluate_float in He. apply bind_inv_ok in He as (v & _ & He).
  assert (forall x y, is_finite x = true ->
    Ok (E:=CoreError) (stored_at (Number_Float x) y) = Ok (Outcome_Store text ap) ->
    text = to_text (ap_value ap) /\ reads_back text (ap_value ap)) as Hst.
  { intros x y Hx [= <- <-]. split; [done|]. by split. }
  destruct (is_finite (f64_add v delta)) eqn:Ef; cbn [andb negb] in He.
  - destruct (SFleb _ _ && _); [eapply Hst; [|exact He]; done|]. destruct on_bound; [done|done|].
    destruct (is_finite (f64_sub _ _)); [|done]. cbn [negb] in He.
    destruct (_ || _); (eapply Hst; [|exact He]; done).
  - destruct on_bound; [done|done|].
    destruct (is_finite (f64_sub _ _)); [|done]. cbn [negb] in He.
    destruct (_ || _); (eapply Hst; [|exact He]; done).
Qed.

Lemma evaluate_counter_readable delta decrement cur text ap :
  fits 64 delta ->
  evaluate_counter delta decrement cur = Ok (Outcome_Store text ap) ->
  text = to_text (ap_value ap) /\ reads_back text (ap_value ap).
Proof.
  intros Hd He. unfold evaluate_counter in He. apply bind_inv_ok in He as (v & Hv & He).
  assert (fits 64 v) by (destruct cur; [by eapply parse_counter_range|injection Hv as <-; width]).
  injection He as <- <-. split; [done|]. simpl. apply u64_text_parse_counter.
  destruct decrement; [by apply saturating_sub_fits|by apply wrapping_fits].
Qed.

Lemma evaluate_no_panic op stored why : evaluate op stored <> Panic why.
Proof.
  unfold evaluate, evaluate_counter, evaluate_int, evaluate_float, parse_counter, ok_or.
  destruct stored as [b|], (ar_missing op), (ar_delta op), (ar_on_bound op); try done;
    simpl; repeat (case_match; simpl; try done).
Qed.

End Evaluation.

(** ** Properties *)

(** [parse_int] accepts exactly the canonical decimal text of each [i64]:
    every value reads back from its own text, and nothing else is accepted (no
    leading zero, no plus sign, no space, no [-0], nothing out of range), so a
    stored integer and its text determine each other. *)
Theorem parse_int_exact t v :
  parse_int t = Some v <-> I64_MIN <= v <= I64_MAX /\ t = i64_text v.
Proof.
  split; [apply parse_int_canonical|]. intros [Hv ->]. by apply i64_text_parse.
Qed.

(** Redis integer arithmetic against the unbounded integers: a sum inside
    the bounds is stored with the full increment applied; outside them [Fail]
    refuses, [Skip] changes nothing and reports zero, and [Clamp] stores the
    bound nearest to the true sum, whichever way machine addition overflowed,
    reporting the distance moved or [Overflow] if that distance is no [i64]. *)
Theorem evaluate_int_exact `{FT : FloatText} key on_bound missing ttl delta lower upper v b :
  parse_int b = Some v -> I64_MIN <= lower <= upper -> upper <= I64_MAX ->
  evaluate (mkArithmetic key (Delta_Int delta lower upper) on_bound missing ttl) (Some b) =
    let sum := v + delta in
    if decide (lower <= sum <= upper)
    then Ok (Outcome_Store (i64_text sum) (mkApplied (Number_Int sum) (Number_Int delta) true))
    else
      match on_bound with
      | OnBound_Fail => Err Overflow
      | OnBound_Skip => Ok (Outcome_Unchanged (mkApplied (Number_Int v) (Number_Int 0) false))
      | OnBound_Clamp =>
          let target := Z.max lower (Z.min upper sum) in
          if in_i64 (target - v)
          then Ok (Outcome_Store (i64_text target)
                     (mkApplied (Number_Int target) (Number_Int (target - v)) true))
          else Err Overflow
      end.
Proof.
  intros Hp Hl Hu. unfold evaluate. cbn [ar_missing ar_delta ar_on_bound]. cbv zeta.
  destruct (parse_int_canonical _ _ Hp) as [Hv _].
  destruct (decide (lower <= v + delta <= upper)).
  - by rewrite (evaluate_int_within _ _ _ _ v) by (done || lia).
  - by rewrite (evaluate_int_outside _ _ _ _ v) by (done || lia).
Qed.

(** Nothing an arithmetic operation stores is unreadable to the next one:
    in every domain and bound mode, the stored text is the rendering of the
    reported value, and integers and counters parse back to exactly that value
    while floats stored are finite. *)
Theorem evaluate_stores_readable `{FT : FloatText} op stored text ap :
  delta_ok (ar_delta op) -> evaluate op stored = Ok (Outcome_Store text ap) ->
  text = to_text (ap_value ap) /\ reads_back text (ap_value ap) /\ ap_wrote ap = true.
Proof.
  intros Hok He.
  assert (ap_wrote ap = true) as Hw.
  { revert He. unfold evaluate, evaluate_counter, evaluate_int, evaluate_float, stored_at.
    destruct stored, (ar_missing op), (ar_delta op); try done; intros He;
      inv_ok; repeat (case_match; try done); inv_ok; simplify_eq; done. }
  assert (text = to_text (ap_value ap) /\ reads_back text (ap_value ap)) as [? ?]; [|done].
  unfold evaluate in He.
  destruct stored as [b|], (ar_missing op), (ar_delta op) as [delta dec|delta lo hi|delta lo hi];
    try done; cbn [delta_ok] in Hok;
    first [ eapply evaluate_counter_readable; [|exact He]; tauto
          | eapply evaluate_int_readable; [| |exact He]; tauto
          | eapply evaluate_float_readable; [| |exact He]; tauto ].
Qed.

(** memcached counters: an increment wraps at 64 bits, a decrement floors
    at zero, the stored text reads back as the new value, and a missing key is
    reported and never created. *)
Theorem evaluate_counter_exact `{FT : FloatText} key delta decrement b v :
  parse_counter b = Ok v -> fits 64 delta ->
  let op := Arithmetic_counter key delta decrement in
  let updated := if decrement : bool then Z.max 0 (v - delta) else (v + delta) mod 2 ^ 64 in
  evaluate op None = Ok Outcome_Missing
  /\ parse_counter (u64_text updated) = Ok updated
  /\ evaluate op (Some b) =
       Ok (Outcome_Store (u64_text updated)
             (mkApplied (Number_Counter updated)
                (Number_Counter ((updated - v) mod 2 ^ 64)) true)).
Proof.
  intros Hp Hd op updated.
  destruct (evaluate_counter_spec delta decrement v b Hp Hd) as [Hf He].
  split_and!; [done|by apply u64_text_parse_counter|exact He].
Qed.

(** ** Witnesses *)

(** A concrete stand-in for the two text conversions: it renders and reads the
    floats zero and one only. *)
Definition small_floats : FloatText := {|
  f64_from_str b :=
    if bool_decide (b = bs "0") then Some f64_zero
    else if bool_decide (b = bs "1") then Some (S754_finite false 4503599627370496 (-52))
    else None;
  f64_display v := match v with S754_zero _ => bs "0" | _ => bs "1" end
|}.

Lemma evaluate_int_exact_witness :
  @evaluate small_floats
    (mkArithmetic (bs "k") (Delta_Int 5 0 10) OnBound_Clamp Missing_CreateAtZero Ttl_Keep)
    (Some (bs "8"))
  = Ok (Outcome_Store (bs "10") (mkApplied (Number_Int 10) (Number_Int 2) true)).
Proof.
  refine (@evaluate_int_exact small_floats (bs "k") OnBound_Clamp Missing_CreateAtZero Ttl_Keep
    5 0 10 8 (bs "8") _ _ _).
  - vm_compute. reflexivity.
  - unfold I64_MIN. lia.
  - unfold I64_MAX. lia.
Defined.

Lemma evaluate_stores_readable_witness :
  bs "15" = @to_text small_floats (Number_Counter 15)
  /\ @reads_back small_floats (bs "15") (Number_Counter 15) /\ true = true.
Proof.
  refine (@evaluate_stores_readable small_floats (Arithmetic_counter (bs "k") 5 false)
    (Some (bs "10")) (bs "15")
    (mkApplied (Number_Counter 15) (Number_Counter 5) true) _ _).
  - unfold delta_ok, Arithmetic_counter, fits. simpl. lia.
  - vm_compute. reflexivity.
Defined.

Lemma evaluate_counter_exact_witness :
  @evaluate small_floats (Arithmetic_counter (bs "k") 2 false) None = Ok Outcome_Missing
  /\ parse_counter (u64_text 1) = Ok 1
  /\ @evaluate small_floats (Arithmetic_counter (bs "k") 2 false) (Some (bs "18446744073709551615"))
     = Ok (Outcome_Store (bs "1") (mkApplied (Number_Counter 1) (Number_Counter 2) true)).
Proof.
  refine (@evaluate_counter_exact small_floats (bs "k") 2 false (bs "18446744073709551615")
    18446744073709551615 _ _).
  - vm_compute. reflexivity.
  - unfold fits. lia.
Defined.
