(* ===== verification/Command.v ===== *)
(** [vash-core]'s boundary types: commands and replies ([command.rs]), listing
    requests and pages ([listing.rs]) and the cluster messages ([cluster.rs]). *)

From S2P Require Import Prelude Bytes Core Record Glob Clock Arith.

(** ** command.rs: writes and their guards *)

Definition PROTOCOL_VERSION : Z := 1.

Definition MAX_BATCH_ITEMS : Z := 4096.

Inductive SetMode : Type :=
| SetMode_Set | SetMode_Add | SetMode_Replace | SetMode_Append | SetMode_Prepend
| SetMode_Cas (expected : Z).

#[global] Instance SetMode_eq_dec : EqDecision SetMode.
Proof. solve_decision. Defined.

Inductive Stored : Type :=
| Stored_Stored (cas : Z) | Stored_NotStored | Stored_Exists | Stored_NotFound.

Inductive ExpireGuard : Type :=
| Guard_Always | Guard_IfPersistent | Guard_IfVolatile | Guard_IfLater | Guard_IfEarlier.

Inductive BatchGuard : Type :=
| BatchGuard_Always | BatchGuard_IfAllAbsent | BatchGuard_IfAllPresent.

Record SetReq := mkSet {
  s_key : bytes;
  s_value : bytes;
  s_ttl : TtlChange;
  s_mc_flags : Z;
  s_tags : list bytes;
  s_mode : SetMode;
  s_return_previous : bool
}.

Definition Set_with_ttl (key value : bytes) (ttl : TtlChange) : SetReq :=
  mkSet key value ttl 0 [] SetMode_Set false.

Definition Set_plain (key value : bytes) (ttl_secs : Z) : SetReq :=
  Set_with_ttl key value (Ttl_Set ttl_secs).

(** A value as read: owned ([Value]) and borrowed ([ValueRef]) have the same
    fields. *)
Record Value := mkValue {
  v_data : bytes;
  v_mc_flags : Z;
  v_cas : Z;
  v_expires_at_ms : option Z
}.

Definition remaining_ttl_from (expires_at_ms : option Z) (now_ms : Z) : option Z :=
  match expires_at_ms with
  | None => None
  | Some at_ms =>
      if at_ms =? NEVER then Some (-1)
      else Some (as_i64 (div_ceil (saturating_sub at_ms now_ms) 1000))
  end.

Definition remaining_ttl_secs (v : Value) (now_ms : Z) : option Z :=
  remaining_ttl_from (v_expires_at_ms v) now_ms.

(** ** cluster.rs *)

Record TagGeneration := mkTagGeneration { tg_name : bytes; tg_generation : Z }.

Definition MAX_TAG_SYNC_ENTRIES : Z := 8192.

Inductive ClusterMode : Type := Mode_Local | Mode_Fanout | Mode_FanoutSync.

Definition ClusterMode_to_u8 (m : ClusterMode) : Z :=
  match m with Mode_Local => 0 | Mode_Fanout => 1 | Mode_FanoutSync => 2 end.

Definition ClusterMode_from_u8 (raw : Z) : option ClusterMode :=
  match raw with
  | 0 => Some Mode_Local
  | 1 => Some Mode_Fanout
  | 2 => Some Mode_FanoutSync
  | _ => None
  end.

Definition fans_out (m : ClusterMode) : bool :=
  match m with Mode_Local => false | _ => true end.

Record PeerInfo := mkPeerInfo { p_addr : bytes; p_reachable : bool }.

Record ClusterInfo := mkClusterInfo { ci_mode : ClusterMode; ci_peers : list PeerInfo }.

(** ** listing.rs *)

Definition MAX_LIST_LIMIT : Z := 1024.

Definition MAX_LIST_CURSOR_LEN : Z := MAX_KEY_LEN + 8.

Record ListRequest := mkListRequest {
  lr_limit : Z;
  lr_cursor : bytes;
  lr_pattern : bytes
}.

Definition ListRequest_validate (r : ListRequest) : Result CoreError unit :=
  if (lr_limit r =? 0) || (MAX_LIST_LIMIT <? lr_limit r)
  then Err (BadLimit (lr_limit r) MAX_LIST_LIMIT)
  else Glob.validate (lr_pattern r).

Definition ListRequest_matches (r : ListRequest) (name : bytes) : bool :=
  Glob.matches (lr_pattern r) name.

Record ListEntry := mkListEntry {
  le_name : bytes;
  le_version : Z;
  le_expires_at_ms : option Z
}.

Definition ListEntry_new (name : bytes) (version : Z) : ListEntry :=
  mkListEntry name version None.

Definition ListEntry_record (name : bytes) (version expires_at_ms : Z) : ListEntry :=
  mkListEntry name version (Some expires_at_ms).

Record Listing := mkListing {
  l_entries : list ListEntry;
  l_scanned : Z;
  l_cursor : option bytes;
  l_truncated : bool
}.

Definition Listing_default : Listing := mkListing [] 0 None false.

(** ** command.rs: commands and replies *)

Inductive KeyList : Type := KeyList_One (k : bytes) | KeyList_Many (ks : list bytes).

Definition KeyList_as_slice (l : KeyList) : list bytes :=
  match l with KeyList_One k => [k] | KeyList_Many ks => ks end.

Record ServerInfo := mkServerInfo {
  si_protocol_version : Z;
  si_shards : Z;
  si_max_key_len : Z;
  si_max_value_len : Z;
  si_capabilities : Z;
  si_max_tags_per_record : Z
}.

Inductive Command : Type :=
| Cmd_Hello (protocol_version : Z)
| Cmd_Ping
| Cmd_Get (key : bytes)
| Cmd_GetMany (keys : KeyList)
| Cmd_Set (set : SetReq)
| Cmd_SetMany (sets : list SetReq) (guard : BatchGuard)
| Cmd_Delete (key : bytes)
| Cmd_DeleteMany (keys : list bytes)
| Cmd_Deadline (key : bytes)
| Cmd_Deadlines (keys : list bytes)
| Cmd_Expire (key : bytes) (ttl : TtlChange) (guard : ExpireGuard)
| Cmd_Append (key suffix : bytes)
| Cmd_Touch (key : bytes) (ttl_secs : Z)
| Cmd_DeleteByTag (tag : bytes)
| Cmd_Flush
| Cmd_GetAndTouch (keys : KeyList) (ttl_secs : Z)
| Cmd_Arithmetic (op : Arithmetic)
| Cmd_TagSync (full : bool) (entries : list (bytes * Z))
| Cmd_Cluster
| Cmd_ListKeys (req : ListRequest)
| Cmd_ListTags (req : ListRequest)
| Cmd_Stats
| Cmd_Version
| Cmd_Quit.

Definition Command_inline_safe (c : Command) : bool :=
  match c with
  | Cmd_Hello _ | Cmd_Ping | Cmd_Stats | Cmd_Version | Cmd_Quit => true
  | Cmd_Cluster => true
  | Cmd_Get _ | Cmd_GetMany _ | Cmd_Deadline _ | Cmd_Deadlines _ => true
  | Cmd_ListKeys _ | Cmd_ListTags _ => false
  | Cmd_Set _ | Cmd_SetMany _ _ | Cmd_Delete _ | Cmd_DeleteMany _ | Cmd_Touch _ _
  | Cmd_Expire _ _ _ | Cmd_Append _ _ | Cmd_Arithmetic _ | Cmd_GetAndTouch _ _
  | Cmd_DeleteByTag _ | Cmd_Flush | Cmd_TagSync _ _ => false
  end.

Inductive Reply : Type :=
| Reply_Hello (info : ServerInfo)
| Reply_Pong
| Reply_Value (v : Value)
| Reply_Values (vs : list (option Value))
| Reply_Stored (outcome : Stored)
| Reply_Swapped (outcome : Stored) (previous : option Value)
| Reply_StoredMany (cas : list Z)
| Reply_Applied (applied : bool)
| Reply_Length (length : Z)
| Reply_Deadline (deadline : option Z)
| Reply_Deadlines (deadlines : list (option Z))
| Reply_Deleted
| Reply_DeletedMany (hits : list bool)
| Reply_Touched
| Reply_Invalidated (existed : bool)
| Reply_Flushed (epoch : Z)
| Reply_Arithmetic (applied : Applied)
| Reply_TagSync (entries : list TagGeneration)
| Reply_Cluster (info : ClusterInfo)
| Reply_Listing (listing : Listing)
| Reply_Stats (stats : list (bytes * bytes))
| Reply_Version (version : bytes)
| Reply_Closing
| Reply_NotFound.
