(* ===== verification/Backend.v ===== *)
(** The storage-engine seam ([vash-store/src/backend/mod.rs]): what a write
    transaction over the six sub-databases promises its clients, as a class of
    operations and a class of laws; [error.rs]; and one engine that satisfies
    them, an ordered map with a page budget.

    The real engines (LMDB through [heed], libmdbx) are C libraries outside the
    program; every theorem about the operations above is proved from the laws,
    so it holds of any engine that keeps them.

    The stable 64-bit hash both secondary indexes are keyed with comes from the
    [xxhash-rust] crate, so it is a parameter too: the theorems use only that it
    is a function to [u64], and, where two keys must not share an index row, that
    it separates the keys in question. *)

From S2P Require Import Prelude Bytes Core.

Class Hash := {
  xxh3_64 : bytes -> Z;
  xxh3_fits k : fits 64 (xxh3_64 k)
}.

(** [k] collides with no other key of [D]. *)
Definition separates `{HS : Hash} (k : bytes) (D : bytes -> Prop) : Prop :=
  forall k', D k' -> xxh3_64 k' = xxh3_64 k -> k' = k.

#[export] Hint Resolve xxh3_fits : vash.

(** A hash that separates every pair of keys of at most seven bytes: what the
    witnesses evaluate with. *)
Definition small_hash_of (k : bytes) : Z :=
  wrapping 64 (le_val k + 2 ^ 56 * Z.of_nat (length k)).

Lemma small_hash_fits k : fits 64 (small_hash_of k).
Proof. apply wrapping_fits. lia. Qed.

Definition small_hash : Hash := {| xxh3_64 := small_hash_of; xxh3_fits := small_hash_fits |}.

(** ** error.rs *)

Inductive StoreError : Type :=
| SE_Core (e : CoreError)
| SE_Engine (detail : String.string)
| SE_Io (detail : String.string)
| SE_CapacityFull
| SE_Unsupported (what : String.string)
| SE_Overloaded
| SE_ShuttingDown
| SE_TagLimit (n : Z)
| SE_Corrupt (detail : String.string).

Definition poisons_transaction (e : StoreError) : bool :=
  match e with SE_Engine _ | SE_CapacityFull => true | _ => false end.

Definition is_capacity (e : StoreError) : bool :=
  match e with SE_CapacityFull => true | _ => false end.

Definition clone_shallow (e : StoreError) : StoreError :=
  match e with
  | SE_CapacityFull => SE_CapacityFull
  | SE_Overloaded => SE_Overloaded
  | SE_ShuttingDown => SE_ShuttingDown
  | SE_TagLimit n => SE_TagLimit n
  | SE_Unsupported what => SE_Unsupported what
  | SE_Core e => SE_Core e
  | SE_Corrupt detail => SE_Corrupt detail
  | SE_Engine detail => SE_Engine detail
  | SE_Io detail => SE_Corrupt detail
  end.

(** ** Sub-databases, bounds and statistics *)

Inductive Db : Type := Main | Exp | TagIdx | TagMeta | Jobs | Meta.

#[global] Instance Db_eq_dec : EqDecision Db.
Proof. solve_decision. Defined.

Definition all_dbs : list Db := [Main; Exp; TagIdx; TagMeta; Jobs; Meta].

Inductive Bound : Type := Included (k : bytes) | Excluded (k : bytes) | Unbounded.

Abbreviation Range := (Bound * Bound)%type.

Definition FULL : Range := (Unbounded, Unbounded).

Definition above (b : Bound) (k : bytes) : bool :=
  match b with
  | Included lo => lex_le lo k
  | Excluded lo => lex_lt lo k
  | Unbounded => true
  end.

Definition below (b : Bound) (k : bytes) : bool :=
  match b with
  | Included hi => lex_le k hi
  | Excluded hi => lex_lt k hi
  | Unbounded => true
  end.

Definition in_bounds (r : Range) (k : bytes) : bool := above r.1 k && below r.2 k.

Record DbStat := mkDbStat { st_entries : Z; st_pages : Z }.

(** The rows of a sub-database between two bounds, in key order. *)
Abbreviation db_map := (gmap bytes bytes).

Definition rows_in (m : db_map) (r : Range) : list (bytes * bytes) :=
  filter (fun kv => in_bounds r kv.1 = true) (merge_sort key_le (map_to_list m)).

(** ** The interface

    Write operations return the transaction with their outcome: a failed one
    leaves a transaction the engine has invalidated, which is why
    [poisons_transaction] errors make the writer abort.  A [T] is both the
    environment as last committed and a transaction over it: [txn_begin] opens
    one ([Backend::write_txn]), [txn_commit] makes it the environment.  A range
    is taken as one result; the real cursor reports an error at the row it
    fails on. *)

Class Backend (T : Type) := {
  txn_begin : T -> Result StoreError T;
  txn_get : T -> Db -> bytes -> Result StoreError (option bytes);
  txn_range : T -> Db -> Range -> Result StoreError (list (bytes * bytes));
  txn_stat : T -> Db -> Result StoreError DbStat;
  txn_put : T -> Db -> bytes -> bytes -> T * Result StoreError unit;
  txn_delete : T -> Db -> bytes -> T * Result StoreError bool;
  txn_clear : T -> Db -> T * Result StoreError unit;
  txn_commit : T -> Result StoreError T
}.

(** The contents of the six sub-databases. *)
Record Views := mkViews {
  v_main : db_map; v_exp : db_map; v_tagidx : db_map;
  v_tag_meta : db_map; v_jobs : db_map; v_meta : db_map
}.

Definition vget (v : Views) (db : Db) : db_map :=
  match db with
  | Main => v_main v | Exp => v_exp v | TagIdx => v_tagidx v
  | TagMeta => v_tag_meta v | Jobs => v_jobs v | Meta => v_meta v
  end.

Definition vset (v : Views) (db : Db) (m : db_map) : Views :=
  match db with
  | Main => mkViews m (v_exp v) (v_tagidx v) (v_tag_meta v) (v_jobs v) (v_meta v)
  | Exp => mkViews (v_main v) m (v_tagidx v) (v_tag_meta v) (v_jobs v) (v_meta v)
  | TagIdx => mkViews (v_main v) (v_exp v) m (v_tag_meta v) (v_jobs v) (v_meta v)
  | TagMeta => mkViews (v_main v) (v_exp v) (v_tagidx v) m (v_jobs v) (v_meta v)
  | Jobs => mkViews (v_main v) (v_exp v) (v_tagidx v) (v_tag_meta v) m (v_meta v)
  | Meta => mkViews (v_main v) (v_exp v) (v_tagidx v) (v_tag_meta v) (v_jobs v) m
  end.

Definition empty_views : Views := mkViews ∅ ∅ ∅ ∅ ∅ ∅.

Definition vput (v : Views) (db : Db) (k x : bytes) : Views := vset v db (<[k := x]> (vget v db)).

Definition vdel (v : Views) (db : Db) (k : bytes) : Views := vset v db (delete k (vget v db)).

(** What the engines document: a transaction is six ordered maps; reads see
    exactly them; a write that succeeds changes exactly the row (or the
    sub-database) it names; anything else is reported, by an engine that
    [may_fail], as an error that invalidates the transaction: from then on it
    is [doomed], and every later operation on it, its commit included, fails.
    An operation fails only on a doomed transaction, or dooms the one it wrote
    to. *)
Class BackendLaws (T : Type) {BT : Backend T} := {
  view : T -> Views;
  may_fail : Prop;
  doomed : T -> Prop;
  engine_error A (r : Result StoreError A) : Prop :=
    match r with
    | Ok _ => False
    | Err e => may_fail /\ poisons_transaction e = true
    | Panic _ => False
    end;
  law_begin t :
    match txn_begin t with
    | Ok t' => view t' = view t
    | r => engine_error T r
    end;
  law_get t db k :
    txn_get t db k = Ok (vget (view t) db !! k)
    \/ (engine_error _ (txn_get t db k) /\ doomed t);
  law_range t db r :
    txn_range t db r = Ok (rows_in (vget (view t) db) r)
    \/ (engine_error _ (txn_range t db r) /\ doomed t);
  law_put t db k x :
    ((txn_put t db k x).2 = Ok () /\ view (txn_put t db k x).1 = vput (view t) db k x)
    \/ (engine_error _ (txn_put t db k x).2 /\ doomed (txn_put t db k x).1);
  law_delete t db k :
    ((txn_delete t db k).2 = Ok (bool_decide (is_Some (vget (view t) db !! k)))
      /\ view (txn_delete t db k).1 = vdel (view t) db k)
    \/ (engine_error _ (txn_delete t db k).2 /\ doomed (txn_delete t db k).1);
  law_clear t db :
    ((txn_clear t db).2 = Ok () /\ view (txn_clear t db).1 = vset (view t) db ∅)
    \/ (engine_error _ (txn_clear t db).2 /\ doomed (txn_clear t db).1);
  law_commit t :
    match txn_commit t with
    | Ok t' => view t' = view t
    | r => engine_error T r
    end;
  law_stat t db :
    match txn_stat t db with
    | Ok s => st_entries s = Z.of_nat (size (vget (view t) db)) /\ 0 <= st_pages s
    | r => engine_error DbStat r /\ doomed t
    end;
  law_doomed_range t db r : doomed t -> engine_error _ (txn_range t db r);
  law_doomed_stat t db : doomed t -> engine_error _ (txn_stat t db);
  law_doomed_commit t : doomed t -> engine_error _ (txn_commit t)
}.

Arguments engine_error {T BT _ A} r.

(** ** A concrete engine: six maps and a budget of rows

    [None] for the budget is an engine that never fills up.  A put that does
    not fit breaks the transaction. *)

Record MapTxn (budget : option Z) := mkMap { mt_views : Views; mt_broken : bool }.

Arguments mkMap {budget} mt_views mt_broken.
Arguments mt_views {budget} m.
Arguments mt_broken {budget} m.

Definition mkMapTxn {budget} (v : Views) : MapTxn budget := mkMap v false.

Definition mt_rows {budget} (t : MapTxn budget) : Z :=
  foldr (fun db n => Z.of_nat (size (vget (mt_views t) db)) + n) 0 all_dbs.

Definition mt_full {budget} (t : MapTxn budget) : bool :=
  match budget with None => false | Some n => n <=? mt_rows t end.

Definition mt_doomed {budget} (t : MapTxn budget) : bool :=
  match budget with None => false | Some _ => mt_broken t end.

Definition bad_txn {A} : Result StoreError A := Err (SE_Engine "MDB_BAD_TXN").

#[global] Instance MapTxn_Backend budget : Backend (MapTxn budget) := {
  txn_begin t := Ok (mkMapTxn (mt_views t));
  txn_get t db k := if mt_doomed t then bad_txn else Ok (vget (mt_views t) db !! k);
  txn_range t db r := if mt_doomed t then bad_txn else Ok (rows_in (vget (mt_views t) db) r);
  txn_stat t db :=
    if mt_doomed t then bad_txn
    else let n := Z.of_nat (size (vget (mt_views t) db)) in Ok (mkDbStat n n);
  txn_put t db k v :=
    if mt_doomed t then (t, bad_txn)
    else if mt_full t && negb (bool_decide (is_Some (vget (mt_views t) db !! k)))
    then (mkMap (mt_views t) true, Err SE_CapacityFull)
    else (mkMapTxn (vput (mt_views t) db k v), Ok ());
  txn_delete t db k :=
    if mt_doomed t then (t, bad_txn)
    else (mkMapTxn (vdel (mt_views t) db k), Ok (bool_decide (is_Some (vget (mt_views t) db !! k))));
  txn_clear t db :=
    if mt_doomed t then (t, bad_txn) else (mkMapTxn (vset (mt_views t) db ∅), Ok ());
  txn_commit t := if mt_doomed t then bad_txn else Ok t
}.

Lemma mt_doomed_may_fail {budget} (t : MapTxn budget) : mt_doomed t = true -> budget <> None.
Proof. by destruct budget. Qed.

Lemma mt_full_may_fail {budget} (t : MapTxn budget) : mt_full t = true -> budget <> None.
Proof. by destruct budget. Qed.

#[local] Hint Resolve mt_doomed_may_fail mt_full_may_fail : core.

#[global] Program Instance MapTxn_Laws budget : BackendLaws (MapTxn budget) :=
  { view := mt_views; may_fail := budget <> None; doomed t := mt_doomed t = true }.
Next Obligation. by simpl. Qed.
Solve Obligations with
  intros; simpl in *; destruct (mt_doomed t) eqn:E; [right; simpl; eauto|by left].
Next Obligation.
  intros budget t db k v. simpl. destruct (mt_doomed t) eqn:E; simpl; [right; eauto|].
  destruct (mt_full t) eqn:F; [|by left].
  destruct (negb _); simpl; [right|by left]. pose proof (mt_full_may_fail t F).
  split_and!; [done|done|]. by destruct budget.
Qed.
Next Obligation. intros budget t. simpl. destruct (mt_doomed t) eqn:E; simpl; eauto. Qed.
Next Obligation.
  intros budget t db. simpl. destruct (mt_doomed t) eqn:E; simpl; [eauto|]. split; [done|lia].
Qed.
Solve Obligations with
  intros budget t; intros; simpl in *; replace (mt_doomed t) with true by done; simpl; eauto.

(** ** Facts about ordered rows *)

Lemma rows_in_elem m r k v :
  (k, v) ∈ rows_in m r <-> m !! k = Some v /\ in_bounds r k = true.
Proof.
  unfold rows_in. rewrite list_elem_of_filter, merge_sort_Permutation, elem_of_map_to_list.
  simpl. tauto.
Qed.

Lemma rows_in_sorted m r : StronglySorted key_le (rows_in m r).
Proof.
  unfold rows_in.
  pose proof (StronglySorted_merge_sort key_le (map_to_list m)) as Hs.
  induction Hs as [|kv l Hl IH Hf]; [constructor|]. rewrite filter_cons.
  change (StronglySorted key_le (if decide (in_bounds r kv.1 = true) then kv :: filter (fun kv => in_bounds r kv.1 = true) l else filter (fun kv => in_bounds r kv.1 = true) l)).
  case_decide; [|done]. constructor; [done|].
  apply Forall_forall. intros x [_ Hx]%list_elem_of_filter. by eapply Forall_forall in Hf.
Qed.

Lemma rows_in_NoDup m r : NoDup (rows_in m r).*1.
Proof.
  unfold rows_in. assert (NoDup (merge_sort key_le (map_to_list m)).*1) as Hn.
  { rewrite merge_sort_Permutation. apply NoDup_fst_map_to_list. }
  induction (merge_sort key_le (map_to_list m)) as [|kv l IH]; [done|].
  rewrite filter_cons. cbn [fmap list_fmap] in Hn. apply NoDup_cons in Hn as [Hk Hl].
  case_decide; [|by apply IH]. cbn [fmap list_fmap]. constructor; [|by apply IH].
  intros (x & Hxe & Hx)%list_elem_of_fmap. apply Hk. apply list_elem_of_fmap.
  exists x. split; [done|]. by apply list_elem_of_filter in Hx as [_ ?].
Qed.
