(* ===== verification/IndexKeys.v ===== *)
(** The keys of the two secondary indexes.

    [vash-store/src/expiry.rs], the key layout of the expiry index: buckets,
    [encode_key] and [decode_key], and why the B-tree's byte order is time
    order.  [vash-store/src/reclaim.rs], the tag index's key layout and the
    persisted reclamation job.  The passes that walk the indexes are in
    [Maint.v]. *)

From S2P Require Import Prelude Bytes Core Record Backend.

Definition EXPIRY_KEY_LEN : Z := 16.

Definition NEVER_BUCKET : Z := U64_MAX.

Definition bucket (expires_at_ms granularity_ms : Z) : Z :=
  if granularity_ms <=? 1 then expires_at_ms
  else
    match checked_add64 expires_at_ms (granularity_ms - 1) with
    | Some sum => (sum / granularity_ms) * granularity_ms
    | None => U64_MAX
    end.

Definition bucket_for (expires_at_ms granularity_ms : Z) : Z :=
  if expires_at_ms =? NEVER then NEVER_BUCKET else bucket expires_at_ms granularity_ms.

Definition encode_key `{HS : Hash} (expires_at_ms : Z) (user_key : bytes) (granularity_ms : Z)
    : bytes :=
  be_bytes 8 (bucket_for expires_at_ms granularity_ms) ++ be_bytes 8 (xxh3_64 user_key).

Definition decode_key (key : bytes) : option (Z * Z) :=
  if negb (len key =? EXPIRY_KEY_LEN) then None
  else Some (be_val (take 8 key), be_val (drop 8 key)).

(** ** Buckets *)

Lemma bucket_bounds e g :
  fits 64 e -> 1 < g -> e + (g - 1) <= U64_MAX -> e <= bucket e g < e + g.
Proof.
  intros He Hg Hs. unfold bucket. rewrite (proj2 (Z.leb_gt _ _)) by lia.
  unfold checked_add64. rewrite (proj2 (Z.leb_le _ _)) by lia.
  pose proof (Z.div_mod (e + (g - 1)) g ltac:(lia)).
  pose proof (Z.mod_pos_bound (e + (g - 1)) g ltac:(lia)). lia.
Qed.

Lemma bucket_saturates e g : 1 < g -> U64_MAX < e + (g - 1) -> bucket e g = U64_MAX.
Proof.
  intros Hg Hs. unfold bucket. rewrite (proj2 (Z.leb_gt _ _)) by lia.
  unfold checked_add64. by rewrite (proj2 (Z.leb_gt _ _)) by lia.
Qed.

Lemma bucket_identity e g : g <= 1 -> bucket e g = e.
Proof. intros. unfold bucket. by rewrite (proj2 (Z.leb_le _ _)) by lia. Qed.

Lemma bucket_ge e g : fits 64 e -> e <= bucket e g.
Proof.
  intros He. destruct (Z.le_gt_cases g 1); [by rewrite bucket_identity|].
  destruct (Z.le_gt_cases (e + (g - 1)) U64_MAX).
  - pose proof (bucket_bounds e g He ltac:(lia) ltac:(lia)). lia.
  - rewrite bucket_saturates by lia. width.
Qed.

Lemma bucket_fits e g : fits 64 e -> fits 64 (bucket e g).
Proof.
  intros He. pose proof (bucket_ge e g He).
  destruct (Z.le_gt_cases g 1); [by rewrite bucket_identity|].
  destruct (Z.le_gt_cases (e + (g - 1)) U64_MAX) as [Hs|].
  - unfold bucket in *. rewrite (proj2 (Z.leb_gt _ _)) in * by lia.
    unfold checked_add64 in *. rewrite (proj2 (Z.leb_le _ _)) in * by lia.
    pose proof (Z.div_mod (e + (g - 1)) g ltac:(lia)).
    pose proof (Z.mod_pos_bound (e + (g - 1)) g ltac:(lia)). width.
  - rewrite bucket_saturates by lia. width.
Qed.

Lemma bucket_mono e e' g : fits 64 e -> fits 64 e' -> e <= e' -> bucket e g <= bucket e' g.
Proof.
  intros He He' Hle. destruct (Z.le_gt_cases g 1); [by rewrite !bucket_identity by lia|].
  destruct (Z.le_gt_cases (e' + (g - 1)) U64_MAX) as [Hs'|].
  - unfold bucket. rewrite (proj2 (Z.leb_gt _ _)) by lia.
    unfold checked_add64. rewrite !(proj2 (Z.leb_le _ _)) by lia.
    apply Z.mul_le_mono_nonneg_r; [lia|]. apply Z.div_le_mono; lia.
  - rewrite (bucket_saturates e') by lia. pose proof (bucket_fits e g He). width.
Qed.

Lemma bucket_for_fits e g : fits 64 e -> fits 64 (bucket_for e g).
Proof.
  intros He. unfold bucket_for. case_match; [|by apply bucket_fits].
  unfold NEVER_BUCKET. width.
Qed.

(** A bucket that is due holds only deadlines that have passed, as long as the
    clock has not reached the last representable millisecond. *)
Lemma bucket_for_due e g now :
  fits 64 e -> now < U64_MAX -> bucket_for e g <= now -> e <> NEVER /\ e <= now.
Proof.
  intros He Hn. unfold bucket_for, NEVER_BUCKET.
  destruct (Z.eqb_spec e NEVER); [lia|]. pose proof (bucket_ge e g He). lia.
Qed.

#[export] Hint Resolve bucket_fits bucket_for_fits : vash.

(** ** Keys *)

Section Keys.
Context {HS : Hash}.

Lemma length_encode_key e k g : length (encode_key e k g) = 16%nat.
Proof. unfold encode_key. by rewrite length_app, !length_be_bytes. Qed.

Lemma decode_encode_key e k g :
  fits 64 e -> decode_key (encode_key e k g) = Some (bucket_for e g, xxh3_64 k).
Proof.
  intros He. unfold decode_key, len. rewrite length_encode_key. simpl negb. cbv iota.
  unfold encode_key. rewrite take_app_exact, drop_app_exact by apply length_be_bytes.
  by rewrite !(be_val_bytes_fits 64) by eauto with vash.
Qed.

Lemma decode_key_inv ik b hk :
  decode_key ik = Some (b, hk) ->
  ik = be_bytes 8 b ++ be_bytes 8 hk /\ fits 64 b /\ fits 64 hk.
Proof.
  unfold decode_key, EXPIRY_KEY_LEN. destruct (Z.eqb_spec (len ik) 16) as [Hl|]; [|done].
  cbn [negb]. intros [= <- <-]. unfold len in Hl.
  assert (length (take 8 ik) = 8%nat /\ length (drop 8 ik) = 8%nat) as [H1 H2].
  { rewrite length_take, length_drop. lia. }
  rewrite !be_bytes_val_n by done. rewrite take_drop.
  split_and!; [done|apply be_val_fits; by rewrite H1|apply be_val_fits; by rewrite H2].
Qed.

Lemma decode_key_None ik : decode_key ik = None <-> length ik <> 16%nat.
Proof.
  unfold decode_key, EXPIRY_KEY_LEN, len.
  destruct (Z.eqb_spec (Z.of_nat (length ik)) 16); simpl; split; intros; try done; lia.
Qed.

Lemma encode_key_eq e e' k k' g :
  fits 64 e -> fits 64 e' ->
  encode_key e k g = encode_key e' k' g <->
  bucket_for e g = bucket_for e' g /\ xxh3_64 k = xxh3_64 k'.
Proof.
  intros He He'. split.
  - intros H. apply (f_equal decode_key) in H. rewrite !decode_encode_key in H by done.
    by injection H.
  - intros [H1 H2]. unfold encode_key. by rewrite H1, H2.
Qed.

Lemma encode_key_order b b' x x' :
  fits 64 b -> fits 64 b' -> fits 64 x -> fits 64 x' ->
  lex_le (be_bytes 8 b ++ be_bytes 8 x) (be_bytes 8 b' ++ be_bytes 8 x') = true <->
  b < b' \/ (b = b' /\ x <= x').
Proof.
  intros. rewrite lex_le_be_val by by rewrite !length_app, !length_be_bytes.
  rewrite !be_val_app, !length_be_bytes, !(be_val_bytes_fits 64) by done.
  rewrite (pow256 64) by done. rewrite Z.leb_le. unfold fits in *. nia.
Qed.

(** ** Properties *)

(** A record's bucket is never earlier than its deadline (so the sweeper,
    which stops at the first future bucket, cannot take a live record), is less
    than one granule later unless it saturates at the end of time, is monotone
    in the deadline, and rounds to a multiple of the granularity. *)
Theorem bucket_exact e e' g :
  fits 64 e -> fits 64 e' -> fits 64 g ->
  e <= bucket e g /\ fits 64 (bucket e g)
  /\ (e <= e' -> bucket e g <= bucket e' g)
  /\ (g <= 1 -> bucket e g = e)
  /\ (1 < g -> e + (g - 1) <= U64_MAX -> bucket e g < e + g /\ (g | bucket e g))
  /\ (1 < g -> U64_MAX < e + (g - 1) -> bucket e g = U64_MAX).
Proof.
  intros He He' Hg. split_and!.
  - by apply bucket_ge.
  - by apply bucket_fits.
  - by apply bucket_mono.
  - apply bucket_identity.
  - intros H1 H2. split; [by apply bucket_bounds|].
    unfold bucket. rewrite (proj2 (Z.leb_gt _ _)) by lia.
    unfold checked_add64. rewrite (proj2 (Z.leb_le _ _)) by lia. apply Z.divide_factor_r.
  - apply bucket_saturates.
Qed.

(** The expiry index key: [decode_key] recovers the bucket and the key
    hash; two records collide on a row exactly when bucket and hash both agree,
    so an overwrite that stays in its bucket lands on the identical row; byte
    order of the rows is time order; and a record that never expires sorts at
    or after every other record, saturated ones included. *)
Theorem expiry_key_layout e e' k k' g :
  fits 64 e -> fits 64 e' ->
  decode_key (encode_key e k g) = Some (bucket_for e g, xxh3_64 k)
  /\ (encode_key e k g = encode_key e' k' g <->
      bucket_for e g = bucket_for e' g /\ xxh3_64 k = xxh3_64 k')
  /\ (bucket_for e g < bucket_for e' g ->
      lex_lt (encode_key e k g) (encode_key e' k' g) = true)
  /\ (lex_le (encode_key e k g) (encode_key e' k' g) = true ->
      bucket_for e g <= bucket_for e' g)
  /\ (bucket_for e g < NEVER_BUCKET ->
      lex_lt (encode_key e k g) (encode_key NEVER k' g) = true).
Proof.
  intros He He'.
  assert (fits 64 NEVER) as HN by (unfold NEVER; width).
  assert (forall x x' y y', fits 64 x -> fits 64 x' ->
    bucket_for x g < bucket_for x' g -> lex_lt (encode_key x y g) (encode_key x' y' g) = true) as Hlt.
  { intros x x' y y' Hx Hx' H. unfold lex_lt. apply negb_true_iff, not_true_iff_false.
    intros Hle. apply encode_key_order in Hle; eauto with vash. lia. }
  split_and!.
  - by apply decode_encode_key.
  - by apply encode_key_eq.
  - by apply Hlt.
  - intros H. apply encode_key_order in H; eauto with vash. lia.
  - intros H. apply Hlt; done.
Qed.

End Keys.

(** ** Witnesses *)

#[local] Existing Instance small_hash.

Lemma bucket_exact_witness :
  1001 <= bucket 1001 1000 /\ fits 64 (bucket 1001 1000)
  /\ (1001 <= 5000 -> bucket 1001 1000 <= bucket 5000 1000)
  /\ (1000 <= 1 -> bucket 1001 1000 = 1001)
  /\ (1 < 1000 -> 1001 + (1000 - 1) <= U64_MAX ->
      bucket 1001 1000 < 1001 + 1000 /\ (1000 | bucket 1001 1000))
  /\ (1 < 1000 -> U64_MAX < 1001 + (1000 - 1) -> bucket 1001 1000 = U64_MAX).
Proof. apply (bucket_exact 1001 5000 1000); apply (bool_decide_unpack _); vm_compute; exact I. Defined.

Lemma expiry_key_layout_witness :
  let e := 1700000000123 in let e' := 1700000000900 in
  decode_key (encode_key e (bs "k") 1000) = Some (bucket_for e 1000, xxh3_64 (bs "k"))
  /\ (encode_key e (bs "k") 1000 = encode_key e' (bs "k") 1000 <->
      bucket_for e 1000 = bucket_for e' 1000 /\ xxh3_64 (bs "k") = xxh3_64 (bs "k"))
  /\ (bucket_for e 1000 < bucket_for e' 1000 ->
      lex_lt (encode_key e (bs "k") 1000) (encode_key e' (bs "k") 1000) = true)
  /\ (lex_le (encode_key e (bs "k") 1000) (encode_key e' (bs "k") 1000) = true ->
      bucket_for e 1000 <= bucket_for e' 1000)
  /\ (bucket_for e 1000 < NEVER_BUCKET ->
      lex_lt (encode_key e (bs "k") 1000) (encode_key NEVER (bs "k") 1000) = true).
Proof.
  apply (expiry_key_layout 1700000000123 1700000000900 (bs "k") (bs "k") 1000);
    apply (bool_decide_unpack _); vm_compute; exact I.
Defined.

(** The same bucket gives the same row (the source's own test). *)
Example same_bucket_same_row :
  encode_key 1700000000123 (bs "hot") 1000 = encode_key 1700000000900 (bs "hot") 1000.
Proof. vm_compute. reflexivity. Qed.

Definition INDEX_KEY_LEN : Z := 12.

Definition index_key `{HS : Hash} (tag_id : Z) (user_key : bytes) : bytes :=
  be_bytes 4 tag_id ++ be_bytes 8 (xxh3_64 user_key).

Definition index_range (tag_id : Z) : bytes * bytes :=
  (be_bytes 4 tag_id ++ replicate 8 Byte.x00, be_bytes 4 tag_id ++ replicate 8 Byte.xff).

Record Job := mkJob { target_generation : Z; cursor : option bytes }.

Definition Job_new (target_generation : Z) : Job := mkJob target_generation None.

Definition Job_encode (j : Job) : bytes :=
  le_bytes 8 (target_generation j) ++ match cursor j with Some c => c | None => [] end.

Definition Job_decode (raw : bytes) : Result StoreError Job :=
  if len raw <? 8 then Err (SE_Corrupt "reclaim job is too short")
  else
    let target_generation := le_val (take 8 raw) in
    if len raw =? 8 then Ok (mkJob target_generation None)
    else if len raw =? 8 + INDEX_KEY_LEN
    then Ok (mkJob target_generation (Some (drop 8 raw)))
    else Err (SE_Corrupt "reclaim job has the wrong length").

Record ReclaimStats := mkReclaimStats {
  rs_scanned : Z; rs_reclaimed : Z; rs_orphaned : Z; rs_retained : Z; rs_completed : bool
}.

(** ** Lemmas *)

Definition job_ok (j : Job) : Prop :=
  fits 64 (target_generation j)
  /\ match cursor j with Some c => length c = 12%nat | None => True end.

#[global] Instance job_ok_dec j : Decision (job_ok j).
Proof. unfold job_ok. destruct (cursor j); apply _. Defined.

Lemma Job_decode_encode j : job_ok j -> Job_decode (Job_encode j) = Ok j.
Proof.
  destruct j as [g [c|]]; unfold job_ok, Job_decode, Job_encode, INDEX_KEY_LEN, len;
    cbn [target_generation cursor]; intros [Hg Hc]; rewrite length_app, length_le_bytes.
  - rewrite Hc. cbv [Nat.add Z.of_nat Z.ltb Z.eqb Z.compare Pos.of_succ_nat Pos.succ].
    rewrite take_app_exact, drop_app_exact by apply length_le_bytes.
    by rewrite (le_val_bytes_fits 64).
  - rewrite app_nil_r. cbn -[take drop le_val].
    rewrite take_ge by by rewrite length_le_bytes.
    by rewrite (le_val_bytes_fits 64).
Qed.

Lemma Job_decode_inv raw j : Job_decode raw = Ok j -> raw = Job_encode j /\ job_ok j.
Proof.
  unfold Job_decode, INDEX_KEY_LEN, len.
  destruct (Z.ltb_spec (Z.of_nat (length raw)) 8); [done|].
  destruct (Z.eqb_spec (Z.of_nat (length raw)) 8) as [H8|].
  - intros [= <-]. unfold Job_encode, job_ok. cbn [target_generation cursor].
    rewrite app_nil_r, take_ge by lia. rewrite le_bytes_val_n by lia.
    split_and!; [done|apply le_val_fits; lia|done].
  - destruct (Z.eqb_spec (Z.of_nat (length raw)) (8 + 12)) as [H20|]; [|done].
    intros [= <-]. unfold Job_encode, job_ok. cbn [target_generation cursor].
    assert (length (take 8 raw) = 8%nat) as H8 by (rewrite length_take; lia).
    rewrite le_bytes_val_n by done. rewrite take_drop, length_drop.
    split_and!; [done|apply le_val_fits; lia|lia].
Qed.

Lemma Job_decode_no_panic raw why : Job_decode raw <> Panic why.
Proof. unfold Job_decode. repeat case_match; done. Qed.

Lemma be_val_zeros n : be_val (replicate n Byte.x00) = 0.
Proof.
  unfold be_val. rewrite reverse_replicate.
  induction n as [|n IH]; [done|]. cbn [replicate]. unfold le_val in *. fold le_val in *.
  by rewrite IH.
Qed.

Lemma be_val_ones n : be_val (replicate n Byte.xff) = 256 ^ Z.of_nat n - 1.
Proof.
  unfold be_val. rewrite reverse_replicate.
  induction n as [|n IH]; [done|]. cbn [replicate]. unfold le_val in *. fold le_val in *.
  rewrite IH, Nat2Z.inj_succ, Z.pow_succ_r by lia. change (byte_val "255") with 255. lia.
Qed.

Section Keys.
Context {HS : Hash}.

Lemma length_index_key t k : length (index_key t k) = 12%nat.
Proof. unfold index_key. by rewrite length_app, !length_be_bytes. Qed.

Lemma index_key_eq t t' k k' :
  fits 32 t -> fits 32 t' ->
  index_key t k = index_key t' k' <-> t = t' /\ xxh3_64 k = xxh3_64 k'.
Proof.
  intros Ht Ht'. split; [|unfold index_key; by intros [-> ->]].
  unfold index_key. intros H. apply app_inj_1 in H as [H1 H2].
  2:{ by rewrite !length_be_bytes. }
  split; [by eapply (be_bytes_inj 32 4)|by eapply (be_bytes_inj 64 8); eauto with vash].
Qed.

Lemma index_range_bounds t ik :
  fits 32 t -> length ik = 12%nat ->
  in_bounds (Included (index_range t).1, Included (index_range t).2) ik
    = bool_decide (take 4 ik = be_bytes 4 t).
Proof.
  intros Ht Hl. unfold in_bounds, index_range. cbn [fst snd above below].
  rewrite <- (take_drop 4 ik) at 1 2.
  assert (length (take 4 ik) = 4%nat) as L1 by (rewrite length_take; lia).
  assert (length (drop 4 ik) = 8%nat) as L2 by (rewrite length_drop; lia).
  set (a := take 4 ik) in *. set (b := drop 4 ik) in *.
  rewrite !lex_le_be_val by by rewrite !length_app, ?length_be_bytes, ?length_replicate, ?L1, ?L2.
  rewrite !be_val_app, !length_replicate, L2, be_val_zeros, be_val_ones.
  rewrite (be_val_bytes_fits 32) by done.
  assert (0 <= be_val b < 256 ^ Z.of_nat 8) as Hb.
  { rewrite (pow256 64) by done. apply (be_val_fits 64). by rewrite L2. }
  destruct (decide (a = be_bytes 4 t)) as [E|E].
  - rewrite bool_decide_eq_true_2 by done. rewrite E, (be_val_bytes_fits 32) by done.
    rewrite !(proj2 (Z.leb_le _ _)) by nia. done.
  - rewrite bool_decide_eq_false_2 by done. apply andb_false_iff.
    assert (be_val a <> t) as Hne.
    { intros <-. apply E. by rewrite be_bytes_val_n. }
    rewrite !Z.leb_gt. set (P := 256 ^ Z.of_nat 8) in *. nia.
Qed.

Lemma take_index_key t k : take 4 (index_key t k) = be_bytes 4 t.
Proof. unfold index_key. apply take_app_exact, length_be_bytes. Qed.

(** The scan range of a tag: among the 12-byte keys of the tag index, the
    rows between the two bounds of [index_range] are exactly the rows of that
    tag, whatever the hash half; in particular every row [index_key] builds for
    the tag is inside and every row of another tag is outside. *)
Theorem index_range_exact t t' k ik :
  fits 32 t -> fits 32 t' -> length ik = 12%nat ->
  let bounds := (Included (index_range t).1, Included (index_range t).2) in
  in_bounds bounds ik = bool_decide (take 4 ik = be_bytes 4 t)
  /\ (in_bounds bounds (index_key t' k) = true <-> t' = t).
Proof.
  intros Ht Ht' Hl bounds. subst bounds. split; [by apply index_range_bounds|].
  rewrite index_range_bounds by (done || apply length_index_key).
  rewrite take_index_key, bool_decide_eq_true. split; [|by intros ->].
  by apply (be_bytes_inj 32 4).
Qed.

(** A persisted job is read back as it was written, with or without a
    cursor; every byte string [Job_decode] accepts is such an encoding, and it
    rejects any other length as corruption, without a panic. *)
Theorem job_roundtrip j raw :
  job_ok j ->
  Job_decode (Job_encode j) = Ok j
  /\ match Job_decode raw with
     | Ok j' => raw = Job_encode j' /\ job_ok j'
     | Err e => (exists why, e = SE_Corrupt why) /\ len raw <> 8 /\ len raw <> 20
     | Panic _ => False
     end.
Proof.
  intros Hj. split; [by apply Job_decode_encode|].
  destruct (Job_decode raw) as [j'|e|why] eqn:E.
  - by apply Job_decode_inv.
  - unfold Job_decode, INDEX_KEY_LEN in E.
    destruct (Z.ltb_spec (len raw) 8), (Z.eqb_spec (len raw) 8),
      (Z.eqb_spec (len raw) (8 + 12)); try lia; try discriminate E; injection E as <-; split; eauto; lia.
  - by apply Job_decode_no_panic in E.
Qed.

End Keys.

(** ** Witnesses *)


Lemma index_range_exact_witness :
  in_bounds (Included (index_range 7).1, Included (index_range 7).2) (index_key 7 (bs "zz"))
    = bool_decide (take 4 (index_key 7 (bs "zz")) = be_bytes 4 7)
  /\ (in_bounds (Included (index_range 7).1, Included (index_range 7).2) (index_key 8 (bs "a")) = true
      <-> 8 = 7).
Proof.
  apply (index_range_exact 7 8 (bs "a") (index_key 7 (bs "zz"))).
  - apply (bool_decide_unpack _). vm_compute. exact I.
  - apply (bool_decide_unpack _). vm_compute. exact I.
  - vm_compute. reflexivity.
Defined.

Lemma job_roundtrip_witness :
  Job_decode (Job_encode (mkJob 7 (Some (index_key 1 (bs "x"))))) = Ok (mkJob 7 (Some (index_key 1 (bs "x"))))
  /\ match Job_decode [] with
     | Ok j' => [] = Job_encode j' /\ job_ok j'
     | Err e => (exists why, e = SE_Corrupt why) /\ @len byte [] <> 8 /\ @len byte [] <> 20
     | Panic _ => False
     end.
Proof.
  apply (job_roundtrip (mkJob 7 (Some (index_key 1 (bs "x")))) []).
  apply (bool_decide_unpack _). vm_compute. exact I.
Defined.
