(* ===== verification/Tags.v ===== *)
(** [vash-store/src/tags.rs], the RAM half: the tag registry (names, dense ids,
    generations) and the codec of its persisted rows.  The durable half, which
    writes those rows in a transaction, is in [TagOps.v].

    Each entry is one [Arc<TagEntry>] reachable both by name and by id, and its
    generation is bumped in place, so the model keeps the sharing: entries live
    in an arena and both indexes hold references into it. *)

From S2P Require Import Prelude Bytes Core Record Command Backend.

Definition TAG_RECORD_LEN : Z := 12.

Record TagEntry := mkTagEntry { te_id : Z; te_name : bytes; te_generation : Z }.

Record TagRegistry := mkRegistry {
  arena : list TagEntry;
  by_name : gmap bytes nat;
  by_id : list (option nat);
  next_id : Z;
  max_tags : Z
}.

Definition TagRegistry_new (max_tags : Z) : TagRegistry := mkRegistry [] ∅ [] 0 max_tags.

(** [Vec::resize_with(index + 1)] when short, then [by_id[index] = Some(entry)]. *)
Definition put_by_id (ids : list (option nat)) (id : Z) (entry : nat) : list (option nat) :=
  let index := Z.to_nat id in
  let ids := if (length ids <=? index)%nat then ids ++ replicate (S index - length ids) None else ids in
  <[index := Some entry]> ids.

Definition insert_entry (r : TagRegistry) (name : bytes) (id generation : Z) : TagRegistry :=
  let entry := length (arena r) in
  mkRegistry (arena r ++ [mkTagEntry id name generation])
    (<[name := entry]> (by_name r)) (put_by_id (by_id r) id entry) (next_id r) (max_tags r).

Definition registry_insert (r : TagRegistry) (name : bytes) (id generation : Z) : TagRegistry :=
  insert_entry r name id generation.

Definition set_next_id (r : TagRegistry) (n : Z) : TagRegistry :=
  mkRegistry (arena r) (by_name r) (by_id r) n (max_tags r).

(** The body of [load_from]'s loop. *)
Definition load_step (acc : TagRegistry * Z) (e : bytes * Z * Z) : TagRegistry * Z :=
  let '(r, highest) := acc in let '(name, id, generation) := e in
  (insert_entry r name id generation, Z.max highest id).

Definition load_from (r : TagRegistry) (entries : list (bytes * Z * Z)) : TagRegistry :=
  let '(r', highest) := foldl load_step (r, 0) entries in
  if bool_decide (by_name r' = ∅) then r' else set_next_id r' (wrapping 32 (highest + 1)).

(** [TagLookup::generation]. *)
Definition lookup_generation (r : TagRegistry) (id : Z) : option Z :=
  match by_id r !! Z.to_nat id with
  | Some (Some entry) => te_generation <$> arena r !! entry
  | _ => None
  end.

Definition entry_by_name (r : TagRegistry) (name : bytes) : option TagEntry :=
  entry ← by_name r !! name; arena r !! entry.

Definition generation_of (r : TagRegistry) (name : bytes) : option Z :=
  te_generation <$> entry_by_name r name.

(** Every registered name and its generation; a [HashMap] promises no order. *)
Definition snapshot (r : TagRegistry) : list TagGeneration :=
  omap (fun '(_, entry) => (fun e => mkTagGeneration (te_name e) (te_generation e)) <$> arena r !! entry)
    (map_to_list (by_name r)).

Definition resolve_one (r : TagRegistry) (name : bytes) : Result bytes TagRef :=
  match entry_by_name r name with
  | Some e => Ok (mkTagRef (te_id e) (te_generation e))
  | None => Err name
  end.

Definition resolve (r : TagRegistry) (names : list bytes) : Result bytes (list TagRef) :=
  collect (resolve_one r) names.

Definition missing (r : TagRegistry) (names : list bytes) : list bytes :=
  foldl (fun missing name =>
           if bool_decide (is_Some (by_name r !! name)) || bool_decide (name ∈ missing)
           then missing else missing ++ [name]) [] names.

Definition registry_len (r : TagRegistry) : Z := Z.of_nat (size (by_name r)).

Definition allocate_id (r : TagRegistry) : TagRegistry * Result StoreError Z :=
  if max_tags r <=? registry_len r then (r, Err (SE_TagLimit (max_tags r)))
  else (set_next_id r (wrapping 32 (next_id r + 1)), Ok (next_id r)).

Definition merge_generation (r : TagRegistry) (id generation : Z) : TagRegistry :=
  match by_id r !! Z.to_nat id with
  | Some (Some entry) =>
      mkRegistry
        (alter (fun e => mkTagEntry (te_id e) (te_name e) (Z.max (te_generation e) generation))
           entry (arena r))
        (by_name r) (by_id r) (next_id r) (max_tags r)
  | _ => r
  end.

Definition encode_entry (id generation : Z) : bytes := le_bytes 4 id ++ le_bytes 8 generation.

Definition decode_entry (raw : bytes) : option (Z * Z) :=
  if negb (len raw =? TAG_RECORD_LEN) then None
  else Some (le_val (take 4 raw), le_val (drop 4 raw)).

(** What a max-merge of a tag generation did. *)
Inductive TagMerge : Type :=
| TagMerge_Created (id generation : Z)
| TagMerge_Raised (id generation : Z)
| TagMerge_Unchanged (id generation : Z).

Definition TagMerge_generation (m : TagMerge) : Z :=
  match m with
  | TagMerge_Created _ g | TagMerge_Raised _ g | TagMerge_Unchanged _ g => g
  end.

Definition TagMerge_id (m : TagMerge) : Z :=
  match m with
  | TagMerge_Created id _ | TagMerge_Raised id _ | TagMerge_Unchanged id _ => id
  end.

Definition validate_tag_name (name : bytes) : Result StoreError unit :=
  if (len name =? 0) || (MAX_TAG_LEN <? len name)
  then Err (SE_Core (TagTooLong (len name) MAX_TAG_LEN)) else Ok ().

(** ** The codec *)

Lemma decode_encode_entry id g :
  fits 32 id -> fits 64 g -> decode_entry (encode_entry id g) = Some (id, g).
Proof.
  intros Hid Hg. unfold decode_entry, encode_entry, TAG_RECORD_LEN, len.
  rewrite length_app, !length_le_bytes. change (negb (Z.of_nat (4 + 8) =? 12)) with false.
  cbv iota. rewrite take_app_exact, drop_app_exact by apply length_le_bytes.
  by rewrite (le_val_bytes_fits 32), (le_val_bytes_fits 64).
Qed.

Lemma decode_entry_inv raw id g :
  decode_entry raw = Some (id, g) -> raw = encode_entry id g /\ fits 32 id /\ fits 64 g.
Proof.
  unfold decode_entry, encode_entry, TAG_RECORD_LEN, len.
  destruct (Z.eqb_spec (Z.of_nat (length raw)) 12) as [Hl|]; [|done].
  cbn [negb]. intros [= <- <-].
  assert (length (take 4 raw) = 4%nat /\ length (drop 4 raw) = 8%nat) as [H1 H2].
  { rewrite length_take, length_drop. lia. }
  rewrite !le_bytes_val_n, take_drop by done.
  split_and!; [done|apply le_val_fits; lia|apply le_val_fits; lia].
Qed.

(** ** The registry as a map

    [reg_names r] is what the registry means: a finite map from names to
    [(id, generation)].  Well-formedness says the two indexes agree on it. *)

Definition reg_names (r : TagRegistry) (name : bytes) : option (Z * Z) :=
  (fun e => (te_id e, te_generation e)) <$> entry_by_name r name.

Definition registry_ok (r : TagRegistry) : Prop :=
  (forall name i, by_name r !! name = Some i ->
     exists e, arena r !! i = Some e /\ te_name e = name /\ 0 <= te_id e
       /\ by_id r !! Z.to_nat (te_id e) = Some (Some i))
  /\ (forall n i, by_id r !! n = Some (Some i) ->
     exists e, arena r !! i = Some e /\ Z.to_nat (te_id e) = n /\ 0 <= te_id e
       /\ by_name r !! te_name e = Some i).

Lemma registry_new_ok m : registry_ok (TagRegistry_new m).
Proof. by split. Qed.

Lemma put_by_id_lookup ids id entry n :
  put_by_id ids id entry !! n =
    if decide (n = Z.to_nat id) then Some (Some entry)
    else if decide (n < length ids)%nat then ids !! n
    else if decide (n < Z.to_nat id)%nat then Some None else None.
Proof.
  unfold put_by_id. set (i := Z.to_nat id).
  destruct (Nat.leb_spec (length ids) i).
  - destruct (decide (n = i)) as [->|Hne].
    + rewrite list_lookup_insert_eq; [done|]. rewrite length_app, length_replicate. lia.
    + rewrite list_lookup_insert_ne by done. destruct (decide (n < length ids)%nat).
      * by rewrite lookup_app_l by lia.
      * rewrite lookup_app_r by lia. case_decide.
        -- apply lookup_replicate_2. lia.
        -- apply lookup_ge_None_2. rewrite length_replicate. lia.
  - destruct (decide (n = i)) as [->|Hne]; [by rewrite list_lookup_insert_eq by lia|].
    rewrite list_lookup_insert_ne by done. repeat case_decide; try done; try lia.
    apply lookup_ge_None_2. lia.
Qed.

(** An insertion is safe when no other name holds the id, and the name, if it
    is known, holds that very id. *)
Definition insertable (r : TagRegistry) (name : bytes) (id : Z) : Prop :=
  0 <= id
  /\ (forall name' g', reg_names r name' = Some (id, g') -> name' = name)
  /\ (forall id' g', reg_names r name = Some (id', g') -> id' = id).

Lemma reg_names_Some r name id g :
  reg_names r name = Some (id, g) <->
  exists i e, by_name r !! name = Some i /\ arena r !! i = Some e
    /\ te_id e = id /\ te_generation e = g.
Proof.
  unfold reg_names, entry_by_name.
  destruct (by_name r !! name) as [i|]; cbn [mbind option_bind]; [|split; [done|by intros (? & ? & ? & _)]].
  destruct (arena r !! i) as [e|] eqn:E; simpl; split.
  - intros [= <- <-]. by exists i, e.
  - intros (i' & e' & [= <-] & H & <- & <-). rewrite E in H. by injection H as <-.
  - done.
  - intros (i' & e' & [= <-] & H & _). by rewrite E in H.
Qed.

Lemma insert_names r name id g name' :
  reg_names (insert_entry r name id g) name' =
    if decide (name' = name) then Some (id, g)
    else match by_name r !! name' with
         | Some i => if (i <? length (arena r))%nat then reg_names r name'
                     else if (i =? length (arena r))%nat then Some (id, g) else None
         | None => None
         end.
Proof.
  unfold reg_names, entry_by_name, insert_entry. cbn [arena by_name].
  destruct (decide (name' = name)) as [->|Hne].
  - rewrite lookup_insert_eq. cbn [mbind option_bind].
    by rewrite lookup_app_r, Nat.sub_diag by lia.
  - rewrite lookup_insert_ne by done. destruct (by_name r !! name') as [i|]; [|done].
    cbn [mbind option_bind]. destruct (Nat.ltb_spec i (length (arena r))).
    + by rewrite lookup_app_l.
    + destruct (Nat.eqb_spec i (length (arena r))) as [->|].
      * by rewrite lookup_app_r, Nat.sub_diag by lia.
      * rewrite lookup_ge_None_2; [done|]. rewrite length_app. simpl. lia.
Qed.

Lemma insert_names_ok r name id g name' :
  registry_ok r ->
  reg_names (insert_entry r name id g) name' =
    if decide (name' = name) then Some (id, g) else reg_names r name'.
Proof.
  intros [Hn _]. rewrite insert_names. case_decide; [done|].
  destruct (by_name r !! name') as [i|] eqn:E.
  - destruct (Hn _ _ E) as (e & He & _). apply lookup_lt_Some in He.
    by rewrite (proj2 (Nat.ltb_lt _ _)).
  - unfold reg_names, entry_by_name. by rewrite E.
Qed.

Lemma insert_ok r name id g :
  registry_ok r -> insertable r name id -> registry_ok (insert_entry r name id g).
Proof.
  intros [Hn Hi] (Hid & Huniq & Hsame). split; unfold insert_entry; cbn [arena by_name by_id].
  - intros name' i. destruct (decide (name' = name)) as [->|Hne].
    + rewrite lookup_insert_eq. intros [= <-]. eexists.
      rewrite lookup_app_r, Nat.sub_diag by lia. split_and!; try done.
      cbn [te_id]. rewrite put_by_id_lookup. by rewrite decide_True.
    + rewrite lookup_insert_ne by done. intros Hb.
      destruct (Hn _ _ Hb) as (e & He & Hen & Hp & Hbi). exists e.
      rewrite lookup_app_l by by eapply lookup_lt_Some. split_and!; try done.
      rewrite put_by_id_lookup. destruct (decide (Z.to_nat (te_id e) = Z.to_nat id)) as [Heq|].
      * exfalso. apply Hne, (Huniq _ (te_generation e)), reg_names_Some.
        exists i, e. split_and!; [done..|lia|done].
      * rewrite decide_True by by eapply lookup_lt_Some. done.
  - intros n i. rewrite put_by_id_lookup. destruct (decide (n = Z.to_nat id)) as [Hd|Hd].
    + intros [= <-]. eexists. rewrite lookup_app_r, Nat.sub_diag by lia.
      split_and!; [done..|]. by rewrite lookup_insert_eq.
    + intros Hb. destruct (decide (n < length (by_id r))%nat).
      2:{ case_decide; congruence. }
      destruct (Hi _ _ Hb) as (e & He & Hen & Hp & Hbn). exists e.
      rewrite lookup_app_l by by eapply lookup_lt_Some. split_and!; try done.
      rewrite lookup_insert_ne; [done|]. intros ->.
      apply Hd. rewrite <- Hen. f_equal.
      apply (Hsame _ (te_generation e)), reg_names_Some. by exists i, e.
Qed.

(** Lookup by id agrees with lookup by name. *)
Lemma lookup_generation_names r id g :
  registry_ok r -> 0 <= id ->
  lookup_generation r id = Some g <-> exists name, reg_names r name = Some (id, g).
Proof.
  intros [Hn Hi] Hid. unfold lookup_generation. split.
  - destruct (by_id r !! Z.to_nat id) as [[i|]|] eqn:E; try done.
    destruct (Hi _ _ E) as (e & He & Hen & Hp & Hbn). rewrite He. simpl. intros [= <-].
    exists (te_name e). apply reg_names_Some. exists i, e. split_and!; [done..|lia|done].
  - intros (name & H). apply reg_names_Some in H as (i & e & Hb & He & <- & <-).
    destruct (Hn _ _ Hb) as (e' & He' & _ & _ & Hbi). rewrite He in He'.
    injection He' as <-. by rewrite Hbi, He.
Qed.

Lemma lookup_insert_entry r name id g id' :
  registry_ok r -> 0 <= id -> 0 <= id' ->
  lookup_generation (insert_entry r name id g) id' =
    if decide (id' = id) then Some g else lookup_generation r id'.
Proof.
  intros [Hn Hi] Hid Hid'. unfold lookup_generation, insert_entry. cbn [by_id arena].
  rewrite put_by_id_lookup. destruct (decide (id' = id)) as [->|].
  - rewrite decide_True by done. by rewrite lookup_app_r, Nat.sub_diag by lia.
  - rewrite decide_False by lia. case_decide as Hl.
    + destruct (by_id r !! Z.to_nat id') as [[i|]|] eqn:E; try done.
      destruct (Hi _ _ E) as (e & He & _). by rewrite lookup_app_l by by eapply lookup_lt_Some.
    + rewrite (lookup_ge_None_2 (by_id r)) by lia. by case_decide.
Qed.

(** ** Merging by maximum *)

Definition bump (g : Z) (e : TagEntry) : TagEntry :=
  mkTagEntry (te_id e) (te_name e) (Z.max (te_generation e) g).

Lemma merge_generation_eq r id g :
  merge_generation r id g =
    match by_id r !! Z.to_nat id with
    | Some (Some i) => mkRegistry (alter (bump g) i (arena r)) (by_name r) (by_id r) (next_id r) (max_tags r)
    | _ => r
    end.
Proof. reflexivity. Qed.

Lemma merge_ok r id g : registry_ok r -> registry_ok (merge_generation r id g).
Proof.
  intros [Hn Hi]. rewrite merge_generation_eq.
  destruct (by_id r !! Z.to_nat id) as [[j|]|]; [|by split|by split].
  split; cbn [arena by_name by_id].
  - intros name i Hb. destruct (Hn _ _ Hb) as (e & He & Hrest).
    destruct (decide (i = j)) as [->|Hne].
    + exists (bump g e). by rewrite list_lookup_alter_eq, He.
    + exists e. by rewrite list_lookup_alter_ne by done.
  - intros n i Hb. destruct (Hi _ _ Hb) as (e & He & Hrest).
    destruct (decide (i = j)) as [->|Hne].
    + exists (bump g e). by rewrite list_lookup_alter_eq, He.
    + exists e. by rewrite list_lookup_alter_ne by done.
Qed.

Lemma merge_lookup r id g id' :
  registry_ok r -> 0 <= id -> 0 <= id' ->
  lookup_generation (merge_generation r id g) id' =
    if decide (id' = id) then Z.max g <$> lookup_generation r id' else lookup_generation r id'.
Proof.
  intros [Hn Hi] Hid Hid'. rewrite merge_generation_eq. unfold lookup_generation.
  destruct (by_id r !! Z.to_nat id) as [[j|]|] eqn:E.
  - cbn [by_id arena]. destruct (decide (id' = id)) as [->|Hne].
    + rewrite E, list_lookup_alter_eq. destruct (arena r !! j); simpl; [|done].
      f_equal. lia.
    + destruct (by_id r !! Z.to_nat id') as [[i|]|] eqn:E'; try done.
      rewrite list_lookup_alter_ne; [done|]. intros <-.
      destruct (Hi _ _ E) as (e & He & Hr & _), (Hi _ _ E') as (e' & He' & Hr' & _).
      rewrite He in He'. injection He' as <-. lia.
  - case_decide as Hd; [subst; by rewrite E|done].
  - case_decide as Hd; [subst; by rewrite E|done].
Qed.

Lemma merge_names r id g name :
  registry_ok r -> 0 <= id ->
  reg_names (merge_generation r id g) name =
    match reg_names r name with
    | Some (id', g') => Some (id', if decide (id' = id) then Z.max g' g else g')
    | None => None
    end.
Proof.
  intros [Hn Hi] Hid. rewrite merge_generation_eq. unfold reg_names, entry_by_name.
  assert (forall i e, by_name r !! name = Some i -> arena r !! i = Some e ->
            by_id r !! Z.to_nat (te_id e) = Some (Some i) /\ 0 <= te_id e) as Hx.
  { intros i e Hb He. destruct (Hn _ _ Hb) as (e' & He' & _ & ? & ?).
    rewrite He in He'. by injection He' as <-. }
  destruct (by_name r !! name) as [i|] eqn:Eb.
  2:{ destruct (by_id r !! Z.to_nat id) as [[j|]|]; cbn [by_name arena]; by rewrite Eb. }
  destruct (Hn _ _ Eb) as (e & He & _). destruct (Hx i e eq_refl He) as [Hbi Hp].
  destruct (by_id r !! Z.to_nat id) as [[j|]|] eqn:E; cbn [by_name arena]; rewrite Eb;
    cbn [mbind option_bind].
  - destruct (decide (i = j)) as [->|Hne].
    + rewrite list_lookup_alter_eq, He. simpl. f_equal. f_equal.
      rewrite decide_True; [done|]. destruct (Hi _ _ E) as (e' & He' & Hr & Hp' & _).
      rewrite He in He'. injection He' as <-. lia.
    + rewrite list_lookup_alter_ne, He by done. simpl. rewrite decide_False; [done|].
      intros Heq. rewrite Heq, E in Hbi. by injection Hbi.
  - rewrite He. simpl. rewrite decide_False; [done|]. intros Heq. by rewrite Heq, E in Hbi.
  - rewrite He. simpl. rewrite decide_False; [done|]. intros Heq. by rewrite Heq, E in Hbi.
Qed.

Lemma alter_bump (l : list TagEntry) j g1 g2 : alter (bump g1) j (alter (bump g2) j l) = alter (bump (Z.max g1 g2)) j l.
Proof.
  apply list_eq. intros i. destruct (decide (i = j)) as [->|].
  - rewrite !list_lookup_alter_eq. destruct (l !! j) as [[]|]; simpl; [|done].
    unfold bump. cbn [te_id te_name te_generation]. do 2 f_equal. lia.
  - by rewrite !list_lookup_alter_ne.
Qed.

Lemma alter_bump_ne (l : list TagEntry) i j g1 g2 :
  i <> j -> alter (bump g1) i (alter (bump g2) j l) = alter (bump g2) j (alter (bump g1) i l).
Proof.
  intros Hne. apply list_eq. intros n.
  destruct (decide (n = i)), (decide (n = j)); subst; try done;
    repeat first [rewrite list_lookup_alter_eq | rewrite list_lookup_alter_ne by done]; done.
Qed.

Lemma merge_comm r i1 g1 i2 g2 :
  merge_generation (merge_generation r i1 g1) i2 g2
  = merge_generation (merge_generation r i2 g2) i1 g1.
Proof.
  rewrite !merge_generation_eq.
  destruct (by_id r !! Z.to_nat i1) as [[j1|]|] eqn:E1,
    (by_id r !! Z.to_nat i2) as [[j2|]|] eqn:E2; cbn [by_id by_name arena next_id max_tags];
    rewrite ?E1, ?E2; try done.
  f_equal. destruct (decide (j1 = j2)) as [->|]; [|by apply alter_bump_ne].
  by rewrite !alter_bump, Z.max_comm.
Qed.

Lemma merge_idem r id g : merge_generation (merge_generation r id g) id g = merge_generation r id g.
Proof.
  rewrite !merge_generation_eq.
  destruct (by_id r !! Z.to_nat id) as [[j|]|] eqn:E; cbn [by_id by_name arena next_id max_tags];
    rewrite ?E; try done.
  f_equal. by rewrite alter_bump, Z.max_id.
Qed.

(** ** Resolving names *)

Definition missing_step (r : TagRegistry) (missing : list bytes) (name : bytes) : list bytes :=
  if bool_decide (is_Some (by_name r !! name)) || bool_decide (name ∈ missing)
  then missing else missing ++ [name].

Lemma missing_step_spec r acc x :
  NoDup acc ->
  NoDup (missing_step r acc x)
  /\ forall n, n ∈ missing_step r acc x <-> n ∈ acc \/ (n = x /\ by_name r !! n = None).
Proof.
  intros Hacc. unfold missing_step.
  destruct (by_name r !! x) as [i|] eqn:E.
  { rewrite bool_decide_eq_true_2 by done. simpl. split; [done|]. intros n.
    split; [by left|]. intros [|[-> ?]]; congruence. }
  rewrite bool_decide_eq_false_2 by by intros [].
  destruct (bool_decide_reflect (x ∈ acc)) as [Hx|Hx]; simpl.
  - split; [done|]. intros n. split; [by left|]. by intros [|[-> ?]].
  - split.
    + apply NoDup_app. split_and!; [done| |apply NoDup_singleton].
      intros n Hn ->%list_elem_of_singleton. done.
    + intros n. rewrite elem_of_app, list_elem_of_singleton.
      split; intros [|]; auto; [subst; auto|right; tauto].
Qed.

Lemma missing_spec r names :
  NoDup (missing r names)
  /\ forall n, n ∈ missing r names <-> n ∈ names /\ by_name r !! n = None.
Proof.
  assert (forall acc, NoDup acc -> NoDup (foldl (missing_step r) acc names)
    /\ forall n, n ∈ foldl (missing_step r) acc names <->
         n ∈ acc \/ (n ∈ names /\ by_name r !! n = None)) as H.
  { induction names as [|x names IH]; intros acc Hacc; cbn [foldl].
    - split; [done|]. intros n. rewrite elem_of_nil. tauto.
    - destruct (missing_step_spec r acc x Hacc) as [H1 H2]. destruct (IH _ H1) as [H3 H4].
      split; [done|]. intros n. rewrite H4, H2, elem_of_cons. tauto. }
  destruct (H [] (NoDup_nil_2)) as [H1 H2]. split; [exact H1|].
  intros n. etrans; [apply H2|]. rewrite elem_of_nil. tauto.
Qed.

Lemma resolve_cons r x names :
  resolve r (x :: names) = (y ← resolve_one r x; ys ← resolve r names; Ok (y :: ys)).
Proof. reflexivity. Qed.

Lemma resolve_one_ok r x t :
  resolve_one r x = Ok t <-> reg_names r x = Some (tag_id t, generation t).
Proof.
  unfold resolve_one, reg_names. destruct (entry_by_name r x) as [e|]; simpl; [|done].
  destruct t as [i g]. cbn [tag_id generation]. naive_solver.
Qed.

Lemma resolve_ok r names refs :
  resolve r names = Ok refs <->
  Forall2 (fun n t => reg_names r n = Some (tag_id t, generation t)) names refs.
Proof.
  revert refs. induction names as [|x names IH]; intros refs.
  { split; [intros [= <-]; constructor|by inversion 1]. }
  rewrite resolve_cons. split.
  - intros H. inv_ok. constructor; [by apply resolve_one_ok|by apply IH].
  - inversion 1 as [|? t ? ts' H1 H2]; subst. apply resolve_one_ok in H1 as ->.
    apply IH in H2 as ->. done.
Qed.

(** ** Rebuilding from disk *)

(** Entries as a database holds them: one row per name, ids never shared. *)
Definition entries_ok (l : list (bytes * Z * Z)) : Prop :=
  NoDup (l.*1.*1) /\ NoDup (l.*1.*2) /\ Forall (fun '(n, id, g) => 0 <= id < U32_MAX) l.

Lemma load_steps l r h :
  registry_ok r -> entries_ok l -> 0 <= h < U32_MAX ->
  (forall n, n ∈ l.*1.*1 -> reg_names r n = None) ->
  (forall n id g, reg_names r n = Some (id, g) -> id <= h /\ id ∉ l.*1.*2) ->
  let r' := (foldl load_step (r, h) l).1 in let h' := (foldl load_step (r, h) l).2 in
  registry_ok r' /\ 0 <= h' < U32_MAX /\ next_id r' = next_id r
  /\ (forall n id g, reg_names r' n = Some (id, g) <->
        reg_names r n = Some (id, g) \/ (n, id, g) ∈ l)
  /\ (forall n id g, reg_names r' n = Some (id, g) -> id <= h').
Proof.
  revert r h. induction l as [|[[n0 id0] g0] l IH]; intros r h Hr Hl Hh Hfresh Hids; simpl.
  { conjs; try done; try lia.
    - intros n id g. rewrite elem_of_nil. tauto.
    - intros n id g H. by apply Hids in H as [? _]. }
  destruct Hl as (HN & HI & HF). rewrite !fmap_cons in HN, HI. simpl in HN, HI.
  apply NoDup_cons in HN as [HN0 HN], HI as [HI0 HI].
  inversion HF as [|? ? Hid0 HF']; subst.
  assert (reg_names r n0 = None) as Hn0 by (apply Hfresh; simpl; set_solver).
  assert (insertable r n0 id0) as Hins.
  { split_and!; [lia| |by intros ? ?; rewrite Hn0].
    intros n' g' H. apply Hids in H as [_ H]. simpl in H. set_solver. }
  destruct (IH (insert_entry r n0 id0 g0) (Z.max h id0)) as (A & B & C & D & F).
  - by apply insert_ok.
  - by split_and!.
  - lia.
  - intros n Hn. rewrite insert_names_ok by done. rewrite decide_False by (by intros ->).
    apply Hfresh. simpl. set_solver.
  - intros n id g. rewrite insert_names_ok by done. case_decide.
    + intros [= <- <-]. split; [lia|done].
    + intros H'. apply Hids in H' as [H1 H2]. simpl in H2. split; [lia|set_solver].
  - conjs; [done|lia|lia|done| |done].
    intros n id g. rewrite D, insert_names_ok, elem_of_cons by done. case_decide as Hd.
    + subst n. rewrite Hn0. split; [|naive_solver].
      intros [[= <- <-]|Hin]; [by right; left|by right; right].
    + naive_solver.
Qed.

(** ** Properties *)

(** The registry is a map read two ways. Publishing a tag makes exactly
    that name resolve to the given id and generation and exactly that id look
    up the generation, leaving every other name and id as it was and keeping
    the two indexes in agreement: a lookup by id answers with the generation of
    the one name that holds the id, and fails closed on an id nobody holds. *)
Theorem registry_insert_exact r name id g :
  registry_ok r -> insertable r name id ->
  let r' := registry_insert r name id g in
  registry_ok r'
  /\ (forall n, reg_names r' n = if decide (n = name) then Some (id, g) else reg_names r n)
  /\ (forall i, 0 <= i ->
        lookup_generation r' i = if decide (i = id) then Some g else lookup_generation r i)
  /\ (forall i g', 0 <= i ->
        lookup_generation r' i = Some g' <-> exists n, reg_names r' n = Some (i, g')).
Proof.
  intros Hr Hi r'. unfold registry_insert in r'.
  assert (registry_ok r') as Hr' by by apply insert_ok.
  destruct Hi as [Hid Hi]. conjs; [done| | |].
  - intros n. by apply insert_names_ok.
  - intros i Hi0. by apply lookup_insert_entry.
  - intros i g' Hi0. by apply lookup_generation_names.
Qed.

(** Merging invalidations is a join: bumps commute, repeat harmlessly,
    never move a counter backwards, reach at least the merged generation, touch
    no other tag, and are seen both by id and by name (the two handles share
    one entry). So replicas that apply the same invalidations in any order and
    any multiplicity agree. *)
Theorem merge_generation_join r i1 g1 i2 g2 :
  registry_ok r -> 0 <= i1 -> 0 <= i2 ->
  merge_generation (merge_generation r i1 g1) i2 g2
    = merge_generation (merge_generation r i2 g2) i1 g1
  /\ merge_generation (merge_generation r i1 g1) i1 g1 = merge_generation r i1 g1
  /\ registry_ok (merge_generation r i1 g1)
  /\ lookup_generation (merge_generation r i1 g1) i2
     = (if decide (i2 = i1) then Z.max g1 else id) <$> lookup_generation r i2
  /\ (forall n, reg_names (merge_generation r i1 g1) n =
       (fun '(i, g) => (i, if decide (i = i1) then Z.max g g1 else g)) <$> reg_names r n).
Proof.
  intros Hr H1 H2. split_and!.
  - apply merge_comm.
  - apply merge_idem.
  - by apply merge_ok.
  - rewrite merge_lookup by done. case_decide; [done|]. by destruct (lookup_generation r i2).
  - intros n. rewrite merge_names by done. by destruct (reg_names r n) as [[]|].
Qed.

Lemma load_from_ok m l :
  entries_ok l ->
  let r := load_from (TagRegistry_new m) l in
  registry_ok r
  /\ (forall n id g, reg_names r n = Some (id, g) <-> (n, id, g) ∈ l)
  /\ (forall n id g, (n, id, g) ∈ l -> id < next_id r)
  /\ 0 <= next_id r <= U32_MAX
  /\ (forall r' id, allocate_id r = (r', Ok id) -> forall n g, reg_names r n <> Some (id, g)).
Proof.
  intros Hl r.
  destruct (load_steps l (TagRegistry_new m) 0) as (A & B & C & D & F);
    [apply registry_new_ok|done|unfold U32_MAX; lia|done|done|].
  assert (r = let '(r', highest) := foldl load_step (TagRegistry_new m, 0) l in
      if bool_decide (by_name r' = ∅) then r' else set_next_id r' (wrapping 32 (highest + 1))) as Er
    by reflexivity.
  destruct (foldl load_step (TagRegistry_new m, 0) l) as [r' h]. cbn [fst snd] in *.
  assert (reg_names r = reg_names r' /\ registry_ok r) as [Hn Hok].
  { rewrite Er. by case_bool_decide. }
  rewrite Hn. setoid_rewrite D.
  assert (forall n id g, reg_names (TagRegistry_new m) n = Some (id, g) \/ (n, id, g) ∈ l
            <-> (n, id, g) ∈ l) as Hiff by naive_solver.
  setoid_rewrite Hiff.
  assert (forall n id g, (n, id, g) ∈ l -> id < next_id r) as Hnext.
  { intros n id g Hin. assert (reg_names r' n = Some (id, g)) as Hx by (apply D; by right).
    rewrite Er. case_bool_decide as He.
    - unfold reg_names, entry_by_name in Hx. by rewrite He, lookup_empty in Hx.
    - cbn [next_id set_next_id]. apply F in Hx. rewrite wrapping_small; [lia|].
      unfold U32_MAX in B. width. }
  assert (0 <= next_id r <= U32_MAX) as Hrange.
  { rewrite Er. case_bool_decide; cbn [next_id set_next_id].
    - rewrite C. cbn. unfold U32_MAX. lia.
    - rewrite wrapping_small; unfold U32_MAX in *; [lia|width]. }
  conjs; [done|done|done|lia|lia|].
  intros r2 id Ha n g Hx. apply Hnext in Hx.
  unfold allocate_id in Ha. case_match; [done|]. injection Ha as <- <-. lia.
Qed.

(** Restart: rebuilding the registry from the persisted entries (one row
    per name, no id used twice) gives exactly those names with their ids and
    generations, consistent both ways, and the next id handed out is above
    every id in use, so no id is reused for a different name. *)
Theorem load_from_exact m l :
  entries_ok l ->
  let r := load_from (TagRegistry_new m) l in
  registry_ok r
  /\ (forall n id g, reg_names r n = Some (id, g) <-> (n, id, g) ∈ l)
  /\ (forall n id g, (n, id, g) ∈ l -> id < next_id r)
  /\ 0 <= next_id r <= U32_MAX
  /\ (forall r' id, allocate_id r = (r', Ok id) -> forall n g, reg_names r n <> Some (id, g)).
Proof. apply load_from_ok. Qed.

(** Resolving tag names: [resolve] succeeds exactly when every name is
    registered, and then gives each its id and current generation, in order;
    [missing] lists, once each, exactly the names that are not registered; so
    after creating what [missing] reports, [resolve] succeeds. *)
Theorem resolve_exact r names :
  registry_ok r ->
  (forall refs, resolve r names = Ok refs <->
     Forall2 (fun n t => reg_names r n = Some (tag_id t, generation t)) names refs)
  /\ NoDup (missing r names)
  /\ (forall n, n ∈ missing r names <-> n ∈ names /\ reg_names r n = None)
  /\ (missing r names = [] <-> is_ok (resolve r names) = true).
Proof.
  intros [Hr _]. destruct (missing_spec r names) as [Hnd Hm].
  assert (forall n, by_name r !! n = None <-> reg_names r n = None) as Hnone.
  { intros n. unfold reg_names, entry_by_name. destruct (by_name r !! n) as [i|] eqn:E; [|done].
    destruct (Hr _ _ E) as (e & He & _). simpl. by rewrite He. }
  assert (forall n, n ∈ missing r names <-> n ∈ names /\ reg_names r n = None) as Hm'.
  { intros n. by rewrite Hm, Hnone. }
  conjs; [apply resolve_ok|done|done|]. split.
  - intros Hnil. rewrite Hnil in Hm'.
    assert (forall n, n ∈ names -> exists t, reg_names r n = Some (tag_id t, generation t)) as Ht.
    { intros n Hn. destruct (reg_names r n) as [[i g]|] eqn:E; [by exists (mkTagRef i g)|].
      exfalso. apply (not_elem_of_nil n), Hm'. done. }
    clear -Ht. induction names as [|x names IH]; [done|]. rewrite resolve_cons.
    destruct (Ht x) as [t Hx]; [by left|]. apply resolve_one_ok in Hx as ->. rewrite bind_ok.
    destruct (resolve r names); [done|..]; (apply IH; intros; apply Ht; by right).
  - intros Hok. destruct (resolve r names) as [refs|n|why] eqn:E; [|done|done].
    apply resolve_ok in E. apply elem_of_nil_inv. intros n Hn. apply Hm' in Hn as [Hn Hnn].
    apply list_elem_of_lookup in Hn as [i Hi].
    destruct (Forall2_lookup_l _ _ _ _ _ E Hi) as (t & _ & Ht). congruence.
Qed.

(** ** Witnesses *)

Definition sample_registry : TagRegistry :=
  load_from (TagRegistry_new 10) [(bs "a", 0, 1); (bs "b", 7, 2)].

Lemma sample_entries_ok : entries_ok [(bs "a", 0, 1); (bs "b", 7, 2)].
Proof.
  unfold entries_ok. conjs; [| |repeat constructor; unfold U32_MAX; lia];
    apply (bool_decide_unpack _); vm_compute; exact I.
Qed.

Lemma sample_registry_ok : registry_ok sample_registry.
Proof.
  destruct (load_steps [(bs "a", 0, 1); (bs "b", 7, 2)] (TagRegistry_new 10) 0) as (A & _);
    [apply registry_new_ok|apply sample_entries_ok|unfold U32_MAX; lia|done|done|].
  exact A.
Qed.

Lemma registry_insert_exact_witness :
  let r' := registry_insert sample_registry (bs "c") 8 0 in
  registry_ok r'
  /\ (forall n, reg_names r' n = if decide (n = bs "c") then Some (8, 0) else reg_names sample_registry n)
  /\ (forall i, 0 <= i ->
        lookup_generation r' i = if decide (i = 8) then Some 0 else lookup_generation sample_registry i)
  /\ (forall i g', 0 <= i ->
        lookup_generation r' i = Some g' <-> exists n, reg_names r' n = Some (i, g')).
Proof.
  apply (registry_insert_exact sample_registry (bs "c") 8 0); [exact sample_registry_ok|].
  unfold insertable. conjs; [lia| |].
  - intros n g H. assert (lookup_generation sample_registry 8 = Some g) as Hx.
    { apply lookup_generation_names; [exact sample_registry_ok|lia|by exists n]. }
    vm_compute in Hx. discriminate Hx.
  - intros i g H. vm_compute in H. discriminate H.
Defined.

Lemma merge_generation_join_witness :
  merge_generation (merge_generation sample_registry 0 9) 7 4
    = merge_generation (merge_generation sample_registry 7 4) 0 9
  /\ merge_generation (merge_generation sample_registry 0 9) 0 9 = merge_generation sample_registry 0 9
  /\ registry_ok (merge_generation sample_registry 0 9)
  /\ lookup_generation (merge_generation sample_registry 0 9) 7
     = (if decide (7 = 0) then Z.max 9 else id) <$> lookup_generation sample_registry 7
  /\ (forall n, reg_names (merge_generation sample_registry 0 9) n =
       (fun '(i, g) => (i, if decide (i = 0) then Z.max g 9 else g)) <$> reg_names sample_registry n).
Proof. apply (merge_generation_join sample_registry 0 9 7 4); [exact sample_registry_ok|lia|lia]. Defined.

Lemma load_from_exact_witness :
  registry_ok sample_registry
  /\ (forall n id g, reg_names sample_registry n = Some (id, g) <->
        (n, id, g) ∈ [(bs "a", 0, 1); (bs "b", 7, 2)])
  /\ (forall n id g, (n, id, g) ∈ [(bs "a", 0, 1); (bs "b", 7, 2)] -> id < next_id sample_registry)
  /\ 0 <= next_id sample_registry <= U32_MAX
  /\ (forall r' id, allocate_id sample_registry = (r', Ok id) ->
        forall n g, reg_names sample_registry n <> Some (id, g)).
Proof. apply (load_from_exact 10 _ sample_entries_ok). Defined.

Lemma resolve_exact_witness :
  (forall refs, resolve sample_registry [bs "a"; bs "zz"] = Ok refs <->
     Forall2 (fun n t => reg_names sample_registry n = Some (tag_id t, generation t)) [bs "a"; bs "zz"] refs)
  /\ NoDup (missing sample_registry [bs "a"; bs "zz"])
  /\ (forall n, n ∈ missing sample_registry [bs "a"; bs "zz"] <->
        n ∈ [bs "a"; bs "zz"] /\ reg_names sample_registry n = None)
  /\ (missing sample_registry [bs "a"; bs "zz"] = [] <->
        is_ok (resolve sample_registry [bs "a"; bs "zz"]) = true).
Proof. apply (resolve_exact sample_registry [bs "a"; bs "zz"] sample_registry_ok). Defined.

Example missing_deduplicates :
  missing sample_registry [bs "a"; bs "x"; bs "x"; bs "c"] = [bs "x"; bs "c"].
Proof. vm_compute. reflexivity. Qed.

Example ids_resume_past_the_highest : (allocate_id sample_registry).2 = Ok 8.
Proof. vm_compute. reflexivity. Qed.
