(* ===== verification/Engine.v ===== *)
(** [vash-store/src/engine.rs] and [schema.rs]: one shard's engine, as the
    state the operations run against and the monad they run in.

    The state is the open write transaction and the engine's RAM (the atomics
    and the tag registry).  An operation maps a state to a state and a
    [Result]; an error keeps what was already written, because the source's
    [?] does.  Configuration ([Config]) and the clock reading are arguments:
    one reading per operation stands for the calls to [now_ms] it makes. *)

From S2P Require Import Prelude Bytes Core Record Backend Tags.

(** ** Pressure *)

Inductive Pressure : Type :=
| Pressure_Normal | Pressure_Soft | Pressure_Hard | Pressure_Critical.

#[global] Instance Pressure_eq_dec : EqDecision Pressure.
Proof. solve_decision. Defined.

Definition Pressure_to_u8 (p : Pressure) : Z :=
  match p with
  | Pressure_Normal => 0 | Pressure_Soft => 1 | Pressure_Hard => 2 | Pressure_Critical => 3
  end.

Definition Pressure_from_u8 (raw : Z) : Pressure :=
  if raw =? 0 then Pressure_Normal
  else if raw =? 1 then Pressure_Soft
  else if raw =? 2 then Pressure_Hard
  else Pressure_Critical.

(** ** schema.rs *)

Definition SCHEMA_VERSION : Z := 3.

Definition CAS_BLOCK : Z := 1048576.

Definition meta_key_EPOCH : bytes := bs "epoch".

Definition meta_key_CAS_WATERMARK : bytes := bs "cas_watermark".

Definition meta_key_SCHEMA_VERSION : bytes := bs "schema_version".

Definition meta_key_RECORD_VERSION : bytes := bs "record_version".

Definition meta_key_SHARD_INDEX : bytes := bs "shard_index".

Definition meta_key_SHARD_COUNT : bytes := bs "shard_count".

(** ** The engine *)

Record Config := mkConfig {
  max_value_len : Z;
  bucket_granularity_ms : Z;
  shard_index : Z;
  shard_count : Z
}.

Record Ram := mkRam {
  ram_epoch : Z;
  ram_cas_next : Z;
  ram_cas_watermark : Z;
  ram_tags : TagRegistry;
  ram_pressure : Pressure
}.

Record St (T : Type) := mkSt { st_txn : T; st_ram : Ram }.

Arguments mkSt {T} st_txn st_ram.
Arguments st_txn {T} s.
Arguments st_ram {T} s.

Definition StoreM (T A : Type) : Type := St T -> St T * Result StoreError A.

#[global] Instance StoreM_ret {T} : MRet (StoreM T) := fun A a s => (s, Ok a).

#[global] Instance StoreM_bind {T} : MBind (StoreM T) :=
  fun A B f m s =>
    match m s with
    | (s', Ok a) => f a s'
    | (s', Err e) => (s', Err e)
    | (s', Panic why) => (s', Panic why)
    end.

Definition throw {T A} (e : StoreError) : StoreM T A := fun s => (s, Err e).

(** [?] on a pure result, and on one from [vash-core]. *)
Definition lift {T A} (r : Result StoreError A) : StoreM T A := fun s => (s, r).

Definition lift_core {T A} (r : Result CoreError A) : StoreM T A := lift (map_err SE_Core r).

Definition get_ram {T} : StoreM T Ram := fun s => (s, Ok (st_ram s)).

Definition set_ram {T} (r : Ram) : StoreM T unit := fun s => (mkSt (st_txn s) r, Ok ()).

Definition set_cas_next (r : Ram) (n : Z) : Ram :=
  mkRam (ram_epoch r) n (ram_cas_watermark r) (ram_tags r) (ram_pressure r).

Definition set_cas_watermark (r : Ram) (n : Z) : Ram :=
  mkRam (ram_epoch r) (ram_cas_next r) n (ram_tags r) (ram_pressure r).

Definition set_tags (r : Ram) (t : TagRegistry) : Ram :=
  mkRam (ram_epoch r) (ram_cas_next r) (ram_cas_watermark r) t (ram_pressure r).

Definition set_pressure (r : Ram) (p : Pressure) : Ram :=
  mkRam (ram_epoch r) (ram_cas_next r) (ram_cas_watermark r) (ram_tags r) p.

Definition set_epoch (r : Ram) (epoch : Z) : Ram :=
  mkRam epoch (ram_cas_next r) (ram_cas_watermark r) (ram_tags r) (ram_pressure r).

Section Ops.
Context {T : Type} {BT : Backend T}.

Definition db_get (db : Db) (k : bytes) : StoreM T (option bytes) :=
  fun s => (s, txn_get (st_txn s) db k).

Definition db_range (db : Db) (r : Range) : StoreM T (list (bytes * bytes)) :=
  fun s => (s, txn_range (st_txn s) db r).

Definition db_stat (db : Db) : StoreM T DbStat := fun s => (s, txn_stat (st_txn s) db).

Definition db_put (db : Db) (k v : bytes) : StoreM T unit :=
  fun s => let '(t, r) := txn_put (st_txn s) db k v in (mkSt t (st_ram s), r).

Definition db_delete (db : Db) (k : bytes) : StoreM T bool :=
  fun s => let '(t, r) := txn_delete (st_txn s) db k in (mkSt t (st_ram s), r).

Definition db_clear (db : Db) : StoreM T unit :=
  fun s => let '(t, r) := txn_clear (st_txn s) db in (mkSt t (st_ram s), r).

(** [for x in l { f(x)?; }] *)
Fixpoint for_each {A} (f : A -> StoreM T unit) (l : list A) : StoreM T unit :=
  match l with
  | [] => mret ()
  | x :: l' => _ ← f x; for_each f l'
  end.

(** [for x in l { out.push(f(x)?); }] *)
Fixpoint map_each {A B} (f : A -> StoreM T B) (l : list A) : StoreM T (list B) :=
  match l with
  | [] => mret []
  | x :: l' => y ← f x; ys ← map_each f l'; mret (y :: ys)
  end.

(** [for x in l { acc = f(acc, x)?; }] *)
Fixpoint fold_each {A B} (f : B -> A -> StoreM T B) (acc : B) (l : list A) : StoreM T B :=
  match l with
  | [] => mret acc
  | x :: l' => acc ← f acc x; fold_each f acc l'
  end.

Definition used_pages : StoreM T Z :=
  foldr (fun db rest => s ← db_stat db; n ← rest; mret (st_pages s + n)) (mret 0) all_dbs.

End Ops.

(** ** Reasoning

    [wp m Q Qe v r]: run from a transaction whose contents are [v] and from
    RAM [r], [m] never panics; if it returns, [Q] holds of the result, the
    contents and the RAM; if it fails, either the engine failed (and may) or
    [Qe] holds.  Whatever happens, the published part of RAM (the flush epoch
    and the registry's entries) is untouched: the writer alone publishes. *)

Definition same_entries (t t' : TagRegistry) : Prop :=
  arena t' = arena t /\ by_name t' = by_name t /\ by_id t' = by_id t /\ max_tags t' = max_tags t.

(** The id counter only moves up, and not past its width. *)
Definition ids_advance (t t' : TagRegistry) : Prop :=
  next_id t <= next_id t' <= Z.max (next_id t) U32_MAX.

Definition ram_frame (r r' : Ram) : Prop :=
  ram_epoch r' = ram_epoch r /\ same_entries (ram_tags r) (ram_tags r')
  /\ ids_advance (ram_tags r) (ram_tags r').

#[global] Instance same_entries_refl : Reflexive same_entries.
Proof. by intros t. Qed.

Lemma ids_advance_same t t' : next_id t' = next_id t -> ids_advance t t'.
Proof. unfold ids_advance. intros ->. lia. Qed.

#[global] Instance ram_frame_refl : Reflexive ram_frame.
Proof. intros r. split; [done|]. split; [done|by apply ids_advance_same]. Qed.

#[global] Instance ram_frame_trans : Transitive ram_frame.
Proof.
  intros r1 r2 r3. unfold ram_frame, same_entries, ids_advance.
  intros (H1 & (H2 & H3 & H4 & H5) & H6) (K1 & (K2 & K3 & K4 & K5) & K6).
  conjs; try congruence; lia.
Qed.

Lemma same_entries_lookup t t' id :
  same_entries t t' -> lookup_generation t' id = lookup_generation t id.
Proof. intros (H1 & H2 & H3 & H4). unfold lookup_generation. by rewrite H1, H3. Qed.

Lemma same_entries_names t t' n : same_entries t t' -> reg_names t' n = reg_names t n.
Proof. intros (H1 & H2 & H3 & H4). unfold reg_names, entry_by_name. by rewrite H1, H2. Qed.

Section Wp.
Context {T : Type} {BT : Backend T} {BL : BackendLaws T}.

Definition wp {A} (m : StoreM T A) (Q : A -> Views -> Ram -> Prop)
    (Qe : StoreError -> Views -> Ram -> Prop) (v : Views) (r : Ram) : Prop :=
  forall s, view (st_txn s) = v -> st_ram s = r ->
  ram_frame r (st_ram (m s).1)
  /\ match (m s).2 with
     | Ok a => Q a (view (st_txn (m s).1)) (st_ram (m s).1)
     | Err e => (may_fail /\ poisons_transaction e = true /\ doomed (st_txn (m s).1))
                \/ Qe e (view (st_txn (m s).1)) (st_ram (m s).1)
     | Panic _ => False
     end.

Lemma wp_ret {A} (a : A) Q Qe v r : Q a v r -> wp (mret a) Q Qe v r.
Proof. intros H s <- <-. by split. Qed.

Lemma wp_throw {A} e (Q : A -> Views -> Ram -> Prop) Qe v r : Qe e v r -> wp (throw e) Q Qe v r.
Proof. intros H s <- <-. by split; [|right]. Qed.

Lemma wp_bind {A B} (m : StoreM T A) (f : A -> StoreM T B) Q Qe v r :
  wp m (fun a => wp (f a) Q Qe) Qe v r -> wp (m ≫= f) Q Qe v r.
Proof.
  intros H s Hv Hr. specialize (H s Hv Hr). unfold mbind, StoreM_bind.
  destruct (m s) as [s' [a|e|why]]; cbn [fst snd] in *.
  - destruct H as [Hf H]. destruct (H s' eq_refl eq_refl) as [Hf' H'].
    split; [by etrans|done].
  - done.
  - by destruct H.
Qed.

Lemma wp_mono {A} (m : StoreM T A) (Q Q' : A -> Views -> Ram -> Prop)
    (Qe Qe' : StoreError -> Views -> Ram -> Prop) v r :
  wp m Q Qe v r ->
  (forall a v' r', ram_frame r r' -> Q a v' r' -> Q' a v' r') ->
  (forall e v' r', ram_frame r r' -> Qe e v' r' -> Qe' e v' r') ->
  wp m Q' Qe' v r.
Proof.
  intros H HQ HE s Hv Hr. destruct (H s Hv Hr) as [Hf H']. split; [done|].
  destruct (m s) as [s' [a|e|why]]; cbn [fst snd] in *; [by apply HQ| |done].
  destruct H' as [|]; [by left|right; by apply HE].
Qed.

Lemma wp_lift {A} (x : Result StoreError A) Q Qe v r :
  match x with Ok a => Q a v r | Err e => Qe e v r | Panic _ => False end ->
  wp (lift x) Q Qe v r.
Proof. intros H s <- <-. split; [done|]. destruct x; cbn; auto. Qed.

Lemma wp_lift_core {A} (x : Result CoreError A) Q Qe v r :
  match x with Ok a => Q a v r | Err e => Qe (SE_Core e) v r | Panic _ => False end ->
  wp (lift_core x) Q Qe v r.
Proof. intros H. apply wp_lift. by destruct x. Qed.

Lemma wp_get_ram Q Qe v r : Q r v r -> wp get_ram Q Qe v r.
Proof. intros H s <- <-. by split. Qed.

Lemma wp_set_ram r' Q Qe v r : ram_frame r r' -> Q () v r' -> wp (set_ram r') Q Qe v r.
Proof. intros Hf H s <- <-. by split. Qed.

Lemma wp_get db k Q Qe v r : Q (vget v db !! k) v r -> wp (db_get db k) Q Qe v r.
Proof.
  intros H s <- <-. split; [done|]. unfold db_get. cbn [fst snd].
  destruct (law_get (st_txn s) db k) as [->|[He Hd]]; [done|].
  destruct (txn_get _ _ _); [done|left; by destruct He|done].
Qed.

Lemma wp_range db rg Q Qe v r : Q (rows_in (vget v db) rg) v r -> wp (db_range db rg) Q Qe v r.
Proof.
  intros H s <- <-. split; [done|]. unfold db_range. cbn [fst snd].
  destruct (law_range (st_txn s) db rg) as [->|[He Hd]]; [done|].
  destruct (txn_range _ _ _); [done|left; by destruct He|done].
Qed.

Lemma wp_put db k x Q Qe v r : Q () (vput v db k x) r -> wp (db_put db k x) Q Qe v r.
Proof.
  intros H s <- <-. unfold db_put. destruct (law_put (st_txn s) db k x) as [[E1 E2]|[He Hd]].
  - destruct (txn_put _ _ _ _) as [t res]; cbn in *. subst res. by rewrite E2.
  - destruct (txn_put _ _ _ _) as [t [a|e|why]]; cbn in *; [done|by split; [|left; destruct He]|done].
Qed.

Lemma wp_delete db k Q Qe v r :
  Q (bool_decide (is_Some (vget v db !! k))) (vdel v db k) r -> wp (db_delete db k) Q Qe v r.
Proof.
  intros H s <- <-. unfold db_delete. destruct (law_delete (st_txn s) db k) as [[E1 E2]|[He Hd]].
  - destruct (txn_delete _ _ _) as [t res]; cbn in *. subst res. by rewrite E2.
  - destruct (txn_delete _ _ _) as [t [a|e|why]]; cbn in *; [done|by split; [|left; destruct He]|done].
Qed.

Lemma wp_clear db Q Qe v r : Q () (vset v db ∅) r -> wp (db_clear db) Q Qe v r.
Proof.
  intros H s <- <-. unfold db_clear. destruct (law_clear (st_txn s) db) as [[E1 E2]|[He Hd]].
  - destruct (txn_clear _ _) as [t res]; cbn in *. subst res. by rewrite E2.
  - destruct (txn_clear _ _) as [t [a|e|why]]; cbn in *; [done|by split; [|left; destruct He]|done].
Qed.

Lemma wp_stat db Q Qe v r :
  (forall n, 0 <= n -> Q (mkDbStat (Z.of_nat (size (vget v db))) n) v r) ->
  wp (db_stat db) Q Qe v r.
Proof.
  intros H s <- <-. split; [done|]. unfold db_stat. cbn [fst snd].
  pose proof (law_stat (st_txn s) db) as Hl. destruct (txn_stat _ _) as [[n p]|e|why]; [|left; by destruct Hl as [[]]|by destruct Hl].
  cbn in Hl. destruct Hl as [-> Hp]. by apply H.
Qed.

(** A loop whose every step is a fixed change of the contents. *)
Lemma wp_for_each {A} (f : A -> StoreM T unit) (g : Views -> A -> Views) l Q Qe v r :
  (forall x v' P, x ∈ l -> P () (g v' x) r -> wp (f x) P Qe v' r) ->
  Q () (foldl g v l) r -> wp (for_each f l) Q Qe v r.
Proof.
  revert v. induction l as [|x l IH]; intros v Hf HQ; cbn [for_each]; [by apply wp_ret|].
  apply wp_bind, Hf; [by left|]. apply IH; [|done]. intros y v' P Hy. apply Hf. by right.
Qed.

(** The same with an accumulator: contents and accumulator move together. *)
Lemma wp_fold_each {A B} (f : B -> A -> StoreM T B) (step : Views * B -> A -> Views * B)
    (I : list A -> Views -> Prop) l acc Q Qe v r :
  (forall x l' v' acc' P, I (x :: l') v' ->
     (I l' (step (v', acc') x).1 -> P (step (v', acc') x).2 (step (v', acc') x).1 r) ->
     wp (f acc' x) P Qe v' r) ->
  I l v -> Q (foldl step (v, acc) l).2 (foldl step (v, acc) l).1 r ->
  wp (fold_each f acc l) Q Qe v r.
Proof.
  revert v acc. induction l as [|x l IH]; intros v acc Hf HI HQ; cbn [fold_each]; [by apply wp_ret|].
  apply wp_bind. eapply Hf; [exact HI|]. intros HI'. apply IH; [done|done|].
  cbn [foldl] in HQ. by destruct (step (v, acc) x).
Qed.

(** What a specification says of one run. *)
Lemma wp_run {A} (m : StoreM T A) Q Qe s :
  wp m Q Qe (view (st_txn s)) (st_ram s) ->
  match m s with
  | (s', Ok a) => Q a (view (st_txn s')) (st_ram s')
  | (s', Err e) => (may_fail /\ poisons_transaction e = true /\ doomed (st_txn s')) \/ Qe e (view (st_txn s')) (st_ram s')
  | (_, Panic _) => False
  end.
Proof.
  intros H. destruct (H s eq_refl eq_refl) as [_ H']. by destruct (m s) as [s' [a|e|why]].
Qed.

(** ** Opening and committing *)

Lemma begin_view env :
  match txn_begin env with
  | Ok txn => view txn = view env
  | Err e => may_fail /\ poisons_transaction e = true
  | Panic _ => False
  end.
Proof. pose proof (law_begin env) as H. by destruct (txn_begin env). Qed.

Lemma commit_view txn :
  match txn_commit txn with
  | Ok env => view env = view txn /\ ~ doomed txn
  | Err e => may_fail /\ poisons_transaction e = true
  | Panic _ => False
  end.
Proof.
  pose proof (law_commit txn) as H. pose proof (law_doomed_commit txn) as Hd.
  destruct (txn_commit txn); try done.
Qed.

End Wp.

(** RAM updates outside the published part. *)
Ltac frame :=
  split; [reflexivity|split; [exact (same_entries_refl _)|apply ids_advance_same; reflexivity]].

(** Symbolic execution: one rule per primitive. *)
Ltac wp_step :=
  cbv beta;
  lazymatch goal with
  | |- wp (mret _) _ _ _ _ => apply wp_ret
  | |- wp (throw _) _ _ _ _ => apply wp_throw
  | |- wp (mbind _ _) _ _ _ _ => apply wp_bind
  | |- wp get_ram _ _ _ _ => apply wp_get_ram
  | |- wp (set_ram _) _ _ _ _ => apply wp_set_ram
  | |- wp (db_get _ _) _ _ _ _ => apply wp_get
  | |- wp (db_range _ _) _ _ _ _ => apply wp_range
  | |- wp (db_put _ _ _) _ _ _ _ => apply wp_put
  | |- wp (db_delete _ _) _ _ _ _ => apply wp_delete
  | |- wp (db_clear _) _ _ _ _ => apply wp_clear
  | |- wp (lift_core _) _ _ _ _ => apply wp_lift_core
  | |- wp (lift _) _ _ _ _ => apply wp_lift
  end.

(** ** Facts *)

Lemma Pressure_u8_roundtrip p : Pressure_from_u8 (Pressure_to_u8 p) = p.
Proof. by destruct p. Qed.
