(* ===== verification/Apply.v ===== *)
(** [vash-store/src/apply.rs]: the record operations the writer thread
    applies, each against the caller's transaction.  Definitions only; what
    they mean is in [Cache.v] (the rows a record owns, and the abstract
    cache) and [ApplySpec.v] (the refinement). *)

From S2P Require Import Prelude Bytes Core Record Clock Arith Command Backend.
From S2P Require Import IndexKeys Tags Engine.

(** ** Data *)

(** The index rows a stored record owns. *)
Record IndexRows := mkIndexRows { ir_expires_at_ms : Z; ir_cas : Z; ir_tag_ids : list Z }.

Definition IndexRows_of (record : RecordRef) : IndexRows :=
  mkIndexRows (expires_at_ms record) (cas record) (tag_id <$> tags record).

(** What the record an overwrite replaced was holding. *)
Record Displaced := mkDisplaced {
  d_live : bool;
  d_deadline : option Z;
  d_previous : option Value;
  d_indexed_at : option Z
}.

Definition Displaced_default : Displaced := mkDisplaced false None None None.

Record PreRead := mkPreRead { pr_rows : option IndexRows; pr_displaced : Displaced }.

Record PreparedSet := mkPreparedSet {
  ps_key : bytes;
  ps_record : bytes;
  ps_expires_at_ms : option Z;
  ps_ttl : TtlChange;
  ps_tags : list TagRef;
  ps_return_previous : bool;
  ps_pre_read : option PreRead
}.

Record Written := mkWritten { w_outcome : Stored; w_previous : option Value }.

Record Found := mkFound { f_record : RecordRef; f_live : bool }.

Definition Found_live (f : Found) : option RecordRef :=
  if f_live f then Some (f_record f) else None.

Record SetApplied := mkSetApplied { sa_cas : Z; sa_previous : option Value }.

(** The value handed back for a live record. *)
Definition value_of (record : RecordRef) : Value :=
  mkValue (value record) (mc_flags record) (cas record) (Some (expires_at_ms record)).

Section Apply.
Context {T : Type} {BT : Backend T} {HS : Hash} {FT : FloatText}.
Variable cfg : Config.
Variable now_ms : Z.

Definition granularity : Z := bucket_granularity_ms cfg.

(** ** prepare_set: runs on the caller's thread, outside any transaction *)

Definition prepare_set (ram : Ram) (set : SetReq) (ts : list TagRef)
    : Result StoreError PreparedSet :=
  if bool_decide (ram_pressure ram = Pressure_Critical) then Err SE_CapacityFull
  else
    _ ← map_err SE_Core (validate_value (s_value set) (max_value_len cfg));
    let expires_at_ms :=
      match s_ttl set with
      | Ttl_Set ttl_secs => Some (expiry_from_ttl now_ms ttl_secs)
      | Ttl_Keep | Ttl_SetIfPersistent _ => None
      end in
    let meta := mkMeta (ram_epoch ram) (s_mc_flags set) (default NEVER expires_at_ms) 0 in
    record ← map_err SE_Core (encode_record meta ts (s_value set));
    Ok (mkPreparedSet (s_key set) record expires_at_ms (s_ttl set) ts (s_return_previous set) None).

(** ** Tokens *)

Definition next_cas : StoreM T Z :=
  r ← get_ram;
  let counter := wrapping 64 (ram_cas_next r + 1) in
  _ ← set_ram (set_cas_next r counter);
  _ ← (if ram_cas_watermark r <=? counter then
         let watermark := wrapping 64 (counter + CAS_BLOCK) in
         _ ← db_put Meta meta_key_CAS_WATERMARK (le_bytes 8 watermark);
         r ← get_ram;
         set_ram (set_cas_watermark r watermark)
       else mret ());
  mret (wrapping 64 (counter * shard_count cfg + shard_index cfg)).

(** ** Index rows *)

Definition clear_expiry_row (key : bytes) (expires_at_ms : Z) : StoreM T unit :=
  _ ← db_delete Exp (encode_key expires_at_ms key granularity);
  mret ().

Definition clear_tag_rows (key : bytes) (rows : IndexRows) : StoreM T unit :=
  for_each (fun tag_id => _ ← db_delete TagIdx (index_key tag_id key); mret ()) (ir_tag_ids rows).

Definition clear_index_rows (key : bytes) (rows : IndexRows) : StoreM T unit :=
  _ ← clear_expiry_row key (ir_expires_at_ms rows);
  clear_tag_rows key rows.

(** ** Reading the record being replaced *)

Definition alive (r : Ram) (record : RecordRef) : bool :=
  is_alive record now_ms (ram_epoch r) (lookup_generation (ram_tags r)).

Definition displace (key : bytes) (want_value keep_expiry_row : bool) : StoreM T Displaced :=
  blob ← db_get Main key;
  match blob with
  | None => mret Displaced_default
  | Some blob =>
      record ← lift_core (RecordRef_parse blob);
      let rows := IndexRows_of record in
      r ← get_ram;
      let live := alive r record in
      let displaced :=
        mkDisplaced live
          (if live then Some (expires_at_ms record) else None)
          (if live && want_value then Some (value_of record) else None)
          (Some (expires_at_ms record)) in
      _ ← (if keep_expiry_row then clear_tag_rows key rows else clear_index_rows key rows);
      mret displaced
  end.

Definition read_for_update (key : bytes) : StoreM T (option Found) :=
  blob ← db_get Main key;
  match blob with
  | None => mret None
  | Some blob =>
      record ← lift_core (RecordRef_parse blob);
      r ← get_ram;
      mret (Some (mkFound record (alive r record)))
  end.

Definition live_record (key : bytes) : StoreM T (option RecordRef) :=
  found ← read_for_update key;
  mret (found ≫= Found_live).

(** The deadline a rewrite lands on, given what the record carries now. *)
Definition deadline_after (change : TtlChange) (current : Z) : Z :=
  match change with
  | Ttl_Keep => current
  | Ttl_Set ttl_secs => expiry_from_ttl now_ms ttl_secs
  | Ttl_SetIfPersistent ttl_secs =>
      if current =? NEVER then expiry_from_ttl now_ms ttl_secs else current
  end.

(** ** apply_set: the tail every write ends in *)

Definition apply_set (prepared : PreparedSet) : StoreM T SetApplied :=
  cas ← next_cas;
  record ← lift_core (patch_cas (ps_record prepared) cas);
  let key := ps_key prepared in
  displaced ←
    match ps_pre_read prepared with
    | None => displace key (ps_return_previous prepared) true
    | Some pre =>
        _ ← match pr_rows pre with
            | Some rows => clear_tag_rows key rows
            | None => mret ()
            end;
        mret (pr_displaced pre)
    end;
  '(record, expires_at_ms) ←
    match ps_expires_at_ms prepared with
    | Some resolved => mret (record, resolved)
    | None =>
        let resolved := deadline_after (ps_ttl prepared) (default NEVER (d_deadline displaced)) in
        record ← lift_core (patch_expiry record resolved);
        mret (record, resolved)
    end;
  _ ← db_put Main key record;
  let same_bucket :=
    match d_indexed_at displaced with
    | Some previously => bucket_for previously granularity =? bucket_for expires_at_ms granularity
    | None => false
    end in
  _ ← match d_indexed_at displaced with
      | Some previously => if negb same_bucket then clear_expiry_row key previously else mret ()
      | None => mret ()
      end;
  _ ← (if negb same_bucket
       then db_put Exp (encode_key expires_at_ms key granularity) key else mret ());
  _ ← for_each (fun tag => db_put TagIdx (index_key (tag_id tag) key) key) (ps_tags prepared);
  mret (mkSetApplied cas (d_previous displaced)).

(** Stores a replacement for a record. *)
Definition rewrite_record (key : bytes) (ts : list TagRef) (meta : RecordMeta) (v : bytes)
    : StoreM T Z :=
  record ← lift_core (encode_record meta ts v);
  applied ← apply_set (mkPreparedSet key record (Some (m_expires_at_ms meta)) Ttl_Keep ts false None);
  mret (sa_cas applied).

(** ** apply_delete *)

Definition apply_delete (key : bytes) : StoreM T bool :=
  displaced ← displace key false false;
  _ ← db_delete Main key;
  mret (d_live displaced).

(** ** apply_conditional_set *)

(** What the guard and the reply need of the live record: its token, flags,
    deadline, and its value if somebody will read it. *)
Abbreviation Existing := (Z * Z * Z * option bytes)%type.

Definition existing_of (found : option Found) (wants_value : bool) : option Existing :=
  (fun r => (cas r, mc_flags r, expires_at_ms r, if wants_value then Some (value r) else None))
    <$> (found ≫= Found_live).

Definition previous_of (existing : option Existing) (return_previous : bool) : option Value :=
  match existing, return_previous with
  | Some (cas, mc_flags, expires_at_ms, Some v), true =>
      Some (mkValue v mc_flags cas (Some expires_at_ms))
  | _, _ => None
  end.

(** The guard: [Some] is the verdict of a refused write. *)
Definition refusal (mode : SetMode) (existing : option Existing) : option Stored :=
  match mode, existing with
  | SetMode_Set, _ => None
  | SetMode_Add, Some _ => Some Stored_NotStored
  | SetMode_Add, None => None
  | SetMode_Replace, None => Some Stored_NotStored
  | SetMode_Replace, Some _ => None
  | (SetMode_Append | SetMode_Prepend), None => Some Stored_NotStored
  | SetMode_Cas _, None => Some Stored_NotFound
  | SetMode_Cas expected, Some (cas, _, _, _) =>
      if negb (cas =? expected) then Some Stored_Exists else None
  | (SetMode_Append | SetMode_Prepend), Some _ => None
  end.

Definition is_concatenating (mode : SetMode) : bool :=
  match mode with SetMode_Append | SetMode_Prepend => true | _ => false end.

(** The record a concatenating write builds onto the existing one. *)
Definition concatenate (prepared : PreparedSet) (mode : SetMode) (existing : option Existing)
    : StoreM T PreparedSet :=
  found ← lift (expect existing "guarded above: concatenation requires an existing record");
  match found with
  | (_, _, _, None) =>
      throw (SE_Corrupt "concatenation reached the writer without the value it builds on")
  | (_, mc_flags, expires_at_ms, Some current) =>
      parsed ← lift_core (RecordRef_parse (ps_record prepared));
      let addition := value parsed in
      let combined := match mode with SetMode_Append => current ++ addition | _ => addition ++ current end in
      _ ← lift_core (validate_value combined (max_value_len cfg));
      r ← get_ram;
      record ← lift_core (encode_record (mkMeta (ram_epoch r) mc_flags expires_at_ms 0)
                            (ps_tags prepared) combined);
      mret (mkPreparedSet (ps_key prepared) record (Some expires_at_ms) (ps_ttl prepared)
              (ps_tags prepared) (ps_return_previous prepared) (ps_pre_read prepared))
  end.

Definition apply_conditional_set (prepared : PreparedSet) (mode : SetMode) : StoreM T Written :=
  let wants_value := ps_return_previous prepared || is_concatenating mode in
  found ← read_for_update (ps_key prepared);
  let rows := (fun f => IndexRows_of (f_record f)) <$> found in
  let existing := existing_of found wants_value in
  let indexed_at := ir_expires_at_ms <$> rows in
  let previous := previous_of existing (ps_return_previous prepared) in
  let pre := mkPreRead rows
    (mkDisplaced (match existing with Some _ => true | None => false end)
       ((fun '(_, _, expires_at_ms, _) => expires_at_ms) <$> existing) previous indexed_at) in
  let prepared := mkPreparedSet (ps_key prepared) (ps_record prepared) (ps_expires_at_ms prepared)
    (ps_ttl prepared) (ps_tags prepared) (ps_return_previous prepared) (Some pre) in
  match refusal mode existing with
  | Some outcome => mret (mkWritten outcome previous)
  | None =>
      prepared ← (if is_concatenating mode then concatenate prepared mode existing else mret prepared);
      applied ← apply_set prepared;
      mret (mkWritten (Stored_Stored (sa_cas applied)) (sa_previous applied))
  end.

(** ** apply_expire *)

Definition expire_applies (guard : ExpireGuard) (current target : Z) : bool :=
  let existing := if negb (current =? NEVER) then Some current else None in
  match guard with
  | Guard_Always => true
  | Guard_IfPersistent => match existing with None => true | Some _ => false end
  | Guard_IfVolatile => match existing with None => false | Some _ => true end
  | Guard_IfLater =>
      match existing with Some at_ms => negb (target =? NEVER) && (at_ms <? target) | None => false end
  | Guard_IfEarlier =>
      negb (target =? NEVER) && match existing with Some at_ms => target <? at_ms | None => true end
  end.

Definition apply_expire (key : bytes) (ttl : TtlChange) (guard : ExpireGuard) : StoreM T bool :=
  found ← live_record key;
  match found with
  | None => mret false
  | Some record =>
      let current := expires_at_ms record in
      let target := deadline_after ttl current in
      if negb (expire_applies guard current target) then mret false
      else if negb (target =? NEVER) && (target <=? now_ms) then apply_delete key
      else
        _ ← rewrite_record key (tags record)
              (mkMeta (h_epoch (header record)) (mc_flags record) target 0) (value record);
        mret true
  end.

(** ** apply_arithmetic *)

Definition apply_arithmetic (op : Arithmetic) : StoreM T (option Applied) :=
  let key := ar_key op in
  existing ← live_record key;
  '(outcome, (ts, flags, current_deadline)) ←
    match existing with
    | Some record =>
        outcome ← lift_core (evaluate op (Some (value record)));
        mret (outcome, (tags record, mc_flags record, expires_at_ms record))
    | None =>
        outcome ← lift_core (evaluate op None);
        mret (outcome, ([], 0, NEVER))
    end;
  match outcome with
  | Outcome_Missing => mret None
  | Outcome_Unchanged applied => mret (Some applied)
  | Outcome_Store text applied =>
      _ ← lift_core (validate_value text (max_value_len cfg));
      r ← get_ram;
      _ ← rewrite_record key ts
            (mkMeta (ram_epoch r) flags (deadline_after (ar_ttl op) current_deadline) 0) text;
      mret (Some applied)
  end.

(** ** apply_append *)

Definition apply_append (key suffix : bytes) : StoreM T Z :=
  existing ← live_record key;
  let '(combined, ts, flags, expires) :=
    match existing with
    | Some record => (value record ++ suffix, tags record, mc_flags record, expires_at_ms record)
    | None => (suffix, [], 0, NEVER)
    end in
  _ ← lift_core (validate_value combined (max_value_len cfg));
  r ← get_ram;
  _ ← rewrite_record key ts (mkMeta (ram_epoch r) flags expires 0) combined;
  mret (len combined).

(** ** apply_touch *)

Definition apply_touch (key : bytes) (ttl_secs : Z) : StoreM T bool :=
  r ← get_ram;
  blob ← db_get Main key;
  match blob with
  | None => mret false
  | Some blob =>
      record ← lift_core (RecordRef_parse blob);
      if negb (alive r record) then mret false
      else
        let expires := expiry_from_ttl now_ms ttl_secs in
        rewritten ← lift_core (encode_record
          (mkMeta (h_epoch (header record)) (mc_flags record) expires 0) (tags record) (value record));
        _ ← apply_set (mkPreparedSet key rewritten (Some expires) (Ttl_Set ttl_secs) (tags record)
                         false None);
        mret true
  end.

(** ** apply_flush *)

Definition apply_flush : StoreM T Z :=
  r ← get_ram;
  let epoch := wrapping 32 (ram_epoch r + 1) in
  _ ← db_put Meta meta_key_EPOCH (le_bytes 4 epoch);
  _ ← db_clear Main;
  _ ← db_clear Exp;
  _ ← db_clear TagIdx;
  _ ← db_clear Jobs;
  mret epoch.

End Apply.
