(* ===== verification/Cache.v ===== *)
(** The rows a record owns, and the invariant that ties the three
    sub-databases of a shard together.

    Every operation on records ([apply.rs], the sweeper, the reclaimer) changes
    the main table and both indexes; the two shapes of change, a record stored
    over whatever was there and a record removed, are defined here on the
    contents of the sub-databases, with what they preserve.

    Then the abstract cache: what each operation on records promises a client,
    stated on the record the client sees and nothing else.

    A specification takes the record under the key as a client sees it (absent
    once it has expired, been flushed or been invalidated) and says what is
    answered and what becomes of the key: nothing, a new record, or removal.
    There are no encodings, index rows, transactions or tokens' block
    reservations here; [ApplySpec.v] proves the storage operations refine it. *)

From S2P Require Import Prelude Bytes Core Record Clock Arith Command Backend IndexKeys Tags Engine.
From S2P Require Import Apply.

(** ** The records a shard holds *)

Definition recs (v : Views) : gmap bytes RecordRef :=
  omap (fun blob => result_ok (RecordRef_parse blob)) (v_main v).

Lemma recs_lookup v k :
  recs v !! k = (blob ← v_main v !! k; result_ok (RecordRef_parse blob)).
Proof. unfold recs. by rewrite lookup_omap. Qed.

Lemma recs_Some v k rec :
  recs v !! k = Some rec <-> exists blob, v_main v !! k = Some blob /\ RecordRef_parse blob = Ok rec.
Proof.
  rewrite recs_lookup. destruct (v_main v !! k) as [blob|]; simpl.
  - split.
    + intros H. exists blob. split; [done|]. destruct (RecordRef_parse blob); naive_solver.
    + by intros (b & [= <-] & ->).
  - split; [done|]. by intros (? & ? & _).
Qed.

Lemma recs_fits v k rec : recs v !! k = Some rec -> fits 64 (expires_at_ms rec).
Proof.
  intros (blob & _ & Hp)%recs_Some. apply parse_fields in Hp as [Hh _].
  by destruct Hh as (_ & _ & _ & _ & _ & H & _).
Qed.

Lemma recs_tag_fits v k rec t : recs v !! k = Some rec -> t ∈ tags rec -> fits 32 (tag_id t).
Proof.
  intros (blob & _ & Hp)%recs_Some Ht. apply parse_fields in Hp as (_ & Htags & _).
  rewrite Forall_forall in Htags. by destruct (Htags t Ht).
Qed.

Section Rows.
Context {HS : Hash}.
Variable g : Z.

(** ** Tag rows *)

Definition del_tag_rows (m : db_map) (k : bytes) (ids : list Z) : db_map :=
  foldl (fun m t => delete (index_key t k) m) m ids.

Definition add_tag_rows (m : db_map) (k : bytes) (ts : list TagRef) : db_map :=
  foldl (fun m t => <[index_key (tag_id t) k := k]> m) m ts.

Lemma del_tag_rows_Some m k ids ik x :
  del_tag_rows m k ids !! ik = Some x <->
  m !! ik = Some x /\ forall t, t ∈ ids -> ik <> index_key t k.
Proof.
  unfold del_tag_rows. revert m. induction ids as [|t ids IH]; intros m; cbn [foldl].
  - split; [intros; split; [done|]|by intros []]. intros t Ht. by apply elem_of_nil in Ht.
  - rewrite IH, lookup_delete_Some. setoid_rewrite elem_of_cons. naive_solver.
Qed.

Lemma add_tag_rows_Some m k ts ik x :
  add_tag_rows m k ts !! ik = Some x <->
  (x = k /\ exists t, t ∈ ts /\ ik = index_key (tag_id t) k)
  \/ (m !! ik = Some x /\ forall t, t ∈ ts -> ik <> index_key (tag_id t) k).
Proof.
  unfold add_tag_rows. revert m. induction ts as [|t ts IH]; intros m; cbn [foldl].
  - setoid_rewrite elem_of_nil. naive_solver.
  - rewrite IH, lookup_insert_Some. setoid_rewrite elem_of_cons.
    destruct (decide (ik = index_key (tag_id t) k)) as [->|Hne]; [|naive_solver].
    destruct (decide (index_key (tag_id t) k ∈ (fun t => index_key (tag_id t) k) <$> ts)) as [Hex|Hex];
      rewrite list_elem_of_fmap in Hex.
    { destruct Hex as (t' & Heq & Ht'). split.
      - intros [[-> ?]|[_ H]]; [left; eauto 7|by destruct (H t' Ht')].
      - intros [[-> ?]|[_ H]]; [left; eauto|]. by destruct (H t' (or_intror Ht')). }
    split.
    + intros [[-> ?]|[[[_ <-]|[? _]] _]]; [naive_solver|left; eauto|done].
    + intros [[-> _]|[_ H]]; [right; split; [by left|]|exfalso; by apply (H t); [left|]].
      intros t' Ht' Heq. apply Hex. eauto.
Qed.

(** ** The two changes *)

Definition old_ids (old : option RecordRef) : list Z :=
  match old with Some o => tag_id <$> tags o | None => [] end.

Definition del_exp_row (m : db_map) (k : bytes) (old : option RecordRef) : db_map :=
  match old with Some o => delete (encode_key (expires_at_ms o) k g) m | None => m end.

Definition same_bucket (old : option RecordRef) (e : Z) : bool :=
  match old with
  | Some o => bucket_for (expires_at_ms o) g =? bucket_for e g
  | None => false
  end.

(** Storing [rec], encoded as [blob], under [k] over [old]. *)
Definition store_rows (v : Views) (k blob : bytes) (rec : RecordRef) (old : option RecordRef) : Views :=
  mkViews (<[k := blob]> (v_main v))
    (if same_bucket old (expires_at_ms rec) then v_exp v
     else <[encode_key (expires_at_ms rec) k g := k]> (del_exp_row (v_exp v) k old))
    (add_tag_rows (del_tag_rows (v_tagidx v) k (old_ids old)) k (tags rec))
    (v_tag_meta v) (v_jobs v) (v_meta v).

(** Removing [old] from under [k], with every row it owned. *)
Definition remove_rows (v : Views) (k : bytes) (old : option RecordRef) : Views :=
  mkViews (delete k (v_main v)) (del_exp_row (v_exp v) k old)
    (del_tag_rows (v_tagidx v) k (old_ids old)) (v_tag_meta v) (v_jobs v) (v_meta v).

(** ** The invariant

    Every blob parses; every row of either index has the shape the codecs
    give it; and every record is indexed: by its bucket, and by each tag. *)

Record Inv (v : Views) : Prop := {
  inv_main k blob : v_main v !! k = Some blob -> exists rec, RecordRef_parse blob = Ok rec;
  inv_exp_shape ik k : v_exp v !! ik = Some k ->
    exists b, fits 64 b /\ ik = be_bytes 8 b ++ be_bytes 8 (xxh3_64 k);
  inv_exp_cover k rec : recs v !! k = Some rec ->
    v_exp v !! encode_key (expires_at_ms rec) k g = Some k;
  inv_tag_shape ik k : v_tagidx v !! ik = Some k -> exists t, fits 32 t /\ ik = index_key t k;
  inv_tag_cover k rec t : recs v !! k = Some rec -> t ∈ tags rec ->
    v_tagidx v !! index_key (tag_id t) k = Some k
}.

(** No litter: every row of either index describes a record that is there. *)
Record Tight (v : Views) : Prop := {
  tight_exp ik k : v_exp v !! ik = Some k ->
    exists rec, recs v !! k = Some rec /\ ik = encode_key (expires_at_ms rec) k g;
  tight_tag ik k : v_tagidx v !! ik = Some k ->
    exists rec t, recs v !! k = Some rec /\ t ∈ tags rec /\ ik = index_key (tag_id t) k
}.

(** The keys the shard holds a record under. *)
Definition held (v : Views) (k : bytes) : Prop := is_Some (v_main v !! k).

Lemma inv_recs_None v k : Inv v -> recs v !! k = None <-> v_main v !! k = None.
Proof.
  intros Hi. rewrite recs_lookup. destruct (v_main v !! k) as [blob|] eqn:E; [|done].
  destruct (inv_main v Hi _ _ E) as [rec Hr]. cbn [mbind option_bind]. by rewrite Hr.
Qed.

Lemma recs_held v k rec : recs v !! k = Some rec -> held v k.
Proof. intros (blob & H & _)%recs_Some. by exists blob. Qed.

Lemma recs_store v k blob rec old :
  RecordRef_parse blob = Ok rec -> recs (store_rows v k blob rec old) = <[k := rec]> (recs v).
Proof.
  intros Hp. unfold recs, store_rows. cbn [v_main].
  apply omap_insert_Some. cbv beta. by rewrite Hp.
Qed.

Lemma recs_remove v k old : recs (remove_rows v k old) = delete k (recs v).
Proof. unfold recs, remove_rows. cbn [v_main]. by rewrite omap_delete. Qed.

Lemma del_exp_row_Some m k old ik x :
  del_exp_row m k old !! ik = Some x <->
  m !! ik = Some x /\ forall o, old = Some o -> ik <> encode_key (expires_at_ms o) k g.
Proof.
  unfold del_exp_row. destruct old as [o|]; [|naive_solver].
  rewrite lookup_delete_Some. naive_solver.
Qed.

Lemma encode_key_shape e k :
  fits 64 e -> exists b, fits 64 b /\ encode_key e k g = be_bytes 8 b ++ be_bytes 8 (xxh3_64 k).
Proof. intros He. exists (bucket_for e g). split; [eauto with vash|done]. Qed.

(** Rows of different keys are different, hash permitting. *)
Lemma encode_key_ne v k k' e e' :
  separates k (held v) -> held v k' -> k' <> k -> fits 64 e -> fits 64 e' ->
  encode_key e' k' g <> encode_key e k g.
Proof. intros Hs Hh Hne He He' H. apply encode_key_eq in H as [_ H]; auto. Qed.

Lemma index_key_ne v k k' t t' :
  separates k (held v) -> held v k' -> k' <> k -> fits 32 t -> fits 32 t' ->
  index_key t' k' <> index_key t k.
Proof. intros Hs Hh Hne He He' H. apply index_key_eq in H as [_ H]; auto. Qed.

Lemma store_rows_Inv v k blob rec old :
  Inv v -> old = recs v !! k -> RecordRef_parse blob = Ok rec -> separates k (held v) ->
  Inv (store_rows v k blob rec old).
Proof.
  intros Hi Hold Hp Hsep.
  destruct (parse_fields _ _ Hp) as (Hh & Htags & _).
  assert (fits 64 (expires_at_ms rec)) as Hfe by (by destruct Hh as (_ & _ & _ & _ & _ & H & _)).
  rewrite Forall_forall in Htags.
  constructor; rewrite ?(recs_store v k blob rec old) by done; unfold store_rows;
    cbn [v_main v_exp v_tagidx].
  - intros k' b. rewrite lookup_insert_Some. intros [[<- <-]|[_ H]]; [eauto|].
    by eapply inv_main.
  - intros ik k' H. case_match; [by eapply inv_exp_shape|].
    apply lookup_insert_Some in H as [[<- <-]|[_ [H _]%del_exp_row_Some]];
      [by apply encode_key_shape|by eapply inv_exp_shape].
  - intros k' rec'. rewrite lookup_insert_Some. intros [[<- <-]|[Hne H]].
    + destruct (same_bucket old (expires_at_ms rec)) eqn:Es; [|by rewrite lookup_insert_eq].
      unfold same_bucket in Es. destruct old as [o|]; [|done]. apply Z.eqb_eq in Es.
      symmetry in Hold. pose proof (inv_exp_cover v Hi _ _ Hold) as Hc.
      unfold encode_key in *. by rewrite <- Es.
    + pose proof (inv_exp_cover v Hi _ _ H) as Hc. case_match; [done|].
      pose proof (recs_held _ _ _ H). pose proof (recs_fits _ _ _ H).
      rewrite lookup_insert_ne by (apply not_eq_sym; eapply encode_key_ne; eauto).
      apply del_exp_row_Some. split; [done|]. intros o ->. symmetry in Hold.
      eapply encode_key_ne; eauto. by eapply recs_fits.
  - intros ik k' [(-> & t & Ht & ->)|[[H _]%del_tag_rows_Some _]]%add_tag_rows_Some.
    + exists (tag_id t). split; [by destruct (Htags t Ht)|done].
    + by eapply inv_tag_shape.
  - intros k' rec' t. rewrite lookup_insert_Some. intros [[<- <-]|[Hne H]] Ht; apply add_tag_rows_Some.
    + left. eauto.
    + pose proof (recs_held _ _ _ H). pose proof (recs_tag_fits _ _ _ _ H Ht).
      right. split; [apply del_tag_rows_Some; split|].
      * by eapply inv_tag_cover.
      * intros t' Ht'. eapply index_key_ne; eauto. destruct old as [o|]; [|by apply elem_of_nil in Ht'].
        apply list_elem_of_fmap in Ht' as (t0 & -> & Ht0). symmetry in Hold. exact (recs_tag_fits _ _ _ _ Hold Ht0).
      * intros t' Ht'. eapply index_key_ne; eauto. by destruct (Htags t' Ht').
Qed.

Lemma store_rows_Tight v k blob rec old :
  Tight v -> old = recs v !! k -> RecordRef_parse blob = Ok rec ->
  Tight (store_rows v k blob rec old).
Proof.
  intros Ht Hold Hp.
  constructor; rewrite ?(recs_store v k blob rec old) by done; unfold store_rows;
    cbn [v_main v_exp v_tagidx].
  - intros ik x. setoid_rewrite lookup_insert_Some.
    destruct (same_bucket old (expires_at_ms rec)) eqn:Es.
    + intros H. destruct (tight_exp v Ht _ _ H) as (r0 & Hr & ->).
      destruct (decide (k = x)) as [->|]; [|eauto 7].
      exists rec. split; [by left|]. rewrite Hr in Hold. subst old. simpl in Es.
      apply Z.eqb_eq in Es. unfold encode_key. by rewrite Es.
    + rewrite lookup_insert_Some. intros [[<- <-]|[_ [H Hne]%del_exp_row_Some]]; [eauto|].
      destruct (tight_exp v Ht _ _ H) as (r0 & Hr & ->).
      destruct (decide (k = x)) as [->|]; [|eauto 7].
      exfalso. by apply (Hne r0); [congruence|].
  - intros ik x. setoid_rewrite lookup_insert_Some.
    intros [(-> & t & Hin & ->)|[[H Hne]%del_tag_rows_Some _]]%add_tag_rows_Some; [eauto 7|].
    destruct (tight_tag v Ht _ _ H) as (r0 & t & Hr & Hin & ->).
    destruct (decide (k = x)) as [->|]; [|eauto 9].
    exfalso. rewrite Hr in Hold. subst old. apply (Hne (tag_id t)); [|done].
    simpl. apply list_elem_of_fmap. eauto.
Qed.

Lemma remove_rows_Inv v k old : Inv v -> old = recs v !! k -> Inv (remove_rows v k old).
Proof.
  intros Hi Hold.
  constructor; rewrite ?recs_remove; unfold remove_rows; cbn [v_main v_exp v_tagidx].
  - intros k' b [_ H]%lookup_delete_Some. by eapply inv_main.
  - intros ik k' [H _]%del_exp_row_Some. by eapply inv_exp_shape.
  - intros k' rec' [Hne H]%lookup_delete_Some. pose proof (inv_exp_cover v Hi _ _ H) as Hc.
    apply del_exp_row_Some. split; [done|]. intros o -> Heq. symmetry in Hold.
    pose proof (inv_exp_cover v Hi _ _ Hold) as Hc'. congruence.
  - intros ik k' [H _]%del_tag_rows_Some. by eapply inv_tag_shape.
  - intros k' rec' t [Hne H]%lookup_delete_Some Ht.
    pose proof (inv_tag_cover v Hi _ _ _ H Ht) as Hc.
    apply del_tag_rows_Some. split; [done|]. intros t' Ht' Heq.
    destruct old as [o|]; [|by apply elem_of_nil in Ht'].
    apply list_elem_of_fmap in Ht' as (t0 & -> & Ht0). symmetry in Hold.
    pose proof (inv_tag_cover v Hi _ _ _ Hold Ht0) as Hc'. congruence.
Qed.

Lemma remove_rows_Tight v k old : Tight v -> old = recs v !! k -> Tight (remove_rows v k old).
Proof.
  intros Ht Hold.
  constructor; rewrite ?recs_remove; unfold remove_rows; cbn [v_main v_exp v_tagidx].
  - intros ik x [H Hne]%del_exp_row_Some. destruct (tight_exp v Ht _ _ H) as (r0 & Hr & ->).
    destruct (decide (k = x)) as [->|].
    + exfalso. by apply (Hne r0); [congruence|].
    + exists r0. by rewrite lookup_delete_ne.
  - intros ik x [H Hne]%del_tag_rows_Some.
    destruct (tight_tag v Ht _ _ H) as (r0 & t & Hr & Hin & ->).
    destruct (decide (k = x)) as [->|].
    + exfalso. rewrite Hr in Hold. subst old. apply (Hne (tag_id t)); [|done].
      simpl. apply list_elem_of_fmap. eauto.
    + exists r0, t. by rewrite lookup_delete_ne.
Qed.

Lemma empty_Inv v : v_main v = ∅ -> v_exp v = ∅ -> v_tagidx v = ∅ -> Inv v /\ Tight v.
Proof.
  intros H1 H2 H3. assert (forall k, recs v !! k = None) as Hr.
  { intros k. by rewrite recs_lookup, H1, lookup_empty. }
  split; constructor; rewrite ?H1, ?H2, ?H3; intros *; rewrite ?lookup_empty, ?Hr; done.
Qed.

End Rows.

Inductive Change : Type :=
| Keep
| Store (rec : RecordRef)
| Remove.

Abbreviation Verdict A := (Result StoreError (Change * A)).

Section Spec.
Context {FT : FloatText}.
Variable cfg : Config.
Variable now_ms : Z.
Variable epoch : Z.
Variable tok : Z.                      (** the token this write is stamped with *)

(** The record a write stores. *)
Definition new_record (ep flags expires : Z) (ts : list TagRef) (v : bytes) : RecordRef :=
  record_of (mkMeta ep flags expires tok) ts v.

(** A prepared record, stamped with its token and with its deadline settled
    against the record it replaces. *)
Definition settle (p : PreparedSet) (rec0 : RecordRef) (seen : option RecordRef) : RecordRef :=
  match ps_expires_at_ms p with
  | Some _ => set_cas rec0 tok
  | None =>
      set_expiry (set_cas rec0 tok)
        (deadline_after now_ms (ps_ttl p) (default NEVER (expires_at_ms <$> seen)))
  end.

Definition spec_set (p : PreparedSet) (rec0 : RecordRef) (seen : option RecordRef)
    : Verdict SetApplied :=
  Ok (Store (settle p rec0 seen),
      mkSetApplied tok (if ps_return_previous p then value_of <$> seen else None)).

Definition spec_delete (seen : option RecordRef) : Verdict bool :=
  Ok (Remove, bool_decide (is_Some seen)).

(** The conditional modes; a refused write still answers with what is there. *)
Definition spec_conditional (p : PreparedSet) (rec0 : RecordRef) (mode : SetMode)
    (seen : option RecordRef) : Verdict Written :=
  let previous := if ps_return_previous p then value_of <$> seen else None in
  let stored rec := Ok (Store rec, mkWritten (Stored_Stored tok) previous) in
  let concat old v :=
    if max_value_len cfg <? len v then Err (SE_Core (ValueTooLarge (len v) (max_value_len cfg)))
    else stored (new_record epoch (mc_flags old) (expires_at_ms old) (ps_tags p) v) in
  match mode, seen with
  | SetMode_Set, _ => stored (settle p rec0 seen)
  | SetMode_Add, None => stored (settle p rec0 seen)
  | SetMode_Add, Some _ => Ok (Keep, mkWritten Stored_NotStored previous)
  | SetMode_Replace, Some _ => stored (settle p rec0 seen)
  | SetMode_Replace, None => Ok (Keep, mkWritten Stored_NotStored previous)
  | SetMode_Append, Some old => concat old (value old ++ value rec0)
  | SetMode_Prepend, Some old => concat old (value rec0 ++ value old)
  | (SetMode_Append | SetMode_Prepend), None => Ok (Keep, mkWritten Stored_NotStored previous)
  | SetMode_Cas _, None => Ok (Keep, mkWritten Stored_NotFound previous)
  | SetMode_Cas expected, Some old =>
      if cas old =? expected then stored (settle p rec0 seen)
      else Ok (Keep, mkWritten Stored_Exists previous)
  end.

(** A new deadline, under a guard; one that has passed removes the key. *)
Definition spec_expire (ttl : TtlChange) (guard : ExpireGuard) (seen : option RecordRef)
    : Verdict bool :=
  match seen with
  | None => Ok (Keep, false)
  | Some r =>
      let target := deadline_after now_ms ttl (expires_at_ms r) in
      if negb (expire_applies guard (expires_at_ms r) target) then Ok (Keep, false)
      else if negb (target =? NEVER) && (target <=? now_ms) then Ok (Remove, true)
      else Ok (Store (new_record (h_epoch (header r)) (mc_flags r) target (tags r) (value r)), true)
  end.

Definition spec_arithmetic (op : Arithmetic) (seen : option RecordRef) : Verdict (option Applied) :=
  outcome ← map_err SE_Core (evaluate op (value <$> seen));
  match outcome with
  | Outcome_Missing => Ok (Keep, None)
  | Outcome_Unchanged applied => Ok (Keep, Some applied)
  | Outcome_Store text applied =>
      if max_value_len cfg <? len text
      then Err (SE_Core (ValueTooLarge (len text) (max_value_len cfg)))
      else
        Ok (Store (match seen with
                   | Some r => new_record epoch (mc_flags r)
                                 (deadline_after now_ms (ar_ttl op) (expires_at_ms r)) (tags r) text
                   | None => new_record epoch 0 (deadline_after now_ms (ar_ttl op) NEVER) [] text
                   end), Some applied)
  end.

Definition spec_append (suffix : bytes) (seen : option RecordRef) : Verdict Z :=
  let v := default [] (value <$> seen) ++ suffix in
  if max_value_len cfg <? len v then Err (SE_Core (ValueTooLarge (len v) (max_value_len cfg)))
  else
    Ok (Store (match seen with
               | Some r => new_record epoch (mc_flags r) (expires_at_ms r) (tags r) v
               | None => new_record epoch 0 NEVER [] v
               end), len v).

Definition spec_touch (ttl_secs : Z) (seen : option RecordRef) : Verdict bool :=
  match seen with
  | None => Ok (Keep, false)
  | Some r =>
      Ok (Store (new_record (h_epoch (header r)) (mc_flags r) (expiry_from_ttl now_ms ttl_secs)
                   (tags r) (value r)), true)
  end.

End Spec.

(** ** Connecting a verdict to a shard's state *)

Section Changed.
Context {HS : Hash}.
Variable cfg : Config.

(** The token the next write gets, and what handing it out does. *)
Definition cas_counter (r : Ram) : Z := wrapping 64 (ram_cas_next r + 1).

Definition cas_token (r : Ram) : Z :=
  wrapping 64 (cas_counter r * shard_count cfg + shard_index cfg).

Definition cas_extends (r : Ram) : bool := ram_cas_watermark r <=? cas_counter r.

Definition cas_reserve (r : Ram) : Z := wrapping 64 (cas_counter r + CAS_BLOCK).

Definition cas_ram (r : Ram) : Ram :=
  let r' := set_cas_next r (cas_counter r) in
  if cas_extends r then set_cas_watermark r' (cas_reserve r) else r'.

Definition cas_views (v : Views) (r : Ram) : Views :=
  if cas_extends r then vput v Meta meta_key_CAS_WATERMARK (le_bytes 8 (cas_reserve r)) else v.

(** [v'], [r'] is [v], [r] after [ch] happened to [k]; in every case the index
    invariant survives, and the tag registry's rows, the jobs and the published
    RAM are not touched. *)
Definition changed (k : bytes) (ch : Change) (v : Views) (r : Ram) (v' : Views) (r' : Ram) : Prop :=
  match ch with
  | Keep => v' = v /\ r' = r
  | Store rec =>
      recs v' = <[k := rec]> (recs v) /\ v_meta v' = v_meta (cas_views v r) /\ r' = cas_ram r
  | Remove => recs v' = delete k (recs v) /\ v_meta v' = v_meta v /\ r' = r
  end
  /\ v_tag_meta v' = v_tag_meta v /\ v_jobs v' = v_jobs v
  /\ Inv (bucket_granularity_ms cfg) v'
  /\ (Tight (bucket_granularity_ms cfg) v -> Tight (bucket_granularity_ms cfg) v').

End Changed.

(** The record a client sees under a key. *)
Definition seen (now_ms : Z) (v : Views) (r : Ram) (k : bytes) : option RecordRef :=
  rec ← recs v !! k; if alive now_ms r rec then Some rec else None.

(** A run's outcome agrees with a verdict. *)
Definition answers {HS : Hash} (cfg : Config) (k : bytes) {A} (verdict : Verdict A)
    (v : Views) (r : Ram) (a : A) (v' : Views) (r' : Ram) : Prop :=
  exists ch, verdict = Ok (ch, a) /\ changed cfg k ch v r v' r'.

Definition refuses {A} (verdict : Verdict A) (v : Views) (r : Ram)
    (e : StoreError) (v' : Views) (r' : Ram) : Prop :=
  verdict = Err e /\ v' = v /\ r' = r.
