(* ===== verification/ApplySpec.v ===== *)
(** The operations of [Apply.v] refine the abstract cache of [Cache.v]: on any
    engine that keeps the backend laws, from any shard whose indexes are in
    order, each operation answers what the specification says, changes the key
    it names as the specification says, and leaves the indexes in order. *)

From S2P Require Import Prelude Bytes Core Record Clock Arith Command Backend.
From S2P Require Import IndexKeys Tags Engine Apply Cache.

Section Spec.
Context {T : Type} {BT : Backend T} {BL : BackendLaws T} {HS : Hash} {FT : FloatText}.
Variable cfg : Config.
Variable now_ms : Z.

Abbreviation g := (bucket_granularity_ms cfg).

(** ** Tokens *)

Lemma wp_next_cas Q Qe v r :
  Q (cas_token cfg r) (cas_views v r) (cas_ram r) -> wp (next_cas cfg (T:=T)) Q Qe v r.
Proof.
  intros H. unfold next_cas. do 4 wp_step; [frame|].
  unfold cas_views, cas_ram, cas_extends, cas_reserve, cas_token, cas_counter in H.
  wp_step. case_match; repeat wp_step; [frame|exact H|exact H].
Qed.

Lemma recs_cas_views v r : recs (cas_views v r) = recs v.
Proof. unfold cas_views. by case_match. Qed.

Lemma Inv_cas_views v r : Inv g v -> Inv g (cas_views v r).
Proof.
  intros Hi. destruct Hi. unfold cas_views. case_match; by constructor.
Qed.

Lemma Tight_cas_views v r : Tight g v -> Tight g (cas_views v r).
Proof.
  intros Hi. destruct Hi. unfold cas_views. case_match; by constructor.
Qed.

(** ** Clearing rows *)

Lemma wp_clear_tag_rows k rows Q Qe v r :
  Q () (vset v TagIdx (del_tag_rows (v_tagidx v) k (ir_tag_ids rows))) r ->
  wp (clear_tag_rows (T:=T) k rows) Q Qe v r.
Proof.
  intros H. unfold clear_tag_rows.
  apply wp_for_each with (g := fun v t => vdel v TagIdx (index_key t k)).
  - intros x v' P _ HP. by repeat wp_step.
  - assert (forall ids v, foldl (fun v t => vdel v TagIdx (index_key t k)) v ids
        = vset v TagIdx (del_tag_rows (v_tagidx v) k ids)) as ->; [|done].
    induction ids as [|t ids IH]; intros w; cbn [foldl]; [by destruct w|]. by rewrite IH.
Qed.

Lemma wp_add_tag_rows k ts Q Qe v r :
  Q () (vset v TagIdx (add_tag_rows (v_tagidx v) k ts)) r ->
  wp (for_each (fun tag => db_put (T:=T) TagIdx (index_key (tag_id tag) k) k) ts) Q Qe v r.
Proof.
  intros H.
  apply wp_for_each with (g := fun v t => vput v TagIdx (index_key (tag_id t) k) k).
  - intros x v' P _ HP. by repeat wp_step.
  - assert (forall ts v, foldl (fun v t => vput v TagIdx (index_key (tag_id t) k) k) v ts
        = vset v TagIdx (add_tag_rows (v_tagidx v) k ts)) as ->; [|done].
    induction ts0 as [|t ts0 IH]; intros w; cbn [foldl]; [by destruct w|]. by rewrite IH.
Qed.

(** ** Reading the record being replaced *)

Lemma Inv_old v k :
  Inv g v ->
  match v_main v !! k with
  | None => recs v !! k = None
  | Some blob => exists o, RecordRef_parse blob = Ok o /\ recs v !! k = Some o
  end.
Proof.
  intros Hi. rewrite recs_lookup. destruct (v_main v !! k) as [blob|] eqn:E; [|done].
  destruct (inv_main _ _ Hi _ _ E) as [o Ho]. exists o. simpl. by rewrite Ho.
Qed.

(** What [displace] reports of the record it found. *)
Definition displaced_of (r : Ram) (old : option RecordRef) (want_value : bool) : Displaced :=
  match old with
  | None => Displaced_default
  | Some o =>
      let live := alive now_ms r o in
      mkDisplaced live (if live then Some (expires_at_ms o) else None)
        (if live && want_value then Some (value_of o) else None) (Some (expires_at_ms o))
  end.

Lemma vset_tagidx_None v k : vset v TagIdx (del_tag_rows (v_tagidx v) k (old_ids None)) = v.
Proof. by destruct v. Qed.

Lemma wp_displace k want (keep : bool) Q Qe v r :
  Inv g v ->
  let v1 := if keep then v else vset v Exp (del_exp_row g (v_exp v) k (recs v !! k)) in
  Q (displaced_of r (recs v !! k) want)
    (vset v1 TagIdx (del_tag_rows (v_tagidx v) k (old_ids (recs v !! k)))) r ->
  wp (displace (T:=T) cfg now_ms k want keep) Q Qe v r.
Proof.
  intros Hi v1 H. subst v1. unfold displace. do 2 wp_step. pose proof (Inv_old v k Hi) as Ho.
  cbn [vget]. destruct (v_main v !! k) as [blob|].
  - destruct Ho as (o & Hp & Ho). rewrite Ho in *. do 2 wp_step. rewrite Hp. do 3 wp_step.
    destruct keep; cbn [displaced_of] in H.
    + apply wp_clear_tag_rows. by wp_step.
    + unfold clear_index_rows, clear_expiry_row. repeat wp_step.
      apply wp_clear_tag_rows. by wp_step.
  - rewrite Ho in H. wp_step. destruct keep; by destruct v.
Qed.

Lemma wp_read_for_update k Q Qe v r :
  Inv g v -> Q ((fun o => mkFound o (alive now_ms r o)) <$> recs v !! k) v r ->
  wp (read_for_update (T:=T) now_ms k) Q Qe v r.
Proof.
  intros Hi H. unfold read_for_update. do 2 wp_step. pose proof (Inv_old v k Hi) as Ho.
  cbn [vget]. destruct (v_main v !! k) as [blob|].
  - destruct Ho as (o & Hp & Ho). rewrite Ho in *. do 2 wp_step. rewrite Hp. by repeat wp_step.
  - rewrite Ho in H. by wp_step.
Qed.

Lemma wp_live_record k Q Qe v r :
  Inv g v -> Q (seen now_ms v r k) v r -> wp (live_record (T:=T) now_ms k) Q Qe v r.
Proof.
  intros Hi H. unfold live_record. wp_step. apply wp_read_for_update; [done|]. wp_step.
  unfold seen in H. destruct (recs v !! k); exact H.
Qed.

Lemma displaced_cas_ram r old want :
  displaced_of (cas_ram r) old want = displaced_of r old want.
Proof.
  unfold displaced_of, alive, cas_ram. by destruct (cas_extends r).
Qed.

(** ** Storing *)

(** A prepared write is sound: its bytes are the record [rec0], with the tags
    it lists and the deadline it has settled, if it has. *)
Definition ttl_ok (ttl : TtlChange) : Prop :=
  match ttl with Ttl_Keep => True | Ttl_Set s | Ttl_SetIfPersistent s => fits 32 s end.

Definition prepared_ok (p : PreparedSet) (rec0 : RecordRef) : Prop :=
  RecordRef_parse (ps_record p) = Ok rec0
  /\ tags rec0 = ps_tags p
  /\ (forall e, ps_expires_at_ms p = Some e -> expires_at_ms rec0 = e)
  /\ ttl_ok (ps_ttl p).

(** A read carried into [apply_set] is the read it would have made itself. *)
Definition pre_read_ok (v : Views) (r : Ram) (p : PreparedSet) : Prop :=
  match ps_pre_read p with
  | None => True
  | Some pre =>
      pr_rows pre = IndexRows_of <$> recs v !! ps_key p
      /\ pr_displaced pre = displaced_of r (recs v !! ps_key p) (ps_return_previous p)
  end.

Lemma deadline_after_fits ttl e :
  fits 64 now_ms -> ttl_ok ttl -> fits 64 e -> fits 64 (deadline_after now_ms ttl e).
Proof.
  intros Hn Ht He. destruct ttl; simpl in *; [done|by apply expiry_from_ttl_fits|].
  case_match; [by apply expiry_from_ttl_fits|done].
Qed.

Lemma seen_fits v r k :
  fits 64 (default NEVER (expires_at_ms <$> seen now_ms v r k)).
Proof.
  unfold seen. destruct (recs v !! k) as [o|] eqn:E; simpl; [|unfold NEVER; width].
  case_match; simpl; [by eapply recs_fits|unfold NEVER; width].
Qed.

Lemma d_deadline_seen v r k want :
  d_deadline (displaced_of r (recs v !! k) want) = expires_at_ms <$> seen now_ms v r k.
Proof. unfold seen. destruct (recs v !! k); simpl; [|done]. by case_match. Qed.

Lemma d_previous_seen v r k want :
  d_previous (displaced_of r (recs v !! k) want)
  = if want then value_of <$> seen now_ms v r k else None.
Proof.
  unfold seen. destruct (recs v !! k); simpl; [|by destruct want].
  by destruct (alive _ _ _), want.
Qed.

Lemma d_live_seen v r k want :
  d_live (displaced_of r (recs v !! k) want) = bool_decide (is_Some (seen now_ms v r k)).
Proof.
  unfold seen. destruct (recs v !! k); simpl; [|done]. by case_match.
Qed.

Lemma settle_fields p rec0 s tok :
  prepared_ok p rec0 -> tags (settle now_ms tok p rec0 s) = ps_tags p.
Proof. intros (_ & H & _). unfold settle. by case_match. Qed.

(** The two halves of [apply_set] that depend on how the write was prepared:
    what it displaces, and what deadline it settles on. *)
Lemma wp_displaced_part p Q Qe v r :
  Inv g v -> pre_read_ok v r p ->
  let k := ps_key p in
  let w := cas_views v r in
  Q (displaced_of r (recs v !! k) (ps_return_previous p))
    (vset w TagIdx (del_tag_rows (v_tagidx w) k (old_ids (recs v !! k)))) (cas_ram r) ->
  wp (T:=T)
    (match ps_pre_read p with
     | None => displace cfg now_ms k (ps_return_previous p) true
     | Some pre =>
         _ ← match pr_rows pre with Some rows => clear_tag_rows k rows | None => mret () end;
         mret (pr_displaced pre)
     end) Q Qe w (cas_ram r).
Proof.
  intros Hi Hpre k w HQ. unfold pre_read_ok in Hpre. destruct (ps_pre_read p) as [pre|].
  - destruct Hpre as [-> Hd]. wp_step. rewrite Hd. fold k in HQ |- *.
    destruct (recs v !! k) as [o|]; cbn [fmap option_fmap option_map].
    + apply wp_clear_tag_rows. by wp_step.
    + do 2 wp_step. by rewrite vset_tagidx_None in HQ.
  - apply wp_displace; [by apply Inv_cas_views|]. subst w. by rewrite recs_cas_views, displaced_cas_ram.
Qed.

Lemma wp_settle_part p rec0 b1 tok k want Q Qe v r w r' :
  fits 64 now_ms -> prepared_ok p rec0 -> RecordRef_parse b1 = Ok (set_cas rec0 tok) ->
  let s := seen now_ms v r k in
  let rec := settle now_ms tok p rec0 s in
  let resolved := deadline_after now_ms (ps_ttl p)
    (default NEVER (d_deadline (displaced_of r (recs v !! k) want))) in
  (forall b2, RecordRef_parse b2 = Ok rec -> Q (b2, expires_at_ms rec) w r') ->
  wp (T:=T)
    (match ps_expires_at_ms p with
     | Some resolved => mret (b1, resolved)
     | None => record ← lift_core (patch_expiry b1 resolved); mret (record, resolved)
     end) Q Qe w r'.
Proof.
  intros Hn (Hp & Htags & Hexp & Httl) Hp1 s rec resolved HQ. subst rec. unfold settle in *.
  destruct (ps_expires_at_ms p) as [e|].
  - wp_step. rewrite <- (Hexp e eq_refl). by apply (HQ b1).
  - do 2 wp_step. subst resolved. rewrite d_deadline_seen. fold s.
    destruct (patch_expiry_parse _ _
      (deadline_after now_ms (ps_ttl p) (default NEVER (expires_at_ms <$> s))) Hp1)
      as (b2 & -> & Hp2).
    { apply deadline_after_fits; [done..|]. apply seen_fits. }
    cbn [map_err]. wp_step. by apply (HQ b2).
Qed.

(** The effect of [apply_set], for any continuation. *)
Lemma wp_apply_set p rec0 Q Qe v r :
  fits 64 now_ms -> Inv g v -> prepared_ok p rec0 -> pre_read_ok v r p ->
  let k := ps_key p in
  let s := seen now_ms v r k in
  let rec := settle now_ms (cas_token cfg r) p rec0 s in
  (forall blob, RecordRef_parse blob = Ok rec ->
     Q (mkSetApplied (cas_token cfg r) (if ps_return_previous p then value_of <$> s else None))
       (store_rows g (cas_views v r) k blob rec (recs v !! k)) (cas_ram r)) ->
  wp (apply_set (T:=T) cfg now_ms p) Q Qe v r.
Proof.
  intros Hn Hi Hok Hpre k s rec HQ. pose proof (proj1 Hok) as Hp.
  unfold apply_set. wp_step. apply wp_next_cas. do 2 wp_step.
  destruct (patch_cas_parse _ _ (cas_token cfg r) Hp) as (b1 & -> & Hp1).
  { apply wrapping_fits. lia. }
  cbn [map_err]. wp_step. apply wp_displaced_part; [done..|]. fold k. wp_step.
  eapply wp_settle_part; [done|exact Hok|exact Hp1|]. fold s rec. intros b2 Hp2. do 2 wp_step.
  specialize (HQ b2 Hp2). rewrite <- (d_previous_seen v r k) in HQ.
  assert (ps_tags p = tags rec) as -> by (symmetry; by eapply settle_fields).
  unfold store_rows, same_bucket, del_exp_row in HQ. unfold granularity, clear_expiry_row.
  destruct (recs v !! k) as [o|]; cbn [displaced_of Displaced_default d_indexed_at] in *.
  - destruct (bucket_for _ _ =? _); cbn [negb]; repeat wp_step; apply wp_add_tag_rows; by wp_step.
  - cbn [negb]. repeat wp_step. apply wp_add_tag_rows. by wp_step.
Qed.

(** ** From effects on rows to changes of the cache *)

Lemma changed_store v r k blob rec :
  Inv g v -> separates k (held v) -> RecordRef_parse blob = Ok rec ->
  changed cfg k (Store rec) v r (store_rows g (cas_views v r) k blob rec (recs v !! k)) (cas_ram r).
Proof.
  intros Hi Hs Hp. rewrite <- (recs_cas_views v r) at 1.
  unfold changed. conjs; [..|].
  - by rewrite recs_store, recs_cas_views.
  - done.
  - done.
  - unfold store_rows, cas_views. by case_match.
  - unfold store_rows, cas_views. by case_match.
  - apply store_rows_Inv; [by apply Inv_cas_views|done|done|].
    unfold separates, held, cas_views in *. by case_match.
  - intros Ht. apply store_rows_Tight; [by apply Tight_cas_views|done|done].
Qed.

Lemma changed_remove v r k :
  Inv g v -> changed cfg k Remove v r (remove_rows g v k (recs v !! k)) r.
Proof.
  intros Hi. unfold changed. conjs; try done.
  - apply recs_remove.
  - by apply remove_rows_Inv.
  - intros Ht. by apply remove_rows_Tight.
Qed.

Lemma changed_keep v r k : Inv g v -> changed cfg k Keep v r v r.
Proof. by unfold changed. Qed.

(** A prepared write, refined. *)
Lemma wp_apply_set_spec p rec0 v r :
  fits 64 now_ms -> Inv g v -> prepared_ok p rec0 -> pre_read_ok v r p ->
  separates (ps_key p) (held v) ->
  let verdict := spec_set now_ms (cas_token cfg r) p rec0 (seen now_ms v r (ps_key p)) in
  wp (apply_set (T:=T) cfg now_ms p) (answers cfg (ps_key p) verdict v r)
    (refuses verdict v r) v r.
Proof.
  intros Hn Hi Hok Hpre Hs verdict. eapply wp_apply_set; [done..|]. intros blob Hp.
  eexists. split; [done|]. by apply changed_store.
Qed.

(** [rewrite_record] of a record's own parts. *)
Lemma wp_rewrite k ts m val (Q : Z -> Views -> Ram -> Prop) Qe v r :
  fits 64 now_ms -> Inv g v -> separates k (held v) ->
  meta_ok m -> Forall tag_ok ts -> len ts <= ABSOLUTE_MAX_TAGS ->
  (forall v' r', changed cfg k
     (Store (new_record (cas_token cfg r) (m_epoch m) (m_mc_flags m) (m_expires_at_ms m) ts val))
     v r v' r' -> Q (cas_token cfg r) v' r') ->
  wp (rewrite_record (T:=T) cfg now_ms k ts m val) Q Qe v r.
Proof.
  intros Hn Hi Hs Hm Hts Hl HQ. unfold rewrite_record. do 2 wp_step.
  rewrite encode_record_ok by done. cbn [map_err]. wp_step.
  eapply wp_apply_set with (rec0 := record_of m ts val); [done|done| |done|].
  - split_and!; [by apply record_of_parse|done| |done]. by intros e [= <-].
  - intros blob Hp. wp_step. by apply HQ, changed_store.
Qed.

(** What a record that was parsed guarantees of its parts. *)
Lemma seen_parts v r k o :
  seen now_ms v r k = Some o ->
  fits 32 (h_epoch (header o)) /\ fits 32 (mc_flags o) /\ fits 64 (expires_at_ms o)
  /\ Forall tag_ok (tags o) /\ len (tags o) <= ABSOLUTE_MAX_TAGS.
Proof.
  unfold seen. destruct (recs v !! k) as [o'|] eqn:E; [|done]. simpl. case_match; [|done].
  intros [= <-]. apply recs_Some in E as (b & _ & Hp).
  apply parse_fields in Hp as (Hh & Ht & Hl). destruct Hh as (_ & _ & _ & H1 & H2 & H3 & _).
  by split_and!.
Qed.

End Spec.
