(* ===== verification/ApplyRefines.v ===== *)
(** Each write of [apply.rs] refines its specification in [Cache.v]: the
    properties of the write path, one theorem per operation, for any engine
    that keeps the laws and any shard whose indexes are in order. *)

From S2P Require Import Prelude Bytes Core Record Clock Arith Command Backend.
From S2P Require Import IndexKeys Tags Engine Apply Cache ApplySpec.

(** What every write needs of the state it starts from: a machine clock
    reading, an epoch of its width, and indexes in order. *)
Definition ready {HS : Hash} (cfg : Config) (now_ms : Z) (v : Views) (r : Ram) : Prop :=
  fits 64 now_ms /\ fits 32 (ram_epoch r) /\ Inv (bucket_granularity_ms cfg) v.

Section Refines.
Context {T : Type} {BT : Backend T} {BL : BackendLaws T} {HS : Hash} {FT : FloatText}.
Variable cfg : Config.
Variable now_ms : Z.

Abbreviation g := (bucket_granularity_ms cfg).

Lemma existing_of_seen v r k wants :
  existing_of ((fun o => mkFound o (alive now_ms r o)) <$> recs v !! k) wants
  = (fun o => (cas o, mc_flags o, expires_at_ms o, if wants then Some (value o) else None))
      <$> seen now_ms v r k.
Proof.
  unfold existing_of, seen. destruct (recs v !! k) as [o|]; simpl; [|done].
  unfold Found_live. cbn [f_live f_record]. by destruct (alive _ _ _).
Qed.

Lemma previous_of_seen (s : option RecordRef) (rp wants : bool) :
  (rp = true -> wants = true) ->
  previous_of ((fun o => (cas o, mc_flags o, expires_at_ms o, if wants then Some (value o) else None)) <$> s) rp
  = if rp then value_of <$> s else None.
Proof.
  intros H. destruct s as [o|]; simpl; [|by destruct rp].
  destruct rp; [|by destruct wants]. by rewrite H.
Qed.

(** The read [apply_conditional_set] carries forward is the one [apply_set]
    would have made. *)
Lemma conditional_pre_read v r k rp wants :
  (rp = true -> wants = true) ->
  let found := (fun o => mkFound o (alive now_ms r o)) <$> recs v !! k in
  let existing := existing_of found wants in
  mkDisplaced (match existing with Some _ => true | None => false end)
    ((fun '(_, _, e, _) => e) <$> existing) (previous_of existing rp)
    (ir_expires_at_ms <$> ((fun f => IndexRows_of (f_record f)) <$> found))
  = displaced_of now_ms r (recs v !! k) rp.
Proof.
  intros H. cbv zeta. rewrite existing_of_seen, previous_of_seen by done.
  unfold seen. destruct (recs v !! k) as [o|]; simpl; [|by destruct rp].
  by destruct (alive now_ms r o), rp.
Qed.

(** Metadata whose token is still to be stamped. *)
Lemma meta_ok_zero e f x : fits 32 e -> fits 32 f -> fits 64 x -> meta_ok (mkMeta e f x 0).
Proof. intros. unfold meta_ok. cbn. split_and!; try done; width. Qed.

Lemma never_fits : fits 64 NEVER.
Proof. unfold NEVER. width. Qed.

Lemma zero_fits : fits 32 0.
Proof. width. Qed.

#[local] Hint Resolve meta_ok_zero deadline_after_fits expiry_from_ttl_fits never_fits zero_fits : core.

Lemma cas_token_fits r : fits 64 (cas_token cfg r).
Proof. apply wrapping_fits. lia. Qed.

(** The concatenating branch, once the guard has let it through. *)
Lemma wp_concatenate p rec0 mode o wants (Q : PreparedSet -> Views -> Ram -> Prop) Qe v r :
  RecordRef_parse (ps_record p) = Ok rec0 -> tags rec0 = ps_tags p ->
  wants = true ->
  let combined := match mode with SetMode_Append => value o ++ value rec0 | _ => value rec0 ++ value o end in
  (if max_value_len cfg <? len combined
   then Qe (SE_Core (ValueTooLarge (len combined) (max_value_len cfg))) v r
   else Q (mkPreparedSet (ps_key p)
             (header_bytes (header (record_of (mkMeta (ram_epoch r) (mc_flags o) (expires_at_ms o) 0)
                (ps_tags p) combined)) ++ tags_bytes (ps_tags p) ++ combined)
             (Some (expires_at_ms o)) (ps_ttl p) (ps_tags p) (ps_return_previous p) (ps_pre_read p)) v r) ->
  wp (concatenate (T:=T) cfg p mode
        (Some (cas o, mc_flags o, expires_at_ms o, if wants then Some (value o) else None))) Q Qe v r.
Proof.
  intros Hp Ht -> combined H. unfold concatenate. do 2 wp_step. cbn [expect]. do 2 wp_step.
  rewrite Hp. cbn [map_err]. do 2 wp_step. unfold validate_value. subst combined.
  set (combined := match mode with SetMode_Append => _ | _ => _ end) in *.
  destruct (Z.ltb_spec (max_value_len cfg) (len combined)); cbn [map_err]; [done|].
  repeat wp_step. rewrite encode_record_ok.
  2:{ rewrite <- Ht. by apply parse_fields in Hp as (_ & _ & ?). }
  cbn [map_err]. by wp_step.
Qed.

(** SET refines the abstract cache: the key ends up holding exactly the
    prepared record, stamped with the next CAS token and, when the deadline was
    left open ([Keep], [SetIfPersistent]), with the deadline settled against
    the record a client sees at that moment; the answer is the token and, if
    asked for, the value a client would have been served. Nothing else about
    any key changes and both indexes stay in order. *)
Theorem apply_set_refines p rec0 v r :
  ready cfg now_ms v r -> prepared_ok p rec0 -> ps_pre_read p = None ->
  separates (ps_key p) (held v) ->
  let verdict := spec_set now_ms (cas_token cfg r) p rec0 (seen now_ms v r (ps_key p)) in
  wp (apply_set (T:=T) cfg now_ms p) (answers cfg (ps_key p) verdict v r)
    (refuses verdict v r) v r.
Proof.
  intros (Hn & _ & Hi) Hok Hpre Hs. apply wp_apply_set_spec; try done.
  by unfold pre_read_ok; rewrite Hpre.
Qed.

Lemma apply_delete_ok k v r :
  ready cfg now_ms v r ->
  let verdict := spec_delete (seen now_ms v r k) in
  wp (apply_delete (T:=T) cfg now_ms k) (answers cfg k verdict v r) (refuses verdict v r) v r.
Proof.
  intros (Hn & _ & Hi) verdict. unfold apply_delete. wp_step. apply wp_displace; [done|].
  cbv zeta. repeat wp_step. exists Remove. split.
  - subst verdict. unfold spec_delete. by rewrite (d_live_seen now_ms v r k).
  - exact (changed_remove cfg v r k Hi).
Qed.

Lemma apply_conditional_set_ok p rec0 mode v r :
  ready cfg now_ms v r -> prepared_ok p rec0 -> separates (ps_key p) (held v) ->
  let verdict := spec_conditional cfg now_ms (ram_epoch r) (cas_token cfg r) p rec0 mode
                   (seen now_ms v r (ps_key p)) in
  wp (apply_conditional_set (T:=T) cfg now_ms p mode) (answers cfg (ps_key p) verdict v r)
    (refuses verdict v r) v r.
Proof.
  intros (Hn & He & Hi) Hok Hs verdict. unfold apply_conditional_set. wp_step.
  apply wp_read_for_update with (cfg := cfg); [done|]. cbv zeta beta.
  set (wants := ps_return_previous p || is_concatenating mode).
  assert (ps_return_previous p = true -> wants = true) as Hw by (subst wants; by intros ->).
  rewrite (conditional_pre_read v r _ _ wants Hw), existing_of_seen, previous_of_seen by done.
  set (s := seen now_ms v r (ps_key p)) in *.
  set (pre := mkPreRead _ _).
  set (p' := mkPreparedSet (ps_key p) (ps_record p) _ _ _ _ (Some pre)).
  assert (pre_read_ok now_ms v r p') as Hpre.
  { split; [|done]. cbn. by destruct (recs v !! ps_key p). }
  set (previous := if ps_return_previous p then value_of <$> s else None).
  assert (forall rec, verdict = Ok (Store rec, mkWritten (Stored_Stored (cas_token cfg r)) previous) ->
    forall q rec1, prepared_ok q rec1 -> pre_read_ok now_ms v r q -> ps_key q = ps_key p ->
    ps_return_previous q = ps_return_previous p ->
    settle now_ms (cas_token cfg r) q rec1 s = rec ->
    wp (T:=T) (applied ← apply_set cfg now_ms q; mret (mkWritten (Stored_Stored (sa_cas applied)) (sa_previous applied)))
      (answers cfg (ps_key p) verdict v r) (refuses verdict v r) v r) as Hstore.
  { intros rec Hv q rec1 Hq Hqp Hqk Hqr Hset. wp_step.
    eapply wp_apply_set; [done|done|exact Hq|done|]. rewrite Hqk, Hqr. fold s. rewrite Hset.
    intros blob Hb. wp_step. exists (Store rec). split; [done|]. by apply changed_store. }
  assert (forall st, verdict = Ok (Keep, mkWritten st previous) ->
    wp (T:=T) (mret (mkWritten st previous)) (answers cfg (ps_key p) verdict v r) (refuses verdict v r) v r)
    as Hkeep.
  { intros st Hv. wp_step. exists Keep. split; [done|]. by apply changed_keep. }
  destruct Hok as (Hp & Ht & Hx & Httl).
  assert (prepared_ok p' rec0) as Hok' by done.
  destruct mode as [| | | | |expected], s as [o|] eqn:Eo; cbn [refusal fmap option_fmap option_map];
    try (by apply Hkeep).
  all: try (cbn [is_concatenating]; wp_step; wp_step; by eapply Hstore).
  3:{ destruct (Z.eqb_spec (cas o) expected); cbn [negb].
      - cbn [is_concatenating]. wp_step. wp_step. eapply Hstore; try done.
        subst verdict. unfold spec_conditional. by rewrite (proj2 (Z.eqb_eq _ _)).
      - apply Hkeep. subst verdict. unfold spec_conditional. by rewrite (proj2 (Z.eqb_neq _ _)). }
  all: cbn [is_concatenating]; wp_step;
    apply (wp_concatenate p' rec0); [done|done|by subst wants; rewrite orb_true_r|]; cbv zeta;
    subst verdict; unfold spec_conditional in *; cbn [ps_tags p'] in *;
    destruct (_ <? _); [done|];
    destruct (seen_parts now_ms v r _ _ Eo) as (_ & Hf & He' & _ & _);
    (eapply Hstore; [done| |done|done|done|]);
    [ split_and!; [apply record_of_parse; [by auto| |]; rewrite <- Ht;
        by apply parse_fields in Hp as (_ & ? & ?)|done|by intros e [= <-]|done]
    | done ].
Qed.

Lemma apply_expire_ok k ttl guard v r :
  ready cfg now_ms v r -> ttl_ok ttl -> separates k (held v) ->
  let verdict := spec_expire now_ms (cas_token cfg r) ttl guard (seen now_ms v r k) in
  wp (apply_expire (T:=T) cfg now_ms k ttl guard) (answers cfg k verdict v r)
    (refuses verdict v r) v r.
Proof.
  intros (Hn & He & Hi) Httl Hs verdict. unfold apply_expire. wp_step.
  apply wp_live_record with (cfg := cfg); [done|]. subst verdict.
  destruct (seen now_ms v r k) as [o|] eqn:Eo; cbn [spec_expire].
  2:{ wp_step. exists Keep. split; [done|]. by apply changed_keep. }
  destruct (seen_parts now_ms v r _ _ Eo) as (Hf1 & Hf2 & Hf3 & Hf4 & Hf5). cbv zeta.
  destruct (negb (expire_applies _ _ _)).
  { wp_step. exists Keep. split; [done|]. by apply changed_keep. }
  destruct (negb _ && _).
  - unfold apply_delete. wp_step. apply wp_displace; [done|]. cbv zeta. repeat wp_step.
    exists Remove. split; [|exact (changed_remove cfg v r k Hi)].
    by rewrite (d_live_seen now_ms v r k), Eo.
  - wp_step. apply wp_rewrite; [first [done|by auto|by constructor]..|].
    intros v' r' Hc. wp_step. eexists. by split.
Qed.

Lemma apply_arithmetic_ok op v r :
  ready cfg now_ms v r -> ttl_ok (ar_ttl op) -> separates (ar_key op) (held v) ->
  let verdict := spec_arithmetic cfg now_ms (ram_epoch r) (cas_token cfg r) op
                   (seen now_ms v r (ar_key op)) in
  wp (apply_arithmetic (T:=T) cfg now_ms op) (answers cfg (ar_key op) verdict v r)
    (refuses verdict v r) v r.
Proof.
  intros (Hn & He & Hi) Httl Hs verdict. unfold apply_arithmetic. wp_step.
  apply wp_live_record with (cfg := cfg); [done|]. subst verdict. unfold spec_arithmetic.
  set (s := seen now_ms v r (ar_key op)). wp_step.
  pose (carried := match s with Some o => (tags o, mc_flags o, expires_at_ms o) | None => ([], 0, NEVER) end).
  apply wp_mono with
    (Q := fun a v' r' => evaluate op (value <$> s) = Ok a.1 /\ a.2 = carried /\ v' = v /\ r' = r)
    (Qe := fun e v' r' => (exists e0, evaluate op (value <$> s) = Err e0 /\ e = SE_Core e0) /\ v' = v /\ r' = r).
  { subst carried. pose proof (evaluate_no_panic op (value <$> s)) as Hnp.
    destruct s as [o|]; cbn [fmap option_fmap option_map] in *; wp_step; wp_step;
      (destruct (evaluate op _) as [out|e|why]; cbn [map_err];
       [by wp_step|by eauto|by destruct (Hnp why)]). }
  2:{ intros e v' r' _ ((e0 & -> & ->) & -> & ->). done. }
  intros [outcome [[ts flags] cur]] v' r' _ (Hev & Hc & -> & ->). cbn [fst snd] in *.
  rewrite Hev. cbn [map_err]. rewrite bind_ok.
  destruct outcome as [|applied|text applied].
  - wp_step. exists Keep. split; [done|]. by apply changed_keep.
  - wp_step. exists Keep. split; [done|]. by apply changed_keep.
  - do 2 wp_step. unfold validate_value.
    destruct (Z.ltb_spec (max_value_len cfg) (len text)); cbn [map_err]; [done|].
    do 3 wp_step.
    assert (fits 32 flags /\ fits 64 cur /\ Forall tag_ok ts /\ len ts <= ABSOLUTE_MAX_TAGS) as (F1 & F2 & F3 & F4).
    { subst carried s. destruct (seen now_ms v r (ar_key op)) as [o|] eqn:Eo.
      - injection Hc as -> -> ->. by destruct (seen_parts now_ms v r _ _ Eo) as (? & ? & ? & ? & ?).
      - injection Hc as -> -> ->. split_and!; try done; auto. }
    apply wp_rewrite; [first [done|by auto|by constructor]..|].
    intros v' r' Hch. wp_step. eexists. split; [|exact Hch]. do 2 f_equal.
    subst carried. destruct s; by injection Hc as -> -> ->.
Qed.

Lemma apply_append_ok k suffix v r :
  ready cfg now_ms v r -> separates k (held v) ->
  let verdict := spec_append cfg (ram_epoch r) (cas_token cfg r) suffix (seen now_ms v r k) in
  wp (apply_append (T:=T) cfg now_ms k suffix) (answers cfg k verdict v r)
    (refuses verdict v r) v r.
Proof.
  intros (Hn & He & Hi) Hs verdict. unfold apply_append. wp_step.
  apply wp_live_record with (cfg := cfg); [done|]. subst verdict. unfold spec_append.
  destruct (seen now_ms v r k) as [o|] eqn:Eo; cbn [fmap option_fmap option_map default].
  - destruct (seen_parts now_ms v r _ _ Eo) as (Hf1 & Hf2 & Hf3 & Hf4 & Hf5).
    do 2 wp_step. unfold validate_value. destruct (_ <? _); cbn [map_err]; [done|].
    do 3 wp_step. apply wp_rewrite; [first [done|by auto|by constructor]..|].
    intros v' r' Hc. wp_step. eexists. by split.
  - do 2 wp_step. unfold validate_value. rewrite app_nil_l. destruct (_ <? _); cbn [map_err]; [done|].
    do 3 wp_step. apply wp_rewrite; [first [done|by auto|by constructor]..|].
    intros v' r' Hc. wp_step. eexists. by split.
Qed.

Lemma apply_touch_ok k ttl_secs v r :
  ready cfg now_ms v r -> fits 32 ttl_secs -> separates k (held v) ->
  let verdict := spec_touch now_ms (cas_token cfg r) ttl_secs (seen now_ms v r k) in
  wp (apply_touch (T:=T) cfg now_ms k ttl_secs) (answers cfg k verdict v r)
    (refuses verdict v r) v r.
Proof.
  intros (Hn & He & Hi) Httl Hs verdict. unfold apply_touch. do 4 wp_step. subst verdict.
  pose proof (Inv_old cfg v k Hi) as Ho. cbn [vget]. unfold seen.
  destruct (v_main v !! k) as [blob|].
  2:{ rewrite Ho. wp_step. exists Keep. split; [done|]. by apply changed_keep. }
  destruct Ho as (o & Hp & Ho). rewrite Ho. cbn [mbind option_bind]. do 2 wp_step. rewrite Hp.
  cbn [map_err]. destruct (alive now_ms r o) eqn:Ea; cbn [negb].
  2:{ wp_step. exists Keep. split; [done|]. by apply changed_keep. }
  destruct (parse_fields _ _ Hp) as (Hh & Ht & Hl). destruct Hh as (_ & _ & _ & H1 & H2 & H3 & _).
  do 2 wp_step. rewrite encode_record_ok by done. cbn [map_err]. wp_step.
  set (m := mkMeta _ _ _ 0).
  assert (meta_ok m) as Hm.
  { subst m. by auto. }
  eapply wp_apply_set with (rec0 := record_of m (tags o) (value o)); [done|done| |done|].
  - split_and!; [by apply record_of_parse|done|by intros e [= <-]|done].
  - intros blob' Hb. wp_step. eexists. split; [done|]. by apply changed_store.
Qed.

Lemma prepare_set_ok r set ts :
  fits 64 now_ms -> fits 32 (ram_epoch r) -> fits 32 (s_mc_flags set) -> ttl_ok (s_ttl set) ->
  Forall tag_ok ts ->
  match prepare_set cfg now_ms r set ts with
  | Ok p =>
      ram_pressure r <> Pressure_Critical /\ len (s_value set) <= max_value_len cfg
      /\ len ts <= ABSOLUTE_MAX_TAGS
      /\ ps_key p = s_key set /\ ps_ttl p = s_ttl set /\ ps_pre_read p = None
      /\ ps_return_previous p = s_return_previous set
      /\ ps_expires_at_ms p = match s_ttl set with
                              | Ttl_Set s => Some (expiry_from_ttl now_ms s) | _ => None end
      /\ exists rec0, prepared_ok p rec0 /\ value rec0 = s_value set /\ tags rec0 = ts
           /\ mc_flags rec0 = s_mc_flags set /\ h_epoch (header rec0) = ram_epoch r
  | Err e =>
      if decide (ram_pressure r = Pressure_Critical) then e = SE_CapacityFull
      else if decide (max_value_len cfg < len (s_value set))
      then e = SE_Core (ValueTooLarge (len (s_value set)) (max_value_len cfg))
      else e = SE_Core (TooManyTags (len ts) ABSOLUTE_MAX_TAGS) /\ ABSOLUTE_MAX_TAGS < len ts
  | Panic _ => False
  end.
Proof.
  intros Hn He Hf Httl Hts. unfold prepare_set. case_bool_decide as Hpr; [by rewrite decide_True|].
  unfold validate_value.
  destruct (Z.ltb_spec (max_value_len cfg) (len (s_value set))); cbn [map_err].
  { rewrite bind_err. by rewrite decide_False, decide_True. }
  rewrite bind_ok.
  set (exp := match s_ttl set with Ttl_Set s => Some (expiry_from_ttl now_ms s) | _ => None end).
  replace (match s_ttl set with Ttl_Set s => _ | _ => _ end) with exp by (subst exp; by destruct (s_ttl set)).
  destruct (Z.le_gt_cases (len ts) ABSOLUTE_MAX_TAGS) as [Hl|Hl].
  - rewrite encode_record_ok by done. cbn [map_err]. rewrite bind_ok.
    split_and!; try done.
    set (m := mkMeta _ _ _ 0). exists (record_of m ts (s_value set)).
    assert (meta_ok m) as Hm.
    { subst m. apply meta_ok_zero; try done. subst exp. destruct (s_ttl set); cbn; auto. }
    split; [|done]. split_and!; [by apply record_of_parse|done| |done].
    intros e Hx. cbn in *. by rewrite Hx.
  - unfold encode_record, validate_tags. rewrite (proj2 (Z.ltb_lt _ _)) by lia.
    cbn [mbind Result_bind map_err]. rewrite !decide_False by (done || lia). split; [done|lia].
Qed.

(** ** The properties *)

(** Preparing a write: with room in the store and a value and a tag table
    within bounds it produces a record a later [apply_set] accepts, holding
    exactly the request's value, flags and tags at the current epoch, with the
    deadline settled iff the TTL does not depend on what is stored; otherwise
    it refuses with the first thing wrong: a critically full store, then an
    oversized value, then too many tags. *)
Theorem prepare_set_exact r set ts :
  fits 64 now_ms -> fits 32 (ram_epoch r) -> fits 32 (s_mc_flags set) -> ttl_ok (s_ttl set) ->
  Forall tag_ok ts ->
  match prepare_set cfg now_ms r set ts with
  | Ok p =>
      ram_pressure r <> Pressure_Critical /\ len (s_value set) <= max_value_len cfg
      /\ len ts <= ABSOLUTE_MAX_TAGS
      /\ ps_key p = s_key set /\ ps_ttl p = s_ttl set /\ ps_pre_read p = None
      /\ ps_return_previous p = s_return_previous set
      /\ ps_expires_at_ms p = match s_ttl set with
                              | Ttl_Set s => Some (expiry_from_ttl now_ms s) | _ => None end
      /\ exists rec0, prepared_ok p rec0 /\ value rec0 = s_value set /\ tags rec0 = ts
           /\ mc_flags rec0 = s_mc_flags set /\ h_epoch (header rec0) = ram_epoch r
  | Err e =>
      if decide (ram_pressure r = Pressure_Critical) then e = SE_CapacityFull
      else if decide (max_value_len cfg < len (s_value set))
      then e = SE_Core (ValueTooLarge (len (s_value set)) (max_value_len cfg))
      else e = SE_Core (TooManyTags (len ts) ABSOLUTE_MAX_TAGS) /\ ABSOLUTE_MAX_TAGS < len ts
  | Panic _ => False
  end.
Proof. apply prepare_set_ok. Qed.

(** DELETE refines the abstract cache, with no assumption on the hash: the
    record, live or not, goes with every index row it owned, no other record
    loses a row, and the answer is whether a client would have seen it. *)
Theorem apply_delete_refines k v r :
  ready cfg now_ms v r ->
  let verdict := spec_delete (seen now_ms v r k) in
  wp (apply_delete (T:=T) cfg now_ms k) (answers cfg k verdict v r) (refuses verdict v r) v r.
Proof. apply apply_delete_ok. Qed.

(** The conditional writes (set, add, replace, append, prepend and cas,
    with or without the previous value) refine the abstract cache: the guard is
    judged against the record a client sees, a refusal changes nothing and
    still reports what is there, an oversized concatenation is refused, and a
    write over an expired or invalidated record still clears the rows that
    record left behind. The value that was read for the guard is never read
    again. *)
Theorem apply_conditional_set_refines p rec0 mode v r :
  ready cfg now_ms v r -> prepared_ok p rec0 -> separates (ps_key p) (held v) ->
  let verdict := spec_conditional cfg now_ms (ram_epoch r) (cas_token cfg r) p rec0 mode
                   (seen now_ms v r (ps_key p)) in
  wp (apply_conditional_set (T:=T) cfg now_ms p mode) (answers cfg (ps_key p) verdict v r)
    (refuses verdict v r) v r.
Proof. apply apply_conditional_set_ok. Qed.

(** EXPIRE, EXPIREAT and PERSIST refine the abstract cache: the guard and
    the new deadline are judged against the deadline the record holds in this
    transaction; a deadline that has passed removes the key; otherwise the same
    record is stored under its new deadline, value, tags, flags and epoch
    unchanged. *)
Theorem apply_expire_refines k ttl guard v r :
  ready cfg now_ms v r -> ttl_ok ttl -> separates k (held v) ->
  let verdict := spec_expire now_ms (cas_token cfg r) ttl guard (seen now_ms v r k) in
  wp (apply_expire (T:=T) cfg now_ms k ttl guard) (answers cfg k verdict v r)
    (refuses verdict v r) v r.
Proof. apply apply_expire_ok. Qed.

(** Counter arithmetic refines the abstract cache: one atomic
    read-modify-write in which the evaluator sees the value a client sees (or
    none), its error, its refusal to create and its unchanged outcome write
    nothing, a result longer than the configured maximum is refused, and a
    stored result keeps the record's tags and flags and the deadline the
    operation asks for; an absent key is created bare. *)
Theorem apply_arithmetic_refines op v r :
  ready cfg now_ms v r -> ttl_ok (ar_ttl op) -> separates (ar_key op) (held v) ->
  let verdict := spec_arithmetic cfg now_ms (ram_epoch r) (cas_token cfg r) op
                   (seen now_ms v r (ar_key op)) in
  wp (apply_arithmetic (T:=T) cfg now_ms op) (answers cfg (ar_key op) verdict v r)
    (refuses verdict v r) v r.
Proof. apply apply_arithmetic_ok. Qed.

(** APPEND (the creating kind) refines the abstract cache: the suffix goes
    after the value a client sees, keeping its deadline, tags and flags, or
    becomes the value of a fresh key; the length is answered; too long a result
    is refused and changes nothing. *)
Theorem apply_append_refines k suffix v r :
  ready cfg now_ms v r -> separates k (held v) ->
  let verdict := spec_append cfg (ram_epoch r) (cas_token cfg r) suffix (seen now_ms v r k) in
  wp (apply_append (T:=T) cfg now_ms k suffix) (answers cfg k verdict v r)
    (refuses verdict v r) v r.
Proof. apply apply_append_ok. Qed.

(** TOUCH refines the abstract cache: the record a client sees gets the new
    deadline and a new token and nothing else changes, not even its epoch; a
    key a client does not see is left alone. *)
Theorem apply_touch_refines k ttl_secs v r :
  ready cfg now_ms v r -> fits 32 ttl_secs -> separates k (held v) ->
  let verdict := spec_touch now_ms (cas_token cfg r) ttl_secs (seen now_ms v r k) in
  wp (apply_touch (T:=T) cfg now_ms k ttl_secs) (answers cfg k verdict v r)
    (refuses verdict v r) v r.
Proof. apply apply_touch_ok. Qed.

End Refines.
