(* ===== verification/TagOps.v ===== *)
(** [vash-store/src/tags.rs], the durable half: creating a tag, raising its
    generation by maximum, and invalidating it, as writes in the caller's
    transaction; and what an invalidation means for the records that exist. *)

From S2P Require Import Prelude Bytes Core Record Backend IndexKeys Tags Engine.

Section Ops.
Context {T : Type} {BT : Backend T}.

Definition apply_create_tag (name : bytes) (start_generation : Z) : StoreM T (Z * Z) :=
  _ ← lift (validate_tag_name name);
  raw ← db_get TagMeta name;
  match raw ≫= decode_entry with
  | Some existing => mret existing
  | None =>
      r ← get_ram;
      let '(t, allocated) := allocate_id (ram_tags r) in
      _ ← set_ram (set_tags r t);
      id ← lift allocated;
      _ ← db_put TagMeta name (encode_entry id start_generation);
      mret (id, start_generation)
  end.

Definition apply_merge_tag (name : bytes) (generation : Z) : StoreM T TagMerge :=
  _ ← lift (validate_tag_name name);
  raw ← db_get TagMeta name;
  existing ←
    match raw with
    | Some raw =>
        entry ← lift (ok_or (decode_entry raw) (SE_Corrupt "tag registry entry is malformed"));
        mret (Some entry)
    | None => mret None
    end;
  match existing with
  | None =>
      '(id, generation) ← apply_create_tag name generation;
      mret (TagMerge_Created id generation)
  | Some (id, current) =>
      if generation <=? current then mret (TagMerge_Unchanged id current)
      else
        _ ← db_put TagMeta name (encode_entry id generation);
        _ ← db_put Jobs (be_bytes 4 id) (Job_encode (Job_new generation));
        mret (TagMerge_Raised id generation)
  end.

Definition apply_delete_by_tag (name : bytes) : StoreM T (option (Z * Z)) :=
  raw ← db_get TagMeta name;
  match raw with
  | None => mret None
  | Some raw =>
      match decode_entry raw with
      | None => throw (SE_Corrupt "tag registry entry is malformed")
      | Some (id, generation) =>
          let next := saturating_add64 generation 1 in
          if next =? generation then mret (Some (id, generation))
          else
            merged ← apply_merge_tag name next;
            mret (Some (TagMerge_id merged, TagMerge_generation merged))
      end
  end.

End Ops.

(** ** What the tag table holds *)

Definition disk_tag (v : Views) (name : bytes) : option (Z * Z) :=
  raw ← v_tag_meta v !! name; decode_entry raw.

(** Every row decodes, and no id serves two names. *)
Record TagTable (v : Views) : Prop := {
  tt_decodes n raw : v_tag_meta v !! n = Some raw -> is_Some (decode_entry raw);
  tt_ids n n' id g g' : disk_tag v n = Some (id, g) -> disk_tag v n' = Some (id, g') -> n = n'
}.

(** Every id on disk was handed out by this registry's counter, which has not
    reached the end of its width. *)
Definition ids_below (v : Views) (r : Ram) : Prop :=
  0 <= next_id (ram_tags r) <= U32_MAX
  /\ forall n id g, disk_tag v n = Some (id, g) -> 0 <= id < next_id (ram_tags r).

Lemma disk_tag_fits v n id g : disk_tag v n = Some (id, g) -> fits 32 id /\ fits 64 g.
Proof.
  unfold disk_tag. destruct (v_tag_meta v !! n); [|done]. simpl.
  intros Hx. by apply decode_entry_inv in Hx as (_ & ? & ?).
Qed.

Lemma disk_tag_put v n n' id g :
  fits 32 id -> fits 64 g ->
  disk_tag (vput v TagMeta n (encode_entry id g)) n'
  = if decide (n' = n) then Some (id, g) else disk_tag v n'.
Proof.
  intros Hi Hg. unfold disk_tag, vput. cbn [vset v_tag_meta vget]. case_decide as Hd.
  - subst. rewrite lookup_insert_eq. simpl. by rewrite decode_encode_entry.
  - by rewrite lookup_insert_ne.
Qed.

Lemma disk_tag_other v v' n : v_tag_meta v' = v_tag_meta v -> disk_tag v' n = disk_tag v n.
Proof. unfold disk_tag. by intros ->. Qed.

Lemma disk_tag_jobs v k x n : disk_tag (vput v Jobs k x) n = disk_tag v n.
Proof. reflexivity. Qed.

Lemma TagTable_put v n id g :
  TagTable v -> fits 32 id -> fits 64 g ->
  (forall n' g', disk_tag v n' = Some (id, g') -> n' = n) ->
  TagTable (vput v TagMeta n (encode_entry id g)).
Proof.
  intros Ht Hi Hg Hu. constructor.
  - intros n' raw. unfold vput. cbn [vset v_tag_meta vget].
    rewrite lookup_insert_Some. intros [[<- <-]|[_ H]].
    + rewrite decode_encode_entry by done. eauto.
    + by eapply tt_decodes.
  - intros n1 n2 i g1 g2. rewrite !disk_tag_put by done. repeat case_decide; subst; try done.
    + intros [= <- <-] Hx. symmetry. by eapply Hu.
    + intros Hx [= <- <-]. by eapply Hu.
    + by apply tt_ids.
Qed.

Definition name_ok (name : bytes) : bool := (0 <? len name) && (len name <=? MAX_TAG_LEN).

Lemma validate_tag_name_eq name :
  validate_tag_name name
  = if name_ok name then Ok () else Err (SE_Core (TagTooLong (len name) MAX_TAG_LEN)).
Proof.
  unfold validate_tag_name, name_ok. pose proof (len_nonneg name).
  destruct (Z.eqb_spec (len name) 0), (Z.ltb_spec MAX_TAG_LEN (len name)),
    (Z.ltb_spec 0 (len name)), (Z.leb_spec (len name) MAX_TAG_LEN); simpl; try done; lia.
Qed.

Section Spec.
Context {T : Type} {BT : Backend T} {BL : BackendLaws T}.

(** What creating a tag does, for any continuation. *)
Lemma wp_create_tag name g0 (Q : Z * Z -> Views -> Ram -> Prop) Qe v r :
  TagTable v ->
  (name_ok name = false -> Qe (SE_Core (TagTooLong (len name) MAX_TAG_LEN)) v r) ->
  (name_ok name = true ->
   match disk_tag v name with
   | Some e => Q e v r
   | None =>
       0 <= next_id (ram_tags r) < U32_MAX /\
       if max_tags (ram_tags r) <=? registry_len (ram_tags r)
       then Qe (SE_TagLimit (max_tags (ram_tags r))) v r
       else Q (next_id (ram_tags r), g0)
              (vput v TagMeta name (encode_entry (next_id (ram_tags r)) g0))
              (set_tags r (set_next_id (ram_tags r) (wrapping 32 (next_id (ram_tags r) + 1))))
   end) ->
  wp (apply_create_tag (T:=T) name g0) Q Qe v r.
Proof.
  intros Ht Hbad Hgood. unfold apply_create_tag. do 2 wp_step. rewrite validate_tag_name_eq.
  destruct (name_ok name); [|by apply Hbad]. specialize (Hgood eq_refl).
  do 2 wp_step. cbn [vget]. unfold disk_tag in Hgood.
  destruct (v_tag_meta v !! name ≫= decode_entry) as [e|]; [by wp_step|].
  destruct Hgood as [Hn Hgood]. do 2 wp_step. unfold allocate_id. destruct (_ <=? _).
  - do 2 wp_step; [frame|]. do 2 wp_step. by destruct r.
  - do 2 wp_step; [|by repeat wp_step]. split; [done|]. split; [done|].
    unfold ids_advance. cbn. rewrite wrapping_small by (clear -Hn; width). lia.
Qed.

(** What merging a generation does. *)
Lemma wp_merge_tag name g0 (Q : TagMerge -> Views -> Ram -> Prop) Qe v r :
  TagTable v ->
  (name_ok name = false -> Qe (SE_Core (TagTooLong (len name) MAX_TAG_LEN)) v r) ->
  (name_ok name = true ->
   match disk_tag v name with
   | Some (id, current) =>
       if g0 <=? current then Q (TagMerge_Unchanged id current) v r
       else Q (TagMerge_Raised id g0)
              (vput (vput v TagMeta name (encode_entry id g0)) Jobs (be_bytes 4 id)
                 (Job_encode (Job_new g0))) r
   | None =>
       0 <= next_id (ram_tags r) < U32_MAX /\
       if max_tags (ram_tags r) <=? registry_len (ram_tags r)
       then Qe (SE_TagLimit (max_tags (ram_tags r))) v r
       else Q (TagMerge_Created (next_id (ram_tags r)) g0)
              (vput v TagMeta name (encode_entry (next_id (ram_tags r)) g0))
              (set_tags r (set_next_id (ram_tags r) (wrapping 32 (next_id (ram_tags r) + 1))))
   end) ->
  wp (apply_merge_tag (T:=T) name g0) Q Qe v r.
Proof.
  intros Ht Hbad Hgood. unfold apply_merge_tag. do 2 wp_step. rewrite validate_tag_name_eq.
  destruct (name_ok name) eqn:Hname; [|by apply Hbad]. specialize (Hgood eq_refl).
  do 3 wp_step. cbn [vget]. unfold disk_tag in *.
  destruct (v_tag_meta v !! name) as [raw|] eqn:Eraw; cbn [mbind option_bind] in Hgood.
  - destruct (tt_decodes v Ht _ _ Eraw) as [[id cur] Hd]. rewrite Hd in *.
    do 2 wp_step. cbn [ok_or]. wp_step. cbv beta iota. destruct (g0 <=? cur); by repeat wp_step.
  - do 2 wp_step. apply wp_create_tag; [done|by rewrite Hname|]. intros _. unfold disk_tag.
    rewrite Eraw. cbn [mbind option_bind]. destruct Hgood as [Hn Hgood]. split; [done|].
    destruct (_ <=? _); [done|by wp_step].
Qed.

(** What invalidating a tag does. *)
Lemma wp_delete_by_tag name (Q : option (Z * Z) -> Views -> Ram -> Prop) Qe v r :
  TagTable v -> (forall e, disk_tag v name = Some e -> name_ok name = true) ->
  match disk_tag v name with
  | None => Q None v r
  | Some (id, g) =>
      if g =? U64_MAX then Q (Some (id, g)) v r
      else Q (Some (id, g + 1))
             (vput (vput v TagMeta name (encode_entry id (g + 1))) Jobs (be_bytes 4 id)
                (Job_encode (Job_new (g + 1)))) r
  end ->
  wp (apply_delete_by_tag (T:=T) name) Q Qe v r.
Proof.
  intros Ht Hname HQ. unfold apply_delete_by_tag. do 2 wp_step. cbn [vget].
  destruct (v_tag_meta v !! name) as [raw|] eqn:Eraw.
  2:{ wp_step. unfold disk_tag in HQ. rewrite Eraw in HQ. done. }
  destruct (tt_decodes v Ht _ _ Eraw) as [[id g] Hd].
  assert (disk_tag v name = Some (id, g)) as E by (unfold disk_tag; by rewrite Eraw).
  rewrite Hd. rewrite E in HQ. cbv iota zeta. specialize (Hname _ E).
  destruct (disk_tag_fits _ _ _ _ E) as [Hid Hg]. unfold saturating_add64.
  destruct (Z.eqb_spec g U64_MAX) as [Heq|Hne].
  - rewrite (proj2 (Z.eqb_eq _ _)) by lia. by wp_step.
  - assert (Z.min (g + 1) U64_MAX = g + 1) as -> by (clear -Hg Hne; width).
    rewrite (proj2 (Z.eqb_neq _ _)) by lia. wp_step.
    apply wp_merge_tag; [done|by rewrite Hname|]. intros _. rewrite E.
    rewrite (proj2 (Z.leb_gt _ _)) by lia. by wp_step.
Qed.

(** Registering a tag is durable, idempotent and collision free: a name the
    table already holds is answered as it stands and nothing is written; a new
    one gets an id no row of the table has, at the node's generation; the table
    keeps one row per name and one name per id; a bad name or a full registry
    is refused with nothing written. *)
Theorem apply_create_tag_spec name g0 v r :
  TagTable v -> ids_below v r -> next_id (ram_tags r) < U32_MAX -> fits 64 g0 ->
  wp (apply_create_tag (T:=T) name g0)
    (fun '(id, g) v' r' =>
       TagTable v' /\ ids_below v' r'
       /\ disk_tag v' name = Some (id, g)
       /\ (forall n, n <> name -> disk_tag v' n = disk_tag v n)
       /\ match disk_tag v name with
          | Some e => (id, g) = e /\ v' = v /\ r' = r
          | None => g = g0 /\ forall n g', disk_tag v n <> Some (id, g')
          end)
    (fun e v' r' =>
       v' = v /\ ((name_ok name = false /\ e = SE_Core (TagTooLong (len name) MAX_TAG_LEN))
                  \/ (disk_tag v name = None /\ e = SE_TagLimit (max_tags (ram_tags r))
                      /\ max_tags (ram_tags r) <= registry_len (ram_tags r)))) v r.
Proof.
  intros Ht Hids Hn1 Hg. pose proof Hids as ((Hn0 & _) & Hbelow). apply wp_create_tag; [done|auto|].
  intros Hname. destruct (disk_tag v name) as [[id g]|] eqn:E.
  { conjs; try done. }
  split; [done|]. destruct (Z.leb_spec (max_tags (ram_tags r)) (registry_len (ram_tags r))).
  { split; [done|]. right. by split_and!. }
  set (id := next_id (ram_tags r)) in *.
  assert (fits 32 id) as Hid by width.
  assert (forall n g', disk_tag v n <> Some (id, g')) as Hfresh.
  { intros n g' Hx. apply Hbelow in Hx. lia. }
  conjs; try done.
  - apply TagTable_put; try done. intros n' g' Hx. by destruct (Hfresh n' g').
  - unfold ids_below.
    cbn [set_tags ram_tags next_id set_next_id].
    rewrite wrapping_small in * by width. split; [lia|].
    intros n i g. rewrite disk_tag_put by done. case_decide; [intros [= <- <-]; lia|].
    intros Hx. apply Hbelow in Hx. lia.
  - rewrite disk_tag_put by done. by rewrite decide_True.
  - intros n Hne. rewrite disk_tag_put by done. by rewrite decide_False.
Qed.

(** Merging an invalidation is a durable maximum: the tag ends at the larger
    of its generation and the offered one, never below either; a raise keeps
    the id and queues exactly one reclamation job, aimed at the new generation
    and starting from the beginning; an equal or older offer writes nothing;
    an unknown name is registered and queues nothing. *)
Theorem apply_merge_tag_spec name g0 v r :
  TagTable v -> ids_below v r -> next_id (ram_tags r) < U32_MAX -> fits 64 g0 ->
  wp (apply_merge_tag (T:=T) name g0)
    (fun m v' r' =>
       TagTable v'
       /\ disk_tag v' name = Some (TagMerge_id m, TagMerge_generation m)
       /\ (forall n, n <> name -> disk_tag v' n = disk_tag v n)
       /\ match disk_tag v name with
          | Some (id, current) =>
              TagMerge_id m = id /\ TagMerge_generation m = Z.max current g0
              /\ v_jobs v' = (if current <? g0
                              then <[be_bytes 4 id := Job_encode (Job_new g0)]> (v_jobs v)
                              else v_jobs v)
              /\ r' = r
          | None => TagMerge_generation m = g0 /\ v_jobs v' = v_jobs v
          end)
    (fun e v' r' =>
       v' = v /\ ((name_ok name = false /\ e = SE_Core (TagTooLong (len name) MAX_TAG_LEN))
                  \/ (disk_tag v name = None /\ e = SE_TagLimit (max_tags (ram_tags r))))) v r.
Proof.
  intros Ht Hids Hn1 Hg. pose proof Hids as ((Hn0 & _) & Hbelow). apply wp_merge_tag; [done|auto|].
  intros Hname. destruct (disk_tag v name) as [[id cur]|] eqn:E.
  - destruct (disk_tag_fits _ _ _ _ E) as [Hid Hcur].
    destruct (Z.leb_spec g0 cur).
    + rewrite (proj2 (Z.ltb_ge _ _)) by lia. conjs; try done. cbn. lia.
    + rewrite (proj2 (Z.ltb_lt _ _)) by lia. conjs; try done.
      * assert (TagTable (vput v TagMeta name (encode_entry id g0))) as [H1 H2].
        { apply TagTable_put; try done. intros n' g' Hx. by eapply tt_ids. }
        by constructor.
      * rewrite disk_tag_jobs, disk_tag_put by done. by rewrite decide_True.
      * intros n Hne. rewrite disk_tag_jobs, disk_tag_put by done.
        by rewrite decide_False.
      * cbn. lia.
  - split; [done|]. destruct (_ <=? _); [split; [done|by right]|].
    set (id := next_id (ram_tags r)) in *. assert (fits 32 id) as Hid by width.
    conjs; try done.
    + apply TagTable_put; try done. intros n' g' Hx. apply Hbelow in Hx. lia.
    + rewrite disk_tag_put by done. by rewrite decide_True.
    + intros n Hne. rewrite disk_tag_put by done. by rewrite decide_False.
Qed.

(** Deleting by tag advances the durable generation by one (saturating at
    the end of its width, where it reports the tag unchanged), whatever the
    in-memory registry says, and queues the reclamation of everything older;
    a name that was never registered is answered [None] and writes nothing; no
    other tag moves. *)
Theorem apply_delete_by_tag_spec name v r :
  TagTable v -> (forall e, disk_tag v name = Some e -> name_ok name = true) ->
  wp (apply_delete_by_tag (T:=T) name)
    (fun answer v' r' =>
       r' = r /\ TagTable v'
       /\ match disk_tag v name with
          | None => answer = None /\ v' = v
          | Some (id, g) =>
              answer = Some (id, Z.min (g + 1) U64_MAX)
              /\ disk_tag v' name = Some (id, Z.min (g + 1) U64_MAX)
              /\ (forall n, n <> name -> disk_tag v' n = disk_tag v n)
              /\ v_main v' = v_main v /\ v_exp v' = v_exp v /\ v_tagidx v' = v_tagidx v
              /\ (g < U64_MAX ->
                  v_jobs v' !! be_bytes 4 id = Some (Job_encode (Job_new (g + 1))))
          end)
    (fun _ _ _ => False) v r.
Proof.
  intros Ht Hname. apply wp_delete_by_tag; [done|done|].
  destruct (disk_tag v name) as [[id g]|] eqn:E; [|done]. specialize (Hname _ eq_refl).
  destruct (disk_tag_fits _ _ _ _ E) as [Hid Hg]. destruct (Z.eqb_spec g U64_MAX) as [Heq|Hne].
  - replace (Z.min (g + 1) U64_MAX) with g by lia. conjs; try done. lia.
  - assert (Z.min (g + 1) U64_MAX = g + 1) as -> by (clear -Hg Hne; width).
    assert (fits 64 (g + 1)) as Hg1 by (clear -Hg Hne; width).
    assert (TagTable (vput v TagMeta name (encode_entry id (g + 1)))) as [H1 H2].
    { apply TagTable_put; try done. intros n' g' Hx. by eapply tt_ids. }
    conjs; try done.
    + rewrite disk_tag_jobs, disk_tag_put by done. by rewrite decide_True.
    + intros n Hn. rewrite disk_tag_jobs, disk_tag_put by done. by rewrite decide_False.
    + intros _. cbn. by rewrite lookup_insert_eq.
Qed.

End Spec.

(** ** What an invalidation means for records *)

Lemma merge_lookup_ge reg id g0 ms :
  registry_ok reg -> 0 <= id -> (exists g, lookup_generation reg id = Some g /\ g0 <= g) ->
  Forall (fun '(i, _) => 0 <= i) ms ->
  let reg' := foldl (fun reg '(i, g) => merge_generation reg i g) reg ms in
  exists g, lookup_generation reg' id = Some g /\ g0 <= g.
Proof.
  intros Hr Hid Hg Hms. revert reg Hr Hg.
  induction Hms as [|[i g1] ms Hi Hms IH]; intros reg Hr Hg; cbn [foldl]; [done|].
  apply IH; [by apply merge_ok|]. destruct Hg as (g & Hl & Hge).
  rewrite merge_lookup by done. rewrite Hl. case_decide; simpl; eexists; (split; [done|lia]).
Qed.

(** Publishing an invalidation kills exactly what it names. Once the
    registry holds a tag at a higher generation, every record that was alive
    and carries the tag is dead; every record that does not carry it is as
    alive or dead as before; and no later merge of any tags, in any order,
    brings back a record whose captured generation of this tag is older. *)
Theorem invalidation_exact reg id g g' rec now epoch ms :
  registry_ok reg -> 0 <= id -> lookup_generation reg id = Some g -> g < g' ->
  Forall (fun t => 0 <= tag_id t) (tags rec) -> Forall (fun '(i, _) => 0 <= i) ms ->
  let reg' := merge_generation reg id g' in
  let alive_in reg := is_alive rec now epoch (lookup_generation reg) in
  (alive_in reg = true -> id ∈ (tag_id <$> tags rec) -> alive_in reg' = false)
  /\ (id ∉ (tag_id <$> tags rec) -> alive_in reg' = alive_in reg)
  /\ (forall t, t ∈ tags rec -> tag_id t = id -> generation t < g' ->
        alive_in (foldl (fun reg '(i, g) => merge_generation reg i g) reg' ms) = false).
Proof.
  intros Hr Hid Hl Hlt Htags Hms reg' alive_in. rewrite Forall_forall in Htags.
  assert (forall i, 0 <= i -> lookup_generation reg' i
            = if decide (i = id) then Some g' else lookup_generation reg i) as Hreg'.
  { intros i Hi. subst reg'. rewrite merge_lookup by done.
    case_decide; [|done]. subst i. rewrite Hl. simpl. f_equal. lia. }
  subst alive_in. cbv beta. conjs.
  - intros Ha Hin. apply not_true_iff_false. intros Ha'.
    apply is_alive_spec in Ha as (_ & _ & Ha), Ha' as (_ & _ & Ha').
    apply list_elem_of_fmap in Hin as (t & -> & Ht).
    specialize (Ha t Ht). specialize (Ha' t Ht). rewrite Hreg', decide_True in Ha' by auto.
    rewrite Ha in Hl. injection Hl as Hl. injection Ha' as Ha'. lia.
  - intros Hnin. apply eq_true_iff_eq. rewrite !is_alive_spec.
    assert (forall t, t ∈ tags rec -> lookup_generation reg' (tag_id t) = lookup_generation reg (tag_id t)) as Hsame.
    { intros t Ht. rewrite Hreg' by auto. rewrite decide_False; [done|]. intros Heq. apply Hnin.
      apply list_elem_of_fmap. eauto. }
    split; intros (H1 & H2 & H3); (split; [done|split; [done|]]); intros t Ht.
    + rewrite <- Hsame by done. auto.
    + rewrite Hsame by done. auto.
  - intros t Ht Heq Hold. apply not_true_iff_false. intros (_ & _ & Ha)%is_alive_spec.
    specialize (Ha t Ht). rewrite Heq in Ha.
    destruct (merge_lookup_ge reg' id g' ms) as (g2 & Hg2 & Hge).
    + by apply merge_ok.
    + done.
    + exists g'. split; [|lia]. rewrite Hreg' by done. by rewrite decide_True.
    + done.
    + rewrite Hg2 in Ha. injection Ha as Ha. lia.
Qed.
