(* ===== verification/Read.v ===== *)
(** [vash-store/src/read.rs]: point and batch reads.  A read opens its own
    transaction, takes the clock and the epoch once ([Snapshot]), and never
    writes; the registry lock is taken only for a record that carries tags. *)

From S2P Require Import Prelude Bytes Core Record Clock Arith Command Backend.
From S2P Require Import IndexKeys Tags Engine Apply Cache.

(** The clock and flush epoch a batch of keys is judged against. *)
Record Snapshot := mkSnapshot { at_now_ms : Z; at_epoch : Z }.

Section Read.
Context {T : Type} {BT : Backend T}.

(** [LazyTags] hands the registry out on demand; what a record without tags
    would have been told does not matter, and the source answers [None]. *)
Definition read_alive {A} (txn : T) (registry : TagRegistry) (at_ : Snapshot) (key : bytes)
    (project : RecordRef -> A) : Result StoreError (option A) :=
  blob ← txn_get txn Main key;
  match blob with
  | None => Ok None
  | Some blob =>
      record ← map_err SE_Core (RecordRef_parse blob);
      let lookup := if needs_tag_registry record then Some registry else None in
      if negb (is_alive record (at_now_ms at_) (at_epoch at_)
                 (fun id => held ← lookup; lookup_generation held id))
      then Ok None
      else Ok (Some (project record))
  end.

Definition read_record (txn : T) (registry : TagRegistry) (at_ : Snapshot) (key : bytes)
    : Result StoreError (option Value) :=
  read_alive txn registry at_ key value_of.

Definition snapshot_of (now_ms : Z) (ram : Ram) : Snapshot := mkSnapshot now_ms (ram_epoch ram).

Definition get (env : T) (ram : Ram) (now_ms : Z) (key : bytes) : Result StoreError (option Value) :=
  rtxn ← txn_begin env;
  read_record rtxn (ram_tags ram) (snapshot_of now_ms ram) key.

(** [get_with] and [BatchReader::get_with]: project a borrowed value. *)
Definition get_with {R} (env : T) (ram : Ram) (now_ms : Z) (key : bytes) (project : Value -> R)
    : Result StoreError (option R) :=
  rtxn ← txn_begin env;
  read_alive rtxn (ram_tags ram) (snapshot_of now_ms ram) key (fun record => project (value_of record)).

Definition get_many (env : T) (ram : Ram) (now_ms : Z) (keys : list bytes)
    : Result StoreError (list (option Value)) :=
  rtxn ← txn_begin env;
  collect (read_record rtxn (ram_tags ram) (snapshot_of now_ms ram)) keys.

Definition deadline (env : T) (ram : Ram) (now_ms : Z) (key : bytes) : Result StoreError (option Z) :=
  rtxn ← txn_begin env;
  read_alive rtxn (ram_tags ram) (snapshot_of now_ms ram) key expires_at_ms.

Definition deadlines (env : T) (ram : Ram) (now_ms : Z) (keys : list bytes)
    : Result StoreError (list (option Z)) :=
  rtxn ← txn_begin env;
  collect (fun key => read_alive rtxn (ram_tags ram) (snapshot_of now_ms ram) key expires_at_ms) keys.

End Read.

(** ** What reads mean *)

Section Spec.
Context {T : Type} {BT : Backend T} {BL : BackendLaws T} {HS : Hash}.
Variable g : Z.

(** A result is the expected one, unless the engine failed (and may). *)
Definition yields {A} (r : Result StoreError A) (a : A) : Prop := r = Ok a \/ engine_error r.

Lemma yields_bind {A B} (m : Result StoreError A) (f : A -> Result StoreError B) a b :
  yields m a -> yields (f a) b -> yields (m ≫= f) b.
Proof. intros [->|He] Hf; [done|]. right. by destruct m. Qed.

Lemma yields_collect {A B} (f : A -> Result StoreError B) (h : A -> B) l :
  (forall x, x ∈ l -> yields (f x) (h x)) -> yields (collect f l) (h <$> l).
Proof.
  induction l as [|x l IH]; intros H; [by left|]. cbn [collect].
  eapply yields_bind; [apply H; by left|]. eapply yields_bind; [apply IH; intros; apply H; by right|].
  by left.
Qed.

Lemma lazy_tags_irrelevant rec now epoch reg :
  is_alive rec now epoch
    (fun id => held ← (if needs_tag_registry rec then Some reg else None); lookup_generation held id)
  = is_alive rec now epoch (lookup_generation reg).
Proof.
  unfold needs_tag_registry, is_alive, tags_alive. by destruct (tags rec).
Qed.

Lemma read_alive_yields {A} (txn : T) ram now_ms k (project : RecordRef -> A) :
  Inv g (view txn) ->
  yields (read_alive txn (ram_tags ram) (snapshot_of now_ms ram) k project)
    (project <$> seen now_ms (view txn) ram k).
Proof.
  intros Hi. unfold read_alive. destruct (law_get txn Main k) as [->|[He _]].
  2:{ right. by destruct (txn_get txn Main k). }
  rewrite bind_ok. cbn [vget]. unfold seen. rewrite recs_lookup.
  destruct (v_main (view txn) !! k) as [blob|] eqn:E; [|by left].
  destruct (inv_main _ _ Hi _ _ E) as [rec Hr]. cbn [mbind option_bind]. rewrite Hr.
  cbn [map_err result_ok option_bind]. rewrite bind_ok, lazy_tags_irrelevant.
  unfold alive. cbn [snapshot_of at_now_ms at_epoch]. cbn [mbind option_bind].
  destruct (is_alive rec now_ms _ _); by left.
Qed.

Lemma begin_yields {A} (env : T) (f : T -> Result StoreError A) a :
  (forall txn, view txn = view env -> yields (f txn) a) -> yields (txn_begin env ≫= f) a.
Proof.
  intros H. pose proof (law_begin env) as Hb. destruct (txn_begin env); [by apply H|by right|by right].
Qed.

Lemma reads_exact_ok (env : T) ram now_ms k keys R (project : Value -> R) :
  Inv g (view env) ->
  let sees := seen now_ms (view env) ram in
  yields (get env ram now_ms k) (value_of <$> sees k)
  /\ yields (deadline env ram now_ms k) (expires_at_ms <$> sees k)
  /\ yields (get_with env ram now_ms k project) ((fun r => project (value_of r)) <$> sees k)
  /\ yields (get_many env ram now_ms keys) ((fun k => value_of <$> sees k) <$> keys)
  /\ yields (deadlines env ram now_ms keys) ((fun k => expires_at_ms <$> sees k) <$> keys).
Proof.
  intros Hi sees. subst sees. cbv beta.
  conjs; apply begin_yields; intros txn Hv; rewrite <- Hv in *;
    first [by apply read_alive_yields | apply yields_collect; intros; by apply read_alive_yields].
Qed.

(** ** The properties *)

(** Reads answer from the abstract cache. [get] returns exactly the record a
    client sees under the key (value, flags, token, deadline) or nothing; the
    header-only read agrees with it; a batch is the pointwise read of one
    snapshot, in request order; projecting inside the transaction changes
    nothing; and no read needs the tag registry for an untagged record. Any
    other outcome is an engine failure. *)
Theorem reads_exact (env : T) ram now_ms k keys R (project : Value -> R) :
  Inv g (view env) ->
  let sees := seen now_ms (view env) ram in
  yields (get env ram now_ms k) (value_of <$> sees k)
  /\ yields (deadline env ram now_ms k) (expires_at_ms <$> sees k)
  /\ yields (get_with env ram now_ms k project) ((fun r => project (value_of r)) <$> sees k)
  /\ yields (get_many env ram now_ms keys) ((fun k => value_of <$> sees k) <$> keys)
  /\ yields (deadlines env ram now_ms keys) ((fun k => expires_at_ms <$> sees k) <$> keys).
Proof. apply reads_exact_ok. Qed.

End Spec.
