(* ===== verification/Shard.v ===== *)
(** [vash-store/src/shard.rs]: routing keys to shards and grouping a batch by
    shard.  Keys are routed by the stable hash, reduced with a mask when the
    shard count is a power of two. *)

From S2P Require Import Prelude Bytes Core Backend.

Definition is_power_of_two (n : Z) : bool := (0 <? n) && (Z.land n (n - 1) =? 0).

Definition shard_mask (count : Z) : option Z :=
  if is_power_of_two count then Some (count - 1) else None.

(** [Shards::index_of]. *)
Definition index_of {HS : Hash} (count : Z) (mask : option Z) (key : bytes) : Z :=
  if count =? 1 then 0
  else
    let hash := xxh3_64 key in
    match mask with
    | Some mask => Z.land hash mask
    | None => hash mod count
    end.

(** One item of a batch, and where it came from. *)
Record Placed (A : Type) := mkPlaced { pl_shard : nat; pl_position : nat; pl_item : A }.

Arguments mkPlaced {A} pl_shard pl_position pl_item.
Arguments pl_shard {A} p.
Arguments pl_position {A} p.
Arguments pl_item {A} p.

Record Grouped (A : Type) := mkGrouped { gr_placed : list (Placed A); gr_bounds : list nat }.

Arguments mkGrouped {A} gr_placed gr_bounds.
Arguments gr_placed {A} g.
Arguments gr_bounds {A} g.

Definition shard_le {A} (x y : Placed A) : Prop := (pl_shard x <= pl_shard y)%nat.

#[global] Instance shard_le_dec {A} (x y : Placed A) : Decision (shard_le x y).
Proof. unfold shard_le. apply _. Defined.

#[global] Instance shard_le_total {A} : Total (@shard_le A).
Proof. intros x y. unfold shard_le. lia. Qed.

#[global] Instance shard_le_trans {A} : Transitive (@shard_le A).
Proof. intros x y z. unfold shard_le. lia. Qed.

(** [slice::sort_unstable_by_key] by shard: some permutation in shard order.
    The standard library promises no more, and which one it is may depend on
    the whole slice, so it is a parameter. *)
Class SortUnstable := {
  sort_unstable {A} : list (Placed A) -> list (Placed A);
  sort_permutes {A} (l : list (Placed A)) : sort_unstable l ≡ₚ l;
  sort_sorts {A} (l : list (Placed A)) : StronglySorted shard_le (sort_unstable l)
}.

(** One admissible outcome, from a merge sort that moves equal items. *)
Program Definition some_sort : SortUnstable := {| sort_unstable A := merge_sort shard_le |}.
Next Obligation. intros. apply merge_sort_Permutation. Qed.
Next Obligation. intros. apply StronglySorted_merge_sort; apply _. Qed.

Section Group.
Context {HS : Hash} {SU : SortUnstable} {A : Type}.
Variable count : nat.
Variable mask : option Z.
Variable key_of : A -> bytes.

Definition place (position : nat) (item : A) : Placed A :=
  mkPlaced (Z.to_nat (index_of (Z.of_nat count) mask (key_of item))) position item.

(** [bounds[entry.shard] = index], over the items from the last to the first. *)
Definition mark_starts (placed : list (Placed A)) (bounds : list nat) : list nat :=
  foldr (fun '(index, entry) bounds => <[pl_shard entry := index]> bounds) bounds
    (imap (fun index entry => (index, entry)) placed).

(** [for index in (0..count).rev() { bounds[index] = min(bounds[index], bounds[index + 1]) }] *)
Fixpoint fill_back (bounds : list nat) : list nat :=
  match bounds with
  | [] => []
  | b :: rest =>
      let rest := fill_back rest in
      match rest with
      | [] => [b]
      | next :: _ => Nat.min b next :: rest
      end
  end.

Definition group (items : list A) : Grouped A :=
  let placed := sort_unstable (imap place items) in
  let bounds := replicate (S count) (length placed) in
  mkGrouped placed (fill_back (mark_starts placed bounds)).

(** [Grouped::runs]: each shard with at least one item, and its items. *)
Definition run_of (g : Grouped A) (shard : nat) : list (Placed A) :=
  let start := nth shard (gr_bounds g) 0%nat in
  let stop := nth (S shard) (gr_bounds g) 0%nat in
  take (stop - start) (drop start (gr_placed g)).

Definition runs (g : Grouped A) : list (nat * list (Placed A)) :=
  filter (fun '(_, run) => run <> [])
    ((fun shard => (shard, run_of g shard)) <$> seq 0 (length (gr_bounds g) - 1)).

End Group.

(** ** Routing *)

Lemma power_of_two_log n : is_power_of_two n = true -> n = 2 ^ Z.log2 n.
Proof.
  unfold is_power_of_two. rewrite andb_true_iff, Z.ltb_lt, Z.eqb_eq. intros [Hn Hl].
  pose proof (Z.log2_spec n Hn) as [H1 H2].
  pose proof (Z.pow_pos_nonneg 2 (Z.log2 n) ltac:(lia) (Z.log2_nonneg n)).
  destruct (Z.le_gt_cases n (2 ^ Z.log2 n)); [lia|]. exfalso.
  assert (Z.testbit (Z.land n (n - 1)) (Z.log2 n) = true) as Hb.
  { rewrite Z.land_spec, Z.bit_log2 by done.
    replace (Z.log2 n) with (Z.log2 (n - 1)); [by rewrite Z.bit_log2 by lia|].
    apply Z.log2_unique; [apply Z.log2_nonneg|lia]. }
  by rewrite Hl, Z.bits_0 in Hb.
Qed.

Lemma land_mask h n : is_power_of_two n = true -> Z.land h (n - 1) = h mod n.
Proof.
  intros H. rewrite (power_of_two_log n H).
  replace (2 ^ Z.log2 n - 1) with (Z.ones (Z.log2 n)) by (rewrite Z.ones_equiv; lia).
  apply Z.land_ones. apply Z.log2_nonneg.
Qed.

Lemma index_of_mod {HS : Hash} count key :
  1 <= count -> index_of count (shard_mask count) key = xxh3_64 key mod count.
Proof.
  intros Hc. unfold index_of, shard_mask. destruct (Z.eqb_spec count 1) as [->|].
  - by rewrite Z.mod_1_r.
  - destruct (is_power_of_two count) eqn:E; [by apply land_mask|done].
Qed.

(** The mask is the modulo: for every shard count, [index_of] sends a key to
    its hash modulo the count, so the fast path routes every key exactly where
    the division would and the index is always in range; every power of two
    takes the fast path. *)
Theorem routing_exact {HS : Hash} (count : Z) (key : bytes) (n : Z) :
  1 <= count -> 0 <= n ->
  index_of count (shard_mask count) key = xxh3_64 key mod count
  /\ 0 <= index_of count (shard_mask count) key < count
  /\ shard_mask (2 ^ n) = Some (2 ^ n - 1)
  /\ (is_Some (shard_mask count) -> exists k, 0 <= k /\ count = 2 ^ k).
Proof.
  intros Hc Hn. conjs.
  - by apply index_of_mod.
  - rewrite index_of_mod by done. apply Z.mod_pos_bound. lia.
  - rewrite index_of_mod by done. apply Z.mod_pos_bound. lia.
  - unfold shard_mask, is_power_of_two. pose proof (Z.pow_pos_nonneg 2 n ltac:(lia) Hn).
    rewrite (proj2 (Z.ltb_lt _ _)) by lia.
    replace (2 ^ n - 1) with (Z.ones n) by (rewrite Z.ones_equiv; lia).
    rewrite Z.land_ones, Z.mod_same by lia. done.
  - unfold shard_mask. destruct (is_power_of_two count) eqn:E; [|by intros []].
    intros _. exists (Z.log2 count). split; [apply Z.log2_nonneg|by apply power_of_two_log].
Qed.

(** ** Grouping *)

(** Least element of a non-empty list. *)
Fixpoint least (l : list nat) : nat :=
  match l with
  | [] => 0
  | [x] => x
  | x :: rest => Nat.min x (least rest)
  end.

Lemma least_spec l : l <> [] -> least l ∈ l /\ forall x, x ∈ l -> (least l <= x)%nat.
Proof.
  induction l as [|x [|y l] IH]; [done| |]; intros _.
  - cbn. split; [by left|]. by intros z ->%list_elem_of_singleton.
  - destruct IH as [IH1 IH2]; [done|]. change (least (x :: y :: l)) with (Nat.min x (least (y :: l))).
    split.
    + destruct (Nat.min_spec x (least (y :: l))) as [[_ ->]|[_ ->]]; [by left|by right].
    + intros z [->|Hz]%elem_of_cons; [lia|]. specialize (IH2 z Hz). lia.
Qed.

Lemma least_unique l m : m ∈ l -> (forall x, x ∈ l -> (m <= x)%nat) -> least l = m.
Proof.
  intros Hm Hle. destruct (least_spec l) as [H1 H2]; [by intros ->; apply elem_of_nil in Hm|].
  specialize (Hle _ H1). specialize (H2 _ Hm). lia.
Qed.

Lemma fill_back_least l s :
  (s < length l)%nat -> nth s (fill_back l) 0%nat = least (drop s l) /\ length (fill_back l) = length l.
Proof.
  revert s. induction l as [|b l IH]; intros s Hs; [simpl in Hs; lia|].
  destruct l as [|b' l].
  { simpl in *. destruct s; [done|lia]. }
  assert (exists next rest, fill_back (b' :: l) = next :: rest) as (next & rest & E).
  { destruct (IH 0%nat) as [_ Hl]; [simpl; lia|].
    destruct (fill_back (b' :: l)) as [|a c] eqn:E'; [done|eauto]. }
  change (fill_back (b :: b' :: l)) with
    (match fill_back (b' :: l) with [] => [b] | next :: _ => Nat.min b next :: fill_back (b' :: l) end).
  destruct (IH 0%nat) as [H0 Hl]; [simpl; lia|]. rewrite E in *.
  destruct s as [|s].
  - cbn [nth length] in *. split; [|lia]. rewrite H0. by rewrite !drop_0.
  - destruct (IH s) as [Hs' _]; [simpl in *; lia|]. cbn [nth length drop] in *. split; [done|lia].
Qed.

(** The position of the first item of shard [s] or later. *)
Fixpoint first_from {A} (s : nat) (l : list (Placed A)) : nat :=
  match l with
  | [] => 0
  | e :: l' => if (s <=? pl_shard e)%nat then 0 else S (first_from s l')
  end.

Fixpoint mark {A} (k : nat) (l : list (Placed A)) (bounds : list nat) : list nat :=
  match l with
  | [] => bounds
  | e :: l' => <[pl_shard e := k]> (mark (S k) l' bounds)
  end.

Lemma mark_starts_mark {A} (l : list (Placed A)) bounds : mark_starts l bounds = mark 0 l bounds.
Proof.
  unfold mark_starts.
  assert (forall k, foldr (fun '(index, entry) bounds => <[pl_shard entry := index]> bounds) bounds
    (imap (fun index entry => ((k + index)%nat, entry)) l) = mark k l bounds) as H; [|apply (H 0%nat)].
  induction l as [|e l IH]; intros k; [done|]. rewrite imap_cons. cbn [foldr mark].
  rewrite Nat.add_0_r. f_equal. rewrite <- (IH (S k)). f_equal. apply imap_ext. intros. simpl.
  f_equal. lia.
Qed.

Lemma length_mark {A} k (l : list (Placed A)) bounds : length (mark k l bounds) = length bounds.
Proof. revert k. induction l as [|e l IH]; intros k; [done|]. cbn. by rewrite length_insert. Qed.

Lemma elem_of_drop_lookup (l : list nat) s x :
  x ∈ drop s l <-> exists i, (s <= i)%nat /\ l !! i = Some x.
Proof.
  rewrite list_elem_of_lookup. split.
  - intros (i & Hi). rewrite lookup_drop in Hi. exists (s + i)%nat. split; [lia|done].
  - intros (i & Hi & Hl). exists (i - s)%nat. rewrite lookup_drop. by replace (s + (i - s))%nat with i by lia.
Qed.

Lemma least_mark {A} count k (l : list (Placed A)) n s :
  Forall (fun e => (pl_shard e < count)%nat) l -> (s <= count)%nat -> n = (k + length l)%nat ->
  let m := mark k l (replicate (S count) n) in
  least (drop s m) = (k + first_from s l)%nat.
Proof.
  intros Hl Hs. revert k n. induction Hl as [|e l He Hl IH]; intros k n Hn m.
  - apply least_unique.
    + apply elem_of_drop_lookup. exists s. split; [lia|]. apply lookup_replicate.
      simpl in *. split; lia.
    + intros x (i & _ & [-> _]%lookup_replicate)%elem_of_drop_lookup. simpl in *. lia.
  - specialize (IH (S k) n). simpl in Hn. set (m' := mark (S k) l (replicate (S count) n)) in *.
    assert (length m' = S count) as Hlen by (subst m'; by rewrite length_mark, length_replicate).
    destruct (least_spec (drop s m')) as [H1 H2].
    { intros E. apply (f_equal length) in E. rewrite length_drop in E. simpl in E. lia. }
    rewrite IH in H1, H2 by lia. subst m. cbn [mark first_from]. fold m'.
    destruct (Nat.leb_spec s (pl_shard e)).
    + apply least_unique.
      * apply elem_of_drop_lookup. exists (pl_shard e). split; [done|].
        rewrite list_lookup_insert_eq; [f_equal; lia|lia].
      * intros x (i & Hi & Hx)%elem_of_drop_lookup.
        destruct (decide (i = pl_shard e)) as [->|Hne].
        -- rewrite list_lookup_insert_eq in Hx by lia. injection Hx as <-. lia.
        -- rewrite list_lookup_insert_ne in Hx by done.
           assert (S k + first_from s l <= x)%nat; [|lia].
           apply H2, elem_of_drop_lookup. eauto.
    + apply least_unique.
      * apply elem_of_drop_lookup in H1 as (i & Hi & Hx). apply elem_of_drop_lookup.
        exists i. split; [done|]. rewrite list_lookup_insert_ne by lia. rewrite Hx. f_equal. lia.
      * intros x (i & Hi & Hx)%elem_of_drop_lookup. rewrite list_lookup_insert_ne in Hx by lia.
        assert (S k + first_from s l <= x)%nat; [|lia]. apply H2, elem_of_drop_lookup. eauto.
Qed.

(** In shard order, the items from the first of shard [s] to the first of a
    later one are the items of shard [s]. *)
Lemma sorted_run {A} (l : list (Placed A)) s :
  StronglySorted shard_le l ->
  take (first_from (S s) l - first_from s l) (drop (first_from s l) l)
  = filter (fun e => pl_shard e = s) l.
Proof.
  induction 1 as [|e l Hl IH Hf]; [done|]. cbn [first_from]. rewrite Forall_forall in Hf.
  destruct (Nat.leb_spec s (pl_shard e)), (Nat.leb_spec (S s) (pl_shard e)); try lia.
  - cbn [Nat.sub take drop]. rewrite filter_cons, decide_False by lia. symmetry.
    apply filter_none. intros x Hx. specialize (Hf x Hx). unfold shard_le in Hf. lia.
  - assert (pl_shard e = s) by lia. rewrite filter_cons, decide_True by done.
    assert (first_from s l = 0%nat) as E.
    { destruct l as [|e' l]; [done|]. cbn [first_from]. rewrite (proj2 (Nat.leb_le _ _)); [done|].
      specialize (Hf e' ltac:(left)). unfold shard_le in Hf. lia. }
    rewrite E in IH. rewrite Nat.sub_0_r, drop_0 in *. cbn [take]. by f_equal.
  - cbn [drop]. rewrite filter_cons, decide_False by lia.
    replace (S (first_from (S s) l) - S (first_from s l))%nat
      with (first_from (S s) l - first_from s l)%nat by lia. done.
Qed.

Section GroupSpec.
Context {HS : Hash} {SU : SortUnstable} {A : Type}.
Variable count : nat.
Variable key_of : A -> bytes.
Hypothesis count_pos : (0 < count)%nat.

Abbreviation placed_of items := (imap (place count (shard_mask (Z.of_nat count)) key_of) items).
Abbreviation grouped items := (group count (shard_mask (Z.of_nat count)) key_of items).

Lemma place_in_range pos item :
  (pl_shard (place count (shard_mask (Z.of_nat count)) key_of pos item) < count)%nat.
Proof.
  unfold place. cbn [pl_shard]. rewrite index_of_mod by lia.
  pose proof (Z.mod_pos_bound (xxh3_64 (key_of item)) (Z.of_nat count)). lia.
Qed.

Lemma placed_elem items p :
  p ∈ placed_of items ->
  (pl_shard p < count)%nat /\ items !! pl_position p = Some (pl_item p)
  /\ pl_shard p = Z.to_nat (index_of (Z.of_nat count) (shard_mask (Z.of_nat count)) (key_of (pl_item p))).
Proof.
  intros (i & Hi)%list_elem_of_lookup. rewrite list_lookup_imap in Hi.
  destruct (items !! i) as [x|] eqn:E; [|done]. injection Hi as <-.
  split_and!; [apply place_in_range|done|done].
Qed.

Lemma run_of_filter items s :
  (s < count)%nat ->
  run_of (grouped items) s = filter (fun e => pl_shard e = s) (sort_unstable (placed_of items)).
Proof.
  intros Hs. set (l := sort_unstable (placed_of items)).
  assert (Forall (fun e => (pl_shard e < count)%nat) l) as Hr.
  { apply Forall_forall. intros p Hp. subst l. rewrite sort_permutes in Hp.
    by apply placed_elem in Hp as [? _]. }
  unfold run_of, group. cbn [gr_placed gr_bounds]. fold l.
  rewrite mark_starts_mark. set (m := mark 0 l (replicate (S count) (length l))).
  assert (length m = S count) as Hlen by (subst m; by rewrite length_mark, length_replicate).
  rewrite (proj1 (fill_back_least m s ltac:(lia))), (proj1 (fill_back_least m (S s) ltac:(lia))).
  subst m. rewrite !(least_mark count 0 l (length l)) by (done || lia). cbn [Nat.add].
  apply sorted_run. apply sort_sorts.
Qed.

Lemma length_bounds items : length (gr_bounds (grouped items)) = S count.
Proof.
  unfold group. cbn [gr_bounds]. rewrite mark_starts_mark.
  set (m := mark _ _ _). assert (length m = S count) as Hlen by (subst m; by rewrite length_mark, length_replicate).
  rewrite (proj2 (fill_back_least m 0 ltac:(lia))). done.
Qed.

Lemma runs_elem items s run :
  (s, run) ∈ runs (grouped items) <-> (s < count)%nat /\ run = run_of (grouped items) s /\ run <> [].
Proof.
  unfold runs. rewrite length_bounds. cbn [Nat.sub]. rewrite Nat.sub_0_r.
  rewrite list_elem_of_filter, list_elem_of_fmap. split.
  - intros (Hne & s' & [= -> ->] & Hin). apply elem_of_seq in Hin. split_and!; [lia|done|done].
  - intros (Hs & -> & Hne). split; [done|]. exists s. split; [done|]. apply elem_of_seq. lia.
Qed.

Lemma filters_permute (l : list (Placed A)) :
  Forall (fun e => (pl_shard e < count)%nat) l ->
  mjoin ((fun s => filter (fun e => pl_shard e = s) l) <$> seq 0 count) ≡ₚ l.
Proof.
  intros Hl. assert (forall n k, (forall e, e ∈ l -> (k <= pl_shard e < k + n)%nat \/ (pl_shard e < k)%nat) ->
    mjoin ((fun s => filter (fun e => pl_shard e = s) l) <$> seq k n)
      ≡ₚ filter (fun e => (k <= pl_shard e)%nat) l) as H.
  { induction n as [|n IH]; intros k Hk.
    - cbn. rewrite filter_none; [done|]. intros e He Hx. destruct (Hk e He); lia.
    - cbn [seq fmap list_fmap mjoin list_join]. rewrite IH.
      2:{ intros e He. destruct (Hk e He); lia. }
      clear IH Hk Hl. induction l as [|e l' IH]; [done|]. rewrite !filter_cons.
      destruct (decide (pl_shard e = k)), (decide (S k <= pl_shard e)%nat),
        (decide (k <= pl_shard e)%nat); try lia.
      + by rewrite <- app_comm_cons, IH.
      + by rewrite <- Permutation_middle, IH.
      + done. }
  rewrite (H count 0%nat).
  - clear. induction l as [|e l IH]; [done|]. rewrite filter_cons, decide_True by lia. by rewrite IH.
  - rewrite Forall_forall in Hl. intros e He. specialize (Hl e He). left. lia.
Qed.

Lemma mjoin_nonempty {B C} (l : list (B * list C)) :
  mjoin (snd <$> filter (fun '(_, run) => run <> []) l) = mjoin (snd <$> l).
Proof.
  induction l as [|[b run] l IH]; [done|]. rewrite filter_cons. case_decide as Hd.
  - change (run ++ mjoin (snd <$> filter (fun '(_, run) => run <> []) l) = run ++ mjoin (snd <$> l)).
    by rewrite IH.
  - change (mjoin (snd <$> filter (fun '(_, run) => run <> []) l) = run ++ mjoin (snd <$> l)).
    rewrite Hd. exact IH.
Qed.

Lemma group_exact_ok items :
  mjoin (snd <$> runs (grouped items)) ≡ₚ placed_of items
  /\ NoDup (runs (grouped items)).*1
  /\ forall s run, (s, run) ∈ runs (grouped items) ->
       run <> [] /\ (s < count)%nat
       /\ forall p, p ∈ run <->
            items !! pl_position p = Some (pl_item p) /\ pl_shard p = s
            /\ s = Z.to_nat (index_of (Z.of_nat count) (shard_mask (Z.of_nat count)) (key_of (pl_item p))).
Proof.
  split; [|split].
  - unfold runs. rewrite mjoin_nonempty, <- list_fmap_compose, length_bounds.
    cbn [Nat.sub]. rewrite Nat.sub_0_r.
    rewrite (list_fmap_ext _ (fun s => filter (fun e => pl_shard e = s) (sort_unstable (placed_of items)))).
    + rewrite filters_permute; [apply sort_permutes|]. apply Forall_forall. intros p Hp.
      rewrite sort_permutes in Hp. by apply placed_elem in Hp as [? _].
    + intros i s Hs. apply run_of_filter. apply lookup_seq in Hs. lia.
  - unfold runs. assert (NoDup (((fun shard => (shard, run_of (grouped items) shard)) <$>
      seq 0 (length (gr_bounds (grouped items)) - 1))).*1) as Hn.
    { rewrite <- list_fmap_compose. rewrite list_fmap_id. apply NoDup_seq. }
    revert Hn. generalize ((fun shard => (shard, run_of (grouped items) shard)) <$>
      seq 0 (length (gr_bounds (grouped items)) - 1)).
    induction l as [|[s run] l IH]; intros Hn; [done|]. rewrite fmap_cons in Hn.
    apply NoDup_cons in Hn as [Hs Hn]. rewrite filter_cons. case_decide; [|by apply IH].
    rewrite fmap_cons. constructor; [|by apply IH].
    intros Hin. apply Hs. apply list_elem_of_fmap in Hin as (x & Hxe & Hx). apply list_elem_of_fmap.
    exists x. split; [done|]. by apply list_elem_of_filter in Hx as [_ ?].
  - intros s run (Hs & -> & Hne)%runs_elem. split_and!; [done|done|].
    intros p. rewrite run_of_filter, list_elem_of_filter, sort_permutes by done. split.
    + intros [Hp Hin]. apply placed_elem in Hin as (_ & Hit & Hidx). split_and!; congruence.
    + intros (Hit & Hp & Hidx). split; [done|]. apply list_elem_of_lookup.
      exists (pl_position p). rewrite list_lookup_imap, Hit. cbn [fmap option_fmap option_map].
      unfold place. destruct p. cbn [pl_shard pl_position pl_item] in *. congruence.
Qed.

(** ** The properties *)

(** Grouping a batch loses and duplicates nothing, whatever order the
    unstable sort leaves equal shards in: the runs together are a permutation
    of the request with each item's position; each shard appears at most once,
    only with work to do, and with exactly the items whose keys route to it. *)
Theorem group_exact items :
  mjoin (snd <$> runs (grouped items)) ≡ₚ placed_of items
  /\ NoDup (runs (grouped items)).*1
  /\ forall s run, (s, run) ∈ runs (grouped items) ->
       run <> [] /\ (s < count)%nat
       /\ forall p, p ∈ run <->
            items !! pl_position p = Some (pl_item p) /\ pl_shard p = s
            /\ s = Z.to_nat (index_of (Z.of_nat count) (shard_mask (Z.of_nat count)) (key_of (pl_item p))).
Proof. apply group_exact_ok. Qed.

End GroupSpec.

(** ** Witnesses *)

#[local] Existing Instance small_hash.
#[local] Existing Instance some_sort.

Lemma routing_exact_witness :
  index_of 6 (shard_mask 6) (bs "abc") = xxh3_64 (bs "abc") mod 6
  /\ 0 <= index_of 6 (shard_mask 6) (bs "abc") < 6
  /\ shard_mask (2 ^ 4) = Some (2 ^ 4 - 1)
  /\ (is_Some (shard_mask 6) -> exists k, 0 <= k /\ 6 = 2 ^ k).
Proof. apply (routing_exact 6 (bs "abc") 4); lia. Defined.

Definition sample_batch : list bytes := [bs "a"; bs "b"; bs "c"; bs "d"; bs "a"].

Lemma group_exact_witness :
  let g := group 3 (shard_mask 3) (fun k => k) sample_batch in
  mjoin (snd <$> runs g) ≡ₚ imap (place 3 (shard_mask 3) (fun k => k)) sample_batch
  /\ NoDup (runs g).*1
  /\ forall s run, (s, run) ∈ runs g ->
       run <> [] /\ (s < 3)%nat
       /\ forall p, p ∈ run <->
            sample_batch !! pl_position p = Some (pl_item p) /\ pl_shard p = s
            /\ s = Z.to_nat (index_of 3 (shard_mask 3) (pl_item p)).
Proof. apply (group_exact 3 (fun k => k) ltac:(lia) sample_batch). Defined.

(** Two items with the same key (positions 0 and 4) come back in the other
    order: the contract of the sort allows it. *)
Example runs_of_a_batch :
  map (fun '(s, run) => (s, map pl_position run)) (runs (group 4 (shard_mask 4) (fun k => k) sample_batch))
  = [(0%nat, [3%nat]); (1%nat, [4%nat; 0%nat]); (2%nat, [1%nat]); (3%nat, [2%nat])].
Proof. vm_compute. reflexivity. Qed.
