(* ===== verification/Maint.v ===== *)
(** The maintenance passes: the expiry sweeper and the capacity evictor of
    [vash-store/src/expiry.rs], and the resumable tag reclaimer of
    [reclaim.rs].  All three walk an index in key order, a bounded number of
    rows at a time, and delete the records those rows describe. *)

From S2P Require Import Prelude Bytes Core Record Backend.
From S2P Require Import IndexKeys Tags Engine Arith Apply Cache.

(** ** The sweeper and the evictor *)

Inductive Victims : Type := ExpiredOnly | Anything.

#[global] Instance Victims_eq_dec : EqDecision Victims.
Proof. solve_decision. Defined.

Record SweepStats := mkSweepStats {
  sw_scanned : Z; sw_reclaimed : Z; sw_stale : Z; sw_lag_ms : Z; sw_budget_exhausted : bool
}.

(** The scan: rows in index order, up to [budget] of them. *)
Fixpoint collect_victims (now_ms : Z) (budget : Z) (accept : Victims) (rows : list (bytes * bytes))
    (victims : list (bytes * bytes)) (lag_ms : Z)
    : Result StoreError (list (bytes * bytes) * Z * bool) :=
  match rows with
  | [] => Ok (victims, lag_ms, false)
  | (index_key, user_key) :: rows' =>
      match decode_key index_key with
      | None => Err (SE_Corrupt "expiry index key has the wrong length")
      | Some (bucket, _) =>
          if bool_decide (accept = ExpiredOnly) && (now_ms <? bucket) then Ok (victims, 0, false)
          else
            let lag_ms :=
              match victims with
              | [] => if bucket <=? now_ms then saturating_sub now_ms bucket else lag_ms
              | _ => lag_ms
              end in
            let victims := victims ++ [(index_key, user_key)] in
            if budget <=? len victims then Ok (victims, lag_ms, true)
            else collect_victims now_ms budget accept rows' victims lag_ms
      end
  end.

Definition count_reclaimed (s : SweepStats) : SweepStats :=
  mkSweepStats (sw_scanned s) (sw_reclaimed s + 1) (sw_stale s) (sw_lag_ms s) (sw_budget_exhausted s).

Definition count_stale (s : SweepStats) : SweepStats :=
  mkSweepStats (sw_scanned s) (sw_reclaimed s) (sw_stale s + 1) (sw_lag_ms s) (sw_budget_exhausted s).

Section Sweep.
Context {T : Type} {BT : Backend T} {HS : Hash}.
Variable cfg : Config.
Variable now_ms : Z.

(** Whether an entry still describes its record, and the pass may take it. *)
Definition takes (accept : Victims) (entry_bucket : Z) (record : RecordRef) : bool :=
  (bucket_for (expires_at_ms record) (bucket_granularity_ms cfg) =? entry_bucket)
  && match accept with ExpiredOnly => is_expired record now_ms | Anything => true end.

Definition drain_victim (accept : Victims) (stats : SweepStats) (victim : bytes * bytes)
    : StoreM T SweepStats :=
  let '(index_key, user_key) := victim in
  '(entry_bucket, _) ← lift (expect (decode_key index_key) "validated above");
  blob ← db_get Main user_key;
  stats ←
    match blob with
    | Some blob =>
        record ← lift_core (RecordRef_parse blob);
        if takes accept entry_bucket record
        then
          let tag_ids := tag_id <$> tags record in
          _ ← db_delete Main user_key;
          _ ← for_each (fun tag_id => _ ← db_delete TagIdx (IndexKeys.index_key tag_id user_key); mret ()) tag_ids;
          mret (count_reclaimed stats)
        else mret (count_stale stats)
    | None => mret (count_stale stats)
    end;
  _ ← db_delete Exp index_key;
  mret stats.

Definition drain_expiry_index (budget : Z) (accept : Victims) : StoreM T SweepStats :=
  rows ← db_range Exp FULL;
  '(victims, lag_ms, exhausted) ← lift (collect_victims now_ms budget accept rows [] 0);
  fold_each (drain_victim accept) (mkSweepStats (len victims) 0 0 lag_ms exhausted) victims.

Definition sweep (budget : Z) : StoreM T SweepStats := drain_expiry_index budget ExpiredOnly.

Definition evict (budget : Z) : StoreM T SweepStats := drain_expiry_index budget Anything.

(** ** The reclaimer *)

Definition next_job : StoreM T (option (Z * Job)) :=
  rows ← db_range Jobs FULL;
  match rows with
  | [] => mret None
  | (raw_id, raw_job) :: _ =>
      if negb (len raw_id =? 4) then throw (SE_Corrupt "reclaim job key is not a 4-byte tag id")
      else
        job ← lift (Job_decode raw_job);
        mret (Some (be_val raw_id, job))
  end.

(** The scan: up to [budget] rows of the tag's range. *)
Fixpoint collect_batch (budget : Z) (rows batch : list (bytes * bytes))
    : Result StoreError (list (bytes * bytes)) :=
  match rows with
  | [] => Ok batch
  | (index_key, user_key) :: rows' =>
      if negb (len index_key =? INDEX_KEY_LEN) then Err (SE_Corrupt "tag index key has the wrong length")
      else
        let batch := batch ++ [(index_key, user_key)] in
        if budget <=? len batch then Ok batch else collect_batch budget rows' batch
  end.

Definition count_orphaned (s : ReclaimStats) : ReclaimStats :=
  mkReclaimStats (rs_scanned s) (rs_reclaimed s) (rs_orphaned s + 1) (rs_retained s) (rs_completed s).

Definition count_retained (s : ReclaimStats) : ReclaimStats :=
  mkReclaimStats (rs_scanned s) (rs_reclaimed s) (rs_orphaned s) (rs_retained s + 1) (rs_completed s).

Definition count_dead (s : ReclaimStats) : ReclaimStats :=
  mkReclaimStats (rs_scanned s) (rs_reclaimed s + 1) (rs_orphaned s) (rs_retained s) (rs_completed s).

Definition mark_completed (s : ReclaimStats) : ReclaimStats :=
  mkReclaimStats (rs_scanned s) (rs_reclaimed s) (rs_orphaned s) (rs_retained s) true.

(** [record.tags.iter().find(|t| t.tag_id == tag_id)] *)
Definition find_tag (tag : Z) (ts : list TagRef) : option TagRef :=
  List.find (fun t => tag_id t =? tag) ts.

Definition reclaim_row (tag target : Z) (stats : ReclaimStats) (row : bytes * bytes)
    : StoreM T ReclaimStats :=
  let '(row_key, user_key) := row in
  blob ← db_get Main user_key;
  match blob with
  | None =>
      _ ← db_delete TagIdx row_key;
      mret (count_orphaned stats)
  | Some blob =>
      record ← lift_core (RecordRef_parse blob);
      match find_tag tag (tags record) with
      | None =>
          _ ← db_delete TagIdx row_key;
          mret (count_orphaned stats)
      | Some t =>
          let doomed := generation t <? target in
          r ← get_ram;
          let known_dead := negb (alive now_ms r record) in
          if negb doomed && negb known_dead then mret (count_retained stats)
          else
            _ ← db_delete Main user_key;
            _ ← (if negb (expires_at_ms record =? NEVER)
                 then _ ← db_delete Exp (encode_key (expires_at_ms record) user_key
                                          (bucket_granularity_ms cfg)); mret ()
                 else mret ());
            _ ← for_each (fun other => _ ← db_delete TagIdx (IndexKeys.index_key other user_key); mret ())
                  (tag_id <$> tags record);
            mret (count_dead stats)
      end
  end.

Definition reclaim_step (budget : Z) : StoreM T (option ReclaimStats) :=
  found ← next_job;
  match found with
  | None => mret None
  | Some (tag, job) =>
      let '(low, high) := index_range tag in
      let start := match cursor job with Some c => Excluded c | None => Included low end in
      rows ← db_range TagIdx (start, Included high);
      batch ← lift (collect_batch budget rows []);
      stats ← fold_each (reclaim_row tag (target_generation job))
                (mkReclaimStats (len batch) 0 0 0 false) batch;
      let cursor := match last batch with Some (row_key, _) => Some row_key | None => cursor job end in
      if rs_scanned stats <? budget
      then
        _ ← db_delete Jobs (be_bytes 4 tag);
        mret (Some (mark_completed stats))
      else
        _ ← db_put Jobs (be_bytes 4 tag) (Job_encode (mkJob (target_generation job) cursor));
        mret (Some stats)
  end.

End Sweep.
