(* ===== verification/MaintSpec.v ===== *)
(** What the maintenance passes of [Maint.v] guarantee: sweeping is invisible
    to clients, eviction takes the records that are soonest to expire,
    reclaiming only ever takes dead records, and none of them leaves a record
    out of the indexes. *)

From S2P Require Import Prelude Bytes Core Record Clock Command Backend.
From S2P Require Import IndexKeys Tags Engine Arith Apply Cache ApplySpec Maint.

Section Sweep.
Context {T : Type} {BT : Backend T} {BL : BackendLaws T} {HS : Hash}.
Variable cfg : Config.
Variable now_ms : Z.
Hypothesis now_sane : 0 <= now_ms < U64_MAX.

Abbreviation g := (bucket_granularity_ms cfg).

Definition bucket_of (ik : bytes) : Z := match decode_key ik with Some (b, _) => b | None => 0 end.

(** The effect of one victim on the contents. *)
Definition sweep_step (accept : Victims) (vs : Views * SweepStats) (victim : bytes * bytes)
    : Views * SweepStats :=
  let '(v, stats) := vs in let '(ik, uk) := victim in
  match recs v !! uk with
  | Some rec =>
      if takes cfg now_ms accept (bucket_of ik) rec
      then (remove_rows g v uk (Some rec), count_reclaimed stats)
      else (vdel v Exp ik, count_stale stats)
  | None => (vdel v Exp ik, count_stale stats)
  end.

(** What holds of the victims still to come. *)
Definition pending (accept : Victims) (l : list (bytes * bytes)) (v : Views) : Prop :=
  Inv g v /\ NoDup l.*1
  /\ forall ik uk, (ik, uk) ∈ l -> v_exp v !! ik = Some uk
       /\ (accept = ExpiredOnly -> bucket_of ik <= now_ms).

Lemma row_shape v ik uk :
  Inv g v -> v_exp v !! ik = Some uk ->
  fits 64 (bucket_of ik) /\ decode_key ik = Some (bucket_of ik, xxh3_64 uk)
  /\ ik = be_bytes 8 (bucket_of ik) ++ be_bytes 8 (xxh3_64 uk).
Proof.
  intros Hi Hx. destruct (inv_exp_shape _ _ Hi _ _ Hx) as (b & Hb & ->).
  assert (decode_key (be_bytes 8 b ++ be_bytes 8 (xxh3_64 uk)) = Some (b, xxh3_64 uk)) as Hd.
  { unfold decode_key, len. rewrite length_app, !length_be_bytes.
    change (negb (Z.of_nat (8 + 8) =? EXPIRY_KEY_LEN)) with false. cbv iota.
    rewrite take_app_exact, drop_app_exact by apply length_be_bytes.
    by rewrite !(be_val_bytes_fits 64) by eauto with vash. }
  unfold bucket_of. by rewrite Hd.
Qed.

Lemma row_current v ik uk rec :
  Inv g v -> v_exp v !! ik = Some uk -> bucket_for (expires_at_ms rec) g = bucket_of ik ->
  ik = encode_key (expires_at_ms rec) uk g.
Proof.
  intros Hi Hx Hb. destruct (row_shape _ _ _ Hi Hx) as (_ & _ & Hs).
  unfold encode_key. by rewrite Hb.
Qed.

(** Dropping a row that describes no record keeps every record indexed. *)
Lemma drop_exp_row_Inv v ik uk :
  Inv g v -> v_exp v !! ik = Some uk ->
  (forall rec, recs v !! uk = Some rec -> ik <> encode_key (expires_at_ms rec) uk g) ->
  Inv g (vdel v Exp ik).
Proof.
  intros Hi Hx Hne. constructor; unfold vdel; cbn [vset vget v_main v_exp v_tagidx].
  - apply (inv_main _ _ Hi).
  - intros ik' k' [_ Hl]%lookup_delete_Some. by eapply inv_exp_shape.
  - intros k' rec' Hr. change (recs v !! k' = Some rec') in Hr.
    pose proof (inv_exp_cover _ _ Hi _ _ Hr) as Hc. apply lookup_delete_Some. split; [|done].
    intros ->. rewrite Hx in Hc. injection Hc as ->. by destruct (Hne rec').
  - apply (inv_tag_shape _ _ Hi).
  - apply (inv_tag_cover _ _ Hi).
Qed.

Lemma drop_exp_row_Tight v ik : Tight g v -> Tight g (vdel v Exp ik).
Proof.
  intros Ht. constructor; unfold vdel; cbn [vset vget v_main v_exp v_tagidx].
  - intros ik' k' [_ Hl]%lookup_delete_Some. by apply (tight_exp _ _ Ht).
  - apply (tight_tag _ _ Ht).
Qed.

(** A record whose entry is due has expired; so a due entry that is not taken
    describes nothing. *)
Lemma not_taken v accept ik uk rec :
  Inv g v -> v_exp v !! ik = Some uk -> recs v !! uk = Some rec ->
  (accept = ExpiredOnly -> bucket_of ik <= now_ms) ->
  takes cfg now_ms accept (bucket_of ik) rec = false ->
  ik <> encode_key (expires_at_ms rec) uk g.
Proof.
  intros Hi Hx Hr Hdue Ht Heq. unfold takes in Ht. pose proof (recs_fits _ _ _ Hr) as Hf.
  assert (bucket_for (expires_at_ms rec) g = bucket_of ik) as Hb.
  { rewrite Heq. unfold bucket_of. by rewrite decode_encode_key. }
  rewrite Hb, Z.eqb_refl in Ht. simpl in Ht. destruct accept; [|done].
  destruct (bucket_for_due (expires_at_ms rec) g now_ms Hf ltac:(lia)) as [H1 H2].
  { rewrite Hb. auto. }
  unfold is_expired in Ht. rewrite (proj2 (Z.eqb_neq _ _)), (proj2 (Z.leb_le _ _)) in Ht by done. done.
Qed.

Lemma sweep_step_pending accept ik uk l v stats :
  pending accept ((ik, uk) :: l) v -> pending accept l (sweep_step accept (v, stats) (ik, uk)).1.
Proof.
  intros (Hi & Hnd & Hrows). rewrite fmap_cons in Hnd. apply NoDup_cons in Hnd as [Hnin Hnd].
  destruct (Hrows ik uk ltac:(left)) as [Hx Hdue].
  assert (forall ik' uk', (ik', uk') ∈ l -> ik' <> ik) as Hother.
  { intros ik' uk' Hin ->. apply Hnin. apply list_elem_of_fmap. by exists (ik, uk'). }
  assert (forall v', Inv g v' -> (forall ik', ik' <> ik -> v_exp v' !! ik' = v_exp v !! ik') ->
    pending accept l v') as Hstep.
  { intros v' Hi' He. split_and!; [done|done|]. intros ik' uk' Hin. rewrite He by eauto.
    apply Hrows. by right. }
  unfold sweep_step. destruct (recs v !! uk) as [rec|] eqn:Hr.
  - destruct (takes _ _ _ _ _) eqn:Ht; cbn [fst]; apply Hstep.
    + apply remove_rows_Inv; [done|by rewrite Hr].
    + intros ik' Hne. cbn. apply lookup_delete_ne. unfold takes in Ht.
      apply andb_true_iff in Ht as [Ht%Z.eqb_eq _]. by rewrite <- (row_current v ik uk rec).
    + eapply drop_exp_row_Inv; [done|done|]. intros rec' [= <-]%(eq_trans (eq_sym Hr)).
      by eapply not_taken.
    + intros ik' Hne. cbn. by apply lookup_delete_ne.
  - cbn [fst]. apply Hstep.
    + eapply drop_exp_row_Inv; [done|done|]. by rewrite Hr.
    + intros ik' Hne. cbn. by apply lookup_delete_ne.
Qed.

Lemma wp_drain_victim accept stats ik uk l v r (P : SweepStats -> Views -> Ram -> Prop) Qe :
  pending accept ((ik, uk) :: l) v ->
  (pending accept l (sweep_step accept (v, stats) (ik, uk)).1 ->
   P (sweep_step accept (v, stats) (ik, uk)).2 (sweep_step accept (v, stats) (ik, uk)).1 r) ->
  wp (drain_victim (T:=T) cfg now_ms accept stats (ik, uk)) P Qe v r.
Proof.
  intros Hp HP. specialize (HP (sweep_step_pending _ _ _ _ _ _ Hp)).
  destruct Hp as (Hi & _ & Hrows). destruct (Hrows ik uk ltac:(left)) as [Hx Hdue].
  destruct (row_shape _ _ _ Hi Hx) as (Hb & Hd & _).
  unfold drain_victim. do 2 wp_step. rewrite Hd. cbn [expect]. do 3 wp_step.
  unfold sweep_step in HP. pose proof (Inv_old cfg v uk Hi) as Ho. cbn [vget].
  destruct (v_main v !! uk) as [blob|].
  2:{ rewrite Ho in HP. by repeat wp_step. }
  destruct Ho as (rec & Hparse & Hr). rewrite Hr in HP. do 2 wp_step. rewrite Hparse. cbn [map_err].
  destruct (takes _ _ _ _ _) eqn:Ht; [|by repeat wp_step].
  do 3 wp_step. change (for_each _ _) with (clear_tag_rows (T:=T) uk (IndexRows_of rec)).
  apply wp_clear_tag_rows. do 3 wp_step. wp_step. cbn [fst snd] in HP.
  unfold takes in Ht. apply andb_true_iff in Ht as [Ht%Z.eqb_eq _].
  unfold remove_rows, del_exp_row in HP. by rewrite <- (row_current v ik uk rec) in HP.
Qed.

(** The effect of a whole list of victims. *)
Definition swept accept v stats l := foldl (sweep_step accept) (v, stats) l.

Lemma swept_pending accept l v stats : pending accept l v -> pending accept [] (swept accept v stats l).1.
Proof.
  unfold swept. revert v stats. induction l as [|[ik uk] l IH]; intros v stats Hp; cbn [foldl]; [done|].
  apply (sweep_step_pending _ _ _ _ _ stats) in Hp. destruct (sweep_step _ _ _). by apply IH.
Qed.

(** One victim removes at most its own record and always its own row. *)
Lemma sweep_step_effect accept v stats ik uk :
  let vs := sweep_step accept (v, stats) (ik, uk) in
  v_exp v !! ik = Some uk -> Inv g v ->
  (forall k, recs vs.1 !! k = recs v !! k
     \/ (k = uk /\ recs vs.1 !! k = None
         /\ exists rec, recs v !! k = Some rec /\ takes cfg now_ms accept (bucket_of ik) rec = true))
  /\ v_exp vs.1 = delete ik (v_exp v)
  /\ (v_tag_meta vs.1 = v_tag_meta v /\ v_jobs vs.1 = v_jobs v /\ v_meta vs.1 = v_meta v)
  /\ sw_reclaimed vs.2 + sw_stale vs.2 = sw_reclaimed stats + sw_stale stats + 1
  /\ (sw_budget_exhausted vs.2 = sw_budget_exhausted stats /\ sw_scanned vs.2 = sw_scanned stats).
Proof.
  intros vs Hx Hi. subst vs. unfold sweep_step.
  destruct (recs v !! uk) as [rec|] eqn:Hr; [destruct (takes _ _ _ _ _) eqn:Ht|];
    cbn [fst snd]; conjs; try done; try (cbn; lia).
  - intros k. rewrite recs_remove. destruct (decide (k = uk)) as [->|Hne].
    + right. rewrite lookup_delete_eq. eauto.
    + left. by rewrite lookup_delete_ne.
  - cbn. unfold takes in Ht. apply andb_true_iff in Ht as [Ht%Z.eqb_eq _].
    by rewrite <- (row_current v ik uk rec).
  - intros k. by left.
  - intros k. by left.
Qed.

Lemma sweep_step_tight accept v stats ik uk :
  let vs := sweep_step accept (v, stats) (ik, uk) in
  v_exp v !! ik = Some uk -> Tight g v ->
  Tight g vs.1 /\ (accept = Anything -> sw_reclaimed vs.2 = sw_reclaimed stats + 1).
Proof.
  intros vs Hx Ht. subst vs. unfold sweep_step.
  destruct (tight_exp _ _ Ht _ _ Hx) as (rec & Hr & Hik). rewrite Hr.
  destruct (takes _ _ _ _ _) eqn:Hta; cbn [fst snd].
  - split; [|done]. apply remove_rows_Tight; [done|by rewrite Hr].
  - split; [by apply drop_exp_row_Tight|]. intros ->. exfalso. revert Hta. unfold takes.
    rewrite Hik. unfold bucket_of. rewrite decode_encode_key by by eapply recs_fits.
    by rewrite Z.eqb_refl.
Qed.

Lemma swept_effect accept l v stats :
  let vs := swept accept v stats l in
  pending accept l v ->
  Inv g vs.1
  /\ (forall k, recs vs.1 !! k = recs v !! k
       \/ (recs vs.1 !! k = None
           /\ exists ik rec, (ik, k) ∈ l /\ recs v !! k = Some rec
                /\ takes cfg now_ms accept (bucket_of ik) rec = true))
  /\ (forall ik x, v_exp vs.1 !! ik = Some x -> v_exp v !! ik = Some x /\ ik ∉ l.*1)
  /\ (v_tag_meta vs.1 = v_tag_meta v /\ v_jobs vs.1 = v_jobs v /\ v_meta vs.1 = v_meta v)
  /\ (Tight g v -> Tight g vs.1 /\ (accept = Anything -> sw_reclaimed vs.2 = sw_reclaimed stats + len l))
  /\ sw_reclaimed vs.2 + sw_stale vs.2 = sw_reclaimed stats + sw_stale stats + len l
  /\ (sw_budget_exhausted vs.2 = sw_budget_exhausted stats /\ sw_scanned vs.2 = sw_scanned stats).
Proof.
  intros vs Hp. subst vs. unfold swept. revert v stats Hp.
  induction l as [|[ik uk] l IH]; intros v stats Hp; cbn [foldl].
  { cbn [fst snd]. conjs; try done; try (unfold len; cbn; lia); [apply Hp|by left| | ].
    - intros ik x Hx. split; [done|apply not_elem_of_nil].
    - intros Ht. split; [done|]. unfold len. cbn. lia. }
  pose proof (sweep_step_pending _ _ _ _ _ stats Hp) as Hp'.
  destruct Hp as (Hi & _ & Hrows). destruct (Hrows ik uk ltac:(left)) as [Hx _]. clear Hrows.
  destruct (sweep_step_effect accept v stats ik uk Hx Hi) as (E1 & E2 & (E3 & E4 & E5) & E6 & E7 & E8).
  pose proof (sweep_step_tight accept v stats ik uk Hx) as E9.
  destruct (sweep_step accept (v, stats) (ik, uk)) as [v1 st1]. cbn [fst snd] in *.
  destruct (IH v1 st1 Hp') as (F0 & F1 & F2 & (F3 & F4 & F5) & F6 & F7 & F8 & F9).
  assert (len ((ik, uk) :: l) = len l + 1) as Hlen by (unfold len; cbn [length]; lia).
  conjs; try congruence; try lia; try done.
  - intros k. destruct (F1 k) as [->|(Hn & ik' & rec & Hin & Hr & Ht)].
    + destruct (E1 k) as [->|(-> & Hn & rec & Hr & Ht)]; [by left|]. right. split; [done|].
      exists ik, rec. by split; [left|].
    + destruct (E1 k) as [He|(-> & Hn' & _)]; [|congruence]. right. split; [done|].
      exists ik', rec. rewrite <- He. by split; [right|].
  - intros ik' x Hx'. apply F2 in Hx' as [Hx' Hnin]. rewrite E2 in Hx'.
    apply lookup_delete_Some in Hx' as [Hne Hx']. split; [done|].
    rewrite fmap_cons, not_elem_of_cons. done.
  - intros Ht. destruct (E9 Ht) as [Ht1 H1]. destruct (F6 Ht1) as [Ht2 H2]. split; [done|].
    intros Ha. rewrite H2, H1 by done. lia.
Qed.

(** The scan takes a prefix of the index and says why it stopped. *)
Lemma collect_spec budget accept rows vic lag :
  Forall (fun row => is_Some (decode_key row.1)) rows ->
  exists p rest lag' exhausted,
    rows = p ++ rest
    /\ collect_victims now_ms budget accept rows vic lag = Ok (vic ++ p, lag', exhausted)
    /\ Forall (fun row => accept = ExpiredOnly -> bucket_of row.1 <= now_ms) p
    /\ (if exhausted then budget <= len (vic ++ p) /\ p <> []
        else match rest with
             | [] => True
             | row :: _ => accept = ExpiredOnly /\ now_ms < bucket_of row.1
             end).
Proof.
  intros Hd. revert vic lag. induction Hd as [|[ik uk] rows [[b hk] Hb] Hd IH]; intros vic lag.
  { exists [], [], lag, false. cbn. rewrite app_nil_r. by conjs. }
  cbn [collect_victims fst] in *. rewrite Hb.
  assert (bucket_of ik = b) as Hbk by (unfold bucket_of; by rewrite Hb).
  destruct (bool_decide_reflect (accept = ExpiredOnly)) as [Ha|Ha]; cbn [andb].
  - destruct (Z.ltb_spec now_ms b).
    { exists [], ((ik, uk) :: rows), 0, false. rewrite app_nil_r. conjs; try done. cbn. lia. }
    destruct (Z.leb_spec budget (len (vic ++ [(ik, uk)]))).
    + eexists [(ik, uk)], rows, _, true. split_and!; try done. constructor; [|done]. cbn. lia.
    + destruct (IH (vic ++ [(ik, uk)]) (match vic with [] => if b <=? now_ms then saturating_sub now_ms b else lag | _ => lag end))
        as (p & rest & lag' & ex & -> & -> & Hf & Hex).
      exists ((ik, uk) :: p), rest, lag', ex. rewrite <- app_assoc in *. split_and!; try done.
      * constructor; [cbn; lia|done].
      * destruct ex; [|done]. by destruct Hex.
  - destruct (Z.leb_spec budget (len (vic ++ [(ik, uk)]))).
    + eexists [(ik, uk)], rows, _, true. split_and!; try done. by constructor.
    + destruct (IH (vic ++ [(ik, uk)]) (match vic with [] => if b <=? now_ms then saturating_sub now_ms b else lag | _ => lag end))
        as (p & rest & lag' & ex & -> & -> & Hf & Hex).
      exists ((ik, uk) :: p), rest, lag', ex. rewrite <- app_assoc in *. split_and!; try done.
      * by constructor.
      * destruct ex; [|done]. by destruct Hex.
Qed.

Lemma exp_rows_decode v :
  Inv g v -> Forall (fun row => is_Some (decode_key row.1)) (rows_in (v_exp v) FULL).
Proof.
  intros Hi. apply Forall_forall. intros [ik uk] Hin. apply rows_in_elem in Hin as [Hx _].
  cbn [fst]. destruct (row_shape _ _ _ Hi Hx) as (_ & Hd & _). by rewrite Hd.
Qed.

Lemma wp_drain budget accept v r (Q : SweepStats -> Views -> Ram -> Prop) Qe :
  Inv g v ->
  (forall p rest lag (exhausted : bool),
     rows_in (v_exp v) FULL = p ++ rest -> pending accept p v ->
     (if exhausted then budget <= len p /\ p <> []
      else match rest with [] => True | row :: _ => accept = ExpiredOnly /\ now_ms < bucket_of row.1 end) ->
     let vs := swept accept v (mkSweepStats (len p) 0 0 lag exhausted) p in
     Q vs.2 vs.1 r) ->
  wp (drain_expiry_index (T:=T) cfg now_ms budget accept) Q Qe v r.
Proof.
  intros Hi HQ. unfold drain_expiry_index. do 3 wp_step. cbn [vget].
  destruct (collect_spec budget accept _ [] 0 (exp_rows_decode v Hi))
    as (p & rest & lag & ex & Hrows & -> & Hdue & Hex). cbn [app] in *. wp_step.
  assert (pending accept p v) as Hp.
  { split; [done|]. split.
    - pose proof (rows_in_NoDup (v_exp v) FULL) as Hn. rewrite Hrows, fmap_app in Hn.
      by apply NoDup_app in Hn as [? _].
    - intros ik uk Hin. split.
      + assert ((ik, uk) ∈ rows_in (v_exp v) FULL) as Hin' by (rewrite Hrows; apply elem_of_app; by left).
        by apply rows_in_elem in Hin' as [? _].
      + rewrite Forall_forall in Hdue. intros Ha. by apply (Hdue (ik, uk)). }
  apply wp_fold_each with (step := sweep_step accept) (I := pending accept); [|done|].
  - intros [ik uk] l' v' acc' P Hp' HP. by apply wp_drain_victim with (l := l').
  - by apply (HQ p rest lag ex).
Qed.

(** Rows later in the index have later buckets. *)
Lemma later_bucket v p rest ik uk ik' uk' :
  Inv g v -> rows_in (v_exp v) FULL = p ++ rest ->
  (ik, uk) ∈ p -> (ik', uk') ∈ rest -> bucket_of ik <= bucket_of ik'.
Proof.
  intros Hi Hrows Hp Hr.
  assert (forall row, row ∈ p ++ rest -> v_exp v !! row.1 = Some row.2) as Hin.
  { intros [a b] H. rewrite <- Hrows in H. by apply rows_in_elem in H as [? _]. }
  destruct (row_shape v ik uk Hi (Hin (ik, uk) ltac:(apply elem_of_app; by left))) as (Hb & _ & Hs).
  destruct (row_shape v ik' uk' Hi (Hin (ik', uk') ltac:(apply elem_of_app; by right))) as (Hb' & _ & Hs').
  pose proof (rows_in_sorted (v_exp v) FULL) as Hsort. rewrite Hrows in Hsort.
  assert (key_le (ik, uk) (ik', uk')) as Hle.
  { clear -Hsort Hp Hr. induction p as [|x p IH]; [by apply elem_of_nil in Hp|].
    cbn in Hsort. inversion Hsort as [|? ? Hs Hf]; subst. apply elem_of_cons in Hp as [<-|Hp]; [|by apply IH].
    rewrite Forall_forall in Hf. apply Hf. apply elem_of_app. by right. }
  unfold key_le in Hle. cbn [fst] in Hle. rewrite Hs, Hs' in Hle.
  apply encode_key_order in Hle; eauto with vash. lia.
Qed.

(** Where the row of a record that is still there must be. *)
Lemma survivor_row accept v p rest st k rec :
  pending accept p v -> rows_in (v_exp v) FULL = p ++ rest ->
  recs (swept accept v st p).1 !! k = Some rec ->
  (encode_key (expires_at_ms rec) k g, k) ∈ rest
  /\ bucket_of (encode_key (expires_at_ms rec) k g) = bucket_for (expires_at_ms rec) g.
Proof.
  intros Hp Hrows Hr. destruct (swept_effect accept p v st Hp) as (Hi' & _ & Hexp & _).
  pose proof (inv_exp_cover _ _ Hi' _ _ Hr) as Hc. apply Hexp in Hc as [Hc Hnin].
  split.
  - assert ((encode_key (expires_at_ms rec) k g, k) ∈ rows_in (v_exp v) FULL) as Hin
      by (apply rows_in_elem; done).
    rewrite Hrows in Hin. apply elem_of_app in Hin as [Hin|Hin]; [|exact Hin].
    exfalso. apply Hnin. apply list_elem_of_fmap. eexists. split; [|exact Hin]. reflexivity.
  - unfold bucket_of. by rewrite decode_encode_key by by eapply recs_fits.
Qed.

Lemma sweep_invisible_complete_ok budget v r :
  Inv g v ->
  wp (sweep (T:=T) cfg now_ms budget)
    (fun stats v' r' =>
       r' = r /\ Inv g v' /\ (Tight g v -> Tight g v')
       /\ (v_tag_meta v' = v_tag_meta v /\ v_jobs v' = v_jobs v /\ v_meta v' = v_meta v)
       /\ (forall k, recs v' !! k = recs v !! k
            \/ (recs v' !! k = None /\ exists rec, recs v !! k = Some rec /\ is_expired rec now_ms = true))
       /\ (forall k, seen now_ms v' r k = seen now_ms v r k)
       /\ (sw_budget_exhausted stats = false ->
            forall k rec, recs v' !! k = Some rec -> now_ms < bucket_for (expires_at_ms rec) g)
       /\ sw_reclaimed stats + sw_stale stats = sw_scanned stats)
    (fun _ _ _ => False) v r.
Proof.
  intros Hi. apply wp_drain; [done|]. intros p rest lag ex Hrows Hp Hex.
  set (st := mkSweepStats _ _ _ _ _).
  destruct (swept_effect ExpiredOnly p v st Hp) as (F0 & F1 & F2 & F3 & F6 & F7 & F8 & F9).
  assert (forall k, recs (swept ExpiredOnly v st p).1 !! k = recs v !! k
    \/ (recs (swept ExpiredOnly v st p).1 !! k = None
        /\ exists rec, recs v !! k = Some rec /\ is_expired rec now_ms = true)) as Hrec.
  { intros k. destruct (F1 k) as [?|(Hn & ik & rec & _ & Hr & Ht)]; [by left|right].
    split; [done|]. exists rec. split; [done|]. unfold takes in Ht. by apply andb_true_iff in Ht as [_ ?]. }
  cbv zeta. conjs; try done; try (by apply F3); try (by intros Ht; apply F6).
  - intros k. unfold seen. destruct (Hrec k) as [->|(-> & rec & -> & He)]; [done|].
    cbn [mbind option_bind]. unfold alive, is_alive. by rewrite He.
  - rewrite F8. cbn [sw_budget_exhausted st]. intros -> k rec Hr.
    destruct (survivor_row _ _ _ _ _ _ _ Hp Hrows Hr) as [Hin Hb].
    destruct rest as [|[ik0 uk0] rest]; [by apply elem_of_nil in Hin|]. destruct Hex as [_ Hlt].
    cbn [fst] in Hlt. rewrite <- Hb. apply elem_of_cons in Hin as [Heq|Hin].
    + by injection Heq as -> ->.
    + assert (bucket_of ik0 <= bucket_of (encode_key (expires_at_ms rec) k g)); [|lia].
      eapply (later_bucket v (p ++ [(ik0, uk0)]) rest); [done|by rewrite <- app_assoc| |done].
      apply elem_of_app. right. by left.
  - rewrite F9. cbn in F7 |- *. lia.
Qed.

Lemma evict_policy_ok budget v r :
  Inv g v ->
  wp (evict (T:=T) cfg now_ms budget)
    (fun stats v' r' =>
       r' = r /\ Inv g v' /\ (Tight g v -> Tight g v')
       /\ (v_tag_meta v' = v_tag_meta v /\ v_jobs v' = v_jobs v /\ v_meta v' = v_meta v)
       /\ (forall k, recs v' !! k = recs v !! k \/ recs v' !! k = None)
       /\ (forall k rec k' rec', recs v !! k = Some rec -> recs v' !! k = None ->
             recs v' !! k' = Some rec' ->
             bucket_for (expires_at_ms rec) g <= bucket_for (expires_at_ms rec') g)
       /\ (Tight g v -> sw_reclaimed stats = sw_scanned stats)
       /\ (Tight g v -> recs v <> ∅ -> 1 <= sw_reclaimed stats)
       /\ (sw_scanned stats < budget -> recs v' = ∅))
    (fun _ _ _ => False) v r.
Proof.
  intros Hi. apply wp_drain; [done|]. intros p rest lag ex Hrows Hp Hex.
  set (st := mkSweepStats _ _ _ _ _).
  destruct (swept_effect Anything p v st Hp) as (F0 & F1 & F2 & F3 & F6 & F7 & F8 & F9).
  cbv zeta. conjs; try done; try (by intros Ht; apply F6); try (by apply F3).
  - intros k. destruct (F1 k) as [?|[? _]]; [by left|by right].
  - intros k rec k' rec' Hr Hn Hr'.
    destruct (F1 k) as [He|(_ & ik & rec0 & Hin & Hr0 & Ht)]; [congruence|].
    rewrite Hr in Hr0. injection Hr0 as <-. unfold takes in Ht. rewrite andb_true_r in Ht.
    apply Z.eqb_eq in Ht. rewrite Ht.
    destruct (survivor_row _ _ _ _ _ _ _ Hp Hrows Hr') as [Hin' Hb']. rewrite <- Hb'.
    exact (later_bucket v p rest ik k _ k' Hi Hrows Hin Hin').
  - intros Ht. destruct (F6 Ht) as [_ H]. rewrite F9, H by done. cbn. lia.
  - intros Ht Hne. destruct (F6 Ht) as [_ H]. rewrite H by done. cbn.
    destruct p as [|x p]; [|unfold len; cbn [length]; lia]. exfalso. apply Hne.
    apply map_empty. intros k. apply eq_None_not_Some. intros [rec Hr].
    pose proof (inv_exp_cover _ _ Hi _ _ Hr) as Hc.
    assert ((encode_key (expires_at_ms rec) k g, k) ∈ rows_in (v_exp v) FULL) as Hin
      by (apply rows_in_elem; done).
    rewrite Hrows in Hin. cbn [app] in Hin. destruct ex; [by destruct Hex|].
    destruct rest as [|row rest]; [by apply elem_of_nil in Hin|by destruct Hex].
  - rewrite F9. cbn [sw_scanned st]. intros Hlt. destruct ex; [lia|].
    destruct rest as [|row rest]; [|by destruct Hex].
    apply map_empty. intros k. apply eq_None_not_Some. intros [rec Hr].
    destruct (survivor_row _ _ _ _ _ _ _ Hp Hrows Hr) as [Hin _]. by apply elem_of_nil in Hin.
Qed.

(** ** What one drain frees, counted *)

Lemma sweep_step_counts accept v stats ik uk :
  let vs := sweep_step accept (v, stats) (ik, uk) in
  Z.of_nat (size (recs v)) = Z.of_nat (size (recs vs.1)) + (sw_reclaimed vs.2 - sw_reclaimed stats).
Proof.
  intros vs. subst vs. unfold sweep_step.
  destruct (recs v !! uk) as [rec|] eqn:Hr; [destruct (takes _ _ _ _ _)|]; cbn [fst snd].
  - rewrite recs_remove. cbn [sw_reclaimed count_reclaimed].
    rewrite (map_size_delete_Some uk (recs v) ltac:(by eexists)).
    assert (size (recs v) <> O); [|lia]. intros H0%map_size_empty_inv. by rewrite H0 in Hr.
  - change (recs (vdel v Exp ik)) with (recs v). cbn. lia.
  - change (recs (vdel v Exp ik)) with (recs v). cbn. lia.
Qed.

Lemma swept_counts accept l v stats :
  let vs := swept accept v stats l in
  pending accept l v ->
  Z.of_nat (size (recs v)) = Z.of_nat (size (recs vs.1)) + (sw_reclaimed vs.2 - sw_reclaimed stats)
  /\ Z.of_nat (size (v_exp v)) = Z.of_nat (size (v_exp vs.1)) + len l.
Proof.
  intros vs Hp. subst vs. unfold swept. revert v stats Hp.
  induction l as [|[ik uk] l IH]; intros v stats Hp; cbn [foldl].
  { cbn [fst snd]. unfold len. cbn. lia. }
  pose proof (sweep_step_pending _ _ _ _ _ stats Hp) as Hp'.
  destruct Hp as (Hi & _ & Hrows). destruct (Hrows ik uk ltac:(left)) as [Hx _].
  destruct (sweep_step_effect accept v stats ik uk Hx Hi) as (_ & E2 & _).
  pose proof (sweep_step_counts accept v stats ik uk) as E1.
  destruct (sweep_step accept (v, stats) (ik, uk)) as [v1 st1]. cbn [fst snd] in *.
  destruct (IH v1 st1 Hp') as [F1 F2]. rewrite E2, (map_size_delete_Some ik (v_exp v)) in F2 by by eexists.
  assert (size (v_exp v) <> O) as Hne.
  { intros H0%map_size_empty_inv. by rewrite H0 in Hx. }
  assert (len ((ik, uk) :: l) = len l + 1) as -> by (unfold len; cbn [length]; lia). lia.
Qed.

(** Records leave in the order of their buckets: none is taken while one that
    is due sooner stays. *)
Definition soonest_first (v v' : Views) : Prop :=
  forall k rec k' rec', recs v !! k = Some rec -> recs v' !! k = None -> recs v' !! k' = Some rec' ->
    bucket_for (expires_at_ms rec) g <= bucket_for (expires_at_ms rec') g.

(** What a pass over the expiry index leaves of the contents [v] after freeing
    [n] records, the rows it looked at being at least [rows] unless it came to
    the end of the index. *)
Record drained (rows n : Z) (v v' : Views) : Prop := {
  dr_inv : Inv g v';
  dr_tight : Tight g v -> Tight g v';
  dr_rest : v_tag_meta v' = v_tag_meta v /\ v_jobs v' = v_jobs v /\ v_meta v' = v_meta v;
  dr_recs : forall k, recs v' !! k = recs v !! k \/ recs v' !! k = None;
  dr_order : soonest_first v v';
  dr_count : Z.of_nat (size (recs v)) = Z.of_nat (size (recs v')) + n;
  dr_rows : v_exp v' = ∅ \/ Z.of_nat (size (v_exp v')) + rows <= Z.of_nat (size (v_exp v));
  dr_freed : Tight g v -> recs v' = ∅ \/ rows <= n
}.

Lemma swept_order accept v p rest st :
  pending accept p v -> rows_in (v_exp v) FULL = p ++ rest -> soonest_first v (swept accept v st p).1.
Proof.
  intros Hp Hrows k rec k' rec' Hr Hn Hr'. pose proof Hp as [Hi _].
  destruct (swept_effect accept p v st Hp) as (_ & F1 & _).
  destruct (F1 k) as [He|(_ & ik & rec0 & Hin & Hr0 & Ht)]; [congruence|].
  rewrite Hr in Hr0. injection Hr0 as <-. unfold takes in Ht. apply andb_true_iff in Ht as [Ht%Z.eqb_eq _].
  rewrite Ht. destruct (survivor_row _ _ _ _ _ _ _ Hp Hrows Hr') as [Hin' Hb']. rewrite <- Hb'.
  exact (later_bucket v p rest ik k _ k' Hi Hrows Hin Hin').
Qed.

Lemma no_rows_no_records v : Inv g v -> v_exp v = ∅ -> recs v = ∅.
Proof.
  intros Hi He. apply map_empty. intros k. apply eq_None_not_Some. intros [rec Hr].
  pose proof (inv_exp_cover _ _ Hi _ _ Hr) as Hc. by rewrite He in Hc.
Qed.

(** An evicting drain looks at a whole budget of rows; a sweeping one may stop
    at the first that is not due. *)
Lemma drain_frees budget accept v r :
  Inv g v ->
  wp (drain_expiry_index (T:=T) cfg now_ms budget accept)
    (fun stats v' r' => r' = r
       /\ drained (match accept with Anything => budget | ExpiredOnly => 0 end) (sw_reclaimed stats) v v')
    (fun _ _ _ => False) v r.
Proof.
  intros Hi. apply wp_drain; [done|]. intros p rest lag ex Hrows Hp Hex.
  set (st := mkSweepStats _ _ _ _ _).
  destruct (swept_effect accept p v st Hp) as (F0 & F1 & F2 & F3 & F6 & F7 & _).
  destruct (swept_counts accept p v st Hp) as [C1 C2].
  assert (sw_reclaimed st = 0) as E0 by done. rewrite E0 in *.
  pose proof (len_nonneg p) as Hlen. cbv zeta. split; [done|].
  assert (v_exp (swept accept v st p).1 = ∅ \/ match accept with Anything => budget | ExpiredOnly => 0 end <= len p) as Hr.
  { destruct accept; [by right|]. destruct ex; [right; by destruct Hex|left].
    destruct rest as [|row rest]; [|by destruct Hex]. apply map_empty. intros ik.
    apply eq_None_not_Some. intros [x Hx]. apply F2 in Hx as [Hx Hnin]. apply Hnin.
    apply list_elem_of_fmap. exists (ik, x). split; [done|].
    rewrite app_nil_r in Hrows. rewrite <- Hrows. by apply rows_in_elem. }
  constructor; try done.
  - intros Ht. by apply F6.
  - intros k. destruct (F1 k) as [?|[? _]]; [by left|by right].
  - by eapply swept_order.
  - lia.
  - destruct Hr as [Hr|Hr]; [by left|right; lia].
  - intros Ht. destruct Hr as [Hr|Hr]; [left; by apply no_rows_no_records|].
    right. destruct accept; [|destruct (F6 Ht) as [_ H]; rewrite H by done; lia].
    clear -C1 F1. assert (size (recs (swept ExpiredOnly v st p).1) <= size (recs v))%nat; [|lia].
    apply map_subseteq_size. apply map_subseteq_spec. intros k x Hx. destruct (F1 k) as [<-|[? _]]; congruence.
Qed.

Lemma drained_trans n1 n2 rows v1 v2 v3 :
  drained 0 n1 v1 v2 -> drained rows n2 v2 v3 -> 0 <= n1 -> drained rows (n1 + n2) v1 v3.
Proof.
  intros [A1 A2 (A3 & A4 & A5) A6 A7 A8 A9 A10] [B1 B2 (B3 & B4 & B5) B6 B7 B8 B9 B10] Hn1.
  constructor; [done|auto|split_and!; congruence| | |lia| |].
  - intros k. destruct (B6 k) as [->|]; [apply A6|by right].
  - intros k rec k' rec' Hr Hn Hr'.
    assert (recs v2 !! k' = Some rec') as Hr2 by (destruct (B6 k'); congruence).
    destruct (A6 k) as [He|He]; [|by apply (A7 k rec k' rec')].
    apply (B7 k rec k' rec'); [congruence|done|done].
  - destruct B9 as [?|B9]; [by left|]. right. destruct A9 as [A9|A9]; [|lia].
    rewrite A9, map_size_empty in B9. lia.
  - intros Ht. destruct (B10 (A2 Ht)) as [?|?]; [by left|right; lia].
Qed.

(** ** The passes never touch the engine's memory, even when they fail *)

Definition leaves_ram {A} (m : StoreM T A) : Prop := forall s, st_ram (m s).1 = st_ram s.

Lemma leaves_ram_bind {A B} (m : StoreM T A) (f : A -> StoreM T B) :
  leaves_ram m -> (forall a, leaves_ram (f a)) -> leaves_ram (m ≫= f).
Proof.
  intros Hm Hf s. unfold mbind, StoreM_bind. pose proof (Hm s) as H1.
  destruct (m s) as [s1 [a| |]]; cbn [fst] in *; [|done..]. by rewrite Hf.
Qed.

Lemma leaves_ram_pure {A} (m : StoreM T A) : (forall s, (m s).1 = s) -> leaves_ram m.
Proof. intros H s. by rewrite H. Qed.

Lemma leaves_ram_delete db k : leaves_ram (db_delete (T:=T) db k).
Proof. intros s. unfold db_delete. by destruct (txn_delete _ _ _). Qed.

Lemma leaves_ram_for_each {A} (f : A -> StoreM T unit) l :
  (forall x, leaves_ram (f x)) -> leaves_ram (for_each f l).
Proof.
  intros Hf. induction l as [|x l IH]; [by apply leaves_ram_pure|]. cbn [for_each].
  by apply leaves_ram_bind.
Qed.

Lemma leaves_ram_fold_each {A B} (f : B -> A -> StoreM T B) acc l :
  (forall b x, leaves_ram (f b x)) -> leaves_ram (fold_each f acc l).
Proof.
  intros Hf. revert acc. induction l as [|x l IH]; intros acc; [by apply leaves_ram_pure|].
  cbn [fold_each]. by apply leaves_ram_bind.
Qed.

Ltac leaves_ram :=
  repeat first
    [ apply leaves_ram_delete
    | apply leaves_ram_for_each; intros ?
    | apply leaves_ram_fold_each; intros ? ?
    | apply leaves_ram_bind; [|intros ?]
    | case_match
    | by apply leaves_ram_pure ].

Lemma drain_leaves_ram budget accept : leaves_ram (drain_expiry_index (T:=T) cfg now_ms budget accept).
Proof. unfold drain_expiry_index, drain_victim. leaves_ram. Qed.

(** ** The properties *)

(** C29 Sweeping is invisible and complete. A pass removes only records whose
    deadline has passed, together with every index row they own, so every
    client sees exactly what it saw before; no record is left out of the
    indexes; litter rows it meets are dropped; and a pass that did not run out
    of budget leaves no record whose bucket is due. It never fails on a shard
    whose indexes are in order. *)
Theorem sweep_invisible_complete budget v r :
  Inv g v ->
  wp (sweep (T:=T) cfg now_ms budget)
    (fun stats v' r' =>
       r' = r /\ Inv g v' /\ (Tight g v -> Tight g v')
       /\ (v_tag_meta v' = v_tag_meta v /\ v_jobs v' = v_jobs v /\ v_meta v' = v_meta v)
       /\ (forall k, recs v' !! k = recs v !! k
            \/ (recs v' !! k = None /\ exists rec, recs v !! k = Some rec /\ is_expired rec now_ms = true))
       /\ (forall k, seen now_ms v' r k = seen now_ms v r k)
       /\ (sw_budget_exhausted stats = false ->
            forall k rec, recs v' !! k = Some rec -> now_ms < bucket_for (expires_at_ms rec) g)
       /\ sw_reclaimed stats + sw_stale stats = sw_scanned stats)
    (fun _ _ _ => False) v r.
Proof. apply sweep_invisible_complete_ok. Qed.

(** Eviction policy and progress. A pass takes records from the front of the
    expiry index: every record it removes was due no later than every record
    it leaves (so what never expires goes last), each with every row it owns;
    on a shard without litter it frees exactly as many records as it scans, at
    least one when there is any to free, and it stops short of the budget only
    when nothing is left. *)
Theorem evict_policy budget v r :
  Inv g v ->
  wp (evict (T:=T) cfg now_ms budget)
    (fun stats v' r' =>
       r' = r /\ Inv g v' /\ (Tight g v -> Tight g v')
       /\ (v_tag_meta v' = v_tag_meta v /\ v_jobs v' = v_jobs v /\ v_meta v' = v_meta v)
       /\ (forall k, recs v' !! k = recs v !! k \/ recs v' !! k = None)
       /\ (forall k rec k' rec', recs v !! k = Some rec -> recs v' !! k = None ->
             recs v' !! k' = Some rec' ->
             bucket_for (expires_at_ms rec) g <= bucket_for (expires_at_ms rec') g)
       /\ (Tight g v -> sw_reclaimed stats = sw_scanned stats)
       /\ (Tight g v -> recs v <> ∅ -> 1 <= sw_reclaimed stats)
       /\ (sw_scanned stats < budget -> recs v' = ∅))
    (fun _ _ _ => False) v r.
Proof. apply evict_policy_ok. Qed.

End Sweep.
