(* ===== verification/ReclaimSpec.v ===== *)
(** What the resumable tag reclaimer of [Maint.v] guarantees: it only takes dead
    records, keeps every surviving record indexed, never loses its place, and
    when a job completes nothing the invalidation covered is left in the part
    of the index it walked. *)

From S2P Require Import Prelude Bytes Core Record Clock Command Backend.
From S2P Require Import IndexKeys Tags Engine Arith Apply Cache ApplySpec Maint.

Section Reclaim.
Context {T : Type} {BT : Backend T} {BL : BackendLaws T} {HS : Hash}.
Variable cfg : Config.
Variable now_ms : Z.

Abbreviation g := (bucket_granularity_ms cfg).

(** What is left of the contents once [rec] is reclaimed from under [k]: the
    expiry row of a record that never expires stays behind. *)
Definition reclaim_remove (v : Views) (k : bytes) (rec : RecordRef) : Views :=
  mkViews (delete k (v_main v))
    (if expires_at_ms rec =? NEVER then v_exp v else delete (encode_key (expires_at_ms rec) k g) (v_exp v))
    (del_tag_rows (v_tagidx v) k (tag_id <$> tags rec)) (v_tag_meta v) (v_jobs v) (v_meta v).

Definition reclaim_effect (tag target : Z) (r : Ram) (vs : Views * ReclaimStats)
    (row : bytes * bytes) : Views * ReclaimStats :=
  let '(v, stats) := vs in let '(ik, uk) := row in
  match recs v !! uk with
  | Some rec =>
      match find_tag tag (tags rec) with
      | Some t =>
          if negb (generation t <? target) && alive now_ms r rec then (v, count_retained stats)
          else (reclaim_remove v uk rec, count_dead stats)
      | None => (vdel v TagIdx ik, count_orphaned stats)
      end
  | None => (vdel v TagIdx ik, count_orphaned stats)
  end.

Lemma find_tag_Some tag ts t : find_tag tag ts = Some t -> t ∈ ts /\ tag_id t = tag.
Proof.
  intros H. apply List.find_some in H as [H1 H2]. split; [by apply list_elem_of_In|lia].
Qed.

Lemma find_tag_None tag ts t : find_tag tag ts = None -> t ∈ ts -> tag_id t <> tag.
Proof.
  intros H Ht. eapply List.find_none in H; [|by apply list_elem_of_In]. cbv beta in H. lia.
Qed.

(** ** Each change keeps every record indexed *)

Lemma reclaim_remove_Inv v k rec :
  Inv g v -> recs v !! k = Some rec -> Inv g (reclaim_remove v k rec).
Proof.
  intros Hi Hr. pose proof (remove_rows_Inv g v k _ Hi (eq_sym Hr)) as Hi'.
  unfold reclaim_remove. destruct (_ =? _); [|exact Hi'].
  constructor; cbn [v_main v_exp v_tagidx].
  - apply (inv_main _ _ Hi').
  - apply (inv_exp_shape _ _ Hi).
  - intros k' rec' Hr'. change (recs (remove_rows g v k (Some rec)) !! k' = Some rec') in Hr'.
    rewrite recs_remove in Hr'. apply lookup_delete_Some in Hr' as [_ Hr'].
    by apply (inv_exp_cover _ _ Hi).
  - apply (inv_tag_shape _ _ Hi').
  - apply (inv_tag_cover _ _ Hi').
Qed.

Lemma recs_reclaim_remove v k rec : recs (reclaim_remove v k rec) = delete k (recs v).
Proof. unfold recs, reclaim_remove. cbn [v_main]. by rewrite omap_delete. Qed.

Lemma drop_tag_row_Inv v ik uk :
  Inv g v -> v_tagidx v !! ik = Some uk ->
  (forall rec t, recs v !! uk = Some rec -> t ∈ tags rec -> ik <> index_key (tag_id t) uk) ->
  Inv g (vdel v TagIdx ik).
Proof.
  intros Hi Hx Hne. constructor; unfold vdel; cbn [vset vget v_main v_exp v_tagidx].
  - apply (inv_main _ _ Hi).
  - apply (inv_exp_shape _ _ Hi).
  - apply (inv_exp_cover _ _ Hi).
  - intros ik' k' [_ Hl]%lookup_delete_Some. by eapply inv_tag_shape.
  - intros k' rec' t Hr Ht. change (recs v !! k' = Some rec') in Hr.
    pose proof (inv_tag_cover _ _ Hi _ _ _ Hr Ht) as Hc. apply lookup_delete_Some. split; [|done].
    intros ->. rewrite Hx in Hc. injection Hc as ->. by destruct (Hne rec' t).
Qed.

(** ** The loop *)

(** The rows still to come are rows of the tag. *)
Definition tag_rows (tag : Z) (l : list (bytes * bytes)) (v : Views) : Prop :=
  Inv g v /\ NoDup l.*1
  /\ forall ik uk, (ik, uk) ∈ l -> v_tagidx v !! ik = Some uk /\ ik = index_key tag uk.

Lemma reclaim_effect_rows tag target r ik uk l v stats :
  fits 32 tag -> tag_rows tag ((ik, uk) :: l) v ->
  tag_rows tag l (reclaim_effect tag target r (v, stats) (ik, uk)).1.
Proof.
  intros Htag (Hi & Hnd & Hrows). rewrite fmap_cons in Hnd. apply NoDup_cons in Hnd as [Hnin Hnd].
  destruct (Hrows ik uk ltac:(left)) as [Hx Hik].
  assert (forall ik' uk', (ik', uk') ∈ l -> ik' <> ik) as Hother.
  { intros ik' uk' Hin ->. apply Hnin. apply list_elem_of_fmap. by exists (ik, uk'). }
  assert (forall v', Inv g v' -> (forall ik' uk', (ik', uk') ∈ l -> v_tagidx v' !! ik' = v_tagidx v !! ik') ->
    tag_rows tag l v') as Hstep.
  { intros v' Hi' He. split_and!; [done|done|]. intros ik' uk' Hin. erewrite He by done.
    apply Hrows. by right. }
  assert (forall rec, recs v !! uk = Some rec -> find_tag tag (tags rec) = None ->
    tag_rows tag l (vdel v TagIdx ik)) as Hdrop.
  { intros rec Hr Hf. apply Hstep.
    - eapply drop_tag_row_Inv; [done|done|]. intros rec' t [= <-]%(eq_trans (eq_sym Hr)) Ht Heq.
      rewrite Hik in Heq. apply index_key_eq in Heq as [Heq _]; [|done|by eapply recs_tag_fits].
      by apply (find_tag_None _ _ _ Hf Ht).
    - intros ik' uk' Hin. cbn. apply lookup_delete_ne. apply not_eq_sym. by eapply Hother. }
  unfold reclaim_effect. destruct (recs v !! uk) as [rec|] eqn:Hr.
  - destruct (find_tag tag (tags rec)) as [t|] eqn:Hf; [|by apply Hdrop with rec].
    destruct (negb _ && _); cbn [fst]; [apply Hstep; [done|done]|].
    apply Hstep; [by apply reclaim_remove_Inv|]. intros ik' uk' Hin. cbn [v_tagidx reclaim_remove].
    destruct (Hrows ik' uk' ltac:(by right)) as [Hx' Hik'].
    rewrite Hx'. apply del_tag_rows_Some. split; [done|]. intros t' Ht' Heq.
    apply list_elem_of_fmap in Ht' as (t0 & -> & Ht0).
    pose proof (inv_tag_cover _ _ Hi _ _ _ Hr Ht0) as Hc. rewrite <- Heq, Hx' in Hc.
    injection Hc as ->. apply (Hother _ _ Hin). by rewrite Hik, Hik'.
  - cbn [fst]. apply Hstep.
    + eapply drop_tag_row_Inv; [done|done|]. by rewrite Hr.
    + intros ik' uk' Hin. cbn. apply lookup_delete_ne. apply not_eq_sym. by eapply Hother.
Qed.

Lemma wp_reclaim_row tag target stats ik uk l v r (P : ReclaimStats -> Views -> Ram -> Prop) Qe :
  fits 32 tag -> tag_rows tag ((ik, uk) :: l) v ->
  (tag_rows tag l (reclaim_effect tag target r (v, stats) (ik, uk)).1 ->
   P (reclaim_effect tag target r (v, stats) (ik, uk)).2
     (reclaim_effect tag target r (v, stats) (ik, uk)).1 r) ->
  wp (reclaim_row (T:=T) cfg now_ms tag target stats (ik, uk)) P Qe v r.
Proof.
  intros Htag Hp HP. specialize (HP (reclaim_effect_rows _ _ _ _ _ _ _ _ Htag Hp)).
  destruct Hp as (Hi & _ & _). unfold reclaim_row. do 2 wp_step. cbn [vget].
  pose proof (Inv_old cfg v uk Hi) as Ho. unfold reclaim_effect in HP.
  destruct (v_main v !! uk) as [blob|].
  2:{ rewrite Ho in HP. by repeat wp_step. }
  destruct Ho as (rec & Hparse & Hr). rewrite Hr in HP. do 2 wp_step. rewrite Hparse. cbn [map_err].
  destruct (find_tag tag (tags rec)) as [t|]; [|by repeat wp_step].
  do 2 wp_step. cbv zeta. rewrite negb_involutive.
  destruct (negb _ && _); [by wp_step|]. do 3 wp_step. unfold reclaim_remove in HP.
  destruct (_ =? _); cbn [negb]; repeat wp_step;
    change (for_each _ _) with (clear_tag_rows (T:=T) uk (IndexRows_of rec));
    apply wp_clear_tag_rows; by wp_step.
Qed.

Definition reclaimed tag target r v stats l := foldl (reclaim_effect tag target r) (v, stats) l.

(** Why the reclaimer may take a record. *)
Definition takeable (tag target : Z) (r : Ram) (rec : RecordRef) : Prop :=
  exists t, find_tag tag (tags rec) = Some t /\ (generation t < target \/ alive now_ms r rec = false).

Lemma reclaim_effect_recs tag target r v stats ik uk :
  let vs := reclaim_effect tag target r (v, stats) (ik, uk) in
  (forall k, recs vs.1 !! k = recs v !! k
     \/ (k = uk /\ recs vs.1 !! k = None /\ exists rec, recs v !! k = Some rec /\ takeable tag target r rec))
  /\ (forall rec t, recs vs.1 !! uk = Some rec -> find_tag tag (tags rec) = Some t ->
        target <= generation t)
  /\ (v_tag_meta vs.1 = v_tag_meta v /\ v_jobs vs.1 = v_jobs v /\ v_meta vs.1 = v_meta v)
  /\ (rs_scanned vs.2 = rs_scanned stats /\ rs_completed vs.2 = rs_completed stats)
  /\ rs_reclaimed vs.2 + rs_orphaned vs.2 + rs_retained vs.2
     = rs_reclaimed stats + rs_orphaned stats + rs_retained stats + 1.
Proof.
  intros vs. subst vs. unfold reclaim_effect.
  destruct (recs v !! uk) as [rec|] eqn:Hr.
  2:{ cbn [fst snd]. conjs; try done; try (cbn; lia); [by left|].
      intros rec t Hx. change (recs v !! uk = Some rec) in Hx. congruence. }
  destruct (find_tag tag (tags rec)) as [t|] eqn:Hf.
  2:{ cbn [fst snd]. conjs; try done; try (cbn; lia); [by left|].
      intros rec' t Hx. change (recs v !! uk = Some rec') in Hx. congruence. }
  destruct (negb (generation t <? target) && alive now_ms r rec) eqn:Hd; cbn [fst snd];
    conjs; try done; try (cbn; lia).
  - by left.
  - intros rec' t'. rewrite Hr. intros [= <-]. rewrite Hf. intros [= <-].
    apply andb_true_iff in Hd as [Hd _]. lia.
  - intros k. rewrite recs_reclaim_remove. destruct (decide (k = uk)) as [->|Hne].
    + right. rewrite lookup_delete_eq. split_and!; try done. exists rec. split; [done|].
      exists t. split; [done|]. apply andb_false_iff in Hd as [Hd|Hd]; [left; lia|by right].
    + left. by rewrite lookup_delete_ne.
  - intros rec' t'. rewrite recs_reclaim_remove, lookup_delete_eq. done.
Qed.

Lemma reclaimed_effect tag target r l v stats :
  fits 32 tag ->
  let vs := reclaimed tag target r v stats l in
  tag_rows tag l v ->
  Inv g vs.1
  /\ (forall k, recs vs.1 !! k = recs v !! k
       \/ (recs vs.1 !! k = None /\ exists rec, recs v !! k = Some rec /\ takeable tag target r rec))
  /\ (forall k rec t, (index_key tag k, k) ∈ l -> recs vs.1 !! k = Some rec ->
        find_tag tag (tags rec) = Some t -> target <= generation t)
  /\ (v_tag_meta vs.1 = v_tag_meta v /\ v_jobs vs.1 = v_jobs v /\ v_meta vs.1 = v_meta v)
  /\ (rs_scanned vs.2 = rs_scanned stats /\ rs_completed vs.2 = rs_completed stats)
  /\ rs_reclaimed vs.2 + rs_orphaned vs.2 + rs_retained vs.2
     = rs_reclaimed stats + rs_orphaned stats + rs_retained stats + len l.
Proof.
  intros Htag vs Hp. subst vs. unfold reclaimed. revert v stats Hp.
  induction l as [|[ik uk] l IH]; intros v stats Hp; cbn [foldl].
  { cbn [fst snd]. conjs; try done; try (unfold len; cbn; lia); [apply Hp|by left|].
    intros k rec t Hin. by apply elem_of_nil in Hin. }
  pose proof (reclaim_effect_rows _ target r _ _ _ _ stats Htag Hp) as Hp'.
  destruct (reclaim_effect_recs tag target r v stats ik uk) as (E1 & E2 & (E3 & E4 & E5) & (E6 & E6') & E7).
  destruct (reclaim_effect tag target r (v, stats) (ik, uk)) as [v1 st1]. cbn [fst snd] in *.
  destruct (IH v1 st1 Hp') as (F0 & F1 & F2 & (F3 & F4 & F5) & (F6 & F6') & F7).
  assert (len ((ik, uk) :: l) = len l + 1) as Hlen by (unfold len; cbn [length]; lia).
  conjs; try congruence; try lia; try done.
  - intros k. destruct (F1 k) as [->|(Hn & rec & Hr & Ht)].
    + destruct (E1 k) as [->|(-> & Hn & rec & Hr & Ht)]; [by left|]. right. split; [done|]. by exists rec.
    + destruct (E1 k) as [He|(-> & Hn' & _)]; [|congruence]. right. split; [done|].
      exists rec. by rewrite <- He.
  - intros k rec t [[= Hik ->]|Hin]%elem_of_cons Hr Hf; [|by eapply F2].
    apply (E2 rec t); [|done]. destruct (F1 uk) as [<-|[Hn _]]; [done|congruence].
Qed.

(** ** The step *)

(** Every job is one tag's, readable, and resumes inside that tag's rows. *)
Definition Jobs_ok (v : Views) : Prop :=
  forall jk raw, v_jobs v !! jk = Some raw ->
    exists tag job, fits 32 tag /\ jk = be_bytes 4 tag /\ Job_decode raw = Ok job
      /\ forall c, cursor job = Some c -> take 4 c = be_bytes 4 tag.

(** The rows a job still has to visit. *)
Definition job_rows (v : Views) (tag : Z) (job : Job) : list (bytes * bytes) :=
  rows_in (v_tagidx v)
    (match cursor job with Some c => Excluded c | None => Included (index_range tag).1 end,
     Included (index_range tag).2).

(** The job the next step works on: the first in key order. *)
Definition first_job (v : Views) : option (Z * Job) :=
  match rows_in (v_jobs v) FULL with
  | [] => None
  | (jk, raw) :: _ => (fun job => (be_val jk, job)) <$> result_ok (Job_decode raw)
  end.

Lemma first_job_ok v :
  Jobs_ok v ->
  match rows_in (v_jobs v) FULL with
  | [] => first_job v = None /\ v_jobs v = ∅
  | (jk, raw) :: _ =>
      exists tag job, fits 32 tag /\ jk = be_bytes 4 tag /\ Job_decode raw = Ok job
        /\ first_job v = Some (tag, job)
        /\ forall c, cursor job = Some c -> take 4 c = be_bytes 4 tag
  end.
Proof.
  intros Hj. unfold first_job. pose proof (rows_in_elem (v_jobs v) FULL) as Hrows.
  destruct (rows_in (v_jobs v) FULL) as [|[jk raw] rest].
  - split; [done|]. apply map_empty. intros k. apply eq_None_not_Some. intros [x Hx].
    by apply (elem_of_nil (k, x)), Hrows.
  - assert (v_jobs v !! jk = Some raw) as Hx by (apply Hrows; left).
    destruct (Hj _ _ Hx) as (tag & job & Ht & -> & Hd & Hc). exists tag, job.
    rewrite Hd, (be_val_bytes_fits 32) by done. done.
Qed.

Lemma job_rows_elem v tag job ik uk :
  Inv g v -> fits 32 tag -> (forall c, cursor job = Some c -> take 4 c = be_bytes 4 tag) ->
  (forall c, cursor job = Some c -> length c = 12%nat) ->
  (ik, uk) ∈ job_rows v tag job -> v_tagidx v !! ik = Some uk /\ ik = index_key tag uk.
Proof.
  intros Hi Ht Hc Hl Hin. apply rows_in_elem in Hin as [Hx Hb]. split; [done|].
  destruct (inv_tag_shape _ _ Hi _ _ Hx) as (t & Hft & ->).
  assert (in_bounds (Included (index_range tag).1, Included (index_range tag).2) (index_key t uk) = true) as Hb'.
  { unfold in_bounds in *. cbn [fst snd] in *. apply andb_true_iff in Hb as [Hlo Hhi].
    apply andb_true_iff. split; [|done]. destruct (cursor job) as [c|] eqn:Ec; [|done].
    cbn [above] in *. eapply lex_le_trans; [|by apply lex_lt_le].
    pose proof (index_range_bounds tag c Ht (Hl c eq_refl)) as Hcb.
    rewrite bool_decide_eq_true_2 in Hcb by auto. unfold in_bounds in Hcb. cbn [fst snd above] in Hcb.
    by apply andb_true_iff in Hcb as [? _]. }
  rewrite index_range_bounds, take_index_key in Hb' by (done || apply length_index_key).
  apply bool_decide_eq_true in Hb'. apply (be_bytes_inj 32 4) in Hb' as ->; done.
Qed.

Lemma collect_batch_spec budget rows batch :
  Forall (fun row => length row.1 = 12%nat) rows ->
  exists p rest, rows = p ++ rest /\ collect_batch budget rows batch = Ok (batch ++ p)
    /\ (rest <> [] -> budget <= len (batch ++ p) /\ p <> []).
Proof.
  intros Hl. revert batch. induction Hl as [|[ik uk] rows Hlen Hl IH]; intros batch.
  { exists [], []. cbn. by rewrite app_nil_r. }
  cbn [collect_batch fst] in *. unfold INDEX_KEY_LEN.
  rewrite (proj2 (Z.eqb_eq (len ik) 12)) by (unfold len; lia). cbn [negb].
  destruct (Z.leb_spec budget (len (batch ++ [(ik, uk)]))).
  - exists [(ik, uk)], rows. done.
  - destruct (IH (batch ++ [(ik, uk)])) as (p & rest & -> & -> & Hr).
    exists ((ik, uk) :: p), rest. rewrite <- app_assoc in *. conjs; [done|done|].
    intros Hne. split; [by apply Hr|done].
Qed.

(** What one step leaves of the jobs: this one done, or resuming just past the
    last row it examined. *)
Definition jobs_after (v : Views) (tag : Z) (job : Job) (p : list (bytes * bytes)) (budget : Z) : db_map :=
  if len p <? budget then delete (be_bytes 4 tag) (v_jobs v)
  else <[be_bytes 4 tag := Job_encode (mkJob (target_generation job)
          (match last p with Some (ik, _) => Some ik | None => cursor job end))]> (v_jobs v).

Lemma jobs_after_ok v tag job p budget :
  Jobs_ok v -> fits 32 tag -> job_ok job ->
  (forall c, cursor job = Some c -> take 4 c = be_bytes 4 tag) ->
  (forall ik uk, (ik, uk) ∈ p -> ik = index_key tag uk) ->
  forall jk raw, jobs_after v tag job p budget !! jk = Some raw ->
    exists tag job, fits 32 tag /\ jk = be_bytes 4 tag /\ Job_decode raw = Ok job
      /\ forall c, cursor job = Some c -> take 4 c = be_bytes 4 tag.
Proof.
  intros Hj Ht [Hjg Hjc] Hc Hp jk raw. unfold jobs_after. destruct (_ <? _).
  { intros [_ Hx]%lookup_delete_Some. by apply Hj. }
  intros [[<- <-]|[_ Hx]]%lookup_insert_Some; [|by apply Hj].
  eexists tag, _. conjs; [done|done|apply Job_decode_encode; split; [done|]|]; cbn [cursor].
  - destruct (last p) as [[ik uk]|] eqn:El; [|done].
    apply last_Some_elem_of in El. rewrite (Hp _ _ El). apply length_index_key.
  - destruct (last p) as [[ik uk]|] eqn:El; [|done]. intros c [= <-].
    apply last_Some_elem_of in El. rewrite (Hp _ _ El). apply take_index_key.
Qed.

Lemma reclaim_step_ok budget v r :
  Inv g v -> Jobs_ok v ->
  wp (reclaim_step (T:=T) cfg now_ms budget)
    (fun answer v' r' =>
       r' = r /\ Inv g v' /\ Jobs_ok v' /\ v_tag_meta v' = v_tag_meta v /\ v_meta v' = v_meta v
       /\ match first_job v, answer with
          | None, None => v_jobs v = ∅ /\ v' = v
          | Some (tag, job), Some stats =>
              (forall k, recs v' !! k = recs v !! k
                 \/ (recs v' !! k = None /\ exists rec, recs v !! k = Some rec
                     /\ takeable tag (target_generation job) r rec))
              /\ rs_scanned stats <= len (job_rows v tag job)
              /\ v_jobs v' = jobs_after v tag job (take (Z.to_nat (rs_scanned stats)) (job_rows v tag job)) budget
              /\ (rs_completed stats = true ->
                  forall k rec t, (index_key tag k, k) ∈ job_rows v tag job ->
                    recs v' !! k = Some rec -> find_tag tag (tags rec) = Some t ->
                    target_generation job <= generation t)
              /\ rs_reclaimed stats + rs_orphaned stats + rs_retained stats = rs_scanned stats
          | _, _ => False
          end)
    (fun _ _ _ => False) v r.
Proof.
  intros Hi Hj. pose proof (first_job_ok v Hj) as Hfirst. unfold reclaim_step, next_job.
  do 3 wp_step. cbn [vget]. destruct (rows_in (v_jobs v) FULL) as [|[jk raw] rest].
  { destruct Hfirst as [-> Hempty]. by repeat wp_step. }
  destruct Hfirst as (tag & job & Ht & -> & Hd & -> & Hc).
  unfold len at 1. rewrite length_be_bytes. change (negb (Z.of_nat 4 =? 4)) with false. cbv iota.
  do 2 wp_step. rewrite Hd. wp_step. rewrite (be_val_bytes_fits 32) by done. cbv beta iota.
  destruct (index_range tag) as [low high] eqn:Er. do 2 wp_step.
  destruct (Job_decode_inv _ _ Hd) as [_ Hok].
  assert (forall c, cursor job = Some c -> length c = 12%nat) as Hcl.
  { intros c E. destruct Hok as [_ Hok]. by rewrite E in Hok. }
  pose proof (job_rows_elem v tag job) as Hrows. unfold job_rows in *. rewrite Er in *. cbn [fst snd] in *.
  cbn [vget]. set (rows := rows_in _ _) in *.
  do 2 wp_step. destruct (collect_batch_spec budget rows []) as (p & rest' & Hsplit & -> & Hrest).
  { apply Forall_forall. intros [ik uk] Hin. cbn [fst].
    destruct (Hrows ik uk Hi Ht Hc Hcl Hin) as [_ ->]. apply length_index_key. }
  cbn [app] in *. wp_step.
  assert (forall ik uk, (ik, uk) ∈ p -> v_tagidx v !! ik = Some uk /\ ik = index_key tag uk) as Hp.
  { intros ik uk Hin. apply Hrows; try done. rewrite Hsplit. apply elem_of_app. by left. }
  assert (tag_rows tag p v) as Htr.
  { split_and!; [done| |done]. pose proof (rows_in_NoDup (v_tagidx v)
      (match cursor job with Some c => Excluded c | None => Included low end, Included high)) as Hn.
    fold rows in Hn. rewrite Hsplit, fmap_app in Hn. by apply NoDup_app in Hn as [? _]. }
  set (st := mkReclaimStats _ _ _ _ _).
  apply wp_fold_each with (step := reclaim_effect tag (target_generation job) r) (I := tag_rows tag);
    [intros [ik uk] l' v' acc' P Hp' HP; by apply wp_reclaim_row with (l := l')|done|].
  fold (reclaimed tag (target_generation job) r v st p).
  destruct (reclaimed_effect tag (target_generation job) r p v st Ht Htr)
    as (F0 & F1 & F2 & (F3 & F4 & F5) & (F6 & F6') & F7).
  destruct (reclaimed tag (target_generation job) r v st p) as [v1 st1]. cbn [fst snd] in *.
  assert (rs_scanned st1 = len p) as Hsc by (rewrite F6; done).
  assert (take (Z.to_nat (len p)) rows = p) as Htake.
  { unfold len. rewrite Nat2Z.id, Hsplit. apply take_length_app. }
  assert (len p <= len rows) as Hle by (rewrite Hsplit, len_app; pose proof (len_nonneg rest'); lia).
  assert (forall m, m = jobs_after v tag job p budget -> Jobs_ok (vset v1 Jobs m)) as Hjobs.
  { intros m -> jk raw' Hx. cbn in Hx. eapply jobs_after_ok; try done. intros ik uk Hin. by apply Hp. }
  assert (forall m, Inv g (vset v1 Jobs m)) as HInv.
  { intros m. destruct F0. by constructor. }
  cbv zeta. rewrite Hsc. unfold jobs_after in Hjobs. unfold jobs_after.
  destruct (Z.ltb_spec (len p) budget) as [Hlt|Hge].
  - do 3 wp_step. unfold vdel. cbn [vget]. rewrite F4.
    cbn [mark_completed rs_scanned rs_reclaimed rs_orphaned rs_retained rs_completed].
    conjs; try done; [by apply Hjobs|by rewrite Hsc|rewrite Hsc, Htake, (proj2 (Z.ltb_lt _ _)) by done; done| |].
    + intros _ k rec t Hin Hr Hf. apply (F2 k rec t); try done.
      assert (rest' = []) as ->.
      { destruct rest' as [|x rest']; [done|]. destruct Hrest as [Hb _]; [done|]. lia. }
      by rewrite Hsplit, app_nil_r in Hin.
    + rewrite Hsc. cbn in F7. lia.
  - do 3 wp_step. unfold vput. cbn [vget]. rewrite F4.
    conjs; try done; [by apply Hjobs|by rewrite Hsc|rewrite Hsc, Htake, (proj2 (Z.ltb_ge _ _)) by done; done| |].
    + intros Hcomp. exfalso. revert Hcomp.
      assert (rs_completed st1 = false) as ->; [|done].
      by rewrite F6'.
    + cbn in F7. lia.
Qed.

(** ** The properties *)

(** A reclamation step is safe, keeps its place, and finishes the job. It
    works on the first outstanding job and deletes only records that carry the
    job's tag and are dead: invalidated (their captured generation is below
    the job's target, whatever the registry in memory says yet), expired,
    flushed, or dead through another tag. Every record it leaves stays
    indexed. A job that is not finished resumes exactly past the last row it
    examined; a finished one is removed, and then, of the rows it still had to
    visit, no record the invalidation covers is left. With no job it does
    nothing. *)
Theorem reclaim_step_spec budget v r :
  Inv g v -> Jobs_ok v ->
  wp (reclaim_step (T:=T) cfg now_ms budget)
    (fun answer v' r' =>
       r' = r /\ Inv g v' /\ Jobs_ok v' /\ v_tag_meta v' = v_tag_meta v /\ v_meta v' = v_meta v
       /\ match first_job v, answer with
          | None, None => v_jobs v = ∅ /\ v' = v
          | Some (tag, job), Some stats =>
              (forall k, recs v' !! k = recs v !! k
                 \/ (recs v' !! k = None /\ exists rec, recs v !! k = Some rec
                     /\ takeable tag (target_generation job) r rec))
              /\ rs_scanned stats <= len (job_rows v tag job)
              /\ v_jobs v' = jobs_after v tag job (take (Z.to_nat (rs_scanned stats)) (job_rows v tag job)) budget
              /\ (rs_completed stats = true ->
                  forall k rec t, (index_key tag k, k) ∈ job_rows v tag job ->
                    recs v' !! k = Some rec -> find_tag tag (tags rec) = Some t ->
                    target_generation job <= generation t)
              /\ rs_reclaimed stats + rs_orphaned stats + rs_retained stats = rs_scanned stats
          | _, _ => False
          end)
    (fun _ _ _ => False) v r.
Proof. apply reclaim_step_ok. Qed.

End Reclaim.
