(* ===== verification/Queue.v ===== *)
(** [vash-store/src/queue.rs]: what crosses the writer queue, how each item is
    applied, and what is published to memory once its transaction commits. *)

From S2P Require Import Prelude Bytes Core Record Clock Arith Command Backend.
From S2P Require Import IndexKeys Tags Engine Apply TagOps.

(** [OwnedArithmetic] is [Arithmetic] with its key copied; keys are values
    here, so one type serves for both. *)
Inductive WriteOp : Type :=
| Op_Set (items : list PreparedSet)
| Op_ConditionalSet (prepared : PreparedSet) (mode : SetMode)
| Op_Delete (keys : list bytes)
| Op_Touch (keys : list bytes) (ttl_secs : Z)
| Op_Arithmetic (op : Arithmetic)
| Op_Append (key suffix : bytes)
| Op_Expire (key : bytes) (ttl : TtlChange) (guard : ExpireGuard)
| Op_CreateTags (names : list (bytes * Z))
| Op_DeleteByTag (name : bytes)
| Op_MergeTag (name : bytes) (generation : Z)
| Op_Flush
| Op_Sync.

Inductive WriteOutcome : Type :=
| Out_Cas (cas : list Z)
| Out_Written (written : Written)
| Out_Applied (applied : bool)
| Out_Deleted (hits : list bool)
| Out_Touched (hits : list bool)
| Out_Arithmetic (applied : option Applied)
| Out_Length (len : Z)
| Out_Invalidated (generation : option Z)
| Out_Merged (generation : Z)
| Out_Flushed (epoch : Z)
| Out_Done.

Inductive PostCommit : Type :=
| Post_TagCreated (name : bytes) (id generation : Z)
| Post_TagGeneration (id generation : Z)
| Post_Epoch (epoch : Z).

Definition mismatched_reply : StoreError := SE_Corrupt "writer returned the wrong reply".

Definition OwnedArithmetic_new (op : Arithmetic) : Arithmetic :=
  mkArithmetic (ar_key op) (ar_delta op) (ar_on_bound op) (ar_missing op) (ar_ttl op).

Definition OwnedArithmetic_borrow (op : Arithmetic) : Arithmetic :=
  mkArithmetic (Key_from_stored (ar_key op)) (ar_delta op) (ar_on_bound op) (ar_missing op) (ar_ttl op).

(** ** The queue's monad: a store operation that also pushes effects

    The effects are pushed through a [&mut Vec], so those pushed before an
    error stay pushed. *)

Definition QueueM (T A : Type) : Type :=
  St T * list PostCommit -> (St T * list PostCommit) * Result StoreError A.

#[global] Instance QueueM_ret {T} : MRet (QueueM T) := fun A a s => (s, Ok a).

#[global] Instance QueueM_bind {T} : MBind (QueueM T) :=
  fun A B f m s =>
    match m s with
    | (s', Ok a) => f a s'
    | (s', Err e) => (s', Err e)
    | (s', Panic why) => (s', Panic why)
    end.

(** An engine operation. *)
Definition engine {T A} (m : StoreM T A) : QueueM T A :=
  fun '(s, effects) => let '(s', res) := m s in ((s', effects), res).

Definition push {T} (e : PostCommit) : QueueM T unit :=
  fun '(s, effects) => ((s, effects ++ [e]), Ok ()).

Section Queue.
Context {T : Type} {BT : Backend T} {HS : Hash} {FT : FloatText}.
Variable cfg : Config.
Variable now_ms : Z.

Fixpoint create_tags_loop (names : list (bytes * Z)) : QueueM T WriteOutcome :=
  match names with
  | [] => mret Out_Done
  | (name, start_generation) :: names' =>
      '(id, generation) ← engine (apply_create_tag name start_generation);
      _ ← push (Post_TagCreated name id generation);
      create_tags_loop names'
  end.

Definition queue_apply (op : WriteOp) : QueueM T WriteOutcome :=
  match op with
  | Op_Set prepared =>
      applied ← engine (map_each (apply_set cfg now_ms) prepared);
      mret (Out_Cas (sa_cas <$> applied))
  | Op_Expire key ttl guard =>
      applied ← engine (apply_expire cfg now_ms key ttl guard);
      mret (Out_Applied applied)
  | Op_Delete keys =>
      hits ← engine (map_each (apply_delete cfg now_ms) keys);
      mret (Out_Deleted hits)
  | Op_ConditionalSet prepared mode =>
      written ← engine (apply_conditional_set cfg now_ms prepared mode);
      mret (Out_Written written)
  | Op_Touch keys ttl_secs =>
      hits ← engine (map_each (fun key => apply_touch cfg now_ms key ttl_secs) keys);
      mret (Out_Touched hits)
  | Op_Arithmetic op =>
      applied ← engine (apply_arithmetic cfg now_ms (OwnedArithmetic_borrow op));
      mret (Out_Arithmetic applied)
  | Op_Append key suffix =>
      n ← engine (apply_append cfg now_ms key suffix);
      mret (Out_Length n)
  | Op_CreateTags names => create_tags_loop names
  | Op_DeleteByTag name =>
      answer ← engine (apply_delete_by_tag name);
      match answer with
      | Some (id, generation) =>
          _ ← push (Post_TagGeneration id generation);
          mret (Out_Invalidated (Some generation))
      | None => mret (Out_Invalidated None)
      end
  | Op_MergeTag name generation =>
      merged ← engine (apply_merge_tag name generation);
      _ ← match merged with
          | TagMerge_Created id generation => push (Post_TagCreated name id generation)
          | TagMerge_Raised id generation => push (Post_TagGeneration id generation)
          | TagMerge_Unchanged _ _ => mret ()
          end;
      mret (Out_Merged (TagMerge_generation merged))
  | Op_Flush =>
      epoch ← engine apply_flush;
      _ ← push (Post_Epoch epoch);
      mret (Out_Flushed epoch)
  | Op_Sync => mret Out_Done
  end.

End Queue.

(** The individual key operations a job carries. *)
Definition item_count (op : WriteOp) : Z :=
  match op with
  | Op_Set items => len items
  | Op_Delete keys => len keys
  | Op_Touch keys _ => len keys
  | Op_ConditionalSet _ _ | Op_Arithmetic _ | Op_Append _ _ | Op_Expire _ _ _
  | Op_DeleteByTag _ | Op_MergeTag _ _ | Op_Flush => 1
  | Op_CreateTags names => len names
  | Op_Sync => 0
  end.

(** ** Publication, once the commit succeeded *)

Definition publish_one (r : Ram) (e : PostCommit) : Ram :=
  match e with
  | Post_TagCreated name id generation => set_tags r (registry_insert (ram_tags r) name id generation)
  | Post_TagGeneration id generation => set_tags r (merge_generation (ram_tags r) id generation)
  | Post_Epoch epoch => set_epoch r epoch
  end.

Definition publish (r : Ram) (effects : list PostCommit) : Ram := foldl publish_one r effects.
