(* ===== verification/QueueSpec.v ===== *)
(** What each queued operation does to a shard, and the invariant a shard's
    contents and memory keep while a transaction is in flight: publishing the
    effects pushed so far would make memory agree with the contents. *)

From S2P Require Import Prelude Bytes Core Record Clock Arith Command Backend.
From S2P Require Import IndexKeys Tags Engine Apply Cache ApplySpec ApplyRefines.
From S2P Require Import TagOps Maint MaintSpec ReclaimSpec Queue.

(** ** Reasoning in the queue's monad *)

Section Wpq.
Context {T : Type} {BT : Backend T} {BL : BackendLaws T}.

Definition wpq {A} (m : QueueM T A) (Q : A -> Views -> Ram -> list PostCommit -> Prop)
    (Qe : StoreError -> Views -> Ram -> list PostCommit -> Prop)
    (v : Views) (r : Ram) (eff : list PostCommit) : Prop :=
  forall s, view (st_txn s) = v -> st_ram s = r ->
  ram_frame r (st_ram (m (s, eff)).1.1)
  /\ match (m (s, eff)).2 with
     | Ok a => Q a (view (st_txn (m (s, eff)).1.1)) (st_ram (m (s, eff)).1.1) (m (s, eff)).1.2
     | Err e => (may_fail /\ poisons_transaction e = true /\ doomed (st_txn (m (s, eff)).1.1))
                \/ Qe e (view (st_txn (m (s, eff)).1.1)) (st_ram (m (s, eff)).1.1) (m (s, eff)).1.2
     | Panic _ => False
     end.

Lemma wpq_ret {A} (a : A) Q Qe v r eff : Q a v r eff -> wpq (mret a) Q Qe v r eff.
Proof. intros H s <- <-. by split. Qed.

Lemma wpq_push e Q Qe v r eff : Q () v r (eff ++ [e]) -> wpq (push e) Q Qe v r eff.
Proof. intros H s <- <-. by split. Qed.

Lemma wpq_engine {A} (m : StoreM T A) Q Qe v r eff :
  wp m (fun a v' r' => Q a v' r' eff) (fun e v' r' => Qe e v' r' eff) v r ->
  wpq (engine m) Q Qe v r eff.
Proof.
  intros H s Hv Hr. destruct (H s Hv Hr) as [Hf H']. unfold engine.
  by destruct (m s) as [s' [a|e|why]].
Qed.

Lemma wpq_bind {A B} (m : QueueM T A) (f : A -> QueueM T B) Q Qe v r eff :
  wpq m (fun a => wpq (f a) Q Qe) Qe v r eff -> wpq (m ≫= f) Q Qe v r eff.
Proof.
  intros H s Hv Hr. specialize (H s Hv Hr). unfold mbind, QueueM_bind.
  destruct (m (s, eff)) as [[s' eff'] [a|e|why]]; cbn [fst snd] in *.
  - destruct H as [Hf H]. destruct (H s' eq_refl eq_refl) as [Hf' H'].
    split; [by etrans|done].
  - done.
  - by destruct H.
Qed.

Lemma wpq_mono {A} (m : QueueM T A) (Q Q' : A -> Views -> Ram -> list PostCommit -> Prop)
    (Qe Qe' : StoreError -> Views -> Ram -> list PostCommit -> Prop) v r eff :
  wpq m Q Qe v r eff ->
  (forall a v' r' eff', ram_frame r r' -> Q a v' r' eff' -> Q' a v' r' eff') ->
  (forall e v' r' eff', ram_frame r r' -> Qe e v' r' eff' -> Qe' e v' r' eff') ->
  wpq m Q' Qe' v r eff.
Proof.
  intros H HQ HE s Hv Hr. destruct (H s Hv Hr) as [Hf H']. split; [done|].
  destruct (m (s, eff)) as [[s' eff'] [a|e|why]]; cbn [fst snd] in *; [by apply HQ| |done].
  destruct H' as [|]; [by left|right; by apply HE].
Qed.

(** A loop over items, as a chain of states. *)
Inductive each {A B} (R : A -> B -> Views -> Ram -> Views -> Ram -> Prop)
    : list A -> list B -> Views -> Ram -> Views -> Ram -> Prop :=
| each_nil v r : each R [] [] v r v r
| each_cons x y l l' v r v1 r1 v2 r2 :
    R x y v r v1 r1 -> each R l l' v1 r1 v2 r2 -> each R (x :: l) (y :: l') v r v2 r2.

Lemma each_length {A B} (R : A -> B -> Views -> Ram -> Views -> Ram -> Prop) l l' v r v' r' :
  each R l l' v r v' r' -> length l = length l'.
Proof. induction 1; cbn; congruence. Qed.

Lemma wp_map_each {A B} (f : A -> StoreM T B) (R : A -> B -> Views -> Ram -> Views -> Ram -> Prop)
    (I : Views -> Ram -> Prop) l v r :
  (forall x v r, x ∈ l -> I v r ->
     wp (f x) (fun y v' r' => R x y v r v' r' /\ I v' r') (fun _ _ _ => False) v r) ->
  I v r ->
  wp (map_each f l) (fun ys v' r' => each R l ys v r v' r' /\ I v' r') (fun _ _ _ => False) v r.
Proof.
  revert v r. induction l as [|x l IH]; intros v r Hf HI; cbn [map_each].
  { wp_step. split; [constructor|done]. }
  wp_step. eapply wp_mono; [apply Hf; [by left|done]| |done].
  intros y v1 r1 _ [HR HI1]. wp_step. eapply wp_mono; [apply IH; [|done]| |done].
  { intros z v' r' Hz. apply Hf. by right. }
  intros ys v2 r2 _ [HRs HI2]. wp_step. split; [by econstructor|done].
Qed.

End Wpq.

Ltac wpq_step :=
  cbv beta;
  lazymatch goal with
  | |- wpq (mret _) _ _ _ _ _ => apply wpq_ret
  | |- wpq (mbind _ _) _ _ _ _ _ => apply wpq_bind
  | |- wpq (engine _) _ _ _ _ _ => apply wpq_engine
  | |- wpq (push _) _ _ _ _ _ => apply wpq_push
  end.

(** ** Publication, one component at a time *)

Definition pub_tags (t : TagRegistry) (eff : list PostCommit) : TagRegistry :=
  foldl (fun t e => match e with
                    | Post_TagCreated name id generation => registry_insert t name id generation
                    | Post_TagGeneration id generation => merge_generation t id generation
                    | Post_Epoch _ => t
                    end) t eff.

Definition pub_epoch (epoch : Z) (eff : list PostCommit) : Z :=
  foldl (fun epoch e => match e with Post_Epoch e => e | _ => epoch end) epoch eff.

Lemma publish_split r eff :
  publish r eff = set_epoch (set_tags r (pub_tags (ram_tags r) eff)) (pub_epoch (ram_epoch r) eff).
Proof.
  unfold publish, pub_tags, pub_epoch. revert r.
  induction eff as [|e eff IH]; intros r; cbn [foldl]; [by destruct r|].
  rewrite IH. by destruct e, r.
Qed.

Lemma pub_tags_snoc t eff e : pub_tags t (eff ++ [e]) = pub_tags (pub_tags t eff) [e].
Proof. unfold pub_tags. by rewrite foldl_app. Qed.

Lemma pub_epoch_snoc n eff e : pub_epoch n (eff ++ [e]) = pub_epoch (pub_epoch n eff) [e].
Proof. unfold pub_epoch. by rewrite foldl_app. Qed.

Lemma pub_tags_same t t' eff : same_entries t t' -> same_entries (pub_tags t eff) (pub_tags t' eff).
Proof.
  revert t t'. induction eff as [|e eff IH]; intros t t' Hs; [done|]. apply IH.
  destruct Hs as (H1 & H2 & H3 & H4). destruct e; [| |done].
  - unfold registry_insert, insert_entry, same_entries. cbn. by rewrite H1, H2, H3.
  - unfold merge_generation. rewrite H3.
    destruct (by_id t !! _) as [[j|]|]; unfold same_entries; cbn; by rewrite ?H1, ?H2.
Qed.

Lemma registry_ok_same t t' : same_entries t t' -> registry_ok t -> registry_ok t'.
Proof. intros (H1 & H2 & H3 & H4). unfold registry_ok. by rewrite H1, H2, H3. Qed.

Lemma pub_tags_next t eff : next_id (pub_tags t eff) = next_id t.
Proof.
  revert t. induction eff as [|e eff IH]; intros t; [done|]. cbn [pub_tags foldl].
  change (foldl _ ?t eff) with (pub_tags t eff). rewrite IH. destruct e; try done.
  unfold merge_generation. by destruct (by_id t !! _) as [[j|]|].
Qed.

(** ** The invariant *)

Definition disk_epoch (v : Views) : option Z :=
  match v_meta v !! meta_key_EPOCH with
  | None => Some 0
  | Some raw => if len raw =? 4 then Some (le_val raw) else None
  end.

Definition disk_watermark (v : Views) : option Z :=
  match v_meta v !! meta_key_CAS_WATERMARK with
  | None => Some 0
  | Some raw => if len raw =? 8 then Some (le_val raw) else None
  end.

Section Flight.
Context {HS : Hash}.
Variable g : Z.
(** The keys in use, which the hash separates. *)
Variable D : bytes -> Prop.

Record Flight (v : Views) (r : Ram) (eff : list PostCommit) : Prop := {
  fl_inv : Inv g v;
  fl_keys k : held v k -> D k;
  fl_table : TagTable v;
  fl_named n e : disk_tag v n = Some e -> name_ok n = true;
  fl_ids : ids_below v r;
  fl_jobs : Jobs_ok v;
  fl_reg : registry_ok (pub_tags (ram_tags r) eff);
  fl_names n : reg_names (pub_tags (ram_tags r) eff) n = disk_tag v n;
  fl_epoch : disk_epoch v = Some (pub_epoch (ram_epoch r) eff);
  fl_epoch_fits : fits 32 (ram_epoch r)
}.

(** Between transactions: memory agrees with the contents. *)
Definition Agrees (v : Views) (r : Ram) : Prop := Flight v r [].

Lemma Flight_publish v r eff : Flight v r eff -> fits 32 (pub_epoch (ram_epoch r) eff) ->
  Agrees v (publish r eff).
Proof.
  intros [] He. rewrite publish_split. constructor; try done.
  unfold ids_below in *. cbn. by rewrite pub_tags_next.
Qed.

Lemma ids_below_frame v r r' : ids_below v r -> ram_frame r r' -> ids_below v r'.
Proof.
  intros [H0 Hids] (_ & _ & Ha). unfold ids_advance in Ha. split; [lia|].
  intros n id g' Hx. apply Hids in Hx. lia.
Qed.

(** RAM changes outside the published part; in particular, what an aborted
    transaction leaves: the old contents with the new RAM. *)
Lemma Flight_ram v r r' eff : Flight v r eff -> ram_frame r r' -> Flight v r' eff.
Proof.
  intros [] Hf. pose proof (ids_below_frame _ _ _ fl_ids0 Hf) as Hids.
  destruct Hf as (He & Hs & _). constructor; try done.
  - eapply registry_ok_same; [apply pub_tags_same|]; done.
  - intros n. rewrite <- fl_names0. eapply same_entries_names, pub_tags_same; done.
  - by rewrite He.
  - by rewrite He.
Qed.

End Flight.

(** ** Each kind of change keeps the invariant *)

Section Steps.
Context {T : Type} {BT : Backend T} {BL : BackendLaws T} {HS : Hash} {FT : FloatText}.
Variable cfg : Config.
Variable now_ms : Z.
Variable D : bytes -> Prop.
Hypothesis D_separates : forall k k', D k -> D k' -> xxh3_64 k' = xxh3_64 k -> k' = k.

Abbreviation g := (bucket_granularity_ms cfg).
Abbreviation Flight := (Flight g D).

Lemma Flight_separates v r eff k : Flight v r eff -> D k -> separates k (held v).
Proof. intros Hf Hk k' Hh. apply D_separates; [done|]. by eapply fl_keys. Qed.

Lemma disk_epoch_cas v r : disk_epoch (cas_views v r) = disk_epoch v.
Proof.
  unfold disk_epoch, cas_views. destruct (cas_extends r); [|done]. cbn [vput vset v_meta vget].
  by rewrite lookup_insert_ne.
Qed.

Lemma disk_epoch_meta v v' : v_meta v' = v_meta v -> disk_epoch v' = disk_epoch v.
Proof. unfold disk_epoch. by intros ->. Qed.

Lemma cas_ram_frame r : ram_frame r (cas_ram r).
Proof. unfold cas_ram. destruct (cas_extends r); frame. Qed.

Lemma cas_ram_next r : next_id (ram_tags (cas_ram r)) = next_id (ram_tags r).
Proof. unfold cas_ram. by destruct (cas_extends r). Qed.

Lemma changed_flight k ch v r v' r' eff :
  changed cfg k ch v r v' r' -> D k -> Flight v r eff -> Flight v' r' eff.
Proof.
  intros (Hch & Htag & Hjobs & Hi & _) Hk Hf.
  assert (forall n, disk_tag v' n = disk_tag v n) as Hdisk by (intros; by apply disk_tag_other).
  assert (ram_frame r r' /\ next_id (ram_tags r') = next_id (ram_tags r)
    /\ disk_epoch v' = disk_epoch v /\ (forall k', held v' k' -> D k')) as (Hfr & Hn & He & Hkeys).
  { assert (forall k', recs v' !! k' = None <-> v_main v' !! k' = None) as Hnone
      by (intros; by apply inv_recs_None with g).
    assert (forall k', held v' k' -> is_Some (recs v' !! k')) as Hheld.
    { intros k' [x Hx]. destruct (recs v' !! k') eqn:E; [by eauto|]. apply Hnone in E. congruence. }
    destruct ch as [|rec|].
    - destruct Hch as [-> ->]. conjs; try done. intros k' Hh. by eapply fl_keys.
    - destruct Hch as (Hr & Hm & ->). conjs; [apply cas_ram_frame|apply cas_ram_next| |].
      + by rewrite (disk_epoch_meta _ _ Hm), disk_epoch_cas.
      + intros k' [x Hx]%Hheld. rewrite Hr in Hx.
        apply lookup_insert_Some in Hx as [[<- _]|[_ Hx]]; [done|].
        eapply fl_keys; [done|]. by eapply recs_held.
    - destruct Hch as (Hr & Hm & ->). conjs; [done|done|by apply disk_epoch_meta|].
      intros k' [x Hx]%Hheld. rewrite Hr in Hx. apply lookup_delete_Some in Hx as [_ Hx].
      eapply fl_keys; [done|]. by eapply recs_held. }
  apply Flight_ram with r; [|done].
  destruct Hf. constructor; try done.
    + constructor; [rewrite Htag; apply fl_table0|]. intros n n' id g1 g2. rewrite !Hdisk. apply fl_table0.
    + intros n e. rewrite Hdisk. apply fl_named0.
    + destruct fl_ids0 as [H0 H1]. split; [done|]. intros n id g1. rewrite Hdisk. apply H1.
    + intros jk raw. rewrite Hjobs. apply fl_jobs0.
    + intros n. by rewrite Hdisk.
    + by rewrite He.
Qed.

(** A tag row written, with the effect that publishes it. *)
Lemma tag_row_flight v r r' eff name id gen e :
  Flight v r eff -> ram_frame r r' ->
  fits 32 id -> fits 64 gen -> name_ok name = true ->
  0 <= id < next_id (ram_tags r') -> next_id (ram_tags r) <= next_id (ram_tags r') <= U32_MAX ->
  (forall n g', disk_tag v n = Some (id, g') -> n = name) ->
  (forall i g', disk_tag v name = Some (i, g') -> i = id) ->
  (forall t, registry_ok t -> (forall n, reg_names t n = disk_tag v n) ->
     registry_ok (pub_tags t [e])
     /\ forall n, reg_names (pub_tags t [e]) n = if decide (n = name) then Some (id, gen) else reg_names t n) ->
  (forall n, pub_epoch n [e] = n) ->
  Flight (vput v TagMeta name (encode_entry id gen)) r' (eff ++ [e]).
Proof.
  intros Hf Hfr Hid Hg Hname Hlt Hnext Huniq Hsame Hpub Hep.
  assert (forall n, disk_tag (vput v TagMeta name (encode_entry id gen)) n
                    = if decide (n = name) then Some (id, gen) else disk_tag v n) as Hdisk
    by (intros; by apply disk_tag_put).
  destruct Hfr as (Hre & Hse & _).
  pose proof (registry_ok_same _ _ (pub_tags_same _ _ eff Hse) (fl_reg _ _ _ _ _ Hf)) as Hreg.
  assert (forall n, reg_names (pub_tags (ram_tags r') eff) n = disk_tag v n) as Hnames.
  { intros n. rewrite <- (fl_names _ _ _ _ _ Hf). apply same_entries_names, pub_tags_same; done. }
  destruct (Hpub _ Hreg Hnames) as [Hok Hn].
  destruct Hf. constructor; try done.
  - by constructor; destruct fl_inv0.
  - apply TagTable_put; try done.
  - intros n x. rewrite Hdisk. case_decide; [by subst|]. apply fl_named0.
  - split; [lia|]. intros n i g1. rewrite Hdisk. case_decide; [intros [= <- <-]; lia|].
    intros Hx. apply (proj2 fl_ids0) in Hx. lia.
  - by rewrite pub_tags_snoc.
  - intros n. rewrite pub_tags_snoc, Hn, Hdisk. by case_decide; [|apply Hnames].
  - rewrite pub_epoch_snoc, Hep, Hre. rewrite <- fl_epoch0. by apply disk_epoch_meta.
  - by rewrite Hre.
Qed.

(** A reclamation job queued. *)
Lemma job_flight v r eff id gen :
  Flight v r eff -> fits 32 id -> fits 64 gen ->
  Flight (vput v Jobs (be_bytes 4 id) (Job_encode (Job_new gen))) r eff.
Proof.
  intros [] Hid Hg. constructor; try done.
  - by destruct fl_inv0; constructor.
  - by destruct fl_table0; constructor.
  - intros jk raw. cbn. intros [[<- <-]|[_ Hx]]%lookup_insert_Some; [|by apply fl_jobs0].
    exists id, (Job_new gen). conjs; try done. apply Job_decode_encode. by split.
Qed.

Lemma vput_same v name id gen :
  TagTable v -> disk_tag v name = Some (id, gen) -> vput v TagMeta name (encode_entry id gen) = v.
Proof.
  intros Ht. unfold disk_tag. destruct (v_tag_meta v !! name) as [raw|] eqn:E; [|done].
  intros Hd. cbn in Hd. apply decode_entry_inv in Hd as (-> & _ & _).
  unfold vput. cbn [vset vget]. rewrite insert_id by done. by destruct v.
Qed.

Lemma pub_created t v name id gen :
  registry_ok t -> (forall n, reg_names t n = disk_tag v n) -> 0 <= id ->
  (forall n g', disk_tag v n = Some (id, g') -> n = name) ->
  (forall i g', disk_tag v name = Some (i, g') -> i = id) ->
  registry_ok (pub_tags t [Post_TagCreated name id gen])
  /\ forall n, reg_names (pub_tags t [Post_TagCreated name id gen]) n
               = if decide (n = name) then Some (id, gen) else reg_names t n.
Proof.
  intros Hr Hn Hid Hu Hs. cbn. unfold registry_insert. split.
  - apply insert_ok; [done|]. split_and!; [done| |]; intros *; rewrite Hn; eauto.
  - intros n. by apply insert_names_ok.
Qed.

Lemma pub_raised t v name id cur gen :
  registry_ok t -> (forall n, reg_names t n = disk_tag v n) ->
  disk_tag v name = Some (id, cur) -> cur <= gen -> TagTable v ->
  registry_ok (pub_tags t [Post_TagGeneration id gen])
  /\ forall n, reg_names (pub_tags t [Post_TagGeneration id gen]) n
               = if decide (n = name) then Some (id, gen) else reg_names t n.
Proof.
  intros Hr Hn Hd Hle Ht. cbn. destruct (disk_tag_fits _ _ _ _ Hd) as [Hid _].
  split; [by apply merge_ok|]. intros n. rewrite merge_names by (done || width).
  rewrite Hn. case_decide as Hnn.
  - subst. rewrite Hd, decide_True by done. f_equal. f_equal. lia.
  - destruct (disk_tag v n) as [[i g1]|] eqn:E; [|done]. rewrite decide_False; [done|].
    intros ->. apply Hnn. by eapply tt_ids.
Qed.

(** ** What each operation promises *)

Definition op_ready (op : WriteOp) : Prop :=
  match op with
  | Op_Set items =>
      Forall (fun p => D (ps_key p) /\ ps_pre_read p = None /\ exists rec0, prepared_ok p rec0) items
  | Op_ConditionalSet p _ => D (ps_key p) /\ exists rec0, prepared_ok p rec0
  | Op_Delete keys => Forall D keys
  | Op_Touch keys ttl_secs => Forall D keys /\ fits 32 ttl_secs
  | Op_Arithmetic op => D (ar_key op) /\ ttl_ok (ar_ttl op)
  | Op_Append key _ => D key
  | Op_Expire key ttl _ => D key /\ ttl_ok ttl
  | Op_CreateTags names => Forall (fun '(_, g0) => fits 64 g0) names
  | Op_MergeTag _ g0 => fits 64 g0
  | Op_DeleteByTag _ | Op_Flush | Op_Sync => True
  end.

(** How many tag ids the operation may allocate. *)
Definition creations (op : WriteOp) : Z :=
  match op with Op_CreateTags names => len names | Op_MergeTag _ _ => 1 | _ => 0 end.

(** An operation on one key, as the abstract cache has it. *)
Definition key_step {A} (k : bytes) (verdict : Views -> Ram -> Verdict A)
    (a : A) (v : Views) (r : Ram) (v' : Views) (r' : Ram) : Prop :=
  answers cfg k (verdict v r) v r a v' r'.

Definition same_records (v v' : Views) : Prop :=
  v_main v' = v_main v /\ v_exp v' = v_exp v /\ v_tagidx v' = v_tagidx v.

Definition same_cas (r r' : Ram) : Prop :=
  ram_cas_next r' = ram_cas_next r /\ ram_cas_watermark r' = ram_cas_watermark r.

(** Registered names are kept; a new one is one of [names], at the generation
    asked for it; nothing else changes. *)
Definition created (names : list (bytes * Z)) (v v' : Views) : Prop :=
  same_records v v' /\ v_jobs v' = v_jobs v /\ v_meta v' = v_meta v
  /\ forall n, disk_tag v' n = disk_tag v n
       \/ (disk_tag v n = None /\ exists id g0, (n, g0) ∈ names /\ disk_tag v' n = Some (id, g0)).

Definition op_spec (op : WriteOp) (out : WriteOutcome) (v : Views) (r : Ram) (v' : Views) (r' : Ram)
    : Prop :=
  match op, out with
  | Op_Set items, Out_Cas tokens =>
      exists applied, tokens = sa_cas <$> applied
        /\ each (fun p a v r v' r' => exists rec0, prepared_ok p rec0
               /\ key_step (ps_key p) (fun v r => spec_set now_ms (cas_token cfg r) p rec0
                    (seen now_ms v r (ps_key p))) a v r v' r') items applied v r v' r'
  | Op_ConditionalSet p mode, Out_Written w =>
      exists rec0, prepared_ok p rec0
        /\ key_step (ps_key p) (fun v r => spec_conditional cfg now_ms (ram_epoch r) (cas_token cfg r) p rec0
             mode (seen now_ms v r (ps_key p))) w v r v' r'
  | Op_Delete keys, Out_Deleted hits =>
      each (fun k => key_step k (fun v r => spec_delete (seen now_ms v r k))) keys hits v r v' r'
  | Op_Touch keys ttl_secs, Out_Touched hits =>
      each (fun k => key_step k (fun v r => spec_touch now_ms (cas_token cfg r) ttl_secs (seen now_ms v r k)))
        keys hits v r v' r'
  | Op_Arithmetic op, Out_Arithmetic applied =>
      key_step (ar_key op) (fun v r => spec_arithmetic cfg now_ms (ram_epoch r) (cas_token cfg r) op
        (seen now_ms v r (ar_key op))) applied v r v' r'
  | Op_Append key suffix, Out_Length n =>
      key_step key (fun v r => spec_append cfg (ram_epoch r) (cas_token cfg r) suffix (seen now_ms v r key))
        n v r v' r'
  | Op_Expire key ttl guard, Out_Applied b =>
      key_step key (fun v r => spec_expire now_ms (cas_token cfg r) ttl guard (seen now_ms v r key))
        b v r v' r'
  | Op_CreateTags names, Out_Done =>
      created names v v' /\ same_cas r r' /\ forall n, n ∈ names.*1 -> is_Some (disk_tag v' n)
  | Op_DeleteByTag name, Out_Invalidated answer =>
      same_records v v' /\ v_meta v' = v_meta v /\ r' = r
      /\ (forall n, n <> name -> disk_tag v' n = disk_tag v n)
      /\ match disk_tag v name with
         | None => answer = None /\ v' = v
         | Some (id, g0) =>
             answer = Some (Z.min (g0 + 1) U64_MAX)
             /\ disk_tag v' name = Some (id, Z.min (g0 + 1) U64_MAX)
         end
  | Op_MergeTag name g0, Out_Merged g1 =>
      same_records v v' /\ v_meta v' = v_meta v /\ same_cas r r'
      /\ (forall n, n <> name -> disk_tag v' n = disk_tag v n)
      /\ match disk_tag v name with
         | None => g1 = g0 /\ exists id, disk_tag v' name = Some (id, g0)
         | Some (id, cur) => g1 = Z.max cur g0 /\ disk_tag v' name = Some (id, g1)
         end
  | Op_Flush, Out_Flushed epoch =>
      epoch = wrapping 32 (ram_epoch r + 1) /\ disk_epoch v' = Some epoch
      /\ recs v' = ∅ /\ v_exp v' = ∅ /\ v_tagidx v' = ∅ /\ v_jobs v' = ∅
      /\ v_tag_meta v' = v_tag_meta v /\ r' = r
      /\ v_meta v' = <[meta_key_EPOCH := le_bytes 4 epoch]> (v_meta v)
  | Op_Sync, Out_Done => v' = v /\ r' = r
  | _, _ => False
  end.

(** Why a tag is not registered: its name is not one, or it would be new and
    the table is full. *)
Definition tag_refused (name : bytes) (e : StoreError) (v : Views) (r : Ram) : Prop :=
  (name_ok name = false /\ e = SE_Core (TagTooLong (len name) MAX_TAG_LEN))
  \/ (disk_tag v name = None /\ max_tags (ram_tags r) <= registry_len (ram_tags r)
      /\ e = SE_TagLimit (max_tags (ram_tags r))).

(** When an operation is refused, and with what: an operation on one key when
    the abstract cache refuses it, with the abstract cache's error; one that
    registers tags for a name it may not register; the others never.  A refused
    operation leaves nothing behind, except that the names created before the
    one that was refused stay created. *)
Definition op_refused (op : WriteOp) (e : StoreError) (v : Views) (r : Ram) (v' : Views) (r' : Ram)
    : Prop :=
  match op with
  | Op_ConditionalSet p mode =>
      (exists rec0, prepared_ok p rec0
         /\ spec_conditional cfg now_ms (ram_epoch r) (cas_token cfg r) p rec0 mode
              (seen now_ms v r (ps_key p)) = Err e)
      /\ v' = v /\ r' = r
  | Op_Arithmetic op =>
      spec_arithmetic cfg now_ms (ram_epoch r) (cas_token cfg r) op (seen now_ms v r (ar_key op)) = Err e
      /\ v' = v /\ r' = r
  | Op_Append key suffix =>
      spec_append cfg (ram_epoch r) (cas_token cfg r) suffix (seen now_ms v r key) = Err e
      /\ v' = v /\ r' = r
  | Op_CreateTags names =>
      (exists name, name ∈ names.*1 /\ tag_refused name e v' r')
      /\ created names v v' /\ same_cas r r'
  | Op_MergeTag name _ => tag_refused name e v r /\ v' = v /\ r' = r
  | _ => False
  end.

Lemma disk_epoch_fits v e : disk_epoch v = Some e -> fits 32 e.
Proof.
  unfold disk_epoch. destruct (v_meta v !! meta_key_EPOCH) as [raw|]; [|intros [= <-]; width].
  destruct (Z.eqb_spec (len raw) 4) as [Hl|]; [|done]. intros [= <-].
  apply (le_val_fits 32). unfold len in Hl. lia.
Qed.

Lemma changed_next k ch v r v' r' :
  changed cfg k ch v r v' r' -> next_id (ram_tags r') = next_id (ram_tags r).
Proof.
  intros [Hch _]. destruct ch; [by destruct Hch as [_ ->]| |by destruct Hch as (_ & _ & ->)].
  destruct Hch as (_ & _ & ->). apply cas_ram_next.
Qed.

(** The invariant with the id counter pinned, for operations on records. *)
Definition Flying (n : Z) (eff : list PostCommit) (v : Views) (r : Ram) : Prop :=
  Flight v r eff /\ next_id (ram_tags r) = n.

Lemma wp_key {A} (m : StoreM T A) k (verdict : Verdict A) v r eff n :
  wp m (answers cfg k verdict v r) (refuses verdict v r) v r -> D k -> Flying n eff v r ->
  wp m (fun a v' r' => answers cfg k verdict v r a v' r' /\ Flying n eff v' r')
    (fun e v' r' => verdict = Err e /\ v' = v /\ r' = r) v r.
Proof.
  intros Hm Hk [Hf Hn]. eapply wp_mono; [exact Hm| |].
  - intros a v' r' _ (ch & Hv & Hch). split; [by exists ch|].
    split; [by eapply changed_flight|]. rewrite <- Hn. by eapply changed_next.
  - by intros e v' r' _ (-> & -> & ->).
Qed.

(** A loop of operations on one key each that are never refused. *)
Lemma wp_keys {X A} (f : X -> StoreM T A) (key : X -> bytes) (verdict : X -> Views -> Ram -> Verdict A)
    l v r eff n :
  (forall x v r, x ∈ l -> Flying n eff v r ->
     D (key x) /\ is_ok (verdict x v r) = true
     /\ wp (f x) (answers cfg (key x) (verdict x v r) v r) (refuses (verdict x v r) v r) v r) ->
  Flying n eff v r ->
  wp (map_each f l)
    (fun ys v' r' => each (fun x => key_step (key x) (verdict x)) l ys v r v' r' /\ Flying n eff v' r')
    (fun _ _ _ => False) v r.
Proof.
  intros Hf HI. eapply wp_map_each; [|done]. intros x v1 r1 Hx HI1.
  destruct (Hf x v1 r1 Hx HI1) as (Hk & Hok & Hm).
  eapply wp_mono; [by apply wp_key|done|]. intros e v' r' _ [Hno _]. by rewrite Hno in Hok.
Qed.

Section Apply.
Hypothesis now_fits : fits 64 now_ms.
Variable v : Views.
Variable r : Ram.
Variable eff : list PostCommit.
Hypothesis flight : Flight v r eff.

Definition op_post (op : WriteOp) (out : WriteOutcome) (v' : Views) (r' : Ram) (eff' : list PostCommit)
    : Prop :=
  op_spec op out v r v' r' /\ Flight v' r' eff'
  /\ next_id (ram_tags r') <= next_id (ram_tags r) + creations op.

Definition op_fail (op : WriteOp) (e : StoreError) (v' : Views) (r' : Ram) (eff' : list PostCommit)
    : Prop :=
  poisons_transaction e = false /\ op_refused op e v r v' r' /\ Flight v' r' eff'
  /\ next_id (ram_tags r') <= next_id (ram_tags r) + creations op.

Lemma flying_here : Flying (next_id (ram_tags r)) eff v r.
Proof. by split. Qed.

Lemma flying_ready n v1 r1 : Flying n eff v1 r1 -> ready cfg now_ms v1 r1.
Proof. intros [Hf _]. by destruct Hf. Qed.

(** One operation on one key, answered through [wrap]. *)
Lemma wpq_key {A} (m : StoreM T A) k (verdict : Verdict A) op (wrap : A -> WriteOutcome) :
  wp m (answers cfg k verdict v r) (refuses verdict v r) v r -> D k ->
  (forall a v' r', answers cfg k verdict v r a v' r' -> op_spec op (wrap a) v r v' r') ->
  creations op = 0 ->
  (forall e, verdict = Err e -> poisons_transaction e = false) ->
  (forall e, verdict = Err e -> op_refused op e v r v r) ->
  wpq (a ← engine m; mret (wrap a)) (op_post op) (op_fail op) v r eff.
Proof.
  intros Hm Hk Hs Hc He Hr. apply wpq_bind, wpq_engine.
  eapply wp_mono; [by apply wp_key; [|done|apply flying_here]| |].
  - intros a v' r' _ [Ha [Hf Hn]]. apply wpq_ret. split_and!; [by apply Hs|done|lia].
  - intros e v' r' _ (Hv & -> & ->). split_and!; [by apply He|by apply Hr|done|lia].
Qed.

Lemma wpq_keys {X A} (f : X -> StoreM T A) (key : X -> bytes) (verdict : X -> Views -> Ram -> Verdict A)
    l op (wrap : list A -> WriteOutcome) :
  (forall x v r, x ∈ l -> ready cfg now_ms v r -> separates (key x) (held v) ->
     is_ok (verdict x v r) = true
     /\ wp (f x) (answers cfg (key x) (verdict x v r) v r) (refuses (verdict x v r) v r) v r) ->
  Forall (fun x => D (key x)) l ->
  (forall ys v' r', each (fun x => key_step (key x) (verdict x)) l ys v r v' r' -> op_spec op (wrap ys) v r v' r') ->
  creations op = 0 ->
  wpq (ys ← engine (map_each f l); mret (wrap ys)) (op_post op) (op_fail op) v r eff.
Proof.
  intros Hf Hk Hs Hc. rewrite Forall_forall in Hk. apply wpq_bind, wpq_engine.
  eapply wp_mono; [apply wp_keys with (key := key) (verdict := verdict); [|apply flying_here]| |done].
  - intros x v1 r1 Hx HI. split; [by apply Hk|]. apply Hf; [done|by eapply flying_ready|].
    destruct HI as [HI _]. eapply Flight_separates; [done|]. by apply Hk.
  - intros ys v' r' _ [He [Hf' Hn]]. apply wpq_ret. split_and!; [by apply Hs|done|lia].
Qed.

(** A registered tag: its id is below the counter and names it alone. *)
Lemma known_tag name id g0 :
  disk_tag v name = Some (id, g0) ->
  0 <= id < next_id (ram_tags r) /\ next_id (ram_tags r) <= U32_MAX
  /\ (forall n g', disk_tag v n = Some (id, g') -> n = name)
  /\ (forall i g', disk_tag v name = Some (i, g') -> i = id).
Proof.
  intros E. destruct flight. destruct fl_ids0 as [H0 H1]. conjs.
  - by eapply H1.
  - by eapply H1.
  - lia.
  - intros n g' Hx. by eapply tt_ids.
  - intros i g'. rewrite E. congruence.
Qed.

Lemma wpq_set items :
  op_ready (Op_Set items) ->
  wpq (queue_apply cfg now_ms (Op_Set items)) (op_post (Op_Set items)) (op_fail (Op_Set items)) v r eff.
Proof.
  intros Hr. cbn [op_ready] in Hr. rewrite Forall_forall in Hr. cbn [queue_apply].
  apply wpq_bind, wpq_engine.
  set (R := fun p a v r v' r' => exists rec0, prepared_ok p rec0
    /\ key_step (ps_key p) (fun v r => spec_set now_ms (cas_token cfg r) p rec0 (seen now_ms v r (ps_key p)))
         a v r v' r').
  eapply wp_mono; [apply wp_map_each with (R := R) (I := Flying (next_id (ram_tags r)) eff);
    [|apply flying_here]| |done].
  - intros p v1 r1 Hp HI. destruct (Hr p Hp) as (HD & Hpre & rec0 & Hok).
    eapply wp_mono; [eapply wp_key; [apply wp_apply_set_spec with (rec0 := rec0)|done|done]| |].
    + done.
    + by destruct HI as [[] _].
    + done.
    + unfold pre_read_ok. by rewrite Hpre.
    + eapply Flight_separates; [by destruct HI as [HI _]|done].
    + intros a v' r' _ [Ha HI']. split; [|done]. by exists rec0.
    + by intros e v' r' _ [Hno _].
  - intros ys v' r' _ [He [Hf Hn]]. apply wpq_ret. split_and!; [by exists ys|done|cbn; lia].
Qed.

Lemma wpq_flush : wpq (queue_apply cfg now_ms Op_Flush) (op_post Op_Flush) (op_fail Op_Flush) v r eff.
Proof.
  cbn [queue_apply]. do 2 wpq_step. unfold apply_flush. repeat wp_step. repeat wpq_step.
  set (epoch := wrapping 32 (ram_epoch r + 1)).
  assert (fits 32 epoch) as He by (apply wrapping_fits; lia).
  set (v' := vset _ Jobs ∅).
  assert (disk_epoch v' = Some epoch) as Hde.
  { unfold disk_epoch, v', vput. cbn [vset vget v_meta]. rewrite lookup_insert_eq.
    unfold len. rewrite length_le_bytes. cbn. by rewrite (le_val_bytes_fits 32). }
  assert (recs v' = ∅) as Hrecs by (unfold recs, v'; cbn; apply omap_empty).
  split_and!; try done.
  2:{ cbn. lia. }
  destruct flight. constructor; try done.
  - intros k [x Hx]. unfold v' in Hx. cbn in Hx. by rewrite lookup_empty in Hx.
  - destruct fl_table0. by constructor.
  - by rewrite pub_tags_snoc.
  - intros n. rewrite pub_tags_snoc. cbn. apply fl_names0.
  - rewrite pub_epoch_snoc. by rewrite Hde.
Qed.

Lemma wpq_delete_by_tag name :
  wpq (queue_apply cfg now_ms (Op_DeleteByTag name)) (op_post (Op_DeleteByTag name))
    (op_fail (Op_DeleteByTag name)) v r eff.
Proof.
  cbn [queue_apply]. do 2 wpq_step.
  apply wp_delete_by_tag; [by destruct flight|intros; by eapply fl_named|].
  destruct (disk_tag v name) as [[id g0]|] eqn:E.
  2:{ wpq_step. split_and!; try done; [|cbn; lia]. cbn. by rewrite E. }
  destruct (disk_tag_fits _ _ _ _ E) as [Hid Hg].
  destruct (known_tag _ _ _ E) as (Hlt & Hnx & Hu & Hs).
  destruct (Z.eqb_spec g0 U64_MAX) as [Heq|Hne]; repeat wpq_step.
  - assert (Z.min (g0 + 1) U64_MAX = g0) as Hmin by lia.
    split_and!; [cbn [op_spec]; rewrite E, Hmin; by split_and!| |cbn; lia].
    rewrite <- (vput_same v name id g0) at 1 by (done || by destruct flight).
    eapply tag_row_flight; try done; [by eapply fl_named|].
    intros t Ht Hn. apply (pub_raised t v name id g0); [done|done|done|lia|by destruct flight].
  - assert (fits 64 (g0 + 1)) as Hg1 by (clear -Hg Hne; width).
    assert (Z.min (g0 + 1) U64_MAX = g0 + 1) as Hmin by (clear -Hg Hne; width).
    split_and!; [cbn [op_spec]; rewrite E, Hmin; split_and!; try done|apply job_flight; try done|cbn; lia].
    + intros n Hn. rewrite disk_tag_jobs, disk_tag_put by done. by rewrite decide_False.
    + rewrite disk_tag_jobs, disk_tag_put by done. by rewrite decide_True.
    + eapply tag_row_flight; try done; [by eapply fl_named|].
      intros t Ht Hn. apply (pub_raised t v name id g0); [done|done|done|lia|by destruct flight].
Qed.

(** A new name: its id is fresh. *)
Lemma create_flight name g0 :
  disk_tag v name = None -> name_ok name = true -> fits 64 g0 -> next_id (ram_tags r) + 1 <= U32_MAX ->
  let id := next_id (ram_tags r) in
  let v' := vput v TagMeta name (encode_entry id g0) in
  let r' := set_tags r (set_next_id (ram_tags r) (wrapping 32 (id + 1))) in
  Flight v' r' (eff ++ [Post_TagCreated name id g0])
  /\ next_id (ram_tags r') = id + 1
  /\ (forall n, disk_tag v' n = if decide (n = name) then Some (id, g0) else disk_tag v n)
  /\ forall n g', disk_tag v n <> Some (id, g').
Proof.
  intros Hd Hn Hg Hb id v' r'.
  assert (0 <= id /\ forall n i g1, disk_tag v n = Some (i, g1) -> 0 <= i < id) as [H0 Hids].
  { destruct flight. destruct fl_ids0 as [[? ?] ?]. done. }
  assert (fits 32 id) as Hid by (clear -H0 Hb; subst id; width).
  assert (next_id (ram_tags r') = id + 1) as Hnext.
  { subst r'. cbn. apply wrapping_small. clear -H0 Hb. subst id. width. }
  assert (forall n g', disk_tag v n <> Some (id, g')) as Hfresh.
  { intros n g' Hx. apply Hids in Hx. lia. }
  conjs; [|done|by intros n; apply disk_tag_put|done].
  eapply tag_row_flight; try done.
  - split; [done|]. split; [done|]. unfold ids_advance. rewrite Hnext. lia.
  - rewrite Hnext. lia.
  - rewrite Hnext. lia.
  - intros n g' Hx. by destruct (Hfresh n g').
  - intros i g'. by rewrite Hd.
  - intros t Ht Hnm. apply (pub_created t v); try done.
    + intros n g' Hx. by destruct (Hfresh n g').
    + intros i g'. by rewrite Hd.
Qed.

Lemma wpq_merge_tag name g0 :
  fits 64 g0 -> next_id (ram_tags r) + 1 <= U32_MAX ->
  wpq (queue_apply cfg now_ms (Op_MergeTag name g0)) (op_post (Op_MergeTag name g0))
    (op_fail (Op_MergeTag name g0)) v r eff.
Proof.
  intros Hg Hb. cbn [queue_apply]. do 2 wpq_step.
  assert (forall e, poisons_transaction e = false -> tag_refused name e v r ->
    op_fail (Op_MergeTag name g0) e v r eff) as Hfail.
  { intros e He Hr. split_and!; try done. cbn. lia. }
  assert (0 <= next_id (ram_tags r)) as H0 by apply flight.
  apply wp_merge_tag; [by destruct flight|intros Hno; apply Hfail; [done|by left]|]. intros Hname.
  destruct (disk_tag v name) as [[id cur]|] eqn:E.
  - destruct (disk_tag_fits _ _ _ _ E) as [Hid Hcur].
    destruct (known_tag _ _ _ E) as (Hlt & Hnx & Hu & Hs).
    destruct (Z.leb_spec g0 cur); repeat wpq_step.
    + split_and!; [cbn [op_spec TagMerge_generation]; rewrite E|done|cbn; lia].
      replace (Z.max cur g0) with cur by lia. done.
    + split_and!; [cbn [op_spec TagMerge_generation]; rewrite E|apply job_flight; try done|cbn; lia].
      1: replace (Z.max cur g0) with g0 by lia; split_and!; try done.
      * intros n Hn. rewrite disk_tag_jobs, disk_tag_put by done. by rewrite decide_False.
      * rewrite disk_tag_jobs, disk_tag_put by done. by rewrite decide_True.
      * eapply tag_row_flight; try done.
        intros t Ht Hn. apply (pub_raised t v name id cur); [done|done|done|lia|by destruct flight].
  - split; [lia|]. destruct (Z.leb_spec (max_tags (ram_tags r)) (registry_len (ram_tags r)));
      [apply Hfail; [done|by right]|]. repeat wpq_step.
    destruct (create_flight name g0 E Hname Hg Hb) as (Hf & Hnext & Hdisk & _).
    split_and!; [cbn [op_spec]; rewrite E; split_and!; try done|done|cbn in *; lia].
    + intros n Hn. rewrite Hdisk. by rewrite decide_False.
    + eexists. rewrite Hdisk. by rewrite decide_True.
Qed.

End Apply.

Lemma created_refl names v : created names v v.
Proof. unfold created, same_records. conjs; try done. intros n. by left. Qed.

Lemma created_cons name g0 id names v v1 v' :
  (v1 = v \/ (v1 = vput v TagMeta name (encode_entry id g0) /\ disk_tag v name = None
             /\ forall n, disk_tag v1 n = if decide (n = name) then Some (id, g0) else disk_tag v n)) ->
  created names v1 v' -> created ((name, g0) :: names) v v'.
Proof.
  intros H1 ((R1 & R2 & R3) & J & M & Hd).
  assert (same_records v v1 /\ v_jobs v1 = v_jobs v /\ v_meta v1 = v_meta v) as ((S1 & S2 & S3) & J1 & M1).
  { destruct H1 as [->|(-> & _)]; done. }
  unfold created, same_records. conjs; try congruence. intros n.
  destruct (Hd n) as [Hn|(Hn & i & g1 & Hin & Hn')].
  - destruct H1 as [->|(_ & Hnone & Hdisk)]; [by left|]. rewrite Hdisk in Hn.
    case_decide; [subst n|by left]. right. split; [done|]. exists id, g0. split; [by left|done].
  - destruct H1 as [->|(_ & Hnone & Hdisk)].
    + right. split; [done|]. exists i, g1. split; [by right|done].
    + rewrite Hdisk in Hn. case_decide; [done|]. right. split; [done|].
      exists i, g1. split; [by right|done].
Qed.

Lemma created_keeps names v v' n : created names v v' -> is_Some (disk_tag v n) -> is_Some (disk_tag v' n).
Proof. intros (_ & _ & _ & Hd) [e He]. destruct (Hd n) as [->|[Hn _]]; [by eauto|congruence]. Qed.

Lemma wpq_create_tags names v r eff :
  Flight v r eff -> Forall (fun '(_, g0) => fits 64 g0) names ->
  next_id (ram_tags r) + len names <= U32_MAX ->
  wpq (T:=T) (create_tags_loop names)
    (fun out v' r' eff' => out = Out_Done /\ created names v v' /\ same_cas r r'
       /\ (forall n, n ∈ names.*1 -> is_Some (disk_tag v' n))
       /\ Flight v' r' eff' /\ next_id (ram_tags r') <= next_id (ram_tags r) + len names)
    (fun e v' r' eff' => poisons_transaction e = false
       /\ (exists name, name ∈ names.*1 /\ tag_refused name e v' r')
       /\ created names v v' /\ same_cas r r'
       /\ Flight v' r' eff' /\ next_id (ram_tags r') <= next_id (ram_tags r) + len names)
    v r eff.
Proof.
  revert v r eff. induction names as [|[name g0] names IH]; intros v r eff Hf Hg Hb; cbn [create_tags_loop].
  { wpq_step. split_and!; try done; [apply created_refl| |unfold len; cbn; lia].
    intros n Hn. by apply elem_of_nil in Hn. }
  apply Forall_cons in Hg as [Hg0 Hg].
  assert (len ((name, g0) :: names) = len names + 1) as Hlen by (unfold len; cbn [length]; lia).
  pose proof (len_nonneg names) as Hpos. rewrite Hlen in *.
  do 2 wpq_step. apply wp_create_tag; [by destruct Hf| |].
  { intros Hno. conjs; [done| |apply created_refl|done|done|lia].
    exists name. split; [by left|by left]. }
  intros Hname. destruct (disk_tag v name) as [[id g1]|] eqn:E.
  - destruct (disk_tag_fits _ _ _ _ E) as [Hid Hg1].
    destruct (known_tag _ _ _ Hf _ _ _ E) as (Hlt & Hnx & Hu & Hs).
    cbv iota. do 2 wpq_step.
    assert (Flight v r (eff ++ [Post_TagCreated name id g1])) as Hf1.
    { rewrite <- (vput_same v name id g1) by (done || by destruct Hf).
      eapply tag_row_flight; try done. intros t Ht Hn. apply (pub_created t v); [done|done|lia|done|done]. }
    eapply wpq_mono; [apply IH; [done|done|lia]| |].
    + intros out v' r' eff' _ (-> & Hc & Hcas & Hall & Hf' & Hn'). split_and!; try done; [|intros n|lia].
      * eapply (created_cons name g0 0); [by left|done].
      * cbn [fmap list_fmap fst]. intros [->|Hin]%elem_of_cons; [|by apply Hall].
        eapply created_keeps; [done|]. by rewrite E.
    + intros e v' r' eff' _ (He & (n & Hin & Href) & Hc & Hcas & Hf' & Hn').
      conjs; [done|exists n; split; [by right|done]| |done|done|lia].
      eapply (created_cons name g0 0); [by left|done].
  - split; [pose proof (fl_ids _ _ _ _ _ Hf) as [? _]; lia|].
    destruct (Z.leb_spec (max_tags (ram_tags r)) (registry_len (ram_tags r))).
    { conjs; [done| |apply created_refl|done|done|lia]. exists name. split; [by left|by right]. }
    destruct (create_flight _ _ _ Hf name g0 E Hname Hg0) as (Hf1 & Hnext & Hdisk & Hfresh); [lia|].
    cbv iota. do 2 wpq_step. cbv zeta in *.
    eapply wpq_mono; [apply IH; [done|done|rewrite Hnext; lia]| |].
    + intros out v' r' eff' _ (-> & Hc & Hcas & Hall & Hf' & Hn'). rewrite Hnext in Hn'.
      split_and!; try done; [|intros n|lia].
      * eapply created_cons; [|exact Hc]. right. split_and!; done.
      * cbn [fmap list_fmap fst]. intros [->|Hin]%elem_of_cons; [|by apply Hall].
        eapply created_keeps; [done|]. rewrite Hdisk. by rewrite decide_True.
    + intros e v' r' eff' _ (He & (n & Hin & Href) & Hc & Hcas & Hf' & Hn'). rewrite Hnext in Hn'.
      conjs; [done|exists n; split; [by right|done]| |done|done|lia].
      eapply created_cons; [|exact Hc]. right. split_and!; done.
Qed.



(** Every operation of the queue: what it answers and leaves, when it is
    refused, and the invariant in every case. *)
Lemma wpq_apply op v r eff :
  fits 64 now_ms -> Flight v r eff -> op_ready op ->
  next_id (ram_tags r) + creations op <= U32_MAX ->
  wpq (queue_apply cfg now_ms op) (op_post v r op) (op_fail v r op) v r eff.
Proof.
  intros Hnow Hf Hr Hb. pose proof (flying_ready Hnow) as Hready.
  assert (ready cfg now_ms v r) as Hrd by (eapply Hready; by split).
  destruct op as [items|p mode|keys|keys ttl|op|key suffix|key ttl guard|names|name|name g0| |];
    cbn [op_ready creations] in Hr, Hb.
  - by apply wpq_set.
  - destruct Hr as (Hk & rec0 & Hok).
    apply (wpq_key _ _ _ Hf (apply_conditional_set cfg now_ms p mode) (ps_key p)
      (spec_conditional cfg now_ms (ram_epoch r) (cas_token cfg r) p rec0 mode (seen now_ms v r (ps_key p))));
      try done.
    + apply apply_conditional_set_ok; [done|done|]. by eapply Flight_separates.
    + intros a v' r' Ha. by exists rec0.
    + intros e. unfold spec_conditional. destruct mode, (seen _ _ _ _); try done;
        repeat case_match; try done; by intros [= <-].
    + intros e He. split; [by exists rec0|done].
  - apply (wpq_keys Hnow _ _ _ Hf (apply_delete cfg now_ms) (fun k => k)
      (fun k v r => spec_delete (seen now_ms v r k))); try done.
    intros k v1 r1 Hk Hr1 Hs. split; [done|]. by apply apply_delete_ok.
  - destruct Hr as [Hk Httl].
    apply (wpq_keys Hnow _ _ _ Hf (fun key => apply_touch cfg now_ms key ttl) (fun k => k)
      (fun k v r => spec_touch now_ms (cas_token cfg r) ttl (seen now_ms v r k))); try done.
    intros k v1 r1 Hx Hr1 Hs. split; [unfold spec_touch; by case_match|]. by apply apply_touch_ok.
  - destruct Hr as [Hk Httl]. cbn [queue_apply].
    replace (OwnedArithmetic_borrow op) with op by (by destruct op).
    apply (wpq_key _ _ _ Hf (apply_arithmetic cfg now_ms op) (ar_key op)
      (spec_arithmetic cfg now_ms (ram_epoch r) (cas_token cfg r) op (seen now_ms v r (ar_key op)))); try done.
    { apply apply_arithmetic_ok; [done|done|]. by eapply Flight_separates. }
    intros e. unfold spec_arithmetic.
    destruct (evaluate op _) as [[| |]|e1|]; cbn; try done; [case_match; [by intros [= <-]|done]|by intros [= <-]].
  - apply (wpq_key _ _ _ Hf (apply_append cfg now_ms key suffix) key
      (spec_append cfg (ram_epoch r) (cas_token cfg r) suffix (seen now_ms v r key))); try done.
    { apply apply_append_ok; [done|]. by eapply Flight_separates. }
    intros e. unfold spec_append. case_match; [by intros [= <-]|done].
  - destruct Hr as [Hk Httl].
    apply (wpq_key _ _ _ Hf (apply_expire cfg now_ms key ttl guard) key
      (spec_expire now_ms (cas_token cfg r) ttl guard (seen now_ms v r key))); try done.
    { apply apply_expire_ok; [done|done|]. by eapply Flight_separates. }
    all: intros e; unfold spec_expire; by repeat case_match.
  - eapply wpq_mono; [by apply wpq_create_tags| |].
    + intros out v' r' eff' _ (-> & Hc & Hcas & Hall & Hf' & Hn). by conjs.
    + intros e v' r' eff' _ (He & Hn0 & Hc & Hcas & Hf' & Hn). by conjs.
  - by apply wpq_delete_by_tag.
  - by apply wpq_merge_tag.
  - by apply wpq_flush.
  - cbn [queue_apply]. wpq_step. split_and!; try done. cbn. lia.
Qed.

(** C3 The queue: every operation a caller can submit, applied to a shard in
    flight, either answers with exactly what its abstract specification says and
    leaves the contents it says, or is refused, exactly as the abstract cache
    refuses it, for a reason that leaves the transaction usable and the contents
    untouched (but for the names a [CreateTags] had already created); in both cases the effects pushed so far
    are those whose publication makes memory agree with the contents.  Otherwise
    the engine failed, and the transaction is doomed. *)
Theorem queue_apply_refines op v r eff :
  fits 64 now_ms -> Flight v r eff -> op_ready op ->
  next_id (ram_tags r) + creations op <= U32_MAX ->
  wpq (queue_apply cfg now_ms op) (op_post v r op) (op_fail v r op) v r eff.
Proof. apply wpq_apply. Qed.

End Steps.
