(* ===== verification/Writer.v ===== *)
(** [vash-store/src/writer.rs]: the shard's single writer thread: group commit,
    maintenance inside the batch's transaction, capacity pressure, and recovery
    from a full map.

    A turn of the loop is a function: from the committed environment, the
    engine's RAM and the jobs the channel held, to the environment, the RAM and
    what each caller was told, in order.  What forms a batch (the channel, the
    linger) is the caller's choice of that list; metrics, logging and timing
    are left out. *)

From S2P Require Import Prelude Bytes Core Record Clock Arith Command Backend.
From S2P Require Import IndexKeys Tags Engine Apply TagOps Maint Queue.
From Stdlib Require Import Floats.SpecFloat.

Record EvictionConfig := mkEviction { ev_soft : f64; ev_hard : f64; ev_critical : f64; ev_batch : Z }.

Record WriteConfig := mkWriteConfig { sweep_batch : Z; reclaim_batch : Z; eviction : EvictionConfig }.

(** What [Backend::info] reports and the watermarks use. *)
Record EnvInfo := mkEnvInfo { map_size : Z; page_size : Z }.

(** [u64 as f64], [/] and [>=]. *)
Definition f64_ge (x y : f64) : bool := SFleb y x.

(** The [Display] text [thiserror] generates, which the errors fanned out to a
    whole batch carry. *)
Class ErrorText := { error_text : StoreError -> String.string }.

(** What the writer thread does that somebody can see, in order. *)
Inductive Event : Type :=
| Ev_Reply (job : nat) (outcome : Result StoreError WriteOutcome)
| Ev_Sync.

Record Turn (T : Type) := mkTurn {
  tn_env : T;
  tn_ram : Ram;
  tn_events : list Event;
  tn_pending : bool;
  tn_result : Result StoreError unit
}.

Arguments mkTurn {T} tn_env tn_ram tn_events tn_pending tn_result.
Arguments tn_env {T} t.
Arguments tn_ram {T} t.
Arguments tn_events {T} t.
Arguments tn_pending {T} t.
Arguments tn_result {T} t.

Definition replies (outcomes : list (Result StoreError WriteOutcome)) : list Event :=
  imap Ev_Reply outcomes.

(** [match engine.op(..) { Ok(x) => Some(x), Err(e) => { warn!(..); None } }] *)
Definition attempt {T A} (m : StoreM T A) : StoreM T (option A) :=
  fun s => match m s with
           | (s', Ok a) => (s', Ok (Some a))
           | (s', Err _) => (s', Ok None)
           | (s', Panic why) => (s', Panic why)
           end.

Section Writer.
Context {T : Type} {BT : Backend T} {HS : Hash} {FT : FloatText} {ET : ErrorText}.
Variable cfg : Config.
Variable wcfg : WriteConfig.
Variable info : EnvInfo.
Variable now_ms : Z.

(** ** Pressure *)

Definition utilisation_in : StoreM T f64 :=
  pages ← used_pages;
  mret (f64_div (f64_of_int (pages * page_size info)) (f64_of_int (map_size info))).

Definition pressure_level (utilisation : f64) : Pressure :=
  let limits := eviction wcfg in
  if f64_ge utilisation (ev_critical limits) then Pressure_Critical
  else if f64_ge utilisation (ev_hard limits) then Pressure_Hard
  else if f64_ge utilisation (ev_soft limits) then Pressure_Soft
  else Pressure_Normal.

Definition apply_pressure : StoreM T Z :=
  utilisation ← utilisation_in;
  let level := pressure_level utilisation in
  r ← get_ram;
  _ ← set_ram (set_pressure r level);
  if Pressure_to_u8 level <? Pressure_to_u8 Pressure_Hard then mret 0
  else
    stats ← evict cfg now_ms (ev_batch (eviction wcfg));
    mret (sw_reclaimed stats).

(** ** One batch, one transaction *)

(** The jobs in order, until one poisons the transaction; its error is the
    result then. *)
Fixpoint apply_jobs (batch : list WriteOp) (s : St T * list PostCommit)
    : (St T * list PostCommit) * Result StoreError (list (Result StoreError WriteOutcome)) :=
  match batch with
  | [] => (s, Ok [])
  | op :: batch' =>
      let '(s', outcome) := queue_apply cfg now_ms op s in
      match outcome with
      | Panic why => (s', Panic why)
      | Err e =>
          if poisons_transaction e then (s', Err (clone_shallow e))
          else
            let '(s'', rest) := apply_jobs batch' s' in
            (s'', (fun outcomes => Err e :: outcomes) <$> rest)
      | Ok out =>
          let '(s'', rest) := apply_jobs batch' s' in
          (s'', (fun outcomes => Ok out :: outcomes) <$> rest)
      end
  end.

Definition maintenance_pass : StoreM T (option SweepStats * option ReclaimStats * Z) :=
  sweep_stats ← attempt (sweep cfg now_ms (sweep_batch wcfg));
  reclaim_stats ← attempt (reclaim_step cfg now_ms (reclaim_batch wcfg));
  evicted ← attempt apply_pressure;
  mret (sweep_stats, mjoin reclaim_stats, default 0 evicted).

(** Every job told the same. *)
Definition refuse_all (batch : list WriteOp) (e : StoreError) : list Event :=
  replies ((fun _ => Err e) <$> batch).

Definition needs_sync (batch : list WriteOp) : bool :=
  existsb (fun op => match op with Op_Sync => true | _ => false end) batch.

(** Whether the loop stays hot after a committed pass. *)
Definition still_pending (reclaim_stats : option ReclaimStats) (evicted : Z) : bool :=
  match reclaim_stats with Some stats => negb (rs_completed stats) | None => false end
  || (0 <? evicted).

Definition commit_batch (env : T) (r : Ram) (batch : list WriteOp) (maintenance pending : bool) : Turn T :=
  match txn_begin env with
  | Panic why => mkTurn env r [] pending (Panic why)
  | Err e => mkTurn env r (refuse_all batch (SE_Corrupt (error_text e))) pending (Err e)
  | Ok txn =>
      let '((s, effects), applied) := apply_jobs batch (mkSt txn r, []) in
      match applied with
      | Panic why => mkTurn env (st_ram s) [] pending (Panic why)
      | Err e => mkTurn env (st_ram s) (refuse_all batch (clone_shallow e)) pending (Err e)
      | Ok outcomes =>
          let '(s, maintained) :=
            if maintenance then maintenance_pass s else (s, Ok (None, None, 0)) in
          match maintained with
          | Panic why => mkTurn env (st_ram s) [] pending (Panic why)
          | Err e => mkTurn env (st_ram s) [] pending (Err e)
          | Ok (_, reclaim_stats, evicted) =>
              match txn_commit (st_txn s) with
              | Ok env' =>
                  mkTurn env' (publish (st_ram s) effects)
                    (replies outcomes ++ (if needs_sync batch then [Ev_Sync] else []))
                    (still_pending reclaim_stats evicted) (Ok ())
              | Err e =>
                  mkTurn env (st_ram s)
                    (refuse_all batch (match e with
                                       | SE_CapacityFull => SE_CapacityFull
                                       | _ => SE_Corrupt (error_text e)
                                       end))
                    pending (Err e)
              | Panic why => mkTurn env (st_ram s) [] pending (Panic why)
              end
          end
      end
  end.

(** ** Recovery from a full map *)

Definition unwrap_reclaimed (m : StoreM T SweepStats) : StoreM T Z :=
  stats ← attempt m;
  mret (match stats with Some s => sw_reclaimed s | None => 0 end).

(** The budgets in turn, until one pass commits. *)
Fixpoint free_space_loop (budgets : list Z) (env : T) (r : Ram) : T * Ram * Result StoreError Z :=
  match budgets with
  | [] => (env, r, Err SE_CapacityFull)
  | budget :: budgets' =>
      let budget := Z.max budget 1 in
      match txn_begin env with
      | Err e => (env, r, Err e)
      | Panic why => (env, r, Panic why)
      | Ok txn =>
          let '(s, freed) :=
            (swept ← unwrap_reclaimed (sweep cfg now_ms budget);
             evicted ← unwrap_reclaimed (evict cfg now_ms budget);
             mret (swept + evicted)) (mkSt txn r) in
          match freed with
          | Panic why => (env, st_ram s, Panic why)
          | Err e => (env, st_ram s, Err e)
          | Ok freed =>
              match txn_commit (st_txn s) with
              | Ok env' => (env', st_ram s, Ok freed)
              | Err _ => free_space_loop budgets' env (st_ram s)
              | Panic why => (env, st_ram s, Panic why)
              end
          end
      end
  end.

Definition free_space (env : T) (r : Ram) : T * Ram * Result StoreError Z :=
  let batch := ev_batch (eviction wcfg) in
  free_space_loop [batch; batch / 8; 8] env r.

(** ** One turn of the loop *)

Definition writer_turn (env : T) (r : Ram) (batch : list WriteOp) (due pending : bool) : Turn T :=
  let t := commit_batch env r batch due pending in
  match tn_result t with
  | Ok () | Panic _ => t
  | Err e =>
      if is_capacity e
      then
        let r := set_pressure (tn_ram t) Pressure_Critical in
        let '(env', r', freed) := free_space (tn_env t) r in
        match freed with
        | Panic why => mkTurn env' r' (tn_events t) false (Panic why)
        | _ => mkTurn env' r' (tn_events t)
                 (match freed with Ok freed => 0 <? freed | _ => false end) (Ok ())
        end
      else mkTurn (tn_env t) (tn_ram t) (tn_events t) false (Ok ())
  end.

End Writer.
