(* ===== verification/WriterSpec.v ===== *)
(** What group commit guarantees: a turn of the writer commits its whole batch
    or none of it, tells every caller the truth, and leaves memory agreeing
    with the committed contents in both cases, maintenance failures included. *)

From S2P Require Import Prelude Bytes Core Record Clock Arith Command Backend.
From S2P Require Import IndexKeys Tags Engine Apply Cache ApplySpec TagOps.
From S2P Require Import Maint MaintSpec ReclaimSpec Queue QueueSpec Writer.

Section Writer.
Context {T : Type} {BT : Backend T} {BL : BackendLaws T} {HS : Hash} {FT : FloatText} {ET : ErrorText}.
Variable cfg : Config.
Variable wcfg : WriteConfig.
Variable info : EnvInfo.
Variable now_ms : Z.
Variable D : bytes -> Prop.
Hypothesis D_separates : forall k k', D k -> D k' -> xxh3_64 k' = xxh3_64 k -> k' = k.
Hypothesis now_sane : 0 <= now_ms < U64_MAX.

Abbreviation g := (bucket_granularity_ms cfg).
Abbreviation Flight := (Flight g D).
Abbreviation Agrees := (Agrees g D).

Lemma now_fits : fits 64 now_ms.
Proof. width. Qed.

(** ** The batch *)

(** The jobs of a batch, run in order to the end: each answered as specified,
    or refused leaving nothing behind. *)
Inductive ran : list WriteOp -> list (Result StoreError WriteOutcome) ->
    Views -> Ram -> Views -> Ram -> Prop :=
| ran_nil v r : ran [] [] v r v r
| ran_ok op out batch outs v r v1 r1 v2 r2 :
    op_spec cfg now_ms op out v r v1 r1 -> ran batch outs v1 r1 v2 r2 ->
    ran (op :: batch) (Ok out :: outs) v r v2 r2
| ran_refused op e batch outs v r v1 r1 v2 r2 :
    poisons_transaction e = false -> op_refused cfg now_ms op e v r v1 r1 -> ran batch outs v1 r1 v2 r2 ->
    ran (op :: batch) (Err e :: outs) v r v2 r2.

Definition batch_creations (batch : list WriteOp) : Z :=
  foldr (fun op n => creations op + n) 0 batch.

Lemma clone_poisons e : poisons_transaction e = true -> clone_shallow e = e.
Proof. by destruct e. Qed.

Lemma creations_nonneg op : 0 <= creations op.
Proof. destruct op; cbn; try lia. apply len_nonneg. Qed.

Lemma batch_creations_nonneg batch : 0 <= batch_creations batch.
Proof.
  induction batch as [|op batch IH]; [done|]. cbn. change (foldr _ 0 batch) with (batch_creations batch).
  pose proof (creations_nonneg op). lia.
Qed.

Lemma apply_jobs_spec batch s eff :
  Forall (op_ready D) batch -> Flight (view (st_txn s)) (st_ram s) eff ->
  next_id (ram_tags (st_ram s)) + batch_creations batch <= U32_MAX ->
  let '((s', eff'), res) := apply_jobs cfg now_ms batch (s, eff) in
  ram_frame (st_ram s) (st_ram s')
  /\ match res with
     | Ok outs =>
         ran batch outs (view (st_txn s)) (st_ram s) (view (st_txn s')) (st_ram s')
         /\ Flight (view (st_txn s')) (st_ram s') eff'
         /\ next_id (ram_tags (st_ram s')) <= next_id (ram_tags (st_ram s)) + batch_creations batch
     | Err e => may_fail /\ poisons_transaction e = true
     | Panic _ => False
     end.
Proof.
  revert s eff. induction batch as [|op batch IH]; intros s eff Hops Hf Hb; cbn [apply_jobs].
  { split; [done|]. split; [constructor|]. split; [done|]. cbn. lia. }
  apply Forall_cons in Hops as [Hop Hops]. cbn [batch_creations foldr] in Hb.
  change (foldr _ 0 batch) with (batch_creations batch) in Hb.
  pose proof (batch_creations_nonneg batch) as Hpos.
  destruct (wpq_apply cfg now_ms D D_separates op _ _ eff now_fits Hf Hop) with (s := s)
    as [Hfr Hres]; [lia|done|done|].
  destruct (queue_apply cfg now_ms op (s, eff)) as [[s1 eff1] [out|e|why]]; cbn [fst snd] in *; [| |done].
  - destruct Hres as (Hs & Hf1 & Hn1). specialize (IH s1 eff1 Hops Hf1).
    destruct (apply_jobs cfg now_ms batch (s1, eff1)) as [[s2 eff2] rest].
    destruct IH as [Hfr2 IH]; [lia|]. split; [by etrans|].
    destruct rest as [outs|e|why]; cbn; [|done|done]. destruct IH as (Hran & Hf2 & Hn2).
    split; [by econstructor|]. split; [done|].
    cbn [batch_creations foldr]. change (foldr _ 0 batch) with (batch_creations batch). lia.
  - destruct (poisons_transaction e) eqn:Hp.
    { split; [done|]. rewrite clone_poisons by done.
      destruct Hres as [(? & _ & _)|(Hno & _)]; [done|congruence]. }
    destruct Hres as [(_ & Hp' & _)|(_ & Hs & Hf1 & Hn1)]; [congruence|].
    specialize (IH s1 eff1 Hops Hf1).
    destruct (apply_jobs cfg now_ms batch (s1, eff1)) as [[s2 eff2] rest].
    destruct IH as [Hfr2 IH]; [lia|]. split; [by etrans|].
    destruct rest as [outs|e'|why]; cbn; [|done|done]. destruct IH as (Hran & Hf2 & Hn2).
    split; [by econstructor|]. split; [done|].
    cbn [batch_creations foldr]. change (foldr _ 0 batch) with (batch_creations batch). lia.
Qed.

(** ** Maintenance

    After a failed pass the transaction is doomed and says nothing any more;
    otherwise the invariant holds and records were only removed. *)

Definition maintained (v v' : Views) : Prop :=
  (forall k, recs v' !! k = recs v !! k \/ recs v' !! k = None)
  /\ v_tag_meta v' = v_tag_meta v /\ v_meta v' = v_meta v.

Lemma maintained_trans v1 v2 v3 : maintained v1 v2 -> maintained v2 v3 -> maintained v1 v3.
Proof.
  intros (H1 & H2 & H3) (K1 & K2 & K3). split_and!; [|congruence..].
  intros k. destruct (K1 k) as [->|]; [apply H1|by right].
Qed.

Lemma maintained_flight v v' r eff :
  Flight v r eff -> maintained v v' -> Inv g v' -> Jobs_ok v' -> Flight v' r eff.
Proof.
  intros [Hinv Hkeys Htab Hnamed Hids Hjobs Hreg Hnames Hep Hfit] (Hr & Ht & Hm) Hi Hj.
  assert (forall n, disk_tag v' n = disk_tag v n) as Hd by (intros; by apply disk_tag_other).
  constructor; try done.
  - intros k [x Hx]. apply Hkeys. apply dec_stable. intros Hno.
    assert (v_main v !! k = None) as Hnone.
    { destruct (v_main v !! k) eqn:E; [|done]. exfalso. apply Hno. by eexists. }
    apply (inv_recs_None g v k Hinv) in Hnone.
    assert (recs v' !! k = None) as Hn by (destruct (Hr k); congruence).
    apply (inv_recs_None g v' k Hi) in Hn. congruence.
  - constructor; [rewrite Ht; apply Htab|]. intros n n' id g1 g2. rewrite !Hd. apply Htab.
  - intros n e. rewrite Hd. apply Hnamed.
  - destruct Hids as [H0 H1]. split; [done|]. intros n id g1. rewrite Hd. apply H1.
  - intros n. by rewrite Hd.
  - by rewrite (disk_epoch_meta _ _ Hm).
Qed.

(** The token counters and the id counter stand still. *)
Definition quiet (r r' : Ram) : Prop :=
  same_cas r r' /\ next_id (ram_tags r') = next_id (ram_tags r).

Lemma quiet_refl r : quiet r r.
Proof. by split. Qed.

Lemma quiet_trans r1 r2 r3 : quiet r1 r2 -> quiet r2 r3 -> quiet r1 r3.
Proof. intros [[] ?] [[] ?]. split; [split|]; congruence. Qed.

Lemma publish_quiet r eff : quiet r (publish r eff).
Proof. rewrite publish_split. split; [done|apply pub_tags_next]. Qed.

Definition going (eff : list PostCommit) (v0 : Views) (r0 : Ram) (s : St T) : Prop :=
  doomed (st_txn s)
  \/ (Flight (view (st_txn s)) (st_ram s) eff /\ maintained v0 (view (st_txn s))
      /\ quiet r0 (st_ram s)).

(** A pass whose failure is logged and forgotten. *)
Lemma attempt_going {A} (m : StoreM T A) eff v0 r0 s :
  (forall v r, Flight v r eff ->
     wp m (fun _ v' r' => ram_frame r r' /\ Flight v' r' eff /\ maintained v v' /\ quiet r r')
       (fun _ _ _ => False) v r) ->
  (forall s, doomed (st_txn s) -> exists e, m s = (s, Err e)) ->
  going eff v0 r0 s ->
  exists s' a, attempt m s = (s', Ok a) /\ ram_frame (st_ram s) (st_ram s') /\ going eff v0 r0 s'.
Proof.
  intros Hm Hd Hg. unfold attempt. destruct Hg as [Hdoom|(Hf & Hmt & Hc)].
  - destruct (Hd s Hdoom) as [e ->]. exists s, None. split_and!; try done. by left.
  - destruct (Hm _ _ Hf s eq_refl eq_refl) as [Hfr Hres].
    destruct (m s) as [s' [a|e|why]]; cbn [fst snd] in *; [| |done].
    + exists s', (Some a). split_and!; try done. destruct Hres as (_ & Hf' & Hmt' & Hc').
      right. split; [done|]. split; [by eapply maintained_trans|].
      by eapply quiet_trans.
    + exists s', None. split_and!; try done. left. by destruct Hres as [(_ & _ & ?)|[]].
Qed.

Lemma doomed_range db rg s : doomed (st_txn s) -> exists e, db_range (T:=T) db rg s = (s, Err e).
Proof.
  intros Hd. pose proof (law_doomed_range (st_txn s) db rg Hd) as He. unfold db_range.
  destruct (txn_range _ _ _) as [|e|]; [done|by exists e|done].
Qed.

Lemma doomed_stat db s : doomed (st_txn s) -> exists e, db_stat (T:=T) db s = (s, Err e).
Proof.
  intros Hd. pose proof (law_doomed_stat (st_txn s) db Hd) as He. unfold db_stat.
  destruct (txn_stat _ _) as [|e|]; [done|by exists e|done].
Qed.

Lemma bind_err_at {A B} (m : StoreM T A) (f : A -> StoreM T B) s e :
  m s = (s, Err e) -> (m ≫= f) s = (s, Err e).
Proof. unfold mbind, StoreM_bind. by intros ->. Qed.

Lemma sweep_going eff v0 r0 budget s :
  going eff v0 r0 s ->
  exists s' a, attempt (sweep cfg now_ms budget) s = (s', Ok a)
    /\ ram_frame (st_ram s) (st_ram s') /\ going eff v0 r0 s'.
Proof.
  apply attempt_going.
  - intros v r Hf. eapply wp_mono; [apply sweep_invisible_complete_ok; [done|by destruct Hf]| |done].
    intros st v' r' Hfr (-> & Hi & _ & (Ht & Hj & Hm) & Hr & _). split; [done|].
    assert (maintained v v') as Hmt.
    { split_and!; try done. intros k. destruct (Hr k) as [?|[? _]]; [by left|by right]. }
    split; [|by split]. eapply maintained_flight; try done. intros jk raw. rewrite Hj. by apply Hf.
  - intros s' Hd. destruct (doomed_range Exp FULL s' Hd) as [e He]. exists e. by apply bind_err_at.
Qed.

Lemma reclaim_going eff v0 r0 budget s :
  going eff v0 r0 s ->
  exists s' a, attempt (reclaim_step cfg now_ms budget) s = (s', Ok a)
    /\ ram_frame (st_ram s) (st_ram s') /\ going eff v0 r0 s'.
Proof.
  apply attempt_going.
  - intros v r Hf. eapply wp_mono; [apply reclaim_step_ok; by destruct Hf| |done].
    intros st v' r' Hfr (-> & Hi & Hj & Ht & Hm & Hr). split; [done|].
    assert (maintained v v') as Hmt; [|by split; [eapply maintained_flight|split]].
    split_and!; try done. intros k.
    destruct (first_job v) as [[tag job]|], st as [st|]; try done.
    + destruct Hr as [Hr _]. destruct (Hr k) as [?|[? _]]; [by left|by right].
    + destruct Hr as [_ ->]. by left.
  - intros s' Hd. destruct (doomed_range Jobs FULL s' Hd) as [e He]. exists e.
    by apply bind_err_at, bind_err_at.
Qed.

Lemma evict_keeps eff v r budget :
  Flight v r eff ->
  wp (evict (T:=T) cfg now_ms budget)
    (fun _ v' r' => r' = r /\ Flight v' r' eff /\ maintained v v') (fun _ _ _ => False) v r.
Proof.
  intros Hf. eapply wp_mono; [apply evict_policy_ok; [done|by destruct Hf]| |done].
  intros st v' r' Hfr (-> & Hi & _ & (Ht & Hj & Hm) & Hr & _). split; [done|].
  assert (maintained v v') as Hmt by by split_and!.
  split; [|done]. eapply maintained_flight; try done. intros jk raw. rewrite Hj. by apply Hf.
Qed.

Lemma wp_used_pages (Q : Z -> Views -> Ram -> Prop) Qe v r :
  (forall n, 0 <= n -> Q n v r) -> wp (T:=T) used_pages Q Qe v r.
Proof.
  intros H. unfold used_pages.
  assert (forall dbs (Q : Z -> Views -> Ram -> Prop), (forall n, 0 <= n -> Q n v r) ->
    wp (T:=T) (foldr (fun db rest => s ← db_stat db; n ← rest; mret (st_pages s + n)) (mret 0) dbs)
      Q Qe v r) as Hall; [|by apply Hall].
  clear. induction dbs as [|db dbs IH]; intros Q H; cbn [foldr]; [by wp_step; apply H|].
  wp_step. apply wp_stat. intros n Hn. wp_step. apply IH. intros m Hm. wp_step. apply H. cbn. lia.
Qed.

Lemma wp_apply_pressure eff v r :
  Flight v r eff ->
  wp (T:=T) (apply_pressure cfg wcfg info now_ms)
    (fun _ v' r' => ram_frame r r' /\ Flight v' r' eff /\ maintained v v' /\ quiet r r')
    (fun _ _ _ => False) v r.
Proof.
  intros Hf. unfold apply_pressure, utilisation_in. do 2 wp_step. apply wp_used_pages. intros n _.
  do 5 wp_step; [frame|].
  assert (ram_frame r (set_pressure r (pressure_level wcfg (f64_div (f64_of_int (n * page_size info))
    (f64_of_int (map_size info)))))) as Hfr by frame.
  pose proof (Flight_ram _ _ _ _ _ _ Hf Hfr) as Hf'.
  destruct (_ <? _).
  - wp_step. split; [done|]. split; [done|]. split; [|done]. split_and!; try done. intros k. by left.
  - wp_step. eapply wp_mono; [by apply evict_keeps| |done].
    intros st v' r' _ (-> & Hf2 & Hmt). by wp_step.
Qed.

Lemma pressure_going eff v0 r0 s :
  going eff v0 r0 s ->
  exists s' a, attempt (apply_pressure cfg wcfg info now_ms) s = (s', Ok a)
    /\ ram_frame (st_ram s) (st_ram s') /\ going eff v0 r0 s'.
Proof.
  apply attempt_going; [intros; by apply wp_apply_pressure|].
  intros s' Hd. destruct (doomed_stat Main s' Hd) as [e He]. exists e.
  unfold apply_pressure, utilisation_in. do 2 apply bind_err_at. by apply bind_err_at.
Qed.

Lemma maintenance_going eff v0 r0 s :
  going eff v0 r0 s ->
  exists s' a, maintenance_pass cfg wcfg info now_ms s = (s', Ok a)
    /\ ram_frame (st_ram s) (st_ram s') /\ going eff v0 r0 s'.
Proof.
  intros Hg. unfold maintenance_pass.
  destruct (sweep_going _ _ _ (sweep_batch wcfg) _ Hg) as (s1 & a1 & E1 & F1 & G1).
  destruct (reclaim_going _ _ _ (reclaim_batch wcfg) _ G1) as (s2 & a2 & E2 & F2 & G2).
  destruct (pressure_going _ _ _ _ G2) as (s3 & a3 & E3 & F3 & G3).
  unfold mbind, StoreM_bind. rewrite E1, E2, E3. eexists _, _. split; [done|].
  split; [by etrans; [|etrans]|done].
Qed.

(** ** The commit *)

(** What a batch may end in. *)
Definition batch_ends (env : T) (r : Ram) (batch : list WriteOp) (maintenance : bool) (t : Turn T) : Prop :=
  match tn_result t with
  | Ok _ =>
      exists outs v1 r1, ran batch outs (view env) r v1 r1
        /\ maintained v1 (view (tn_env t)) /\ (maintenance = false -> view (tn_env t) = v1)
        /\ quiet r1 (tn_ram t)
        /\ next_id (ram_tags r1) <= next_id (ram_tags r) + batch_creations batch
        /\ tn_events t = replies outs ++ (if needs_sync batch then [Ev_Sync] else [])
  | Err e =>
      may_fail /\ tn_env t = env /\ ram_frame r (tn_ram t)
      /\ exists e', tn_events t = refuse_all batch e'
  | Panic _ => False
  end.

Lemma commit_batch_ok env r batch maintenance pending :
  Agrees (view env) r -> Forall (op_ready D) batch ->
  next_id (ram_tags r) + batch_creations batch <= U32_MAX ->
  let t := commit_batch cfg wcfg info now_ms env r batch maintenance pending in
  Agrees (view (tn_env t)) (tn_ram t) /\ batch_ends env r batch maintenance t.
Proof.
  intros Ha Hops Hb t. subst t. unfold commit_batch, batch_ends.
  pose proof (begin_view env) as Hbegin. destruct (txn_begin env) as [txn|e|why]; [| |done].
  2:{ split; [done|]. cbn. destruct Hbegin. split_and!; try done. by eexists. }
  pose proof (apply_jobs_spec batch (mkSt txn r) [] Hops) as Hjobs. cbn [st_txn st_ram] in Hjobs.
  rewrite Hbegin in Hjobs. specialize (Hjobs Ha Hb).
  destruct (apply_jobs cfg now_ms batch (mkSt txn r, [])) as [[s eff] [outs|e|why]];
    destruct Hjobs as [Hfr Hjobs]; [| |done].
  2:{ cbn. split; [by eapply Flight_ram|]. destruct Hjobs. split_and!; try done. by eexists. }
  destruct Hjobs as (Hran & Hf & Hnext).
  assert (exists s' rs ev, (if maintenance then maintenance_pass cfg wcfg info now_ms s else (s, Ok (None, None, 0)))
      = (s', Ok rs) /\ ram_frame (st_ram s) (st_ram s') /\ going eff (view (st_txn s)) (st_ram s) s'
      /\ (maintenance = false -> s' = s) /\ ev = rs) as (s' & [[sw rs] ev] & ? & Em & Hfr' & Hgo & Hsame & _).
  { assert (maintained (view (st_txn s)) (view (st_txn s))) as Hm.
    { split_and!; try done. intros k. by left. }
    destruct maintenance.
    - destruct (maintenance_going eff (view (st_txn s)) (st_ram s) s) as (s' & a & E & F & G); [by right|].
      exists s', a, a. by rewrite E.
    - exists s, (None, None, 0), (None, None, 0). split_and!; try done. by right. }
  rewrite Em. pose proof (commit_view (st_txn s')) as Hc.
  destruct (txn_commit (st_txn s')) as [env'|e|why]; cbn [tn_result tn_env tn_ram tn_events]; [| |done].
  - destruct Hc as [Hv Hnd]. destruct Hgo as [?|(Hf' & Hmt & Hcas)]; [done|]. rewrite Hv.
    split; [apply Flight_publish; [done|]|].
    { eapply disk_epoch_fits. by eapply fl_epoch. }
    exists outs, (view (st_txn s)), (st_ram s). split_and!; try done.
    + intros Hm. by rewrite (Hsame Hm).
    + eapply quiet_trans; [exact Hcas|apply publish_quiet].
  - split; [eapply Flight_ram; [done|by etrans]|]. destruct Hc.
    split_and!; try done; [by etrans|by eexists].
Qed.

(** ** A full map *)

(** The budgets of the recovery passes, in the order they are tried. *)
Definition recovery_budgets : list Z :=
  (fun budget => Z.max budget 1) <$> [ev_batch (eviction wcfg); ev_batch (eviction wcfg) / 8; 8].

(** The transaction that sweeps and then evicts on [budget] is one the engine
    does not commit. *)
Definition pass_refused (env : T) (r : Ram) (budget : Z) : Prop :=
  exists txn s a s' a' e,
    txn_begin env = Ok txn
    /\ attempt (sweep cfg now_ms budget) (mkSt txn r) = (s, a)
    /\ attempt (evict cfg now_ms budget) s = (s', a')
    /\ txn_commit (st_txn s') = Err e.

(** What recovery with [budgets] makes of [env]: the first budget whose
    transaction the engine commits frees records, and the writer stays hot when
    it freed any; or the engine committed none of them, and nothing changed. *)
Definition recovers (budgets : list Z) (env : T) (r : Ram) (env' : T) (hot : bool) : Prop :=
  (exists tried budget rest n,
     budgets = tried ++ budget :: rest /\ Forall (pass_refused env r) tried
     /\ drained cfg budget n (view env) (view env') /\ hot = (0 <? n))
  \/ (env' = env /\ hot = false
      /\ ((exists e, txn_begin env = Err e) \/ Forall (pass_refused env r) budgets)).

Lemma drained_maintained rows n v v' : drained cfg rows n v v' -> maintained v v'.
Proof. intros [_ _ (? & _ & ?) Hr _ _ _ _]. by split_and!. Qed.

Lemma drained_flight rows n v v' r eff : Flight v r eff -> drained cfg rows n v v' -> Flight v' r eff.
Proof.
  intros Hf Hd. eapply maintained_flight; [done|by eapply drained_maintained|by destruct Hd|].
  destruct Hd as [_ _ (_ & Hj & _) _ _ _ _ _]. intros jk raw. rewrite Hj. by apply Hf.
Qed.

Lemma drained_nonneg rows n v v' : drained cfg rows n v v' -> 0 <= n.
Proof.
  intros [_ _ _ Hr _ Hc _ _].
  assert (size (recs v') <= size (recs v))%nat; [|lia]. apply map_subseteq_size, map_subseteq_spec.
  intros k x Hx. destruct (Hr k) as [<-|?]; congruence.
Qed.

(** One drain of a recovery transaction, its failure logged and forgotten. *)
Lemma attempt_drain budget accept eff s :
  Flight (view (st_txn s)) (st_ram s) eff ->
  exists s' a, attempt (drain_expiry_index cfg now_ms budget accept) s = (s', Ok a)
    /\ st_ram s' = st_ram s
    /\ (doomed (st_txn s')
        \/ drained cfg (match accept with Anything => budget | ExpiredOnly => 0 end)
             (match a with Some stats => sw_reclaimed stats | None => 0 end)
             (view (st_txn s)) (view (st_txn s'))).
Proof.
  intros Hf. unfold attempt.
  pose proof (drain_leaves_ram cfg now_ms budget accept s) as Hram.
  destruct (drain_frees cfg now_ms now_sane budget accept _ (st_ram s)
    (fl_inv _ _ _ _ _ Hf) s eq_refl eq_refl) as [_ Hres].
  destruct (drain_expiry_index cfg now_ms budget accept s) as [s' [stats|e|why]]; cbn [fst snd] in *; [| |done].
  - exists s', (Some stats). split; [done|]. split; [done|]. right. by destruct Hres.
  - exists s', None. split; [done|]. split; [done|]. left. by destruct Hres as [(_ & _ & ?)|[]].
Qed.

Lemma doomed_attempt budget accept s :
  doomed (st_txn s) -> attempt (drain_expiry_index (T:=T) cfg now_ms budget accept) s = (s, Ok None).
Proof.
  intros Hd. destruct (doomed_range Exp FULL s Hd) as [e He]. unfold attempt, drain_expiry_index.
  by rewrite (bind_err_at _ _ _ _ He).
Qed.

Lemma recovery_pass budget env r txn :
  Agrees (view env) r -> txn_begin env = Ok txn ->
  exists s1 a1 s2 a2,
    attempt (sweep cfg now_ms budget) (mkSt txn r) = (s1, Ok a1)
    /\ attempt (evict cfg now_ms budget) s1 = (s2, Ok a2) /\ st_ram s2 = r
    /\ (doomed (st_txn s2)
        \/ drained cfg budget
             (match a1 with Some stats => sw_reclaimed stats | None => 0 end
              + match a2 with Some stats => sw_reclaimed stats | None => 0 end)
             (view env) (view (st_txn s2))).
Proof.
  intros Ha Hb. pose proof (begin_view env) as Hv. rewrite Hb in Hv.
  destruct (attempt_drain budget ExpiredOnly [] (mkSt txn r)) as (s1 & a1 & E1 & R1 & D1).
  { cbn. by rewrite Hv. }
  cbn [st_txn st_ram] in *. rewrite Hv in D1. exists s1, a1. destruct D1 as [D1|D1].
  { exists s1, None. split; [exact E1|]. split; [by apply doomed_attempt|]. split; [done|by left]. }
  destruct (attempt_drain budget Anything [] s1) as (s2 & a2 & E2 & R2 & D2).
  { rewrite R1. by eapply drained_flight. }
  exists s2, a2. split; [exact E1|]. split; [exact E2|]. split; [congruence|].
  destruct D2 as [D2|D2]; [by left|right].
  eapply drained_trans; [exact D1|exact D2|by eapply drained_nonneg].
Qed.

Lemma free_space_loop_ok budgets env r :
  Agrees (view env) r ->
  let '(env', r', res) := free_space_loop cfg now_ms budgets env r in
  r' = r /\ Agrees (view env') r
  /\ recovers ((fun budget => Z.max budget 1) <$> budgets) env r env'
       (match res with Ok freed => 0 <? freed | _ => false end)
  /\ match res with Panic _ => False | _ => True end.
Proof.
  intros Ha. induction budgets as [|budget budgets IH]; cbn [free_space_loop].
  { split_and!; try done. right. split_and!; try done. by right. }
  destruct (txn_begin env) as [txn|e|why] eqn:Hb.
  2:{ split_and!; try done. right. split_and!; try done. left. by eexists. }
  2:{ pose proof (begin_view env) as Hv. by rewrite Hb in Hv. }
  destruct (recovery_pass (Z.max budget 1) env r txn Ha Hb) as (s1 & a1 & s2 & a2 & E1 & E2 & Er & Hd).
  unfold unwrap_reclaimed. unfold mbind, StoreM_bind. rewrite E1. cbn [mret StoreM_ret]. rewrite E2.
  cbn [mret StoreM_ret]. rewrite Er. cbn [fmap list_fmap].
  pose proof (commit_view (st_txn s2)) as Hc.
  destruct (txn_commit (st_txn s2)) as [env'|e|why] eqn:Ec; [| |done].
  - destruct Hc as [Hv Hnd]. destruct Hd as [?|Hd]; [done|]. rewrite <- Hv in Hd.
    split_and!; [done|by eapply drained_flight| |done].
    left. by eexists [], (Z.max budget 1), _, _.
  - assert (pass_refused env r (Z.max budget 1)) as Hp by by exists txn, s1, (Ok a1), s2, (Ok a2), e.
    destruct (free_space_loop cfg now_ms budgets env r) as [[env' r'] res].
    destruct IH as (H1 & H2 & H3 & H4). split_and!; try done.
    destruct H3 as [(tried & b & rest & n & -> & Ht & Hn)|(He & Hh & Hno)]; [left|right].
    + exists (Z.max budget 1 :: tried), b, rest, n. split; [done|]. split; [by constructor|done].
    + split_and!; try done. destruct Hno as [Hno|Hno]; [by left|right; by constructor].
Qed.

(** ** The properties *)

(** C2 Group commit: a batch either commits, and then every job was applied in
    order, each answered by exactly what the abstract operations promise or
    refused with nothing left behind, maintenance only having removed records
    after them; or its transaction is dropped, the environment is the one the
    batch started from, and every caller is told the same failure.  In both
    cases, and whatever maintenance did or failed to do, memory agrees with the
    committed contents, and the writer does not panic. *)
Theorem commit_batch_atomic env r batch maintenance pending :
  Agrees (view env) r -> Forall (op_ready D) batch ->
  next_id (ram_tags r) + batch_creations batch <= U32_MAX ->
  let t := commit_batch cfg wcfg info now_ms env r batch maintenance pending in
  Agrees (view (tn_env t)) (tn_ram t) /\ batch_ends env r batch maintenance t.
Proof. apply commit_batch_ok. Qed.

(** What a turn of the writer does after its batch has failed with [e]: on a
    full map it raises the pressure to critical and frees records, soonest to
    expire first; on any other failure it does nothing. *)
Definition turn_recovers (env : T) (r : Ram) (e : StoreError) (t : Turn T) : Prop :=
  if is_capacity e
  then tn_ram t = set_pressure r Pressure_Critical
       /\ recovers recovery_budgets env (tn_ram t) (tn_env t) (tn_pending t)
  else tn_ram t = r /\ tn_env t = env /\ tn_pending t = false.

Lemma recovers_maintained budgets env r env' hot :
  recovers budgets env r env' hot -> maintained (view env) (view env').
Proof.
  intros [(tried & b & rest & n & _ & _ & Hd & _)|(-> & _)]; [by eapply drained_maintained|].
  split_and!; try done. intros k. by left.
Qed.

Lemma turn_recovers_effect env r e t :
  turn_recovers env r e t ->
  maintained (view env) (view (tn_env t))
  /\ (is_capacity e = false -> tn_env t = env /\ tn_pending t = false).
Proof.
  unfold turn_recovers. destruct (is_capacity e).
  - intros [_ H]. split; [by eapply recovers_maintained|done].
  - intros (_ & -> & ->). split; [|done]. split_and!; try done. intros k. by left.
Qed.

Lemma writer_turn_ok env r batch due pending :
  Agrees (view env) r -> Forall (op_ready D) batch ->
  next_id (ram_tags r) + batch_creations batch <= U32_MAX ->
  let c := commit_batch cfg wcfg info now_ms env r batch due pending in
  let t := writer_turn cfg wcfg info now_ms env r batch due pending in
  Agrees (view (tn_env t)) (tn_ram t) /\ tn_result t = Ok () /\ tn_events t = tn_events c
  /\ match tn_result c with
     | Ok _ => t = c
     | Err e => turn_recovers env (tn_ram c) e t
     | Panic _ => False
     end.
Proof.
  intros Ha Hops Hb c t. destruct (commit_batch_ok env r batch due pending Ha Hops Hb) as [Hac Hends].
  fold c in Hac, Hends. unfold batch_ends in Hends. subst t. unfold writer_turn, turn_recovers. fold c.
  destruct (tn_result c) as [[]|e|why] eqn:Er; [done| |done].
  destruct Hends as (_ & He & Hfr & _). rewrite He in *.
  destruct (is_capacity e) eqn:Ecap; [|done].
  assert (Agrees (view env) (set_pressure (tn_ram c) Pressure_Critical)) as Hcrit.
  { eapply Flight_ram; [done|]. frame. }
  pose proof (free_space_loop_ok [ev_batch (eviction wcfg); ev_batch (eviction wcfg) / 8; 8]
    _ _ Hcrit) as Hfree. unfold free_space.
  destruct (free_space_loop _ _ _ _ _) as [[env' r'] freed].
  destruct Hfree as (-> & Ha' & Hrec & Hnp).
  destruct freed as [n|e'|why]; [| |done]; split_and!; done.
Qed.

(** C4 A turn of the writer thread, recovery included: it never stops the
    thread, whatever the batch held and whatever the engine does; memory agrees
    with the committed contents afterwards; and the callers were told what the
    batch's own commit decided.  After a batch that failed because the map was
    full, the pressure is critical, and the first of the three budgets whose
    transaction the engine commits has freed records: those soonest to expire,
    at least the budget's worth of index rows (on a shard without litter, of
    records) unless the shard is left empty, the writer staying hot exactly when
    it freed one; nothing is freed only when the engine commits none of the
    three, or does not begin a transaction.  After any other failure the
    contents and the pressure are the old ones. *)
Theorem writer_turn_recovers env r batch due pending :
  Agrees (view env) r -> Forall (op_ready D) batch ->
  next_id (ram_tags r) + batch_creations batch <= U32_MAX ->
  let c := commit_batch cfg wcfg info now_ms env r batch due pending in
  let t := writer_turn cfg wcfg info now_ms env r batch due pending in
  Agrees (view (tn_env t)) (tn_ram t) /\ tn_result t = Ok () /\ tn_events t = tn_events c
  /\ match tn_result c with
     | Ok _ => t = c
     | Err e => turn_recovers env (tn_ram c) e t
     | Panic _ => False
     end.
Proof. apply writer_turn_ok. Qed.

End Writer.
