(* ===== verification/Env.v ===== *)
(** [vash-store/src/env.rs]: opening one environment: the schema version, the
    shard-identity check, the tag registry load and the CAS resumption.

    Wiping and creating the directory and the engine's own open are file-system
    work: [open_backend] stands for [B::open] and [create_db] over what the
    directory holds ([None]: nothing, or wiped).  Prefaulting and locking the map
    ([warm]) change no state modelled here.

    Then what opening refuses, and that a restart loses nothing: the database of
    a running shard, reopened as the same shard, comes back with the contents
    and the memory a client saw before. *)

From S2P Require Import Prelude Bytes Text Core Record Clock Arith Command Backend IndexKeys.
From S2P Require Import Tags Engine Apply Cache ApplySpec TagOps Maint MaintSpec.
From S2P Require Import ReclaimSpec Queue QueueSpec Writer.

(** ** [config.rs]: what opening and the operations read *)

Definition MIN_MAP_SIZE : Z := 16 * 1024 * 1024.

Inductive Durability : Type := Durability_Durable | Durability_Relaxed | Durability_Lazy.

#[global] Instance Durability_eq_dec : EqDecision Durability.
Proof. solve_decision. Defined.

Record StoreConfig := mkStoreConfig {
  sc_path : String.string;
  sc_map_size : Z;
  sc_durability : Durability;
  sc_max_value_len : Z;
  sc_wipe_on_start : bool;
  sc_write_map : bool;
  sc_bucket_granularity_ms : Z;
  sc_max_tags : Z;
  sc_max_tags_per_record : Z;
  sc_shards : Z;
  sc_write : WriteConfig
}.

(** ** [backend/lmdb.rs]: the flags an environment is opened with

    What they mean for a crash of the machine is LMDB's documented contract
    ([docs/storage.md], "Durability"): a commit is on the device when it returns
    unless a flag defers part of its sync; and what the machine comes back with
    is some earlier commit, whole, unless [NO_SYNC] and [WRITE_MAP] are set
    together. *)

Record EnvFlags := mkEnvFlags { ef_no_meta_sync : bool; ef_no_sync : bool; ef_write_map : bool }.

Definition env_flags (durability : Durability) (write_map : bool) : EnvFlags :=
  let flags :=
    match durability with
    | Durability_Durable => mkEnvFlags false false false
    | Durability_Relaxed => mkEnvFlags true false false
    | Durability_Lazy => mkEnvFlags false true false
    end in
  if write_map then mkEnvFlags (ef_no_meta_sync flags) (ef_no_sync flags) true else flags.

Definition sync_on_commit (flags : EnvFlags) : bool := negb (ef_no_meta_sync flags || ef_no_sync flags).

Definition crash_consistent (flags : EnvFlags) : bool := negb (ef_no_sync flags && ef_write_map flags).

(** ** Messages *)

#[local] Delimit Scope string_scope with str.

Definition show (z : Z) : String.string := String.string_of_list_byte (u64_text z).

Definition say (parts : list String.string) : String.string := String.concat "" parts.

(** [{:?}] of a byte slice. *)
Definition show_bytes (b : bytes) : String.string :=
  say ["["; String.concat ", " ((fun x => show (byte_val x)) <$> b); "]"]%str.

Section Env.
Context {T : Type} {BT : Backend T}.

(** The shard an engine was opened as. *)
Variable config : StoreConfig.
Variable index count : Z.

Definition read_u32 (db : Db) (key : bytes) : StoreM T (option Z) :=
  raw ← db_get db key;
  match raw with
  | Some raw =>
      if len raw =? 4 then mret (Some (le_val raw))
      else throw (SE_Corrupt (say ["meta key "; show_bytes key; " is not 4 bytes"]%str))
  | None => mret None
  end.

Definition read_u64 (db : Db) (key : bytes) : StoreM T (option Z) :=
  raw ← db_get db key;
  match raw with
  | Some raw =>
      if len raw =? 8 then mret (Some (le_val raw))
      else throw (SE_Corrupt (say ["meta key "; show_bytes key; " is not 8 bytes"]%str))
  | None => mret None
  end.

(** A new database is stamped; an old one must be of this build's schema. *)
Definition check_schema : StoreM T unit :=
  found ← read_u32 Meta meta_key_SCHEMA_VERSION;
  match found with
  | None =>
      _ ← db_put Meta meta_key_SCHEMA_VERSION (le_bytes 4 SCHEMA_VERSION);
      _ ← db_put Meta meta_key_RECORD_VERSION (le_bytes 4 RECORD_VERSION);
      _ ← db_put Meta meta_key_SHARD_INDEX (le_bytes 4 (wrapping 32 index));
      db_put Meta meta_key_SHARD_COUNT (le_bytes 4 (wrapping 32 count))
  | Some found =>
      if found =? SCHEMA_VERSION then mret ()
      else throw (SE_Corrupt (say ["database has schema version "; show found; ", this build expects "; show SCHEMA_VERSION]%str))
  end.

Definition check_shard : StoreM T unit :=
  stored ← read_u32 Meta meta_key_SHARD_COUNT;
  _ ← match stored with
      | Some stored =>
          if negb (stored =? count) then
            throw (SE_Corrupt (say ["database at "; sc_path config; " was built for "; show stored; " shard(s), but "; show count; " were configured; keys would route to the wrong environment"]%str))
          else mret ()
      | None => mret ()
      end;
  stored ← read_u32 Meta meta_key_SHARD_INDEX;
  match stored with
  | Some stored =>
      if negb (stored =? index) then
        throw (SE_Corrupt (say ["database at "; sc_path config; " is shard "; show stored; ", opened as shard "; show index]%str))
      else mret ()
  | None => mret ()
  end.

Definition load_row (row : bytes * bytes) : Result StoreError (bytes * Z * Z) :=
  let '(name, raw) := row in
  match decode_entry raw with
  | Some (id, generation) => Ok (name, id, generation)
  | None =>
      Err (SE_Corrupt (say ["tag registry entry for "; show_bytes name; " is "; show (len raw); " bytes, expected "; show TAG_RECORD_LEN]%str))
  end.

(** The transaction [open] runs, up to its commit: the epoch, the first CAS
    counter and the tag table. *)
Definition open_txn : StoreM T (Z * Z * list (bytes * Z * Z)) :=
  _ ← check_schema;
  _ ← check_shard;
  epoch ← read_u32 Meta meta_key_EPOCH;
  cas_start ← read_u64 Meta meta_key_CAS_WATERMARK;
  rows ← db_range TagMeta FULL;
  loaded ← lift (collect load_row rows);
  mret (default 0 epoch, default 0 cas_start, loaded).

Definition engine_config : Config :=
  mkConfig (sc_max_value_len config) (sc_bucket_granularity_ms config) index (Z.max count 1).

Definition Engine_open (open_backend : option T -> Result StoreError T) (found : option T)
    : Result StoreError (T * Ram * Config) :=
  let found := if sc_wipe_on_start config then None else found in
  if sc_map_size config <? MIN_MAP_SIZE then
    Err (SE_Corrupt (say ["map size "; show (sc_map_size config); " is below the minimum of "; show MIN_MAP_SIZE; " bytes; LMDB cannot reliably reclaim space on a map that small"]%str))
  else
    backend ← open_backend found;
    txn ← txn_begin backend;
    let registry := TagRegistry_new (sc_max_tags config) in
    let '(s, opened) := open_txn (mkSt txn (mkRam 0 0 0 registry Pressure_Normal)) in
    '(epoch, cas_start, loaded) ← opened;
    env ← txn_commit (st_txn s);
    Ok (env, mkRam epoch cas_start cas_start (load_from registry loaded) Pressure_Normal, engine_config).

End Env.

(** ** What a client sees depends on the contents alone *)

Section Agrees.
Context {HS : Hash}.
Variable g : Z.
Variable D : bytes -> Prop.

Lemma agrees_generation v v' r r' id :
  Agrees g D v r -> Agrees g D v' r' -> v_tag_meta v' = v_tag_meta v ->
  lookup_generation (ram_tags r') id = lookup_generation (ram_tags r) id.
Proof.
  intros Ha Hb Ht.
  assert (forall i, 0 <= i -> lookup_generation (ram_tags r') i = lookup_generation (ram_tags r) i) as H.
  { intros i Hi.
    assert (forall x, lookup_generation (ram_tags r') i = Some x <-> lookup_generation (ram_tags r) i = Some x) as Hx.
    { intros x. rewrite !lookup_generation_names by (done || apply Ha || apply Hb).
      pose proof (fl_names _ _ _ _ _ Ha) as Na. pose proof (fl_names _ _ _ _ _ Hb) as Nb.
      cbn [pub_tags foldl] in Na, Nb. setoid_rewrite Na. setoid_rewrite Nb.
      by setoid_rewrite (disk_tag_other _ _ _ Ht). }
    destruct (lookup_generation (ram_tags r) i) as [x|] eqn:E; [by apply Hx|].
    destruct (lookup_generation (ram_tags r') i) as [x|] eqn:E'; [|done].
    assert (None = Some x) as [=] by by apply Hx. }
  destruct (Z.le_gt_cases 0 id); [by apply H|].
  specialize (H 0 (Z.le_refl 0)). unfold lookup_generation in *.
  by replace (Z.to_nat id) with (Z.to_nat 0) by lia.
Qed.

Lemma agrees_epoch v v' r r' :
  Agrees g D v r -> Agrees g D v' r' -> disk_epoch v' = disk_epoch v -> ram_epoch r' = ram_epoch r.
Proof.
  intros Ha Hb He. pose proof (fl_epoch _ _ _ _ _ Ha) as H1. pose proof (fl_epoch _ _ _ _ _ Hb) as H2.
  cbn [pub_epoch foldl] in *. congruence.
Qed.

Lemma agrees_alive v v' r r' now_ms rec :
  Agrees g D v r -> Agrees g D v' r' ->
  v_tag_meta v' = v_tag_meta v -> disk_epoch v' = disk_epoch v ->
  alive now_ms r' rec = alive now_ms r rec.
Proof.
  intros Ha Hb Ht He. unfold alive. rewrite (agrees_epoch _ _ _ _ Ha Hb He). unfold is_alive. f_equal.
  unfold tags_alive.
  induction (tags rec) as [|t ts IH]; [done|]. cbn [forallb].
  by rewrite IH, (agrees_generation _ _ _ _ _ Ha Hb Ht).
Qed.

Lemma agrees_seen v v' r r' now_ms k :
  Agrees g D v r -> Agrees g D v' r' ->
  v_main v' = v_main v -> v_tag_meta v' = v_tag_meta v -> disk_epoch v' = disk_epoch v ->
  seen now_ms v' r' k = seen now_ms v r k.
Proof.
  intros Ha Hb Hm Ht He. unfold seen, recs. rewrite Hm.
  destruct (omap _ (v_main v) !! k) as [rec|]; [|done]. cbn.
  by rewrite (agrees_alive _ _ _ _ _ _ Ha Hb Ht He).
Qed.

End Agrees.

(** ** Identity *)

Definition Stamped (index count : Z) (v : Views) : Prop :=
  v_meta v !! meta_key_SCHEMA_VERSION = Some (le_bytes 4 SCHEMA_VERSION)
  /\ v_meta v !! meta_key_SHARD_INDEX = Some (le_bytes 4 index)
  /\ v_meta v !! meta_key_SHARD_COUNT = Some (le_bytes 4 count)
  /\ fits 32 index /\ fits 32 count.

(** A database nobody has opened. *)
Definition Unstamped (v : Views) : Prop :=
  v_meta v !! meta_key_SCHEMA_VERSION = None
  /\ v_meta v !! meta_key_SHARD_INDEX = None /\ v_meta v !! meta_key_SHARD_COUNT = None.

Definition Identity (id : option (Z * Z)) (v : Views) : Prop :=
  match id with Some (index, count) => Stamped index count v | None => Unstamped v end.

Lemma Identity_meta id v v' :
  (forall k, k = meta_key_SCHEMA_VERSION \/ k = meta_key_SHARD_INDEX \/ k = meta_key_SHARD_COUNT ->
     v_meta v' !! k = v_meta v !! k) ->
  Identity id v -> Identity id v'.
Proof.
  intros H. unfold Identity, Stamped, Unstamped. destruct id as [[]|];
    rewrite !H by (by (left + (right; left) + (right; right))); done.
Qed.

Section Open.
Context {T : Type} {BT : Backend T} {BL : BackendLaws T} {HS : Hash}.
Variable config : StoreConfig.
Variable index count : Z.
Variable D : bytes -> Prop.

Abbreviation g := (sc_bucket_granularity_ms config).
Abbreviation Agrees := (Agrees g D).

Lemma wp_read_u32 db key Q Qe v r :
  match vget v db !! key with
  | None => Q None v r
  | Some raw => if len raw =? 4 then Q (Some (le_val raw)) v r else forall e, Qe e v r
  end -> wp (read_u32 (T:=T) db key) Q Qe v r.
Proof.
  intros H. unfold read_u32. do 2 wp_step. destruct (vget v db !! key) as [raw|]; [|by wp_step].
  destruct (len raw =? 4); wp_step; [done|apply H].
Qed.

Lemma wp_read_u64 db key Q Qe v r :
  match vget v db !! key with
  | None => Q None v r
  | Some raw => if len raw =? 8 then Q (Some (le_val raw)) v r else forall e, Qe e v r
  end -> wp (read_u64 (T:=T) db key) Q Qe v r.
Proof.
  intros H. unfold read_u64. do 2 wp_step. destruct (vget v db !! key) as [raw|]; [|by wp_step].
  destruct (len raw =? 8); wp_step; [done|apply H].
Qed.

(** What opening a new database writes. *)
Definition stamp (v : Views) : Views :=
  vput (vput (vput (vput v Meta meta_key_SCHEMA_VERSION (le_bytes 4 SCHEMA_VERSION))
    Meta meta_key_RECORD_VERSION (le_bytes 4 RECORD_VERSION))
    Meta meta_key_SHARD_INDEX (le_bytes 4 (wrapping 32 index)))
    Meta meta_key_SHARD_COUNT (le_bytes 4 (wrapping 32 count)).

Lemma stamp_other v k :
  k <> meta_key_SCHEMA_VERSION -> k <> meta_key_RECORD_VERSION ->
  k <> meta_key_SHARD_INDEX -> k <> meta_key_SHARD_COUNT ->
  v_meta (stamp v) !! k = v_meta v !! k.
Proof. intros. unfold stamp, vput. cbn [vset vget v_meta]. by rewrite !lookup_insert_ne. Qed.

Hypothesis index_fits : fits 32 index.
Hypothesis count_fits : fits 32 count.

Lemma stamp_stamped v : Stamped index count (stamp v).
Proof.
  unfold stamp, Stamped, vput. cbn [vset vget v_meta]. rewrite !wrapping_small by done.
  conjs; try done.
  - do 3 rewrite lookup_insert_ne by done. by rewrite lookup_insert_eq.
  - rewrite lookup_insert_ne by done. by rewrite lookup_insert_eq.
  - by rewrite lookup_insert_eq.
Qed.

Definition opened_views (id : option (Z * Z)) (v : Views) : Views :=
  match id with None => stamp v | Some _ => v end.

Lemma wp_read_u32_at db key n Q Qe v r :
  vget v db !! key = Some (le_bytes 4 n) -> fits 32 n -> Q (Some n) v r ->
  wp (read_u32 (T:=T) db key) Q Qe v r.
Proof.
  intros Hk Hn HQ. apply wp_read_u32. rewrite Hk. unfold len. rewrite length_le_bytes. cbn.
  by rewrite (le_val_bytes_fits 32).
Qed.

Lemma wp_check_schema id Q Qe v r :
  Identity id v -> Q () (opened_views id v) r -> wp (check_schema (T:=T) index count) Q Qe v r.
Proof.
  intros Hid HQ. unfold check_schema. wp_step.
  destruct id as [[i n]|]; destruct Hid as (Hs & _).
  - eapply wp_read_u32_at; [exact Hs|done|]. rewrite Z.eqb_refl. by wp_step.
  - apply wp_read_u32. cbn [vget]. rewrite Hs. by repeat wp_step.
Qed.

Lemma wp_check_shard i n Q Qe v r :
  Stamped i n v ->
  (i = index -> n = count -> Q () v r) ->
  ((i, n) <> (index, count) -> forall e, Qe e v r) ->
  wp (check_shard (T:=T) config index count) Q Qe v r.
Proof.
  intros (_ & Hi & Hn & Fi & Fn) HQ He. unfold check_shard. wp_step.
  eapply wp_read_u32_at; [exact Hn|done|]. wp_step.
  destruct (Z.eqb_spec n count) as [En|Hne]; cbn [negb]; wp_step; [|apply He; congruence].
  wp_step. eapply wp_read_u32_at; [exact Hi|done|].
  destruct (Z.eqb_spec i index) as [Ei|Hne]; cbn [negb]; wp_step; [by apply HQ|apply He; congruence].
Qed.

Lemma wp_read_epoch e (Q : option Z -> Views -> Ram -> Prop) Qe v r :
  disk_epoch v = Some e -> (forall o, default 0 o = e -> Q o v r) ->
  wp (read_u32 (T:=T) Meta meta_key_EPOCH) Q Qe v r.
Proof.
  intros He HQ. apply wp_read_u32. cbn [vget]. unfold disk_epoch in He.
  destruct (v_meta v !! meta_key_EPOCH) as [raw|]; [|apply HQ; by injection He].
  destruct (len raw =? 4); [|done]. apply HQ. by injection He.
Qed.

Lemma wp_read_watermark w (Q : option Z -> Views -> Ram -> Prop) Qe v r :
  disk_watermark v = Some w -> (forall o, default 0 o = w -> Q o v r) ->
  wp (read_u64 (T:=T) Meta meta_key_CAS_WATERMARK) Q Qe v r.
Proof.
  intros He HQ. apply wp_read_u64. cbn [vget]. unfold disk_watermark in He.
  destruct (v_meta v !! meta_key_CAS_WATERMARK) as [raw|]; [|apply HQ; by injection He].
  destruct (len raw =? 8); [|done]. apply HQ. by injection He.
Qed.

(** ** The tag table as it is loaded *)

Definition tag_entries (v : Views) : list (bytes * Z * Z) :=
  (fun '(name, raw) => let '(id, g) := default (0, 0) (decode_entry raw) in (name, id, g))
    <$> rows_in (v_tag_meta v) FULL.

Lemma tag_entries_elem v n id g :
  TagTable v -> (n, id, g) ∈ tag_entries v <-> disk_tag v n = Some (id, g).
Proof.
  intros Ht. unfold tag_entries, disk_tag. rewrite list_elem_of_fmap. split.
  - intros ([n' raw] & Heq & [Hr _]%rows_in_elem).
    destruct (tt_decodes _ Ht _ _ Hr) as [[id' g'] Hd]. rewrite Hd in Heq. cbn in Heq.
    injection Heq as -> -> ->. by rewrite Hr.
  - destruct (v_tag_meta v !! n) as [raw|] eqn:E; [|done]. cbn. intros Hd. exists (n, raw).
    rewrite Hd. split; [done|]. by apply rows_in_elem.
Qed.

Lemma load_rows_ok v : TagTable v ->
  collect load_row (rows_in (v_tag_meta v) FULL) = Ok (tag_entries v).
Proof.
  intros Ht. apply collect_total. intros [n raw] [Hr _]%rows_in_elem.
  destruct (tt_decodes _ Ht _ _ Hr) as [[id' g'] Hd]. cbn. by rewrite Hd.
Qed.

Lemma tag_entries_names v : (tag_entries v).*1.*1 = (rows_in (v_tag_meta v) FULL).*1.
Proof.
  unfold tag_entries. induction (rows_in (v_tag_meta v) FULL) as [|[n raw] l IH]; [done|].
  rewrite !fmap_cons, IH. by destruct (default (0, 0) (decode_entry raw)).
Qed.

Lemma tag_entries_ok v r : TagTable v -> ids_below v r -> entries_ok (tag_entries v).
Proof.
  intros Ht [Hn Hids].
  assert (NoDup (tag_entries v).*1.*1) as Hnames by (rewrite tag_entries_names; apply rows_in_NoDup).
  assert (forall n id g, (n, id, g) ∈ tag_entries v -> disk_tag v n = Some (id, g)) as Hel
    by (intros; by apply tag_entries_elem).
  split; [done|]. split.
  - induction (tag_entries v) as [|[[n id] g] l IH]; [constructor|].
    rewrite !fmap_cons in *. cbn [fst snd] in *. apply NoDup_cons in Hnames as [Hn1 Hn2].
    apply NoDup_cons. split; [|apply IH; [done|intros; apply Hel; by right]].
    intros ([n' i'] & Heq & ([[n2 i2] g2] & Heq2 & Hin)%list_elem_of_fmap)%list_elem_of_fmap.
    cbn in Heq, Heq2. injection Heq2 as -> ->. subst i2.
    assert (n = n2) as <- by (eapply tt_ids; [done| |]; apply Hel; [by left|by right]).
    apply Hn1. apply list_elem_of_fmap. exists (n, id). split; [done|].
    apply list_elem_of_fmap. by exists (n, id, g2).
  - apply Forall_forall. intros [[n id] g] Hin. apply Hel, Hids in Hin. unfold U32_MAX in *. lia.
Qed.

(** ** The whole of [open] *)

(** Stamping leaves everything else a running shard relies on. *)
Lemma opened_other id v :
  let v' := opened_views id v in
  v_main v' = v_main v /\ v_exp v' = v_exp v /\ v_tagidx v' = v_tagidx v
  /\ v_tag_meta v' = v_tag_meta v /\ v_jobs v' = v_jobs v
  /\ disk_epoch v' = disk_epoch v /\ disk_watermark v' = disk_watermark v.
Proof.
  destruct id; [done|]. cbn [opened_views]. conjs; try done.
  - unfold disk_epoch. by rewrite stamp_other.
  - unfold disk_watermark. by rewrite stamp_other.
Qed.

Lemma wp_open_txn id v r e w :
  Identity id v -> TagTable v -> disk_epoch v = Some e -> disk_watermark v = Some w ->
  wp (open_txn (T:=T) config index count)
    (fun '(epoch, start, loaded) v' _ =>
       v' = opened_views id v /\ Stamped index count v'
       /\ (forall i n, id = Some (i, n) -> i = index /\ n = count)
       /\ epoch = e /\ start = w /\ loaded = tag_entries v)
    (fun _ _ _ => exists i n, id = Some (i, n) /\ (i, n) <> (index, count))
    v r.
Proof.
  intros Hid Ht He Hw. unfold open_txn. wp_step. eapply wp_check_schema; [done|].
  destruct (opened_other id v) as (Om & Oe & Ox & Ot & Oj & Oep & Ow).
  assert (Stamped (default (index, count) id).1 (default (index, count) id).2 (opened_views id v)) as Hst.
  { destruct id as [[i n]|]; [done|]. apply stamp_stamped. }
  wp_step. eapply wp_check_shard; [exact Hst| |].
  2:{ intros Hne e'. destruct id as [[i n]|]; [by exists i, n|done]. }
  intros Hi Hn. wp_step. apply wp_read_epoch with e; [congruence|]. intros oe Hoe.
  wp_step. apply wp_read_watermark with w; [congruence|]. intros ow How.
  wp_step. wp_step. wp_step. cbn [vget]. rewrite Ot, load_rows_ok by done. wp_step. wp_step.
  rewrite Hi, Hn in Hst. conjs; try done. intros i n ->. by cbn in Hi, Hn.
Qed.

Variable open_backend : option T -> Result StoreError T.

(** [B::open] opens what the directory holds, or fails. *)
Hypothesis open_law : forall found,
  match open_backend found with
  | Ok t => view t = default empty_views (view <$> found)
  | Err _ => True
  | Panic _ => False
  end.

Definition kept (found : option T) : Views :=
  if sc_wipe_on_start config then empty_views else default empty_views (view <$> found).

Lemma Engine_open_ok found id r w :
  Agrees (kept found) r -> disk_watermark (kept found) = Some w -> Identity id (kept found) ->
  match Engine_open config index count open_backend found with
  | Ok (env, r', cfg) =>
      Agrees (view env) r' /\ Stamped index count (view env)
      /\ (forall i n, id = Some (i, n) -> i = index /\ n = count)
      /\ v_main (view env) = v_main (kept found)
      /\ (forall now_ms k, seen now_ms (view env) r' k = seen now_ms (kept found) r k)
      /\ (forall n, disk_tag (view env) n = disk_tag (kept found) n)
      /\ ram_cas_next r' = w /\ ram_cas_watermark r' = w /\ disk_watermark (view env) = Some w
      /\ cfg = engine_config config index count
  | Err e =>
      (may_fail /\ poisons_transaction e = true)
      \/ sc_map_size config < MIN_MAP_SIZE
      \/ open_backend (if sc_wipe_on_start config then None else found) = Err e
      \/ exists i n, id = Some (i, n) /\ (i, n) <> (index, count)
  | Panic _ => False
  end.
Proof.
  intros Ha Hw Hid. unfold Engine_open.
  destruct (Z.ltb_spec (sc_map_size config) MIN_MAP_SIZE); [by right; left|].
  set (found' := if sc_wipe_on_start config then None else found).
  assert (kept found = default empty_views (view <$> found')) as Hk.
  { unfold kept, found'. by destruct (sc_wipe_on_start config). }
  pose proof (open_law found') as Hopen. destruct (open_backend found') as [t|e|why] eqn:Eo;
    [|by right; right; left|done]. rewrite bind_ok. rewrite <- Hk in Hopen.
  pose proof (begin_view t) as Hb. destruct (txn_begin t) as [txn|e|why]; [rewrite bind_ok|by left|done].
  set (r0 := mkRam 0 0 0 _ _).
  assert (view txn = kept found) as Hview by congruence.
  pose proof (wp_open_txn id (kept found) r0 _ w Hid (fl_table _ _ _ _ _ Ha)
    (fl_epoch _ _ _ _ _ Ha) Hw) as Hrun.
  rewrite <- Hview in Hrun. apply (wp_run _ _ _ (mkSt txn r0)) in Hrun.
  rewrite Hview in Hrun.
  destruct (open_txn config index count _) as [s [[[epoch start] loaded]|e|why]]; [| |done].
  2:{ destruct Hrun as [(? & ? & _)|Hne]; [by left|by right; right; right]. }
  destruct Hrun as (Hv & Hst & Hsame & -> & -> & ->). rewrite bind_ok. cbv beta iota.
  pose proof (commit_view (st_txn s)) as Hc.
  destruct (txn_commit (st_txn s)) as [env|e|why]; [rewrite bind_ok|by left|done].
  destruct Hc as [Hve _]. rewrite Hv in Hve. rewrite Hve in *.
  destruct (opened_other id (kept found)) as (Om & Oe & Ox & Ot & Oj & Oep & Ow).
  assert (forall n, disk_tag (opened_views id (kept found)) n = disk_tag (kept found) n) as Hd
    by (intros; by apply disk_tag_other).
  set (r' := mkRam _ w w _ _).
  assert (Agrees (opened_views id (kept found)) r') as Hag.
  { destruct (load_from_ok (sc_max_tags config) (tag_entries (opened_views id (kept found))))
      as (Hok & Hnames & Hnext & Hrange & _).
    { unfold tag_entries. rewrite Ot. eapply tag_entries_ok; apply Ha. }
    assert (tag_entries (opened_views id (kept found)) = tag_entries (kept found)) as Htags
      by (unfold tag_entries; by rewrite Ot).
    rewrite Htags in Hok, Hnames, Hnext, Hrange. destruct Ha as [Ai Ak At An Aids Aj Areg Anames Aep Afit]. constructor; try done.
    - by destruct Ai; constructor; unfold recs; rewrite ?Om, ?Oe, ?Ox.
    - intros k. unfold held. rewrite Om. apply Ak.
    - constructor; [rewrite Ot; apply At|]. intros n n' i g1 g2. rewrite !Hd. apply At.
    - intros n x. rewrite Hd. apply An.
    - split; [exact Hrange|]. intros n i g1. rewrite Hd. intros Hx.
      split; [by eapply Aids|]. eapply Hnext. by apply tag_entries_elem.
    - intros jk raw. rewrite Oj. apply Aj.
    - intros n. cbn [pub_tags foldl ram_tags]. apply option_eq. intros [i g1].
      cbn. rewrite Hnames, Hd. by apply tag_entries_elem.
    - cbn. by rewrite Oep. }
  conjs; try done; [by rewrite <- Hv| |congruence].
  intros now_ms k. by eapply agrees_seen.
Qed.

(** C16 Opening: a database some shard left behind, whatever moment it was left
    at, reopens as the same shard unless the engine fails or the map is
    configured too small, and then memory agrees with the contents, every
    client sees under every key exactly what it saw before, the tag registry is
    the persisted one, and tokens resume at the reserved watermark.  Opened as
    another shard or under another shard count it is refused, as the data would
    be unreachable; a new database is stamped. *)
Theorem Engine_open_exact found id r w :
  Agrees (kept found) r -> disk_watermark (kept found) = Some w -> Identity id (kept found) ->
  match Engine_open config index count open_backend found with
  | Ok (env, r', cfg) =>
      Agrees (view env) r' /\ Stamped index count (view env)
      /\ (forall i n, id = Some (i, n) -> i = index /\ n = count)
      /\ v_main (view env) = v_main (kept found)
      /\ (forall now_ms k, seen now_ms (view env) r' k = seen now_ms (kept found) r k)
      /\ (forall n, disk_tag (view env) n = disk_tag (kept found) n)
      /\ ram_cas_next r' = w /\ ram_cas_watermark r' = w /\ disk_watermark (view env) = Some w
      /\ cfg = engine_config config index count
  | Err e =>
      (may_fail /\ poisons_transaction e = true)
      \/ sc_map_size config < MIN_MAP_SIZE
      \/ open_backend (if sc_wipe_on_start config then None else found) = Err e
      \/ exists i n, id = Some (i, n) /\ (i, n) <> (index, count)
  | Panic _ => False
  end.
Proof. apply Engine_open_ok. Qed.

End Open.
