(* ===== verification/Life.v ===== *)
(** The life of a shard: opened on an empty directory, run for any number of
    writer turns and periodic syncs, killed between any two of them (or inside
    one, which commits nothing) and opened again - by a crash of the process,
    which keeps what was committed, or of the machine, which keeps one of the
    commits since the last sync, as the durability that was configured has it.

    First the version tokens ([next_cas] and the watermark it reserves in
    blocks): while every batch commits, every token handed out is above every
    token the shard has stored or answered before, the shard's stripe keeps it
    apart from every other shard's, and the persisted watermark stays above all
    of them, so the next opening reuses none.  An aborted batch leaves memory with
    a reserve that is not on disk, and the promise ends there. *)

From S2P Require Import Prelude Bytes Text Core Record Clock Arith Command Backend IndexKeys.
From S2P Require Import Tags Engine Apply Cache ApplySpec TagOps Maint MaintSpec.
From S2P Require Import ReclaimSpec Queue QueueSpec Writer WriterSpec Env.

(** ** Every stored record carries the token of its write *)

Section Verdicts.
Context {FT : FloatText}.
Variable cfg : Config.
Variable now_ms epoch tok : Z.

Definition stamps {A} (verdict : Verdict A) : Prop :=
  forall rec a, verdict = Ok (Store rec, a) -> cas rec = tok.

Lemma stamps_set p rec0 s : stamps (spec_set now_ms tok p rec0 s).
Proof. intros rec a [= <- <-]. unfold settle. by case_match. Qed.

Lemma stamps_delete s : stamps (spec_delete s).
Proof. by intros rec a [=]. Qed.

Lemma stamps_conditional p rec0 mode s :
  stamps (spec_conditional cfg now_ms epoch tok p rec0 mode s).
Proof.
  intros rec a. unfold spec_conditional, settle.
  destruct mode, s; repeat case_match; intros [= <- <-]; done.
Qed.

Lemma stamps_expire ttl guard s : stamps (spec_expire now_ms tok ttl guard s).
Proof. intros rec a. unfold spec_expire. repeat case_match; by intros [= <- <-]. Qed.

Lemma stamps_arithmetic op s : stamps (spec_arithmetic cfg now_ms epoch tok op s).
Proof.
  intros rec a. unfold spec_arithmetic. destruct (map_err _ _) as [outcome|e|why]; try done.
  rewrite bind_ok. repeat case_match; by intros [= <- <-].
Qed.

Lemma stamps_append suffix s : stamps (spec_append cfg epoch tok suffix s).
Proof. intros rec a. unfold spec_append. repeat case_match; by intros [= <- <-]. Qed.

Lemma stamps_touch ttl_secs s : stamps (spec_touch now_ms tok ttl_secs s).
Proof. intros rec a. unfold spec_touch. repeat case_match; by intros [= <- <-]. Qed.

End Verdicts.

Section Tokens.
Context {T : Type} {BT : Backend T} {BL : BackendLaws T} {HS : Hash} {FT : FloatText}.
Variable cfg : Config.
Variable now_ms : Z.

(** A shard's stripe of the token space. *)
Hypothesis shard_ok : 0 <= shard_index cfg < shard_count cfg.

Definition token_of (c : Z) : Z := c * shard_count cfg + shard_index cfg.

(** The counter can take [n] more steps without leaving its width. *)
Definition cas_room (r : Ram) (n : Z) : Prop :=
  0 <= ram_cas_next r /\ token_of (ram_cas_next r + n) <= U64_MAX
  /\ ram_cas_next r + n + CAS_BLOCK <= U64_MAX.

(** Every stored token has been counted, and none is beyond the reserve. *)
Record Cas_ok (v : Views) (r : Ram) : Prop := {
  co_next : 0 <= ram_cas_next r <= ram_cas_watermark r;
  co_records k rec : recs v !! k = Some rec ->
    exists c, 0 <= c <= ram_cas_next r /\ cas rec = token_of c
}.

(** The reserve is on disk: what a restart resumes from. *)
Definition Reserved (v : Views) (r : Ram) : Prop := disk_watermark v = Some (ram_cas_watermark r).

(** What a stretch of writes hands out: tokens that are new, in order. *)
Definition issued (n : Z) (toks : list Z) (v : Views) (r : Ram) (v' : Views) (r' : Ram) : Prop :=
  let window c := ram_cas_next r < c <= ram_cas_next r' in
  Cas_ok v' r' /\ (Reserved v r -> Reserved v' r')
  /\ ram_cas_next r <= ram_cas_next r' <= ram_cas_next r + n
  /\ (forall k rec, recs v' !! k = Some rec ->
        recs v !! k = Some rec \/ exists c, window c /\ cas rec = token_of c)
  /\ exists cs, toks = token_of <$> cs /\ StronglySorted Z.lt cs /\ Forall window cs.

Lemma issued_refl v r : Cas_ok v r -> issued 0 [] v r v r.
Proof.
  intros H. unfold issued; cbv zeta. conjs; try done; [lia|by intros; left|].
  exists []. conjs; [done|constructor..].
Qed.

Lemma issued_le n m toks v r v' r' : issued n toks v r v' r' -> n <= m -> issued m toks v r v' r'.
Proof. intros (H1 & H2 & H3 & H4 & H5) Hle. unfold issued; cbv zeta. conjs; try done; lia. Qed.

Lemma sorted_app (l1 l2 : list Z) a b c :
  StronglySorted Z.lt l1 -> StronglySorted Z.lt l2 ->
  Forall (fun x => a < x <= b) l1 -> Forall (fun x => b < x <= c) l2 ->
  StronglySorted Z.lt (l1 ++ l2).
Proof.
  intros H1 H2 F1 F2. induction H1 as [|x l H1 IH Hx]; [done|]. apply Forall_cons in F1 as [Fx F1].
  cbn. constructor; [by apply IH|]. apply Forall_app. split; [done|].
  eapply Forall_impl; [exact F2|]. cbn. lia.
Qed.

Lemma issued_trans n1 n2 t1 t2 v r v1 r1 v2 r2 :
  issued n1 t1 v r v1 r1 -> issued n2 t2 v1 r1 v2 r2 -> issued (n1 + n2) (t1 ++ t2) v r v2 r2.
Proof.
  intros (A1 & A2 & A3 & A4 & cs1 & -> & A6 & A7) (B1 & B2 & B3 & B4 & cs2 & -> & B6 & B7).
  unfold issued; cbv zeta. conjs; [done|auto|lia|lia| |].
  - intros k rec [H|(c & Hc & Hr)]%B4; [|right; exists c; split; [lia|done]].
    apply A4 in H as [H|(c & Hc & Hr)]; [by left|right; exists c; split; [lia|done]].
  - exists (cs1 ++ cs2). rewrite fmap_app. conjs; [done|by eapply sorted_app|].
    apply Forall_app; split; (eapply Forall_impl; [done|]); cbn; lia.
Qed.

(** What the writer's own passes and the tag operations leave alone. *)
Lemma issued_same v r v' r' :
  (forall k, recs v' !! k = recs v !! k \/ recs v' !! k = None) -> disk_watermark v' = disk_watermark v ->
  same_cas r r' -> Cas_ok v r -> issued 0 [] v r v' r'.
Proof.
  intros Hr Hm [Hn Hw] [H1 H2]. unfold issued; cbv zeta. rewrite Hn. conjs; try lia.
  - constructor; [by rewrite Hn, Hw|]. rewrite Hn. intros k rec Hk.
    destruct (Hr k) as [E|E]; [|congruence]. apply (H2 k). congruence.
  - unfold Reserved. by rewrite Hm, Hw.
  - intros k rec Hk. destruct (Hr k); [left; congruence|congruence].
  - exists []. conjs; [done|constructor..].
Qed.

Lemma disk_watermark_meta v v' : v_meta v' = v_meta v -> disk_watermark v' = disk_watermark v.
Proof. unfold disk_watermark. by intros ->. Qed.

Lemma cas_room_counter r n : cas_room r n -> 1 <= n ->
  cas_counter r = ram_cas_next r + 1 /\ cas_token cfg r = token_of (ram_cas_next r + 1)
  /\ cas_reserve r = ram_cas_next r + 1 + CAS_BLOCK.
Proof.
  intros (H0 & H1 & H2) Hn. unfold cas_token, cas_reserve.
  assert (cas_counter r = ram_cas_next r + 1) as ->.
  { unfold cas_counter. apply wrapping_small. unfold CAS_BLOCK in *. width. }
  conjs; [done|apply wrapping_small|apply wrapping_small; unfold CAS_BLOCK in *; width].
  unfold token_of in *. split; [nia|]. unfold U64_MAX in H1. change (2 ^ 64) with (18446744073709551615 + 1). nia.
Qed.

(** One write. *)
Lemma changed_issued k ch v r v' r' :
  changed cfg k ch v r v' r' -> Cas_ok v r -> cas_room r 1 ->
  (forall rec, ch = Store rec -> cas rec = cas_token cfg r) ->
  issued 1 (match ch with Store rec => [cas rec] | _ => [] end) v r v' r'.
Proof.
  intros [Hch _] Hok Hroom Hstamp. destruct ch as [|rec|].
  - destruct Hch as [-> ->]. eapply issued_le; [by apply issued_refl|lia].
  - destruct Hch as (Hr & Hm & ->). specialize (Hstamp rec eq_refl).
    destruct (cas_room_counter r 1 Hroom) as (Hc & Ht & Hres); [lia|].
    rewrite Ht in Hstamp. destruct Hok as [Hn Hrecs]. pose proof Hroom as (H0 & H1 & H2).
    assert (ram_cas_next (cas_ram r) = ram_cas_next r + 1) as Hnext.
    { unfold cas_ram. rewrite Hc. by destruct (cas_extends r). }
    assert (disk_watermark v' = disk_watermark (cas_views v r)) as Hdw by by apply disk_watermark_meta.
    unfold issued; cbv zeta. rewrite Hnext. conjs; try lia.
    + constructor.
      * rewrite Hnext. unfold cas_ram, cas_extends. rewrite Hc, Hres.
        destruct (Z.leb_spec (ram_cas_watermark r) (ram_cas_next r + 1)); cbn; unfold CAS_BLOCK; lia.
      * intros k' rec' Hk. rewrite Hr in Hk. rewrite Hnext.
        apply lookup_insert_Some in Hk as [[<- <-]|[_ Hk]].
        -- exists (ram_cas_next r + 1). split; [lia|done].
        -- destruct (Hrecs _ _ Hk) as (c & ? & ?). exists c. split; [lia|done].
    + unfold Reserved. rewrite Hdw. unfold cas_views, cas_ram. rewrite Hc, Hres.
      destruct (cas_extends r); [|done]. intros _. unfold disk_watermark, vput. cbn [vset v_meta vget].
      rewrite lookup_insert_eq. unfold len. rewrite length_le_bytes. cbn.
      by rewrite (le_val_bytes_fits 64) by (unfold CAS_BLOCK in *; width).
    + intros k' rec' Hk. rewrite Hr in Hk. apply lookup_insert_Some in Hk as [[<- <-]|[_ Hk]]; [right|by left].
      exists (ram_cas_next r + 1). split; [lia|done].
    + exists [ram_cas_next r + 1]. conjs; [by rewrite Hstamp|repeat constructor|].
      apply Forall_singleton. lia.
  - destruct Hch as (Hr & Hm & ->). eapply issued_le; [apply issued_same; try done|lia].
    + intros k'. rewrite Hr. destruct (decide (k = k')) as [->|].
      * right. apply lookup_delete_eq.
      * left. by apply lookup_delete_ne.
    + by apply disk_watermark_meta.
Qed.

Lemma issued_none n toks v r v' r' : issued n toks v r v' r' -> issued n [] v r v' r'.
Proof.
  intros (H1 & H2 & H3 & H4 & _). unfold issued; cbv zeta. conjs; try done; try lia.
  exists []. conjs; [done|constructor..].
Qed.

Lemma cas_room_after r r' n m :
  cas_room r (n + m) -> ram_cas_next r <= ram_cas_next r' <= ram_cas_next r + n -> cas_room r' m.
Proof. unfold cas_room, token_of. intros (H0 & H1 & H2) [H3 H4]. conjs; [lia|nia|lia]. Qed.

Lemma cas_room_le r n m : cas_room r n -> m <= n -> cas_room r m.
Proof. unfold cas_room, token_of. intros (H0 & H1 & H2) H3. conjs; [lia|nia|lia]. Qed.

(** ** Operations *)

Definition stored_token (w : Written) : list Z :=
  match w_outcome w with Stored_Stored t => [t] | _ => [] end.

Definition answered_tokens (out : WriteOutcome) : list Z :=
  match out with Out_Cas tokens => tokens | Out_Written w => stored_token w | _ => [] end.

Lemma step_issued {A} k (verdict : Views -> Ram -> Verdict A) a v r v' r' :
  key_step cfg k verdict a v r v' r' -> stamps (cas_token cfg r) (verdict v r) ->
  Cas_ok v r -> cas_room r 1 ->
  exists ch, verdict v r = Ok (ch, a)
    /\ issued 1 (match ch with Store rec => [cas rec] | _ => [] end) v r v' r'.
Proof.
  intros (ch & Hv & Hch) Hs Hok Hroom. exists ch. split; [done|].
  eapply changed_issued; try done. intros rec ->. by eapply Hs.
Qed.

(** A loop of writes: their tokens in order. *)
Lemma each_issued {X A} (R : X -> A -> Views -> Ram -> Views -> Ram -> Prop) (f : A -> list Z)
    l ys v r v' r' :
  (forall x a v r v' r', R x a v r v' r' -> Cas_ok v r -> cas_room r 1 -> issued 1 (f a) v r v' r') ->
  each R l ys v r v' r' -> Cas_ok v r -> cas_room r (len l) ->
  issued (len l) (concat (f <$> ys)) v r v' r'.
Proof.
  intros Hstep He. induction He as [|x a l ys v r v1 r1 v2 r2 Hx He IH]; intros Hok Hroom.
  { by apply issued_refl. }
  assert (len (x :: l) = 1 + len l) as Hlen by (unfold len; cbn [length]; lia).
  pose proof (len_nonneg l). rewrite Hlen in *. cbn [fmap list_fmap concat].
  assert (issued 1 (f a) v r v1 r1) as H1.
  { apply Hstep with x; [done|done|]. eapply cas_room_le; [done|lia]. }
  eapply issued_trans; [done|]. pose proof H1 as (Hok1 & _ & Hn & _).
  apply IH; [done|]. by eapply cas_room_after.
Qed.

Lemma keys_issued {X A} (key : X -> bytes) (verdict : X -> Views -> Ram -> Verdict A) l ys v r v' r' :
  (forall x v r, stamps (cas_token cfg r) (verdict x v r)) ->
  each (fun x => key_step cfg (key x) (verdict x)) l ys v r v' r' -> Cas_ok v r -> cas_room r (len l) ->
  issued (len l) [] v r v' r'.
Proof.
  intros Hs He Hok Hroom.
  assert (concat ((fun _ : A => []) <$> ys) = ([] : list Z)) as <-.
  { clear. by induction ys. }
  eapply each_issued; [|done..]. intros x a v1 r1 v2 r2 Hx Hok1 Hroom1.
  destruct (step_issued _ _ _ _ _ _ _ Hx (Hs x v1 r1) Hok1 Hroom1) as (ch & _ & H).
  by eapply issued_none.
Qed.

Lemma conditional_token e tok p rec0 mode s ch w :
  spec_conditional cfg now_ms e tok p rec0 mode s = Ok (ch, w) ->
  stored_token w = match ch with Store _ => [tok] | _ => [] end.
Proof. unfold spec_conditional. destruct mode, s; repeat case_match; intros [=]; by subst. Qed.

Lemma created_issued names v r v' r' :
  created names v v' -> same_cas r r' -> Cas_ok v r -> issued 0 [] v r v' r'.
Proof.
  intros ((Hm & _ & _) & _ & Hmeta & _) Hc Hok. apply issued_same; try done.
  - intros k. left. unfold recs. by rewrite Hm.
  - by apply disk_watermark_meta.
Qed.

Lemma op_issued op out v r v' r' :
  op_spec cfg now_ms op out v r v' r' -> Cas_ok v r -> cas_room r (item_count op) ->
  issued (item_count op) (answered_tokens out) v r v' r'.
Proof.
  assert (forall n, 0 <= len n) as Hpos by (intros; apply (@len_nonneg (bytes * Z))).
  intros Hs Hok Hroom.
  destruct op as [items|p mode|keys|keys ttl|op|key suffix|key ttl guard|names|name|name g0| |],
    out; try done; cbn [op_spec item_count answered_tokens] in *.
  - destruct Hs as (applied & -> & He).
    replace (sa_cas <$> applied) with (concat ((fun a => [sa_cas a]) <$> applied)).
    2:{ clear. induction applied as [|a l IH]; [done|]. cbn. by f_equal. }
    eapply each_issued; [|done..]. intros q a v1 r1 v2 r2 (rec0 & _ & Hx) Hok1 Hroom1.
    destruct (step_issued _ _ _ _ _ _ _ Hx (stamps_set _ _ _ _ _) Hok1 Hroom1) as (ch & Hv & H).
    injection Hv as <- <-. cbn [sa_cas].
    by rewrite <- (stamps_set now_ms (cas_token cfg r1) q rec0 (seen now_ms v1 r1 (ps_key q)) _ _ eq_refl).
  - destruct Hs as (rec0 & _ & Hx).
    destruct (step_issued _ _ _ _ _ _ _ Hx (stamps_conditional _ _ _ _ _ _ _ _) Hok Hroom) as (ch & Hv & H).
    rewrite (conditional_token _ _ _ _ _ _ _ _ Hv). destruct ch; try done.
    by rewrite (stamps_conditional _ _ _ _ _ _ _ _ _ _ Hv) in H.
  - apply (keys_issued (fun k => k) (fun k v r => spec_delete (seen now_ms v r k)) _ hits);
      [intros; apply stamps_delete|done..].
  - apply (keys_issued (fun k => k)
      (fun k v r => spec_touch now_ms (cas_token cfg r) ttl (seen now_ms v r k)) _ hits);
      [intros; apply stamps_touch|done..].
  - destruct (step_issued _ _ _ _ _ _ _ Hs (stamps_arithmetic _ _ _ _ _ _) Hok Hroom) as (ch & _ & H).
    by eapply issued_none.
  - destruct (step_issued _ _ _ _ _ _ _ Hs (stamps_append _ _ _ _ _) Hok Hroom) as (ch & _ & H).
    by eapply issued_none.
  - destruct (step_issued _ _ _ _ _ _ _ Hs (stamps_expire _ _ _ _ _) Hok Hroom) as (ch & _ & H).
    by eapply issued_none.
  - destruct Hs as (Hc & Hcas & _). eapply issued_le; [by eapply created_issued|done].
  - destruct Hs as ((Hm & _) & Hmeta & -> & _). eapply issued_le; [apply issued_same; try done|lia].
    + intros k. left. unfold recs. by rewrite Hm.
    + by apply disk_watermark_meta.
  - destruct Hs as ((Hm & _) & Hmeta & Hcas & _). eapply issued_le; [apply issued_same; try done|lia].
    + intros k. left. unfold recs. by rewrite Hm.
    + by apply disk_watermark_meta.
  - destruct Hs as (_ & _ & Hr & _ & _ & _ & _ & -> & Hmeta).
    eapply issued_le; [apply issued_same; try done|lia].
    + intros k. right. by rewrite Hr.
    + unfold disk_watermark. rewrite Hmeta. by rewrite lookup_insert_ne.
  - destruct Hs as [-> ->]. by apply issued_refl.
Qed.

Lemma refused_issued op e v r v' r' :
  op_refused cfg now_ms op e v r v' r' -> Cas_ok v r -> issued 0 [] v r v' r'.
Proof.
  intros Hs Hok. destruct op; try done; try (destruct Hs as (_ & -> & ->); by apply issued_refl).
  destruct Hs as (_ & Hc & Hcas). by eapply created_issued.
Qed.

(** ** Batches *)

Definition batch_items (batch : list WriteOp) : Z := foldr (fun op n => item_count op + n) 0 batch.

Definition batch_tokens (outs : list (Result StoreError WriteOutcome)) : list Z :=
  concat ((fun o => match o with Ok out => answered_tokens out | _ => [] end) <$> outs).

Lemma item_count_nonneg op : 0 <= item_count op.
Proof. destruct op; cbn; try lia; apply len_nonneg. Qed.

Lemma batch_items_nonneg batch : 0 <= batch_items batch.
Proof.
  induction batch as [|op batch IH]; [done|]. cbn. change (foldr _ 0 batch) with (batch_items batch).
  pose proof (item_count_nonneg op). lia.
Qed.

Lemma ran_issued batch outs v r v' r' :
  ran cfg now_ms batch outs v r v' r' -> Cas_ok v r -> cas_room r (batch_items batch) ->
  issued (batch_items batch) (batch_tokens outs) v r v' r'.
Proof.
  intros Hran. induction Hran as [v r|op out batch outs v r v1 r1 v2 r2 Hs Hran IH
    |op e batch outs v r v1 r1 v2 r2 Hp Hs Hran IH]; intros Hok Hroom.
  - by apply issued_refl.
  - cbn [batch_items foldr] in *. change (foldr _ 0 batch) with (batch_items batch) in *.
    pose proof (item_count_nonneg op). pose proof (batch_items_nonneg batch).
    assert (issued (item_count op) (answered_tokens out) v r v1 r1) as H1.
    { apply op_issued; [done|done|]. eapply cas_room_le; [done|lia]. }
    eapply issued_trans; [done|]. pose proof H1 as (Hok1 & _ & Hn & _).
    apply IH; [done|]. by eapply cas_room_after.
  - cbn [batch_items foldr] in *. change (foldr _ 0 batch) with (batch_items batch) in *.
    pose proof (item_count_nonneg op). pose proof (batch_items_nonneg batch).
    assert (issued (item_count op) [] v r v1 r1) as H1.
    { eapply issued_le; [by eapply refused_issued|done]. }
    eapply (issued_trans _ _ []); [done|]. pose proof H1 as (Hok1 & _ & Hn & _).
    apply IH; [done|]. by eapply cas_room_after.
Qed.

(** A shard's tokens are its own: no other shard's stripe meets it. *)
Lemma token_stripe c : token_of c mod shard_count cfg = shard_index cfg.
Proof. unfold token_of. rewrite Z.add_comm, Z.mod_add by lia. by apply Z.mod_small. Qed.

Variable wcfg : WriteConfig.
Variable info : EnvInfo.
Variable D : bytes -> Prop.
Context {ET : ErrorText}.
Hypothesis D_separates : forall k k', D k -> D k' -> xxh3_64 k' = xxh3_64 k -> k' = k.
Hypothesis now_sane : 0 <= now_ms < U64_MAX.

(** What a batch that commits does to the tokens. *)
Lemma commit_batch_issued env r batch maintenance pending :
  Agrees (bucket_granularity_ms cfg) D (view env) r -> Forall (op_ready D) batch ->
  next_id (ram_tags r) + batch_creations batch <= U32_MAX ->
  Cas_ok (view env) r -> cas_room r (batch_items batch) ->
  let t := commit_batch cfg wcfg info now_ms env r batch maintenance pending in
  tn_result t = Ok () ->
  exists outs, tn_events t = replies outs ++ (if needs_sync batch then [Ev_Sync] else [])
    /\ issued (batch_items batch) (batch_tokens outs) (view env) r (view (tn_env t)) (tn_ram t).
Proof.
  intros Ha Hops Hb Hok Hroom t Ht.
  destruct (commit_batch_ok cfg wcfg info now_ms D D_separates now_sane env r batch maintenance pending
    Ha Hops Hb) as [_ Hends]. fold t in Hends. unfold batch_ends in Hends. rewrite Ht in Hends.
  destruct Hends as (outs & v1 & r1 & Hran & (Hrecs & _ & Hmeta) & _ & [Hcas _] & _ & Hev).
  pose proof (ran_issued _ _ _ _ _ _ Hran Hok Hroom) as H1.
  exists outs. split; [done|].
  replace (batch_items batch) with (batch_items batch + 0) by lia.
  rewrite <- (app_nil_r (batch_tokens outs)).
  eapply issued_trans; [exact H1|]. apply issued_same; [done| |done|by destruct H1].
  by apply disk_watermark_meta.
Qed.

End Tokens.

(** ** The identity rows survive everything *)

Definition identity_key (k : bytes) : Prop :=
  k = meta_key_SCHEMA_VERSION \/ k = meta_key_SHARD_INDEX \/ k = meta_key_SHARD_COUNT.

Definition meta_kept (v v' : Views) : Prop :=
  (forall k, identity_key k -> v_meta v' !! k = v_meta v !! k)
  /\ (is_Some (disk_watermark v) -> is_Some (disk_watermark v')).

#[global] Instance meta_kept_refl : Reflexive meta_kept.
Proof. by intros v. Qed.

#[global] Instance meta_kept_trans : Transitive meta_kept.
Proof.
  intros v1 v2 v3 [H1 H2] [K1 K2]. split; [|auto]. intros k Hk. by rewrite K1, H1.
Qed.

Lemma meta_kept_same v v' : v_meta v' = v_meta v -> meta_kept v v'.
Proof. intros H. unfold meta_kept, disk_watermark. by rewrite H. Qed.

Lemma identity_not k : identity_key k -> k <> meta_key_EPOCH /\ k <> meta_key_CAS_WATERMARK.
Proof. by intros [->|[->| ->]]. Qed.

Lemma meta_kept_epoch v v' raw :
  v_meta v' = <[meta_key_EPOCH := raw]> (v_meta v) -> meta_kept v v'.
Proof.
  intros H. split.
  - intros k Hk. destruct (identity_not _ Hk). by rewrite H, lookup_insert_ne.
  - unfold disk_watermark. by rewrite H, lookup_insert_ne.
Qed.

Lemma meta_kept_cas v r : meta_kept v (cas_views v r).
Proof.
  unfold cas_views. destruct (cas_extends r); [|done]. split; unfold vput; cbn [vset v_meta vget].
  - intros k Hk. destruct (identity_not _ Hk). by rewrite lookup_insert_ne.
  - intros _. unfold disk_watermark. cbn [v_meta]. rewrite lookup_insert_eq. unfold len.
    rewrite length_le_bytes. cbn. by eexists.
Qed.

Section Life.
Context {T : Type} {BT : Backend T} {BL : BackendLaws T} {HS : Hash} {FT : FloatText} {ET : ErrorText}.

Lemma changed_meta cfg k ch v r v' r' : changed cfg k ch v r v' r' -> meta_kept v v'.
Proof.
  intros [Hch _]. destruct ch.
  - by destruct Hch as [-> _].
  - destruct Hch as (_ & Hm & _). etrans; [apply meta_kept_cas|by apply meta_kept_same].
  - destruct Hch as (_ & Hm & _). by apply meta_kept_same.
Qed.

Lemma key_step_meta {A} cfg k (verdict : Views -> Ram -> Verdict A) a v r v' r' :
  key_step cfg k verdict a v r v' r' -> meta_kept v v'.
Proof. intros (ch & _ & H). by eapply changed_meta. Qed.

Lemma each_meta {X A} (R : X -> A -> Views -> Ram -> Views -> Ram -> Prop) l ys v r v' r' :
  (forall x a v r v' r', R x a v r v' r' -> meta_kept v v') ->
  each R l ys v r v' r' -> meta_kept v v'.
Proof. intros Hstep He. induction He; [done|]. etrans; [by eapply Hstep|done]. Qed.

Lemma op_meta cfg now_ms op out v r v' r' : op_spec cfg now_ms op out v r v' r' -> meta_kept v v'.
Proof.
  intros Hs. destruct op, out; try done; cbn [op_spec] in Hs.
  - destruct Hs as (applied & _ & He). eapply each_meta; [|done].
    intros x a v1 r1 v2 r2 (rec0 & _ & H). by eapply key_step_meta.
  - destruct Hs as (rec0 & _ & H). by eapply key_step_meta.
  - eapply each_meta; [|done]. intros *. apply key_step_meta.
  - eapply each_meta; [|done]. intros *. apply key_step_meta.
  - by eapply key_step_meta.
  - by eapply key_step_meta.
  - by eapply key_step_meta.
  - destruct Hs as ((_ & _ & H & _) & _). by apply meta_kept_same.
  - destruct Hs as (_ & H & _). by apply meta_kept_same.
  - destruct Hs as (_ & H & _). by apply meta_kept_same.
  - destruct Hs as (_ & _ & _ & _ & _ & _ & _ & _ & H). by eapply meta_kept_epoch.
  - by destruct Hs as [-> _].
Qed.

Lemma refused_meta cfg now_ms op e v r v' r' : op_refused cfg now_ms op e v r v' r' -> meta_kept v v'.
Proof.
  intros H. destruct op; try done; try (by destruct H as (_ & -> & _)).
  destruct H as (_ & (_ & _ & H & _) & _). by apply meta_kept_same.
Qed.

Lemma ran_meta cfg now_ms batch outs v r v' r' : ran cfg now_ms batch outs v r v' r' -> meta_kept v v'.
Proof.
  induction 1; [done|..]; (etrans; [|done]); [by eapply op_meta|by eapply refused_meta].
Qed.

Lemma maintained_meta v v' : maintained v v' -> meta_kept v v'.
Proof. intros (_ & _ & H). by apply meta_kept_same. Qed.

(** ** Histories *)

Variable config : StoreConfig.
Variable index count : Z.
Variable D : bytes -> Prop.
Hypothesis D_separates : forall k k', D k -> D k' -> xxh3_64 k' = xxh3_64 k -> k' = k.
Hypothesis index_fits : fits 32 index.
Hypothesis count_fits : fits 32 count.
Variable open_backend : option T -> Result StoreError T.
Hypothesis open_law : forall found,
  match open_backend found with
  | Ok t => view t = default empty_views (view <$> found)
  | Err _ => True
  | Panic _ => False
  end.

Abbreviation g := (sc_bucket_granularity_ms config).
Abbreviation cfg := (engine_config config index count).

(** What the machine's disk may come back with after a crash: nothing yet, or
    a committed environment, paired with the memory of that moment. *)
Definition commit_point : Type := option (T * Ram).

Definition flags : EnvFlags := env_flags (sc_durability config) (sc_write_map config).

(** A commit that returns has reached the device, or is one more the machine
    may come back with. *)
Definition committed (disk : list commit_point) (env : T) (r : Ram) : list commit_point :=
  if sync_on_commit flags then [Some (env, r)] else disk ++ [Some (env, r)].

(** The life of a shard, with the commit points a crash of the machine may
    leave it at.  Any clock may be read in a turn, any batch formed of valid
    operations taken, with whatever the engine reports of its size.  The
    process may die at any moment between two commits (inside a transaction,
    which is then lost) and be started again: what it had committed is with the
    operating system.  [Backend::sync], the periodic one, the one a caller asks
    for and the one at shutdown, makes the last commit the only point left.
    When the machine dies, the shard is opened again on any of the points, if
    the flags keep the database whole; a restart may wipe. *)
Inductive life : list commit_point -> T -> Ram -> Prop :=
| life_start env r c :
    Engine_open config index count open_backend None = Ok (env, r, c) -> life (committed [None] env r) env r
| life_turn disk env r now_ms info batch due pending :
    life disk env r -> 0 <= now_ms < U64_MAX -> Forall (op_ready D) batch ->
    next_id (ram_tags r) + batch_creations batch <= U32_MAX ->
    let t := writer_turn cfg (sc_write config) info now_ms env r batch due pending in
    life (committed disk (tn_env t) (tn_ram t)) (tn_env t) (tn_ram t)
| life_sync disk env r : life disk env r -> life [Some (env, r)] env r
| life_restart disk env r env' r' c :
    life disk env r -> Engine_open config index count open_backend (Some env) = Ok (env', r', c) ->
    life (committed disk env' r') env' r'
| life_os_crash disk env r found env' r' c :
    life disk env r -> crash_consistent flags = true -> found ∈ disk ->
    Engine_open config index count open_backend (fst <$> found) = Ok (env', r', c) ->
    life (committed [found] env' r') env' r'.

(** What holds between turns. *)
Definition healthy (v : Views) (r : Ram) : Prop :=
  Agrees g D v r /\ Stamped index count v /\ is_Some (disk_watermark v).

Definition empty_ram : Ram := mkRam 0 0 0 (TagRegistry_new 0) Pressure_Normal.

Lemma empty_agrees : Agrees g D empty_views empty_ram /\ disk_watermark empty_views = Some 0
  /\ Unstamped empty_views.
Proof.
  assert (forall n, disk_tag empty_views n = None) as Hd by (intros n; reflexivity).
  split; [|done]. destruct (empty_Inv g empty_views) as [Hi _]; [done..|].
  constructor; try done. by intros k [x Hx].
Qed.

(** Opening: from nothing, or from what a healthy shard left. *)
Lemma open_healthy found env r c :
  match found with None => True | Some e => exists r0, healthy (view e) r0 end ->
  Engine_open config index count open_backend found = Ok (env, r, c) -> healthy (view env) r.
Proof.
  intros Hf Ho.
  assert (exists id r0 w, Agrees g D (kept config found) r0 /\ disk_watermark (kept config found) = Some w
    /\ Identity id (kept config found)) as (id & r0 & w & Ha & Hw & Hid).
  { destruct empty_agrees as (E1 & E2 & E3). unfold kept. destruct (sc_wipe_on_start config).
    { exists None, empty_ram, 0. split_and!; [exact E1|exact E2|exact E3]. }
    destruct found as [e|]; [|exists None, empty_ram, 0; split_and!; [exact E1|exact E2|exact E3]].
    destruct Hf as (r0 & H0 & H1 & [w H2]). by exists (Some (index, count)), r0, w. }
  pose proof (Engine_open_ok config index count D index_fits count_fits open_backend open_law
    found id r0 w Ha Hw Hid) as H.
  rewrite Ho in H. destruct H as (H1 & H2 & _ & _ & _ & _ & _ & _ & H3 & _).
  split_and!; [done..|by eexists].
Qed.

Lemma turn_healthy env r now_ms info batch due pending :
  healthy (view env) r -> 0 <= now_ms < U64_MAX -> Forall (op_ready D) batch ->
  next_id (ram_tags r) + batch_creations batch <= U32_MAX ->
  let t := writer_turn cfg (sc_write config) info now_ms env r batch due pending in
  healthy (view (tn_env t)) (tn_ram t) /\ tn_result t = Ok ().
Proof.
  intros (Ha & Hs & Hw) Hnow Hops Hb t.
  destruct (writer_turn_ok cfg (sc_write config) info now_ms D D_separates Hnow env r batch due pending
    Ha Hops Hb) as (Hag & Hok & _ & Hres). fold t in Hag, Hok, Hres.
  destruct (commit_batch_ok cfg (sc_write config) info now_ms D D_separates Hnow env r batch due pending
    Ha Hops Hb) as (_ & Hends). unfold batch_ends in Hends.
  assert (meta_kept (view env) (view (tn_env t))) as [Hid Hwm].
  { destruct (tn_result (commit_batch _ _ _ _ _ _ _ _ _)) as [[]|e|why]; [| |done].
    - rewrite Hres. destruct Hends as (outs & v1 & r1 & Hran & Hmt & _).
      etrans; [by eapply ran_meta|by apply maintained_meta].
    - apply turn_recovers_effect in Hres as [Hmt _]. by apply maintained_meta. }
  split; [|done]. split_and!; [done| |by apply Hwm].
  eapply (Identity_meta (Some (index, count))); [|exact Hs]. exact Hid.
Qed.

(** A commit point a healthy shard was at. *)
Definition sound_point (found : commit_point) : Prop :=
  match found with None => True | Some (env, r) => healthy (view env) r end.

Lemma committed_sound disk env r :
  Forall sound_point disk -> healthy (view env) r -> Forall sound_point (committed disk env r).
Proof.
  intros Hd Hh. unfold committed. destruct (sync_on_commit flags); [by constructor|].
  apply Forall_app. split; [done|by constructor].
Qed.

Lemma point_healthy found env r c :
  sound_point found -> Engine_open config index count open_backend (fst <$> found) = Ok (env, r, c) ->
  healthy (view env) r.
Proof.
  intros Hf Ho. eapply open_healthy; [|exact Ho].
  destruct found as [[e r0]|]; cbn; [by exists r0|done].
Qed.

Lemma life_healthy disk env r : life disk env r -> healthy (view env) r /\ Forall sound_point disk.
Proof.
  induction 1 as [env r c Ho|disk env r now_ms info batch due pending Hl [IH Hd] Hnow Hops Hb t
    |disk env r Hl [IH Hd]|disk env r env' r' c Hl [IH Hd] Ho|disk env r found env' r' c Hl [IH Hd] Hc Hin Ho].
  - assert (healthy (view env) r) as Hh by by eapply (open_healthy None).
    split; [done|]. apply committed_sound; [by constructor|done].
  - destruct (turn_healthy env r now_ms info batch due pending IH Hnow Hops Hb) as [Hh _].
    split; [exact Hh|]. by apply committed_sound.
  - split; [done|by constructor].
  - assert (healthy (view env') r') as Hh by by apply (point_healthy (Some (env, r)) env' r' c).
    split; [done|by apply committed_sound].
  - rewrite Forall_forall in Hd. pose proof (Hd _ Hin) as Hs.
    assert (healthy (view env') r') as Hh by by apply (point_healthy found env' r' c).
    split; [done|]. apply committed_sound; [by constructor|done].
Qed.

(** The last commit is always one of the points; it is the only one after a
    sync, and always when every commit syncs. *)
Lemma life_latest disk env r :
  life disk env r -> last disk = Some (Some (env, r)) /\ (sync_on_commit flags = true -> disk = [Some (env, r)]).
Proof.
  assert (forall disk env r, last (committed disk env r) = Some (Some (env, r))
    /\ (sync_on_commit flags = true -> committed disk env r = [Some (env, r)])) as H.
  { intros d e x. unfold committed. destruct (sync_on_commit flags); [done|]. by rewrite last_snoc. }
  induction 1; apply H || done.
Qed.

(** What a client was shown at a commit point, and the tags it had. *)
Definition seen_at (found : commit_point) (now_ms : Z) (k : bytes) : option RecordRef :=
  match found with Some (env, r) => seen now_ms (view env) r k | None => None end.

Definition tag_at (found : commit_point) (n : bytes) : option (Z * Z) :=
  match found with Some (env, _) => disk_tag (view env) n | None => None end.

(** Opening on a commit point. *)
Definition reopens_at (found : commit_point) : Prop :=
  match Engine_open config index count open_backend (fst <$> found) with
  | Ok (env', r', _) =>
      healthy (view env') r'
      /\ (forall now_ms k, seen now_ms (view env') r' k = seen_at found now_ms k)
      /\ (forall n, disk_tag (view env') n = tag_at found n)
  | Err e => (may_fail /\ poisons_transaction e = true) \/ open_backend (fst <$> found) = Err e
  | Panic _ => False
  end.

Lemma sound_point_reopens found :
  sound_point found -> sc_wipe_on_start config = false -> MIN_MAP_SIZE <= sc_map_size config ->
  reopens_at found.
Proof.
  intros Hs Hwipe Hmap. unfold reopens_at.
  assert (exists id r0 w, Agrees g D (kept config (fst <$> found)) r0
    /\ disk_watermark (kept config (fst <$> found)) = Some w /\ Identity id (kept config (fst <$> found))
    /\ (forall i n, id = Some (i, n) -> (i, n) = (index, count))
    /\ (forall now_ms k, seen now_ms (kept config (fst <$> found)) r0 k = seen_at found now_ms k)
    /\ (forall n, disk_tag (kept config (fst <$> found)) n = tag_at found n))
    as (id & r0 & w & Ha & Hw & Hid & Hown & Hseen & Htag).
  { unfold kept. rewrite Hwipe. destruct found as [[e r0]|]; cbn in *.
    - destruct Hs as (H0 & H1 & [w H2]). exists (Some (index, count)), r0, w.
      split_and!; try done. by intros i n [= -> ->].
    - destruct empty_agrees as (E1 & E2 & E3). exists None, empty_ram, 0.
      by split_and!. }
  pose proof (Engine_open_ok config index count D index_fits count_fits open_backend open_law
    (fst <$> found) id r0 w Ha Hw Hid) as H.
  destruct (Engine_open _ _ _ _ _) as [[[env' r'] c]|e|why] eqn:Eo; [| |done].
  - destruct H as (_ & _ & _ & _ & Hs' & Hd & _). split; [by eapply point_healthy|].
    split; [intros now_ms k; by rewrite Hs'|intros n; by rewrite Hd].
  - rewrite Hwipe in H. destruct H as [H|[H|[H|(i & n & Hi & Hne)]]]; auto; [lia|].
    by apply Hown in Hi.
Qed.


(** ** Tokens, from one opening to the next *)

(** The tokens the writer's answers carry. *)
Definition event_tokens (events : list Event) : list Z :=
  concat ((fun ev => match ev with Ev_Reply _ (Ok out) => answered_tokens out | _ => [] end) <$> events).

(** A stretch of batches that all commit, with the tokens they answered. *)
Inductive served (env0 : T) (r0 : Ram) : list Z -> T -> Ram -> Prop :=
| served_none : served env0 r0 [] env0 r0
| served_batch toks env r now_ms info batch due pending :
    served env0 r0 toks env r -> 0 <= now_ms < U64_MAX -> Forall (op_ready D) batch ->
    next_id (ram_tags r) + batch_creations batch <= U32_MAX -> cas_room cfg r (batch_items batch) ->
    let t := commit_batch cfg (sc_write config) info now_ms env r batch due pending in
    tn_result t = Ok () ->
    served env0 r0 (toks ++ event_tokens (tn_events t)) (tn_env t) (tn_ram t).

(** The counters of the tokens stored in [v] are at most [w]. *)
Definition counted (w : Z) (v : Views) : Prop :=
  forall k rec, recs v !! k = Some rec -> exists c, 0 <= c <= w /\ cas rec = token_of cfg c.

Lemma event_tokens_replies outs batch :
  event_tokens (replies outs ++ (if needs_sync batch then [Ev_Sync] else [])) = batch_tokens outs.
Proof.
  unfold event_tokens, batch_tokens, replies. rewrite fmap_app, concat_app.
  assert (concat ((fun ev => match ev with Ev_Reply _ (Ok out) => answered_tokens out | _ => [] end)
    <$> (if needs_sync batch then [Ev_Sync] else [])) = []) as -> by by destruct (needs_sync batch).
  rewrite app_nil_r, fmap_imap. f_equal.
  apply list_eq. intros i. rewrite list_lookup_imap, list_lookup_fmap.
  by destruct (outs !! i) as [[]|].
Qed.

Hypothesis shard_ok : 0 <= index < count.

Lemma cfg_stripe : 0 <= shard_index cfg < shard_count cfg.
Proof. cbn. lia. Qed.

Lemma served_issued env0 r0 toks env r :
  Agrees g D (view env0) r0 -> Cas_ok cfg (view env0) r0 -> served env0 r0 toks env r ->
  Agrees g D (view env) r /\ exists n, issued cfg n toks (view env0) r0 (view env) r.
Proof.
  intros Ha0 Hok0 Hs. induction Hs as [|toks env r now_ms info batch due pending Hs IH Hnow Hops Hb Hroom t Ht].
  { split; [done|]. exists 0. by apply issued_refl. }
  destruct IH as (Ha & n & Hi). pose proof Hi as (Hok & _).
  destruct (commit_batch_ok cfg (sc_write config) info now_ms D D_separates Hnow env r batch due pending
    Ha Hops Hb) as [Ha' _]. split; [exact Ha'|].
  destruct (commit_batch_issued cfg now_ms cfg_stripe (sc_write config) info D D_separates Hnow
    env r batch due pending Ha Hops Hb Hok Hroom Ht) as (outs & Hev & Hi').
  unfold t. rewrite Hev, event_tokens_replies. exists (n + batch_items batch).
  by eapply issued_trans.
Qed.

Lemma token_of_mono c c' : token_of cfg c < token_of cfg c' <-> c < c'.
Proof. unfold token_of. cbn. nia. Qed.

(** C5 Tokens, over a run of a shard from its opening on: as long as every
    batch has committed, the tokens answered are strictly increasing, in the
    shard's own stripe (so no two shards ever answer the same one) and above
    everything the previous runs had counted; every stored record is an old one
    or carries one of the run's; and the watermark on disk is above them all, so
    that the next opening, for which it holds again, resumes above them.  (A
    batch that is aborted after it extended the reserve breaks this: memory
    then believes in a reserve that is not on disk.) *)
Theorem tokens_never_reused found id rr w env0 r0 c toks env r :
  Agrees g D (kept config found) rr -> disk_watermark (kept config found) = Some w ->
  Identity id (kept config found) -> 0 <= w -> counted w (kept config found) ->
  Engine_open config index count open_backend found = Ok (env0, r0, c) ->
  served env0 r0 toks env r ->
  StronglySorted Z.lt toks
  /\ Forall (fun tok => token_of cfg w < tok /\ tok mod count = index) toks
  /\ (forall k rec, recs (view env) !! k = Some rec ->
        recs (kept config found) !! k = Some rec \/ token_of cfg w < cas rec)
  /\ exists w', w <= w' /\ disk_watermark (view env) = Some w' /\ counted w' (view env)
       /\ Forall (fun tok => tok <= token_of cfg w') toks.
Proof.
  intros Ha Hw Hid Hpos Hc Ho Hs.
  pose proof (Engine_open_ok config index count D index_fits count_fits open_backend open_law
    found id rr w Ha Hw Hid) as H. rewrite Ho in H.
  destruct H as (Ha0 & _ & _ & Hmain & _ & _ & Hn0 & Hm0 & Hd0 & _).
  assert (recs (view env0) = recs (kept config found)) as Hrecs by (unfold recs; by rewrite Hmain).
  assert (Cas_ok cfg (view env0) r0) as Hok0.
  { constructor; rewrite Hn0; [lia|]. intros k rec. rewrite Hrecs. apply Hc. }
  destruct (served_issued env0 r0 toks env r Ha0 Hok0 Hs) as (_ & n & [Hnext Hstored] & Hres & Hle & Hnew & cs & -> & Hsort & Hwin).
  rewrite Hn0 in *. rewrite Forall_forall in Hwin. split_and!.
  - clear -Hsort shard_ok. induction Hsort as [|x l Hl IH Hx]; [constructor|]. cbn. constructor; [done|].
    apply Forall_fmap. eapply Forall_impl; [exact Hx|]. intros y. cbn. by rewrite token_of_mono.
  - apply Forall_fmap, Forall_forall. intros x Hx. cbn. split; [apply token_of_mono; by apply Hwin|].
    pose proof (token_stripe cfg cfg_stripe x) as Hst. cbn in Hst. by replace (Z.max count 1) with count in Hst by lia.
  - intros k rec Hk. rewrite <- Hrecs. destruct (Hnew k rec Hk) as [?|(x & Hx & ->)]; [by left|right].
    apply token_of_mono. lia.
  - exists (ram_cas_watermark r). split_and!; [lia|apply Hres; unfold Reserved; by rewrite Hd0, Hm0| |].
    + intros k rec Hk. destruct (Hstored k rec Hk) as (x & Hx & ->). exists x. split; [lia|done].
    + apply Forall_fmap, Forall_forall. intros x Hx. cbn.
      assert (x <= ram_cas_watermark r) as Hxw by (specialize (Hwin x Hx); lia).
      unfold token_of. cbn. nia.
Qed.

End Life.
