(* ===== verification/Listing.v ===== *)
(** [vash-store/src/listing.rs] and the listings of [store.rs]: the cursor a key
    listing resumes from, one shard's scan, and a page across shards.

    A page opens its own transaction per shard and keeps nothing between
    requests: the position travels to the client as the cursor. *)

From S2P Require Import Prelude Bytes Core Record Glob Clock Arith Command Backend.
From S2P Require Import IndexKeys Tags Engine Apply Cache Read.

(** ** The cursor *)

Definition SHARD_PREFIX_LEN : Z := 2.

(** [shard as u16], little-endian, ahead of the key. *)
Definition cursor_encode (shard : nat) (key : bytes) : bytes :=
  le_bytes 2 (wrapping 16 (Z.of_nat shard)) ++ key.

Definition bad {A} (detail : String.string) : Result StoreError A := Err (SE_Core (BadCursor detail)).

Definition cursor_decode (cursor : bytes) (shards : nat) : Result StoreError (nat * option bytes) :=
  match cursor with
  | [] => Ok (0%nat, None)
  | _ =>
      match split_at 2 cursor with
      | None => bad "shorter than its shard index"
      | Some (raw, key) =>
          let shard := Z.to_nat (le_val raw) in
          if (shards <=? shard)%nat then bad "names a shard this server does not have"
          else if len key =? 0 then bad "names no key"
          else if MAX_KEY_LEN <? len key then bad "key is longer than any key can be"
          else Ok (shard, Some key)
      end
  end.

(** ** One shard's scan *)

Record ShardScan := mkShardScan {
  sn_entries : list ListEntry;
  sn_scanned : Z;
  sn_stopped_at : option bytes;
  sn_budget_exhausted : bool
}.

Definition ShardScan_default : ShardScan := mkShardScan [] 0 None false.

Section Scan.
Context {T : Type} {BT : Backend T}.
Variable request : ListRequest.
Variable now_ms : Z.

(** The entry a row contributes: a live record whose key matches; a row that
    does not parse is skipped. *)
Definition listed (ram : Ram) (row : bytes * bytes) : option ListEntry :=
  let '(key, blob) := row in
  match RecordRef_parse blob with
  | Ok record =>
      if is_alive record now_ms (ram_epoch ram) (lookup_generation (ram_tags ram))
         && ListRequest_matches request key
      then Some (ListEntry_record key (cas record) (expires_at_ms record)) else None
  | _ => None
  end.

Fixpoint scan_loop (ram : Ram) (limit budget : Z) (rows : list (bytes * bytes)) (scan : ShardScan)
    : ShardScan :=
  match rows with
  | [] => scan
  | row :: rows' =>
      let scanned := sn_scanned scan + 1 in
      let entries := sn_entries scan ++ (match listed ram row with Some e => [e] | None => [] end) in
      if limit <=? len entries then mkShardScan entries scanned (Some row.1) (sn_budget_exhausted scan)
      else if budget <=? scanned then mkShardScan entries scanned (Some row.1) true
      else scan_loop ram limit budget rows' (mkShardScan entries scanned (sn_stopped_at scan) (sn_budget_exhausted scan))
  end.

(** [Engine::list_keys]. *)
Definition engine_list_keys (env : T) (ram : Ram) (after : option bytes) (limit budget : Z)
    : Result StoreError ShardScan :=
  rtxn ← txn_begin env;
  let bounds := match after with Some key => (Excluded key, Unbounded) | None => FULL end in
  rows ← txn_range rtxn Main bounds;
  Ok (scan_loop ram limit budget rows ShardScan_default).

(** ** A page across shards *)

Fixpoint list_keys_loop (max_scan : Z) (shards : list (T * Ram)) (index : nat) (after : option bytes)
    (listing : Listing) : Result StoreError Listing :=
  match shards with
  | [] => Ok listing
  | (env, ram) :: shards' =>
      let remaining := lr_limit request - len (l_entries listing) in
      let budget := saturating_sub max_scan (l_scanned listing) in
      scan ← engine_list_keys env ram after remaining budget;
      let entries := l_entries listing ++ sn_entries scan in
      let scanned := l_scanned listing + sn_scanned scan in
      match sn_stopped_at scan with
      | Some stopped =>
          Ok (mkListing entries scanned (Some (cursor_encode index stopped)) (sn_budget_exhausted scan))
      | None =>
          list_keys_loop max_scan shards' (S index) None
            (mkListing entries scanned (l_cursor listing) (l_truncated listing))
      end
  end.

Definition list_keys (shards : list (T * Ram)) (max_scan : Z) : Result StoreError Listing :=
  '(start, after) ← cursor_decode (lr_cursor request) (length shards);
  list_keys_loop max_scan (drop start shards) start after Listing_default.

End Scan.

(** What a client does: ask again from the cursor it was given, until there is
    none. *)
Fixpoint walk {T} {BT : Backend T} (limit : Z) (pattern : bytes) (now_ms max_scan : Z)
    (shards : list (T * Ram)) (fuel : nat) (cursor : bytes) : Result StoreError (option (list ListEntry)) :=
  match fuel with
  | O => Ok None
  | S fuel' =>
      page ← list_keys (mkListRequest limit cursor pattern) now_ms shards max_scan;
      match l_cursor page with
      | None => Ok (Some (l_entries page))
      | Some cursor' =>
          rest ← walk limit pattern now_ms max_scan shards fuel' cursor';
          Ok (option_map (app (l_entries page)) rest)
      end
  end.

(** ** The cursor's round trip *)

Lemma cursor_decode_encode shard key shards :
  (shard < shards)%nat -> Z.of_nat shards <= 65536 -> valid_key key ->
  cursor_decode (cursor_encode shard key) shards = Ok (shard, Some key).
Proof.
  intros Hs Hn [H1 H2]. unfold cursor_decode, cursor_encode.
  destruct (le_bytes 2 (wrapping 16 (Z.of_nat shard)) ++ key) as [|b l] eqn:E.
  { apply (f_equal length) in E. by rewrite length_app, length_le_bytes in E. }
  rewrite <- E, split_at_app by apply length_le_bytes.
  assert (fits 16 (Z.of_nat shard)) as Hf by (unfold fits; change (2 ^ 16) with 65536; lia).
  rewrite (le_val_bytes_fits 16) by (rewrite ?wrapping_small; done). rewrite wrapping_small, Nat2Z.id by done.
  destruct (Nat.leb_spec shards shard); [lia|].
  destruct (Z.eqb_spec (len key) 0); [lia|].
  by destruct (Z.ltb_spec MAX_KEY_LEN (len key)); [lia|].
Qed.

(** A decoded cursor names a shard there is, and a key there could be. *)
Lemma cursor_decode_ok cursor shards start after :
  cursor_decode cursor shards = Ok (start, after) ->
  (cursor = [] /\ start = 0%nat /\ after = None)
  \/ exists key, after = Some key /\ (start < shards)%nat /\ valid_key key.
Proof.
  unfold cursor_decode. destruct cursor as [|b l]; [intros [= <- <-]; by left|].
  destruct (split_at 2 (b :: l)) as [[raw key]|]; [|done].
  destruct (Nat.leb_spec shards (Z.to_nat (le_val raw))); [done|].
  destruct (Z.eqb_spec (len key) 0); [done|].
  destruct (Z.ltb_spec MAX_KEY_LEN (len key)); [done|]. intros [= <- <-]. right.
  exists key. split; [done|]. split; [done|]. unfold valid_key. pose proof (len_nonneg key). lia.
Qed.

(** ** The rows after a position *)

Definition after_rows (m : db_map) (after : option bytes) : list (bytes * bytes) :=
  rows_in m (match after with Some key => (Excluded key, Unbounded) | None => FULL end).

Lemma in_bounds_after a k : in_bounds (Excluded a, Unbounded) k = lex_lt a k.
Proof. unfold in_bounds. cbn [above below fst snd]. apply andb_true_r. Qed.

Lemma filter_all {A} (P : A -> Prop) {HP : forall x, Decision (P x)} (l : list A) :
  (forall x, x ∈ l -> P x) -> filter P l = l.
Proof.
  induction l as [|x l IH]; intros H; [done|]. rewrite filter_cons, decide_True by (apply H; left).
  f_equal. apply IH. intros y Hy. apply H. by right.
Qed.

Lemma filter_after (l : list (bytes * bytes)) n k x :
  StronglySorted key_le l -> NoDup l.*1 -> l !! n = Some (k, x) ->
  filter (fun kv => in_bounds (Excluded k, Unbounded) kv.1 = true) l = drop (S n) l.
Proof.
  intros Hs Hn Hl. rewrite <- (take_drop_middle l n (k, x) Hl) at 1.
  rewrite <- (take_drop_middle l n (k, x) Hl) in Hs, Hn.
  rewrite fmap_app, fmap_cons in Hn. apply NoDup_app in Hn as (_ & Hd & Hn).
  apply NoDup_cons in Hn as [Hk _].
  apply StronglySorted_app in Hs as (Hlt & _ & Hs). apply StronglySorted_cons in Hs as [Hgt _].
  rewrite filter_app, filter_cons, decide_False by (by rewrite in_bounds_after, lex_lt_irrefl).
  rewrite filter_none; [cbn; apply filter_all|].
  - intros [y z] Hy. rewrite in_bounds_after.
    rewrite Forall_forall in Hgt. pose proof (Hgt _ Hy) as Hle. cbn in Hle.
    destruct (lex_le_lt_or_eq k y Hle) as [|<-]; [done|]. exfalso. apply Hk.
    apply list_elem_of_fmap. by exists (k, z).
  - intros [y z] Hy. rewrite in_bounds_after. cbn [fst]. intros Hlt'.
    assert (lex_le y k = true) as Hle by (apply (Hlt (y, z) (k, x)); [done|by left]).
    apply lex_le_not_lt in Hle. congruence.
Qed.

(** Resuming after a row is dropping up to it. *)
Lemma after_rows_drop m after n k x :
  after_rows m after !! n = Some (k, x) -> after_rows m (Some k) = drop (S n) (after_rows m after).
Proof.
  intros Hl. unfold after_rows in *. set (r := match after with Some key => _ | None => _ end) in *.
  rewrite <- (filter_after _ n k x) by (apply rows_in_sorted || apply rows_in_NoDup || done).
  assert ((k, x) ∈ rows_in m r) as [_ Hk]%rows_in_elem by by eapply list_elem_of_lookup_2.
  unfold rows_in. rewrite list_filter_filter. apply list_filter_iff. intros [y z].
  rewrite in_bounds_after. split; [|by intros [? _]]. intros Hky. split; [done|].
  subst r. destruct after as [a|]; [|done]. rewrite in_bounds_after in *.
  by eapply lex_lt_trans.
Qed.

Lemma after_rows_elem m after k x : (k, x) ∈ after_rows m after -> m !! k = Some x.
Proof. by intros [? _]%rows_in_elem. Qed.

(** ** One shard's scan *)

Section Meaning.
Context {T : Type} {BT : Backend T} {BL : BackendLaws T} {HS : Hash}.
Variable request : ListRequest.
Variable now_ms : Z.

(** A scan takes some rows from the front, at least one if there is one, and
    stops on the last one it took or at the end. *)
Definition scan_spec (ram : Ram) (rows : list (bytes * bytes)) (scan0 scan : ShardScan) : Prop :=
  exists n, (n <= length rows)%nat
    /\ sn_entries scan = sn_entries scan0 ++ omap (listed request now_ms ram) (take n rows)
    /\ match sn_stopped_at scan with
       | None => n = length rows
       | Some k => exists i x, n = S i /\ rows !! i = Some (k, x)
       end.

Lemma scan_loop_spec ram limit budget rows scan0 :
  sn_stopped_at scan0 = None ->
  scan_spec ram rows scan0 (scan_loop request now_ms ram limit budget rows scan0).
Proof.
  revert scan0. induction rows as [|[key blob] rows IH]; intros scan0 Hs; cbn [scan_loop].
  { exists 0%nat. rewrite Hs. cbn. by rewrite app_nil_r. }
  set (entries := sn_entries scan0 ++ _).
  assert (entries = sn_entries scan0 ++ omap (listed request now_ms ram) [(key, blob)]) as He.
  { by subst entries. }
  destruct (limit <=? len entries).
  { exists 1%nat. cbn. split; [lia|]. split; [exact He|]. by exists 0%nat, blob. }
  destruct (budget <=? sn_scanned scan0 + 1).
  { exists 1%nat. cbn. split; [lia|]. split; [exact He|]. by exists 0%nat, blob. }
  destruct (IH (mkShardScan entries (sn_scanned scan0 + 1) (sn_stopped_at scan0)
    (sn_budget_exhausted scan0)) Hs) as (n & Hn & Hen & Hst).
  exists (S n). split; [cbn; lia|]. split.
  - rewrite Hen. cbn [sn_entries]. rewrite He, <- app_assoc. f_equal.
    cbn [take omap list_omap]. by destruct (listed _ _ _ _).
  - destruct (sn_stopped_at (scan_loop _ _ _ _ _ _ _)) as [k|]; [|cbn; lia].
    destruct Hst as (i & x & -> & Hi). by exists (S i), x.
Qed.

Lemma engine_list_keys_yields env ram after limit budget :
  yields (engine_list_keys (T:=T) request now_ms env ram after limit budget)
    (scan_loop request now_ms ram limit budget (after_rows (v_main (view env)) after) ShardScan_default).
Proof.
  unfold engine_list_keys. apply begin_yields. intros txn Hv.
  destruct (law_range txn Main (match after with Some key => (Excluded key, Unbounded) | None => FULL end))
    as [->|[He _]].
  - left. cbn. by rewrite Hv.
  - right. by destruct (txn_range txn Main _).
Qed.

(** ** Pages *)

(** What is left to list from a position: rows with their shard. *)
Fixpoint pending (shards : list (T * Ram)) (index : nat) (after : option bytes)
    : list (nat * Ram * (bytes * bytes)) :=
  match shards with
  | [] => []
  | (env, ram) :: shards' =>
      ((fun row => (index, ram, row)) <$> after_rows (v_main (view env)) after)
        ++ pending shards' (S index) None
  end.

Definition entry_of (row : nat * Ram * (bytes * bytes)) : option ListEntry :=
  listed request now_ms row.1.2 row.2.

(** A page: some rows from the front, at least one if it does not end the
    listing, and the cursor names the last of them. *)
Definition page_spec (rows : list (nat * Ram * (bytes * bytes))) (l0 l : Listing) : Prop :=
  exists n, (n <= length rows)%nat
    /\ l_entries l = l_entries l0 ++ omap entry_of (take n rows)
    /\ match l_cursor l with
       | None => n = length rows
       | Some c => exists i index ram k x, n = S i /\ rows !! i = Some (index, ram, (k, x))
                    /\ c = cursor_encode index k
       end.

Lemma omap_tagged (index : nat) (ram : Ram) (rows : list (bytes * bytes)) :
  omap entry_of ((fun row => (index, ram, row)) <$> rows) = omap (listed request now_ms ram) rows.
Proof.
  induction rows as [|row rows IH]; [done|]. cbn. unfold entry_of at 1. cbn.
  by destruct (listed request now_ms ram row); rewrite IH.
Qed.

Lemma list_keys_loop_yields max_scan shards index after l0 :
  l_cursor l0 = None ->
  exists l, yields (list_keys_loop (T:=T) request now_ms max_scan shards index after l0) l
    /\ page_spec (pending shards index after) l0 l.
Proof.
  revert index after l0. induction shards as [|[env ram] shards IH]; intros index after l0 Hc;
    cbn [list_keys_loop pending].
  { exists l0. split; [by left|]. exists 0%nat. rewrite Hc. cbn. by rewrite app_nil_r. }
  set (rows := after_rows _ _).
  set (scan := scan_loop request now_ms ram (lr_limit request - len (l_entries l0))
    (saturating_sub max_scan (l_scanned l0)) rows ShardScan_default).
  destruct (scan_loop_spec ram (lr_limit request - len (l_entries l0))
    (saturating_sub max_scan (l_scanned l0)) rows ShardScan_default eq_refl) as (n & Hn & Hen & Hst).
  fold scan in Hen, Hst. cbn [sn_entries ShardScan_default app] in Hen.
  pose proof (engine_list_keys_yields env ram after (lr_limit request - len (l_entries l0))
    (saturating_sub max_scan (l_scanned l0))) as Hy. fold rows scan in Hy.
  assert (take n ((fun row => (index, ram, row)) <$> rows) = (fun row => (index, ram, row)) <$> take n rows)
    as Htake by by rewrite fmap_take.
  destruct (sn_stopped_at scan) as [k|] eqn:Est.
  - eexists. split; [eapply yields_bind; [exact Hy|]; cbv beta; rewrite Est; by left|].
    destruct Hst as (i & x & -> & Hi). exists (S i).
    rewrite length_app, length_fmap. split; [lia|]. cbn [l_entries l_cursor].
    rewrite take_app_le by (rewrite length_fmap; lia). rewrite Htake, omap_tagged, Hen.
    split; [done|]. exists i, index, ram, k, x. split; [done|]. split; [|done].
    rewrite lookup_app_l by (rewrite length_fmap; lia). by rewrite list_lookup_fmap, Hi.
  - subst n. destruct (IH (S index) None (mkListing (l_entries l0 ++ sn_entries scan)
      (l_scanned l0 + sn_scanned scan) (l_cursor l0) (l_truncated l0)) Hc) as (l & Hl & m & Hm & Hel & Hcl).
    exists l. split; [eapply yields_bind; [exact Hy|]; cbv beta; by rewrite Est|].
    exists (length rows + m)%nat. rewrite length_app, length_fmap. split; [lia|]. split.
    + rewrite Hel. cbn [l_entries]. rewrite Hen, firstn_all, <- app_assoc. f_equal.
      rewrite take_app_ge by (rewrite length_fmap; lia). rewrite omap_app, omap_tagged, length_fmap.
      by replace (length rows + m - length rows)%nat with m by lia.
    + destruct (l_cursor l) as [c|]; [|lia].
      destruct Hcl as (i & index' & ram' & k & x & -> & Hi & ->).
      exists (length rows + i)%nat, index', ram', k, x. split; [lia|]. split; [|done].
      rewrite lookup_app_r by (rewrite length_fmap; lia). rewrite length_fmap.
      by replace (length rows + i - length rows)%nat with i by lia.
Qed.

End Meaning.

(** ** The walk *)

Section Walk.
Context {T : Type} {BT : Backend T} {BL : BackendLaws T} {HS : Hash}.
Variable limit : Z.
Variable pattern : bytes.
Variable now_ms max_scan : Z.

(** The rows left after one of them are those from its key on. *)
Lemma pending_resume (shards : list (T * Ram)) index0 after i index ram k x :
  pending shards index0 after !! i = Some (index, ram, (k, x)) ->
  exists j env, index = (index0 + j)%nat /\ shards !! j = Some (env, ram)
    /\ v_main (view env) !! k = Some x
    /\ pending (drop j shards) index (Some k) = drop (S i) (pending shards index0 after).
Proof.
  revert index0 after i. induction shards as [|[env0 ram0] shards IH]; intros index0 after i; [done|].
  cbn [pending]. set (rows := after_rows _ _).
  destruct (decide (i < length rows)%nat) as [Hi|Hi].
  - rewrite lookup_app_l by (rewrite length_fmap; lia). rewrite list_lookup_fmap.
    destruct (rows !! i) as [row|] eqn:E; [|done]. intros [= <- <- ->].
    exists 0%nat, env0. rewrite Nat.add_0_r. split; [done|]. split; [done|].
    split; [eapply after_rows_elem; by eapply list_elem_of_lookup_2|].
    cbn [drop pending]. rewrite (after_rows_drop _ after i k x) by done. fold rows.
    rewrite drop_app_le by (rewrite length_fmap; lia). by rewrite fmap_drop.
  - rewrite lookup_app_r by (rewrite length_fmap; lia). rewrite length_fmap. intros Hl.
    destruct (IH _ _ _ Hl) as (j & env & -> & Hj & Hm & Hp). exists (S j), env.
    split; [lia|]. split; [done|]. split; [done|]. cbn [drop]. rewrite Hp.
    rewrite drop_app_ge by (rewrite length_fmap; lia). rewrite length_fmap. f_equal. lia.
Qed.

Definition from_cursor (shards : list (T * Ram)) (start : nat) (after : option bytes) :=
  pending (drop start shards) start after.

Lemma walk_yields shards fuel cursor start after :
  Z.of_nat (length shards) <= 65536 ->
  (forall env ram k, (env, ram) ∈ shards -> held (view env) k -> valid_key k) ->
  cursor_decode cursor (length shards) = Ok (start, after) ->
  (length (from_cursor shards start after) < fuel)%nat ->
  yields (walk limit pattern now_ms max_scan shards fuel cursor)
    (Some (omap (entry_of (mkListRequest limit [] pattern) now_ms) (from_cursor shards start after))).
Proof.
  intros Hn Hkeys. revert cursor start after. induction fuel as [|fuel IH]; intros cursor start after Hd Hf; [lia|].
  cbn [walk]. unfold list_keys. cbn [lr_cursor]. rewrite Hd.
  set (req := mkListRequest limit cursor pattern).
  destruct (list_keys_loop_yields req now_ms max_scan (drop start shards) start after Listing_default eq_refl)
    as (l & Hy & n & Hle & Hen & Hc). fold (from_cursor shards start after) in Hle, Hen, Hc.
  eapply yields_bind; [exact Hy|]. cbn [l_entries Listing_default app] in Hen.
  change (entry_of (mkListRequest limit [] pattern) now_ms) with (entry_of req now_ms).
  destruct (l_cursor l) as [c|].
  - destruct Hc as (i & index & ram & k & x & -> & Hi & ->).
    destruct (pending_resume _ _ _ _ _ _ _ _ Hi) as (j & env & -> & Hj & Hm & Hp).
    rewrite lookup_drop in Hj. pose proof (lookup_lt_Some _ _ _ Hj).
    assert (from_cursor shards (start + j) (Some k) = drop (S i) (from_cursor shards start after)) as Hrest.
    { unfold from_cursor. by rewrite <- Hp, drop_drop. }
    eapply yields_bind.
    { apply (IH _ (start + j)%nat (Some k)).
      - apply cursor_decode_encode; [lia|lia|]. eapply Hkeys; [by eapply list_elem_of_lookup_2|by eexists].
      - rewrite Hrest, length_drop. lia. }
    left. cbn. rewrite Hen, Hrest. change (entry_of (mkListRequest limit [] pattern) now_ms) with (entry_of req now_ms).
    by rewrite <- omap_app, take_drop.
  - left. by rewrite Hen, Hc, firstn_all.
Qed.

(** What the rows are. *)
Lemma pending_elem (shards : list (T * Ram)) index0 index ram k x :
  (index, ram, (k, x)) ∈ pending shards index0 None <->
  exists j env, index = (index0 + j)%nat /\ shards !! j = Some (env, ram) /\ v_main (view env) !! k = Some x.
Proof.
  split.
  - intros [i Hi]%list_elem_of_lookup. destruct (pending_resume _ _ _ _ _ _ _ _ Hi) as (j & env & ? & ? & ? & _).
    by exists j, env.
  - revert index0. induction shards as [|[env0 ram0] shards IH]; intros index0 (j & env & -> & Hj & Hm); [done|].
    cbn [pending]. apply elem_of_app. destruct j as [|j].
    + left. injection Hj as <- <-. apply list_elem_of_fmap. exists (k, x).
      rewrite Nat.add_0_r. split; [done|]. by apply rows_in_elem.
    + right. apply IH. exists j, env. split; [lia|done].
Qed.

Lemma pending_NoDup (shards : list (T * Ram)) index0 :
  (forall i j e1 r1 e2 r2 k, shards !! i = Some (e1, r1) -> shards !! j = Some (e2, r2) ->
     held (view e1) k -> held (view e2) k -> i = j) ->
  NoDup ((fun row => row.2.1) <$> pending shards index0 None).
Proof.
  revert index0. induction shards as [|[env0 ram0] shards IH]; intros index0 Hdis; cbn [pending]; [constructor|].
  rewrite fmap_app. apply NoDup_app. split; [|split].
  - rewrite <- list_fmap_compose. apply rows_in_NoDup.
  - intros k (row & -> & (r & -> & Hr)%list_elem_of_fmap)%list_elem_of_fmap
      ([[index ram] [k' x]] & Hk & (j & env & _ & Hj & Hm)%pending_elem)%list_elem_of_fmap.
    destruct r as [k x0]. cbn in Hk. subst k'. apply after_rows_elem in Hr.
    assert (0%nat = S j) as [=]. eapply (Hdis 0%nat (S j)); [done|exact Hj|by eexists|by eexists].
  - apply IH. intros i j e1 r1 e2 r2 k H1 H2 K1 K2.
    assert (S i = S j) as [=->]; [|done]. eapply (Hdis (S i) (S j)); [exact H1|exact H2|done|done].
Qed.

Lemma entry_of_seen env ram k x e index :
  v_main (view env) !! k = Some x ->
  entry_of (mkListRequest limit [] pattern) now_ms (index, ram, (k, x)) = Some e <->
  exists rec, seen now_ms (view env) ram k = Some rec /\ Glob.matches pattern k = true
    /\ e = ListEntry_record k (cas rec) (expires_at_ms rec).
Proof.
  intros Hm. unfold entry_of, listed, seen, alive, ListRequest_matches. cbn [fst snd lr_pattern].
  rewrite recs_lookup, Hm. cbn [mbind option_bind].
  destruct (RecordRef_parse x) as [rec|err|why]; cbn [result_ok option_bind];
    [|split; [done|by intros (? & [=] & _)]..].
  cbn [mbind option_bind]. destruct (is_alive _ _ _ _); [|split; [done|by intros (? & ? & _)]].
  destruct (Glob.matches pattern k); (split; [|by intros (? & [= <-] & ? & ->)]); [|done].
  intros [= <-]. by exists rec.
Qed.

(** C15 Listing: paging through the keys until no cursor is left ends, within
    one more page than there are records, whatever the page limit and the scan
    budget; and over a store nobody writes to, the pages together list exactly
    the keys a client would see that match the pattern, each with its token and
    deadline, and none twice.  So a cursor never skips, repeats or restarts. *)
Theorem listing_complete shards fuel :
  Z.of_nat (length shards) <= 65536 ->
  (forall env ram k, (env, ram) ∈ shards -> held (view env) k -> valid_key k) ->
  (forall i j e1 r1 e2 r2 k, shards !! i = Some (e1, r1) -> shards !! j = Some (e2, r2) ->
     held (view e1) k -> held (view e2) k -> i = j) ->
  (length (pending shards 0 None) < fuel)%nat ->
  exists entries,
    yields (walk (T:=T) limit pattern now_ms max_scan shards fuel []) (Some entries)
    /\ NoDup (le_name <$> entries)
    /\ forall e, e ∈ entries <->
         exists env ram rec, (env, ram) ∈ shards /\ seen now_ms (view env) ram (le_name e) = Some rec
           /\ Glob.matches pattern (le_name e) = true
           /\ e = ListEntry_record (le_name e) (cas rec) (expires_at_ms rec).
Proof.
  intros Hn Hkeys Hdis Hf. eexists. split; [by apply (walk_yields shards fuel [] 0%nat None)|].
  unfold from_cursor. rewrite drop_0. split.
  - pose proof (pending_NoDup shards 0 Hdis) as Hnd. clear Hf.
    assert (forall row, row ∈ pending shards 0 None -> forall e,
      entry_of (mkListRequest limit [] pattern) now_ms row = Some e -> le_name e = row.2.1) as Hname.
    { intros [[index ram] [k x]] _ e. unfold entry_of, listed. cbn.
      destruct (RecordRef_parse x); [|done..]. destruct (_ && _); [|done]. by intros [= <-]. }
    induction (pending shards 0 None) as [|row rows IH]; [constructor|].
    rewrite fmap_cons in Hnd. apply NoDup_cons in Hnd as [Hrow Hnd]. cbn [omap list_omap].
    assert (NoDup (le_name <$> omap (entry_of (mkListRequest limit [] pattern) now_ms) rows)) as Hrest.
    { apply IH; [done|]. intros row' Hr. apply Hname. by right. }
    destruct (entry_of _ now_ms row) as [e|] eqn:Ee; [|done]. rewrite fmap_cons. apply NoDup_cons.
    split; [|done]. rewrite (Hname row ltac:(by left) e Ee).
    intros (e' & Heq & (row' & Hr' & He')%list_elem_of_omap)%list_elem_of_fmap. apply Hrow.
    apply list_elem_of_fmap. exists row'. split; [|done]. rewrite Heq. apply (Hname row'); [by right|done].
  - intros e. rewrite list_elem_of_omap. split.
    + intros ([[index ram] [k x]] & (j & env & _ & Hj & Hm)%pending_elem & He).
      pose proof He as (rec & Hs & Hp & ->)%(entry_of_seen env); [|done].
      exists env, ram, rec. cbn [le_name ListEntry_record]. split; [by eapply list_elem_of_lookup_2|done].
    + intros (env & ram & rec & [j Hj]%list_elem_of_lookup & Hs & Hp & He).
      pose proof Hs as Hs'. unfold seen in Hs'. rewrite recs_lookup in Hs'.
      destruct (v_main (view env) !! le_name e) as [x|] eqn:E; [|done].
      exists (j, ram, (le_name e, x)). split; [apply pending_elem; by exists j, env|].
      apply (entry_of_seen env); [done|]. by exists rec.
Qed.

End Walk.
