(* ===== verification/Store.v ===== *)
(** [vash-store/src/store.rs] (with the callers' half of [writer.rs]): a node's
    shards, how a command is routed to them, and the operations that touch more
    than one.

    A call that waits for a writer is a turn of that shard's writer with the
    call's job as its batch.  Jobs of other callers that share the commit, and
    the turns between two calls, are the composition of turns ([Life.v]); the
    queue being full or closed ([Overloaded], [ShuttingDown]) is not modelled. *)

From S2P Require Import Prelude Bytes Text Core Record Glob Clock Arith Command Backend.
From S2P Require Import IndexKeys Tags Engine Apply TagOps Maint Queue Writer Env Read Shard Listing.

Section Store.
Context {T : Type} {BT : Backend T} {HS : Hash} {FT : FloatText} {ET : ErrorText} {SU : SortUnstable}.
Variable config : StoreConfig.
Variable info : EnvInfo.
Variable now_ms : Z.

(** A shard's committed environment and its engine's RAM. *)
Abbreviation Shard := (T * Ram)%type.

Definition NodeM (A : Type) : Type := list Shard -> list Shard * Result StoreError A.

#[local] Instance NodeM_ret : MRet NodeM := fun A a s => (s, Ok a).

#[local] Instance NodeM_bind : MBind NodeM :=
  fun A B f m s =>
    match m s with
    | (s', Ok a) => f a s'
    | (s', Err e) => (s', Err e)
    | (s', Panic why) => (s', Panic why)
    end.

Definition fail {A} (e : StoreError) : NodeM A := fun s => (s, Err e).

Definition pure {A} (r : Result StoreError A) : NodeM A := fun s => (s, r).

Definition node : NodeM (list Shard) := fun s => (s, Ok s).

(** ** The caller's half of the writer *)

(** [Writer::collect]: the reply to the only job of the batch. *)
Definition reply_of (events : list Event) : Result StoreError WriteOutcome :=
  match events with
  | Ev_Reply _ outcome :: _ => outcome
  | _ => Err SE_ShuttingDown
  end.

Definition shard_config (index : nat) (count : nat) : Config :=
  engine_config config (Z.of_nat index) (Z.of_nat count).

Definition submit (index : nat) (op : WriteOp) : NodeM WriteOutcome :=
  fun shards =>
    match shards !! index with
    | None => (shards, Panic "index out of bounds")
    | Some (env, ram) =>
        let t := writer_turn (shard_config index (length shards)) (sc_write config) info now_ms
                   env ram [op] false false in
        (<[index := (tn_env t, tn_ram t)]> shards,
         match tn_result t with Panic why => Panic why | _ => reply_of (tn_events t) end)
    end.

Definition writer_delete_by_tag (index : nat) (name : bytes) : NodeM (option Z) :=
  outcome ← submit index (Op_DeleteByTag name);
  match outcome with Out_Invalidated generation => mret generation | _ => fail mismatched_reply end.

Definition writer_merge_tag (index : nat) (name : bytes) (generation : Z) : NodeM Z :=
  outcome ← submit index (Op_MergeTag name generation);
  match outcome with Out_Merged generation => mret generation | _ => fail mismatched_reply end.

Definition writer_flush (index : nat) : NodeM Z :=
  outcome ← submit index Op_Flush;
  match outcome with Out_Flushed epoch => mret epoch | _ => fail mismatched_reply end.

Definition writer_create_tags (index : nat) (names : list (bytes * Z)) : NodeM unit :=
  _ ← submit index (Op_CreateTags names); mret ().

Definition writer_sync (index : nat) : NodeM unit :=
  _ ← submit index Op_Sync; mret ().

(** ** Routing *)

Definition index_for (shards : list Shard) (key : bytes) : nat :=
  Z.to_nat (index_of (Z.of_nat (length shards)) (shard_mask (Z.of_nat (length shards))) key).

Definition shard_for {A} (shards : list Shard) (key : bytes) (f : Shard -> Result StoreError A)
    : Result StoreError A :=
  match shards !! index_for shards key with
  | Some shard => f shard
  | None => Panic "index out of bounds"
  end.

(** ** Reads *)

Definition node_get (shards : list Shard) (key : bytes) : Result StoreError (option Value) :=
  shard_for shards key (fun '(env, ram) => get env ram now_ms key).

Definition node_deadline (shards : list Shard) (key : bytes) : Result StoreError (option Z) :=
  shard_for shards key (fun '(env, ram) => deadline env ram now_ms key).

(** [for (placed, value) in group.iter().zip(values) { results[placed.position] = value }] *)
Definition scatter {A B} (group : list (Placed A)) (values : list B) (results : list B) : list B :=
  foldl (fun results '(placed, value) => <[pl_position placed := value]> results) results (zip group values).

Fixpoint read_runs {A} (shards : list Shard) (read : Shard -> list bytes -> Result StoreError (list A))
    (rs : list (nat * list (Placed bytes))) (results : list A) : Result StoreError (list A) :=
  match rs with
  | [] => Ok results
  | (index, group) :: rs' =>
      values ← match shards !! index with
               | Some shard => read shard (pl_item <$> group)
               | None => Panic "index out of bounds"
               end;
      read_runs shards read rs' (scatter group values results)
  end.

Definition read_batch {A} (shards : list Shard) (keys : list bytes) (dflt : A)
    (read : Shard -> list bytes -> Result StoreError (list A)) : Result StoreError (list A) :=
  match shards with
  | [only] => read only keys
  | _ =>
      let count := length shards in
      let grouped := group count (shard_mask (Z.of_nat count)) (fun key => key) keys in
      read_runs shards read (runs grouped) (replicate (length keys) dflt)
  end.

Definition node_get_many (shards : list Shard) (keys : list bytes) : Result StoreError (list (option Value)) :=
  read_batch shards keys None (fun '(env, ram) => get_many env ram now_ms).

Definition node_deadlines (shards : list Shard) (keys : list bytes) : Result StoreError (list (option Z)) :=
  read_batch shards keys None (fun '(env, ram) => deadlines env ram now_ms).

(** The readers a batch has open, one slot per shard. *)
Abbreviation Readers := (list (option (T * Ram))).

(** [get_many_with]: the calls [render] gets, in order.  A failure keeps the
    ones already made. *)
Fixpoint render_loop (shards : list Shard) (readers : Readers) (index : nat) (keys : list bytes)
    (rendered : list (nat * option Value)) : list (nat * option Value) * Result StoreError unit :=
  match keys with
  | [] => (rendered, Ok ())
  | key :: keys' =>
      let shard := index_for shards key in
      let opened :=
        match readers !! shard with
        | Some (Some open) => Ok open
        | Some None =>
            match shards !! shard with
            | Some (env, ram) => rtxn ← txn_begin env; Ok (rtxn, ram)
            | None => Panic "index out of bounds"
            end
        | None => Panic "index out of bounds"
        end in
      match opened with
      | Ok (rtxn, ram) =>
          match read_record rtxn (ram_tags ram) (snapshot_of now_ms ram) key with
          | Ok value =>
              render_loop shards (<[shard := Some (rtxn, ram)]> readers) (S index) keys'
                (rendered ++ [(index, value)])
          | Err e => (rendered, Err e)
          | Panic why => (rendered, Panic why)
          end
      | Err e => (rendered, Err e)
      | Panic why => (rendered, Panic why)
      end
  end.

Definition get_many_with (shards : list Shard) (keys : list bytes)
    : list (nat * option Value) * Result StoreError unit :=
  match shards with
  | [(env, ram)] =>
      match txn_begin env with
      | Ok rtxn => render_loop shards [Some (rtxn, ram)] 0 keys []
      | Err e => ([], Err e)
      | Panic why => ([], Panic why)
      end
  | _ => render_loop shards (replicate (length shards) None) 0 keys []
  end.

(** ** Tags across shards *)

Definition shard_generation (name : bytes) (shard : Shard) : option Z :=
  generation_of (ram_tags shard.2) name.

(** The maximum of what is there. *)
Definition highest_of (l : list Z) : option Z :=
  foldl (fun highest g => Some (match highest with Some h => Z.max h g | None => g end)) None l.

Definition node_generation (shards : list Shard) (name : bytes) : option Z :=
  highest_of (omap (shard_generation name) shards).

Fixpoint invalidate_loop (tag : bytes) (indexes : list nat) (highest : option Z) : NodeM (option Z) :=
  match indexes with
  | [] => mret highest
  | index :: indexes' =>
      answer ← writer_delete_by_tag index tag;
      invalidate_loop tag indexes'
        (match answer with
         | Some generation =>
             Some (match highest with Some h => Z.max h generation | None => generation end)
         | None => highest
         end)
  end.

Fixpoint level_loop (tag : bytes) (generation : Z) (indexes : list nat) : NodeM unit :=
  match indexes with
  | [] => mret ()
  | index :: indexes' =>
      shards ← node;
      let behind :=
        match shards !! index ≫= shard_generation tag with
        | Some current => current <? generation
        | None => false
        end in
      _ ← (if behind then _ ← writer_merge_tag index tag generation; mret () else mret ());
      level_loop tag generation indexes'
  end.

Definition delete_by_tag (tag : bytes) : NodeM (option Z) :=
  shards ← node;
  let indexes := seq 0 (length shards) in
  highest ← invalidate_loop tag indexes None;
  _ ← match highest with
      | Some generation => level_loop tag generation indexes
      | None => mret ()
      end;
  mret highest.

Fixpoint merge_loop (tag : bytes) (generation : Z) (indexes : list nat) (effective holders : Z)
    : NodeM (Z * Z) :=
  match indexes with
  | [] => mret (effective, holders)
  | index :: indexes' =>
      shards ← node;
      match shards !! index ≫= shard_generation tag with
      | None => merge_loop tag generation indexes' effective holders
      | Some current =>
          reached ← (if generation <=? current then mret current
                     else writer_merge_tag index tag generation);
          merge_loop tag generation indexes' (Z.max effective reached) (holders + 1)
      end
  end.

Definition merge_tag_generation (tag : bytes) (generation : Z) : NodeM Z :=
  shards ← node;
  '(effective, holders) ← merge_loop tag generation (seq 0 (length shards)) generation 0;
  if holders =? 0 then
    reached ← writer_merge_tag (index_for shards tag) tag generation;
    mret (Z.max effective reached)
  else mret effective.

Fixpoint flush_loop (indexes : list nat) (epoch : Z) : NodeM Z :=
  match indexes with
  | [] => mret epoch
  | index :: indexes' =>
      flushed ← writer_flush index;
      flush_loop indexes' (Z.max epoch flushed)
  end.

Definition flush : NodeM Z :=
  shards ← node;
  flush_loop (seq 0 (length shards)) 0.

Fixpoint sync_loop (indexes : list nat) : NodeM unit :=
  match indexes with
  | [] => mret ()
  | index :: indexes' => _ ← writer_sync index; sync_loop indexes'
  end.

Definition sync : NodeM unit :=
  shards ← node;
  sync_loop (seq 0 (length shards)).

(** ** Tags before a write *)

Definition check_tag_counts (sets : list SetReq) : Result StoreError unit :=
  _ ← collect (fun set => map_err SE_Core (validate_tags (len (s_tags set)) (sc_max_tags_per_record config))) sets;
  Ok ().

(** The names a run of one shard lacks, each with the generation the node holds
    for it; a name two sets share is listed once. *)
Definition add_missing (shards : list Shard) (known : list (bytes * Z)) (name : bytes) : list (bytes * Z) :=
  if existsb (fun '(n, _) => bool_decide (n = name)) known then known
  else known ++ [(name, default 0 (node_generation shards name))].

Definition missing_of (shards : list Shard) (run : list SetReq) : Result StoreError (list (bytes * Z)) :=
  foldl (fun missing_names set =>
      names ← missing_names;
      match s_tags set with
      | [] => Ok names
      | _ =>
          match shards !! index_for shards (s_key set) with
          | Some (_, ram) => Ok (foldl (add_missing shards) names (missing (ram_tags ram) (s_tags set)))
          | None => Panic "index out of bounds"
          end
      end) (Ok []) run.

(** The shard a run's missing names are registered on: the owner of its last
    tagged set. *)
Definition registrar (shards : list Shard) (run : list SetReq) : option nat :=
  foldl (fun shard set => match s_tags set with [] => shard | _ => Some (index_for shards (s_key set)) end) None run.

Fixpoint register_runs (rs : list (nat * list (Placed SetReq))) : NodeM unit :=
  match rs with
  | [] => mret ()
  | (_, shard_items) :: rs' =>
      shards ← node;
      let run := pl_item <$> shard_items in
      missing_names ← pure (missing_of shards run);
      _ ← match registrar shards run with
          | Some shard => if len missing_names =? 0 then mret () else writer_create_tags shard missing_names
          | None => mret ()
          end;
      register_runs rs'
  end.

Definition grouped_runs {A} (key_of : A -> bytes) (shards : list Shard) (items : list A)
    : list (nat * list (Placed A)) :=
  runs (group (length shards) (shard_mask (Z.of_nat (length shards))) key_of items).

Definition ensure_tags_registered (sets : list SetReq) : NodeM unit :=
  _ ← pure (check_tag_counts sets);
  if forallb (fun set => bool_decide (s_tags set = [])) sets then mret ()
  else
    shards ← node;
    register_runs (grouped_runs s_key shards sets).

(** ** Values *)

Definition vanished {A} (name : bytes) : Result StoreError A :=
  Err (SE_Corrupt "a tag vanished between registration and use").

(** Tags resolved and the record encoded, on the caller's thread. *)
Definition prepare (index : nat) (shards : list Shard) (set : SetReq) : Result StoreError PreparedSet :=
  match shards !! index with
  | Some (_, ram) =>
      match resolve (ram_tags ram) (s_tags set) with
      | Ok refs => prepare_set (shard_config index (length shards)) now_ms ram set refs
      | Err name => vanished name
      | Panic why => Panic why
      end
  | None => Panic "index out of bounds"
  end.

(** What [send_set_many] leaves to be waited for: the positions the tokens
    belong at, and the writer's reply. *)
Abbreviation Pending := (list nat * Result StoreError WriteOutcome)%type.

Fixpoint send_runs (rs : list (nat * list (Placed SetReq))) : NodeM (list Pending) :=
  match rs with
  | [] => mret []
  | (index, group) :: rs' =>
      shards ← node;
      prepared ← pure (collect (prepare index shards) (pl_item <$> group));
      sent ← ((fun shards => let '(shards, reply) := submit index (Op_Set prepared) shards in (shards, Ok reply))
              : NodeM (Result StoreError WriteOutcome));
      pending ← send_runs rs';
      mret ((pl_position <$> group, sent) :: pending)
  end.

(** [PendingSetMany::wait_blocking]. *)
Fixpoint wait_all (pending : list Pending) (results : list Z) : Result StoreError (list Z) :=
  match pending with
  | [] => Ok results
  | (positions, sent) :: pending' =>
      outcome ← sent;
      match outcome with
      | Out_Cas cas => wait_all pending' (foldl (fun results '(position, cas) => <[position := cas]> results) results (zip positions cas))
      | _ => Err mismatched_reply
      end
  end.

Definition submit_set_many (sets : list SetReq) : NodeM (list Pending) :=
  _ ← ensure_tags_registered sets;
  shards ← node;
  send_runs (grouped_runs s_key shards sets).

Definition set_many (sets : list SetReq) : NodeM (list Z) :=
  pending ← submit_set_many sets;
  pure (wait_all pending (replicate (length sets) 0)).

(** [cas.pop()]. *)
Definition node_set (set : SetReq) : NodeM Z :=
  cas ← set_many [set];
  match last cas with
  | Some cas => mret cas
  | None => fail (SE_Corrupt "writer dropped a set result")
  end.

Definition guard_applies (guard : BatchGuard) (present : list (option Z)) : bool :=
  match guard with
  | BatchGuard_Always => true
  | BatchGuard_IfAllAbsent => forallb (fun p => bool_decide (p = None)) present
  | BatchGuard_IfAllPresent => forallb (fun p => bool_decide (is_Some p)) present
  end.

Definition set_many_if (sets : list SetReq) (guard : BatchGuard) : NodeM bool :=
  match guard with
  | BatchGuard_Always => _ ← set_many sets; mret true
  | _ =>
      shards ← node;
      present ← pure (node_deadlines shards (s_key <$> sets));
      if guard_applies guard present then _ ← set_many sets; mret true else mret false
  end.

Definition store (set : SetReq) : NodeM Written :=
  _ ← ensure_tags_registered [set];
  shards ← node;
  let index := index_for shards (s_key set) in
  prepared ← pure (prepare index shards set);
  outcome ← submit index (Op_ConditionalSet prepared (s_mode set));
  match outcome with Out_Written written => mret written | _ => fail mismatched_reply end.

(** ** One key *)

(** [self.shards.for_key(key).writer]. *)
Definition on_owner (key : bytes) (op : WriteOp) : NodeM WriteOutcome :=
  shards ← node;
  submit (index_for shards key) op.

Definition expire (key : bytes) (ttl : TtlChange) (guard : ExpireGuard) : NodeM bool :=
  outcome ← on_owner key (Op_Expire key ttl guard);
  match outcome with Out_Applied applied => mret applied | _ => fail mismatched_reply end.

Definition arithmetic (op : Arithmetic) : NodeM (option Applied) :=
  outcome ← on_owner (ar_key op) (Op_Arithmetic (OwnedArithmetic_new op));
  match outcome with Out_Arithmetic applied => mret applied | _ => fail mismatched_reply end.

Definition append (key suffix : bytes) : NodeM Z :=
  outcome ← on_owner key (Op_Append key suffix);
  match outcome with Out_Length n => mret n | _ => fail mismatched_reply end.

Definition first_hit (hits : list bool) : bool := default false (head hits).

Definition node_delete (key : bytes) : NodeM bool :=
  outcome ← on_owner key (Op_Delete [key]);
  match outcome with Out_Deleted hits => mret (first_hit hits) | _ => fail mismatched_reply end.

Definition touch (key : bytes) (ttl_secs : Z) : NodeM bool :=
  outcome ← on_owner key (Op_Touch [key] ttl_secs);
  match outcome with Out_Touched hits => mret (first_hit hits) | _ => fail mismatched_reply end.

(** ** Many keys *)

Fixpoint delete_runs (rs : list (nat * list (Placed bytes))) (results : list bool) : NodeM (list bool) :=
  match rs with
  | [] => mret results
  | (index, group) :: rs' =>
      outcome ← submit index (Op_Delete (pl_item <$> group));
      match outcome with
      | Out_Deleted hits => delete_runs rs' (scatter group hits results)
      | _ => fail mismatched_reply
      end
  end.

Definition delete_many (keys : list bytes) : NodeM (list bool) :=
  shards ← node;
  delete_runs (grouped_runs (fun key => key) shards keys) (replicate (length keys) false).

Fixpoint touch_runs (rs : list (nat * list (Placed bytes))) (ttl_secs : Z) : NodeM unit :=
  match rs with
  | [] => mret ()
  | (index, group) :: rs' =>
      outcome ← submit index (Op_Touch (pl_item <$> group) ttl_secs);
      match outcome with
      | Out_Touched _ => touch_runs rs' ttl_secs
      | _ => fail mismatched_reply
      end
  end.

Definition get_and_touch (keys : list bytes) (ttl_secs : Z) : NodeM (list (option Value)) :=
  shards ← node;
  values ← pure (node_get_many shards keys);
  let hits := omap (fun '(key, value) => match value : option Value with Some _ => Some key | None => None end) (zip keys values) in
  match hits with
  | [] => mret values
  | _ => _ ← touch_runs (grouped_runs (fun key => key) shards hits) ttl_secs; mret values
  end.

(** ** The tag table *)

(** A [HashMap]'s entries come in no particular order. *)
Definition tag_generations (shards : list Shard) : list TagGeneration :=
  let merged := foldl (fun merged entry =>
      <[tg_name entry := match merged !! tg_name entry with
                         | Some generation => Z.max generation (tg_generation entry)
                         | None => tg_generation entry
                         end]> merged) (∅ : gmap bytes Z) (concat ((fun shard => snapshot (ram_tags shard.2)) <$> shards)) in
  (fun '(name, generation) => mkTagGeneration name generation) <$> map_to_list merged.

(** [partition_point(|entry| entry.name <= cursor)] of a sorted list. *)
Fixpoint list_tags_skip (cursor : bytes) (known : list TagGeneration) : list TagGeneration :=
  match known with
  | [] => []
  | entry :: known' => if lex_le (tg_name entry) cursor then list_tags_skip cursor known' else known
  end.

Fixpoint list_tags_loop (request : ListRequest) (known : list TagGeneration) (listing : Listing) : Listing :=
  match known with
  | [] => listing
  | entry :: known' =>
      let scanned := l_scanned listing + 1 in
      if negb (ListRequest_matches request (tg_name entry))
      then list_tags_loop request known' (mkListing (l_entries listing) scanned (l_cursor listing) (l_truncated listing))
      else
        let entries := l_entries listing ++ [ListEntry_new (tg_name entry) (tg_generation entry)] in
        if lr_limit request <=? len entries
        then mkListing entries scanned (le_name <$> last entries) (l_truncated listing)
        else list_tags_loop request known' (mkListing entries scanned (l_cursor listing) (l_truncated listing))
  end.

(** Names are unique here, so sorting by them has one outcome; the cursor is the
    last name served. *)
Definition list_tags (shards : list Shard) (request : ListRequest) : Listing :=
  let known := (fun '(name, entry) => entry) <$>
    merge_sort key_le ((fun entry => (tg_name entry, entry)) <$> tag_generations shards) in
  let rest := match lr_cursor request with
              | [] => known
              | cursor => list_tags_skip cursor known
              end in
  list_tags_loop request rest Listing_default.

End Store.
