(* ===== verification/StoreSpec.v ===== *)
(** What a node promises over its shards: batch reads in request order that
    agree with point reads, and tag invalidations that reach every shard. *)

From S2P Require Import Prelude Bytes Text Core Record Clock Arith Command Backend.
From S2P Require Import IndexKeys Tags Engine Apply Cache ApplySpec TagOps.
From S2P Require Import Maint MaintSpec ReclaimSpec Queue QueueSpec Writer WriterSpec.
From S2P Require Import Env Read Shard Listing Store.

(** ** Reads *)

Section Reads.
Context {T : Type} {BT : Backend T} {BL : BackendLaws T} {HS : Hash} {SU : SortUnstable}.
Variable g : Z.
Variable now_ms : Z.
Variable shards : list (T * Ram).
Hypothesis some_shard : shards <> [].
Hypothesis shards_Inv : Forall (fun shard => Inv g (view shard.1)) shards.

Lemma index_for_lt key : (index_for shards key < length shards)%nat.
Proof.
  unfold index_for. destruct shards as [|s l]; [done|].
  rewrite index_of_mod by (cbn; lia).
  pose proof (Z.mod_pos_bound (xxh3_64 key) (Z.of_nat (length (s :: l))) ltac:(cbn; lia)). lia.
Qed.

(** What a client sees under a key of the node. *)
Definition node_seen (key : bytes) : option RecordRef :=
  match shards !! index_for shards key with
  | Some (env, ram) => seen now_ms (view env) ram key
  | None => None
  end.

Lemma owner_of key : exists env ram,
  shards !! index_for shards key = Some (env, ram) /\ Inv g (view env)
  /\ node_seen key = seen now_ms (view env) ram key.
Proof.
  unfold node_seen. destruct (lookup_lt_is_Some_2 _ _ (index_for_lt key)) as [[env ram] E].
  rewrite E. exists env, ram. split; [done|]. split; [|done].
  rewrite Forall_forall in shards_Inv. apply (shards_Inv (env, ram)). by eapply list_elem_of_lookup_2.
Qed.

Lemma length_scatter {A B} (group : list (Placed A)) (values results : list B) :
  length (scatter group values results) = length results.
Proof.
  unfold scatter. revert results. induction (zip group values) as [|[p v] l IH]; intros results; [done|].
  cbn [foldl]. by rewrite IH, length_insert.
Qed.

(** Results written so far agree with the target wherever they were written. *)
Definition filled {B} (target results : list B) (done : nat -> Prop) : Prop :=
  length results = length target /\ forall i, done i -> results !! i = target !! i.

Lemma scatter_filled {A B} (f : A -> B) (target : list B) (group : list (Placed A)) results done :
  (forall p, p ∈ group -> target !! pl_position p = Some (f (pl_item p))) ->
  filled target results done ->
  filled target (scatter group ((fun p => f (pl_item p)) <$> group) results)
    (fun i => done i \/ i ∈ pl_position <$> group).
Proof.
  revert results done. induction group as [|p group IH]; intros results done Ht [Hl Hd].
  { split; [done|]. intros i [Hi|Hi]; [by apply Hd|by apply elem_of_nil in Hi]. }
  assert (target !! pl_position p = Some (f (pl_item p))) as Hp by (apply Ht; by left).
  unfold scatter. cbn [fmap list_fmap zip_with foldl].
  change (foldl _ ?r (zip group ?vs)) with (scatter group vs r).
  destruct (IH (<[pl_position p := f (pl_item p)]> results) (fun i => done i \/ i = pl_position p))
    as [Hl' Hd'].
  - intros q Hq. apply Ht. by right.
  - split; [by rewrite length_insert|]. intros i Hi.
    destruct (decide (i = pl_position p)) as [->|Hne].
    + rewrite list_lookup_insert_eq; [done|]. rewrite Hl. by eapply lookup_lt_Some.
    + rewrite list_lookup_insert_ne by done. apply Hd. by destruct Hi.
  - split; [done|]. intros i Hi. apply Hd'. destruct Hi as [Hi|Hi]; [by left; left|].
    apply elem_of_cons in Hi as [->|Hi]; [by left; right|by right].
Qed.

Section Batch.
Context {A : Type}.
Variable dflt : A.
Variable read : T * Ram -> list bytes -> Result StoreError (list A).
Variable answer : bytes -> A.
Hypothesis read_ok : forall env ram keys, (env, ram) ∈ shards ->
  (forall k, k ∈ keys -> shards !! index_for shards k = Some (env, ram)) ->
  yields (read (env, ram) keys) (answer <$> keys).

Lemma read_runs_yields keys rs results done :
  (forall s run, (s, run) ∈ rs -> (s < length shards)%nat /\
     forall p, p ∈ run -> keys !! pl_position p = Some (pl_item p) /\ s = index_for shards (pl_item p)) ->
  filled (answer <$> keys) results done ->
  exists out, yields (read_runs shards read rs results) out
    /\ filled (answer <$> keys) out (fun i => done i \/ i ∈ pl_position <$> mjoin (snd <$> rs)).
Proof.
  revert results done. induction rs as [|[s run] rs IH]; intros results done Hrs Hf; cbn [read_runs].
  { exists results. split; [by left|]. destruct Hf as [Hl Hd]. split; [done|].
    intros i [Hi|Hi]; [by apply Hd|by apply elem_of_nil in Hi]. }
  destruct (Hrs s run) as [Hs Hrun]; [by left|].
  destruct (lookup_lt_is_Some_2 _ _ Hs) as [[env ram] E]. rewrite E.
  assert (filled (answer <$> keys) (scatter run ((fun p => answer (pl_item p)) <$> run) results)
    (fun i => done i \/ i ∈ pl_position <$> run)) as Hf'.
  { apply scatter_filled; [|done]. intros p Hp. rewrite list_lookup_fmap.
    destruct (Hrun p Hp) as [-> _]. done. }
  destruct (IH _ _ ltac:(intros; apply Hrs; by right) Hf') as (out & Hout & [Hl Hd]).
  exists out. split.
  - eapply yields_bind; [|exact Hout].
    replace ((fun p => answer (pl_item p)) <$> run) with (answer <$> (pl_item <$> run))
      by (by rewrite <- list_fmap_compose).
    apply read_ok.
    + by eapply list_elem_of_lookup_2.
    + intros k (p & -> & Hp)%list_elem_of_fmap. destruct (Hrun p Hp) as [_ <-]. done.
  - split; [done|]. intros i Hi. apply Hd. rewrite fmap_cons in Hi. cbn [mjoin list_join snd] in Hi.
    rewrite fmap_app, elem_of_app in Hi. tauto.
Qed.

Lemma read_batch_yields keys : yields (read_batch shards keys dflt read) (answer <$> keys).
Proof.
  assert ((0 < length shards)%nat) as Hpos by (destruct shards; [done|cbn; lia]).
  unfold read_batch. assert (forall only, shards = [only] -> yields (read only keys) (answer <$> keys)) as Hone.
  { intros [env ram] E. apply read_ok; [rewrite E; by left|]. intros k _.
    pose proof (index_for_lt k) as Hlt. rewrite E in *. cbn in Hlt.
    replace (index_for [(env, ram)] k) with 0%nat by lia. done. }
  assert (exists out, yields (read_runs shards read
      (runs (group (length shards) (shard_mask (Z.of_nat (length shards))) (fun key => key) keys))
      (replicate (length keys) dflt)) out /\ out = answer <$> keys) as (out & Hout & ->).
  { destruct (group_exact_ok (length shards) (fun key => key) Hpos keys) as (Hperm & _ & Hruns).
    destruct (read_runs_yields keys
      (runs (group (length shards) (shard_mask (Z.of_nat (length shards))) (fun key => key) keys))
      (replicate (length keys) dflt) (fun _ => False)) as (out & Hout & [Hl Hd]).
    - intros s run Hin. destruct (Hruns s run Hin) as (_ & Hs & Hp). split; [done|].
      intros p Hpin. by apply Hp in Hpin as (? & _ & ?).
    - split; [by rewrite length_replicate, length_fmap|done].
    - exists out. split; [done|]. apply list_eq. intros i.
      destruct (decide (i < length keys)%nat) as [Hi|Hi].
      + apply Hd. right. rewrite Hperm. apply list_elem_of_fmap.
        destruct (lookup_lt_is_Some_2 _ _ Hi) as [k Hk].
        exists (place (length shards) (shard_mask (Z.of_nat (length shards))) (fun key => key) i k).
        split; [done|]. apply list_elem_of_lookup. exists i. by rewrite list_lookup_imap, Hk.
      + rewrite !lookup_ge_None_2; rewrite ?Hl, ?length_fmap; try done; lia. }
  destruct shards as [|only [|]] eqn:E; [done|by apply Hone|by rewrite <- E in *].
Qed.

End Batch.

Lemma many_yields {A} (project : RecordRef -> A) env ram keys :
  (env, ram) ∈ shards -> (forall k, k ∈ keys -> shards !! index_for shards k = Some (env, ram)) ->
  yields (rtxn ← txn_begin env;
          collect (fun key => read_alive rtxn (ram_tags ram) (snapshot_of now_ms ram) key project) keys)
    ((fun k => project <$> node_seen k) <$> keys).
Proof.
  intros Hin Hk. rewrite Forall_forall in shards_Inv. pose proof (shards_Inv _ Hin) as Hi. cbn in Hi.
  apply begin_yields. intros txn Hv. rewrite <- Hv in Hi. apply yields_collect. intros k Hkk.
  replace (node_seen k) with (seen now_ms (view txn) ram k) by (unfold node_seen; by rewrite (Hk k Hkk), Hv).
  by apply read_alive_yields with g.
Qed.

Lemma point_reads key :
  yields (node_get now_ms shards key) (value_of <$> node_seen key)
  /\ yields (node_deadline now_ms shards key) (expires_at_ms <$> node_seen key).
Proof.
  destruct (owner_of key) as (env & ram & E & Hi & Hsees).
  unfold node_get, node_deadline, shard_for. rewrite E, Hsees.
  split; apply begin_yields; intros txn Hv; rewrite <- Hv in *; by apply read_alive_yields with g.
Qed.

(** ** Rendering in request order *)

Definition reader_ok (readers : list (option (T * Ram))) : Prop :=
  length readers = length shards
  /\ forall s txn ram, readers !! s = Some (Some (txn, ram)) ->
       exists env, shards !! s = Some (env, ram) /\ view txn = view env.

Lemma render_loop_ok keys : forall readers index rendered,
  reader_ok readers ->
  let '(out, res) := render_loop now_ms shards readers index keys rendered in
  (res = Ok () /\ out = rendered ++ imap (fun i k => ((index + i)%nat, value_of <$> node_seen k)) keys)
  \/ (engine_error res
      /\ exists n, (n < length keys)%nat
         /\ out = rendered ++ take n (imap (fun i k => ((index + i)%nat, value_of <$> node_seen k)) keys)).
Proof.
  induction keys as [|key keys IH]; intros readers index rendered Hr; cbn [render_loop].
  { left. split; [done|]. cbn. by rewrite app_nil_r. }
  destruct (owner_of key) as (env & ram & E & Hi & Hsees). pose proof (index_for_lt key) as Hlt.
  destruct Hr as [Hlen Hr].
  destruct (lookup_lt_is_Some_2 readers (index_for shards key)) as [slot Hslot]; [by rewrite Hlen|].
  rewrite Hslot, E.
  set (opened := match slot with Some open => Ok open | None => _ end).
  assert ((exists txn, opened = Ok (txn, ram) /\ view txn = view env) \/ engine_error opened) as Hopen.
  { subst opened. destruct slot as [[txn ram']|].
    - left. destruct (Hr _ _ _ Hslot) as (env' & E' & Hv). rewrite E in E'. injection E' as <- <-.
      by exists txn.
    - pose proof (law_begin env) as Hb. destruct (txn_begin env) as [txn|e|why]; [|by right..].
      left. exists txn. by split. }

  destruct Hopen as [(txn & -> & Hv)|Hbad].
  2:{ destruct opened as [[? ?]|e|why]; [done| |by destruct Hbad].
      right. split; [exact Hbad|]. exists 0%nat. cbn. split; [lia|]. by rewrite app_nil_r. }
  assert (yields (read_record txn (ram_tags ram) (snapshot_of now_ms ram) key) (value_of <$> node_seen key)) as Hread.
  { rewrite Hsees, <- Hv. apply read_alive_yields with g. by rewrite Hv. }
  destruct Hread as [->|Hbad].
  2:{ destruct (read_record _ _ _ _) as [?|e|why]; [done| |by destruct Hbad].
      right. split; [exact Hbad|]. exists 0%nat. cbn. split; [lia|]. by rewrite app_nil_r. }
  pose proof (IH (<[index_for shards key := Some (txn, ram)]> readers) (S index)
    (rendered ++ [(index, value_of <$> node_seen key)])) as IH'.
  destruct (render_loop now_ms shards _ (S index) keys _) as [out res].
  assert (imap (fun i k => ((index + i)%nat, value_of <$> node_seen k)) (key :: keys)
    = (index, value_of <$> node_seen key) :: imap (fun i k => ((S index + i)%nat, value_of <$> node_seen k)) keys) as Himap.
  { cbn. rewrite Nat.add_0_r. f_equal. apply imap_ext. intros i k _. cbn. f_equal. lia. }
  destruct IH' as [[Hres Hout]|[Hbad (n & Hn & Hout)]].
  - split; [by rewrite length_insert|]. intros s txn' ram'.
    destruct (decide (s = index_for shards key)) as [->|Hne].
    + rewrite list_lookup_insert_eq by (rewrite Hlen; done). intros [= <- <-]. by exists env.
    + rewrite list_lookup_insert_ne by done. apply Hr.
  - left. split; [done|]. rewrite Hout, <- app_assoc, Himap. done.
  - right. split; [done|]. exists (S n). split; [cbn; lia|]. rewrite Hout, <- app_assoc, Himap. done.
Qed.

(** C14 Batch reads across shards: grouping by shard, whatever order the sort
    leaves a group in, and scattering the answers back gives exactly the point
    reads of the keys in request order; and the rendering form, which never
    groups, calls back exactly once per key in request order with the same
    values (a prefix of them when the engine fails midway). *)
Theorem batch_reads_exact keys :
  (forall key, yields (node_get now_ms shards key) (value_of <$> node_seen key)
    /\ yields (node_deadline now_ms shards key) (expires_at_ms <$> node_seen key))
  /\ yields (node_get_many now_ms shards keys) ((fun k => value_of <$> node_seen k) <$> keys)
  /\ yields (node_deadlines now_ms shards keys) ((fun k => expires_at_ms <$> node_seen k) <$> keys)
  /\ let '(out, res) := get_many_with now_ms shards keys in
     let expected := imap (fun i k => (i, value_of <$> node_seen k)) keys in
     (res = Ok () /\ out = expected)
     \/ (engine_error res /\ exists n, (n <= length keys)%nat /\ out = take n expected).
Proof.
  split; [|split; [|split]].
  - apply point_reads.
  - apply read_batch_yields. intros env ram ks Hin Hk. by apply many_yields.
  - apply read_batch_yields. intros env ram ks Hin Hk. by apply many_yields.
  - unfold get_many_with. set (expected := imap _ keys).
    assert (forall readers, reader_ok readers ->
      let '(out, res) := render_loop now_ms shards readers 0 keys [] in
      (res = Ok () /\ out = expected)
      \/ (engine_error res /\ exists n, (n <= length keys)%nat /\ out = take n expected)) as Hloop.
    { intros readers Hr. pose proof (render_loop_ok keys readers 0 [] Hr) as H.
      destruct (render_loop _ _ _ _ _ _) as [out res]. cbn [app Nat.add] in H.
      destruct H as [H|(He & n & Hn & Ho)]; [by left|right]. split; [done|]. exists n. split; [lia|done]. }
    assert (reader_ok (replicate (length shards) None)) as Hnone.
    { split; [by rewrite length_replicate|]. intros s txn ram Hs. by apply lookup_replicate in Hs as [[=] _]. }
    destruct shards as [|[env ram] [|s2 l]] eqn:E; [by apply Hloop| |by apply Hloop].
    pose proof (begin_view env) as Hb. destruct (txn_begin env) as [txn|e|why]; [| |done].
    + apply Hloop. split; [by rewrite E|]. intros [|s] txn' ram' Hs; [|done]. injection Hs as <- <-.
      exists env. by rewrite E.
    + right. split; [exact Hb|]. exists 0%nat. split; [lia|done].
Qed.

End Reads.
