(* ===== verification/NodeWrites.v ===== *)
(** A node's write commands against the abstract cache.

    Tag operations: an invalidation reaches every shard that could hold a record
    carrying the tag, and leaves the node with one generation for it.  Then the
    commands on one key: each is answered as the abstract cache answers it on
    what the node serves under that key, changes that key only, whichever shard
    owns it, and a plain write is read back until its deadline. *)

From S2P Require Import Prelude Bytes Text Core Record Clock Arith Command Backend IndexKeys.
From S2P Require Import Tags Engine Apply Cache ApplySpec ApplyRefines TagOps Read Shard.
From S2P Require Import Maint MaintSpec ReclaimSpec Queue QueueSpec Writer WriterSpec Env Listing.
From S2P Require Import Store StoreSpec.

Section Node.
Context {T : Type} {BT : Backend T} {BL : BackendLaws T} {HS : Hash} {FT : FloatText} {ET : ErrorText}.
Variable config : StoreConfig.
Variable info : EnvInfo.
Variable now_ms : Z.
Variable D : bytes -> Prop.
Hypothesis D_separates : forall k k', D k -> D k' -> xxh3_64 k' = xxh3_64 k -> k' = k.
Hypothesis now_sane : 0 <= now_ms < U64_MAX.

Abbreviation g := (sc_bucket_granularity_ms config).
Abbreviation Shard := (T * Ram)%type.

Definition agrees (s : Shard) : Prop := Agrees g D (view s.1) s.2.

(** The id counter has room for [n] more names. *)
Definition id_room (n : Z) (s : Shard) : Prop := next_id (ram_tags s.2) + n <= U32_MAX.

Lemma agrees_names s n : agrees s -> reg_names (ram_tags s.2) n = disk_tag (view s.1) n.
Proof. intros Ha. exact (fl_names _ _ _ _ _ Ha n). Qed.

Lemma agrees_generation_of s n : agrees s -> shard_generation n s = snd <$> disk_tag (view s.1) n.
Proof.
  intros Ha. rewrite <- agrees_names by done. unfold shard_generation, generation_of, reg_names.
  by destruct (entry_by_name _ _).
Qed.

Lemma agrees_lookup s id x : agrees s -> 0 <= id ->
  lookup_generation (ram_tags s.2) id = Some x <-> exists n, disk_tag (view s.1) n = Some (id, x).
Proof.
  intros Ha Hid. rewrite lookup_generation_names by (done || exact (fl_reg _ _ _ _ _ Ha)).
  by setoid_rewrite agrees_names.
Qed.

(** ** One job on one shard *)

(** The transaction of the job does not commit: the engine failed. *)
Definition transaction_fails (cfg : Config) (op : WriteOp) (env : T) (ram : Ram) (e0 : StoreError) : Prop :=
  may_fail (T:=T)
  /\ tn_result (commit_batch cfg (sc_write config) info now_ms env ram [op] false false) = Err e0.

(** What a call that failed with [e] leaves: the abstract cache refuses it with
    [e] and nothing changed, but for names a refused creation had already
    registered; or the engine failed, and nothing changed, but for records that
    recovery removed from a full map. *)
Definition left_behind (cfg : Config) (op : WriteOp) (e : StoreError) (env : T) (ram : Ram) (v' : Views)
    : Prop :=
  (exists r1, op_refused cfg now_ms op e (view env) ram v' r1)
  \/ exists e0, transaction_fails cfg op env ram e0
       /\ maintained (view env) v' /\ (is_capacity e0 = false -> v' = view env).

Lemma submit_ok (shards : list Shard) index op env ram :
  shards !! index = Some (env, ram) -> agrees (env, ram) -> op_ready D op ->
  id_room (creations op) (env, ram) ->
  exists s', let '(shards', res) := submit config info now_ms index op shards in
    shards' = <[index := s']> shards /\ agrees s'
    /\ match res with
       | Ok out => exists r1,
           op_spec (shard_config config index (length shards)) now_ms op out (view env) ram (view s'.1) r1
           /\ next_id (ram_tags s'.2) <= next_id (ram_tags ram) + creations op
       | Err e => left_behind (shard_config config index (length shards)) op e env ram (view s'.1)
       | Panic _ => False
       end.
Proof.
  intros Hs Ha Hop Hroom. unfold submit. rewrite Hs. set (cfg := shard_config _ _ _).
  set (t := writer_turn _ _ _ _ _ _ _ _ _).
  assert (Forall (op_ready D) [op]) as Hops by by constructor.
  assert (next_id (ram_tags ram) + batch_creations [op] <= U32_MAX) as Hb.
  { cbn. unfold id_room in Hroom. cbn in Hroom. lia. }
  destruct (writer_turn_ok cfg (sc_write config) info now_ms D D_separates now_sane env ram [op] false false
    Ha Hops Hb) as (Hag & Hok & Hev & Hres). fold t in Hag, Hok, Hev, Hres.
  destruct (commit_batch_ok cfg (sc_write config) info now_ms D D_separates now_sane env ram [op] false false
    Ha Hops Hb) as (_ & Hends). unfold batch_ends in Hends.
  exists (tn_env t, tn_ram t). split; [done|]. split; [done|]. rewrite Hok, Hev.
  destruct (tn_result (commit_batch _ _ _ _ _ _ _ _ _)) as [[]|e|why] eqn:Et; [| |done].
  - destruct Hends as (outs & v1 & r1 & Hran & _ & Hv1 & [_ Hq] & Hn & Hevents). rewrite Hevents.
    assert (view (tn_env t) = v1) as Hvt by (rewrite Hres; by apply Hv1).
    rewrite <- Hres in Hq. cbn [batch_creations foldr] in Hn. rewrite Z.add_0_r in Hn.
    cbn [fst snd]. rewrite Hvt. inversion Hran as [|? out ? outs' ? ? v2 r2 ? ? Hspec Hrest|
      ? e ? outs' ? ? v2 r2 ? ? _ Hrefused Hrest]; subst; cbn; inversion Hrest; subst.
    + exists r1. split; [done|]. lia.
    + left. by exists r1.
  - destruct Hends as (Hmay & _ & _ & e' & Hevents). rewrite Hevents. cbn. right. exists e.
    apply turn_recovers_effect in Hres as [Hmt Hsame]. split; [done|]. split; [done|].
    intros Hcap. by destruct (Hsame Hcap) as [-> _].
Qed.

(** ** Changes that concern one tag *)

(** Nothing but the tag's own row moved. *)
Definition tag_only (tag : bytes) (s s' : Shard) : Prop :=
  same_records (view s.1) (view s'.1) /\ v_meta (view s'.1) = v_meta (view s.1)
  /\ forall n, n <> tag -> disk_tag (view s'.1) n = disk_tag (view s.1) n.

Lemma tag_only_refl tag s : tag_only tag s s.
Proof. by split_and!. Qed.

Lemma tag_only_trans tag s1 s2 s3 : tag_only tag s1 s2 -> tag_only tag s2 s3 -> tag_only tag s1 s3.
Proof.
  intros ((A1 & A2 & A3) & A4 & A5) ((B1 & B2 & B3) & B4 & B5).
  split; [split_and!; congruence|]. split; [congruence|]. intros n Hn. by rewrite B5, A5.
Qed.

Definition carries (tag : bytes) (v : Views) (rec : RecordRef) : Prop :=
  exists t x, t ∈ tags rec /\ disk_tag v tag = Some (tag_id t, x).

Lemma tags_alive_same rec (f f' : Z -> option Z) :
  (forall t, t ∈ tags rec -> f' (tag_id t) = f (tag_id t)) -> tags_alive rec f' = tags_alive rec f.
Proof.
  unfold tags_alive. induction (tags rec) as [|t ts IH]; intros H; [done|]. cbn [forallb].
  rewrite H by by left. f_equal. apply IH. intros t' Ht'. apply H. by right.
Qed.

Lemma recs_same v v' : v_main v' = v_main v -> recs v' = recs v.
Proof. unfold recs. by intros ->. Qed.

(** Stored tag ids are ids. *)
Lemma stored_tags v k rec t : recs v !! k = Some rec -> t ∈ tags rec -> 0 <= tag_id t.
Proof.
  rewrite recs_lookup. destruct (v_main v !! k) as [blob|]; [|done]. cbn [mbind option_bind].
  destruct (RecordRef_parse blob) as [r|e|why] eqn:E; cbn; [|done..]. intros [= ->] Ht.
  apply parse_fields in E as (_ & Hok & _). rewrite Forall_forall in Hok.
  by destruct (Hok t Ht) as [[? _] _].
Qed.

(** Raising a tag's generation: every record that carries it stops being seen. *)
Lemma raised_kills tag s s' id x y k rec :
  agrees s -> agrees s' -> tag_only tag s s' ->
  disk_tag (view s.1) tag = Some (id, x) -> disk_tag (view s'.1) tag = Some (id, y) -> x < y ->
  seen now_ms (view s.1) s.2 k = Some rec -> carries tag (view s.1) rec ->
  seen now_ms (view s'.1) s'.2 k = None.
Proof.
  intros Ha Ha' ((Hm & _) & _) Hx Hy Hlt Hs (t & x' & Ht & Hd). rewrite Hx in Hd. injection Hd as -> _.
  unfold seen in *. rewrite (recs_same _ _ Hm). destruct (recs (view s.1) !! k) as [r|] eqn:E; [|done].
  cbn [mbind option_bind] in *. destruct (alive now_ms s.2 r) eqn:Eal; [|done]. injection Hs as ->.
  assert (0 <= tag_id t) as Hid by by eapply stored_tags.
  destruct (alive now_ms s'.2 rec) eqn:Eal'; [|done]. exfalso.
  unfold alive, is_alive, tags_alive in *. apply andb_true_iff in Eal as [_ Eal], Eal' as [_ Eal'].
  rewrite forallb_forall in Eal, Eal'. apply list_elem_of_In in Ht.
  specialize (Eal t Ht). specialize (Eal' t Ht).
  rewrite (proj2 (agrees_lookup s (tag_id t) x Ha Hid)) in Eal by by exists tag.
  rewrite (proj2 (agrees_lookup s' (tag_id t) y Ha' Hid)) in Eal' by by exists tag. lia.
Qed.

(** A record that does not carry the tag is seen as before. *)
Lemma tag_only_spares tag s s' k :
  agrees s -> agrees s' -> tag_only tag s s' ->
  (forall id y, disk_tag (view s'.1) tag = Some (id, y) -> exists x, disk_tag (view s.1) tag = Some (id, x)) ->
  (forall rec, recs (view s.1) !! k = Some rec -> ~ carries tag (view s.1) rec) ->
  seen now_ms (view s'.1) s'.2 k = seen now_ms (view s.1) s.2 k.
Proof.
  intros Ha Ha' ((Hm & _) & Hmeta & Hother) Hids Hno.
  unfold seen. rewrite (recs_same _ _ Hm). destruct (recs (view s.1) !! k) as [rec|] eqn:E; [|done].
  specialize (Hno rec eq_refl). cbn [mbind option_bind].
  assert (alive now_ms s'.2 rec = alive now_ms s.2 rec) as ->; [|done].
  unfold alive. rewrite (agrees_epoch g D _ _ _ _ Ha Ha' (disk_epoch_meta _ _ Hmeta)).
  unfold is_alive. f_equal. apply tags_alive_same.
  intros t Ht. assert (0 <= tag_id t) as Hid by by eapply stored_tags. apply option_eq. intros x.
    rewrite !agrees_lookup by done. split; intros [n Hn].
    - destruct (decide (n = tag)) as [->|]; [|exists n; by rewrite <- Hother].
      destruct (Hids _ _ Hn) as [x' Hx']. exfalso. apply Hno. by exists t, x'.
    - destruct (decide (n = tag)) as [->|]; [|exists n; by rewrite Hother].
      exfalso. apply Hno. by exists t, x.
Qed.

(** ** The loops *)

Definition raise_one (tag : bytes) (s s' : Shard) : Prop :=
  tag_only tag s s' /\ next_id (ram_tags s'.2) <= next_id (ram_tags s.2)
  /\ disk_tag (view s'.1) tag
     = (fun '(id, x) => (id, Z.min (x + 1) U64_MAX)) <$> disk_tag (view s.1) tag.

Definition raised_gen (tag : bytes) (s : Shard) : option Z :=
  (fun '(id, x) => Z.min (x + 1) U64_MAX) <$> disk_tag (view s.1) tag.

Definition max_opt (h : option Z) (o : option Z) : option Z :=
  match o with
  | Some x => Some (match h with Some y => Z.max y x | None => x end)
  | None => h
  end.

(** A loop over distinct shards, each changed once. *)
Definition each_shard (R : Shard -> Shard -> Prop) (indexes : list nat) (shards shards' : list Shard) : Prop :=
  length shards' = length shards
  /\ forall i s, shards !! i = Some s ->
       exists s', shards' !! i = Some s' /\ agrees s'
         /\ if decide (i ∈ indexes) then R s s' else s' = s.

Lemma each_shard_nil R shards : Forall agrees shards -> each_shard R [] shards shards.
Proof.
  intros Ha. rewrite Forall_lookup in Ha. split; [done|]. intros i s Hs. exists s.
  split; [done|]. split; [by eapply Ha|]. by rewrite decide_False by apply not_elem_of_nil.
Qed.

Lemma each_shard_cons (R : Shard -> Shard -> Prop) index indexes (shards shards' : list Shard) s s' :
  index ∉ indexes -> shards !! index = Some s -> R s s' ->
  each_shard R indexes (<[index := s']> shards) shards' -> each_shard R (index :: indexes) shards shards'.
Proof.
  intros Hi Hs HR [Hl He]. rewrite length_insert in Hl. split; [done|]. intros i s1 Hs1.
  destruct (decide (i = index)) as [->|Hne].
  - rewrite Hs in Hs1. injection Hs1 as <-.
    destruct (He index s') as (s'' & H1 & H2 & H3).
    { apply list_lookup_insert_eq. by eapply lookup_lt_Some. }
    rewrite decide_False in H3 by done. subst s''. exists s'. split; [done|]. split; [done|].
    by rewrite decide_True by by left.
  - destruct (He i s1) as (s'' & H1 & H2 & H3); [by rewrite list_lookup_insert_ne|].
    exists s''. split; [done|]. split; [done|].
    destruct (decide (i ∈ index :: indexes)) as [Hin|Hin].
    + apply elem_of_cons in Hin as [|Hin]; [done|]. by rewrite decide_True in H3.
    + rewrite decide_False in H3; [done|]. intros H. apply Hin. by right.
Qed.

Lemma agrees_insert (shards : list Shard) index s' :
  Forall agrees shards -> agrees s' -> Forall agrees (<[index := s']> shards).
Proof. intros. by apply Forall_insert. Qed.

Lemma omap_insert_other (shards : list Shard) index s' (indexes : list nat) :
  index ∉ indexes -> omap (fun i => <[index := s']> shards !! i) indexes = omap (fun i => shards !! i) indexes.
Proof.
  induction indexes as [|i indexes IH]; intros Hi; [done|]. apply not_elem_of_cons in Hi as [Hne Hi].
  cbn [omap list_omap]. rewrite list_lookup_insert_ne by done. rewrite IH by done. done.
Qed.

Lemma invalidate_loop_ok tag indexes : forall (shards : list Shard) highest,
  Forall agrees shards -> NoDup indexes -> Forall (fun i => (i < length shards)%nat) indexes ->
  let '(shards', res) := invalidate_loop config info now_ms tag indexes highest shards in
  match res with
  | Ok highest' =>
      each_shard (raise_one tag) indexes shards shards'
      /\ highest' = foldl max_opt highest (raised_gen tag <$> omap (fun i => shards !! i) indexes)
  | Err _ => Forall agrees shards' /\ length shards' = length shards
  | Panic _ => False
  end.
Proof.
  induction indexes as [|index indexes IH]; intros shards highest Ha Hnd Hlt; cbn [invalidate_loop].
  { split; [by apply each_shard_nil|done]. }
  apply NoDup_cons in Hnd as [Hi Hnd]. apply Forall_cons in Hlt as [Hlt Hlts].
  destruct (lookup_lt_is_Some_2 _ _ Hlt) as [[env ram] Hs].
  assert (agrees (env, ram)) as Has by (rewrite Forall_lookup in Ha; by eapply Ha).
  unfold mbind at 1, NodeM_bind at 1, writer_delete_by_tag, mbind at 1, NodeM_bind at 1.
  destruct (submit_ok shards index (Op_DeleteByTag tag) env ram Hs Has I) as (s' & Hsub).
  { unfold id_room. cbn. pose proof (fl_ids _ _ _ _ _ Has) as [? _]. cbn in *. lia. }
  destruct (submit config info now_ms index (Op_DeleteByTag tag) shards) as [shards1 [out|e|why]];
    [| |by destruct Hsub as (_ & _ & [])].
  2:{ destruct Hsub as (-> & Ha' & _). split; [by apply agrees_insert|by rewrite length_insert]. }
  destruct Hsub as (-> & Ha' & r1 & Hspec & Hn). destruct out; try done. cbn [mret NodeM_ret].
  destruct Hspec as (Hsame & Hmeta & _ & Hother & Hgen). cbn [creations] in Hn.
  assert (raise_one tag (env, ram) s' /\ generation = raised_gen tag (env, ram)) as [HR ->].
  { unfold raise_one, raised_gen. cbn [fst snd].
    destruct (disk_tag (view env) tag) as [[id g0]|] eqn:E; cbn [fmap option_fmap option_map].
    - destruct Hgen as [-> Hd]. split; [|done]. split; [by split|]. split; [lia|done].
    - destruct Hgen as [-> Hv]. split; [|done]. split; [by split|]. split; [lia|]. by rewrite Hv, E. }
  pose proof (IH (<[index := s']> shards) (max_opt highest (raised_gen tag (env, ram)))
    (agrees_insert _ _ _ Ha Ha') Hnd ltac:(by rewrite length_insert)) as IH'.
  change (match raised_gen tag (env, ram) with Some _ => _ | None => _ end)
    with (max_opt highest (raised_gen tag (env, ram))).
  destruct (invalidate_loop _ _ _ _ _ _ _) as [shards2 [highest'|e|why]]; [| |done].
  - destruct IH' as [He ->]. split; [by eapply each_shard_cons|].
    cbn [omap list_omap]. rewrite Hs. cbn [fmap list_fmap foldl].
    by rewrite omap_insert_other.
  - destruct IH' as [H1 H2]. split; [done|]. by rewrite length_insert in H2.
Qed.

Definition level_one (tag : bytes) (top : Z) (s s' : Shard) : Prop :=
  tag_only tag s s'
  /\ disk_tag (view s'.1) tag = (fun '(id, x) => (id, Z.max x top)) <$> disk_tag (view s.1) tag.

Lemma level_loop_ok tag top indexes : fits 64 top -> forall (shards : list Shard),
  Forall agrees shards -> NoDup indexes -> Forall (fun i => (i < length shards)%nat) indexes ->
  (forall i s, i ∈ indexes -> shards !! i = Some s -> id_room 1 s) ->
  let '(shards', res) := level_loop config info now_ms tag top indexes shards in
  match res with
  | Ok _ => each_shard (level_one tag top) indexes shards shards'
  | Err _ => Forall agrees shards' /\ length shards' = length shards
  | Panic _ => False
  end.
Proof.
  intros Htop. induction indexes as [|index indexes IH]; intros shards Ha Hnd Hlt Hroom; cbn [level_loop].
  { by apply each_shard_nil. }
  apply NoDup_cons in Hnd as [Hi Hnd]. apply Forall_cons in Hlt as [Hlt Hlts].
  destruct (lookup_lt_is_Some_2 _ _ Hlt) as [[env ram] Hs].
  assert (agrees (env, ram)) as Has by (rewrite Forall_lookup in Ha; by eapply Ha).
  unfold mbind at 1, NodeM_bind at 1. cbn [node]. rewrite Hs.
  cbn [mbind option_bind]. rewrite agrees_generation_of by done.
  assert (forall s', level_one tag top (env, ram) s' -> agrees s' ->
    let '(shards', res) := level_loop config info now_ms tag top indexes (<[index := s']> shards) in
    match res with
    | Ok _ => each_shard (level_one tag top) (index :: indexes) shards shards'
    | Err _ => Forall agrees shards' /\ length shards' = length shards
    | Panic _ => False
    end) as Hnext.
  { intros s' HR Ha'. pose proof (IH (<[index := s']> shards) (agrees_insert _ _ _ Ha Ha') Hnd
      ltac:(by rewrite length_insert)) as IH'.
    destruct (level_loop _ _ _ _ _ _ _) as [shards2 [[]|e|why]]; [|rewrite length_insert in IH'|]; try apply IH'.
    - eapply each_shard_cons; [done|done|exact HR|]. apply IH'. intros i s Hin Hls.
      rewrite list_lookup_insert_ne in Hls by (intros ->; done). by eapply Hroom; [right|].
    - intros i s Hin Hls. rewrite list_lookup_insert_ne in Hls by (intros ->; done). by eapply Hroom; [right|].
    - intros i s Hin Hls. rewrite list_lookup_insert_ne in Hls by (intros ->; done). by eapply Hroom; [right|]. }
  cbn [snd fst]. set (behind := match _ with Some current => current <? top | None => false end).
  destruct behind eqn:Eb; subst behind.
  2:{ assert (level_one tag top (env, ram) (env, ram)) as HR.
      { split; [apply tag_only_refl|]. cbn [fst]. destruct (disk_tag (view env) tag) as [[id x]|]; [|done].
        cbn in *. apply Z.ltb_ge in Eb. do 2 f_equal. lia. }
      pose proof (Hnext _ HR Has) as H. rewrite list_insert_id in H by done. exact H. }
  unfold mbind at 1 2, NodeM_bind at 1 2, writer_merge_tag, mbind at 1, NodeM_bind at 1.
  destruct (submit_ok shards index (Op_MergeTag tag top) env ram Hs Has Htop) as (s' & Hsub).
  { apply (Hroom index); [by left|done]. }
  destruct (submit config info now_ms index (Op_MergeTag tag top) shards) as [shards1 [out|e|why]];
    [| |by destruct Hsub as (_ & _ & [])].
  2:{ destruct Hsub as (-> & Ha' & _). split; [by apply agrees_insert|by rewrite length_insert]. }
  destruct Hsub as (-> & Ha' & r1 & Hspec & Hn). destruct out; try done. cbn [mret NodeM_ret].
  destruct Hspec as (Hsame & Hmeta & _ & Hother & Hgen). apply Hnext; [|done].
  split; [by split|]. cbn [fst].
  destruct (disk_tag (view env) tag) as [[id x]|]; [|done]. by destruct Hgen as [-> ->].
Qed.

(** ** The whole of it *)

Lemma foldl_max_opt l : forall h,
  match foldl max_opt h l with
  | None => h = None /\ forall o, o ∈ l -> o = None
  | Some top => (h = Some top \/ Some top ∈ l) /\ (forall y, h = Some y -> y <= top)
                /\ forall x, Some x ∈ l -> x <= top
  end.
Proof.
  induction l as [|o l IH]; intros h; cbn [foldl].
  { destruct h as [y|].
    - split; [by left|]. split; [intros z [= ->]; lia|]. intros x Hx. by apply elem_of_nil in Hx.
    - split; [done|]. intros o Ho. by apply elem_of_nil in Ho. }
  specialize (IH (max_opt h o)). destruct (foldl max_opt (max_opt h o) l) as [top|].
  - destruct IH as (H1 & H2 & H3). split_and!.
    + destruct H1 as [H1|H1]; [|right; by right]. destruct o as [x|]; [|by left]. cbn in H1.
      destruct h as [y|]; injection H1 as <-.
      * destruct (Z.max_spec y x) as [[_ ->]|[_ ->]]; [right; by left|by left].
      * right; by left.
    + intros y ->. destruct o as [x|]; cbn in H2; [specialize (H2 _ eq_refl); lia|by apply H2].
    + intros x [<-|Hx]%elem_of_cons; [|by apply H3]. cbn in H2.
      specialize (H2 _ eq_refl). destruct h; lia.
  - destruct IH as [H1 H2]. destruct o as [x|]; [done|]. split; [done|].
    intros o [->|Ho]%elem_of_cons; [done|by apply H2].
Qed.

Lemma each_shard_all R (shards shards' : list Shard) :
  each_shard R (seq 0 (length shards)) shards shards' ->
  length shards' = length shards /\ Forall agrees shards'
  /\ forall i s s', shards !! i = Some s -> shards' !! i = Some s' -> R s s'.
Proof.
  intros [Hl He]. split; [done|]. split.
  - apply Forall_lookup. intros i s' Hs'.
    destruct (lookup_lt_is_Some_2 shards i) as [s Hs]; [rewrite <- Hl; by eapply lookup_lt_Some|].
    destruct (He i s Hs) as (s2 & Hs2 & Ha & _). congruence.
  - intros i s s' Hs Hs'. destruct (He i s Hs) as (s2 & Hs2 & _ & HR).
    rewrite decide_True in HR; [congruence|]. apply elem_of_seq. apply lookup_lt_Some in Hs. lia.
Qed.

Lemma all_indexes (shards : list Shard) : Forall (fun i => (i < length shards)%nat) (seq 0 (length shards)).
Proof. apply Forall_forall. intros i Hi%elem_of_seq. lia. Qed.

(** What [delete_by_tag] makes of one shard. *)
Definition invalidated (tag : bytes) (highest : option Z) (s s' : Shard) : Prop :=
  tag_only tag s s'
  /\ match disk_tag (view s.1) tag with
     | None => disk_tag (view s'.1) tag = None
     | Some (id, x) => exists top, highest = Some top /\ Z.min (x + 1) U64_MAX <= top
                        /\ disk_tag (view s'.1) tag = Some (id, top)
     end.

Lemma delete_by_tag_ok tag (shards : list Shard) :
  Forall agrees shards -> Forall (id_room 1) shards ->
  let '(shards', res) := delete_by_tag config info now_ms tag shards in
  match res with
  | Ok highest => length shards' = length shards /\ Forall agrees shards'
      /\ forall i s s', shards !! i = Some s -> shards' !! i = Some s' -> invalidated tag highest s s'
  | Err _ => Forall agrees shards' /\ length shards' = length shards
  | Panic _ => False
  end.
Proof.
  intros Ha Hroom. unfold delete_by_tag, mbind at 1 2, NodeM_bind at 1 2. cbn [node].
  pose proof (invalidate_loop_ok tag (seq 0 (length shards)) shards None Ha (NoDup_seq _ _)
    (all_indexes shards)) as Hinv.
  destruct (invalidate_loop _ _ _ _ _ _ _) as [shards1 [highest|e|why]]; [|done|done].
  destruct Hinv as [He Hh]. apply each_shard_all in He as (Hl1 & Ha1 & HR1).
  pose proof (foldl_max_opt (raised_gen tag <$> omap (fun i => shards !! i) (seq 0 (length shards))) None)
    as Hmax. rewrite <- Hh in Hmax.
  assert (forall i s, shards !! i = Some s ->
    raised_gen tag s ∈ raised_gen tag <$> omap (fun i => shards !! i) (seq 0 (length shards))) as Hin.
  { intros i s Hs. apply list_elem_of_fmap. exists s. split; [done|]. apply list_elem_of_omap.
    exists i. split; [|done]. apply elem_of_seq. apply lookup_lt_Some in Hs. lia. }
  destruct highest as [top|].
  2:{ cbn [mbind NodeM_bind mret NodeM_ret]. split; [done|]. split; [done|].
      intros i s s' Hs Hs'. destruct (HR1 i s s' Hs Hs') as (Ht & _ & Hd). split; [done|].
      destruct Hmax as [_ Hnone]. specialize (Hnone _ (Hin i s Hs)). unfold raised_gen in Hnone.
      by destruct (disk_tag (view s.1) tag) as [[id x]|]. }
  assert (fits 64 top) as Htop.
  { destruct Hmax as ([[=]|Htop] & _). apply list_elem_of_fmap in Htop as (s & Hs & Hsin).
    unfold raised_gen in Hs. destruct (disk_tag (view s.1) tag) as [[id x]|] eqn:E; [|done].
    injection Hs as ->. destruct (disk_tag_fits _ _ _ _ E) as [_ Hx]. clear -Hx. width. }
  pose proof (level_loop_ok tag top (seq 0 (length shards)) Htop shards1 Ha1 (NoDup_seq _ _)
    ltac:(rewrite <- Hl1; apply all_indexes)) as Hlev.
  assert (forall i s1, i ∈ seq 0 (length shards) -> shards1 !! i = Some s1 -> id_room 1 s1) as Hroom1.
  { intros i s1 _ Hs1.
    destruct (lookup_lt_is_Some_2 shards i) as [s Hs]; [rewrite <- Hl1; by eapply lookup_lt_Some|].
    destruct (HR1 i s s1 Hs Hs1) as (_ & Hn & _). rewrite Forall_lookup in Hroom.
    specialize (Hroom _ _ Hs). unfold id_room in *. lia. }
  specialize (Hlev Hroom1). unfold mbind at 1, NodeM_bind at 1.
  destruct (level_loop _ _ _ _ _ _ _) as [shards2 [[]|e|why]]; cbn [mret NodeM_ret]; [|by rewrite <- Hl1|done].
  rewrite <- Hl1 in Hlev. apply each_shard_all in Hlev as (Hl2 & Ha2 & HR2).
  split; [congruence|]. split; [done|]. intros i s s2 Hs Hs2.
  destruct (lookup_lt_is_Some_2 shards1 i) as [s1 Hs1]; [rewrite Hl1; by eapply lookup_lt_Some|].
  destruct (HR1 i s s1 Hs Hs1) as (Ht1 & _ & Hd1). destruct (HR2 i s1 s2 Hs1 Hs2) as (Ht2 & Hd2).
  split; [by eapply tag_only_trans|]. rewrite Hd2, Hd1.
  destruct Hmax as (_ & _ & Hle). specialize (Hin i s Hs). unfold raised_gen at 1 in Hin.
  destruct (disk_tag (view s.1) tag) as [[id x]|]; [|done]. cbn in *. apply Hle in Hin.
  exists top. split; [done|]. split; [done|]. do 2 f_equal. lia.
Qed.

(** C6 Invalidation across a node: once [delete_by_tag] answers, every record
    of every shard that carried the tag has stopped being served (short of a
    generation that had already run out of its width), every record that did
    not is served as before, and all the shards that hold the name agree on the
    generation that was answered.  When a shard's engine fails instead, memory
    still agrees with the contents of every shard; nothing panics. *)
Theorem delete_by_tag_everywhere tag (shards : list Shard) :
  Forall agrees shards -> Forall (id_room 1) shards ->
  let '(shards', res) := delete_by_tag config info now_ms tag shards in
  match res with
  | Ok highest =>
      length shards' = length shards /\ Forall agrees shards'
      /\ forall i s s', shards !! i = Some s -> shards' !! i = Some s' ->
         (forall id x, disk_tag (view s.1) tag = Some (id, x) ->
            exists top, highest = Some top /\ disk_tag (view s'.1) tag = Some (id, top))
         /\ (forall k rec, seen now_ms (view s.1) s.2 k = Some rec -> carries tag (view s.1) rec ->
              (forall id, disk_tag (view s.1) tag <> Some (id, U64_MAX)) ->
              seen now_ms (view s'.1) s'.2 k = None)
         /\ (forall k, (forall rec, recs (view s.1) !! k = Some rec -> ~ carries tag (view s.1) rec) ->
              seen now_ms (view s'.1) s'.2 k = seen now_ms (view s.1) s.2 k)
  | Err _ => Forall agrees shards' /\ length shards' = length shards
  | Panic _ => False
  end.
Proof.
  intros Ha Hroom. pose proof (delete_by_tag_ok tag shards Ha Hroom) as H.
  destruct (delete_by_tag _ _ _ _ _) as [shards' [highest|e|why]]; [|done|done].
  destruct H as (Hl & Ha' & H). split; [done|]. split; [done|]. intros i s s' Hs Hs'.
  destruct (H i s s' Hs Hs') as [Hto Hd]. rewrite Forall_lookup in Ha, Ha'.
  pose proof (Ha _ _ Hs) as Has. pose proof (Ha' _ _ Hs') as Has'. split_and!.
  - intros id x E. rewrite E in Hd. destruct Hd as (top & ? & _ & ?). by exists top.
  - intros k rec Hk Hc Hmax. destruct Hc as (t & x & Ht & E). rewrite E in Hd.
    destruct Hd as (top & _ & Hle & Htop). eapply raised_kills; [exact Has|exact Has'|exact Hto|exact E|exact Htop| |exact Hk|by exists t, x].
    destruct (disk_tag_fits _ _ _ _ E) as [_ Hx]. specialize (Hmax (tag_id t)).
    assert (x <> U64_MAX) by (intros ->; done). clear -Hle Hx H0. width.
  - intros k Hno. apply (tag_only_spares tag); [done..| |done].
    intros id y Hy. destruct (disk_tag (view s.1) tag) as [[id' x]|]; [|congruence].
    destruct Hd as (top & _ & _ & Htop). rewrite Htop in Hy. injection Hy as -> ->. by exists x.
Qed.

End Node.

#[local] Existing Instance NodeM_ret.
#[local] Existing Instance NodeM_bind.

Section Writes.
Context {T : Type} {BT : Backend T} {BL : BackendLaws T} {HS : Hash} {FT : FloatText} {ET : ErrorText}
  {SU : SortUnstable}.
Variable config : StoreConfig.
Variable info : EnvInfo.
Variable now_ms : Z.
Variable D : bytes -> Prop.
Hypothesis D_separates : forall k k', D k -> D k' -> xxh3_64 k' = xxh3_64 k -> k' = k.
Hypothesis now_sane : 0 <= now_ms < U64_MAX.

Abbreviation g := (sc_bucket_granularity_ms config).
Abbreviation Shard := (T * Ram)%type.
Abbreviation agrees := (agrees config D).
Abbreviation node_seen := (node_seen now_ms).

(** ** What a command does to a node *)

(** The owner of a key, as the command's verdict depends on it. *)
Definition owner_config (shards : list Shard) (key : bytes) : Config :=
  shard_config config (index_for shards key) (length shards).

Definition owner_ram (shards : list Shard) (key : bytes) : Ram :=
  match shards !! index_for shards key with Some (_, ram) => ram | None => mkRam 0 0 0 (TagRegistry_new 0) Pressure_Normal end.

(** What a change leaves a client to see under the key. *)
Definition seen_after (shards : list Shard) (key : bytes) (ch : Change) : option RecordRef :=
  match ch with
  | Keep => node_seen shards key
  | Cache.Store rec => if alive now_ms (owner_ram shards key) rec then Some rec else None
  | Remove => None
  end.

Record put_effect (key : bytes) (ch : Change) (shards shards' : list Shard) : Prop := {
  pe_length : length shards' = length shards;
  pe_agrees : Forall agrees shards';
  pe_key : node_seen shards' key = seen_after shards key ch;
  pe_others k : k <> key -> node_seen shards' k = node_seen shards k
}.

(** The node as it was, for every client. *)
Record unchanged (shards shards' : list Shard) : Prop := {
  un_length : length shards' = length shards;
  un_agrees : Forall agrees shards';
  un_seen k : node_seen shards' k = node_seen shards k
}.

(** The owner's transaction for the command does not commit. *)
Definition engine_failed (key : bytes) (op : WriteOp) (shards : list Shard) (e0 : StoreError) : Prop :=
  exists env ram, shards !! index_for shards key = Some (env, ram)
    /\ transaction_fails config info now_ms (owner_config shards key) op env ram e0.

(** What such a failure leaves: nothing changed, except that recovery may have
    removed records of a full map; none is altered or brought back. *)
Record failed_effect (e0 : StoreError) (shards shards' : list Shard) : Prop := {
  fe_length : length shards' = length shards;
  fe_agrees : Forall agrees shards';
  fe_seen k : node_seen shards' k = node_seen shards k
    \/ (is_capacity e0 = true /\ node_seen shards' k = None)
}.

(** An answer to the command [op] under the abstract cache's verdict on what the
    node serves: what it answers and leaves; what it refuses, with the same
    error; and otherwise the engine's failure. *)
Definition node_answers {A} (key : bytes) (op : WriteOp)
    (verdict : Config -> Z -> Z -> option RecordRef -> Verdict A)
    (shards : list Shard) (out : list Shard * Result StoreError A) : Prop :=
  let judged := verdict (owner_config shards key) (ram_epoch (owner_ram shards key))
    (cas_token (owner_config shards key) (owner_ram shards key)) (node_seen shards key) in
  match out.2 with
  | Ok a => exists ch, judged = Ok (ch, a) /\ put_effect key ch shards out.1
  | Err e =>
      (judged = Err e /\ unchanged shards out.1)
      \/ exists e0, engine_failed key op shards e0 /\ failed_effect e0 shards out.1
  | Panic _ => False
  end.

Lemma answered_ok {A} key op verdict shards out (a a' : A) ch :
  node_answers key op verdict shards out -> out.2 = Ok a ->
  verdict (owner_config shards key) (ram_epoch (owner_ram shards key))
    (cas_token (owner_config shards key) (owner_ram shards key)) (node_seen shards key) = Ok (ch, a') ->
  a = a' /\ put_effect key ch shards out.1.
Proof.
  intros H Hok Hv. unfold node_answers in H. rewrite Hok in H. destruct H as (ch' & Hv' & H).
  rewrite Hv in Hv'. by injection Hv' as -> ->.
Qed.

(** ** One shard replaced *)

Lemma agrees_Inv (shards : list Shard) :
  Forall agrees shards -> Forall (fun shard => Inv g (view shard.1)) shards.
Proof. intros H. eapply Forall_impl; [exact H|]. intros s Hs. exact (fl_inv _ _ _ _ _ Hs). Qed.

Lemma index_for_insert (shards : list Shard) i s k :
  index_for (<[i := s]> shards) k = index_for shards k.
Proof. unfold index_for. by rewrite length_insert. Qed.

Lemma node_seen_insert (shards : list Shard) i (s : Shard) k :
  (i < length shards)%nat ->
  node_seen (<[i := s]> shards) k
  = if decide (index_for shards k = i) then seen now_ms (view s.1) s.2 k else node_seen shards k.
Proof.
  intros Hi. unfold StoreSpec.node_seen. rewrite index_for_insert. case_decide as Hk.
  - rewrite Hk, list_lookup_insert_eq by done. by destruct s.
  - by rewrite list_lookup_insert_ne.
Qed.

Lemma owner_found (shards : list Shard) key env ram :
  shards !! index_for shards key = Some (env, ram) ->
  owner_ram shards key = ram /\ node_seen shards key = seen now_ms (view env) ram key.
Proof. intros E. unfold owner_ram, StoreSpec.node_seen. by rewrite E. Qed.

(** The shard [s'] in the place of one that showed the same under every key it
    owns, or of one that showed more. *)
Lemma replaced_unchanged (shards : list Shard) i env ram (s' : Shard) :
  shards !! i = Some (env, ram) -> Forall agrees shards -> agrees s' ->
  (forall k, seen now_ms (view s'.1) s'.2 k = seen now_ms (view env) ram k) ->
  unchanged shards (<[i := s']> shards).
Proof.
  intros Hs Ha Ha' H. pose proof (lookup_lt_Some _ _ _ Hs) as Hi.
  constructor; [by rewrite length_insert|by apply Forall_insert|]. intros k.
  rewrite node_seen_insert by done. case_decide as Hik; [|done].
  rewrite H. symmetry. apply owner_found. by rewrite Hik.
Qed.

Lemma replaced_failed e0 (shards : list Shard) i env ram (s' : Shard) :
  shards !! i = Some (env, ram) -> Forall agrees shards -> agrees s' ->
  (forall k, seen now_ms (view s'.1) s'.2 k = seen now_ms (view env) ram k
     \/ (is_capacity e0 = true /\ seen now_ms (view s'.1) s'.2 k = None)) ->
  failed_effect e0 shards (<[i := s']> shards).
Proof.
  intros Hs Ha Ha' H. pose proof (lookup_lt_Some _ _ _ Hs) as Hi.
  constructor; [by rewrite length_insert|by apply Forall_insert|]. intros k.
  rewrite node_seen_insert by done. case_decide as Hik; [|by left].
  assert (node_seen shards k = seen now_ms (view env) ram k) as -> by (apply owner_found; by rewrite Hik).
  apply H.
Qed.

Lemma maintained_seen env ram (s' : Shard) k :
  agrees (env, ram) -> agrees s' -> maintained (view env) (view s'.1) ->
  seen now_ms (view s'.1) s'.2 k = seen now_ms (view env) ram k \/ seen now_ms (view s'.1) s'.2 k = None.
Proof.
  intros Ha Ha' (Hr & Ht & Hm). unfold seen. destruct (Hr k) as [-> | ->]; [left|by right].
  destruct (recs (view env) !! k) as [rec|]; [|done]. cbn.
  by rewrite (agrees_alive g D _ _ _ _ now_ms rec Ha Ha' Ht (disk_epoch_meta _ _ Hm)).
Qed.

(** A verdict on a shard, seen through the node. *)
Lemma answered_seen cfg key {A} (verdict : Verdict A) env ram (s' : Shard) r1 a :
  agrees (env, ram) -> agrees s' ->
  answers cfg key verdict (view env) ram a (view s'.1) r1 ->
  exists ch, verdict = Ok (ch, a)
    /\ (forall k, seen now_ms (view s'.1) s'.2 k
          = if decide (k = key)
            then match ch with
                 | Keep => seen now_ms (view env) ram key
                 | Cache.Store rec => if alive now_ms ram rec then Some rec else None
                 | Remove => None
                 end
            else seen now_ms (view env) ram k).
Proof.
  intros Ha Ha' (ch & Hv & Hch & Ht & _). exists ch. split; [done|].
  assert (disk_epoch (view s'.1) = disk_epoch (view env)) as He.
  { destruct ch as [|rec|].
    - by destruct Hch as [-> _].
    - destruct Hch as (_ & Hm & _). by rewrite (disk_epoch_meta _ _ Hm), disk_epoch_cas.
    - destruct Hch as (_ & Hm & _). by apply disk_epoch_meta. }
  intros k. unfold seen.
  assert (forall rec, alive now_ms s'.2 rec = alive now_ms ram rec) as Hal.
  { intros rec. by apply (agrees_alive g D _ _ _ _ now_ms rec Ha Ha'). }
  destruct ch as [|rec|].
  - destruct Hch as [Hv' _]. rewrite Hv'. case_decide as Hk; [subst k|];
      destruct (recs (view env) !! _) as [rec|]; cbn; by rewrite ?Hal.
  - destruct Hch as (-> & _). case_decide as Hk.
    + subst k. rewrite lookup_insert_eq. cbn. by rewrite Hal.
    + rewrite lookup_insert_ne by done. destruct (recs (view env) !! _) as [rec'|]; cbn; by rewrite ?Hal.
  - destruct Hch as (-> & _). case_decide as Hk.
    + subst k. by rewrite lookup_delete_eq.
    + rewrite lookup_delete_ne by done. destruct (recs (view env) !! _) as [rec'|]; cbn; by rewrite ?Hal.
Qed.

(** What an engine failure leaves of the owner is what it leaves of the node. *)
Lemma engine_left_behind key op e0 (shards : list Shard) env ram (s' : Shard) :
  shards !! index_for shards key = Some (env, ram) -> Forall agrees shards -> agrees s' ->
  transaction_fails config info now_ms (owner_config shards key) op env ram e0 ->
  maintained (view env) (view s'.1) -> (is_capacity e0 = false -> view s'.1 = view env) ->
  engine_failed key op shards e0 /\ failed_effect e0 shards (<[index_for shards key := s']> shards).
Proof.
  intros Hs Ha Ha' Hf Hmt Hsame. pose proof (Forall_lookup_1 _ _ _ _ Ha Hs) as Has.
  split; [by exists env, ram|]. eapply replaced_failed; try done. intros k.
  destruct (is_capacity e0).
  - destruct (maintained_seen env ram s' k Has Ha' Hmt); [by left|by right].
  - left. apply (agrees_seen g D _ _ _ _ now_ms k Has Ha'); by rewrite Hsame.
Qed.

(** ** A command sent to the owner of its key *)

Lemma owner_answers {A} key op (verdict : Config -> Z -> Z -> option RecordRef -> Verdict A)
    (answer : WriteOutcome -> option A) (shards : list Shard) :
  shards <> [] -> Forall agrees shards -> op_ready D op -> creations op = 0 ->
  (forall cfg out v r v' r', op_spec cfg now_ms op out v r v' r' ->
     exists a, answer out = Some a
       /\ key_step cfg key (fun v r => verdict cfg (ram_epoch r) (cas_token cfg r) (seen now_ms v r key)) a v r v' r') ->
  (forall cfg e v r v' r', op_refused cfg now_ms op e v r v' r' ->
     verdict cfg (ram_epoch r) (cas_token cfg r) (seen now_ms v r key) = Err e /\ v' = v) ->
  forall f : WriteOutcome -> NodeM (T:=T) A,
  (forall out a, answer out = Some a -> forall s, f out s = (s, Ok a)) ->
  node_answers key op verdict shards
    ((submit config info now_ms (index_for shards key) op ≫= f) shards).
Proof.
  intros Hne Ha Hop Hc Hspec Hrefuse f Hf.
  destruct (owner_of g now_ms shards Hne (agrees_Inv _ Ha) key) as (env & ram & E & _ & Hseen).
  unfold mbind, NodeM_bind at 1.
  pose proof (Forall_lookup_1 _ _ _ _ Ha E) as Has.
  destruct (submit_ok config info now_ms D D_separates now_sane shards _ op env ram E Has Hop) as (s' & Hsub).
  { unfold id_room. rewrite Hc, Z.add_0_r. exact (proj2 (proj1 (fl_ids _ _ _ _ _ Has))). }
  destruct (submit _ _ _ _ _ _) as [shards1 [out|e|why]]; destruct Hsub as (-> & Has' & Hres);
    [| |done].
  2:{ unfold node_answers. cbn [fst snd]. destruct (owner_found _ _ _ _ E) as [-> ->].
      destruct Hres as [[r1 Hr]|(e0 & Hf0 & Hmt & Hsame)].
      - left. apply Hrefuse in Hr as [Hv Hsame]. split; [exact Hv|].
        eapply replaced_unchanged; try done. intros k.
        apply (agrees_seen g D _ _ _ _ now_ms k Has Has'); by rewrite Hsame.
      - right. exists e0. by eapply engine_left_behind. }
  destruct Hres as (r1 & Hop' & _). apply Hspec in Hop' as (a & Hout & Hstep).
  rewrite (Hf out a Hout). unfold node_answers. cbn [fst snd].
  destruct (answered_seen _ _ _ env ram s' r1 a Has Has' Hstep) as (ch & Hv & Hk).
  destruct (owner_found _ _ _ _ E) as [Hram Hns].
  exists ch. rewrite Hram, Hns. split; [exact Hv|].
  pose proof (lookup_lt_Some _ _ _ E) as Hi.
  split.
  - by rewrite length_insert.
  - by apply Forall_insert.
  - rewrite node_seen_insert, decide_True by done. rewrite Hk, decide_True by done.
    unfold seen_after. by rewrite Hram, Hns.
  - intros k Hkk. rewrite node_seen_insert by done. case_decide as Hi'; [|done].
    rewrite Hk, decide_False by done. unfold StoreSpec.node_seen. by rewrite Hi', E.
Qed.

Lemma on_owner_ok {A} key op (verdict : Config -> Z -> Z -> option RecordRef -> Verdict A)
    (answer : WriteOutcome -> option A) (shards : list Shard) :
  shards <> [] -> Forall agrees shards -> op_ready D op -> creations op = 0 ->
  (forall cfg out v r v' r', op_spec cfg now_ms op out v r v' r' ->
     exists a, answer out = Some a
       /\ key_step cfg key (fun v r => verdict cfg (ram_epoch r) (cas_token cfg r) (seen now_ms v r key)) a v r v' r') ->
  (forall cfg e v r v' r', op_refused cfg now_ms op e v r v' r' ->
     verdict cfg (ram_epoch r) (cas_token cfg r) (seen now_ms v r key) = Err e /\ v' = v) ->
  forall f : WriteOutcome -> NodeM (T:=T) A,
  (forall out a, answer out = Some a -> forall s, f out s = (s, Ok a)) ->
  node_answers key op verdict shards ((on_owner config info now_ms key op ≫= f) shards).
Proof. intros. by eapply owner_answers. Qed.

Lemma each_one {X A} (R : X -> A -> Views -> Ram -> Views -> Ram -> Prop) x l v r v' r' :
  each R [x] l v r v' r' -> exists a, l = [a] /\ R x a v r v' r'.
Proof.
  intros H. inversion H as [|? a ? l' ? ? v1 r1 ? ? Hx Hrest]; subst. inversion Hrest; subst. by exists a.
Qed.

(** C11 The commands on one key (expire, arithmetic, append, delete, touch), as a
    client of a node meets them: for every number of shards, the answer is the
    abstract cache's verdict on the record the node serves under the key, at the
    owner's epoch and next token; afterwards the node serves under the key what
    the verdict says and under every other key what it served before. An error is
    the one the abstract cache refuses the command with, and then nothing
    changed; or the owner's transaction failed in the engine, and then nothing
    changed either, except that on a full map recovery may have removed records
    (it alters none); nothing panics. *)
Theorem node_key_commands key (shards : list Shard) :
  shards <> [] -> Forall agrees shards -> D key ->
  (forall ttl guard, ttl_ok ttl ->
     node_answers key (Op_Expire key ttl guard) (fun _ _ tok seen => spec_expire now_ms tok ttl guard seen)
       shards (expire config info now_ms key ttl guard shards))
  /\ (forall op, ar_key op = key -> ttl_ok (ar_ttl op) ->
     node_answers key (Op_Arithmetic (OwnedArithmetic_new op))
       (fun cfg epoch tok seen => spec_arithmetic cfg now_ms epoch tok op seen)
       shards (arithmetic config info now_ms op shards))
  /\ (forall suffix,
     node_answers key (Op_Append key suffix) (fun cfg epoch tok seen => spec_append cfg epoch tok suffix seen)
       shards (append config info now_ms key suffix shards))
  /\ node_answers key (Op_Delete [key]) (fun _ _ _ seen => spec_delete seen)
       shards (node_delete config info now_ms key shards)
  /\ (forall ttl_secs, fits 32 ttl_secs ->
     node_answers key (Op_Touch [key] ttl_secs) (fun _ _ tok seen => spec_touch now_ms tok ttl_secs seen)
       shards (touch config info now_ms key ttl_secs shards)).
Proof.
  intros Hne Ha Hk. split_and!.
  - intros ttl guard Httl.
    apply (on_owner_ok key _ _ (fun out => match out with Out_Applied b => Some b | _ => None end));
      try done; [intros cfg [] *; try done; cbn; eauto|by intros [] a; intros [= <-]].
  - intros op <- Httl.
    apply (on_owner_ok (ar_key op) _ _ (fun out => match out with Out_Arithmetic b => Some b | _ => None end));
      try done; [intros cfg [] *; try done; cbn; eauto| |by intros [] a; intros [= <-]].
    by intros cfg e v r v' r' (Hv & -> & _).
  - intros suffix.
    apply (on_owner_ok key _ _ (fun out => match out with Out_Length b => Some b | _ => None end));
      try done; [intros cfg [] *; try done; cbn; eauto| |by intros [] a; intros [= <-]].
    by intros cfg e v r v' r' (Hv & -> & _).
  - apply (on_owner_ok key _ _ (fun out => match out with Out_Deleted b => Some (first_hit b) | _ => None end));
      try done; [by constructor| |by intros [] a; intros [= <-]].
    intros cfg [] *; try done; cbn. intros (a & -> & Hstep)%each_one. by exists a.
  - intros ttl_secs Httl.
    apply (on_owner_ok key _ _ (fun out => match out with Out_Touched b => Some (first_hit b) | _ => None end));
      try done; [split; [by constructor|done]| |by intros [] a; intros [= <-]].
    intros cfg [] *; try done; cbn. intros (a & -> & Hstep)%each_one. by exists a.
Qed.

(** ** Registering the tags of a write *)

Lemma runs_one {A} (shards : list Shard) (key_of : A -> bytes) x :
  shards <> [] ->
  grouped_runs key_of shards [x]
  = [(index_for shards (key_of x), [mkPlaced (index_for shards (key_of x)) 0 x])].
Proof.
  intros Hne. unfold grouped_runs.
  destruct (group_exact_ok (length shards) key_of ltac:(destruct shards; [done|cbn; lia]) [x])
    as (Hperm & _ & Hruns).
  set (rs := runs _) in *. cbn [imap] in Hperm.
  set (p := place (length shards) (shard_mask (Z.of_nat (length shards))) key_of 0 x) in Hperm.
  assert (p = mkPlaced (index_for shards (key_of x)) 0 x) as Hp by done. clearbody p rs.
  change ([] : list (Placed A)) with ([] : list (Placed A)) in Hperm.
  destruct rs as [|[s run] rs]; [by apply Permutation_nil_l in Hperm|].
  assert (rs = []) as ->.
  { destruct rs as [|[s' run'] rs]; [done|]. exfalso.
    destruct (Hruns s run ltac:(left)) as (H1 & _), (Hruns s' run' ltac:(right; left)) as (H2 & _).
    apply Permutation_length in Hperm. cbn in Hperm. rewrite !length_app in Hperm.
    destruct run, run'; cbn in *; try done; lia. }
  cbn in Hperm. rewrite app_nil_r in Hperm. apply Permutation_singleton_r in Hperm as ->.
  destruct (Hruns s [p] ltac:(left)) as (_ & _ & Hin).
  destruct (proj1 (Hin p) ltac:(left)) as (_ & Hs & _). by rewrite <- Hs, Hp.
Qed.

(** The names a write would register, each at the generation the node holds. *)
Definition proposed (shards : list Shard) (set : SetReq) : list (bytes * Z) :=
  (fun name => (name, default 0 (node_generation shards name))) <$> s_tags set.

(** Only the owner of the write's key has changed, and as [change] says. *)
Record at_owner (set : SetReq) (change : Views -> Views -> Prop) (shards shards1 : list Shard) : Prop := {
  ao_length : length shards1 = length shards;
  ao_agrees : Forall agrees shards1;
  ao_shards i s s1 : shards !! i = Some s -> shards1 !! i = Some s1 ->
    if decide (i = index_for shards (s_key set)) then change (view s.1) (view s1.1) else s1 = s
}.

(** Every tag of the write has an id on the shard that will hold it. *)
Definition registered (shards : list Shard) (set : SetReq) : Prop :=
  forall name, name ∈ s_tags set -> is_Some (reg_names (ram_tags (owner_ram shards (s_key set))) name).

Lemma created_mono names names' v v' :
  (forall x, x ∈ names -> x ∈ names') -> created names v v' -> created names' v v'.
Proof.
  intros Hn (H1 & H2 & H3 & H4). split_and!; try done; [apply H1..|]. intros n.
  destruct (H4 n) as [?|(? & id & g0 & ? & ?)]; [by left|right]. split; [done|]. exists id, g0. auto.
Qed.

Lemma at_owner_refl set (change : Views -> Views -> Prop) (shards : list Shard) :
  Forall agrees shards -> (forall v, change v v) -> at_owner set change shards shards.
Proof.
  intros Ha Hc. constructor; [done|done|]. intros i s s1 Hs Hs1. rewrite Hs in Hs1. injection Hs1 as ->.
  by case_decide.
Qed.

Lemma at_owner_insert set (change : Views -> Views -> Prop) (shards : list Shard) s (s' : Shard) :
  shards !! index_for shards (s_key set) = Some s -> Forall agrees shards -> agrees s' ->
  change (view s.1) (view s'.1) ->
  at_owner set change shards (<[index_for shards (s_key set) := s']> shards).
Proof.
  intros Hs Ha Ha' Hc. constructor; [by rewrite length_insert|by apply Forall_insert|].
  intros i s0 s1 H0 H1. case_decide as Hi.
  - subst i. rewrite list_lookup_insert_eq in H1 by by eapply lookup_lt_Some.
    injection H1 as <-. congruence.
  - rewrite list_lookup_insert_ne in H1 by done. congruence.
Qed.

Lemma add_missing_spec (shards : list Shard) names : forall acc,
  (forall x, x ∈ foldl (add_missing shards) acc names ->
     x ∈ acc \/ exists n, n ∈ names /\ x = (n, default 0 (node_generation shards n)))
  /\ (forall n, n ∈ names \/ n ∈ acc.*1 -> n ∈ (foldl (add_missing shards) acc names).*1)
  /\ len (foldl (add_missing shards) acc names) <= len acc + len names.
Proof.
  induction names as [|n names IH]; intros acc; cbn [foldl].
  { split_and!; [by left|intros n [Hn|Hn]; [by apply elem_of_nil in Hn|done]|unfold len; cbn; lia]. }
  destruct (IH (add_missing shards acc n)) as (H1 & H2 & H3). unfold add_missing in *.
  assert (len (n :: names) = len names + 1) as Hlen by (unfold len; cbn [length]; lia). rewrite Hlen in *.
  destruct (existsb _ acc) eqn:E.
  - split_and!; [| |lia].
    + intros x [?|(m & Hm & ->)]%H1; [by left|right; exists m; split; [by right|done]].
    + intros m [[->|Hm]%elem_of_cons|Hm]; apply H2; auto. right.
      apply existsb_exists in E as ([a b] & Hin & Hb%bool_decide_eq_true_1). subst a.
      apply list_elem_of_fmap. exists (n, b). split; [done|]. by apply list_elem_of_In.
  - rewrite len_app in H3. change (len [(n, default 0 (node_generation shards n))]) with 1 in H3.
    split_and!; [| |lia].
    + intros x [Hx|(m & Hm & ->)]%H1; [|right; exists m; split; [by right|done]].
      apply elem_of_app in Hx as [?| ->%list_elem_of_singleton]; [by left|right]. exists n. split; [by left|done].
    + intros m Hm. apply H2. rewrite fmap_app, elem_of_app. cbn.
      destruct Hm as [[->|Hm]%elem_of_cons|Hm]; [right; right; by left|by left|right; by left].
Qed.

Lemma node_generation_fits (shards : list Shard) name x :
  Forall agrees shards -> node_generation shards name = Some x -> fits 64 x.
Proof.
  intros Ha. unfold node_generation, highest_of.
  assert (forall l h, (forall y, h = Some y -> fits 64 y) -> Forall (fits 64) l ->
    forall y, foldl (fun highest g => Some (match highest with Some h => Z.max h g | None => g end)) h l = Some y ->
      fits 64 y) as Hfold.
  { induction l as [|z l IH]; intros h Hh Hl y; cbn [foldl]; [apply Hh|].
    apply Forall_cons in Hl as [Hz Hl]. apply IH; [|done]. intros y' [= <-].
    destruct h as [h0|]; [|done]. destruct (Z.max_spec h0 z) as [[_ ->]|[_ ->]]; [done|by apply Hh]. }
  apply Hfold; [done|]. apply Forall_forall. intros y Hy. apply list_elem_of_omap in Hy as (s & Hs & Hg).
  rewrite Forall_forall in Ha. rewrite (agrees_generation_of config D _ _ (Ha _ Hs)) in Hg.
  destruct (disk_tag (view s.1) name) as [[id g0]|] eqn:E; [|done]. injection Hg as <-.
  by destruct (disk_tag_fits _ _ _ _ E).
Qed.

(** ** Writes of a whole value *)

(** What [prepare] makes of a request whose tags are registered: the record
    carries each of them at its current generation. *)
Record prepared_for (ram : Ram) (set : SetReq) (p : PreparedSet) (rec0 : RecordRef) : Prop := {
  pf_ok : prepared_ok p rec0;
  pf_key : ps_key p = s_key set;
  pf_ttl : ps_ttl p = s_ttl set;
  pf_pre_read : ps_pre_read p = None;
  pf_previous : ps_return_previous p = s_return_previous set;
  pf_deadline : ps_expires_at_ms p
    = match s_ttl set with Ttl_Set secs => Some (expiry_from_ttl now_ms secs) | _ => None end;
  pf_value : value rec0 = s_value set;
  pf_tags : Forall2 (fun name t => reg_names (ram_tags ram) name = Some (tag_id t, generation t))
              (s_tags set) (tags rec0);
  pf_flags : mc_flags rec0 = s_mc_flags set;
  pf_epoch : h_epoch (header rec0) = ram_epoch ram
}.

Definition set_ready (set : SetReq) : Prop :=
  D (s_key set) /\ ttl_ok (s_ttl set) /\ fits 32 (s_mc_flags set).

Lemma names_agree env ram n : agrees (env, ram) -> reg_names (ram_tags ram) n = disk_tag (view env) n.
Proof. exact (agrees_names config D (env, ram) n). Qed.

Lemma lookup_agrees env ram id x : agrees (env, ram) -> 0 <= id ->
  lookup_generation (ram_tags ram) id = Some x <-> exists n, disk_tag (view env) n = Some (id, x).
Proof. exact (agrees_lookup config D (env, ram) id x). Qed.

(** Before the write: every tag gets an id on the owner, and nothing else changes;
    or the write is refused, and at most some of the names were registered (or
    the engine failed, and recovery may have removed records). *)
Lemma ensure_tags_ok set (shards : list Shard) :
  shards <> [] -> Forall agrees shards ->
  (forall s, shards !! index_for shards (s_key set) = Some s -> id_room (len (s_tags set)) s) ->
  let '(shards1, res) := ensure_tags_registered config info now_ms [set] shards in
  match res with
  | Ok _ => at_owner set (created (proposed shards set)) shards shards1 /\ registered shards1 set
  | Err _ => at_owner set (fun v v' => created (proposed shards set) v v' \/ (may_fail (T:=T) /\ maintained v v'))
               shards shards1
  | Panic _ => False
  end.
Proof.
  intros Hne Ha Hroom. unfold ensure_tags_registered, mbind at 1, NodeM_bind at 1, pure.
  destruct (check_tag_counts config [set]) as [[]|e|why] eqn:Ec.
  2:{ apply at_owner_refl; [done|]. intros v. left. apply created_refl. }
  2:{ unfold check_tag_counts in Ec. cbn [collect] in Ec. unfold validate_tags in Ec.
      destruct (_ <? _) in Ec; discriminate Ec. }
  cbn [forallb]. rewrite andb_true_r. case_bool_decide as Ht.
  { split; [apply at_owner_refl; [done|]; intros; apply created_refl|].
    intros name. rewrite Ht. by intros ?%elem_of_nil. }
  unfold mbind at 1, NodeM_bind at 1. cbn [node]. rewrite runs_one by done.
  destruct (owner_of g now_ms shards Hne (agrees_Inv _ Ha) (s_key set)) as (env & ram & E & _).
  specialize (Hroom _ E). set (idx := index_for shards (s_key set)) in *.
  pose proof (Forall_lookup_1 _ _ _ _ Ha E) as Has.
  cbn [register_runs fmap list_fmap pl_item]. unfold mbind at 1, NodeM_bind at 1. cbn [node].
  set (names := foldl (add_missing shards) [] (missing (ram_tags ram) (s_tags set))).
  assert (missing_of shards [set] = Ok names /\ registrar shards [set] = Some idx) as [-> ->].
  { unfold missing_of, registrar. cbn [foldl mbind Result_bind]. fold idx. rewrite E.
    by destruct (s_tags set). }
  destruct (missing_spec (ram_tags ram) (s_tags set)) as [Hmnd Hmiss].
  destruct (add_missing_spec shards (missing (ram_tags ram) (s_tags set)) []) as (Hn1 & Hn2 & Hn3).
  fold names in Hn1, Hn2, Hn3.
  assert (forall x, x ∈ names -> x ∈ proposed shards set) as Hprop.
  { intros x [Hx|(n & Hn & ->)]%Hn1; [by apply elem_of_nil in Hx|]. apply list_elem_of_fmap.
    exists n. split; [done|]. by apply Hmiss. }
  assert (len names <= len (s_tags set)) as Hlen.
  { assert (length (missing (ram_tags ram) (s_tags set)) <= length (s_tags set))%nat.
    { apply submseteq_length, NoDup_submseteq; [done|]. intros n Hn. by apply Hmiss. }
    unfold len in *. cbn in Hn3. lia. }
  assert (forall n, n ∈ s_tags set -> n ∈ names.*1 \/ is_Some (reg_names (ram_tags ram) n)) as Hall.
  { intros n Hn. destruct (by_name (ram_tags ram) !! n) eqn:Eb; [right|left].
    - destruct (fl_reg _ _ _ _ _ Has) as [Hreg _]. cbn in Hreg.
      destruct (Hreg _ _ Eb) as (e & He & _). unfold reg_names, entry_by_name. rewrite Eb. cbn. by rewrite He.
    - apply Hn2. left. by apply Hmiss. }
  unfold mbind at 1, NodeM_bind at 1, pure. unfold mbind at 1, NodeM_bind at 1.
  destruct (Z.eqb_spec (len names) 0) as [H0|H0].
  { cbn. split; [apply at_owner_refl; [done|]; intros; apply created_refl|].
    assert (names = []) as Hnil by (destruct names; [done|unfold len in H0; cbn in H0; lia]).
    intros n Hn. unfold owner_ram. fold idx. rewrite E. destruct (Hall n Hn) as [Hx|?]; [|done].
    rewrite Hnil in Hx. by apply elem_of_nil in Hx. }
  unfold writer_create_tags, mbind at 1, NodeM_bind at 1.
  destruct (submit_ok config info now_ms D D_separates now_sane shards idx (Op_CreateTags names) env ram
    E Has) as (s' & Hsub).
  { cbn. apply Forall_forall. intros [n g0] Hx%Hprop. apply list_elem_of_fmap in Hx as (m & Hm & _).
    injection Hm as -> ->. destruct (node_generation shards m) eqn:Eg; [by eapply node_generation_fits|]. cbn. clear. width. }
  { unfold id_room in *. cbn in *. lia. }
  destruct (submit _ _ _ _ _ _) as [shards1 [out|e|why]]; destruct Hsub as (-> & Has' & Hres); [| |done].
  - destruct Hres as (r1 & Hspec & _). cbn [mret NodeM_ret]. destruct out; try done.
    destruct Hspec as (Hc & _ & Hsome). split.
    + apply (at_owner_insert set _ shards (env, ram) s'); try done. by eapply created_mono.
    + intros n Hn. unfold owner_ram. rewrite index_for_insert. fold idx.
      rewrite list_lookup_insert_eq by by eapply lookup_lt_Some. destruct s' as [env' ram'].
      rewrite (names_agree env' ram' n Has').
      destruct (Hall n Hn) as [Hx|Hx]; [by apply Hsome|].
      rewrite (names_agree env ram n Has) in Hx. by eapply created_keeps.
  - cbn. apply (at_owner_insert set _ shards (env, ram) s'); try done.
    destruct Hres as [(r1 & _ & Hc & _)|(e0 & [Hm _] & Hmt & _)]; [left|by right].
    by eapply created_mono.
Qed.

Lemma resolve_total r names why : resolve r names <> Panic why.
Proof.
  revert why. induction names as [|x names IH]; intros why; [done|]. rewrite resolve_cons.
  unfold resolve_one. destruct (entry_by_name r x) as [e|]; [|done]. rewrite bind_ok.
  destruct (resolve r names) as [ys|e'|w]; [done|done|]. by destruct (IH w).
Qed.

Lemma prepare_registered (shards : list Shard) set :
  shards <> [] -> Forall agrees shards -> set_ready set -> registered shards set ->
  match prepare config now_ms (index_for shards (s_key set)) shards set with
  | Ok p => exists rec0, prepared_for (owner_ram shards (s_key set)) set p rec0
  | Err _ => True
  | Panic _ => False
  end.
Proof.
  intros Hne Ha (_ & Httl & Hfl) Hreg.
  destruct (owner_of g now_ms shards Hne (agrees_Inv _ Ha) (s_key set)) as (env & ram & E & _).
  unfold prepare. rewrite E. unfold registered in Hreg. destruct (owner_found _ _ _ _ E) as [Hram _].
  rewrite Hram in *. pose proof (Forall_lookup_1 _ _ _ _ Ha E) as Has.
  destruct (resolve (ram_tags ram) (s_tags set)) as [refs|name|why] eqn:Er; [|done|].
  2:{ by destruct (resolve_total (ram_tags ram) (s_tags set) why). }
  apply resolve_ok in Er.
  assert (Forall tag_ok refs) as Hts.
  { apply Forall_forall. intros t Ht. apply list_elem_of_lookup in Ht as [i Hi].
    destruct (Forall2_lookup_r _ _ _ _ _ Er Hi) as (name & _ & Hn).
    rewrite (names_agree env ram name Has) in Hn. by destruct (disk_tag_fits _ _ _ _ Hn). }
  pose proof (prepare_set_ok (shard_config config (index_for shards (s_key set)) (length shards)) now_ms
    ram set refs ltac:(clear -now_sane; width) (fl_epoch_fits _ _ _ _ _ Has) Hfl Httl Hts) as H.
  destruct (prepare_set _ _ _ _ _) as [p|e|why]; [|done|done].
  destruct H as (_ & _ & _ & H1 & H2 & H3 & H4 & H5 & rec0 & H6 & H7 & H8 & H9 & H10).
  exists rec0. split; try done. by rewrite H8.
Qed.

Abbreviation ensure := (ensure_tags_registered config info now_ms).

(** [set] as a call to the key's owner, once its tags are registered. *)
Lemma node_set_owner (shards shards1 : list Shard) set :
  shards1 <> [] -> ensure [set] shards = (shards1, Ok ()) ->
  node_set config info now_ms set shards
  = match prepare config now_ms (index_for shards1 (s_key set)) shards1 set with
    | Ok p =>
        (submit config info now_ms (index_for shards1 (s_key set)) (Op_Set [p])
           ≫= fun outcome => match outcome with
                             | Out_Cas tokens => mret (default 0 (head tokens))
                             | _ => fail mismatched_reply
                             end) shards1
    | Err e => (shards1, Err e)
    | Panic why => (shards1, Panic why)
    end.
Proof.
  intros Hne He. unfold node_set, set_many, submit_set_many, mbind, NodeM_bind.
  rewrite He. cbn [node]. rewrite runs_one by done.
  cbn [send_runs fmap list_fmap pl_item pl_position].
  unfold mbind, NodeM_bind, pure. cbn [node collect].
  destruct (prepare _ _ _ _ _) as [p|e|why]; [|done|done]. cbn [mbind Result_bind].
  destruct (submit _ _ _ _ _ _) as [shards2 [out|e|why]]; [|done|done].
  destruct out; try done. cbn [mret NodeM_ret wait_all mbind Result_bind length replicate].
  destruct cas as [|token rest]; cbn; [done|]. by destruct rest.
Qed.

(** [store] likewise. *)
Lemma store_owner (shards shards1 : list Shard) set :
  ensure [set] shards = (shards1, Ok ()) ->
  store config info now_ms set shards
  = match prepare config now_ms (index_for shards1 (s_key set)) shards1 set with
    | Ok p =>
        (submit config info now_ms (index_for shards1 (s_key set)) (Op_ConditionalSet p (s_mode set))
           ≫= fun outcome => match outcome with
                             | Out_Written written => mret written
                             | _ => fail mismatched_reply
                             end) shards1
    | Err e => (shards1, Err e)
    | Panic why => (shards1, Panic why)
    end.
Proof.
  intros He. unfold store, mbind, NodeM_bind. rewrite He. cbn [node].
  unfold pure. by destruct (prepare _ _ _ _ _).
Qed.

Lemma not_registered (shards shards1 : list Shard) set e :
  ensure [set] shards = (shards1, Err e) ->
  store config info now_ms set shards = (shards1, Err e)
  /\ node_set config info now_ms set shards = (shards1, Err e).
Proof.
  intros He. unfold store, node_set, set_many, submit_set_many, mbind, NodeM_bind. by rewrite He.
Qed.

(** The deadline a request asks for. *)
Definition asked_deadline (set : SetReq) (seen : option RecordRef) : Z :=
  match s_ttl set with
  | Ttl_Set secs => expiry_from_ttl now_ms secs
  | ttl => deadline_after now_ms ttl (default NEVER (expires_at_ms <$> seen))
  end.

(** The record a request describes, as its owner would store it. *)
Record describes (ram : Ram) (set : SetReq) (seen : option RecordRef) (tok : Z) (rec : RecordRef) : Prop := {
  ds_value : value rec = s_value set;
  ds_flags : mc_flags rec = s_mc_flags set;
  ds_tags : Forall2 (fun name t => reg_names (ram_tags ram) name = Some (tag_id t, generation t))
              (s_tags set) (tags rec);
  ds_token : cas rec = tok;
  ds_epoch : h_epoch (header rec) = ram_epoch ram;
  ds_deadline : expires_at_ms rec = asked_deadline set seen
}.

Lemma settled set ram p rec0 tok seen :
  prepared_for ram set p rec0 -> describes ram set seen tok (settle now_ms tok p rec0 seen).
Proof.
  intros [(_ & _ & Hx & _) Hkey Httl _ _ Hd Hv Ht Hf He]. unfold settle.
  constructor; try (by destruct (ps_expires_at_ms p)).
  unfold asked_deadline. rewrite Hd, Httl in *. destruct (s_ttl set) eqn:E; cbn; try done; by apply Hx.
Qed.

(** Such a record is served until its deadline: its tags are at their current
    generation. *)
Lemma described_alive env ram set seen tok rec :
  agrees (env, ram) -> describes ram set seen tok rec ->
  alive now_ms ram rec = negb (is_expired rec now_ms).
Proof.
  intros Ha [_ _ Ht _ He _]. unfold alive, is_alive, is_flushed. rewrite He, Z.eqb_refl.
  assert (tags_alive rec (lookup_generation (ram_tags ram)) = true) as ->; [|by rewrite !andb_true_r].
  unfold tags_alive. apply forallb_forall. intros t Hin%list_elem_of_In.
  apply list_elem_of_lookup in Hin as [i Hi]. destruct (Forall2_lookup_r _ _ _ _ _ Ht Hi) as (name & _ & Hn).
  rewrite (names_agree env ram name Ha) in Hn. destruct (disk_tag_fits _ _ _ _ Hn) as [[Hid _] _].
  rewrite (proj2 (lookup_agrees env ram (tag_id t) (generation t) Ha Hid)) by by exists name.
  by rewrite Z.eqb_refl.
Qed.

Lemma set_answers (shards shards1 : list Shard) set p rec0 :
  shards1 <> [] -> Forall agrees shards1 -> set_ready set -> ensure [set] shards = (shards1, Ok ()) ->
  prepare config now_ms (index_for shards1 (s_key set)) shards1 set = Ok p ->
  prepared_for (owner_ram shards1 (s_key set)) set p rec0 ->
  node_answers (s_key set) (Op_Set [p])
    (fun _ _ tok seen => Ok (Cache.Store (settle now_ms tok p rec0 seen), tok)) shards1
    (node_set config info now_ms set shards).
Proof.
  intros Hne Ha (Hk & _ & _) He Hp Hpf. rewrite (node_set_owner shards shards1), Hp by done.
  pose proof (pf_ok _ _ _ _ Hpf) as Hok. pose proof (pf_key _ _ _ _ Hpf) as Hkey.
  apply (owner_answers (s_key set) (Op_Set [p])
    (fun _ _ tok seen => Ok (Cache.Store (settle now_ms tok p rec0 seen), tok))
    (fun out => match out with Out_Cas tokens => Some (default 0 (head tokens)) | _ => None end)); try done.
  - apply Forall_singleton. rewrite Hkey, (pf_pre_read _ _ _ _ Hpf). split_and!; [done..|by exists rec0].
  - intros cfg [] v r v' r' H; try done. cbn in H. destruct H as (applied & -> & H).
    apply each_one in H as (a & -> & rec1 & H1 & ch & Hv & Hch). rewrite Hkey in *.
    assert (rec1 = rec0) as -> by (destruct Hok as [E0 _], H1 as [E1 _]; congruence).
    injection Hv as <- <-. exists (cas_token cfg r). split; [done|]. by eexists.
  - by intros [] a; intros [= <-].
Qed.

Lemma store_answers (shards shards1 : list Shard) set p rec0 :
  shards1 <> [] -> Forall agrees shards1 -> set_ready set -> ensure [set] shards = (shards1, Ok ()) ->
  prepare config now_ms (index_for shards1 (s_key set)) shards1 set = Ok p ->
  prepared_for (owner_ram shards1 (s_key set)) set p rec0 ->
  node_answers (s_key set) (Op_ConditionalSet p (s_mode set))
    (fun cfg epoch tok seen => spec_conditional cfg now_ms epoch tok p rec0 (s_mode set) seen) shards1
    (store config info now_ms set shards).
Proof.
  intros Hne Ha (Hk & _ & _) He Hp Hpf. rewrite (store_owner shards shards1), Hp by done.
  pose proof (pf_ok _ _ _ _ Hpf) as Hok. pose proof (pf_key _ _ _ _ Hpf) as Hkey.
  assert (forall rec1, prepared_ok p rec1 -> rec1 = rec0) as Hsame.
  { intros rec1 H1. destruct Hok as [E0 _], H1 as [E1 _]. congruence. }
  apply (owner_answers (s_key set) (Op_ConditionalSet p (s_mode set))
    (fun cfg epoch tok seen => spec_conditional cfg now_ms epoch tok p rec0 (s_mode set) seen)
    (fun out => match out with Out_Written w => Some w | _ => None end)); try done.
  - split; [by rewrite Hkey|by exists rec0].
  - intros cfg [] * H; try done. cbn in H. destruct H as (rec1 & H1 & Hstep). rewrite Hkey in Hstep.
    rewrite (Hsame _ H1) in Hstep. by eexists.
  - intros cfg e v r v' r' ((rec1 & H1 & Hv) & -> & _). by rewrite Hkey, (Hsame _ H1) in Hv.
  - by intros [] a; intros [= <-].
Qed.

(** Registering tags changes nothing a client sees, of records whose own tags
    are registered. *)
Lemma registering_seen set names (shards shards1 : list Shard) k :
  Forall agrees shards -> at_owner set (created names) shards shards1 ->
  (forall s rec t, shards !! index_for shards k = Some s -> recs (view s.1) !! k = Some rec ->
     t ∈ tags rec -> exists n x, disk_tag (view s.1) n = Some (tag_id t, x)) ->
  node_seen shards1 k = node_seen shards k.
Proof.
  intros Ha [Hl Ha1 Hs] Htags. unfold StoreSpec.node_seen, index_for in *. rewrite Hl.
  fold (index_for shards k) in *. destruct (shards !! index_for shards k) as [[env ram]|] eqn:E.
  2:{ rewrite (proj2 (lookup_ge_None _ _)); [done|]. rewrite Hl. by apply lookup_ge_None. }
  destruct (lookup_lt_is_Some_2 shards1 (index_for shards k)) as [[env1 ram1] E1].
  { rewrite Hl. by eapply lookup_lt_Some. }
  rewrite E1. specialize (Hs _ _ _ E E1). case_decide; [|by injection Hs as -> ->].
  destruct Hs as ((Hm & _ & _) & _ & Hmeta & Hd). cbn [fst] in *.
  pose proof (Forall_lookup_1 _ _ _ _ Ha E) as Has. pose proof (Forall_lookup_1 _ _ _ _ Ha1 E1) as Has1.
  unfold seen. rewrite (recs_same _ _ Hm). destruct (recs (view env) !! k) as [rec|] eqn:Er; [|done].
  cbn [mbind option_bind]. assert (alive now_ms ram1 rec = alive now_ms ram rec) as ->; [|done].
  assert (ram_epoch ram1 = ram_epoch ram) as He
    by exact (agrees_epoch g D _ _ _ _ Has Has1 (disk_epoch_meta _ _ Hmeta)).
  unfold alive. rewrite He. unfold is_alive. f_equal. apply tags_alive_same. intros t Ht.
  assert (0 <= tag_id t) as Hid by by eapply stored_tags.
  destruct (Htags _ _ _ eq_refl Er Ht) as (n & x & Hn). cbn [fst] in Hn.
  assert (disk_tag (view env1) n = Some (tag_id t, x)) as Hn1 by (destruct (Hd n) as [->|[? _]]; congruence).
  rewrite (proj2 (lookup_agrees env1 ram1 (tag_id t) x Has1 Hid)) by by exists n.
  by rewrite (proj2 (lookup_agrees env ram (tag_id t) x Has Hid)) by by exists n.
Qed.


End Writes.
