(* ===== verification/Float.v ===== *)
(** The binary64 representation of an [f64] ([f64::to_bits], [f64::from_bits]):
    sign, eleven bits of exponent, fifty-two of significand.  [spec_float] has
    one NaN, so a NaN's payload is not kept. *)

From S2P Require Import Prelude Bytes Text Core Arith.

Definition NAN_BITS : Z := 9221120237041090560.

Definition sign_bit (s : bool) : Z := if s then 2 ^ 63 else 0.

Definition f64_to_bits (x : f64) : Z :=
  match x with
  | S754_zero s => sign_bit s
  | S754_infinity s => sign_bit s + 2047 * 2 ^ 52
  | S754_nan => NAN_BITS
  | S754_finite s m e =>
      if Z.pos m <? 2 ^ 52 then sign_bit s + Z.pos m
      else sign_bit s + (e + 1075) * 2 ^ 52 + (Z.pos m - 2 ^ 52)
  end.

(** A significand and an exponent as a float; none when the significand is 0. *)
Definition finite_or_zero (s : bool) (m e : Z) : f64 :=
  match m with Z.pos p => S754_finite s p e | _ => S754_zero s end.

Definition f64_from_bits (bits : Z) : f64 :=
  let s := 2 ^ 63 <=? bits in
  let magnitude := bits mod 2 ^ 63 in
  let exponent := magnitude / 2 ^ 52 in
  let fraction := magnitude mod 2 ^ 52 in
  if exponent =? 2047 then if fraction =? 0 then S754_infinity s else S754_nan
  else if exponent =? 0 then finite_or_zero s fraction (-1074)
  else finite_or_zero s (fraction + 2 ^ 52) (exponent - 1075).

(** What a float64 can be: [spec_float]'s bounded finite values. *)
Definition f64_valid (x : f64) : Prop := valid_binary 53 1024 x = true.

Lemma digits_spec (p : positive) : 2 ^ (Z.pos (digits2_pos p) - 1) <= Z.pos p < 2 ^ Z.pos (digits2_pos p).
Proof.
  induction p as [p IH|p IH|]; cbn [digits2_pos]; [| |by cbn].
  all: rewrite Pos2Z.inj_succ, Z.pow_succ_r by lia;
    replace (Z.succ (Z.pos (digits2_pos p)) - 1) with (Z.succ (Z.pos (digits2_pos p) - 1)) by lia;
    rewrite Z.pow_succ_r by lia; lia.
Qed.

(** A bounded significand is normal, or subnormal at the least exponent. *)
Lemma valid_finite s m e :
  f64_valid (S754_finite s m e) <->
  (2 ^ 52 <= Z.pos m < 2 ^ 53 /\ -1074 <= e <= 971) \/ (Z.pos m < 2 ^ 52 /\ e = -1074).
Proof.
  unfold f64_valid. cbn [valid_binary]. unfold bounded, canonical_mantissa.
  rewrite andb_true_iff, Z.leb_le. unfold fexp, emin, Zeq_bool.
  rewrite <- Z.eqb_eq. change (?x ?= ?y) with (x ?= y).
  pose proof (digits_spec m) as Hd. set (d := Z.pos (digits2_pos m)) in *.
  split.
  - intros [Hc He]. apply Z.eqb_eq in Hc.
    destruct (Z.le_gt_cases (3 - 1024 - 53) (d + e - 53)) as [Hn|Hs].
    + left. rewrite Z.max_l in Hc by lia. assert (d = 53) as -> by lia. cbn in Hd. lia.
    + right. rewrite Z.max_r in Hc by lia. split; [|lia].
      assert (2 ^ d <= 2 ^ 52) by (apply Z.pow_le_mono_r; lia). lia.
  - intros [[Hm He]|[Hm He]].
    + assert (d = 53) as ->.
      { destruct (Z.lt_trichotomy d 53) as [Hlt|[?|Hgt]]; [|done|]; exfalso.
        - assert (2 ^ d <= 2 ^ 52) by (apply Z.pow_le_mono_r; lia). lia.
        - assert (2 ^ 53 <= 2 ^ (d - 1)) by (apply Z.pow_le_mono_r; lia). lia. }
      split; [|lia]. apply Z.eqb_eq. lia.
    + assert (d <= 52).
      { destruct (Z.le_gt_cases d 52); [done|]. exfalso.
        assert (2 ^ 52 <= 2 ^ (d - 1)) by (apply Z.pow_le_mono_r; lia). lia. }
      split; [|lia]. apply Z.eqb_eq. lia.
Qed.

Lemma split_bits s m : 0 <= m < 2 ^ 63 ->
  (2 ^ 63 <=? sign_bit s + m) = s /\ (sign_bit s + m) mod 2 ^ 63 = m.
Proof.
  intros Hm. destruct s; cbn [sign_bit].
  - split; [apply Z.leb_le; lia|]. rewrite Z.add_comm, <- (Z.mul_1_l (2 ^ 63)) at 1.
    rewrite Z.mod_add by lia. by apply Z.mod_small.
  - split; [apply Z.leb_gt; lia|]. by apply Z.mod_small.
Qed.

Lemma split_magnitude e f : 0 <= f < 2 ^ 52 -> (e * 2 ^ 52 + f) / 2 ^ 52 = e /\ (e * 2 ^ 52 + f) mod 2 ^ 52 = f.
Proof.
  intros Hf. split.
  - rewrite Z.div_add_l by lia. rewrite Z.div_small by done. lia.
  - rewrite Z.add_comm, Z.mod_add by lia. by apply Z.mod_small.
Qed.

Lemma f64_bits_roundtrip x : f64_valid x -> f64_from_bits (f64_to_bits x) = x.
Proof.
  intros Hx. destruct x as [s|s| |s m e].
  - by destruct s.
  - by destruct s.
  - done.
  - apply valid_finite in Hx. unfold f64_to_bits, f64_from_bits.
    destruct (Z.ltb_spec (Z.pos m) (2 ^ 52)) as [Hm|Hm].
    + destruct Hx as [?|[_ ->]]; [lia|].
      destruct (split_bits s (Z.pos m)) as [-> ->]; [lia|].
      by rewrite Z.div_small, Z.mod_small by lia.
    + destruct Hx as [[Hm' He]|?]; [|lia].
      rewrite <- Z.add_assoc.
      destruct (split_bits s ((e + 1075) * 2 ^ 52 + (Z.pos m - 2 ^ 52))) as [-> ->]; [lia|].
      destruct (split_magnitude (e + 1075) (Z.pos m - 2 ^ 52)) as [-> ->]; [lia|].
      destruct (Z.eqb_spec (e + 1075) 2047); [lia|]. destruct (Z.eqb_spec (e + 1075) 0); [lia|].
      replace (Z.pos m - 2 ^ 52 + 2 ^ 52) with (Z.pos m) by lia. cbn. f_equal. lia.
Qed.

Lemma f64_to_bits_fits x : f64_valid x -> fits 64 (f64_to_bits x).
Proof.
  intros Hx. unfold fits. destruct x as [s|s| |s m e]; [by destruct s|by destruct s|done|].
  apply valid_finite in Hx. unfold f64_to_bits.
  assert (0 <= sign_bit s <= 2 ^ 63) by (destruct s; cbn; lia).
  destruct (Z.ltb_spec (Z.pos m) (2 ^ 52)); lia.
Qed.

Lemma f64_from_bits_valid bits : fits 64 bits -> f64_valid (f64_from_bits bits).
Proof.
  intros Hb. unfold f64_from_bits. set (s := 2 ^ 63 <=? bits).
  pose proof (Z.mod_pos_bound bits (2 ^ 63) ltac:(lia)) as Hmag. set (magnitude := bits mod 2 ^ 63) in *.
  pose proof (Z.mod_pos_bound magnitude (2 ^ 52) ltac:(lia)) as Hf. set (f := magnitude mod 2 ^ 52) in *.
  assert (0 <= magnitude / 2 ^ 52 < 2048) as He.
  { split; [apply Z.div_pos; lia|]. apply Z.div_lt_upper_bound; lia. }
  set (e := magnitude / 2 ^ 52) in *.
  destruct (Z.eqb_spec e 2047); [by destruct (f =? 0)|].
  destruct (Z.eqb_spec e 0).
  - destruct f as [|p|p]; [done| |lia]. apply valid_finite. right. lia.
  - destruct (f + 2 ^ 52) as [|p|p] eqn:E; [lia| |lia]. apply valid_finite. left. lia.
Qed.
