(* ===== verification/Vcp.v ===== *)
(** [vash-proto/src/vcp]: frames ([frame.rs]), and request decoding
    ([decode.rs]).  Every accessor of the source's [Cursor] moves a position
    forward over a borrowed body; here a cursor is what is left of the body. *)

From S2P Require Import Prelude Bytes Text Core Record Glob Clock Arith Float Command.

#[local] Delimit Scope string_scope with str.

(** ** frame.rs *)

Definition HEADER_LEN : Z := 12.

Definition MAX_BODY_LEN : Z := 64 * 1024 * 1024.

Record FrameHeader := mkFrameHeader {
  fh_opcode : Z;
  fh_flags : Z;
  fh_status : Z;
  fh_request_id : Z;
  fh_body_len : Z
}.

Inductive Opcode : Type :=
| Opcode_Hello | Opcode_Ping | Opcode_Auth | Opcode_Stats | Opcode_Cluster
| Opcode_Get | Opcode_Set | Opcode_Delete | Opcode_Touch | Opcode_Arithmetic
| Opcode_GetMany | Opcode_SetMany | Opcode_DeleteMany
| Opcode_DeleteByTag | Opcode_Flush
| Opcode_TagSync
| Opcode_ListKeys | Opcode_ListTags.

#[global] Instance Opcode_eq_dec : EqDecision Opcode.
Proof. solve_decision. Defined.

Definition Opcode_code (op : Opcode) : Z :=
  match op with
  | Opcode_Hello => 1 | Opcode_Ping => 2 | Opcode_Auth => 3 | Opcode_Stats => 4 | Opcode_Cluster => 5
  | Opcode_Get => 16 | Opcode_Set => 17 | Opcode_Delete => 18 | Opcode_Touch => 19 | Opcode_Arithmetic => 20
  | Opcode_GetMany => 32 | Opcode_SetMany => 33 | Opcode_DeleteMany => 34
  | Opcode_DeleteByTag => 48 | Opcode_Flush => 49
  | Opcode_TagSync => 64
  | Opcode_ListKeys => 80 | Opcode_ListTags => 81
  end.

Definition Opcode_from_u8 (v : Z) : option Opcode :=
  match v with
  | 1 => Some Opcode_Hello | 2 => Some Opcode_Ping | 3 => Some Opcode_Auth
  | 4 => Some Opcode_Stats | 5 => Some Opcode_Cluster
  | 16 => Some Opcode_Get | 17 => Some Opcode_Set | 18 => Some Opcode_Delete
  | 19 => Some Opcode_Touch | 20 => Some Opcode_Arithmetic
  | 32 => Some Opcode_GetMany | 33 => Some Opcode_SetMany | 34 => Some Opcode_DeleteMany
  | 48 => Some Opcode_DeleteByTag | 49 => Some Opcode_Flush
  | 64 => Some Opcode_TagSync
  | 80 => Some Opcode_ListKeys | 81 => Some Opcode_ListTags
  | _ => None
  end.

Definition Opcode_inline_safe (op : Opcode) : bool :=
  match op with
  | Opcode_Hello | Opcode_Ping | Opcode_Get | Opcode_GetMany | Opcode_Cluster | Opcode_Stats => true
  | _ => false
  end.

Inductive Status : Type :=
| Status_Ok | Status_NotFound | Status_Exists | Status_BadRequest | Status_TooLarge
| Status_Unauthorized | Status_Overloaded | Status_CapacityFull | Status_Unsupported
| Status_Internal | Status_NotStored | Status_NotNumeric.

#[global] Instance Status_eq_dec : EqDecision Status.
Proof. solve_decision. Defined.

Definition Status_code (s : Status) : Z :=
  match s with
  | Status_Ok => 0 | Status_NotFound => 1 | Status_Exists => 2 | Status_BadRequest => 3
  | Status_TooLarge => 4 | Status_Unauthorized => 5 | Status_Overloaded => 6
  | Status_CapacityFull => 7 | Status_Unsupported => 8 | Status_Internal => 9
  | Status_NotStored => 10 | Status_NotNumeric => 11
  end.

Definition Status_from_u16 (v : Z) : option Status :=
  match v with
  | 0 => Some Status_Ok | 1 => Some Status_NotFound | 2 => Some Status_Exists
  | 3 => Some Status_BadRequest | 4 => Some Status_TooLarge | 5 => Some Status_Unauthorized
  | 6 => Some Status_Overloaded | 7 => Some Status_CapacityFull | 8 => Some Status_Unsupported
  | 9 => Some Status_Internal | 10 => Some Status_NotStored | 11 => Some Status_NotNumeric
  | _ => None
  end.

Definition Status_is_ok (s : Status) : bool := bool_decide (s = Status_Ok).

Definition flags_RESPONSE : Z := Z.shiftl 1 0.

Definition flags_NO_REPLY : Z := Z.shiftl 1 1.

Definition FrameHeader_request (op : Opcode) (request_id body_len : Z) : FrameHeader :=
  mkFrameHeader (Opcode_code op) 0 0 request_id body_len.

Definition FrameHeader_response (op : Opcode) (request_id : Z) (status : Status) (body_len : Z) : FrameHeader :=
  mkFrameHeader (Opcode_code op) flags_RESPONSE (Status_code status) request_id body_len.

Definition is_response (h : FrameHeader) : bool := negb (Z.land (fh_flags h) flags_RESPONSE =? 0).

Definition no_reply (h : FrameHeader) : bool := negb (Z.land (fh_flags h) flags_NO_REPLY =? 0).

(** [FrameHeader::as_bytes] and [FrameHeader::ref_from_prefix]: the twelve bytes
    of the packed little-endian struct. *)
Definition FrameHeader_bytes (h : FrameHeader) : bytes :=
  le_bytes 1 (fh_opcode h) ++ le_bytes 1 (fh_flags h) ++ le_bytes 2 (fh_status h)
  ++ le_bytes 4 (fh_request_id h) ++ le_bytes 4 (fh_body_len h).

Definition FrameHeader_from_prefix (b : bytes) : option (FrameHeader * bytes) :=
  '(opcode, b) ← take_field 1 b;
  '(flags, b) ← take_field 1 b;
  '(status, b) ← take_field 2 b;
  '(request_id, b) ← take_field 4 b;
  '(body_len, b) ← take_field 4 b;
  Some (mkFrameHeader opcode flags status request_id body_len, b).

(** ** decode.rs: results *)

(** Why a body is refused: the status it is answered with, and the detail. *)
Abbreviation Refusal := (Status * String.string)%type.

Record Request := mkRequest {
  rq_request_id : Z;
  rq_opcode : Opcode;
  rq_no_reply : bool;
  rq_command : Command
}.

Record AuthRequest := mkAuthRequest { au_mechanism : Z; au_name : bytes; au_secret : bytes }.

Inductive Decoded : Type :=
| Decoded_Incomplete (needed : Z)
| Decoded_Request (request : Request) (consumed : Z)
| Decoded_Auth (request_id : Z) (auth : AuthRequest) (consumed : Z).

Inductive DecodeError : Type :=
| Decode_Fatal (detail : String.string)
| Decode_Body (request_id opcode consumed : Z) (status : Status) (detail : String.string).

Inductive FrameLen : Type :=
| FrameLen_Incomplete (needed : Z)
| FrameLen_Complete (total : Z)
| FrameLen_TooLarge.

Definition SET_BODY_HEADER_LEN : Z := 12.
Definition HELLO_BODY_LEN : Z := 4.
Definition ARITHMETIC_PREFIX_LEN : Z := 32.
Definition TAG_SYNC_HEADER_LEN : Z := 8.
Definition LIST_BODY_HEADER_LEN : Z := 12.
Definition AUTH_BODY_HEADER_LEN : Z := 4.
Definition MAX_AUTH_NAME_LEN : Z := 64.
Definition MAX_AUTH_SECRET_LEN : Z := 512.

Definition mode_COUNTER : Z := 0.
Definition mode_INT : Z := 1.
Definition mode_FLOAT : Z := 2.
Definition flag_CREATE_AT_ZERO : Z := Z.shiftl 1 0.
Definition flag_DECREMENT : Z := Z.shiftl 1 1.

(** ** decode.rs: the cursor

    A decoder reads from the front of what is left of the body and refuses, or
    returns its value and what is left then. *)

Definition Dec (A : Type) : Type := bytes -> Result Refusal (A * bytes).

#[global] Instance Dec_ret : MRet Dec := fun A a b => Ok (a, b).

#[global] Instance Dec_bind : MBind Dec :=
  fun A B f m b => match m b with
                   | Ok (a, b') => f a b'
                   | Err e => Err e
                   | Panic why => Panic why
                   end.

Definition refuse {A} (status : Status) (detail : String.string) : Dec A := fun _ => Err (status, detail).

Definition lift {A} (r : Result Refusal A) : Dec A :=
  fun b => match r with Ok a => Ok (a, b) | Err e => Err e | Panic why => Panic why end.

(** [c.take(n).ok_or(..)] and the little-endian accessors. *)
Definition take_bytes (n : Z) (short : Refusal) : Dec bytes := fun b => ok_or (split_at (Z.to_nat n) b) short.

Definition field (n : nat) (short : Refusal) : Dec Z := fun b => ok_or (take_field n b) short.

(** [Cursor::rest]. *)
Definition rest_of_body : Dec bytes := fun b => Ok (b, []).

(** [for _ in 0..count { items.push(item(c)?) }] *)
Fixpoint repeat_dec {A} (count : nat) (item : Dec A) : Dec (list A) :=
  match count with
  | O => mret []
  | S count' => x ← item; xs ← repeat_dec count' item; mret (x :: xs)
  end.

Definition run_dec {A} (d : Dec A) (body : bytes) : Result Refusal A :=
  match d body with Ok (a, _) => Ok a | Err e => Err e | Panic why => Panic why end.

Definition bad_request (detail : String.string) : Refusal := (Status_BadRequest, detail).

(** ** decode.rs: bodies *)

Definition decode_key (b : bytes) : Result Refusal bytes :=
  map_err (fun e => match e with
                    | EmptyKey => bad_request "key is empty"
                    | KeyTooLong _ _ => (Status_TooLarge, "key exceeds the maximum length"%str)
                    | _ => bad_request "invalid key"
                    end) (Key_new b).

Definition decode_count : Dec Z :=
  count ← field 4 (bad_request "batch is missing its item count");
  if MAX_BATCH_ITEMS <? count
  then lift (Err (bad_request "batch exceeds the maximum item count")) else mret count.

Definition decode_listed_key : Dec bytes :=
  n ← field 2 (bad_request "truncated key length");
  b ← take_bytes n (bad_request "truncated key");
  lift (decode_key b).

Definition decode_key_list : Dec (list bytes) :=
  count ← decode_count;
  repeat_dec (Z.to_nat count) decode_listed_key.

(** A length-prefixed tag name, shared by the tag table of a [SET] and the
    entries of a [TAG_SYNC]. *)
Definition decode_name (no_length truncated : String.string) : Dec bytes :=
  n ← field 2 (bad_request no_length);
  name ← take_bytes n (bad_request truncated);
  if len name =? 0 then lift (Err (bad_request "tag name is empty"))
  else if MAX_TAG_LEN <? len name then lift (Err (bad_request "tag name is too long"))
  else mret name.

Definition decode_tag_entry : Dec (bytes * Z) :=
  generation ← field 8 (bad_request "truncated tag generation");
  name ← decode_name "truncated tag name length" "truncated tag name";
  mret (name, generation).

Definition tag_sync_body : Dec (bool * list (bytes * Z)) :=
  header ← take_bytes TAG_SYNC_HEADER_LEN (bad_request "tag sync body is shorter than its header");
  full ← match le_val (firstn 1 header) with
         | 0 => mret false
         | 1 => mret true
         | _ => lift (Err (bad_request "unknown tag sync kind"))
         end;
  let count := le_val (firstn 4 (skipn 4 header)) in
  if MAX_TAG_SYNC_ENTRIES <? count
  then lift (Err (bad_request "tag sync exceeds the maximum entry count"))
  else entries ← repeat_dec (Z.to_nat count) decode_tag_entry; mret (full, entries).

Definition decode_tag_sync (body : bytes) : Result Refusal (bool * list (bytes * Z)) :=
  run_dec tag_sync_body body.

Definition set_body : Dec SetReq :=
  let short := bad_request "set body is shorter than its header" in
  raw ← take_bytes SET_BODY_HEADER_LEN short;
  let ttl_secs := le_val (firstn 4 raw) in
  let key_len := le_val (firstn 2 (skipn 4 raw)) in
  let tag_count := le_val (firstn 1 (skipn 6 raw)) in
  let value_len := le_val (firstn 4 (skipn 8 raw)) in
  k ← take_bytes key_len (bad_request "set body is shorter than its declared key");
  key ← lift (decode_key k);
  value ← take_bytes value_len (bad_request "set body is shorter than its declared value");
  tags ← repeat_dec (Z.to_nat tag_count) (decode_name "truncated tag length" "truncated tag name");
  mret (mkSet key value (Ttl_Set ttl_secs) 0 tags SetMode_Set false).

Definition list_body : Dec ListRequest :=
  let short := bad_request "listing body is shorter than its header" in
  limit ← field 4 short;
  cursor_len ← field 2 short;
  pattern_len ← field 2 short;
  _ ← take_bytes 4 short;
  if MAX_LIST_CURSOR_LEN <? cursor_len then lift (Err (bad_request "listing cursor is too long"))
  else if MAX_KEY_LEN <? pattern_len then lift (Err (bad_request "listing pattern is too long"))
  else
    cursor ← take_bytes cursor_len (bad_request "truncated listing cursor");
    pattern ← take_bytes pattern_len (bad_request "truncated listing pattern");
    trailing ← rest_of_body;
    if negb (len trailing =? 0) then lift (Err (bad_request "trailing bytes after the listing body"))
    else
      let request := mkListRequest limit cursor pattern in
      _ ← lift (map_err (fun e => match e with
                                  | BadLimit _ _ => bad_request "listing limit is out of range"
                                  | _ => bad_request "listing pattern is malformed"
                                  end) (ListRequest_validate request));
      mret request.

Definition decode_list_request (body : bytes) : Result Refusal ListRequest := run_dec list_body body.

Definition auth_body : Dec AuthRequest :=
  header ← take_bytes AUTH_BODY_HEADER_LEN (bad_request "auth body is shorter than its header");
  let mechanism := le_val (firstn 1 header) in
  let name_len := le_val (firstn 1 (skipn 1 header)) in
  let secret_len := le_val (firstn 2 (skipn 2 header)) in
  if MAX_AUTH_NAME_LEN <? name_len then lift (Err (bad_request "auth name exceeds the maximum length"))
  else if MAX_AUTH_SECRET_LEN <? secret_len
  then lift (Err (bad_request "auth secret exceeds the maximum length"))
  else
    name ← take_bytes name_len (bad_request "auth body is shorter than its name");
    secret ← take_bytes secret_len (bad_request "auth body is shorter than its secret");
    trailing ← rest_of_body;
    if negb (len trailing =? 0) then lift (Err (bad_request "auth body has trailing bytes"))
    else mret (mkAuthRequest mechanism name secret).

Definition decode_auth (body : bytes) : Result Refusal AuthRequest := run_dec auth_body body.

Definition flag_set (flags bit : Z) : bool := negb (Z.land flags bit =? 0).

Definition arithmetic_body : Dec Arithmetic :=
  let short := bad_request "arithmetic body is too short" in
  mode ← field 1 short;
  flags ← field 1 short;
  on_bound ← field 1 short;
  ttl_kind ← field 1 short;
  ttl_secs ← field 4 short;
  delta ← field 8 short;
  lower ← field 8 short;
  upper ← field 8 short;
  delta ← match mode with
          | 0 => mret (Delta_Counter delta (flag_set flags flag_DECREMENT))
          | 1 => mret (Delta_Int (as_i64 delta) (as_i64 lower) (as_i64 upper))
          | 2 => mret (Delta_Float (f64_from_bits delta) (f64_from_bits lower) (f64_from_bits upper))
          | _ => lift (Err (bad_request "unknown arithmetic mode"))
          end;
  on_bound ← match on_bound with
             | 0 => mret OnBound_Fail
             | 1 => mret OnBound_Skip
             | 2 => mret OnBound_Clamp
             | _ => lift (Err (bad_request "unknown arithmetic bound policy"))
             end;
  ttl ← match ttl_kind with
        | 0 => mret Ttl_Keep
        | 1 => mret (Ttl_Set ttl_secs)
        | 2 => mret (Ttl_SetIfPersistent ttl_secs)
        | _ => lift (Err (bad_request "unknown arithmetic ttl policy"))
        end;
  k ← rest_of_body;
  key ← lift (decode_key k);
  mret (mkArithmetic key delta on_bound
          (if flag_set flags flag_CREATE_AT_ZERO then Missing_CreateAtZero else Missing_Fail) ttl).

Definition touch_body : Dec Command :=
  ttl_secs ← field 4 (bad_request "touch body is too short");
  k ← rest_of_body;
  key ← lift (decode_key k);
  mret (Cmd_Touch key ttl_secs).

Definition set_many_body : Dec Command :=
  count ← decode_count;
  sets ← repeat_dec (Z.to_nat count) set_body;
  mret (Cmd_SetMany sets BatchGuard_Always).

(** ** decode.rs: frames *)

Definition peek_frame_len (buf : bytes) : FrameLen :=
  match FrameHeader_from_prefix buf with
  | None => FrameLen_Incomplete HEADER_LEN
  | Some (header, _) =>
      let body_len := fh_body_len header in
      if MAX_BODY_LEN <? body_len then FrameLen_TooLarge
      else
        let total := HEADER_LEN + body_len in
        if len buf <? total then FrameLen_Incomplete total else FrameLen_Complete total
  end.

(** [KeyList::from(Vec<Key>)] keeps the list. *)
Definition decode_command (opcode : Opcode) (body : bytes) : Result Refusal Command :=
  match opcode with
  | Opcode_Ping => Ok Cmd_Ping
  | Opcode_Hello =>
      if len body <? HELLO_BODY_LEN then Err (bad_request "hello body is too short")
      else Ok (Cmd_Hello (le_val (firstn 2 body)))
  | Opcode_Get => Cmd_Get <$> decode_key body
  | Opcode_Delete => Cmd_Delete <$> decode_key body
  | Opcode_Set => Cmd_Set <$> run_dec set_body body
  | Opcode_Arithmetic => Cmd_Arithmetic <$> run_dec arithmetic_body body
  | Opcode_Touch => run_dec touch_body body
  | Opcode_GetMany => (fun ks => Cmd_GetMany (KeyList_Many ks)) <$> run_dec decode_key_list body
  | Opcode_DeleteMany => Cmd_DeleteMany <$> run_dec decode_key_list body
  | Opcode_SetMany => run_dec set_many_body body
  | Opcode_DeleteByTag =>
      if len body =? 0 then Err (bad_request "tag name is empty")
      else if MAX_TAG_LEN <? len body then Err (Status_TooLarge, "tag name is too long"%str)
      else Ok (Cmd_DeleteByTag body)
  | Opcode_Flush => Ok Cmd_Flush
  | Opcode_TagSync => (fun '(full, entries) => Cmd_TagSync full entries) <$> decode_tag_sync body
  | Opcode_Cluster => Ok Cmd_Cluster
  | Opcode_ListKeys => Cmd_ListKeys <$> decode_list_request body
  | Opcode_ListTags => Cmd_ListTags <$> decode_list_request body
  | Opcode_Auth => Panic "AUTH returns before the command dispatch"
  | Opcode_Stats => Err (Status_Unsupported, "opcode not implemented yet"%str)
  end.

Definition decode (buf : bytes) : Result DecodeError Decoded :=
  match FrameHeader_from_prefix buf with
  | None => Ok (Decoded_Incomplete HEADER_LEN)
  | Some (header, rest) =>
      let body_len := fh_body_len header in
      let request_id := fh_request_id header in
      if MAX_BODY_LEN <? body_len then Err (Decode_Fatal "body_len exceeds the maximum frame size")
      else
        match split_at (Z.to_nat body_len) rest with
        | None => Ok (Decoded_Incomplete (HEADER_LEN + body_len))
        | Some (body, _) =>
            let consumed := HEADER_LEN + body_len in
            let fail := fun '(status, detail) =>
              Decode_Body request_id (fh_opcode header) consumed status detail in
            match Opcode_from_u8 (fh_opcode header) with
            | None => Err (fail (Status_Unsupported, "unknown opcode"%str))
            | Some opcode =>
                if bool_decide (opcode = Opcode_Auth) then
                  auth ← map_err fail (decode_auth body);
                  Ok (Decoded_Auth request_id auth consumed)
                else
                  command ← map_err fail (decode_command opcode body);
                  Ok (Decoded_Request (mkRequest request_id opcode (no_reply header) command) consumed)
            end
        end
  end.
