(* ===== verification/VcpEncode.v ===== *)
(** [vash-proto/src/vcp/encode.rs]: request bodies, replies, the streamed batch
    reply and the response parsers it shares with the client.  An encoder
    appends to the buffer it is given; [as u8], [as u16] and [as u32] of a
    length are written out as they wrap. *)

From S2P Require Import Prelude Bytes Text Core Record Glob Clock Arith Float Command Vcp.

(** ** Frames *)

Definition encode_request (out : bytes) (opcode : Opcode) (request_id : Z) (body : bytes) : bytes :=
  out ++ FrameHeader_bytes (FrameHeader_request opcode request_id (wrapping 32 (len body))) ++ body.

Definition encode_response (out : bytes) (opcode : Opcode) (request_id : Z) (status : Status) (body : bytes)
    : bytes :=
  out ++ FrameHeader_bytes (FrameHeader_response opcode request_id status (wrapping 32 (len body))) ++ body.

Definition encode_error (out : bytes) (raw_opcode request_id : Z) (status : Status) : bytes :=
  out ++ FrameHeader_bytes (mkFrameHeader raw_opcode flags_RESPONSE (Status_code status) request_id 0).

(** ** Request bodies *)

Definition push_prefixed (out name : bytes) : bytes :=
  out ++ le_bytes 2 (wrapping 16 (len name)) ++ name.

Definition push_named_entry (out name : bytes) (version : Z) : bytes :=
  out ++ le_bytes 8 version ++ le_bytes 2 (wrapping 16 (len name)) ++ name.

Definition encode_list_body (out : bytes) (limit : Z) (cursor pattern : bytes) : bytes :=
  out ++ le_bytes 4 limit ++ le_bytes 2 (wrapping 16 (len cursor)) ++ le_bytes 2 (wrapping 16 (len pattern))
  ++ le_bytes 4 0 ++ cursor ++ pattern.

Definition encode_tag_sync_body (out : bytes) (full : bool) (entries : list (bytes * Z)) : bytes :=
  foldl (fun out '(name, generation) => push_named_entry out name generation)
    (out ++ le_bytes 1 (if full then 1 else 0) ++ [Byte.x00; Byte.x00; Byte.x00]
     ++ le_bytes 4 (wrapping 32 (len entries))) entries.

Definition encode_set_body (out key value : bytes) (ttl_secs : Z) (tags : list bytes) : bytes :=
  foldl push_prefixed
    (out ++ le_bytes 4 ttl_secs ++ le_bytes 2 (wrapping 16 (len key)) ++ le_bytes 1 (wrapping 8 (len tags))
     ++ le_bytes 1 0 ++ le_bytes 4 (wrapping 32 (len value)) ++ key ++ value) tags.

(** [delta as u64] of an [i64]. *)
Definition as_u64 (z : Z) : Z := wrapping 64 z.

Definition encode_arithmetic_body (out : bytes) (op : Arithmetic) : bytes :=
  let '(mode, delta, lower, upper, decrement) :=
    match ar_delta op with
    | Delta_Counter delta decrement => (mode_COUNTER, delta, 0, 0, decrement)
    | Delta_Int delta lower upper => (mode_INT, as_u64 delta, as_u64 lower, as_u64 upper, false)
    | Delta_Float delta lower upper =>
        (mode_FLOAT, f64_to_bits delta, f64_to_bits lower, f64_to_bits upper, false)
    end in
  let flags := match ar_missing op with Missing_CreateAtZero => Z.lor 0 flag_CREATE_AT_ZERO | Missing_Fail => 0 end in
  let flags := if decrement : bool then Z.lor flags flag_DECREMENT else flags in
  let '(ttl_kind, ttl_secs) :=
    match ar_ttl op with
    | Ttl_Keep => (0, 0)
    | Ttl_Set secs => (1, secs)
    | Ttl_SetIfPersistent secs => (2, secs)
    end in
  let on_bound := match ar_on_bound op with OnBound_Fail => 0 | OnBound_Skip => 1 | OnBound_Clamp => 2 end in
  out ++ le_bytes 1 mode ++ le_bytes 1 flags ++ le_bytes 1 on_bound ++ le_bytes 1 ttl_kind
  ++ le_bytes 4 ttl_secs ++ le_bytes 8 delta ++ le_bytes 8 lower ++ le_bytes 8 upper ++ ar_key op.

Definition encode_touch_body (out key : bytes) (ttl_secs : Z) : bytes := out ++ le_bytes 4 ttl_secs ++ key.

Definition encode_auth_body (out : bytes) (mechanism : Z) (name secret : bytes) : bytes :=
  out ++ le_bytes 1 mechanism ++ le_bytes 1 (wrapping 8 (len name)) ++ le_bytes 2 (wrapping 16 (len secret))
  ++ name ++ secret.

Definition encode_key_list_body (out : bytes) (keys : list bytes) : bytes :=
  foldl push_prefixed (out ++ le_bytes 4 (wrapping 32 (len keys))) keys.

Definition encode_batch_count (out : bytes) (count : Z) : bytes := out ++ le_bytes 4 (wrapping 32 count).

(** ** Replies *)

Definition HELLO_RESPONSE_LEN : Z := 18.
Definition ARITHMETIC_RESPONSE_LEN : Z := 20.
Definition VALUE_PREFIX_LEN : Z := 12.
Definition CLUSTER_HEADER_LEN : Z := 4.
Definition LIST_RESPONSE_HEADER_LEN : Z := 20.
Definition NAMED_ENTRY_PREFIX_LEN : Z := 10.
Definition list_flags_TRUNCATED : Z := Z.shiftl 1 0.

Definition from_bool (b : bool) : Z := if b then 1 else 0.

Definition encode_value (out : bytes) (opcode : Opcode) (request_id : Z) (v : Value) : bytes :=
  out ++ FrameHeader_bytes (FrameHeader_response opcode request_id Status_Ok
                              (wrapping 32 (VALUE_PREFIX_LEN + len (v_data v))))
  ++ le_bytes 4 (v_mc_flags v) ++ le_bytes 8 (v_cas v) ++ v_data v.

(** One slot of a batch reply. *)
Definition push_slot (body : bytes) (value : option Value) : bytes :=
  match value with
  | Some v => body ++ [Byte.x01] ++ le_bytes 4 (v_mc_flags v) ++ le_bytes 8 (v_cas v)
              ++ le_bytes 4 (wrapping 32 (len (v_data v))) ++ v_data v
  | None => body ++ [Byte.x00]
  end.

Definition values_body (values : list (option Value)) : bytes :=
  foldl push_slot (le_bytes 4 (wrapping 32 (len values))) values.

Definition stored_many_body (cas_tokens : list Z) : bytes :=
  foldl (fun body cas => body ++ le_bytes 8 cas) (le_bytes 4 (wrapping 32 (len cas_tokens))) cas_tokens.

Definition deleted_many_body (hits : list bool) : bytes :=
  le_bytes 4 (wrapping 32 (len hits)) ++ ((fun hit => byte_of (from_bool hit)) <$> hits).

Definition hello_body (info : ServerInfo) : bytes :=
  le_bytes 2 (si_protocol_version info) ++ le_bytes 2 (si_shards info) ++ le_bytes 4 (si_max_key_len info)
  ++ le_bytes 4 (si_max_value_len info) ++ le_bytes 4 (si_capabilities info)
  ++ le_bytes 2 (si_max_tags_per_record info).

(** [None] when the two numbers are of different domains. *)
Definition arithmetic_numbers (applied : Applied) : option (Z * Z * Z) :=
  match ap_value applied, ap_applied applied with
  | Number_Counter value, Number_Counter moved => Some (mode_COUNTER, value, moved)
  | Number_Int value, Number_Int moved => Some (mode_INT, as_u64 value, as_u64 moved)
  | Number_Float value, Number_Float moved => Some (mode_FLOAT, f64_to_bits value, f64_to_bits moved)
  | _, _ => None
  end.

Definition listing_body (listing : Listing) : bytes :=
  let cursor := default [] (l_cursor listing) in
  foldl (fun body entry => push_named_entry body (le_name entry) (le_version entry))
    (le_bytes 4 (wrapping 32 (len (l_entries listing)))
     ++ le_bytes 1 (if l_truncated listing then list_flags_TRUNCATED else 0) ++ [Byte.x00; Byte.x00; Byte.x00]
     ++ le_bytes 8 (l_scanned listing) ++ le_bytes 2 (wrapping 16 (len cursor)) ++ le_bytes 2 0 ++ cursor)
    (l_entries listing).

Definition push_peer (body : bytes) (peer : PeerInfo) : bytes :=
  body ++ le_bytes 2 (wrapping 16 (len (p_addr peer))) ++ p_addr peer ++ le_bytes 1 (from_bool (p_reachable peer)).

Definition cluster_body (info : ClusterInfo) : bytes :=
  foldl push_peer
    (le_bytes 1 (ClusterMode_to_u8 (ci_mode info)) ++ [Byte.x00] ++ le_bytes 2 (wrapping 16 (len (ci_peers info))))
    (ci_peers info).

Definition encode_reply (out : bytes) (opcode : Opcode) (request_id : Z) (reply : Reply) : bytes :=
  let respond := encode_response out opcode request_id in
  match reply with
  | Reply_Pong | Reply_Deleted | Reply_Touched => respond Status_Ok []
  | Reply_NotFound => respond Status_NotFound []
  | Reply_Invalidated existed => respond (if existed then Status_Ok else Status_NotFound) []
  | Reply_Flushed epoch => respond Status_Ok (le_bytes 4 epoch)
  | Reply_Values values => respond Status_Ok (values_body values)
  | Reply_StoredMany cas_tokens => respond Status_Ok (stored_many_body cas_tokens)
  | Reply_DeletedMany hits => respond Status_Ok (deleted_many_body hits)
  | Reply_Hello info => respond Status_Ok (hello_body info)
  | Reply_Stored (Stored_Stored cas) => respond Status_Ok (le_bytes 8 cas)
  | Reply_Stored Stored_NotStored => respond Status_NotStored []
  | Reply_Stored Stored_Exists => respond Status_Exists []
  | Reply_Stored Stored_NotFound => respond Status_NotFound []
  | Reply_Arithmetic applied =>
      match arithmetic_numbers applied with
      | Some (mode, value, moved) =>
          respond Status_Ok (le_bytes 1 mode ++ le_bytes 1 (from_bool (ap_wrote applied)) ++ le_bytes 2 0
                             ++ le_bytes 8 value ++ le_bytes 8 moved)
      | None => respond Status_Internal []
      end
  | Reply_TagSync entries =>
      respond Status_Ok (encode_tag_sync_body [] false ((fun e => (tg_name e, tg_generation e)) <$> entries))
  | Reply_Listing listing => respond Status_Ok (listing_body listing)
  | Reply_Cluster info => respond Status_Ok (cluster_body info)
  | Reply_Stats _ | Reply_Version _ | Reply_Closing | Reply_Swapped _ _ | Reply_Applied _ | Reply_Length _
  | Reply_Deadline _ | Reply_Deadlines _ => respond Status_Unsupported []
  | Reply_Value v => encode_value out opcode request_id v
  end.

(** ** The streamed batch reply *)

Record ValuesFrame := mkValuesFrame { vf_start : nat }.

Definition ValuesFrame_open (out : bytes) (opcode : Opcode) (request_id count : Z) : bytes * ValuesFrame :=
  (out ++ FrameHeader_bytes (FrameHeader_response opcode request_id Status_Ok 0) ++ le_bytes 4 count,
   mkValuesFrame (length out)).

Definition ValuesFrame_hit (out : bytes) (v : Value) : bytes :=
  out ++ [Byte.x01] ++ le_bytes 4 (v_mc_flags v) ++ le_bytes 8 (v_cas v)
  ++ le_bytes 4 (wrapping 32 (len (v_data v))) ++ v_data v.

Definition ValuesFrame_miss (out : bytes) : bytes := out ++ [Byte.x00].

(** [out[at..at + n].copy_from_slice(src)]. *)
Definition copy_into (out : bytes) (at_ : nat) (src : bytes) : bytes :=
  firstn at_ out ++ src ++ skipn (at_ + length src) out.

(** [Err] is [TooLarge], with the buffer as the caller gets it back. *)
Definition ValuesFrame_finish (frame : ValuesFrame) (out : bytes) : bytes * bool :=
  let body_len := len out - Z.of_nat (vf_start frame) - HEADER_LEN in
  if MAX_BODY_LEN <? body_len then (firstn (vf_start frame) out, false)
  else
    let at_ := (vf_start frame + Z.to_nat HEADER_LEN - 4)%nat in
    (copy_into out at_ (le_bytes 4 (wrapping 32 body_len)), true).

Definition ValuesFrame_abandon (frame : ValuesFrame) (out : bytes) : bytes := firstn (vf_start frame) out.

(** ** Response parsers *)

(** [body.get(pos..pos + n)?] moves a position over the body; what is left of
    the body is passed on. *)
Fixpoint decode_entries (count : nat) (b : bytes) : option (list ListEntry) :=
  match count with
  | O => Some []
  | S count' =>
      '(version, b) ← take_field 8 b;
      '(name_len, b) ← take_field 2 b;
      '(name, b) ← split_at (Z.to_nat name_len) b;
      entries ← decode_entries count' b;
      Some (ListEntry_new name version :: entries)
  end.

Definition decode_listing (body : bytes) : option Listing :=
  if len body <? LIST_RESPONSE_HEADER_LEN then None
  else
    let count := le_val (firstn 4 body) in
    let truncated := negb (Z.land (le_val (firstn 1 (skipn 4 body))) list_flags_TRUNCATED =? 0) in
    let scanned := le_val (firstn 8 (skipn 8 body)) in
    let cursor_len := le_val (firstn 2 (skipn 16 body)) in
    '(cursor, b) ← split_at (Z.to_nat cursor_len) (skipn 20 body);
    if len b / NAMED_ENTRY_PREFIX_LEN <? count then None
    else
      entries ← decode_entries (Z.to_nat count) b;
      Some (mkListing entries scanned (if len cursor =? 0 then None else Some cursor) truncated).

Fixpoint decode_peers (count : nat) (b : bytes) : option (list PeerInfo) :=
  match count with
  | O => Some []
  | S count' =>
      '(n, b) ← take_field 2 b;
      '(addr, b) ← split_at (Z.to_nat n) b;
      _ ← utf8_decode addr;
      '(reachable, b) ← take_field 1 b;
      peers ← decode_peers count' b;
      Some (mkPeerInfo addr (negb (reachable =? 0)) :: peers)
  end.

Definition decode_cluster_response (body : bytes) : option ClusterInfo :=
  if len body <? CLUSTER_HEADER_LEN then None
  else
    mode ← ClusterMode_from_u8 (le_val (firstn 1 body));
    let count := le_val (firstn 2 (skipn 2 body)) in
    peers ← decode_peers (Z.to_nat count) (skipn 4 body);
    Some (mkClusterInfo mode peers).

Definition decode_hello_response (body : bytes) : option ServerInfo :=
  if len body <? HELLO_RESPONSE_LEN then None
  else
    Some (mkServerInfo (le_val (firstn 2 body)) (le_val (firstn 2 (skipn 2 body)))
            (le_val (firstn 4 (skipn 4 body))) (le_val (firstn 4 (skipn 8 body)))
            (le_val (firstn 4 (skipn 12 body))) (le_val (firstn 2 (skipn 16 body)))).
