(* ===== verification/VcpClient.v ===== *)
(** [vash-client/src/lib.rs]: what each of the client's calls sends, one round
    trip, and what it makes of the response.  The stream is the bytes the server
    sends back, in full: a read that would block is one that ends in the middle
    of a frame here.  Connecting, TLS and timeouts are not modelled. *)

From S2P Require Import Prelude Bytes Text Core Record Glob Clock Arith Float Command Vcp VcpEncode.

Inductive ClientError : Type :=
| CE_Io (detail : String.string)
| CE_Protocol (detail : String.string)
| CE_Status (status : Status)
| CE_VersionMismatch (server client : Z).

(** ** Requests *)

(** The opcode and body of the call that sends a command; none when the client
    has no such call. *)
Definition client_request (c : Command) : option (Opcode * bytes) :=
  match c with
  | Cmd_Hello version => Some (Opcode_Hello, le_bytes 2 version ++ le_bytes 2 0)
  | Cmd_Ping => Some (Opcode_Ping, [])
  | Cmd_Get key => Some (Opcode_Get, key)
  | Cmd_GetMany (KeyList_Many keys) => Some (Opcode_GetMany, encode_key_list_body [] keys)
  | Cmd_Set set =>
      match s_ttl set with
      | Ttl_Set ttl_secs => Some (Opcode_Set, encode_set_body [] (s_key set) (s_value set) ttl_secs (s_tags set))
      | _ => None
      end
  | Cmd_SetMany sets BatchGuard_Always =>
      (* the items of [set_many] carry no tags: it passes [&[]] for each *)
      if forallb (fun set => bool_decide (s_tags set = [])) sets
      then Some (Opcode_SetMany,
                 foldl (fun body set => match s_ttl set with
                                        | Ttl_Set ttl_secs => encode_set_body body (s_key set) (s_value set) ttl_secs (s_tags set)
                                        | _ => body
                                        end) (encode_batch_count [] (len sets)) sets)
      else None
  | Cmd_Delete key => Some (Opcode_Delete, key)
  | Cmd_DeleteMany keys => Some (Opcode_DeleteMany, encode_key_list_body [] keys)
  | Cmd_Touch key ttl_secs => Some (Opcode_Touch, encode_touch_body [] key ttl_secs)
  | Cmd_Arithmetic op => Some (Opcode_Arithmetic, encode_arithmetic_body [] op)
  | Cmd_DeleteByTag tag => Some (Opcode_DeleteByTag, tag)
  | Cmd_Flush => Some (Opcode_Flush, [])
  | Cmd_TagSync full entries => Some (Opcode_TagSync, encode_tag_sync_body [] full entries)
  | Cmd_Cluster => Some (Opcode_Cluster, [])
  | Cmd_ListKeys r => Some (Opcode_ListKeys, encode_list_body [] (lr_limit r) (lr_cursor r) (lr_pattern r))
  | Cmd_ListTags r => Some (Opcode_ListTags, encode_list_body [] (lr_limit r) (lr_cursor r) (lr_pattern r))
  | _ => None
  end.

(** ** Responses *)

Abbreviation ClientM := (Result ClientError).

Definition protocol {A} (detail : String.string) : ClientM A := Err (CE_Protocol detail).

(** [Reader]: what is left of the response body. *)
Definition Read (A : Type) : Type := bytes -> ClientM (A * bytes).

#[global] Instance Read_ret : MRet Read := fun A a b => Ok (a, b).

#[global] Instance Read_bind : MBind Read :=
  fun A B f m b => match m b with
                   | Ok (a, b') => f a b'
                   | Err e => Err e
                   | Panic why => Panic why
                   end.

Definition truncated : ClientError := CE_Protocol "response body was truncated".

Definition read_bytes (n : Z) : Read bytes := fun b => ok_or (split_at (Z.to_nat n) b) truncated.

Definition read_num (n : nat) : Read Z := fun b => ok_or (take_field n b) truncated.

Fixpoint repeat_read {A} (count : nat) (item : Read A) : Read (list A) :=
  match count with
  | O => mret []
  | S count' => x ← item; xs ← repeat_read count' item; mret (x :: xs)
  end.

Definition run_read {A} (r : Read A) (body : bytes) : ClientM A :=
  match r body with Ok (a, _) => Ok a | Err e => Err e | Panic why => Panic why end.

Definition read_slot : Read (option Value) :=
  present ← read_num 1;
  if present =? 0 then mret None
  else
    mc_flags ← read_num 4;
    cas ← read_num 8;
    n ← read_num 4;
    data ← read_bytes n;
    mret (Some (mkValue data mc_flags cas None)).

Definition read_counted {A} (item : Read A) : Read (list A) :=
  count ← read_num 4;
  repeat_read (Z.to_nat count) item.

(** [u64::from_le_bytes(payload[i..j])] of a payload long enough. *)
Definition num_at (i n : nat) (b : bytes) : Z := le_val (firstn n (skipn i b)).

Definition parse_get (status : Status) (body : bytes) : ClientM (option Value) :=
  match status with
  | Status_NotFound => Ok None
  | Status_Ok =>
      if len body <? VALUE_PREFIX_LEN then protocol "truncated value response"
      else Ok (Some (mkValue (skipn 12 body) (num_at 0 4 body) (num_at 4 8 body) None))
  | other => Err (CE_Status other)
  end.

Definition parse_set (status : Status) (body : bytes) : ClientM Z :=
  match status with
  | Status_Ok => if 8 <=? len body then Ok (num_at 0 8 body) else protocol "truncated set response"
  | other => Err (CE_Status other)
  end.

(** [delete], [touch], [delete_by_tag]. *)
Definition parse_found (status : Status) (body : bytes) : ClientM bool :=
  match status with
  | Status_Ok => Ok true
  | Status_NotFound => Ok false
  | other => Err (CE_Status other)
  end.

Definition parse_ping (status : Status) (body : bytes) : ClientM unit :=
  match status with Status_Ok => Ok () | other => Err (CE_Status other) end.

Definition parse_flush (status : Status) (body : bytes) : ClientM Z :=
  match status with
  | Status_Ok => if 4 <=? len body then Ok (num_at 0 4 body) else protocol "truncated flush response"
  | other => Err (CE_Status other)
  end.

Definition number_of (mode bits : Z) : ClientM Number :=
  match mode with
  | 0 => Ok (Number_Counter bits)
  | 1 => Ok (Number_Int (as_i64 bits))
  | 2 => Ok (Number_Float (f64_from_bits bits))
  | _ => protocol "unknown arithmetic mode"
  end.

Definition parse_arithmetic (status : Status) (body : bytes) : ClientM (option Applied) :=
  match status with
  | Status_NotFound => Ok None
  | Status_Ok =>
      if len body <? ARITHMETIC_RESPONSE_LEN then protocol "arithmetic response is too short"
      else
        value ← number_of (num_at 0 1 body) (num_at 4 8 body);
        applied ← number_of (num_at 0 1 body) (num_at 12 8 body);
        Ok (Some (mkApplied value applied (negb (num_at 1 1 body =? 0))))
  | other => Err (CE_Status other)
  end.

(** A call whose only accepted status is [Ok]. *)
Definition on_ok {A} (parse : bytes -> ClientM A) (status : Status) (body : bytes) : ClientM A :=
  if bool_decide (status = Status_Ok) then parse body else Err (CE_Status status).

Definition parse_get_many : Status -> bytes -> ClientM (list (option Value)) :=
  on_ok (run_read (read_counted read_slot)).

Definition parse_set_many : Status -> bytes -> ClientM (list Z) :=
  on_ok (run_read (read_counted (read_num 8))).

Definition parse_delete_many : Status -> bytes -> ClientM (list bool) :=
  on_ok (run_read (read_counted (b ← read_num 1; mret (negb (b =? 0))))).

Definition parse_tag_sync : Status -> bytes -> ClientM (list TagGeneration) :=
  on_ok (fun body =>
    match decode_tag_sync body with
    | Ok (_, learned) => Ok ((fun '(name, generation) => mkTagGeneration name generation) <$> learned)
    | Err _ => protocol "malformed tag sync response"
    | Panic why => Panic why
    end).

Definition parse_cluster : Status -> bytes -> ClientM ClusterInfo :=
  on_ok (fun body => ok_or (decode_cluster_response body) (CE_Protocol "malformed cluster response")).

Definition parse_list : Status -> bytes -> ClientM Listing :=
  on_ok (fun body => ok_or (decode_listing body) (CE_Protocol "malformed listing response")).

Definition parse_hello (status : Status) (body : bytes) : ClientM ServerInfo :=
  on_ok (fun body =>
    info ← ok_or (decode_hello_response body) (CE_Protocol "truncated hello response");
    if si_protocol_version info =? PROTOCOL_VERSION then Ok info
    else Err (CE_VersionMismatch (si_protocol_version info) PROTOCOL_VERSION)) status body.

(** ** One round trip *)

Record Client := mkClient { cl_buf : bytes; cl_next_id : Z }.

(** [read_frame]: the bytes of the stream that arrive are in the buffer. *)
Definition read_frame (buf : bytes) : ClientM (bytes * bytes) :=
  match peek_frame_len buf with
  | FrameLen_Complete n => Ok (firstn (Z.to_nat n) buf, skipn (Z.to_nat n) buf)
  | FrameLen_TooLarge => protocol "server frame exceeded the maximum size"
  | FrameLen_Incomplete _ => Err (CE_Io "server closed the connection mid-frame")
  end.

Definition parse_header (frame : bytes) : ClientM (Z * Z * bytes) :=
  if len frame <? HEADER_LEN then protocol "response shorter than a frame header"
  else Ok (num_at 4 4 frame, num_at 2 2 frame, skipn 12 frame).

(** [server]: the bytes that come back for the bytes sent. *)
Definition round_trip (server : bytes -> bytes) (c : Client) (opcode : Opcode) (body : bytes)
    : Client * ClientM (Status * bytes) :=
  let request_id := cl_next_id c in
  let next_id := wrapping 32 (cl_next_id c + 1) in
  let frame := encode_request [] opcode request_id body in
  let buf := cl_buf c ++ server frame in
  match read_frame buf with
  | Ok (response, buf') =>
      (mkClient buf' next_id,
       '(id, status, payload) ← parse_header response;
       if id =? request_id then
         status ← ok_or (Status_from_u16 status) (CE_Protocol "unknown status code");
         Ok (status, payload)
       else protocol "response id did not match the request")
  | Err e => (mkClient buf next_id, Err e)
  | Panic why => (mkClient buf next_id, Panic why)
  end.

(** ** Calls: a command, and what its method returns *)

Inductive Answer : Type :=
| Answer_Info (info : ServerInfo)
| Answer_Unit
| Answer_Value (value : option Value)
| Answer_Values (values : list (option Value))
| Answer_Cas (cas : Z)
| Answer_CasList (cas : list Z)
| Answer_Found (found : bool)
| Answer_Hits (hits : list bool)
| Answer_Applied (applied : option Applied)
| Answer_Epoch (epoch : Z)
| Answer_Tags (learned : list TagGeneration)
| Answer_Cluster (info : ClusterInfo)
| Answer_Listing (listing : Listing).

Definition client_parse (c : Command) (status : Status) (payload : bytes) : ClientM Answer :=
  match c with
  | Cmd_Hello _ => Answer_Info <$> parse_hello status payload
  | Cmd_Ping => (fun _ => Answer_Unit) <$> parse_ping status payload
  | Cmd_Get _ => Answer_Value <$> parse_get status payload
  | Cmd_GetMany _ => Answer_Values <$> parse_get_many status payload
  | Cmd_Set _ => Answer_Cas <$> parse_set status payload
  | Cmd_SetMany _ _ => Answer_CasList <$> parse_set_many status payload
  | Cmd_Delete _ | Cmd_Touch _ _ | Cmd_DeleteByTag _ => Answer_Found <$> parse_found status payload
  | Cmd_DeleteMany _ => Answer_Hits <$> parse_delete_many status payload
  | Cmd_Arithmetic _ => Answer_Applied <$> parse_arithmetic status payload
  | Cmd_Flush => Answer_Epoch <$> parse_flush status payload
  | Cmd_TagSync _ _ => Answer_Tags <$> parse_tag_sync status payload
  | Cmd_Cluster => Answer_Cluster <$> parse_cluster status payload
  | Cmd_ListKeys _ | Cmd_ListTags _ => Answer_Listing <$> parse_list status payload
  | _ => Panic "the client has no such call"
  end.

Definition call (server : bytes -> bytes) (client : Client) (c : Command) : Client * ClientM Answer :=
  match client_request c with
  | None => (client, Panic "the client has no such call")
  | Some (opcode, body) =>
      let '(client', answer) := round_trip server client opcode body in
      (client', '(status, payload) ← answer; client_parse c status payload)
  end.
