(* ===== verification/VcpSpec.v ===== *)
(** What the native protocol promises: a request decodes to the command that was
    sent, whatever follows it in the buffer; a decoder never runs off its input,
    never panics, and hands on only commands the store can be given. *)

From S2P Require Import Prelude Bytes Text Core Record Glob Clock Arith Float Command Vcp VcpEncode VcpClient.

#[local] Delimit Scope string_scope with str.

(** ** Frames *)

Definition header_fits (h : FrameHeader) : Prop :=
  fits 8 (fh_opcode h) /\ fits 8 (fh_flags h) /\ fits 16 (fh_status h)
  /\ fits 32 (fh_request_id h) /\ fits 32 (fh_body_len h).

Lemma FrameHeader_from_prefix_app h rest :
  header_fits h -> FrameHeader_from_prefix (FrameHeader_bytes h ++ rest) = Some (h, rest).
Proof.
  intros (H1 & H2 & H3 & H4 & H5). destruct h as [op fl st id bl]. cbn [fh_opcode fh_flags fh_status fh_request_id fh_body_len] in *.
  unfold FrameHeader_from_prefix, FrameHeader_bytes. cbn [fh_opcode fh_flags fh_status fh_request_id fh_body_len].
  rewrite <- !app_assoc.
  rewrite (take_field_app 8 1) by done. cbn [mbind option_bind].
  rewrite (take_field_app 8 1) by done. cbn [mbind option_bind].
  rewrite (take_field_app 16 2) by done. cbn [mbind option_bind].
  rewrite (take_field_app 32 4) by done. cbn [mbind option_bind].
  by rewrite (take_field_app 32 4) by done.
Qed.

Lemma FrameHeader_from_prefix_inv b h rest :
  FrameHeader_from_prefix b = Some (h, rest) -> b = FrameHeader_bytes h ++ rest /\ header_fits h.
Proof.
  unfold FrameHeader_from_prefix. intros H. inv_fields. injection H as <- <-.
  unfold FrameHeader_bytes, header_fits. cbn [fh_opcode fh_flags fh_status fh_request_id fh_body_len].
  rewrite <- !app_assoc. split_and!; done.
Qed.

Lemma length_FrameHeader_bytes h : length (FrameHeader_bytes h) = 12%nat.
Proof. unfold FrameHeader_bytes. by rewrite !length_app, !length_le_bytes. Qed.

Lemma FrameHeader_from_prefix_None b : FrameHeader_from_prefix b = None <-> (length b < 12)%nat.
Proof.
  split.
  - intros H. destruct (decide (length b < 12)%nat) as [|Hn]; [done|exfalso].
    unfold FrameHeader_from_prefix in H.
    repeat match goal with
    | H : (take_field ?n ?b ≫= _) = None |- _ =>
        destruct (take_field n b) as [[? ?]|] eqn:?; cbn [mbind option_bind] in H
    end; try discriminate H;
    repeat match goal with
    | H : take_field ?n _ = Some _ |- _ => apply (take_field_inv (8 * Z.of_nat n)) in H as [-> _]; [|done]
    | H : take_field _ _ = None |- _ => apply take_field_None in H
    end; rewrite ?length_app, ?length_le_bytes in *; lia.
  - intros H. destruct (FrameHeader_from_prefix b) as [[h rest]|] eqn:E; [|done].
    apply FrameHeader_from_prefix_inv in E as [-> _]. rewrite length_app, length_FrameHeader_bytes in H. lia.
Qed.

Lemma Opcode_from_code op : Opcode_from_u8 (Opcode_code op) = Some op.
Proof. by destruct op. Qed.

Lemma Status_from_code s : Status_from_u16 (Status_code s) = Some s.
Proof. by destruct s. Qed.

Lemma Opcode_code_fits op : fits 8 (Opcode_code op).
Proof. destruct op; cbn [Opcode_code]; width. Qed.

Lemma Status_code_fits s : fits 16 (Status_code s).
Proof. destruct s; cbn [Status_code]; width. Qed.

Lemma Opcode_from_inv v op : Opcode_from_u8 v = Some op -> v = Opcode_code op.
Proof.
  intros H. destruct (decide (0 <= v < 82)) as [Hv|Hv].
  - assert (forallb (fun v => match Opcode_from_u8 v with Some op => v =? Opcode_code op | None => true end)
      (Z.of_nat <$> seq 0 82) = true) as Hall by (vm_compute; reflexivity).
    rewrite forallb_forall in Hall. specialize (Hall v). rewrite H in Hall. apply Z.eqb_eq, Hall.
    apply in_map_iff. exists (Z.to_nat v). split; [lia|]. apply in_seq. lia.
  - exfalso. unfold Opcode_from_u8 in H. destruct v as [|p|p]; try done.
    do 7 (destruct p as [p|p|]; try done; try lia).
Qed.

(** ** Decoders

    [reads d enc x]: [d] takes [enc] off the front of any input and returns
    [x].  [sound d P]: whatever [d] returns satisfies [P], and what it leaves is
    a suffix of its input. *)

Definition reads {A} (d : Dec A) (enc : bytes) (x : A) : Prop := forall rest, d (enc ++ rest) = Ok (x, rest).

Lemma reads_ret {A} (x : A) : reads (mret x) [] x.
Proof. by intros rest. Qed.

Lemma reads_bind {A B} (d : Dec A) (f : A -> Dec B) enc1 enc2 x y :
  reads d enc1 x -> reads (f x) enc2 y -> reads (d ≫= f) (enc1 ++ enc2) y.
Proof. intros H1 H2 rest. rewrite <- app_assoc. unfold mbind, Dec_bind. by rewrite H1, H2. Qed.

Lemma reads_then {A B} (d : Dec A) (f : A -> Dec B) x enc y :
  reads d [] x -> reads (f x) enc y -> reads (d ≫= f) enc y.
Proof. intros H1 H2. by apply (reads_bind d f [] enc x y). Qed.

Lemma reads_lift {A} (r : Result Refusal A) x : r = Ok x -> reads (lift r) [] x.
Proof. intros -> rest. done. Qed.

Lemma reads_field w n e z : w = 8 * Z.of_nat n -> fits w z -> reads (field n e) (le_bytes n z) z.
Proof. intros Hw Hz rest. unfold field. by rewrite (take_field_app w n). Qed.

Lemma reads_take n e l : len l = n -> reads (take_bytes n e) l l.
Proof.
  intros <- rest. unfold take_bytes, len. by rewrite Nat2Z.id, split_at_app by done.
Qed.

Lemma reads_repeat {A} (item : Dec A) (enc : A -> bytes) l :
  Forall (fun x => reads item (enc x) x) l -> reads (repeat_dec (length l) item) (mjoin (enc <$> l)) l.
Proof.
  induction 1 as [|x l Hx Hl IH]; [apply reads_ret|]. cbn.
  eapply reads_bind; [exact Hx|]. rewrite <- (app_nil_r (mjoin _)).
  eapply reads_bind; [exact IH|apply reads_ret].
Qed.

Lemma run_reads {A} (d : Dec A) enc x rest : reads d enc x -> run_dec d (enc ++ rest) = Ok x.
Proof. intros H. unfold run_dec. by rewrite H. Qed.

(** A decoder that ends by taking all that is left. *)
Lemma reads_run_bind {A B} (d : Dec A) (f : A -> Dec B) enc x b :
  reads d enc x -> run_dec (d ≫= f) (enc ++ b) = run_dec (f x) b.
Proof. intros H. unfold run_dec, mbind, Dec_bind. by rewrite H. Qed.

Lemma run_then {A B} (d : Dec A) (f : A -> Dec B) x b : reads d [] x -> run_dec (d ≫= f) b = run_dec (f x) b.
Proof. intros H. unfold run_dec, mbind, Dec_bind. pose proof (H b) as Hb. cbn in Hb. by rewrite Hb. Qed.

Lemma reads_run_last {A B} (d : Dec A) (f : A -> Dec B) enc x :
  reads d enc x -> run_dec (d ≫= f) enc = run_dec (f x) [].
Proof. intros H. rewrite <- (app_nil_r enc). by apply reads_run_bind. Qed.

Lemma run_rest {B} (f : bytes -> Dec B) b : run_dec (rest_of_body ≫= f) b = run_dec (f b) [].
Proof. done. Qed.

Definition sound {A} (d : Dec A) (P : A -> Prop) : Prop :=
  forall b, match d b with
            | Ok (x, b') => P x /\ exists used, b = used ++ b'
            | Err _ => True
            | Panic _ => False
            end.

Lemma sound_ret {A} (x : A) (P : A -> Prop) : P x -> sound (mret x) P.
Proof. intros H b. split; [done|]. by exists []. Qed.

Lemma sound_bind {A B} (d : Dec A) (f : A -> Dec B) P Q :
  sound d P -> (forall x, P x -> sound (f x) Q) -> sound (d ≫= f) Q.
Proof.
  intros Hd Hf b. unfold mbind, Dec_bind. specialize (Hd b). destruct (d b) as [[x b1]|e|why]; [|done..].
  destruct Hd as [Hx [u ->]]. specialize (Hf x Hx b1). destruct (f x b1) as [[y b2]|e|why]; [|done..].
  destruct Hf as [Hy [u' ->]]. split; [done|]. exists (u ++ u'). by rewrite app_assoc.
Qed.

Lemma sound_mono {A} (d : Dec A) (P Q : A -> Prop) : (forall x, P x -> Q x) -> sound d P -> sound d Q.
Proof.
  intros H Hd b. specialize (Hd b). destruct (d b) as [[x b1]|e|why]; [|done..].
  destruct Hd. split; auto.
Qed.

Lemma sound_lift {A} (r : Result Refusal A) (P : A -> Prop) :
  match r with Ok x => P x | Err _ => True | Panic _ => False end -> sound (lift r) P.
Proof. intros H b. unfold lift. destruct r; [|done..]. split; [done|]. by exists []. Qed.

Lemma sound_field w n e : w = 8 * Z.of_nat n -> sound (field n e) (fits w).
Proof.
  intros Hw b. unfold field. destruct (take_field n b) as [[z r]|] eqn:E; [|done].
  apply (take_field_inv w) in E as [-> Hz]; [|done]. split; [done|]. by exists (le_bytes n z).
Qed.

Lemma sound_take n e : 0 <= n -> sound (take_bytes n e) (fun l => len l = n).
Proof.
  intros Hn b. unfold take_bytes. destruct (split_at (Z.to_nat n) b) as [[l r]|] eqn:E; [|done].
  apply split_at_Some in E as [-> Hl]. split; [unfold len; lia|]. by exists l.
Qed.

Lemma sound_rest : sound rest_of_body (fun _ => True).
Proof. intros b. split; [done|]. exists b. by rewrite app_nil_r. Qed.

Lemma sound_repeat {A} (item : Dec A) P n :
  sound item P -> sound (repeat_dec n item) (fun l => length l = n /\ Forall P l).
Proof.
  intros Hi. induction n as [|n IH]; [by apply sound_ret|]. cbn.
  eapply sound_bind; [exact Hi|]. intros x Hx. eapply sound_bind; [exact IH|]. intros l [Hl Hf].
  apply sound_ret. split; [by cbn; rewrite Hl|by constructor].
Qed.

Lemma run_sound {A} (d : Dec A) P b :
  sound d P -> match run_dec d b with Ok x => P x | Err _ => True | Panic _ => False end.
Proof.
  intros H. unfold run_dec. specialize (H b). destruct (d b) as [[x b1]|e|why]; [|done..]. by destruct H.
Qed.

(** ** Commands the wire can carry *)

Definition name_ok (name : bytes) : Prop := 1 <= len name <= MAX_TAG_LEN.

Definition set_ok (s : SetReq) : Prop :=
  valid_key (s_key s) /\ fits 32 (len (s_value s)) /\ (exists ttl, s_ttl s = Ttl_Set ttl /\ fits 32 ttl)
  /\ s_mc_flags s = 0 /\ s_mode s = SetMode_Set /\ s_return_previous s = false
  /\ Forall name_ok (s_tags s) /\ len (s_tags s) <= 255.

Definition delta_ok (d : Delta) : Prop :=
  match d with
  | Delta_Counter delta _ => fits 64 delta
  | Delta_Int delta lower upper => in_i64 delta = true /\ in_i64 lower = true /\ in_i64 upper = true
  | Delta_Float delta lower upper => f64_valid delta /\ f64_valid lower /\ f64_valid upper
  end.

Definition wire_ttl_ok (t : TtlChange) : Prop :=
  match t with Ttl_Keep => True | Ttl_Set s | Ttl_SetIfPersistent s => fits 32 s end.

Definition arithmetic_ok (op : Arithmetic) : Prop :=
  valid_key (ar_key op) /\ delta_ok (ar_delta op) /\ wire_ttl_ok (ar_ttl op).

Definition keys_ok (keys : list bytes) : Prop := Forall valid_key keys /\ len keys <= MAX_BATCH_ITEMS.

Definition list_ok (r : ListRequest) : Prop :=
  ListRequest_validate r = Ok () /\ 0 <= lr_limit r
  /\ len (lr_cursor r) <= MAX_LIST_CURSOR_LEN /\ len (lr_pattern r) <= MAX_KEY_LEN.

(** What a decoded command satisfies, and what a client must see to. *)
Definition wire_ok (c : Command) : Prop :=
  match c with
  | Cmd_Hello version => fits 16 version
  | Cmd_Ping | Cmd_Flush | Cmd_Cluster => True
  | Cmd_Get key | Cmd_Delete key => valid_key key
  | Cmd_GetMany (KeyList_Many keys) => keys_ok keys
  | Cmd_Set set => set_ok set
  | Cmd_SetMany sets guard => guard = BatchGuard_Always /\ Forall set_ok sets /\ len sets <= MAX_BATCH_ITEMS
  | Cmd_DeleteMany keys => keys_ok keys
  | Cmd_Touch key ttl_secs => valid_key key /\ fits 32 ttl_secs
  | Cmd_Arithmetic op => arithmetic_ok op
  | Cmd_DeleteByTag tag => name_ok tag
  | Cmd_TagSync _ entries =>
      Forall (fun '(name, generation) => name_ok name /\ fits 64 generation) entries
      /\ len entries <= MAX_TAG_SYNC_ENTRIES
  | Cmd_ListKeys r | Cmd_ListTags r => list_ok r
  | _ => False
  end.

(** ** Encodings as concatenations *)

Lemma foldl_push {A} (f : A -> bytes) (push : bytes -> A -> bytes) (l : list A) out :
  (forall out x, push out x = out ++ f x) -> foldl push out l = out ++ mjoin (f <$> l).
Proof.
  intros Hp. revert out. induction l as [|x l IH]; intros out; cbn; [by rewrite app_nil_r|].
  by rewrite IH, Hp, <- app_assoc.
Qed.

Definition prefixed (name : bytes) : bytes := le_bytes 2 (wrapping 16 (len name)) ++ name.

Definition named_entry (e : bytes * Z) : bytes :=
  le_bytes 8 e.2 ++ le_bytes 2 (wrapping 16 (len e.1)) ++ e.1.

Definition set_enc (s : SetReq) : bytes :=
  match s_ttl s with
  | Ttl_Set ttl => encode_set_body [] (s_key s) (s_value s) ttl (s_tags s)
  | _ => []
  end.

Lemma encode_set_body_app out key value ttl tags :
  encode_set_body out key value ttl tags
  = out ++ (le_bytes 4 ttl ++ le_bytes 2 (wrapping 16 (len key)) ++ le_bytes 1 (wrapping 8 (len tags))
            ++ le_bytes 1 0 ++ le_bytes 4 (wrapping 32 (len value))) ++ key ++ value ++ mjoin (prefixed <$> tags).
Proof.
  unfold encode_set_body. rewrite (foldl_push prefixed) by done. by rewrite <- !app_assoc.
Qed.

(** ** Each decoder reads its encoding *)

Lemma decode_key_ok b : valid_key b -> decode_key b = Ok b.
Proof. intros H. unfold decode_key. by rewrite (proj2 (Key_new_ok b) H). Qed.

Lemma decode_key_sound b : match decode_key b with Ok k => k = b /\ valid_key b | Err _ => True | Panic _ => False end.
Proof.
  unfold decode_key. destruct (Key_new b) as [k|e|why] eqn:E; cbn; [by apply Key_new_inv|by destruct e|].
  unfold Key_new in E. repeat case_match; done.
Qed.

Lemma len_fits16 {A} (l : list A) n : len l <= n -> n <= 65535 -> fits 16 (len l) /\ wrapping 16 (len l) = len l.
Proof.
  intros H1 H2. assert (fits 16 (len l)) as Hf by (pose proof (len_nonneg l); width).
  split; [done|by apply wrapping_small].
Qed.

Lemma reads_name e1 e2 name : name_ok name -> reads (decode_name e1 e2) (prefixed name) name.
Proof.
  intros [H1 H2]. destruct (len_fits16 name MAX_TAG_LEN H2 ltac:(done)) as [Hf Hw].
  unfold prefixed. rewrite Hw. eapply reads_bind; [by apply (reads_field 16)|].
  rewrite <- (app_nil_r name) at 2. eapply reads_bind; [by apply reads_take|].
  destruct (Z.eqb_spec (len name) 0); [lia|]. destruct (Z.ltb_spec MAX_TAG_LEN (len name)); [lia|].
  apply reads_ret.
Qed.

Lemma sound_name e1 e2 : sound (decode_name e1 e2) name_ok.
Proof.
  eapply sound_bind; [by apply (sound_field 16)|]. intros n Hn.
  eapply sound_bind; [apply sound_take; width|]. intros name Hl. cbn beta.
  pose proof (len_nonneg name).
  destruct (Z.eqb_spec (len name) 0); [by apply sound_lift|].
  destruct (Z.ltb_spec MAX_TAG_LEN (len name)); [by apply sound_lift|]. apply sound_ret. unfold name_ok. lia.
Qed.

Lemma reads_key k : valid_key k -> reads decode_listed_key (prefixed k) k.
Proof.
  intros Hk. pose proof Hk as [H1 H2]. destruct (len_fits16 k MAX_KEY_LEN H2 ltac:(done)) as [Hf Hw].
  unfold prefixed. rewrite Hw. eapply reads_bind; [by apply (reads_field 16)|].
  rewrite <- (app_nil_r k) at 2. eapply reads_bind; [by apply reads_take|].
  by apply reads_lift, decode_key_ok.
Qed.

Lemma sound_key b : sound (lift (decode_key b)) valid_key.
Proof.
  apply sound_lift. pose proof (decode_key_sound b) as H. destruct (decode_key b); [by destruct H as [-> ?]|done..].
Qed.

Lemma sound_listed_key : sound decode_listed_key valid_key.
Proof.
  eapply sound_bind; [by apply (sound_field 16)|]. intros n Hn.
  eapply sound_bind; [apply sound_take; width|]. intros b _. apply sound_key.
Qed.

Lemma reads_count n : 0 <= n <= MAX_BATCH_ITEMS -> reads decode_count (le_bytes 4 n) n.
Proof.
  intros Hn. unfold decode_count. rewrite <- (app_nil_r (le_bytes 4 n)).
  eapply reads_bind; [apply (reads_field 32); [done|]|]; [unfold MAX_BATCH_ITEMS in *; width|].
  destruct (Z.ltb_spec MAX_BATCH_ITEMS n); [lia|]. apply reads_ret.
Qed.

Lemma sound_count : sound decode_count (fun n => 0 <= n <= MAX_BATCH_ITEMS).
Proof.
  eapply sound_bind; [by apply (sound_field 32)|]. intros n Hn.
  destruct (Z.ltb_spec MAX_BATCH_ITEMS n); [by apply sound_lift|]. apply sound_ret.
  unfold fits in Hn. lia.
Qed.

(** A counted list: the count, then the items. *)
Lemma reads_counted {A} (item : Dec A) (enc : A -> bytes) l :
  len l <= MAX_BATCH_ITEMS -> Forall (fun x => reads item (enc x) x) l ->
  reads (count ← decode_count; repeat_dec (Z.to_nat count) item)
    (le_bytes 4 (wrapping 32 (len l)) ++ mjoin (enc <$> l)) l.
Proof.
  intros Hl Hi. pose proof (len_nonneg l).
  rewrite wrapping_small by (unfold MAX_BATCH_ITEMS in *; width).
  eapply reads_bind; [by apply reads_count|]. unfold len. rewrite Nat2Z.id. by apply reads_repeat.
Qed.

Lemma sound_counted {A} (item : Dec A) P :
  sound item P ->
  sound (count ← decode_count; repeat_dec (Z.to_nat count) item) (fun l => Forall P l /\ len l <= MAX_BATCH_ITEMS).
Proof.
  intros Hi. eapply sound_bind; [apply sound_count|]. intros n [Hn0 Hn1].
  eapply sound_mono; [|by apply sound_repeat]. intros l [Hl Hf]. split; [done|]. unfold len. lia.
Qed.

Lemma reads_key_list keys : keys_ok keys -> reads decode_key_list (encode_key_list_body [] keys) keys.
Proof.
  intros [Hk Hl]. unfold encode_key_list_body. rewrite (foldl_push prefixed) by done. cbn [app].
  apply reads_counted; [done|]. eapply Forall_impl; [exact Hk|]. apply reads_key.
Qed.

(** ** Bodies *)

(** A fixed-offset field of a body laid out as [l], the field, [r]. *)
Lemma slice w i n raw z l r :
  raw = l ++ le_bytes n z ++ r -> length l = i -> w = 8 * Z.of_nat n -> fits w z ->
  le_val (firstn n (skipn i raw)) = z.
Proof.
  intros -> <- Hw Hz. rewrite drop_length_app, (take_app_exact n) by apply length_le_bytes.
  by apply (le_val_bytes_fits w).
Qed.

Lemma slice0 w n raw z r :
  raw = le_bytes n z ++ r -> w = 8 * Z.of_nat n -> fits w z -> le_val (firstn n raw) = z.
Proof. intros Hr Hw Hz. exact (slice w 0 n raw z [] r Hr eq_refl Hw Hz). Qed.

Ltac layout := unfold FrameHeader_bytes in *; rewrite <- ?app_assoc; reflexivity.

Ltac lengths := rewrite ?length_app, ?length_le_bytes, ?length_cons, ?length_nil.

Lemma set_header_fields ttl key_len tag_count value_len :
  fits 32 ttl -> fits 16 key_len -> fits 8 tag_count -> fits 32 value_len ->
  let raw := le_bytes 4 ttl ++ le_bytes 2 key_len ++ le_bytes 1 tag_count ++ le_bytes 1 0 ++ le_bytes 4 value_len in
  le_val (firstn 4 raw) = ttl /\ le_val (firstn 2 (skipn 4 raw)) = key_len
  /\ le_val (firstn 1 (skipn 6 raw)) = tag_count /\ le_val (firstn 4 (skipn 8 raw)) = value_len.
Proof.
  intros H1 H2 H3 H4 raw. conjs.
  - by eapply (slice0 32).
  - by eapply (slice 16 4 2 raw key_len (le_bytes 4 ttl)).
  - eapply (slice 8 6 1 raw tag_count (le_bytes 4 ttl ++ le_bytes 2 key_len)); [unfold raw; layout|done..].
  - eapply (slice 32 8 4 raw value_len (le_bytes 4 ttl ++ le_bytes 2 key_len ++ le_bytes 1 tag_count ++ le_bytes 1 0) []);
      [unfold raw; rewrite app_nil_r; layout|done..].
Qed.

Lemma reads_set s : set_ok s -> reads set_body (set_enc s) s.
Proof.
  intros (Hk & Hv & (ttl & Ht & Hf) & Hm & Hmode & Hr & Htags & Hn). pose proof Hk as [Hk1 Hk2].
  destruct s as [key value t mc tags mode ret]. cbn [s_key s_value s_ttl s_mc_flags s_mode s_return_previous s_tags] in *.
  subst. unfold set_enc. cbn [s_ttl s_key s_value s_tags]. rewrite encode_set_body_app. cbn [app].
  destruct (len_fits16 key MAX_KEY_LEN Hk2 ltac:(done)) as [Hkf Hkw]. rewrite Hkw.
  rewrite (wrapping_small 32) by done. pose proof (len_nonneg tags).
  assert (fits 8 (len tags)) as Htf by width. rewrite (wrapping_small 8) by done.
  destruct (set_header_fields ttl (len key) (len tags) (len value)) as (E1 & E2 & E3 & E4); [done..|].
  unfold set_body. eapply reads_bind; [apply reads_take; unfold len; by lengths|].
  rewrite E1, E2, E3, E4. eapply reads_bind; [by apply reads_take|].
  eapply reads_then; [by apply reads_lift, decode_key_ok|].
  eapply reads_bind; [by apply reads_take|]. rewrite <- (app_nil_r (mjoin _)).
  eapply reads_bind; [|apply reads_ret]. unfold len. rewrite Nat2Z.id. apply reads_repeat.
  eapply Forall_impl; [exact Htags|]. apply reads_name.
Qed.

Lemma le_val_firstn_fits w n b : w = 8 * Z.of_nat n -> (n <= length b)%nat -> fits w (le_val (firstn n b)).
Proof. intros -> Hn. apply le_val_fits. rewrite length_take. lia. Qed.

Lemma len_is {A} (l : list A) n : len l = Z.of_nat n -> length l = n.
Proof. unfold len. lia. Qed.

Lemma sound_set : sound set_body set_ok.
Proof.
  eapply sound_bind; [apply sound_take; by unfold SET_BODY_HEADER_LEN|]. intros raw Hraw.
  apply (len_is raw 12) in Hraw.
  assert (fits 32 (le_val (firstn 4 raw)) /\ fits 16 (le_val (firstn 2 (skipn 4 raw)))
    /\ fits 8 (le_val (firstn 1 (skipn 6 raw))) /\ fits 32 (le_val (firstn 4 (skipn 8 raw)))) as (F1 & F2 & F3 & F4).
  { conjs; apply le_val_firstn_fits; rewrite ?length_drop; lia. }
  eapply sound_bind; [apply sound_take; width|]. intros k _.
  eapply sound_bind; [apply sound_key|]. intros key Hk.
  eapply sound_bind; [apply sound_take; width|]. intros value Hv.
  eapply sound_bind; [apply sound_repeat, sound_name|]. intros tags [Hn Ht].
  apply sound_ret. unfold set_ok. cbn [s_key s_value s_ttl s_mc_flags s_mode s_return_previous s_tags].
  cbn beta in Hv. rewrite Hv. conjs; try done; [by eexists|]. unfold len. rewrite Hn. width.
Qed.

Lemma reads_tag_entry e :
  name_ok e.1 /\ fits 64 e.2 -> reads decode_tag_entry (named_entry e) e.
Proof.
  destruct e as [name generation]. intros [Hn Hg]. cbn [fst snd] in *. unfold named_entry. cbn [fst snd].
  eapply reads_bind; [by apply (reads_field 64)|]. change (_ ++ name) with (prefixed name).
  rewrite <- (app_nil_r (prefixed name)). eapply reads_bind; [by apply reads_name|apply reads_ret].
Qed.

Lemma sound_tag_entry : sound decode_tag_entry (fun '(name, generation) => name_ok name /\ fits 64 generation).
Proof.
  eapply sound_bind; [by apply (sound_field 64)|]. intros generation Hg.
  eapply sound_bind; [apply sound_name|]. intros name Hn. by apply sound_ret.
Qed.

Lemma encode_tag_sync_body_app full entries :
  encode_tag_sync_body [] full entries
  = (le_bytes 1 (if full then 1 else 0) ++ [Byte.x00; Byte.x00; Byte.x00] ++ le_bytes 4 (wrapping 32 (len entries)))
    ++ mjoin (named_entry <$> entries).
Proof.
  unfold encode_tag_sync_body. rewrite (foldl_push named_entry); [done|]. by intros out [name g].
Qed.

Lemma reads_tag_sync full entries :
  Forall (fun '(name, generation) => name_ok name /\ fits 64 generation) entries ->
  len entries <= MAX_TAG_SYNC_ENTRIES ->
  reads tag_sync_body (encode_tag_sync_body [] full entries) (full, entries).
Proof.
  intros He Hl. rewrite encode_tag_sync_body_app. set (kind := if full then 1 else 0).
  pose proof (len_nonneg entries). unfold MAX_TAG_SYNC_ENTRIES in Hl.
  assert (fits 32 (len entries)) as Hf by width. rewrite wrapping_small by done.
  set (header := le_bytes 1 kind ++ _). assert (fits 8 kind) as Hkf by (destruct full; by width).
  assert (le_val (firstn 1 header) = kind) as E1 by by eapply (slice0 8).
  assert (le_val (firstn 4 (skipn 4 header)) = len entries) as E2.
  { eapply (slice 32 4 4 header (len entries) (le_bytes 1 kind ++ [Byte.x00; Byte.x00; Byte.x00]) []);
      [unfold header; rewrite app_nil_r; layout|done..]. }
  unfold tag_sync_body. eapply reads_bind; [by apply reads_take|]. rewrite E1, E2.
  eapply reads_then with (x := full); [destruct full; apply reads_ret|].
  destruct (Z.ltb_spec MAX_TAG_SYNC_ENTRIES (len entries)) as [Hlt|_]; [unfold MAX_TAG_SYNC_ENTRIES in Hlt; lia|].
  rewrite <- (app_nil_r (mjoin _)). eapply reads_bind; [|apply reads_ret].
  unfold len. rewrite Nat2Z.id. apply reads_repeat. eapply Forall_impl; [exact He|].
  intros [name g]. exact (reads_tag_entry (name, g)).
Qed.

Lemma sound_tag_sync : sound tag_sync_body (fun '(full, entries) => wire_ok (Cmd_TagSync full entries)).
Proof.
  eapply sound_bind; [apply sound_take; by unfold TAG_SYNC_HEADER_LEN|]. intros header Hh.
  apply (len_is header 8) in Hh.
  eapply (sound_bind _ _ (fun _ => True)).
  { destruct (le_val (firstn 1 header)) as [|[p|p|]|p]; by (apply sound_ret || apply sound_lift). }
  intros full _. cbv zeta. destruct (Z.ltb_spec MAX_TAG_SYNC_ENTRIES (le_val (firstn 4 (skipn 4 header)))); [by apply sound_lift|].
  eapply sound_bind; [apply sound_repeat, sound_tag_entry|]. intros entries [Hn He].
  apply sound_ret. split; [exact He|]. unfold len. rewrite Hn.
  pose proof (le_val_range (firstn 4 (skipn 4 header))). lia.
Qed.

Lemma validate_no_panic p why : Glob.validate p <> Panic why.
Proof.
  induction p as [p IH] using (induction_ltof1 _ (@length byte)). unfold ltof in IH.
  destruct p as [|b p]; [done|]. cbn [Glob.validate]. destruct (Glob.beq b Glob.ESCAPE).
  - destruct p as [|c p]; [done|]. apply IH. cbn. lia.
  - apply IH. cbn. lia.
Qed.

Lemma run_list_request r : list_ok r ->
  decode_list_request (encode_list_body [] (lr_limit r) (lr_cursor r) (lr_pattern r)) = Ok r.
Proof.
  intros (Hv & H0 & Hc & Hp). destruct r as [limit cursor pattern]. cbn [lr_limit lr_cursor lr_pattern] in *.
  assert (limit <= MAX_LIST_LIMIT) as Hlim.
  { unfold ListRequest_validate in Hv. cbn [lr_limit] in Hv.
    destruct (Z.ltb_spec MAX_LIST_LIMIT limit); [by rewrite orb_true_r in Hv|done]. }
  destruct (len_fits16 cursor _ Hc ltac:(done)) as [Hcf Hcw]. destruct (len_fits16 pattern _ Hp ltac:(done)) as [Hpf Hpw].
  unfold encode_list_body, decode_list_request, list_body. cbv zeta. cbn [app]. rewrite Hcw, Hpw.
  erewrite reads_run_bind by (apply (reads_field 32); [done|unfold MAX_LIST_LIMIT in Hlim; width]).
  erewrite reads_run_bind by by apply (reads_field 16).
  erewrite reads_run_bind by by apply (reads_field 16).
  erewrite reads_run_bind by by apply reads_take.
  destruct (Z.ltb_spec MAX_LIST_CURSOR_LEN (len cursor)); [lia|].
  destruct (Z.ltb_spec MAX_KEY_LEN (len pattern)); [lia|].
  erewrite reads_run_bind by by apply reads_take.
  erewrite reads_run_last by by apply reads_take.
  rewrite run_rest. change (len (@nil byte)) with 0. cbn [Z.eqb negb].
  erewrite run_then by by (apply reads_lift; rewrite Hv). done.
Qed.

Lemma sound_list_body : sound list_body list_ok.
Proof.
  eapply sound_bind; [by apply (sound_field 32)|]. intros limit Hl.
  eapply sound_bind; [by apply (sound_field 16)|]. intros cursor_len Hc.
  eapply sound_bind; [by apply (sound_field 16)|]. intros pattern_len Hp.
  eapply sound_bind; [by apply sound_take|]. intros _ _.
  destruct (Z.ltb_spec MAX_LIST_CURSOR_LEN cursor_len); [by apply sound_lift|].
  destruct (Z.ltb_spec MAX_KEY_LEN pattern_len); [by apply sound_lift|].
  eapply sound_bind; [apply sound_take; width|]. intros cursor Ec.
  eapply sound_bind; [apply sound_take; width|]. intros pattern Ep.
  eapply sound_bind; [apply sound_rest|]. intros trailing _.
  destruct (negb _); [by apply sound_lift|].
  eapply (sound_bind _ _ (fun _ => ListRequest_validate (mkListRequest limit cursor pattern) = Ok ())).
  - apply sound_lift. destruct (ListRequest_validate _) as [[]|e|why] eqn:E; [reflexivity|exact I|].
    unfold ListRequest_validate in E. case_match; [done|]. by apply validate_no_panic in E.
  - intros [] Hv. apply sound_ret. unfold list_ok. cbn [lr_limit lr_cursor lr_pattern].
    cbn beta in *. split; [done|]. unfold fits in Hl. lia.
Qed.

Lemma sound_auth : sound auth_body (fun auth => fits 8 (au_mechanism auth)
  /\ len (au_name auth) <= MAX_AUTH_NAME_LEN /\ len (au_secret auth) <= MAX_AUTH_SECRET_LEN).
Proof.
  eapply sound_bind; [apply sound_take; by unfold AUTH_BODY_HEADER_LEN|]. intros header Hh.
  apply (len_is header 4) in Hh.
  assert (fits 8 (le_val (firstn 1 header)) /\ fits 8 (le_val (firstn 1 (skipn 1 header)))
    /\ fits 16 (le_val (firstn 2 (skipn 2 header)))) as (F1 & F2 & F3).
  { conjs; apply le_val_firstn_fits; rewrite ?length_drop; lia. }
  cbv zeta. destruct (Z.ltb_spec MAX_AUTH_NAME_LEN (le_val (firstn 1 (skipn 1 header)))); [by apply sound_lift|].
  destruct (Z.ltb_spec MAX_AUTH_SECRET_LEN (le_val (firstn 2 (skipn 2 header)))); [by apply sound_lift|].
  eapply sound_bind; [apply sound_take; width|]. intros name En.
  eapply sound_bind; [apply sound_take; width|]. intros secret Es.
  eapply sound_bind; [apply sound_rest|]. intros trailing _.
  destruct (negb _); [by apply sound_lift|]. apply sound_ret. cbn [au_mechanism au_name au_secret].
  cbn beta in *. split; [done|]. lia.
Qed.

Lemma run_auth mechanism name secret :
  fits 8 mechanism -> len name <= MAX_AUTH_NAME_LEN -> len secret <= MAX_AUTH_SECRET_LEN ->
  decode_auth (encode_auth_body [] mechanism name secret) = Ok (mkAuthRequest mechanism name secret).
Proof.
  intros Hm Hn Hs. pose proof (len_nonneg name). pose proof (len_nonneg secret).
  unfold MAX_AUTH_NAME_LEN, MAX_AUTH_SECRET_LEN in *.
  assert (fits 8 (len name)) by width. assert (fits 16 (len secret)) by width.
  unfold encode_auth_body, decode_auth, auth_body. cbn [app]. rewrite !wrapping_small by done.
  set (header := le_bytes 1 mechanism ++ le_bytes 1 (len name) ++ le_bytes 2 (len secret)).
  replace (le_bytes 1 mechanism ++ _) with (header ++ name ++ secret) by (unfold header; layout).
  assert (le_val (firstn 1 header) = mechanism) as E1 by by eapply (slice0 8).
  assert (le_val (firstn 1 (skipn 1 header)) = len name) as E2 by by eapply (slice 8 1 1 header _ (le_bytes 1 mechanism)).
  assert (le_val (firstn 2 (skipn 2 header)) = len secret) as E3.
  { eapply (slice 16 2 2 header _ (le_bytes 1 mechanism ++ le_bytes 1 (len name)) []);
      [unfold header; rewrite app_nil_r; layout|done..]. }
  erewrite reads_run_bind by by apply reads_take. rewrite E1, E2, E3.
  destruct (Z.ltb_spec MAX_AUTH_NAME_LEN (len name)) as [Hlt|_]; [unfold MAX_AUTH_NAME_LEN in Hlt; lia|].
  destruct (Z.ltb_spec MAX_AUTH_SECRET_LEN (len secret)) as [Hlt|_]; [unfold MAX_AUTH_SECRET_LEN in Hlt; lia|].
  erewrite reads_run_bind by by apply reads_take.
  erewrite reads_run_last by by apply reads_take. done.
Qed.

(** *** Arithmetic *)

Lemma as_i64_u64 z : in_i64 z = true -> as_i64 (as_u64 z) = z.
Proof.
  intros [H1%Z.leb_le H2%Z.leb_le]%andb_true_iff. unfold as_i64, as_u64, wrapping. unfold I64_MIN, I64_MAX in *.
  destruct (Z.le_gt_cases 0 z).
  - rewrite Z.mod_small by width. destruct (Z.leb_spec z 9223372036854775807); [done|lia].
  - replace (z mod 2 ^ 64) with (z + 2 ^ 64).
    + destruct (Z.leb_spec (z + 2 ^ 64) 9223372036854775807); lia.
    + rewrite <- (Z.mod_add z 1) by lia. rewrite Z.mod_small by lia. lia.
Qed.

Lemma as_i64_in z : fits 64 z -> in_i64 (as_i64 z) = true.
Proof.
  intros Hz. unfold as_i64, in_i64. destruct (Z.leb_spec z I64_MAX); apply andb_true_iff; split; apply Z.leb_le; width.
Qed.

Definition delta_bits (d : Delta) : Z * Z * Z * Z * bool :=
  match d with
  | Delta_Counter delta decrement => (mode_COUNTER, delta, 0, 0, decrement)
  | Delta_Int delta lower upper => (mode_INT, as_u64 delta, as_u64 lower, as_u64 upper, false)
  | Delta_Float delta lower upper =>
      (mode_FLOAT, f64_to_bits delta, f64_to_bits lower, f64_to_bits upper, false)
  end.

Lemma encode_arithmetic_body_eq op :
  exists mode delta lower upper decrement ttl_kind ttl_secs,
    delta_bits (ar_delta op) = (mode, delta, lower, upper, decrement)
    /\ (ttl_kind, ttl_secs) = match ar_ttl op with
                              | Ttl_Keep => (0, 0) | Ttl_Set s => (1, s) | Ttl_SetIfPersistent s => (2, s) end
    /\ encode_arithmetic_body [] op
       = le_bytes 1 mode
         ++ le_bytes 1 (match ar_missing op with Missing_CreateAtZero => 1 | Missing_Fail => 0 end
                        + (if decrement : bool then 2 else 0))
         ++ le_bytes 1 (match ar_on_bound op with OnBound_Fail => 0 | OnBound_Skip => 1 | OnBound_Clamp => 2 end)
         ++ le_bytes 1 ttl_kind ++ le_bytes 4 ttl_secs ++ le_bytes 8 delta ++ le_bytes 8 lower ++ le_bytes 8 upper
         ++ ar_key op.
Proof.
  unfold encode_arithmetic_body. fold (delta_bits (ar_delta op)).
  destruct (delta_bits (ar_delta op)) as [[[[mode delta] lower] upper] decrement].
  destruct (ar_ttl op); do 7 eexists; (split; [reflexivity|]); (split; [reflexivity|]);
    destruct (ar_missing op), decrement; reflexivity.
Qed.

Lemma run_arithmetic op : arithmetic_ok op -> run_dec arithmetic_body (encode_arithmetic_body [] op) = Ok op.
Proof.
  intros (Hk & Hd & Ht).
  destruct (encode_arithmetic_body_eq op) as (mode & delta & lower & upper & decrement & kind & secs & Eb & Et & ->).
  destruct op as [key d on_bound missing ttl]. cbn [ar_key ar_delta ar_on_bound ar_missing ar_ttl] in *.
  assert (fits 8 mode /\ fits 64 delta /\ fits 64 lower /\ fits 64 upper) as (F1 & F2 & F3 & F4).
  { destruct d as [n dec|x lo hi|x lo hi]; injection Eb as <- <- <- <- <-; cbn in Hd;
      unfold mode_COUNTER, mode_INT, mode_FLOAT, as_u64; conjs;
      first [apply wrapping_fits; lia | apply f64_to_bits_fits; tauto | width]. }
  assert (fits 8 kind /\ fits 32 secs) as [F5 F6] by (destruct ttl; injection Et as -> ->; cbn in Ht; split; width).
  unfold arithmetic_body. cbv zeta.
  erewrite reads_run_bind by by apply (reads_field 8).
  erewrite reads_run_bind by (apply (reads_field 8); [done|destruct missing, decrement; width]).
  erewrite reads_run_bind by (apply (reads_field 8); [done|destruct on_bound; width]).
  erewrite reads_run_bind by by apply (reads_field 8).
  erewrite reads_run_bind by by apply (reads_field 32).
  erewrite reads_run_bind by by apply (reads_field 64).
  erewrite reads_run_bind by by apply (reads_field 64).
  erewrite reads_run_bind by by apply (reads_field 64).
  erewrite run_then with (x := d).
  2:{ destruct d as [n dec|x lo hi|x lo hi]; injection Eb as <- <- <- <- <-; cbn in Hd;
        unfold mode_COUNTER, mode_INT, mode_FLOAT.
      - destruct missing, dec; apply reads_ret.
      - rewrite !as_i64_u64 by tauto. apply reads_ret.
      - rewrite !f64_bits_roundtrip by tauto. apply reads_ret. }
  erewrite run_then with (x := on_bound) by (destruct on_bound; apply reads_ret).
  erewrite run_then with (x := ttl) by (destruct ttl; injection Et as -> ->; apply reads_ret).
  rewrite run_rest. erewrite run_then by by apply reads_lift, decode_key_ok.
  destruct missing, decrement; reflexivity.
Qed.

Lemma sound_arithmetic : sound arithmetic_body arithmetic_ok.
Proof.
  eapply sound_bind; [by apply (sound_field 8)|]. intros mode Hmode.
  eapply sound_bind; [by apply (sound_field 8)|]. intros flags Hflags.
  eapply sound_bind; [by apply (sound_field 8)|]. intros on_bound Hb.
  eapply sound_bind; [by apply (sound_field 8)|]. intros kind Hkind.
  eapply sound_bind; [by apply (sound_field 32)|]. intros secs Hsecs.
  eapply sound_bind; [by apply (sound_field 64)|]. intros delta Hd.
  eapply sound_bind; [by apply (sound_field 64)|]. intros lower Hl.
  eapply sound_bind; [by apply (sound_field 64)|]. intros upper Hu.
  eapply (sound_bind _ _ delta_ok).
  { destruct mode as [|[p|[p|p|]|]|p]; (by apply sound_lift) || apply sound_ret; cbn;
      auto using as_i64_in, f64_from_bits_valid. }
  intros d Hdok. eapply (sound_bind _ _ (fun _ => True)).
  { destruct on_bound as [|[p|[p|p|]|]|p]; by (apply sound_lift || apply sound_ret). }
  intros bound _. eapply (sound_bind _ _ wire_ttl_ok).
  { destruct kind as [|[p|[p|p|]|]|p]; by (apply sound_lift || apply sound_ret). }
  intros ttl Httl. eapply sound_bind; [apply sound_rest|]. intros k _.
  eapply sound_bind; [apply sound_key|]. intros key Hk. by apply sound_ret.
Qed.

(** ** Commands *)

Lemma run_whole {A} (d : Dec A) enc x : reads d enc x -> run_dec d enc = Ok x.
Proof. intros H. rewrite <- (app_nil_r enc). by apply run_reads. Qed.

Lemma set_many_body_enc sets :
  Forall set_ok sets ->
  foldl (fun body set => match s_ttl set with
                         | Ttl_Set ttl => encode_set_body body (s_key set) (s_value set) ttl (s_tags set)
                         | _ => body
                         end) (encode_batch_count [] (len sets)) sets
  = le_bytes 4 (wrapping 32 (len sets)) ++ mjoin (set_enc <$> sets).
Proof.
  intros Hs. unfold encode_batch_count. cbn [app]. generalize (le_bytes 4 (wrapping 32 (len sets))) as out.
  induction Hs as [|s l Hs Hl IH]; intros out; cbn; [by rewrite app_nil_r|]. rewrite IH.
  destruct Hs as (_ & _ & (ttl & Ht & _) & _). unfold set_enc. rewrite Ht.
  rewrite (encode_set_body_app out), (encode_set_body_app []). cbn [app]. by rewrite <- !app_assoc.
Qed.

Lemma reads_set_many sets :
  Forall set_ok sets -> len sets <= MAX_BATCH_ITEMS ->
  reads set_many_body (le_bytes 4 (wrapping 32 (len sets)) ++ mjoin (set_enc <$> sets))
    (Cmd_SetMany sets BatchGuard_Always).
Proof.
  intros Hs Hl. pose proof (reads_counted set_body set_enc sets Hl) as H.
  intros rest. specialize (H ltac:(eapply Forall_impl; [exact Hs|apply reads_set]) rest).
  unfold set_many_body, mbind, Dec_bind in *. destruct (decode_count _) as [[n b]|e|why]; [|done..].
  destruct (repeat_dec _ _ _) as [[xs b']|e|why]; [|done..]. by injection H as -> ->.
Qed.

Lemma decode_command_roundtrip c op body :
  client_request c = Some (op, body) -> wire_ok c -> decode_command op body = Ok c.
Proof.
  intros Hr Hw.
  destruct c as [version| |key|[key|keys]|set|sets guard|key|keys|key|keys|key ttl guard|key suffix|key secs|tag| |
    keys secs|ar|full entries| |r|r| | |]; try done; cbn [client_request wire_ok] in *.
  - injection Hr as <- <-. cbn [decode_command].
    change (byte_of version :: _) with (le_bytes 2 version ++ le_bytes 2 0).
    assert (len (le_bytes 2 version ++ le_bytes 2 0) = HELLO_BODY_LEN) as -> by done.
    rewrite Z.ltb_irrefl. do 2 f_equal. by eapply (slice0 16).
  - by injection Hr as <- <-.
  - injection Hr as <- <-. cbn. by rewrite decode_key_ok.
  - injection Hr as <- <-. cbn [decode_command]. by rewrite (run_whole _ _ keys (reads_key_list keys Hw)).
  - pose proof Hw as (_ & _ & (ttl & Ht & _) & _). rewrite Ht in Hr. injection Hr as <- <-.
    cbn [decode_command]. pose proof (reads_set set Hw) as H. unfold set_enc in H. rewrite Ht in H.
    by rewrite (run_whole _ _ set H).
  - destruct Hw as (-> & Hs & Hl). destruct (forallb _ sets); [|done]. injection Hr as <- <-. cbn [decode_command].
    rewrite set_many_body_enc by done. by apply run_whole, reads_set_many.
  - injection Hr as <- <-. cbn. by rewrite decode_key_ok.
  - injection Hr as <- <-. cbn [decode_command]. by rewrite (run_whole _ _ keys (reads_key_list keys Hw)).
  - destruct Hw as [Hk Hs]. injection Hr as <- <-. cbn [decode_command]. unfold touch_body, encode_touch_body. cbn [app].
    erewrite reads_run_bind by by apply (reads_field 32). rewrite run_rest.
    by erewrite run_then by by apply reads_lift, decode_key_ok.
  - injection Hr as <- <-. cbn [decode_command]. destruct Hw as [H1 H2].
    destruct (Z.eqb_spec (len tag) 0); [lia|]. by destruct (Z.ltb_spec MAX_TAG_LEN (len tag)); [lia|].
  - by injection Hr as <- <-.
  - injection Hr as <- <-. cbn [decode_command]. by rewrite run_arithmetic.
  - destruct Hw as [He Hl]. injection Hr as <- <-. cbn [decode_command]. unfold decode_tag_sync.
    by rewrite (run_whole _ _ _ (reads_tag_sync full entries He Hl)).
  - by injection Hr as <- <-.
  - injection Hr as <- <-. cbn [decode_command]. by rewrite run_list_request.
  - injection Hr as <- <-. cbn [decode_command]. by rewrite run_list_request.
Qed.

Lemma sound_map {A B} (r : Result Refusal A) (f : A -> B) (P : A -> Prop) (Q : B -> Prop) :
  (forall x, P x -> Q (f x)) -> match r with Ok x => P x | Err _ => True | Panic _ => False end ->
  match f <$> r with Ok x => Q x | Err _ => True | Panic _ => False end.
Proof. intros Hf. destruct r; cbn; auto. Qed.

Lemma decode_command_sound op body :
  op <> Opcode_Auth ->
  match decode_command op body with Ok c => wire_ok c | Err _ => True | Panic _ => False end.
Proof.
  intros Ha. destruct op; try done; cbn [decode_command].
  - destruct (Z.ltb_spec (len body) HELLO_BODY_LEN) as [|Hl]; [done|]. apply le_val_firstn_fits; [done|].
    unfold len, HELLO_BODY_LEN in Hl. lia.
  - eapply sound_map; [|apply decode_key_sound]. by intros k [-> ?].
  - eapply sound_map; [|apply run_sound, sound_set]. done.
  - eapply sound_map; [|apply decode_key_sound]. by intros k [-> ?].
  - apply (run_sound touch_body). eapply sound_bind; [by apply (sound_field 32)|]. intros secs Hs.
    eapply sound_bind; [apply sound_rest|]. intros k _. eapply sound_bind; [apply sound_key|]. intros key Hk.
    by apply sound_ret.
  - eapply sound_map; [|apply run_sound, sound_arithmetic]. done.
  - eapply sound_map; [|apply run_sound, sound_counted, sound_listed_key]. done.
  - apply (run_sound set_many_body). eapply sound_bind; [apply sound_count|]. intros n [Hn0 Hn1].
    eapply sound_bind; [apply sound_repeat, sound_set|]. intros sets [Hl Hs]. apply sound_ret.
    split; [done|]. split; [done|]. unfold len. lia.
  - eapply sound_map; [|apply run_sound, sound_counted, sound_listed_key]. done.
  - destruct (Z.eqb_spec (len body) 0); [done|]. destruct (Z.ltb_spec MAX_TAG_LEN (len body)); [done|].
    pose proof (len_nonneg body). cbn. unfold name_ok. lia.
  - eapply sound_map; [|apply run_sound, sound_tag_sync]. by intros [full entries].
  - eapply sound_map; [|apply run_sound, sound_list_body]. done.
  - eapply sound_map; [|apply run_sound, sound_list_body]. done.
Qed.

(** ** Frames *)

(** A buffer that starts with a complete frame. *)
Lemma decode_frame h (body more : bytes) :
  header_fits h -> fh_body_len h = len body -> len body <= MAX_BODY_LEN ->
  FrameHeader_from_prefix (FrameHeader_bytes h ++ body ++ more) = Some (h, body ++ more)
  /\ (MAX_BODY_LEN <? fh_body_len h) = false
  /\ split_at (Z.to_nat (fh_body_len h)) (body ++ more) = Some (body, more).
Proof.
  intros Hh Hl Hm. split; [by apply FrameHeader_from_prefix_app|]. split; [apply Z.ltb_ge; lia|].
  rewrite Hl. apply split_at_app. unfold len. lia.
Qed.

Lemma no_reply_request op id n : no_reply (FrameHeader_request op id n) = false.
Proof. done. Qed.

Lemma wrapping_body (body : bytes) : len body <= MAX_BODY_LEN -> wrapping 32 (len body) = len body.
Proof. intros H. apply wrapping_small. pose proof (len_nonneg body). unfold MAX_BODY_LEN in H. width. Qed.

Lemma request_header_fits op id n : fits 32 id -> fits 32 n -> header_fits (FrameHeader_request op id n).
Proof. intros. unfold header_fits. cbn. conjs; try done; try width. apply Opcode_code_fits. Qed.

Lemma response_header_fits op id s n : fits 32 id -> fits 32 n -> header_fits (FrameHeader_response op id s n).
Proof.
  intros. unfold header_fits. cbn. conjs; try done; try width; [apply Opcode_code_fits|apply Status_code_fits].
Qed.

Lemma decode_request_ok c op body id more :
  client_request c = Some (op, body) -> wire_ok c -> len body <= MAX_BODY_LEN -> fits 32 id ->
  decode (encode_request [] op id body ++ more)
  = Ok (Decoded_Request (mkRequest id op false c) (len (encode_request [] op id body))).
Proof.
  intros Hr Hw Hl Hid. unfold encode_request. cbn [app]. rewrite wrapping_body by done.
  pose proof (len_nonneg body). assert (fits 32 (len body)) as Hf by (unfold MAX_BODY_LEN in Hl; width).
  destruct (decode_frame (FrameHeader_request op id (len body)) body more) as (E1 & E2 & E3);
    [by apply request_header_fits|done|done|].
  unfold decode. rewrite <- app_assoc, E1, E2, E3. cbn [fh_opcode FrameHeader_request].
  rewrite Opcode_from_code. rewrite bool_decide_eq_false_2.
  - rewrite (decode_command_roundtrip c) by done. cbn. do 2 f_equal.
    unfold len. rewrite length_app, length_FrameHeader_bytes. unfold HEADER_LEN. lia.
  - intros ->. unfold client_request in Hr. repeat case_match; discriminate Hr.
Qed.

Lemma from_prefix_more buf h rest more :
  FrameHeader_from_prefix buf = Some (h, rest) -> FrameHeader_from_prefix (buf ++ more) = Some (h, rest ++ more).
Proof.
  intros [-> Hh]%FrameHeader_from_prefix_inv. rewrite <- app_assoc. by apply FrameHeader_from_prefix_app.
Qed.

(** What [decode] makes of a whole frame depends on nothing but its bytes. *)
Definition verdict_of (h : FrameHeader) (body : bytes) : Result DecodeError Decoded :=
  let consumed := HEADER_LEN + fh_body_len h in
  let fail := fun '(status, detail) => Decode_Body (fh_request_id h) (fh_opcode h) consumed status detail in
  match Opcode_from_u8 (fh_opcode h) with
  | None => Err (fail (Status_Unsupported, "unknown opcode"%str))
  | Some opcode =>
      if bool_decide (opcode = Opcode_Auth) then
        auth ← map_err fail (decode_auth body);
        Ok (Decoded_Auth (fh_request_id h) auth consumed)
      else
        command ← map_err fail (decode_command opcode body);
        Ok (Decoded_Request (mkRequest (fh_request_id h) opcode (no_reply h) command) consumed)
  end.

(** The three cases of a buffer: too short, too large, or a frame and the rest. *)
Lemma decode_cases buf :
  (exists needed, decode buf = Ok (Decoded_Incomplete needed) /\ peek_frame_len buf = FrameLen_Incomplete needed
     /\ len buf < needed <= HEADER_LEN + MAX_BODY_LEN)
  \/ (exists detail h rest, FrameHeader_from_prefix buf = Some (h, rest) /\ MAX_BODY_LEN < fh_body_len h
      /\ decode buf = Err (Decode_Fatal detail) /\ peek_frame_len buf = FrameLen_TooLarge)
  \/ (exists h body rest, buf = FrameHeader_bytes h ++ body ++ rest /\ header_fits h /\ fh_body_len h = len body
      /\ len body <= MAX_BODY_LEN /\ decode buf = verdict_of h body
      /\ peek_frame_len buf = FrameLen_Complete (HEADER_LEN + len body)).
Proof.
  unfold decode, peek_frame_len. destruct (FrameHeader_from_prefix buf) as [[h rest]|] eqn:E.
  2:{ left. exists HEADER_LEN. split; [done|]. split; [done|]. apply FrameHeader_from_prefix_None in E.
      unfold len, HEADER_LEN, MAX_BODY_LEN. lia. }
  destruct (Z.ltb_spec MAX_BODY_LEN (fh_body_len h)) as [Hbig|Hsmall].
  { right; left. by eexists _, h, rest. }
  pose proof E as [Hbuf Hh]%FrameHeader_from_prefix_inv.
  assert (len buf = HEADER_LEN + len rest) as Hlen.
  { rewrite Hbuf. unfold len. rewrite length_app, length_FrameHeader_bytes. unfold HEADER_LEN. lia. }
  assert (0 <= fh_body_len h) as Hpos by apply Hh.
  destruct (split_at (Z.to_nat (fh_body_len h)) rest) as [[body more]|] eqn:Es.
  - right; right. apply split_at_Some in Es as [-> Hl]. exists h, body, more.
    assert (fh_body_len h = len body) as Hb by (unfold len; lia).
    rewrite Hlen, len_app. pose proof (len_nonneg more).
    destruct (Z.ltb_spec (HEADER_LEN + (len body + len more)) (HEADER_LEN + fh_body_len h)); [lia|].
    split; [done|]. split; [done|]. split; [done|]. split; [lia|]. split; [done|]. by rewrite Hb.
  - left. apply split_at_None in Es. exists (HEADER_LEN + fh_body_len h). rewrite Hlen.
    unfold len in *. destruct (Z.ltb_spec (HEADER_LEN + Z.of_nat (length rest)) (HEADER_LEN + fh_body_len h)); [|lia].
    split; [done|]. split; [done|]. lia.
Qed.

Lemma decode_whole h body more :
  header_fits h -> fh_body_len h = len body -> len body <= MAX_BODY_LEN ->
  decode (FrameHeader_bytes h ++ body ++ more) = verdict_of h body.
Proof.
  intros Hh Hl Hm. destruct (decode_frame h body more Hh Hl Hm) as (E1 & E2 & E3).
  unfold decode. by rewrite E1, E2, E3.
Qed.

Lemma verdict_sound h body :
  match verdict_of h body with
  | Ok (Decoded_Incomplete _) => False
  | Ok (Decoded_Request r n) =>
      n = HEADER_LEN + fh_body_len h /\ wire_ok (rq_command r) /\ rq_request_id r = fh_request_id h
      /\ fh_opcode h = Opcode_code (rq_opcode r) /\ rq_opcode r <> Opcode_Auth
  | Ok (Decoded_Auth id auth n) =>
      n = HEADER_LEN + fh_body_len h /\ id = fh_request_id h /\ fh_opcode h = Opcode_code Opcode_Auth
      /\ len (au_name auth) <= MAX_AUTH_NAME_LEN /\ len (au_secret auth) <= MAX_AUTH_SECRET_LEN
  | Err (Decode_Fatal _) => False
  | Err (Decode_Body id op n _ _) => n = HEADER_LEN + fh_body_len h /\ id = fh_request_id h /\ op = fh_opcode h
  | Panic _ => False
  end.
Proof.
  unfold verdict_of. destruct (Opcode_from_u8 (fh_opcode h)) as [op|] eqn:Eo; [|done].
  apply Opcode_from_inv in Eo. case_bool_decide as Ha.
  - subst op. unfold decode_auth. pose proof (run_sound auth_body _ body sound_auth) as H.
    destruct (run_dec auth_body body) as [auth|[s d]|why]; [|done..]. cbn. by destruct H as (_ & ? & ?).
  - pose proof (decode_command_sound op body Ha) as H.
    destruct (decode_command op body) as [c|[s d]|why]; [|done..]. cbn. done.
Qed.

(** C20 The request round trip: whatever the client sends within the protocol's
    limits, the server decodes back to that command, under that id, consuming
    exactly the frame, whatever follows it in the buffer; and [peek_frame_len]
    cuts the buffer at the same place.  So a pipelined buffer decodes to the
    commands sent, one after another. *)
Theorem vcp_request_roundtrip c op body id more :
  client_request c = Some (op, body) -> wire_ok c -> len body <= MAX_BODY_LEN -> fits 32 id ->
  let frame := encode_request [] op id body in
  decode (frame ++ more) = Ok (Decoded_Request (mkRequest id op false c) (len frame))
  /\ peek_frame_len (frame ++ more) = FrameLen_Complete (len frame)
  /\ skipn (length frame) (frame ++ more) = more.
Proof.
  intros Hr Hw Hl Hid frame. pose proof (decode_request_ok c op body id more Hr Hw Hl Hid) as Hd. fold frame in Hd.
  split; [done|]. split; [|by rewrite drop_length_app].
  destruct (decode_cases (frame ++ more)) as [(n & E & _)|[(d & _ & _ & _ & _ & E & _)|(h & b & rest & _ & _ & Hb & _ & E & ->)]];
    rewrite Hd in E; try done. pose proof (verdict_sound h b) as Hv. rewrite <- E in Hv. destruct Hv as (-> & _).
  by rewrite Hb.
Qed.

(** C21 Decoding any bytes whatever: never a panic; [Incomplete] asks for more
    than there is and never for more than the largest frame; [Fatal] exactly
    when the length field is over the maximum; otherwise the verdict covers
    exactly the frame [peek_frame_len] measures, is the same whatever follows
    the frame, and a command it hands on satisfies everything the store relies
    on (keys, names, counts, limits, finite encodings within bounds). *)
Theorem vcp_decode_exact buf more :
  match decode buf with
  | Ok (Decoded_Incomplete needed) =>
      peek_frame_len buf = FrameLen_Incomplete needed /\ len buf < needed <= HEADER_LEN + MAX_BODY_LEN
  | Ok (Decoded_Request r n) =>
      peek_frame_len buf = FrameLen_Complete n /\ HEADER_LEN <= n <= len buf
      /\ wire_ok (rq_command r) /\ decode (firstn (Z.to_nat n) buf ++ more) = decode buf
  | Ok (Decoded_Auth _ auth n) =>
      peek_frame_len buf = FrameLen_Complete n /\ HEADER_LEN <= n <= len buf
      /\ len (au_name auth) <= MAX_AUTH_NAME_LEN /\ len (au_secret auth) <= MAX_AUTH_SECRET_LEN
      /\ decode (firstn (Z.to_nat n) buf ++ more) = decode buf
  | Err (Decode_Fatal _) => peek_frame_len buf = FrameLen_TooLarge
  | Err (Decode_Body _ _ n _ _) =>
      peek_frame_len buf = FrameLen_Complete n /\ HEADER_LEN <= n <= len buf
      /\ decode (firstn (Z.to_nat n) buf ++ more) = decode buf
  | Panic _ => False
  end.
Proof.
  destruct (decode_cases buf) as [(n & -> & Hp & Hn)|[(d & h & r & _ & _ & -> & Hp)|
    (h & body & rest & Hbuf & Hh & Hb & Hl & Hd & Hp)]]; [done..|].
  assert (firstn (Z.to_nat (HEADER_LEN + fh_body_len h)) buf = FrameHeader_bytes h ++ body) as Hcut.
  { rewrite Hbuf, app_assoc, Hb. apply take_app_exact. rewrite length_app, length_FrameHeader_bytes.
    unfold len, HEADER_LEN. lia. }
  assert (HEADER_LEN <= HEADER_LEN + fh_body_len h <= len buf) as Hin.
  { rewrite Hb, Hbuf, !len_app. pose proof (len_nonneg body). pose proof (len_nonneg rest).
    unfold len at 3. rewrite length_FrameHeader_bytes. unfold HEADER_LEN. lia. }
  assert (decode ((FrameHeader_bytes h ++ body) ++ more) = decode buf) as Hsame.
  { rewrite <- app_assoc, Hd. by apply decode_whole. }
  rewrite Hd in Hsame |- *. pose proof (verdict_sound h body) as Hv. rewrite <- Hb in Hp.
  destruct (verdict_of h body) as [[?|r n|id auth n]|[?|id op n s d]|why]; try done.
  - destruct Hv as (-> & Hw & _). by rewrite Hcut.
  - destruct Hv as (-> & _ & _ & H1 & H2). by rewrite Hcut.
  - destruct Hv as (-> & _). by rewrite Hcut.
Qed.
