(* ===== verification/VcpReply.v ===== *)
(** The other direction of the native protocol: a reply is read back by the
    client as what the server answered, a whole call is the server's execution
    of the command, and the streamed batch reply is the buffered one. *)

From S2P Require Import Prelude Bytes Text Core Record Glob Clock Arith Float Command Vcp VcpEncode VcpClient VcpSpec.

#[local] Delimit Scope string_scope with str.

(** ** The streamed batch reply *)

Definition push_value (out : bytes) (value : option Value) : bytes :=
  match value with Some v => ValuesFrame_hit out v | None => ValuesFrame_miss out end.

Definition slot_bytes (value : option Value) : bytes :=
  match value with
  | Some v => [Byte.x01] ++ le_bytes 4 (v_mc_flags v) ++ le_bytes 8 (v_cas v)
              ++ le_bytes 4 (wrapping 32 (len (v_data v))) ++ v_data v
  | None => [Byte.x00]
  end.

Lemma values_body_app values :
  values_body values = le_bytes 4 (wrapping 32 (len values)) ++ mjoin (slot_bytes <$> values).
Proof. unfold values_body. apply foldl_push. by intros out [v|]. Qed.

Lemma push_values_app out values : foldl push_value out values = out ++ mjoin (slot_bytes <$> values).
Proof. apply foldl_push. by intros o [v|]. Qed.

(** The four bytes of the length, in a header written with another length. *)
Lemma patch_length out op id s n m rest :
  copy_into (out ++ FrameHeader_bytes (FrameHeader_response op id s n) ++ rest)
    (length out + Z.to_nat HEADER_LEN - 4) (le_bytes 4 m)
  = out ++ FrameHeader_bytes (FrameHeader_response op id s m) ++ rest.
Proof.
  unfold FrameHeader_bytes, FrameHeader_response. cbn [fh_opcode fh_flags fh_status fh_request_id fh_body_len].
  set (front := le_bytes 1 (Opcode_code op) ++ le_bytes 1 flags_RESPONSE ++ le_bytes 2 (Status_code s) ++ le_bytes 4 id).
  assert (length front = 8%nat) as Hfront by (unfold front; by lengths).
  assert (forall x, (le_bytes 1 (Opcode_code op) ++ le_bytes 1 flags_RESPONSE ++ le_bytes 2 (Status_code s)
    ++ le_bytes 4 id ++ le_bytes 4 x) ++ rest = front ++ le_bytes 4 x ++ rest) as Hsplit
    by (intros x; unfold front; by rewrite <- !app_assoc).
  rewrite !Hsplit. unfold copy_into.
  replace (length out + Z.to_nat HEADER_LEN - 4)%nat with (length (out ++ front))
    by (rewrite length_app, Hfront; unfold HEADER_LEN; lia).
  rewrite !(app_assoc out front). rewrite take_length_app. f_equal. f_equal.
  rewrite length_le_bytes, app_assoc. apply drop_app_exact. by rewrite length_app, length_le_bytes.
Qed.

(** Closing a frame over whatever was pushed into it. *)
Lemma finish_frame out op id count pushed :
  let '(opened, frame) := ValuesFrame_open out op id count in
  ValuesFrame_finish frame (opened ++ pushed)
  = if len (le_bytes 4 count ++ pushed) <=? MAX_BODY_LEN
    then (encode_response out op id Status_Ok (le_bytes 4 count ++ pushed), true) else (out, false).
Proof.
  cbn [ValuesFrame_open]. rewrite <- !app_assoc. set (body := le_bytes 4 count ++ pushed).
  unfold ValuesFrame_finish. cbn [vf_start].
  assert (len (out ++ FrameHeader_bytes (FrameHeader_response op id Status_Ok 0) ++ body)
    - Z.of_nat (length out) - HEADER_LEN = len body) as ->.
  { rewrite !len_app. unfold len at 1 2. rewrite length_FrameHeader_bytes. unfold HEADER_LEN. lia. }
  destruct (Z.ltb_spec MAX_BODY_LEN (len body)) as [Hbig|Hsmall].
  - rewrite (proj2 (Z.leb_gt _ _)) by lia. by rewrite take_length_app.
  - rewrite (proj2 (Z.leb_le _ _)) by lia. by rewrite patch_length.
Qed.

Lemma values_frame_ok out op id values (rendered : bytes) :
  rendered = foldl push_value (ValuesFrame_open out op id (wrapping 32 (len values))).1 values ->
  let frame := (ValuesFrame_open out op id (wrapping 32 (len values))).2 in
  ValuesFrame_finish frame rendered
  = if len (values_body values) <=? MAX_BODY_LEN then (encode_reply out op id (Reply_Values values), true)
    else (out, false).
Proof.
  intros -> frame. pose proof (finish_frame out op id (wrapping 32 (len values)) (mjoin (slot_bytes <$> values))) as H.
  rewrite push_values_app. subst frame. destruct (ValuesFrame_open _ _ _ _) as [opened frame].
  cbn [fst snd]. rewrite H, <- values_body_app. done.
Qed.

(** The batch reply streamed into the write buffer is, byte for byte, the
    one the buffered encoder would have appended, for any values and whatever
    the buffer held before; a batch too large for a frame, like one abandoned
    at any point, leaves the buffer exactly as it was. *)
Theorem values_frame_exact out op id values n :
  let '(opened, frame) := ValuesFrame_open out op id (wrapping 32 (len values)) in
  ValuesFrame_finish frame (foldl push_value opened values)
  = (if len (values_body values) <=? MAX_BODY_LEN then (encode_reply out op id (Reply_Values values), true)
     else (out, false))
  /\ ValuesFrame_abandon frame (foldl push_value opened (firstn n values)) = out.
Proof.
  pose proof (values_frame_ok out op id values _ eq_refl) as H.
  destruct (ValuesFrame_open _ _ _ _) as [opened frame] eqn:E. split; [exact H|].
  injection E as <- <-. unfold ValuesFrame_abandon. cbn [vf_start].
  rewrite push_values_app, <- app_assoc. apply take_length_app.
Qed.

(** A single value is not held to that bound: one that leaves no room for its
    twelve bytes of prefix is sent in a frame that every decoder refuses. *)
Lemma oversized_value_frame op id v :
  MAX_BODY_LEN - VALUE_PREFIX_LEN < len (v_data v) < 2 ^ 32 - VALUE_PREFIX_LEN -> fits 32 id ->
  peek_frame_len (encode_value [] op id v) = FrameLen_TooLarge.
Proof.
  intros Hl Hid. unfold encode_value, peek_frame_len. cbn [app].
  assert (fits 32 (VALUE_PREFIX_LEN + len (v_data v))) as Hf by (unfold VALUE_PREFIX_LEN, MAX_BODY_LEN in *; width).
  rewrite wrapping_small by done. rewrite FrameHeader_from_prefix_app by (by apply response_header_fits).
  cbn [fh_body_len FrameHeader_response]. by rewrite (proj2 (Z.ltb_lt _ _)) by lia.
Qed.

(** ** Replies as a status and a body *)

Definition value_body (v : Value) : bytes := le_bytes 4 (v_mc_flags v) ++ le_bytes 8 (v_cas v) ++ v_data v.

Definition arithmetic_reply_body (mode wrote value moved : Z) : bytes :=
  le_bytes 1 mode ++ le_bytes 1 wrote ++ le_bytes 2 0 ++ le_bytes 8 value ++ le_bytes 8 moved.

Definition reply_parts (reply : Reply) : Status * bytes :=
  match reply with
  | Reply_Pong | Reply_Deleted | Reply_Touched => (Status_Ok, [])
  | Reply_NotFound => (Status_NotFound, [])
  | Reply_Invalidated existed => (if existed then Status_Ok else Status_NotFound, [])
  | Reply_Flushed epoch => (Status_Ok, le_bytes 4 epoch)
  | Reply_Values values => (Status_Ok, values_body values)
  | Reply_StoredMany cas_tokens => (Status_Ok, stored_many_body cas_tokens)
  | Reply_DeletedMany hits => (Status_Ok, deleted_many_body hits)
  | Reply_Hello info => (Status_Ok, hello_body info)
  | Reply_Stored (Stored_Stored cas) => (Status_Ok, le_bytes 8 cas)
  | Reply_Stored Stored_NotStored => (Status_NotStored, [])
  | Reply_Stored Stored_Exists => (Status_Exists, [])
  | Reply_Stored Stored_NotFound => (Status_NotFound, [])
  | Reply_Arithmetic applied =>
      match arithmetic_numbers applied with
      | Some (mode, value, moved) =>
          (Status_Ok, arithmetic_reply_body mode (from_bool (ap_wrote applied)) value moved)
      | None => (Status_Internal, [])
      end
  | Reply_TagSync entries =>
      (Status_Ok, encode_tag_sync_body [] false ((fun e => (tg_name e, tg_generation e)) <$> entries))
  | Reply_Listing listing => (Status_Ok, listing_body listing)
  | Reply_Cluster info => (Status_Ok, cluster_body info)
  | Reply_Value v => (Status_Ok, value_body v)
  | _ => (Status_Unsupported, [])
  end.

Lemma encode_reply_parts out op id reply :
  encode_reply out op id reply = encode_response out op id (reply_parts reply).1 (reply_parts reply).2.
Proof.
  destruct reply as [| |v| |o| | | | | | | | | | | |a| | | | | | |]; try done.
  - unfold encode_reply, encode_value, encode_response. cbn [reply_parts fst snd].
    assert (len (value_body v) = VALUE_PREFIX_LEN + len (v_data v)) as ->; [|done].
    unfold value_body. rewrite !len_app. unfold len at 1 2. rewrite !length_le_bytes. unfold VALUE_PREFIX_LEN. lia.
  - by destruct o.
  - cbn. by destruct (arithmetic_numbers a) as [[[m x] y]|].
Qed.

(** ** The client's round trip *)

Lemma num_at_slice w i n z raw l r :
  raw = l ++ le_bytes n z ++ r -> length l = i -> w = 8 * Z.of_nat n -> fits w z -> num_at i n raw = z.
Proof. exact (slice w i n raw z l r). Qed.

Lemma round_trip_response server c op body op' status payload more :
  cl_buf c = [] -> fits 32 (cl_next_id c) -> len payload <= MAX_BODY_LEN ->
  server (encode_request [] op (cl_next_id c) body) = encode_response [] op' (cl_next_id c) status payload ++ more ->
  round_trip server c op body
  = (mkClient more (wrapping 32 (cl_next_id c + 1)), Ok (status, payload)).
Proof.
  intros Hb Hid Hl Hs. unfold round_trip. rewrite Hb, Hs. cbn [app].
  set (id := cl_next_id c) in *. unfold encode_response. cbn [app]. rewrite wrapping_body by done.
  pose proof (len_nonneg payload). assert (fits 32 (len payload)) as Hf by (unfold MAX_BODY_LEN in Hl; width).
  set (h := FrameHeader_response op' id status (len payload)).
  destruct (decode_frame h payload more) as (E1 & E2 & _); [by apply response_header_fits|done|done|].
  assert (length (FrameHeader_bytes h ++ payload) = Z.to_nat (HEADER_LEN + len payload)) as Hlen.
  { rewrite length_app, length_FrameHeader_bytes. unfold len, HEADER_LEN. lia. }
  unfold read_frame, peek_frame_len. rewrite <- app_assoc, E1, E2. cbn [fh_body_len h FrameHeader_response].
  rewrite (proj2 (Z.ltb_ge _ _)).
  2:{ rewrite !len_app. unfold len at 2. rewrite length_FrameHeader_bytes. pose proof (len_nonneg more).
      unfold HEADER_LEN. lia. }
  rewrite app_assoc, take_app_exact, drop_app_exact by done. f_equal.
  unfold parse_header. rewrite (proj2 (Z.ltb_ge _ _)).
  2:{ rewrite len_app. unfold len at 1. rewrite length_FrameHeader_bytes. unfold HEADER_LEN. lia. }
  rewrite drop_app_exact by apply length_FrameHeader_bytes. cbn [mbind Result_bind].
  unfold h, FrameHeader_bytes, FrameHeader_response. cbn [fh_opcode fh_flags fh_status fh_request_id fh_body_len].
  rewrite (num_at_slice 32 4 4 id _ (le_bytes 1 (Opcode_code op') ++ le_bytes 1 flags_RESPONSE
    ++ le_bytes 2 (Status_code status)) (le_bytes 4 (len payload) ++ payload)); [|layout|done..].
  rewrite Z.eqb_refl.
  rewrite (num_at_slice 16 2 2 (Status_code status) _ (le_bytes 1 (Opcode_code op') ++ le_bytes 1 flags_RESPONSE)
    (le_bytes 4 id ++ le_bytes 4 (len payload) ++ payload)); [|layout|done..|apply Status_code_fits].
  by rewrite Status_from_code.
Qed.

(** ** What the client makes of each reply *)

(** A value as it comes back: its deadline does not travel. *)
Definition sent_value (v : Value) : Value := mkValue (v_data v) (v_mc_flags v) (v_cas v) None.

Definition sent_values (vs : list (option Value)) : list (option Value) :=
  (fun o : option Value => sent_value <$> o) <$> vs.

Definition sent_entries (l : list ListEntry) : list ListEntry :=
  (fun e => ListEntry_new (le_name e) (le_version e)) <$> l.

Definition sent_listing (l : Listing) : Listing :=
  mkListing (sent_entries (l_entries l)) (l_scanned l) (l_cursor l) (l_truncated l).

Definition value_fits (v : Value) : Prop := fits 32 (v_mc_flags v) /\ fits 64 (v_cas v) /\ fits 32 (len (v_data v)).

Definition number_fits (n : Number) : Prop :=
  match n with
  | Number_Counter v => fits 64 v
  | Number_Int v => in_i64 v = true
  | Number_Float v => f64_valid v
  end.

Definition entry_fits (e : ListEntry) : Prop := fits 16 (len (le_name e)) /\ fits 64 (le_version e).

Definition peer_fits (p : PeerInfo) : Prop := fits 16 (len (p_addr p)) /\ is_Some (utf8_decode (p_addr p)).

Definition info_fits (i : ServerInfo) : Prop :=
  fits 16 (si_protocol_version i) /\ fits 16 (si_shards i) /\ fits 32 (si_max_key_len i)
  /\ fits 32 (si_max_value_len i) /\ fits 32 (si_capabilities i) /\ fits 16 (si_max_tags_per_record i).

(** Every number in the reply is of its Rust type's width. *)
Definition reply_fits (r : Reply) : Prop :=
  match r with
  | Reply_Hello info => info_fits info
  | Reply_Value v => value_fits v
  | Reply_Values vs => Forall (fun o => match o with Some v => value_fits v | None => True end) vs /\ fits 32 (len vs)
  | Reply_Stored (Stored_Stored cas) => fits 64 cas
  | Reply_StoredMany cas => Forall (fits 64) cas /\ fits 32 (len cas)
  | Reply_DeletedMany hits => fits 32 (len hits)
  | Reply_Flushed epoch => fits 32 epoch
  | Reply_Arithmetic a => number_fits (ap_value a) /\ number_fits (ap_applied a)
  | Reply_TagSync entries =>
      Forall (fun e => name_ok (tg_name e) /\ fits 64 (tg_generation e)) entries /\ len entries <= MAX_TAG_SYNC_ENTRIES
  | Reply_Cluster info => Forall peer_fits (ci_peers info) /\ fits 16 (len (ci_peers info))
  | Reply_Listing l =>
      Forall entry_fits (l_entries l) /\ fits 32 (len (l_entries l)) /\ fits 64 (l_scanned l)
      /\ fits 16 (len (default [] (l_cursor l))) /\ l_cursor l <> Some []
  | _ => True
  end.

(** What the method returns for a reply of the kind its command gets. *)
Definition answer_of (c : Command) (r : Reply) : option (ClientM Answer) :=
  match c, r with
  | Cmd_Hello _, Reply_Hello info =>
      Some (if si_protocol_version info =? PROTOCOL_VERSION then Ok (Answer_Info info)
            else Err (CE_VersionMismatch (si_protocol_version info) PROTOCOL_VERSION))
  | Cmd_Ping, Reply_Pong => Some (Ok Answer_Unit)
  | Cmd_Get _, Reply_Value v => Some (Ok (Answer_Value (Some (sent_value v))))
  | Cmd_Get _, Reply_NotFound => Some (Ok (Answer_Value None))
  | Cmd_GetMany _, Reply_Values vs => Some (Ok (Answer_Values (sent_values vs)))
  | Cmd_Set _, Reply_Stored (Stored_Stored cas) => Some (Ok (Answer_Cas cas))
  | Cmd_Set _, Reply_Stored o => Some (Err (CE_Status (reply_parts (Reply_Stored o)).1))
  | Cmd_SetMany _ _, Reply_StoredMany cas => Some (Ok (Answer_CasList cas))
  | Cmd_Delete _, Reply_Deleted | Cmd_Touch _ _, Reply_Touched => Some (Ok (Answer_Found true))
  | Cmd_Delete _, Reply_NotFound | Cmd_Touch _ _, Reply_NotFound => Some (Ok (Answer_Found false))
  | Cmd_DeleteByTag _, Reply_Invalidated existed => Some (Ok (Answer_Found existed))
  | Cmd_DeleteMany _, Reply_DeletedMany hits => Some (Ok (Answer_Hits hits))
  | Cmd_Arithmetic _, Reply_Arithmetic a =>
      if arithmetic_numbers a then Some (Ok (Answer_Applied (Some a))) else None
  | Cmd_Arithmetic _, Reply_NotFound => Some (Ok (Answer_Applied None))
  | Cmd_Flush, Reply_Flushed epoch => Some (Ok (Answer_Epoch epoch))
  | Cmd_TagSync _ _, Reply_TagSync entries => Some (Ok (Answer_Tags entries))
  | Cmd_Cluster, Reply_Cluster info => Some (Ok (Answer_Cluster info))
  | Cmd_ListKeys _, Reply_Listing l | Cmd_ListTags _, Reply_Listing l =>
      Some (Ok (Answer_Listing (sent_listing l)))
  | _, _ => None
  end.

(** Readers, as the decoders: [takes r enc x]. *)
Definition takes {A} (r : Read A) (enc : bytes) (x : A) : Prop := forall rest, r (enc ++ rest) = Ok (x, rest).

Lemma takes_ret {A} (x : A) : takes (mret x) [] x.
Proof. by intros rest. Qed.

Lemma takes_bind {A B} (r : Read A) (f : A -> Read B) enc1 enc2 x y :
  takes r enc1 x -> takes (f x) enc2 y -> takes (r ≫= f) (enc1 ++ enc2) y.
Proof. intros H1 H2 rest. rewrite <- app_assoc. unfold mbind, Read_bind. by rewrite H1, H2. Qed.

Lemma takes_last {A B} (r : Read A) (f : A -> Read B) enc x y :
  takes r enc x -> takes (f x) [] y -> takes (r ≫= f) enc y.
Proof. intros H1 H2. rewrite <- (app_nil_r enc). by eapply takes_bind. Qed.

Lemma takes_num w n z : w = 8 * Z.of_nat n -> fits w z -> takes (read_num n) (le_bytes n z) z.
Proof. intros Hw Hz rest. unfold read_num. by rewrite (take_field_app w n). Qed.

Lemma takes_bytes l : takes (read_bytes (len l)) l l.
Proof. intros rest. unfold read_bytes, len. by rewrite Nat2Z.id, split_at_app by done. Qed.

Lemma takes_repeat {A B} (item : Read B) (enc : A -> bytes) (f : A -> B) l :
  Forall (fun x => takes item (enc x) (f x)) l -> takes (repeat_read (length l) item) (mjoin (enc <$> l)) (f <$> l).
Proof.
  induction 1 as [|x l Hx Hl IH]; [apply takes_ret|]. cbn.
  eapply takes_bind; [exact Hx|]. eapply takes_last; [exact IH|apply takes_ret].
Qed.

Lemma run_counted {A B} (item : Read B) (enc : A -> bytes) (f : A -> B) l :
  fits 32 (len l) -> Forall (fun x => takes item (enc x) (f x)) l ->
  run_read (read_counted item) (le_bytes 4 (wrapping 32 (len l)) ++ mjoin (enc <$> l)) = Ok (f <$> l).
Proof.
  intros Hl Hi. rewrite wrapping_small by done.
  assert (takes (read_counted item) (le_bytes 4 (len l) ++ mjoin (enc <$> l)) (f <$> l)) as H.
  { eapply takes_bind; [by apply (takes_num 32)|]. unfold len. rewrite Nat2Z.id. by apply takes_repeat. }
  unfold run_read. specialize (H []). rewrite app_nil_r in H. by rewrite H.
Qed.

Lemma takes_slot value :
  match value with Some v => value_fits v | None => True end ->
  takes read_slot (slot_bytes value) (sent_value <$> value).
Proof.
  destruct value as [v|]; cbn [fmap option_fmap option_map].
  - intros (H1 & H2 & H3). unfold slot_bytes, read_slot.
    change [Byte.x01] with (le_bytes 1 1). eapply takes_bind; [by apply (takes_num 8)|]. cbn [Z.eqb].
    eapply takes_bind; [by apply (takes_num 32)|]. eapply takes_bind; [by apply (takes_num 64)|].
    rewrite wrapping_small by done. eapply takes_bind; [by apply (takes_num 32)|].
    eapply takes_last; [apply takes_bytes|apply takes_ret].
  - intros _. unfold slot_bytes, read_slot. change [Byte.x00] with (le_bytes 1 0).
    eapply takes_last; [by apply (takes_num 8)|]. apply takes_ret.
Qed.

(** ** Each response body *)

Lemma mjoin_map_cons {A} (f : A -> bytes) x l : mjoin (f <$> x :: l) = f x ++ mjoin (f <$> l).
Proof. done. Qed.

Lemma parse_values vs :
  Forall (fun o => match o with Some v => value_fits v | None => True end) vs -> fits 32 (len vs) ->
  run_read (read_counted read_slot) (values_body vs) = Ok (sent_values vs).
Proof.
  intros Hv Hl. rewrite values_body_app. unfold sent_values.
  apply (run_counted read_slot slot_bytes (fun o => sent_value <$> o)); [done|].
  eapply Forall_impl; [exact Hv|]. apply takes_slot.
Qed.

Lemma parse_cas_list cas :
  Forall (fits 64) cas -> fits 32 (len cas) ->
  run_read (read_counted (read_num 8)) (stored_many_body cas) = Ok cas.
Proof.
  intros Hc Hl. unfold stored_many_body. rewrite (foldl_push (le_bytes 8)) by done.
  rewrite (run_counted (read_num 8) (le_bytes 8) (fun x => x)); [by rewrite list_fmap_id|done|].
  eapply Forall_impl; [exact Hc|]. intros x Hx. by apply (takes_num 64).
Qed.

Lemma parse_hits hits :
  fits 32 (len hits) ->
  run_read (read_counted (b ← read_num 1; mret (negb (b =? 0)))) (deleted_many_body hits) = Ok hits.
Proof.
  intros Hl. unfold deleted_many_body.
  replace ((fun hit => byte_of (from_bool hit)) <$> hits) with (mjoin ((fun hit => le_bytes 1 (from_bool hit)) <$> hits)).
  - rewrite (run_counted _ (fun hit => le_bytes 1 (from_bool hit)) (fun x => x)); [by rewrite list_fmap_id|done|].
    apply Forall_true. intros hit. eapply takes_last; [apply (takes_num 8); [done|by destruct hit]|].
    destruct hit; apply takes_ret.
  - clear. induction hits as [|h l IH]; [done|].
    rewrite !fmap_cons. exact (f_equal (cons (byte_of (from_bool h))) IH).
Qed.

Lemma number_of_encoded a mode value moved :
  arithmetic_numbers a = Some (mode, value, moved) -> number_fits (ap_value a) -> number_fits (ap_applied a) ->
  fits 8 mode /\ fits 64 value /\ fits 64 moved
  /\ number_of mode value = Ok (ap_value a) /\ number_of mode moved = Ok (ap_applied a).
Proof.
  unfold arithmetic_numbers. intros He Hv Hm.
  destruct (ap_value a) as [v|v|v], (ap_applied a) as [m|m|m]; try done; injection He as <- <- <-; cbn in Hv, Hm.
  - conjs; try done; try (apply wrapping_fits; lia); cbn; by rewrite as_i64_u64.
  - conjs; try done; try (by apply f64_to_bits_fits); cbn; by rewrite f64_bits_roundtrip.
  - by conjs.
Qed.

Lemma parse_arithmetic_body a mode value moved :
  arithmetic_numbers a = Some (mode, value, moved) -> number_fits (ap_value a) -> number_fits (ap_applied a) ->
  parse_arithmetic Status_Ok (arithmetic_reply_body mode (from_bool (ap_wrote a)) value moved) = Ok (Some a).
Proof.
  intros He Hv Hm. destruct (number_of_encoded a mode value moved He Hv Hm) as (F1 & F2 & F3 & E1 & E2).
  set (w := from_bool (ap_wrote a)). assert (fits 8 w) as Fw by (by unfold w; destruct (ap_wrote a)).
  unfold parse_arithmetic. set (body := arithmetic_reply_body mode w value moved).
  assert (len body = ARITHMETIC_RESPONSE_LEN) as -> by (unfold body, arithmetic_reply_body, len; by lengths).
  rewrite Z.ltb_irrefl.
  rewrite (num_at_slice 8 0 1 mode body [] (le_bytes 1 w ++ le_bytes 2 0 ++ le_bytes 8 value ++ le_bytes 8 moved)) by done.
  rewrite (num_at_slice 64 4 8 value body (le_bytes 1 mode ++ le_bytes 1 w ++ le_bytes 2 0) (le_bytes 8 moved));
    [|unfold body, arithmetic_reply_body; layout|done..].
  rewrite (num_at_slice 64 12 8 moved body (le_bytes 1 mode ++ le_bytes 1 w ++ le_bytes 2 0 ++ le_bytes 8 value) []);
    [|unfold body, arithmetic_reply_body; rewrite app_nil_r; layout|done..].
  rewrite (num_at_slice 8 1 1 w body (le_bytes 1 mode) (le_bytes 2 0 ++ le_bytes 8 value ++ le_bytes 8 moved)) by done.
  rewrite E1, E2. cbn. do 2 f_equal. unfold w. destruct a as [v m wr]. by destruct wr.
Qed.

Lemma decode_hello_body info : info_fits info -> decode_hello_response (hello_body info) = Some info.
Proof.
  intros (H1 & H2 & H3 & H4 & H5 & H6). destruct info as [ver sh mk mv cap mt].
  cbn [si_protocol_version si_shards si_max_key_len si_max_value_len si_capabilities si_max_tags_per_record] in *.
  unfold decode_hello_response. set (body := hello_body _).
  assert (len body = HELLO_RESPONSE_LEN) as -> by (unfold body, hello_body, len; by lengths).
  rewrite Z.ltb_irrefl.
  assert (body = le_bytes 2 ver ++ le_bytes 2 sh ++ le_bytes 4 mk ++ le_bytes 4 mv ++ le_bytes 4 cap ++ le_bytes 2 mt)
    as Eb by done.
  rewrite (slice0 16 2 body ver _ Eb) by done.
  rewrite (slice 16 2 2 body sh (le_bytes 2 ver) _ Eb) by done.
  rewrite (slice 32 4 4 body mk (le_bytes 2 ver ++ le_bytes 2 sh) (le_bytes 4 mv ++ le_bytes 4 cap ++ le_bytes 2 mt));
    [|rewrite Eb; layout|done..].
  rewrite (slice 32 8 4 body mv (le_bytes 2 ver ++ le_bytes 2 sh ++ le_bytes 4 mk) (le_bytes 4 cap ++ le_bytes 2 mt));
    [|rewrite Eb; layout|done..].
  rewrite (slice 32 12 4 body cap (le_bytes 2 ver ++ le_bytes 2 sh ++ le_bytes 4 mk ++ le_bytes 4 mv) (le_bytes 2 mt));
    [|rewrite Eb; layout|done..].
  rewrite (slice 16 16 2 body mt (le_bytes 2 ver ++ le_bytes 2 sh ++ le_bytes 4 mk ++ le_bytes 4 mv ++ le_bytes 4 cap) []);
    [|rewrite Eb, app_nil_r; layout|done..].
  done.
Qed.

Definition entry_bytes (e : ListEntry) : bytes := named_entry (le_name e, le_version e).

Lemma decode_entries_enc l rest :
  Forall entry_fits l -> decode_entries (length l) (mjoin (entry_bytes <$> l) ++ rest) = Some (sent_entries l).
Proof.
  induction 1 as [|e l [Hn Hv] Hl IH]; [done|]. rewrite mjoin_map_cons. cbn [length decode_entries].
  unfold entry_bytes at 1, named_entry. cbn [fst snd]. rewrite wrapping_small by done. rewrite <- !app_assoc.
  rewrite (take_field_app 64 8) by done. cbn [mbind option_bind].
  rewrite (take_field_app 16 2) by done. cbn [mbind option_bind].
  rewrite split_at_app by (unfold len; lia). cbn [mbind option_bind]. by rewrite IH.
Qed.

Lemma entries_room l : NAMED_ENTRY_PREFIX_LEN * len l <= len (mjoin (entry_bytes <$> l)).
Proof.
  induction l as [|e l IH]; [done|]. rewrite mjoin_map_cons, len_app.
  assert (len (e :: l) = 1 + len l) as -> by (unfold len; cbn [length]; lia).
  assert (NAMED_ENTRY_PREFIX_LEN <= len (entry_bytes e)); [|lia].
  unfold entry_bytes, named_entry, len. lengths. unfold NAMED_ENTRY_PREFIX_LEN. lia.
Qed.

Lemma decode_listing_body l : reply_fits (Reply_Listing l) -> decode_listing (listing_body l) = Some (sent_listing l).
Proof.
  intros (He & Hn & Hs & Hc & Hne). destruct l as [entries scanned cursor truncated].
  cbn [l_entries l_scanned l_cursor l_truncated] in *. unfold listing_body, sent_listing.
  cbn [l_entries l_scanned l_cursor l_truncated]. set (cur := default [] cursor) in *.
  rewrite (foldl_push entry_bytes) by done. rewrite !wrapping_small by done.
  set (flags := if truncated then list_flags_TRUNCATED else 0).
  assert (fits 8 flags) as Hf by (by destruct truncated).
  set (head := le_bytes 4 (len entries) ++ le_bytes 1 flags ++ [Byte.x00; Byte.x00; Byte.x00]
    ++ le_bytes 8 scanned ++ le_bytes 2 (len cur) ++ le_bytes 2 0 ++ cur).
  set (body := head ++ mjoin (entry_bytes <$> entries)).
  assert (body = le_bytes 4 (len entries) ++ le_bytes 1 flags ++ [Byte.x00; Byte.x00; Byte.x00]
    ++ le_bytes 8 scanned ++ le_bytes 2 (len cur) ++ le_bytes 2 0 ++ cur ++ mjoin (entry_bytes <$> entries)) as Eb.
  { unfold body, head. rewrite <- !app_assoc. cbn [app]. by rewrite <- ?app_assoc. }
  unfold decode_listing. rewrite (proj2 (Z.ltb_ge _ _)).
  2:{ rewrite Eb. unfold len, LIST_RESPONSE_HEADER_LEN. lengths. lia. }
  rewrite (slice0 32 4 body (len entries) _ Eb) by done.
  rewrite (slice 8 4 1 body flags (le_bytes 4 (len entries)) _ Eb) by done.
  rewrite (slice 64 8 8 body scanned (le_bytes 4 (len entries) ++ le_bytes 1 flags ++ [Byte.x00; Byte.x00; Byte.x00])
    (le_bytes 2 (len cur) ++ le_bytes 2 0 ++ cur ++ mjoin (entry_bytes <$> entries))); [|rewrite Eb; layout|done..].
  rewrite (slice 16 16 2 body (len cur) (le_bytes 4 (len entries) ++ le_bytes 1 flags ++ [Byte.x00; Byte.x00; Byte.x00]
    ++ le_bytes 8 scanned) (le_bytes 2 0 ++ cur ++ mjoin (entry_bytes <$> entries))); [|rewrite Eb; layout|done..].
  replace (skipn 20 body) with (cur ++ mjoin (entry_bytes <$> entries)).
  2:{ rewrite Eb. symmetry.
      pose proof (drop_app_exact 20 (le_bytes 4 (len entries) ++ le_bytes 1 flags ++ [Byte.x00; Byte.x00; Byte.x00]
        ++ le_bytes 8 scanned ++ le_bytes 2 (len cur) ++ le_bytes 2 0) (cur ++ mjoin (entry_bytes <$> entries)) eq_refl) as H.
      rewrite <- !app_assoc in H. exact H. }
  rewrite split_at_app by (unfold len; lia). cbn [mbind option_bind].
  pose proof (entries_room entries) as Hroom. rewrite (proj2 (Z.ltb_ge _ _)).
  2:{ apply Z.div_le_lower_bound; [by unfold NAMED_ENTRY_PREFIX_LEN|done]. }
  replace (Z.to_nat (len entries)) with (length entries) by (unfold len; lia).
  rewrite <- (app_nil_r (mjoin _)), decode_entries_enc by done. cbn [mbind option_bind].
  f_equal. f_equal.
  - subst cur. destruct cursor as [c|]; [|reflexivity]. cbn.
    destruct (Z.eqb_spec (len c) 0) as [Hz|]; [|reflexivity]. exfalso. apply Hne. destruct c; [done|]. unfold len in Hz. cbn in Hz. lia.
  - by destruct truncated.
Qed.

Lemma decode_peers_enc l rest :
  Forall peer_fits l ->
  decode_peers (length l) (mjoin ((fun p => push_peer [] p) <$> l) ++ rest) = Some l.
Proof.
  induction 1 as [|p l [Hn [t Ht]] Hl IH]; [done|]. rewrite mjoin_map_cons. cbn [length decode_peers].
  unfold push_peer at 1. cbn [app]. rewrite wrapping_small by done. rewrite <- !app_assoc.
  rewrite (take_field_app 16 2) by done. cbn [mbind option_bind].
  rewrite split_at_app by (unfold len; lia). cbn [mbind option_bind]. rewrite Ht. cbn [mbind option_bind].
  rewrite (take_field_app 8 1); [|done|by destruct (p_reachable p)]. cbn [mbind option_bind]. rewrite IH.
  cbn [mbind option_bind]. destruct p as [addr r]. by destruct r.
Qed.

Lemma decode_cluster_body info : reply_fits (Reply_Cluster info) -> decode_cluster_response (cluster_body info) = Some info.
Proof.
  intros [Hp Hn]. destruct info as [mode peers]. cbn [ci_mode ci_peers] in *. unfold cluster_body. cbn [ci_mode ci_peers].
  rewrite (foldl_push (fun p => push_peer [] p)) by done. rewrite wrapping_small by done.
  set (m := ClusterMode_to_u8 mode). set (peers_enc := mjoin _).
  assert (fits 8 m) as Hm by (by destruct mode).
  set (body := (le_bytes 1 m ++ [Byte.x00] ++ le_bytes 2 (len peers)) ++ peers_enc).
  assert (body = le_bytes 1 m ++ [Byte.x00] ++ le_bytes 2 (len peers) ++ peers_enc) as Eb
    by (unfold body; by rewrite <- !app_assoc).
  unfold decode_cluster_response. rewrite (proj2 (Z.ltb_ge _ _)).
  2:{ rewrite Eb. unfold len, CLUSTER_HEADER_LEN. lengths. lia. }
  rewrite (slice0 8 1 body m _ Eb) by done.
  assert (ClusterMode_from_u8 m = Some mode) as -> by (by destruct mode). cbn [mbind option_bind].
  rewrite (slice 16 2 2 body (len peers) (le_bytes 1 m ++ [Byte.x00]) peers_enc); [|rewrite Eb; layout|done..].
  replace (skipn 4 body) with peers_enc by (symmetry; by apply drop_app_exact).
  replace (Z.to_nat (len peers)) with (length peers) by (unfold len; lia).
  rewrite <- (app_nil_r peers_enc). unfold peers_enc. by rewrite decode_peers_enc.
Qed.

(** ** Whole calls *)

Lemma parse_reply c r a :
  answer_of c r = Some a -> reply_fits r -> client_parse c (reply_parts r).1 (reply_parts r).2 = a.
Proof.
  intros Ha Hf.
  destruct c, r as [info| |v|vs|o|o p|cs|ap|n|d|ds| |hs| |existed|e|ar|ts|ci|l|st|ve| |]; try discriminate Ha;
    cbn [answer_of] in Ha; cbn [client_parse].
  - injection Ha as <-. cbn [reply_parts fst snd]. unfold parse_hello, on_ok. cbn [bool_decide].
    rewrite bool_decide_eq_true_2 by done. rewrite decode_hello_body by done. cbn.
    by destruct (si_protocol_version info =? PROTOCOL_VERSION).
  - by injection Ha as <-.
  - injection Ha as <-. destruct Hf as (H1 & H2 & H3). cbn [reply_parts fst snd parse_get].
    set (body := value_body v). rewrite (proj2 (Z.ltb_ge _ _)).
    2:{ unfold body, value_body, len, VALUE_PREFIX_LEN. lengths. lia. }
    rewrite (num_at_slice 32 0 4 (v_mc_flags v) body [] (le_bytes 8 (v_cas v) ++ v_data v)) by done.
    rewrite (num_at_slice 64 4 8 (v_cas v) body (le_bytes 4 (v_mc_flags v)) (v_data v)) by done.
    reflexivity.
  - by injection Ha as <-.
  - injection Ha as <-. destruct Hf as [H1 H2]. cbn [reply_parts fst snd]. unfold parse_get_many, on_ok.
    rewrite bool_decide_eq_true_2 by done. by rewrite parse_values.
  - destruct o as [cas| | |]; injection Ha as <-; try done. cbn [reply_parts fst snd parse_set].
    assert (len (le_bytes 8 cas) = 8) as -> by (unfold len; by lengths). rewrite Z.leb_refl.
    by rewrite (num_at_slice 64 0 8 cas _ [] []) by done.
  - injection Ha as <-. destruct Hf as [H1 H2]. cbn [reply_parts fst snd]. unfold parse_set_many, on_ok.
    rewrite bool_decide_eq_true_2 by done. by rewrite parse_cas_list.
  - by injection Ha as <-.
  - by injection Ha as <-.
  - injection Ha as <-. cbn [reply_parts fst snd]. unfold parse_delete_many, on_ok.
    rewrite bool_decide_eq_true_2 by done. by rewrite parse_hits.
  - by injection Ha as <-.
  - by injection Ha as <-.
  - injection Ha as <-. by destruct existed.
  - injection Ha as <-. cbn [reply_parts fst snd parse_flush].
    assert (len (le_bytes 4 e) = 4) as -> by (unfold len; by lengths). rewrite Z.leb_refl.
    by rewrite (num_at_slice 32 0 4 e _ [] []) by done.
  - destruct (arithmetic_numbers ar) as [[[mode value] moved]|] eqn:En; [|done]. injection Ha as <-.
    destruct Hf as [H1 H2]. cbn [reply_parts]. rewrite En. cbn [fst snd]. by rewrite parse_arithmetic_body.
  - by injection Ha as <-.
  - injection Ha as <-. destruct Hf as [H1 H2]. cbn [reply_parts fst snd]. unfold parse_tag_sync, on_ok.
    rewrite bool_decide_eq_true_2 by done. unfold decode_tag_sync.
    rewrite (run_whole _ _ _ (reads_tag_sync false ((fun e => (tg_name e, tg_generation e)) <$> ts)
      ltac:(apply Forall_fmap; exact H1) ltac:(unfold len in *; by rewrite length_fmap))).
    cbn. do 2 f_equal. rewrite <- list_fmap_compose. rewrite <- (list_fmap_id ts) at 2.
    apply list_fmap_ext. by intros i [n g].
  - injection Ha as <-. cbn [reply_parts fst snd]. unfold parse_cluster, on_ok.
    rewrite bool_decide_eq_true_2 by done. by rewrite decode_cluster_body.
  - injection Ha as <-. cbn [reply_parts fst snd]. unfold parse_list, on_ok.
    rewrite bool_decide_eq_true_2 by done. by rewrite decode_listing_body.
  - injection Ha as <-. cbn [reply_parts fst snd]. unfold parse_list, on_ok.
    rewrite bool_decide_eq_true_2 by done. by rewrite decode_listing_body.
Qed.

Lemma parse_refused c op body s :
  client_request c = Some (op, body) -> s <> Status_Ok -> s <> Status_NotFound ->
  client_parse c s [] = Err (CE_Status s).
Proof.
  intros Hc Hok Hnf. destruct c; try discriminate Hc; cbn [client_parse];
    unfold parse_hello, parse_get_many, parse_set_many, parse_delete_many, parse_tag_sync, parse_cluster, parse_list, on_ok;
    rewrite ?bool_decide_eq_false_2 by done; try reflexivity; by destruct s.
Qed.

(** A server that decodes one frame, executes it and answers it. *)
Definition respond (exec : Command -> Result Status Reply) (frame : bytes) : bytes :=
  match decode frame with
  | Ok (Decoded_Request r _) =>
      match exec (rq_command r) with
      | Ok reply => encode_reply [] (rq_opcode r) (rq_request_id r) reply
      | Err status => encode_error [] (Opcode_code (rq_opcode r)) (rq_request_id r) status
      | Panic _ => []
      end
  | _ => []
  end.

(** C19 The wire is transparent: calling a method of the client against a server
    that executes each command and answers it gives exactly what executing the
    command there gives - every value, token, count, tag, number and listing
    of the reply, and every failing status as that error - for every method,
    within the limits of the protocol. *)
Theorem vcp_call_exact exec client c op body :
  client_request c = Some (op, body) -> wire_ok c -> len body <= MAX_BODY_LEN ->
  cl_buf client = [] -> fits 32 (cl_next_id client) ->
  let client' := mkClient [] (wrapping 32 (cl_next_id client + 1)) in
  match exec c with
  | Ok reply =>
      forall a, answer_of c reply = Some a -> reply_fits reply -> len (reply_parts reply).2 <= MAX_BODY_LEN ->
      call (respond exec) client c = (client', a)
  | Err status =>
      status <> Status_Ok -> status <> Status_NotFound ->
      call (respond exec) client c = (client', Err (CE_Status status))
  | Panic _ => True
  end.
Proof.
  intros Hr Hw Hl Hb Hid client'. pose proof (decode_request_ok c op body (cl_next_id client) [] Hr Hw Hl Hid) as Hd.
  rewrite app_nil_r in Hd. unfold call. rewrite Hr.
  destruct (exec c) as [reply|status|why] eqn:Ee; [| |done].
  - intros a Ha Hf Hlen.
    rewrite (round_trip_response _ _ _ _ op (reply_parts reply).1 (reply_parts reply).2 []); try done.
    + cbn [mbind Result_bind]. by rewrite (parse_reply c reply a).
    + unfold respond. rewrite Hd. cbn [rq_command rq_opcode rq_request_id]. rewrite Ee, encode_reply_parts.
      by rewrite app_nil_r.
  - intros Hok Hnf.
    rewrite (round_trip_response _ _ _ _ op status [] []); try done.
    + cbn [mbind Result_bind]. by rewrite (parse_refused c op body).
    + unfold respond. rewrite Hd. cbn [rq_command rq_opcode rq_request_id]. by rewrite Ee, app_nil_r.
Qed.
