(* ===== verification/Auth.v ===== *)
(** [vash-server/src/auth.rs]: roles, the credential table, what a connection has
    authenticated as, and the one decision behind every gate.  SHA-256 is the
    parameter [Digest].  Where the table comes from - the credential file, the
    environment, a reload - is [AuthFile]. *)

From S2P Require Import Prelude Bytes Text Core Record Glob Clock Arith Float Command Vcp.

(** The identity a deployment without credentials of its own resolves to. *)
Definition DEFAULT_NAME : bytes := bs "default".

(** ** Roles *)

Abbreviation Roles := Z (only parsing).

Definition Roles_NONE : Roles := 0.
Definition Roles_READ : Roles := 1.
Definition Roles_WRITE : Roles := 2.
Definition Roles_INVALIDATE : Roles := 4.
Definition Roles_LIST : Roles := 8.
Definition Roles_FLUSH : Roles := 16.
Definition Roles_PEER : Roles := 32.
Definition Roles_READ_WRITE : Roles := Z.lor Roles_READ Roles_WRITE.
Definition Roles_UNRESTRICTED : Roles := U8_MAX.

Definition allows (roles needed : Roles) : bool := Z.land roles needed =? needed.

(** [!self.0] of a [u8]. *)
Definition missing_roles (roles needed : Roles) : Roles := Z.land needed (Z.lxor U8_MAX roles).

Definition union_roles (a b : Roles) : Roles := Z.lor a b.

Definition no_roles (roles : Roles) : bool := roles =? 0.

(** ** Credentials *)

Inductive Mechanism : Type := Mechanism_Plain | Mechanism_HmacSha256.

#[global] Instance Mechanism_eq_dec : EqDecision Mechanism.
Proof. solve_decision. Defined.

Definition Mechanism_from_u8 (v : Z) : option Mechanism :=
  match v with 0 => Some Mechanism_Plain | 1 => Some Mechanism_HmacSha256 | _ => None end.

Record Identity := mkIdentity { id_name : bytes; id_roles : Roles }.

Record ConnAuth := mkConnAuth { ca_identity : option Identity; ca_failures : Z }.

Definition ConnAuth_default : ConnAuth := mkConnAuth None 0.

Definition is_authenticated (c : ConnAuth) : bool := match ca_identity c with Some _ => true | None => false end.

Definition succeed (c : ConnAuth) (identity : Identity) : ConnAuth := mkConnAuth (Some identity) (ca_failures c).

Definition auth_fail (c : ConnAuth) : ConnAuth := mkConnAuth (ca_identity c) (Z.min (ca_failures c + 1) U32_MAX).

Record Credential := mkCredential {
  cr_mechanism : Mechanism;
  cr_value : bytes;
  cr_subject : option bytes;
  cr_roles : Roles;
  cr_inherited : bool
}.

Record Auth := mkAuth { au_required : bool; au_table : gmap bytes Credential }.

(** [resolve_defaults]: the names that took the default are reported sorted. *)
Definition resolve_default (default : Roles) (c : Credential) : Credential :=
  if cr_inherited c
  then mkCredential (cr_mechanism c) (cr_value c) (cr_subject c) default (cr_inherited c) else c.

Definition resolve_defaults (table : gmap bytes Credential) (default : Roles) : gmap bytes Credential :=
  resolve_default default <$> table.

Class Digest := { sha256 : bytes -> bytes }.

(** [String::from_utf8_lossy(name)]: only how a name is shown, which nothing
    depends on, is lost by keeping its bytes. *)
Definition verify `{DG : Digest} (a : Auth) (name secret : bytes) : option Identity :=
  credential ← au_table a !! name;
  match cr_subject credential with
  | Some _ => None
  | None =>
      if negb (bool_decide (cr_mechanism credential = Mechanism_Plain)) then None
      else if bool_decide (sha256 secret = cr_value credential)
      then Some (mkIdentity name (cr_roles credential)) else None
  end.

(** ** The gate *)

Inductive Refused : Type := Refused_Unauthenticated | Refused_Missing (missing : Roles).

Definition refusal (a : Auth) (conn : ConnAuth) (needed : Roles) : option Refused :=
  match ca_identity conn with
  | None => if au_required a then Some Refused_Unauthenticated else None
  | Some identity =>
      let roles := id_roles identity in
      if allows roles needed then None else Some (Refused_Missing (missing_roles roles needed))
  end.

Definition roles_for_command (c : Command) : Roles :=
  match c with
  | Cmd_Hello _ | Cmd_Ping | Cmd_Stats | Cmd_Version | Cmd_Quit | Cmd_Cluster => Roles_NONE
  | Cmd_Get _ | Cmd_GetMany _ | Cmd_Deadline _ | Cmd_Deadlines _ => Roles_READ
  | Cmd_Set set => if s_return_previous set then Roles_READ_WRITE else Roles_WRITE
  | Cmd_SetMany _ _ | Cmd_Delete _ | Cmd_DeleteMany _ | Cmd_Touch _ _ | Cmd_Expire _ _ _ | Cmd_Append _ _ =>
      Roles_WRITE
  | Cmd_GetAndTouch _ _ | Cmd_Arithmetic _ => Roles_READ_WRITE
  | Cmd_DeleteByTag _ => Roles_INVALIDATE
  | Cmd_Flush => Roles_FLUSH
  | Cmd_TagSync _ _ => Roles_PEER
  | Cmd_ListKeys _ | Cmd_ListTags _ => Roles_LIST
  end.

Definition roles_for_opcode (op : Opcode) : Roles :=
  match op with
  | Opcode_Hello | Opcode_Ping | Opcode_Auth | Opcode_Stats | Opcode_Cluster => Roles_NONE
  | Opcode_Get | Opcode_GetMany => Roles_READ
  | Opcode_Set | Opcode_SetMany | Opcode_Delete | Opcode_DeleteMany | Opcode_Touch => Roles_WRITE
  | Opcode_Arithmetic => Roles_READ_WRITE
  | Opcode_DeleteByTag => Roles_INVALIDATE
  | Opcode_Flush => Roles_FLUSH
  | Opcode_TagSync => Roles_PEER
  | Opcode_ListKeys | Opcode_ListTags => Roles_LIST
  end.

(** ** Facts *)

Lemma allows_spec roles needed :
  0 <= needed -> allows roles needed = true <-> forall i, 0 <= i -> Z.testbit needed i = true -> Z.testbit roles i = true.
Proof.
  intros Hn. unfold allows. rewrite Z.eqb_eq. split.
  - intros H i Hi Hb. rewrite <- H, Z.land_spec in Hb. by apply andb_true_iff in Hb as [].
  - intros H. apply Z.bits_inj'. intros i Hi. rewrite Z.land_spec.
    destruct (Z.testbit needed i) eqn:E; [by rewrite H|by rewrite andb_false_r].
Qed.

Lemma allows_bit roles k : 0 <= k -> allows roles (2 ^ k) = Z.testbit roles k.
Proof.
  intros Hk. apply eq_true_iff_eq. rewrite allows_spec by lia. split.
  - intros H. apply H; [done|]. by rewrite Z.pow2_bits_true.
  - intros H i Hi Hb. by rewrite Z.pow2_bits_eqb, Z.eqb_eq in Hb by done; subst.
Qed.

Lemma allows_both roles a b : 0 <= a -> 0 <= b -> allows roles (Z.lor a b) = allows roles a && allows roles b.
Proof.
  intros Ha Hb. apply eq_true_iff_eq. rewrite andb_true_iff, !allows_spec by (rewrite ?Z.lor_nonneg; lia). setoid_rewrite Z.lor_spec.
  setoid_rewrite orb_true_iff. naive_solver.
Qed.

(** A set of roles either allows what is asked for or lacks some of it. *)
Lemma missing_zero roles needed :
  fits 8 roles -> fits 8 needed -> missing_roles roles needed = 0 <-> allows roles needed = true.
Proof.
  intros Hr [Hn Hn8]. rewrite allows_spec by done. unfold missing_roles.
  assert (forall i, 0 <= i -> Z.testbit needed i = true -> i < 8) as Hbits.
  { intros i Hi Hb. destruct (Z.lt_ge_cases i 8); [done|]. exfalso.
    destruct (Z.eq_dec needed 0) as [->|Hz]; [by rewrite Z.bits_0 in Hb|].
    assert (2 ^ 8 <= 2 ^ i) by (apply Z.pow_le_mono_r; lia).
    rewrite Z.testbit_true in Hb by done. rewrite Z.div_small in Hb by lia. by rewrite Z.mod_0_l in Hb. }
  split.
  - intros H i Hi Hb. apply (f_equal (fun z => Z.testbit z i)) in H.
    rewrite Z.land_spec, Z.lxor_spec, Hb, Z.bits_0 in H. unfold U8_MAX in H. change 255 with (Z.ones 8) in H.
    rewrite Z.ones_spec_low in H by auto. by destruct (Z.testbit roles i).
  - intros H. apply Z.bits_inj'. intros i Hi. rewrite Z.land_spec, Z.lxor_spec, Z.bits_0.
    destruct (Z.testbit needed i) eqn:E; [|done]. rewrite (H i Hi E). unfold U8_MAX. change 255 with (Z.ones 8).
    by rewrite Z.ones_spec_low by auto.
Qed.
