(* ===== verification/AuthFile.v ===== *)
(** [vash-server/src/auth.rs], loading: the role names, the credential file from
    its text to the table, the sources [Auth::load] accepts, the reload on
    [SIGHUP], certificate subjects, and the rows [auth-gen] prints.

    A [str] is a list of code points, and its bytes are [utf8_encode] of it, so
    that what the code does by character and what it does by byte offset are
    kept apart.  The file system, the random source and the X.509 matching are
    parameters.  Error messages keep what they quote, not their wording. *)

From S2P Require Import Prelude Bytes Text Core Record Glob Clock Arith Float Command Vcp Auth.

Abbreviation text := (list Z).

(** ** [str]: encoding and splitting *)

Definition utf8_encode_char (c : Z) : bytes :=
  if c <? 128 then [byte_of c]
  else if c <? 2048 then [byte_of (192 + c / 64); byte_of (128 + c mod 64)]
  else if c <? 65536 then [byte_of (224 + c / 4096); byte_of (128 + c / 64 mod 64); byte_of (128 + c mod 64)]
  else [byte_of (240 + c / 262144); byte_of (128 + c / 4096 mod 64); byte_of (128 + c / 64 mod 64);
        byte_of (128 + c mod 64)].

Definition utf8_encode (s : text) : bytes := s ≫= utf8_encode_char.

(** [String::from_utf8_lossy]: every maximal prefix of a character that is not
    one becomes U+FFFD. *)
Definition REPLACEMENT : Z := 65533.

Fixpoint from_utf8_lossy (l : bytes) : text :=
  match l with
  | [] => []
  | b0 :: l1 =>
      let v0 := byte_val b0 in
      if v0 <? 128 then v0 :: from_utf8_lossy l1
      else
        match l1 with
        | [] => [REPLACEMENT]
        | b1 :: l2 =>
            if in_range 194 223 b0 then
              if cont b1 then ((v0 - 192) * 64 + (byte_val b1 - 128)) :: from_utf8_lossy l2
              else REPLACEMENT :: from_utf8_lossy l1
            else if negb (in_range 224 244 b0 && second_ok b0 b1) then REPLACEMENT :: from_utf8_lossy l1
            else
              match l2 with
              | [] => [REPLACEMENT]
              | b2 :: l3 =>
                  if negb (cont b2) then REPLACEMENT :: from_utf8_lossy l2
                  else if in_range 224 239 b0 then
                    ((v0 - 224) * 4096 + (byte_val b1 - 128) * 64 + (byte_val b2 - 128)) :: from_utf8_lossy l3
                  else
                    match l3 with
                    | [] => [REPLACEMENT]
                    | b3 :: l4 =>
                        if cont b3 then
                          ((v0 - 240) * 262144 + (byte_val b1 - 128) * 4096
                           + (byte_val b2 - 128) * 64 + (byte_val b3 - 128)) :: from_utf8_lossy l4
                        else REPLACEMENT :: from_utf8_lossy l3
                    end
              end
        end
  end.

(** A string literal. *)
Definition txt (s : String.string) : text := byte_val <$> bs s.
Arguments txt s%_string_scope.

Definition NEWLINE : Z := 10.
Definition COMMA : Z := 44.
Definition COLON : Z := 58.

(** [str::lines]: every [\n] ends a line and takes a [\r] before it along; what
    follows the last one is a line if it is not empty. *)
Definition strip_cr (line : text) : text :=
  match reverse line with 13 :: l => reverse l | _ => line end.

Fixpoint lines_from (line s : text) : list text :=
  match s with
  | [] => if bool_decide (line = []) then [] else [line]
  | c :: s' => if c =? NEWLINE then strip_cr line :: lines_from [] s' else lines_from (line ++ [c]) s'
  end.

Definition lines : text -> list text := lines_from [].

(** [str::split_whitespace]: the runs of other characters. *)
Fixpoint fields_from (field s : text) : list text :=
  match s with
  | [] => if bool_decide (field = []) then [] else [field]
  | c :: s' =>
      if is_whitespace c
      then if bool_decide (field = []) then fields_from [] s' else field :: fields_from [] s'
      else fields_from (field ++ [c]) s'
  end.

Definition split_whitespace : text -> list text := fields_from [].

(** [str::split(char)]. *)
Fixpoint split_from (sep : Z) (piece s : text) : list text :=
  match s with
  | [] => [piece]
  | c :: s' => if c =? sep then piece :: split_from sep [] s' else split_from sep (piece ++ [c]) s'
  end.

Definition split (sep : Z) : text -> list text := split_from sep [].

(** [[String]::join]. *)
Fixpoint join (sep : Z) (pieces : list text) : text :=
  match pieces with
  | [] => []
  | [p] => p
  | p :: pieces' => p ++ sep :: join sep pieces'
  end.

Fixpoint split_once (sep : Z) (s : text) : option (text * text) :=
  match s with
  | [] => None
  | c :: s' =>
      if c =? sep then Some ([], s')
      else '(before, after) ← split_once sep s'; Some (c :: before, after)
  end.

Definition strip_prefix (prefix s : text) : option text :=
  if bool_decide (take (length prefix) s = prefix) then Some (drop (length prefix) s) else None.

(** [str::is_char_boundary], and [&s[i..j]], which panics elsewhere. *)
Definition char_boundary (s : bytes) (i : nat) : bool :=
  (i =? 0)%nat || match s !! i with Some b => negb (cont b) | None => (i =? length s)%nat end.

Definition str_slice {E} (s : bytes) (i j : nat) : Result E bytes :=
  if (i <=? j)%nat && char_boundary s i && char_boundary s j then Ok (slice_of s i j)
  else Panic "byte index is not a char boundary".

(** ** Numbers in hexadecimal *)

(** [char::to_digit(16)]. *)
Definition to_digit16 (b : byte) : option Z :=
  let v := byte_val b in
  if (48 <=? v) && (v <=? 57) then Some (v - 48)
  else if (97 <=? v) && (v <=? 102) then Some (v - 87)
  else if (65 <=? v) && (v <=? 70) then Some (v - 55)
  else None.

Fixpoint hex_digits (acc : Z) (src : bytes) : option Z :=
  match src with
  | [] => Some acc
  | b :: src' => d ← to_digit16 b; if acc * 16 + d <=? U8_MAX then hex_digits (acc * 16 + d) src' else None
  end.

(** [u8::from_str_radix(src, 16)]: one optional [+], then at least one digit. *)
Definition u8_from_hex (src : bytes) : option Z :=
  match src with
  | [] => None
  | Byte.x2b :: (_ :: _) as digits => hex_digits 0 digits
  | _ => hex_digits 0 src
  end.

Definition is_ascii_uppercase (b : byte) : bool := (65 <=? byte_val b) && (byte_val b <=? 90).

(** [write!(s, "{b:02x}")]. *)
Definition hex_char (d : Z) : Z := if d <? 10 then 48 + d else 87 + d.

Definition hex (value : bytes) : text :=
  value ≫= fun b => [hex_char (byte_val b / 16); hex_char (byte_val b mod 16)].

(** ** Role names *)

Definition NAMED : list (Roles * text) :=
  [(Roles_READ, txt "read"); (Roles_WRITE, txt "write"); (Roles_INVALIDATE, txt "invalidate");
   (Roles_LIST, txt "list"); (Roles_FLUSH, txt "flush"); (Roles_PEER, txt "peer")].

Definition to_names (roles : Roles) : text :=
  if no_roles roles then txt "none"
  else
    foldl (fun out '(role, name) =>
             if allows roles role then (if bool_decide (out = []) then out else out ++ [COMMA]) ++ name else out)
      [] NAMED.

Definition from_name (name : text) : option Roles :=
  '(_, (role, _)) ← list_find (fun entry => entry.2 = name) NAMED; Some role.

Inductive RolesError : Type := Re_Empty | Re_Unknown (name : text) | Re_Twice (name : text).

Fixpoint parse_names (roles : Roles) (names : list text) : Result RolesError Roles :=
  match names with
  | [] => Ok roles
  | name :: names' =>
      role ← ok_or (from_name name) (Re_Unknown name);
      _ ← guard_or (negb (allows roles role)) (Re_Twice name);
      parse_names (union_roles roles role) names'
  end.

Definition parse_list (list : text) : Result RolesError Roles :=
  _ ← guard_or (negb (bool_decide (list = []))) Re_Empty;
  parse_names Roles_NONE (split COMMA list).

Definition parse_default (configured : option (list text)) : Result RolesError Roles :=
  match configured with
  | None => Ok Roles_UNRESTRICTED
  | Some [] => Ok Roles_NONE
  | Some names => parse_list (join COMMA names)
  end.

(** ** A line of the file *)

Definition MIN_SECRET_LEN : Z := 16.
Definition MAX_NAME_LEN : Z := 64.

Inductive RowError : Type :=
| Row_OneField
| Row_UnknownField (field : text)
| Row_RolesTwice
| Row_Roles (e : RolesError)
| Row_NameLen (n : Z)
| Row_NameChar (c : Z)
| Row_Crypt
| Row_NoAlgorithm
| Row_HexLen (n : Z)
| Row_HexUpper
| Row_NotHex (pair : bytes)
| Row_MtlsEmpty
| Row_MtlsWhitespace
| Row_HmacUnbuilt
| Row_UnknownAlgorithm (algorithm : text)
| Row_Duplicate (name : text).

Definition name_char (c : Z) : bool :=
  ((48 <=? c) && (c <=? 57)) || ((65 <=? c) && (c <=? 90)) || ((97 <=? c) && (c <=? 122))
  || (c =? 95) || (c =? 46) || (c =? 45).

Definition validate_name (name : text) : Result RowError unit :=
  let n := len (utf8_encode name) in
  _ ← guard_or ((1 <=? n) && (n <=? MAX_NAME_LEN)) (Row_NameLen n);
  match list_find (fun c => name_char c = false) name with
  | Some (_, bad) => Err (Row_NameChar bad)
  | None => Ok ()
  end.

(** [parse_hex32]'s loop, from byte [i] of the result on. *)
Fixpoint hex_loop (value : bytes) (i n : nat) : Result RowError bytes :=
  match n with
  | O => Ok []
  | S n' =>
      pair ← str_slice value (i * 2) (i * 2 + 2);
      _ ← guard_or (negb (existsb is_ascii_uppercase pair)) Row_HexUpper;
      v ← ok_or (u8_from_hex pair) (Row_NotHex pair);
      out ← hex_loop value (S i) n';
      Ok (byte_of v :: out)
  end.

Definition parse_hex32 (value : text) : Result RowError bytes :=
  let v := utf8_encode value in
  _ ← guard_or (len v =? 64) (Row_HexLen (len v));
  hex_loop v 0 32.

(** A row before its [roles=] field is read. *)
Definition bare (value : bytes) (subject : option bytes) : Credential :=
  mkCredential Mechanism_Plain value subject Roles_UNRESTRICTED true.

Definition parse_credential (field : text) : Result RowError Credential :=
  _ ← guard_or (negb (bool_decide (head field = Some 36))) Row_Crypt;
  '(algorithm, value) ← ok_or (split_once COLON field) Row_NoAlgorithm;
  if bool_decide (algorithm = txt "sha256") then
    value ← parse_hex32 value; Ok (bare value None)
  else if bool_decide (algorithm = txt "mtls") then
    _ ← guard_or (negb (bool_decide (value = []))) Row_MtlsEmpty;
    _ ← guard_or (negb (existsb is_whitespace value)) Row_MtlsWhitespace;
    Ok (bare (replicate 32 Byte.x00) (Some (utf8_encode value)))
  else if bool_decide (algorithm = txt "hmac-sha256-key") then
    _ ← parse_hex32 value; Err Row_HmacUnbuilt
  else Err (Row_UnknownAlgorithm algorithm).

(** The fields after the second: [roles=] once, and nothing else. *)
Fixpoint trailing_fields (roles : option Roles) (fields : list text) : Result RowError (option Roles) :=
  match fields with
  | [] => Ok roles
  | field :: fields' =>
      list ← ok_or (strip_prefix (txt "roles=") field) (Row_UnknownField field);
      _ ← guard_or (bool_decide (roles = None)) Row_RolesTwice;
      r ← map_err Row_Roles (parse_list list);
      trailing_fields (Some r) fields'
  end.

Definition with_roles (roles : option Roles) (c : Credential) : Credential :=
  match roles with
  | Some r => mkCredential (cr_mechanism c) (cr_value c) (cr_subject c) r false
  | None => c
  end.

(** What [parse_line] makes of a line before it touches the table. *)
Definition parse_row (line : text) : Result RowError (text * Credential) :=
  '(name, rest) ← expect (match split_whitespace line with [] => None | n :: r => Some (n, r) end)
                    "the line is not blank";
  '(credential, fields) ← ok_or (match rest with [] => None | c :: r => Some (c, r) end) Row_OneField;
  roles ← trailing_fields None fields;
  _ ← validate_name name;
  credential ← parse_credential credential;
  Ok (name, with_roles roles credential).

Abbreviation Table := (gmap bytes Credential).

Definition parse_line (line : text) (table : Table) : Result RowError Table :=
  '(name, credential) ← parse_row line;
  match table !! utf8_encode name with
  | Some _ => Err (Row_Duplicate name)
  | None => Ok (<[utf8_encode name := credential]> table)
  end.

(** ** The file *)

(** The context [parse] gives an error: the line's number and the line. *)
Record LineError := mkLineError { le_line : Z; le_text : text; le_row : RowError }.

Definition skipped (line : text) : bool := bool_decide (line = []) || bool_decide (head line = Some 35).

Fixpoint parse_lines (index : Z) (raws : list text) (table : Table) : Result LineError Table :=
  match raws with
  | [] => Ok table
  | raw :: raws' =>
      let line := trim raw in
      if skipped line then parse_lines (index + 1) raws' table
      else
        table ← map_err (mkLineError (index + 1) line) (parse_line line table);
        parse_lines (index + 1) raws' table
  end.

Definition parse (s : text) : Result LineError Table := parse_lines 0 (lines s) ∅.

(** ** Loading *)

Record AuthConfig := mkAuthConfig {
  ac_required : bool;
  ac_file : bytes;
  ac_timeout_ms : Z;
  ac_max_attempts : Z;
  ac_max_unauthenticated_connections : Z;
  ac_default_roles : option (list text)
}.

(** The file system: a file's bytes and its permission bits, where it has any. *)
Class Files := { read_file : bytes -> option bytes; file_mode : bytes -> option Z }.

Inductive LoadError : Type :=
| Load_DefaultRoles (e : RolesError)
| Load_BothSources
| Load_Unreadable
| Load_NoPermissions
| Load_Mode (mode : Z)
| Load_Line (e : LineError)
| Load_ShortSecret (n : Z)
| Load_Lockout.

Section Load.
Context `{DG : Digest} `{FS : Files}.

(** On Unix. *)
Definition check_permissions (path : bytes) : Result LoadError unit :=
  mode ← ok_or (file_mode path) Load_NoPermissions;
  guard_or (Z.land mode 63 =? 0) (Load_Mode mode).

Definition load_file (path : bytes) : Result LoadError Table :=
  s ← ok_or (read_file path ≫= utf8_decode) Load_Unreadable;
  _ ← check_permissions path;
  map_err Load_Line (parse s).

Definition env_table (secret : bytes) : Result LoadError Table :=
  _ ← guard_or (MIN_SECRET_LEN <=? len secret) (Load_ShortSecret (len secret));
  Ok {[ DEFAULT_NAME := bare (sha256 secret) None ]}.

Definition load_table (has_file : bool) (path : bytes) (from_env : option bytes) : Result LoadError Table :=
  match has_file, from_env with
  | true, Some _ => Err Load_BothSources
  | true, None => load_file path
  | false, Some secret => env_table secret
  | false, None => Ok ∅
  end.

Definition Auth_load (config : AuthConfig) (from_env : option bytes) : Result LoadError Auth :=
  let has_file := negb (bool_decide (ac_file config = [])) in
  default_roles ← map_err Load_DefaultRoles (parse_default (ac_default_roles config));
  table ← load_table has_file (ac_file config) from_env;
  let table := resolve_defaults table default_roles in
  _ ← guard_or (negb (ac_required config) || negb (bool_decide (table = ∅))) Load_Lockout;
  Ok (mkAuth (ac_required config) table).

(** ** The live table *)

Record Limits := mkLimits { lim_timeout : Z; lim_max_attempts : Z; lim_max_connections : Z }.

(** [AuthState]: the table and the mirror of whether it is enforced. *)
Record AuthState := mkAuthState { as_required : bool; as_current : Auth; as_limits : Limits }.

Definition AuthState_new (auth : Auth) (limits : Limits) : AuthState :=
  mkAuthState (au_required auth) auth limits.

Definition auth_replace (s : AuthState) (auth : Auth) : AuthState :=
  mkAuthState (au_required auth) auth (as_limits s).

(** [refusal] as it is asked: of the mirror. *)
Definition state_refusal (s : AuthState) (conn : ConnAuth) (needed : Roles) : option Refused :=
  match ca_identity conn with
  | None => if as_required s then Some Refused_Unauthenticated else None
  | Some identity =>
      if allows (id_roles identity) needed then None
      else Some (Refused_Missing (missing_roles (id_roles identity) needed))
  end.

(** The task [SIGHUP] wakes, and whether it still runs.  A panic in it stops the
    task; under the release profile, which aborts, the server stops with it. *)
Record Reload := mkReload { re_state : AuthState; re_running : bool }.

Definition reload (config : AuthConfig) (from_env : option bytes) (r : Reload) : Reload :=
  if negb (re_running r) then r
  else
    match Auth_load config from_env with
    | Ok reloaded => mkReload (auth_replace (re_state r) reloaded) true
    | Err _ => r
    | Panic _ => mkReload (re_state r) false
    end.

(** ** Looking rows up *)

Definition configured (a : Auth) : bool := negb (bool_decide (au_table a = ∅)).

Definition roles_of (a : Auth) (name : bytes) : option Roles := cr_roles <$> au_table a !! name.

(** ** Generating a row *)

Inductive GenerateError : Type := Gen_Name (e : RowError) | Gen_Roles (e : RolesError) | Gen_Random.

(** [entropy] is what the system's random source put into the 32 bytes. *)
Definition generate (name : text) (roles : option text) (entropy : option bytes) :
    Result GenerateError (text * text) :=
  _ ← map_err Gen_Name (validate_name name);
  roles ← match roles with
          | None => Ok None
          | Some list => Some <$> map_err Gen_Roles (parse_list list)
          end;
  secret ← ok_or entropy Gen_Random;
  let secret := hex secret in
  let line := name ++ txt "  sha256:" ++ hex (sha256 (utf8_encode secret)) in
  Ok (secret, match roles with Some r => line ++ txt "  roles=" ++ to_names r | None => line end).

End Load.

(** ** Certificates *)

Inductive CertificateMatch : Type :=
| Certificate_None
| Certificate_One (identity : Identity)
| Certificate_Ambiguous (rows : list bytes).

Definition name_le (a b : bytes) : Prop := lex_le a b = true.

#[global] Instance name_le_dec a b : Decision (name_le a b).
Proof. unfold name_le. apply _. Defined.

(** The loop over the table, in the order its hash map has them: whom it found
    first, and once there is a second one, the names of all. *)
Fixpoint certificate_loop (matches : bytes -> bool) (rows : list (bytes * Credential))
    (found : option Identity) (ambiguous : list bytes) : option Identity * list bytes :=
  match rows with
  | [] => (found, ambiguous)
  | (name, credential) :: rows' =>
      match cr_subject credential with
      | None => certificate_loop matches rows' found ambiguous
      | Some subject =>
          if negb (matches subject) then certificate_loop matches rows' found ambiguous
          else
            let identity := mkIdentity name (cr_roles credential) in
            match found with
            | None => certificate_loop matches rows' (Some identity) ambiguous
            | Some first =>
                let ambiguous := if bool_decide (ambiguous = []) then [id_name first] else ambiguous in
                certificate_loop matches rows' found (ambiguous ++ [id_name identity])
            end
      end
  end.

Definition identity_for_certificate (rows : list (bytes * Credential)) (matches : bytes -> bool) : CertificateMatch :=
  match certificate_loop matches rows None [] with
  | (None, _) => Certificate_None
  | (Some identity, ambiguous) =>
      if negb (bool_decide (ambiguous = [])) then Certificate_Ambiguous (merge_sort name_le ambiguous)
      else Certificate_One identity
  end.

Definition mtls_subjects (rows : list (bytes * Credential)) : list (bytes * bytes) :=
  omap (fun '(name, c) => subject ← cr_subject c; Some (name, subject)) rows.

(** [tls::check_subjects]; [server_name] says what a certificate could carry. *)
Definition check_subjects (server_name : bytes -> bool) (rows : list (bytes * Credential)) : Result (bytes * bytes) unit :=
  match list_find (fun row => server_name row.2 = false) (mtls_subjects rows) with
  | Some (_, row) => Err row
  | None => Ok ()
  end.

(** [tls::identity_for]: [certificate] is what the X.509 library parsed, and
    [valid_for] asks it about one name. *)
Definition identity_for {Cert : Type} (server_name : bytes -> bool) (valid_for : Cert -> bytes -> bool)
    (rows : list (bytes * Credential)) (certificate : option Cert) : CertificateMatch :=
  match certificate with
  | None => Certificate_None
  | Some parsed => identity_for_certificate rows (fun subject => server_name subject && valid_for parsed subject)
  end.

(** [peer_identity]: [None] when no certificate was asked for; a refusal keeps
    the rows it names. *)
Definition peer_identity {Cert : Type} (server_name : bytes -> bool) (valid_for : Cert -> bytes -> bool)
    (rows : list (bytes * Credential)) (presented : option (option Cert)) : Result (list bytes) (option Identity) :=
  match presented with
  | None => Ok None
  | Some certificate =>
      match identity_for server_name valid_for rows certificate with
      | Certificate_One identity => Ok (Some identity)
      | Certificate_None => Err []
      | Certificate_Ambiguous names => Err names
      end
  end.

(** ** What a failed attempt logs *)

Definition ELLIPSIS : Z := 8230.

Definition log_name (name : bytes) : text :=
  let head := take (Z.to_nat (Z.min (len name) MAX_NAME_LEN)) name in
  let rendered := from_utf8_lossy head in
  if MAX_NAME_LEN <? len name then rendered ++ [ELLIPSIS] else rendered.

(** ** The peer credential: [config.rs], [ClusterConfig::credential_from], and
    [lib.rs], [check_peer_role] *)

Inductive PeerError : Type := Peer_BothSources | Peer_EmptySecret | Peer_LacksRole (roles : Roles).

Definition credential_from (auth_name auth_secret : text) (from_env : option bytes) :
    Result PeerError (option (text * text)) :=
  let named secret := Ok (Some (if bool_decide (auth_name = []) then byte_val <$> DEFAULT_NAME else auth_name, secret)) in
  match bool_decide (auth_secret = []), from_env with
  | false, Some _ => Err Peer_BothSources
  | false, None => named auth_secret
  | true, Some secret =>
      let secret := from_utf8_lossy secret in
      _ ← guard_or (negb (bool_decide (secret = []))) Peer_EmptySecret; named secret
  | true, None => Ok None
  end.

Definition check_peer_role (has_peers : bool) (credential : Result PeerError (option (text * text))) (credentials : Auth) :
    Result PeerError unit :=
  if negb has_peers then Ok ()
  else
    credential ← credential;
    match credential with
    | None => Ok ()
    | Some (name, _) =>
        match roles_of credentials (utf8_encode name) with
        | None => Ok ()
        | Some roles => guard_or (allows roles Roles_PEER) (Peer_LacksRole roles)
        end
    end.
