(* ===== verification/AuthFileSpec.v ===== *)
(** Reading the credential file: a file is taken whole, exactly as its grammar
    reads it, or refused at its first line that is wrong.  The grammar is the
    relation [Row]; [Rows] and [FirstWrong] lift it to files. *)

From S2P Require Import Prelude Bytes Text Core Record Glob Clock Arith Float Command Vcp Auth AuthFile.

(** ** Splitting *)

Definition plain_char (c : Z) : bool := negb (is_whitespace c).

Lemma fields_from_word w field rest :
  forallb plain_char w = true -> fields_from field (w ++ rest) = fields_from (field ++ w) rest.
Proof.
  revert field. induction w as [|c w IH]; intros field H; simpl; [by rewrite app_nil_r|].
  simpl in H. apply andb_true_iff in H as [Hc H]. unfold plain_char in Hc.
  rewrite (proj1 (negb_true_iff _) Hc), IH by done. by rewrite <- app_assoc.
Qed.

(** A word, spaces, and what follows. *)
Lemma fields_word w c rest :
  w <> [] -> forallb plain_char w = true -> is_whitespace c = true ->
  split_whitespace (w ++ c :: rest) = w :: split_whitespace rest.
Proof.
  intros Hw Hp Hc. unfold split_whitespace. rewrite fields_from_word by done. simpl.
  rewrite Hc, bool_decide_false by done. done.
Qed.

Lemma fields_space c rest : is_whitespace c = true -> split_whitespace (c :: rest) = split_whitespace rest.
Proof. intros Hc. unfold split_whitespace. simpl. by rewrite Hc. Qed.

Lemma fields_last w : w <> [] -> forallb plain_char w = true -> split_whitespace w = [w].
Proof.
  intros Hw Hp. unfold split_whitespace. rewrite <- (app_nil_r w), fields_from_word by done. simpl.
  rewrite !app_nil_r. by rewrite bool_decide_false.
Qed.

Lemma fields_from_plain field s :
  forallb plain_char field = true ->
  Forall (fun w => w <> [] /\ forallb plain_char w = true) (fields_from field s).
Proof.
  revert field. induction s as [|c s IH]; intros field Hf; simpl.
  - case_bool_decide; [done|]. by repeat constructor.
  - destruct (is_whitespace c) eqn:E.
    + case_bool_decide; [by apply IH|]. constructor; [done|by apply IH].
    + apply IH. rewrite forallb_app, Hf. simpl. unfold plain_char. by rewrite E.
Qed.

(** Fields are never empty and hold no whitespace: the check of an [mtls]
    subject for whitespace never fails. *)
Lemma split_whitespace_plain s :
  Forall (fun w => w <> [] /\ forallb plain_char w = true) (split_whitespace s).
Proof. by apply fields_from_plain. Qed.

Lemma split_once_app sep a b :
  sep ∉ a -> split_once sep (a ++ sep :: b) = Some (a, b).
Proof.
  induction a as [|c a IH]; simpl; intros H; [by rewrite Z.eqb_refl|].
  apply not_elem_of_cons in H as [Hc Ha]. rewrite (proj2 (Z.eqb_neq _ _)) by done.
  by rewrite IH.
Qed.

Lemma split_once_Some sep s a b :
  split_once sep s = Some (a, b) <-> s = a ++ sep :: b /\ sep ∉ a.
Proof.
  split; [|by intros [-> H]; apply split_once_app].
  revert a. induction s as [|c s IH]; simpl; intros a H; [done|].
  destruct (Z.eqb_spec c sep) as [->|Hc].
  - injection H as <- <-. split; [done|]. apply not_elem_of_nil.
  - destruct (split_once sep s) as [[a' b']|] eqn:E; simpl in H; [|done].
    injection H as <- <-. destruct (IH a' eq_refl) as [-> Ha]. split; [done|].
    apply not_elem_of_cons. by split.
Qed.

Lemma strip_prefix_app p s : strip_prefix p (p ++ s) = Some s.
Proof. unfold strip_prefix. rewrite take_length_app, bool_decide_true, drop_length_app by done. done. Qed.

Lemma strip_prefix_Some p s t : strip_prefix p s = Some t <-> s = p ++ t.
Proof.
  split; [|intros ->; apply strip_prefix_app]. unfold strip_prefix. case_bool_decide as H; [|done].
  intros [= <-]. rewrite <- H at 1. by rewrite take_drop.
Qed.

(** ** Bytes of a string *)

Lemma utf8_encode_app s t : utf8_encode (s ++ t) = utf8_encode s ++ utf8_encode t.
Proof. apply bind_app. Qed.

Definition ascii (s : text) : Prop := Forall (fun c => 0 <= c < 128) s.

Lemma utf8_encode_ascii s : ascii s -> utf8_encode s = byte_of <$> s.
Proof.
  induction 1 as [|c s Hc Hs IH]; [done|]. change (c :: s) with ([c] ++ s).
  rewrite utf8_encode_app, IH. unfold utf8_encode, utf8_encode_char. simpl.
  rewrite (proj2 (Z.ltb_lt _ _)) by lia. done.
Qed.

Lemma byte_of_chars s : ascii s -> byte_val <$> (byte_of <$> s) = s.
Proof.
  induction 1 as [|c s Hc Hs IH]; [done|]. simpl. rewrite byte_val_of, Z.mod_small by lia. by f_equal.
Qed.

Lemma utf8_ascii_trip s : ascii s -> utf8_decode (utf8_encode s) = Some s.
Proof.
  intros H. rewrite utf8_encode_ascii by done. rewrite utf8_decode_ascii; [by rewrite byte_of_chars|].
  apply Forall_fmap. eapply Forall_impl; [exact H|]. simpl. intros c Hc. rewrite byte_val_of, Z.mod_small; lia.
Qed.

(** The strict and the lossy reading agree where the strict one succeeds. *)
Lemma from_utf8_lossy_decode l s : utf8_decode l = Some s -> from_utf8_lossy l = s.
Proof.
  revert s. induction l as [l IH] using (induction_ltof1 _ (@length byte)). unfold ltof in IH. intros s H.
  destruct l as [|b0 l1]; [by injection H as <-|]. cbn [utf8_decode from_utf8_lossy] in *.
  cbv zeta in *. destruct (byte_val b0 <? 128).
  { destruct (utf8_decode l1) eqn:E; simpl in H; [|done]. injection H as <-. f_equal. apply IH; [simpl; lia|done]. }
  destruct l1 as [|b1 l2]; [done|]. destruct (in_range 194 223 b0) eqn:E2.
  { destruct (cont b1); [|done]. destruct (utf8_decode l2) eqn:E; simpl in H; [|done]. injection H as <-.
    f_equal. apply IH; [simpl; lia|done]. }
  destruct l2 as [|b2 l3]; [done|].
  assert (in_range 224 244 b0 = in_range 224 239 b0 || in_range 240 244 b0) as ->.
  { unfold in_range. destruct (Z.leb_spec 224 (byte_val b0)), (Z.leb_spec (byte_val b0) 244),
      (Z.leb_spec (byte_val b0) 239), (Z.leb_spec 240 (byte_val b0)); simpl; try done; lia. }
  destruct (in_range 224 239 b0) eqn:E3; simpl.
  { destruct (second_ok b0 b1); simpl in *; [|done]. destruct (cont b2); simpl in *; [|done].
    destruct (utf8_decode l3) eqn:E; simpl in H; [|done]. injection H as <-. f_equal. apply IH; [simpl; lia|done]. }
  destruct l3 as [|b3 l4]; [done|]. destruct (in_range 240 244 b0); simpl in *; [|done].
  destruct (second_ok b0 b1); simpl in *; [|done]. destruct (cont b2); simpl in *; [|done].
  destruct (cont b3); simpl in *; [|done].
  destruct (utf8_decode l4) eqn:E; simpl in H; [|done]. injection H as <-. f_equal. apply IH; [simpl; lia|done].
Qed.

(** ** Role names *)

Definition role_bits : list (Z * text) :=
  [(0, txt "read"); (1, txt "write"); (2, txt "invalidate"); (3, txt "list"); (4, txt "flush"); (5, txt "peer")].

Lemma from_name_bit name role :
  from_name name = Some role -> exists k, 0 <= k < 6 /\ role = 2 ^ k /\ (k, name) ∈ role_bits.
Proof.
  unfold from_name. intros H. destruct (list_find _ _) as [[i [r n]]|] eqn:E; [|done]. simpl in H. injection H as <-.
  apply list_find_Some in E as (Hi & <- & _). clear -Hi. unfold NAMED in Hi.
  do 6 (destruct i as [|i]; [injection Hi as <- <-; first
    [exists 0; split; [lia|split; [reflexivity|set_solver]] | exists 1; split; [lia|split; [reflexivity|set_solver]]
    |exists 2; split; [lia|split; [reflexivity|set_solver]] | exists 3; split; [lia|split; [reflexivity|set_solver]]
    |exists 4; split; [lia|split; [reflexivity|set_solver]] | exists 5; split; [lia|split; [reflexivity|set_solver]]]|]).
  done.
Qed.

(** The roles [parse_list] is given names for. *)
Definition Named (names : list text) (roles : list Roles) : Prop :=
  Forall2 (fun name role => from_name name = Some role) names roles.

Lemma parse_names_exact names acc r :
  parse_names acc names = Ok r <->
  exists roles, Named names roles /\ NoDup roles /\ (forall x, x ∈ roles -> allows acc x = false)
                /\ r = foldl union_roles acc roles.
Proof.
  revert acc. induction names as [|name names IH]; intros acc; cbn [parse_names].
  - split.
    + intros [= <-]. exists []. conjs; [constructor|constructor| |done]. intros x Hx. by apply elem_of_nil in Hx.
    + intros (roles & H & _ & _ & ->). inversion H; subst. done.
  - split.
    + intros H. inv_ok. destruct (allows acc a) eqn:Ea; simpl in Ha0; [done|].
      apply IH in H as (roles & HN & Hd & Hx & ->). exists (a :: roles).
      destruct (from_name_bit _ _ Ha) as (k & Hk & -> & _).
      conjs; [by constructor| | |done].
      * constructor; [|done]. intros Hin. specialize (Hx _ Hin).
        rewrite allows_bit in Hx by lia. unfold union_roles in Hx.
        by rewrite Z.lor_spec, Z.pow2_bits_true, orb_true_r in Hx by lia.
      * intros x [->|Hin]%elem_of_cons; [done|]. specialize (Hx x Hin).
        apply list_elem_of_lookup in Hin as [i Hi].
        destruct (Forall2_lookup_r _ _ _ _ _ HN Hi) as (n & _ & Hn).
        destruct (from_name_bit _ _ Hn) as (j & Hj & -> & _).
        rewrite allows_bit in * by lia. unfold union_roles in Hx. rewrite Z.lor_spec in Hx.
        by apply orb_false_iff in Hx as [? _].
    + intros (roles & HN & Hd & Hx & ->). inversion HN as [|? role ? roles' Hn HN']; subst. rewrite Hn. simpl.
      rewrite (Hx role) by set_solver. simpl. apply IH. exists roles'. apply NoDup_cons in Hd as [Hnin Hd].
      conjs; [done|done| |done]. intros x Hin.
      apply list_elem_of_lookup in Hin as Hi. destruct Hi as [i Hi].
      destruct (Forall2_lookup_r _ _ _ _ _ HN' Hi) as (n & _ & Hnx).
      destruct (from_name_bit _ _ Hnx) as (j & Hj & -> & _). destruct (from_name_bit _ _ Hn) as (k & Hk & -> & _).
      assert (allows acc (2 ^ j) = false) as Ha by (apply Hx; set_solver).
      rewrite allows_bit in * by lia. unfold union_roles. rewrite Z.lor_spec, Ha, Z.pow2_bits_eqb by lia. simpl.
      apply Z.eqb_neq. intros ->. done.
Qed.

(** A role list is taken exactly when it names known roles, each once; it then
    grants those and no others. *)
Lemma parse_list_exact list r :
  parse_list list = Ok r <->
  list <> [] /\ exists roles, Named (split COMMA list) roles /\ NoDup roles /\ r = foldl union_roles Roles_NONE roles.
Proof.
  unfold parse_list. case_bool_decide as E; simpl; [naive_solver|]. rewrite parse_names_exact. split.
  - intros (roles & ? & ? & _ & ?). eauto.
  - intros (_ & roles & HN & ? & ?). exists roles. conjs; try done. intros x Hin.
    apply list_elem_of_lookup in Hin as [i Hi]. destruct (Forall2_lookup_r _ _ _ _ _ HN Hi) as (n & _ & Hn).
    destruct (from_name_bit _ _ Hn) as (k & Hk & -> & _). rewrite allows_bit by lia. apply Z.bits_0.
Qed.

Lemma union_fold_range roles names acc :
  Named names roles -> 0 <= acc < 64 ->
  0 <= foldl union_roles acc roles < 64 /\ (acc <> 0 \/ roles <> [] -> foldl union_roles acc roles <> 0).
Proof.
  intros HN. revert acc. induction HN as [|name role names roles Hn HN IH]; intros acc Ha; simpl; [split; [lia|naive_solver]|].
  destruct (from_name_bit _ _ Hn) as (k & Hk & -> & _).
  assert (0 <= union_roles acc (2 ^ k) < 64) as Hr.
  { unfold union_roles. split; [apply Z.lor_nonneg; lia|].
    change 64 with (2 ^ 6). apply Z.log2_lt_cancel. rewrite Z.log2_lor, (Z.log2_pow2 6), Z.log2_pow2 by lia.
    destruct (Z.eq_dec acc 0) as [->|]; [simpl; lia|].
    assert (Z.log2 acc < 6) by (apply Z.log2_lt_pow2; lia). lia. }
  destruct (IH _ Hr) as [H1 H2]. split; [done|]. intros _. apply H2. left.
  intros H0. apply (f_equal (fun z => Z.testbit z k)) in H0. unfold union_roles in H0.
  by rewrite Z.lor_spec, Z.pow2_bits_true, orb_true_r, Z.bits_0 in H0 by lia.
Qed.

Lemma split_from_cons sep piece s : split_from sep piece s <> [].
Proof. revert piece. induction s as [|c s IH]; intros piece; simpl; [done|]. by case_match. Qed.

Lemma parse_list_range list r : parse_list list = Ok r -> 0 < r < 64.
Proof.
  intros (Hne & roles & HN & _ & ->)%parse_list_exact.
  destruct (union_fold_range roles _ Roles_NONE HN ltac:(unfold Roles_NONE; lia)) as [H1 H2].
  assert (foldl union_roles Roles_NONE roles <> 0); [|lia]. apply H2. right. intros ->.
  apply Forall2_nil_inv_r in HN. by apply split_from_cons in HN.
Qed.

Lemma to_names_trip : forallb (fun r => bool_decide (result_ok (parse_list (to_names r)) = Some r)
                                      && forallb plain_char (to_names r) && negb (bool_decide (to_names r = [])))
                       (seqZ 1 63) = true.
Proof. vm_compute. reflexivity. Qed.

(** What [to_names] prints, [parse_list] reads. *)
Lemma parse_list_to_names r :
  0 < r < 64 -> parse_list (to_names r) = Ok r /\ forallb plain_char (to_names r) = true /\ to_names r <> [].
Proof.
  intros Hr. pose proof to_names_trip as H. rewrite forallb_forall in H.
  specialize (H r). rewrite <- list_elem_of_In, elem_of_seqZ in H. specialize (H ltac:(lia)).
  apply andb_true_iff in H as [H H3]. apply andb_true_iff in H as [H1 H2].
  apply bool_decide_eq_true in H1. apply negb_true_iff, bool_decide_eq_false in H3.
  destruct (parse_list (to_names r)); simpl in H1; [|done|done]. by injection H1 as ->.
Qed.

(** ** Hexadecimal values *)

Definition lower_digit (b : byte) : option Z := if is_ascii_uppercase b then None else to_digit16 b.

(** The pairs of bytes read as one: two lower-case digits, or, since that is
    what the standard library takes, a plus sign and one. *)
Definition hex_pair (a b : byte) : option Z :=
  l ← lower_digit b;
  if bool_decide (a = Byte.x2b) then Some l else h ← lower_digit a; Some (h * 16 + l).

Inductive HexBytes : bytes -> bytes -> Prop :=
| HexBytes_nil : HexBytes [] []
| HexBytes_cons a b v s out : hex_pair a b = Some v -> HexBytes s out -> HexBytes (a :: b :: s) (byte_of v :: out).

Definition all_bytes : list byte := byte_of <$> seqZ 0 256.

Lemma all_bytes_in b : b ∈ all_bytes.
Proof.
  unfold all_bytes. apply list_elem_of_fmap. exists (byte_val b). split; [by rewrite byte_of_val|].
  apply elem_of_seqZ. pose proof (byte_val_range b). lia.
Qed.

Lemma byte_cases (f : byte -> bool) : forallb f all_bytes = true -> forall b, f b = true.
Proof. rewrite forallb_forall. intros H b. apply H. rewrite <- list_elem_of_In. apply all_bytes_in. Qed.

Definition pair_read (pair : bytes) : option Z :=
  if existsb is_ascii_uppercase pair then None else u8_from_hex pair.

Lemma pair_cases (f : byte -> byte -> bool) :
  forallb (fun a => forallb (f a) all_bytes) all_bytes = true -> forall a b, f a b = true.
Proof. intros H a b. exact (byte_cases _ (byte_cases _ H a) b). Qed.

Lemma pair_read_cases a b : bool_decide (pair_read [a; b] = hex_pair a b) = true.
Proof. revert a b. apply pair_cases. vm_compute. reflexivity. Qed.

Lemma pair_read_hex a b : pair_read [a; b] = hex_pair a b.
Proof. exact (bool_decide_eq_true_1 _ (pair_read_cases a b)). Qed.

Lemma hex_pair_cases a b :
  match hex_pair a b with Some v => (0 <=? v) && (v <? 256) && (negb (cont a) && negb (cont b)) | None => true end = true.
Proof. revert a b. apply pair_cases. vm_compute. reflexivity. Qed.

(** Both bytes of such a pair are ASCII, so no pair splits a character. *)
Lemma hex_pair_boundary a b v : hex_pair a b = Some v -> cont a = false /\ cont b = false.
Proof.
  intros E. pose proof (hex_pair_cases a b) as H. rewrite E in H.
  apply andb_true_iff in H as [_ H]. apply andb_true_iff in H as [H1 H2].
  split; by apply negb_true_iff.
Qed.

(** A slice taken where it may be is the bytes there. *)
Lemma str_slice_ok {E} (s : bytes) i j p : str_slice (E := E) s i j = Ok p -> p = slice_of s i j.
Proof. unfold str_slice. case_match; naive_solver. Qed.

Lemma slice_pair (pre : bytes) a b rest i :
  length pre = (i * 2)%nat -> slice_of (pre ++ a :: b :: rest) (i * 2) (i * 2 + 2) = [a; b].
Proof.
  intros Hp. unfold slice_of. rewrite drop_app_exact by done. by replace (i * 2 + 2 - i * 2)%nat with 2%nat by lia.
Qed.

Lemma hex_pair_slice {E} (pre : bytes) a b rest i v :
  length pre = (i * 2)%nat -> hex_pair a b = Some v -> (rest = [] \/ exists c r, rest = c :: r /\ cont c = false) ->
  str_slice (E := E) (pre ++ a :: b :: rest) (i * 2) (i * 2 + 2) = Ok [a; b].
Proof.
  intros Hp Hv Hr. destruct (hex_pair_boundary _ _ _ Hv) as [Ha _]. unfold str_slice.
  rewrite slice_pair by done. rewrite (proj2 (Nat.leb_le _ _)) by lia.
  assert (char_boundary (pre ++ a :: b :: rest) (i * 2) = true) as ->.
  { unfold char_boundary. rewrite lookup_app_r, Hp by lia. rewrite Nat.sub_diag. simpl. rewrite Ha. apply orb_true_r. }
  assert (char_boundary (pre ++ a :: b :: rest) (i * 2 + 2) = true) as ->; [|done].
  unfold char_boundary. rewrite lookup_app_r, Hp by lia.
  replace (i * 2 + 2 - i * 2)%nat with 2%nat by lia. destruct Hr as [->|(c & r & -> & Hc)]; simpl.
  - rewrite length_app, Hp. simpl. rewrite Nat.eqb_refl. apply orb_true_r.
  - rewrite Hc. apply orb_true_r.
Qed.

Lemma HexBytes_head s out : HexBytes s out -> s = [] \/ exists c r, s = c :: r /\ cont c = false.
Proof. intros [|a b v s' out' Hv _]; [by left|right]. destruct (hex_pair_boundary _ _ _ Hv). eauto. Qed.

Lemma hex_loop_exact n pre rest i out :
  length pre = (i * 2)%nat -> length rest = (n * 2)%nat ->
  hex_loop (pre ++ rest) i n = Ok out <-> HexBytes rest out.
Proof.
  revert pre rest i out. induction n as [|n IH]; intros pre rest i out Hp Hr; cbn [hex_loop].
  { destruct rest; [|done]. split; [intros [= <-]; constructor|]. by inversion 1. }
  destruct rest as [|a [|b rest]]; try (simpl in Hr; lia). simpl in Hr.
  assert (pre ++ a :: b :: rest = (pre ++ [a; b]) ++ rest) as Hs by by rewrite <- app_assoc.
  assert (length (pre ++ [a; b]) = (S i * 2)%nat) as Hp' by (rewrite length_app; simpl; lia).
  split.
  - intros H. inv_ok. apply str_slice_ok in Ha. rewrite slice_pair in Ha by done. subst a0.
    unfold guard_or in Ha0. destruct (existsb is_ascii_uppercase [a; b]) eqn:Eu; simpl in Ha0; [done|].
    rewrite Hs in Ha2. apply IH in Ha2; [|done|lia].
    constructor; [|done]. rewrite <- pair_read_hex. unfold pair_read. by rewrite Eu.
  - intros H. inversion H as [|? ? v ? out' Hv H']; subst.
    rewrite (hex_pair_slice _ _ _ _ _ v), bind_ok by (try done; by eapply HexBytes_head).
    pose proof (pair_read_hex a b) as Hq. rewrite Hv in Hq. unfold pair_read in Hq.
    destruct (existsb is_ascii_uppercase [a; b]) eqn:Eu; [done|]. cbn [negb guard_or].
    rewrite bind_ok, Hq. cbn [ok_or]. rewrite bind_ok, Hs. by rewrite (proj2 (IH (pre ++ [a; b]) rest (S i) out' Hp' ltac:(lia)) H').
Qed.

Lemma HexBytes_length s out : HexBytes s out -> length s = (length out * 2)%nat.
Proof. induction 1; simpl; lia. Qed.

Lemma parse_hex32_exact value out :
  parse_hex32 value = Ok out <-> HexBytes (utf8_encode value) out /\ length out = 32%nat.
Proof.
  unfold parse_hex32. cbv zeta. split.
  - intros H. inv_ok. unfold guard_or in Ha. destruct (Z.eqb_spec (len (utf8_encode value)) 64) as [Hl|]; [|done].
    unfold len in Hl. apply (hex_loop_exact 32 [] (utf8_encode value) 0 out eq_refl ltac:(lia)) in H.
    split; [done|]. apply HexBytes_length in H. lia.
  - intros [H Hl]. pose proof (HexBytes_length _ _ H) as Hlen. unfold len.
    rewrite (proj2 (Z.eqb_eq _ _)) by lia. cbn [guard_or]. rewrite bind_ok.
    by apply (hex_loop_exact 32 [] (utf8_encode value) 0 out eq_refl ltac:(lia)).
Qed.

(** Sixty-four hexadecimal digits of ours read back as the bytes. *)
Lemma hex_char_cases b :
  bool_decide (hex_pair (byte_of (hex_char (byte_val b / 16))) (byte_of (hex_char (byte_val b mod 16))) = Some (byte_val b))
  && forallb (fun c => (0 <=? c) && (c <? 128) && plain_char c) [hex_char (byte_val b / 16); hex_char (byte_val b mod 16)]
  = true.
Proof. revert b. apply byte_cases. vm_compute. reflexivity. Qed.

Lemma hex_chars value :
  Forall (fun c => (0 <= c < 128) /\ plain_char c = true) (hex value)
  /\ HexBytes (utf8_encode (hex value)) value.
Proof.
  assert (forall b, Forall (fun c => (0 <= c < 128) /\ plain_char c = true)
            [hex_char (byte_val b / 16); hex_char (byte_val b mod 16)]
          /\ hex_pair (byte_of (hex_char (byte_val b / 16))) (byte_of (hex_char (byte_val b mod 16))) = Some (byte_val b)) as Hb.
  { intros b. pose proof (hex_char_cases b) as H. apply andb_true_iff in H as [H1 H2]. apply bool_decide_eq_true in H1.
    split; [|exact H1]. rewrite forallb_forall in H2. apply Forall_forall. intros c Hc. rewrite list_elem_of_In in Hc.
    specialize (H2 c Hc). apply andb_true_iff in H2 as [H2 H3]. split; [lia|exact H3]. }
  induction value as [|b value [IH1 IH2]]; [split; constructor|]. destruct (Hb b) as [H1 H2].
  change (hex (b :: value)) with ([hex_char (byte_val b / 16); hex_char (byte_val b mod 16)] ++ hex value).
  split; [by apply Forall_app|]. rewrite utf8_encode_app, (utf8_encode_ascii [_; _]).
  - cbn [fmap list_fmap app]. rewrite <- (byte_of_val b) at 3. by constructor.
  - eapply Forall_impl; [exact H1|]. by intros c [? _].
Qed.

(** ** The grammar of a row *)

Definition NameOk (name : text) : Prop := 1 <= len name <= MAX_NAME_LEN /\ forallb name_char name = true.

Inductive AlgorithmValue : text -> Credential -> Prop :=
| Value_sha256 value digest :
    HexBytes (utf8_encode value) digest -> length digest = 32%nat ->
    AlgorithmValue (txt "sha256:" ++ value) (bare digest None)
| Value_mtls subject :
    subject <> [] -> forallb plain_char subject = true ->
    AlgorithmValue (txt "mtls:" ++ subject) (bare (replicate 32 Byte.x00) (Some (utf8_encode subject))).

Inductive Trailing : list text -> option Roles -> Prop :=
| Trailing_none : Trailing [] None
| Trailing_roles list roles : parse_list list = Ok roles -> Trailing [txt "roles=" ++ list] (Some roles).

Inductive Row : text -> text -> Credential -> Prop :=
| Row_intro line name field trailing credential roles :
    split_whitespace line = name :: field :: trailing -> NameOk name -> AlgorithmValue field credential ->
    Trailing trailing roles -> Row line name (with_roles roles credential).

Lemma name_char_plain c : name_char c = true -> 0 <= c < 128 /\ plain_char c = true /\ c <> 35.
Proof.
  unfold name_char, plain_char, is_whitespace. rewrite !orb_true_iff, !andb_true_iff, !Z.leb_le, !Z.eqb_eq.
  intros H. conjs; [lia|lia| |lia]. apply negb_true_iff.
  rewrite !orb_false_iff, !andb_false_iff, !Z.leb_gt, !Z.eqb_neq. lia.
Qed.

Lemma name_ascii name : forallb name_char name = true -> ascii name.
Proof.
  rewrite forallb_forall. intros H. apply Forall_forall. intros c Hc. rewrite list_elem_of_In in Hc.
  by apply name_char_plain, H.
Qed.

Lemma utf8_encode_length_ge s : len s <= len (utf8_encode s).
Proof.
  unfold len. induction s as [|c s IH]; [simpl; lia|]. change (c :: s) with ([c] ++ s).
  rewrite utf8_encode_app, !length_app. unfold utf8_encode at 1. simpl. rewrite app_nil_r.
  assert (1 <= length (utf8_encode_char c))%nat by (unfold utf8_encode_char; repeat case_match; simpl; lia). lia.
Qed.

Lemma ascii_length s : ascii s -> len (utf8_encode s) = len s.
Proof. intros H. unfold len. by rewrite utf8_encode_ascii, length_fmap. Qed.

Lemma forallb_find (P : Z -> bool) l : list_find (fun c => P c = false) l = None <-> forallb P l = true.
Proof.
  rewrite list_find_None, Forall_forall, forallb_forall. setoid_rewrite list_elem_of_In.
  split; intros H c Hc; specialize (H c Hc); by destruct (P c).
Qed.

Lemma validate_name_exact name : validate_name name = Ok () <-> NameOk name.
Proof.
  unfold validate_name. cbv zeta. unfold NameOk. split.
  - intros H. inv_ok. destruct (list_find _ name) as [[? ?]|] eqn:E; [done|]. apply forallb_find in E.
    split; [|done]. rewrite <- ascii_length by by apply name_ascii.
    unfold guard_or in Ha. destruct ((1 <=? _) && _) eqn:Eb; [|done]. lia.
  - intros [Hl Hc]. rewrite ascii_length by by apply name_ascii.
    replace ((1 <=? len name) && (len name <=? MAX_NAME_LEN)) with true by lia. simpl.
    by rewrite (proj2 (forallb_find _ _) Hc).
Qed.

Lemma trailing_exact fields roles : trailing_fields None fields = Ok roles <-> Trailing fields roles.
Proof.
  destruct fields as [|f [|g fields]]; cbn [trailing_fields].
  - split; [intros [= <-]; constructor|]. by inversion 1.
  - split.
    + intros H. inv_ok. apply strip_prefix_Some in Ha as ->. destruct (parse_list a) eqn:E; simpl in Ha1; [|done|done].
      injection Ha1 as <-. by constructor.
    + inversion 1 as [|list r Hr]; subst.
      match goal with |- context [strip_prefix _ ?x] => rewrite (proj2 (strip_prefix_Some (txt "roles=") x list) eq_refl) end.
      simpl. by rewrite Hr.
  - split; [|by inversion 1]. intros H. inv_ok. unfold guard_or in Ha3. by rewrite bool_decide_false in Ha3.
Qed.

Lemma field_split (algorithm : text) value :
  COLON ∉ algorithm -> split_once COLON (algorithm ++ [COLON] ++ value) = Some (algorithm, value).
Proof. apply split_once_app. Qed.

Lemma existsb_plain s : existsb is_whitespace s = false <-> forallb plain_char s = true.
Proof.
  unfold plain_char. induction s as [|c s IH]; simpl; [done|].
  rewrite orb_false_iff, andb_true_iff, negb_true_iff, IH. done.
Qed.

Lemma parse_credential_exact field c : parse_credential field = Ok c <-> AlgorithmValue field c.
Proof.
  unfold parse_credential. split.
  - intros H. inv_ok. destruct a0 as [algorithm value]. apply split_once_Some in Ha0 as [-> Hc].
    case_bool_decide as E1; [subst|case_bool_decide as E2; [subst|]].
    + inv_ok. apply parse_hex32_exact in Ha0 as [? ?]. by apply (Value_sha256 value).
    + inv_ok. unfold guard_or in Ha0, Ha1. case_bool_decide; [done|].
      destruct (existsb _ _) eqn:E; [done|]. apply existsb_plain in E. by apply (Value_mtls value).
    + case_bool_decide; inv_ok.
  - intros [value digest Hh Hl|subject Hn Hp].
    + rewrite bool_decide_false by done. cbn [negb guard_or]. rewrite bind_ok.
      change (txt "sha256:" ++ value) with (txt "sha256" ++ [COLON] ++ value).
      rewrite (field_split (txt "sha256") value) by (intros Hin; vm_compute in Hin; set_solver).
      cbn [ok_or]. rewrite bind_ok, bool_decide_true by done.
      by rewrite (proj2 (parse_hex32_exact value digest)) by done.
    + rewrite bool_decide_false by done. cbn [negb guard_or]. rewrite bind_ok.
      change (txt "mtls:" ++ subject) with (txt "mtls" ++ [COLON] ++ subject).
      rewrite (field_split (txt "mtls") subject) by (intros Hin; vm_compute in Hin; set_solver).
      cbn [ok_or]. rewrite bind_ok, bool_decide_false, bool_decide_true by done.
      rewrite bool_decide_false by done. cbn [negb guard_or]. rewrite bind_ok.
      by rewrite (proj2 (existsb_plain _)) by done.
Qed.

Lemma parse_row_exact line name c : parse_row line = Ok (name, c) <-> Row line name c.
Proof.
  unfold parse_row. split.
  - destruct (split_whitespace line) as [|n [|f t]] eqn:E; simpl; [done|done|]. intros H. inv_ok.
    apply trailing_exact in Ha. destruct a0. apply validate_name_exact in Ha0.
    apply parse_credential_exact in Ha1. by econstructor.
  - intros [? name' field trailing c' roles Hs Hn Hv Ht]. rewrite Hs. simpl.
    apply trailing_exact in Ht as ->. apply validate_name_exact in Hn as Hn'. simpl. rewrite Hn'. simpl.
    by apply parse_credential_exact in Hv as ->.
Qed.

(** ** The file *)

(** The lines that are neither blank nor comments, trimmed and numbered. *)
Fixpoint significant_from (index : Z) (raws : list text) : list (Z * text) :=
  match raws with
  | [] => []
  | raw :: raws' =>
      if skipped (trim raw) then significant_from (index + 1) raws'
      else (index + 1, trim raw) :: significant_from (index + 1) raws'
  end.

Definition significant (s : text) : list (Z * text) := significant_from 0 (lines s).

Definition entry (row : text * Credential) : bytes * Credential := (utf8_encode row.1, row.2).

(** What each of the lines says, no name twice. *)
Definition Rows (numbered : list (Z * text)) (rows : list (text * Credential)) : Prop :=
  Forall2 (fun l row => Row l.2 row.1 row.2) numbered rows /\ NoDup (entry <$> rows).*1.

(** The first line that is wrong, and what is wrong with it. *)
Definition FirstWrong (numbered : list (Z * text)) (e : LineError) : Prop :=
  exists before after rows,
    numbered = before ++ (le_line e, le_text e) :: after /\ Rows before rows
    /\ (parse_row (le_text e) = Err (le_row e)
        \/ exists name c, Row (le_text e) name c /\ utf8_encode name ∈ (entry <$> rows).*1
                          /\ le_row e = Row_Duplicate name).

Fixpoint parse_numbered (numbered : list (Z * text)) (table : Table) : Result LineError Table :=
  match numbered with
  | [] => Ok table
  | (n, line) :: numbered' =>
      table ← map_err (mkLineError n line) (parse_line line table); parse_numbered numbered' table
  end.

Lemma parse_lines_numbered index raws table :
  parse_lines index raws table = parse_numbered (significant_from index raws) table.
Proof.
  revert index table. induction raws as [|raw raws IH]; intros index table; [done|].
  cbn [parse_lines significant_from]. cbv zeta. destruct (skipped (trim raw)); [apply IH|]. cbn [parse_numbered].
  destruct (map_err _ _); simpl; [apply IH|done|done].
Qed.

Lemma parse_line_exact line table table' :
  parse_line line table = Ok table' <->
  exists name c, Row line name c /\ table !! utf8_encode name = None /\ table' = <[utf8_encode name := c]> table.
Proof.
  unfold parse_line. split.
  - intros H. inv_ok. destruct a as [name c]. apply parse_row_exact in Ha. destruct (table !! _) eqn:E; [done|].
    injection H as <-. eauto.
  - intros (name & c & H & Hn & ->). apply parse_row_exact in H as ->. simpl. by rewrite Hn.
Qed.

Lemma parse_line_error line table e :
  parse_line line table = Err e <->
  parse_row line = Err e
  \/ exists name c, Row line name c /\ is_Some (table !! utf8_encode name) /\ e = Row_Duplicate name.
Proof.
  unfold parse_line. split.
  - destruct (parse_row line) as [[name c]|e'|] eqn:E; simpl; [|intros [= <-]; by left|done].
    apply parse_row_exact in E. destruct (table !! _) eqn:El; [|done]. intros [= <-]. right. eauto 10.
  - intros [->|(name & c & H & [x Hx] & ->)]; [done|]. apply parse_row_exact in H as ->. simpl. by rewrite Hx.
Qed.

(** The rows read in the order of the file, on top of what is there. *)
Definition with_rows (table : Table) (rows : list (text * Credential)) : Table :=
  foldl (fun t row => <[utf8_encode row.1 := row.2]> t) table rows.

Definition Fresh (table : Table) (rows : list (text * Credential)) : Prop :=
  forall name, name ∈ (entry <$> rows).*1 -> table !! name = None.

Lemma fresh_cons table row rows :
  NoDup (entry <$> row :: rows).*1 ->
  Fresh table (row :: rows) <->
  table !! utf8_encode row.1 = None /\ Fresh (<[utf8_encode row.1 := row.2]> table) rows.
Proof.
  intros Hd. apply NoDup_cons in Hd as [Hn _]. split.
  - intros H. split; [apply H; left|]. intros name Hin. rewrite lookup_insert_ne by (intros <-; done). apply H. by right.
  - intros [H1 H2] name Hin. apply elem_of_cons in Hin as [->|Hin]; [done|].
    specialize (H2 name Hin). by apply lookup_insert_None in H2 as [? _].
Qed.

Lemma parse_numbered_ok numbered table table' :
  parse_numbered numbered table = Ok table' <->
  exists rows, Rows numbered rows /\ Fresh table rows /\ table' = with_rows table rows.
Proof.
  revert table. induction numbered as [|[n line] numbered IH]; intros table; cbn [parse_numbered].
  - split.
    + intros [= <-]. exists []. conjs; [split; constructor|by intros ? ?%elem_of_nil|done].
    + intros (rows & [H _] & _ & ->). by inversion H.
  - split.
    + intros H. inv_ok. destruct (parse_line line table) as [t| |] eqn:E; simpl in Ha; [|done|done].
      injection Ha as <-. apply parse_line_exact in E as (name & c & HR & Hn & ->).
      apply IH in H as (rows & [Hr Hd] & Hf & ->).
      assert (NoDup (entry <$> (name, c) :: rows).*1) as Hd'.
      { apply NoDup_cons. split; [|done]. intros Hin. specialize (Hf _ Hin). by rewrite lookup_insert_eq in Hf. }
      exists ((name, c) :: rows). split; [split; [by constructor|done]|]. split; [by apply fresh_cons|done].
    + intros (rows & [Hr Hd] & Hf & ->). inversion Hr as [|? [name c] ? rows' HR Hr']; subst. simpl in HR.
      apply fresh_cons in Hf as [Hn Hf]; [|done]. simpl in Hn.
      rewrite (proj2 (parse_line_exact _ _ (<[utf8_encode name := c]> table))) by eauto. simpl.
      apply NoDup_cons in Hd as [_ Hd]. apply IH. exists rows'. by split.
Qed.

Lemma with_rows_lookup table rows name :
  is_Some (with_rows table rows !! name) <-> is_Some (table !! name) \/ name ∈ (entry <$> rows).*1.
Proof.
  revert table. induction rows as [|row rows IH]; intros table; simpl.
  - split; [by left|]. by intros [?|?%elem_of_nil].
  - rewrite IH. rewrite lookup_insert_is_Some', elem_of_cons. simpl. naive_solver.
Qed.

Lemma parse_numbered_error numbered table e :
  parse_numbered numbered table = Err e <->
  exists before after rows,
    numbered = before ++ (le_line e, le_text e) :: after /\ Rows before rows /\ Fresh table rows
    /\ parse_line (le_text e) (with_rows table rows) = Err (le_row e).
Proof.
  revert table. induction numbered as [|[n line] numbered IH]; intros table; cbn [parse_numbered].
  - split; [done|]. by intros ([|? ?] & ? & ? & ? & _).
  - split.
    + destruct (parse_line line table) as [t|e'|] eqn:E; simpl; intros H; [|injection H as <-|done].
      * apply parse_line_exact in E as (name & c & HR & Hn & ->).
        apply IH in H as (before & after & rows & -> & [Hr Hd] & Hf & He).
        assert (NoDup (entry <$> (name, c) :: rows).*1) as Hd'.
        { apply NoDup_cons. split; [|done]. intros Hin. specialize (Hf _ Hin). by rewrite lookup_insert_eq in Hf. }
        exists ((n, line) :: before), after, ((name, c) :: rows).
        conjs; [done|split; [by constructor|done]|by apply fresh_cons|done].
      * exists [], numbered, []. conjs; [done|split; constructor|by intros ? ?%elem_of_nil|done].
    + intros (before & after & rows & Heq & [Hr Hd] & Hf & He). destruct before as [|[n' line'] before].
      * inversion Hr; subst. simpl in He. injection Heq as -> -> ->. rewrite He. simpl. by destruct e.
      * injection Heq as <- <- ->. inversion Hr as [|? [name c] ? rows' HR Hr']; subst. simpl in HR.
        apply fresh_cons in Hf as [Hn Hf]; [|done]. simpl in Hn.
        rewrite (proj2 (parse_line_exact _ _ (<[utf8_encode name := c]> table))) by eauto. simpl.
        apply NoDup_cons in Hd as [_ Hd]. apply IH. exists before, after, rows'. by split.
Qed.

Lemma fresh_empty rows : Fresh ∅ rows.
Proof. intros ? _. apply lookup_empty. Qed.

Lemma parse_ok s table :
  parse s = Ok table <-> exists rows, Rows (significant s) rows /\ table = with_rows ∅ rows.
Proof.
  unfold parse. rewrite parse_lines_numbered, parse_numbered_ok. fold (significant s).
  split.
  - intros (rows & ? & _ & ?). eauto.
  - intros (rows & ? & ?). exists rows. eauto using fresh_empty.
Qed.

Lemma parse_error s e : parse s = Err e <-> FirstWrong (significant s) e.
Proof.
  unfold parse, FirstWrong. rewrite parse_lines_numbered, parse_numbered_error. fold (significant s).
  split; intros (before & after & rows & H1 & H2 & H3).
  - destruct H3 as [_ H3]. exists before, after, rows. conjs; [done|done|].
    apply parse_line_error in H3 as [?|(name & c & HR & Hn & ->)]; [by left|right].
    apply with_rows_lookup in Hn as [[? Hn]|Hn]; [by rewrite lookup_empty in Hn|]. eauto.
  - exists before, after, rows. conjs; [done|done|apply fresh_empty|]. apply parse_line_error.
    destruct H3 as [?|(name & c & HR & Hn & Hd)]; [by left|right]. exists name, c.
    split; [done|]. split; [|done]. apply with_rows_lookup. by right.
Qed.

(** The order of distinct rows does not matter. *)
Lemma with_rows_union table rows :
  NoDup (entry <$> rows).*1 -> with_rows table rows = list_to_map (entry <$> rows) ∪ table.
Proof.
  revert table. induction rows as [|row rows IH]; intros table Hd; [symmetry; apply (left_id_L ∅ (∪))|].
  apply NoDup_cons in Hd as [Hn Hd]. change (with_rows table (row :: rows)) with (with_rows (<[utf8_encode row.1:=row.2]> table) rows).
  rewrite IH by done. change (list_to_map (entry <$> row :: rows) : Table) with
    (<[utf8_encode row.1 := row.2]> (list_to_map (entry <$> rows) : Table)).
  rewrite <- insert_union_l, <- insert_union_r; [done|].
  by apply not_elem_of_list_to_map_1.
Qed.

Lemma with_rows_map rows : NoDup (entry <$> rows).*1 -> with_rows ∅ rows = list_to_map (entry <$> rows).
Proof. intros H. rewrite with_rows_union by done. apply (right_id_L ∅ (∪)). Qed.

(** ** Trimming, and text that cannot make the loader panic *)

Lemma trim_start_suffix l : exists p, l = p ++ trim_start l /\ Forall (fun c => is_whitespace c = true) p.
Proof.
  induction l as [|c l (p & Hl & Hp)]; [by exists []|]. simpl. destruct (is_whitespace c) eqn:E.
  - exists (c :: p). split; [by rewrite Hl at 1|by constructor].
  - exists []. by split.
Qed.

Lemma trim_start_head l c r : trim_start l = c :: r -> is_whitespace c = false.
Proof. induction l as [|x l IH]; simpl; [done|]. destruct (is_whitespace x) eqn:E; [done|]. by intros [= <- _]. Qed.

Lemma trim_prefix l : exists p, trim_start l = trim l ++ p.
Proof.
  unfold trim. destruct (trim_start_suffix (reverse (trim_start l))) as (p & H & _). exists (reverse p).
  rewrite <- reverse_app, <- H. by rewrite reverse_involutive.
Qed.

Lemma trim_head l c r : trim l = c :: r -> is_whitespace c = false.
Proof. intros H. destruct (trim_prefix l) as [p Hp]. rewrite H in Hp. by eapply trim_start_head. Qed.

Lemma trim_start_plain c l : is_whitespace c = false -> trim_start (c :: l) = c :: l.
Proof. intros H. simpl. by rewrite H. Qed.

(** A line that begins and ends with other characters is as it is. *)
Lemma trim_id a m b : is_whitespace a = false -> is_whitespace b = false -> trim ((a :: m) ++ [b]) = (a :: m) ++ [b].
Proof.
  intros Ha Hb. unfold trim. change (trim_start ((a :: m) ++ [b])) with (trim_start (a :: (m ++ [b]))).
  rewrite (trim_start_plain a (m ++ [b])) by done. change (a :: m ++ [b]) with ((a :: m) ++ [b]).
  rewrite (reverse_app (a :: m) [b]). change (reverse [b] ++ reverse (a :: m)) with (b :: reverse (a :: m)).
  rewrite (trim_start_plain b (reverse (a :: m))) by done.
  change (b :: reverse (a :: m)) with (reverse [b] ++ reverse (a :: m)).
  by rewrite <- reverse_app, reverse_involutive.
Qed.

Section Kept.
Context (P : Z -> Prop).

Lemma Forall_trim_start l : Forall P l -> Forall P (trim_start l).
Proof. intros H. destruct (trim_start_suffix l) as (p & Hl & _). rewrite Hl in H. by apply Forall_app in H as [_ ?]. Qed.

Lemma Forall_trim l : Forall P l -> Forall P (trim l).
Proof. intros H. unfold trim. by apply Forall_reverse, Forall_trim_start, Forall_reverse, Forall_trim_start. Qed.

Lemma Forall_fields_from field s : Forall P field -> Forall P s -> Forall (Forall P) (fields_from field s).
Proof.
  intros Hf Hs. revert field Hf. induction Hs as [|c s Hc Hs IH]; intros field Hf; simpl.
  - case_bool_decide; [done|]. by repeat constructor.
  - destruct (is_whitespace c); [case_bool_decide; [by apply IH|constructor; [done|by apply IH]]|].
    apply IH, Forall_app. split; [done|by repeat constructor].
Qed.

Lemma Forall_strip_cr l : Forall P l -> Forall P (strip_cr l).
Proof.
  intros H. unfold strip_cr. destruct (reverse l) as [|c r] eqn:E; [done|].
  assert (l = reverse r ++ [c]) as Hl by (rewrite <- (reverse_involutive l), E; by rewrite reverse_cons).
  assert (Forall P (reverse r)) by (rewrite Hl in H; by apply Forall_app in H as [? _]).
  by repeat case_match.
Qed.

Lemma Forall_lines_from line s : Forall P line -> Forall P s -> Forall (Forall P) (lines_from line s).
Proof.
  intros Hf Hs. revert line Hf. induction Hs as [|c s Hc Hs IH]; intros line Hf; simpl.
  - case_bool_decide; [done|]. by repeat constructor.
  - destruct (c =? NEWLINE); [constructor; [by apply Forall_strip_cr|by apply IH]|].
    apply IH, Forall_app. split; [done|by repeat constructor].
Qed.

Lemma Forall_significant index raws :
  Forall (Forall P) raws -> Forall (fun l => Forall P l.2 /\ exists c r, l.2 = c :: r /\ is_whitespace c = false)
                              (significant_from index raws).
Proof.
  intros H. revert index. induction H as [|raw raws Hr H IH]; intros index; [constructor|]. simpl.
  destruct (skipped (trim raw)) eqn:E; [done|]. constructor; [|done]. split; [by apply Forall_trim|]. simpl.
  unfold skipped in E. apply orb_false_iff in E as [E _]. apply bool_decide_eq_false in E.
  destruct (trim raw) as [|c r] eqn:Et; [done|]. exists c, r. split; [done|by eapply trim_head].
Qed.
End Kept.

Lemma split_whitespace_some c r : is_whitespace c = false -> split_whitespace (c :: r) <> [].
Proof.
  intros H. unfold split_whitespace. cbn [fields_from]. rewrite H. cbn [app].
  assert (forall field s, field <> [] -> fields_from field s <> []) as Hf; [|by apply Hf].
  intros field s. revert field. induction s as [|x s IH]; intros field Hne; simpl.
  - by rewrite bool_decide_false.
  - destruct (is_whitespace x); [by rewrite bool_decide_false|]. apply IH. by destruct field.
Qed.

Lemma char_boundary_ascii (s : bytes) i :
  Forall (fun b => byte_val b < 128) s -> (i <= length s)%nat -> char_boundary s i = true.
Proof.
  intros H Hi. unfold char_boundary. destruct (s !! i) as [b|] eqn:E.
  - rewrite Forall_lookup in H. specialize (H i b E). unfold cont, in_range.
    replace (128 <=? byte_val b) with false by lia. apply orb_true_r.
  - apply lookup_ge_None in E. replace (i =? length s)%nat with true by (symmetry; apply Nat.eqb_eq; lia). apply orb_true_r.
Qed.

Lemma hex_loop_no_panic n s i why :
  Forall (fun b => byte_val b < 128) s -> ((i + n) * 2 <= length s)%nat -> hex_loop s i n <> Panic why.
Proof.
  revert i. induction n as [|n IH]; intros i Hs Hl; [done|]. cbn [hex_loop]. unfold str_slice.
  rewrite (proj2 (Nat.leb_le _ _)), !char_boundary_ascii by (done || lia). cbn [andb]. rewrite bind_ok.
  unfold guard_or. destruct (negb _); [|done]. rewrite bind_ok. destruct (u8_from_hex _); [|done]. cbn [ok_or].
  rewrite bind_ok. specialize (IH (S i) Hs ltac:(lia)). destruct (hex_loop s (S i) n); naive_solver.
Qed.

Lemma utf8_encode_low s : ascii s -> Forall (fun b => byte_val b < 128) (utf8_encode s).
Proof.
  intros H. rewrite utf8_encode_ascii by done. apply Forall_fmap. eapply Forall_impl; [exact H|]. simpl. intros c Hc.
  rewrite byte_val_of, Z.mod_small; lia.
Qed.

Lemma parse_hex32_no_panic s why : ascii s -> parse_hex32 s <> Panic why.
Proof.
  intros H. unfold parse_hex32. cbv zeta. unfold guard_or. destruct (Z.eqb_spec (len (utf8_encode s)) 64) as [Hl|]; [|done].
  rewrite bind_ok. apply hex_loop_no_panic; [by apply utf8_encode_low|]. unfold len in Hl. lia.
Qed.

Lemma parse_names_no_panic acc names why : parse_names acc names <> Panic why.
Proof.
  revert acc. induction names as [|n names IH]; intros acc; [done|]. cbn [parse_names].
  destruct (from_name n); [|done]. cbn [ok_or]. rewrite bind_ok. unfold guard_or. destruct (negb _); [apply IH|done].
Qed.

Lemma parse_list_no_panic list why : parse_list list <> Panic why.
Proof. unfold parse_list, guard_or. destruct (negb _); [apply parse_names_no_panic|done]. Qed.

Lemma trailing_no_panic roles fields why : trailing_fields roles fields <> Panic why.
Proof.
  revert roles. induction fields as [|f fields IH]; intros roles; [done|]. cbn [trailing_fields].
  destruct (strip_prefix _ f) as [list|]; [|done]. cbn [ok_or]. rewrite bind_ok. unfold guard_or. destruct (bool_decide _); [|done].
  rewrite bind_ok. destruct (parse_list list) eqn:E; simpl; [apply IH|done|by apply parse_list_no_panic in E].
Qed.

Lemma parse_credential_no_panic field why : ascii field -> parse_credential field <> Panic why.
Proof.
  intros H. unfold parse_credential, guard_or. destruct (negb _); [|done]. rewrite bind_ok.
  destruct (split_once COLON field) as [[a v]|] eqn:E; [|done]. cbn [ok_or]. rewrite bind_ok.
  assert (ascii v) as Hv.
  { apply split_once_Some in E as [-> _]. unfold ascii in H. apply Forall_app in H as [_ H]. by apply Forall_cons in H as [_ ?]. }
  pose proof (fun why => parse_hex32_no_panic v why Hv) as Hh.
  case_bool_decide; [|case_bool_decide; [|case_bool_decide; [|done]]].
  - destruct (parse_hex32 v) eqn:Ev; simpl; [done|done|]. by destruct (Hh why0).
  - destruct (bool_decide (v = [])); simpl; [done|]. by destruct (existsb is_whitespace v).
  - destruct (parse_hex32 v) eqn:Ev; simpl; [done|done|]. by destruct (Hh why0).
Qed.

Lemma parse_row_no_panic c r why : ascii (c :: r) -> is_whitespace c = false -> parse_row (c :: r) <> Panic why.
Proof.
  intros Ha Hc. unfold parse_row.
  pose proof (Forall_fields_from (fun c => 0 <= c < 128) [] (c :: r) ltac:(constructor) Ha) as Hf.
  fold split_whitespace in Hf. change (fields_from []) with split_whitespace in Hf.
  destruct (split_whitespace (c :: r)) as [|n [|f t]] eqn:E; [by apply split_whitespace_some in E|done|]. simpl.
  apply Forall_cons in Hf as [_ Hf]. apply Forall_cons in Hf as [Hf _].
  destruct (trailing_fields None t) eqn:Et; simpl; [|done|by apply trailing_no_panic in Et].
  destruct (validate_name n) eqn:Ev; simpl; [|done|].
  - destruct (parse_credential f) eqn:Ef; simpl; [done|done|]. by apply parse_credential_no_panic in Ef.
  - exfalso. clear -Ev. unfold validate_name, guard_or in Ev. cbv zeta in Ev. destruct (_ && _); [|done]. simpl in Ev.
    by destruct (list_find _ n) as [[? ?]|].
Qed.

Lemma parse_numbered_no_panic numbered table why :
  Forall (fun l => ascii l.2 /\ exists c r, l.2 = c :: r /\ is_whitespace c = false) numbered ->
  parse_numbered numbered table <> Panic why.
Proof.
  intros H. revert table. induction H as [|[n line] numbered [Ha (c & r & Hl & Hc)] H IH]; intros table; [done|].
  cbn [parse_numbered]. simpl in Ha, Hl. subst line. unfold parse_line.
  destruct (parse_row (c :: r)) as [[name cred]| |] eqn:E; simpl; [|done|by apply parse_row_no_panic in E].
  destruct (table !! _); simpl; [done|apply IH].
Qed.

(** ** Properties *)

(** C33 A credential file is never half loaded: it loads exactly when every line
    that is not blank or a comment is a row of the grammar and no name comes
    twice, and then holds those rows and no others; an error is exactly that of
    the first line that is wrong, under its number; and no text of ASCII
    characters makes the loader panic. *)
Theorem credential_file_exact (s : text) :
  (forall table, parse s = Ok table <-> exists rows, Rows (significant s) rows /\ table = list_to_map (entry <$> rows))
  /\ (forall e, parse s = Err e <-> FirstWrong (significant s) e)
  /\ (forall why, parse s = Panic why -> ~ ascii s).
Proof.
  conjs.
  - intros table. rewrite parse_ok. split; intros (rows & HR & ->); exists rows; (split; [done|]); rewrite with_rows_map; [done|apply HR|done|apply HR].
  - apply parse_error.
  - intros why H Ha. unfold parse in H. rewrite parse_lines_numbered in H.
    eapply parse_numbered_no_panic; [|exact H]. apply Forall_significant. apply Forall_lines_from; [constructor|done].
Qed.
