(* ===== verification/AuthLoadSpec.v ===== *)
(** What loading credentials promises: the server accepts exactly the secrets
    of its source, with the roles written there; a row [auth-gen] prints reads
    back; a certificate's identity does not depend on the order of a hash table;
    a reload replaces the whole table or nothing. *)

From S2P Require Import Prelude Bytes Text Core Record Glob Clock Arith Float Command Vcp Auth AuthFile AuthFileSpec.

(** ** Loading *)

Section Loading.
Context `{DG : Digest} `{FS : Files}.

(** Where the credentials come from: a private file of UTF-8 text, one secret
    of the environment that is long enough, or nowhere; never two of them. *)
Inductive CredentialSource (config : AuthConfig) : option bytes -> list (text * Credential) -> Prop :=
| Source_file contents s mode rows :
    ac_file config <> [] -> read_file (ac_file config) = Some contents -> utf8_decode contents = Some s ->
    file_mode (ac_file config) = Some mode -> Z.land mode 63 = 0 -> Rows (significant s) rows ->
    CredentialSource config None rows
| Source_env secret :
    ac_file config = [] -> MIN_SECRET_LEN <= len secret ->
    CredentialSource config (Some secret) [(txt "default", bare (sha256 secret) None)]
| Source_none : ac_file config = [] -> CredentialSource config None [].

(** What the rows grant: the roles written there, or the default ones. *)
Definition granted (default : Roles) (rows : list (text * Credential)) : Table :=
  list_to_map ((fun row => (utf8_encode row.1, resolve_default default row.2)) <$> rows).

Lemma resolve_rows default rows : resolve_defaults (list_to_map (entry <$> rows)) default = granted default rows.
Proof.
  unfold resolve_defaults, granted. induction rows as [|row rows IH]; [apply fmap_empty|].
  change (list_to_map (entry <$> row :: rows)) with (<[utf8_encode row.1 := row.2]> (list_to_map (entry <$> rows) : Table)).
  rewrite fmap_insert. exact (f_equal _ IH).
Qed.

Lemma load_file_ok path table :
  load_file path = Ok table <->
  exists contents s mode rows,
    read_file path = Some contents /\ utf8_decode contents = Some s /\ file_mode path = Some mode
    /\ Z.land mode 63 = 0 /\ Rows (significant s) rows /\ table = list_to_map (entry <$> rows).
Proof.
  unfold load_file, check_permissions. split.
  - intros H. inv_ok. destruct (read_file path) as [contents|] eqn:Er; simpl in Ha; [|done].
    unfold guard_or in Ha0. destruct (Z.eqb_spec (Z.land a1 63) 0); [|done].
    destruct (parse a) as [t| |] eqn:E; simpl in H; [|done|done]. injection H as <-.
    apply parse_ok in E as (rows & HR & ->). exists contents, a, a1, rows. conjs; try done. apply with_rows_map, HR.
  - intros (contents & s & mode & rows & Hr & Hd & Hm & H0 & HR & ->). rewrite Hr. simpl. rewrite Hd, Hm. simpl.
    rewrite H0. simpl. rewrite (proj2 (parse_ok s (with_rows ∅ rows))) by eauto. simpl.
    rewrite with_rows_map; [done|apply HR].
Qed.

Lemma load_table_ok config from_env table :
  load_table (negb (bool_decide (ac_file config = []))) (ac_file config) from_env = Ok table <->
  exists rows, CredentialSource config from_env rows /\ table = list_to_map (entry <$> rows).
Proof.
  case_bool_decide as Hf; simpl; destruct from_env as [secret|]; simpl.
  - unfold env_table, guard_or. destruct (Z.leb_spec MIN_SECRET_LEN (len secret)); simpl.
    + split; [intros [= <-]; eexists; split; [by constructor|done]|]. intros (rows & H' & ->). by inversion H'.
    + split; [done|]. intros (rows & H' & ->). inversion H'; subst. lia.
  - split; [intros [= <-]; exists []; split; [by constructor|done]|]. intros (rows & H' & ->). by inversion H'.
  - split; [done|]. intros (rows & H' & ->). by inversion H'.
  - rewrite load_file_ok. split.
    + intros (contents & s & mode & rows & ? & ? & ? & ? & ? & ->). exists rows. split; [by econstructor|done].
    + intros (rows & H' & ->). inversion H'; subst; [|done]. eauto 20.
Qed.

Lemma Source_nodup config from_env rows : CredentialSource config from_env rows -> NoDup (entry <$> rows).*1.
Proof. intros [? ? ? ? _ _ _ _ _ [_ H]| |]; [done|apply NoDup_singleton|constructor]. Qed.

Lemma Row_plain line name c : Row line name c -> cr_mechanism c = Mechanism_Plain.
Proof. intros [? ? ? ? ? roles _ _ [] _]; by destruct roles. Qed.

Lemma Source_plain config from_env rows row :
  CredentialSource config from_env rows -> row ∈ rows -> cr_mechanism row.2 = Mechanism_Plain.
Proof.
  intros [? s ? rows' _ _ _ _ _ [H _]|secret _ _|_] Hin.
  - apply list_elem_of_lookup in Hin as [i Hi]. destruct (Forall2_lookup_r _ _ _ _ _ H Hi) as (l & _ & HR).
    by eapply Row_plain.
  - by apply list_elem_of_singleton in Hin as ->.
  - by apply elem_of_nil in Hin.
Qed.

Lemma granted_keys default rows :
  ((fun row => (utf8_encode row.1, resolve_default default row.2)) <$> rows).*1 = (entry <$> rows).*1.
Proof. by rewrite <- !list_fmap_compose. Qed.

Lemma granted_lookup default rows name c :
  NoDup (entry <$> rows).*1 ->
  granted default rows !! name = Some c <->
  exists row, row ∈ rows /\ utf8_encode row.1 = name /\ c = resolve_default default row.2.
Proof.
  intros Hd. unfold granted. rewrite <- elem_of_list_to_map by by rewrite granted_keys.
  rewrite list_elem_of_fmap. split.
  - intros (row & Heq & Hin). injection Heq as -> ->. eauto.
  - intros (row & Hin & <- & ->). eauto.
Qed.

Lemma granted_empty default rows : granted default rows = ∅ <-> rows = [].
Proof.
  split; [|by intros ->]. destruct rows as [|row rows]; [done|]. intros H. exfalso. unfold granted in H. simpl in H.
  by apply insert_non_empty in H.
Qed.

(** C34 A server starts exactly when its credentials come from one source, every
    row of which is well-formed, under default roles that are known, and is not
    asked to enforce an empty table; it then accepts exactly the secrets of its
    rows, and grants each the roles its row states or, where it states none, the
    default ones.  A certificate row accepts no secret. *)
Theorem loaded_credentials_exact (config : AuthConfig) (from_env : option bytes) (a : Auth) :
  (Auth_load config from_env = Ok a <->
   exists default rows,
     parse_default (ac_default_roles config) = Ok default /\ CredentialSource config from_env rows
     /\ (ac_required config = true -> rows <> [])
     /\ a = mkAuth (ac_required config) (granted default rows))
  /\ (forall default rows, CredentialSource config from_env rows -> a = mkAuth (ac_required config) (granted default rows) ->
      forall name secret identity,
        verify a name secret = Some identity <->
        exists row, row ∈ rows /\ utf8_encode row.1 = name /\ cr_subject row.2 = None
          /\ sha256 secret = cr_value row.2
          /\ identity = mkIdentity name (if cr_inherited row.2 then default else cr_roles row.2)).
Proof.
  split.
  - unfold Auth_load. cbv zeta. split.
    + intros H. inv_ok. destruct (parse_default _) as [d| |] eqn:Ed; simpl in Ha; [|done|done]. injection Ha as <-.
      apply load_table_ok in Ha0 as (rows & HS & ->). rewrite resolve_rows in *. exists d, rows. conjs; try done.
      unfold guard_or in Ha1. intros Hq ->. rewrite Hq in Ha1. done.
    + intros (default & rows & -> & HS & Hq & ->). simpl.
      rewrite (proj2 (load_table_ok config from_env _)) by eauto. simpl. rewrite resolve_rows.
      rewrite (proj2 (orb_true_iff _ _)); [done|]. destruct (ac_required config); [right|by left].
      apply negb_true_iff, bool_decide_eq_false. rewrite granted_empty. auto.
  - intros default rows HS -> name secret identity. pose proof (Source_nodup _ _ _ HS) as Hd. unfold verify. simpl. split.
    + destruct (granted default rows !! name) as [c|] eqn:E; simpl; [|done].
      apply granted_lookup in E as (row & Hin & Hn & ->); [|done].
      assert (cr_subject (resolve_default default row.2) = cr_subject row.2
              /\ cr_value (resolve_default default row.2) = cr_value row.2
              /\ cr_roles (resolve_default default row.2) = if cr_inherited row.2 then default else cr_roles row.2) as (-> & -> & ->)
        by (unfold resolve_default; by destruct (cr_inherited row.2)).
      destruct (cr_subject row.2) eqn:Es; [done|]. destruct (negb _); [done|]. case_bool_decide; [|done]. intros [= <-].
      exists row. conjs; done.
    + intros (row & Hin & Hn & Hs & Hv & ->). pose proof (Source_plain _ _ _ _ HS Hin) as Hm.
      rewrite (proj2 (granted_lookup default rows name (resolve_default default row.2) Hd)) by eauto. simpl.
      unfold resolve_default. destruct (cr_inherited row.2); simpl; rewrite Hs, Hm, Hv; by rewrite !bool_decide_true.
Qed.

End Loading.

(** ** Printed rows *)

Lemma lines_from_app line s t : lines_from line (s ++ NEWLINE :: t) = lines_from line (s ++ [NEWLINE]) ++ lines t.
Proof.
  revert line. induction s as [|c s IH]; intros line; simpl; [done|].
  destruct (c =? NEWLINE); [by rewrite IH|apply IH].
Qed.

Lemma lines_from_line line s : NEWLINE ∉ s -> lines_from line (s ++ [NEWLINE]) = [strip_cr (line ++ s)].
Proof.
  revert line. induction s as [|c s IH]; intros line H; simpl; [by rewrite app_nil_r|].
  apply not_elem_of_cons in H as [Hc H]. rewrite (proj2 (Z.eqb_neq _ _)) by done.
  rewrite IH by done. by rewrite <- app_assoc.
Qed.

Lemma significant_from_app index l k :
  significant_from index (l ++ k) = significant_from index l ++ significant_from (index + len l) k.
Proof.
  revert index. induction l as [|raw l IH]; intros index; simpl; [by rewrite Z.add_0_r|].
  rewrite IH. replace (index + 1 + len l) with (index + len (raw :: l)) by (unfold len; simpl; lia).
  by destruct (skipped (trim raw)).
Qed.

Definition ends_line (s : text) : Prop := s = [] \/ exists s', s = s' ++ [NEWLINE].

(** A line appended to a file whose last line is ended. *)
Lemma significant_append s w1 mid w2 :
  ends_line s -> w1 <> [] -> w2 <> [] -> forallb plain_char w1 = true -> forallb plain_char w2 = true ->
  head w1 <> Some 35 -> NEWLINE ∉ w1 ++ mid ++ w2 ->
  significant (s ++ (w1 ++ mid ++ w2) ++ [NEWLINE]) = significant s ++ [(len (lines s) + 1, w1 ++ mid ++ w2)].
Proof.
  intros Hs H1 H2 Hp1 Hp2 Hh Hn.
  assert (lines (s ++ (w1 ++ mid ++ w2) ++ [NEWLINE]) = lines s ++ [strip_cr (w1 ++ mid ++ w2)]) as Hl.
  { unfold lines. pose proof (lines_from_line [] (w1 ++ mid ++ w2) Hn) as Hll. cbn [app] in Hll.
    rewrite <- Hll. destruct Hs as [->|[s' ->]]; [done|].
    rewrite <- app_assoc. apply lines_from_app. }
  destruct w1 as [|a w1]; [done|]. destruct (exists_last H2) as (w2' & b & ->). simpl in Hp1.
  apply andb_true_iff in Hp1 as [Ha _]. apply negb_true_iff in Ha.
  rewrite forallb_app in Hp2. apply andb_true_iff in Hp2 as [_ Hb]. simpl in Hb. rewrite andb_true_r in Hb.
  apply negb_true_iff in Hb.
  assert ((a :: w1) ++ mid ++ w2' ++ [b] = (a :: (w1 ++ mid ++ w2')) ++ [b]) as Hform
    by by rewrite !app_comm_cons, !app_assoc.
  unfold significant. rewrite Hl, Hform, significant_from_app. f_equal.
  assert (strip_cr ((a :: w1 ++ mid ++ w2') ++ [b]) = (a :: w1 ++ mid ++ w2') ++ [b]) as Hcr.
  { unfold strip_cr. rewrite reverse_app. change (reverse [b] ++ ?l) with (b :: l).
    destruct (Z.eq_dec b 13) as [->|Hb13]; [done|]. destruct b as [|p|p]; try done.
    repeat (destruct p as [p|p|]; try done). }
  cbn [significant_from]. rewrite Hcr, trim_id by done.
  unfold skipped. rewrite !bool_decide_false by done. done.
Qed.

Section Printing.
Context `{DG : Digest}.
Hypothesis sha256_len : forall b, length (sha256 b) = 32%nat.

Lemma fields_two a b : a <> [] -> b <> [] -> forallb plain_char a = true -> forallb plain_char b = true ->
  split_whitespace (a ++ [32; 32] ++ b) = [a; b].
Proof.
  intros. change (a ++ [32; 32] ++ b) with (a ++ 32 :: 32 :: b).
  rewrite fields_word, fields_space, fields_last by done. done.
Qed.

Lemma hex_plain value : forallb plain_char (hex value) = true.
Proof.
  destruct (hex_chars value) as [H _]. rewrite Forall_forall in H. apply forallb_forall. intros c Hc.
  rewrite <- list_elem_of_In in Hc. by apply H.
Qed.

Lemma plain_no_newline w : forallb plain_char w = true -> NEWLINE ∉ w.
Proof. rewrite forallb_forall. setoid_rewrite <- list_elem_of_In. intros H Hin. by specialize (H _ Hin). Qed.

Lemma name_plain name : NameOk name -> name <> [] /\ forallb plain_char name = true /\ head name <> Some 35.
Proof.
  intros [Hl Hc]. destruct name as [|a name]; [unfold len in Hl; simpl in Hl; lia|]. conjs; [done| |].
  - rewrite forallb_forall in *. intros c Hin. by apply name_char_plain, Hc.
  - simpl in Hc. apply andb_true_iff in Hc as [Ha _]. apply name_char_plain in Ha as (_ & _ & Ha). simpl. congruence.
Qed.

Definition sha_field (secret : text) : text := txt "sha256:" ++ hex (sha256 (utf8_encode secret)).

Lemma sha_field_plain secret : sha_field secret <> [] /\ forallb plain_char (sha_field secret) = true.
Proof. split; [done|]. unfold sha_field. rewrite forallb_app. by rewrite hex_plain. Qed.

Lemma sha_field_value secret : AlgorithmValue (sha_field secret) (bare (sha256 (utf8_encode secret)) None).
Proof. apply Value_sha256; [apply hex_chars|apply sha256_len]. Qed.

(** The row [auth-gen] prints, and how it ends a file. *)
Definition printed_tail (roles : option Roles) : text :=
  match roles with Some r => txt "  roles=" ++ to_names r | None => [] end.

Lemma printed_row name secret roles :
  NameOk name -> (match roles with Some r => 0 < r < 64 | None => True end) ->
  exists w1 mid w2,
    name ++ txt "  sha256:" ++ hex (sha256 (utf8_encode secret)) ++ printed_tail roles = w1 ++ mid ++ w2
    /\ w1 <> [] /\ w2 <> [] /\ forallb plain_char w1 = true /\ forallb plain_char w2 = true /\ head w1 <> Some 35
    /\ NEWLINE ∉ w1 ++ mid ++ w2
    /\ Row (w1 ++ mid ++ w2) name (with_roles roles (bare (sha256 (utf8_encode secret)) None)).
Proof.
  intros Hn Hr. destruct (name_plain name Hn) as (Hn0 & Hnp & Hnh). destruct (sha_field_plain secret) as [Hf0 Hfp].
  destruct roles as [r|]; simpl printed_tail.
  - destruct (parse_list_to_names r Hr) as (Hp & Hrp & Hr0).
    exists name, ([32; 32] ++ sha_field secret ++ [32; 32]), (txt "roles=" ++ to_names r).
    assert (forallb plain_char (txt "roles=" ++ to_names r) = true) as Htp by by rewrite forallb_app, Hrp.
    conjs; try done.
    + unfold sha_field. by rewrite <- !app_assoc.
    + rewrite !not_elem_of_app. pose proof (plain_no_newline _ Hnp). pose proof (plain_no_newline _ Hfp).
      pose proof (plain_no_newline _ Htp). set_solver by lia.
    + eapply Row_intro; [|done|apply sha_field_value|by constructor].
      change (name ++ ([32; 32] ++ sha_field secret ++ [32; 32]) ++ txt "roles=" ++ to_names r)
        with (name ++ 32 :: 32 :: (sha_field secret ++ [32; 32]) ++ txt "roles=" ++ to_names r).
      rewrite <- app_assoc, fields_word, fields_space by done. f_equal. by apply fields_two.
  - exists name, [32; 32], (sha_field secret). conjs; try done.
    + unfold sha_field. by rewrite app_nil_r.
    + rewrite !not_elem_of_app. pose proof (plain_no_newline _ Hnp). pose proof (plain_no_newline _ Hfp). set_solver by lia.
    + eapply (Row_intro _ _ _ _ _ None); [|done|apply sha_field_value|constructor]. by apply fields_two.
Qed.

Lemma generate_ok name roles entropy secret line :
  generate name roles entropy = Ok (secret, line) ->
  exists bytes granted,
    entropy = Some bytes /\ NameOk name /\ secret = hex bytes
    /\ (match roles with Some list => exists r, granted = Some r /\ parse_list list = Ok r | None => granted = None end)
    /\ line = name ++ txt "  sha256:" ++ hex (sha256 (utf8_encode secret)) ++ printed_tail granted.
Proof.
  unfold generate. cbv zeta. intros H. inv_ok.
  destruct (validate_name name) as [[]| |] eqn:Ev; simpl in Ha; [|done|done]. apply validate_name_exact in Ev.
  destruct entropy as [b|]; [|done]. simpl in Ha1. injection Ha1 as <-. exists b, a0.
  conjs; [done|done|done| |].
  - destruct roles as [list|]; [|by injection Ha0]. destruct (parse_list list) as [r| |]; simpl in Ha0; [|done|done].
    injection Ha0 as <-. eauto.
  - destruct a0; simpl; by rewrite <- ?app_assoc, ?app_nil_r.
Qed.

(** C35 A row printed by [auth-gen] can be appended to a file that loads, is empty
    or ends its last line, and does not have that name: the file still loads,
    with that row and the others as they were, and the printed secret is then
    accepted under that name, with exactly the roles asked for, or the default
    ones.  (Appended to a file whose last line is not ended, the row joins that
    line, and the file no longer loads.) *)
Theorem generated_row_verifies (name : text) (roles : option text) (entropy : option bytes) (secret line s : text) (table : Table) :
  generate name roles entropy = Ok (secret, line) -> ends_line s ->
  parse s = Ok table -> table !! utf8_encode name = None ->
  exists c,
    parse (s ++ line ++ [NEWLINE]) = Ok (<[utf8_encode name := c]> table)
    /\ forall required default,
         exists granted,
           verify (mkAuth required (resolve_defaults (<[utf8_encode name := c]> table) default))
             (utf8_encode name) (utf8_encode secret) = Some (mkIdentity (utf8_encode name) granted)
           /\ match roles with Some list => parse_list list = Ok granted | None => granted = default end.
Proof.
  intros H He Hs Hfresh. apply generate_ok in H as (b & granted & _ & Hn & _ & Hg & ->).
  set (c := with_roles granted (bare (sha256 (utf8_encode secret)) None)).
  assert (match granted with Some r => 0 < r < 64 | None => True end) as Hr.
  { destruct roles as [list|]; [destruct Hg as (r & -> & Hl); by eapply parse_list_range|by rewrite Hg]. }
  destruct (printed_row name secret granted Hn Hr) as (w1 & mid & w2 & -> & H1 & H2 & Hp1 & Hp2 & Hh & Hnl & HR).
  exists c. split.
  - apply parse_ok in Hs as (rows & [HF Hd] & ->). apply parse_ok. exists (rows ++ [(name, c)]). split.
    + split; [rewrite significant_append by done; by apply Forall2_app; [|constructor]|].
      rewrite !fmap_app. apply NoDup_app. conjs; [done| |apply NoDup_singleton].
      intros x Hx Hin. apply list_elem_of_singleton in Hin as ->.
      assert (is_Some (with_rows ∅ rows !! utf8_encode name)) as [y Hy] by (apply with_rows_lookup; by right).
      rewrite Hfresh in Hy. done.
    + unfold with_rows. by rewrite foldl_app.
  - intros required default. exists (match granted with Some r => r | None => default end).
    split; [|destruct roles as [list|]; [by destruct Hg as (r & -> & Hl)|by rewrite Hg]].
    unfold verify, resolve_defaults. simpl. rewrite lookup_fmap, lookup_insert_eq. simpl.
    unfold c. destruct granted; simpl; by rewrite !bool_decide_true.
Qed.

End Printing.

(** ** Certificates *)

#[global] Instance name_le_total : Total name_le.
Proof. intros a b. apply lex_le_total. Qed.

#[global] Instance name_le_trans : Transitive name_le.
Proof. intros a b c. apply lex_le_trans. Qed.

#[global] Instance name_le_antisym : AntiSymm (=) name_le.
Proof. intros a b. apply lex_le_antisym. Qed.

Section Certificates.
Context (matches : bytes -> bool).

(** The rows a certificate satisfies. *)
Definition hit (row : bytes * Credential) : bool :=
  match cr_subject row.2 with Some subject => matches subject | None => false end.

Definition hits (rows : list (bytes * Credential)) : list (bytes * Credential) := filter (fun row => hit row = true) rows.

Definition identity_of (row : bytes * Credential) : Identity := mkIdentity row.1 (cr_roles row.2).

Lemma hits_cons row rows : hits (row :: rows) = if hit row then row :: hits rows else hits rows.
Proof. unfold hits. rewrite filter_cons. by destruct (hit row). Qed.

Lemma certificate_miss row rows found ambiguous :
  hit row = false -> certificate_loop matches (row :: rows) found ambiguous = certificate_loop matches rows found ambiguous.
Proof.
  destruct row as [name c]. unfold hit. cbn [snd certificate_loop]. destruct (cr_subject c); [|done]. by intros ->.
Qed.

Lemma certificate_hit row rows found ambiguous :
  hit row = true ->
  certificate_loop matches (row :: rows) found ambiguous =
  match found with
  | None => certificate_loop matches rows (Some (identity_of row)) ambiguous
  | Some first =>
      certificate_loop matches rows found
        ((if bool_decide (ambiguous = []) then [id_name first] else ambiguous) ++ [row.1])
  end.
Proof.
  destruct row as [name c]. unfold hit. cbn [snd certificate_loop]. destruct (cr_subject c); [|done]. by intros ->.
Qed.

Lemma certificate_loop_more rows first ambiguous :
  certificate_loop matches rows (Some first) ambiguous =
  (Some first, match hits rows with
               | [] => ambiguous
               | _ => (if bool_decide (ambiguous = []) then [id_name first] else ambiguous) ++ (hits rows).*1
               end).
Proof.
  revert ambiguous. induction rows as [|row rows IH]; intros ambiguous; [done|]. rewrite hits_cons.
  destruct (hit row) eqn:E; [|by rewrite certificate_miss].
  rewrite certificate_hit, IH by done. f_equal. set (known := if bool_decide (ambiguous = []) then _ else _).
  rewrite (bool_decide_false (known ++ [row.1] = [])) by by destruct known.
  destruct (hits rows); [done|]. cbn [fmap list_fmap]. by rewrite <- app_assoc.
Qed.

Lemma certificate_loop_none rows :
  certificate_loop matches rows None [] =
  match hits rows with
  | [] => (None, [])
  | [row] => (Some (identity_of row), [])
  | row :: _ => (Some (identity_of row), (hits rows).*1)
  end.
Proof.
  induction rows as [|row rows IH]; [done|]. rewrite hits_cons.
  destruct (hit row) eqn:E; [|by rewrite certificate_miss].
  rewrite certificate_hit, certificate_loop_more by done. rewrite bool_decide_true by done.
  by destruct (hits rows).
Qed.

Lemma hits_perm rows rows' : rows ≡ₚ rows' -> hits rows ≡ₚ hits rows'.
Proof. intros H. unfold hits. by rewrite H. Qed.

(** Which identity a certificate gives depends on the credential table alone,
    never on the order its hash map has the rows in: none where no certificate
    row claims it, the row's name and roles where exactly one does, and where
    more do a refusal that names them all, in one order. *)
Theorem certificate_unambiguous (table : Table) (rows : list (bytes * Credential)) :
  rows ≡ₚ map_to_list table ->
  identity_for_certificate rows matches =
  match hits (map_to_list table) with
  | [] => Certificate_None
  | [row] => Certificate_One (identity_of row)
  | many => Certificate_Ambiguous (merge_sort name_le many.*1)
  end.
Proof.
  intros Hp%hits_perm. unfold identity_for_certificate. rewrite certificate_loop_none.
  destruct (hits (map_to_list table)) as [|row [|row' many]] eqn:E.
  - by apply Permutation_nil_r in Hp as ->.
  - by apply Permutation_singleton_r in Hp as ->.
  - destruct (hits rows) as [|x [|y l]]; [by apply Permutation_nil_l in Hp| |].
    { by apply Permutation_length in Hp. }
    cbn [fst snd]. rewrite bool_decide_false by done. cbn [negb]. f_equal.
    apply (StronglySorted_unique name_le); [apply (StronglySorted_merge_sort name_le _)..|].
    etransitivity; [apply merge_sort_Permutation|]. etransitivity; [|symmetry; apply merge_sort_Permutation].
    by rewrite Hp.
Qed.

(** A table never has more rows claiming a certificate than names. *)
Lemma hits_table (table : Table) name c :
  (name, c) ∈ hits (map_to_list table) <-> table !! name = Some c /\ exists subject, cr_subject c = Some subject /\ matches subject = true.
Proof.
  unfold hits. rewrite list_elem_of_filter, elem_of_map_to_list. unfold hit. simpl.
  destruct (cr_subject c); naive_solver.
Qed.
End Certificates.

(** ** Reloading *)

Section Reloading.
Context `{DG : Digest} `{FS : Files}.

Definition Mirrored (s : AuthState) : Prop := as_required s = au_required (as_current s).

Lemma mirrored_refusal s conn needed : Mirrored s -> state_refusal s conn needed = refusal (as_current s) conn needed.
Proof. unfold Mirrored, state_refusal, refusal. by intros ->. Qed.

(** Whatever signals arrive, over whatever files: the gate's mirror agrees with
    the table, and the table is the one the server started with or one that
    loaded in full. *)
Theorem reload_whole (config : AuthConfig) (signals : list (option bytes)) (r : Reload) :
  Mirrored (re_state r) ->
  let r' := foldl (fun r from_env => reload config from_env r) r signals in
  Mirrored (re_state r')
  /\ (as_current (re_state r') = as_current (re_state r)
      \/ exists from_env, from_env ∈ signals /\ Auth_load config from_env = Ok (as_current (re_state r')))
  /\ as_limits (re_state r') = as_limits (re_state r).
Proof.
  cbv zeta. revert r. induction signals as [|from_env signals IH]; intros r Hm; simpl; [by auto|].
  unfold reload at 2 4 6 8. destruct (re_running r); simpl; [|specialize (IH r Hm); set_solver].
  destruct (Auth_load config from_env) as [a| |] eqn:E.
  - destruct (IH (mkReload (auth_replace (re_state r) a) true) eq_refl) as (H1 & H2 & H3). conjs; [done| |done].
    right. destruct H2 as [->|(e & ? & ?)]; [exists from_env; set_solver|exists e; set_solver].
  - specialize (IH r Hm). set_solver.
  - specialize (IH (mkReload (re_state r) false) Hm). set_solver.
Qed.
End Reloading.

(** ** Logged names *)

Lemma from_utf8_lossy_length l : (length (from_utf8_lossy l) <= length l)%nat.
Proof.
  induction l as [l IH] using (induction_ltof1 _ (@length byte)). unfold ltof in IH.
  destruct l as [|b0 l1]; [done|]. cbn [from_utf8_lossy]. cbv zeta.
  pose proof (IH l1 ltac:(simpl; lia)).
  destruct (_ <? 128); [simpl; lia|]. destruct l1 as [|b1 l2]; [simpl; lia|]. pose proof (IH l2 ltac:(simpl; lia)).
  destruct (in_range _ _ _); [destruct (cont b1); simpl in *; lia|]. destruct (negb _); [simpl in *; lia|].
  destruct l2 as [|b2 l3]; [simpl; lia|]. pose proof (IH l3 ltac:(simpl; lia)).
  destruct (negb _); [simpl in *; lia|]. destruct (in_range _ _ _); [simpl in *; lia|].
  destruct l3 as [|b3 l4]; [simpl; lia|]. pose proof (IH l4 ltac:(simpl; lia)).
  destruct (cont b3); simpl in *; lia.
Qed.

(** However long the name presented was, the log takes 64 characters and a mark
    that it was cut; a name that fits is logged as it is. *)
Theorem log_name_bounded (name : bytes) :
  len (log_name name) <= MAX_NAME_LEN + 1
  /\ (len name <= MAX_NAME_LEN -> forall s, utf8_decode name = Some s -> log_name name = s).
Proof.
  unfold log_name. cbv zeta. split.
  - pose proof (from_utf8_lossy_length (take (Z.to_nat (Z.min (len name) MAX_NAME_LEN)) name)) as H.
    rewrite length_take in H. unfold len, MAX_NAME_LEN in *. case_match; rewrite ?length_app; simpl; lia.
  - intros Hl s Hs. replace (MAX_NAME_LEN <? len name) with false by lia.
    rewrite take_ge by (unfold len in *; lia). by apply from_utf8_lossy_decode.
Qed.

(** ** Peers *)

(** A node whose start-up check passed answers a peer that signs in with the
    node's own credential and is in the table: its [TAG_SYNC] is not refused. *)
Theorem peers_may_sync `{DG : Digest} (auth_name auth_secret : text) (from_env : option bytes) (a : Auth) name secret id generation :
  check_peer_role true (credential_from auth_name auth_secret from_env) a = Ok () ->
  credential_from auth_name auth_secret from_env = Ok (Some (name, secret)) ->
  verify a (utf8_encode name) (utf8_encode secret) = Some id ->
  forall key failures, refusal a (mkConnAuth (Some id) failures) (roles_for_command (Cmd_TagSync key generation)) = None.
Proof.
  unfold check_peer_role. intros H E Hv key failures. rewrite E in H. cbn in H. unfold roles_of in H.
  unfold verify in Hv. destruct (au_table a !! utf8_encode name) as [c|]; simpl in Hv, H; [|done].
  destruct (cr_subject c); [done|]. destruct (negb _); [done|]. case_bool_decide; [|done]. injection Hv as <-.
  unfold guard_or in H. destruct (allows (cr_roles c) Roles_PEER) eqn:Ea; [|done]. unfold refusal. simpl. by rewrite Ea.
Qed.
