(* ===== verification/Server.v ===== *)
(** [vash-server/src/dispatch.rs] and [vash-server/src/vcp.rs]: executing a
    domain command against a store, and executing a block of VCP frames for a
    connection - the header gate, the held run of writes, the fused reads and
    [AUTH].

    The store is the [Store] trait, as a class: the executor is proved against
    what the trait offers and nothing else.  Metrics, logging and the slow log
    do not change what is answered and are not modelled; a fan-out of an
    invalidation to peers is recorded as an event. *)

From S2P Require Import Prelude Bytes Text Core Record Glob Clock Arith Float Command Backend Apply Read.
From S2P Require Import Vcp VcpEncode Auth.

(** ** The [Store] trait *)

(** Writes return the store after them; reads leave it alone. *)
Class StoreOps (S : Type) := {
  st_get : S -> bytes -> Result StoreError (option Value);
  st_get_with : S -> bytes -> Result StoreError (option Value);
  st_get_many : S -> list bytes -> Result StoreError (list (option Value));
  st_get_many_with : S -> list bytes -> list (nat * option Value) * Result StoreError unit;
  st_deadline : S -> bytes -> Result StoreError (option Z);
  st_deadlines : S -> list bytes -> Result StoreError (list (option Z));
  st_set_many : S -> list SetReq -> S * Result StoreError (list Z);
  st_set_many_if : S -> list SetReq -> BatchGuard -> S * Result StoreError bool;
  st_store : S -> SetReq -> S * Result StoreError Written;
  st_get_and_touch : S -> list bytes -> Z -> S * Result StoreError (list (option Value));
  st_expire : S -> bytes -> TtlChange -> ExpireGuard -> S * Result StoreError bool;
  st_append : S -> bytes -> bytes -> S * Result StoreError Z;
  st_arithmetic : S -> Arithmetic -> S * Result StoreError (option Applied);
  st_delete : S -> bytes -> S * Result StoreError bool;
  st_delete_many : S -> list bytes -> S * Result StoreError (list bool);
  st_touch : S -> bytes -> Z -> S * Result StoreError bool;
  st_delete_by_tag : S -> bytes -> S * Result StoreError (option Z);
  st_merge_tag_generation : S -> bytes -> Z -> S * Result StoreError Z;
  st_tag_generations : S -> Result StoreError (list TagGeneration);
  st_flush : S -> S * Result StoreError Z;
  st_list_keys : S -> ListRequest -> Z -> Result StoreError Listing;
  st_list_tags : S -> ListRequest -> Result StoreError Listing
}.

(** ** Failures *)

Record Failed := mkFailed { fd_status : Status; fd_cause : option CoreError }.

Definition Failed_status (s : Status) : Failed := mkFailed s None.

Definition to_failed (err : StoreError) : Failed :=
  match err with
  | SE_CapacityFull => Failed_status Status_CapacityFull
  | SE_Overloaded | SE_ShuttingDown => Failed_status Status_Overloaded
  | SE_Unsupported _ => Failed_status Status_Unsupported
  | SE_Core ((ValueTooLarge _ _ | KeyTooLong _ _) as cause) => mkFailed Status_TooLarge (Some cause)
  | SE_TagLimit _ => Failed_status Status_CapacityFull
  | SE_Core ((NotAnInteger | NotAFloat | Overflow | NotFinite) as cause) => mkFailed Status_NotNumeric (Some cause)
  | SE_Core cause => mkFailed Status_BadRequest (Some cause)
  | _ => Failed_status Status_Internal
  end.

Record Protocol := mkProtocol { pr_flush_enabled : bool; pr_listing_enabled : bool; pr_listing_max_scan : Z }.

(** What the server holds besides the store: fixed while commands run. *)
Record ServerConf := mkServerConf {
  sv_info : ServerInfo;
  sv_protocol : Protocol;
  sv_auth : Auth;
  sv_cluster_view : ClusterInfo;
  sv_stats : list (bytes * bytes);
  sv_version : bytes
}.

(** Whether the connection ends after a block. *)
Inductive Closing : Type := Closing_Yes | Closing_No.

Section Execute.
Context {S : Type} {SO : StoreOps S} {DG : Digest}.
Variable conf : ServerConf.
Variable now_ms : Z.

(** The store, and the invalidations handed to the cluster so far. *)
Record Server := mkServer { sv_store : S; sv_fanout : list (bytes * Z) }.

Definition Exec (A : Type) : Type := Server -> Server * Result Failed A.

#[local] Instance Exec_ret : MRet Exec := fun A a s => (s, Ok a).

#[local] Instance Exec_bind : MBind Exec :=
  fun A B f m s =>
    match m s with
    | (s', Ok a) => f a s'
    | (s', Err e) => (s', Err e)
    | (s', Panic why) => (s', Panic why)
    end.

Definition failed {A} (f : Failed) : Exec A := fun s => (s, Err f).

(** [state.store.op(..).map_err(to_failed)?] *)
Definition reading {A} (f : S -> Result StoreError A) : Exec A :=
  fun s => (s, map_err to_failed (f (sv_store s))).

Definition writing {A} (f : S -> S * Result StoreError A) : Exec A :=
  fun s => let '(store, r) := f (sv_store s) in (mkServer store (sv_fanout s), map_err to_failed r).

Definition fan_out (name : bytes) (generation : Z) : Exec unit :=
  fun s => (mkServer (sv_store s) (sv_fanout s ++ [(name, generation)]), Ok ()).

Definition listing_gate : Exec unit :=
  if pr_listing_enabled (sv_protocol conf) then mret () else failed (Failed_status Status_Unauthorized).

(** [cluster::apply_merges]: a merge that fails is skipped. *)
Fixpoint apply_merges (store : S) (entries : list (bytes * Z)) : S :=
  match entries with
  | [] => store
  | (name, generation) :: entries' =>
      if generation =? 0 then apply_merges store entries'
      else apply_merges (st_merge_tag_generation store name generation).1 entries'
  end.

(** [HashMap::from_iter]: a later entry for a name replaces an earlier one. *)
Definition last_generation (known : list TagGeneration) (name : bytes) : option Z :=
  foldl (fun found entry => if bool_decide (tg_name entry = name) then Some (tg_generation entry) else found)
    None known.

Definition sync_behind (known : list TagGeneration) (full : bool) (entries : list (bytes * Z)) : list TagGeneration :=
  let behind := omap (fun '(name, offered) =>
      match last_generation known name with
      | Some mine => if offered <? mine then Some (mkTagGeneration name mine) else None
      | None => None
      end) entries in
  let unnamed := if full then
      filter (fun entry => 0 < tg_generation entry /\ tg_name entry ∉ entries.*1) known else [] in
  firstn (Z.to_nat MAX_TAG_SYNC_ENTRIES) (behind ++ unnamed).

Definition tag_sync (full : bool) (entries : list (bytes * Z)) : Exec (list TagGeneration) :=
  known ← reading st_tag_generations;
  let behind := sync_behind known full entries in
  _ ← ((fun s => (mkServer (apply_merges (sv_store s) entries) (sv_fanout s), Ok ())) : Exec unit);
  mret behind.

(** [execute_inner]; [execute] only counts around it. *)
Definition execute (command : Command) : Exec Reply :=
  match command with
  | Cmd_Ping => mret Reply_Pong
  | Cmd_Hello protocol_version =>
      if negb (protocol_version =? PROTOCOL_VERSION) then failed (Failed_status Status_Unsupported)
      else mret (Reply_Hello (sv_info conf))
  | Cmd_Get key =>
      value ← reading (fun s => st_get s key);
      mret (match value with Some value => Reply_Value value | None => Reply_NotFound end)
  | Cmd_GetMany keys =>
      values ← reading (fun s => st_get_many s (KeyList_as_slice keys));
      mret (Reply_Values values)
  | Cmd_Set set =>
      written ← writing (fun s => st_store s set);
      mret (if s_return_previous set then Reply_Swapped (w_outcome written) (w_previous written)
            else Reply_Stored (w_outcome written))
  | Cmd_GetAndTouch keys ttl_secs =>
      values ← writing (fun s => st_get_and_touch s (KeyList_as_slice keys) ttl_secs);
      mret (Reply_Values values)
  | Cmd_Deadline key => deadline ← reading (fun s => st_deadline s key); mret (Reply_Deadline deadline)
  | Cmd_Deadlines keys => deadlines ← reading (fun s => st_deadlines s keys); mret (Reply_Deadlines deadlines)
  | Cmd_Expire key ttl guard =>
      applied ← writing (fun s => st_expire s key ttl guard); mret (Reply_Applied applied)
  | Cmd_Append key suffix => n ← writing (fun s => st_append s key suffix); mret (Reply_Length n)
  | Cmd_Arithmetic op =>
      applied ← writing (fun s => st_arithmetic s op);
      mret (match applied with Some applied => Reply_Arithmetic applied | None => Reply_NotFound end)
  | Cmd_Stats => mret (Reply_Stats (sv_stats conf))
  | Cmd_Version => mret (Reply_Version (sv_version conf))
  | Cmd_Quit => mret Reply_Closing
  | Cmd_SetMany sets BatchGuard_Always =>
      cas ← writing (fun s => st_set_many s sets); mret (Reply_StoredMany cas)
  | Cmd_SetMany sets guard =>
      applied ← writing (fun s => st_set_many_if s sets guard);
      mret (if applied : bool then Reply_StoredMany [] else Reply_Stored Stored_NotStored)
  | Cmd_Delete key =>
      hit ← writing (fun s => st_delete s key); mret (if hit : bool then Reply_Deleted else Reply_NotFound)
  | Cmd_DeleteMany keys => hits ← writing (fun s => st_delete_many s keys); mret (Reply_DeletedMany hits)
  | Cmd_Touch key ttl_secs =>
      hit ← writing (fun s => st_touch s key ttl_secs);
      mret (if hit : bool then Reply_Touched else Reply_NotFound)
  | Cmd_DeleteByTag tag =>
      generation ← writing (fun s => st_delete_by_tag s tag);
      match generation with
      | Some generation => _ ← fan_out tag generation; mret (Reply_Invalidated true)
      | None => mret (Reply_Invalidated false)
      end
  | Cmd_TagSync full entries => behind ← tag_sync full entries; mret (Reply_TagSync behind)
  | Cmd_Cluster => mret (Reply_Cluster (sv_cluster_view conf))
  | Cmd_Flush =>
      if negb (pr_flush_enabled (sv_protocol conf)) then failed (Failed_status Status_Unauthorized)
      else epoch ← writing st_flush; mret (Reply_Flushed epoch)
  | Cmd_ListKeys request =>
      _ ← listing_gate;
      listing ← reading (fun s => st_list_keys s request (pr_listing_max_scan (sv_protocol conf)));
      mret (Reply_Listing listing)
  | Cmd_ListTags request =>
      _ ← listing_gate;
      listing ← reading (fun s => st_list_tags s request);
      mret (Reply_Listing listing)
  end.

(** ** The held run of writes ([SetBatch]) *)

Record VcpReply := mkVcpReply { vr_opcode : Opcode; vr_request_id : Z; vr_no_reply : bool }.

(** The writes held, each with the note its answer needs. *)
Definition SetBatch (N : Type) : Type := list (SetReq * N).

Definition batchable (command : Command) : option SetReq :=
  match command with
  | Cmd_Set set =>
      if bool_decide (s_mode set = SetMode_Set) && negb (s_return_previous set) then Some set else None
  | _ => None
  end.

(** Writes a task may await. *)
Definition awaitable_set (set : SetReq) : bool :=
  bool_decide (s_mode set = SetMode_Set) && negb (s_return_previous set) && bool_decide (s_tags set = []).

Definition awaitable (command : Command) : bool :=
  match batchable command with Some set => awaitable_set set | None => false end.

Definition holds {N} (batch : SetBatch N) (key : bytes) : bool := existsb (fun '(set, _) => bool_decide (s_key set = key)) batch.

(** What the executor threads from frame to frame. *)
Record Conn (N : Type) :=
  mkConn { cn_server : Server; cn_auth : ConnAuth; cn_out : bytes; cn_batch : SetBatch N }.

Arguments mkConn {N} cn_server cn_auth cn_out cn_batch.
Arguments cn_server {N} c.
Arguments cn_auth {N} c.
Arguments cn_out {N} c.
Arguments cn_batch {N} c.

(** The verdict of one retried write. *)
Definition retried (outcome : Result Failed Reply) : Result Failed Z :=
  match outcome with
  | Ok (Reply_Stored (Stored_Stored cas)) => Ok cas
  | Ok _ => Err (Failed_status Status_Internal)
  | Err f => Err f
  | Panic why => Panic why
  end.

Section Flush.
Context {N : Type}.
(** How a dialect answers one of the writes. *)
Variable render : bytes -> N -> Result Failed Z -> bytes.

Fixpoint retry_loop (batch : SetBatch N) (s : Server) (out : bytes) : Server * bytes :=
  match batch with
  | [] => (s, out)
  | (set, note) :: batch' =>
      let '(s', outcome) := execute (Cmd_Set set) s in
      retry_loop batch' s' (render out note (retried outcome))
  end.

(** [SetBatch::flush]. *)
Definition flush_batch (c : Conn N) : Conn N :=
  match cn_batch c with
  | [] => c
  | batch =>
      let '(store, r) := st_set_many (sv_store (cn_server c)) (fst <$> batch) in
      let server := mkServer store (sv_fanout (cn_server c)) in
      match r with
      | Ok cas =>
          let out := foldl (fun out '(index, note) => render out note (Ok (default 0 (cas !! index))))
                       (cn_out c) (imap (fun index entry => (index, entry.2)) batch) in
          mkConn server (cn_auth c) out []
      | Err _ =>
          let '(server, out) := retry_loop batch server (cn_out c) in
          mkConn server (cn_auth c) out []
      | Panic _ => mkConn server (cn_auth c) (cn_out c) []
      end
  end.

End Flush.

Definition render_write (out : bytes) (reply : VcpReply) (result : Result Failed Z) : bytes :=
  if vr_no_reply reply then out
  else match result with
       | Ok cas => encode_reply out (vr_opcode reply) (vr_request_id reply) (Reply_Stored (Stored_Stored cas))
       | Err f => encode_error out (Opcode_code (vr_opcode reply)) (vr_request_id reply) (fd_status f)
       | Panic _ => out
       end.

Definition flush_vcp (c : Conn VcpReply) : Conn VcpReply := flush_batch render_write c.

(** ** The header gate *)

Record RefusedFrame := mkRefusedFrame {
  rf_opcode : Z;
  rf_request_id : Z;
  rf_no_reply : bool;
  rf_missing : option Roles
}.

Definition byte_at (i : nat) (b : bytes) : Z := le_val (firstn 1 (skipn i b)).

Definition header_refusal (conn : ConnAuth) (frame : bytes) : option RefusedFrame :=
  if len frame <? HEADER_LEN then None
  else
    let opcode := byte_at 0 frame in
    let refused := fun missing =>
      Some (mkRefusedFrame opcode (le_val (firstn 4 (skipn 4 frame)))
              (negb (Z.land (byte_at 1 frame) flags_NO_REPLY =? 0)) missing) in
    if negb (is_authenticated conn)
       && ((opcode =? Opcode_code Opcode_Hello) || (opcode =? Opcode_code Opcode_Auth)) then None
    else
      match Opcode_from_u8 opcode with
      | None =>
          match refusal (sv_auth conf) conn Roles_NONE with
          | Some Refused_Unauthenticated => refused None
          | _ => None
          end
      | Some known =>
          match refusal (sv_auth conf) conn (roles_for_opcode known) with
          | None => None
          | Some Refused_Unauthenticated => refused None
          | Some (Refused_Missing missing) => refused (Some missing)
          end
      end.

(** ** [AUTH] *)

Definition execute_auth (c : Conn VcpReply) (request_id : Z) (auth : AuthRequest) : Conn VcpReply :=
  let '(conn, body, status) :=
    match Mechanism_from_u8 (au_mechanism auth) with
    | Some Mechanism_HmacSha256 | None => (cn_auth c, [], Status_Unsupported)
    | Some Mechanism_Plain =>
        let name := if len (au_name auth) =? 0 then DEFAULT_NAME else au_name auth in
        match verify (sv_auth conf) name (au_secret auth) with
        | Some identity => (succeed (cn_auth c) identity, le_bytes 1 (id_roles identity), Status_Ok)
        | None => (auth_fail (cn_auth c), [], Status_Unauthorized)
        end
    end in
  mkConn (cn_server c) conn (encode_response (cn_out c) Opcode_Auth request_id status body) (cn_batch c).

(** ** One frame *)

Definition offset_to_store_ttl (ttl : TtlChange) : TtlChange :=
  match ttl with
  | Ttl_Set offset => Ttl_Set (ttl_from_offset now_ms offset)
  | Ttl_SetIfPersistent offset => Ttl_SetIfPersistent (ttl_from_offset now_ms offset)
  | Ttl_Keep => Ttl_Keep
  end.

Definition set_with_store_ttl (set : SetReq) : SetReq :=
  mkSet (s_key set) (s_value set) (offset_to_store_ttl (s_ttl set)) (s_mc_flags set) (s_tags set) (s_mode set)
    (s_return_previous set).

Definition offsets_to_store_ttls (command : Command) : Command :=
  match command with
  | Cmd_Set set => Cmd_Set (set_with_store_ttl set)
  | Cmd_SetMany sets guard => Cmd_SetMany (set_with_store_ttl <$> sets) guard
  | Cmd_Touch key ttl_secs => Cmd_Touch key (ttl_from_offset now_ms ttl_secs)
  | c => c
  end.

Definition with_out {N} (c : Conn N) (out : bytes) : Conn N := mkConn (cn_server c) (cn_auth c) out (cn_batch c).

Definition push_error (c : Conn VcpReply) (raw_opcode request_id : Z) (status : Status) : Conn VcpReply :=
  with_out c (encode_error (cn_out c) raw_opcode request_id status).

(** The fused [GET]. *)
Definition get_into (c : Conn VcpReply) (r : Request) (key : bytes) : Conn VcpReply :=
  match st_get_with (sv_store (cn_server c)) key with
  | Ok (Some value) => with_out c (encode_value (cn_out c) (rq_opcode r) (rq_request_id r) value)
  | Ok None => with_out c (encode_reply (cn_out c) (rq_opcode r) (rq_request_id r) Reply_NotFound)
  | Err e => push_error c (Opcode_code (rq_opcode r)) (rq_request_id r) (fd_status (to_failed e))
  | Panic _ => c
  end.

Definition frame_push (out : bytes) (value : option Value) : bytes :=
  match value with Some value => ValuesFrame_hit out value | None => ValuesFrame_miss out end.

(** The fused [GET_MANY]. *)
Definition get_many_into (c : Conn VcpReply) (r : Request) (keys : list bytes) : Conn VcpReply :=
  let '(opened, frame) := ValuesFrame_open (cn_out c) (rq_opcode r) (rq_request_id r) (wrapping 32 (len keys)) in
  let '(rendered, outcome) := st_get_many_with (sv_store (cn_server c)) keys in
  let out := foldl (fun out '(_, value) => frame_push out value) opened rendered in
  match outcome with
  | Ok _ =>
      let '(out, fits) := ValuesFrame_finish frame out in
      if fits : bool then with_out c out
      else push_error (with_out c out) (Opcode_code (rq_opcode r)) (rq_request_id r) Status_TooLarge
  | Err e =>
      push_error (with_out c (ValuesFrame_abandon frame out)) (Opcode_code (rq_opcode r)) (rq_request_id r)
        (fd_status (to_failed e))
  | Panic _ => c
  end.

Definition execute_request (c : Conn VcpReply) (r : Request) : Conn VcpReply :=
  let command := offsets_to_store_ttls (rq_command r) in
  match batchable command with
  | Some set =>
      let c := if holds (cn_batch c) (s_key set) then flush_vcp c else c in
      mkConn (cn_server c) (cn_auth c) (cn_out c)
        (cn_batch c ++ [(set, mkVcpReply (rq_opcode r) (rq_request_id r) (rq_no_reply r))])
  | None =>
      let c := flush_vcp c in
      let general :=
        let '(server, result) := execute command (cn_server c) in
        let c := mkConn server (cn_auth c) (cn_out c) (cn_batch c) in
        if rq_no_reply r then c
        else match result with
             | Ok reply => with_out c (encode_reply (cn_out c) (rq_opcode r) (rq_request_id r) reply)
             | Err f => push_error c (Opcode_code (rq_opcode r)) (rq_request_id r) (fd_status f)
             | Panic _ => c
             end in
      match command with
      | Cmd_Get key => if negb (rq_no_reply r) then get_into c r key else general
      | Cmd_GetMany keys =>
          if negb (rq_no_reply r) && negb (len (KeyList_as_slice keys) =? 0)
          then get_many_into c r (KeyList_as_slice keys) else general
      | _ => general
      end
  end.

Definition execute_frame_batched (c : Conn VcpReply) (frame : bytes) : Conn VcpReply :=
  match header_refusal (cn_auth c) frame with
  | Some refused =>
      let c := flush_vcp c in
      if rf_no_reply refused then c
      else push_error c (rf_opcode refused) (rf_request_id refused) Status_Unauthorized
  | None =>
      match decode frame with
      | Ok (Decoded_Auth request_id auth _) => execute_auth (flush_vcp c) request_id auth
      | Ok (Decoded_Request request _) => execute_request c request
      | Err (Decode_Body request_id opcode _ status _) => push_error (flush_vcp c) opcode request_id status
      | Ok (Decoded_Incomplete _) | Err (Decode_Fatal _) | Panic _ => push_error (flush_vcp c) 0 0 Status_Internal
      end
  end.

Definition execute_frame_into (c : Conn VcpReply) (frame : bytes) : Conn VcpReply := flush_vcp (execute_frame_batched c frame).

(** ** A block *)

(** One round per frame: each takes at least a header off the block, so the
    length of the block is fuel enough. *)
Fixpoint block_loop (fuel : nat) (c : Conn VcpReply) (rest : bytes) : Conn VcpReply :=
  match fuel with
  | O => c
  | Datatypes.S fuel' =>
      match rest with
      | [] => c
      | _ =>
          match peek_frame_len rest with
          | FrameLen_Complete n =>
              block_loop fuel' (execute_frame_batched c (firstn (Z.to_nat n) rest)) (skipn (Z.to_nat n) rest)
          | _ => c
          end
      end
  end.

Definition execute_vcp_block (s : Server) (conn : ConnAuth) (block out : bytes) : Server * ConnAuth * bytes :=
  let c := flush_vcp (block_loop (length block) (mkConn s conn out []) block) in
  (cn_server c, cn_auth c, cn_out c).

End Execute.

Arguments Server : clear implicits.
Arguments Conn : clear implicits.
Arguments mkConn {S N} cn_server cn_auth cn_out cn_batch.
Arguments cn_server {S N} c.
Arguments cn_auth {S N} c.
Arguments cn_out {S N} c.
Arguments cn_batch {S N} c.
