(* ===== verification/ServerBatch.v ===== *)
(** Running commands and holding writes back, for any dialect: what a store
    promises, that nothing panics over one that keeps its promises, and that
    flushing a held run is writing its writes in turn. *)

From S2P Require Import Prelude Bytes Text Core Record Glob Clock Arith Float Command Backend Apply Read.
From S2P Require Import Vcp VcpEncode Auth Server.

(** ** The promises of a store *)

Definition no_panic {E A} (r : Result E A) : Prop := match r with Panic _ => False | _ => True end.

(** No operation of the trait panics. *)
Class StoreTotal (S : Type) {SO : StoreOps S} : Prop := {
  tot_get s k : no_panic (st_get s k);
  tot_get_with s k : no_panic (st_get_with s k);
  tot_get_many s ks : no_panic (st_get_many s ks);
  tot_get_many_with s ks : no_panic (st_get_many_with s ks).2;
  tot_deadline s k : no_panic (st_deadline s k);
  tot_deadlines s ks : no_panic (st_deadlines s ks);
  tot_set_many s l : no_panic (st_set_many s l).2;
  tot_set_many_if s l g : no_panic (st_set_many_if s l g).2;
  tot_store s r : no_panic (st_store s r).2;
  tot_get_and_touch s ks t : no_panic (st_get_and_touch s ks t).2;
  tot_expire s k t g : no_panic (st_expire s k t g).2;
  tot_append s k x : no_panic (st_append s k x).2;
  tot_arithmetic s op : no_panic (st_arithmetic s op).2;
  tot_delete s k : no_panic (st_delete s k).2;
  tot_delete_many s ks : no_panic (st_delete_many s ks).2;
  tot_touch s k t : no_panic (st_touch s k t).2;
  tot_delete_by_tag s t : no_panic (st_delete_by_tag s t).2;
  tot_tag_generations s : no_panic (st_tag_generations s);
  tot_flush s : no_panic (st_flush s).2;
  tot_list_keys s r n : no_panic (st_list_keys s r n);
  tot_list_tags s r : no_panic (st_list_tags s r)
}.

Create HintDb total.
#[export] Hint Resolve tot_get tot_get_with tot_get_many tot_get_many_with tot_deadline tot_deadlines
  tot_set_many tot_set_many_if tot_store tot_get_and_touch tot_expire tot_append tot_arithmetic tot_delete
  tot_delete_many tot_touch tot_delete_by_tag tot_tag_generations tot_flush tot_list_keys tot_list_tags : total.

(** A [SET] that stores whatever is there and reads nothing back. *)
Definition plain (set : SetReq) : Prop := s_mode set = SetMode_Set /\ s_return_previous set = false.

Section StoreAll.
Context {S : Type} {SO : StoreOps S}.

Fixpoint store_all (s : S) (sets : list SetReq) : S * list (Result StoreError Written) :=
  match sets with
  | [] => (s, [])
  | set :: sets' =>
      let '(s, r) := st_store s set in
      let '(s, rs) := store_all s sets' in (s, r :: rs)
  end.

End StoreAll.

(** [set_many] applies the whole batch, as the same writes one by one would, or
    none of it; a plain write that is accepted is stored; the reads that hand
    their values to a visitor give the values the plain reads give. *)
Class StoreBatch (S : Type) {SO : StoreOps S} : Prop := {
  bat_all s sets s' cas :
    NoDup (s_key <$> sets) -> Forall plain sets -> st_set_many s sets = (s', Ok cas) ->
    exists written, store_all s sets = (s', written)
      /\ (forall i r, written !! i = Some r ->
          exists w c, r = Ok w /\ w_outcome w = Stored_Stored c /\ cas !! i = Some c);
  bat_none s sets s' e : st_set_many s sets = (s', Err e) -> s' = s;
  bat_stored s set s' w :
    plain set -> st_store s set = (s', Ok w) -> exists c, w_outcome w = Stored_Stored c;
  bat_get_with s k : st_get_with s k = st_get s k;
  bat_get_many_with s ks :
    match st_get_many s ks with
    | Ok vs => st_get_many_with s ks = (imap (fun i v => (i, v)) vs, Ok ()) /\ length vs = length ks
    | Err e => (st_get_many_with s ks).2 = Err e
    | Panic _ => False
    end
}.

(** [set_many] applies what it is given in the order it is given, a repeated key
    included. *)
Class StoreInOrder (S : Type) {SO : StoreOps S} : Prop := {
  bio_all s sets s' cas :
    Forall plain sets -> st_set_many s sets = (s', Ok cas) ->
    exists written, store_all s sets = (s', written)
      /\ Forall (fun r => exists w c, r = Ok w /\ w_outcome w = Stored_Stored c) written
}.

(** A page of keys with more after it has examined a record, unless it may
    examine none; no page examines more than one record past its budget. *)
Class StoreListing (S : Type) {SO : StoreOps S} : Prop := {
  lst_progress s request budget page :
    st_list_keys s request budget = Ok page -> l_cursor page <> None -> 0 < budget -> 0 < l_scanned page;
  lst_bounded s request budget page :
    st_list_keys s request budget = Ok page -> 0 <= budget -> 0 <= l_scanned page <= budget + 1
}.

Section Total.
Context {S : Type} {SO : StoreOps S} {ST : StoreTotal S}.
Variable conf : ServerConf.

(** ** Execution never panics *)

Lemma map_err_total {E F A} (f : E -> F) (r : Result E A) : no_panic r -> no_panic (map_err f r).
Proof. by destruct r. Qed.

Definition exec_total {A} (m : @Exec S A) : Prop := forall s, no_panic (m s).2.

Lemma reading_total {A} (f : S -> Result StoreError A) : (forall s, no_panic (f s)) -> exec_total (reading f).
Proof. intros H s. cbn. by apply map_err_total. Qed.

Lemma writing_total {A} (f : S -> S * Result StoreError A) : (forall s, no_panic (f s).2) -> exec_total (writing f).
Proof. intros H s. unfold writing. specialize (H (sv_store s)). destruct (f (sv_store s)). by apply map_err_total. Qed.

Lemma bind_total {A B} (m : @Exec S A) (f : A -> Exec B) :
  exec_total m -> (forall a, exec_total (f a)) -> exec_total (Exec_bind A B f m).
Proof.
  intros Hm Hf s. unfold Exec_bind. specialize (Hm s). destruct (m s) as [s' [a|e|why]]; [apply Hf|done..].
Qed.

Lemma ret_total {A} (a : A) : exec_total (Exec_ret A a).
Proof. done. Qed.

Lemma failed_total {A} f : exec_total (@failed S A f).
Proof. done. Qed.

Lemma execute_total c : exec_total (execute conf c).
Proof.
  destruct c as [| | | | |sets [| |]| | | | | | | | | | | | | | | | | |]; cbn [execute]; unfold listing_gate, tag_sync, fan_out;
    repeat first [ apply ret_total | apply failed_total | progress cbv zeta
                 | apply bind_total; [|intros ?]
                 | apply reading_total; intros ?; solve [auto with total]
                 | apply writing_total; intros ?; solve [auto with total]
                 | case_match | done ].
Qed.

Lemma retried_total r : no_panic r -> no_panic (retried r).
Proof. destruct r as [[| | | |[]| | | | | | | | | | | | | | | | | | |]| |]; done. Qed.

End Total.

(** ** The held run *)

Lemma execute_set {S} {SO : StoreOps S} conf (s : Server S) set :
  plain set ->
  execute conf (Cmd_Set set) s
  = (mkServer (st_store (sv_store s) set).1 (sv_fanout s),
     match (st_store (sv_store s) set).2 with
     | Ok w => Ok (Reply_Stored (w_outcome w))
     | Err e => Err (to_failed e)
     | Panic why => Panic why
     end).
Proof.
  intros [_ Hp]. cbn [execute]. rewrite Hp. unfold mbind, Exec_bind, writing.
  destruct (st_store _ _) as [s' [w|e|why]]; reflexivity.
Qed.


Lemma batchable_inv command set : batchable command = Some set -> command = Cmd_Set set /\ plain set.
Proof.
  destruct command; try done. cbn. case_bool_decide; [|done]. destruct (s_return_previous set0) eqn:E; [done|].
  intros [= <-]. done.
Qed.

Section Batch.
Context {S : Type} {SO : StoreOps S} {ST : StoreTotal S}.
Variable conf : ServerConf.
Context {N : Type}.
Variable render : bytes -> N -> Result Failed Z -> bytes.

Lemma retry_loop_verdicts (batch : SetBatch N) (s : Server S) out :
  exists verdicts, length verdicts = length batch /\ Forall no_panic verdicts
    /\ (retry_loop conf render batch s out).2
       = foldl (fun out '(note, r) => render out note r) out (zip (snd <$> batch) verdicts).
Proof.
  revert s out. induction batch as [|[set note] batch IH]; intros s out; [by exists []|].
  cbn [retry_loop]. pose proof (execute_total conf (Cmd_Set set) s) as Ht.
  destruct (execute conf (Cmd_Set set) s) as [s' outcome]. cbn [snd] in Ht.
  destruct (IH s' (render out note (retried outcome))) as (vs & Hl & Hv & ->).
  exists (retried outcome :: vs). cbn. rewrite Hl. conjs; try done. constructor; [by apply retried_total|done].
Qed.

Lemma stored_verdicts (batch : SetBatch N) (cas : list Z) out n :
  foldl (fun out '(index, note) => render out note (Ok (default 0 (cas !! index)))) out
    (imap (fun index (entry : SetReq * N) => ((n + index)%nat, entry.2)) batch)
  = foldl (fun out '(note, r) => render out note r) out
      (zip (snd <$> batch) ((fun i => Ok (default 0 (cas !! i))) <$> seq n (length batch))).
Proof.
  revert n out. induction batch as [|[set note] batch IH]; intros n out; [done|]. cbn. rewrite Nat.add_0_r.
  rewrite <- (IH (Datatypes.S n)). f_equal. apply imap_ext. intros i x _. cbn. f_equal. lia.
Qed.

(** A flush answers every held write, in order, and holds nothing any more. *)
Lemma flush_verdicts (c : Conn S N) :
  exists verdicts, length verdicts = length (snd <$> cn_batch c) /\ Forall no_panic verdicts
    /\ cn_out (flush_batch conf render c)
       = foldl (fun out '(note, r) => render out note r) (cn_out c) (zip (snd <$> cn_batch c) verdicts)
    /\ cn_batch (flush_batch conf render c) = [] /\ cn_auth (flush_batch conf render c) = cn_auth c.
Proof.
  unfold flush_batch. destruct (cn_batch c) as [|e batch] eqn:Eb; [by exists []|].
  rewrite <- Eb. clear e batch Eb.
  pose proof (tot_set_many (sv_store (cn_server c)) (fst <$> cn_batch c)) as Ht.
  destruct (st_set_many _ _) as [store r]. cbn [snd] in Ht. destruct r as [cas|e|why]; [| |done]; cbv zeta.
  - eexists. rewrite (stored_verdicts _ _ _ 0). cbn [cn_out cn_batch cn_auth]. split; [|split]; [| |done].
    + by rewrite !length_fmap, length_seq.
    + apply Forall_fmap, Forall_true. done.
  - destruct (retry_loop_verdicts (cn_batch c) (mkServer store (sv_fanout (cn_server c))) (cn_out c)) as (vs & Hl & Hv & E).
    destruct (retry_loop _ _ _ _ _) as [server out]. cbn in E. subst out. exists vs. by rewrite length_fmap.
Qed.

Context {SB : StoreBatch S}.

(** ** Flushing the held writes is writing them in turn *)

Definition batch_ok (batch : SetBatch N) : Prop :=
  NoDup (s_key <$> (fst <$> batch)) /\ Forall plain (fst <$> batch).

Definition in_turn (c : Conn S N) : Conn S N :=
  let '(server, out) := retry_loop conf render (cn_batch c) (cn_server c) (cn_out c) in
  mkConn server (cn_auth c) out [].

Lemma flush_stored batch s written s' (cas : list Z) out n :
  Forall plain (fst <$> batch) -> store_all (sv_store s) (fst <$> batch) = (s', written) ->
  (forall i r, written !! i = Some r ->
    exists w c, r = Ok w /\ w_outcome w = Stored_Stored c /\ cas !! (n + i)%nat = Some c) ->
  retry_loop conf render batch s out
  = (mkServer s' (sv_fanout s),
     foldl (fun out '(index, note) => render out note (Ok (default 0 (cas !! index)))) out
       (imap (fun index (entry : SetReq * N) => ((n + index)%nat, entry.2)) batch)).
Proof.
  revert s written out n. induction batch as [|[set note] batch IH]; intros s written out n Hp Hs Hw.
  { cbn in Hs. injection Hs as <- <-. by destruct s. }
  cbn in Hp. apply Forall_cons in Hp as [Hp Hps]. cbn [retry_loop]. rewrite execute_set by done.
  cbn in Hs. destruct (st_store (sv_store s) set) as [s1 r]. cbn [fst snd].
  destruct (store_all s1 (fst <$> batch)) as [s2 rs] eqn:Ea. injection Hs as -> <-.
  destruct (Hw 0%nat r eq_refl) as (w & c & -> & Ho & Hc). rewrite Ho. cbn [retried]. rewrite Nat.add_0_r in Hc.
  rewrite (IH (mkServer s1 (sv_fanout s)) rs _ (Datatypes.S n) Hps Ea).
  2:{ intros i r Hi. destruct (Hw (Datatypes.S i) r Hi) as (w' & c' & ? & ? & ?). exists w', c'.
      conjs; [done..|]. by rewrite Nat.add_succ_comm. }
  cbn. rewrite Nat.add_0_r, Hc. f_equal. cbn. f_equal. apply imap_ext. intros i x _. cbn. f_equal. lia.
Qed.

Lemma flush_in_turn c : batch_ok (cn_batch c) -> flush_batch conf render c = in_turn c.
Proof.
  intros [Hn Hp]. unfold flush_batch, in_turn. destruct c as [s a out batch]. cbn [cn_batch cn_server cn_auth cn_out] in *.
  destruct batch as [|e batch]; [done|]. set (b := e :: batch) in *. clearbody b.
  pose proof (tot_set_many (sv_store s) (fst <$> b)) as Ht.
  destruct (st_set_many (sv_store s) (fst <$> b)) as [s' [cas|err|why]] eqn:E; cbn [snd] in Ht; [| |done].
  - destruct (bat_all _ _ _ _ Hn Hp E) as (written & Ha & Hw).
    by rewrite (flush_stored b s written s' cas out 0).
  - apply bat_none in E as ->. destruct s. done.
Qed.

Lemma retry_loop_app b1 b2 s out :
  retry_loop conf render (b1 ++ b2) s out
  = let '(s1, out1) := retry_loop conf render b1 s out in retry_loop conf render b2 s1 out1.
Proof.
  revert s out. induction b1 as [|[set note] b1 IH]; intros s out; [done|]. cbn [app retry_loop].
  destruct (execute conf (Cmd_Set set) s) as [s' r]. apply IH.
Qed.

Lemma in_turn_empty c : cn_batch c = [] -> in_turn c = c.
Proof. destruct c as [s a out b]. cbn. by intros ->. Qed.

Lemma in_turn_batch c : cn_batch (in_turn c) = [].
Proof. unfold in_turn. by destruct (retry_loop _ _ _ _). Qed.

Lemma in_turn_auth c : cn_auth (in_turn c) = cn_auth c.
Proof. unfold in_turn. by destruct (retry_loop _ _ _ _). Qed.

(** Holding one more write whose key is not among those held. *)
Lemma batch_ok_snoc (batch : SetBatch N) set note :
  batch_ok batch -> plain set -> holds batch (s_key set) = false -> batch_ok (batch ++ [(set, note)]).
Proof.
  intros [Hn Hps] Hp Eh. split.
  - rewrite !fmap_app. apply NoDup_app. split; [done|]. split; [|apply NoDup_singleton].
    intros k Hk ->%list_elem_of_singleton. apply list_elem_of_fmap in Hk as (x & Hx & Hin).
    apply list_elem_of_fmap in Hin as ([x' note'] & -> & Hin). cbn in Hx.
    enough (holds batch (s_key set) = true) by congruence. apply existsb_exists.
    exists (x', note'). split; [by apply list_elem_of_In|]. by apply bool_decide_eq_true_2.
  - rewrite fmap_app. apply Forall_app. split; [done|]. by apply Forall_singleton.
Qed.

Lemma batch_ok_nil : batch_ok ([] : SetBatch N).
Proof. split; constructor. Qed.

End Batch.
