(* ===== verification/ServerSpec.v ===== *)
(** What the native-protocol executor guarantees over any store that keeps the
    [Store] trait's promises: no command runs without its roles, and every
    frame of a block is answered, in the order the frames came. *)

From S2P Require Import Prelude Bytes Text Core Record Glob Clock Arith Float Command Backend Apply Read.
From S2P Require Import Vcp VcpEncode VcpClient VcpSpec VcpReply Auth Server ServerBatch.

(** ** Frames on the wire *)

Abbreviation Frame := (FrameHeader * bytes)%type.

Definition frame_bytes (f : Frame) : bytes := FrameHeader_bytes f.1 ++ f.2.

Definition whole (f : Frame) : Prop := header_fits f.1 /\ fh_body_len f.1 = len f.2 /\ len f.2 <= MAX_BODY_LEN.

(** One response frame, under this opcode byte and this request id. *)
Definition response_to (opcode id : Z) (resp : bytes) : Prop :=
  exists status body,
    resp = FrameHeader_bytes (mkFrameHeader opcode flags_RESPONSE (Status_code status) id (wrapping 32 (len body)))
           ++ body.

(** What a client may get for one of its frames: exactly one response, or, of a
    frame that asked for none, possibly nothing. *)
Definition answered (f : Frame) (resp : bytes) : Prop :=
  response_to (fh_opcode f.1) (fh_request_id f.1) resp \/ (no_reply f.1 = true /\ resp = []).

Lemma decode_whole_frame f : whole f -> decode (frame_bytes f) = verdict_of f.1 f.2.
Proof.
  intros (Hh & Hb & Hl). rewrite <- (decode_whole f.1 f.2 []) by done. by rewrite app_nil_r.
Qed.

Lemma verdict_no_reply h body r n : verdict_of h body = Ok (Decoded_Request r n) -> rq_no_reply r = no_reply h.
Proof.
  unfold verdict_of. destruct (Opcode_from_u8 _) as [op|]; [|done]. case_bool_decide.
  - by destruct (decode_auth body) as [a|[s d]|why].
  - destruct (decode_command op body) as [c|[s d]|why]; [|done..]. cbn. by intros [= <- _].
Qed.

(** The bytes of a header, where [header_refusal] looks for them. *)
Lemma header_reads f :
  whole f ->
  (len (frame_bytes f) <? HEADER_LEN) = false /\ byte_at 0 (frame_bytes f) = fh_opcode f.1
  /\ byte_at 1 (frame_bytes f) = fh_flags f.1 /\ le_val (firstn 4 (skipn 4 (frame_bytes f))) = fh_request_id f.1.
Proof.
  intros ((H1 & H2 & H3 & H4 & H5) & _ & _). unfold frame_bytes. split.
  { apply Z.ltb_ge. rewrite len_app. unfold len at 1. rewrite length_FrameHeader_bytes.
    pose proof (len_nonneg f.2). unfold HEADER_LEN. lia. }
  unfold byte_at, FrameHeader_bytes. set (h := f.1) in *. split.
  { cbn [skipn]. eapply (slice0 8 1); [rewrite <- app_assoc; reflexivity|done..]. }
  split.
  - eapply (slice 8 1 1 _ (fh_flags h) (le_bytes 1 (fh_opcode h))); [by rewrite <- !app_assoc|done..].
  - eapply (slice 32 4 4 _ (fh_request_id h) (le_bytes 1 (fh_opcode h) ++ le_bytes 1 (fh_flags h) ++ le_bytes 2 (fh_status h)));
      [by rewrite <- !app_assoc|done..].
Qed.

(** ** Responses are appended *)

Definition appends (opcode id : Z) (out out' : bytes) : Prop := exists resp, out' = out ++ resp /\ response_to opcode id resp.

Lemma encode_response_appends out op id status body :
  appends (Opcode_code op) id out (encode_response out op id status body).
Proof. eexists. split; [reflexivity|]. by exists status, body. Qed.

Lemma encode_reply_appends out op id reply : appends (Opcode_code op) id out (encode_reply out op id reply).
Proof. rewrite encode_reply_parts. apply encode_response_appends. Qed.

Lemma encode_error_appends out raw id status : appends raw id out (encode_error out raw id status).
Proof. eexists. split; [reflexivity|]. exists status, []. by rewrite app_nil_r. Qed.

Lemma encode_value_appends out op id v : appends (Opcode_code op) id out (encode_value out op id v).
Proof. exact (encode_reply_appends out op id (Reply_Value v)). Qed.

#[export] Hint Resolve encode_response_appends encode_reply_appends encode_error_appends encode_value_appends : vash.

(** ** Roles *)

(** Every command the decoder makes of an opcode needs the roles the header
    gate asked for that opcode. *)
Lemma decoded_roles op body c :
  op <> Opcode_Auth -> decode_command op body = Ok c -> roles_for_command c = roles_for_opcode op.
Proof.
  intros Ha Hd. destruct op; try done; cbn [decode_command] in Hd.
  - case_match; [done|]. by injection Hd as <-.
  - by injection Hd as <-.
  - by injection Hd as <-.
  - destruct (decode_key body); [|done..]. by injection Hd as <-.
  - pose proof (run_sound set_body _ body sound_set) as Hs. destruct (run_dec set_body body) as [s|e|w]; [|done..].
    injection Hd as <-. destruct Hs as (_ & _ & _ & _ & _ & Hp & _). cbn. by rewrite Hp.
  - destruct (decode_key body); [|done..]. by injection Hd as <-.
  - pose proof (run_sound touch_body (fun c => roles_for_command c = Roles_WRITE) body) as H. rewrite Hd in H.
    apply H. eapply sound_bind; [by apply (sound_field 32)|]. intros secs _. eapply sound_bind; [apply sound_rest|].
    intros k _. eapply sound_bind; [apply sound_key|]. intros key _. by apply sound_ret.
  - destruct (run_dec arithmetic_body body); [|done..]. by injection Hd as <-.
  - destruct (run_dec decode_key_list body); [|done..]. by injection Hd as <-.
  - pose proof (run_sound set_many_body (fun c => roles_for_command c = Roles_WRITE) body) as H. rewrite Hd in H.
    apply H. eapply sound_bind; [apply sound_count|]. intros n [Hn _].
    eapply sound_bind; [apply sound_repeat, sound_set|]. intros sets _. by apply sound_ret.
  - destruct (run_dec decode_key_list body); [|done..]. by injection Hd as <-.
  - case_match; [done|]. case_match; [done|]. by injection Hd as <-.
  - by injection Hd as <-.
  - destruct (decode_tag_sync body) as [[full entries]| |]; [|done..]. by injection Hd as <-.
  - destruct (decode_list_request body); [|done..]. by injection Hd as <-.
  - destruct (decode_list_request body); [|done..]. by injection Hd as <-.
Qed.

Lemma verdict_request h body r n :
  verdict_of h body = Ok (Decoded_Request r n) ->
  Opcode_from_u8 (fh_opcode h) = Some (rq_opcode r) /\ rq_request_id r = fh_request_id h
  /\ rq_no_reply r = no_reply h /\ rq_opcode r <> Opcode_Auth
  /\ (rq_opcode r = Opcode_Hello -> exists v, rq_command r = Cmd_Hello v)
  /\ roles_for_command (rq_command r) = roles_for_opcode (rq_opcode r).
Proof.
  unfold verdict_of. destruct (Opcode_from_u8 _) as [op|] eqn:Eo; [|done]. case_bool_decide as Ha.
  - by destruct (decode_auth body) as [a|[s d]|why].
  - destruct (decode_command op body) as [c|[s d]|why] eqn:Ed; [|done..]. intros [= <- _]. cbn.
    conjs; try done; [|by eapply decoded_roles]. intros ->. cbn in Ed. case_match; [done|]. injection Ed as <-. by eexists.
Qed.

Section Server.
Context {S : Type} {SO : StoreOps S} {ST : StoreTotal S} {DG : Digest}.
Variable conf : ServerConf.
Variable now_ms : Z.

Abbreviation Conn := (Server.Conn S VcpReply).

(** ** The gate *)

(** What the header of a frame asks for. *)
Definition needed_by (h : FrameHeader) : Roles :=
  match Opcode_from_u8 (fh_opcode h) with Some op => roles_for_opcode op | None => Roles_NONE end.

(** The two frames a connection may send to authenticate. *)
Definition introduces (conn : ConnAuth) (h : FrameHeader) : bool :=
  negb (is_authenticated conn)
  && ((fh_opcode h =? Opcode_code Opcode_Hello) || (fh_opcode h =? Opcode_code Opcode_Auth)).

Lemma no_roles_needed a conn : refusal a conn Roles_NONE = None \/ refusal a conn Roles_NONE = Some Refused_Unauthenticated.
Proof.
  unfold refusal. destruct (ca_identity conn) as [i|].
  - left. unfold allows, Roles_NONE. by rewrite Z.land_0_r.
  - destruct (au_required a); auto.
Qed.

(** The gate on the raw header is the gate on what the header asks for. *)
Lemma header_refusal_spec conn f :
  whole f ->
  match header_refusal conf conn (frame_bytes f) with
  | None => introduces conn f.1 = true \/ refusal (sv_auth conf) conn (needed_by f.1) = None
  | Some refused =>
      introduces conn f.1 = false /\ refusal (sv_auth conf) conn (needed_by f.1) <> None
      /\ rf_opcode refused = fh_opcode f.1 /\ rf_request_id refused = fh_request_id f.1
      /\ rf_no_reply refused = no_reply f.1
  end.
Proof.
  intros Hw. destruct (header_reads f Hw) as (E1 & E2 & E3 & E4). unfold header_refusal.
  rewrite E1, E2, E3, E4. fold (introduces conn f.1). cbv zeta.
  destruct (introduces conn f.1); [by left|]. unfold needed_by.
  destruct (Opcode_from_u8 (fh_opcode f.1)) as [op|].
  - destruct (refusal (sv_auth conf) conn (roles_for_opcode op)) as [[|missing]|]; [done..|by right].
  - destruct (no_roles_needed (sv_auth conf) conn) as [E|E]; rewrite E; [by right|done].
Qed.

(** ** Answers, in order *)

(** The note a held write keeps of the frame it came from. *)
Definition note_of (f : Frame) (note : VcpReply) : Prop :=
  Opcode_code (vr_opcode note) = fh_opcode f.1 /\ vr_request_id note = fh_request_id f.1
  /\ vr_no_reply note = no_reply f.1.

(** Every frame so far is answered in the buffer, or is the next of the held
    writes. *)
Definition owes (out0 : bytes) (frames : list Frame) (c : Conn) : Prop :=
  exists done held resps,
    frames = done ++ held /\ cn_out c = out0 ++ mjoin resps /\ Forall2 answered done resps
    /\ Forall2 note_of held (snd <$> cn_batch c).

Definition settled (out0 : bytes) (frames : list Frame) (c : Conn) : Prop :=
  cn_batch c = [] /\ exists resps, cn_out c = out0 ++ mjoin resps /\ Forall2 answered frames resps.

Lemma settled_owes out0 frames c : settled out0 frames c -> owes out0 frames c.
Proof.
  intros [Hb (resps & Ho & Hf)]. exists frames, [], resps. rewrite app_nil_r, Hb. by conjs.
Qed.

Lemma render_write_answers f note out r :
  note_of f note -> no_panic r -> exists resp, render_write out note r = out ++ resp /\ answered f resp.
Proof.
  intros (E1 & E2 & E3) Hp. unfold render_write, answered. rewrite <- E1, <- E2, <- E3.
  destruct (vr_no_reply note); [exists []; rewrite app_nil_r; auto|].
  destruct r as [cas|e|why]; [| |done].
  - destruct (encode_reply_appends out (vr_opcode note) (vr_request_id note) (Reply_Stored (Stored_Stored cas)))
      as (resp & -> & Hr). eauto.
  - destruct (encode_error_appends out (Opcode_code (vr_opcode note)) (vr_request_id note) (fd_status e))
      as (resp & -> & Hr). eauto.
Qed.

(** Rendering one verdict per held frame, whatever the verdicts. *)
Lemma render_all_answers held notes (verdicts : list (Result Failed Z)) out :
  Forall2 note_of held notes -> length verdicts = length notes -> Forall no_panic verdicts ->
  exists resps,
    foldl (fun out '(note, r) => render_write out note r) out (zip notes verdicts) = out ++ mjoin resps
    /\ Forall2 answered held resps.
Proof.
  intros Hn. revert verdicts out. induction Hn as [|f note held notes Hf Hn IH]; intros vs out Hl Hv.
  { exists []. cbn. by rewrite app_nil_r. }
  destruct vs as [|r vs]; [done|]. apply Forall_cons in Hv as [Hr Hv]. injection Hl as Hl.
  destruct (render_write_answers f note out r Hf Hr) as (resp & E & Ha). cbn. rewrite E.
  destruct (IH vs (out ++ resp) Hl Hv) as (resps & -> & Hrs). exists (resp :: resps). cbn.
  rewrite <- app_assoc. split; [done|]. by constructor.
Qed.

Lemma flush_settles out0 frames c : owes out0 frames c -> settled out0 frames (flush_vcp conf c).
Proof.
  intros (dn & held & resps & -> & Ho & Hd & Hh).
  destruct (flush_verdicts conf render_write c) as (vs & Hl & Hv & E & Hb & _). split; [exact Hb|].
  destruct (render_all_answers held _ vs (cn_out c) Hh Hl Hv) as (rs & Er & Hrs).
  exists (resps ++ rs). unfold flush_vcp. rewrite E, Er, Ho, join_app, <- app_assoc. split; [done|]. by apply Forall2_app.
Qed.

Lemma settled_one out0 frames c c' f resp :
  settled out0 frames c -> cn_batch c' = [] -> cn_out c' = cn_out c ++ resp -> answered f resp ->
  settled out0 (frames ++ [f]) c'.
Proof.
  intros [_ (resps & Ho & Hf)] Hb Ho' Ha. split; [done|]. exists (resps ++ [resp]).
  rewrite Ho', Ho, join_app. cbn. rewrite app_nil_r, <- app_assoc. split; [done|].
  apply Forall2_app; [done|]. constructor; [done|constructor].
Qed.

(** One response, appended under the frame's own opcode and id. *)
Lemma settled_appends out0 frames c c' f :
  settled out0 frames c -> cn_batch c' = cn_batch c ->
  appends (fh_opcode f.1) (fh_request_id f.1) (cn_out c) (cn_out c') -> settled out0 (frames ++ [f]) c'.
Proof.
  intros Hs Hb (resp & Ho & Hr). eapply settled_one; [done|by rewrite Hb; destruct Hs|done|by left].
Qed.

Lemma settled_silent out0 frames c c' f :
  settled out0 frames c -> cn_batch c' = cn_batch c -> cn_out c' = cn_out c -> no_reply f.1 = true ->
  settled out0 (frames ++ [f]) c'.
Proof.
  intros Hs Hb Ho Hn. eapply (settled_one _ _ c c' f []); [done|by rewrite Hb; destruct Hs| |by right].
  by rewrite app_nil_r.
Qed.

(** One response frame was appended, under the request's own opcode and id. *)
#[local] Ltac one_answer :=
  cbn [cn_out with_out push_error];
  lazymatch goal with
  | |- appends _ _ _ (encode_reply _ _ _ _) => apply encode_reply_appends
  | |- appends _ _ _ (encode_response _ _ _ _ _) => apply encode_response_appends
  | |- appends _ _ _ (encode_error _ _ _ _) => apply encode_error_appends
  | |- appends _ _ _ (encode_value _ _ _ _) => apply encode_value_appends
  end.

Lemma push_values_extend out values :
  exists pushed, foldl (fun out '(_, value) => frame_push out value) out (values : list (nat * option Value)) = out ++ pushed.
Proof.
  revert out. induction values as [|[i v] l IH]; intros out; [by exists []; rewrite app_nil_r|].
  cbn. destruct (IH (frame_push out v)) as (p & ->).
  destruct v as [v|]; cbn; unfold ValuesFrame_hit, ValuesFrame_miss; rewrite <- app_assoc; by eexists.
Qed.

Lemma get_many_into_appends c r keys :
  appends (Opcode_code (rq_opcode r)) (rq_request_id r) (cn_out c) (cn_out (get_many_into c r keys))
  /\ cn_batch (get_many_into c r keys) = cn_batch c.
Proof.
  unfold get_many_into. pose proof (finish_frame (cn_out c) (rq_opcode r) (rq_request_id r) (wrapping 32 (len keys))) as Hf.
  destruct (ValuesFrame_open _ _ _ _) as [opened frame] eqn:E.
  pose proof (tot_get_many_with (sv_store (cn_server c)) keys) as Ht.
  destruct (st_get_many_with _ _) as [rendered outcome]. cbn [snd] in Ht. cbv zeta.
  destruct (push_values_extend opened rendered) as (pushed & ->).
  destruct outcome as [|e|why]; [| |done].
  - rewrite Hf. destruct (_ <=? _); (split; [|done]); one_answer.
  - injection E as <- <-. split; [|done]. unfold ValuesFrame_abandon. cbn [vf_start].
    rewrite <- !app_assoc, take_length_app. cbn. apply encode_error_appends.
Qed.

Lemma get_into_appends c r key :
  appends (Opcode_code (rq_opcode r)) (rq_request_id r) (cn_out c) (cn_out (get_into c r key))
  /\ cn_batch (get_into c r key) = cn_batch c.
Proof.
  unfold get_into. pose proof (tot_get_with (sv_store (cn_server c)) key) as Ht.
  destruct (st_get_with _ _) as [[v|]|e|why]; [| | |done]; (split; [one_answer|reflexivity]).
Qed.

(** A request against the frame it was decoded from. *)
Definition from_frame (f : Frame) (r : Request) : Prop :=
  Opcode_code (rq_opcode r) = fh_opcode f.1 /\ rq_request_id r = fh_request_id f.1 /\ rq_no_reply r = no_reply f.1.

(** The general path: one response, or none when none was asked for. *)
Lemma general_settles out0 frames c f r command :
  from_frame f r -> settled out0 frames c ->
  settled out0 (frames ++ [f])
    (let '(server, result) := execute conf command (cn_server c) in
     let c := mkConn server (cn_auth c) (cn_out c) (cn_batch c) in
     if rq_no_reply r then c
     else match result with
          | Ok reply => with_out c (encode_reply (cn_out c) (rq_opcode r) (rq_request_id r) reply)
          | Err e => push_error c (Opcode_code (rq_opcode r)) (rq_request_id r) (fd_status e)
          | Panic _ => c
          end).
Proof.
  intros (E1 & E2 & E3) Hs. pose proof (execute_total conf command (cn_server c)) as Ht.
  destruct (execute _ _ _) as [server result]. cbn [snd] in Ht. cbv zeta.
  destruct (rq_no_reply r) eqn:En; [by eapply (settled_silent _ _ c)|].
  destruct result as [reply|e|why]; [| |done]; eapply (settled_appends _ _ c); try done; rewrite <- E1, <- E2; one_answer.
Qed.

Lemma execute_request_owes out0 frames c f r :
  from_frame f r -> owes out0 frames c -> owes out0 (frames ++ [f]) (execute_request conf now_ms c r).
Proof.
  intros Hr Hc. unfold execute_request. cbv zeta.
  destruct (batchable _) as [set|] eqn:Eb.
  - assert (owes out0 frames (if holds (cn_batch c) (s_key set) then flush_vcp conf c else c)) as H
      by (destruct (holds _ _); [by apply settled_owes, flush_settles|done]).
    destruct H as (dn & held & resps & -> & Ho & Hd & Hh). exists dn, (held ++ [f]), resps.
    rewrite app_assoc. conjs; try done. cbn [cn_batch]. rewrite fmap_app. apply Forall2_app; [done|].
    destruct Hr as (E1 & E2 & E3). constructor; [done|constructor].
  - apply settled_owes. apply flush_settles in Hc. set (c' := flush_vcp conf c) in *.
    pose proof (general_settles _ _ c' f r (offsets_to_store_ttls now_ms (rq_command r)) Hr Hc) as Hg.
    destruct Hr as (E1 & E2 & E3).
    destruct (offsets_to_store_ttls now_ms (rq_command r)) as [| |key|keys| | | | | | | | | | | | | | | | | | | |]; try exact Hg.
    + destruct (get_into_appends c' r key) as [Ha Hb'].
      destruct (negb (rq_no_reply r)); [|exact Hg]. eapply (settled_appends _ _ c'); [done|done|]. by rewrite <- E1, <- E2.
    + destruct (get_many_into_appends c' r (KeyList_as_slice keys)) as [Ha Hb'].
      destruct (_ && _); [|exact Hg]. eapply (settled_appends _ _ c'); [done|done|]. by rewrite <- E1, <- E2.
Qed.

Lemma frame_owes out0 frames c f :
  whole f -> owes out0 frames c -> owes out0 (frames ++ [f]) (execute_frame_batched conf now_ms c (frame_bytes f)).
Proof.
  intros Hw Hc. unfold execute_frame_batched. pose proof (header_refusal_spec (cn_auth c) f Hw) as Hr.
  pose proof (flush_settles _ _ _ Hc) as Hs. set (c' := flush_vcp conf c) in *. cbv zeta.
  destruct (header_refusal _ _ _) as [refused|].
  { destruct Hr as (_ & _ & E1 & E2 & E3). rewrite E1, E2, E3. apply settled_owes.
    destruct (no_reply f.1) eqn:En; [by eapply settled_silent|].
    eapply (settled_appends _ _ c'); [done|done|]. one_answer. }
  clear Hr. rewrite decode_whole_frame by done. pose proof (verdict_sound f.1 f.2) as Hv.
  destruct (verdict_of f.1 f.2) as [[|r n|id auth n]|[|id op n s d]|why] eqn:E; try done.
  - destruct Hv as (_ & _ & E2 & E1 & _). apply execute_request_owes; [|done].
    split; [done|]. split; [done|]. by eapply verdict_no_reply.
  - destruct Hv as (_ & -> & E1 & _). apply settled_owes. unfold execute_auth.
    repeat case_match; eapply (settled_appends _ _ c'); try done; rewrite E1; one_answer.
  - destruct Hv as (_ & -> & ->). apply settled_owes. eapply (settled_appends _ _ c'); [done|done|]. one_answer.
Qed.

(** *** Blocks *)

(** What a block is cut into. *)
Definition cut (block : bytes) (frames : list Frame) (tail : bytes) : Prop :=
  Forall whole frames /\ block = mjoin (frame_bytes <$> frames) ++ tail
  /\ forall n, peek_frame_len tail <> FrameLen_Complete n.

(** There is one way to cut a block. *)
Lemma cut_cons f rest frames tail :
  whole f -> cut (frame_bytes f ++ rest) frames tail -> exists frames', frames = f :: frames' /\ cut rest frames' tail.
Proof.
  intros (Hh & Hb & Hl) (Hf & E & Ht).
  assert (FrameHeader_from_prefix (frame_bytes f ++ rest) = Some (f.1, f.2 ++ rest)) as Ef.
  { unfold frame_bytes. rewrite <- app_assoc. by apply FrameHeader_from_prefix_app. }
  destruct frames as [|g frames].
  - exfalso. cbn in E. subst tail. apply (Ht (HEADER_LEN + fh_body_len f.1)). unfold peek_frame_len. rewrite Ef.
    rewrite (proj2 (Z.ltb_ge _ _)) by lia. unfold frame_bytes. rewrite <- app_assoc, !len_app.
    assert (len (FrameHeader_bytes f.1) = HEADER_LEN) as -> by (unfold len; by rewrite length_FrameHeader_bytes).
    pose proof (len_nonneg rest). by rewrite (proj2 (Z.ltb_ge _ _)) by lia.
  - apply Forall_cons in Hf as [(Gh & Gb & Gl) Hf]. cbn [fmap list_fmap mjoin list_join] in E. rewrite <- app_assoc in E.
    rewrite E in Ef. unfold frame_bytes in Ef at 1. rewrite <- app_assoc in Ef.
    rewrite FrameHeader_from_prefix_app in Ef by done. injection Ef as Eh Er.
    apply app_inj_1 in Er as [E2 E3]; [|unfold len in *; rewrite Eh in Gb; lia].
    exists frames. split; [f_equal; destruct f, g; cbn in *; congruence|]. by split_and!.
Qed.

Lemma cut_nil frames tail : cut [] frames tail -> frames = [] /\ tail = [].
Proof.
  intros (_ & E & _). destruct frames as [|f frames]; [by destruct tail|]. exfalso.
  apply (f_equal length) in E. cbn in E. unfold frame_bytes in E. rewrite !length_app, length_FrameHeader_bytes in E. lia.
Qed.

Lemma peek_cases buf :
  (forall n, peek_frame_len buf <> FrameLen_Complete n)
  \/ exists f rest, whole f /\ buf = frame_bytes f ++ rest
      /\ peek_frame_len buf = FrameLen_Complete (len (frame_bytes f)) /\ (length rest < length buf)%nat.
Proof.
  destruct (decode_cases buf) as [(n & _ & E & _)|[(d & h & r & _ & _ & _ & E)|
    (h & body & rest & Hbuf & Hh & Hb & Hl & _ & E)]]; [by left; rewrite E..|].
  right. exists (h, body), rest. unfold frame_bytes. cbn [fst snd]. split; [done|].
  split; [by rewrite Hbuf, app_assoc|]. rewrite E, len_app. unfold len at 2. rewrite length_FrameHeader_bytes.
  split; [done|]. rewrite Hbuf, !length_app, length_FrameHeader_bytes. lia.
Qed.

(** Rule of induction over the frames of a block. *)
Lemma block_loop_frames (P : list Frame -> Conn -> Prop) fuel frames c rest :
  (forall frames c f, whole f -> P frames c -> P (frames ++ [f]) (execute_frame_batched conf now_ms c (frame_bytes f))) ->
  (length rest <= fuel)%nat -> P frames c ->
  exists more tail, cut rest more tail /\ P (frames ++ more) (block_loop conf now_ms fuel c rest).
Proof.
  intros HP. revert frames c rest. induction fuel as [|fuel IH]; intros frames c rest Hl Hc.
  { destruct rest; [|cbn in Hl; lia]. exists [], []. rewrite app_nil_r. by conjs; [split_and!|]. }
  cbn [block_loop]. destruct rest as [|b rest'] eqn:Er.
  { exists [], []. rewrite app_nil_r. by conjs; [split_and!|]. }
  rewrite <- Er in Hl |- *. clear b rest' Er.
  destruct (peek_cases rest) as [Hn|(f & rest' & Hw & -> & -> & Hlt)].
  - exists [], rest. rewrite app_nil_r. split; [by split_and!|].
    destruct (peek_frame_len rest) as [n|n|]; [done|by specialize (Hn n)|done].
  - assert (Z.to_nat (len (frame_bytes f)) = length (frame_bytes f)) as -> by (unfold len; lia).
    rewrite take_length_app, drop_length_app.
    destruct (IH (frames ++ [f]) _ rest' ltac:(lia) (HP _ c f Hw Hc)) as (more & tail & (Hm & -> & Ht) & Hp).
    exists (f :: more), tail. split; [|by rewrite <- app_assoc in Hp].
    split; [by constructor|]. split; [|done]. cbn. by rewrite <- app_assoc.
Qed.

(** One response per frame, in the order the frames came.  Whatever bytes
    the block holds, it is cut into whole frames and a tail that is not one,
    and what is appended to the write buffer is the concatenation of one answer
    per frame: a response frame under that frame's opcode byte and request id -
    only a frame that asked for no reply may get nothing - across held and
    retried writes, refused and malformed frames, [AUTH] and streamed reads. *)
Theorem vcp_block_answers s conn block out :
  exists frames tail resps,
    cut block frames tail /\ Forall2 answered frames resps
    /\ (execute_vcp_block conf now_ms s conn block out).2 = out ++ mjoin resps.
Proof.
  destruct (block_loop_frames (owes out) (length block) [] (mkConn s conn out []) block) as (frames & tail & Hc & Ho).
  - intros frames c f Hw. by apply frame_owes.
  - done.
  - exists [], [], []. cbn. rewrite app_nil_r. by conjs.
  - apply flush_settles in Ho as [_ (resps & Ho & Hf)]. exists frames, tail, resps. by conjs.
Qed.

(** ** Authorisation *)

(** The six roles, and the bit that says an identity has one. *)
Inductive Role : Type := Role_Read | Role_Write | Role_Invalidate | Role_List | Role_Flush | Role_Peer.

Definition role_bit (role : Role) : Z :=
  match role with
  | Role_Read => 0 | Role_Write => 1 | Role_Invalidate => 2 | Role_List => 3 | Role_Flush => 4 | Role_Peer => 5
  end.

(** What each command needs, as the table of roles has it: to read for what
    returns a value, to write for what changes a named key, both for what does
    both, and one of its own for each of the others.  Greetings, statistics and
    the view of the cluster need none. *)
Inductive needs : Command -> Role -> Prop :=
| needs_get key : needs (Cmd_Get key) Role_Read
| needs_get_many keys : needs (Cmd_GetMany keys) Role_Read
| needs_deadline key : needs (Cmd_Deadline key) Role_Read
| needs_deadlines keys : needs (Cmd_Deadlines keys) Role_Read
| needs_set set : needs (Cmd_Set set) Role_Write
| needs_previous set : s_return_previous set = true -> needs (Cmd_Set set) Role_Read
| needs_set_many tags sets : needs (Cmd_SetMany tags sets) Role_Write
| needs_delete request : needs (Cmd_Delete request) Role_Write
| needs_delete_many requests : needs (Cmd_DeleteMany requests) Role_Write
| needs_touch key ttl : needs (Cmd_Touch key ttl) Role_Write
| needs_expire key ttl condition : needs (Cmd_Expire key ttl condition) Role_Write
| needs_append key value : needs (Cmd_Append key value) Role_Write
| needs_gat_read keys ttl : needs (Cmd_GetAndTouch keys ttl) Role_Read
| needs_gat_write keys ttl : needs (Cmd_GetAndTouch keys ttl) Role_Write
| needs_arithmetic_read request : needs (Cmd_Arithmetic request) Role_Read
| needs_arithmetic_write request : needs (Cmd_Arithmetic request) Role_Write
| needs_delete_by_tag tag : needs (Cmd_DeleteByTag tag) Role_Invalidate
| needs_list_keys request : needs (Cmd_ListKeys request) Role_List
| needs_list_tags request : needs (Cmd_ListTags request) Role_List
| needs_flush : needs Cmd_Flush Role_Flush
| needs_tag_sync origin entries : needs (Cmd_TagSync origin entries) Role_Peer.

(** Whoever has signed in may do what its identity has the roles for; anybody
    else may do everything, where authentication is not required, or nothing. *)
Definition may (conn : ConnAuth) (command : Command) : Prop :=
  match ca_identity conn with
  | Some identity => forall role, needs command role -> Z.testbit (id_roles identity) (role_bit role) = true
  | None => au_required (sv_auth conf) = false
  end.

Lemma allows_needs roles command :
  allows roles (roles_for_command command) = true <-> forall role, needs command role -> Z.testbit roles (role_bit role) = true.
Proof.
  assert (forall a b, allows roles (Z.lor (2 ^ role_bit a) (2 ^ role_bit b)) = true
    <-> Z.testbit roles (role_bit a) = true /\ Z.testbit roles (role_bit b) = true) as H2.
  { intros a b. rewrite allows_both, andb_true_iff, !allows_bit by by destruct a, b. done. }
  assert (forall a, allows roles (2 ^ role_bit a) = true <-> Z.testbit roles (role_bit a) = true) as H1.
  { intros a. by rewrite allows_bit by by destruct a. }
  assert (allows roles Roles_NONE = true) as H0 by by unfold allows; rewrite Z.land_0_r.
  split.
  - intros H role Hn. destruct Hn; cbn [roles_for_command] in H;
      first [by apply (H1 Role_Read) in H|by apply (H1 Role_Write) in H|by apply (H1 Role_Invalidate) in H|by apply (H1 Role_List) in H
            |by apply (H1 Role_Flush) in H|by apply (H1 Role_Peer) in H|by apply (H2 Role_Read Role_Write) in H as []|idtac].
    + destruct (s_return_previous set); [by apply (H2 Role_Read Role_Write) in H as []|by apply (H1 Role_Write) in H].
    + match goal with E : s_return_previous _ = true |- _ => rewrite E in H end. by apply (H2 Role_Read Role_Write) in H as [].
  - intros H. destruct command; cbn [roles_for_command]; try exact H0;
      first [apply (H1 Role_Read), H; constructor|apply (H1 Role_Write), H; constructor|apply (H1 Role_Invalidate), H; constructor
            |apply (H1 Role_List), H; constructor|apply (H1 Role_Flush), H; constructor|apply (H1 Role_Peer), H; constructor
            |apply (H2 Role_Read Role_Write); split; apply H; constructor|idtac].
    destruct (s_return_previous set) eqn:E; [apply (H2 Role_Read Role_Write); split; apply H; by constructor|apply (H1 Role_Write), H; constructor].
Qed.

Lemma refusal_may conn command : refusal (sv_auth conf) conn (roles_for_command command) = None <-> may conn command.
Proof.
  unfold refusal, may. destruct (ca_identity conn) as [identity|]; [|by destruct (au_required _)].
  rewrite <- allows_needs. by destruct (allows _ _).
Qed.

(** C18 The roles of a command are checked before it runs.  A request is executed
    when the connection may do what it asks - by the table of what each command
    needs and the roles of the identity that has signed in, or by nobody's leave
    where none is required.  When it may not, the request never reaches the
    store: the held writes before it are written, it is answered with one
    [Unauthorized], or with nothing when it asked for no reply, except that a
    connection that has not authenticated may still say hello, which touches
    nothing.  The check on the raw header is thus exactly the check on the
    decoded command. *)
Theorem vcp_gate_exact c f r n :
  whole f -> decode (frame_bytes f) = Ok (Decoded_Request r n) ->
  let c' := execute_frame_batched conf now_ms c (frame_bytes f) in
  let flushed := flush_vcp conf c in
  (may (cn_auth c) (rq_command r) -> c' = execute_request conf now_ms c r)
  /\ (~ may (cn_auth c) (rq_command r) ->
      cn_server c' = cn_server flushed
      /\ if negb (is_authenticated (cn_auth c)) && bool_decide (rq_opcode r = Opcode_Hello)
         then c' = execute_request conf now_ms c r
         else c' = if rq_no_reply r then flushed
                   else push_error flushed (Opcode_code (rq_opcode r)) (rq_request_id r) Status_Unauthorized).
Proof.
  intros Hw Hd c' flushed. subst c' flushed. pose proof Hd as Hv. rewrite decode_whole_frame in Hv by done.
  destruct (verdict_request _ _ _ _ Hv) as (Ho & Hid & Hn & Hna & Hhello & Hroles).
  pose proof (header_refusal_spec (cn_auth c) f Hw) as Hr. unfold needed_by in Hr. rewrite Ho, <- Hroles in Hr.
  rewrite <- refusal_may. unfold execute_frame_batched. apply Opcode_from_inv in Ho.
  assert (introduces (cn_auth c) f.1 = negb (is_authenticated (cn_auth c)) && bool_decide (rq_opcode r = Opcode_Hello)) as Ei.
  { unfold introduces. f_equal. rewrite Ho. clear - Hna. by destruct (rq_opcode r). }
  rewrite Ei in Hr. destruct (header_refusal conf (cn_auth c) (frame_bytes f)) as [refused|].
  - destruct Hr as (-> & Hrf & E1 & E2 & E3). split; [done|]. intros _.
    rewrite E1, E2, E3, <- Hid, <- Hn, Ho. split; [by destruct (rq_no_reply r)|done].
  - rewrite Hd. split; [done|]. intros Hno. destruct Hr as [Hi|]; [|done]. rewrite Hi. split; [|done].
    apply andb_true_iff in Hi as [_ Eh%bool_decide_eq_true].
    destruct (Hhello Eh) as [v Ev]. unfold execute_request. rewrite Ev.
    cbn [offsets_to_store_ttls batchable]. cbv zeta. cbn [execute].
    by destruct (negb (v =? PROTOCOL_VERSION)), (rq_no_reply r).
Qed.

(** An [AUTH] frame whose secret is the credential's. *)
Definition authenticates (f : Frame) : Prop :=
  exists id auth n,
    decode (frame_bytes f) = Ok (Decoded_Auth id auth n)
    /\ Mechanism_from_u8 (au_mechanism auth) = Some Mechanism_Plain
    /\ verify (sv_auth conf) (if len (au_name auth) =? 0 then DEFAULT_NAME else au_name auth) (au_secret auth) <> None.

Definition inert (s : Server S) (frames : list Frame) (c : Conn) : Prop :=
  Forall (fun f => ~ authenticates f) frames -> cn_server c = s /\ ca_identity (cn_auth c) = None /\ cn_batch c = [].

Lemma flush_empty c : cn_batch c = [] -> flush_vcp conf c = c.
Proof. intros H. unfold flush_vcp, flush_batch. by rewrite H. Qed.

Lemma frame_inert s frames c f :
  au_required (sv_auth conf) = true -> whole f -> inert s frames c ->
  inert s (frames ++ [f]) (execute_frame_batched conf now_ms c (frame_bytes f)).
Proof.
  intros Hq Hw Hi [Hf [Hna _]%Forall_cons]%Forall_app. destruct (Hi Hf) as (Hs & Ha & Hb).
  unfold execute_frame_batched. rewrite flush_empty by done. cbv zeta.
  pose proof (header_refusal_spec (cn_auth c) f Hw) as Hr.
  destruct (header_refusal conf (cn_auth c) (frame_bytes f)) as [refused|]; [by destruct (rf_no_reply refused)|].
  destruct Hr as [Hr|Hr].
  2:{ unfold refusal in Hr. by rewrite Ha, Hq in Hr. }
  destruct (decode (frame_bytes f)) as [[|r n|id auth n]|[|id op n st d]|why] eqn:Ed; try done.
  - pose proof Ed as Hv. rewrite decode_whole_frame in Hv by done.
    destruct (verdict_request _ _ _ _ Hv) as (Ho & _ & _ & Hna' & Hhello & _). apply Opcode_from_inv in Ho.
    apply andb_true_iff in Hr as [_ Hr]. rewrite Ho in Hr.
    assert (rq_opcode r = Opcode_Hello) as Eh by (by destruct (rq_opcode r)).
    destruct (Hhello Eh) as [v Ev]. unfold execute_request. rewrite Ev. cbn [offsets_to_store_ttls batchable]. cbv zeta.
    rewrite flush_empty by done. cbn [execute]. by destruct (negb (v =? PROTOCOL_VERSION)), (rq_no_reply r).
  - unfold execute_auth. destruct (Mechanism_from_u8 (au_mechanism auth)) as [[]|] eqn:Em; [|done..].
    destruct (verify _ _ _) as [i|] eqn:Ev; [|done]. destruct Hna. exists id, auth, n. conjs; try done. by rewrite Ev.
Qed.

(** Where authentication is required, a connection that has not
    authenticated can do nothing: whatever bytes it sends, unless one of the
    frames is an [AUTH] with a name and secret that verify, the store and the
    fan-out are untouched and the connection stays unauthenticated. *)
Theorem vcp_unauthenticated_inert s conn block out :
  au_required (sv_auth conf) = true -> ca_identity conn = None ->
  (forall frames tail, cut block frames tail -> Forall (fun f => ~ authenticates f) frames) ->
  let '(s', conn', _) := execute_vcp_block conf now_ms s conn block out in s' = s /\ ca_identity conn' = None.
Proof.
  intros Hq Ha Hno.
  destruct (block_loop_frames (inert s) (length block) [] (mkConn s conn out []) block) as (frames & tail & Hc & Hi).
  - intros frames c f Hw. by apply frame_inert.
  - done.
  - done.
  - destruct (Hi (Hno _ _ Hc)) as (Hs & Hid & Hb). unfold execute_vcp_block. by rewrite flush_empty.
Qed.

End Server.
