(* ===== verification/ServerRef.v ===== *)
(** Holding writes back and streaming reads change nothing a client can see:
    over a store that keeps the batch promises of the trait, a block executes
    as its frames would one at a time, each command on its own. *)

From S2P Require Import Prelude Bytes Text Core Record Glob Clock Arith Float Command Backend Apply Read.
From S2P Require Import Vcp VcpEncode VcpClient VcpSpec VcpReply Auth Server ServerBatch ServerSpec.

Section Reference.
Context {S : Type} {SO : StoreOps S} {ST : StoreTotal S} {SB : StoreBatch S} {DG : Digest}.
Variable conf : ServerConf.
Variable now_ms : Z.

Abbreviation Conn := (Server.Conn S VcpReply).

(** ** The reference: one frame, one command, one answer *)

(** A batch of values larger than a frame is refused. *)
Definition oversized (reply : Reply) : bool :=
  match reply with Reply_Values vs => MAX_BODY_LEN <? len (values_body vs) | _ => false end.

Definition answer_plainly (c : Conn) (r : Request) (result : Result Failed Reply) : Conn :=
  if rq_no_reply r then c
  else match result with
       | Ok reply =>
           if oversized reply then push_error c (Opcode_code (rq_opcode r)) (rq_request_id r) Status_TooLarge
           else with_out c (encode_reply (cn_out c) (rq_opcode r) (rq_request_id r) reply)
       | Err f => push_error c (Opcode_code (rq_opcode r)) (rq_request_id r) (fd_status f)
       | Panic _ => c
       end.

Definition request_plainly (c : Conn) (r : Request) : Conn :=
  let '(server, result) := execute conf (offsets_to_store_ttls now_ms (rq_command r)) (cn_server c) in
  answer_plainly (mkConn server (cn_auth c) (cn_out c) (cn_batch c)) r result.

Definition execute_plainly (c : Conn) (frame : bytes) : Conn :=
  match header_refusal conf (cn_auth c) frame with
  | Some refused =>
      if rf_no_reply refused then c else push_error c (rf_opcode refused) (rf_request_id refused) Status_Unauthorized
  | None =>
      match decode frame with
      | Ok (Decoded_Auth request_id auth _) => execute_auth conf c request_id auth
      | Ok (Decoded_Request request _) => request_plainly c request
      | Err (Decode_Body request_id opcode _ status _) => push_error c opcode request_id status
      | Ok (Decoded_Incomplete _) | Err (Decode_Fatal _) | Panic _ => push_error c 0 0 Status_Internal
      end
  end.

Abbreviation in_turn := (ServerBatch.in_turn conf render_write).

Lemma flush_vcp_in_turn (c : Conn) : batch_ok (cn_batch c) -> flush_vcp conf c = in_turn c.
Proof. exact (flush_in_turn conf render_write c). Qed.

(** ** One request *)

(** A held write, when it is written. *)
Lemma held_in_turn c r set :
  offsets_to_store_ttls now_ms (rq_command r) = Cmd_Set set -> plain set ->
  in_turn (mkConn (cn_server c) (cn_auth c) (cn_out c)
    (cn_batch c ++ [(set, mkVcpReply (rq_opcode r) (rq_request_id r) (rq_no_reply r))]))
  = request_plainly (in_turn c) r.
Proof.
  intros Ec Hp. unfold in_turn, request_plainly. cbn [cn_server cn_auth cn_out cn_batch]. rewrite retry_loop_app.
  destruct (retry_loop conf render_write (cn_batch c) (cn_server c) (cn_out c)) as [s1 out1]. cbn [cn_server cn_auth cn_out cn_batch].
  rewrite Ec. cbn [retry_loop]. rewrite execute_set by done. unfold answer_plainly, render_write.
  cbn [vr_no_reply vr_opcode vr_request_id]. destruct (rq_no_reply r); [done|].
  destruct (st_store (sv_store s1) set) as [s2 [w|e|why]] eqn:Es; cbn [fst snd]; [|done..].
  destruct (bat_stored _ _ _ _ Hp Es) as [cas Hc]. by rewrite Hc.
Qed.

Lemma values_come_from c s s' vs :
  execute conf c s = (s', Ok (Reply_Values vs)) ->
  (exists keys, c = Cmd_GetMany keys) \/ (exists keys ttl, c = Cmd_GetAndTouch keys ttl).
Proof.
  destruct c as [| | |keys| |sets [| |]| | | | | | | | | |keys ttl| | | | | | | |]; eauto; cbn [execute];
    unfold mbind, Exec_bind, listing_gate, tag_sync, fan_out, reading, writing, mret, Exec_ret, failed, mbind, Exec_bind;
    intros H; exfalso; repeat (case_match; try discriminate); try congruence.
Qed.

Lemma get_into_plainly c r key :
  rq_no_reply r = false -> rq_command r = Cmd_Get key -> get_into c r key = request_plainly c r.
Proof.
  intros Hn Ec. unfold get_into, request_plainly, answer_plainly. rewrite Ec, Hn. cbn [offsets_to_store_ttls execute].
  rewrite bat_get_with. unfold mbind, Exec_bind, reading, mret, Exec_ret. destruct c as [s a out b]. cbn [cn_server cn_auth cn_out cn_batch].
  pose proof (tot_get (sv_store s) key) as Ht. by destruct (st_get (sv_store s) key) as [[v|]|e|why].
Qed.

Lemma push_imap out (vs : list (option Value)) :
  foldl (fun out '(_, value) => frame_push out value) out (imap (fun i v => (i, v)) vs) = foldl push_value out vs.
Proof.
  enough (forall n, foldl (fun out '(_, value) => frame_push out value) out (imap (fun i v => ((n + i)%nat, v)) vs)
    = foldl push_value out vs) as H by apply (H 0%nat).
  revert out. induction vs as [|v vs IH]; intros out n; [done|]. cbn. rewrite <- (IH _ (Datatypes.S n)).
  destruct v; cbn; (f_equal; apply imap_ext; intros i x _; cbn; f_equal; lia).
Qed.

Lemma get_many_into_plainly c r keys :
  rq_no_reply r = false -> rq_command r = Cmd_GetMany keys ->
  get_many_into c r (KeyList_as_slice keys) = request_plainly c r.
Proof.
  intros Hn Ec. unfold get_many_into, request_plainly, answer_plainly. rewrite Ec, Hn. cbn [offsets_to_store_ttls execute].
  unfold mbind, Exec_bind, reading, mret, Exec_ret. destruct c as [s a out b]. cbn [cn_server cn_auth cn_out cn_batch].
  set (ks := KeyList_as_slice keys). pose proof (bat_get_many_with (sv_store s) ks) as Hb.
  destruct (ValuesFrame_open out (rq_opcode r) (rq_request_id r) (wrapping 32 (len ks))) as [opened frame] eqn:Eo.
  destruct (st_get_many_with (sv_store s) ks) as [rendered outcome].
  destruct (st_get_many (sv_store s) ks) as [vs|e|why]; [| |done]; cbv zeta.
  - destruct Hb as [[= -> ->] Hl]. rewrite push_imap.
    assert (len ks = len vs) as El by (unfold len; by rewrite Hl). rewrite El in Eo.
    pose proof (values_frame_ok out (rq_opcode r) (rq_request_id r) vs _ eq_refl) as H. rewrite Eo in H. cbn [fst snd] in H.
    cbn [map_err oversized]. rewrite H. rewrite Z.leb_antisym. by destruct (MAX_BODY_LEN <? len (values_body vs)).
  - cbn [snd] in Hb. subst outcome. destruct (push_values_extend opened rendered) as (pushed & ->).
    injection Eo as <- <-. unfold ValuesFrame_abandon. cbn [vf_start]. by rewrite <- !app_assoc, take_length_app.
Qed.

(** A reply that is not a batch of values is never too large for its frame. *)
Lemma general_plainly c r :
  wire_ok (rq_command r) ->
  (forall keys, rq_command r = Cmd_GetMany keys -> rq_no_reply r = true \/ KeyList_as_slice keys = []) ->
  (let '(server, result) := execute conf (offsets_to_store_ttls now_ms (rq_command r)) (cn_server c) in
   let c := mkConn server (cn_auth c) (cn_out c) (cn_batch c) in
   if rq_no_reply r then c
   else match result with
        | Ok reply => with_out c (encode_reply (cn_out c) (rq_opcode r) (rq_request_id r) reply)
        | Err e => push_error c (Opcode_code (rq_opcode r)) (rq_request_id r) (fd_status e)
        | Panic _ => c
        end) = request_plainly c r.
Proof.
  intros Hw Hk. unfold request_plainly, answer_plainly. destruct (execute _ _ _) as [server result] eqn:E.
  destruct (rq_no_reply r); [done|]. destruct result as [reply|e|why]; [|done..].
  assert (oversized reply = false) as ->; [|done]. destruct reply as [| | |vs| | | | | | | | | | | | | | | | | | | |]; try done.
  destruct (values_come_from _ _ _ _ E) as [(keys & Ec)|(keys & ttl & Ec)].
  - assert (rq_command r = Cmd_GetMany keys) as Ec' by (destruct (rq_command r); try done; by injection Ec as ->).
    destruct (Hk keys Ec') as [|Hnil]; [done|]. rewrite Ec in E. cbn [execute] in E.
    unfold mbind, Exec_bind, reading, mret, Exec_ret in E. rewrite Hnil in E.
    pose proof (bat_get_many_with (sv_store (cn_server c)) []) as Hb.
    destruct (st_get_many _ []) as [l|?|?]; [|done..]. injection E as _ ->. destruct Hb as [_ Hl].
    by destruct vs.
  - exfalso. destruct (rq_command r); try done.
Qed.

Lemma request_in_turn c r :
  batch_ok (cn_batch c) -> wire_ok (rq_command r) ->
  batch_ok (cn_batch (execute_request conf now_ms c r))
  /\ in_turn (execute_request conf now_ms c r) = request_plainly (in_turn c) r.
Proof.
  intros Hb Hw. unfold execute_request. cbv zeta. destruct (batchable _) as [set|] eqn:Eb.
  - apply batchable_inv in Eb as [Ec Hp].
    destruct (holds (cn_batch c) (s_key set)) eqn:Eh.
    + rewrite flush_vcp_in_turn by done. split.
      * cbn [cn_batch]. rewrite in_turn_batch. split; cbn; [apply NoDup_singleton|by apply Forall_singleton].
      * rewrite (held_in_turn (in_turn c) r set) by done. by rewrite (in_turn_empty conf render_write (in_turn c)) by apply in_turn_batch.
    + split; [|by apply held_in_turn]. cbn [cn_batch]. by apply batch_ok_snoc.
  - rewrite (flush_vcp_in_turn c Hb). set (c' := in_turn c) in *.
    enough (forall x, x = request_plainly c' r -> batch_ok (cn_batch x) /\ in_turn x = request_plainly c' r) as Hfin.
    { apply Hfin. clear Hfin. pose proof (general_plainly c' r Hw) as Hg.
      destruct (rq_command r) as [| |key|keys| | | | | | | | | | | | | | | | | | | |] eqn:Ec; cbn [offsets_to_store_ttls] in *;
        try (apply Hg; by intros ?).
      - destruct (rq_no_reply r) eqn:En; cbn [negb]; [apply Hg; by intros ?|]. by apply get_into_plainly.
      - destruct (rq_no_reply r) eqn:En; cbn [negb andb]; [apply Hg; auto|].
        destruct (Z.eqb_spec (len (KeyList_as_slice keys)) 0) as [Hz|]; cbn [negb].
        + apply Hg. intros ks [= <-]. right. apply nil_length_inv. unfold len in Hz. lia.
        + by apply get_many_into_plainly. }
    intros x ->. assert (cn_batch (request_plainly c' r) = []) as En.
    { unfold request_plainly, answer_plainly. destruct (execute _ _ _). pose proof (in_turn_batch conf render_write c). by repeat case_match. }
    split; [rewrite En; split; constructor|by apply in_turn_empty].
Qed.

(** ** Blocks *)

(** The frames so far, held ones included, have done what they do one by one. *)
Definition in_step (c0 : Conn) (frames : list Frame) (c : Conn) : Prop :=
  batch_ok (cn_batch c) /\ in_turn c = foldl execute_plainly c0 (frame_bytes <$> frames).

Lemma frame_in_step c0 frames c f :
  whole f -> in_step c0 frames c -> in_step c0 (frames ++ [f]) (execute_frame_batched conf now_ms c (frame_bytes f)).
Proof.
  intros Hw [Hb Hc]. unfold in_step. rewrite fmap_app, foldl_app. cbn [fmap list_fmap foldl]. rewrite <- Hc.
  unfold execute_frame_batched, execute_plainly. rewrite (flush_vcp_in_turn c Hb), in_turn_auth. cbv zeta.
  set (c' := in_turn c). assert (cn_batch c' = []) as Hn by apply in_turn_batch.
  enough (forall x, cn_batch x = [] -> batch_ok (cn_batch x) /\ in_turn x = x) as Hfin.
  { destruct (header_refusal conf (cn_auth c) (frame_bytes f)) as [refused|]; [apply Hfin; by destruct (rf_no_reply refused)|].
    rewrite decode_whole_frame by done. pose proof (verdict_sound f.1 f.2) as Hv.
    destruct (verdict_of f.1 f.2) as [[|r n|id auth n]|[|id op n s d]|why]; try done; try by apply Hfin.
    - destruct Hv as (_ & Hok & _). by apply request_in_turn.
    - apply Hfin. unfold execute_auth. by repeat case_match. }
  intros x Hx. split; [rewrite Hx; split; constructor|by apply in_turn_empty].
Qed.

Lemma vcp_block_plain s conn block out :
  exists frames tail,
    cut block frames tail
    /\ execute_vcp_block conf now_ms s conn block out
       = (let c := foldl execute_plainly (mkConn s conn out []) (frame_bytes <$> frames) in
          (cn_server c, cn_auth c, cn_out c)).
Proof.
  set (c0 := mkConn s conn out []).
  destruct (block_loop_frames conf now_ms (in_step c0) (length block) [] c0 block) as (frames & tail & Hc & Hb & Ht).
  - intros frames c f Hw. by apply frame_in_step.
  - done.
  - split; [split; constructor|done].
  - exists frames, tail. split; [done|]. unfold execute_vcp_block. cbv zeta. fold c0.
    by rewrite flush_vcp_in_turn, Ht.
Qed.

(** C17 Holding writes back, writing runs of them in one transaction, retrying a
    refused run one write at a time, and streaming reads into the buffer are
    invisible: over a store that keeps its batch promises, a block leaves the
    server, the connection and the write buffer exactly as its frames do when
    each is decoded, executed and answered on its own, in order. *)
Theorem vcp_block_sequential s conn block out :
  exists frames tail,
    cut block frames tail
    /\ execute_vcp_block conf now_ms s conn block out
       = (let c := foldl execute_plainly (mkConn s conn out []) (frame_bytes <$> frames) in
          (cn_server c, cn_auth c, cn_out c)).
Proof. exact (vcp_block_plain s conn block out). Qed.

End Reference.
