(* ===== verification/Mc.v ===== *)
(** [vash-proto/src/memcached]: the request side of the memcached dialects -
    framing ([mod.rs]), the classic commands ([text.rs]) and the meta commands
    ([meta.rs]) - with the reply styles the parser picks ([encode.rs]).

    A token iterator is the list of tokens left to it; an index into the buffer
    is a [nat]. *)

From S2P Require Import Prelude Bytes Text Core Record Glob Clock Arith Command Tags.

#[local] Delimit Scope string_scope with str.

(** ** mod.rs and encode.rs: what a parse yields *)

(** memcached's own key limit. *)
Definition MC_MAX_KEY_LEN : Z := 250.

Definition MAX_LINE_LEN : Z := 16 * 1024.

Inductive StatsSection : Type :=
| Stats_General | Stats_Settings | Stats_Items | Stats_Slabs | Stats_Conns | Stats_Sizes | Stats_Empty.

#[global] Instance StatsSection_eq_dec : EqDecision StatsSection.
Proof. solve_decision. Defined.

Inductive DumpStyle : Type := DumpStyle_Meta | DumpStyle_Mg.

Record Dump := mkDump { du_style : DumpStyle; du_selected : bool }.

Record CacheDump := mkCacheDump { cd_selected : bool; cd_limit : Z }.

Definition DUMP_CLASS : bytes := bs "1".

Record MetaFlags := mkMetaFlags {
  mf_value : bool;
  mf_client_flags : bool;
  mf_cas : bool;
  mf_ttl : bool;
  mf_size : bool;
  mf_key : bool;
  mf_opaque : option bytes;
  mf_quiet : bool
}.

Definition MetaFlags_default : MetaFlags := mkMetaFlags false false false false false false None false.

Inductive MetaStyle : Type :=
| Meta_Get (flags : MetaFlags)
| Meta_Set (flags : MetaFlags)
| Meta_Delete (flags : MetaFlags)
| Meta_Arithmetic (flags : MetaFlags)
| Meta_NoOp
| Meta_Debug.

Inductive ResponseStyle : Type :=
| Style_Retrieval (with_cas : bool)
| Style_Storage
| Style_Deleted
| Style_Touched
| Style_Counter
| Style_Ok
| Style_Stats (section : StatsSection)
| Style_Version
| Style_Quit
| Style_Meta (meta : MetaStyle)
| Style_Dump (dump : Dump)
| Style_CacheDump (dump : CacheDump).

Record Parsed := mkParsed {
  pa_command : Command;
  pa_consumed : nat;
  pa_noreply : bool;
  pa_style : ResponseStyle
}.

Inductive McOutcome : Type := Mc_Incomplete | Mc_Command (parsed : Parsed).

Inductive ErrorKind : Type :=
| Kind_Error
| Kind_Client (detail : String.string)
| Kind_Server (detail : String.string).

Inductive ProtocolError : Type :=
| Recoverable (response : ErrorKind) (consumed : nat)
| Fatal (detail : String.string).

Abbreviation Parse A := (Result ProtocolError A).

Definition refuse {A} (kind : ErrorKind) (consumed : nat) : Parse A := Err (Recoverable kind consumed).

(** ** Lines and tokens *)

(** [slice::split]: at least one piece, however short the slice. *)
Fixpoint split_on (b : byte) (l : bytes) : list bytes :=
  match l with
  | [] => [[]]
  | x :: l' =>
      if bool_decide (x = b) then [] :: split_on b l'
      else match split_on b l' with
           | piece :: pieces => (x :: piece) :: pieces
           | [] => [[x]]
           end
  end.

(** The non-empty pieces between spaces. *)
Definition tokens_of (line : bytes) : list bytes := filter (fun t => t <> []) (split_on SPACE line).

Definition find_line (buf : bytes) : Parse (option nat) :=
  match find_byte LF buf with
  | Some newline =>
      Ok (Some (match newline with
                | S before => if bool_decide (buf !! before = Some CR) then before else newline
                | O => newline
                end))
  | None =>
      if MAX_LINE_LEN <? len buf then Err (Fatal "command line exceeded the maximum length"%str) else Ok None
  end.

Definition line_terminator_len (buf : bytes) (line_end : nat) : nat :=
  if bool_decide (buf !! line_end = Some CR) then 2 else 1.

(** ** Numbers *)

(** [str::from_utf8(token).ok()?.trim().parse::<u64>().ok()]; [usize] is 64 bits
    wide. *)
Definition token_u64 (token : bytes) : option Z :=
  text ← utf8_decode token; parse_u64 (trim text).

Definition opt_u64 (token : option bytes) : option Z := token ≫= token_u64.

(** [u32::try_from(v).ok()]. *)
Definition u32_of (v : Z) : option Z := if v <=? U32_MAX then Some v else None.

(** [str::from_utf8(token).ok()?.trim().parse::<i64>().ok()]. *)
Definition token_i64 (token : bytes) : option Z :=
  text ← utf8_decode token; parse_i64 (trim text).

(** The sentinel for memcached's negative [exptime]. *)
Definition IMMEDIATELY_EXPIRED : Z := U32_MAX.

(** [if seconds < 0 { IMMEDIATELY_EXPIRED } else { u32::try_from(seconds).unwrap_or(u32::MAX) }] *)
Definition exptime_of (seconds : Z) : Z :=
  if seconds <? 0 then IMMEDIATELY_EXPIRED else Z.min seconds U32_MAX.

(** ** text.rs *)

Definition BAD_LINE : String.string := "bad command line format"%str.

Definition SHORT_LINE : String.string := "bad command line"%str.

(** [tokens.next()]. *)
Definition next (tokens : list bytes) : option bytes * list bytes := (head tokens, tail tokens).

Definition NOREPLY : bytes := bs "noreply".

Definition has_noreply (tokens : list bytes) : bool := existsb (fun t => bool_decide (t = NOREPLY)) tokens.

(** Bytes no key of this dialect may hold: controls, the space, DEL. *)
Definition breaks_line (b : byte) : bool := (byte_val b <=? 32) || (byte_val b =? 127).

Definition text_parse_key (token : option bytes) (consumed : nat) : Parse bytes :=
  let fail := Recoverable (Kind_Client BAD_LINE) consumed in
  token ← ok_or token fail;
  if (len token =? 0) || (MC_MAX_KEY_LEN <? len token) then Err fail
  else if existsb breaks_line token then Err fail
  else map_err (fun _ => fail) (Key_new token).

Definition parse_exptime (token : option bytes) (consumed : nat) : Parse Z :=
  let fail := Recoverable (Kind_Client "bad command line format"%str) consumed in
  token ← ok_or token fail;
  seconds ← ok_or (token_i64 token) fail;
  Ok (exptime_of seconds).

Fixpoint keys_loop (keys : list bytes) (tokens : list bytes) (consumed : nat) : Parse (list bytes) :=
  match tokens with
  | [] => Ok keys
  | token :: tokens' =>
      if MAX_BATCH_ITEMS <=? len keys then refuse (Kind_Client "too many keys"%str) consumed
      else
        key ← text_parse_key (Some token) consumed;
        keys_loop (keys ++ [key]) tokens' consumed
  end.

Definition parse_keys (tokens : list bytes) (consumed : nat) : Parse KeyList :=
  match tokens with
  | [] => refuse (Kind_Client BAD_LINE) consumed
  | first :: tokens =>
      first ← text_parse_key (Some first) consumed;
      match tokens with
      | [] => Ok (KeyList_One first)
      | second :: tokens =>
          second ← text_parse_key (Some second) consumed;
          keys ← keys_loop [first; second] tokens consumed;
          Ok (KeyList_Many keys)
      end
  end.

Definition storage_mode (verb : bytes) (tokens : list bytes) (fail : ProtocolError) : Parse SetMode :=
  if bool_decide (verb = bs "set") then Ok SetMode_Set
  else if bool_decide (verb = bs "add") then Ok SetMode_Add
  else if bool_decide (verb = bs "replace") then Ok SetMode_Replace
  else if bool_decide (verb = bs "append") then Ok SetMode_Append
  else if bool_decide (verb = bs "prepend") then Ok SetMode_Prepend
  else if bool_decide (verb = bs "cas") then
    cas ← ok_or (opt_u64 (tokens !! 5%nat)) fail;
    Ok (SetMode_Cas cas)
  else Panic "caller matched the verb"%str.

Definition parse_storage (verb line buf : bytes) (line_consumed : nat) : Parse McOutcome :=
  let tokens := tokens_of line in
  declared ← ok_or (opt_u64 (tokens !! 4%nat)) (Recoverable (Kind_Client BAD_LINE) line_consumed);
  if ABSOLUTE_MAX_VALUE_LEN <? declared then Err (Fatal "declared value length is implausible"%str)
  else
    let data_end := (line_consumed + Z.to_nat declared)%nat in
    if (length buf <? data_end + 2)%nat then Ok Mc_Incomplete
    else
      let consumed := (data_end + 2)%nat in
      let fail := Recoverable (Kind_Client BAD_LINE) consumed in
      if negb (bool_decide (slice_of buf data_end (data_end + 2) = CRLF))
      then refuse (Kind_Client "bad data chunk"%str) consumed
      else
        key ← text_parse_key (tokens !! 1%nat) consumed;
        mc_flags ← ok_or (opt_u64 (tokens !! 2%nat) ≫= u32_of) fail;
        ttl_secs ← parse_exptime (tokens !! 3%nat) consumed;
        mode ← storage_mode verb tokens fail;
        let noreply := has_noreply tokens in
        let data := slice_of buf line_consumed data_end in
        Ok (Mc_Command (mkParsed (Cmd_Set (mkSet key data (Ttl_Set ttl_secs) mc_flags [] mode false))
                          consumed noreply Style_Storage)).

Definition parse_cachedump (tokens : list bytes) (consumed : nat) : Parse McOutcome :=
  let short := Recoverable (Kind_Client SHORT_LINE) consumed in
  let bad := Recoverable (Kind_Client BAD_LINE) consumed in
  let '(class, tokens) := next tokens in
  class ← ok_or class short;
  limit ← ok_or (head tokens) short;
  limit ← ok_or (token_u64 limit) bad;
  _ ← ok_or (token_u64 class) bad;
  let limit := if limit =? 0 then MAX_LIST_LIMIT else Z.min limit MAX_LIST_LIMIT in
  Ok (Mc_Command (mkParsed (Cmd_ListKeys (mkListRequest limit [] [])) consumed false
                    (Style_CacheDump (mkCacheDump (bool_decide (class = DUMP_CLASS)) limit)))).

(** What follows [stats]: a section, or the verdict. *)
Inductive StatsWord : Type :=
| Word_Section (section : StatsSection)
| Word_Cachedump
| Word_Refused (kind : ErrorKind).

Definition stats_word (word : option bytes) : StatsWord :=
  match word with
  | None => Word_Section Stats_General
  | Some w =>
      if bool_decide (w = bs "settings") then Word_Section Stats_Settings
      else if bool_decide (w = bs "items") then Word_Section Stats_Items
      else if bool_decide (w = bs "slabs") then Word_Section Stats_Slabs
      else if bool_decide (w = bs "conns") then Word_Section Stats_Conns
      else if bool_decide (w = bs "sizes") then Word_Section Stats_Sizes
      else if bool_decide (w = bs "extstore" \/ w = bs "proxy") then Word_Section Stats_Empty
      else if bool_decide (w = bs "reset") then Word_Refused (Kind_Client "stats reset is not implemented"%str)
      else if bool_decide (w = bs "cachedump") then Word_Cachedump
      else if bool_decide (w = bs "detail") then Word_Refused (Kind_Client "stats detail is not implemented"%str)
      else Word_Refused Kind_Error
  end.

Definition parse_stats (tokens : list bytes) (consumed : nat) : Parse McOutcome :=
  let '(word, tokens) := next tokens in
  match stats_word word with
  | Word_Refused kind => refuse kind consumed
  | Word_Cachedump => parse_cachedump tokens consumed
  | Word_Section section =>
      match tokens with
      | _ :: _ => refuse (Kind_Client BAD_LINE) consumed
      | [] => Ok (Mc_Command (mkParsed Cmd_Stats consumed false (Style_Stats section)))
      end
  end.

Definition crawler_style (word : option bytes) : ErrorKind + DumpStyle :=
  match word with
  | None => inl Kind_Error
  | Some w =>
      if bool_decide (w = bs "metadump") then inr DumpStyle_Meta
      else if bool_decide (w = bs "mgdump") then inr DumpStyle_Mg
      else if bool_decide (w = bs "enable") then inl (Kind_Client "lru_crawler enable is not implemented"%str)
      else if bool_decide (w = bs "disable") then inl (Kind_Client "lru_crawler disable is not implemented"%str)
      else if bool_decide (w = bs "sleep") then inl (Kind_Client "lru_crawler sleep is not implemented"%str)
      else if bool_decide (w = bs "tocrawl") then inl (Kind_Client "lru_crawler tocrawl is not implemented"%str)
      else if bool_decide (w = bs "crawl") then inl (Kind_Client "lru_crawler crawl is not implemented"%str)
      else inl Kind_Error
  end.

Definition parse_lru_crawler (tokens : list bytes) (consumed : nat) : Parse McOutcome :=
  let '(word, tokens) := next tokens in
  match crawler_style word with
  | inl kind => refuse kind consumed
  | inr style =>
      class ← ok_or (head tokens) (Recoverable Kind_Error consumed);
      let selected := bool_decide (class = bs "all" \/ class = bs "hash" \/ class = DUMP_CLASS) in
      Ok (Mc_Command (mkParsed (Cmd_ListKeys (mkListRequest MAX_LIST_LIMIT [] [])) consumed false
                        (Style_Dump (mkDump style selected))))
  end.

Definition parsed_as (command : Command) (consumed : nat) (noreply : bool) (style : ResponseStyle) : Parse McOutcome :=
  Ok (Mc_Command (mkParsed command consumed noreply style)).

Definition is_verb (verb : bytes) (names : list bytes) : bool := bool_decide (verb ∈ names).

Definition parse_delete (tokens : list bytes) (consumed : nat) : Parse McOutcome :=
  let '(token, tokens) := next tokens in
  key ← text_parse_key token consumed;
  parsed_as (Cmd_Delete key) consumed (has_noreply tokens) Style_Deleted.

Definition parse_touch (tokens : list bytes) (consumed : nat) : Parse McOutcome :=
  let '(token, tokens) := next tokens in
  key ← text_parse_key token consumed;
  let '(token, tokens) := next tokens in
  ttl_secs ← parse_exptime token consumed;
  parsed_as (Cmd_Touch key ttl_secs) consumed (has_noreply tokens) Style_Touched.

Definition parse_counter_verb (decrement : bool) (tokens : list bytes) (consumed : nat) : Parse McOutcome :=
  let '(token, tokens) := next tokens in
  key ← text_parse_key token consumed;
  let '(token, tokens) := next tokens in
  delta ← ok_or (opt_u64 token) (Recoverable (Kind_Client "invalid numeric delta argument"%str) consumed);
  parsed_as (Cmd_Arithmetic (Arithmetic_counter key delta decrement)) consumed (has_noreply tokens) Style_Counter.

Definition parse_delete_by_tag (tokens : list bytes) (consumed : nat) : Parse McOutcome :=
  let '(token, tokens) := next tokens in
  tag ← ok_or token (Recoverable (Kind_Client "missing tag"%str) consumed);
  if (len tag =? 0) || (MAX_TAG_LEN <? len tag) then refuse (Kind_Client "invalid tag"%str) consumed
  else parsed_as (Cmd_DeleteByTag tag) consumed (has_noreply tokens) Style_Deleted.

Definition parse_verbosity (tokens : list bytes) (consumed : nat) : Parse McOutcome :=
  let '(token, tokens) := next tokens in
  level ← ok_or (token ≫= fun t => if bool_decide (t = NOREPLY) then None else Some t)
            (Recoverable Kind_Error consumed);
  if bool_decide (token_u64 level = None) then refuse (Kind_Client BAD_LINE) consumed
  else parsed_as Cmd_Version consumed (has_noreply tokens) Style_Ok.

Definition STORAGE_VERBS : list bytes :=
  [bs "set"; bs "add"; bs "replace"; bs "append"; bs "prepend"; bs "cas"].

(** [text::parse]. *)
Definition text_parse (verb line : bytes) (after_line : nat) (buf : bytes) : Parse McOutcome :=
  let consumed := after_line in
  let tokens := tail (tokens_of line) in
  if is_verb verb STORAGE_VERBS then parse_storage verb line buf after_line
  else if is_verb verb [bs "get"; bs "gets"] then
    keys ← parse_keys tokens consumed;
    parsed_as (Cmd_GetMany keys) consumed false (Style_Retrieval (bool_decide (verb = bs "gets")))
  else if is_verb verb [bs "gat"; bs "gats"] then
    let '(token, tokens) := next tokens in
    ttl_secs ← parse_exptime token consumed;
    keys ← parse_keys tokens consumed;
    parsed_as (Cmd_GetAndTouch keys ttl_secs) consumed false (Style_Retrieval (bool_decide (verb = bs "gats")))
  else if is_verb verb [bs "delete"] then parse_delete tokens consumed
  else if is_verb verb [bs "touch"] then parse_touch tokens consumed
  else if is_verb verb [bs "incr"; bs "decr"] then
    parse_counter_verb (bool_decide (verb = bs "decr")) tokens consumed
  else if is_verb verb [bs "flush_all"] then parsed_as Cmd_Flush consumed (has_noreply tokens) Style_Ok
  else if is_verb verb [bs "delete_by_tag"] then parse_delete_by_tag tokens consumed
  else if is_verb verb [bs "stats"] then parse_stats tokens consumed
  else if is_verb verb [bs "lru_crawler"] then parse_lru_crawler tokens consumed
  else if is_verb verb [bs "version"] then parsed_as Cmd_Version consumed false Style_Version
  else if is_verb verb [bs "quit"] then parsed_as Cmd_Quit consumed false Style_Quit
  else if is_verb verb [bs "verbosity"] then parse_verbosity tokens consumed
  else if bool_decide (verb = []) then refuse (Kind_Client BAD_LINE) consumed
  else refuse Kind_Error consumed.

(** ** meta.rs *)

Definition TAG_FLAG : byte := "G"%byte.

Record Collected := mkCollected {
  co_meta : MetaFlags;
  co_ttl : option Z;
  co_client_flags : option Z;
  co_cas : option Z;
  co_mode : option byte;
  co_delta : option Z;
  co_tags : list bytes
}.

Definition Collected_default : Collected := mkCollected MetaFlags_default None None None None None [].

Definition with_meta (c : Collected) (m : MetaFlags) : Collected :=
  mkCollected m (co_ttl c) (co_client_flags c) (co_cas c) (co_mode c) (co_delta c) (co_tags c).

(** One return flag raised. *)
Definition raise_flag (letter : byte) (m : MetaFlags) : MetaFlags :=
  match letter with
  | "v"%byte => mkMetaFlags true (mf_client_flags m) (mf_cas m) (mf_ttl m) (mf_size m) (mf_key m) (mf_opaque m) (mf_quiet m)
  | "f"%byte => mkMetaFlags (mf_value m) true (mf_cas m) (mf_ttl m) (mf_size m) (mf_key m) (mf_opaque m) (mf_quiet m)
  | "c"%byte => mkMetaFlags (mf_value m) (mf_client_flags m) true (mf_ttl m) (mf_size m) (mf_key m) (mf_opaque m) (mf_quiet m)
  | "t"%byte => mkMetaFlags (mf_value m) (mf_client_flags m) (mf_cas m) true (mf_size m) (mf_key m) (mf_opaque m) (mf_quiet m)
  | "s"%byte => mkMetaFlags (mf_value m) (mf_client_flags m) (mf_cas m) (mf_ttl m) true (mf_key m) (mf_opaque m) (mf_quiet m)
  | "k"%byte => mkMetaFlags (mf_value m) (mf_client_flags m) (mf_cas m) (mf_ttl m) (mf_size m) true (mf_opaque m) (mf_quiet m)
  | "q"%byte => mkMetaFlags (mf_value m) (mf_client_flags m) (mf_cas m) (mf_ttl m) (mf_size m) (mf_key m) (mf_opaque m) true
  | _ => m
  end.

Definition with_opaque (m : MetaFlags) (opaque : bytes) : MetaFlags :=
  mkMetaFlags (mf_value m) (mf_client_flags m) (mf_cas m) (mf_ttl m) (mf_size m) (mf_key m) (Some opaque) (mf_quiet m).

Definition parse_ttl (arg : bytes) : option Z := exptime_of <$> token_i64 arg.

Definition COMMA : byte := ","%byte.

Fixpoint tags_loop (tags names : list bytes) (consumed : nat) : Parse (list bytes) :=
  match names with
  | [] => Ok tags
  | name :: names' =>
      if MAX_TAG_LEN <? len name then refuse (Kind_Client "tag name too long"%str) consumed
      else if ABSOLUTE_MAX_TAGS <=? len tags then refuse (Kind_Client "too many tags"%str) consumed
      else tags_loop (tags ++ [name]) names' consumed
  end.

Definition flag_step (out : Collected) (token : bytes) (consumed : nat) : Parse Collected :=
  let fail := fun detail => Recoverable (Kind_Client detail) consumed in
  match token with
  | [] => Err (fail "empty flag"%str)
  | letter :: arg =>
      match letter with
      | "v"%byte | "f"%byte | "c"%byte | "t"%byte | "s"%byte | "k"%byte | "q"%byte =>
          Ok (with_meta out (raise_flag letter (co_meta out)))
      | "u"%byte => Ok out
      | "O"%byte => Ok (with_meta out (with_opaque (co_meta out) arg))
      | "T"%byte =>
          ttl ← ok_or (parse_ttl arg) (fail "bad TTL flag"%str);
          Ok (mkCollected (co_meta out) (Some ttl) (co_client_flags out) (co_cas out) (co_mode out) (co_delta out) (co_tags out))
      | "F"%byte =>
          flags ← ok_or (token_u64 arg ≫= u32_of) (fail "bad flags token"%str);
          Ok (mkCollected (co_meta out) (co_ttl out) (Some flags) (co_cas out) (co_mode out) (co_delta out) (co_tags out))
      | "C"%byte =>
          cas ← ok_or (token_u64 arg) (fail "bad CAS token"%str);
          Ok (mkCollected (co_meta out) (co_ttl out) (co_client_flags out) (Some cas) (co_mode out) (co_delta out) (co_tags out))
      | "D"%byte =>
          delta ← ok_or (token_u64 arg) (fail "bad delta token"%str);
          Ok (mkCollected (co_meta out) (co_ttl out) (co_client_flags out) (co_cas out) (co_mode out) (Some delta) (co_tags out))
      | "M"%byte =>
          mode ← ok_or (head arg) (fail "empty mode flag"%str);
          Ok (mkCollected (co_meta out) (co_ttl out) (co_client_flags out) (co_cas out) (Some mode) (co_delta out) (co_tags out))
      | "G"%byte =>
          tags ← tags_loop (co_tags out) (filter (fun n => n <> []) (split_on COMMA arg)) consumed;
          Ok (mkCollected (co_meta out) (co_ttl out) (co_client_flags out) (co_cas out) (co_mode out) (co_delta out) tags)
      | "b"%byte | "h"%byte | "l"%byte | "x"%byte | "I"%byte | "E"%byte | "R"%byte | "N"%byte =>
          Err (fail "unsupported flag"%str)
      | _ => Err (fail "invalid flag"%str)
      end
  end.

Fixpoint collect_flags (out : Collected) (tokens : list bytes) (consumed : nat) : Parse Collected :=
  match tokens with
  | [] => Ok out
  | token :: tokens' => out ← flag_step out token consumed; collect_flags out tokens' consumed
  end.

Definition meta_parse_key (token : option bytes) (consumed : nat) : Parse bytes :=
  let fail := fun detail => Recoverable (Kind_Client detail) consumed in
  token ← ok_or token (fail "missing key"%str);
  if (len token =? 0) || (MC_MAX_KEY_LEN <? len token) then Err (fail "invalid key"%str)
  else if existsb breaks_line token then Err (fail "key contains a control character"%str)
  else map_err (fun _ => fail "invalid key"%str) (Key_new token).

Definition meta_mode (flags : Collected) (fail : ProtocolError) : Parse SetMode :=
  match co_mode flags, co_cas flags with
  | _, Some cas => Ok (SetMode_Cas cas)
  | Some "E"%byte, _ => Ok SetMode_Add
  | Some "A"%byte, _ => Ok SetMode_Append
  | Some "P"%byte, _ => Ok SetMode_Prepend
  | Some "R"%byte, _ => Ok SetMode_Replace
  | (Some "S"%byte | None), _ => Ok SetMode_Set
  | Some _, _ => Err fail
  end.

Definition parse_ms (tokens : list bytes) (after_line : nat) (buf : bytes) : Parse McOutcome :=
  let '(token, tokens) := next tokens in
  key ← meta_parse_key token after_line;
  let '(token, tokens) := next tokens in
  declared ← ok_or (opt_u64 token) (Recoverable (Kind_Client "bad data length"%str) after_line);
  flags ← collect_flags Collected_default tokens after_line;
  if ABSOLUTE_MAX_VALUE_LEN <? declared then Err (Fatal "declared value length is implausible"%str)
  else
    let data_end := (after_line + Z.to_nat declared)%nat in
    if (length buf <? data_end + 2)%nat then Ok Mc_Incomplete
    else if negb (bool_decide (slice_of buf data_end (data_end + 2) = CRLF))
    then refuse (Kind_Client "bad data chunk"%str) (data_end + 2)
    else
      mode ← meta_mode flags (Recoverable (Kind_Client "invalid mode for ms"%str) after_line);
      parsed_as
        (Cmd_Set (mkSet key (slice_of buf after_line data_end) (Ttl_Set (default 0 (co_ttl flags)))
                    (default 0 (co_client_flags flags)) (co_tags flags) mode false))
        (data_end + 2) (mf_quiet (co_meta flags)) (Style_Meta (Meta_Set (co_meta flags))).

Definition is_decrement (mode : option byte) : bool := bool_decide (mode = Some "D"%byte \/ mode = Some "-"%byte).

(** [meta::parse]. *)
Definition meta_parse (verb line : bytes) (after_line : nat) (buf : bytes) : Parse McOutcome :=
  let tokens := tail (tokens_of line) in
  let keyed := fun (f : bytes -> Collected -> Command) (style : MetaFlags -> MetaStyle) =>
    let '(token, tokens) := next tokens in
    key ← meta_parse_key token after_line;
    flags ← collect_flags Collected_default tokens after_line;
    parsed_as (f key flags) after_line (mf_quiet (co_meta flags)) (Style_Meta (style (co_meta flags))) in
  if is_verb verb [bs "mn"] then parsed_as Cmd_Ping after_line false (Style_Meta Meta_NoOp)
  else if is_verb verb [bs "mg"] then
    keyed (fun key flags => match co_ttl flags with
                            | Some ttl_secs => Cmd_GetAndTouch (KeyList_One key) ttl_secs
                            | None => Cmd_Get key
                            end) Meta_Get
  else if is_verb verb [bs "ms"] then parse_ms tokens after_line buf
  else if is_verb verb [bs "md"] then keyed (fun key _ => Cmd_Delete key) Meta_Delete
  else if is_verb verb [bs "ma"] then
    keyed (fun key flags =>
      Cmd_Arithmetic (Arithmetic_counter key (default 1 (co_delta flags)) (is_decrement (co_mode flags)))) Meta_Arithmetic
  else if is_verb verb [bs "me"] then
    key ← meta_parse_key (head tokens) after_line;
    parsed_as (Cmd_Get key) after_line false (Style_Meta Meta_Debug)
  else if is_verb verb [bs "mdt"] then
    let '(token, tokens) := next tokens in
    tag ← ok_or token (Recoverable (Kind_Client "missing tag"%str) after_line);
    if (len tag =? 0) || (MAX_TAG_LEN <? len tag) then refuse (Kind_Client "invalid tag"%str) after_line
    else
      flags ← collect_flags Collected_default tokens after_line;
      parsed_as (Cmd_DeleteByTag tag) after_line (mf_quiet (co_meta flags)) (Style_Meta (Meta_Delete (co_meta flags)))
  else refuse Kind_Error after_line.

(** ** mod.rs *)

Definition META_VERBS : list bytes :=
  [bs "mg"; bs "ms"; bs "md"; bs "mn"; bs "ma"; bs "me"; bs "mdt"].

Definition is_meta_verb (verb : bytes) : bool := is_verb verb META_VERBS.

(** [memcached::parse]. *)
Definition mc_parse (buf : bytes) : Parse McOutcome :=
  found ← find_line buf;
  match found with
  | None => Ok Mc_Incomplete
  | Some line_end =>
      let line := take line_end buf in
      let after_line := (line_end + line_terminator_len buf line_end)%nat in
      let verb := default line (head (split_on SPACE line)) in
      if is_meta_verb verb then meta_parse verb line after_line buf else text_parse verb line after_line buf
  end.
