(* ===== verification/McEncode.v ===== *)
(** [vash-proto/src/memcached/encode.rs]: rendering replies.  An encoder takes
    the buffer written so far and returns it with the reply appended. *)

From S2P Require Import Prelude Bytes Text Core Record Glob Clock Arith Command Mc.

Definition MC_VERSION : bytes := bs "1.6.38-vash".

Definition RETRIEVAL_END : bytes := bs "END" ++ CRLF.

Definition STORED : bytes := bs "STORED" ++ CRLF.

(** [DumpStyle::ACK], [DumpStyle::terminator]. *)
Definition DUMP_ACK : bytes := bs "OK" ++ CRLF.

Definition terminator (style : DumpStyle) : bytes :=
  match style with DumpStyle_Meta => bs "END" ++ CRLF | DumpStyle_Mg => bs "EN" ++ CRLF end.

Definition mc_encode_error (out : bytes) (kind : ErrorKind) : bytes :=
  match kind with
  | Kind_Error => out ++ bs "ERROR" ++ CRLF
  | Kind_Client detail => out ++ bs "CLIENT_ERROR " ++ bs detail ++ CRLF
  | Kind_Server detail => out ++ bs "SERVER_ERROR " ++ bs detail ++ CRLF
  end.

Definition stat_lines (out : bytes) (entries : list (bytes * bytes)) : bytes :=
  foldl (fun out '(name, value) => out ++ bs "STAT " ++ name ++ [SPACE] ++ value ++ CRLF) out entries.

(** ** Dumps *)

Inductive Percent : Type := Percent_Encoded | Percent_Literal.

#[global] Instance Percent_eq_dec : EqDecision Percent.
Proof. solve_decision. Defined.

Definition HEX : bytes := bs "0123456789ABCDEF".

Definition PERCENT : byte := "%"%byte.

Definition is_literal (percent : Percent) (b : byte) : bool :=
  in_range 33 126 b && (negb (bool_decide (b = PERCENT)) || bool_decide (percent = Percent_Literal)).

Definition hex_digit (n : Z) : byte := nth (Z.to_nat n) HEX "0"%byte.

Definition uriencode (percent : Percent) (key : bytes) : bytes :=
  concat ((fun b => if is_literal percent b then [b]
                    else [PERCENT; hex_digit (Z.shiftr (byte_val b) 4); hex_digit (Z.land (byte_val b) 15)]) <$> key).

(** [Some(NEVER) | None], the deadline that is not shown. *)
Definition never_expires (expires_at_ms : option Z) : bool :=
  match expires_at_ms with Some at_ms => at_ms =? NEVER | None => true end.

Definition cachedump_line (out : bytes) (entry : ListEntry) : bytes :=
  out ++ bs "ITEM " ++ uriencode Percent_Literal (le_name entry) ++ bs " [0 b; "
  ++ (if never_expires (le_expires_at_ms entry) then bs "0"
      else u64_text (default 0 (le_expires_at_ms entry) / 1000))
  ++ bs " s]" ++ CRLF.

Definition dump_line (out : bytes) (style : DumpStyle) (entry : ListEntry) : bytes :=
  match style with
  | DumpStyle_Mg => out ++ bs "mg " ++ uriencode Percent_Literal (le_name entry) ++ CRLF
  | DumpStyle_Meta =>
      out ++ bs "key=" ++ uriencode Percent_Encoded (le_name entry) ++ bs " exp="
      ++ (if never_expires (le_expires_at_ms entry) then bs "-1"
          else u64_text (default 0 (le_expires_at_ms entry) / 1000))
      ++ bs " cas=" ++ u64_text (le_version entry) ++ bs " cls=" ++ DUMP_CLASS ++ [SPACE; LF]
  end.

(** ** Replies *)

Section Encode.
Context {FT : FloatText}.
Variable now_ms : Z.

Definition encode_value_line (out : bytes) (with_cas : bool) (key : bytes) (value : Value) : bytes :=
  out ++ bs "VALUE " ++ key ++ [SPACE] ++ u64_text (v_mc_flags value) ++ [SPACE] ++ u64_text (len (v_data value))
  ++ (if with_cas then [SPACE] ++ u64_text (v_cas value) else []) ++ CRLF ++ v_data value ++ CRLF.

Definition encode_retrieval (out : bytes) (with_cas : bool) (command : Command) (reply : Reply) : bytes :=
  let keys := match command with
              | Cmd_GetMany keys | Cmd_GetAndTouch keys _ => KeyList_as_slice keys
              | _ => []
              end in
  let lines := match reply with
               | Reply_Values values =>
                   foldl (fun out '(key, value) =>
                       match value with Some value => encode_value_line out with_cas key value | None => out end)
                     out (zip keys values)
               | _ => out
               end in
  lines ++ RETRIEVAL_END.

Definition command_key (command : Command) : option bytes :=
  match command with
  | Cmd_Get key | Cmd_Delete key | Cmd_Touch key _ => Some key
  | Cmd_Arithmetic op => Some (ar_key op)
  | Cmd_Set set => Some (s_key set)
  | Cmd_GetAndTouch keys _ | Cmd_GetMany keys => head (KeyList_as_slice keys)
  | _ => None
  end.

Definition write_key_and_opaque (out : bytes) (flags : MetaFlags) (command : Command) : bytes :=
  let out := if mf_key flags
             then match command_key command with Some key => out ++ bs " k" ++ key | None => out end
             else out in
  match mf_opaque flags with Some opaque => out ++ bs " O" ++ opaque | None => out end.

(** The clock is read when the remaining time is asked for. *)
Definition write_return_flags (out : bytes) (flags : MetaFlags) (command : Command) (value : option Value) : bytes :=
  let out :=
    match value with
    | Some value =>
        let out := if mf_client_flags flags then out ++ bs " f" ++ u64_text (v_mc_flags value) else out in
        let out := if mf_size flags then out ++ bs " s" ++ u64_text (len (v_data value)) else out in
        let out := if mf_cas flags then out ++ bs " c" ++ u64_text (v_cas value) else out in
        if mf_ttl flags then out ++ bs " t" ++ i64_text (default (-1) (remaining_ttl_secs value now_ms)) else out
    | None => out
    end in
  write_key_and_opaque out flags command.

Definition encode_meta_get_hit (out : bytes) (flags : MetaFlags) (command : Command) (value : Value) : bytes :=
  let out := if mf_value flags then out ++ bs "VA " ++ u64_text (len (v_data value)) else out ++ bs "HD" in
  let out := write_return_flags out flags command (Some value) ++ CRLF in
  if mf_value flags then out ++ v_data value ++ CRLF else out.

Definition encode_meta (out : bytes) (style : MetaStyle) (command : Command) (reply : Reply) : bytes :=
  match style with
  | Meta_NoOp => out ++ bs "MN" ++ CRLF
  | Meta_Get flags =>
      let value := match reply with
                   | Reply_Value value => Some value
                   | Reply_Values values => mjoin (head values)
                   | _ => None
                   end in
      match value with
      | None => out ++ bs "EN" ++ CRLF
      | Some value => encode_meta_get_hit out flags command value
      end
  | Meta_Set flags =>
      let out :=
        match reply with
        | Reply_Stored (Stored_Stored cas) =>
            let out := out ++ bs "HD" in
            let out := if mf_cas flags then out ++ bs " c" ++ u64_text cas else out in
            write_key_and_opaque out flags command
        | Reply_Stored Stored_NotStored => out ++ bs "NS"
        | Reply_Stored Stored_Exists => out ++ bs "EX"
        | Reply_Stored Stored_NotFound | Reply_NotFound => out ++ bs "NF"
        | _ => out ++ bs "SERVER_ERROR unexpected reply"
        end in
      out ++ CRLF
  | Meta_Delete flags =>
      let out :=
        match reply with
        | Reply_Deleted | Reply_Invalidated true => write_key_and_opaque (out ++ bs "HD") flags command
        | _ => out ++ bs "NF"
        end in
      out ++ CRLF
  | Meta_Arithmetic flags =>
      match reply with
      | Reply_Arithmetic applied =>
          let text := to_text (ap_value applied) in
          let out :=
            if mf_value flags
            then write_key_and_opaque (out ++ bs "VA " ++ u64_text (len text)) flags command ++ CRLF ++ text
            else write_key_and_opaque (out ++ bs "HD") flags command in
          out ++ CRLF
      | _ => out ++ bs "NF" ++ CRLF
      end
  | Meta_Debug =>
      match reply with
      | Reply_Value value =>
          out ++ bs "ME " ++ default [] (command_key command) ++ bs " cas=" ++ u64_text (v_cas value)
          ++ bs " size=" ++ u64_text (len (v_data value)) ++ bs " fetch=yes" ++ CRLF
      | _ => out ++ bs "EN" ++ CRLF
      end
  end.

Definition storage_line (reply : Reply) : bytes :=
  match reply with
  | Reply_Stored (Stored_Stored _) => bs "STORED" ++ CRLF
  | Reply_Stored Stored_NotStored => bs "NOT_STORED" ++ CRLF
  | Reply_Stored Stored_Exists => bs "EXISTS" ++ CRLF
  | Reply_Stored Stored_NotFound | Reply_NotFound => bs "NOT_FOUND" ++ CRLF
  | _ => bs "SERVER_ERROR unexpected reply" ++ CRLF
  end.

(** [encode]. *)
Definition mc_encode (out : bytes) (style : ResponseStyle) (command : Command) (reply : Reply) : bytes :=
  match style with
  | Style_Retrieval with_cas => encode_retrieval out with_cas command reply
  | Style_Storage => out ++ storage_line reply
  | Style_Deleted =>
      out ++ match reply with
             | Reply_Deleted | Reply_Invalidated true => bs "DELETED" ++ CRLF
             | _ => bs "NOT_FOUND" ++ CRLF
             end
  | Style_Touched =>
      out ++ match reply with Reply_Touched => bs "TOUCHED" ++ CRLF | _ => bs "NOT_FOUND" ++ CRLF end
  | Style_Counter =>
      match reply with
      | Reply_Arithmetic applied => out ++ to_text (ap_value applied) ++ CRLF
      | _ => out ++ bs "NOT_FOUND" ++ CRLF
      end
  | Style_Ok => out ++ bs "OK" ++ CRLF
  | Style_Version => out ++ bs "VERSION " ++ MC_VERSION ++ CRLF
  | Style_Stats _ =>
      let out := match reply with Reply_Stats entries => stat_lines out entries | _ => out end in
      out ++ bs "END" ++ CRLF
  | Style_Quit => out
  | Style_Meta meta => encode_meta out meta command reply
  | Style_Dump dump => out ++ terminator (du_style dump)
  | Style_CacheDump _ => out ++ bs "END" ++ CRLF
  end.

End Encode.
