(* ===== verification/McServer.v ===== *)
(** [vash-server/src/memcached.rs]: executing a block of memcached commands for
    a connection - the role gate, credentials tunnelled through a [set], the
    held run of plain [set]s, the fused reads, and the key dumps.

    What the [stats] sections other than the general one print describes the
    process, not the cache: [stats_section] stands for [crate::stats::section]. *)

From S2P Require Import Prelude Bytes Text Core Record Glob Clock Arith Float Command Backend Apply Read.
From S2P Require Import Vcp VcpEncode Auth Server Mc McEncode.

#[local] Delimit Scope string_scope with str.
#[local] Existing Instance Exec_ret.
#[local] Existing Instance Exec_bind.

Section McServer.
Context {S : Type} {SO : StoreOps S} {DG : Digest} {FT : FloatText}.
Variable conf : ServerConf.
Variable now_ms : Z.
(** [crate::stats::section], given whether the connection is encrypted. *)
Variable stats_section : StatsSection -> bool -> list (bytes * bytes).

(** A held write's note: whether it asked for no reply. *)
Abbreviation Conn := (Server.Conn S bool).

Definition memcached_error (status : Status) : ErrorKind :=
  match status with
  | Status_TooLarge => Kind_Server "object too large for cache"%str
  | Status_BadRequest => Kind_Client "bad command line format"%str
  | Status_NotNumeric => Kind_Client "cannot increment or decrement non-numeric value"%str
  | Status_Unsupported => Kind_Error
  | Status_Unauthorized => Kind_Client "command disabled by configuration"%str
  | Status_CapacityFull => Kind_Server "out of memory storing object"%str
  | Status_Overloaded => Kind_Server "server is overloaded"%str
  | Status_NotStored => Kind_Server "not stored"%str
  | _ => Kind_Server "internal error"%str
  end.

Definition mc_render (out : bytes) (noreply : bool) (result : Result Failed Z) : bytes :=
  if noreply then out
  else match result with
       | Ok _ => out ++ bs "STORED" ++ CRLF
       | Err f => mc_encode_error out (memcached_error (fd_status f))
       | Panic _ => out
       end.

Definition flush_memcached (c : Conn) : Conn := flush_batch conf mc_render c.

Definition conn_gated (conn : ConnAuth) (command : Command) : bool :=
  match refusal (sv_auth conf) conn (roles_for_command command) with None => false | Some _ => true end.

Definition push_mc_error (c : Conn) (kind : ErrorKind) : Conn := with_out c (mc_encode_error (cn_out c) kind).

Definition refuse_memcached (c : Conn) (parsed : Parsed) (reason : String.string) : Conn :=
  if pa_noreply parsed then c else push_mc_error c (Kind_Client reason).

(** ** Credentials *)

Definition split_credential (block : bytes) : option (bytes * bytes) :=
  space ← find_byte SPACE block;
  let name := take space block in
  let secret := drop (Datatypes.S space) block in
  if (len name =? 0) || (len secret =? 0) || bool_decide (SPACE ∈ secret) then None else Some (name, secret).

Definition with_auth (c : Conn) (conn : ConnAuth) : Conn := mkConn (cn_server c) conn (cn_out c) (cn_batch c).

Definition execute_memcached_unauthenticated (c : Conn) (parsed : Parsed) : Conn * Closing :=
  match pa_command parsed with
  | Cmd_Quit => (c, Closing_Yes)
  | Cmd_Set set =>
      if negb (bool_decide (s_mode set = SetMode_Set))
      then (refuse_memcached c parsed "unauthenticated"%str, Closing_No)
      else
        match split_credential (s_value set) with
        | None =>
            (refuse_memcached (with_auth c (auth_fail (cn_auth c))) parsed "bad authentication token format"%str,
             Closing_No)
        | Some (name, secret) =>
            match verify (sv_auth conf) name secret with
            | Some identity =>
                let c := with_auth c (succeed (cn_auth c) identity) in
                (if pa_noreply parsed then c
                 else with_out c (mc_encode now_ms (cn_out c) (pa_style parsed) (pa_command parsed)
                                    (Reply_Stored (Stored_Stored 0))),
                 Closing_No)
            | None =>
                (refuse_memcached (with_auth c (auth_fail (cn_auth c))) parsed "authentication failure"%str, Closing_No)
            end
        end
  | _ => (refuse_memcached c parsed "unauthenticated"%str, Closing_No)
  end.

(** ** Dumps *)

(** What a dump has done when it stops: the server, the lines, and how. *)
Abbreviation Dumped := (Server S * bytes * Result Failed unit)%type.

Definition page_of (reply : Reply) : Result Failed Listing :=
  match reply with
  | Reply_Listing page => Ok page
  | _ => Err (Failed_status Status_Internal)
  end.

(** One round per page; the rounds a dump may take are its argument. *)
Fixpoint dump_loop (fuel : nat) (dump : Dump) (scanned : Z) (cursor : option bytes) (s : Server S) (out : bytes)
    : Dumped :=
  match fuel with
  | O => (s, out, Panic "a dump that does not end"%str)
  | Datatypes.S fuel' =>
      let request := mkListRequest MAX_LIST_LIMIT (default [] cursor) [] in
      let '(s, result) := execute conf (Cmd_ListKeys request) s in
      match result ≫= page_of with
      | Err f => (s, out, Err f)
      | Panic why => (s, out, Panic why)
      | Ok page =>
          let out := foldl (fun out entry => dump_line out (du_style dump) entry) out (l_entries page) in
          let scanned := wrapping 64 (scanned + l_scanned page) in
          match l_cursor page with
          | Some next =>
              if scanned <? pr_listing_max_scan (sv_protocol conf)
              then dump_loop fuel' dump scanned (Some next) s out
              else (s, mc_encode_error out
                         (Kind_Server "dump exceeded the scan budget; use SCAN or LIST_KEYS to page the keyspace"%str),
                    Ok ())
          | None => (s, out ++ terminator (du_style dump), Ok ())
          end
      end
  end.

(** Every page with more after it has examined a record, so the budget and one
    more round are enough. *)
Definition dump_fuel : nat := Datatypes.S (Z.to_nat (pr_listing_max_scan (sv_protocol conf))).

Definition execute_dump (dump : Dump) (s : Server S) (out : bytes) : Dumped :=
  let '(s, gate) := listing_gate conf s in
  match gate with
  | Err f => (s, out, Err f)
  | Panic why => (s, out, Panic why)
  | Ok _ =>
      let out := out ++ DUMP_ACK in
      if negb (du_selected dump) then (s, out ++ terminator (du_style dump), Ok ())
      else dump_loop dump_fuel dump 0 None s out
  end.

Definition execute_cachedump (dump : CacheDump) (s : Server S) (out : bytes) : Dumped :=
  let '(s, gate) := listing_gate conf s in
  match gate with
  | Err f => (s, out, Err f)
  | Panic why => (s, out, Panic why)
  | Ok _ =>
      if negb (cd_selected dump) then (s, out ++ bs "END" ++ CRLF, Ok ())
      else
        let request := mkListRequest (cd_limit dump) [] [] in
        let '(s, result) := execute conf (Cmd_ListKeys request) s in
        match result ≫= page_of with
        | Err f => (s, out, Err f)
        | Panic why => (s, out, Panic why)
        | Ok page => (s, foldl cachedump_line out (l_entries page) ++ bs "END" ++ CRLF, Ok ())
        end
  end.

Definition after_dump (c : Conn) (dumped : Dumped) : Conn :=
  let '(server, out, result) := dumped in
  let c := mkConn server (cn_auth c) out (cn_batch c) in
  match result with Err f => push_mc_error c (memcached_error (fd_status f)) | _ => c end.

(** ** One command *)

(** The fused [get] and [gets]. *)
Definition retrieve_into (c : Conn) (with_cas : bool) (keys : list bytes) : Conn :=
  let '(rendered, outcome) := st_get_many_with (sv_store (cn_server c)) keys in
  let out := foldl (fun out '(index, value) =>
                 match value with
                 | Some value => encode_value_line out with_cas (default [] (keys !! index)) value
                 | None => out
                 end) (cn_out c) rendered in
  match outcome with
  | Ok _ => with_out c (out ++ RETRIEVAL_END)
  | Err e => push_mc_error (with_out c out) (memcached_error (fd_status (to_failed e)))
  | Panic _ => c
  end.

(** The fused [mg]. *)
Definition meta_get_into (c : Conn) (flags : MetaFlags) (command : Command) (key : bytes) : Conn :=
  match st_get_with (sv_store (cn_server c)) key with
  | Ok (Some value) => with_out c (encode_meta_get_hit now_ms (cn_out c) flags command value)
  | Ok None => with_out c (cn_out c ++ bs "EN" ++ CRLF)
  | Err e => push_mc_error c (memcached_error (fd_status (to_failed e)))
  | Panic _ => c
  end.

Definition execute_generally (c : Conn) (parsed : Parsed) : Conn * Closing :=
  let '(server, result) := execute conf (pa_command parsed) (cn_server c) in
  let c := mkConn server (cn_auth c) (cn_out c) (cn_batch c) in
  match result with
  | Ok reply =>
      (if pa_noreply parsed then c
       else with_out c (mc_encode now_ms (cn_out c) (pa_style parsed) (pa_command parsed) reply),
       match reply with Reply_Closing => Closing_Yes | _ => Closing_No end)
  | Err f => (if pa_noreply parsed then c else push_mc_error c (memcached_error (fd_status f)), Closing_No)
  | Panic _ => (c, Closing_No)
  end.

Definition needed_roles (parsed : Parsed) : Roles :=
  match pa_style parsed with
  | Style_Dump _ | Style_CacheDump _ => Roles_LIST
  | _ => roles_for_command (pa_command parsed)
  end.

Definition execute_memcached (c : Conn) (parsed : Parsed) (tls : bool) : Conn * Closing :=
  if negb (is_authenticated (cn_auth c)) && au_required (sv_auth conf)
  then execute_memcached_unauthenticated c parsed
  else
    match refusal (sv_auth conf) (cn_auth c) (needed_roles parsed) with
    | Some (Refused_Missing _) => (refuse_memcached c parsed "unauthorized"%str, Closing_No)
    | _ =>
        match pa_style parsed with
        | Style_Dump dump => (after_dump c (execute_dump dump (cn_server c) (cn_out c)), Closing_No)
        | Style_CacheDump dump => (after_dump c (execute_cachedump dump (cn_server c) (cn_out c)), Closing_No)
        | Style_Stats section =>
            if negb (bool_decide (section = Stats_General))
            then (with_out c (stat_lines (cn_out c) (stats_section section tls) ++ bs "END" ++ CRLF), Closing_No)
            else execute_generally c parsed
        | Style_Retrieval with_cas =>
            match pa_command parsed with
            | Cmd_GetMany keys =>
                if negb (pa_noreply parsed)
                then (retrieve_into c with_cas (KeyList_as_slice keys), Closing_No)
                else execute_generally c parsed
            | _ => execute_generally c parsed
            end
        | Style_Meta (Meta_Get flags) =>
            match pa_command parsed with
            | Cmd_Get key =>
                if negb (pa_noreply parsed)
                then (meta_get_into c flags (pa_command parsed) key, Closing_No)
                else execute_generally c parsed
            | _ => execute_generally c parsed
            end
        | _ => execute_generally c parsed
        end
    end.

(** ** A block *)

(** A plain [set] of the classic grammar from a connection that may write. *)
Definition held_set (conn : ConnAuth) (parsed : Parsed) : option SetReq :=
  match pa_style parsed with
  | Style_Storage =>
      match batchable (pa_command parsed) with
      | Some set => if conn_gated conn (pa_command parsed) then None else Some set
      | None => None
      end
  | _ => None
  end.

(** One parsed command, with the run held before it. *)
Definition execute_parsed (c : Conn) (parsed : Parsed) (tls : bool) : Conn * Closing :=
  match held_set (cn_auth c) parsed with
  | Some set =>
      let c := if holds (cn_batch c) (s_key set) then flush_memcached c else c in
      (mkConn (cn_server c) (cn_auth c) (cn_out c) (cn_batch c ++ [(set, pa_noreply parsed)]), Closing_No)
  | None => execute_memcached (flush_memcached c) parsed tls
  end.

Definition refuse_parse (c : Conn) (response : ErrorKind) : Conn :=
  let c := flush_memcached c in
  if negb (is_authenticated (cn_auth c)) && au_required (sv_auth conf)
  then push_mc_error c (Kind_Client "unauthenticated"%str) else push_mc_error c response.

(** One round per command: each takes at least its newline off the block. *)
Fixpoint mc_block_loop (fuel : nat) (c : Conn) (rest : bytes) (tls : bool) : Conn * Closing :=
  match fuel with
  | O => (c, Closing_No)
  | Datatypes.S fuel' =>
      match rest with
      | [] => (c, Closing_No)
      | _ =>
          match mc_parse rest with
          | Ok (Mc_Command parsed) =>
              match execute_parsed c parsed tls with
              | (c, Closing_Yes) => (c, Closing_Yes)
              | (c, Closing_No) => mc_block_loop fuel' c (drop (pa_consumed parsed) rest) tls
              end
          | Err (Recoverable response consumed) =>
              mc_block_loop fuel' (refuse_parse c response) (drop consumed rest) tls
          | Ok Mc_Incomplete | Err (Fatal _) | Panic _ => (c, Closing_No)
          end
      end
  end.

Definition execute_memcached_block (s : Server S) (conn : ConnAuth) (block : bytes) (tls : bool) (out : bytes)
    : Server S * ConnAuth * bytes * Closing :=
  let '(c, closing) := mc_block_loop (length block) (mkConn s conn out []) block tls in
  let c := match closing with Closing_Yes => c | Closing_No => flush_memcached c end in
  (cn_server c, cn_auth c, cn_out c, closing).

(** ** The run a task may await *)

(** [parse_memcached_writes]: the writes and whether each wants no reply. *)
Fixpoint parse_writes_loop (fuel : nat) (rest : bytes) (sets : list SetReq) (suppress : list bool)
    : option (list SetReq * list bool) :=
  match rest with
  | [] => Some (sets, suppress)
  | _ =>
      match fuel with
      | O => None
      | Datatypes.S fuel' =>
          match mc_parse rest with
          | Ok (Mc_Command parsed) =>
              match pa_style parsed, batchable (pa_command parsed) with
              | Style_Storage, Some set =>
                  if awaitable (pa_command parsed)
                  then parse_writes_loop fuel' (drop (pa_consumed parsed) rest) (sets ++ [set]) (suppress ++ [pa_noreply parsed])
                  else None
              | _, _ => None
              end
          | _ => None
          end
      end
  end.

Definition parse_memcached_writes (block : bytes) : option (list SetReq * list bool) :=
  parse_writes_loop (length block) block [] [].

End McServer.
