(* ===== verification/McSpec.v ===== *)
(** The memcached grammar: arbitrary bytes parse safely into well-formed
    commands, a command takes exactly the bytes that are its own, and a rendered
    storage command parses back whatever its data block holds. *)

From S2P Require Import Prelude Bytes Text Core Record Glob Clock Arith Command Tags Mc.

(** ** Lines *)

(** A line and what ends it; a line that ends in a carriage return is one that
    the newline alone cannot end. *)
Definition ends_line (line term : bytes) : Prop :=
  LF ∉ line /\ (term = CRLF \/ (term = [LF] /\ last line <> Some CR)).

Lemma find_line_at line term rest :
  ends_line line term ->
  find_line (line ++ term ++ rest) = Ok (Some (length line))
  /\ (length line + line_terminator_len (line ++ term ++ rest) (length line))%nat = length (line ++ term).
Proof.
  intros [Hn [-> | [-> Hl]]]; unfold find_line, line_terminator_len; rewrite length_app.
  - change (CRLF ++ rest) with ([CR] ++ LF :: rest). rewrite app_assoc, find_byte_app by set_solver.
    rewrite length_app, Nat.add_1_r. cbn [length]. rewrite <- app_assoc. cbn [app].
    rewrite !last_lookup_snoc, !bool_decide_eq_true_2 by done. done.
  - cbn [app]. rewrite find_byte_app by done. rewrite last_lookup_snoc, (bool_decide_eq_false_2 (Some LF = Some CR)) by done.
    split; [|done]. destruct line as [|a line] using rev_ind; [done|]. clear IHline.
    rewrite length_app, Nat.add_1_r. rewrite <- app_assoc. cbn [app]. rewrite last_lookup_snoc.
    rewrite last_snoc in Hl. by rewrite bool_decide_eq_false_2.
Qed.

Lemma find_line_cases buf :
  (LF ∉ buf /\ ((len buf <= MAX_LINE_LEN /\ find_line buf = Ok None)
                \/ (MAX_LINE_LEN < len buf /\ exists d, find_line buf = Err (Fatal d))))
  \/ exists line term rest, buf = line ++ term ++ rest /\ ends_line line term.
Proof.
  pose proof (find_byte_cases LF buf) as Hc. destruct (find_byte LF buf) as [n|] eqn:E.
  - right. destruct Hc as (x & y & -> & Hx & _). destruct x as [|a x _] using rev_ind.
    + exists [], [LF], y. split; [done|]. split; [done|]. right. done.
    + destruct (decide (a = CR)) as [->|Ha].
      * exists x, CRLF, y. split; [by rewrite <- app_assoc|]. split; [set_solver|]. by left.
      * exists (x ++ [a]), [LF], y. split; [done|]. split; [done|]. right. rewrite last_snoc. split; [done|]. congruence.
  - left. split; [done|]. unfold find_line. rewrite E. destruct (Z.ltb_spec MAX_LINE_LEN (len buf)); eauto.
Qed.

(** The parse of one line, its bytes and what follows it at hand. *)
Definition parse_line (line : bytes) (after_line : nat) (buf : bytes) : Parse McOutcome :=
  let verb := default line (head (split_on SPACE line)) in
  if is_meta_verb verb then meta_parse verb line after_line buf else text_parse verb line after_line buf.

Lemma mc_parse_at line term rest :
  ends_line line term ->
  mc_parse (line ++ term ++ rest) = parse_line line (length (line ++ term)) (line ++ term ++ rest).
Proof.
  intros H. destruct (find_line_at line term rest H) as [E1 E2]. unfold mc_parse. rewrite E1. cbn [mbind Result_bind].
  by rewrite E2, take_length_app.
Qed.

(** ** How many bytes a verdict depends on *)

Definition block_end (after_line : nat) (declared : Z) : nat :=
  if declared <=? ABSOLUTE_MAX_VALUE_LEN then (after_line + Z.to_nat declared + 2)%nat else after_line.

Definition storage_demand (line : bytes) (after_line : nat) : nat :=
  match opt_u64 (tokens_of line !! 4%nat) with Some declared => block_end after_line declared | None => after_line end.

Definition ms_demand (line : bytes) (after_line : nat) : nat :=
  let '(token, tokens) := next (tail (tokens_of line)) in
  let '(size, tokens) := next tokens in
  match meta_parse_key token after_line, opt_u64 size, collect_flags Collected_default tokens after_line with
  | Ok _, Some declared, Ok _ => block_end after_line declared
  | _, _, _ => after_line
  end.

Definition demand (line : bytes) (after_line : nat) : nat :=
  let verb := default line (head (split_on SPACE line)) in
  if is_meta_verb verb
  then if is_verb verb [bs "ms"] then ms_demand line after_line else after_line
  else if is_verb verb STORAGE_VERBS then storage_demand line after_line else after_line.

(** With the bytes it depends on at hand, the parse of a line is settled. *)
Definition settles (f : bytes -> Parse McOutcome) (after_line need : nat) : Prop :=
  (forall b b', agree need b b' -> f b = f b')
  /\ (forall b, (length b < need)%nat -> (after_line <= length b)%nat -> f b = Ok Mc_Incomplete)
  /\ (forall b, (need <= length b)%nat ->
      f b <> Ok Mc_Incomplete /\ forall p, f b = Ok (Mc_Command p) -> pa_consumed p = need).

Lemma settles_const (r : Parse McOutcome) n :
  r <> Ok Mc_Incomplete -> (forall p, r = Ok (Mc_Command p) -> pa_consumed p = n) -> settles (fun _ => r) n n.
Proof. intros H1 H2. split; [done|]. split; [intros; lia|]. done. Qed.

Lemma bind_verdict {A} n (m : Parse A) (f : A -> Parse McOutcome) :
  (forall a, m = Ok a -> f a <> Ok Mc_Incomplete /\ forall p, f a = Ok (Mc_Command p) -> pa_consumed p = n) ->
  (m ≫= f) <> Ok Mc_Incomplete /\ forall p, (m ≫= f) = Ok (Mc_Command p) -> pa_consumed p = n.
Proof. intros H. destruct m as [a| |]; [by apply H|done..]. Qed.

Lemma parsed_verdict c n q st :
  parsed_as c n q st <> Ok Mc_Incomplete /\ forall p, parsed_as c n q st = Ok (Mc_Command p) -> pa_consumed p = n.
Proof. unfold parsed_as. split; [done|]. by intros p [= <-]. Qed.

Lemma refuse_verdict k c n :
  @refuse McOutcome k c <> Ok Mc_Incomplete /\ forall p, @refuse McOutcome k c = Ok (Mc_Command p) -> pa_consumed p = n.
Proof. done. Qed.

Ltac verdict :=
  repeat first
    [ apply parsed_verdict | apply refuse_verdict
    | apply bind_verdict; intros ? _
    | progress unfold parse_delete, parse_touch, parse_counter_verb, parse_delete_by_tag, parse_verbosity,
        parse_stats, parse_cachedump, parse_lru_crawler, next
    | split; [done|by intros p [= <-]]
    | case_match ].

(** The shape [parse_storage] and [ms] share: the verdict waits for the data
    block and its terminator, and then looks at those bytes only. *)
Ltac settle_block Hd :=
  unfold block_end; rewrite (proj2 (Z.leb_le _ _)) by exact Hd;
  split; [|split];
  [ intros b b' Ha; pose proof Ha as (H1 & H2 & _); rewrite !(proj2 (Nat.ltb_ge _ _)) by lia;
    by rewrite !(agree_slice _ b b' _ _ Ha) by lia
  | intros b Hb _; by rewrite (proj2 (Nat.ltb_lt _ _)) by lia
  | intros b Hb; rewrite (proj2 (Nat.ltb_ge _ _)) by lia; verdict ].

Lemma storage_settles verb line n :
  settles (fun buf => parse_storage verb line buf n) n (storage_demand line n).
Proof.
  unfold storage_demand, parse_storage. cbv zeta. destruct (opt_u64 (tokens_of line !! 4%nat)) as [declared|]; cbn [ok_or mbind Result_bind].
  2:{ by apply settles_const. }
  destruct (Z.ltb_spec ABSOLUTE_MAX_VALUE_LEN declared) as [Hd|Hd].
  - unfold block_end. rewrite (proj2 (Z.leb_gt _ _)) by done. by apply settles_const.
  - settle_block Hd.
Qed.

Lemma ms_settles line n : settles (fun buf => parse_ms (tail (tokens_of line)) n buf) n (ms_demand line n).
Proof.
  unfold ms_demand, parse_ms, next. cbv zeta.
  destruct (meta_parse_key _ n) as [key|e|why]; cbn [mbind Result_bind]; [|by apply settles_const..].
  destruct (opt_u64 _) as [declared|]; cbn [ok_or mbind Result_bind]; [|by apply settles_const].
  destruct (collect_flags _ _ n) as [flags|e|why]; cbn [mbind Result_bind]; [|by apply settles_const..].
  destruct (Z.ltb_spec ABSOLUTE_MAX_VALUE_LEN declared) as [Hd|Hd].
  - unfold block_end. rewrite (proj2 (Z.leb_gt _ _)) by done. by apply settles_const.
  - settle_block Hd.
Qed.

Lemma text_settles verb line n :
  is_verb verb STORAGE_VERBS = false -> settles (text_parse verb line n) n n.
Proof.
  intros H. assert (forall b, text_parse verb line n b = text_parse verb line n []) as E by (intros b; unfold text_parse; by rewrite H).
  split; [intros b b' _; by rewrite E, (E b')|]. split; [intros; lia|]. intros b _. rewrite E.
  unfold text_parse. rewrite H. cbv zeta. verdict.
Qed.

Lemma meta_settles verb line n :
  is_verb verb [bs "ms"] = false -> settles (meta_parse verb line n) n n.
Proof.
  intros H. assert (forall b, meta_parse verb line n b = meta_parse verb line n []) as E by (intros b; unfold meta_parse; by rewrite H).
  split; [intros b b' _; by rewrite E, (E b')|]. split; [intros; lia|]. intros b _. rewrite E.
  unfold meta_parse. rewrite H. cbv zeta. verdict.
Qed.

Lemma line_settles line n : settles (parse_line line n) n (demand line n).
Proof.
  unfold parse_line, demand. cbv zeta. set (verb := default line _).
  destruct (is_meta_verb verb).
  - destruct (is_verb verb [bs "ms"]) eqn:E; [|by apply meta_settles].
    apply bool_decide_eq_true, list_elem_of_singleton in E. rewrite E. exact (ms_settles line n).
  - destruct (is_verb verb STORAGE_VERBS) eqn:E; [|by apply text_settles].
    pose proof (storage_settles verb line n) as H. unfold settles, text_parse in *. rewrite E. exact H.
Qed.

(** ** Well-formed commands *)

Definition mc_key (k : bytes) : Prop := 1 <= len k <= MC_MAX_KEY_LEN /\ Forall (fun b => breaks_line b = false) k.

Definition mc_tag (t : bytes) : Prop := 1 <= len t <= MAX_TAG_LEN.

Definition mc_mode (m : SetMode) : Prop := match m with SetMode_Cas cas => fits 64 cas | _ => True end.

Definition mc_set (s : SetReq) : Prop :=
  mc_key (s_key s) /\ len (s_value s) <= ABSOLUTE_MAX_VALUE_LEN
  /\ (exists ttl, s_ttl s = Ttl_Set ttl /\ fits 32 ttl) /\ fits 32 (s_mc_flags s)
  /\ Forall mc_tag (s_tags s) /\ len (s_tags s) <= ABSOLUTE_MAX_TAGS
  /\ mc_mode (s_mode s) /\ s_return_previous s = false.

Definition mc_keys (keys : KeyList) : Prop :=
  Forall mc_key (KeyList_as_slice keys) /\ 1 <= len (KeyList_as_slice keys) <= MAX_BATCH_ITEMS.

(** What a command of this protocol may ask of the store. *)
Definition mc_command (c : Command) : Prop :=
  match c with
  | Cmd_Set s => mc_set s
  | Cmd_Get k | Cmd_Delete k => mc_key k
  | Cmd_Touch k ttl => mc_key k /\ fits 32 ttl
  | Cmd_GetMany keys => mc_keys keys
  | Cmd_GetAndTouch keys ttl => mc_keys keys /\ fits 32 ttl
  | Cmd_Arithmetic op =>
      exists key delta decrement, op = Arithmetic_counter key delta decrement /\ mc_key key /\ fits 64 delta
  | Cmd_DeleteByTag tag => mc_tag tag
  | Cmd_ListKeys r => 1 <= lr_limit r <= MAX_LIST_LIMIT /\ lr_cursor r = [] /\ lr_pattern r = []
  | Cmd_Flush | Cmd_Stats | Cmd_Version | Cmd_Quit | Cmd_Ping => True
  | _ => False
  end.

(** A parse of a part of a command: an accepted part is sound, and a refusal
    takes bytes that are there. *)
Definition sound {A} (m : nat) (P : A -> Prop) (r : Parse A) : Prop :=
  match r with
  | Ok a => P a
  | Err (Recoverable _ n) => (0 < n <= m)%nat
  | Err (Fatal _) => True
  | Panic _ => False
  end.

(** ** Parts of a command *)

Lemma key_checks token :
  ((len token =? 0) || (MC_MAX_KEY_LEN <? len token)) = false -> existsb breaks_line token = false ->
  Key_new token = Ok token /\ mc_key token.
Proof.
  intros [H1%Z.eqb_neq H2%Z.ltb_ge]%orb_false_iff H3. pose proof (len_nonneg token). unfold MC_MAX_KEY_LEN in *.
  split; [apply Key_new_ok; unfold valid_key, MAX_KEY_LEN; lia|]. split; [unfold MC_MAX_KEY_LEN; lia|].
  apply Forall_forall. intros b Hb. destruct (breaks_line b) eqn:E; [|done].
  rewrite <- H3. symmetry. apply existsb_exists. exists b. by rewrite <- list_elem_of_In.
Qed.

Lemma exptime_fits secs : fits 32 (exptime_of secs).
Proof. unfold exptime_of, IMMEDIATELY_EXPIRED. destruct (Z.ltb_spec secs 0); width. Qed.

Lemma token_u64_fits token v : token_u64 token = Some v -> fits 64 v.
Proof. unfold token_u64. destruct (utf8_decode token); [|done]. apply parse_u64_range. Qed.

Lemma opt_u64_fits token v : opt_u64 token = Some v -> fits 64 v.
Proof. destruct token; [|done]. apply token_u64_fits. Qed.

Lemma u32_of_fits o v : (o ≫= u32_of) = Some v -> (forall w, o = Some w -> fits 64 w) -> fits 32 v.
Proof.
  destruct o as [w|]; [|done]. cbn. unfold u32_of. destruct (Z.leb_spec w U32_MAX); [|done].
  intros [= <-] Hw. specialize (Hw w eq_refl). width.
Qed.

Lemma one_key key : mc_key key -> mc_keys (KeyList_One key).
Proof. intros H. split; [by apply Forall_singleton|]. unfold len, MAX_BATCH_ITEMS. cbn. lia. Qed.

Definition opt_fits (w : Z) (o : option Z) : Prop := match o with Some v => fits w v | None => True end.

Definition collected_ok (c : Collected) : Prop :=
  opt_fits 32 (co_ttl c) /\ opt_fits 32 (co_client_flags c) /\ opt_fits 64 (co_cas c)
  /\ opt_fits 64 (co_delta c) /\ Forall mc_tag (co_tags c) /\ len (co_tags c) <= ABSOLUTE_MAX_TAGS.

Lemma default_ok : collected_ok Collected_default.
Proof. unfold collected_ok. cbn. conjs; try done. Qed.

Section Sound.
Variable m : nat.

Lemma parse_bind {A B} (P : A -> Prop) (Q : B -> Prop) r (f : A -> Parse B) :
  sound m P r -> (forall a, P a -> sound m Q (f a)) -> sound m Q (r ≫= f).
Proof. destruct r as [a|[k n|d]|why]; cbn; auto. Qed.

Lemma sound_ok_or {A} (P : A -> Prop) (o : option A) e :
  sound m (fun _ => False) (Err e : Parse A) -> (forall a, o = Some a -> P a) -> sound m P (ok_or o e).
Proof. intros He Ho. destruct o; cbn; auto. Qed.

Context (n : nat) (Hn : (0 < n <= m)%nat).

Lemma sound_refuse {A} (P : A -> Prop) k : sound m P (refuse k n).
Proof. exact Hn. Qed.

Lemma sound_text_key token : sound m mc_key (text_parse_key token n).
Proof.
  unfold text_parse_key. cbv zeta. destruct token as [token|]; [|exact Hn]. cbn [ok_or mbind Result_bind].
  destruct (_ || _) eqn:E1; [exact Hn|]. destruct (existsb _ _) eqn:E2; [exact Hn|].
  by destruct (key_checks _ E1 E2) as [-> Hk].
Qed.

Lemma sound_meta_key token : sound m mc_key (meta_parse_key token n).
Proof.
  unfold meta_parse_key. cbv zeta. destruct token as [token|]; [|exact Hn]. cbn [ok_or mbind Result_bind].
  destruct (_ || _) eqn:E1; [exact Hn|]. destruct (existsb _ _) eqn:E2; [exact Hn|].
  by destruct (key_checks _ E1 E2) as [-> Hk].
Qed.

Lemma sound_exptime token : sound m (fits 32) (parse_exptime token n).
Proof.
  unfold parse_exptime. cbv zeta. destruct token as [token|]; [|exact Hn]. cbn [ok_or mbind Result_bind].
  destruct (token_i64 token); [apply exptime_fits|exact Hn].
Qed.

Lemma sound_keys_loop keys tokens :
  Forall mc_key keys -> len keys <= MAX_BATCH_ITEMS ->
  sound m (fun ks => Forall mc_key ks /\ len keys <= len ks <= MAX_BATCH_ITEMS) (keys_loop keys tokens n).
Proof.
  revert keys. induction tokens as [|t tokens IH]; intros keys Hk Hl; cbn [keys_loop].
  { cbn. split; [done|]. lia. }
  destruct (Z.leb_spec MAX_BATCH_ITEMS (len keys)); [exact Hn|].
  eapply parse_bind; [apply sound_text_key|]. intros key Hkey.
  assert (len (keys ++ [key]) = len keys + 1) as E by (rewrite len_app; done).
  specialize (IH (keys ++ [key])). rewrite E in IH.
  assert (Forall mc_key (keys ++ [key])) as Hk' by (apply Forall_app; split; [done|by apply Forall_singleton]).
  specialize (IH Hk' ltac:(lia)). revert IH. unfold sound. destruct (keys_loop _ _ _); [|done..]. intros [? ?]. split; [done|lia].
Qed.

Lemma sound_keys tokens : sound m mc_keys (parse_keys tokens n).
Proof.
  unfold parse_keys. destruct tokens as [|first tokens]; [exact Hn|].
  eapply parse_bind; [apply sound_text_key|]. intros k1 H1. destruct tokens as [|second tokens].
  - cbn. split; [by apply Forall_singleton|]. cbn. unfold len, MAX_BATCH_ITEMS. cbn. lia.
  - eapply parse_bind; [apply sound_text_key|]. intros k2 H2.
    eapply parse_bind; [apply sound_keys_loop|].
    + apply Forall_cons. split; [done|by apply Forall_singleton].
    + unfold len, MAX_BATCH_ITEMS. cbn. lia.
    + cbn. intros ks [Hks Hlen]. split; [done|]. unfold len in *. cbn in *. lia.
Qed.

Lemma sound_mode verb tokens e :
  is_verb verb STORAGE_VERBS = true -> sound m (fun _ => False) (Err e : Parse SetMode) ->
  sound m mc_mode (storage_mode verb tokens e).
Proof.
  intros Hv He. unfold storage_mode. repeat (case_bool_decide; [done|]).
  case_bool_decide.
  - eapply parse_bind; [apply sound_ok_or; [exact He|apply opt_u64_fits]|]. intros cas Hc. exact Hc.
  - exfalso. apply bool_decide_eq_true in Hv. unfold STORAGE_VERBS in Hv. set_solver.
Qed.

(** *** The classic commands *)

Definition mc_outcome (o : McOutcome) : Prop :=
  match o with
  | Mc_Incomplete => True
  | Mc_Command p => (0 < pa_consumed p <= m)%nat /\ mc_command (pa_command p)
  end.

Lemma sound_parsed c q st : mc_command c -> sound m mc_outcome (parsed_as c n q st).
Proof. intros H. by split. Qed.

Lemma sound_keyed token (f : bytes -> Parse McOutcome) :
  (forall key, mc_key key -> sound m mc_outcome (f key)) -> sound m mc_outcome (text_parse_key token n ≫= f).
Proof. intros H. eapply parse_bind; [apply sound_text_key|exact H]. Qed.

Lemma sound_tag (tag : bytes) (r : Parse McOutcome) k :
  (mc_tag tag -> sound m mc_outcome r) ->
  sound m mc_outcome (if (len tag =? 0) || (MAX_TAG_LEN <? len tag) then refuse k n else r).
Proof.
  intros H. destruct (_ || _) eqn:E; [exact Hn|]. apply orb_false_iff in E as [H1%Z.eqb_neq H2%Z.ltb_ge].
  apply H. unfold mc_tag. pose proof (len_nonneg tag). lia.
Qed.

Lemma sound_cachedump tokens : sound m mc_outcome (parse_cachedump tokens n).
Proof.
  unfold parse_cachedump, next. cbv zeta. destruct (head tokens) as [class|]; [|exact Hn]. cbn [ok_or mbind Result_bind].
  destruct (head (tail tokens)) as [limit|]; [|exact Hn]. cbn [ok_or mbind Result_bind].
  destruct (token_u64 limit) as [l|] eqn:El; [|exact Hn]. cbn [ok_or mbind Result_bind].
  destruct (token_u64 class); [|exact Hn]. apply token_u64_fits in El.
  split; [done|]. cbn. unfold MAX_LIST_LIMIT. destruct (Z.eqb_spec l 0); (split; [|done]); [lia|width].
Qed.

Lemma sound_stats tokens : sound m mc_outcome (parse_stats tokens n).
Proof.
  unfold parse_stats, next. destruct (stats_word (head tokens)); [|apply sound_cachedump|exact Hn].
  destruct (tail tokens); [by split|exact Hn].
Qed.

Lemma sound_crawler tokens : sound m mc_outcome (parse_lru_crawler tokens n).
Proof.
  unfold parse_lru_crawler, next. destruct (crawler_style (head tokens)) as [k|style]; [exact Hn|].
  destruct (head (tail tokens)); [|exact Hn]. split; [done|]. cbn. unfold MAX_LIST_LIMIT. done.
Qed.

Lemma sound_text verb line buf :
  is_verb verb STORAGE_VERBS = false -> sound m mc_outcome (text_parse verb line n buf).
Proof.
  intros Hv. unfold text_parse. cbv zeta. rewrite Hv.
  unfold parse_delete, parse_touch, parse_counter_verb, parse_delete_by_tag, parse_verbosity, next.
  repeat match goal with
  | |- sound _ _ (if is_verb _ _ then _ else _) => destruct (is_verb _ _)
  end;
  repeat first
    [ apply sound_stats | apply sound_crawler | apply sound_refuse | apply sound_parsed; done
    | apply sound_keyed; intros ? ?
    | apply sound_tag; intros ?
    | eapply parse_bind; [apply sound_keys|intros ? ?]
    | eapply parse_bind; [apply sound_exptime|intros ? ?]
    | eapply parse_bind; [apply sound_ok_or with (P := fits 64); [exact Hn|apply opt_u64_fits]|intros ? ?]
    | eapply parse_bind; [apply sound_ok_or with (P := fun _ => True); [exact Hn|done]|intros ? _]
    | case_bool_decide
    | exact Hn
    | apply sound_parsed; cbn; eauto 10 ].
Qed.

(** *** The meta commands *)

Lemma sound_tags_loop tags names :
  Forall (fun t => t <> []) names -> Forall mc_tag tags -> len tags <= ABSOLUTE_MAX_TAGS ->
  sound m (fun ts => Forall mc_tag ts /\ len ts <= ABSOLUTE_MAX_TAGS) (tags_loop tags names n).
Proof.
  intros Hnames. revert tags. induction Hnames as [|t names Ht Hnames IH]; intros tags Hts Hl; cbn [tags_loop]; [done|].
  destruct (Z.ltb_spec MAX_TAG_LEN (len t)); [exact Hn|].
  destruct (Z.leb_spec ABSOLUTE_MAX_TAGS (len tags)); [exact Hn|]. apply IH.
  - apply Forall_app. split; [done|]. apply Forall_singleton. unfold mc_tag, len in *. destruct t; [done|]. cbn in *. lia.
  - rewrite len_app. unfold len at 2. cbn. lia.
Qed.

Lemma sound_flag_step out token : collected_ok out -> sound m collected_ok (flag_step out token n).
Proof.
  intros Ho. pose proof Ho as (H1 & H2 & H3 & H4 & H5 & H6). unfold flag_step. cbv zeta. destruct token as [|letter arg]; [exact Hn|].
  assert (forall mt, collected_ok (with_meta out mt)) as Hm by done.
  destruct letter; try exact Hn; try exact (Hm _); try exact Ho.
  - (* C *) eapply parse_bind; [apply sound_ok_or with (P := fits 64); [exact Hn|apply token_u64_fits]|]. intros v Hv. by unfold collected_ok; conjs.
  - (* D *) eapply parse_bind; [apply sound_ok_or with (P := fits 64); [exact Hn|apply token_u64_fits]|]. intros v Hv. by unfold collected_ok; conjs.
  - (* F *) eapply parse_bind; [apply sound_ok_or with (P := fits 32); [exact Hn|]|].
    + intros v Hv. eapply u32_of_fits; [exact Hv|]. apply token_u64_fits.
    + intros v Hv. by unfold collected_ok; conjs.
  - (* G *) eapply parse_bind; [apply sound_tags_loop; [|done..]|].
    + apply Forall_forall. intros t. rewrite list_elem_of_filter. by intros [].
    + intros ts [? ?]. by unfold collected_ok; conjs.
  - (* M *) eapply parse_bind; [apply sound_ok_or with (P := fun _ => True); [exact Hn|done]|]. intros v _. by unfold collected_ok; conjs.
  - (* T *) eapply parse_bind; [apply sound_ok_or with (P := fits 32); [exact Hn|]|].
    + unfold parse_ttl. intros v Hv. apply fmap_Some in Hv as (s & _ & ->). apply exptime_fits.
    + intros v Hv. by unfold collected_ok; conjs.
Qed.

Lemma sound_flags out tokens : collected_ok out -> sound m collected_ok (collect_flags out tokens n).
Proof.
  revert out. induction tokens as [|t tokens IH]; intros out Ho; cbn [collect_flags]; [done|].
  eapply parse_bind; [by apply sound_flag_step|]. exact IH.
Qed.

Lemma sound_meta_mode c e :
  collected_ok c -> sound m (fun _ => False) (Err e : Parse SetMode) -> sound m mc_mode (meta_mode c e).
Proof.
  intros (_ & _ & H & _) He. unfold meta_mode. destruct (co_cas c) as [cas|].
  - by destruct (co_mode c) as [[]|].
  - destruct (co_mode c) as [[]|]; try done; destruct e; done.
Qed.

Lemma sound_meta verb line buf :
  is_verb verb [bs "ms"] = false -> sound m mc_outcome (meta_parse verb line n buf).
Proof.
  intros Hv. unfold meta_parse, next. cbv zeta. rewrite Hv.
  assert (forall (f : bytes -> Collected -> Command) style token tokens,
    (forall key flags, mc_key key -> collected_ok flags -> mc_command (f key flags)) ->
    sound m mc_outcome
      (meta_parse_key token n ≫= fun key => collect_flags Collected_default tokens n ≫= fun flags =>
       parsed_as (f key flags) n (mf_quiet (co_meta flags)) (Style_Meta (style (co_meta flags))))) as Hk.
  { intros f style token tokens Hf. eapply parse_bind; [apply sound_meta_key|]. intros key Hkey.
    eapply parse_bind; [apply sound_flags, default_ok|]. intros flags Hflags. apply sound_parsed. by apply Hf. }
  destruct (is_verb verb [bs "mn"]); [by apply sound_parsed|].
  destruct (is_verb verb [bs "mg"]).
  { apply Hk. intros key flags Hkey (Ht & _). destruct (co_ttl flags); [|done]. split; [by apply one_key|done]. }
  destruct (is_verb verb [bs "md"]); [by apply Hk|].
  destruct (is_verb verb [bs "ma"]).
  { apply Hk. intros key flags Hkey (_ & _ & _ & Hd & _). eexists key, _, _. split; [done|]. split; [done|].
    destruct (co_delta flags); [done|]. unfold fits. cbn. lia. }
  destruct (is_verb verb [bs "me"]).
  { eapply parse_bind; [apply sound_meta_key|]. intros key Hkey. by apply sound_parsed. }
  destruct (is_verb verb [bs "mdt"]); [|exact Hn].
  eapply parse_bind; [apply sound_ok_or with (P := fun _ => True); [exact Hn|done]|]. intros tag _. apply sound_tag. intros Htag.
  eapply parse_bind; [apply sound_flags, default_ok|]. intros flags _. by apply sound_parsed.
Qed.

End Sound.

(** *** With a data block *)

Lemma sound_storage verb line buf n :
  (0 < n <= length buf)%nat -> is_verb verb STORAGE_VERBS = true ->
  sound (length buf) (mc_outcome (length buf)) (parse_storage verb line buf n).
Proof.
  intros Hn Hv. unfold parse_storage. cbv zeta. destruct (opt_u64 (tokens_of line !! 4%nat)) as [declared|] eqn:Ed; [|exact Hn].
  cbn [ok_or mbind Result_bind]. apply opt_u64_fits in Ed. destruct (Z.ltb_spec ABSOLUTE_MAX_VALUE_LEN declared); [done|].
  destruct (Nat.ltb_spec (length buf) (n + Z.to_nat declared + 2)) as [|Hl]; [done|].
  set (e := (n + Z.to_nat declared)%nat) in *.
  assert (0 < e + 2 <= length buf)%nat as He by lia.
  destruct (negb _); [exact He|].
  eapply parse_bind; [by apply sound_text_key|]. intros key Hkey.
  eapply parse_bind; [apply sound_ok_or with (P := fits 32); [exact He|]|].
  { intros v Hf. eapply u32_of_fits; [exact Hf|]. apply opt_u64_fits. }
  intros flags Hflags. eapply parse_bind; [by apply sound_exptime|]. intros ttl Httl.
  eapply parse_bind; [by apply (sound_mode _ (e + 2))|]. intros mode Hmode. split; [exact He|]. cbn.
  unfold mc_set. cbn. conjs; try done; [|by eexists]. rewrite len_slice by lia. width.
Qed.

Lemma sound_ms tokens buf n :
  (0 < n <= length buf)%nat -> sound (length buf) (mc_outcome (length buf)) (parse_ms tokens n buf).
Proof.
  intros Hn. unfold parse_ms, next. cbv zeta. eapply parse_bind; [by apply sound_meta_key|]. intros key Hkey.
  eapply parse_bind; [apply sound_ok_or with (P := fits 64); [exact Hn|apply opt_u64_fits]|]. intros declared Hd.
  eapply parse_bind; [apply sound_flags, default_ok; exact Hn|]. intros flags Hflags.
  destruct (Z.ltb_spec ABSOLUTE_MAX_VALUE_LEN declared); [done|].
  destruct (Nat.ltb_spec (length buf) (n + Z.to_nat declared + 2)) as [|Hl]; [done|].
  destruct (negb _); [cbn; lia|].
  eapply parse_bind; [by apply sound_meta_mode|]. intros mode Hmode. split; [cbn; lia|]. cbn.
  destruct Hflags as (H1 & H2 & _ & _ & H5 & H6). unfold mc_set. cbn. conjs; try done.
  - rewrite len_slice by lia. width.
  - eexists. split; [done|]. destruct (co_ttl flags); [done|]. unfold fits. cbn. lia.
  - destruct (co_client_flags flags); [done|]. unfold fits. cbn. lia.
Qed.

Lemma sound_line line n buf :
  (0 < n <= length buf)%nat -> sound (length buf) (mc_outcome (length buf)) (parse_line line n buf).
Proof.
  intros Hn. unfold parse_line. cbv zeta. set (verb := default line _). destruct (is_meta_verb verb).
  - destruct (is_verb verb [bs "ms"]) eqn:E; [|by apply sound_meta].
    apply bool_decide_eq_true, list_elem_of_singleton in E. rewrite E. by apply sound_ms.
  - destruct (is_verb verb STORAGE_VERBS) eqn:E; [|by apply sound_text].
    unfold text_parse. rewrite E. by apply sound_storage.
Qed.

(** ** Any bytes *)

(** What a parse that wants more has: part of a line no longer than a line may
    be, or a line and less than a data block may hold. *)
Definition waiting (buf : bytes) : Prop :=
  (LF ∉ buf /\ len buf <= MAX_LINE_LEN)
  \/ exists line term rest,
      buf = line ++ term ++ rest /\ ends_line line term /\ len rest < ABSOLUTE_MAX_VALUE_LEN + 2.

Lemma demand_bound line n : (n <= demand line n)%nat /\ Z.of_nat (demand line n) <= Z.of_nat n + ABSOLUTE_MAX_VALUE_LEN + 2.
Proof.
  unfold demand, ms_demand, storage_demand, next. cbv zeta.
  assert (forall d, (n <= block_end n d)%nat /\ Z.of_nat (block_end n d) <= Z.of_nat n + ABSOLUTE_MAX_VALUE_LEN + 2) as Hb.
  { intros d. unfold block_end. destruct (Z.leb_spec d ABSOLUTE_MAX_VALUE_LEN); unfold ABSOLUTE_MAX_VALUE_LEN in *; lia. }
  assert ((n <= n)%nat /\ Z.of_nat n <= Z.of_nat n + ABSOLUTE_MAX_VALUE_LEN + 2) by (unfold ABSOLUTE_MAX_VALUE_LEN; lia).
  repeat case_match; auto.
Qed.

Lemma find_line_more buf more line_end :
  find_line buf = Ok (Some line_end) -> find_line (buf ++ more) = Ok (Some line_end).
Proof.
  intros H. destruct (find_line_cases buf) as [(_ & [(_ & E)|(_ & d & E)])|(line & term & rest & -> & He)]; try congruence.
  destruct (find_line_at line term rest He) as [E _]. rewrite <- !app_assoc. destruct (find_line_at line term (rest ++ more) He) as [E' _].
  congruence.
Qed.

Lemma mc_parse_ok buf :
  match mc_parse buf with
  | Ok (Mc_Command p) =>
      (0 < pa_consumed p <= length buf)%nat /\ mc_command (pa_command p)
      /\ forall more, mc_parse (take (pa_consumed p) buf ++ more) = Ok (Mc_Command p)
  | Ok Mc_Incomplete => waiting buf
  | Err (Recoverable kind consumed) =>
      (0 < consumed <= length buf)%nat /\ forall more, mc_parse (buf ++ more) = Err (Recoverable kind consumed)
  | Err (Fatal _) => True
  | Panic _ => False
  end.
Proof.
  destruct (find_line_cases buf) as [(Hn & [(Hl & E)|(Hl & d & E)])|(line & term & rest & -> & He)].
  1: unfold mc_parse; rewrite E; cbn; by left.
  1: by unfold mc_parse; rewrite E.
  rewrite mc_parse_at by done. set (n := length (line ++ term)). set (buf := line ++ term ++ rest).
  assert (0 < n <= length buf)%nat as Hlen.
  { subst n buf. rewrite !length_app. destruct He as (_ & [->|[-> _]]); cbn; lia. }
  destruct (line_settles line n) as (Ha & Hi & Hd). destruct (demand_bound line n) as [Hd1 Hd2].
  pose proof (sound_line line n buf Hlen) as Hs.
  assert (forall k tail, (n <= k)%nat -> (demand line n <= k)%nat -> agree k buf tail -> mc_parse tail = parse_line line n buf) as Hmore.
  { intros k tail' Hnk Hdk Hag. rewrite (Ha buf tail') by (by eapply agree_le).
    assert (exists rest', tail' = line ++ term ++ rest') as [rest' ->].
    { exists (drop n tail'). rewrite app_assoc. rewrite <- (take_drop n tail') at 1. f_equal.
      destruct (agree_le _ _ _ _ Hnk Hag) as (_ & _ & <-). unfold buf, n. by rewrite app_assoc, take_length_app. }
    by rewrite mc_parse_at. }
  destruct (decide (demand line n <= length buf)%nat) as [Hdem|Hdem].
  - destruct (Hd buf Hdem) as [H1 H2]. destruct (parse_line line n buf) as [[|p]|[k c|f]|why] eqn:Ep; try done.
    + rewrite (H2 p eq_refl). destruct Hs as [Hs1 Hs2]. rewrite (H2 p eq_refl) in Hs1. split; [exact Hs1|]. split; [exact Hs2|].
      intros more. apply (Hmore (demand line n)); [done..|]. by apply agree_take.
    + split; [exact Hs|]. intros more. apply (Hmore (length buf)); [lia|done|]. apply agree_app.
  - rewrite Hi by lia. right. exists line, term, rest. conjs; [done..|].
    assert (length buf = n + length rest)%nat by (unfold buf, n; by rewrite app_assoc, length_app).
    unfold len. lia.
Qed.

(** C28 Any bytes at all parse safely.  A parse never panics; one that wants
    more holds part of a line within its limit, or a line and part of a data
    block within its limit; a refusal consumes bytes that are there, at least
    one, and what arrives later does not change it; and a command consumes
    bytes that are there, at least one, is well formed - keys of 1 to 250 bytes
    without controls or spaces, numbers within their widths, tags and batches
    within their limits - and depends on the bytes it consumes and no other. *)
Theorem mc_parse_exact buf :
  match mc_parse buf with
  | Ok (Mc_Command p) =>
      (0 < pa_consumed p <= length buf)%nat /\ mc_command (pa_command p)
      /\ forall more, mc_parse (take (pa_consumed p) buf ++ more) = Ok (Mc_Command p)
  | Ok Mc_Incomplete => waiting buf
  | Err (Recoverable kind consumed) =>
      (0 < consumed <= length buf)%nat /\ forall more, mc_parse (buf ++ more) = Err (Recoverable kind consumed)
  | Err (Fatal _) => True
  | Panic _ => False
  end.
Proof. exact (mc_parse_ok buf). Qed.
