(* ===== verification/McTrip.v ===== *)
(** Classic memcached requests as a client writes them, and what the server
    parses of them. *)

From S2P Require Import Prelude Bytes Text Core Record Glob Clock Arith Command Tags Mc McSpec.

(** ** Tokens *)

Definition join_tokens (tokens : list bytes) : bytes :=
  match tokens with [] => [] | t :: ts => t ++ concat (cons SPACE <$> ts) end.

Definition token_ok (t : bytes) : Prop := t <> [] /\ SPACE ∉ t /\ LF ∉ t.

#[global] Instance token_ok_dec t : Decision (token_ok t).
Proof. unfold token_ok. apply _. Defined.

Lemma split_on_none b l : b ∉ l -> split_on b l = [l].
Proof.
  induction l as [|x l IH]; intros H; [done|]. apply not_elem_of_cons in H as [Hx Hl]. cbn [split_on].
  rewrite bool_decide_eq_false_2 by congruence. by rewrite IH.
Qed.

Lemma split_on_app b t rest : b ∉ t -> split_on b (t ++ b :: rest) = t :: split_on b rest.
Proof.
  induction t as [|x t IH]; intros H; cbn [split_on app].
  - by rewrite bool_decide_eq_true_2.
  - apply not_elem_of_cons in H as [Hx Hl]. rewrite bool_decide_eq_false_2 by congruence. by rewrite IH.
Qed.

Lemma split_on_join t ts : Forall token_ok (t :: ts) -> split_on SPACE (join_tokens (t :: ts)) = t :: ts.
Proof.
  intros [(_ & Ht & _) Hts]%Forall_cons. cbn [join_tokens]. revert t Ht.
  induction Hts as [|u us (_ & Hu & _) Hus IH]; intros t Ht; cbn [fmap list_fmap concat].
  - rewrite app_nil_r. by apply split_on_none.
  - cbn [app]. rewrite split_on_app by done. by rewrite IH.
Qed.

Lemma tokens_of_join t ts : Forall token_ok (t :: ts) -> tokens_of (join_tokens (t :: ts)) = t :: ts.
Proof.
  intros H. unfold tokens_of. rewrite split_on_join by done. generalize dependent (t :: ts). clear t ts.
  induction 1 as [|t ts (Ht & _) Hts IH]; [done|]. rewrite filter_cons, decide_True by done. by rewrite IH.
Qed.

Lemma join_line tokens : Forall token_ok tokens -> ends_line (join_tokens tokens) CRLF.
Proof.
  intros H. split; [|by left]. destruct H as [|t ts (_ & _ & Ht) Hts]; [apply not_elem_of_nil|].
  cbn [join_tokens]. apply not_elem_of_app. split; [done|]. clear Ht t.
  induction Hts as [|t ts (_ & _ & Ht) Hts IH]; [apply not_elem_of_nil|]. cbn.
  apply not_elem_of_cons. split; [done|]. by apply not_elem_of_app.
Qed.

(** A request line is parsed by the verb it starts with, out of its tokens. *)
Lemma mc_parse_tokens verb args rest :
  is_meta_verb verb = false -> Forall token_ok (verb :: args) ->
  let line := join_tokens (verb :: args) in
  mc_parse (line ++ CRLF ++ rest) = text_parse verb line (length (line ++ CRLF)) (line ++ CRLF ++ rest)
  /\ tokens_of line = verb :: args.
Proof.
  intros Hv Ht line. split; [|by apply tokens_of_join].
  rewrite mc_parse_at by (by apply join_line). unfold parse_line. subst line. rewrite split_on_join by done. cbv zeta. change (default _ (head (verb :: args))) with verb.
  by rewrite Hv.
Qed.

(** *** Numbers and keys as tokens *)

Lemma number_token v : 0 <= v -> token_ok (u64_text v).
Proof.
  intros Hv. split; [apply u64_text_nonempty|]. pose proof (u64_text_digits v Hv) as Hd. rewrite Forall_forall in Hd.
  split; intros H; by apply Hd in H.
Qed.

Lemma digits_ascii l : Forall (fun b => is_ascii_digit b = true) l -> utf8_decode l = Some (byte_val <$> l).
Proof. intros H. apply utf8_decode_ascii. eapply Forall_impl; [exact H|]. intros b Hb%is_ascii_digit_lt. lia. Qed.

Lemma digit_chars l :
  Forall (fun b => is_ascii_digit b = true) l -> Forall (fun c => is_digit_char c = true) (byte_val <$> l).
Proof. intros H. by apply Forall_fmap. Qed.

Lemma number_u64 v : fits 64 v -> token_u64 (u64_text v) = Some v.
Proof.
  intros Hv. pose proof (u64_text_digits v ltac:(width)) as Hd. unfold token_u64.
  rewrite digits_ascii by done. cbn [mbind option_bind]. rewrite trim_digits by (by apply digit_chars). by apply u64_text_roundtrip.
Qed.

Lemma number_i64 v : 0 <= v <= I64_MAX -> token_i64 (u64_text v) = Some v.
Proof.
  intros Hv. pose proof (u64_text_digits v ltac:(lia)) as Hd. unfold token_i64.
  rewrite digits_ascii by done. cbn [mbind option_bind]. rewrite trim_digits by (by apply digit_chars).
  pose proof (u64_text_roundtrip v ltac:(width)) as Hp.
  assert (forall c l, byte_val <$> u64_text v = c :: l -> c <> 45) as Hc.
  { intros c l E. destruct (u64_text v) as [|b t]; [done|]. injection E as <- _. apply Forall_cons in Hd as [Hb _].
    apply is_ascii_digit_lt in Hb. lia. }
  destruct (byte_val <$> u64_text v) as [|c l] eqn:E; [done|]. specialize (Hc c l eq_refl).
  assert ((w ← parse_u64 (c :: l); if w <=? I64_MAX then Some w else None) = Some v) as Hr
    by (rewrite Hp; cbn; by rewrite (proj2 (Z.leb_le _ _)) by lia).
  destruct c as [|q|q]; [exact Hr| |exact Hr]. do 6 (destruct q as [q|q|]; try exact Hr). done.
Qed.

Lemma key_token key : mc_key key -> token_ok key.
Proof.
  intros [Hl Hf]. rewrite Forall_forall in Hf. split; [intros ->; by destruct Hl|].
  split; intros H; by apply Hf in H.
Qed.

Lemma parse_own_key key n : mc_key key -> text_parse_key (Some key) n = Ok key.
Proof.
  intros [Hl Hf]. unfold text_parse_key. cbv zeta. cbn [ok_or mbind Result_bind].
  rewrite (proj2 (Z.eqb_neq _ _)), (proj2 (Z.ltb_ge _ _)) by lia. cbn [orb].
  assert (existsb breaks_line key = false) as ->.
  { apply not_true_iff_false. intros (b & Hb & E)%existsb_exists. rewrite Forall_forall in Hf.
    apply list_elem_of_In, Hf in Hb. congruence. }
  rewrite (proj2 (Key_new_ok key)); [done|]. unfold valid_key, MAX_KEY_LEN, MC_MAX_KEY_LEN in *. lia.
Qed.

Lemma parse_own_keys_loop keys more n :
  Forall mc_key more -> len keys + len more <= MAX_BATCH_ITEMS -> keys_loop keys more n = Ok (keys ++ more).
Proof.
  intros H. revert keys. induction H as [|k more Hk Hm IH]; intros keys Hl; cbn [keys_loop]; [by rewrite app_nil_r|].
  unfold len in Hl. cbn [length] in Hl. rewrite (proj2 (Z.leb_gt _ _)) by (unfold len; lia).
  rewrite parse_own_key by done. cbn [mbind Result_bind]. rewrite IH; [by rewrite <- app_assoc|].
  unfold len. rewrite length_app. cbn. lia.
Qed.

(** A key list in the form the parser gives it: one key is not a batch. *)
Definition key_list (first : bytes) (more : list bytes) : KeyList :=
  match more with [] => KeyList_One first | _ => KeyList_Many (first :: more) end.

Lemma parse_own_keys first more n :
  Forall mc_key (first :: more) -> len (first :: more) <= MAX_BATCH_ITEMS ->
  parse_keys (first :: more) n = Ok (key_list first more).
Proof.
  intros [H1 H2]%Forall_cons Hl. unfold parse_keys. rewrite parse_own_key by done. cbn [mbind Result_bind].
  destruct H2 as [|second more H2 H3]; [done|]. rewrite parse_own_key by done. cbn [mbind Result_bind].
  rewrite parse_own_keys_loop by (done || (unfold len in *; cbn in *; lia)). done.
Qed.

Lemma parse_own_exptime ttl n : fits 32 ttl -> parse_exptime (Some (u64_text ttl)) n = Ok ttl.
Proof.
  intros H. unfold parse_exptime. cbv zeta. cbn [ok_or mbind Result_bind]. rewrite number_i64 by width. cbn [ok_or mbind Result_bind].
  unfold exptime_of. rewrite (proj2 (Z.ltb_ge _ _)) by width. f_equal. apply Z.min_l. width.
Qed.

(** ** Requests *)

Definition noreply_tokens (noreply : bool) : list bytes := if noreply then [NOREPLY] else [].

Definition mode_verb (m : SetMode) : bytes :=
  match m with
  | SetMode_Set => bs "set" | SetMode_Add => bs "add" | SetMode_Replace => bs "replace"
  | SetMode_Append => bs "append" | SetMode_Prepend => bs "prepend" | SetMode_Cas _ => bs "cas"
  end.

Definition mode_tokens (m : SetMode) : list bytes :=
  match m with SetMode_Cas cas => [u64_text cas] | _ => [] end.

Definition ttl_of (t : TtlChange) : Z := match t with Ttl_Set ttl => ttl | _ => 0 end.

(** The verb, its arguments, what follows the line, and the reply it gets. *)
Definition mc_request (c : Command) (noreply : bool) : option (bytes * list bytes * bytes * ResponseStyle) :=
  match c with
  | Cmd_Set s =>
      Some (mode_verb (s_mode s),
            s_key s :: u64_text (s_mc_flags s) :: u64_text (ttl_of (s_ttl s)) :: u64_text (len (s_value s))
              :: mode_tokens (s_mode s) ++ noreply_tokens noreply,
            s_value s ++ CRLF, Style_Storage)
  | Cmd_GetMany keys => Some (bs "get", KeyList_as_slice keys, [], Style_Retrieval false)
  | Cmd_GetAndTouch keys ttl => Some (bs "gat", u64_text ttl :: KeyList_as_slice keys, [], Style_Retrieval false)
  | Cmd_Delete key => Some (bs "delete", key :: noreply_tokens noreply, [], Style_Deleted)
  | Cmd_Touch key ttl => Some (bs "touch", key :: u64_text ttl :: noreply_tokens noreply, [], Style_Touched)
  | Cmd_Arithmetic op =>
      match ar_delta op with
      | Delta_Counter delta decrement =>
          Some (if decrement then bs "decr" else bs "incr",
                ar_key op :: u64_text delta :: noreply_tokens noreply, [], Style_Counter)
      | _ => None
      end
  | Cmd_DeleteByTag tag => Some (bs "delete_by_tag", tag :: noreply_tokens noreply, [], Style_Deleted)
  | Cmd_Flush => Some (bs "flush_all", noreply_tokens noreply, [], Style_Ok)
  | Cmd_Version => Some (bs "version", [], [], Style_Version)
  | Cmd_Quit => Some (bs "quit", [], [], Style_Quit)
  | _ => None
  end.

Definition request_bytes (verb : bytes) (args : list bytes) (data : bytes) : bytes :=
  join_tokens (verb :: args) ++ CRLF ++ data.

(** What the grammar can say: a retrieval always wants its reply and names one
    key or several; a write of the key [noreply] cannot ask for its own. *)
Definition sayable (c : Command) (noreply : bool) : Prop :=
  match c with
  | Cmd_Set s => s_tags s = [] /\ (s_key s <> NOREPLY \/ noreply = true)
  | Cmd_GetMany keys | Cmd_GetAndTouch keys _ =>
      noreply = false /\ (exists first more, keys = key_list first more)
  | Cmd_DeleteByTag tag => SPACE ∉ tag /\ LF ∉ tag
  | Cmd_Version | Cmd_Quit => noreply = false
  | Cmd_Delete _ | Cmd_Touch _ _ | Cmd_Arithmetic _ | Cmd_Flush => True
  | _ => False
  end.

(** A token written out in the grammar. *)
Ltac fixed_token := apply (bool_decide_unpack (token_ok _)); vm_compute; exact I.

Lemma noreply_token_ok noreply : Forall token_ok (noreply_tokens noreply).
Proof. destruct noreply; [|done]. apply Forall_singleton. fixed_token. Qed.

Lemma mode_verb_ok m : token_ok (mode_verb m) /\ is_meta_verb (mode_verb m) = false /\ is_verb (mode_verb m) STORAGE_VERBS = true.
Proof. destruct m; (split; [fixed_token|done]). Qed.

Lemma mode_tokens_ok m : mc_mode m -> Forall token_ok (mode_tokens m).
Proof. destruct m; try done. intros [H _]. apply Forall_singleton. by apply number_token. Qed.

Lemma mode_parsed m a0 a1 a2 a3 a4 more e :
  mc_mode m -> storage_mode (mode_verb m) (a0 :: a1 :: a2 :: a3 :: a4 :: mode_tokens m ++ more) e = Ok m.
Proof.
  destruct m; try reflexivity. intros H. unfold storage_mode. cbn [mode_verb]. repeat (rewrite bool_decide_eq_false_2 by done).
  rewrite bool_decide_eq_true_2 by done. cbn [mode_tokens app lookup list_lookup opt_u64 mbind option_bind].
  by rewrite number_u64.
Qed.

Lemma noreply_found noreply : has_noreply (noreply_tokens noreply) = noreply.
Proof. by destruct noreply. Qed.

Lemma key_list_slice first more : KeyList_as_slice (key_list first more) = first :: more.
Proof. by destruct more. Qed.

(** The [noreply] of a storage line: what was asked, the key not being taken
    for it. *)
Lemma set_noreply s noreply a1 a2 a3 :
  mc_mode (s_mode s) -> 0 <= a1 -> 0 <= a2 -> 0 <= a3 -> s_key s <> NOREPLY \/ noreply = true ->
  has_noreply (mode_verb (s_mode s) :: s_key s :: u64_text a1 :: u64_text a2 :: u64_text a3
    :: mode_tokens (s_mode s) ++ noreply_tokens noreply) = noreply.
Proof.
  intros Hm H1 H2 H3 Hk. assert (forall v, 0 <= v -> bool_decide (u64_text v = NOREPLY) = false) as Hnum.
  { intros v Hv. apply bool_decide_eq_false_2. intros E. pose proof (u64_text_digits v Hv) as Hd. rewrite E in Hd.
    by apply Forall_cons in Hd as [Hd _]. }
  unfold has_noreply. cbn [existsb]. rewrite !Hnum, existsb_app by done.
  assert (bool_decide (mode_verb (s_mode s) = NOREPLY) = false) as -> by (by destruct (s_mode s)).
  assert (existsb (fun t => bool_decide (t = NOREPLY)) (mode_tokens (s_mode s)) = false) as ->.
  { destruct (s_mode s); try done. cbn [mode_tokens existsb]. destruct Hm. by rewrite Hnum. }
  destruct noreply; cbn; [by rewrite orb_true_r|]. destruct Hk; [|done]. by rewrite bool_decide_eq_false_2.
Qed.

Lemma set_parsed s noreply rest :
  mc_set s -> sayable (Cmd_Set s) noreply ->
  let request := request_bytes (mode_verb (s_mode s))
    (s_key s :: u64_text (s_mc_flags s) :: u64_text (ttl_of (s_ttl s)) :: u64_text (len (s_value s))
       :: mode_tokens (s_mode s) ++ noreply_tokens noreply) (s_value s ++ CRLF) in
  mc_parse (request ++ rest) = Ok (Mc_Command (mkParsed (Cmd_Set s) (length request) noreply Style_Storage)).
Proof.
  intros (Hk & Hv & (ttl & Et & Httl) & Hf & _ & _ & Hm & Hp) [Htags Hkey] request.
  destruct (mode_verb_ok (s_mode s)) as (Hverb & Hmeta & Hstore).
  set (verb := mode_verb (s_mode s)) in *. unfold request, request_bytes.
  set (args := s_key s :: _). assert (Forall token_ok (verb :: args)) as Htok.
  { subst args. rewrite Et. cbn [ttl_of]. pose proof (key_token _ Hk).
    repeat (apply Forall_cons; split; [done || (apply number_token; unfold len; width)|]).
    apply Forall_app. split; [by apply mode_tokens_ok|apply noreply_token_ok]. }
  rewrite <- !app_assoc. destruct (mc_parse_tokens verb args (s_value s ++ CRLF ++ rest) Hmeta Htok) as [-> Ets].
  cbv zeta in Ets. set (line := join_tokens (verb :: args)) in *.
  assert (fits 64 (len (s_value s))) as Hlen by (unfold ABSOLUTE_MAX_VALUE_LEN, len in *; width).
  set (toks := verb :: args) in *.
  assert (toks !! 1%nat = Some (s_key s)) as E1 by done.
  assert (opt_u64 (toks !! 2%nat) ≫= u32_of = Some (s_mc_flags s)) as E2.
  { change (toks !! 2%nat) with (Some (u64_text (s_mc_flags s))). cbn [opt_u64 mbind option_bind].
    rewrite number_u64 by width. cbn. unfold u32_of. by rewrite (proj2 (Z.leb_le _ _)) by width. }
  assert (forall n, parse_exptime (toks !! 3%nat) n = Ok ttl) as E3.
  { intros n. change (toks !! 3%nat) with (Some (u64_text (ttl_of (s_ttl s)))). rewrite Et. by apply parse_own_exptime. }
  assert (opt_u64 (toks !! 4%nat) = Some (len (s_value s))) as E4 by (by apply number_u64).
  assert (forall e, storage_mode verb toks e = Ok (s_mode s)) as E5 by (intros e; by apply mode_parsed).
  assert (has_noreply toks = noreply) as E6 by (apply set_noreply; [done|unfold fits in *; lia|rewrite Et; cbn; unfold fits in *; lia|unfold len; lia|done]).
  clearbody toks line. unfold text_parse. rewrite Hstore. cbv zeta. unfold parse_storage. rewrite Ets. cbv zeta.
  rewrite E4. cbn [ok_or mbind Result_bind]. rewrite (proj2 (Z.ltb_ge _ _)) by done. set (n := length (line ++ CRLF)).
  assert (Z.to_nat (len (s_value s)) = length (s_value s)) as -> by (unfold len; lia).
  assert (line ++ CRLF ++ s_value s ++ CRLF ++ rest = (line ++ CRLF) ++ s_value s ++ (CRLF ++ rest)) as -> by (by rewrite <- app_assoc).
  rewrite (proj2 (Nat.ltb_ge _ _)) by (subst n; rewrite !length_app; cbn; lia).
  rewrite (slice_here (line ++ CRLF) (s_value s) (CRLF ++ rest) n (n + length (s_value s))) by done.
  rewrite (app_assoc (line ++ CRLF)), slice_here by (subst n; rewrite !length_app; cbn; lia).
  rewrite bool_decide_eq_true_2 by done. cbn [negb]. rewrite E1, parse_own_key by done. cbn [mbind Result_bind].
  rewrite E2. cbn [ok_or mbind Result_bind]. rewrite E3. cbn [mbind Result_bind]. rewrite E5. cbn [mbind Result_bind].
  rewrite E6. do 3 f_equal.
  - destruct s. cbn in *. by subst.
  - subst n. rewrite !length_app. cbn. lia.
Qed.

Lemma line_parsed verb args style c noreply rest :
  is_meta_verb verb = false -> Forall token_ok (verb :: args) ->
  (forall line n buf, tail (tokens_of line) = args ->
     text_parse verb line n buf = parsed_as c n noreply style) ->
  let request := request_bytes verb args [] in
  mc_parse (request ++ rest) = Ok (Mc_Command (mkParsed c (length request) noreply style)).
Proof.
  intros Hv Ht Hp request. unfold request, request_bytes. rewrite app_nil_r, <- app_assoc.
  destruct (mc_parse_tokens verb args rest Hv Ht) as [-> Ets]. rewrite Hp; [done|]. cbv zeta in Ets. by rewrite Ets.
Qed.

Lemma noreply_args (l : list bytes) noreply : Forall token_ok l -> Forall token_ok (l ++ noreply_tokens noreply).
Proof. intros H. apply Forall_app. split; [done|apply noreply_token_ok]. Qed.

Lemma tag_token tag : mc_tag tag -> SPACE ∉ tag -> LF ∉ tag -> token_ok tag.
Proof. intros [H _] H1 H2. split; [intros ->; by vm_compute in H|done]. Qed.

(** Every token of a request line is one. *)
Ltac tokens :=
  repeat lazymatch goal with
  | |- Forall token_ok [] => constructor
  | |- Forall token_ok (noreply_tokens _) => apply noreply_token_ok
  | |- Forall token_ok (_ :: _) => apply Forall_cons; split
  | H : Forall mc_key ?ks |- Forall token_ok ?ks => eapply Forall_impl; [exact H|apply key_token]
  | H : Forall mc_key (_ :: ?ks) |- Forall token_ok ?ks => apply Forall_cons in H as [? H]
  | |- token_ok (u64_text _) => apply number_token; unfold fits in *; lia
  | |- token_ok _ => first [fixed_token | apply key_token; done || (by inversion select (Forall _ _))]
  end.

(** Parsing with the verb known. *)
Ltac by_verb :=
  intros line n buf Ha; unfold text_parse; rewrite Ha; cbv zeta;
  repeat match goal with |- context [is_verb ?v ?l] =>
    let b := eval vm_compute in (is_verb v l) in change (is_verb v l) with b end;
  cbv iota; unfold parse_delete, parse_touch, parse_counter_verb, parse_delete_by_tag, next; cbn [head tail].

(** A request a client writes is the request the server reads: whatever
    bytes the data block holds and whatever follows, a well-formed command of
    the classic grammar rendered as one line - and its block - parses as that
    very command, takes exactly the bytes it was rendered as, asks for no reply
    exactly when that was said, and is answered in its own style. *)
Theorem mc_request_roundtrip c noreply rest :
  mc_command c -> sayable c noreply ->
  exists verb args data style,
    mc_request c noreply = Some (verb, args, data, style)
    /\ let request := request_bytes verb args data in
       mc_parse (request ++ rest) = Ok (Mc_Command (mkParsed c (length request) noreply style)).
Proof.
  destruct c; try done; intros Hc Hs.
  - (* GetMany *) destruct Hs as [-> (first & more & ->)]. destruct Hc as [Hk Hl]. rewrite key_list_slice in Hk, Hl.
    do 4 eexists. split; [reflexivity|]. rewrite key_list_slice. apply line_parsed; [done|by tokens|].
    by_verb. by rewrite parse_own_keys by (done || lia).
  - (* Set *) do 4 eexists. split; [reflexivity|]. by apply set_parsed.
  - (* Delete *) do 4 eexists. split; [reflexivity|]. apply line_parsed; [done|by tokens|].
    by_verb. rewrite parse_own_key by done. cbn [mbind Result_bind]. by rewrite noreply_found.
  - (* Touch *) destruct Hc as [Hk Ht]. do 4 eexists. split; [reflexivity|]. apply line_parsed; [done|by tokens|].
    by_verb. rewrite parse_own_key by done. cbn [mbind Result_bind head tail]. rewrite parse_own_exptime by done.
    cbn [mbind Result_bind]. by rewrite noreply_found.
  - (* DeleteByTag *) destruct Hs. do 4 eexists. split; [reflexivity|]. apply line_parsed; [done| |].
    + apply Forall_cons. split; [fixed_token|]. apply (noreply_args [tag]), Forall_singleton. by apply tag_token.
    + by_verb. cbn [ok_or mbind Result_bind]. unfold mc_command, mc_tag in Hc.
      rewrite (proj2 (Z.eqb_neq _ _)), (proj2 (Z.ltb_ge _ _)) by lia. cbn [orb]. by rewrite noreply_found.
  - (* Flush *) do 4 eexists. split; [reflexivity|]. apply line_parsed; [done|by tokens|]. by_verb. by rewrite noreply_found.
  - (* GetAndTouch *) destruct Hs as [-> (first & more & ->)]. destruct Hc as [[Hk Hl] Ht]. rewrite key_list_slice in Hk, Hl.
    do 4 eexists. split; [reflexivity|]. rewrite key_list_slice. apply line_parsed; [done|by tokens|].
    by_verb. rewrite parse_own_exptime by done. cbn [mbind Result_bind]. by rewrite parse_own_keys by (done || lia).
  - (* Arithmetic *) destruct Hc as (key & delta & decrement & -> & Hk & Hd).
    do 4 eexists. split; [reflexivity|]. cbn [ar_key Arithmetic_counter].
    apply line_parsed; [by destruct decrement|destruct decrement; by tokens|].
    destruct decrement; by_verb; rewrite parse_own_key by done; cbn [mbind Result_bind opt_u64 option_bind head tail];
      rewrite number_u64 by done; cbn [ok_or mbind Result_bind]; by rewrite noreply_found.
  - (* Version *) cbn in Hs. subst. do 4 eexists. split; [reflexivity|]. apply line_parsed; [done|by tokens|by by_verb].
  - (* Quit *) cbn in Hs. subst. do 4 eexists. split; [reflexivity|]. apply line_parsed; [done|by tokens|by by_verb].
Qed.
