(* ===== verification/McServerSpec.v ===== *)
(** What the memcached executor guarantees over any store that keeps the
    promises of the [Store] trait: holding writes back changes nothing, no
    command runs without its roles, a stranger's bytes do nothing, and a dump
    ends. *)

From S2P Require Import Prelude Bytes Text Core Record Glob Clock Arith Float Command Backend Apply Read.
From S2P Require Import Vcp VcpEncode Auth Server ServerBatch Mc McEncode McServer McSpec.

(** ** What a block holds *)

Inductive Item : Type := Item_Command (parsed : Parsed) | Item_Refused (kind : ErrorKind).

(** The items of a block, each where the one before it ended, and the tail that
    is not one. *)
Inductive mc_cut : bytes -> list Item -> bytes -> Prop :=
| cut_tail buf :
    (forall p, mc_parse buf <> Ok (Mc_Command p)) -> (forall k n, mc_parse buf <> Err (Recoverable k n)) ->
    mc_cut buf [] buf
| cut_command buf p items tail :
    mc_parse buf = Ok (Mc_Command p) -> mc_cut (drop (pa_consumed p) buf) items tail ->
    mc_cut buf (Item_Command p :: items) tail
| cut_refused buf kind consumed items tail :
    mc_parse buf = Err (Recoverable kind consumed) -> mc_cut (drop consumed buf) items tail ->
    mc_cut buf (Item_Refused kind :: items) tail.

Lemma mc_cut_exists block : exists items tail, mc_cut block items tail.
Proof.
  induction block as [block IH] using (induction_ltof1 _ length). unfold ltof in IH.
  pose proof (mc_parse_ok block) as Hp. destruct (mc_parse block) as [[|p]|[kind n|d]|why] eqn:E.
  - exists [], block. apply cut_tail; intros *; by rewrite E.
  - destruct (IH (drop (pa_consumed p) block)) as (items & tail & Hc); [rewrite length_drop; lia|].
    eexists _, _. by eapply cut_command.
  - destruct (IH (drop n block)) as (items & tail & Hc); [rewrite length_drop; lia|]. eexists _, _. by eapply cut_refused.
  - exists [], block. apply cut_tail; intros *; by rewrite E.
  - done.
Qed.

(** There is one way to cut a block. *)
Lemma mc_cut_inv buf items tail :
  mc_cut buf items tail ->
  match mc_parse buf with
  | Ok (Mc_Command p) => exists more, items = Item_Command p :: more /\ mc_cut (drop (pa_consumed p) buf) more tail
  | Err (Recoverable k n) => exists more, items = Item_Refused k :: more /\ mc_cut (drop n buf) more tail
  | _ => items = [] /\ tail = buf
  end.
Proof.
  intros [b H1 H2|b p its t E Hc|b k n its t E Hc]; [|rewrite E; eauto..].
  destruct (mc_parse b) as [[|p]|[k n|d]|why]; try done; [by destruct (H1 p)|by destruct (H2 k n)].
Qed.

Lemma mc_cut_unique block items tail items' tail' :
  mc_cut block items tail -> mc_cut block items' tail' -> items = items' /\ tail = tail'.
Proof.
  intros H. revert items' tail'. induction H as [buf H1 H2|buf p items tail E Hc IH|buf k n items tail E Hc IH];
    intros items' tail' H'%mc_cut_inv.
  - destruct (mc_parse buf) as [[|p]|[k n|d]|why]; try naive_solver.
  - rewrite E in H'. destruct H' as (more & -> & [-> ->]%IH). done.
  - rewrite E in H'. destruct H' as (more & -> & [-> ->]%IH). done.
Qed.

Section McServer.
Context {S : Type} {SO : StoreOps S} {ST : StoreTotal S} {DG : Digest} {FT : FloatText}.
Variable conf : ServerConf.
Variable now_ms : Z.
Variable stats_section : StatsSection -> bool -> list (bytes * bytes).
Variable tls : bool.

Abbreviation Conn := (Server.Conn S bool).
Abbreviation run_parsed := (execute_parsed conf now_ms stats_section).
Abbreviation run_memcached := (execute_memcached conf now_ms stats_section).
Abbreviation in_turn := (ServerBatch.in_turn conf mc_render).

(** One item, with whatever writes are held before it. *)
Definition execute_item (c : Conn) (item : Item) : Conn * Closing :=
  match item with
  | Item_Command p => run_parsed c p tls
  | Item_Refused kind => (refuse_parse conf c kind, Closing_No)
  end.

Fixpoint run (step : Conn -> Item -> Conn * Closing) (c : Conn) (items : list Item) : Conn * Closing :=
  match items with
  | [] => (c, Closing_No)
  | item :: items' =>
      match step c item with (c, Closing_Yes) => (c, Closing_Yes) | (c, Closing_No) => run step c items' end
  end.

(** The loop over the bytes is the run over the items: its rounds are enough. *)
Lemma block_loop_items buf items tail :
  mc_cut buf items tail -> forall fuel c, (length buf <= fuel)%nat ->
  mc_block_loop conf now_ms stats_section fuel c buf tls = run execute_item c items.
Proof.
  assert (mc_parse [] = Ok Mc_Incomplete) as Enil by reflexivity.
  induction 1 as [buf H1 H2|buf p items tail E Hc IH|buf k n items tail E Hc IH]; intros fuel c Hl;
    pose proof (mc_parse_ok buf) as Hp.
  - destruct fuel as [|fuel]; [done|]. cbn [mc_block_loop run]. destruct buf as [|b buf]; [done|].
    destruct (mc_parse (b :: buf)) as [[|p]|[k n|d]|why]; [done|by destruct (H1 p)|by destruct (H2 k n)|done..].
  - rewrite E in Hp. destruct Hp as (Hp & _). destruct fuel as [|fuel]; [lia|]. cbn [mc_block_loop run execute_item].
    destruct buf as [|b buf']; [cbn in Hp; lia|]. rewrite E. destruct (run_parsed c p tls) as [c' []]; [done|].
    apply IH. rewrite length_drop. lia.
  - rewrite E in Hp. destruct Hp as (Hp & _). destruct fuel as [|fuel]; [lia|]. cbn [mc_block_loop run execute_item].
    destruct buf as [|b buf']; [cbn in Hp; lia|]. rewrite E. apply IH. rewrite length_drop. lia.
Qed.

(** ** Authorisation *)

Definition stranger (conn : ConnAuth) : Prop := ca_identity conn = None /\ au_required (sv_auth conf) = true.

Lemma stranger_gate conn : stranger conn -> negb (is_authenticated conn) && au_required (sv_auth conf) = true.
Proof. intros [H1 H2]. unfold is_authenticated. by rewrite H1, H2. Qed.

Lemma stranger_holds_nothing conn p : stranger conn -> held_set conf conn p = None.
Proof.
  intros [H1 H2]. unfold held_set, conn_gated, refusal. rewrite H1, H2.
  by destruct (pa_style p), (batchable (pa_command p)).
Qed.

(** A [set] whose data block is a name and a secret that verify. *)
Definition signs_in (item : Item) : Prop :=
  match item with
  | Item_Command p =>
      exists set name secret,
        pa_command p = Cmd_Set set /\ s_mode set = SetMode_Set /\ split_credential (s_value set) = Some (name, secret)
        /\ verify (sv_auth conf) name secret <> None
  | Item_Refused _ => False
  end.

Lemma flush_memcached_empty (c : Conn) : cn_batch c = [] -> flush_memcached conf c = c.
Proof. intros H. unfold flush_memcached, flush_batch. by rewrite H. Qed.

Lemma stranger_step s (c : Conn) item :
  cn_server c = s -> stranger (cn_auth c) -> cn_batch c = [] -> ~ signs_in item ->
  let '(c', _) := execute_item c item in cn_server c' = s /\ stranger (cn_auth c') /\ cn_batch c' = [].
Proof.
  intros Hs Ha Hb Hno. destruct item as [p|kind]; cbn [execute_item].
  - unfold run_parsed, McServer.execute_parsed. rewrite stranger_holds_nothing by done. rewrite flush_memcached_empty by done.
    unfold run_memcached, McServer.execute_memcached. rewrite stranger_gate by done.
    unfold execute_memcached_unauthenticated, refuse_memcached, push_mc_error, with_out, with_auth, auth_fail, succeed.
    destruct (pa_command p) as [| | | |set| | | | | | | | | | | | | | | | | | |] eqn:Ec; try (by destruct (pa_noreply p)).
    case_bool_decide as Em; cbn [negb]; [|by destruct (pa_noreply p)].
    destruct (split_credential (s_value set)) as [[name secret]|] eqn:Es; [|by destruct (pa_noreply p)].
    destruct (verify (sv_auth conf) name secret) as [i|] eqn:Ev; [|by destruct (pa_noreply p)].
    destruct Hno. exists set, name, secret. by rewrite Ev.
  - unfold refuse_parse. rewrite flush_memcached_empty by done. cbv zeta. by destruct (_ && _).
Qed.

Lemma stranger_run s items (c : Conn) :
  cn_server c = s -> stranger (cn_auth c) -> cn_batch c = [] -> Forall (fun item => ~ signs_in item) items ->
  let '(c', _) := run execute_item c items in cn_server c' = s /\ stranger (cn_auth c') /\ cn_batch c' = [].
Proof.
  intros Hs Ha Hb Hno. revert c Hs Ha Hb. induction Hno as [|item items Hi Hno IH]; intros c Hs Ha Hb; cbn [run]; [done|].
  pose proof (stranger_step s c item Hs Ha Hb Hi) as Hc. destruct (execute_item c item) as [c' []]; [done|].
  destruct Hc as (? & ? & ?). by apply IH.
Qed.

(** Where authentication is required, a connection that has not
    authenticated can do nothing over memcached either: whatever bytes it sends,
    unless one of its commands is a [set] carrying a name and a secret that
    verify, the store and the fan-out are untouched and the connection stays
    unauthenticated. *)
Theorem memcached_unauthenticated_inert s conn block out :
  au_required (sv_auth conf) = true -> ca_identity conn = None ->
  (forall items tail, mc_cut block items tail -> Forall (fun item => ~ signs_in item) items) ->
  let '(s', conn', _, _) := execute_memcached_block conf now_ms stats_section s conn block tls out in
  s' = s /\ ca_identity conn' = None.
Proof.
  intros Hq Ha Hno. destruct (mc_cut_exists block) as (items & tail & Hc).
  unfold execute_memcached_block. rewrite (block_loop_items _ _ _ Hc) by done.
  pose proof (stranger_run s items (mkConn s conn out []) eq_refl (conj Ha Hq) eq_refl (Hno _ _ Hc)) as Hr.
  destruct (run execute_item _ items) as [c' closing]. destruct Hr as (Hs & [Hi _] & Hb).
  rewrite flush_memcached_empty by done. by destruct closing.
Qed.

(** What a command does to the server when its roles are there: its own work
    and nothing else. *)
Definition ran (c : Conn) (p : Parsed) : Conn * Closing :=
  match pa_style p with
  | Style_Dump dump => (after_dump c (execute_dump conf dump (cn_server c) (cn_out c)), Closing_No)
  | Style_CacheDump dump => (after_dump c (execute_cachedump conf dump (cn_server c) (cn_out c)), Closing_No)
  | Style_Stats section =>
      if negb (bool_decide (section = Stats_General))
      then (with_out c (stat_lines (cn_out c) (stats_section section tls) ++ bs "END" ++ CRLF), Closing_No)
      else execute_generally conf now_ms c p
  | _ => execute_generally conf now_ms c p
  end.

(** ** Nothing holds the general path back *)

Lemma needed_of_set p set : pa_command p = Cmd_Set set -> pa_style p = Style_Storage -> needed_roles p = roles_for_command (Cmd_Set set).
Proof. intros Ec Es. unfold needed_roles. by rewrite Es, Ec. Qed.

(** A held write, when it is written. *)
Lemma held_set_inv conn p set :
  held_set conf conn p = Some set ->
  pa_style p = Style_Storage /\ pa_command p = Cmd_Set set /\ plain set
  /\ refusal (sv_auth conf) conn (roles_for_command (Cmd_Set set)) = None.
Proof.
  unfold held_set, conn_gated. destruct (pa_style p) eqn:Es; try done. destruct (batchable (pa_command p)) as [s|] eqn:Eb; [|done].
  apply batchable_inv in Eb as [Ec Hp]. destruct (refusal _ _ _) eqn:Er; [done|]. intros [= <-]. by rewrite <- Ec.
Qed.

Context {SB : StoreBatch S}.

Lemma held_write_in_turn (c : Conn) p set :
  held_set conf (cn_auth c) p = Some set ->
  in_turn (mkConn (cn_server c) (cn_auth c) (cn_out c) (cn_batch c ++ [(set, pa_noreply p)]))
  = (run_memcached (in_turn c) p tls).1
  /\ (run_memcached (in_turn c) p tls).2 = Closing_No.
Proof.
  intros (Es & Ec & Hp & Hr)%held_set_inv. unfold run_memcached, McServer.execute_memcached.
  rewrite (needed_of_set p set) by done. rewrite in_turn_auth, Hr.
  assert (negb (is_authenticated (cn_auth c)) && au_required (sv_auth conf) = false) as ->.
  { unfold refusal in Hr. unfold is_authenticated. destruct (ca_identity (cn_auth c)); [done|]. by destruct (au_required _). }
  rewrite Es. unfold execute_generally. rewrite Ec, Es.
  unfold in_turn, ServerBatch.in_turn. cbn [cn_server cn_auth cn_out cn_batch]. rewrite retry_loop_app.
  destruct (retry_loop conf mc_render (cn_batch c) (cn_server c) (cn_out c)) as [s1 out1]. cbn [cn_server cn_auth cn_out cn_batch].
  rewrite execute_set by done. cbn [retry_loop]. rewrite execute_set by done.
  pose proof (tot_store (sv_store s1) set) as Ht. unfold mc_render.
  destruct (st_store (sv_store s1) set) as [s2 [w|e|why]] eqn:Est; cbn [fst snd] in *; [|by destruct (pa_noreply p)|done].
  destruct (bat_stored _ _ _ _ Hp Est) as [cas Hc]. rewrite Hc. by destruct (pa_noreply p).
Qed.

(** *** Nothing but a held write holds anything *)

Lemma after_dump_batch (c : Conn) d : cn_batch (after_dump c d) = cn_batch c.
Proof. destruct d as [[s o] [|f|]]; done. Qed.

Lemma execute_memcached_batch (c : Conn) p : cn_batch (run_memcached c p tls).1 = cn_batch c.
Proof.
  unfold run_memcached, McServer.execute_memcached, execute_memcached_unauthenticated, execute_generally,
    refuse_memcached, retrieve_into, meta_get_into, push_mc_error, with_out, with_auth.
  repeat first [done | apply after_dump_batch | case_match].
Qed.

(** ** The reference: one item at a time *)

Definition item_plainly (c : Conn) (item : Item) : Conn * Closing :=
  match item with
  | Item_Command p => run_memcached c p tls
  | Item_Refused kind =>
      (push_mc_error c (if negb (is_authenticated (cn_auth c)) && au_required (sv_auth conf)
                        then Kind_Client "unauthenticated" else kind), Closing_No)
  end.

Lemma item_in_turn (c : Conn) item :
  batch_ok (cn_batch c) ->
  let '(c', closing) := execute_item c item in
  batch_ok (cn_batch c') /\ item_plainly (in_turn c) item = (in_turn c', closing)
  /\ (closing = Closing_Yes -> cn_batch c' = []).
Proof.
  intros Hb. destruct item as [p|kind]; cbn [execute_item item_plainly].
  - unfold run_parsed, McServer.execute_parsed. destruct (held_set conf (cn_auth c) p) as [set|] eqn:Eh.
    + pose proof (held_set_inv _ _ _ Eh) as (_ & _ & Hp & _). cbv zeta.
      assert (run_memcached (in_turn c) p tls
        = (in_turn (mkConn (cn_server c) (cn_auth c) (cn_out c) (cn_batch c ++ [(set, pa_noreply p)])), Closing_No)) as E.
      { destruct (held_write_in_turn c p set Eh) as [-> <-]. by destruct (run_memcached _ _ _). }
      destruct (holds (cn_batch c) (s_key set)) eqn:Ek.
      * unfold flush_memcached. rewrite flush_in_turn by done. split; [|split; [|done]].
        -- cbn [cn_batch]. rewrite in_turn_batch. split; cbn; [apply NoDup_singleton|by apply Forall_singleton].
        -- rewrite <- (in_turn_auth conf mc_render) in Eh. destruct (held_write_in_turn (in_turn c) p set Eh) as [E1 E2].
           rewrite (in_turn_empty conf mc_render (in_turn c)) in E1, E2 by apply in_turn_batch.
           rewrite E1, <- E2. by destruct (run_memcached _ _ _).
      * split; [|split; [done|done]]. cbn [cn_batch]. by apply batch_ok_snoc.
    + unfold flush_memcached. rewrite flush_in_turn by done.
      pose proof (execute_memcached_batch (in_turn c) p) as Hn. rewrite in_turn_batch in Hn.
      destruct (run_memcached (in_turn c) p tls) as [c' closing]. cbn [fst] in Hn.
      rewrite Hn, in_turn_empty by done. split; [apply batch_ok_nil|done].
  - unfold refuse_parse, flush_memcached. rewrite flush_in_turn by done. cbv zeta. set (c' := in_turn c).
    assert (cn_batch c' = []) as Hn by apply in_turn_batch.
    destruct (_ && _); (rewrite in_turn_empty by done; split; [cbn [push_mc_error with_out cn_batch]; rewrite Hn; apply batch_ok_nil|done]).
Qed.

Lemma run_in_turn items (c : Conn) :
  batch_ok (cn_batch c) ->
  let '(c', closing) := run execute_item c items in
  batch_ok (cn_batch c') /\ run item_plainly (in_turn c) items = (in_turn c', closing)
  /\ (closing = Closing_Yes -> cn_batch c' = []).
Proof.
  revert c. induction items as [|item items IH]; intros c Hb; cbn [run]; [done|].
  pose proof (item_in_turn c item Hb) as Hi. destruct (execute_item c item) as [c' []].
  - destruct Hi as (Hb' & -> & Hn). done.
  - destruct Hi as (Hb' & -> & _). by apply IH.
Qed.

Lemma mc_block_plain s conn block out items tail :
  mc_cut block items tail ->
  execute_memcached_block conf now_ms stats_section s conn block tls out
  = (let '(c, closing) := run item_plainly (mkConn s conn out []) items in (cn_server c, cn_auth c, cn_out c, closing)).
Proof.
  intros Hc. unfold execute_memcached_block. rewrite (block_loop_items _ _ _ Hc) by done. set (c0 := mkConn s conn out []).
  pose proof (run_in_turn items c0 batch_ok_nil) as Hr.
  destruct (run execute_item c0 items) as [c' closing] eqn:Er. destruct Hr as (Hb & Hr & Hn).
  rewrite (in_turn_empty conf mc_render c0) in Hr by done. rewrite Hr. destruct closing; cbv zeta.
  - by rewrite in_turn_empty by auto.
  - unfold flush_memcached. by rewrite flush_in_turn.
Qed.

(** C22 Holding memcached writes back is invisible.  Any block of bytes is cut
    into commands and refused lines in one way, and over a store that keeps its
    batch promises, holding plain [set]s back, writing each run of them in one
    transaction and retrying a refused run one by one leaves the server, the
    connection and the write buffer as executing the items one at a time, in
    order, up to the [quit] that ends it. *)
Theorem memcached_block_sequential s conn block out :
  exists items tail,
    mc_cut block items tail
    /\ (forall items' tail', mc_cut block items' tail' -> items' = items /\ tail' = tail)
    /\ execute_memcached_block conf now_ms stats_section s conn block tls out
       = (let '(c, closing) := run item_plainly (mkConn s conn out []) items in
          (cn_server c, cn_auth c, cn_out c, closing)).
Proof.
  destruct (mc_cut_exists block) as (items & tail & Hc). exists items, tail. split; [done|].
  split; [by intros items' tail' H; destruct (mc_cut_unique _ _ _ _ _ Hc H) as [-> ->]|]. by eapply mc_block_plain.
Qed.

(** ** The gate, and the reads that stream *)

Lemma retrieval_foldl out with_cas keys (vs : list (option Value)) :
  length vs = length keys ->
  foldl (fun out '(index, value) =>
      match value with
      | Some value => encode_value_line out with_cas (default [] (keys !! index)) value
      | None => out
      end) out (imap (fun i v => (i, v)) vs)
  = foldl (fun out '(key, value) =>
      match value with Some value => encode_value_line out with_cas key value | None => out end) out (zip keys vs).
Proof.
  enough (forall pre, length vs = length keys ->
    foldl (fun out '(index, value) =>
      match value with
      | Some value => encode_value_line out with_cas (default [] ((pre ++ keys) !! index)) value
      | None => out
      end) out (imap (fun i v => ((length pre + i)%nat, v)) vs)
    = foldl (fun out '(key, value) =>
        match value with Some value => encode_value_line out with_cas key value | None => out end) out (zip keys vs)) as H
    by apply (H []).
  revert out keys. induction vs as [|v vs IH]; intros out [|k keys] pre Hl; try done. cbn [imap zip zip_with foldl].
  injection Hl as Hl. specialize (IH (match v with Some value => encode_value_line out with_cas k value | None => out end) keys (pre ++ [k]) Hl).
  rewrite <- IH, Nat.add_0_r, list_lookup_middle by done. cbn [default from_option id].
  rewrite <- app_assoc. f_equal. apply imap_ext. intros i x _. cbn. f_equal. rewrite length_app. cbn. lia.
Qed.

(** The batch read of a retrieval succeeds. *)
Definition readable (c : Conn) (p : Parsed) : Prop :=
  match pa_command p with
  | Cmd_GetMany keys => exists vs, st_get_many (sv_store (cn_server c)) (KeyList_as_slice keys) = Ok vs
  | _ => True
  end.

Lemma retrieve_generally (c : Conn) p with_cas keys :
  pa_style p = Style_Retrieval with_cas -> pa_command p = Cmd_GetMany keys -> pa_noreply p = false -> readable c p ->
  (retrieve_into c with_cas (KeyList_as_slice keys), Closing_No) = execute_generally conf now_ms c p.
Proof.
  intros Es Ec En Hr. unfold readable in Hr. rewrite Ec in Hr. destruct Hr as [vs Hr].
  unfold retrieve_into, execute_generally. rewrite Es, Ec, En. cbn [execute].
  unfold mbind, Exec_bind, reading, mret, Exec_ret. pose proof (bat_get_many_with (sv_store (cn_server c)) (KeyList_as_slice keys)) as Hb.
  rewrite Hr in Hb |- *. destruct Hb as [-> Hl]. cbn [map_err mc_encode encode_retrieval].
  rewrite retrieval_foldl by done. by destruct c.
Qed.

Lemma meta_get_generally (c : Conn) p flags key :
  pa_style p = Style_Meta (Meta_Get flags) -> pa_command p = Cmd_Get key -> pa_noreply p = false ->
  (meta_get_into now_ms c flags (pa_command p) key, Closing_No) = execute_generally conf now_ms c p.
Proof.
  intros Es Ec En. unfold meta_get_into, execute_generally. rewrite Es, Ec, En. cbn [execute].
  unfold mbind, Exec_bind, reading, mret, Exec_ret. rewrite bat_get_with.
  pose proof (tot_get (sv_store (cn_server c)) key) as Ht. destruct c as [s a out b]. cbn [cn_server] in *.
  by destruct (st_get (sv_store s) key) as [[v|]|e|why].
Qed.

Lemma execute_memcached_runs (c : Conn) p :
  refusal (sv_auth conf) (cn_auth c) (needed_roles p) = None -> readable c p -> run_memcached c p tls = ran c p.
Proof.
  intros Hr Hread. unfold run_memcached, McServer.execute_memcached, ran. rewrite Hr.
  assert (negb (is_authenticated (cn_auth c)) && au_required (sv_auth conf) = false) as ->.
  { unfold refusal in Hr. unfold is_authenticated. destruct (ca_identity (cn_auth c)); [done|]. by destruct (au_required _). }
  destruct (pa_style p) as [with_cas| | | | | | | | |[flags| | | | |]| |] eqn:Es; try done.
  - destruct (pa_command p) eqn:Ec; try done. destruct (pa_noreply p) eqn:En; [done|]. by apply retrieve_generally.
  - destruct (pa_command p) eqn:Ec; try done. destruct (pa_noreply p) eqn:En; [done|]. rewrite <- Ec. by apply meta_get_generally.
Qed.

(** The roles of a memcached command are checked before it runs.  The
    writes held before it are written first.  A command whose roles the
    connection lacks does nothing more to the server and is answered with one
    error line, or with nothing when it asked for no reply; on a connection that
    must authenticate first, only signing in or leaving is looked at; every
    other command either joins the held writes or does its own work - for a
    retrieval and for [mg] the streamed answer is the one the general path would
    give - and a dump needs the role to list. *)
Theorem memcached_gate_exact c p :
  let '(c', closing) := run_parsed c p tls in
  let flushed := flush_memcached conf c in
  match refusal (sv_auth conf) (cn_auth c) (needed_roles p) with
  | Some (Refused_Missing _) =>
      cn_server c' = cn_server flushed /\ closing = Closing_No
      /\ cn_out c' = cn_out flushed ++ (if pa_noreply p then [] else bs "CLIENT_ERROR unauthorized" ++ CRLF)
  | Some Refused_Unauthenticated =>
      cn_server c' = cn_server flushed /\ (c', closing) = execute_memcached_unauthenticated conf now_ms flushed p
  | None =>
      (exists set before,
         pa_command p = Cmd_Set set /\ plain set /\ (before = c \/ before = flushed)
         /\ holds (cn_batch before) (s_key set) = false
         /\ c' = mkConn (cn_server before) (cn_auth c) (cn_out before) (cn_batch before ++ [(set, pa_noreply p)])
         /\ closing = Closing_No)
      \/ (readable flushed p -> (c', closing) = ran flushed p)
  end.
Proof.
  destruct (run_parsed c p tls) as [c' closing] eqn:E. cbv zeta. set (flushed := flush_memcached conf c).
  destruct (flush_verdicts conf mc_render c) as (_ & _ & _ & _ & Hbatch & Hauth). fold (flush_memcached conf c) in Hbatch, Hauth.
  fold flushed in Hbatch, Hauth. unfold run_parsed, McServer.execute_parsed in E. fold flushed in E.
  destruct (held_set conf (cn_auth c) p) as [set|] eqn:Eh.
  - apply held_set_inv in Eh as (Es & Ec & Hp & Hr). rewrite (needed_of_set p set), Hr by done. left.
    destruct (holds (cn_batch c) (s_key set)) eqn:Ek; injection E as <- <-.
    + exists set, flushed. rewrite Hbatch, Hauth. conjs; first [done|by right].
    + exists set, c. conjs; first [done|by left].
  - destruct (refusal (sv_auth conf) (cn_auth c) (needed_roles p)) as [[|missing]|] eqn:Er.
    + assert (stranger (cn_auth c)) as Hst.
      { unfold refusal in Er. split; (destruct (ca_identity (cn_auth c)) as [i|]; [by destruct (allows _ _)|by destruct (au_required (sv_auth conf))]). }
      unfold run_memcached, McServer.execute_memcached in E. rewrite Hauth, stranger_gate in E by done. split; [|done].
      pose proof (f_equal (fun x => cn_server x.1) E) as Hs. cbn [fst] in Hs. rewrite <- Hs.
      unfold execute_memcached_unauthenticated, refuse_memcached, push_mc_error, with_out, with_auth.
      repeat first [done | case_match].
    + unfold run_memcached, McServer.execute_memcached in E. rewrite Hauth, Er in E.
      assert (is_authenticated (cn_auth c) = true) as Ha.
      { unfold refusal in Er. unfold is_authenticated. destruct (ca_identity (cn_auth c)); [done|]. by destruct (au_required (sv_auth conf)). }
      rewrite Ha in E. cbn [negb andb] in E. injection E as <- <-. unfold refuse_memcached.
      destruct (pa_noreply p); [by rewrite app_nil_r|done].
    + right. intros Hread. rewrite <- E. apply execute_memcached_runs; [by rewrite Hauth|done].
Qed.

End McServer.

(** ** Dumps *)

Section Dump.
Context {S : Type} {SO : StoreOps S} {ST : StoreTotal S} {SL : StoreListing S} {DG : Digest} {FT : FloatText}.
Variable conf : ServerConf.

(** What one round of a dump reads. *)
Lemma list_keys_read request (s : Server S) :
  pr_listing_enabled (sv_protocol conf) = true ->
  exists r, execute conf (Cmd_ListKeys request) s = (s, r)
  /\ match st_list_keys (sv_store s) request (pr_listing_max_scan (sv_protocol conf)) with
     | Ok page => r = Ok (Reply_Listing page)
     | Err e => r = Err (to_failed e)
     | Panic _ => False
     end.
Proof.
  intros He. cbn [execute]. unfold mbind, Exec_bind, listing_gate, reading, mret, Exec_ret. rewrite He.
  pose proof (tot_list_keys (sv_store s) request (pr_listing_max_scan (sv_protocol conf))) as Ht.
  destruct (st_list_keys _ _ _); cbn [map_err]; [by eexists|by eexists|done].
Qed.

(** A dump ends with its terminator, with the line that says the budget is
    spent, or because a page could not be read. *)
Definition dump_ended (style : DumpStyle) (out out' : bytes) (r : Result Failed unit) : Prop :=
  exists entries last,
    out' = foldl (fun out entry => dump_line out style entry) out entries ++ last
    /\ match r with
       | Ok _ => last = terminator style
                \/ last = bs "SERVER_ERROR dump exceeded the scan budget; use SCAN or LIST_KEYS to page the keyspace" ++ CRLF
       | Err _ => last = []
       | Panic _ => False
       end.

Lemma dump_loop_ends fuel dump scanned cursor (s : Server S) out :
  pr_listing_enabled (sv_protocol conf) = true -> pr_listing_max_scan (sv_protocol conf) < 2 ^ 63 - 1 ->
  0 <= scanned <= pr_listing_max_scan (sv_protocol conf) ->
  pr_listing_max_scan (sv_protocol conf) - scanned < Z.of_nat fuel ->
  let '(s', out', r) := dump_loop conf fuel dump scanned cursor s out in s' = s /\ dump_ended (du_style dump) out out' r.
Proof.
  intros He Hm. revert scanned cursor out. induction fuel as [|fuel IH]; intros scanned cursor out Hs Hf; [lia|].
  cbn [dump_loop]. set (request := mkListRequest MAX_LIST_LIMIT (default [] cursor) []).
  destruct (list_keys_read request s He) as (r & -> & Hr).
  destruct (st_list_keys (sv_store s) request _) as [page|e|why] eqn:Ep; [| |done]; subst r; cbn [mbind Result_bind page_of].
  - pose proof (lst_bounded _ _ _ _ Ep ltac:(lia)) as Hb. cbv zeta.
    destruct (l_cursor page) as [next|] eqn:Ec.
    + destruct (Z.ltb_spec (wrapping 64 (scanned + l_scanned page)) (pr_listing_max_scan (sv_protocol conf))) as [Hlt|Hge].
      * rewrite wrapping_small in Hlt |- * by (unfold fits; change (2 ^ 64) with (2 * 2 ^ 63); lia).
        assert (0 < l_scanned page) by (eapply lst_progress; [exact Ep|by rewrite Ec|lia]).
        specialize (IH (scanned + l_scanned page) (Some next) (foldl (fun out entry => dump_line out (du_style dump) entry) out (l_entries page)) ltac:(lia) ltac:(lia)).
        destruct (dump_loop _ _ _ _ _ _ _) as [[s' out'] r']. destruct IH as [-> (entries & last & -> & Hl)].
        split; [done|]. exists (l_entries page ++ entries), last. by rewrite foldl_app.
      * split; [done|]. exists (l_entries page), (bs "SERVER_ERROR dump exceeded the scan budget; use SCAN or LIST_KEYS to page the keyspace" ++ CRLF).
        split; [done|by right].
    + split; [done|]. exists (l_entries page), (terminator (du_style dump)). split; [done|by left].
  - split; [done|]. exists [], []. by rewrite app_nil_r.
Qed.

(** A dump of the keys ends.  Whatever the store holds, paging through it
    stops within the scan budget: the server is as it was, and what is written
    is the acknowledgement, a line for each key of each page in order, and then
    the terminator, or the line that says the budget is spent, or, when a page
    could not be read, nothing more before the error line; where listing is off
    nothing is read at all. *)
Theorem memcached_dump_ends dump (s : Server S) out :
  0 <= pr_listing_max_scan (sv_protocol conf) < 2 ^ 63 - 1 ->
  let '(s', out', r) := execute_dump conf dump s out in
  s' = s
  /\ if pr_listing_enabled (sv_protocol conf)
     then dump_ended (du_style dump) (out ++ DUMP_ACK) out' r
     else out' = out /\ r = Err (Failed_status Status_Unauthorized).
Proof.
  intros Hm. unfold execute_dump, listing_gate. destruct (pr_listing_enabled (sv_protocol conf)) eqn:He; [|done].
  unfold mret, Exec_ret. cbv zeta. destruct (negb (du_selected dump)).
  - split; [done|]. exists [], (terminator (du_style dump)). split; [done|by left].
  - apply dump_loop_ends; [done|lia|lia|]. unfold dump_fuel. lia.
Qed.

End Dump.
