(* ===== verification/Resp.v ===== *)
(** [vash-proto/src/resp/mod.rs]: the framing of the Redis dialect - a request
    is an array of bulk strings in both versions of the protocol - and what its
    parser answers.

    An index into the buffer is a [nat]. *)

From S2P Require Import Prelude Bytes Text Core Tags Command.

#[local] Delimit Scope string_scope with str.

(** ** Data *)

Inductive Version : Type := Resp2 | Resp3.

#[global] Instance Version_eq_dec : EqDecision Version.
Proof. solve_decision. Defined.

Definition MAX_BULK_LEN : Z := ABSOLUTE_MAX_VALUE_LEN.

Definition MAX_ARGS : Z := 2 * MAX_BATCH_ITEMS + 8.

Definition MAX_HEADER_LEN : Z := 32.

(** A framing error: the stream cannot be resynchronised. *)
Record FramingError := mkFramingError { fe_detail : String.string }.

Inductive ErrorReply : Type :=
| Er_UnknownCommand (name : bytes)
| Er_WrongArity (name : String.string)
| Er_InvalidExpire (name : String.string)
| Er_UnknownSubcommand (container : String.string) (sub : bytes)
| Er_Err (message : String.string)
| Er_Coded (code message : String.string).

Definition NOT_AN_INTEGER : ErrorReply := Er_Err "value is not an integer or out of range"%str.
Definition NOT_A_FLOAT : ErrorReply := Er_Err "value is not a valid float"%str.
Definition SYNTAX : ErrorReply := Er_Err "syntax error"%str.
Definition OVERFLOW : ErrorReply := Er_Err "increment or decrement would overflow"%str.

(** [ProtocolError]. *)
Inductive RespError : Type :=
| Resp_Recoverable (reply : ErrorReply) (consumed : nat)
| Resp_Fatal (detail : String.string).

(** [impl From<Fatal> for ProtocolError]. *)
Definition RespError_from (e : FramingError) : RespError := Resp_Fatal (fe_detail e).

(** What [peek] found. *)
Inductive Framed (T : Type) : Type :=
| Framed_Incomplete
| Framed_Command (classified : T) (consumed : nat).

Arguments Framed_Incomplete {T}.
Arguments Framed_Command {T} classified consumed.

(** ** The argument vector *)

Definition INLINE_ARGS : nat := 8.

(** [Inline]'s array always holds [INLINE_ARGS] slices, of which the first [len]
    are arguments. *)
Inductive Args : Type :=
| Args_Inline (buf : list bytes) (len : nat)
| Args_Heap (heap : list bytes).

Definition args_with_capacity (count : nat) : Args :=
  if (count <=? INLINE_ARGS)%nat then Args_Inline (repeat [] INLINE_ARGS) 0 else Args_Heap [].

Definition args_push (args : Args) (arg : bytes) : Args :=
  match args with
  | Args_Inline buf len =>
      if (len <? INLINE_ARGS)%nat then Args_Inline (<[len := arg]> buf) (len + 1)
      else Args_Heap (take len buf ++ [arg])
  | Args_Heap heap => Args_Heap (heap ++ [arg])
  end.

(** [Deref]. *)
Definition args_slice (args : Args) : list bytes :=
  match args with
  | Args_Inline buf len => take len buf
  | Args_Heap heap => heap
  end.

(** ** Framing *)

Abbreviation Frame A := (Result FramingError A).

Definition read_header (buf : bytes) (pos : nat) (prefix : byte) (detail : String.string)
    : Frame (option (Z * nat)) :=
  let fail := mkFramingError detail in
  match buf !! pos with
  | None => Ok None
  | Some first =>
      if negb (bool_decide (first = prefix)) then Err fail
      else
        match find_byte LF (drop pos buf) with
        | None => if MAX_HEADER_LEN <? len buf - Z.of_nat pos then Err fail else Ok None
        | Some offset =>
            let newline := (pos + offset)%nat in
            let end_ :=
              if (pos <? newline)%nat && bool_decide (buf !! (newline - 1)%nat = Some CR)
              then (newline - 1)%nat else newline in
            text ← ok_or (utf8_decode (slice_of buf (pos + 1) end_)) fail;
            value ← ok_or (parse_i64 text) fail;
            Ok (Some (value, (newline + 1)%nat))
        end
  end.

Definition ARRAY_PREFIX : byte := "*"%byte.
Definition BULK_PREFIX : byte := "$"%byte.

Definition MULTIBULK : String.string := "invalid multibulk length"%str.
Definition BULK : String.string := "invalid bulk length"%str.

Definition read_bulk (buf : bytes) (pos : nat) : Frame (option (bytes * nat)) :=
  header ← read_header buf pos BULK_PREFIX BULK;
  match header with
  | None => Ok None
  | Some (len, after_header) =>
      if (len <? 0) || (MAX_BULK_LEN <? len) then Err (mkFramingError BULK)
      else
        let end_ := (after_header + Z.to_nat len)%nat in
        if (length buf <? end_ + 2)%nat then Ok None
        else if negb (bool_decide (slice_of buf end_ (end_ + 2) = CRLF))
        then Err (mkFramingError "expected '\r\n'"%str)
        else Ok (Some (slice_of buf after_header end_, (end_ + 2)%nat))
  end.

(** The inner loop of [frame]: [count] more arguments from [cursor]. *)
Fixpoint read_args (buf : bytes) (count : nat) (args : Args) (cursor : nat) : Frame (option (Args * nat)) :=
  match count with
  | O => Ok (Some (args, cursor))
  | S count' =>
      bulk ← read_bulk buf cursor;
      match bulk with
      | None => Ok None
      | Some (arg, next) => read_args buf count' (args_push args arg) next
      end
  end.

(** The outer loop: an empty array is skipped, and takes at least a byte, so
    there are no more rounds than the buffer has bytes. *)
Fixpoint frame_loop {R} (fuel : nat) (buf : bytes) (pos : nat) (with_ : list bytes -> nat -> R)
    : Frame (option R) :=
  match fuel with
  | O => Panic "out of fuel"%str
  | S fuel' =>
      header ← read_header buf pos ARRAY_PREFIX MULTIBULK;
      match header with
      | None => Ok None
      | Some (count, after_header) =>
          if (count <? 0) || (MAX_ARGS <? count) then Err (mkFramingError MULTIBULK)
          else if count =? 0 then frame_loop fuel' buf after_header with_
          else
            read ← read_args buf (Z.to_nat count) (args_with_capacity (Z.to_nat count)) after_header;
            match read with
            | None => Ok None
            | Some (args, cursor) => Ok (Some (with_ (args_slice args) cursor))
            end
      end
  end.

Definition frame {R} (buf : bytes) (with_ : list bytes -> nat -> R) : Frame (option R) :=
  frame_loop (S (length buf)) buf 0 with_.

Definition peek {T} (buf : bytes) (classify : list bytes -> T) : Frame (Framed T) :=
  framed ← frame buf (fun args consumed => Framed_Command (classify args) consumed);
  Ok (default Framed_Incomplete framed).
