(* ===== verification/RespCommand.v ===== *)
(** [vash-proto/src/resp/command.rs]: the commands of the Redis dialect and the
    parser that produces them from framed arguments; and the sections of [INFO]
    ([encode.rs]), which a command carries. *)

From S2P Require Import Prelude Bytes Text Core Record Glob Tags Command Arith Resp.

#[local] Delimit Scope string_scope with str.

(** ** encode.rs: the sections of INFO *)

Inductive Section_ : Type :=
| Sec_Server | Sec_Clients | Sec_Memory | Sec_Persistence | Sec_Stats
| Sec_Replication | Sec_Cluster | Sec_Keyspace | Sec_Vash.

#[global] Instance Section__eq_dec : EqDecision Section_.
Proof. solve_decision. Defined.

Definition ALL_SECTIONS : list Section_ :=
  [Sec_Server; Sec_Clients; Sec_Memory; Sec_Persistence; Sec_Stats;
   Sec_Replication; Sec_Cluster; Sec_Keyspace; Sec_Vash].

Definition title (s : Section_) : bytes :=
  match s with
  | Sec_Server => bs "Server"
  | Sec_Clients => bs "Clients"
  | Sec_Memory => bs "Memory"
  | Sec_Persistence => bs "Persistence"
  | Sec_Stats => bs "Stats"
  | Sec_Replication => bs "Replication"
  | Sec_Cluster => bs "Cluster"
  | Sec_Keyspace => bs "Keyspace"
  | Sec_Vash => bs "Vash"
  end.

(** [section as u16]. *)
Definition section_index (s : Section_) : Z :=
  match s with
  | Sec_Server => 0 | Sec_Clients => 1 | Sec_Memory => 2 | Sec_Persistence => 3 | Sec_Stats => 4
  | Sec_Replication => 5 | Sec_Cluster => 6 | Sec_Keyspace => 7 | Sec_Vash => 8
  end.

(** [u8::to_ascii_uppercase]. *)
Definition ascii_upper (b : byte) : byte :=
  if in_range 97 122 b then byte_of (byte_val b - 32) else b.

(** [eq_ignore_ascii_case], also [command::eq]. *)
Definition eq_ignore_case (token name : bytes) : bool :=
  bool_decide (ascii_upper <$> token = ascii_upper <$> name).

(** [Sections]: a [u16] bit mask. *)
Definition Sections := Z.

Definition SECTIONS_NONE : Sections := 0.
Definition SECTIONS_DEFAULT : Sections := 255.
Definition SECTIONS_ALL : Sections := 511.

Definition section_named (name : bytes) : option Section_ :=
  head (filter (fun s => eq_ignore_case name (title s) = true) ALL_SECTIONS).

Definition sections_with (sections : Sections) (s : Section_) : Sections :=
  Z.lor sections (Z.shiftl 1 (section_index s)).

Definition sections_contain (sections : Sections) (s : Section_) : bool :=
  negb (Z.land sections (Z.shiftl 1 (section_index s)) =? 0).

(** ** Data *)

Definition MAX_VERB_LEN : Z := 16.

Definition upper_verb (raw : bytes) : bytes :=
  if MAX_VERB_LEN <? len raw then [] else ascii_upper <$> raw.

(** A name and a secret as presented. *)
Record WireCredential := mkWireCredential { wc_name : option bytes; wc_secret : bytes }.

Inductive RespNumber : Type :=
| RNum_Int (v : Z)
| RNum_Float (v : f64).

Inductive Condition : Type := Cond_Always | Cond_IfAbsent | Cond_IfPresent.

#[global] Instance Condition_eq_dec : EqDecision Condition.
Proof. solve_decision. Defined.

Inductive ExpireCondition : Type :=
| Expire_Always | Expire_IfPersistent | Expire_IfVolatile | Expire_IfLater | Expire_IfEarlier.

#[global] Instance ExpireCondition_eq_dec : EqDecision ExpireCondition.
Proof. solve_decision. Defined.

(** In milliseconds. *)
Inductive Expiry : Type :=
| Expiry_Unset
| Expiry_After (millis : Z)
| Expiry_At (millis : Z)
| Expiry_Keep
| Expiry_Persist.

#[global] Instance Expiry_eq_dec : EqDecision Expiry.
Proof. solve_decision. Defined.

Record RespSet := mkRespSet {
  rs_key : bytes;
  rs_value : bytes;
  rs_condition : Condition;
  rs_expiry : Expiry;
  rs_return_previous : bool;
  rs_tags : list bytes;
  rs_tagged : bool
}.

Record IncrEx := mkIncrEx {
  ix_key : bytes;
  ix_delta : RespNumber;
  ix_lower : option RespNumber;
  ix_upper : option RespNumber;
  ix_saturate : bool;
  ix_expiry : option Expiry;
  ix_only_if_persistent : bool
}.

Record Scan := mkScan { sc_token : Z; sc_pattern : bytes; sc_count : Z; sc_only_strings : bool }.

Inductive SlowlogSub : Type :=
| Slowlog_Get (count : option Z)
| Slowlog_Len
| Slowlog_Reset
| Slowlog_Help.

Inductive RespCommand : Type :=
| RC_Hello (version : option Z) (auth : option WireCredential)
| RC_Ping (message : option bytes)
| RC_Quit
| RC_Auth (credential : WireCredential)
| RC_Get (key : bytes)
| RC_Set (set : RespSet)
| RC_Delete (keys : list bytes)
| RC_MGet (keys : list bytes)
| RC_MSet (pairs : list (bytes * bytes))
| RC_MSetEx (pairs : list (bytes * bytes)) (condition : Condition) (expiry : Expiry)
    (tags : list bytes) (tagged : bool)
| RC_Exists (keys : list bytes)
| RC_Type (key : bytes)
| RC_Append (key value : bytes)
| RC_DelByTag (tags : list bytes)
| RC_Expire (key : bytes) (expiry : Expiry) (condition : ExpireCondition)
| RC_Persist (key : bytes)
| RC_Ttl (key : bytes)
| RC_Incr (key : bytes) (delta : RespNumber)
| RC_IncrEx (op : IncrEx)
| RC_Scan (scan : Scan)
| RC_Info (sections : Sections)
| RC_Slowlog (sub : SlowlogSub).

Record RespParsed := mkRespParsed { rp_command : RespCommand; rp_consumed : nat }.

Inductive RespOutcome : Type := Resp_Incomplete | Resp_Command (parsed : RespParsed).

Abbreviation RParse A := (Result RespError A).

(** ** Shared rules *)

Section Parse.
Context {FT : FloatText}.
Variable consumed : nat.

Definition fail {A} (reply : ErrorReply) : RParse A := Err (Resp_Recoverable reply consumed).

(** [.ok_or_else(|| fail(reply))]. *)
Definition or_fail {A} (o : option A) (reply : ErrorReply) : RParse A :=
  ok_or o (Resp_Recoverable reply consumed).

Definition exactly (args : list bytes) (count : nat) (name : String.string) : RParse (list bytes) :=
  if negb (length args =? count)%nat then fail (Er_WrongArity name) else Ok args.

Definition at_least (args : list bytes) (count : nat) (name : String.string) : RParse (list bytes) :=
  if (length args <? count)%nat then fail (Er_WrongArity name) else Ok args.

(** [args[i]]. *)
Definition arg (args : list bytes) (i : nat) : RParse bytes :=
  expect (args !! i) "index out of bounds"%str.

(** [pairs]: chunks of two, a remainder dropped. *)
Fixpoint pairs_of (flat : list bytes) : list (bytes * bytes) :=
  match flat with
  | key :: value :: rest => (key, value) :: pairs_of rest
  | _ => []
  end.

Definition as_float (number : RespNumber) : f64 :=
  match number with RNum_Int value => f64_of_int value | RNum_Float value => value end.

(** ** The option cursor

    A cursor is the list of the tokens left to it; [Options::next] takes the
    head, and a step takes what arguments its option has. *)

Definition option_argument (tokens : list bytes) : RParse (bytes * list bytes) :=
  match tokens with
  | token :: tokens' => Ok (token, tokens')
  | [] => fail SYNTAX
  end.

Definition set_condition (slot value : Condition) : RParse Condition :=
  if negb (bool_decide (slot = Cond_Always)) then fail SYNTAX else Ok value.

Definition set_expiry (slot value : Expiry) : RParse Expiry :=
  if negb (bool_decide (slot = Expiry_Unset)) then fail SYNTAX else Ok value.

(** The unit in milliseconds and whether the time is a stamp. *)
Definition expiry_unit (token : bytes) : option (Z * bool) :=
  if eq_ignore_case token (bs "EX") then Some (1000, false)
  else if eq_ignore_case token (bs "PX") then Some (1, false)
  else if eq_ignore_case token (bs "EXAT") then Some (1000, true)
  else if eq_ignore_case token (bs "PXAT") then Some (1, true)
  else None.

(** [Options::expiry]. *)
Definition option_expiry (name : String.string) (keep_ttl : bool) (token : bytes) (tokens : list bytes)
    : RParse (option Expiry * list bytes) :=
  if keep_ttl && eq_ignore_case token (bs "KEEPTTL") then Ok (Some Expiry_Keep, tokens)
  else
    match expiry_unit token with
    | None => Ok (None, tokens)
    | Some (unit_ms, absolute) =>
        '(raw, tokens) ← option_argument tokens;
        value ← or_fail (parse_int raw) NOT_AN_INTEGER;
        millis ← or_fail (millis ← checked_i64 (value * unit_ms); if 0 <? millis then Some millis else None)
                   (Er_InvalidExpire name);
        Ok (Some (if absolute : bool then Expiry_At millis else Expiry_After millis), tokens)
    end.

(** [while let Some(token) = cursor.next()]: a round takes a token at least. *)
Fixpoint options_loop {S} (fuel : nat) (step : S -> bytes -> list bytes -> RParse (S * list bytes))
    (s : S) (tokens : list bytes) : RParse S :=
  match tokens with
  | [] => Ok s
  | token :: tokens =>
      match fuel with
      | O => Panic "out of fuel"%str
      | Datatypes.S fuel' =>
          '(s, tokens) ← step s token tokens;
          options_loop fuel' step s tokens
      end
  end.

Definition options {S} (step : S -> bytes -> list bytes -> RParse (S * list bytes)) (s : S) (tokens : list bytes)
    : RParse S :=
  options_loop (length tokens) step s tokens.

(** ** SLOWLOG and SCAN *)

Definition parse_slowlog (args : list bytes) : RParse RespCommand :=
  let only := fun (name : String.string) =>
    if (length args =? 2)%nat then Ok () else fail (Er_WrongArity name) in
  match args !! 1%nat with
  | None => fail (Er_WrongArity "slowlog"%str)
  | Some sub =>
      parsed ←
        (if eq_ignore_case sub (bs "GET") then
           match length args with
           | 2%nat => Ok (Slowlog_Get None)
           | 3%nat =>
               token ← arg args 2;
               count ← or_fail (n ← parse_int token; if -1 <=? n then Some n else None)
                         (Er_Err "count should be greater than or equal to -1"%str);
               Ok (Slowlog_Get (Some count))
           | _ => fail (Er_WrongArity "slowlog|get"%str)
           end
         else if eq_ignore_case sub (bs "LEN") then _ ← only "slowlog|len"%str; Ok Slowlog_Len
         else if eq_ignore_case sub (bs "RESET") then _ ← only "slowlog|reset"%str; Ok Slowlog_Reset
         else if eq_ignore_case sub (bs "HELP") then _ ← only "slowlog|help"%str; Ok Slowlog_Help
         else fail (Er_UnknownSubcommand "SLOWLOG"%str sub));
      Ok (RC_Slowlog parsed)
  end.

Fixpoint has_unescaped_class (pattern : bytes) : bool :=
  match pattern with
  | [] => false
  | b :: rest =>
      if bool_decide (b = ESCAPE) then match rest with _ :: rest' => has_unescaped_class rest' | [] => false end
      else if bool_decide (b = "["%byte) then true
      else has_unescaped_class rest
  end.

Definition scan_step (scan : Scan) (token : bytes) (tokens : list bytes) : RParse (Scan * list bytes) :=
  if eq_ignore_case token (bs "MATCH") then
    '(pattern, tokens) ← option_argument tokens;
    if has_unescaped_class pattern then fail (Er_Err "character classes are not supported in MATCH"%str)
    else
      _ ← map_err (fun _ => Resp_Recoverable (Er_Err "invalid MATCH pattern"%str) consumed) (validate pattern);
      Ok (mkScan (sc_token scan) pattern (sc_count scan) (sc_only_strings scan), tokens)
  else if eq_ignore_case token (bs "COUNT") then
    '(raw, tokens) ← option_argument tokens;
    count ← or_fail (parse_int raw) NOT_AN_INTEGER;
    if count <=? 0 then fail SYNTAX
    else Ok (mkScan (sc_token scan) (sc_pattern scan) (Z.min count MAX_LIST_LIMIT) (sc_only_strings scan), tokens)
  else if eq_ignore_case token (bs "TYPE") then
    '(name, tokens) ← option_argument tokens;
    Ok (mkScan (sc_token scan) (sc_pattern scan) (sc_count scan) (eq_ignore_case name (bs "string")), tokens)
  else fail SYNTAX.

Definition parse_scan (args : list bytes) : RParse RespCommand :=
  args ← at_least args 2 "scan"%str;
  token ← arg args 1;
  token ← or_fail (text ← utf8_decode token; parse_u64 text) (Er_Err "invalid cursor"%str);
  scan ← options scan_step (mkScan token [] 10 true) (drop 2 args);
  Ok (RC_Scan scan).

(** ** Writes with options *)

Inductive Tagged : Type := Tagged_No | Tagged_Yes.

Definition tagged_yes (tagged : Tagged) : bool := match tagged with Tagged_Yes => true | Tagged_No => false end.

Definition pick {A} (tagged : Tagged) (plain with_tags : A) : A :=
  if tagged_yes tagged then with_tags else plain.

Definition check_tag (tag : bytes) : RParse bytes :=
  if bool_decide (tag = []) || (MAX_TAG_LEN <? len tag) then fail (Er_Err "invalid tag"%str) else Ok tag.

(** [args[at]] is read without a check that the list is that long. *)
Definition tag_list (args : list bytes) (at_ : nat) (tagged : Tagged) (name : String.string)
    : RParse (list bytes * nat) :=
  if negb (tagged_yes tagged) then Ok ([], at_)
  else
    token ← arg args at_;
    count ← or_fail (parse_int token) NOT_AN_INTEGER;
    if count <? 0 then fail (Er_Err "numtags should be greater than or equal to 0"%str)
    else if ABSOLUTE_MAX_TAGS <? count then fail (Er_Err "too many tags"%str)
    else
      let first := (at_ + 1)%nat in
      let end_ := (first + Z.to_nat count)%nat in
      if (length args <? end_)%nat then fail (Er_WrongArity name)
      else
        tags ← collect check_tag (take (end_ - first) (drop first args));
        Ok (tags, end_).

(** A write's condition, expiry and [GET] so far. *)
Record WriteOptions := mkWriteOptions { wo_condition : Condition; wo_expiry : Expiry; wo_previous : bool }.

Definition WriteOptions_default : WriteOptions := mkWriteOptions Cond_Always Expiry_Unset false.

Definition VALUE_CONDITIONS : list bytes := [bs "IFEQ"; bs "IFNE"; bs "IFDEQ"; bs "IFDNE"].

(** One round of [parse_set]'s loop when [is_set], of [parse_msetex]'s
    otherwise: the two differ in [GET] and in the options that [SET] names when
    it refuses them. *)
Definition write_step (is_set : bool) (name : String.string) (o : WriteOptions) (token : bytes) (tokens : list bytes)
    : RParse (WriteOptions * list bytes) :=
  if eq_ignore_case token (bs "NX") then
    c ← set_condition (wo_condition o) Cond_IfAbsent;
    Ok (mkWriteOptions c (wo_expiry o) (wo_previous o), tokens)
  else if eq_ignore_case token (bs "XX") then
    c ← set_condition (wo_condition o) Cond_IfPresent;
    Ok (mkWriteOptions c (wo_expiry o) (wo_previous o), tokens)
  else if is_set && eq_ignore_case token (bs "GET") then
    Ok (mkWriteOptions (wo_condition o) (wo_expiry o) true, tokens)
  else
    '(expiry, tokens) ← option_expiry name true token tokens;
    match expiry with
    | Some expiry =>
        e ← set_expiry (wo_expiry o) expiry;
        Ok (mkWriteOptions (wo_condition o) e (wo_previous o), tokens)
    | None =>
        if is_set && existsb (eq_ignore_case token) VALUE_CONDITIONS
        then fail (Er_Err "SET value conditions (IFEQ, IFNE, IFDEQ, IFDNE) are not supported"%str)
        else fail SYNTAX
    end.

Definition parse_set (args : list bytes) (tagged : Tagged) : RParse RespCommand :=
  let name := pick tagged "set"%str "settags"%str in
  args ← at_least args (if tagged_yes tagged then 4 else 3) name;
  '(tags, options_at) ← tag_list args 3 tagged name;
  key ← arg args 1;
  value ← arg args 2;
  o ← options (write_step true name) WriteOptions_default (drop options_at args);
  Ok (RC_Set (mkRespSet key value (wo_condition o) (wo_expiry o) (wo_previous o) tags (tagged_yes tagged))).

Definition parse_msetex (args : list bytes) (tagged : Tagged) : RParse RespCommand :=
  let name := pick tagged "msetex"%str "msettags"%str in
  args ← at_least args (if tagged_yes tagged then 5 else 4) name;
  token ← arg args 1;
  count ← or_fail (parse_int token) NOT_AN_INTEGER;
  if count <=? 0 then fail (Er_Err "numkeys should be greater than 0"%str)
  else if MAX_BATCH_ITEMS <? count then fail (Er_Err "too many keys"%str)
  else
    let body := (2 + Z.to_nat count * 2)%nat in
    if (length args <? body)%nat then fail (Er_WrongArity name)
    else
      '(tags, options_at) ← tag_list args body tagged name;
      o ← options (write_step false name) WriteOptions_default (drop options_at args);
      Ok (RC_MSetEx (pairs_of (take (body - 2) (drop 2 args))) (wo_condition o) (wo_expiry o) tags
            (tagged_yes tagged)).

Definition expire_condition (token : bytes) : RParse ExpireCondition :=
  if eq_ignore_case token (bs "NX") then Ok Expire_IfPersistent
  else if eq_ignore_case token (bs "XX") then Ok Expire_IfVolatile
  else if eq_ignore_case token (bs "GT") then Ok Expire_IfLater
  else if eq_ignore_case token (bs "LT") then Ok Expire_IfEarlier
  else fail SYNTAX.

Definition parse_expire (args : list bytes) (name : String.string) (absolute : bool) : RParse RespCommand :=
  args ← at_least args 3 name;
  token ← arg args 2;
  value ← or_fail (parse_int token) NOT_AN_INTEGER;
  millis ← or_fail (checked_i64 (value * 1000)) (Er_InvalidExpire name);
  let expiry := if absolute then Expiry_At millis else Expiry_After millis in
  condition ←
    match args !! 3%nat with
    | Some token => if (4 <? length args)%nat then fail SYNTAX else expire_condition token
    | None => Ok Expire_Always
    end;
  key ← arg args 1;
  Ok (RC_Expire key expiry condition).

(** ** INCREX *)

(** The options so far; a bound is kept as the client wrote it. *)
Record IncrExOptions := mkIncrExOptions {
  io_delta : option RespNumber;
  io_lower : option bytes;
  io_upper : option bytes;
  io_saturate : bool;
  io_expiry : option Expiry;
  io_only_if_persistent : bool
}.

Definition IncrExOptions_default : IncrExOptions := mkIncrExOptions None None None false None false.

(** [parse_int] or [parse_float] by mode, with the error each has. *)
Definition number_as (float : bool) (token : bytes) : RParse RespNumber :=
  if float then v ← or_fail (parse_float token) NOT_A_FLOAT; Ok (RNum_Float v)
  else v ← or_fail (parse_int token) NOT_AN_INTEGER; Ok (RNum_Int v).

Definition once {A B} (slot : option A) (k : RParse B) : RParse B :=
  match slot with Some _ => fail SYNTAX | None => k end.

Definition increx_step (o : IncrExOptions) (token : bytes) (tokens : list bytes)
    : RParse (IncrExOptions * list bytes) :=
  let '(mkIncrExOptions delta lower upper saturate expiry enx) := o in
  if eq_ignore_case token (bs "BYINT") || eq_ignore_case token (bs "BYFLOAT") then
    once delta
      ('(value, tokens) ← option_argument tokens;
       number ← number_as (negb (eq_ignore_case token (bs "BYINT"))) value;
       Ok (mkIncrExOptions (Some number) lower upper saturate expiry enx, tokens))
  else if eq_ignore_case token (bs "LBOUND") then
    '(value, tokens) ← option_argument tokens;
    Ok (mkIncrExOptions delta (Some value) upper saturate expiry enx, tokens)
  else if eq_ignore_case token (bs "UBOUND") then
    '(value, tokens) ← option_argument tokens;
    Ok (mkIncrExOptions delta lower (Some value) saturate expiry enx, tokens)
  else if eq_ignore_case token (bs "SATURATE") then
    Ok (mkIncrExOptions delta lower upper true expiry enx, tokens)
  else if eq_ignore_case token (bs "ENX") then
    Ok (mkIncrExOptions delta lower upper saturate expiry true, tokens)
  else if eq_ignore_case token (bs "PERSIST") then
    once expiry (Ok (mkIncrExOptions delta lower upper saturate (Some Expiry_Persist) enx, tokens))
  else
    '(parsed, tokens) ← option_expiry "increx"%str false token tokens;
    match parsed with
    | Some parsed => once expiry (Ok (mkIncrExOptions delta lower upper saturate (Some parsed) enx, tokens))
    | None => fail SYNTAX
    end.

Definition is_float (number : RespNumber) : bool :=
  match number with RNum_Float _ => true | RNum_Int _ => false end.

Definition bound_of (delta : RespNumber) (token : option bytes) : RParse (option RespNumber) :=
  match token with
  | None => Ok None
  | Some token => number ← number_as (is_float delta) token; Ok (Some number)
  end.

(** [as_float(low) > as_float(high)]: the bounds are compared as floats in
    either mode. *)
Definition bounds_cross (lower upper : option RespNumber) : bool :=
  match lower, upper with
  | Some low, Some high => SFltb (as_float high) (as_float low)
  | _, _ => false
  end.

Definition has_deadline (expiry : option Expiry) : bool :=
  match expiry with Some (Expiry_After _ | Expiry_At _) => true | _ => false end.

Definition parse_increx (args : list bytes) : RParse RespCommand :=
  args ← at_least args 2 "increx"%str;
  o ← options increx_step IncrExOptions_default (drop 2 args);
  let delta := default (RNum_Int 1) (io_delta o) in
  lower ← bound_of delta (io_lower o);
  upper ← bound_of delta (io_upper o);
  if bounds_cross lower upper then fail (Er_Err "LBOUND must be less than or equal to UBOUND"%str)
  else if io_only_if_persistent o && negb (has_deadline (io_expiry o)) then fail SYNTAX
  else
    key ← arg args 1;
    Ok (RC_IncrEx (mkIncrEx key delta lower upper (io_saturate o) (io_expiry o) (io_only_if_persistent o))).

(** ** The commands *)

Definition parse_hello (args : list bytes) : RParse RespCommand :=
  version ←
    match args !! 1%nat with
    | None => Ok None
    | Some token =>
        v ← or_fail (parse_int token) (Er_Coded "NOPROTO"%str "unsupported protocol version"%str);
        Ok (Some v)
    end;
  auth ←
    (if (length args <=? 2)%nat then Ok None
     else
       match args with
       | [_; _; option; name; secret] =>
           if eq_ignore_case option (bs "AUTH") then Ok (Some (mkWireCredential (Some name) secret))
           else fail (Er_Err "HELLO option SETNAME is not supported, and AUTH takes a username and a password"%str)
       | _ => fail (Er_Err "HELLO option SETNAME is not supported, and AUTH takes a username and a password"%str)
       end);
  Ok (RC_Hello version auth).

Definition parse_auth (args : list bytes) : RParse RespCommand :=
  match args with
  | [_; secret] => Ok (RC_Auth (mkWireCredential None secret))
  | [_; name; secret] => Ok (RC_Auth (mkWireCredential (Some name) secret))
  | [_] => fail (Er_WrongArity "auth"%str)
  | _ => fail SYNTAX
  end.

Definition parse_ping (args : list bytes) : RParse RespCommand :=
  match args with
  | [_] => Ok (RC_Ping None)
  | [_; message] => Ok (RC_Ping (Some message))
  | _ => fail (Er_WrongArity "ping"%str)
  end.

Definition parse_mset (args : list bytes) : RParse RespCommand :=
  args ← at_least args 3 "mset"%str;
  if negb (length args mod 2 =? 1)%nat then fail (Er_WrongArity "mset"%str)
  else Ok (RC_MSet (pairs_of (drop 1 args))).

Definition parse_incrby (decrement : bool) (args : list bytes) : RParse RespCommand :=
  args ← exactly args 3 (if decrement then "decrby"%str else "incrby"%str);
  token ← arg args 2;
  magnitude ← or_fail (parse_int token) NOT_AN_INTEGER;
  delta ← (if decrement then or_fail (checked_i64 (- magnitude)) OVERFLOW else Ok magnitude);
  key ← arg args 1;
  Ok (RC_Incr key (RNum_Int delta)).

Definition parse_info (args : list bytes) : RespCommand :=
  RC_Info
    (foldl (fun sections name =>
        if eq_ignore_case name (bs "all") || eq_ignore_case name (bs "everything") then SECTIONS_ALL
        else match section_named name with Some s => sections_with sections s | None => sections end)
      (if (length args =? 1)%nat then SECTIONS_DEFAULT else SECTIONS_NONE) (drop 1 args)).

(** One key and nothing else. *)
Definition keyed (args : list bytes) (name : String.string) (f : bytes -> RespCommand) : RParse RespCommand :=
  args ← exactly args 2 name;
  key ← arg args 1;
  Ok (f key).

(** One key at least. *)
Definition variadic (args : list bytes) (name : String.string) (f : list bytes -> RespCommand) : RParse RespCommand :=
  args ← at_least args 2 name;
  Ok (f (drop 1 args)).

Definition parse_verb (verb raw_verb : bytes) (args : list bytes) : RParse RespCommand :=
  let is_ := fun name => bool_decide (verb = name) in
  if is_ (bs "HELLO") then parse_hello args
  else if is_ (bs "AUTH") then parse_auth args
  else if is_ (bs "PING") then parse_ping args
  else if is_ (bs "QUIT") then Ok RC_Quit
  else if is_ (bs "GET") then keyed args "get"%str RC_Get
  else if is_ (bs "SET") then parse_set args Tagged_No
  else if is_ (bs "SETTAGS") then parse_set args Tagged_Yes
  else if is_ (bs "DEL") then variadic args "del"%str RC_Delete
  else if is_ (bs "UNLINK") then variadic args "unlink"%str RC_Delete
  else if is_ (bs "MGET") then variadic args "mget"%str RC_MGet
  else if is_ (bs "MSET") then parse_mset args
  else if is_ (bs "MSETEX") then parse_msetex args Tagged_No
  else if is_ (bs "MSETTAGS") then parse_msetex args Tagged_Yes
  else if is_ (bs "DELBYTAG") then
    args ← at_least args 2 "delbytag"%str;
    tags ← collect check_tag (drop 1 args);
    Ok (RC_DelByTag tags)
  else if is_ (bs "EXISTS") then variadic args "exists"%str RC_Exists
  else if is_ (bs "TYPE") then keyed args "type"%str RC_Type
  else if is_ (bs "APPEND") then
    args ← exactly args 3 "append"%str;
    key ← arg args 1;
    value ← arg args 2;
    Ok (RC_Append key value)
  else if is_ (bs "EXPIRE") then parse_expire args "expire"%str false
  else if is_ (bs "EXPIREAT") then parse_expire args "expireat"%str true
  else if is_ (bs "PERSIST") then keyed args "persist"%str RC_Persist
  else if is_ (bs "TTL") then keyed args "ttl"%str RC_Ttl
  else if is_ (bs "INCR") then keyed args "incr"%str (fun key => RC_Incr key (RNum_Int 1))
  else if is_ (bs "DECR") then keyed args "decr"%str (fun key => RC_Incr key (RNum_Int (-1)))
  else if is_ (bs "INCRBY") then parse_incrby false args
  else if is_ (bs "DECRBY") then parse_incrby true args
  else if is_ (bs "INCRBYFLOAT") then
    args ← exactly args 3 "incrbyfloat"%str;
    token ← arg args 2;
    delta ← or_fail (parse_float token) NOT_A_FLOAT;
    key ← arg args 1;
    Ok (RC_Incr key (RNum_Float delta))
  else if is_ (bs "INCREX") then parse_increx args
  else if is_ (bs "SCAN") then parse_scan args
  else if is_ (bs "SLOWLOG") then parse_slowlog args
  else if is_ (bs "INFO") then Ok (parse_info args)
  else fail (Er_UnknownCommand raw_verb).

Definition parse_command (args : list bytes) : RParse RespParsed :=
  raw_verb ← arg args 0;
  command ← parse_verb (upper_verb raw_verb) raw_verb args;
  Ok (mkRespParsed command consumed).

End Parse.

(** [resp::parse]. *)
Definition resp_parse {FT : FloatText} (buf : bytes) : RParse RespOutcome :=
  framed ← map_err RespError_from (frame buf (fun args consumed => parse_command consumed args));
  match framed with
  | None => Ok Resp_Incomplete
  | Some parsed => parsed ← parsed; Ok (Resp_Command parsed)
  end.
