(* ===== verification/RespParse.v ===== *)
(** The commands of the Redis dialect: framed arguments parse into well-formed
    commands or are refused whole, with one exception, whose shape is exact.

    First the framing: what [frame] reads depends on the bytes it consumes and no
    other, every walk over it sees the same commands, and an array of bulk
    strings reads back whatever its arguments hold. *)

From S2P Require Import Prelude Bytes Text Core Record Glob Arith Command Tags Resp RespCommand.

#[local] Delimit Scope string_scope with str.

(** ** The argument vector *)

(** An inline array has its eight slots, and a length within them. *)
Definition args_ok (args : Args) : Prop :=
  match args with
  | Args_Inline buf len => length buf = INLINE_ARGS /\ (len <= INLINE_ARGS)%nat
  | Args_Heap _ => True
  end.

Lemma args_with_capacity_ok n : args_ok (args_with_capacity n) /\ args_slice (args_with_capacity n) = [].
Proof. unfold args_with_capacity. destruct (n <=? INLINE_ARGS)%nat; repeat split; cbn; lia. Qed.

Lemma args_push_ok args x : args_ok args -> args_ok (args_push args x) /\ args_slice (args_push args x) = args_slice args ++ [x].
Proof.
  destruct args as [buf n|heap]; [|done]. intros [Hb Hn]. cbn [args_push].
  destruct (Nat.ltb_spec n INLINE_ARGS) as [H|H]; [|done]. cbn [args_ok args_slice].
  rewrite length_insert. split; [lia|]. rewrite Nat.add_1_r, (take_S_r _ n x).
  - by rewrite take_insert_ge.
  - apply list_lookup_insert_eq. lia.
Qed.

(** ** One header, one argument *)

Lemma find_byte_take b l l' k : find_byte b l = Some k -> take (S k) l = take (S k) l' -> find_byte b l' = Some k.
Proof.
  revert l' k. induction l as [|x l IH]; intros [|x' l'] k; cbn [find_byte take]; try done.
  intros H [= <- Ht]. case_bool_decide; [done|]. destruct (find_byte b l) as [j|] eqn:E; [|done].
  injection H as <-. by rewrite (IH l' j).
Qed.

Lemma find_byte_lt b l k : find_byte b l = Some k -> (k < length l)%nat.
Proof.
  intros H. pose proof (find_byte_cases b l) as Hc. rewrite H in Hc. destruct Hc as (x & y & -> & _ & <-).
  rewrite length_app. cbn. lia.
Qed.

Lemma agree_lookup n b b' i : agree n b b' -> (i < n)%nat -> b !! i = b' !! i.
Proof. intros (_ & _ & H) Hi. rewrite <- (lookup_take_lt b n i), <- (lookup_take_lt b' n i) by done. by rewrite H. Qed.

Lemma take_drop_agree n b b' pos : agree n b b' -> take (n - pos) (drop pos b) = take (n - pos) (drop pos b').
Proof.
  intros (_ & _ & H). destruct (decide (pos <= n)%nat).
  - rewrite !take_drop_commute. by replace (pos + (n - pos))%nat with n by lia; rewrite H.
  - replace (n - pos)%nat with 0%nat by lia. done.
Qed.

(** A header that was read lies in the buffer, and is read again wherever those
    bytes are. *)
Lemma read_header_local buf pos prefix detail v n :
  read_header buf pos prefix detail = Ok (Some (v, n)) ->
  (pos < n <= length buf)%nat /\ forall b', agree n buf b' -> read_header b' pos prefix detail = Ok (Some (v, n)).
Proof.
  unfold read_header. intros H. destruct (buf !! pos) as [first|] eqn:Ef; [|done].
  destruct (negb _) eqn:Ep; [done|]. destruct (find_byte LF (drop pos buf)) as [k|] eqn:Ek; [|by destruct (_ <? _)].
  pose proof (find_byte_lt _ _ _ Ek) as Hk. rewrite length_drop in Hk.
  assert (n = pos + k + 1)%nat as Hn.
  { destruct (utf8_decode _); [|done]. cbn in H. destruct (parse_i64 _); [|done]. cbn in H. by simplify_eq. }
  split; [lia|]. intros b' Ha. rewrite <- (agree_lookup n buf b' pos), Ef, Ep by (done || lia).
  rewrite (find_byte_take LF (drop pos buf) _ k) by
    (done || (replace (S k) with (n - pos)%nat by lia; by apply take_drop_agree)).
  rewrite <- (agree_lookup n buf b') by (done || lia).
  cbv zeta in *. case_match; rewrite <- (agree_slice n buf b') by (done || lia); done.
Qed.

Lemma read_bulk_local buf pos v n :
  read_bulk buf pos = Ok (Some (v, n)) ->
  (pos < n <= length buf)%nat /\ len v <= MAX_BULK_LEN
  /\ forall b', agree n buf b' -> read_bulk b' pos = Ok (Some (v, n)).
Proof.
  unfold read_bulk. destruct (read_header buf pos BULK_PREFIX BULK) as [[[l m]|]| |] eqn:E; try done. cbn [mbind Result_bind].
  apply read_header_local in E as [Hm Hag].
  destruct ((l <? 0) || (MAX_BULK_LEN <? l)) eqn:El; [done|]. cbv zeta.
  apply orb_false_iff in El as [E0%Z.ltb_ge E1%Z.ltb_ge].
  destruct (Nat.ltb_spec (length buf) (m + Z.to_nat l + 2)); [done|].
  destruct (negb _) eqn:Ec; [done|]. intros H'. simplify_eq. split; [lia|]. split.
  { rewrite len_slice by lia. lia. }
  intros b' Ha. rewrite (Hag b') by (eapply agree_le; [|done]; lia). cbn [mbind Result_bind].
  rewrite (proj2 (Z.ltb_ge l 0)), (proj2 (Z.ltb_ge MAX_BULK_LEN l)) by done. cbn [orb].
  pose proof Ha as (_ & Hl & _). rewrite (proj2 (Nat.ltb_ge _ _)) by done.
  rewrite <- !(agree_slice (m + Z.to_nat l + 2) buf b') by (done || lia). by rewrite Ec.
Qed.

(** ** The walk *)

(** What arguments a frame can hold. *)
Definition frame_args (args : list bytes) : Prop :=
  args <> [] /\ len args <= MAX_ARGS /\ Forall (fun a => len a <= MAX_BULK_LEN) args.

Lemma read_args_local buf count args cursor args' n :
  args_ok args -> read_args buf count args cursor = Ok (Some (args', n)) ->
  (cursor <= n)%nat /\ (0 < count -> n <= length buf)%nat
  /\ (exists more, args_slice args' = args_slice args ++ more /\ length more = count
                   /\ Forall (fun a => len a <= MAX_BULK_LEN) more)
  /\ forall b', agree n buf b' -> read_args b' count args cursor = Ok (Some (args', n)).
Proof.
  revert args cursor. induction count as [|count IH]; intros args cursor Hok H; cbn [read_args] in *.
  { simplify_eq. split; [done|]. split; [lia|]. split; [|done]. exists []. by rewrite app_nil_r. }
  destruct (read_bulk buf cursor) as [[[a m]|]| |] eqn:E; try done. cbn [mbind Result_bind] in H.
  apply read_bulk_local in E as (Hm & Ha & Hag). destruct (args_push_ok args a Hok) as [Hok' Hs].
  destruct (IH _ _ Hok' H) as (H1 & H2 & (more & H3 & H4 & H5) & H6).
  assert (n <= length buf)%nat as Hn.
  { destruct count; [|by apply H2; lia]. cbn in H. simplify_eq. lia. }
  split; [lia|]. split; [done|]. split.
  - exists (a :: more). rewrite H3, Hs, <- app_assoc. cbn. rewrite H4. conjs; [done..|]. by constructor.
  - intros b' Hb. rewrite (Hag b') by (eapply agree_le; [|done]; lia). by apply H6.
Qed.

Lemma read_header_total buf pos p d why : read_header buf pos p d <> Panic why.
Proof.
  unfold read_header. cbv zeta. destruct (_ !! _); [|done]. destruct (negb _); [done|].
  destruct (find_byte _ _); [|by case_match]. destruct (utf8_decode _); [|done]. cbn. by destruct (parse_i64 _).
Qed.

Lemma read_bulk_total buf pos why : read_bulk buf pos <> Panic why.
Proof.
  unfold read_bulk. pose proof (read_header_total buf pos BULK_PREFIX BULK) as Hh.
  destruct (read_header _ _ _ _) as [[[l m]|]| |w]; cbn; try done; [|by specialize (Hh w)].
  by repeat case_match.
Qed.

Lemma read_args_total buf count args cursor why : read_args buf count args cursor <> Panic why.
Proof.
  revert args cursor. induction count as [|count IH]; intros args cursor; cbn [read_args]; [done|].
  pose proof (read_bulk_total buf cursor) as Hb.
  destruct (read_bulk _ _) as [[[a m]|]| |w]; cbn; try done. by specialize (Hb w).
Qed.

(** The walk as a function that hands out the arguments and the end. *)
Definition frame_pair : list bytes -> nat -> list bytes * nat := fun args consumed => (args, consumed).

Definition handed {R} (w : list bytes -> nat -> R) (walk : Frame (option (list bytes * nat))) : Frame (option R) :=
  match walk with
  | Ok (Some (args, n)) => Ok (Some (w args n))
  | Ok None => Ok None
  | Err e => Err e
  | Panic why => Panic why
  end.

(** [with_] sees the walk's result and takes no part in it. *)
Lemma frame_loop_with {R} fuel buf pos (w : list bytes -> nat -> R) :
  frame_loop fuel buf pos w = handed w (frame_loop fuel buf pos frame_pair).
Proof.
  revert pos. induction fuel as [|fuel IH]; intros pos; cbn [frame_loop]; [done|].
  destruct (read_header buf pos ARRAY_PREFIX MULTIBULK) as [[[c n]|]| |]; cbn; try done.
  destruct (_ || _); [done|]. destruct (c =? 0); [apply IH|].
  by destruct (read_args _ _ _ _) as [[[args m]|]| |].
Qed.

Lemma frame_with {R} buf (w : list bytes -> nat -> R) :
  frame buf w = handed w (frame buf frame_pair).
Proof. apply frame_loop_with. Qed.

Lemma frame_loop_local fuel buf pos args n :
  frame_loop fuel buf pos frame_pair = Ok (Some (args, n)) ->
  (pos < n <= length buf)%nat /\ frame_args args
  /\ forall fuel' b', (n - pos < fuel')%nat -> agree n buf b' ->
       frame_loop fuel' b' pos frame_pair = Ok (Some (args, n)).
Proof.
  revert pos. induction fuel as [|fuel IH]; intros pos H; cbn [frame_loop] in H; [done|].
  destruct (read_header buf pos ARRAY_PREFIX MULTIBULK) as [[[c m]|]| |] eqn:Eh; try done. cbn [mbind Result_bind] in H.
  apply read_header_local in Eh as [Hm Hag].
  destruct ((c <? 0) || (MAX_ARGS <? c)) eqn:Ec; [done|]. pose proof Ec as [E0%Z.ltb_ge E1%Z.ltb_ge]%orb_false_iff.
  destruct (Z.eqb_spec c 0) as [->|Hc].
  - destruct (IH m H) as (H1 & H2 & H3). split; [lia|]. split; [done|]. intros [|fuel'] b' Hf Hb; [lia|].
    cbn [frame_loop]. rewrite (Hag b') by (eapply agree_le; [|done]; lia). cbn [mbind Result_bind]. rewrite Ec.
    cbn. apply H3; [lia|done].
  - destruct (read_args _ _ _ _) as [[[a k]|]| |] eqn:Ea; try done. cbn in H. simplify_eq.
    destruct (args_with_capacity_ok (Z.to_nat c)) as [Hok Hs].
    apply (read_args_local _ _ _ _ _ _ Hok) in Ea as (H1 & H2 & (more & H3 & H4 & H5) & H6).
    rewrite Hs in H3. cbn in H3. subst more. specialize (H2 ltac:(lia)). split; [lia|]. split.
    + split; [|split; [unfold len; lia|done]]. intros E. rewrite E in H4. cbn in H4. lia.
    + intros [|fuel'] b' Hf Hb; [lia|]. cbn [frame_loop].
      rewrite (Hag b') by (eapply agree_le; [|done]; lia). cbn [mbind Result_bind]. rewrite Ec, (proj2 (Z.eqb_neq c 0)) by done.
      by rewrite (H6 b' Hb).
Qed.

Lemma read_header_advances buf pos p d v n : read_header buf pos p d = Ok (Some (v, n)) -> (pos < n <= length buf)%nat.
Proof. intros H. by apply read_header_local in H as [H _]. Qed.

(** The walk ends: there is fuel for every empty array the buffer can hold. *)
Lemma frame_loop_total fuel buf pos why : (length buf - pos < fuel)%nat -> frame_loop fuel buf pos frame_pair <> Panic why.
Proof.
  revert pos. induction fuel as [|fuel IH]; intros pos Hf; [lia|]. cbn [frame_loop].
  destruct (read_header buf pos ARRAY_PREFIX MULTIBULK) as [[[c m]|]| |w] eqn:Eh; cbn [mbind Result_bind]; try done.
  2: by apply read_header_total in Eh.
  apply read_header_advances in Eh. destruct (_ || _); [done|]. destruct (c =? 0); [apply IH; lia|].
  pose proof (read_args_total buf (Z.to_nat c) (args_with_capacity (Z.to_nat c)) m) as Ha.
  destruct (read_args _ _ _ _) as [[[a k]|]| |w']; cbn; try done. by specialize (Ha w').
Qed.

Lemma frame_ok buf :
  match frame buf frame_pair with
  | Ok (Some (args, n)) =>
      (0 < n <= length buf)%nat /\ frame_args args
      /\ forall more, frame (take n buf ++ more) frame_pair = Ok (Some (args, n))
  | Panic _ => False
  | _ => True
  end.
Proof.
  unfold frame. pose proof (frame_loop_total (S (length buf)) buf 0) as Ht.
  destruct (frame_loop (S (length buf)) buf 0 frame_pair) as [[[args n]|]| |why] eqn:E; try done.
  2:{ apply (Ht why); [lia|done]. }
  apply frame_loop_local in E as (H1 & H2 & H3). conjs; [lia..|done|]. intros more. apply H3.
  - rewrite length_app, length_take. lia.
  - apply agree_take. lia.
Qed.

(** ** Well-formed commands *)

Definition in_i64_range (v : Z) : Prop := I64_MIN <= v <= I64_MAX.

(** A time a write takes: positive, in milliseconds. *)
Definition write_expiry (e : Expiry) : Prop :=
  match e with
  | Expiry_After millis | Expiry_At millis => 0 < millis <= I64_MAX
  | _ => True
  end.

Definition resp_tag (t : bytes) : Prop := 1 <= len t <= MAX_TAG_LEN.

Definition resp_tags (tags : list bytes) : Prop := Forall resp_tag tags /\ len tags <= ABSOLUTE_MAX_TAGS.

Definition resp_number (n : RespNumber) : Prop :=
  match n with RNum_Int v => in_i64_range v | RNum_Float v => is_nan v = false end.

Definition resp_bound (delta : RespNumber) (b : option RespNumber) : Prop :=
  match b with Some n => resp_number n /\ is_float n = is_float delta | None => True end.

Definition resp_command (c : RespCommand) : Prop :=
  match c with
  | RC_Hello version _ => match version with Some v => in_i64_range v | None => True end
  | RC_Set set => write_expiry (rs_expiry set) /\ rs_expiry set <> Expiry_Persist /\ resp_tags (rs_tags set)
  | RC_Delete keys | RC_MGet keys | RC_Exists keys => keys <> []
  | RC_MSet pairs => pairs <> []
  | RC_MSetEx pairs _ expiry tags _ =>
      1 <= len pairs <= MAX_BATCH_ITEMS /\ write_expiry expiry /\ expiry <> Expiry_Persist /\ resp_tags tags
  | RC_DelByTag tags => tags <> [] /\ Forall resp_tag tags
  | RC_Expire _ expiry _ =>
      exists millis, (expiry = Expiry_After millis \/ expiry = Expiry_At millis) /\ in_i64_range millis
  | RC_Incr _ delta => resp_number delta
  | RC_IncrEx op =>
      resp_number (ix_delta op) /\ resp_bound (ix_delta op) (ix_lower op) /\ resp_bound (ix_delta op) (ix_upper op)
      /\ match ix_expiry op with
         | Some e => write_expiry e /\ e <> Expiry_Unset /\ e <> Expiry_Keep
         | None => ix_only_if_persistent op = false
         end
  | RC_Scan scan => fits 64 (sc_token scan) /\ 1 <= sc_count scan <= MAX_LIST_LIMIT /\ validate (sc_pattern scan) = Ok ()
  | RC_Info sections => fits 9 sections
  | RC_Slowlog (Slowlog_Get (Some count)) => -1 <= count <= I64_MAX
  | _ => True
  end.

(** [MSETTAGS] with every pair it announces and nothing after them: the only
    arguments that [parse_command] reads past the end of. *)
Definition overrun (args : list bytes) : Prop :=
  exists verb count pairs, args = verb :: count :: pairs
    /\ upper_verb verb = bs "MSETTAGS"
    /\ exists n, parse_int count = Some n /\ 2 <= n <= MAX_BATCH_ITEMS /\ len pairs = 2 * n.

(** ** Parts of a command *)

Section Sound.
Context {FT : FloatText} (consumed : nat).

(** A part yields what it should, refuses this command's bytes, or panics as
    [boom] says it may. *)
Definition rsound {A} (boom : Prop) (P : A -> Prop) (r : RParse A) : Prop :=
  match r with
  | Ok a => P a
  | Err (Resp_Recoverable _ n) => n = consumed
  | Err (Resp_Fatal _) => False
  | Panic _ => boom
  end.

Lemma rsound_bind {A B} boom (P : A -> Prop) (Q : B -> Prop) r (f : A -> RParse B) :
  rsound boom P r -> (forall a, P a -> rsound boom Q (f a)) -> rsound boom Q (r ≫= f).
Proof. destruct r as [a|[k n|d]|why]; cbn; auto. Qed.

Lemma rsound_mono {A} (boom boom' : Prop) (P Q : A -> Prop) r :
  rsound boom P r -> (boom -> boom') -> (forall a, P a -> Q a) -> rsound boom' Q r.
Proof. destruct r as [a|[k n|d]|why]; cbn; auto. Qed.

Lemma rsound_fail {A} boom (P : A -> Prop) reply : rsound boom P (fail consumed reply).
Proof. done. Qed.

Lemma rsound_or_fail {A} boom (o : option A) reply : rsound boom (fun a => o = Some a) (or_fail consumed o reply).
Proof. by destruct o. Qed.

Lemma rsound_arg boom args i : (i < length args)%nat -> rsound boom (fun a => args !! i = Some a) (arg args i).
Proof. intros H. apply lookup_lt_is_Some in H as [a H]. unfold arg. by rewrite H. Qed.

Lemma rsound_exactly boom args n name : rsound boom (fun a => a = args /\ length args = n) (exactly consumed args n name).
Proof. unfold exactly. destruct (Nat.eqb_spec (length args) n); done. Qed.

Lemma rsound_at_least boom args n name : rsound boom (fun a => a = args /\ (n <= length args)%nat) (at_least consumed args n name).
Proof. unfold at_least. destruct (Nat.ltb_spec (length args) n); done. Qed.

Lemma rsound_collect {A B} boom (P : B -> Prop) (f : A -> RParse B) l :
  (forall x, rsound boom P (f x)) -> rsound boom (fun ys => Forall P ys /\ length ys = length l) (collect f l).
Proof.
  intros H. induction l as [|x l IH]; cbn [collect]; [done|].
  eapply rsound_bind; [apply H|]. intros y Hy. eapply rsound_bind; [exact IH|]. intros ys [Hys Hl].
  cbn. split; [by constructor|]. by rewrite Hl.
Qed.

Lemma rsound_check_tag boom tag : rsound boom resp_tag (check_tag consumed tag).
Proof.
  unfold check_tag, resp_tag. case_bool_decide as H; [done|]. destruct (Z.ltb_spec MAX_TAG_LEN (len tag)); [done|].
  cbn. destruct tag; [done|]. split; [unfold len; cbn; lia|done].
Qed.

(** *** The option loop *)

(** A round leaves no more tokens than it found. *)
Definition steps {S} (Inv : S -> Prop) (step : S -> bytes -> list bytes -> RParse (S * list bytes)) : Prop :=
  forall boom s token tokens, Inv s ->
    rsound boom (fun '(s', tokens') => Inv s' /\ (length tokens' <= length tokens)%nat) (step s token tokens).

Lemma rsound_options {S} boom (Inv : S -> Prop) step s tokens :
  steps Inv step -> Inv s -> rsound boom Inv (options step s tokens).
Proof.
  intros Hstep. unfold options. remember (length tokens) as fuel eqn:Ef.
  assert (length tokens <= fuel)%nat as Hf by lia. clear Ef. revert s tokens Hf.
  induction fuel as [|fuel IH]; intros s [|token tokens] Hf Hs; cbn [options_loop length] in *; try done; [lia|].
  eapply rsound_bind; [apply (Hstep boom s token tokens Hs)|]. intros [s' tokens'] [Hs' Hl]. apply IH; [lia|done].
Qed.

Lemma rsound_argument boom tokens :
  rsound boom (fun '(_, tokens') => (length tokens' <= length tokens)%nat) (option_argument consumed tokens).
Proof. destruct tokens; cbn; [done|lia]. Qed.

Lemma rsound_expiry boom name keep token tokens :
  rsound boom (fun '(e, tokens') => (length tokens' <= length tokens)%nat
                 /\ match e with
                    | Some e => write_expiry e /\ e <> Expiry_Unset /\ e <> Expiry_Persist /\ (keep = false -> e <> Expiry_Keep)
                    | None => True
                    end) (option_expiry consumed name keep token tokens).
Proof.
  unfold option_expiry. destruct (keep && _) eqn:Ek.
  { apply andb_true_iff in Ek as [-> _]. cbn. conjs; done. }
  destruct (expiry_unit token) as [[unit absolute]|]; [|done].
  eapply rsound_bind; [apply rsound_argument|]. intros [raw tokens'] Hl.
  eapply rsound_bind; [apply rsound_or_fail|]. intros value _.
  eapply rsound_bind; [apply rsound_or_fail|]. intros millis Hm.
  apply bind_Some in Hm as (m & Hc & Hm). destruct (Z.ltb_spec 0 m); [|done]. injection Hm as ->.
  apply checked_i64_Some in Hc as [-> Hc]. cbn. split; [done|].
  destruct absolute; cbn; conjs; (done || lia).
Qed.

(** *** Each command *)

Lemma rsound_slowlog boom args : rsound boom resp_command (parse_slowlog consumed args).
Proof.
  unfold parse_slowlog. cbv zeta. destruct (args !! 1%nat) as [sub|]; [|done].
  eapply (rsound_bind _ (fun s => resp_command (RC_Slowlog s))); [|done].
  repeat (match goal with |- context [if eq_ignore_case ?t ?w then _ else _] => destruct (eq_ignore_case t w) end);
    try done; try (destruct (length args =? 2)%nat; done).
  destruct args as [|a [|b [|c [|d args]]]]; try done. cbn [length arg lookup list_lookup].
  eapply rsound_bind; [apply rsound_arg; cbn; lia|]. intros token _.
  eapply rsound_bind; [apply rsound_or_fail|]. intros n Hn. apply bind_Some in Hn as (m & Hm & Hn).
  destruct (Z.leb_spec (-1) m); [|done]. injection Hn as ->. apply parse_int_canonical in Hm. cbn. lia.
Qed.

Lemma steps_scan token : steps (fun s => sc_token s = token /\ 1 <= sc_count s <= MAX_LIST_LIMIT
                                   /\ validate (sc_pattern s) = Ok ()) (scan_step consumed).
Proof.
  intros boom s tok tokens (H1 & H2 & H3). unfold scan_step.
  repeat (match goal with |- context [if eq_ignore_case ?t ?w then _ else _] => destruct (eq_ignore_case t w) end); try done.
  - eapply rsound_bind; [apply rsound_argument|]. intros [pattern ts] Hl. destruct (has_unescaped_class pattern); [done|].
    destruct (validate_cases pattern) as [Hv|Hv]; rewrite Hv; [|done]. cbn. done.
  - eapply rsound_bind; [apply rsound_argument|]. intros [raw ts] Hl.
    eapply rsound_bind; [apply rsound_or_fail|]. intros n _. destruct (Z.leb_spec n 0); [done|]. cbn.
    conjs; try done. all: unfold MAX_LIST_LIMIT in *; lia.
  - eapply rsound_bind; [apply rsound_argument|]. intros [raw ts] Hl. done.
Qed.

Lemma rsound_scan boom args : rsound boom resp_command (parse_scan consumed args).
Proof.
  unfold parse_scan. eapply rsound_bind; [apply rsound_at_least|]. intros ? [-> Hl].
  eapply rsound_bind; [by apply rsound_arg|]. intros token _.
  eapply rsound_bind; [apply rsound_or_fail|]. intros n Hn. apply bind_Some in Hn as (text & _ & Hn%parse_u64_range).
  eapply rsound_bind; [apply (rsound_options _ _ _ _ _ (steps_scan n)); cbn; conjs; (done || unfold MAX_LIST_LIMIT; lia)|].
  intros s (<- & H2 & H3). done.
Qed.

Lemma rsound_tag_list (boom : Prop) args at_ tagged name :
  (tagged = Tagged_Yes -> (length args <= at_)%nat -> boom) ->
  rsound boom (fun '(tags, _) => resp_tags tags) (tag_list consumed args at_ tagged name).
Proof.
  intros Hb. unfold tag_list. destruct tagged; cbn [tagged_yes negb]; [done|].
  eapply (rsound_bind _ (fun _ => True)).
  { unfold arg, expect. destruct (args !! at_) eqn:E; [done|]. apply lookup_ge_None in E. by apply Hb. }
  intros token _. eapply rsound_bind; [apply rsound_or_fail|]. intros n _.
  destruct (Z.ltb_spec n 0); [done|]. destruct (Z.ltb_spec ABSOLUTE_MAX_TAGS n); [done|]. cbv zeta.
  destruct (Nat.ltb_spec (length args) (at_ + 1 + Z.to_nat n)); [done|].
  eapply rsound_bind; [apply rsound_collect, rsound_check_tag|]. intros tags [Ht Hl]. cbn. split; [done|].
  rewrite length_take, length_drop in Hl. unfold len. lia.
Qed.

Lemma steps_write is_set name :
  steps (fun o => write_expiry (wo_expiry o) /\ wo_expiry o <> Expiry_Persist) (write_step consumed is_set name).
Proof.
  intros boom o tok tokens H. unfold write_step.
  do 2 (destruct (eq_ignore_case tok _); [unfold set_condition; by destruct (negb _)|]).
  destruct (is_set && _); [done|].
  eapply rsound_bind; [apply rsound_expiry|]. intros [[e|] ts] [Hl He]; [|by destruct (is_set && _)].
  unfold set_expiry. destruct (negb _); [done|]. cbn. naive_solver.
Qed.

Lemma rsound_set boom args tagged : rsound boom resp_command (parse_set consumed args tagged).
Proof.
  unfold parse_set. cbv zeta. eapply rsound_bind; [apply rsound_at_least|]. intros ? [-> Hl].
  eapply rsound_bind; [apply rsound_tag_list|].
  { intros -> Hlen. cbn in Hl. lia. }
  intros [tags at_] Htags. assert (3 <= length args)%nat by (destruct tagged; cbn in Hl; lia).
  eapply rsound_bind; [apply rsound_arg; lia|]. intros key _. eapply rsound_bind; [apply rsound_arg; lia|]. intros value _.
  eapply rsound_bind; [by apply (rsound_options _ _ _ _ _ (steps_write _ _))|]. intros o [H1 H2]. done.
Qed.

Lemma pairs_of_length l : length (pairs_of l) = (length l / 2)%nat.
Proof.
  assert (forall n l, (length l <= n)%nat -> length (pairs_of l) = (length l / 2)%nat) as H; [|by eapply H].
  induction n as [|n IH]; intros [|a [|b k]] Hn; cbn [length pairs_of] in *; try done; try lia.
  rewrite IH by lia. replace (S (S (length k))) with (1 * 2 + length k)%nat by lia. rewrite Nat.div_add_l by done. lia.
Qed.

Lemma pairs_of_body args n :
  (2 + n * 2 <= length args)%nat -> length (pairs_of (take (2 + n * 2 - 2) (drop 2 args))) = n.
Proof.
  intros H. rewrite pairs_of_length, length_take, length_drop, Nat.min_l by lia.
  replace (2 + n * 2 - 2)%nat with (n * 2)%nat by lia. by apply Nat.div_mul.
Qed.

Lemma rsound_msetex verb args tagged :
  upper_verb verb = pick tagged (bs "MSETEX") (bs "MSETTAGS") -> head args = Some verb ->
  rsound (overrun args) resp_command (parse_msetex consumed args tagged).
Proof.
  intros Hv Hh. unfold parse_msetex. cbv zeta. eapply rsound_bind; [apply rsound_at_least|]. intros ? [-> Hl].
  assert (4 <= length args)%nat as Hl4 by (destruct tagged; cbn in Hl; lia).
  eapply rsound_bind; [apply rsound_arg; lia|]. intros count Hcount.
  eapply rsound_bind; [apply rsound_or_fail|]. intros n Hn.
  destruct (Z.leb_spec n 0); [done|]. destruct (Z.ltb_spec MAX_BATCH_ITEMS n); [done|].
  destruct (Nat.ltb_spec (length args) (2 + Z.to_nat n * 2)); [done|].
  eapply rsound_bind; [apply rsound_tag_list|].
  { intros -> Hlen. cbn in Hl, Hv. destruct args as [|v [|c ps]]; [done..|]. cbn in Hh, Hcount. simplify_eq. cbn [length] in *.
    exists verb, count, ps. conjs; [done..|]. exists n. split; [done|]. unfold len. lia. }
  intros [tags at_] Htags. eapply rsound_bind; [by apply (rsound_options _ _ _ _ _ (steps_write _ _))|]. intros o [H1' H2].
  cbn [rsound resp_command]. unfold len. rewrite pairs_of_body by done. conjs; (done || lia).
Qed.

Lemma rsound_expire boom args name absolute : rsound boom resp_command (parse_expire consumed args name absolute).
Proof.
  unfold parse_expire. eapply rsound_bind; [apply rsound_at_least|]. intros ? [-> Hl].
  eapply rsound_bind; [apply rsound_arg; lia|]. intros token _. eapply rsound_bind; [apply rsound_or_fail|]. intros value _.
  eapply rsound_bind; [apply rsound_or_fail|]. intros millis [-> Hm]%checked_i64_Some. cbv zeta.
  eapply (rsound_bind _ (fun _ => True)).
  { destruct (args !! 3%nat); [|done]. destruct (Nat.ltb_spec 4 (length args)); [done|].
    unfold expire_condition. by repeat case_match. }
  intros condition _. eapply rsound_bind; [apply rsound_arg; lia|]. intros key _. cbn. exists (value * 1000).
  split; [destruct absolute; auto|done].
Qed.

(** *** INCREX *)

Lemma rsound_number boom float token :
  rsound boom (fun n => resp_number n /\ is_float n = float) (number_as consumed float token).
Proof.
  unfold number_as. destruct float; (eapply rsound_bind; [apply rsound_or_fail|]); intros v Hv; cbn.
  - split; [|done]. unfold parse_float in Hv. apply bind_Some in Hv as (text & _ & Hv). case_match; [done|].
    apply bind_Some in Hv as (w & _ & Hv). destruct (is_nan w) eqn:E; [done|]. by injection Hv as ->.
  - split; [|done]. by apply parse_int_canonical in Hv as [Hv _].
Qed.

Definition increx_ok (o : IncrExOptions) : Prop :=
  match io_delta o with Some n => resp_number n | None => True end
  /\ match io_expiry o with Some e => write_expiry e /\ e <> Expiry_Unset /\ e <> Expiry_Keep | None => True end.

Lemma steps_increx : steps increx_ok (increx_step consumed).
Proof.
  intros boom [delta lower upper saturate expiry enx] tok tokens [H1 H2]. unfold increx_step. cbn in H1, H2.
  destruct (_ || _).
  { unfold once. destruct delta; [done|]. eapply rsound_bind; [apply rsound_argument|]. intros [value ts] Hl.
    eapply rsound_bind; [apply rsound_number|]. intros n [Hn _]. cbn. split; [split|]; done. }
  do 2 (destruct (eq_ignore_case tok _); [eapply rsound_bind; [apply rsound_argument|]; by intros [value ts] Hl|]).
  do 2 (destruct (eq_ignore_case tok _); [done|]).
  destruct (eq_ignore_case tok _).
  { unfold once. destruct expiry; [done|]. cbn. split; [|done]. split; [done|]. cbn. done. }
  eapply rsound_bind; [apply rsound_expiry|]. intros [[e|] ts] [Hl He]; [|done]. unfold once. destruct expiry; [done|].
  cbn. split; [|done]. split; [done|]. cbn. naive_solver.
Qed.

Lemma rsound_bound boom delta b : rsound boom (resp_bound delta) (bound_of consumed delta b).
Proof. destruct b as [t|]; [|done]. eapply rsound_bind; [apply rsound_number|]. done. Qed.

Lemma rsound_increx boom args : rsound boom resp_command (parse_increx consumed args).
Proof.
  unfold parse_increx. eapply rsound_bind; [apply rsound_at_least|]. intros ? [-> Hl].
  eapply rsound_bind; [by apply (rsound_options _ _ _ _ _ steps_increx)|]. intros o [H1 H2]. cbv zeta.
  eapply rsound_bind; [apply rsound_bound|]. intros lower Hlo. eapply rsound_bind; [apply rsound_bound|]. intros upper Hup.
  destruct (bounds_cross _ _); [done|]. destruct (io_only_if_persistent o && _) eqn:E; [done|].
  eapply rsound_bind; [apply rsound_arg; lia|]. intros key _. cbn. conjs; try done.
  - destruct (io_delta o); [done|]. cbn. unfold in_i64_range, I64_MIN, I64_MAX. lia.
  - destruct (io_expiry o); [done|]. by destruct (io_only_if_persistent o).
Qed.

(** *** The commands *)

Lemma rsound_keyed boom args name f :
  (forall key, resp_command (f key)) -> rsound boom resp_command (keyed consumed args name f).
Proof.
  intros Hf. unfold keyed. eapply rsound_bind; [apply rsound_exactly|]. intros ? [-> Hl].
  eapply rsound_bind; [apply rsound_arg; lia|]. intros key _. apply Hf.
Qed.

Lemma rsound_variadic boom args name f :
  (forall keys, keys <> [] -> resp_command (f keys)) -> rsound boom resp_command (variadic consumed args name f).
Proof.
  intros Hf. unfold variadic. eapply rsound_bind; [apply rsound_at_least|]. intros ? [-> Hl]. apply Hf.
  destruct args as [|a [|b args]]; cbn in *; (done || lia).
Qed.

Lemma rsound_hello boom args : rsound boom resp_command (parse_hello consumed args).
Proof.
  unfold parse_hello. eapply (rsound_bind _ (fun v => resp_command (RC_Hello v None))).
  { destruct (args !! 1%nat); [|done]. eapply rsound_bind; [apply rsound_or_fail|]. intros v [Hv _]%parse_int_canonical. done. }
  intros version Hv. eapply (rsound_bind _ (fun _ => True)); [|done]. by repeat case_match.
Qed.

Lemma rsound_mset boom args : rsound boom resp_command (parse_mset consumed args).
Proof.
  unfold parse_mset. eapply rsound_bind; [apply rsound_at_least|]. intros ? [-> Hl].
  destruct (negb _); [done|]. destruct args as [|a [|b [|c args]]]; cbn in *; (done || lia).
Qed.

Lemma rsound_incrby boom decrement args : rsound boom resp_command (parse_incrby consumed decrement args).
Proof.
  unfold parse_incrby. eapply rsound_bind; [apply rsound_exactly|]. intros ? [-> Hl].
  eapply rsound_bind; [apply rsound_arg; lia|]. intros token _. eapply rsound_bind; [apply rsound_or_fail|].
  intros m [Hm _]%parse_int_canonical. eapply (rsound_bind _ in_i64_range).
  { destruct decrement; [|done]. unfold or_fail. destruct (checked_i64 (- m)) eqn:E; [|done].
    apply checked_i64_Some in E as [-> E]. done. }
  intros delta Hd. eapply rsound_bind; [apply rsound_arg; lia|]. done.
Qed.

Lemma lor_fits w x y : 0 <= w -> fits w x -> fits w y -> fits w (Z.lor x y).
Proof.
  intros Hw [Hx Hx'] [Hy Hy']. split; [by apply Z.lor_nonneg|].
  destruct (decide (w = 0)) as [->|Hw0].
  { replace x with 0 by lia. by replace y with 0 by lia. }
  apply Z.log2_lt_cancel. rewrite Z.log2_lor, Z.log2_pow2 by done.
  assert (forall z, 0 <= z < 2 ^ w -> Z.log2 z < w) as Hl; [|apply Z.max_lub_lt; by apply Hl].
  intros z Hz. destruct (decide (z = 0)) as [->|]; [cbn; lia|]. apply Z.log2_lt_pow2; lia.
Qed.

Lemma with_fits sections s : fits 9 sections -> fits 9 (sections_with sections s).
Proof. intros H. apply lor_fits; [lia|done|]. by destruct s. Qed.

Lemma info_ok args : resp_command (parse_info args).
Proof.
  unfold parse_info. cbn [resp_command].
  match goal with |- fits 9 (foldl _ ?s _) =>
    assert (fits 9 s) as H by (destruct (length args =? 1)%nat; done); revert H; generalize s end.
  induction (drop 1 args) as [|name l IH]; intros start H; cbn [foldl]; [done|].
  apply IH. destruct (_ || _); [done|]. destruct (section_named name); [by apply with_fits|done].
Qed.

Ltac verb_case :=
  match goal with
  | |- rsound _ _ (if bool_decide (?v = ?w) then _ else _) => destruct (bool_decide_reflect (v = w)) as [Hverb|_]
  end.

Lemma parse_verb_sound verb args :
  head args = Some verb ->
  rsound (overrun args) resp_command (parse_verb consumed (upper_verb verb) verb args).
Proof.
  intros Hh. unfold parse_verb. cbv zeta.
  repeat verb_case; try done;
    try (apply rsound_keyed; intros key; cbn; unfold in_i64_range, I64_MIN, I64_MAX; (done || lia));
    try (by apply rsound_variadic).
  - apply rsound_hello.
  - unfold parse_auth. by repeat case_match.
  - unfold parse_ping. by repeat case_match.
  - apply rsound_set.
  - apply rsound_set.
  - apply rsound_mset.
  - by eapply rsound_msetex.
  - by eapply rsound_msetex.
  - eapply rsound_bind; [apply rsound_at_least|]. intros ? [-> Hl].
    eapply rsound_bind; [apply rsound_collect, rsound_check_tag|]. intros tags [Ht Hn]. cbn. split; [|done].
    rewrite length_drop in Hn. intros ->. cbn in Hn. lia.
  - eapply rsound_bind; [apply rsound_exactly|]. intros ? [-> Hl].
    eapply rsound_bind; [apply rsound_arg; lia|]. intros key _. eapply rsound_bind; [apply rsound_arg; lia|]. done.
  - apply rsound_expire.
  - apply rsound_expire.
  - apply rsound_incrby.
  - apply rsound_incrby.
  - eapply rsound_bind; [apply rsound_exactly|]. intros ? [-> Hl].
    eapply rsound_bind; [apply rsound_arg; lia|]. intros token _.
    pose proof (rsound_number (overrun args) true token) as Hn. unfold number_as in Hn.
    destruct (or_fail consumed (parse_float token) NOT_A_FLOAT) as [delta|[]|]; try done. cbn in Hn |- *.
    eapply rsound_bind; [apply rsound_arg; lia|]. intros key _. apply Hn.
  - apply rsound_increx.
  - apply rsound_scan.
  - apply rsound_slowlog.
  - apply info_ok.
Qed.

End Sound.

(** ** Any bytes *)

Section Any.
Context {FT : FloatText}.

Lemma parse_command_ok n args :
  args <> [] -> rsound n (overrun args) (fun p => rp_consumed p = n /\ resp_command (rp_command p)) (parse_command n args).
Proof.
  intros Hne. destruct args as [|verb rest]; [done|]. unfold parse_command. cbn [arg lookup list_lookup expect mbind Result_bind].
  eapply rsound_bind; [by apply parse_verb_sound|]. intros c Hc. done.
Qed.

Lemma overrun_panics n args : overrun args -> parse_command n args = Panic "index out of bounds"%str.
Proof.
  intros (verb & count & ps & -> & Hv & k & Hk & Hr & Hl).
  assert (length (verb :: count :: ps) = 2 + Z.to_nat k * 2)%nat as Hlen by (cbn [length]; unfold len in Hl; lia).
  unfold parse_command. cbn [arg lookup list_lookup expect mbind Result_bind]. rewrite Hv.
  change (parse_verb n (bs "MSETTAGS") verb (verb :: count :: ps)) with (parse_msetex n (verb :: count :: ps) Tagged_Yes).
  unfold parse_msetex, at_least. cbv zeta. cbn [tagged_yes]. rewrite (proj2 (Nat.ltb_ge _ 5)) by lia.
  cbn [arg lookup list_lookup expect mbind Result_bind]. unfold or_fail at 1. rewrite Hk. cbn [ok_or mbind Result_bind].
  rewrite (proj2 (Z.leb_gt _ _)), (proj2 (Z.ltb_ge _ _)) by lia. rewrite Hlen, (proj2 (Nat.ltb_ge _ _)) by lia.
  unfold tag_list. cbn [tagged_yes negb]. unfold arg.
  by rewrite (lookup_ge_None_2 (verb :: count :: ps)) by lia.
Qed.

(** The parse over the walk that hands out the arguments. *)
Lemma resp_parse_walk buf :
  resp_parse buf =
  match frame buf frame_pair with
  | Ok (Some (args, n)) => parsed ← parse_command n args; Ok (Resp_Command parsed)
  | Ok None => Ok Resp_Incomplete
  | Err e => Err (RespError_from e)
  | Panic why => Panic why
  end.
Proof.
  unfold resp_parse. rewrite (frame_with buf (fun args consumed => parse_command consumed args)).
  by destruct (frame buf frame_pair) as [[[args n]|]| |].
Qed.

Lemma resp_parse_cases buf :
  match resp_parse buf with
  | Ok (Resp_Command p) =>
      (0 < rp_consumed p <= length buf)%nat /\ resp_command (rp_command p)
      /\ forall more, resp_parse (take (rp_consumed p) buf ++ more) = Ok (Resp_Command p)
  | Err (Resp_Recoverable reply n) =>
      (0 < n <= length buf)%nat /\ forall more, resp_parse (take n buf ++ more) = Err (Resp_Recoverable reply n)
  | Panic _ => exists args n, frame buf frame_pair = Ok (Some (args, n)) /\ overrun args
  | _ => True
  end.
Proof.
  pose proof (frame_ok buf) as Hf. rewrite resp_parse_walk. destruct (frame buf frame_pair) as [[[args n]|]| |] eqn:E; try done.
  destruct Hf as (H1 & (H2 & _) & H3). pose proof (parse_command_ok n args H2) as Hp.
  destruct (parse_command n args) as [p|[reply k|d]|why] eqn:Ep; cbn in Hp |- *; try done.
  - destruct Hp as [<- Hc]. conjs; try done; try lia. intros more. by rewrite resp_parse_walk, H3, Ep.
  - subst k. split; [done|]. intros more. by rewrite resp_parse_walk, H3, Ep.
  - by exists args, n.
Qed.

(** C26 Any bytes at all: a command consumes bytes that are there, at least one,
    is well formed - numbers within their widths, times positive where a write
    takes them, tags and batches within their limits - and depends on the bytes
    it consumes and no other; so does a refusal, which names this command's
    bytes and no more; and the parse panics on exactly one kind of request:
    [MSETTAGS] with two pairs or more, each that it announces and no word after
    them. *)
Theorem resp_parse_exact buf :
  match resp_parse buf with
  | Ok (Resp_Command p) =>
      (0 < rp_consumed p <= length buf)%nat /\ resp_command (rp_command p)
      /\ forall more, resp_parse (take (rp_consumed p) buf ++ more) = Ok (Resp_Command p)
  | Err (Resp_Recoverable reply n) =>
      (0 < n <= length buf)%nat /\ forall more, resp_parse (take n buf ++ more) = Err (Resp_Recoverable reply n)
  | Panic _ => exists args n, frame buf frame_pair = Ok (Some (args, n)) /\ overrun args
  | _ => forall args n, frame buf frame_pair <> Ok (Some (args, n))
  end.
Proof.
  pose proof (resp_parse_cases buf) as H. destruct (resp_parse buf) as [[|p]|[reply n|d]|why] eqn:E; try done;
    intros args n Hf; rewrite resp_parse_walk, Hf in E; pose proof (frame_ok buf) as Hk; rewrite Hf in Hk;
    destruct Hk as (_ & (Hne & _) & _); pose proof (parse_command_ok n args Hne) as Hs;
    by destruct (parse_command n args) as [p|[reply k|d']|why].
Qed.

(** The requests that panic the parser are those, every one of them,
    whatever surrounds them in the buffer. *)
Theorem resp_parse_panics buf :
  (exists why, resp_parse buf = Panic why)
  <-> exists args n, frame buf frame_pair = Ok (Some (args, n)) /\ overrun args.
Proof.
  split.
  - intros [why H]. pose proof (resp_parse_cases buf) as Hc. by rewrite H in Hc.
  - intros (args & n & Hf & Ho). rewrite resp_parse_walk, Hf, overrun_panics by done. eauto.
Qed.

(** The measuring walk and the parse never disagree about where a command
    ends, whether one is whole, or which streams are beyond repair, whatever the
    classifier makes of the arguments. *)
Theorem peek_agrees {T} buf (classify : list bytes -> T) :
  match peek buf classify with
  | Ok Framed_Incomplete => resp_parse buf = Ok Resp_Incomplete
  | Ok (Framed_Command classified n) =>
      exists args, classified = classify args /\ args <> []
        /\ resp_parse buf = (parsed ← parse_command n args; Ok (Resp_Command parsed))
        /\ forall detail, resp_parse buf <> Err (Resp_Fatal detail)
  | Err e => resp_parse buf = Err (Resp_Fatal (fe_detail e))
  | Panic _ => False
  end.
Proof.
  unfold peek. rewrite (frame_with buf (fun args consumed => Framed_Command (classify args) consumed)), resp_parse_walk.
  pose proof (frame_ok buf) as Hf. destruct (frame buf frame_pair) as [[[args n]|]|e|why]; try done.
  destruct Hf as (_ & (Hne & _) & _). cbn. exists args. conjs; [done..|]. intros detail.
  pose proof (parse_command_ok n args Hne) as Hs. by destruct (parse_command n args) as [p|[reply k|d']|why].
Qed.

End Any.
