(* ===== verification/RespTrip.v ===== *)
(** A request of the Redis dialect and back: an array of bulk strings frames to
    its arguments whatever bytes they hold, and each command's canonical words
    parse to the command. *)

From S2P Require Import Prelude Bytes Text Core Record Glob Tags Command Arith Resp RespCommand RespParse.

#[local] Delimit Scope string_scope with str.

(** ** The array form *)

Definition bulk_of (a : bytes) : bytes := BULK_PREFIX :: u64_text (len a) ++ CRLF ++ a ++ CRLF.

Definition request (args : list bytes) : bytes :=
  ARRAY_PREFIX :: u64_text (len args) ++ CRLF ++ concat (bulk_of <$> args).

(** Empty arrays, which are skipped. *)
Definition empties (n : nat) : bytes := concat (repeat (ARRAY_PREFIX :: bs "0" ++ CRLF) n).

Lemma digits_no b v : 0 <= v -> is_ascii_digit b = false -> b ∉ u64_text v.
Proof.
  intros Hv Hb Hin. pose proof (u64_text_digits v Hv) as Hd. rewrite Forall_forall in Hd. apply Hd in Hin. congruence.
Qed.

Lemma parse_i64_text v : 0 <= v <= I64_MAX -> parse_i64 (byte_val <$> u64_text v) = Some v.
Proof.
  intros Hv. assert (fits 64 v) as Hf by width. pose proof (u64_text_roundtrip v Hf) as Hr.
  pose proof (u64_text_digits v ltac:(lia)) as Hd. pose proof (u64_text_nonempty v) as Hn.
  destruct (u64_text v) as [|b l] eqn:E; [done|]. apply Forall_cons in Hd as [Hb _]. apply is_ascii_digit_lt in Hb.
  cbn [fmap list_fmap] in *. unfold parse_i64.
  assert (forall o, parse_u64 (byte_val b :: (byte_val <$> l)) = o ->
    match byte_val b with 45 => o | _ => o end = o) as _ by (by intros; repeat case_match).
  destruct (byte_val b) as [|p|p] eqn:Eb; try lia.
  repeat (destruct p as [p|p|]; try lia; try (rewrite Hr; cbn; by rewrite (proj2 (Z.leb_le _ _)) by lia)).
Qed.

Lemma read_header_at a prefix v rest d :
  0 <= v <= I64_MAX -> prefix <> LF -> prefix <> CR ->
  read_header (a ++ prefix :: u64_text v ++ CRLF ++ rest) (length a) prefix d
  = Ok (Some (v, (length a + 1 + length (u64_text v) + 2)%nat)).
Proof.
  intros Hv Hlf Hcr. unfold read_header. rewrite list_lookup_middle, bool_decide_eq_true_2 by done. cbn [negb].
  rewrite drop_app_length.
  change (u64_text v ++ CRLF ++ rest) with (u64_text v ++ [CR] ++ LF :: rest).
  assert (find_byte LF (prefix :: u64_text v ++ [CR] ++ LF :: rest) = Some (length (u64_text v) + 2)%nat) as ->.
  { change (prefix :: u64_text v ++ [CR] ++ LF :: rest) with ((prefix :: u64_text v) ++ [CR] ++ LF :: rest).
    rewrite app_assoc, find_byte_app.
    - rewrite length_app. cbn. f_equal. lia.
    - pose proof (digits_no LF v ltac:(lia) eq_refl). set_solver. }
  cbv zeta. rewrite (proj2 (Nat.ltb_lt _ _)) by lia. cbn [andb].
  replace (length a + (length (u64_text v) + 2) - 1)%nat with (length (a ++ prefix :: u64_text v)) by
    (rewrite length_app; cbn; lia).
  replace (a ++ prefix :: u64_text v ++ [CR] ++ LF :: rest) with ((a ++ prefix :: u64_text v) ++ CR :: LF :: rest) by
    (by rewrite <- app_assoc).
  rewrite list_lookup_middle, bool_decide_eq_true_2 by done.
  assert (slice_of ((a ++ prefix :: u64_text v) ++ CR :: LF :: rest) (length a + 1) (length (a ++ prefix :: u64_text v))
          = u64_text v) as ->.
  { replace ((a ++ prefix :: u64_text v) ++ CR :: LF :: rest) with ((a ++ [prefix]) ++ u64_text v ++ CR :: LF :: rest) by
      (by rewrite <- !app_assoc).
    apply slice_here; rewrite !length_app; cbn; lia. }
  rewrite digits_utf8 by (apply u64_text_digits; lia). cbn [ok_or mbind Result_bind].
  rewrite parse_i64_text by done. cbn [ok_or mbind Result_bind]. do 3 f_equal. lia.
Qed.

Lemma read_bulk_at a arg rest :
  len arg <= MAX_BULK_LEN ->
  read_bulk (a ++ bulk_of arg ++ rest) (length a) = Ok (Some (arg, length (a ++ bulk_of arg))).
Proof.
  intros Hl. unfold read_bulk, bulk_of. pose proof (len_nonneg arg).
  assert (MAX_BULK_LEN <= I64_MAX) by (unfold MAX_BULK_LEN, ABSOLUTE_MAX_VALUE_LEN, I64_MAX; lia).
  cbn [app]. rewrite <- !app_assoc. rewrite read_header_at by (done || lia). cbn [mbind Result_bind].
  rewrite (proj2 (Z.ltb_ge _ 0)), (proj2 (Z.ltb_ge _ _)) by lia. cbn [orb]. cbv zeta.
  set (h := a ++ BULK_PREFIX :: u64_text (len arg) ++ CRLF).
  assert (length a + 1 + length (u64_text (len arg)) + 2 = length h)%nat as ->.
  { unfold h. rewrite length_app. cbn. rewrite length_app. cbn. lia. }
  replace (a ++ BULK_PREFIX :: u64_text (len arg) ++ CRLF ++ arg ++ CRLF ++ rest) with (h ++ arg ++ CRLF ++ rest) by
    (unfold h; by rewrite <- !app_assoc; cbn [app]; rewrite <- !app_assoc).
  replace (length h + Z.to_nat (len arg))%nat with (length (h ++ arg)) by (rewrite length_app; unfold len; lia).
  rewrite (proj2 (Nat.ltb_ge _ _)) by (rewrite !length_app; cbn; lia).
  assert (slice_of (h ++ arg ++ CRLF ++ rest) (length (h ++ arg)) (length (h ++ arg) + 2) = CRLF) as ->.
  { rewrite app_assoc. by apply slice_here. }
  rewrite bool_decide_eq_true_2 by done. cbn [negb].
  assert (slice_of (h ++ arg ++ CRLF ++ rest) (length h) (length (h ++ arg)) = arg) as ->.
  { apply slice_here; [done|]. by rewrite length_app. }
  do 3 f_equal. unfold h. rewrite !length_app. cbn [length]. rewrite !length_app. cbn. lia.
Qed.

Lemma read_args_at a args start rest :
  args_ok start -> Forall (fun x => len x <= MAX_BULK_LEN) args ->
  exists args', read_args (a ++ concat (bulk_of <$> args) ++ rest) (length args) start (length a)
    = Ok (Some (args', length (a ++ concat (bulk_of <$> args))))
    /\ args_slice args' = args_slice start ++ args.
Proof.
  intros Hok H. revert a start Hok. induction H as [|x l Hx Hl IH]; intros a start Hok.
  - exists start. cbn. by rewrite !app_nil_r.
  - destruct (args_push_ok start x Hok) as [Hok' Hs].
    destruct (IH (a ++ bulk_of x) (args_push start x) Hok') as (args' & E & Ea). exists args'. split.
    + cbn [fmap list_fmap concat length read_args]. rewrite <- app_assoc, read_bulk_at by done. cbn [mbind Result_bind].
      rewrite <- app_assoc in E. rewrite E. by rewrite <- !app_assoc.
    + by rewrite Ea, Hs, <- app_assoc.
Qed.

Lemma frame_loop_request fuel a n args rest :
  frame_args args -> (n < fuel)%nat ->
  frame_loop fuel (a ++ empties n ++ request args ++ rest) (length a) frame_pair
  = Ok (Some (args, length (a ++ empties n ++ request args))).
Proof.
  intros (Hne & Hmax & Hall) Hf. revert fuel Hf a. induction n as [|n IH]; intros [|fuel] Hf a; try lia; cbn [frame_loop].
  - cbn [empties repeat concat app]. unfold request. cbn [app]. rewrite <- !app_assoc.
    assert (MAX_ARGS <= I64_MAX) by (unfold MAX_ARGS, MAX_BATCH_ITEMS, I64_MAX; lia).
    assert (0 < len args) by (destruct args; [done|unfold len; cbn; lia]).
    rewrite read_header_at by (done || lia). cbn [mbind Result_bind].
    rewrite (proj2 (Z.ltb_ge _ 0)), (proj2 (Z.ltb_ge _ _)), (proj2 (Z.eqb_neq _ 0)) by lia. cbn [orb].
    set (h := a ++ ARRAY_PREFIX :: u64_text (len args) ++ CRLF).
    assert (length a + 1 + length (u64_text (len args)) + 2 = length h)%nat as ->.
    { unfold h. rewrite length_app. cbn. rewrite length_app. cbn. lia. }
    replace (a ++ ARRAY_PREFIX :: u64_text (len args) ++ CRLF ++ concat (bulk_of <$> args) ++ rest)
      with (h ++ concat (bulk_of <$> args) ++ rest) by (unfold h; by rewrite <- app_assoc; cbn [app]; rewrite <- app_assoc).
    unfold len. rewrite Nat2Z.id.
    destruct (args_with_capacity_ok (length args)) as [Hok Hs].
    destruct (read_args_at h args _ rest Hok Hall) as (args' & E & Ea). rewrite E. cbn [mbind Result_bind].
    rewrite Ea, Hs. unfold frame_pair. cbn [app].
    do 3 f_equal. unfold h. by rewrite <- !app_assoc; cbn [app]; rewrite <- ?app_assoc.
  - change (a ++ empties (S n) ++ request args ++ rest)
      with (a ++ ARRAY_PREFIX :: u64_text 0 ++ CRLF ++ (empties n ++ request args ++ rest)).
    rewrite read_header_at by (done || (unfold I64_MAX; lia)). cbn [mbind Result_bind].
    change ((0 <? 0) || (MAX_ARGS <? 0)) with false. change (0 =? 0) with true. cbv iota.
    specialize (IH fuel ltac:(lia) (a ++ ARRAY_PREFIX :: u64_text 0 ++ CRLF)).
    replace (length a + 1 + length (u64_text 0) + 2)%nat with (length (a ++ ARRAY_PREFIX :: u64_text 0 ++ CRLF)) by
      (rewrite length_app; change (u64_text 0) with (bs "0"); cbn; lia).
    rewrite <- app_assoc in IH. rewrite <- (app_assoc _ (ARRAY_PREFIX :: u64_text 0 ++ CRLF)) in IH. exact IH.
Qed.

Lemma empties_length n : length (empties n) = (4 * n)%nat.
Proof. induction n as [|n IH]; [done|]. change (empties (S n)) with ((ARRAY_PREFIX :: bs "0" ++ CRLF) ++ empties n). rewrite length_app, IH. cbn. lia. Qed.

Lemma frame_request n args rest :
  frame_args args -> frame (empties n ++ request args ++ rest) frame_pair = Ok (Some (args, length (empties n ++ request args))).
Proof.
  intros H. unfold frame. apply (frame_loop_request _ [] n args rest H). rewrite !length_app, empties_length. lia.
Qed.

(** ** Options as a grammar *)

(** [words] are options that a loop of [step] takes from [s] to [s']: each a name
    and the arguments it has. *)
Inductive reads {S} (step : S -> bytes -> list bytes -> RParse (S * list bytes)) : S -> list bytes -> S -> Prop :=
| reads_nil s : reads step s [] s
| reads_option s name args s1 words s2 :
    (forall rest, step s name (args ++ rest) = Ok (s1, rest)) ->
    reads step s1 words s2 -> reads step s (name :: args ++ words) s2.

Lemma reads_options {S} step (s s' : S) words : reads step s words s' -> options step s words = Ok s'.
Proof.
  intros H. unfold options. assert (length words <= length words)%nat as Hf by done. revert Hf. generalize (length words) at 2 3.
  induction H as [s|s name args s1 words s2 Hs _ IH]; intros fuel Hf; [by destruct fuel|].
  cbn [length] in Hf. rewrite length_app in Hf. destruct fuel as [|fuel]; [lia|]. cbn [options_loop].
  rewrite Hs. cbn [mbind Result_bind]. apply IH. lia.
Qed.

Lemma reads_app {S} step (s s1 s2 : S) w1 w2 : reads step s w1 s1 -> reads step s1 w2 s2 -> reads step s (w1 ++ w2) s2.
Proof.
  induction 1 as [|s name args s3 words s4 Hs _ IH]; intros H2; [done|]. cbn [app]. rewrite <- app_assoc.
  eapply reads_option; [exact Hs|by apply IH].
Qed.

Lemma reads_one {S} step (s s' : S) name args :
  (forall rest, step s name (args ++ rest) = Ok (s', rest)) -> reads step s (name :: args) s'.
Proof. intros H. rewrite <- (app_nil_r args). eapply reads_option; [exact H|constructor]. Qed.

(** ** The canonical words of a command *)

Section Words.
Context {FT : FloatText}.

Definition condition_words (c : Condition) : list bytes :=
  match c with Cond_Always => [] | Cond_IfAbsent => [bs "NX"] | Cond_IfPresent => [bs "XX"] end.

Definition expiry_words (e : Expiry) : list bytes :=
  match e with
  | Expiry_Unset => []
  | Expiry_After millis => [bs "PX"; i64_text millis]
  | Expiry_At millis => [bs "PXAT"; i64_text millis]
  | Expiry_Keep => [bs "KEEPTTL"]
  | Expiry_Persist => [bs "PERSIST"]
  end.

Definition tag_words (tagged : bool) (tags : list bytes) : list bytes :=
  if tagged then i64_text (len tags) :: tags else [].

Definition flat_pairs (ps : list (bytes * bytes)) : list bytes := concat ((fun '(k, v) => [k; v]) <$> ps).

Definition number_text (n : RespNumber) : bytes :=
  match n with RNum_Int v => i64_text v | RNum_Float v => f64_display v end.

Definition bound_words (name : bytes) (b : option RespNumber) : list bytes :=
  match b with Some n => [name; number_text n] | None => [] end.

Definition flag_words (name : bytes) (b : bool) : list bytes := if b then [name] else [].

Definition expire_words (c : ExpireCondition) : list bytes :=
  match c with
  | Expire_Always => [] | Expire_IfPersistent => [bs "NX"] | Expire_IfVolatile => [bs "XX"]
  | Expire_IfLater => [bs "GT"] | Expire_IfEarlier => [bs "LT"]
  end.

(** A first word that names no section, or no section would mean the default. *)
Definition info_words (sections : Sections) : list bytes :=
  bs "none" :: (title <$> filter (fun s => sections_contain sections s = true) ALL_SECTIONS).

Definition words (c : RespCommand) : list bytes :=
  match c with
  | RC_Hello version auth =>
      bs "HELLO" :: match version with Some v => [i64_text v] | None => [] end
      ++ match auth with
         | Some (mkWireCredential name secret) => [bs "AUTH"; default [] name; secret]
         | None => []
         end
  | RC_Ping message => bs "PING" :: match message with Some m => [m] | None => [] end
  | RC_Quit => [bs "QUIT"]
  | RC_Auth (mkWireCredential name secret) => bs "AUTH" :: match name with Some n => [n] | None => [] end ++ [secret]
  | RC_Get key => [bs "GET"; key]
  | RC_Set set =>
      (if rs_tagged set then bs "SETTAGS" else bs "SET") :: rs_key set :: rs_value set
      :: tag_words (rs_tagged set) (rs_tags set)
      ++ condition_words (rs_condition set) ++ expiry_words (rs_expiry set) ++ flag_words (bs "GET") (rs_return_previous set)
  | RC_Delete keys => bs "DEL" :: keys
  | RC_MGet keys => bs "MGET" :: keys
  | RC_MSet ps => bs "MSET" :: flat_pairs ps
  | RC_MSetEx ps condition expiry tags tagged =>
      (if tagged then bs "MSETTAGS" else bs "MSETEX") :: i64_text (len ps)
      :: flat_pairs ps ++ tag_words tagged tags ++ condition_words condition ++ expiry_words expiry
  | RC_Exists keys => bs "EXISTS" :: keys
  | RC_Type key => [bs "TYPE"; key]
  | RC_Append key value => [bs "APPEND"; key; value]
  | RC_DelByTag tags => bs "DELBYTAG" :: tags
  | RC_Expire key expiry condition =>
      match expiry with
      | Expiry_At millis => [bs "EXPIREAT"; key; i64_text (millis / 1000)] ++ expire_words condition
      | Expiry_After millis => [bs "EXPIRE"; key; i64_text (millis / 1000)] ++ expire_words condition
      | _ => []
      end
  | RC_Persist key => [bs "PERSIST"; key]
  | RC_Ttl key => [bs "TTL"; key]
  | RC_Incr key delta => [if is_float delta then bs "INCRBYFLOAT" else bs "INCRBY"; key; number_text delta]
  | RC_IncrEx op =>
      bs "INCREX" :: ix_key op
      :: [if is_float (ix_delta op) then bs "BYFLOAT" else bs "BYINT"; number_text (ix_delta op)]
      ++ bound_words (bs "LBOUND") (ix_lower op) ++ bound_words (bs "UBOUND") (ix_upper op)
      ++ flag_words (bs "SATURATE") (ix_saturate op) ++ match ix_expiry op with Some e => expiry_words e | None => [] end
      ++ flag_words (bs "ENX") (ix_only_if_persistent op)
  | RC_Scan scan =>
      [bs "SCAN"; u64_text (sc_token scan); bs "MATCH"; sc_pattern scan; bs "COUNT"; i64_text (sc_count scan);
       bs "TYPE"; if sc_only_strings scan then bs "string" else bs "none"]
  | RC_Info sections => bs "INFO" :: info_words sections
  | RC_Slowlog (Slowlog_Get count) =>
      [bs "SLOWLOG"; bs "GET"] ++ match count with Some n => [i64_text n] | None => [] end
  | RC_Slowlog Slowlog_Len => [bs "SLOWLOG"; bs "LEN"]
  | RC_Slowlog Slowlog_Reset => [bs "SLOWLOG"; bs "RESET"]
  | RC_Slowlog Slowlog_Help => [bs "SLOWLOG"; bs "HELP"]
  end.

(** The float's own text reads back as the float. *)
Definition readable_number (n : RespNumber) : Prop :=
  match n with RNum_Float v => parse_float (f64_display v) = Some v | RNum_Int _ => True end.

Definition readable_bound (b : option RespNumber) : Prop :=
  match b with Some n => readable_number n | None => True end.

(** What the words can say: [HELLO] authenticates only with a version, tags come
    with the verb that takes them, [EXPIRE] counts in seconds, and a float is
    one whose text says so. *)
Definition sayable (c : RespCommand) : Prop :=
  match c with
  | RC_Hello version auth =>
      match auth with Some cred => version <> None /\ wc_name cred <> None | None => True end
  | RC_Set set => rs_tagged set = false -> rs_tags set = []
  | RC_MSetEx _ _ _ tags tagged => tagged = false -> tags = []
  | RC_Expire _ expiry _ =>
      match expiry with Expiry_At millis | Expiry_After millis => millis mod 1000 = 0 | _ => False end
  | RC_Incr _ delta => readable_number delta
  | RC_IncrEx op =>
      readable_number (ix_delta op) /\ readable_bound (ix_lower op) /\ readable_bound (ix_upper op)
      /\ bounds_cross (ix_lower op) (ix_upper op) = false
      /\ (ix_only_if_persistent op = true -> has_deadline (ix_expiry op) = true)
  | RC_Scan scan => has_unescaped_class (sc_pattern scan) = false
  | _ => True
  end.

Variable n : nat.

Lemma argument_int v reply : I64_MIN <= v <= I64_MAX -> or_fail n (parse_int (i64_text v)) reply = Ok v.
Proof. intros H. by rewrite i64_text_parse. Qed.

Lemma reads_condition is_set name c e p :
  reads (write_step n is_set name) (mkWriteOptions Cond_Always e p) (condition_words c) (mkWriteOptions c e p).
Proof. destruct c; [constructor|by apply reads_one..]. Qed.

Lemma expiry_parsed name keep e rest :
  write_expiry e -> e <> Expiry_Unset -> e <> Expiry_Persist -> (e = Expiry_Keep -> keep = true) ->
  match expiry_words e with
  | token :: args => option_expiry n name keep token (args ++ rest) = Ok (Some e, rest)
  | [] => False
  end.
Proof.
  intros H Hu Hp Hk. destruct e as [|m|m| |]; try done; cbn [expiry_words app write_expiry] in *.
  1, 2: unfold option_expiry; rewrite andb_comm; cbn [option_argument mbind Result_bind];
    match goal with |- (if ?b && _ then _ else _) = _ => change b with false end; cbn [andb].
  1: change (expiry_unit (bs "PX")) with (Some (1, false)). 2: change (expiry_unit (bs "PXAT")) with (Some (1, true)).
  1, 2: cbn [option_argument mbind Result_bind]; rewrite argument_int by (unfold I64_MIN; lia); cbn [mbind Result_bind];
    rewrite Z.mul_1_r, (proj2 (checked_i64_Some m m)) by (unfold I64_MIN; lia); cbn [mbind option_bind];
    by rewrite (proj2 (Z.ltb_lt 0 m)) by lia.
  by rewrite Hk by done.
Qed.

Lemma reads_expiry is_set name c e p :
  write_expiry e -> e <> Expiry_Persist ->
  reads (write_step n is_set name) (mkWriteOptions c Expiry_Unset p) (expiry_words e) (mkWriteOptions c e p).
Proof.
  intros H Hp. destruct (decide (e = Expiry_Unset)) as [->|Hu]; [constructor|].
  pose proof (fun rest => expiry_parsed name true e rest H Hu Hp (fun _ => eq_refl)) as He.
  destruct (expiry_words e) as [|token args] eqn:Ew; [by specialize (He [])|]. apply reads_one. intros rest.
  unfold write_step. rewrite He.
  assert (eq_ignore_case token (bs "NX") = false /\ eq_ignore_case token (bs "XX") = false
          /\ eq_ignore_case token (bs "GET") = false) as (-> & -> & ->) by (by destruct e; simplify_eq Ew; intros; subst).
  by rewrite andb_false_r.
Qed.

Lemma reads_get name c e b :
  reads (write_step n true name) (mkWriteOptions c e false) (flag_words (bs "GET") b) (mkWriteOptions c e b).
Proof. destruct b; [by apply reads_one|constructor]. Qed.

Lemma check_tags tags : Forall resp_tag tags -> collect (check_tag n) tags = Ok tags.
Proof.
  induction 1 as [|t tags [H1 H2] _ IH]; [done|]. cbn [collect].
  assert (check_tag n t = Ok t) as ->; [|by rewrite IH].
  unfold check_tag. rewrite bool_decide_eq_false_2 by (intros ->; unfold len in H1; cbn in H1; lia).
  by rewrite (proj2 (Z.ltb_ge _ _)) by lia.
Qed.

Lemma tags_read pre tags rest name tagged :
  resp_tags tags -> (tagged_yes tagged = false -> tags = []) ->
  tag_list n (pre ++ tag_words (tagged_yes tagged) tags ++ rest) (length pre) tagged name
  = Ok (tags, length (pre ++ tag_words (tagged_yes tagged) tags)).
Proof.
  intros [Ht Hl] Hy. unfold tag_list. destruct tagged; cbn [tagged_yes negb tag_words] in *.
  { rewrite Hy by done. by rewrite app_nil_r. }
  cbn [app]. unfold arg. rewrite list_lookup_middle by done. cbn [expect mbind Result_bind].
  pose proof (len_nonneg tags). assert (ABSOLUTE_MAX_TAGS <= I64_MAX /\ I64_MIN <= 0) as [? ?] by done.
  rewrite argument_int by lia. cbn [mbind Result_bind].
  rewrite (proj2 (Z.ltb_ge _ 0)), (proj2 (Z.ltb_ge _ _)) by lia. cbv zeta.
  replace (Z.to_nat (len tags)) with (length tags) by (unfold len; lia).
  rewrite (proj2 (Nat.ltb_ge _ _)) by (rewrite length_app; cbn; rewrite length_app; lia).
  replace (drop (length pre + 1) (pre ++ i64_text (len tags) :: tags ++ rest)) with (tags ++ rest).
  2:{ rewrite drop_app_ge, Nat.add_comm, Nat.add_sub by lia. done. }
  rewrite take_app_length' by lia. rewrite check_tags by done. cbn. do 2 f_equal. rewrite length_app. cbn. lia.
Qed.

(** ** Each command reads back *)

Abbreviation says args c := (parse_command n args = Ok (mkRespParsed c n)).

Lemma at_least_ok args m name : (m <= length args)%nat -> at_least n args m name = Ok args.
Proof. intros H. unfold at_least. by rewrite (proj2 (Nat.ltb_ge _ _)) by lia. Qed.

Lemma says_set set : resp_command (RC_Set set) -> sayable (RC_Set set) -> says (words (RC_Set set)) (RC_Set set).
Proof.
  destruct set as [key value c e p tags tagged]. intros (He & Hp & Ht) Hy. cbn in He, Hp, Ht, Hy.
  set (w := words _). set (tg := if tagged then Tagged_Yes else Tagged_No).
  assert (tagged = tagged_yes tg) as Etg by (by destruct tagged).
  assert (parse_command n w = parsed ← parse_set n w tg; Ok (mkRespParsed parsed n)) as -> by (by destruct tagged).
  set (name := pick tg "set"%str "settags"%str).
  assert (reads (write_step n true name) WriteOptions_default
            (condition_words c ++ expiry_words e ++ flag_words (bs "GET") p) (mkWriteOptions c e p)) as Hr.
  { eapply reads_app; [apply reads_condition|]. eapply reads_app; [by apply reads_expiry|apply reads_get]. }
  unfold parse_set. cbv zeta. fold name.
  assert (w = [if tagged then bs "SETTAGS" else bs "SET"; key; value] ++ tag_words (tagged_yes tg) tags
              ++ (condition_words c ++ expiry_words e ++ flag_words (bs "GET") p)) as Ew by (by rewrite <- Etg).
  rewrite at_least_ok by (rewrite Ew; destruct tagged; cbn; lia). cbn [mbind Result_bind].
  rewrite Ew, (tags_read [_; key; value] tags _ name tg Ht) by (by rewrite <- Etg). cbn [mbind Result_bind].
  cbn [arg app lookup list_lookup expect mbind Result_bind]. 
  rewrite <- (app_comm_cons _ _ value), <- (app_comm_cons _ _ key), <- (app_comm_cons _ _ (if tagged then _ else _)) || idtac.
  match goal with |- context [drop (length ?pre) ?l] => replace (drop (length pre) l) with
    (condition_words c ++ expiry_words e ++ flag_words (bs "GET") p) end.
  2:{ cbn [length drop]. by rewrite drop_app_length. }
  rewrite (reads_options _ _ _ _ Hr). cbn. by rewrite <- Etg.
Qed.

Lemma pairs_of_flat ps : pairs_of (flat_pairs ps) = ps.
Proof. induction ps as [|[k v] ps IH]; [done|]. cbn. by f_equal. Qed.

Lemma flat_pairs_length ps : length (flat_pairs ps) = (length ps * 2)%nat.
Proof. induction ps as [|[k v] ps IH]; [done|]. cbn. f_equal. by f_equal. Qed.

Lemma says_msetex ps c e tags tagged :
  resp_command (RC_MSetEx ps c e tags tagged) -> sayable (RC_MSetEx ps c e tags tagged) ->
  says (words (RC_MSetEx ps c e tags tagged)) (RC_MSetEx ps c e tags tagged).
Proof.
  intros (Hn & He & Hp & Ht) Hy. cbn in Hn, He, Hp, Ht, Hy.
  set (w := words _). set (tg := if tagged then Tagged_Yes else Tagged_No).
  assert (tagged = tagged_yes tg) as Etg by (by destruct tagged).
  assert (parse_command n w = parsed ← parse_msetex n w tg; Ok (mkRespParsed parsed n)) as -> by (by destruct tagged).
  set (name := pick tg "msetex"%str "msettags"%str).
  set (opts := condition_words c ++ expiry_words e).
  assert (reads (write_step n false name) WriteOptions_default opts (mkWriteOptions c e false)) as Hr.
  { eapply reads_app; [apply reads_condition|by apply reads_expiry]. }
  unfold parse_msetex. cbv zeta. fold name.
  set (pre := (if tagged then bs "MSETTAGS" else bs "MSETEX") :: i64_text (len ps) :: flat_pairs ps).
  assert (w = pre ++ tag_words (tagged_yes tg) tags ++ opts) as Ew by (by rewrite <- Etg).
  assert (length pre = 2 + length ps * 2)%nat as Hpre by (cbn; by rewrite flat_pairs_length).
  assert (if tagged then 1 <= length (tag_words (tagged_yes tg) tags) else True)%nat by (rewrite <- Etg; destruct tagged; cbn; (done || lia)).
  unfold len in Hn.
  rewrite at_least_ok by (rewrite Ew, !length_app, Hpre, <- Etg; destruct tagged; cbn in *; lia). cbn [mbind Result_bind].
  assert (arg w 1 = Ok (i64_text (len ps))) as -> by (by rewrite Ew). cbn [mbind Result_bind].
  rewrite argument_int by (unfold len, MAX_BATCH_ITEMS, I64_MIN, I64_MAX in *; lia). cbn [mbind Result_bind].
  unfold len. rewrite (proj2 (Z.leb_gt _ _)), (proj2 (Z.ltb_ge _ _)), Nat2Z.id, <- Hpre by lia.
  rewrite Ew, (proj2 (Nat.ltb_ge _ _)) by (rewrite length_app; lia).
  rewrite (tags_read pre tags opts name tg Ht) by (by rewrite <- Etg). cbn [mbind Result_bind].
  rewrite app_assoc, drop_app_length, (reads_options _ _ _ _ Hr). cbn [mbind Result_bind wo_condition wo_expiry].
  rewrite <- app_assoc. assert (take (length pre - 2) (drop 2 (pre ++ tag_words (tagged_yes tg) tags ++ opts)) = flat_pairs ps) as ->.
  { cbn. by rewrite Nat.sub_0_r, drop_0, take_app_length. }
  by rewrite pairs_of_flat, <- Etg.
Qed.

Lemma says_expire key e c :
  resp_command (RC_Expire key e c) -> sayable (RC_Expire key e c) -> says (words (RC_Expire key e c)) (RC_Expire key e c).
Proof.
  intros (m & He & Hm) Hs. assert (m mod 1000 = 0) as Hmod by (by destruct He as [->| ->]). clear Hs.
  pose proof (Z.div_mod m 1000 ltac:(lia)) as Hd. assert (m = m / 1000 * 1000) as Hmm by lia.
  assert (I64_MIN <= m / 1000 <= I64_MAX) as Hr by (unfold in_i64_range, I64_MIN, I64_MAX in *; lia).
  assert (forall reply, or_fail n (checked_i64 (m / 1000 * 1000)) reply = Ok m) as Hc.
  { intros reply. by rewrite <- Hmm, (proj2 (checked_i64_Some m m)). }
  destruct He as [->| ->]; cbn [words];
    match goal with |- parse_command n ?w = _ =>
      let abs := match w with context [bs "EXPIREAT"] => constr:(true) | _ => constr:(false) end in
      let name := match w with context [bs "EXPIREAT"] => constr:("expireat"%str) | _ => constr:("expire"%str) end in
      change (parse_command n w) with (parsed ← parse_expire n w name abs; Ok (mkRespParsed parsed n)) end;
    unfold parse_expire; rewrite at_least_ok by (cbn; lia);
    cbn [arg app lookup list_lookup expect mbind Result_bind]; rewrite argument_int by done; cbn [mbind Result_bind];
    rewrite Hc; cbn [mbind Result_bind]; by destruct c.
Qed.

(** *** INCREX *)

Lemma number_said d m :
  resp_number m -> readable_number m -> is_float m = d -> number_as n d (number_text m) = Ok m.
Proof.
  intros Hm Hr <-. unfold number_as. destruct m as [v|v]; cbn [resp_number readable_number number_text is_float] in *.
  - by rewrite argument_int.
  - by rewrite Hr.
Qed.

Lemma bound_said delta b :
  resp_bound delta b -> readable_bound b -> bound_of n delta (number_text <$> b) = Ok b.
Proof. destruct b as [m|]; [|done]. intros [Hm Hf] Hr. cbn. by rewrite number_said. Qed.

Lemma says_increx op : resp_command (RC_IncrEx op) -> sayable (RC_IncrEx op) -> says (words (RC_IncrEx op)) (RC_IncrEx op).
Proof.
  destruct op as [key delta lo up sat e enx]. intros (Hd & Hlo & Hup & He) (Rd & Rlo & Rup & Hx & Henx).
  cbn [ix_delta ix_lower ix_upper ix_expiry ix_only_if_persistent] in Hd, Hlo, Hup, He, Rd, Rlo, Rup, Hx, Henx.
  set (o1 := mkIncrExOptions (Some delta) None None false None false).
  set (o2 := mkIncrExOptions (Some delta) (number_text <$> lo) None false None false).
  set (o3 := mkIncrExOptions (Some delta) (number_text <$> lo) (number_text <$> up) false None false).
  set (o4 := mkIncrExOptions (Some delta) (number_text <$> lo) (number_text <$> up) sat None false).
  set (o5 := mkIncrExOptions (Some delta) (number_text <$> lo) (number_text <$> up) sat e false).
  set (o6 := mkIncrExOptions (Some delta) (number_text <$> lo) (number_text <$> up) sat e enx).
  assert (reads (increx_step n) IncrExOptions_default [if is_float delta then bs "BYFLOAT" else bs "BYINT"; number_text delta] o1) as R1.
  { apply reads_one. intros rest. pose proof (number_said (is_float delta) delta Hd Rd eq_refl) as E.
    destruct delta; cbn [is_float] in *; unfold increx_step, IncrExOptions_default; cbv zeta beta iota.
    - change (eq_ignore_case (bs "BYINT") (bs "BYINT")) with true. cbn [orb negb once option_argument app mbind Result_bind]. by rewrite E.
    - change (eq_ignore_case (bs "BYFLOAT") (bs "BYINT")) with false. change (eq_ignore_case (bs "BYFLOAT") (bs "BYFLOAT")) with true.
      cbn [orb negb once option_argument app mbind Result_bind]. by rewrite E. }
  assert (reads (increx_step n) o1 (bound_words (bs "LBOUND") lo) o2) as R2.
  { destruct lo as [m|]; [|constructor]. by apply reads_one. }
  assert (reads (increx_step n) o2 (bound_words (bs "UBOUND") up) o3) as R3.
  { destruct up as [m|]; [|constructor]. by apply reads_one. }
  assert (reads (increx_step n) o3 (flag_words (bs "SATURATE") sat) o4) as R4.
  { destruct sat; [|constructor]. by apply reads_one. }
  assert (reads (increx_step n) o4 (match e with Some e => expiry_words e | None => [] end) o5) as R5.
  { destruct e as [e|]; [|constructor]. destruct He as (He & Hu & Hk).
    destruct (decide (e = Expiry_Persist)) as [->|Hp]; [by apply reads_one|].
    pose proof (fun rest => expiry_parsed "increx"%str false e rest He Hu Hp (fun H => match Hk H with end)) as Hrest.
    destruct (expiry_words e) as [|token args] eqn:Ew; [by specialize (Hrest [])|]. apply reads_one. intros rest.
    assert (token = bs "PX" \/ token = bs "PXAT") as Ht by (destruct e; cbn in Ew; simplify_eq; auto).
    unfold increx_step, o4. destruct Ht as [-> | ->]; rewrite Hrest; reflexivity. }
  assert (reads (increx_step n) o5 (flag_words (bs "ENX") enx) o6) as R6.
  { destruct enx; [|constructor]. by apply reads_one. }
  assert (reads (increx_step n) IncrExOptions_default
    ([if is_float delta then bs "BYFLOAT" else bs "BYINT"; number_text delta]
      ++ bound_words (bs "LBOUND") lo ++ bound_words (bs "UBOUND") up ++ flag_words (bs "SATURATE") sat
      ++ match e with Some e => expiry_words e | None => [] end ++ flag_words (bs "ENX") enx) o6) as R.
  { repeat (eapply reads_app; [eassumption|]). eassumption. }
  set (opts := _ ++ _) in R. change (words _) with (bs "INCREX" :: key :: opts).
  change (parse_command n (bs "INCREX" :: key :: opts))
    with (parsed ← parse_increx n (bs "INCREX" :: key :: opts); Ok (mkRespParsed parsed n)).
  unfold parse_increx. rewrite at_least_ok by (cbn; lia). cbn [mbind Result_bind drop].
  rewrite drop_0, (reads_options _ _ _ _ R). cbn [mbind Result_bind o6 io_delta io_lower io_upper default].
  rewrite !bound_said by done. cbn [mbind Result_bind]. rewrite Hx.
  cbn [o6 io_only_if_persistent io_expiry io_saturate].
  destruct enx; [rewrite Henx by done|]; done.
Qed.

(** *** The rest *)

Lemma variadic_said args name f : args <> [] -> forall verb, variadic n (verb :: args) name f = Ok (f args).
Proof. intros H verb. unfold variadic. rewrite at_least_ok by (destruct args; [done|cbn; lia]). done. Qed.

Definition info_reads (s : Sections) : bool :=
  match parse_info (bs "INFO" :: info_words s) with RC_Info v => v =? s | _ => false end.

Lemma info_masks_read : forallb (fun i => info_reads (Z.of_nat i)) (seq 0 512) = true.
Proof. vm_compute. reflexivity. Qed.

Lemma info_said s : fits 9 s -> parse_info (bs "INFO" :: info_words s) = RC_Info s.
Proof.
  intros [H0 H]. pose proof (proj1 (forallb_forall _ _) info_masks_read (Z.to_nat s)) as Hm.
  assert (In (Z.to_nat s) (seq 0 512)) as Hin by (apply in_seq; change (2 ^ 9) with 512 in H; lia).
  specialize (Hm Hin). cbv beta in Hm. rewrite Z2Nat.id in Hm by done. unfold info_reads in Hm.
  unfold parse_info in *. apply Z.eqb_eq in Hm. by rewrite Hm.
Qed.

Lemma scan_said scan :
  fits 64 (sc_token scan) -> 1 <= sc_count scan <= MAX_LIST_LIMIT -> validate (sc_pattern scan) = Ok () ->
  has_unescaped_class (sc_pattern scan) = false -> says (words (RC_Scan scan)) (RC_Scan scan).
Proof.
  destruct scan as [token pattern count only]. cbn [sc_token sc_count sc_pattern]. intros Ht Hc Hv Hx.
  assert (reads (scan_step n) (mkScan token [] 10 true)
    ([bs "MATCH"; pattern] ++ [bs "COUNT"; i64_text count] ++ [bs "TYPE"; if only then bs "string" else bs "none"])
    (mkScan token pattern count only)) as R.
  { eapply (reads_app _ _ (mkScan token pattern 10 true)).
    { apply reads_one. intros rest. unfold scan_step. change (eq_ignore_case (bs "MATCH") (bs "MATCH")) with true.
      cbn [option_argument app mbind Result_bind]. rewrite Hx, Hv. done. }
    eapply (reads_app _ _ (mkScan token pattern count true)).
    { apply reads_one. intros rest. unfold scan_step. change (eq_ignore_case (bs "COUNT") (bs "MATCH")) with false.
      change (eq_ignore_case (bs "COUNT") (bs "COUNT")) with true. cbn [option_argument app mbind Result_bind].
      rewrite argument_int by (unfold MAX_LIST_LIMIT, I64_MIN, I64_MAX in *; lia). cbn [mbind Result_bind sc_token sc_pattern sc_only_strings].
      by rewrite (proj2 (Z.leb_gt _ _)), Z.min_l by lia. }
    apply reads_one. by destruct only. }
  change ((parsed ← parse_scan n ([bs "SCAN"; u64_text token] ++ ([bs "MATCH"; pattern] ++ [bs "COUNT"; i64_text count]
            ++ [bs "TYPE"; if only then bs "string" else bs "none"])); Ok (mkRespParsed parsed n))
          = Ok (mkRespParsed (RC_Scan (mkScan token pattern count only)) n)).
  unfold parse_scan. rewrite at_least_ok by (cbn; lia). cbn [mbind Result_bind arg app lookup list_lookup expect].
  rewrite digits_utf8 by (apply u64_text_digits; width). cbn [mbind option_bind].
  rewrite u64_text_roundtrip by done. cbn [or_fail ok_or mbind Result_bind drop].
  cbn [app] in R. rewrite (reads_options _ _ _ _ R). done.
Qed.

Lemma words_say c : resp_command c -> sayable c -> says (words c) c.
Proof.
  intros H Hs. destruct c as [version auth|message| |[name secret]|key|set|keys|keys|ps|ps c e tags tagged|keys|key|key value
                             |tags|key e c|key|key|key delta|op|scan|sections|sub].
  - destruct version as [v|], auth as [[[name|] secret]|]; try done; try (by destruct Hs as [? ?]).
    all: cbn in H; cbn [words app default]; unfold parse_command;
      cbn [arg lookup list_lookup expect mbind Result_bind];
      match goal with |- context [parse_verb n _ _ ?w] => change (parse_verb n (upper_verb (bs "HELLO")) (bs "HELLO") w) with (parse_hello n w) end;
      unfold parse_hello; cbn [lookup list_lookup]; rewrite argument_int by done; reflexivity.
  - by destruct message.
  - done.
  - by destruct name.
  - done.
  - by apply says_set.
  - change ((parsed ← variadic n (bs "DEL" :: keys) "del"%str RC_Delete; Ok (mkRespParsed parsed n)) = Ok (mkRespParsed (RC_Delete keys) n)).
    by rewrite variadic_said.
  - change ((parsed ← variadic n (bs "MGET" :: keys) "mget"%str RC_MGet; Ok (mkRespParsed parsed n)) = Ok (mkRespParsed (RC_MGet keys) n)).
    by rewrite variadic_said.
  - change ((parsed ← parse_mset n (bs "MSET" :: flat_pairs ps); Ok (mkRespParsed parsed n)) = Ok (mkRespParsed (RC_MSet ps) n)).
    unfold parse_mset. rewrite at_least_ok by (destruct ps as [|[k v] ps]; [done|cbn; lia]). cbn [mbind Result_bind length].
    rewrite flat_pairs_length. replace (S (length ps * 2))%nat with (1 + length ps * 2)%nat by lia.
    rewrite Nat.Div0.mod_add. cbn [Nat.modulo Nat.divmod Nat.eqb negb fst snd drop Nat.sub]. rewrite drop_0. by rewrite pairs_of_flat.
  - by apply says_msetex.
  - change ((parsed ← variadic n (bs "EXISTS" :: keys) "exists"%str RC_Exists; Ok (mkRespParsed parsed n)) = Ok (mkRespParsed (RC_Exists keys) n)).
    by rewrite variadic_said.
  - done.
  - done.
  - destruct H as [Hn Ht]. 
    change ((parsed ← (args ← at_least n (bs "DELBYTAG" :: tags) 2 "delbytag"%str; tags ← collect (check_tag n) (drop 1 args);
              Ok (RC_DelByTag tags)); Ok (mkRespParsed parsed n)) = Ok (mkRespParsed (RC_DelByTag tags) n)).
    rewrite at_least_ok by (destruct tags; [done|cbn; lia]). cbn [mbind Result_bind drop]. by rewrite drop_0, check_tags.
  - by apply says_expire.
  - done.
  - done.
  - destruct delta as [v|v]; cbn [words is_float number_text].
    + change ((parsed ← parse_incrby n false [bs "INCRBY"; key; i64_text v]; Ok (mkRespParsed parsed n))
              = Ok (mkRespParsed (RC_Incr key (RNum_Int v)) n)).
      unfold parse_incrby. cbn [exactly length Nat.eqb negb mbind Result_bind arg lookup list_lookup expect].
      by rewrite argument_int.
    + change ((parsed ← (delta ← or_fail n (parse_float (f64_display v)) NOT_A_FLOAT; Ok (RC_Incr key (RNum_Float delta)));
              Ok (mkRespParsed parsed n)) = Ok (mkRespParsed (RC_Incr key (RNum_Float v)) n)).
      cbn in Hs. by rewrite Hs.
  - by apply says_increx.
  - destruct H as (H1 & H2 & H3). by apply scan_said.
  - change ((Ok (mkRespParsed (parse_info (bs "INFO" :: info_words sections)) n) : RParse RespParsed) = Ok (mkRespParsed (RC_Info sections) n)).
    by rewrite info_said.
  - destruct sub as [[m|]| | |]; try done.
    change ((parsed ← (parsed ← (count ← or_fail n (m ← parse_int (i64_text m); if -1 <=? m then Some m else None)
                       (Er_Err "count should be greater than or equal to -1"%str); Ok (Slowlog_Get (Some count)));
              Ok (RC_Slowlog parsed)); Ok (mkRespParsed parsed n)) = Ok (mkRespParsed (RC_Slowlog (Slowlog_Get (Some m))) n)).
    cbn in H. rewrite i64_text_parse by (unfold I64_MIN, I64_MAX in *; lia). cbn [mbind option_bind].
    by rewrite (proj2 (Z.leb_le _ _)) by lia.
Qed.

End Words.

(** C27 Requests read back.  A well-formed command in its canonical words, sent as
    an array of bulk strings, parses to that command and to the length of what
    was sent, whatever bytes its keys, values, tags and patterns hold, after any
    number of empty arrays and whatever follows in the buffer. *)
Theorem resp_request_roundtrip {FT : FloatText} c empty rest :
  resp_command c -> sayable c -> frame_args (words c) ->
  resp_parse (empties empty ++ request (words c) ++ rest)
  = Ok (Resp_Command (mkRespParsed c (length (empties empty ++ request (words c))))).
Proof. intros Hc Hs Hf. by rewrite resp_parse_walk, frame_request, words_say. Qed.
