(* ===== verification/RespEncode.v ===== *)
(** [vash-proto/src/resp/encode.rs]: rendering replies in either version of the
    protocol, and [INFO].  An encoder takes the buffer written so far and returns
    it with the reply appended.

    What the build and the platform fix ([env!], [std::env::consts]) and the two
    decimals of a [f64] that [format!] writes are the class [BuildInfo]. *)

From S2P Require Import Prelude Bytes Text Core Record Glob Tags Command Arith Resp RespCommand.

#[local] Delimit Scope string_scope with str.

Definition RESP_VERSION : bytes := bs "7.4.0-vash".

Definition OK_LINE : bytes := bs "+OK" ++ CRLF.

Definition simple (out text : bytes) : bytes := out ++ bs "+" ++ text ++ CRLF.

Definition ok (out : bytes) : bytes := out ++ OK_LINE.

(** [encode::error]. *)
Definition error_line (out : bytes) (code message : bytes) : bytes :=
  out ++ bs "-" ++ code ++ [SPACE] ++ message ++ CRLF.

Definition hex_lower (n : Z) : byte := nth (Z.to_nat n) (bs "0123456789abcdef") "0"%byte.

(** One byte of an echoed name, harmless. *)
Definition escape_byte (b : byte) : bytes :=
  if bool_decide (b = CR) then bs "\r"
  else if bool_decide (b = LF) then bs "\n"
  else if bool_decide (b = "'"%byte \/ b = "\"%byte) then ["\"%byte; b]
  else if in_range 32 126 b then [b]
  else bs "\x" ++ [hex_lower (Z.shiftr (byte_val b) 4); hex_lower (Z.land (byte_val b) 15)].

Definition escape (out name : bytes) : bytes := out ++ concat (escape_byte <$> take 128 name).

Definition error_reply (out : bytes) (reply : ErrorReply) : bytes :=
  match reply with
  | Er_UnknownCommand name => escape (out ++ bs "-ERR unknown command '") name ++ bs "'" ++ CRLF
  | Er_WrongArity name =>
      error_line out (bs "ERR") (bs "wrong number of arguments for '" ++ bs name ++ bs "' command")
  | Er_InvalidExpire name => error_line out (bs "ERR") (bs "invalid expire time in '" ++ bs name ++ bs "' command")
  | Er_UnknownSubcommand container sub =>
      escape (out ++ bs "-ERR unknown subcommand '") sub ++ bs "'. Try " ++ bs container ++ bs " HELP." ++ CRLF
  | Er_Err message => error_line out (bs "ERR") (bs message)
  | Er_Coded code message => error_line out (bs code) (bs message)
  end.

Definition protocol_error (out : bytes) (detail : String.string) : bytes :=
  error_line out (bs "ERR") (bs "Protocol error: " ++ bs detail).

Definition integer (out : bytes) (value : Z) : bytes := out ++ bs ":" ++ i64_text value ++ CRLF.

(** [usize as i64], as every length below is. *)
Definition bulk (out b : bytes) : bytes := out ++ bs "$" ++ i64_text (as_i64 (len b)) ++ CRLF ++ b ++ CRLF.

Definition null (out : bytes) (version : Version) : bytes :=
  out ++ match version with Resp2 => bs "$-1" ++ CRLF | Resp3 => bs "_" ++ CRLF end.

Definition array (out : bytes) (n : Z) : bytes := out ++ bs "*" ++ i64_text (as_i64 n) ++ CRLF.

Definition double {FT : FloatText} (out : bytes) (value : f64) (version : Version) : bytes :=
  let text := format_float value in
  match version with
  | Resp2 => bulk out text
  | Resp3 => out ++ bs "," ++ text ++ CRLF
  end.

Definition hello (out : bytes) (version : Version) : bytes :=
  let out := match version with
             | Resp2 => array out (7 * 2)
             | Resp3 => out ++ bs "%" ++ i64_text 7 ++ CRLF
             end in
  let out := bulk out (bs "server") in
  let out := bulk out (bs "redis") in
  let out := bulk out (bs "version") in
  let out := bulk out RESP_VERSION in
  let out := bulk out (bs "proto") in
  let out := integer out (match version with Resp2 => 2 | Resp3 => 3 end) in
  let out := bulk out (bs "id") in
  let out := integer out 0 in
  let out := bulk out (bs "mode") in
  let out := bulk out (bs "standalone") in
  let out := bulk out (bs "role") in
  let out := bulk out (bs "master") in
  let out := bulk out (bs "modules") in
  array out 0.

Definition verbatim (out text : bytes) (version : Version) : bytes :=
  match version with
  | Resp2 => bulk out text
  | Resp3 => out ++ bs "=" ++ i64_text (as_i64 (len text + 4)) ++ CRLF ++ bs "txt:" ++ text ++ CRLF
  end.

(** ** INFO *)

Class BuildInfo := {
  bi_os : bytes;
  bi_arch : bytes;
  bi_version : bytes;
  (** [format!("{:.2}", v)] *)
  bi_two_decimals : f64 -> bytes
}.

Inductive Computed : Type := Comp_Os | Comp_UptimeInDays | Comp_UsedMemoryHuman | Comp_Keyspace.

Inductive Source : Type :=
| Src_Stat (name : bytes)
| Src_Literal (text : bytes)
| Src_Computed (what : Computed).

Section Info.
Context {BI : BuildInfo}.

(** The table, one section after another. *)
Definition FIELDS : list (Section_ * bytes * Source) :=
  [ (Sec_Server, bs "redis_version", Src_Literal RESP_VERSION);
    (Sec_Server, bs "redis_mode", Src_Literal (bs "standalone"));
    (Sec_Server, bs "os", Src_Computed Comp_Os);
    (Sec_Server, bs "arch_bits", Src_Stat (bs "pointer_size"));
    (Sec_Server, bs "process_id", Src_Stat (bs "pid"));
    (Sec_Server, bs "uptime_in_seconds", Src_Stat (bs "uptime"));
    (Sec_Server, bs "uptime_in_days", Src_Computed Comp_UptimeInDays);
    (Sec_Server, bs "vash_version", Src_Literal bi_version);
    (Sec_Clients, bs "connected_clients", Src_Stat (bs "curr_connections"));
    (Sec_Clients, bs "maxclients", Src_Stat (bs "max_connections"));
    (Sec_Clients, bs "blocked_clients", Src_Literal (bs "0"));
    (Sec_Memory, bs "used_memory", Src_Stat (bs "bytes"));
    (Sec_Memory, bs "used_memory_human", Src_Computed Comp_UsedMemoryHuman);
    (Sec_Memory, bs "maxmemory", Src_Stat (bs "limit_maxbytes"));
    (Sec_Memory, bs "maxmemory_policy", Src_Literal (bs "volatile-ttl"));
    (Sec_Persistence, bs "loading", Src_Literal (bs "0"));
    (Sec_Persistence, bs "rdb_bgsave_in_progress", Src_Literal (bs "0"));
    (Sec_Persistence, bs "aof_enabled", Src_Literal (bs "0"));
    (Sec_Stats, bs "total_connections_received", Src_Stat (bs "total_connections"));
    (Sec_Stats, bs "total_commands_processed", Src_Stat (bs "vash_commands"));
    (Sec_Stats, bs "rejected_connections", Src_Stat (bs "rejected_connections"));
    (Sec_Stats, bs "keyspace_hits", Src_Stat (bs "get_hits"));
    (Sec_Stats, bs "keyspace_misses", Src_Stat (bs "get_misses"));
    (Sec_Stats, bs "expired_keys", Src_Stat (bs "vash_reclaimed"));
    (Sec_Stats, bs "evicted_keys", Src_Stat (bs "evictions"));
    (Sec_Stats, bs "total_reads_processed", Src_Stat (bs "vash_reads"));
    (Sec_Stats, bs "total_writes_processed", Src_Stat (bs "vash_writes"));
    (Sec_Replication, bs "role", Src_Literal (bs "master"));
    (Sec_Replication, bs "connected_slaves", Src_Literal (bs "0"));
    (Sec_Cluster, bs "cluster_enabled", Src_Literal (bs "0"));
    (Sec_Keyspace, bs "db0", Src_Computed Comp_Keyspace) ].

(** [encode::find]. *)
Definition find_stat (stats : list (bytes * bytes)) (name : bytes) : option bytes :=
  snd <$> head (filter (fun entry => entry.1 = name) stats).

(** [str::parse::<u64>]. *)
Definition stat_u64 (stats : list (bytes * bytes)) (name : bytes) : option Z :=
  value ← find_stat stats name; text ← utf8_decode value; parse_u64 text.

Definition human_bytes (n : Z) : bytes :=
  let K := f64_of_int 1024 in
  let KK := SFmul 53 1024 K K in
  let KKK := SFmul 53 1024 KK K in
  let v := f64_of_int n in
  if n <? 1024 then u64_text n ++ bs "B"
  else if SFltb v KK then bi_two_decimals (f64_div v K) ++ bs "K"
  else if SFltb v KKK then bi_two_decimals (f64_div v KK) ++ bs "M"
  else bi_two_decimals (f64_div v KKK) ++ bs "G".

Definition compute (what : Computed) (stats : list (bytes * bytes)) : option bytes :=
  match what with
  | Comp_Os => Some (bi_os ++ [SPACE] ++ bi_arch)
  | Comp_UptimeInDays => uptime ← stat_u64 stats (bs "uptime"); Some (u64_text (uptime / 86400))
  | Comp_UsedMemoryHuman => used ← stat_u64 stats (bs "bytes"); Some (human_bytes used)
  | Comp_Keyspace =>
      keys ← stat_u64 stats (bs "curr_items");
      if keys =? 0 then None else Some (bs "keys=" ++ u64_text keys ++ bs ",avg_ttl=0")
  end.

Definition info_line (name value : bytes) : bytes := name ++ bs ":" ++ value ++ CRLF.

Definition field_value (source : Source) (stats : list (bytes * bytes)) : option bytes :=
  match source with
  | Src_Stat stat => find_stat stats stat
  | Src_Literal literal => Some literal
  | Src_Computed what => compute what stats
  end.

Definition starts_with (prefix name : bytes) : bool := bool_decide (take (length prefix) name = prefix).

Definition section_body (section : Section_) (stats : list (bytes * bytes)) : bytes :=
  if bool_decide (section = Sec_Vash) then
    foldl (fun body '(name, value) => body ++ info_line name value) (info_line (bs "vash_resp_tags") (bs "1"))
      (filter (fun entry => starts_with (bs "vash_") entry.1 = true) stats)
  else
    foldl (fun body '(_, name, source) =>
        match field_value source stats with
        | Some value => body ++ info_line name value
        | None => body
        end) [] (filter (fun field => field.1.1 = section) FIELDS).

Definition info_text (sections : Sections) (stats : list (bytes * bytes)) : bytes :=
  foldl (fun text section =>
      if negb (sections_contain sections section) then text
      else
        let body := section_body section stats in
        if bool_decide (body = []) then text
        else
          (if bool_decide (text = []) then text else text ++ CRLF)
          ++ bs "# " ++ title section ++ CRLF ++ body) [] ALL_SECTIONS.

Definition info (out : bytes) (sections : Sections) (stats : list (bytes * bytes)) (version : Version) : bytes :=
  verbatim out (info_text sections stats) version.

End Info.
