(* ===== verification/Scan.v ===== *)
(** [vash-server/src/scan.rs]: the table of tokens behind [SCAN] - what each
    token stands for, how long, and what the order of the table rests on.

    Times are milliseconds of a clock that does not run backwards. *)

From S2P Require Import Prelude Bytes Text Core.

Definition START : Z := 0.

Record ScanEntry := mkScanEntry { en_token : Z; en_cursor : bytes; en_issued : Z }.

(** [live] and [next]; [capacity] and [ttl] do not change. *)
Record ScanCursors := mkScanCursors {
  cu_live : list ScanEntry;
  cu_next : Z;
  cu_capacity : nat;
  cu_ttl : Z
}.

Definition ScanCursors_new (capacity : nat) (ttl : Z) : ScanCursors := mkScanCursors [] (START + 1) capacity ttl.

(** [Instant::elapsed]. *)
Definition elapsed (now issued : Z) : Z := Z.max 0 (now - issued).

Definition with_live (c : ScanCursors) (live : list ScanEntry) : ScanCursors :=
  mkScanCursors live (cu_next c) (cu_capacity c) (cu_ttl c).

(** The first statement of [issue], before the lock: [fetch_add]. *)
Definition draw (c : ScanCursors) : Z * ScanCursors :=
  (cu_next c, mkScanCursors (cu_live c) (wrapping 64 (cu_next c + 1)) (cu_capacity c) (cu_ttl c)).

(** [while front.is_some_and(expired) { pop_front }] *)
Fixpoint drop_expired (ttl now : Z) (live : list ScanEntry) : list ScanEntry :=
  match live with
  | entry :: rest => if ttl <=? elapsed now (en_issued entry) then drop_expired ttl now rest else live
  | [] => []
  end.

(** What [issue] does under the lock. *)
Definition record (c : ScanCursors) (entry : ScanEntry) (now : Z) : ScanCursors :=
  let live := cu_live c ++ [entry] in
  let live := drop (length live - cu_capacity c) live in
  with_live c (drop_expired (cu_ttl c) now live).

Definition issue (c : ScanCursors) (cursor : bytes) (now : Z) : Z * ScanCursors :=
  let '(token, c) := draw c in
  (token, record c (mkScanEntry token cursor now) now).

(** [binary_search_by_key], as the standard library searches a contiguous
    sequence: [size] entries from [base].  (Over a queue that wraps it first
    looks which of the two halves can hold the key, which for an ordered queue
    comes to the same.) *)
Fixpoint search_loop (fuel : nat) (live : list ScanEntry) (token : Z) (base size : nat) : nat :=
  match fuel with
  | O => base
  | S fuel' =>
      if (size <=? 1)%nat then base
      else
        let half := (size / 2)%nat in
        let mid := (base + half)%nat in
        let base := match live !! mid with
                    | Some entry => if token <? en_token entry then base else mid
                    | None => base
                    end in
        search_loop fuel' live token base (size - half)
  end.

Definition binary_search (live : list ScanEntry) (token : Z) : option nat :=
  let index := search_loop (length live) live token 0 (length live) in
  entry ← live !! index;
  if en_token entry =? token then Some index else None.

Definition resolve (c : ScanCursors) (token : Z) (now : Z) : option bytes :=
  index ← binary_search (cu_live c) token;
  entry ← cu_live c !! index;
  if elapsed now (en_issued entry) <? cu_ttl c then Some (en_cursor entry) else None.

(** ** What the order gives *)

(** Tokens strictly ascend, and every one was drawn: past [START], before
    [next].  There are no more than [capacity]. *)
Record Table (c : ScanCursors) : Prop := {
  ta_sorted : StronglySorted (fun a b => en_token a < en_token b) (cu_live c);
  ta_drawn : Forall (fun e => START < en_token e < cu_next c) (cu_live c);
  ta_next : START < cu_next c <= U64_MAX;
  ta_capacity : (length (cu_live c) <= cu_capacity c)%nat
}.

Lemma sorted_lookup (live : list ScanEntry) i j a b :
  StronglySorted (fun a b => en_token a < en_token b) live ->
  live !! i = Some a -> live !! j = Some b -> (i < j)%nat -> en_token a < en_token b.
Proof.
  intros Hs. revert i j. induction Hs as [|x l Hs IH Hx]; intros i j Ha Hb Hij; [done|].
  destruct j as [|j]; [lia|]. destruct i as [|i]; cbn in *.
  - injection Ha as ->. rewrite Forall_lookup in Hx. eauto.
  - eapply IH; eauto. lia.
Qed.

(** The search keeps what it looks for within the entries it has left. *)
Lemma search_loop_finds fuel live token base size i e :
  StronglySorted (fun a b => en_token a < en_token b) live ->
  live !! i = Some e -> en_token e = token -> (base <= i < base + size)%nat -> (size <= fuel + 1)%nat ->
  search_loop fuel live token base size = i.
Proof.
  intros Hs He Ht. revert base size. induction fuel as [|fuel IH]; intros base size Hi Hf; cbn [search_loop]; [lia|].
  destruct (Nat.leb_spec size 1); [lia|]. cbv zeta. set (half := (size / 2)%nat).
  assert (1 <= half < size)%nat as Hh.
  { subst half. split; [apply Nat.div_le_lower_bound; lia|apply Nat.div_lt_upper_bound; lia]. }
  destruct (live !! (base + half)%nat) as [m|] eqn:Em.
  - destruct (Z.ltb_spec token (en_token m)) as [Hlt|Hge].
    + apply IH; [|lia]. destruct (decide (i < base + half)%nat); [|exfalso].
      * subst half. pose proof (Nat.div_mod size 2 ltac:(lia)). lia.
      * destruct (decide (i = base + half)%nat) as [->|]; [simplify_eq; lia|].
        pose proof (sorted_lookup live (base + half) i m e Hs Em He ltac:(lia)). lia.
    + apply IH; [|lia]. destruct (decide (base + half <= i)%nat); [lia|exfalso].
      pose proof (sorted_lookup live i (base + half) e m Hs He Em ltac:(lia)). lia.
  - apply lookup_ge_None in Em. pose proof (lookup_lt_Some _ _ _ He).
    apply IH; [|lia]. subst half. pose proof (Nat.div_mod size 2 ltac:(lia)). lia.
Qed.

Lemma binary_search_exact live token i :
  StronglySorted (fun a b => en_token a < en_token b) live ->
  binary_search live token = Some i <-> exists e, live !! i = Some e /\ en_token e = token.
Proof.
  intros Hs. unfold binary_search. cbv zeta. split.
  - intros H. apply bind_Some in H as (e & He & H). destruct (Z.eqb_spec (en_token e) token); [|done].
    injection H as <-. eauto.
  - intros (e & He & Ht). pose proof (lookup_lt_Some _ _ _ He) as Hl.
    rewrite (search_loop_finds _ live token 0 (length live) i e) by (done || lia). rewrite He. cbn.
    by rewrite (proj2 (Z.eqb_eq _ _)).
Qed.

Lemma token_resolves c token now cursor :
  Table c ->
  resolve c token now = Some cursor
  <-> exists e, e ∈ cu_live c /\ en_token e = token /\ en_cursor e = cursor /\ elapsed now (en_issued e) < cu_ttl c.
Proof.
  intros [Hs _ _ _]. unfold resolve. split.
  - intros H. apply bind_Some in H as (i & Hi & H). apply (binary_search_exact _ _ _ Hs) in Hi as (e & He & Ht).
    rewrite He in H. cbn in H. destruct (Z.ltb_spec (elapsed now (en_issued e)) (cu_ttl c)); [|done]. injection H as <-.
    exists e. conjs; [by eapply list_elem_of_lookup_2|done..].
  - intros (e & He & Ht & Hc & Hx). apply list_elem_of_lookup_1 in He as [i He].
    rewrite (proj2 (binary_search_exact _ token i Hs)) by eauto. cbn. rewrite He. cbn.
    rewrite (proj2 (Z.ltb_lt _ _)) by done. by rewrite Hc.
Qed.

(** ** Issuing *)

Lemma drop_expired_suffix ttl now live : exists k, drop_expired ttl now live = drop k live.
Proof.
  induction live as [|e live [k IH]]; [by exists 0%nat|]. cbn [drop_expired]. destruct (_ <=? _).
  - by exists (S k).
  - by exists 0%nat.
Qed.

Lemma sorted_suffix k (live : list ScanEntry) :
  StronglySorted (fun a b => en_token a < en_token b) live ->
  StronglySorted (fun a b => en_token a < en_token b) (drop k live).
Proof. revert k. induction live as [|e live IH]; intros [|k] H; [done..|]. apply IH. by apply StronglySorted_inv in H as [H _]. Qed.

Lemma record_suffix c entry now :
  exists k, cu_live (record c entry now) = drop k (cu_live c ++ [entry]) /\ (length (cu_live c ++ [entry]) - cu_capacity c <= k)%nat.
Proof.
  unfold record, with_live. cbn [cu_live]. destruct (drop_expired_suffix (cu_ttl c) now
    (drop (length (cu_live c ++ [entry]) - cu_capacity c) (cu_live c ++ [entry]))) as [k ->].
  rewrite drop_drop. eexists. split; [done|lia].
Qed.

Lemma issue_Table c cursor now : cu_next c < U64_MAX -> Table c -> Table (issue c cursor now).2.
Proof.
  intros Hn [Hs Hd Hx Hc]. unfold issue, draw. cbn [snd fst].
  assert (wrapping 64 (cu_next c + 1) = cu_next c + 1) as Hw.
  { unfold wrapping. apply Z.mod_small. unfold START in Hx. width. }
  set (e := mkScanEntry (cu_next c) cursor now). set (c1 := mkScanCursors _ _ _ _).
  destruct (record_suffix c1 e now) as (k & Hl & Hk). cbn [cu_live c1] in Hl, Hk.
  assert (StronglySorted (fun a b => en_token a < en_token b) (cu_live c ++ [e])) as Hs'.
  { apply StronglySorted_app. conjs; [|done|constructor; [constructor|by apply Forall_nil]].
    intros a b Ha ->%list_elem_of_singleton. rewrite Forall_forall in Hd. apply Hd in Ha. cbn. lia. }
  split.
  - rewrite Hl. by apply sorted_suffix.
  - rewrite Hl. apply Forall_drop. apply Forall_app. split.
    + eapply Forall_impl; [exact Hd|]. cbn. rewrite Hw. lia.
    + apply Forall_singleton. cbn. rewrite Hw. lia.
  - cbn. rewrite Hw. unfold START in *. lia.
  - rewrite Hl, length_drop. cbn [record with_live cu_capacity c1] in *. lia.
Qed.

(** Later tokens, each a position and the time it was issued. *)
Definition issues (c : ScanCursors) (later : list (bytes * Z)) : ScanCursors :=
  foldl (fun c '(cursor, now) => (issue c cursor now).2) c later.

Lemma drop_expired_keeps ttl now e pre post :
  elapsed now (en_issued e) < ttl -> exists pre', drop_expired ttl now (pre ++ e :: post) = pre' ++ e :: post.
Proof.
  intros He. induction pre as [|x pre [pre' IH]]; cbn [app drop_expired].
  - rewrite (proj2 (Z.leb_gt _ _)) by done. by exists [].
  - destruct (_ <=? _); [by exists pre'|]. by exists (x :: pre).
Qed.

Lemma record_keeps c entry now e pre post :
  cu_live c = pre ++ e :: post -> elapsed now (en_issued e) < cu_ttl c -> (length post + 2 <= cu_capacity c)%nat ->
  exists pre', cu_live (record c entry now) = pre' ++ e :: (post ++ [entry]).
Proof.
  intros Hl He Hn. unfold record, with_live. cbn [cu_live]. rewrite Hl, <- app_assoc. cbn [app].
  rewrite drop_app_le by (rewrite length_app; cbn; rewrite length_app; cbn; lia).
  by apply drop_expired_keeps.
Qed.

Lemma issues_keep c later e pre post now :
  cu_live c = pre ++ e :: post -> (length post + length later < cu_capacity c)%nat ->
  Forall (fun l => l.2 <= now) later -> elapsed now (en_issued e) < cu_ttl c ->
  exists pre' post', cu_live (issues c later) = pre' ++ e :: post'.
Proof.
  intros Hl Hn Ht He. revert c pre post Hl Hn He. induction Ht as [|[cursor t] later Hx Ht IH]; intros c pre post Hl Hn He.
  - by exists pre, post.
  - cbn [snd] in Hx.
    change (issues c ((cursor, t) :: later)) with (issues (record (draw c).2 (mkScanEntry (draw c).1 cursor t) t) later).
    destruct (record_keeps (draw c).2 (mkScanEntry (draw c).1 cursor t) t e pre post Hl) as [pre' E].
    + cbn [draw snd cu_ttl]. unfold elapsed in *. lia.
    + cbn [draw snd cu_capacity]. cbn [length] in Hn. lia.
    + eapply IH; [exact E| |exact He]. rewrite length_app. cbn. cbn [length] in Hn. lia.
Qed.

Lemma issues_Table c later :
  Table c -> cu_next c + len later < U64_MAX -> Table (issues c later).
Proof.
  revert c. induction later as [|[cursor t] later IH]; intros c Hc Hn; [done|]. cbn [issues foldl].
  assert (len ((cursor, t) :: later) = 1 + len later) as El by (unfold len; cbn; lia). pose proof (len_nonneg later).
  apply IH; [apply issue_Table; [lia|done]|]. unfold issue, draw. cbn [snd record with_live cu_next].
  pose proof (ta_next c Hc). unfold wrapping. rewrite Z.mod_small by (unfold START in *; width). lia.
Qed.

Lemma issues_ttl c later : cu_ttl (issues c later) = cu_ttl c.
Proof. revert c. induction later as [|[cursor t] later IH]; intros c; [done|]. apply (IH (issue c cursor t).2). Qed.

Lemma issue_lives c cursor issued later now :
  Table c -> cu_next c + 1 + len later < U64_MAX -> (length later < cu_capacity c)%nat ->
  Forall (fun l => l.2 <= now) later -> 0 <= now - issued < cu_ttl c ->
  resolve (issues (issue c cursor issued).2 later) (issue c cursor issued).1 now = Some cursor.
Proof.
  intros Hc Hn Hcap Ht He. pose proof (len_nonneg later).
  assert (elapsed now issued < cu_ttl c) as Hel by (unfold elapsed; lia).
  assert (elapsed issued issued < cu_ttl c) as Hel0 by (unfold elapsed; lia).
  pose proof (issue_Table c cursor issued ltac:(lia) Hc) as Hc1.
  set (e := mkScanEntry (cu_next c) cursor issued). set (c1 := (issue c cursor issued).2) in *.
  assert (cu_next c1 = cu_next c + 1) as Hnext.
  { subst c1. unfold issue, draw. cbn. unfold wrapping. apply Z.mod_small. pose proof (ta_next c Hc). unfold START in *. width. }
  assert (exists pre, cu_live c1 = pre ++ [e]) as [pre Hl].
  { subst c1. unfold issue, draw, record, with_live. cbn [snd fst cu_live].
    change (cu_capacity (mkScanCursors _ _ _ _)) with (cu_capacity c).
    rewrite drop_app_le by (rewrite length_app; cbn; lia). by apply drop_expired_keeps. }
  destruct (issues_keep c1 later e pre [] now Hl) as (pre' & post' & E).
  { cbn. exact Hcap. } { done. } { exact Hel. }
  apply (token_resolves _ _ _ _ (issues_Table c1 later Hc1 ltac:(lia))).
  exists e. rewrite E. conjs; [set_solver|done|done|].
  rewrite issues_ttl. exact Hel.
Qed.

(** A [SCAN] token names its position, and goes on naming it.  Over a table
    that only whole issues have built, tokens strictly ascend past [START] and
    there are no more than [capacity]; a token resolves exactly when it is in
    the table and younger than the time to live, to the position it was issued
    for; and a token just issued goes on resolving, as often as it is asked for,
    until its time is up or as many tokens as the table holds have been issued
    after it. *)
Theorem scan_token_lives c cursor issued later now :
  Table c -> cu_next c + 1 + len later < U64_MAX -> (length later < cu_capacity c)%nat ->
  Forall (fun l => l.2 <= now) later -> 0 <= now - issued < cu_ttl c ->
  let '(token, c1) := issue c cursor issued in
  let c2 := issues c1 later in
  START < token /\ Table c2 /\ resolve c2 token now = Some cursor
  /\ forall other other_cursor, resolve c2 other now = Some other_cursor
       <-> exists e, e ∈ cu_live c2 /\ en_token e = other /\ en_cursor e = other_cursor
                     /\ elapsed now (en_issued e) < cu_ttl c2.
Proof.
  intros Hc Hn Hcap Ht He. pose proof (issue_lives c cursor issued later now Hc Hn Hcap Ht He) as Hr.
  pose proof (len_nonneg later).
  pose proof (issue_Table c cursor issued ltac:(lia) Hc) as Hc1. pose proof (ta_next c Hc) as Hx.
  assert (cu_next (issue c cursor issued).2 = cu_next c + 1) as Hnext.
  { unfold issue, draw. cbn. unfold wrapping. apply Z.mod_small. unfold START in *. width. }
  pose proof (issues_Table _ later Hc1 ltac:(lia)) as Hc2.
  destruct (issue c cursor issued) as [token c1] eqn:E. cbn [fst snd] in *. cbv zeta. conjs; [|done|done|].
  - unfold issue, draw in E. injection E as <- _. lia.
  - intros other oc. by apply token_resolves.
Qed.

(** ** Threads in between *)

(** A table and the tokens that threads have drawn and not yet recorded. *)
Record Racing := mkRacing { ra_table : ScanCursors; ra_drawn : list ScanEntry }.

(** [issue] is two steps: the draw takes no lock. *)
Inductive race (now : Z) : Racing -> Racing -> Prop :=
| race_draw c drawn cursor :
    race now (mkRacing c drawn) (mkRacing (draw c).2 (drawn ++ [mkScanEntry (draw c).1 cursor now]))
| race_record c before entry after :
    race now (mkRacing c (before ++ entry :: after)) (mkRacing (record c entry now) (before ++ after)).

Inductive races (now : Z) : Racing -> Racing -> Prop :=
| races_refl r : races now r r
| races_step r1 r2 r3 : race now r1 r2 -> races now r2 r3 -> races now r1 r3.
