(* ===== verification/RespServer.v ===== *)
(** [vash-server/src/resp.rs]: executing a block of Redis commands for a
    connection - the gates, authentication and version negotiation, the
    translation onto domain commands and the wording of their answers, the held
    run of plain [SET]s, [SCAN] over the token table, and the classifier that
    picks a tier for a command it does not parse.

    The build is the default one, without the [introspect] feature. *)

From S2P Require Import Prelude Bytes Text Core Record Glob Clock Arith Float Command Backend Apply Read.
From S2P Require Import Vcp VcpEncode Auth Server Resp RespCommand RespEncode Scan.

#[local] Delimit Scope string_scope with str.
#[local] Existing Instance Exec_ret.
#[local] Existing Instance Exec_bind.

(** ** Failures *)

Inductive ErrorClass : Type := Class_Client | Class_Capacity | Class_Overloaded | Class_Internal.

Record Failure := mkFailure {
  fl_code : String.string;
  fl_message : String.string;
  fl_class : ErrorClass;
  fl_counted : bool
}.

Definition Failure_client (message : String.string) : Failure := mkFailure "ERR"%str message Class_Client false.

Definition Failure_executed (message : String.string) : Failure := mkFailure "ERR"%str message Class_Client true.

Definition Failure_internal : Failure := mkFailure "ERR"%str "internal error"%str Class_Internal false.

(** [impl From<CoreError> for Failure]. *)
Definition Failure_from_core (err : CoreError) : Failure :=
  match err with
  | EmptyKey | KeyTooLong _ _ => Failure_client "invalid key"%str
  | _ => Failure_internal
  end.

Abbreviation Answer A := (Result Failure A).

(** [resp_error]. *)
Definition error_message (cause : option CoreError) : option String.string :=
  match cause with
  | Some NotAnInteger => Some "value is not an integer or out of range"%str
  | Some NotAFloat => Some "value is not a valid float"%str
  | Some Overflow => Some "increment or decrement would overflow"%str
  | Some NotFinite => Some "increment would produce NaN or Infinity"%str
  | Some (EmptyKey | KeyTooLong _ _) => Some "invalid key"%str
  | Some (ValueTooLarge _ _) => Some "string exceeds maximum allowed size"%str
  | Some (TooManyTags _ _) => Some "too many tags"%str
  | Some (EmptyTag | TagTooLong _ _) => Some "invalid tag"%str
  | _ => None
  end.

Definition resp_error (failed : Failed) : Failure :=
  match error_message (fd_cause failed) with
  | Some message => Failure_executed message
  | None =>
      match fd_status failed with
      | Status_CapacityFull =>
          mkFailure "OOM"%str "command not allowed when used memory > 'maxmemory'"%str Class_Capacity true
      | Status_Overloaded => mkFailure "ERR"%str "server is overloaded, try again"%str Class_Overloaded true
      | Status_Unsupported => Failure_executed "unsupported operation"%str
      | Status_Unauthorized => Failure_executed "command disabled by configuration"%str
      | Status_Internal => mkFailure "ERR"%str "internal error"%str Class_Internal true
      | _ => Failure_executed "invalid argument"%str
      end
  end.

(** ** Translation *)

Definition key_of (b : bytes) : Answer bytes := map_err Failure_from_core (Key_new b).

Definition keys_of (keys : list bytes) : Answer (list bytes) := collect key_of keys.

Definition saturating_i64 (z : Z) : Z := Z.max I64_MIN (Z.min I64_MAX z).

Definition ttl_from_deadline (deadline_ms now : Z) : Z :=
  if deadline_ms <=? now then TTL_ALREADY_EXPIRED
  else
    let seconds := Z.quot (saturating_i64 (deadline_ms + 500)) 1000 in
    let seconds := if saturating_i64 (seconds * 1000) <=? now then Z.quot now 1000 + 1 else seconds in
    if seconds <=? MAX_TTL_SECS then TTL_ALREADY_EXPIRED
    else Z.min (if (0 <=? seconds) && (seconds <=? U32_MAX) then seconds else U32_MAX) (U32_MAX - 1).

Definition ttl_change_for (expiry : Expiry) (now : Z) (invalid_expire : String.string) : Answer TtlChange :=
  match expiry with
  | Expiry_Unset | Expiry_Persist => Ok (Ttl_Set 0)
  | Expiry_Keep => Ok Ttl_Keep
  | Expiry_After millis =>
      deadline ← ok_or (checked_i64 (now + millis)) (Failure_client invalid_expire);
      Ok (Ttl_Set (ttl_from_deadline deadline now))
  | Expiry_At millis => Ok (Ttl_Set (ttl_from_deadline millis now))
  end.

Definition delta_of (delta : RespNumber) : Delta :=
  match delta with RNum_Int value => Delta_int value | RNum_Float value => Delta_float value end.

Definition bound_int (bound : option RespNumber) (default : Z) : Answer Z :=
  match bound with
  | None => Ok default
  | Some (RNum_Int value) => Ok value
  | Some (RNum_Float _) => Err (Failure_client "value is not an integer or out of range"%str)
  end.

Definition bound_float (bound : option RespNumber) (default : f64) : f64 :=
  match bound with
  | None => default
  | Some (RNum_Int value) => f64_of_int value
  | Some (RNum_Float value) => value
  end.

Section Translate.
(** The wall clock, in milliseconds. *)
Variable now_ms : Z.

Definition translate_increx (op : IncrEx) : Answer Arithmetic :=
  delta ←
    match ix_delta op with
    | RNum_Int delta =>
        lower ← bound_int (ix_lower op) I64_MIN;
        upper ← bound_int (ix_upper op) I64_MAX;
        Ok (Delta_Int delta lower upper)
    | RNum_Float delta =>
        Ok (Delta_Float delta (bound_float (ix_lower op) f64_MIN) (bound_float (ix_upper op) f64_MAX))
    end;
  ttl ←
    match ix_expiry op with
    | None => Ok Ttl_Keep
    | Some Expiry_Persist => Ok (Ttl_Set 0)
    | Some (Expiry_Unset | Expiry_Keep) => Ok Ttl_Keep
    | Some expiry =>
        ttl ← ttl_change_for expiry now_ms "invalid expire time in 'increx' command"%str;
        match ttl with
        | Ttl_Set ttl_secs => Ok (if ix_only_if_persistent op then Ttl_SetIfPersistent ttl_secs else Ttl_Set ttl_secs)
        | _ => Err Failure_internal
        end
    end;
  key ← key_of (ix_key op);
  Ok (mkArithmetic key delta (if ix_saturate op then OnBound_Clamp else OnBound_Skip) Missing_CreateAtZero ttl).

Definition set_mode (condition : Condition) : SetMode :=
  match condition with
  | Cond_Always => SetMode_Set
  | Cond_IfAbsent => SetMode_Add
  | Cond_IfPresent => SetMode_Replace
  end.

Definition batch_guard (condition : Condition) : BatchGuard :=
  match condition with
  | Cond_Always => BatchGuard_Always
  | Cond_IfAbsent => BatchGuard_IfAllAbsent
  | Cond_IfPresent => BatchGuard_IfAllPresent
  end.

Definition expire_guard (condition : ExpireCondition) : ExpireGuard :=
  match condition with
  | Expire_Always => Guard_Always
  | Expire_IfPersistent => Guard_IfPersistent
  | Expire_IfVolatile => Guard_IfVolatile
  | Expire_IfLater => Guard_IfLater
  | Expire_IfEarlier => Guard_IfEarlier
  end.

Definition with_tags (set : SetReq) (tags : list bytes) : SetReq :=
  mkSet (s_key set) (s_value set) (s_ttl set) (s_mc_flags set) tags (s_mode set) (s_return_previous set).

Definition translate (command : RespCommand) : Answer Command :=
  match command with
  | RC_Ping _ => Ok Cmd_Ping
  | RC_Get key => key ← key_of key; Ok (Cmd_Get key)
  | RC_MGet keys => keys ← keys_of keys; Ok (Cmd_GetMany (KeyList_Many keys))
  | RC_Exists keys => keys ← keys_of keys; Ok (Cmd_Deadlines keys)
  | RC_Type key | RC_Ttl key => key ← key_of key; Ok (Cmd_Deadline key)
  | RC_Delete keys => keys ← keys_of keys; Ok (Cmd_DeleteMany keys)
  | RC_Set set =>
      key ← key_of (rs_key set);
      ttl ← ttl_change_for (rs_expiry set) now_ms
              (if rs_tagged set then "invalid expire time in 'settags' command"%str
               else "invalid expire time in 'set' command"%str);
      Ok (Cmd_Set (mkSet key (rs_value set) ttl 0 (rs_tags set) (set_mode (rs_condition set)) (rs_return_previous set)))
  | RC_MSet pairs =>
      sets ← collect (fun '(key, value) => key ← key_of key; Ok (Set_plain key value 0)) pairs;
      Ok (Cmd_SetMany sets BatchGuard_Always)
  | RC_MSetEx pairs condition expiry tags tagged =>
      ttl ← ttl_change_for expiry now_ms
              (if tagged then "invalid expire time in 'msettags' command"%str
               else "invalid expire time in 'msetex' command"%str);
      sets ← collect (fun '(key, value) => key ← key_of key; Ok (with_tags (Set_with_ttl key value ttl) tags)) pairs;
      Ok (Cmd_SetMany sets (batch_guard condition))
  | RC_Append key value => key ← key_of key; Ok (Cmd_Append key value)
  | RC_Expire key expiry condition =>
      let deadline := match expiry with
                      | Expiry_After millis => saturating_i64 (now_ms + millis)
                      | Expiry_At millis => millis
                      | Expiry_Unset | Expiry_Keep | Expiry_Persist => now_ms
                      end in
      key ← key_of key;
      Ok (Cmd_Expire key (Ttl_Set (ttl_from_deadline deadline now_ms)) (expire_guard condition))
  | RC_Persist key => key ← key_of key; Ok (Cmd_Expire key (Ttl_Set 0) Guard_IfVolatile)
  | RC_Incr key delta => key ← key_of key; Ok (Cmd_Arithmetic (Arithmetic_redis key (delta_of delta)))
  | RC_IncrEx op => op ← translate_increx op; Ok (Cmd_Arithmetic op)
  | RC_Info _ => Ok Cmd_Stats
  | RC_Quit | RC_Auth _ | RC_Hello _ _ | RC_Scan _ | RC_Slowlog _ | RC_DelByTag _ => Err Failure_internal
  end.

(** ** Rendering *)

Definition number_of (value : Number) : Answer RespNumber :=
  match value with
  | Number_Int value => Ok (RNum_Int value)
  | Number_Float value => Ok (RNum_Float value)
  | Number_Counter _ => Err Failure_internal
  end.

Definition TTL_MISSING : Z := -2.
Definition TTL_PERSISTENT : Z := -1.

Definition ttl_answer (deadline : option Z) : Z :=
  match deadline with
  | None => TTL_MISSING
  | Some at_ =>
      if at_ =? NEVER then TTL_PERSISTENT
      else Z.quot (as_i64 (wrapping 64 (as_i64 (saturating_sub at_ now_ms) + 500))) 1000
  end.

Context {FT : FloatText} {BI : BuildInfo}.

Definition write_value (version : Version) (out : bytes) (value : option Value) : bytes :=
  match value with Some value => bulk out (v_data value) | None => null out version end.

Definition answer_number (version : Version) (out : bytes) (number : RespNumber) : bytes :=
  match number with RNum_Int value => integer out value | RNum_Float value => double out value version end.

Definition answer_increx (out : bytes) (value applied : RespNumber) (version : Version) : bytes :=
  foldl (answer_number version) (array out 2) [value; applied].

Definition count_true (l : list bool) : Z := as_i64 (len (filter (fun b => b = true) l)).

(** An error writes nothing. *)
Definition render (command : RespCommand) (reply : Reply) (version : Version) (out : bytes) : Answer bytes :=
  match command, reply with
  | RC_Ping (Some message), _ => Ok (bulk out message)
  | RC_Ping None, _ => Ok (simple out (bs "PONG"))
  | RC_Info sections, Reply_Stats counters => Ok (info out sections counters version)
  | _, Reply_Value value => Ok (bulk out (v_data value))
  | RC_Get _, Reply_NotFound => Ok (null out version)
  | _, Reply_Values values => Ok (foldl (write_value version) (array out (len values)) values)
  | RC_Exists _, Reply_Deadlines found => Ok (integer out (count_true ((fun entry => bool_decide (is_Some entry)) <$> found)))
  | RC_Type _, Reply_Deadline deadline =>
      Ok (simple out (match deadline with Some _ => bs "string" | None => bs "none" end))
  | RC_Ttl _, Reply_Deadline deadline => Ok (integer out (ttl_answer deadline))
  | RC_Delete _, Reply_DeletedMany hits => Ok (integer out (count_true hits))
  | RC_Set _, Reply_Swapped _ previous => Ok (write_value version out previous)
  | RC_Set _, Reply_Stored outcome =>
      Ok (match outcome with Stored_Stored _ => ok out | _ => null out version end)
  | RC_MSet _, Reply_StoredMany _ => Ok (ok out)
  | RC_MSetEx _ _ _ _ _, Reply_StoredMany _ => Ok (integer out 1)
  | RC_MSetEx _ _ _ _ _, Reply_Stored Stored_NotStored => Ok (integer out 0)
  | RC_Append _ _, Reply_Length length => Ok (integer out (as_i64 length))
  | (RC_Expire _ _ _ | RC_Persist _), Reply_Applied applied => Ok (integer out (if applied : bool then 1 else 0))
  | RC_Incr _ _, Reply_Arithmetic applied =>
      number ← number_of (ap_value applied);
      Ok (match number with
          | RNum_Int value => integer out value
          | RNum_Float value => bulk out (format_float value)
          end)
  | RC_IncrEx _, Reply_Arithmetic applied =>
      value ← number_of (ap_value applied);
      moved ← number_of (ap_applied applied);
      Ok (answer_increx out value moved version)
  | _, _ => Err Failure_internal
  end.

Definition answer_scan (out : bytes) (cursor : Z) (entries : list ListEntry) : bytes :=
  foldl (fun out entry => bulk out (le_name entry)) (array (bulk (array out 2) (u64_text cursor)) (len entries)) entries.

End Translate.

(** ** The gates *)

Definition resp_roles (command : RespCommand) : Roles * String.string :=
  match command with
  | RC_Hello _ _ => (Roles_NONE, "hello"%str)
  | RC_Ping _ => (Roles_NONE, "ping"%str)
  | RC_Quit => (Roles_NONE, "quit"%str)
  | RC_Auth _ => (Roles_NONE, "auth"%str)
  | RC_Info _ => (Roles_NONE, "info"%str)
  | RC_Get _ => (Roles_READ, "get"%str)
  | RC_MGet _ => (Roles_READ, "mget"%str)
  | RC_Exists _ => (Roles_READ, "exists"%str)
  | RC_Type _ => (Roles_READ, "type"%str)
  | RC_Ttl _ => (Roles_READ, "ttl"%str)
  | RC_Set set => (if rs_return_previous set then Roles_READ_WRITE else Roles_WRITE, "set"%str)
  | RC_MSet _ => (Roles_WRITE, "mset"%str)
  | RC_MSetEx _ _ _ _ _ => (Roles_WRITE, "msetex"%str)
  | RC_Delete _ => (Roles_WRITE, "del"%str)
  | RC_Append _ _ => (Roles_WRITE, "append"%str)
  | RC_Expire _ _ _ => (Roles_WRITE, "expire"%str)
  | RC_Persist _ => (Roles_WRITE, "persist"%str)
  | RC_Incr _ _ => (Roles_READ_WRITE, "incr"%str)
  | RC_IncrEx _ => (Roles_READ_WRITE, "incrby"%str)
  | RC_DelByTag _ => (Roles_INVALIDATE, "delbytag"%str)
  | RC_Scan _ => (Roles_LIST, "scan"%str)
  | RC_Slowlog (Slowlog_Get _ | Slowlog_Reset) => (Roles_LIST, "slowlog"%str)
  | RC_Slowlog (Slowlog_Len | Slowlog_Help) => (Roles_NONE, "slowlog"%str)
  end.

Definition HELLO_UNAUTHENTICATED : String.string :=
  "HELLO must be called with the client already authenticated, otherwise the HELLO <proto> AUTH <user> <pass> option can be used to authenticate the client and select the RESP protocol version at the same time"%str.

Definition noauth (message : String.string) : Failure := mkFailure "NOAUTH"%str message Class_Client false.

(** [resp::refusal]. *)
Definition resp_refusal (auth : Auth) (conn : ConnAuth) (command : RespCommand) : option Failure :=
  if is_authenticated conn || negb (au_required auth) then None
  else
    match command with
    | RC_Auth _ | RC_Quit => None
    | RC_Hello _ (Some _) => None
    | RC_Hello _ None => Some (noauth HELLO_UNAUTHENTICATED)
    | _ => Some (noauth "Authentication required."%str)
    end.

Definition denial (auth : Auth) (conn : ConnAuth) (command : RespCommand) : option (Roles * String.string) :=
  let '(needed, name) := resp_roles command in
  match refusal auth conn needed with
  | Some (Refused_Missing missing) => Some (missing, name)
  | Some Refused_Unauthenticated | None => None
  end.

(** ** One command *)

Section Execute.
Context {S : Type} {SO : StoreOps S} {DG : Digest} {FT : FloatText} {BI : BuildInfo}.
Variable conf : ServerConf.
(** The wall clock and the monotonic clock, in milliseconds. *)
Variable now_ms instant : Z.

(** A connection: what every dialect threads, the version negotiated, and the
    server's table of scan cursors.  A held write has no note. *)
Record RespConn := mkRespConn { rc_conn : Conn S unit; rc_version : Version; rc_cursors : ScanCursors }.

Definition rc_out (c : RespConn) : bytes := cn_out (rc_conn c).

Definition rc_with_out (c : RespConn) (out : bytes) : RespConn :=
  mkRespConn (with_out (rc_conn c) out) (rc_version c) (rc_cursors c).

Definition rc_with_auth (c : RespConn) (auth : ConnAuth) : RespConn :=
  mkRespConn (mkConn (cn_server (rc_conn c)) auth (cn_out (rc_conn c)) (cn_batch (rc_conn c))) (rc_version c) (rc_cursors c).

Definition rc_with_server (c : RespConn) (server : Server S) : RespConn :=
  mkRespConn (mkConn server (cn_auth (rc_conn c)) (cn_out (rc_conn c)) (cn_batch (rc_conn c))) (rc_version c) (rc_cursors c).

Abbreviation Answered := (RespConn * Answer unit)%type.

Definition push_failure (c : RespConn) (failure : Failure) : RespConn :=
  rc_with_out c (error_line (rc_out c) (bs (fl_code failure)) (bs (fl_message failure))).

(** [dispatch::execute(..).map_err(resp_error)]. *)
Definition execute_for (c : RespConn) (command : Command) : RespConn * Answer Reply :=
  let '(server, result) := execute conf command (cn_server (rc_conn c)) in
  (rc_with_server c server, map_err resp_error result).

Definition UNCONFIGURED : String.string :=
  "AUTH <password> called without any password configured for the default user. Are you sure your configuration is correct?"%str.

Definition authenticate (c : RespConn) (credential : WireCredential) : Answered :=
  if bool_decide (au_table (sv_auth conf) = ∅) then (c, Err (Failure_client UNCONFIGURED))
  else
    let name := default DEFAULT_NAME (wc_name credential) in
    match verify (sv_auth conf) name (wc_secret credential) with
    | Some identity => (rc_with_auth c (succeed (cn_auth (rc_conn c)) identity), Ok ())
    | None =>
        (rc_with_auth c (auth_fail (cn_auth (rc_conn c))),
         Err (mkFailure "WRONGPASS"%str "invalid username-password pair or user is disabled."%str Class_Client false))
    end.

Definition run_auth (c : RespConn) (credential : WireCredential) : Answered :=
  match authenticate c credential with
  | (c, Ok _) => (rc_with_out c (ok (rc_out c)), Ok ())
  | failed => failed
  end.

Definition negotiate (current : Version) (requested : option Z) : Answer Version :=
  match requested with
  | None => Ok current
  | Some 2 => Ok Resp2
  | Some 3 => Ok Resp3
  | Some _ => Err (mkFailure "NOPROTO"%str "unsupported protocol version"%str Class_Client false)
  end.

(** The version is checked, then the credential, then the version applied. *)
Definition run_hello (c : RespConn) (requested : option Z) (auth : option WireCredential) : Answered :=
  match negotiate (rc_version c) requested with
  | Err f => (c, Err f)
  | Panic why => (c, Panic why)
  | Ok negotiated =>
      let '(c, authenticated) := match auth with Some credential => authenticate c credential | None => (c, Ok ()) end in
      match authenticated with
      | Ok _ =>
          let c := mkRespConn (rc_conn c) negotiated (rc_cursors c) in
          (rc_with_out c (hello (rc_out c) negotiated), Ok ())
      | failed => (c, failed)
      end
  end.

Definition scan_position (cursors : ScanCursors) (token : Z) : Answer bytes :=
  if token =? START then Ok []
  else ok_or (resolve cursors token instant)
         (Failure_client "scan cursor expired; restart the iteration from 0"%str).

Definition run_scan (c : RespConn) (scan : Scan) : Answered :=
  if negb (sc_only_strings scan) then (rc_with_out c (answer_scan (rc_out c) START []), Ok ())
  else
    match scan_position (rc_cursors c) (sc_token scan) with
    | Err f => (c, Err f)
    | Panic why => (c, Panic why)
    | Ok position =>
        let request := mkListRequest (sc_count scan) position (sc_pattern scan) in
        let '(c, reply) := execute_for c (Cmd_ListKeys request) in
        match reply with
        | Ok (Reply_Listing page) =>
            let '(next, cursors) := match l_cursor page with
                                    | Some position => issue (rc_cursors c) position instant
                                    | None => (START, rc_cursors c)
                                    end in
            let c := mkRespConn (rc_conn c) (rc_version c) cursors in
            (rc_with_out c (answer_scan (rc_out c) next (l_entries page)), Ok ())
        | Ok _ => (c, Err Failure_internal)
        | Err f => (c, Err f)
        | Panic why => (c, Panic why)
        end
    end.

(** Without the feature there is no log. *)
Definition run_slowlog (c : RespConn) (sub : SlowlogSub) : Answered :=
  (c, Err (Failure_client "the slowlog needs a build with --features introspect"%str)).

Fixpoint del_by_tag_loop (c : RespConn) (registered : Z) (tags : list bytes) : RespConn * Answer Z :=
  match tags with
  | [] => (c, Ok registered)
  | tag :: tags' =>
      let '(c, reply) := execute_for c (Cmd_DeleteByTag tag) in
      match reply with
      | Ok (Reply_Invalidated hit) => del_by_tag_loop c (registered + if hit : bool then 1 else 0) tags'
      | Ok _ => (c, Err Failure_internal)
      | Err f => (c, Err f)
      | Panic why => (c, Panic why)
      end
  end.

Definition run_del_by_tag (c : RespConn) (tags : list bytes) : Answered :=
  match del_by_tag_loop c 0 tags with
  | (c, Ok registered) => (rc_with_out c (integer (rc_out c) registered), Ok ())
  | (c, Err f) => (c, Err f)
  | (c, Panic why) => (c, Panic why)
  end.

(** The fused [GET]. *)
Definition run_get (c : RespConn) (key : bytes) : Answered :=
  match key_of key with
  | Err f => (c, Err f)
  | Panic why => (c, Panic why)
  | Ok key =>
      match st_get_with (sv_store (cn_server (rc_conn c))) key with
      | Ok value => (rc_with_out c (write_value (rc_version c) (rc_out c) value), Ok ())
      | Err e => (c, Err (resp_error (to_failed e)))
      | Panic why => (c, Panic why)
      end
  end.

(** The fused [MGET]: the header and the values reach the buffer before the read
    can fail. *)
Definition run_mget (c : RespConn) (keys : list bytes) : Answered :=
  match keys_of keys with
  | Err f => (c, Err f)
  | Panic why => (c, Panic why)
  | Ok keys =>
      let '(rendered, outcome) := st_get_many_with (sv_store (cn_server (rc_conn c))) keys in
      let out := foldl (fun out '(_, value) => write_value (rc_version c) out value)
                   (array (rc_out c) (len keys)) rendered in
      (rc_with_out c out, map_err (fun e => resp_error (to_failed e)) outcome)
  end.

(** Everything else: translated, executed, worded. *)
Definition run_storage (c : RespConn) (storage : RespCommand) : Answered :=
  match translate now_ms storage with
  | Err f => (c, Err f)
  | Panic why => (c, Panic why)
  | Ok translated =>
      let '(c, reply) := execute_for c translated in
      match reply with
      | Ok reply =>
          match render now_ms storage reply (rc_version c) (rc_out c) with
          | Ok out => (rc_with_out c out, Ok ())
          | Err f => (c, Err f)
          | Panic why => (c, Panic why)
          end
      | Err f => (c, Err f)
      | Panic why => (c, Panic why)
      end
  end.

(** [resp::run]. *)
Definition resp_run (c : RespConn) (command : RespCommand) : Answered :=
  match command with
  | RC_Quit => (rc_with_out c (ok (rc_out c)), Ok ())
  | RC_Auth credential => run_auth c credential
  | RC_Hello requested auth => run_hello c requested auth
  | RC_Scan scan => run_scan c scan
  | RC_Slowlog sub => run_slowlog c sub
  | RC_DelByTag tags => run_del_by_tag c tags
  | RC_Get key => run_get c key
  | RC_MGet keys => run_mget c keys
  | storage => run_storage c storage
  end.

Definition noperm (name : String.string) : bytes :=
  bs "this user has no permissions to run the '" ++ bs name ++ bs "' command".

(** [resp::execute]. *)
Definition resp_execute (c : RespConn) (command : RespCommand) : RespConn * Closing :=
  match command with
  | RC_Quit => (rc_with_out c (ok (rc_out c)), Closing_Yes)
  | _ =>
      match resp_refusal (sv_auth conf) (cn_auth (rc_conn c)) command with
      | Some failure => (push_failure c failure, Closing_No)
      | None =>
          match denial (sv_auth conf) (cn_auth (rc_conn c)) command with
          | Some (_, name) => (rc_with_out c (error_line (rc_out c) (bs "NOPERM") (noperm name)), Closing_No)
          | None =>
              match resp_run c command with
              | (c, Err failure) => (push_failure c failure, Closing_No)
              | (c, _) => (c, Closing_No)
              end
          end
      end
  end.

(** ** A block *)

(** The answer to one held write. *)
Definition resp_verdict (out : bytes) (note : unit) (result : Result Failed Z) : bytes :=
  match result with
  | Ok _ => ok out
  | Err failed => let failure := resp_error failed in error_line out (bs (fl_code failure)) (bs (fl_message failure))
  | Panic _ => out
  end.

Definition flush_sets (c : RespConn) : RespConn :=
  mkRespConn (flush_batch conf resp_verdict (rc_conn c)) (rc_version c) (rc_cursors c).

Definition batchable_set (conn : ConnAuth) (command : RespCommand) : option SetReq :=
  match command with
  | RC_Set _ =>
      match resp_refusal (sv_auth conf) conn command, denial (sv_auth conf) conn command with
      | None, None => translated ← result_ok (translate now_ms command); batchable translated
      | _, _ => None
      end
  | _ => None
  end.

(** One parsed command, with the run held before it. *)
Definition resp_parsed (c : RespConn) (command : RespCommand) : RespConn * Closing :=
  match batchable_set (cn_auth (rc_conn c)) command with
  | Some set =>
      let c := if holds (cn_batch (rc_conn c)) (s_key set) then flush_sets c else c in
      let conn := rc_conn c in
      (mkRespConn (mkConn (cn_server conn) (cn_auth conn) (cn_out conn) (cn_batch conn ++ [(set, ())]))
         (rc_version c) (rc_cursors c), Closing_No)
  | None => resp_execute (flush_sets c) command
  end.

Definition resp_refused (c : RespConn) (reply : ErrorReply) : RespConn :=
  let c := flush_sets c in
  rc_with_out c (error_reply (rc_out c) reply).

(** How a block ends: with the connection's fate, or with the process: the
    release profile aborts on a panic. *)
Inductive Ended : Type := Ended_Closing (closing : Closing) | Ended_Abort.

(** One round per command, which takes a byte at least off the block. *)
Fixpoint resp_block_loop (fuel : nat) (c : RespConn) (rest : bytes) : RespConn * Ended :=
  match fuel with
  | O => (c, Ended_Closing Closing_No)
  | Datatypes.S fuel' =>
      match rest with
      | [] => (c, Ended_Closing Closing_No)
      | _ =>
          match resp_parse rest with
          | Ok (Resp_Command parsed) =>
              match resp_parsed c (rp_command parsed) with
              | (c, Closing_Yes) => (c, Ended_Closing Closing_Yes)
              | (c, Closing_No) => resp_block_loop fuel' c (drop (rp_consumed parsed) rest)
              end
          | Err (Resp_Recoverable reply consumed) => resp_block_loop fuel' (resp_refused c reply) (drop consumed rest)
          | Ok Resp_Incomplete | Err (Resp_Fatal _) => (c, Ended_Closing Closing_No)
          | Panic _ => (c, Ended_Abort)
          end
      end
  end.

(** [resp::execute_block]; the connection's own buffer is [cn_out]. *)
Definition execute_resp_block (c : RespConn) (block : bytes) : RespConn * Ended :=
  match resp_block_loop (length block) c block with
  | (c, Ended_Closing Closing_No) => (flush_sets c, Ended_Closing Closing_No)
  | ended => ended
  end.

End Execute.

Arguments mkRespConn {S} rc_conn rc_version rc_cursors.
Arguments rc_conn {S} r.
Arguments rc_version {S} r.
Arguments rc_cursors {S} r.

(** ** Tiers *)

(** [conn::RunKind]. *)
Inductive RunKind : Type := Run_Reads | Run_Writes | Run_Other.

#[global] Instance RunKind_eq_dec : EqDecision RunKind.
Proof. solve_decision. Defined.

Definition batchable_write (command : RespCommand) : bool :=
  match command with
  | RC_Set set =>
      bool_decide (rs_condition set = Cond_Always) && negb (rs_return_previous set) && bool_decide (rs_tags set = [])
  | _ => false
  end.

Definition inline_safe (command : RespCommand) : bool :=
  match command with
  | RC_Get _ | RC_MGet _ | RC_Exists _ | RC_Type _ | RC_Ttl _ | RC_Ping _ | RC_Hello _ _ | RC_Auth _ | RC_Quit
  | RC_Info _ => true
  | _ => false
  end.

Definition SET_DISQUALIFIERS : list bytes := [bs "NX"; bs "XX"; bs "GET"].

Definition plainly_batchable (args : list bytes) : bool :=
  (3 <=? length args)%nat
  && negb (existsb (fun token => existsb (eq_ignore_case token) SET_DISQUALIFIERS) (drop 3 args)).

Definition READ_VERBS : list bytes :=
  [bs "GET"; bs "MGET"; bs "EXISTS"; bs "TYPE"; bs "TTL"; bs "PING"; bs "HELLO"; bs "AUTH"; bs "QUIT"; bs "INFO"].

Definition classify (args : list bytes) : RunKind :=
  match args with
  | [] => Run_Other
  | raw_verb :: _ =>
      let verb := upper_verb raw_verb in
      if bool_decide (verb ∈ READ_VERBS) then Run_Reads
      else if bool_decide (verb = bs "SET") && plainly_batchable args then Run_Writes
      else Run_Other
  end.

(** [resp::parse_writes]: each write is answered. *)
Fixpoint resp_writes_loop {FT : FloatText} (fuel : nat) (now_ms : Z) (rest : bytes) (sets : list SetReq) (suppress : list bool)
    : option (list SetReq * list bool) :=
  match rest with
  | [] => Some (sets, suppress)
  | _ =>
      match fuel with
      | O => None
      | Datatypes.S fuel' =>
          match resp_parse rest with
          | Ok (Resp_Command parsed) =>
              match rp_command parsed, result_ok (translate now_ms (rp_command parsed)) with
              | RC_Set _, Some (Cmd_Set set) =>
                  if awaitable_set set
                  then resp_writes_loop fuel' now_ms (drop (rp_consumed parsed) rest) (sets ++ [set]) (suppress ++ [false])
                  else None
              | _, _ => None
              end
          | _ => None
          end
      end
  end.

Definition resp_parse_writes {FT : FloatText} (now_ms : Z) (block : bytes) : option (list SetReq * list bool) :=
  resp_writes_loop (length block) now_ms block [] [].
