(* ===== verification/RespServerSpec.v ===== *)
(** What the Redis executor guarantees over any store that keeps the promises of
    the [Store] trait: holding writes back changes nothing, the gate is exact and
    agrees with the domain's, a stranger's bytes do nothing, and the commands
    that run without a hop to the blocking pool write nothing. *)

From S2P Require Import Prelude Bytes Text Core Record Glob Clock Arith Float Command Backend Apply Read.
From S2P Require Import Vcp VcpEncode Auth Server ServerBatch Resp RespCommand RespParse RespEncode Scan RespServer.

#[local] Existing Instance Exec_ret.
#[local] Existing Instance Exec_bind.

(** ** What a block holds *)

Inductive RItem : Type := RItem_Command (command : RespCommand) | RItem_Refused (reply : ErrorReply).

Section Cut.
Context {FT : FloatText}.

(** The items of a block, each where the one before it ended, and the tail that
    is not one. *)
Inductive resp_cut : bytes -> list RItem -> bytes -> Prop :=
| rcut_tail buf :
    (forall p, resp_parse buf <> Ok (Resp_Command p)) -> (forall k n, resp_parse buf <> Err (Resp_Recoverable k n)) ->
    resp_cut buf [] buf
| rcut_command buf p items tail :
    resp_parse buf = Ok (Resp_Command p) -> resp_cut (drop (rp_consumed p) buf) items tail ->
    resp_cut buf (RItem_Command (rp_command p) :: items) tail
| rcut_refused buf reply consumed items tail :
    resp_parse buf = Err (Resp_Recoverable reply consumed) -> resp_cut (drop consumed buf) items tail ->
    resp_cut buf (RItem_Refused reply :: items) tail.

Lemma resp_cut_exists block : exists items tail, resp_cut block items tail.
Proof.
  induction block as [block IH] using (induction_ltof1 _ length). unfold ltof in IH.
  pose proof (resp_parse_cases block) as Hp. destruct (resp_parse block) as [[|p]|[reply n|d]|why] eqn:E.
  - exists [], block. apply rcut_tail; intros *; by rewrite E.
  - destruct (IH (drop (rp_consumed p) block)) as (items & tail & Hc); [rewrite length_drop; lia|].
    eexists _, _. by eapply rcut_command.
  - destruct (IH (drop n block)) as (items & tail & Hc); [rewrite length_drop; lia|]. eexists _, _. by eapply rcut_refused.
  - exists [], block. apply rcut_tail; intros *; by rewrite E.
  - exists [], block. apply rcut_tail; intros *; by rewrite E.
Qed.

Lemma resp_cut_inv buf items tail :
  resp_cut buf items tail ->
  match resp_parse buf with
  | Ok (Resp_Command p) =>
      exists more, items = RItem_Command (rp_command p) :: more /\ resp_cut (drop (rp_consumed p) buf) more tail
  | Err (Resp_Recoverable k n) => exists more, items = RItem_Refused k :: more /\ resp_cut (drop n buf) more tail
  | _ => items = [] /\ tail = buf
  end.
Proof.
  intros [b H1 H2|b p its t E Hc|b k n its t E Hc]; [|rewrite E; eauto..].
  destruct (resp_parse b) as [[|p]|[k n|d]|why]; try done; [by destruct (H1 p)|by destruct (H2 k n)].
Qed.

Lemma resp_cut_unique block items tail items' tail' :
  resp_cut block items tail -> resp_cut block items' tail' -> items = items' /\ tail = tail'.
Proof.
  intros H. revert items' tail'. induction H as [buf H1 H2|buf p items tail E Hc IH|buf k n items tail E Hc IH];
    intros items' tail' H'%resp_cut_inv.
  - destruct (resp_parse buf) as [[|p]|[k n|d]|why]; try naive_solver.
  - rewrite E in H'. destruct H' as (more & -> & [-> ->]%IH). done.
  - rewrite E in H'. destruct H' as (more & -> & [-> ->]%IH). done.
Qed.

End Cut.

(** The tail whose parse panics, which ends the process. *)
Definition aborts {FT : FloatText} (tail : bytes) : bool := match resp_parse tail with Panic _ => true | _ => false end.

Section RespServer.
Context {S : Type} {SO : StoreOps S} {ST : StoreTotal S} {DG : Digest} {FT : FloatText} {BI : BuildInfo}.
Variable conf : ServerConf.
Variable now_ms instant : Z.

Abbreviation run_execute := (resp_execute conf now_ms instant).
Abbreviation run_parsed := (resp_parsed conf now_ms instant).
Abbreviation resp_in_turn := (ServerBatch.in_turn conf resp_verdict).

Definition rc_in_turn (c : @RespConn S) : RespConn := mkRespConn (resp_in_turn (rc_conn c)) (rc_version c) (rc_cursors c).

(** One item, with whatever writes are held before it. *)
Definition resp_item (c : @RespConn S) (item : RItem) : RespConn * Closing :=
  match item with
  | RItem_Command command => run_parsed c command
  | RItem_Refused reply => (resp_refused conf c reply, Closing_No)
  end.

Fixpoint resp_items (step : @RespConn S -> RItem -> RespConn * Closing) (c : RespConn) (items : list RItem)
    : RespConn * Closing :=
  match items with
  | [] => (c, Closing_No)
  | item :: items' =>
      match step c item with (c, Closing_Yes) => (c, Closing_Yes) | (c, Closing_No) => resp_items step c items' end
  end.

Definition ended (tail : bytes) (closing : Closing) : Ended :=
  match closing with
  | Closing_Yes => Ended_Closing Closing_Yes
  | Closing_No => if aborts tail then Ended_Abort else Ended_Closing Closing_No
  end.

(** The loop over the bytes is the run over the items: its rounds are enough. *)
Lemma resp_loop_items buf items tail :
  resp_cut buf items tail -> forall fuel c, (length buf <= fuel)%nat ->
  resp_block_loop conf now_ms instant fuel c buf
  = let '(c, closing) := resp_items resp_item c items in (c, ended tail closing).
Proof.
  induction 1 as [buf H1 H2|buf p items tail E Hc IH|buf k n items tail E Hc IH]; intros fuel c Hl;
    pose proof (resp_parse_cases buf) as Hp.
  - cbn [resp_items]. unfold ended, aborts. destruct buf as [|b buf]; [by destruct fuel|].
    destruct fuel as [|fuel]; [cbn in Hl; lia|]. cbn [resp_block_loop].
    destruct (resp_parse (b :: buf)) as [[|p]|[k n|d]|why]; [done|by destruct (H1 p)|by destruct (H2 k n)|done..].
  - rewrite E in Hp. destruct Hp as (Hp & _). destruct fuel as [|fuel]; [lia|]. cbn [resp_block_loop resp_items resp_item].
    destruct buf as [|b buf']; [cbn in Hp; lia|]. rewrite E. destruct (run_parsed c (rp_command p)) as [c' []]; [done|].
    apply IH. rewrite length_drop. lia.
  - rewrite E in Hp. destruct Hp as (Hp & _). destruct fuel as [|fuel]; [lia|]. cbn [resp_block_loop resp_items resp_item].
    destruct buf as [|b buf']; [cbn in Hp; lia|]. rewrite E. apply IH. rewrite length_drop. lia.
Qed.

(** ** Strangers *)

Definition resp_stranger (conn : ConnAuth) : Prop := ca_identity conn = None /\ au_required (sv_auth conf) = true.

(** [AUTH], or [HELLO] with [AUTH], and a secret that verifies. *)
Definition resp_signs_in (item : RItem) : Prop :=
  match item with
  | RItem_Command (RC_Auth cred) | RItem_Command (RC_Hello _ (Some cred)) =>
      verify (sv_auth conf) (default DEFAULT_NAME (wc_name cred)) (wc_secret cred) <> None
  | _ => False
  end.

Lemma stranger_refused conn command :
  resp_stranger conn ->
  match command with
  | RC_Auth _ | RC_Quit | RC_Hello _ (Some _) => resp_refusal (sv_auth conf) conn command = None
  | _ => exists f, resp_refusal (sv_auth conf) conn command = Some f
  end.
Proof.
  intros [H1 H2]. unfold resp_refusal, is_authenticated. rewrite H1, H2. cbn. destruct command; eauto. destruct auth; eauto.
Qed.

Lemma stranger_batches_nothing conn command : resp_stranger conn -> batchable_set conf now_ms conn command = None.
Proof. intros H. pose proof (stranger_refused conn command H) as Hr. destruct command; try done. destruct Hr as [f Hr]. cbn. by rewrite Hr. Qed.

Lemma flush_sets_empty (c : @RespConn S) : cn_batch (rc_conn c) = [] -> flush_sets conf c = c.
Proof. intros H. unfold flush_sets, flush_batch. rewrite H. by destruct c. Qed.

(** What a stranger may not touch: the server, the version, the cursors. *)
Definition unmoved (c c' : @RespConn S) : Prop :=
  cn_server (rc_conn c') = cn_server (rc_conn c) /\ rc_version c' = rc_version c /\ rc_cursors c' = rc_cursors c
  /\ ca_identity (cn_auth (rc_conn c')) = ca_identity (cn_auth (rc_conn c)) /\ cn_batch (rc_conn c') = cn_batch (rc_conn c).

Lemma unmoved_refl c : unmoved c c.
Proof. by conjs. Qed.

Lemma unmoved_trans c1 c2 c3 : unmoved c1 c2 -> unmoved c2 c3 -> unmoved c1 c3.
Proof. unfold unmoved. intros (? & ? & ? & ? & ?) (? & ? & ? & ? & ?). conjs; congruence. Qed.

#[local] Instance verify_none_dec auth name secret : Decision (verify auth name secret = None).
Proof. destruct (verify auth name secret); [by right|by left]. Defined.

Lemma authenticate_fails (c : @RespConn S) cred :
  verify (sv_auth conf) (default DEFAULT_NAME (wc_name cred)) (wc_secret cred) = None ->
  exists c' f, authenticate conf c cred = (c', Err f) /\ unmoved c c'.
Proof.
  intros H. unfold authenticate. case_bool_decide; [by eexists _, _|]. cbv zeta. rewrite H. by eexists _, _.
Qed.

Lemma stranger_item (c : @RespConn S) item :
  resp_stranger (cn_auth (rc_conn c)) -> cn_batch (rc_conn c) = [] -> ~ resp_signs_in item ->
  unmoved c (resp_item c item).1.
Proof.
  intros Ha Hb Hno. destruct item as [command|reply]; cbn [resp_item].
  2:{ unfold resp_refused. rewrite flush_sets_empty by done. by conjs. }
  unfold resp_parsed. rewrite stranger_batches_nothing, flush_sets_empty by done. unfold resp_execute.
  pose proof (stranger_refused _ command Ha) as Hr.
  destruct command; try (destruct Hr as [f ->]; by conjs); try done; [|].
  - destruct auth as [cred|]; [|destruct Hr as [f ->]; by conjs]. rewrite Hr.
    assert (denial (sv_auth conf) (cn_auth (rc_conn c)) (RC_Hello version (Some cred)) = None) as ->.
    { destruct Ha as [H1 H2]. unfold denial, refusal. cbn. by rewrite H1, H2. }
    cbn [resp_run]. unfold run_hello. destruct (negotiate (rc_version c) version) as [v|f|why]; [|by conjs..].
    destruct (authenticate_fails c cred) as (c' & f & E & Hc); [by apply dec_stable|].
    rewrite E. eapply unmoved_trans; [exact Hc|]. by conjs.
  - rewrite Hr.
    assert (denial (sv_auth conf) (cn_auth (rc_conn c)) (RC_Auth credential) = None) as ->.
    { destruct Ha as [H1 H2]. unfold denial, refusal. cbn. by rewrite H1, H2. }
    cbn [resp_run]. unfold run_auth.
    destruct (authenticate_fails c credential) as (c' & f & E & Hc); [by apply dec_stable|].
    rewrite E. eapply unmoved_trans; [exact Hc|]. by conjs.
Qed.

Lemma stranger_items items (c : @RespConn S) :
  resp_stranger (cn_auth (rc_conn c)) -> cn_batch (rc_conn c) = [] -> Forall (fun item => ~ resp_signs_in item) items ->
  unmoved c (resp_items resp_item c items).1.
Proof.
  intros Ha Hb Hno. revert c Ha Hb. induction Hno as [|item items Hi Hno IH]; intros c Ha Hb; cbn [resp_items]; [apply unmoved_refl|].
  pose proof (stranger_item c item Ha Hb Hi) as Hc. destruct (resp_item c item) as [c' []]; [done|].
  pose proof Hc as (_ & _ & _ & Hi' & Hb'). cbn [fst] in *. eapply unmoved_trans; [exact Hc|]. destruct Ha as [Ha1 Ha2].
  apply IH; [split; congruence|congruence].
Qed.

(** Where authentication is required, a connection that has not
    authenticated can do nothing over the Redis dialect either: whatever bytes it
    sends, unless one of its commands carries a name and a secret that verify,
    the store, the fan-out, the scan cursors and the version negotiated are
    untouched and the connection stays unauthenticated. *)
Theorem resp_unauthenticated_inert (c : @RespConn S) block :
  au_required (sv_auth conf) = true -> ca_identity (cn_auth (rc_conn c)) = None -> cn_batch (rc_conn c) = [] ->
  (forall items tail, resp_cut block items tail -> Forall (fun item => ~ resp_signs_in item) items) ->
  unmoved c (execute_resp_block conf now_ms instant c block).1.
Proof.
  intros Hq Ha Hb Hno. destruct (resp_cut_exists block) as (items & tail & Hc).
  unfold execute_resp_block. rewrite (resp_loop_items _ _ _ Hc) by done.
  pose proof (stranger_items items c (conj Ha Hq) Hb (Hno _ _ Hc)) as Hr.
  destruct (resp_items resp_item c items) as [c' closing]. cbn [fst] in Hr.
  unfold ended. destruct closing; [done|]. destruct (aborts tail); [done|]. cbn [fst].
  rewrite flush_sets_empty; [done|]. destruct Hr as (_ & _ & _ & _ & Hr). congruence.
Qed.

(** ** Holding writes back *)

Lemma batchable_set_inv conn command set :
  batchable_set conf now_ms conn command = Some set ->
  resp_refusal (sv_auth conf) conn command = None /\ denial (sv_auth conf) conn command = None
  /\ translate now_ms command = Ok (Cmd_Set set) /\ plain set /\ exists rset, command = RC_Set rset.
Proof.
  unfold batchable_set. destruct command as [| | | | |rset| | | | | | | | | | | | | | | |]; try done.
  destruct (resp_refusal _ _ _); [done|]. destruct (denial _ _ _); [done|].
  destruct (translate now_ms (RC_Set rset)) as [d|f|why]; [|done..]. cbn [result_ok mbind option_bind].
  intros [-> Hp]%batchable_inv. conjs; eauto.
Qed.

Lemma set_in_turn (c : @RespConn S) command set :
  batchable_set conf now_ms (cn_auth (rc_conn c)) command = Some set ->
  cn_batch (rc_conn c) = [] -> StoreBatch S ->
  run_execute c command
  = (mkRespConn (resp_in_turn (mkConn (cn_server (rc_conn c)) (cn_auth (rc_conn c)) (cn_out (rc_conn c)) [(set, ())]))
       (rc_version c) (rc_cursors c), Closing_No).
Proof.
  intros (Hr & Hd & Ht & Hp & rset & ->)%batchable_set_inv Hb SB. unfold resp_execute. rewrite Hr, Hd.
  cbn [resp_run]. unfold run_storage. rewrite Ht. unfold execute_for, resp_in_turn, ServerBatch.in_turn.
  rewrite execute_set by done. cbn [cn_batch cn_server cn_out cn_auth retry_loop]. rewrite execute_set by done.
  pose proof (tot_store (sv_store (cn_server (rc_conn c))) set) as Hto.
  destruct c as [[srv au out bat] ver cur]. cbn in Hb. subst bat. cbn [rc_conn cn_server cn_auth cn_out cn_batch rc_version rc_cursors] in *.
  destruct (st_store (sv_store srv) set) as [s2 [w|e|why]] eqn:Est; cbn [fst snd map_err] in *; [| |done].
  - destruct (bat_stored _ _ _ _ Hp Est) as [cas Hc]. rewrite Hc. done.
  - done.
Qed.

Lemma in_turn_one (c : Conn S unit) set :
  resp_in_turn (mkConn (cn_server c) (cn_auth c) (cn_out c) (cn_batch c ++ [(set, ())]))
  = resp_in_turn (mkConn (cn_server (resp_in_turn c)) (cn_auth (resp_in_turn c)) (cn_out (resp_in_turn c)) [(set, ())]).
Proof.
  unfold resp_in_turn, ServerBatch.in_turn. cbn [cn_server cn_auth cn_out cn_batch]. rewrite retry_loop_app.
  by destruct (retry_loop conf resp_verdict (cn_batch c) (cn_server c) (cn_out c)).
Qed.

(** Nothing but a held write holds anything. *)
Lemma execute_for_batch (c : @RespConn S) command : cn_batch (rc_conn (execute_for conf c command).1) = cn_batch (rc_conn c).
Proof. unfold execute_for. by destruct (execute conf command _). Qed.

Lemma del_by_tag_batch (c : @RespConn S) n tags : cn_batch (rc_conn (del_by_tag_loop conf c n tags).1) = cn_batch (rc_conn c).
Proof.
  revert c n. induction tags as [|tag tags IH]; intros c n; cbn [del_by_tag_loop]; [done|].
  pose proof (execute_for_batch c (Cmd_DeleteByTag tag)) as H. destruct (execute_for conf c (Cmd_DeleteByTag tag)) as [c' r].
  cbn [fst] in H. destruct r as [r|f|why]; [|done..]. destruct r; try done. by rewrite IH.
Qed.

Lemma authenticate_batch (c : @RespConn S) cred : cn_batch (rc_conn (authenticate conf c cred).1) = cn_batch (rc_conn c).
Proof. unfold authenticate. repeat case_match; done. Qed.

Lemma resp_run_batch (c : @RespConn S) command : cn_batch (rc_conn (resp_run conf now_ms instant c command).1) = cn_batch (rc_conn c).
Proof.
  assert (forall storage, cn_batch (rc_conn (run_storage conf now_ms c storage).1) = cn_batch (rc_conn c)) as Hs.
  { intros storage. unfold run_storage. destruct (translate now_ms storage) as [d| |]; [|done..].
    pose proof (execute_for_batch c d) as H. destruct (execute_for conf c d) as [c' r]. cbn [fst] in H.
    destruct r; [|done..]. by destruct (render _ _ _ _ _). }
  destruct command; try apply Hs; cbn [resp_run].
  - unfold run_hello. destruct (negotiate _ _); [|done..]. destruct auth as [cred|]; [|done].
    pose proof (authenticate_batch c cred) as H. destruct (authenticate conf c cred) as [c' []]; done.
  - done.
  - unfold run_auth. pose proof (authenticate_batch c credential) as H.
    destruct (authenticate conf c credential) as [c' []]; done.
  - unfold run_get. repeat case_match; done.
  - unfold run_mget. repeat case_match; done.
  - unfold run_del_by_tag. pose proof (del_by_tag_batch c 0 tags) as H. destruct (del_by_tag_loop _ _ _ _) as [c' []]; done.
  - unfold run_scan. destruct (negb _); [done|]. destruct (scan_position _ _ _) as [p| |]; [|done..].
    pose proof (execute_for_batch c (Cmd_ListKeys (mkListRequest (sc_count scan) p (sc_pattern scan)))) as H.
    destruct (execute_for conf c _) as [c' r]. cbn [fst] in H. destruct r as [r| |]; [|done..]. destruct r; try done.
    match goal with |- context [l_cursor ?p] => destruct (l_cursor p); [|done] end. by destruct (issue _ _ _).
  - done.
Qed.

Lemma resp_execute_batch (c : @RespConn S) command : cn_batch (rc_conn (run_execute c command).1) = cn_batch (rc_conn c).
Proof.
  pose proof (resp_run_batch c command) as H.
  assert (cn_batch (rc_conn (match resp_refusal (sv_auth conf) (cn_auth (rc_conn c)) command with
      | Some failure => (push_failure c failure, Closing_No)
      | None =>
          match denial (sv_auth conf) (cn_auth (rc_conn c)) command with
          | Some (_, name) => (rc_with_out c (error_line (rc_out c) (bs "NOPERM") (noperm name)), Closing_No)
          | None =>
              match resp_run conf now_ms instant c command with
              | (c, Err failure) => (push_failure c failure, Closing_No)
              | (c, _) => (c, Closing_No)
              end
          end
      end).1) = cn_batch (rc_conn c)) as Hg.
  { destruct (resp_refusal _ _ _); [done|]. destruct (denial _ _ _) as [[]|]; [done|].
    destruct (resp_run _ _ _ _ _) as [c' []]; done. }
  unfold resp_execute. destruct command; first [done | exact Hg].
Qed.

Context {SB : StoreBatch S}.

(** The reference: one item at a time. *)
Definition resp_plainly (c : @RespConn S) (item : RItem) : RespConn * Closing :=
  match item with
  | RItem_Command command => run_execute c command
  | RItem_Refused reply => (rc_with_out c (error_reply (rc_out c) reply), Closing_No)
  end.

Lemma flush_sets_in_turn (c : @RespConn S) : batch_ok (cn_batch (rc_conn c)) -> flush_sets conf c = rc_in_turn c.
Proof. intros H. unfold flush_sets, rc_in_turn. by rewrite flush_in_turn. Qed.

Lemma rc_in_turn_empty (c : @RespConn S) : cn_batch (rc_conn c) = [] -> rc_in_turn c = c.
Proof. intros H. unfold rc_in_turn. rewrite in_turn_empty by done. by destruct c. Qed.

Lemma rc_in_turn_batch (c : @RespConn S) : cn_batch (rc_conn (rc_in_turn c)) = [].
Proof. apply in_turn_batch. Qed.

Lemma resp_item_in_turn (c : @RespConn S) item :
  batch_ok (cn_batch (rc_conn c)) ->
  let '(c', closing) := resp_item c item in
  batch_ok (cn_batch (rc_conn c')) /\ resp_plainly (rc_in_turn c) item = (rc_in_turn c', closing)
  /\ (closing = Closing_Yes -> cn_batch (rc_conn c') = []).
Proof.
  intros Hb. destruct item as [command|reply]; cbn [resp_item resp_plainly].
  2:{ unfold resp_refused. rewrite flush_sets_in_turn by done. cbv zeta. split; [|split; [|done]].
      - cbn. rewrite in_turn_batch. apply batch_ok_nil.
      - by rewrite (rc_in_turn_empty (rc_with_out _ _)) by (cbn; apply in_turn_batch). }
  unfold resp_parsed. destruct (batchable_set conf now_ms (cn_auth (rc_conn c)) command) as [set|] eqn:Eh.
  - pose proof (batchable_set_inv _ _ _ Eh) as (_ & _ & _ & Hp & _). cbv zeta.
    assert (batchable_set conf now_ms (cn_auth (rc_conn (rc_in_turn c))) command = Some set) as Eh'.
    { unfold rc_in_turn. cbn [rc_conn]. by rewrite in_turn_auth. }
    assert (run_execute (rc_in_turn c) command
      = (mkRespConn (resp_in_turn (mkConn (cn_server (rc_conn c)) (cn_auth (rc_conn c)) (cn_out (rc_conn c))
           (cn_batch (rc_conn c) ++ [(set, ())]))) (rc_version c) (rc_cursors c), Closing_No)) as E.
    { rewrite (set_in_turn _ _ _ Eh' (rc_in_turn_batch c) SB). by rewrite in_turn_one. }
    destruct (holds (cn_batch (rc_conn c)) (s_key set)) eqn:Ek.
    + rewrite flush_sets_in_turn by done. split; [|split; [|done]].
      * cbn [rc_conn cn_batch]. unfold rc_in_turn. cbn [rc_conn]. rewrite in_turn_batch. split; cbn; [apply NoDup_singleton|by apply Forall_singleton].
      * rewrite E. f_equal. unfold rc_in_turn at 1. cbn [rc_conn rc_version rc_cursors]. f_equal.
        rewrite in_turn_one. unfold rc_in_turn. cbn [rc_conn]. by rewrite in_turn_batch.
    + split; [cbn [rc_conn cn_batch]; by apply batch_ok_snoc|]. split; [|done]. by rewrite E.
  - rewrite flush_sets_in_turn by done. pose proof (resp_execute_batch (rc_in_turn c) command) as Hn.
    rewrite rc_in_turn_batch in Hn. destruct (run_execute (rc_in_turn c) command) as [c' closing]. cbn [fst] in Hn.
    rewrite Hn, rc_in_turn_empty by done. split; [apply batch_ok_nil|done].
Qed.

Lemma resp_items_in_turn items (c : @RespConn S) :
  batch_ok (cn_batch (rc_conn c)) ->
  let '(c', closing) := resp_items resp_item c items in
  batch_ok (cn_batch (rc_conn c')) /\ resp_items resp_plainly (rc_in_turn c) items = (rc_in_turn c', closing)
  /\ (closing = Closing_Yes -> cn_batch (rc_conn c') = []).
Proof.
  revert c. induction items as [|item items IH]; intros c Hb; cbn [resp_items]; [done|].
  pose proof (resp_item_in_turn c item Hb) as Hi. destruct (resp_item c item) as [c' []].
  - destruct Hi as (Hb' & -> & Hn). done.
  - destruct Hi as (Hb' & -> & _). by apply IH.
Qed.

Lemma resp_block_plain (c : @RespConn S) block items tail :
  cn_batch (rc_conn c) = [] -> resp_cut block items tail ->
  let '(c', closing) := resp_items resp_plainly c items in
  match ended tail closing with
  | Ended_Abort => (execute_resp_block conf now_ms instant c block).2 = Ended_Abort
  | over => execute_resp_block conf now_ms instant c block = (c', over)
  end.
Proof.
  intros Hb Hc. unfold execute_resp_block. rewrite (resp_loop_items _ _ _ Hc) by done.
  assert (batch_ok (cn_batch (rc_conn c))) as Hbo by (rewrite Hb; apply batch_ok_nil).
  pose proof (resp_items_in_turn items c Hbo) as Hr.
  destruct (resp_items resp_item c items) as [c' closing] eqn:Er. destruct Hr as (Hb' & Hr & Hn).
  rewrite (rc_in_turn_empty c) in Hr by done. rewrite Hr. unfold ended. destruct closing.
  - by rewrite rc_in_turn_empty by auto.
  - destruct (aborts tail); [done|]. by rewrite flush_sets_in_turn.
Qed.

(** C23 Holding Redis writes back is invisible.  Any block of bytes is cut into
    commands and refused requests in one way, and over a store that keeps its
    batch promises, holding plain [SET]s back, writing each run of them in one
    transaction and retrying a refused run one by one leaves the server, the
    connection, the version, the scan cursors and the write buffer as executing
    the items one at a time, in order, up to the [QUIT] that ends it or the end
    of the block - unless what follows the items panics the parser, which ends
    the process. *)
Theorem resp_block_sequential (c : @RespConn S) block :
  cn_batch (rc_conn c) = [] ->
  exists items tail,
    resp_cut block items tail
    /\ (forall items' tail', resp_cut block items' tail' -> items' = items /\ tail' = tail)
    /\ let '(c', closing) := resp_items resp_plainly c items in
       match ended tail closing with
       | Ended_Abort => (execute_resp_block conf now_ms instant c block).2 = Ended_Abort
       | over => execute_resp_block conf now_ms instant c block = (c', over)
       end.
Proof.
  intros Hb. destruct (resp_cut_exists block) as (items & tail & Hc). exists items, tail. split; [done|].
  split; [by intros items' tail' H; destruct (resp_cut_unique _ _ _ _ _ Hc H) as [-> ->]|]. by apply resp_block_plain.
Qed.

End RespServer.
