(* ===== verification/RespGate.v ===== *)
(** Who may do what over the Redis dialect, and which tier a command is run on:
    the gate agrees with the domain's roles, a connection without the roles to
    write writes nothing, and the classifier that never parses a command is
    never wrong about one that writes.

    Then time over the Redis dialect: what a deadline becomes on its way into a
    record and back out of [TTL], and that a [SCAN] iteration ends. *)

From S2P Require Import Prelude Bytes Text Core Record Glob Clock Arith Command Backend Apply Read.
From S2P Require Import Float Vcp VcpEncode Auth Server ServerBatch Resp RespCommand RespParse.
From S2P Require Import RespEncode Scan RespServer RespServerSpec.

#[local] Existing Instance Exec_ret.
#[local] Existing Instance Exec_bind.

(** ** Roles *)

Lemma roles_agree {FT : FloatText} now_ms command domain :
  translate now_ms command = Ok domain -> (resp_roles command).1 = roles_for_command domain.
Proof.
  destruct command; cbn [translate]; try done; intros H;
    repeat match goal with
      | H : (_ ≫= _) = Ok _ |- _ => apply bind_inv_ok in H as (? & ? & H)
      | H : Ok _ = Ok _ |- _ => injection H as <-
      end; done.
Qed.

Section Gate.
Context {S : Type} {SO : StoreOps S} {ST : StoreTotal S} {DG : Digest} {FT : FloatText} {BI : BuildInfo}.
Variable conf : ServerConf.
Variable now_ms instant : Z.

Abbreviation run_execute := (resp_execute conf now_ms instant).

(** What running a command leaves: its own work, and the error it may end in. *)
Definition resp_ran (c : @RespConn S) (command : RespCommand) : RespConn :=
  match resp_run conf now_ms instant c command with
  | (c, Err failure) => push_failure c failure
  | (c, _) => c
  end.

(** Whether the connection may run it: nobody need authenticate and nobody has,
    or somebody has and holds the roles. *)
Definition may_run (conn : ConnAuth) (command : RespCommand) : Prop :=
  match ca_identity conn with
  | Some identity => allows (id_roles identity) (resp_roles command).1 = true
  | None => au_required (sv_auth conf) = false
            \/ match command with RC_Auth _ | RC_Hello _ (Some _) => True | _ => False end
  end.

#[local] Instance may_run_dec conn command : Decision (may_run conn command).
Proof.
  unfold may_run. destruct (ca_identity conn); [apply _|]. destruct command; try apply _. destruct auth; apply _.
Defined.

Lemma resp_execute_gate (c : @RespConn S) command :
  command <> RC_Quit ->
  let conn := cn_auth (rc_conn c) in
  run_execute c command
  = (if decide (may_run conn command) then resp_ran c command
     else match ca_identity conn with
          | None => push_failure c (noauth (match command with
                                            | RC_Hello _ _ => HELLO_UNAUTHENTICATED
                                            | _ => "Authentication required."
                                            end))
          | Some _ => rc_with_out c (error_line (rc_out c) (bs "NOPERM") (noperm (resp_roles command).2))
          end, Closing_No).
Proof.
  intros Hq. cbv zeta. set (conn := cn_auth (rc_conn c)).
  assert (run_execute c command
    = match resp_refusal (sv_auth conf) conn command with
      | Some failure => (push_failure c failure, Closing_No)
      | None =>
          match denial (sv_auth conf) conn command with
          | Some (_, name) => (rc_with_out c (error_line (rc_out c) (bs "NOPERM") (noperm name)), Closing_No)
          | None => (resp_ran c command, Closing_No)
          end
      end) as ->.
  { unfold resp_ran. destruct command; first [done | unfold resp_execute; fold conn;
      destruct (resp_refusal _ _ _); [done|]; destruct (denial _ _ _) as [[]|]; [done|];
      by destruct (resp_run _ _ _ _ _) as [? []]]. }
  unfold resp_refusal, denial, is_authenticated, refusal. destruct (resp_roles command) as [needed name] eqn:Er.
  destruct (ca_identity conn) as [identity|] eqn:Ei; cbn [orb].
  - case_decide as Hm; unfold may_run in Hm; rewrite Ei, Er in Hm; cbn [fst] in Hm.
    + by rewrite Hm.
    + destruct (allows _ _); [done|]. done.
  - destruct (au_required (sv_auth conf)) eqn:Eq; cbn [negb].
    + case_decide as Hm; unfold may_run in Hm; rewrite Ei in Hm.
      * destruct Hm as [Hm|Hm]; [congruence|]. destruct command; try done. by destruct auth.
      * destruct command; try done; try (destruct Hm; by right). destruct auth; [destruct Hm; by right|done].
    + case_decide as Hm; [done|]. destruct Hm. unfold may_run. rewrite Ei. by left.
Qed.

(** The gate of the Redis dialect is exact.  A command runs when its
    connection holds the roles it names - the same roles the shared executor's
    domain command names - or when nobody need authenticate, or to authenticate;
    otherwise the server, the identity, the version and the cursors are as they
    were, and one error line says [NOAUTH] to a stranger and [NOPERM] to an
    identity without the role. *)
Theorem resp_gate_exact (c : @RespConn S) command :
  command <> RC_Quit ->
  let conn := cn_auth (rc_conn c) in
  let '(c', closing) := run_execute c command in
  closing = Closing_No
  /\ (may_run conn command -> c' = resp_ran c command)
  /\ (~ may_run conn command ->
      unmoved c c' /\ exists message,
        rc_out c' = rc_out c ++ bs (if bool_decide (ca_identity conn = None) then "-NOAUTH " else "-NOPERM ") ++ message ++ CRLF)
  /\ forall domain, translate now_ms command = Ok domain -> (resp_roles command).1 = roles_for_command domain.
Proof.
  intros Hq conn. pose proof (resp_execute_gate c command Hq) as E. fold conn in E. cbv zeta in E. rewrite E.
  split; [done|]. split; [intros Hm; by rewrite decide_True|]. split; [|intros domain; apply roles_agree].
  intros Hm. rewrite decide_False by done. destruct (ca_identity conn) eqn:Ei.
  - rewrite bool_decide_eq_false_2 by done. split; [by conjs|]. eexists. done.
  - rewrite bool_decide_eq_true_2 by done. split; [by conjs|]. eexists. done.
Qed.

(** ** Reading *)

(** The command asks for no role that lets it change anything. *)
#[local] Instance quit_dec command : Decision (command = RC_Quit).
Proof. destruct command; first [by left | by right]. Defined.

Definition asks_to_read (command : RespCommand) : Prop :=
  allows (resp_roles command).1 Roles_WRITE = false /\ allows (resp_roles command).1 Roles_INVALIDATE = false.

Lemma execute_reading (s : Server S) command :
  match command with
  | Cmd_Ping | Cmd_Deadline _ | Cmd_Deadlines _ | Cmd_Stats | Cmd_ListKeys _ => (execute conf command s).1 = s
  | _ => True
  end.
Proof.
  destruct command; try done; cbn [execute]; unfold mbind, Exec_bind, reading, mret, Exec_ret, listing_gate.
  - by destruct (st_deadline _ _).
  - by destruct (st_deadlines _ _).
  - destruct (pr_listing_enabled _); cbn; [|done]. by destruct (st_list_keys _ _ _).
Qed.

Lemma execute_for_reading (c : @RespConn S) command :
  match command with
  | Cmd_Ping | Cmd_Deadline _ | Cmd_Deadlines _ | Cmd_Stats | Cmd_ListKeys _ =>
      cn_server (rc_conn (execute_for conf c command).1) = cn_server (rc_conn c)
  | _ => True
  end.
Proof.
  pose proof (execute_reading (cn_server (rc_conn c)) command) as H. unfold execute_for.
  destruct command; try done; destruct (execute conf _ _) as [server r]; cbn in *; congruence.
Qed.

Lemma run_storage_reading (c : @RespConn S) command :
  match translate now_ms command with
  | Ok (Cmd_Ping | Cmd_Deadline _ | Cmd_Deadlines _ | Cmd_Stats | Cmd_ListKeys _) | Err _ | Panic _ =>
      cn_server (rc_conn (run_storage conf now_ms c command).1) = cn_server (rc_conn c)
  | _ => True
  end.
Proof.
  unfold run_storage. destruct (translate now_ms command) as [d|f|why]; [|done..].
  pose proof (execute_for_reading c d) as H.
  destruct d; try done; destruct (execute_for conf c _) as [c' r]; cbn [fst] in H; destruct r; try done;
    by destruct (render _ _ _ _ _).
Qed.

Lemma authenticate_server (c : @RespConn S) cred :
  cn_server (rc_conn (authenticate conf c cred).1) = cn_server (rc_conn c).
Proof. unfold authenticate. repeat case_match; done. Qed.

Lemma resp_run_reading (c : @RespConn S) command :
  asks_to_read command -> cn_server (rc_conn (resp_run conf now_ms instant c command).1) = cn_server (rc_conn c).
Proof.
  intros [Hw Hi]. pose proof (run_storage_reading c command) as Hs.
  destruct command; try done; cbn [resp_run]; cbn [translate] in Hs;
    try (destruct (key_of key); exact Hs); try (destruct (keys_of keys); exact Hs).
  - unfold run_hello. destruct (negotiate _ _); [|done..]. destruct auth as [cred|]; [|done].
    pose proof (authenticate_server c cred) as H. by destruct (authenticate conf c cred) as [c' []].
  - unfold run_auth. pose proof (authenticate_server c credential) as H. by destruct (authenticate conf c credential) as [c' []].
  - unfold run_get. repeat case_match; done.
  - cbn in Hw. by destruct (rs_return_previous set).
  - unfold run_mget. repeat case_match; done.
  - unfold run_scan. destruct (negb _); [done|]. destruct (scan_position _ _ _) as [p| |]; [|done..].
    pose proof (execute_for_reading c (Cmd_ListKeys (mkListRequest (sc_count scan) p (sc_pattern scan)))) as H. cbv beta iota in H.
    destruct (execute_for conf c _) as [c' r]. cbn [fst] in H. destruct r as [r| |]; [|done..]. destruct r; try done.
    match goal with |- context [l_cursor ?p] => destruct (l_cursor p); [|done] end. by destruct (issue _ _ _).
Qed.

Lemma resp_execute_reading (c : @RespConn S) command :
  asks_to_read command -> cn_server (rc_conn (run_execute c command).1) = cn_server (rc_conn c).
Proof.
  intros H. destruct (decide (command = RC_Quit)) as [->|Hq]; [done|].
  rewrite (resp_execute_gate c command Hq). cbv zeta. cbn [fst]. case_decide.
  - unfold resp_ran. pose proof (resp_run_reading c command H) as Hr. by destruct (resp_run _ _ _ _ _) as [c' []].
  - by destruct (ca_identity _).
Qed.

(** ** A connection that may only read *)

Lemma allows_trans roles needed part :
  0 <= needed -> 0 <= part -> allows roles needed = true -> allows needed part = true -> allows roles part = true.
Proof. intros Hn Hp. rewrite !allows_spec by done. eauto. Qed.

Lemma execute_for_auth (c : @RespConn S) command : cn_auth (rc_conn (execute_for conf c command).1) = cn_auth (rc_conn c).
Proof. unfold execute_for. by destruct (execute conf command _). Qed.

Lemma run_storage_auth (c : @RespConn S) command : cn_auth (rc_conn (run_storage conf now_ms c command).1) = cn_auth (rc_conn c).
Proof.
  unfold run_storage. destruct (translate now_ms command) as [d| |]; [|done..].
  pose proof (execute_for_auth c d) as H. destruct (execute_for conf c d) as [c' r]. cbn [fst] in H.
  destruct r; [|done..]. by destruct (render _ _ _ _ _).
Qed.

Lemma authenticate_identity (c : @RespConn S) cred :
  verify (sv_auth conf) (default DEFAULT_NAME (wc_name cred)) (wc_secret cred) = None ->
  ca_identity (cn_auth (rc_conn (authenticate conf c cred).1)) = ca_identity (cn_auth (rc_conn c)).
Proof. intros H. destruct (authenticate_fails conf c cred H) as (c' & f & -> & (_ & _ & _ & Hi & _)). exact Hi. Qed.

Lemma del_by_tag_auth (c : @RespConn S) n tags : cn_auth (rc_conn (del_by_tag_loop conf c n tags).1) = cn_auth (rc_conn c).
Proof.
  revert c n. induction tags as [|tag tags IH]; intros c n; [done|]. cbn [del_by_tag_loop].
  pose proof (execute_for_auth c (Cmd_DeleteByTag tag)) as H. destruct (execute_for conf c _) as [c' r]. cbn [fst] in H.
  destruct r as [r| |]; [|done..]. destruct r; try done. by rewrite IH.
Qed.

(** Only signing in changes who a connection is. *)
Lemma resp_run_identity (c : @RespConn S) command :
  ~ resp_signs_in conf (RItem_Command command) ->
  ca_identity (cn_auth (rc_conn (resp_run conf now_ms instant c command).1)) = ca_identity (cn_auth (rc_conn c)).
Proof.
  intros Hno. assert (forall s, ca_identity (cn_auth (rc_conn (run_storage conf now_ms c s).1)) = ca_identity (cn_auth (rc_conn c))) as Hs.
  { intros s. by rewrite run_storage_auth. }
  destruct command; try apply Hs; try done; cbn [resp_run].
  - unfold run_hello. destruct (negotiate _ _); [|done..]. destruct auth as [cred|]; [|done].
    pose proof (authenticate_identity c cred) as H. specialize (H ltac:(by apply dec_stable)).
    by destruct (authenticate conf c cred) as [c' []].
  - unfold run_auth. pose proof (authenticate_identity c credential) as H. specialize (H ltac:(by apply dec_stable)).
    by destruct (authenticate conf c credential) as [c' []].
  - unfold run_get. repeat case_match; done.
  - unfold run_mget. repeat case_match; done.
  - unfold run_del_by_tag. pose proof (del_by_tag_auth c 0 tags) as H. destruct (del_by_tag_loop conf c 0 tags) as [c' []]; cbn in *; congruence.
  - unfold run_scan. destruct (negb _); [done|]. destruct (scan_position _ _ _) as [p| |]; [|done..].
    pose proof (execute_for_auth c (Cmd_ListKeys (mkListRequest (sc_count scan) p (sc_pattern scan)))) as H.
    destruct (execute_for conf c _) as [c' r]. cbn [fst] in H. rewrite <- H. destruct r as [r| |]; [|done..]. destruct r; try done.
    match goal with |- context [l_cursor ?p] => destruct (l_cursor p); [|done] end. by destruct (issue _ _ _).
Qed.

(** The connection's identity may neither write nor invalidate. *)
Definition reader (conn : ConnAuth) : Prop :=
  exists identity, ca_identity conn = Some identity
    /\ allows (id_roles identity) Roles_WRITE = false /\ allows (id_roles identity) Roles_INVALIDATE = false.

Lemma reader_asks conn command : reader conn -> may_run conn command -> asks_to_read command.
Proof.
  intros (identity & Hid & Hw & Hi) Hm. unfold may_run in Hm. rewrite Hid in Hm.
  assert (0 <= (resp_roles command).1) as Hn.
  { destruct command; try done; cbn; [by destruct (rs_return_previous _)|by destruct sub]. }
  split; apply not_true_iff_false; intros H; [rewrite (allows_trans (id_roles identity) (resp_roles command).1) in Hw
                                             |rewrite (allows_trans (id_roles identity) (resp_roles command).1) in Hi]; done.
Qed.

Lemma reader_execute (c : @RespConn S) command :
  reader (cn_auth (rc_conn c)) -> ~ resp_signs_in conf (RItem_Command command) ->
  let c' := (run_execute c command).1 in
  cn_server (rc_conn c') = cn_server (rc_conn c) /\ reader (cn_auth (rc_conn c')).
Proof.
  intros Hr Hno. cbv zeta. destruct (decide (command = RC_Quit)) as [->|Hq]; [done|].
  rewrite (resp_execute_gate c command Hq). cbv zeta. cbn [fst]. case_decide as Hm.
  - pose proof (reader_asks _ _ Hr Hm) as Ha. unfold resp_ran. pose proof (resp_run_reading c command Ha) as H1.
    pose proof (resp_run_identity c command Hno) as H2. destruct Hr as (i & Hi & Hrest).
    destruct (resp_run _ _ _ _ _) as [c' []]; cbn in *; (split; [done|]; exists i; by rewrite H2).
  - by destruct (ca_identity _).
Qed.

Lemma reader_item (c : @RespConn S) item :
  reader (cn_auth (rc_conn c)) -> cn_batch (rc_conn c) = [] -> ~ resp_signs_in conf item ->
  let c' := (resp_item conf now_ms instant c item).1 in
  cn_server (rc_conn c') = cn_server (rc_conn c) /\ reader (cn_auth (rc_conn c')) /\ cn_batch (rc_conn c') = [].
Proof.
  intros Hr Hb Hno. cbv zeta. destruct item as [command|reply]; cbn [resp_item].
  2:{ unfold resp_refused. by rewrite flush_sets_empty. }
  assert (batchable_set conf now_ms (cn_auth (rc_conn c)) command = None) as Eb.
  { destruct (batchable_set _ _ _ _) as [set|] eqn:E; [exfalso|done].
    apply batchable_set_inv in E as (_ & Hd & _ & _ & rset & ->). destruct Hr as (i & Hi & Hw & _).
    unfold denial, refusal in Hd. cbn [resp_roles] in Hd. rewrite Hi in Hd.
    destruct (rs_return_previous rset); [|by rewrite Hw in Hd].
    destruct (allows (id_roles i) Roles_READ_WRITE) eqn:Ea; [|done].
    pose proof (allows_trans (id_roles i) Roles_READ_WRITE Roles_WRITE) as Ht. by rewrite Ht in Hw. }
  unfold resp_parsed. rewrite Eb, flush_sets_empty by done. destruct (reader_execute c command Hr Hno) as [H1 H2].
  split; [done|]. split; [done|]. by rewrite resp_execute_batch.
Qed.

(** C24 Roles are enforced over whole blocks.  Whatever bytes a connection sends
    whose identity may neither write nor invalidate - any commands, pipelined in
    any order, malformed or not, so long as none signs in as somebody else - the
    store and the fan-out are left as they were. *)
Theorem resp_reader_writes_nothing (c : @RespConn S) block :
  reader (cn_auth (rc_conn c)) -> cn_batch (rc_conn c) = [] ->
  (forall items tail, resp_cut block items tail -> Forall (fun item => ~ resp_signs_in conf item) items) ->
  cn_server (rc_conn (execute_resp_block conf now_ms instant c block).1) = cn_server (rc_conn c).
Proof.
  intros Hr Hb Hno. destruct (resp_cut_exists block) as (items & tail & Hc).
  unfold execute_resp_block. rewrite (resp_loop_items _ _ _ _ _ _ Hc) by done.
  specialize (Hno _ _ Hc). clear Hc.
  enough (let c' := (resp_items (resp_item conf now_ms instant) c items).1 in
          cn_server (rc_conn c') = cn_server (rc_conn c) /\ cn_batch (rc_conn c') = []) as [H1 H2].
  { destruct (resp_items _ c items) as [c' closing]. cbn [fst] in H1, H2. unfold ended.
    destruct closing; [done|]. destruct (aborts tail); [done|]. cbn [fst]. by rewrite flush_sets_empty. }
  cbv zeta. revert c Hr Hb. induction Hno as [|item items Hi Hno IH]; intros c Hr Hb; cbn [resp_items]; [done|].
  destruct (reader_item c item Hr Hb Hi) as (H1 & H2 & H3). destruct (resp_item _ _ _ c item) as [c' []]; cbn [fst] in *; [done|].
  destruct (IH c' H2 H3) as [H4 H5]. split; [congruence|done].
Qed.

End Gate.

(** ** The classifier *)

Section Classify.
Context {FT : FloatText} (n : nat).

(** What a parse yields when it yields. *)
Definition yields {A} (P : A -> Prop) (m : RParse A) : Prop := forall a, m = Ok a -> P a.

Lemma yields_ok {A} (P : A -> Prop) a : P a -> yields P (Ok a).
Proof. by intros H x [= <-]. Qed.

Lemma yields_err {A} (P : A -> Prop) e : yields P (Err e).
Proof. done. Qed.

Lemma yields_panic {A} (P : A -> Prop) w : yields P (Panic w).
Proof. done. Qed.

Lemma yields_then {A B} (P : A -> Prop) (Q : B -> Prop) m (f : A -> RParse B) :
  yields P m -> (forall a, P a -> yields Q (f a)) -> yields Q (m ≫= f).
Proof. intros Hm Hf b H. apply bind_inv_ok in H as (a & Ha & H). eapply Hf; eauto. Qed.

Lemma yields_after {A B} (Q : B -> Prop) (m : RParse A) (f : A -> RParse B) : (forall a, yields Q (f a)) -> yields Q (m ≫= f).
Proof. intros Hf. by apply (yields_then (fun _ => True)). Qed.

Ltac yielding :=
  repeat first [ apply yields_err | apply yields_panic | apply yields_after; intros ? | progress cbv zeta
               | match goal with |- yields _ (fail _ _) => apply yields_err end
               | match goal with |- yields _ (Ok _) => apply yields_ok end
               | case_match ].

Lemma keyed_yields (P : RespCommand -> Prop) args name f : (forall key, P (f key)) -> yields P (keyed n args name f).
Proof. intros H. unfold keyed. yielding. apply H. Qed.

Lemma variadic_yields (P : RespCommand -> Prop) args name f : (forall keys, P (f keys)) -> yields P (variadic n args name f).
Proof. intros H. unfold variadic. yielding. apply H. Qed.

Lemma reads_verb verb raw args :
  yields (fun c => inline_safe c = bool_decide (verb ∈ READ_VERBS)) (parse_verb n verb raw args).
Proof.
  unfold parse_verb. cbv zeta.
  repeat match goal with
    | |- yields _ (if bool_decide (verb = ?w) then _ else _) =>
        destruct (bool_decide_reflect (verb = w)) as [Hv|?];
        [rewrite Hv; first [apply keyed_yields; intros; reflexivity | apply variadic_yields; intros; reflexivity | idtac]|]
    end; try apply yields_err;
    unfold parse_hello, parse_auth, parse_ping, parse_set, parse_msetex, parse_mset, parse_expire, parse_incrby,
      parse_increx, parse_scan, parse_slowlog; yielding; try reflexivity.
Qed.

(** A token that cannot disqualify a [SET]. *)
Definition qualifies (token : bytes) : Prop := existsb (eq_ignore_case token) SET_DISQUALIFIERS = false.

Lemma argument_yields (P : bytes -> Prop) tokens :
  Forall P tokens -> yields (fun '(_, rest) => Forall P rest) (option_argument n tokens).
Proof. intros [|t ts Ht Hts]; [apply yields_err|by apply yields_ok]. Qed.

Lemma expiry_yields (P : bytes -> Prop) name keep token tokens :
  Forall P tokens -> yields (fun '(_, rest) => Forall P rest) (option_expiry n name keep token tokens).
Proof.
  intros H. unfold option_expiry. destruct (_ && _); [by apply yields_ok|].
  destruct (expiry_unit token) as [[unit absolute]|]; [|by apply yields_ok].
  eapply yields_then; [by apply argument_yields|]. intros [raw rest] Hrest. by yielding.
Qed.

Lemma qualified_step name o token tokens :
  qualifies token -> Forall qualifies tokens ->
  yields (fun '(o', rest) => wo_condition o' = wo_condition o /\ wo_previous o' = wo_previous o /\ Forall qualifies rest)
    (write_step n true name o token tokens).
Proof.
  intros Hq Hts. unfold qualifies in Hq. cbn [existsb SET_DISQUALIFIERS] in Hq.
  apply orb_false_iff in Hq as [H1 Hq]. apply orb_false_iff in Hq as [H2 Hq]. apply orb_false_iff in Hq as [H3 _].
  unfold write_step. rewrite H1, H2, H3. cbn [andb].
  eapply yields_then; [by apply expiry_yields|]. intros [[e|] rest] Hrest; yielding. done.
Qed.

Lemma qualified_loop name fuel o tokens :
  Forall qualifies tokens ->
  yields (fun o' => wo_condition o' = wo_condition o /\ wo_previous o' = wo_previous o)
    (options_loop fuel (write_step n true name) o tokens).
Proof.
  revert o tokens. induction fuel as [|fuel IH]; intros o tokens H; destruct H as [|t ts Ht Hts]; cbn [options_loop];
    try by apply yields_ok.
  { apply yields_panic. }
  eapply yields_then; [by apply qualified_step|]. intros [o' rest] (<- & <- & Hrest). by apply IH.
Qed.

Lemma plain_set_yields args :
  plainly_batchable args = true -> yields (fun c => batchable_write c = true) (parse_set n args Tagged_No).
Proof.
  unfold plainly_batchable. intros [_ Hp]%andb_true_iff. apply negb_true_iff in Hp.
  assert (Forall qualifies (drop 3 args)) as Hq.
  { apply Forall_forall. intros t Ht. unfold qualifies. apply not_true_iff_false. intros H.
    apply not_true_iff_false in Hp. apply Hp, existsb_exists. exists t. split; [by apply list_elem_of_In|done]. }
  unfold parse_set. cbv zeta. cbn [tagged_yes pick]. unfold at_least. destruct (_ <? _)%nat; [apply yields_err|].
  cbn [mbind Result_bind tag_list tagged_yes negb]. apply yields_after. intros key. apply yields_after. intros value.
  eapply yields_then; [by apply qualified_loop|]. intros o [H1 H2]. apply yields_ok. cbn. rewrite H1, H2. done.
Qed.

Lemma classify_ok args p :
  parse_command n args = Ok p ->
  (classify args = Run_Reads <-> inline_safe (rp_command p) = true)
  /\ (classify args = Run_Writes -> batchable_write (rp_command p) = true).
Proof.
  unfold parse_command. intros H. apply bind_inv_ok in H as (raw & Hraw & H). apply bind_inv_ok in H as (c & Hc & H).
  injection H as <-. cbn [rp_command]. destruct args as [|raw' rest]; [done|].
  cbn in Hraw. injection Hraw as ->. pose proof (reads_verb _ _ _ c Hc) as Hr. cbn beta in Hr. cbn [classify]. rewrite Hr.
  case_bool_decide as Hv; [done|]. destruct (bool_decide_reflect (upper_verb raw = bs "SET")) as [Hs|Hs]; cbn [andb]; [|done].
  destruct (plainly_batchable _) eqn:Ep; [|done]. split; [done|]. intros _. rewrite Hs in Hc.
  change (parse_set n (raw :: rest) Tagged_No = Ok c) in Hc. by eapply plain_set_yields.
Qed.

End Classify.

(** The shortcut on the wire form is the domain's test. *)
Lemma batchable_write_awaitable {FT : FloatText} now_ms command domain :
  translate now_ms command = Ok domain -> batchable_write command = awaitable domain.
Proof.
  destruct command; cbn [translate]; try done; intros H;
    repeat match goal with
      | H : (_ ≫= _) = Ok _ |- _ => apply bind_inv_ok in H as (? & ? & H)
      | H : Ok _ = Ok _ |- _ => injection H as <-
      end; try done.
  unfold awaitable. cbn [batchable s_mode s_return_previous batchable_write].
  destruct (rs_condition set), (rs_return_previous set); cbn; try done.
Qed.

Lemma inline_asks_to_read command : inline_safe command = true -> asks_to_read command.
Proof. by destruct command. Qed.

(** The tier picked for a request that is never parsed is right.  When the
    arguments do parse, the classifier says [Reads] exactly for the commands
    that are safe inline, and running one of those leaves the store and the
    fan-out alone whoever sends it; it says [Writes] only for a [SET] that the
    awaited write path takes, by the shortcut and by the domain's test alike. *)
Theorem classify_exact {S : Type} {SO : StoreOps S} {ST : StoreTotal S} {DG : Digest} {FT : FloatText} {BI : BuildInfo}
    conf now_ms instant n args p (c : @RespConn S) :
  parse_command n args = Ok p ->
  (classify args = Run_Reads <-> inline_safe (rp_command p) = true)
  /\ (classify args = Run_Reads ->
      cn_server (rc_conn (resp_execute conf now_ms instant c (rp_command p)).1) = cn_server (rc_conn c))
  /\ (classify args = Run_Writes ->
      batchable_write (rp_command p) = true
      /\ forall domain, translate now_ms (rp_command p) = Ok domain -> awaitable domain = true).
Proof.
  intros Hp. destruct (classify_ok n args p Hp) as [H1 H2]. split; [done|]. split.
  - intros Hc. apply resp_execute_reading, inline_asks_to_read. by apply H1.
  - intros Hw. split; [by apply H2|]. intros domain Hd. rewrite <- (batchable_write_awaitable _ _ _ Hd). by apply H2.
Qed.

(** ** Deadlines *)

(** A clock past the first 30 days of 1970, within half of [i64]. *)
Definition modern (now : Z) : Prop := MAX_TTL_SECS * 1000 <= now < 2 ^ 62.

Definition LAST_DEADLINE : Z := (U32_MAX - 1) * 1000.

Lemma saturating_small z : I64_MIN <= z <= I64_MAX -> saturating_i64 z = z.
Proof. unfold saturating_i64. lia. Qed.

Lemma quot_bounds a : 0 <= a -> 1000 * Z.quot a 1000 <= a < 1000 * Z.quot a 1000 + 1000.
Proof. intros H. rewrite Z.quot_div_nonneg by lia. pose proof (Z.div_mod a 1000 ltac:(lia)). pose proof (Z.mod_pos_bound a 1000 ltac:(lia)). lia. Qed.

Lemma future_ttl d now :
  modern now -> now < d <= I64_MAX ->
  exists seconds, ttl_from_deadline d now = Z.min seconds (U32_MAX - 1) /\ MAX_TTL_SECS < seconds
    /\ now < seconds * 1000 /\ Z.min d (I64_MAX - 500) - 500 < seconds * 1000 <= Z.max (d + 500) (now + 1000)
    /\ (d + 500 <= I64_MAX -> now < Z.quot (d + 500) 1000 * 1000 -> seconds = Z.quot (d + 500) 1000).
Proof.
  intros [Hn1 Hn2] Hd. unfold ttl_from_deadline. rewrite (proj2 (Z.leb_gt _ _)) by lia. cbv zeta.
  assert (2 ^ 62 = 4611686018427387904) as E62 by done. rewrite E62 in Hn2. clear E62.
  unfold I64_MAX in Hd. unfold MAX_TTL_SECS in *.
  set (a := saturating_i64 (d + 500)). assert (a = Z.min (d + 500) I64_MAX) as Ha by (subst a; unfold saturating_i64, I64_MAX, I64_MIN; lia).
  unfold I64_MAX in *. pose proof (quot_bounds a ltac:(lia)) as Hq. set (q := Z.quot a 1000) in *.
  assert (d + 500 <= 9223372036854775807 -> q = Z.quot (d + 500) 1000) as Hq0 by (intros; subst q; by rewrite Ha, Z.min_l by lia).
  rewrite (saturating_small (q * 1000)) by (unfold I64_MIN, I64_MAX; lia).
  destruct (Z.leb_spec (q * 1000) now) as [Hle|Hgt].
  - pose proof (quot_bounds now ltac:(lia)) as Hqn. set (m := Z.quot now 1000) in *. exists (m + 1).
    rewrite (proj2 (Z.leb_gt (m + 1) _)) by lia. split; [|conjs; try lia; intros Hs Hq'; rewrite <- Hq0 in Hq' by lia; lia].
    unfold U32_MAX. destruct (_ && _) eqn:E; [done|]. rewrite !andb_false_iff, !Z.leb_gt in E. lia.
  - exists q. rewrite (proj2 (Z.leb_gt q _)) by lia. split; [|conjs; try lia; intros Hs _; by apply Hq0].
    unfold U32_MAX. destruct (_ && _) eqn:E; [done|]. rewrite !andb_false_iff, !Z.leb_gt in E. lia.
Qed.


(** ** An iteration *)

Section Iterate.
Context {S : Type} {SO : StoreOps S} {ST : StoreTotal S} {DG : Digest} {FT : FloatText} {BI : BuildInfo}.
Variable conf : ServerConf.
Variables (pattern : bytes) (count : Z).

Definition next_scan (token : Z) : RespCommand := RC_Scan (mkScan token pattern count true).

(** What an iteration is answered while the store changes under it: each page is
    what the store of that moment lists from the cursor of the page before, up to
    a page that has none.  The store at the first call, and at the calls after. *)
Inductive store_pages : S -> list S -> bytes -> list (list ListEntry) -> Prop :=
| pages_last s position page :
    st_list_keys s (mkListRequest count position pattern) (pr_listing_max_scan (sv_protocol conf)) = Ok page ->
    l_cursor page = None ->
    store_pages s [] position [l_entries page]
| pages_more s s' stores position page next pages :
    st_list_keys s (mkListRequest count position pattern) (pr_listing_max_scan (sv_protocol conf)) = Ok page ->
    l_cursor page = Some next ->
    store_pages s' stores next pages ->
    store_pages s (s' :: stores) position (l_entries page :: pages).

(** [SCAN token] at some instant, and again with each token that is answered,
    until [0]: these pages, whatever the store has become by the next call,
    whatever the clock says within the time to live, the other iterations that
    have issued tokens meanwhile, fewer than the table holds, and what else the
    connection has been told. *)
Inductive scan_iteration : list S -> Z -> @RespConn S -> Z -> list (list ListEntry) -> Prop :=
| iteration_last token c instant entries :
    (forall now_ms, exists c', resp_execute conf now_ms instant c (next_scan token) = (c', Closing_No)
      /\ rc_out c' = answer_scan (rc_out c) START entries) ->
    scan_iteration [] token c instant [entries]
| iteration_more s' stores token c instant entries next cursors pages :
    (forall now_ms, exists c', resp_execute conf now_ms instant c (next_scan token) = (c', Closing_No)
      /\ rc_out c' = answer_scan (rc_out c) next entries /\ rc_cursors c' = cursors) ->
    START < next ->
    (forall c' later instant',
       sv_store (cn_server (rc_conn c')) = s' -> cn_auth (rc_conn c') = cn_auth (rc_conn c) ->
       rc_cursors c' = issues cursors later -> (length later < cu_capacity cursors)%nat ->
       cu_next cursors + len later < U64_MAX -> Forall (fun l => l.2 <= instant') later ->
       instant <= instant' < instant + cu_ttl cursors ->
       scan_iteration stores next c' instant' pages) ->
    scan_iteration (s' :: stores) token c instant (entries :: pages).

Lemma list_keys_run (s : Server S) request page :
  pr_listing_enabled (sv_protocol conf) = true ->
  st_list_keys (sv_store s) request (pr_listing_max_scan (sv_protocol conf)) = Ok page ->
  execute conf (Cmd_ListKeys request) s = (s, Ok (Reply_Listing page)).
Proof.
  intros He Hp. cbn [execute]. unfold mbind, Exec_bind, reading, mret, Exec_ret, listing_gate. rewrite He. cbn. by rewrite Hp.
Qed.

(** One call, whose token stands for a position. *)
Lemma scan_call now_ms instant (c : @RespConn S) token position page :
  may_run conf (cn_auth (rc_conn c)) (next_scan token) -> pr_listing_enabled (sv_protocol conf) = true ->
  scan_position instant (rc_cursors c) token = Ok position ->
  st_list_keys (sv_store (cn_server (rc_conn c))) (mkListRequest count position pattern)
    (pr_listing_max_scan (sv_protocol conf)) = Ok page ->
  let '(next, cursors) := match l_cursor page with
                          | Some position => issue (rc_cursors c) position instant
                          | None => (START, rc_cursors c)
                          end in
  exists c', resp_execute conf now_ms instant c (next_scan token) = (c', Closing_No)
    /\ rc_out c' = answer_scan (rc_out c) next (l_entries page) /\ rc_cursors c' = cursors.
Proof.
  intros Hm He Ht Hp.
  pose proof (resp_execute_gate conf now_ms instant c (next_scan token) ltac:(done)) as E. cbv zeta in E.
  rewrite decide_True in E by done. rewrite E. clear E.
  unfold resp_ran, next_scan, resp_run, run_scan. cbn [sc_only_strings negb sc_token sc_count sc_pattern].
  rewrite Ht. cbv zeta. unfold execute_for. rewrite (list_keys_run _ _ page) by done. cbn [map_err].
  destruct (match l_cursor page with Some _ => _ | None => _ end) as [next cursors].
  eexists. by conjs.
Qed.

Lemma issues_next c later :
  Table c -> cu_next c + len later < U64_MAX -> cu_next (issues c later) = cu_next c + len later.
Proof.
  revert c. induction later as [|[cursor t] later IH]; intros c Hc Hn; [unfold len; cbn; lia|]. cbn [issues foldl].
  assert (len ((cursor, t) :: later) = 1 + len later) as El by (unfold len; cbn; lia). pose proof (len_nonneg later).
  assert (cu_next (issue c cursor t).2 = cu_next c + 1) as En.
  { unfold issue, draw. cbn. unfold wrapping. apply Z.mod_small. pose proof (ta_next c Hc). unfold START in *. width. }
  fold (issues (issue c cursor t).2 later). rewrite IH; [lia|apply issue_Table; [lia|done]|lia].
Qed.

Lemma issues_capacity c later : cu_capacity (issues c later) = cu_capacity c.
Proof. revert c. induction later as [|[cursor t] later IH]; intros c; [done|]. apply (IH (issue c cursor t).2). Qed.

Lemma pages_iterate s stores position pages :
  store_pages s stores position pages -> pr_listing_enabled (sv_protocol conf) = true ->
  forall token (c : @RespConn S) instant,
  sv_store (cn_server (rc_conn c)) = s -> may_run conf (cn_auth (rc_conn c)) (next_scan token) ->
  scan_position instant (rc_cursors c) token = Ok position ->
  Table (rc_cursors c) -> cu_next (rc_cursors c) < U64_MAX ->
  (0 < cu_capacity (rc_cursors c))%nat -> 0 < cu_ttl (rc_cursors c) ->
  scan_iteration stores token c instant pages.
Proof.
  intros Hp He. induction Hp as [s position page Hp Hc|s s' stores position page next pages Hp Hc Hps IH];
    intros token c instant <- Hm Ht Htab Hnext Hcap Httl.
  - apply iteration_last. intros now_ms. pose proof (scan_call now_ms instant c token position page Hm He Ht Hp) as E.
    rewrite Hc in E. destruct E as (c' & E & Ho & _). eauto.
  - pose proof (fun now_ms => scan_call now_ms instant c token position page Hm He Ht Hp) as E. rewrite Hc in E.
    pose proof (issue_Table (rc_cursors c) next instant Hnext Htab) as Htab1.
    pose proof (ta_next _ Htab) as Hx.
    assert (cu_next (issue (rc_cursors c) next instant).2 = cu_next (rc_cursors c) + 1) as En.
    { unfold issue, draw. cbn. unfold wrapping. apply Z.mod_small. unfold START in *. width. }
    pose proof (issue_lives (rc_cursors c) next instant) as Hlives.
    assert ((issue (rc_cursors c) next instant).1 = cu_next (rc_cursors c)) as Etok by done.
    assert (cu_ttl (issue (rc_cursors c) next instant).2 = cu_ttl (rc_cursors c)) as Ettl by done.
    assert (cu_capacity (issue (rc_cursors c) next instant).2 = cu_capacity (rc_cursors c)) as Ecap by done.
    destruct (issue (rc_cursors c) next instant) as [tok cursors]. cbn [fst snd] in *.
    eapply (iteration_more s' stores token c instant (l_entries page) tok cursors pages E); [lia|].
    intros c' later instant' Hs Ha Hcur Hlen Hbound Hlater Hinst.
    specialize (Hlives later instant' Htab ltac:(lia) ltac:(lia) Hlater ltac:(lia)).
    apply IH.
    + exact Hs.
    + rewrite Ha. exact Hm.
    + unfold scan_position. rewrite (proj2 (Z.eqb_neq tok START)) by lia. by rewrite Hcur, Hlives.
    + rewrite Hcur. apply issues_Table; [done|lia].
    + rewrite Hcur, issues_next by done. lia.
    + rewrite Hcur, issues_capacity. lia.
    + rewrite Hcur, issues_ttl. lia.
Qed.

(** C25 A [SCAN] iteration is answered the store's own pages, and ends where they
    do.  Whatever is written between its calls: where the pages the store of each
    moment lists, each from the cursor of the one before, come to one without a
    cursor, a client that starts at [0] and asks again with each token it is
    given, within the time to live, is answered those pages in that order, each
    with a token that is not [0], and after the last one [0].  Other clients may
    issue tokens meanwhile, fewer than the table holds, each drawn and recorded
    before the next: of two that race, the one drawn first and recorded last is
    lost. *)
Theorem scan_iteration_ends (c : @RespConn S) instant stores pages :
  let conn := cn_auth (rc_conn c) in
  let cursors := rc_cursors c in
  may_run conf conn (next_scan START) -> pr_listing_enabled (sv_protocol conf) = true ->
  Table cursors -> cu_next cursors < U64_MAX -> (0 < cu_capacity cursors)%nat -> 0 < cu_ttl cursors ->
  store_pages (sv_store (cn_server (rc_conn c))) stores [] pages ->
  scan_iteration stores START c instant pages.
Proof. cbv zeta. intros Hm He Ht Hn Hc Hl Hp. by eapply pages_iterate. Qed.

End Iterate.
