(* ===== verification/Conn.v ===== *)
(** [vash-server/src/conn.rs] and [vash-proto/src/lib.rs]: what a connection does
    with the bytes a read gave it - the dialect settled by the first byte, the
    ceilings on what is buffered, how each dialect measures whole commands and
    sorts them into runs, which tier a run takes, the awaited run of writes, and
    when the connection ends.

    Sockets, timers and tasks are events here: a read of some bytes, a deadline
    that has passed, the drain of a server shutting down.  The hand-off to the
    blocking pool is the copy out and back of what the block may change. *)

From S2P Require Import Prelude Bytes Text Core Record Glob Clock Arith Float Command Backend Apply Read.
From S2P Require Import Vcp VcpEncode Auth Server Mc McEncode McServer Resp RespCommand RespEncode Scan RespServer.

#[local] Delimit Scope string_scope with str.

(** ** vash-proto/src/lib.rs: the dialect *)

Inductive Dialect : Type := Dialect_Vcp | Dialect_Memcached | Dialect_Resp.

#[global] Instance Dialect_eq_dec : EqDecision Dialect.
Proof. solve_decision. Defined.

(** The byte is the [UnknownProtocol]. *)
Definition detect (buf : bytes) : option (Result byte Dialect) :=
  first ← head buf;
  Some (if byte_val first =? Opcode_code Opcode_Hello then Ok Dialect_Vcp
        else if bool_decide (first = "*"%byte) then Ok Dialect_Resp
        else if in_range 97 122 first then Ok Dialect_Memcached
        else Err first).

(** ** Measuring *)

Definition PRE_AUTH_MAX_BUFFERED : Z := 4096.

Record Run := mkRun { run_len : nat; run_count : nat; run_kind : RunKind }.

Record Measured := mkMeasured { ms_complete : nat; ms_fatal : option String.string; ms_reserve : Z }.

Definition Measured_default : Measured := mkMeasured 0 None 0.

(** [Run::extend]. *)
Fixpoint run_extend (runs : list Run) (kind : RunKind) (len : nat) : list Run :=
  match runs with
  | [] => [mkRun len 1 kind]
  | [last] =>
      if bool_decide (run_kind last = kind)
      then [mkRun (run_len last + len) (run_count last + 1) (run_kind last)]
      else [last; mkRun len 1 kind]
  | run :: runs' => run :: run_extend runs' kind len
  end.

Definition worth_inlining (kind : RunKind) (block_commands : nat) (enabled : bool) (max_commands : nat) : bool :=
  bool_decide (kind = Run_Reads) && enabled && (block_commands <=? max_commands)%nat.

Definition measured_more (m : Measured) (len : nat) : Measured := mkMeasured (ms_complete m + len) (ms_fatal m) (ms_reserve m).

Definition measured_fatal (m : Measured) (detail : String.string) : Measured :=
  mkMeasured (ms_complete m) (Some detail) (ms_reserve m).

Definition is_read_only_frame (frame : bytes) : bool :=
  match opcode ← (first ← head frame; Opcode_from_u8 (byte_val first)); Some (Opcode_inline_safe opcode) with
  | Some safe => safe
  | None => false
  end.

(** Each round of a measure takes a command of a byte at least. *)
Fixpoint measure_vcp_loop (fuel : nat) (buf : bytes) (gated : bool) (m : Measured) (runs : list Run) : Measured * list Run :=
  match fuel with
  | O => (m, runs)
  | S fuel' =>
      let rest := drop (ms_complete m) buf in
      match peek_frame_len rest with
      | FrameLen_Complete total =>
          let len := Z.to_nat total in
          let kind := if is_read_only_frame (take len rest) then Run_Reads else Run_Other in
          measure_vcp_loop fuel' buf gated (measured_more m len) (run_extend runs kind len)
      | FrameLen_Incomplete needed =>
          if gated && (PRE_AUTH_MAX_BUFFERED <? needed)
          then (measured_fatal m "unauthenticated frame is too large"%str, runs)
          else (mkMeasured (ms_complete m) (ms_fatal m) needed, runs)
      | FrameLen_TooLarge => (measured_fatal m "frame length exceeds the maximum"%str, runs)
      end
  end.

Definition measure_vcp (gated : bool) (buf : bytes) : Measured * list Run :=
  measure_vcp_loop (S (length buf)) buf gated Measured_default [].

Definition memcached_kind (parsed : Parsed) : RunKind :=
  let storage := match pa_style parsed with Style_Storage => true | _ => false end in
  if Command_inline_safe (pa_command parsed) then Run_Reads
  else if storage && awaitable (pa_command parsed) then Run_Writes
  else Run_Other.

Fixpoint measure_memcached_loop (fuel : nat) (buf : bytes) (m : Measured) (runs : list Run) : Measured * list Run :=
  match fuel with
  | O => (m, runs)
  | S fuel' =>
      match mc_parse (drop (ms_complete m) buf) with
      | Ok Mc_Incomplete | Panic _ => (m, runs)
      | Ok (Mc_Command parsed) =>
          measure_memcached_loop fuel' buf (measured_more m (pa_consumed parsed))
            (run_extend runs (memcached_kind parsed) (pa_consumed parsed))
      | Err (Recoverable _ consumed) =>
          measure_memcached_loop fuel' buf (measured_more m consumed) (run_extend runs Run_Other consumed)
      | Err (Fatal detail) => (measured_fatal m detail, runs)
      end
  end.

Definition measure_memcached (buf : bytes) : Measured * list Run :=
  measure_memcached_loop (S (length buf)) buf Measured_default [].

Fixpoint measure_resp_loop (fuel : nat) (buf : bytes) (m : Measured) (runs : list Run) : Measured * list Run :=
  match fuel with
  | O => (m, runs)
  | S fuel' =>
      match peek (drop (ms_complete m) buf) classify with
      | Ok Framed_Incomplete | Panic _ => (m, runs)
      | Ok (Framed_Command classified consumed) =>
          measure_resp_loop fuel' buf (measured_more m consumed) (run_extend runs classified consumed)
      | Err fatal => (measured_fatal m (fe_detail fatal), runs)
      end
  end.

Definition measure_resp (buf : bytes) : Measured * list Run :=
  measure_resp_loop (S (length buf)) buf Measured_default [].

(** ** Draining *)

(** What a block may change: the server, the connection's authentication, the
    write buffer, and the slot each dialect keeps for itself. *)
Record Wire (St D : Type) := mkWire { wi_server : Server St; wi_auth : ConnAuth; wi_out : bytes; wi_slot : D }.

Arguments mkWire {St D} wi_server wi_auth wi_out wi_slot.
Arguments wi_server {St D} w.
Arguments wi_auth {St D} w.
Arguments wi_out {St D} w.
Arguments wi_slot {St D} w.

(** How a dialect decodes a run of nothing but writes, and what it says for each
    that stored. *)
Record Writes := mkWrites { wr_parse : bytes -> option (list SetReq * list bool); wr_stored : bytes }.

(** Whether and for which blocks reads run on the worker. *)
Record Tier := mkTier { ti_inline_reads : bool; ti_inline_max_commands : nat }.

(** An awaited run is done, or is declined, or panics with its task. *)
Inductive Awaited : Type := Awaited_Done | Awaited_Declined | Awaited_Panicked.

Section Drain.
Context {St : Type} {SO : StoreOps St} {D : Type}.
Variable tier : Tier.
Variable measure : bytes -> Measured * list Run.
(** The dialect's block executor. *)
Variable run : Wire St D -> bytes -> Wire St D * Ended.
Variable on_fatal : bytes -> String.string -> bytes.
Variable writes : option Writes.

Abbreviation Wire := (Conn.Wire St D).

Definition wi_with_out (c : Wire) (out : bytes) : Wire := mkWire (wi_server c) (wi_auth c) out (wi_slot c).

(** [submit_set_many] and the wait for it are the store's [set_many]. *)
Definition run_writes_awaited (w : Writes) (c : Wire) (block : bytes) : Wire * Awaited :=
  match wr_parse w block with
  | None => (c, Awaited_Declined)
  | Some (sets, suppress) =>
      if bool_decide (sets = []) then (c, Awaited_Declined)
      else
        let '(store, result) := st_set_many (sv_store (wi_server c)) sets in
        let server := mkServer store (sv_fanout (wi_server c)) in
        let c := mkWire server (wi_auth c) (wi_out c) (wi_slot c) in
        match result with
        | Ok _ =>
            (wi_with_out c (foldl (fun out (suppressed : bool) => if suppressed then out else out ++ wr_stored w) (wi_out c) suppress),
             Awaited_Done)
        | Err _ => (c, Awaited_Declined)
        | Panic _ => (c, Awaited_Panicked)
        end
  end.

(** On the pool the block works on copies, which are taken back after it. *)
Definition run_block (inline : bool) (c : Wire) (block : bytes) : Wire * Ended :=
  if inline then run c block
  else
    let authenticating := wi_auth c in
    let negotiating := wi_slot c in
    let out := wi_out c in
    let '(after, closing) := run (mkWire (wi_server c) authenticating out negotiating) block in
    (mkWire (wi_server after) (wi_auth after) (wi_out after) (wi_slot after), closing).

(** The run may go inline; the run may be awaited. *)
Definition run_inline (reads_inline : bool) (r : Run) : bool := bool_decide (run_kind r = Run_Reads) && reads_inline.

Definition run_awaitable (r : Run) : bool := bool_decide (run_kind r = Run_Writes) && bool_decide (is_Some writes).

(** The runs that join a hop to the pool: their bytes, and the runs left. *)
Fixpoint joined (reads_inline : bool) (runs : list Run) : nat * list Run :=
  match runs with
  | next :: runs' =>
      if run_inline reads_inline next || run_awaitable next then (O, runs)
      else let '(len, later) := joined reads_inline runs' in ((run_len next + len)%nat, later)
  | [] => (O, [])
  end.

(** One round per hop, which takes a run at least. *)
Fixpoint drain_runs (fuel : nat) (reads_inline : bool) (runs : list Run) (c : Wire) (block : bytes) : Wire * Ended :=
  match fuel, runs with
  | S fuel', r :: runs' =>
      let inline := run_inline reads_inline r in
      let awaitable := run_awaitable r in
      let '(more, later) := if negb inline && negb awaitable then joined reads_inline runs' else (O, runs') in
      let len := (run_len r + more)%nat in
      let slice := take len block in
      let '(c, awaited) :=
        match writes with
        | Some w => if awaitable then run_writes_awaited w c slice else (c, Awaited_Declined)
        | None => (c, Awaited_Declined)
        end in
      match awaited with
      | Awaited_Done => drain_runs fuel' reads_inline later c (drop len block)
      | Awaited_Panicked => (c, Ended_Abort)
      | Awaited_Declined =>
          match run_block inline c slice with
          | (c, Ended_Closing Closing_No) => drain_runs fuel' reads_inline later c (drop len block)
          | ended => ended
          end
      end
  | _, _ => (c, Ended_Closing Closing_No)
  end.

Definition block_commands (runs : list Run) : nat := sum_list_with run_count runs.

(** [drain], of the read buffer: what is left of it, and how it ended. *)
Definition drain (c : Wire) (read_buf : bytes) : Wire * bytes * Ended :=
  let '(measured, runs) := measure read_buf in
  let '(c, ended) :=
    if (0 <? ms_complete measured)%nat then
      let block := take (ms_complete measured) read_buf in
      let reads_inline :=
        worth_inlining Run_Reads (block_commands runs) (ti_inline_reads tier) (ti_inline_max_commands tier) in
      let runs :=
        if negb reads_inline && (1 <? length runs)%nat
        then [mkRun (ms_complete measured) (block_commands runs) Run_Other] else runs in
      drain_runs (length runs) reads_inline runs c block
    else (c, Ended_Closing Closing_No) in
  let rest := drop (ms_complete measured) read_buf in
  match ended with
  | Ended_Abort => (c, rest, Ended_Abort)
  | Ended_Closing closing =>
      match ms_fatal measured with
      | Some detail => (wi_with_out c (on_fatal (wi_out c) detail), rest, Ended_Closing Closing_Yes)
      | None => (c, rest, Ended_Closing closing)
      end
  end.

End Drain.

(** How many bytes [drain] asks the read buffer to grow by. *)
Definition reserve_more (reserve buffered capacity : Z) : Z :=
  let ceiling := Z.max capacity (Z.min (buffered * 2) U64_MAX) in
  let target := Z.min reserve ceiling in
  Z.max 0 (target - buffered).

(** ** The three dialects *)

Section Handle.
Context {St : Type} {SO : StoreOps St} {DG : Digest} {FT : FloatText} {BI : BuildInfo}.
Variable conf : ServerConf.
(** The wall clock and the monotonic clock, in milliseconds, during a read. *)
Variable now_ms instant : Z.
Variable stats_section : StatsSection -> bool -> list (bytes * bytes).
Variable tier : Tier.

Definition run_vcp (c : Wire St unit) (block : bytes) : Wire St unit * Ended :=
  let '(server, auth, out) := execute_vcp_block conf now_ms (wi_server c) (wi_auth c) block (wi_out c) in
  (mkWire server auth out (wi_slot c), Ended_Closing Closing_No).

(** The slot says whether the socket is encrypted. *)
Definition run_memcached (c : Wire St bool) (block : bytes) : Wire St bool * Ended :=
  let '(server, auth, out, closing) :=
    execute_memcached_block conf now_ms stats_section (wi_server c) (wi_auth c) block (wi_slot c) (wi_out c) in
  (mkWire server auth out (wi_slot c), Ended_Closing closing).

(** The slot holds the version negotiated; the server's table of cursors goes
    with it. *)
Definition run_resp (c : Wire St (Version * ScanCursors)) (block : bytes) : Wire St (Version * ScanCursors) * Ended :=
  let '(version, cursors) := wi_slot c in
  let '(after, ended) :=
    execute_resp_block conf now_ms instant
      (mkRespConn (mkConn (wi_server c) (wi_auth c) (wi_out c) []) version cursors) block in
  (mkWire (cn_server (rc_conn after)) (cn_auth (rc_conn after)) (cn_out (rc_conn after))
     (rc_version after, rc_cursors after), ended).

Definition conn_may_write (auth : ConnAuth) : bool := bool_decide (refusal (sv_auth conf) auth Roles_WRITE = None).

Definition gated (auth : ConnAuth) : bool := negb (is_authenticated auth) && au_required (sv_auth conf).

Definition memcached_writes : Writes := mkWrites parse_memcached_writes (bs "STORED" ++ CRLF).

Definition resp_writes : Writes := mkWrites (resp_parse_writes now_ms) OK_LINE.

(** [may_write.then_some(..)]. *)
Definition writes_if (may_write : bool) (w : Writes) : option Writes := if may_write then Some w else None.

Definition drain_vcp (c : Wire St unit) (read_buf : bytes) : Wire St unit * bytes * Ended :=
  drain tier (measure_vcp (gated (wi_auth c))) run_vcp (fun out _ => out) None c read_buf.

Definition drain_memcached (c : Wire St bool) (read_buf : bytes) : Wire St bool * bytes * Ended :=
  drain tier measure_memcached run_memcached (fun out _ => out)
    (writes_if (conn_may_write (wi_auth c)) memcached_writes) c read_buf.

Definition drain_resp (c : Wire St (Version * ScanCursors)) (read_buf : bytes)
    : Wire St (Version * ScanCursors) * bytes * Ended :=
  drain tier measure_resp run_resp protocol_error
    (writes_if (conn_may_write (wi_auth c)) resp_writes) c read_buf.

(** ** The connection *)

(** What bounds a connection: [ConnLimits], the limits before authentication,
    and the dialects switched on. *)
Record HandleConf := mkHandleConf {
  hc_max_buffered_bytes : Z;
  hc_first_byte_timeout_ms : Z;
  hc_max_attempts : Z;
  hc_memcached_enabled : bool;
  hc_resp_enabled : bool
}.

Variable limits : HandleConf.

(** [ProtocolConfig::dialect_enabled]. *)
Definition dialect_enabled (dialect : Dialect) : bool :=
  match dialect with
  | Dialect_Vcp => true
  | Dialect_Memcached => hc_memcached_enabled limits
  | Dialect_Resp => hc_resp_enabled limits
  end.

Record Handle := mkHandle {
  hd_server : Server St;
  hd_auth : ConnAuth;
  hd_read_buf : bytes;
  hd_protocol : option Dialect;
  hd_version : Version;
  hd_cursors : ScanCursors;
  hd_encrypted : bool
}.

Definition unauthenticated (h : Handle) : bool := au_required (sv_auth conf) && negb (is_authenticated (hd_auth h)).

(** What the loop waits for. *)
Inductive Event : Type :=
| Event_Read (received : bytes)
| Event_Shutdown
| Event_Deadline
| Event_Silence.

(** What a turn of the loop ends in, with what it wrote to the socket. *)
Inductive Turn : Type :=
| Turn_Open (h : Handle) (sent : bytes)
| Turn_Closed (h : Handle) (sent : bytes)
| Turn_Aborted.

Definition hd_with_wire {D} (dialect : Dialect) (c : Wire St D) (rest : bytes) (version : Version)
    (cursors : ScanCursors) (encrypted : bool) : Handle :=
  mkHandle (wi_server c) (wi_auth c) rest (Some dialect) version cursors encrypted.

(** The one drain, whichever dialect: the connection after it, the write buffer,
    and how it ended. *)
Definition drain_settled (h : Handle) (dialect : Dialect) (read_buf : bytes) : Handle * bytes * Ended :=
  match dialect with
  | Dialect_Vcp =>
      let '(c, rest, ended) := drain_vcp (mkWire (hd_server h) (hd_auth h) [] tt) read_buf in
      (hd_with_wire dialect c rest (hd_version h) (hd_cursors h) (hd_encrypted h), wi_out c, ended)
  | Dialect_Memcached =>
      let '(c, rest, ended) := drain_memcached (mkWire (hd_server h) (hd_auth h) [] (hd_encrypted h)) read_buf in
      (hd_with_wire dialect c rest (hd_version h) (hd_cursors h) (wi_slot c), wi_out c, ended)
  | Dialect_Resp =>
      let '(c, rest, ended) := drain_resp (mkWire (hd_server h) (hd_auth h) [] (hd_version h, hd_cursors h)) read_buf in
      (hd_with_wire dialect c rest (fst (wi_slot c)) (snd (wi_slot c)) (hd_encrypted h), wi_out c, ended)
  end.

(** The dialect of the connection, once a byte has arrived. *)
Definition settle (h : Handle) (read_buf : bytes) : option (Result unit Dialect) :=
  match hd_protocol h with
  | Some dialect => Some (Ok dialect)
  | None =>
      chosen ← detect read_buf;
      Some (match chosen with
            | Ok dialect => if dialect_enabled dialect then Ok dialect else Err ()
            | _ => Err ()
            end)
  end.

Definition hd_with_buf (h : Handle) (read_buf : bytes) : Handle :=
  mkHandle (hd_server h) (hd_auth h) read_buf (hd_protocol h) (hd_version h) (hd_cursors h) (hd_encrypted h).

Definition on_read (h : Handle) (received : bytes) : Turn :=
  if bool_decide (received = []) then Turn_Closed h []
  else
    let read_buf := hd_read_buf h ++ received in
    let ceiling := if unauthenticated h then PRE_AUTH_MAX_BUFFERED else hc_max_buffered_bytes limits in
    if ceiling <? len read_buf then Turn_Closed (hd_with_buf h read_buf) []
    else
      match settle h read_buf with
      | None => Turn_Open (hd_with_buf h read_buf) []
      | Some (Ok dialect) =>
          match drain_settled h dialect read_buf with
          | (_, _, Ended_Abort) => Turn_Aborted
          | (h, sent, Ended_Closing Closing_Yes) => Turn_Closed h sent
          | (h, sent, Ended_Closing Closing_No) =>
              if hc_max_attempts limits <=? ca_failures (hd_auth h) then Turn_Closed h sent else Turn_Open h sent
          end
      | Some _ => Turn_Closed (hd_with_buf h read_buf) []
      end.

(** One turn of [handle]'s loop: a branch of the [select!] whose guard does not
    hold is not there to be taken. *)
Definition handle_turn (h : Handle) (event : Event) : Turn :=
  match event with
  | Event_Read received => on_read h received
  | Event_Shutdown => Turn_Closed h []
  | Event_Deadline => if unauthenticated h then Turn_Closed h [] else Turn_Open h []
  | Event_Silence =>
      if bool_decide (hd_protocol h = None) && (0 <? hc_first_byte_timeout_ms limits)
      then Turn_Closed h [] else Turn_Open h []
  end.

(** A connection as it is accepted: with the identity of its certificate, if it
    presented one. *)
Definition Handle_new (server : Server St) (identity : option Identity) (cursors : ScanCursors) (encrypted : bool) : Handle :=
  let auth := match identity with Some i => succeed ConnAuth_default i | None => ConnAuth_default end in
  mkHandle server auth [] None Resp2 cursors encrypted.

End Handle.
