(* ===== verification/ConnSpec.v ===== *)
(** What a connection does with its bytes is what its commands do one at a time:
    neither the tier a run takes, nor the runs a block is split into, nor the
    packets the bytes came in can be observed.

    [Lawful] is what each dialect promises: how its bytes are cut into items, that
    its measure finds the cut, that its executor is the items one at a time, and
    that what its writers decode is what those items do. *)

From S2P Require Import Prelude Bytes Text Core Record Glob Clock Arith Float Command Backend Apply Read.
From S2P Require Import Vcp VcpEncode Auth Server ServerBatch Mc McEncode McServer Resp RespCommand RespEncode Scan RespServer.
From S2P Require Import Conn.

Section Generic.
Context {St : Type} {SO : StoreOps St} {ST : StoreTotal St} {SB : StoreBatch St} {SI : StoreInOrder St} {D Item : Type}.

Abbreviation Wire := (Conn.Wire St D).

(** ** One item at a time *)

Fixpoint steps (step : Wire -> Item -> Wire * Ended) (c : Wire) (items : list Item) : Wire * Ended :=
  match items with
  | [] => (c, Ended_Closing Closing_No)
  | item :: items' =>
      match step c item with (c, Ended_Closing Closing_No) => steps step c items' | ended => ended end
  end.

(** A block that ends the process leaves nothing to compare. *)
Definition alike (r r' : Wire * Ended) : Prop := r.2 = r'.2 /\ (r.2 <> Ended_Abort -> r = r').

#[global] Instance alike_equivalence : Equivalence alike.
Proof.
  split.
  - by intros r.
  - intros r r' [H1 H2]. split; [done|]. intros H. symmetry. apply H2. congruence.
  - intros r1 r2 r3 [H1 H2] [H3 H4]. split; [congruence|]. intros H. rewrite H2 by done. apply H4. congruence.
Qed.

Lemma steps_app step c a b :
  steps step c (a ++ b)
  = match steps step c a with (c, Ended_Closing Closing_No) => steps step c b | ended => ended end.
Proof.
  revert c. induction a as [|item a IH]; intros c; [done|]. cbn [app steps]. by destruct (step c item) as [c' [[]|]].
Qed.

(** ** What a dialect promises *)

(** A block cut along its runs: what each holds. *)
Inductive cuts (pieces : bytes -> list Item -> bytes -> Prop) : bytes -> list Run -> list (list Item) -> Prop :=
| cuts_nil : cuts pieces [] [] []
| cuts_run b r g block runs groups :
    run_len r = length b -> pieces b g [] -> cuts pieces block runs groups ->
    cuts pieces (b ++ block) (r :: runs) (g :: groups).

(** An item that is one write, of a connection that may write. *)
Definition writes_item (step : Wire -> Item -> Wire * Ended) (may : Wire -> Prop) (stored : bytes)
    (item : Item) (set : SetReq) (suppressed : bool) : Prop :=
  plain set /\ forall c s' w cas,
    may c -> st_store (sv_store (wi_server c)) set = (s', Ok w) -> w_outcome w = Stored_Stored cas ->
    step c item
    = (mkWire (mkServer s' (sv_fanout (wi_server c))) (wi_auth c)
         (if suppressed then wi_out c else wi_out c ++ stored) (wi_slot c), Ended_Closing Closing_No).

Record Lawful (pieces : bytes -> list Item -> bytes -> Prop) (step : Wire -> Item -> Wire * Ended)
    (may : Wire -> Prop) (keeps : Item -> Prop)
    (measure : bytes -> Measured * list Run) (run : Wire -> bytes -> Wire * Ended) (writes : option Writes) : Prop := {
  law_nil : pieces [] [] [];
  law_nothing items tail : pieces [] items tail -> items = [];
  law_app a its rest b its' tail :
    pieces a its rest -> pieces (rest ++ b) its' tail -> pieces (a ++ b) (its ++ its') tail;
  law_measure buf items tail :
    pieces buf items tail ->
    let '(m, runs) := measure buf in
    (ms_complete m <= length buf)%nat /\ drop (ms_complete m) buf = tail
    /\ exists groups, items = concat groups /\ cuts pieces (take (ms_complete m) buf) runs groups;
  law_run c block items : pieces block items [] -> alike (run c block) (steps step c items);
  law_writes w slice items sets suppress :
    writes = Some w -> wr_parse w slice = Some (sets, suppress) -> pieces slice items [] ->
    Forall3 (writes_item step may (wr_stored w)) items sets suppress;
  law_keeps c item :
    is_Some writes -> may c -> keeps item -> may (step c item).1;
  law_may c c' : wi_auth c' = wi_auth c -> may c -> may c'
}.

Section Measuring.
Variable pieces : bytes -> list Item -> bytes -> Prop.
Hypothesis pieces_nil : pieces [] [] [].
Hypothesis pieces_app : forall a its b its' tail, pieces a its [] -> pieces b its' tail -> pieces (a ++ b) (its ++ its') tail.

(** Adding one measured item to the runs. *)
Lemma extend_cuts block runs groups kind b item :
  cuts pieces block runs groups -> pieces b [item] [] ->
  exists groups', concat groups' = concat groups ++ [item] /\ cuts pieces (block ++ b) (run_extend runs kind (length b)) groups'.
Proof.
  intros Hc Hb. induction Hc as [|b0 r g block runs groups Hl Hp Hc IH].
  - exists [[item]]. split; [done|]. cbn [run_extend app]. rewrite <- (app_nil_r b) at 1. constructor; [done|done|constructor].
  - destruct Hc as [|b1 r1 g1 block runs groups Hl1 Hp1 Hc].
    + cbn [run_extend concat]. rewrite !app_nil_r. case_bool_decide.
      * exists [g ++ [item]]. split; [by rewrite concat_cons, app_nil_r|]. rewrite <- (app_nil_r (b0 ++ b)).
        constructor; [cbn; by rewrite length_app, Hl|by apply pieces_app|constructor].
      * exists [g; [item]]. split; [done|]. constructor; [done|done|]. rewrite <- (app_nil_r b) at 1. constructor; [done|done|constructor].
    + destruct IH as (groups' & Hg & Hc'). exists (g :: groups'). cbn [concat] in Hg |- *. rewrite Hg, !app_assoc. split; [done|].
      rewrite <- !app_assoc. constructor; [done|done|]. by rewrite app_assoc.
Qed.

(** What a measure has found, whole commands so far cut along the runs. *)
Definition found (buf : bytes) (items : list Item) (tail : bytes) (measured : Measured * list Run) : Prop :=
  let '(m, runs) := measured in
  (ms_complete m <= length buf)%nat /\ drop (ms_complete m) buf = tail
  /\ exists groups, items = concat groups /\ cuts pieces (take (ms_complete m) buf) runs groups.

Lemma found_here done_ rest runs groups m :
  ms_complete m = length done_ -> cuts pieces done_ runs groups -> found (done_ ++ rest) (concat groups) rest (m, runs).
Proof.
  intros Hm Hc. unfold found. rewrite Hm, take_app_length, drop_app_length, length_app. split; [lia|]. eauto.
Qed.

End Measuring.

Section Drain.
Context {pieces : bytes -> list Item -> bytes -> Prop} {step : Wire -> Item -> Wire * Ended} {may : Wire -> Prop}
  {keeps : Item -> Prop} {measure : bytes -> Measured * list Run} {run : Wire -> bytes -> Wire * Ended} {writes : option Writes}.
Variable law : Lawful pieces step may keeps measure run writes.
Variable tier : Tier.

Lemma may_steps c items c' :
  is_Some writes -> may c -> Forall keeps items -> steps step c items = (c', Ended_Closing Closing_No) -> may c'.
Proof.
  intros Hw Hm Hk. revert c Hm. induction Hk as [|item items Hi Hk IH]; intros c Hm H; [by injection H as <-|].
  cbn [steps] in H. pose proof (law_keeps _ _ _ _ _ _ _ law c item Hw Hm Hi) as Hm'.
  destruct (step c item) as [c1 [[]|]]; try done. by eapply IH.
Qed.

Lemma cuts_pieces block runs groups : cuts pieces block runs groups -> pieces block (concat groups) [].
Proof.
  induction 1 as [|b r g block runs groups Hl Hp Hc IH]; [apply (law_nil _ _ _ _ _ _ _ law)|].
  by apply (law_app _ _ _ _ _ _ _ law b g [] block).
Qed.

Lemma joined_cuts reads_inline block runs groups n later :
  cuts pieces block runs groups -> joined writes reads_inline runs = (n, later) ->
  exists b1 b2 g1 g2, block = b1 ++ b2 /\ length b1 = n /\ concat groups = g1 ++ concat g2
    /\ pieces b1 g1 [] /\ cuts pieces b2 later g2 /\ (length later <= length runs)%nat.
Proof.
  intros H. revert n later. induction H as [|b r g block runs groups Hl Hp Hc IH]; intros n later Hj; cbn [joined] in Hj.
  - injection Hj as <- <-. exists [], [], [], []. conjs; try done; [apply (law_nil _ _ _ _ _ _ _ law)|constructor].
  - destruct (_ || _).
    + injection Hj as <- <-. exists [], (b ++ block), [], (g :: groups). conjs; try done; [apply (law_nil _ _ _ _ _ _ _ law)|by constructor].
    + destruct (joined writes reads_inline runs) as [k rest]. injection Hj as <- <-.
      destruct (IH _ _ eq_refl) as (b1 & b2 & g1 & g2 & -> & <- & Hg & Hp1 & Hc2 & Hl2).
      exists (b ++ b1), b2, (g ++ g1), g2. conjs; [by rewrite app_assoc|by rewrite length_app, Hl|cbn; by rewrite Hg, app_assoc
        |by apply (law_app _ _ _ _ _ _ _ law b g [] b1)|done|cbn; lia].
Qed.

(** A run of writes that was awaited is its writes one at a time. *)
Lemma stored_steps c items sets suppress s' written w :
  Forall3 (writes_item step may (wr_stored w)) items sets suppress ->
  may c ->
  store_all (sv_store (wi_server c)) sets = (s', written) ->
  Forall (fun r => exists wr k, r = Ok wr /\ w_outcome wr = Stored_Stored k) written ->
  steps step c items
  = (mkWire (mkServer s' (sv_fanout (wi_server c))) (wi_auth c)
       (foldl (fun out (suppressed : bool) => if suppressed then out else out ++ wr_stored w) (wi_out c) suppress) (wi_slot c),
     Ended_Closing Closing_No).
Proof.
  intros H. revert c s' written. induction H as [|item set sup items sets suppress [_ Hi] H IH]; intros c s' written Hm Hs Hw.
  - cbn in Hs. injection Hs as <- _. cbn. by destruct c as [[] ? ? ?].
  - cbn [store_all] in Hs. destruct (st_store (sv_store (wi_server c)) set) as [s1 r] eqn:E.
    destruct (store_all s1 sets) as [s2 rs] eqn:Ea. injection Hs as -> <-. apply Forall_cons in Hw as [(wr & k & -> & Ho) Hw].
    cbn [steps]. rewrite (Hi c s1 wr k Hm E Ho).
    rewrite (IH _ s' rs); [done| |done|done]. by apply (law_may _ _ _ _ _ _ _ law c).
Qed.

Lemma awaited_exact w c slice items :
  writes = Some w -> may c -> pieces slice items [] ->
  match run_writes_awaited w c slice with
  | (c', Awaited_Done) => steps step c items = (c', Ended_Closing Closing_No)
  | (c', Awaited_Declined) => c' = c
  | (_, Awaited_Panicked) => False
  end.
Proof.
  intros Hw Hm Hp. unfold run_writes_awaited. destruct (wr_parse w slice) as [[sets suppress]|] eqn:E; [|done].
  case_bool_decide; [done|]. pose proof (tot_set_many (sv_store (wi_server c)) sets) as Ht.
  pose proof (law_writes _ _ _ _ _ _ _ law w slice items sets suppress Hw E Hp) as Hl.
  destruct (st_set_many _ sets) as [s' [cas|e|why]] eqn:Es; cbn [snd] in Ht; [| |done]; cbv zeta.
  - apply bio_all in Es as (written & Ha & Hall).
    + by apply (stored_steps c items sets suppress s' written w).
    + clear -Hl. induction Hl as [|item set sup items sets suppress [Hp _] Hl IH]; [by apply Forall_nil|]. by apply Forall_cons.
  - apply bat_none in Es as ->. by destruct c as [[] ? ? ?].
Qed.

Lemma run_block_exact inline c slice : run_block run inline c slice = run c slice.
Proof. unfold run_block. destruct inline; [done|]. destruct c as [s a o d]. cbn. by destruct (run _ slice) as [[] ?]. Qed.

Lemma drain_runs_exact fuel reads_inline block runs groups c :
  cuts pieces block runs groups -> (length runs <= fuel)%nat -> (is_Some writes -> may c) ->
  (is_Some writes -> Forall keeps (concat groups)) ->
  alike (drain_runs run writes fuel reads_inline runs c block) (steps step c (concat groups)).
Proof.
  revert block runs groups c. induction fuel as [|fuel IH]; intros block runs groups c Hc Hl Hm Hk.
  { destruct Hc; [done|cbn in Hl; lia]. }
  destruct Hc as [|b r g block runs groups Hr Hp Hc]; [done|]. cbn [drain_runs]. cbv zeta.
  set (inline := run_inline reads_inline r). set (awaitable := run_awaitable writes r).
  assert (exists b1 b2 g1 g2 more later,
    (if negb inline && negb awaitable then joined writes reads_inline runs else (O, runs)) = (more, later)
    /\ block = b1 ++ b2 /\ length b1 = more /\ concat groups = g1 ++ concat g2 /\ pieces b1 g1 [] /\ cuts pieces b2 later g2
    /\ (length later <= length runs)%nat) as (b1 & b2 & g1 & g2 & more & later & -> & -> & <- & Hg & Hp1 & Hc2 & Hlen).
  { destruct (_ && _).
    - destruct (joined writes reads_inline runs) as [more later] eqn:Ej.
      destruct (joined_cuts reads_inline block runs groups more later Hc Ej) as (b1 & b2 & g1 & g2 & H).
      exists b1, b2, g1, g2, more, later. split; [done|]. naive_solver.
    - exists [], block, [], groups, O, runs. conjs; try done. apply (law_nil _ _ _ _ _ _ _ law). }
  cbn [concat] in Hk |- *. rewrite Hg in Hk |- *. rewrite app_assoc in Hk |- *.
  assert (pieces (b ++ b1) (g ++ g1) []) as Hs by by apply (law_app _ _ _ _ _ _ _ law b g [] b1).
  rewrite Hr, <- length_app, app_assoc, take_app_length, drop_app_length.
  assert (forall c', steps step c (g ++ g1) = (c', Ended_Closing Closing_No) ->
    alike (drain_runs run writes fuel reads_inline later c' b2) (steps step c ((g ++ g1) ++ concat g2))) as Hgo.
  { intros c' E. rewrite steps_app, E. apply IH; [done|cbn in Hl; lia| |].
    - intros Hw. eapply may_steps; [done|by apply Hm| |exact E]. specialize (Hk Hw). by apply Forall_app in Hk as [].
    - intros Hw. specialize (Hk Hw). by apply Forall_app in Hk as []. }
  assert (alike match run_block run inline c (b ++ b1) with
                | (c, Ended_Closing Closing_No) => drain_runs run writes fuel reads_inline later c b2
                | ended => ended
                end (steps step c ((g ++ g1) ++ concat g2))) as Hrun.
  { rewrite run_block_exact. pose proof (law_run _ _ _ _ _ _ _ law c (b ++ b1) (g ++ g1) Hs) as [E1 E2].
    destruct (run c (b ++ b1)) as [c' ended]. cbn [snd] in E1, E2. destruct ended as [[]|].
    - rewrite steps_app, <- E2 by done. reflexivity.
    - apply Hgo. by rewrite <- E2.
    - rewrite steps_app. destruct (steps step c (g ++ g1)) as [c1 e1]. cbn in E1. subst e1. by split. }
  pose proof (fun w Hw => awaited_exact w c (b ++ b1) (g ++ g1) Hw (Hm (mk_is_Some _ _ Hw)) Hs) as Haw.
  clear Hc Hc2 Hp Hp1 Hk Hm IH. destruct writes as [w|]; [|exact Hrun]. destruct awaitable; [|exact Hrun].
  specialize (Haw w eq_refl).
  destruct (run_writes_awaited w c (b ++ b1)) as [c' []]; [by apply Hgo|by subst c'|done].
Qed.

Lemma nothing_cuts runs groups : cuts pieces [] runs groups -> concat groups = [].
Proof. intros H%cuts_pieces. by apply (law_nothing _ _ _ _ _ _ _ law) in H. Qed.

(** Draining a buffer. *)
Lemma drain_exact on_fatal c buf items tail :
  pieces buf items tail -> (is_Some writes -> may c) -> (is_Some writes -> Forall keeps items) ->
  let '(c', rest, ended) := drain tier measure run on_fatal writes c buf in
  rest = tail
  /\ match steps step c items with
     | (_, Ended_Abort) => ended = Ended_Abort
     | (c0, Ended_Closing closing) =>
         match ms_fatal (measure buf).1 with
         | None => c' = c0 /\ ended = Ended_Closing closing
         | Some detail => c' = wi_with_out c0 (on_fatal (wi_out c0) detail) /\ ended = Ended_Closing Closing_Yes
         end
     end.
Proof.
  intros Hp Hm Hk. pose proof (law_measure _ _ _ _ _ _ _ law buf items tail Hp) as Hmeas. unfold drain.
  destruct (measure buf) as [m runs]. destruct Hmeas as (Hle & Hd & groups & -> & Hc). cbn [fst]. cbv zeta.
  match goal with |- context [if (0 <? _)%nat then ?x else ?y] => set (r := if (0 <? _)%nat then x else y) end.
  assert (alike r (steps step c (concat groups))) as [E1 E2].
  { subst r. destruct (Nat.ltb_spec 0 (ms_complete m)) as [Hpos|Hz].
    - match goal with |- context [if ?b then [_] else runs] => destruct b end.
      + rewrite <- (app_nil_r (concat groups)) in Hk |- *. apply (drain_runs_exact _ _ _ _ [concat groups]); try done.
        rewrite <- (app_nil_r (take _ buf)). constructor; [by rewrite length_take_le|by eapply cuts_pieces|constructor].
      + by apply drain_runs_exact.
    - assert (ms_complete m = O) as Hz' by lia. rewrite Hz' in Hc. by rewrite (nothing_cuts runs groups Hc). }
  destruct r as [c1 e1]. destruct (steps step c (concat groups)) as [c0 e0]. cbn [snd] in *. subst e1.
  destruct e0 as [closing|]; [|by split]. specialize (E2 ltac:(done)). injection E2 as ->.
  destruct (ms_fatal m); by repeat split.
Qed.

End Drain.

(** ** Packets *)

Section Stream.
Context {pieces : bytes -> list Item -> bytes -> Prop} {step : Wire -> Item -> Wire * Ended} {may : Wire -> Prop}
  {keeps : Item -> Prop} {run : Wire -> bytes -> Wire * Ended}.
(** What depends on the connection as it stands before a read. *)
Variable measure_of : ConnAuth -> bytes -> Measured * list Run.
Variable writes_of : ConnAuth -> option Writes.
Variable on_fatal : bytes -> String.string -> bytes.
Variable tier : Tier.
Hypothesis law : forall auth, Lawful pieces step may keeps (measure_of auth) run (writes_of auth).
Hypothesis may_write : forall c, is_Some (writes_of (wi_auth c)) -> may c.
(** What is cut stays cut, and is cut in one way, as more arrives. *)
Hypothesis pieces_prefix : forall a b items tail, pieces (a ++ b) items tail -> exists its rest, pieces a its rest.
Hypothesis pieces_left : forall buf items tail, pieces buf items tail -> pieces tail [] tail.
Hypothesis pieces_split : forall a b items tail its rest,
  pieces (a ++ b) items tail -> pieces a its rest -> exists more, items = its ++ more /\ pieces (rest ++ b) more tail.

Definition drain_now (c : Wire) (buf : bytes) : Wire * bytes * Ended :=
  drain tier (measure_of (wi_auth c)) run on_fatal (writes_of (wi_auth c)) c buf.

(** What a step writes does not depend on what was written before. *)
Definition wi_after (p : bytes) (c : Wire) : Wire := wi_with_out c (p ++ wi_out c).

Hypothesis step_out : forall p c item, step (wi_after p c) item = let '(c', ended) := step c item in (wi_after p c', ended).

Lemma steps_out p c items : steps step (wi_after p c) items = let '(c', ended) := steps step c items in (wi_after p c', ended).
Proof.
  revert c. induction items as [|item items IH]; intros c; [done|]. cbn [steps]. rewrite step_out.
  destruct (step c item) as [c' [[]|]]; [done|apply IH|done].
Qed.

(** The reads of a connection, one after another, while it stays open: what each
    wrote is sent before the next. *)
Fixpoint reads_of (c : Wire) (buf : bytes) (packets : list bytes) : option (Wire * bytes * bytes) :=
  match packets with
  | [] => Some (c, buf, [])
  | packet :: packets' =>
      match drain_now c (buf ++ packet) with
      | (c, rest, Ended_Closing Closing_No) =>
          '(c', over, sent) ← reads_of (wi_with_out c []) rest packets'; Some (c', over, wi_out c ++ sent)
      | _ => None
      end
  end.

Lemma nothing_whole buf items tail : pieces buf items tail -> pieces buf [] buf -> items = [] /\ tail = buf.
Proof.
  intros Hp Hb. assert (pieces (buf ++ []) [] buf) as Hb' by by rewrite app_nil_r.
  destruct (pieces_split buf [] [] buf items tail Hb' Hp) as (more & E & _). symmetry in E. apply app_nil in E as [-> _]. split; [done|].
  pose proof (law ConnAuth_default) as L. pose proof (law_measure _ _ _ _ _ _ _ L buf [] buf Hb) as H1.
  pose proof (law_measure _ _ _ _ _ _ _ L buf [] tail Hp) as H2. destruct (measure_of ConnAuth_default buf) as [m runs].
  destruct H1 as (_ & H1 & _), H2 as (_ & H2 & _). congruence.
Qed.

Lemma packets_exact packets c buf items tail c' rest sent :
  pieces (buf ++ concat packets) items tail -> Forall keeps items -> pieces buf [] buf -> wi_out c = [] ->
  reads_of c buf packets = Some (c', rest, sent) ->
  rest = tail /\ wi_out c' = [] /\ steps step c items = (wi_with_out c' sent, Ended_Closing Closing_No).
Proof.
  revert c buf items sent. induction packets as [|packet packets IH]; intros c buf items sent Hp Hk Hb Ho H.
  - cbn in *. injection H as <- <- <-. rewrite app_nil_r in Hp. destruct (nothing_whole _ _ _ Hp Hb) as [-> ->]. split; [done|].
    split; [done|]. cbn. destruct c. cbn in Ho. by subst.
  - cbn [concat reads_of] in *. rewrite app_assoc in Hp.
    destruct (pieces_prefix _ _ _ _ Hp) as (its & left & Hi).
    destruct (pieces_split _ _ _ _ _ _ Hp Hi) as (more & -> & Hm). apply Forall_app in Hk as [Hk1 Hk2].
    pose proof (drain_exact (law (wi_auth c)) tier on_fatal c (buf ++ packet) its left Hi (may_write c) (fun _ => Hk1)) as Hd.
    unfold drain_now in H. destruct (drain tier _ run on_fatal _ c (buf ++ packet)) as [[c1 r1] e1].
    destruct Hd as [-> Hd]. destruct e1 as [[]|]; [done| |done]. rewrite steps_app.
    destruct (steps step c its) as [c0 [closing|]]; [|done].
    destruct (ms_fatal _); [by destruct Hd|]. destruct Hd as [-> [= <-]].
    destruct (reads_of (wi_with_out c0 []) left packets) as [[[c2 left2] sent2]|] eqn:Er; [|done]. injection H as -> -> <-.
    destruct (IH (wi_with_out c0 []) left more sent2) as (-> & Ho' & E); [done|done|by eapply pieces_left|done|done|].
    split; [done|]. split; [done|].
    assert (c0 = wi_after (wi_out c0) (wi_with_out c0 [])) as -> by (destruct c0; unfold wi_after; cbn; by rewrite app_nil_r).
    rewrite steps_out, E. destruct c0. cbn. by rewrite app_nil_r.
Qed.

(** However the bytes are packeted. *)
Lemma packets_same packets packets' c buf items tail r r' :
  concat packets = concat packets' ->
  pieces (buf ++ concat packets) items tail -> Forall keeps items -> pieces buf [] buf -> wi_out c = [] ->
  reads_of c buf packets = Some r -> reads_of c buf packets' = Some r' -> r = r'.
Proof.
  intros Hc Hp Hk Hb Ho H H'. destruct r as [[c1 rest1] sent1], r' as [[c2 rest2] sent2].
  destruct (packets_exact _ _ _ _ _ _ _ _ Hp Hk Hb Ho H) as (-> & Ho1 & E1). rewrite Hc in Hp.
  destruct (packets_exact _ _ _ _ _ _ _ _ Hp Hk Hb Ho H') as (-> & Ho2 & E2). rewrite E1 in E2.
  destruct c1 as [s1 a1 o1 d1], c2 as [s2 a2 o2 d2]. cbn in *. by simplify_eq.
Qed.

End Stream.
End Generic.

(** ** What a drain keeps, whatever its bytes *)

Section Keeps.
Context {St : Type} {SO : StoreOps St} {D : Type}.

Abbreviation Wire := (Conn.Wire St D).

Variable run : Wire -> bytes -> Wire * Ended.
Variable writes : option Writes.
(** What is kept, and the places of the buffer a run may start at. *)
Variable kept : Wire -> Prop.
Variable good : nat -> Prop.
Variable buf : bytes.

(** Every run starts at a good place. *)
Fixpoint starts (pos : nat) (runs : list Run) : Prop :=
  match runs with [] => True | r :: runs' => good pos /\ starts (pos + run_len r) runs' end.

Definition runs_len (runs : list Run) : nat := sum_list_with run_len runs.

Lemma starts_extend runs kind n : forall pos,
  starts pos runs -> good (pos + runs_len runs) ->
  starts pos (run_extend runs kind n) /\ runs_len (run_extend runs kind n) = (runs_len runs + n)%nat.
Proof.
  unfold runs_len. induction runs as [|r runs IH]; intros pos Hs Hg; [by cbn in *; rewrite Nat.add_0_r in Hg; cbn; repeat split; try done; lia|].
  destruct Hs as [Hp Hs]. destruct runs as [|r' runs].
  - cbn [run_extend sum_list_with] in *. rewrite Nat.add_0_r in Hg. case_bool_decide; cbn [starts sum_list_with run_len]; repeat split; try done; lia.
  - assert (run_extend (r :: r' :: runs) kind n = r :: run_extend (r' :: runs) kind n) as -> by done.
    destruct (IH (pos + run_len r)%nat Hs) as [H1 H2]; [cbn [sum_list_with] in *; by rewrite <- Nat.add_assoc|].
    split; [by split|]. cbn [sum_list_with] in *. lia.
Qed.

Lemma starts_joined reads_inline runs : forall pos n later,
  joined writes reads_inline runs = (n, later) -> starts pos runs -> starts (pos + n) later /\ (length later <= length runs)%nat.
Proof.
  induction runs as [|r runs IH]; intros pos n later Hj Hs; cbn [joined] in Hj.
  - by injection Hj as <- <-.
  - destruct (_ || _); [injection Hj as <- <-; rewrite Nat.add_0_r; split; [done|lia]|].
    destruct (joined writes reads_inline runs) as [k rest]. injection Hj as <- <-. destruct Hs as [_ Hs].
    destruct (IH _ _ _ eq_refl Hs) as [H1 H2]. rewrite Nat.add_assoc. split; [done|cbn; lia].
Qed.

Hypothesis run_keeps : forall pos slice c c' ended,
  good pos -> slice `prefix_of` drop pos buf -> kept c -> run c slice = (c', ended) -> ended <> Ended_Abort -> kept c'.
Hypothesis writes_keeps : forall w slice c, writes = Some w -> kept c -> kept (run_writes_awaited w c slice).1.

Lemma drain_runs_keeps fuel reads_inline runs : forall pos block c c' ended,
  starts pos runs -> block `prefix_of` drop pos buf -> kept c ->
  drain_runs run writes fuel reads_inline runs c block = (c', ended) -> ended <> Ended_Abort -> kept c'.
Proof.
  revert runs. induction fuel as [|fuel IH]; intros runs pos block c c' ended Hs Hb Hk H He; cbn [drain_runs] in H; [by injection H as <- <-|].
  destruct runs as [|r runs]; [by injection H as <- <-|]. cbv zeta in H. destruct Hs as [Hg Hs].
  destruct (if _ && _ then _ else _) as [more later] eqn:Ej in H.
  assert (starts (pos + (run_len r + more)) later) as Hl.
  { destruct (_ && _) in Ej; [apply starts_joined with (pos := (pos + run_len r)%nat) in Ej as [Ej _]; [by rewrite Nat.add_assoc|done]|].
    injection Ej as <- <-. by rewrite Nat.add_0_r. }
  assert (forall n, take n block `prefix_of` drop pos buf) as Ht.
  { intros n. etrans; [|exact Hb]. exists (drop n block). by rewrite take_drop. }
  assert (forall n, drop n block `prefix_of` drop (pos + n) buf) as Hd.
  { intros n. rewrite <- drop_drop. destruct Hb as [k ->]. destruct (decide (n <= length block)%nat); [rewrite drop_app_le by done; by exists (drop O k)|].
    rewrite (drop_ge block) by lia. apply prefix_nil. }
  assert (forall c1, kept c1 -> forall r1, run_block run (run_inline reads_inline r) c1 (take (run_len r + more) block) = r1 ->
    r1.2 <> Ended_Abort -> kept r1.1) as Hrun.
  { intros c1 Hk1 [c2 e2] E He2. cbn [fst snd] in *. unfold run_block in E. destruct (run_inline _ _).
    - by apply (run_keeps pos (take (run_len r + more) block) c1 c2 e2).
    - destruct c1 as [s a o d]. cbn in E. destruct (run _ _) as [[s' a' o' d'] e'] eqn:Er. injection E as <- <-.
      by apply (run_keeps pos (take (run_len r + more) block) (mkWire s a o d) (mkWire s' a' o' d') e'). }
  destruct (match writes with Some _ => _ | None => _ end) as [c1 awaited] eqn:Ew in H.
  assert (kept c1) as Hk1.
  { destruct writes as [w|] eqn:E; [|by injection Ew as <- _]. destruct (run_awaitable _ r); [|by injection Ew as <- _].
    pose proof (writes_keeps w (take (run_len r + more) block) c eq_refl Hk) as Hw. by rewrite Ew in Hw. }
  destruct awaited; [by apply (IH later (pos + (run_len r + more))%nat (drop (run_len r + more) block) c1 c' ended)| |by injection H as <- <-].
  destruct (run_block _ _ _ _) as [c2 e2] eqn:Er in H. specialize (Hrun _ Hk1 _ Er). cbn [fst snd] in Hrun.
  destruct e2 as [[]|]; [injection H as <- <-; by apply Hrun| |by injection H as _ <-]. apply (IH later (pos + (run_len r + more))%nat (drop (run_len r + more) block) c2 c' ended); auto.
Qed.

Lemma drain_keeps tier measure on_fatal c c' rest ended :
  (forall x out, kept x -> kept (wi_with_out x out)) ->
  good 0 -> starts 0 (measure buf).2 -> kept c ->
  drain tier measure run on_fatal writes c buf = (c', rest, ended) -> ended <> Ended_Abort -> kept c'.
Proof.
  intros Hout Hg Hs Hk H He. unfold drain in H. destruct (measure buf) as [m runs]. cbn [snd] in Hs. cbv zeta in H.
  destruct (if (0 <? _)%nat then _ else _) as [c1 e1] eqn:E in H.
  assert (e1 <> Ended_Abort -> kept c1) as Hk1.
  { destruct (0 <? _)%nat; [|by injection E as <- <-]. intros He1. revert E. destruct (_ && _); intros E;
      (eapply (drain_runs_keeps _ _ _ O); [|rewrite drop_0; eexists; symmetry; apply take_drop|exact Hk|exact E|done]); [by split|done]. }
  destruct e1 as [closing|]; [|by injection H as _ _ <-]. specialize (Hk1 ltac:(done)).
  destruct (ms_fatal m); injection H as <- _ _; auto.
Qed.

End Keeps.

(** ** Cutting by a scanner *)

Section Sliced.
Context {Item : Type}.
(** The item at the front of a buffer, and how many bytes it takes. *)
Variable scan : bytes -> option (Item * nat).

(** The item is there whatever follows the bytes it takes. *)
Definition settled (buf : bytes) (item : Item) (n : nat) : Prop :=
  (0 < n <= length buf)%nat /\ forall more, scan (take n buf ++ more) = Some (item, n).

Inductive sliced : bytes -> list Item -> bytes -> Prop :=
| sliced_tail buf : scan buf = None -> sliced buf [] buf
| sliced_item buf item n items tail :
    settled buf item n -> sliced (drop n buf) items tail -> sliced buf (item :: items) tail.

Hypothesis scan_nil : scan [] = None.
(** More bytes do not change an item that is whole. *)
Hypothesis scan_more : forall buf item n,
  scan buf = Some (item, n) -> (0 < n <= length buf)%nat /\ forall more, scan (buf ++ more) = Some (item, n).

Lemma settled_scan buf item n more : settled buf item n -> scan (buf ++ more) = Some (item, n).
Proof. intros [_ H]. rewrite <- (take_drop n buf), <- app_assoc. apply H. Qed.

Lemma sliced_inv buf items tail :
  sliced buf items tail ->
  match scan buf with
  | None => items = [] /\ tail = buf
  | Some (item, n) => settled buf item n /\ exists more, items = item :: more /\ sliced (drop n buf) more tail
  end.
Proof.
  intros [b E|b item n its t H Hc]; [by rewrite E|]. pose proof (settled_scan b item n [] H) as E. rewrite app_nil_r in E.
  rewrite E. eauto.
Qed.

Lemma sliced_nothing items tail : sliced [] items tail -> items = [].
Proof. intros H%sliced_inv. rewrite scan_nil in H. by destruct H. Qed.

Lemma sliced_left buf items tail : sliced buf items tail -> sliced tail [] tail.
Proof. induction 1; [by constructor|done]. Qed.

Lemma sliced_app a its rest b its' tail :
  sliced a its rest -> sliced (rest ++ b) its' tail -> sliced (a ++ b) (its ++ its') tail.
Proof.
  intros H Hb. induction H as [buf E|buf item n items rest [Hn H] Hc IH]; [done|]. cbn [app].
  apply sliced_item with n; [split|].
  - rewrite length_app. lia.
  - intros more. rewrite take_app_le by lia. apply H.
  - rewrite drop_app_le by lia. by apply IH.
Qed.

Lemma sliced_one buf item n : settled buf item n -> sliced (take n buf) [item] [].
Proof.
  intros [Hn H]. apply sliced_item with n; [split|].
  - rewrite length_take. lia.
  - intros more. rewrite take_take, Nat.min_id. apply H.
  - rewrite drop_ge by (rewrite length_take; lia). by constructor.
Qed.

Lemma sliced_prefix a b items tail : sliced (a ++ b) items tail -> exists its rest, sliced a its rest.
Proof.
  revert b items. induction a as [a IH] using (induction_ltof1 _ length). unfold ltof in IH. intros b items H%sliced_inv.
  destruct (scan a) as [[item n]|] eqn:E; [|exists [], a; by constructor].
  apply scan_more in E as [Hn E]. rewrite E in H. destruct H as ([_ Hs] & more & _ & Hc).
  rewrite drop_app_le in Hc by lia. destruct (IH (drop n a) ltac:(rewrite length_drop; lia) _ _ Hc) as (its & rest & Hi).
  exists (item :: its), rest. apply sliced_item with n; [split; [done|]|done]. intros more'.
  rewrite take_app_le in Hs by lia. apply Hs.
Qed.

Lemma sliced_split a b items tail its rest :
  sliced (a ++ b) items tail -> sliced a its rest -> exists more, items = its ++ more /\ sliced (rest ++ b) more tail.
Proof.
  intros Hab H. revert items Hab. induction H as [buf E|buf item n its rest Hs Hc IH]; intros items Hab; [by exists items|].
  apply sliced_inv in Hab. rewrite (settled_scan _ _ _ b Hs) in Hab. destruct Hab as (_ & more & -> & Hd).
  destruct Hs as [Hn _]. rewrite drop_app_le in Hd by lia. destruct (IH _ Hd) as (more' & -> & Hm). by exists more'.
Qed.

(** A measure that takes an item a round, and stops where there is none, finds
    the cut. *)
Lemma sliced_measure (loop : nat -> Measured -> list Run -> Measured * list Run) buf items tail :
  (forall fuel m runs,
    match scan (drop (ms_complete m) buf) with
    | Some (_, n) => exists kind, loop (S fuel) m runs = loop fuel (measured_more m n) (run_extend runs kind n)
    | None => exists m', ms_complete m' = ms_complete m /\ loop (S fuel) m runs = (m', runs)
    end) ->
  sliced buf items tail -> found sliced buf items tail (loop (S (length buf)) Measured_default []).
Proof.
  intros Hround Hs.
  enough (forall fuel done_ rest m runs groups,
    buf = done_ ++ rest -> sliced rest items tail -> ms_complete m = length done_ -> cuts sliced done_ runs groups ->
    (length rest < fuel)%nat -> found sliced buf (concat groups ++ items) tail (loop fuel m runs)) as H
    by (apply (H _ [] buf _ _ []); try done; [constructor|lia]).
  clear Hs. intros fuel done_ rest m runs groups Hb Hs. revert fuel done_ m runs groups Hb.
  induction Hs as [rest E|rest item n items tail Hs Hc IH]; intros fuel done_ m runs groups -> Hm Hg Hl;
    (destruct fuel as [|fuel]; [lia|]); specialize (Hround fuel m runs); rewrite Hm, drop_app_length in Hround.
  - rewrite E in Hround. destruct Hround as (m' & Hm' & ->). rewrite app_nil_r. apply found_here; [congruence|done].
  - pose proof (settled_scan _ _ _ [] Hs) as E. rewrite app_nil_r in E. rewrite E in Hround. destruct Hround as (kind & ->).
    pose proof (sliced_one _ _ _ Hs) as Ho. pose proof Hs as [Hn _].
    destruct (extend_cuts sliced (fun a its b its' t => sliced_app a its [] b its' t) done_ runs groups kind (take n rest) item Hg Ho)
      as (groups' & Hg' & Hc').
    rewrite length_take_le in Hc' by lia.
    replace (concat groups ++ item :: items) with (concat groups' ++ items) by (by rewrite Hg', <- app_assoc).
    apply (IH fuel (done_ ++ take n rest)).
    + by rewrite <- app_assoc, take_drop.
    + cbn. rewrite Hm, length_app, length_take_le by lia. done.
    + done.
    + rewrite length_drop. lia.
Qed.

(** Whatever the items, it stops where there is none. *)
Lemma measure_rest (loop : nat -> Measured -> list Run -> Measured * list Run) buf :
  (forall fuel m runs,
    match scan (drop (ms_complete m) buf) with
    | Some (_, n) => exists kind, loop (S fuel) m runs = loop fuel (measured_more m n) (run_extend runs kind n)
    | None => exists m', ms_complete m' = ms_complete m /\ loop (S fuel) m runs = (m', runs)
    end) ->
  scan (drop (ms_complete (loop (S (length buf)) Measured_default []).1) buf) = None.
Proof.
  intros Hround.
  enough (forall fuel m runs, (length (drop (ms_complete m) buf) < fuel)%nat ->
    scan (drop (ms_complete (loop fuel m runs).1) buf) = None) as H by (apply H; rewrite length_drop; lia).
  induction fuel as [|fuel IH]; intros m runs Hl; [lia|]. specialize (Hround fuel m runs).
  destruct (scan (drop (ms_complete m) buf)) as [[item n]|] eqn:E.
  - destruct Hround as (kind & ->). apply scan_more in E as [Hn _]. apply IH. cbn [measured_more ms_complete].
    rewrite length_drop in *. lia.
  - destruct Hround as (m' & Hm & ->). cbn [fst]. by rewrite Hm.
Qed.

End Sliced.
