(* ===== verification/ConnDialects.v ===== *)
(** The three dialects keep what [ConnSpec.Lawful] asks, so draining a read, and
    draining the packets of a stream, is the commands one at a time. *)

From S2P Require Import Prelude Bytes Text Core Record Glob Clock Arith Float Command Backend Apply Read.
From S2P Require Import Vcp VcpEncode VcpClient VcpSpec VcpReply Auth Server ServerBatch ServerSpec ServerRef.
From S2P Require Import Mc McEncode McServer McSpec McServerSpec.
From S2P Require Import Resp RespCommand RespParse RespEncode Scan RespServer RespServerSpec RespGate.
From S2P Require Import Conn ConnSpec.

Section Dialects.
Context {St : Type} {SO : StoreOps St} {ST : StoreTotal St} {SB : StoreBatch St} {SI : StoreInOrder St}.
Context {DG : Digest} {FT : FloatText} {BI : BuildInfo}.
Variable conf : ServerConf.
Variable now_ms instant : Z.
Variable stats_section : StatsSection -> bool -> list (bytes * bytes).
Variable tier : Tier.

(** ** The native protocol *)

Definition vcp_step (c : Wire St unit) (frame : ServerSpec.Frame) : Wire St unit * Ended :=
  let after := execute_plainly conf now_ms (mkConn (wi_server c) (wi_auth c) (wi_out c) []) (frame_bytes frame) in
  (mkWire (cn_server after) (cn_auth after) (cn_out after) (wi_slot c), Ended_Closing Closing_No).

Lemma peek_frame f rest : whole f -> peek_frame_len (frame_bytes f ++ rest) = FrameLen_Complete (len (frame_bytes f)).
Proof.
  intros (Hh & Hb & Hl). unfold peek_frame_len, frame_bytes. rewrite <- app_assoc, FrameHeader_from_prefix_app by done.
  rewrite (proj2 (Z.ltb_ge _ _)) by lia. rewrite !len_app.
  assert (len (FrameHeader_bytes f.1) = HEADER_LEN) as -> by (unfold len; by rewrite length_FrameHeader_bytes).
  pose proof (len_nonneg rest). rewrite (proj2 (Z.ltb_ge _ _)) by lia. by rewrite Hb.
Qed.

Lemma frame_length f : (0 < length (frame_bytes f))%nat.
Proof. unfold frame_bytes. rewrite length_app, length_FrameHeader_bytes. lia. Qed.

Lemma cut_prefix frames rest : Forall whole frames -> (forall n, peek_frame_len rest <> FrameLen_Complete n) ->
  cut (mjoin (frame_bytes <$> frames) ++ rest) frames rest.
Proof. intros. by split_and!. Qed.

Lemma cut_split a b frames tail its rest :
  cut (a ++ b) frames tail -> cut a its rest -> exists more, frames = its ++ more /\ cut (rest ++ b) more tail.
Proof.
  intros Hab (Hw & -> & _). rewrite <- app_assoc in Hab. revert frames Hab.
  induction Hw as [|f its Hf Hw IH]; intros frames Hab; [by exists frames|].
  cbn [fmap list_fmap mjoin list_join] in Hab. rewrite <- app_assoc in Hab.
  destruct (cut_cons _ _ _ _ Hf Hab) as (frames' & -> & Hc). destruct (IH _ Hc) as (more & -> & Hm). by exists more.
Qed.

Lemma cut_exists buf : exists frames tail, cut buf frames tail.
Proof.
  induction buf as [buf IH] using (induction_ltof1 _ length). unfold ltof in IH.
  destruct (peek_cases buf) as [Hn|(f & rest & Hf & -> & _ & Hl)]; [exists [], buf; by split_and!|].
  destruct (IH rest Hl) as (frames & tail & Hw & -> & Ht). exists (f :: frames), tail.
  split; [by constructor|]. split; [|done]. cbn. by rewrite <- app_assoc.
Qed.

Lemma cut_one f : whole f -> cut (frame_bytes f) [f] [].
Proof. intros Hf. split; [by apply Forall_singleton|]. split; [cbn; by rewrite !app_nil_r|by intros n]. Qed.

Lemma cut_app a its rest b its' tail : cut a its rest -> cut (rest ++ b) its' tail -> cut (a ++ b) (its ++ its') tail.
Proof.
  intros (Hw & -> & _) (Hw' & E & Ht). split; [by apply Forall_app|]. split; [|done].
  by rewrite <- app_assoc, E, fmap_app, join_app, <- app_assoc.
Qed.

Lemma vcp_measures gated fuel frames done_ rest tail m runs groups :
  cut rest frames tail -> ms_complete m = length done_ -> cuts cut done_ runs groups -> (length rest < fuel)%nat ->
  found cut (done_ ++ rest) (concat groups ++ frames) tail (measure_vcp_loop fuel (done_ ++ rest) gated m runs).
Proof.
  intros (Hw & -> & Ht). revert fuel done_ m runs groups. induction Hw as [|f frames Hf Hw IH]; intros fuel done_ m runs groups Hm Hc Hl;
    (destruct fuel as [|fuel]; [lia|]); cbn [measure_vcp_loop]; cbv zeta; rewrite Hm, drop_app_length.
  - cbn [fmap list_fmap mjoin list_join app]. rewrite app_nil_r. destruct (peek_frame_len tail) eqn:E; [|by destruct (Ht total)|].
    + destruct (_ && _); by apply found_here.
    + by apply found_here.
  - change (mjoin (frame_bytes <$> f :: frames)) with (frame_bytes f ++ mjoin (frame_bytes <$> frames)) in *.
    rewrite <- app_assoc in Hl |- *. rewrite peek_frame by done.
    replace (Z.to_nat (len (frame_bytes f))) with (length (frame_bytes f)) by (unfold len; lia).
    rewrite take_app_length. set (kind := if is_read_only_frame _ then _ else _).
    destruct (extend_cuts cut (fun a its b its' t H1 H2 => cut_app a its [] b its' t H1 H2) done_ runs groups kind (frame_bytes f) f Hc (cut_one f Hf))
      as (groups' & Hg & Hc').
    rewrite (app_assoc done_). replace (concat groups ++ f :: frames) with (concat groups' ++ frames) by (by rewrite Hg, <- app_assoc).
    apply IH; [cbn; rewrite Hm, length_app; lia|done|]. pose proof (frame_length f). rewrite length_app in Hl. lia.
Qed.

Lemma vcp_lawful gated : Lawful cut vcp_step (fun _ => True) (fun _ => True) (measure_vcp gated) (run_vcp conf now_ms) None.
Proof.
  split; try done.
  - by intros items tail [-> _]%cut_nil.
  - exact cut_app.
  - intros buf frames tail Hc. pose proof (vcp_measures gated (S (length buf)) frames [] buf tail Measured_default [] [] Hc) as H.
    apply H; [done|constructor|lia].
  - intros c block frames Hc. destruct (vcp_block_plain conf now_ms (wi_server c) (wi_auth c) block (wi_out c)) as (frames' & tail & Hc' & E).
    rewrite <- (app_nil_r block) in Hc'. destruct (cut_split _ _ _ _ _ _ Hc' Hc) as (more & -> & [-> _]%cut_nil).
    rewrite app_nil_r in E. unfold run_vcp. rewrite E. cbv zeta. clear E Hc Hc'.
    assert (forall x : Server.Conn St VcpReply, cn_batch x = [] ->
      (mkWire (cn_server (foldl (execute_plainly conf now_ms) x (frame_bytes <$> frames)))
         (cn_auth (foldl (execute_plainly conf now_ms) x (frame_bytes <$> frames)))
         (cn_out (foldl (execute_plainly conf now_ms) x (frame_bytes <$> frames))) (wi_slot c), Ended_Closing Closing_No)
      = steps vcp_step (mkWire (cn_server x) (cn_auth x) (cn_out x) (wi_slot c)) frames) as H.
    { induction frames as [|f frames IH]; intros x Hx; [done|]. cbn [fmap list_fmap foldl steps vcp_step].
      destruct x as [s a o b]. cbn in Hx. subst b. cbn [wi_server wi_auth wi_out wi_slot cn_server cn_auth cn_out]. apply IH.
      unfold execute_plainly, request_plainly, answer_plainly, execute_auth. repeat case_match; done. }
    cbv beta iota. rewrite (H (mkConn (wi_server c) (wi_auth c) (wi_out c) [])) by done. by destruct c.
Qed.

(** ** memcached *)

Definition mc_scan (buf : bytes) : option (Item * nat) :=
  match mc_parse buf with
  | Ok (Mc_Command p) => Some (Item_Command p, pa_consumed p)
  | Err (Recoverable kind consumed) => Some (Item_Refused kind, consumed)
  | _ => None
  end.

Lemma mc_scan_more buf item n :
  mc_scan buf = Some (item, n) -> (0 < n <= length buf)%nat /\ forall more, mc_scan (buf ++ more) = Some (item, n).
Proof.
  unfold mc_scan. pose proof (mc_parse_ok buf) as Hp. destruct (mc_parse buf) as [[|p]|[kind k|d]|why]; try done; intros [= <- <-].
  - destruct Hp as (Hn & _ & Hm). split; [done|]. intros more. rewrite <- (take_drop (pa_consumed p) buf), <- app_assoc. by rewrite Hm.
  - destruct Hp as [Hn Hm]. split; [done|]. intros more. by rewrite Hm.
Qed.

(** A command is its own bytes; a refused line is too, unless it is refused for
    what its data block holds. *)
Lemma command_settled buf p : mc_parse buf = Ok (Mc_Command p) -> settled mc_scan buf (Item_Command p) (pa_consumed p).
Proof.
  intros E. pose proof (mc_parse_ok buf) as Hp. rewrite E in Hp. destruct Hp as (Hn & _ & Hm). split; [done|].
  intros more. unfold mc_scan. by rewrite Hm.
Qed.

Lemma sliced_cut buf items tail : sliced mc_scan buf items tail -> mc_cut buf items tail.
Proof.
  induction 1 as [buf E|buf item n items tail Hs Hc IH].
  - apply cut_tail; intros *; unfold mc_scan in E; intros E'; by rewrite E' in E.
  - pose proof (settled_scan _ _ _ _ [] Hs) as E. rewrite app_nil_r in E. unfold mc_scan in E.
    destruct (mc_parse buf) as [[|p]|[kind k|d]|why] eqn:Ep; try done; injection E as <- <-;
      [by apply cut_command|by apply cut_refused with k].
Qed.

Definition mc_step (c : Wire St bool) (item : Item) : Wire St bool * Ended :=
  let '(after, closing) :=
    item_plainly conf now_ms stats_section (wi_slot c) (mkConn (wi_server c) (wi_auth c) (wi_out c) []) item in
  (mkWire (cn_server after) (cn_auth after) (cn_out after) (wi_slot c), Ended_Closing closing).

(** The connection may write. *)
Definition may_write {D} (c : Wire St D) : Prop := refusal (sv_auth conf) (wi_auth c) Roles_WRITE = None.

Lemma writer_ungated {D} (c : Wire St D) :
  may_write c -> negb (is_authenticated (wi_auth c)) && au_required (sv_auth conf) = false.
Proof.
  unfold may_write, refusal, is_authenticated. destruct (ca_identity (wi_auth c)); [done|]. by destruct (au_required _).
Qed.

Lemma item_plainly_batch c tls item :
  cn_batch (item_plainly conf now_ms stats_section tls c item).1 = cn_batch c.
Proof. destruct item; [apply execute_memcached_batch|done]. Qed.

Lemma run_steps items x slot :
  cn_batch x = [] ->
  (let '(after, closing) := McServerSpec.run (item_plainly conf now_ms stats_section slot) x items in
   (mkWire (cn_server after) (cn_auth after) (cn_out after) slot, Ended_Closing closing))
  = steps mc_step (mkWire (cn_server x) (cn_auth x) (cn_out x) slot) items.
Proof.
  revert x. induction items as [|item items IH]; intros x Hx; [done|]. cbn [McServerSpec.run steps]. unfold mc_step at 1.
  cbn [wi_server wi_auth wi_out wi_slot]. pose proof (item_plainly_batch x slot item) as Hb. destruct x as [s a o b].
  cbn in Hx, Hb |- *. subst b. destruct (item_plainly _ _ _ _ _ item) as [after [|]]; [done|]. by apply IH.
Qed.

Lemma after_dump_auth (c : Server.Conn St bool) d : cn_auth (after_dump c d) = cn_auth c.
Proof. destruct d as [[s o] [|f|]]; done. Qed.

Lemma execute_generally_auth (x : Server.Conn St bool) p : cn_auth (execute_generally conf now_ms x p).1 = cn_auth x.
Proof. unfold execute_generally. destruct (execute _ _ _) as [s [r|f|w]]; [by destruct (pa_noreply p)..|done]. Qed.

(** Whoever may write is past the only command that changes who they are. *)
Lemma mc_keeps c item : may_write c -> may_write (mc_step c item).1.
Proof.
  intros Hm. enough (wi_auth (mc_step c item).1 = wi_auth c) as E by (unfold may_write in *; by rewrite E).
  unfold mc_step. set (x := mkConn _ _ _ _). assert (cn_auth (item_plainly conf now_ms stats_section (wi_slot c) x item).1 = cn_auth x) as E.
  - destruct item as [p|kind]; [|done]. cbn [item_plainly]. unfold McServer.execute_memcached.
    change (cn_auth x) with (wi_auth c). rewrite (writer_ungated c Hm). change (wi_auth c) with (cn_auth x).
    unfold retrieve_into, meta_get_into, refuse_memcached, push_mc_error.
    repeat first [done | apply execute_generally_auth | apply after_dump_auth | case_match].
  - by destruct (item_plainly _ _ _ _ _ _).
Qed.

Lemma parse_writes_items fuel slice items sets0 suppress0 sets suppress :
  parse_writes_loop fuel slice sets0 suppress0 = Some (sets, suppress) -> sliced mc_scan slice items [] ->
  exists sets1 suppress1, sets = sets0 ++ sets1 /\ suppress = suppress0 ++ suppress1
    /\ Forall3 (fun item set noreply => exists p,
         item = Item_Command p /\ pa_style p = Style_Storage /\ pa_command p = Cmd_Set set /\ plain set /\ pa_noreply p = noreply)
       items sets1 suppress1.
Proof.
  revert slice items sets0 suppress0. induction fuel as [|fuel IH]; intros slice items sets0 suppress0 H Hs.
  - destruct slice; [|done]. cbn in H. injection H as <- <-. apply sliced_nothing in Hs as ->; [|done].
    exists [], []. rewrite !app_nil_r. by repeat constructor.
  - cbn [parse_writes_loop] in H. destruct slice as [|b slice'].
    { injection H as <- <-. apply sliced_nothing in Hs as ->; [|done]. exists [], []. rewrite !app_nil_r. by repeat constructor. }
    set (slice := b :: slice') in *. apply sliced_inv in Hs. unfold mc_scan at 1 in Hs.
    destruct (mc_parse slice) as [[|p]|[kind k|d]|why]; try done. destruct (pa_style p) eqn:Est; try done.
    destruct (batchable (pa_command p)) as [set|] eqn:Eb; [|done]. apply batchable_inv in Eb as [Ec Hp].
    destruct (awaitable _); [|done]. destruct Hs as (_ & more & -> & Hs).
    destruct (IH _ _ _ _ H Hs) as (sets1 & suppress1 & -> & -> & Hall). exists (set :: sets1), (pa_noreply p :: suppress1).
    rewrite <- !app_assoc. split; [done|]. split; [done|]. constructor; [|done]. by exists p.
Qed.

Lemma mc_writes_item p set :
  pa_style p = Style_Storage -> pa_command p = Cmd_Set set -> plain set ->
  writes_item mc_step may_write (bs "STORED" ++ CRLF) (Item_Command p) set (pa_noreply p).
Proof.
  intros Es Ec Hp. split; [done|]. intros c s' w cas Hm Est Ho. unfold mc_step. cbn [item_plainly].
  unfold McServer.execute_memcached. cbn [cn_auth cn_server cn_out]. rewrite (writer_ungated c Hm).
  rewrite (needed_of_set p set) by done. cbn [roles_for_command]. rewrite (proj2 Hp).
  unfold may_write in Hm. rewrite Hm, Es. unfold execute_generally. cbn [cn_server]. rewrite Ec, execute_set by done.
  rewrite Est. cbn [fst snd]. rewrite Ho, ?Es. by destruct (pa_noreply p).
Qed.

Lemma mc_rounds buf fuel m runs :
  match mc_scan (drop (ms_complete m) buf) with
  | Some (_, n) => exists kind,
      measure_memcached_loop (S fuel) buf m runs = measure_memcached_loop fuel buf (measured_more m n) (run_extend runs kind n)
  | None => exists m', ms_complete m' = ms_complete m /\ measure_memcached_loop (S fuel) buf m runs = (m', runs)
  end.
Proof.
  unfold mc_scan. cbn [measure_memcached_loop]. pose proof (mc_parse_ok (drop (ms_complete m) buf)) as Hp.
  destruct (mc_parse (drop (ms_complete m) buf)) as [[|p]|[kind k|d]|why]; first [done | by eexists | eexists; by split; [|done]].
Qed.

Lemma mc_lawful auth :
  Lawful (sliced mc_scan) mc_step may_write (fun _ => True) measure_memcached (run_memcached conf now_ms stats_section)
    (writes_if (conn_may_write conf auth) memcached_writes).
Proof.
  split.
  - by apply sliced_tail.
  - intros items tail. by apply sliced_nothing.
  - apply sliced_app.
  - intros buf items tail Hs. apply (sliced_measure mc_scan eq_refl (fun fuel m runs => measure_memcached_loop fuel buf m runs)); [|done].
    intros fuel m runs. apply mc_rounds.
  - intros c block items Hs%sliced_cut. unfold Conn.run_memcached.
    rewrite (mc_block_plain conf now_ms stats_section (wi_slot c) _ _ _ _ _ _ Hs).
    pose proof (run_steps items (mkConn (wi_server c) (wi_auth c) (wi_out c) []) (wi_slot c) eq_refl) as E.
    destruct (McServerSpec.run _ _ items) as [after closing]. rewrite E. by destruct c.
  - intros w slice items sets suppress Hw H Hs. unfold writes_if in Hw. destruct (conn_may_write conf auth); [|done].
    injection Hw as <-. cbn in H. apply parse_writes_items with (items := items) in H as (sets1 & suppress1 & -> & -> & Hall); [|done].
    cbn [app]. clear Hs. induction Hall as [|item set sup items' sets' suppress' (p & -> & Es & Ec & Hp & <-) Hall IH];
      constructor; [by apply mc_writes_item|done].
  - intros c item _ Hm _. by apply mc_keeps.
  - unfold may_write. by intros c c' ->.
Qed.

(** ** Redis *)

(** A request whose parse panics is whole all the same. *)
Inductive RPiece : Type := RP_Item (item : RItem) | RP_Panic.

Definition piece_of (parsed : RParse RespParsed) : RPiece :=
  match parsed with
  | Ok p => RP_Item (RItem_Command (rp_command p))
  | Err (Resp_Recoverable reply _) => RP_Item (RItem_Refused reply)
  | _ => RP_Panic
  end.

Definition resp_scan (buf : bytes) : option (RPiece * nat) :=
  match frame buf frame_pair with
  | Ok (Some (args, n)) => Some (piece_of (parse_command n args), n)
  | _ => None
  end.

Lemma resp_settled buf piece n : resp_scan buf = Some (piece, n) -> settled resp_scan buf piece n.
Proof.
  unfold resp_scan. pose proof (frame_ok buf) as Hf. destruct (frame buf frame_pair) as [[[args k]|]| |]; try done.
  intros [= <- <-]. destruct Hf as (Hn & _ & Hm). split; [done|]. intros more. unfold resp_scan. by rewrite Hm.
Qed.

Lemma resp_scan_more buf piece n :
  resp_scan buf = Some (piece, n) -> (0 < n <= length buf)%nat /\ forall more, resp_scan (buf ++ more) = Some (piece, n).
Proof. intros H%resp_settled. split; [by destruct H|]. intros more. by apply settled_scan. Qed.

(** Every buffer is cut. *)
Lemma resp_sliced buf : exists pieces tail, sliced resp_scan buf pieces tail.
Proof.
  induction buf as [buf IH] using (induction_ltof1 _ length). unfold ltof in IH.
  destruct (resp_scan buf) as [[piece n]|] eqn:E; [|exists [], buf; by apply sliced_tail].
  apply resp_settled in E. pose proof E as [Hn _]. destruct (IH (drop n buf)) as (pieces & tail & Hs); [rewrite length_drop; lia|].
  exists (piece :: pieces), tail. by apply sliced_item with n.
Qed.

(** The items up to the one that panics, if one does. *)
Lemma sliced_resp_cut buf pieces :
  sliced resp_scan buf pieces [] ->
  exists items tail, resp_cut buf items tail
    /\ if aborts tail then exists rest, pieces = (RP_Item <$> items) ++ RP_Panic :: rest else pieces = RP_Item <$> items.
Proof.
  remember [] as tail eqn:Et. induction 1 as [buf E|buf piece n pieces tail Hs Hc IH]; subst.
  { exists [], []. split; [|done]. by apply rcut_tail. }
  destruct (IH eq_refl) as (items & tail & Hr & Hp). clear IH.
  pose proof (settled_scan _ _ _ _ [] Hs) as E. rewrite app_nil_r in E. unfold resp_scan in E.
  pose proof (frame_ok buf) as Hf. pose proof (resp_parse_walk buf) as Hw.
  destruct (frame buf frame_pair) as [[[args k]|]| |] eqn:Ef; try done. injection E as <- <-.
  destruct Hf as (Hn & (Hne & _) & _). pose proof (parse_command_ok k args Hne) as Hk.
  destruct (parse_command k args) as [p|[reply j|d]|why] eqn:Ep; cbn in Hk; try done.
  - exists (RItem_Command (rp_command p) :: items), tail. destruct Hk as [<- _]. split; [by apply rcut_command|].
    destruct (aborts tail); [|by rewrite Hp]. destruct Hp as [rest ->]. by exists rest.
  - subst j. exists (RItem_Refused reply :: items), tail. split; [by apply rcut_refused with k|].
    destruct (aborts tail); [|by rewrite Hp]. destruct Hp as [rest ->]. by exists rest.
  - exists [], buf. split; [apply rcut_tail; by rewrite Hw|]. unfold aborts. rewrite Hw. by exists pieces.
Qed.

Abbreviation RWire := (Wire St (Version * ScanCursors)).

Definition resp_conn (c : RWire) : @RespConn St :=
  mkRespConn (mkConn (wi_server c) (wi_auth c) (wi_out c) []) (wi_slot c).1 (wi_slot c).2.

Definition resp_wire (c : @RespConn St) : RWire :=
  mkWire (cn_server (rc_conn c)) (cn_auth (rc_conn c)) (cn_out (rc_conn c)) (rc_version c, rc_cursors c).

Definition resp_step (c : RWire) (piece : RPiece) : RWire * Ended :=
  match piece with
  | RP_Item item =>
      let '(after, closing) := resp_plainly conf now_ms instant (resp_conn c) item in (resp_wire after, Ended_Closing closing)
  | RP_Panic => (c, Ended_Abort)
  end.

Lemma resp_conn_wire (x : @RespConn St) : cn_batch (rc_conn x) = [] -> resp_conn (resp_wire x) = x.
Proof. destruct x as [[s a o b] v cur]. cbn. by intros ->. Qed.

Lemma resp_plainly_batch (c : @RespConn St) item :
  cn_batch (rc_conn (resp_plainly conf now_ms instant c item).1) = cn_batch (rc_conn c).
Proof. destruct item; [apply resp_execute_batch|done]. Qed.

Lemma resp_items_steps items x :
  cn_batch (rc_conn x) = [] ->
  (let '(after, closing) := resp_items (resp_plainly conf now_ms instant) x items in (resp_wire after, Ended_Closing closing))
  = steps resp_step (resp_wire x) (RP_Item <$> items).
Proof.
  revert x. induction items as [|item items IH]; intros x Hx; [done|]. cbn [resp_items steps fmap list_fmap resp_step].
  rewrite resp_conn_wire by done. pose proof (resp_plainly_batch x item) as Hb.
  destruct (resp_plainly _ _ _ x item) as [after [|]]; [done|]. apply IH. cbn in Hb. congruence.
Qed.

#[local] Existing Instance quit_dec.

(** A request that does not sign in as somebody else. *)
Definition resp_keeps (piece : RPiece) : Prop :=
  match piece with RP_Item item => ~ resp_signs_in conf item | RP_Panic => True end.

Lemma resp_execute_identity (c : @RespConn St) command :
  ~ resp_signs_in conf (RItem_Command command) ->
  ca_identity (cn_auth (rc_conn (resp_execute conf now_ms instant c command).1)) = ca_identity (cn_auth (rc_conn c)).
Proof.
  intros Hno. destruct (decide (command = RC_Quit)) as [->|Hq]; [done|].
  rewrite (resp_execute_gate conf now_ms instant c command Hq). cbv zeta. cbn [fst]. case_decide.
  2:{ by destruct (ca_identity (cn_auth (rc_conn c))) eqn:E. }
  unfold resp_ran. pose proof (resp_run_identity conf now_ms instant c command Hno) as Hi.
  by destruct (resp_run _ _ _ _ _) as [c' []].
Qed.

Lemma resp_step_keeps c piece : may_write c -> resp_keeps piece -> may_write (resp_step c piece).1.
Proof.
  intros Hm Hk. destruct piece as [item|]; [|done]. cbn [resp_step resp_keeps] in *.
  assert (ca_identity (cn_auth (rc_conn (resp_plainly conf now_ms instant (resp_conn c) item).1)) = ca_identity (wi_auth c)) as E.
  { destruct item as [command|]; [|done]. cbn [resp_plainly]. by rewrite resp_execute_identity. }
  destruct (resp_plainly _ _ _ _ item) as [after closing]. cbn [fst] in E. unfold may_write, refusal in *. cbn [resp_wire wi_auth fst].
  by rewrite E.
Qed.

Lemma resp_writes_items fuel slice pieces sets0 suppress0 sets suppress :
  resp_writes_loop fuel now_ms slice sets0 suppress0 = Some (sets, suppress) -> sliced resp_scan slice pieces [] ->
  exists sets1 suppress1, sets = sets0 ++ sets1 /\ suppress = suppress0 ++ suppress1
    /\ Forall3 (fun piece set noreply => exists rset,
         piece = RP_Item (RItem_Command (RC_Set rset)) /\ translate now_ms (RC_Set rset) = Ok (Cmd_Set set)
         /\ awaitable_set set = true /\ noreply = false)
       pieces sets1 suppress1.
Proof.
  revert slice pieces sets0 suppress0. induction fuel as [|fuel IH]; intros slice pieces sets0 suppress0 H Hs.
  - destruct slice; [|done]. cbn in H. injection H as <- <-. apply sliced_nothing in Hs as ->; [|done].
    exists [], []. rewrite !app_nil_r. by repeat constructor.
  - cbn [resp_writes_loop] in H. destruct slice as [|b slice'].
    { injection H as <- <-. apply sliced_nothing in Hs as ->; [|done]. exists [], []. rewrite !app_nil_r. by repeat constructor. }
    set (slice := b :: slice') in *. apply sliced_inv in Hs. unfold resp_scan in Hs. rewrite resp_parse_walk in H.
    pose proof (frame_ok slice) as Hf. destruct (frame slice frame_pair) as [[[args n]|]| |]; try done.
    destruct Hf as (_ & (Hne & _) & _). pose proof (parse_command_ok n args Hne) as Hk.
    destruct (parse_command n args) as [p| |] eqn:Ep; try done. cbn [mbind Result_bind piece_of] in H, Hs. destruct Hk as [Hn _].
    destruct (rp_command p) as [| | | | |rset| | | | | | | | | | | | | | | |] eqn:Ec; try done.
    destruct (translate now_ms (RC_Set rset)) as [d|f|why] eqn:Et; try done. cbn [result_ok] in H. destruct d; try done.
    destruct (awaitable_set set) eqn:Ea; [|done]. destruct Hs as (_ & more & -> & Hs). rewrite Hn in H.
    destruct (IH _ _ _ _ H Hs) as (sets1 & suppress1 & -> & -> & Hall). exists (set :: sets1), (false :: suppress1).
    rewrite <- !app_assoc. split; [done|]. split; [done|]. constructor; [|done]. by exists rset.
Qed.

Lemma awaitable_plain set : awaitable_set set = true -> plain set /\ batchable (Cmd_Set set) = Some set.
Proof.
  unfold awaitable_set. intros [H _]%andb_true_iff. cbn [batchable]. rewrite H. apply andb_true_iff in H as [H1 H2].
  apply bool_decide_eq_true in H1. apply negb_true_iff in H2. done.
Qed.

Lemma resp_writes_item rset set :
  translate now_ms (RC_Set rset) = Ok (Cmd_Set set) -> awaitable_set set = true ->
  writes_item resp_step may_write OK_LINE (RP_Item (RItem_Command (RC_Set rset))) set false.
Proof.
  intros Et [Hp Hb]%awaitable_plain. split; [done|]. intros c s' w cas Hm Est Ho. cbn [resp_step resp_plainly].
  assert (batchable_set conf now_ms (wi_auth c) (RC_Set rset) = Some set) as Eb.
  { assert (denial (sv_auth conf) (wi_auth c) (RC_Set rset) = None) as Hd.
    { unfold denial. pose proof (roles_agree _ _ _ Et) as Hr. destruct (resp_roles (RC_Set rset)) as [needed name]. cbn [fst roles_for_command] in Hr.
      rewrite (proj2 Hp) in Hr. unfold may_write in Hm. by rewrite Hr, Hm. }
    unfold batchable_set. rewrite Hd, Et. cbn [result_ok mbind option_bind]. rewrite Hb.
    unfold resp_refusal. pose proof (writer_ungated c Hm) as Hg. destruct (is_authenticated (wi_auth c)); [done|]. cbn in Hg |- *. by rewrite Hg. }
  rewrite (set_in_turn conf now_ms instant (resp_conn c) (RC_Set rset) set Eb eq_refl SB).
  unfold ServerBatch.in_turn. cbn [resp_conn rc_conn cn_server cn_auth cn_out cn_batch retry_loop]. rewrite execute_set by done.
  rewrite Est. cbn [fst snd retry_loop retried]. rewrite Ho. cbn. by destruct (wi_slot c).
Qed.

Lemma resp_lawful auth :
  Lawful (sliced resp_scan) resp_step may_write resp_keeps measure_resp (run_resp conf now_ms instant)
    (writes_if (conn_may_write conf auth) (resp_writes now_ms)).
Proof.
  split.
  - by apply sliced_tail.
  - intros items tail. by apply sliced_nothing.
  - apply sliced_app.
  - intros buf items tail Hs. apply (sliced_measure resp_scan eq_refl (fun fuel m runs => measure_resp_loop fuel buf m runs)); [|done].
    intros fuel m runs. unfold resp_scan. cbn [measure_resp_loop]. unfold peek. rewrite (frame_with _ (fun args consumed => Framed_Command (classify args) consumed)).
    pose proof (frame_ok (drop (ms_complete m) buf)) as Hf.
    destruct (frame (drop (ms_complete m) buf) frame_pair) as [[[args n]|]| |];
      first [done | by eexists | eexists; by split; [|done]].
  - intros c block pieces Hs. apply sliced_resp_cut in Hs as (items & tail & Hc & Hp).
    pose proof (resp_block_plain conf now_ms instant (resp_conn c) block items tail eq_refl Hc) as Hb.
    pose proof (resp_items_steps items (resp_conn c) eq_refl) as E.
    assert (resp_wire (resp_conn c) = c) as Ew by by destruct c as [s a o [v cur]].
    assert (run_resp conf now_ms instant c block
      = let '(after, ended) := execute_resp_block conf now_ms instant (resp_conn c) block in (resp_wire after, ended)) as ->.
    { unfold run_resp. by destruct c as [s a o [v cur]]. }
    rewrite Ew in E. destruct (resp_items (resp_plainly conf now_ms instant) (resp_conn c) items) as [after closing].
    unfold ended in Hb. destruct (aborts tail).
    + destruct Hp as [rest ->]. rewrite steps_app, <- E. destruct closing.
      * rewrite Hb. reflexivity.
      * destruct (execute_resp_block conf now_ms instant (resp_conn c) block) as [x e]. cbn in Hb. subst e. by split.
    + rewrite Hp, <- E. by destruct closing; rewrite Hb.
  - intros w slice items sets suppress Hw H Hs. unfold writes_if in Hw. destruct (conn_may_write conf auth); [|done].
    injection Hw as <-. cbn in H. apply resp_writes_items with (pieces := items) in H as (sets1 & suppress1 & -> & -> & Hall); [|done].
    cbn [app]. clear Hs. induction Hall as [|item set sup items' sets' suppress' (rset & -> & Et & Ea & ->) Hall IH];
      constructor; [by apply resp_writes_item|done].
  - intros c piece _ Hm Hk. by apply resp_step_keeps.
  - unfold may_write. by intros c c' ->.
Qed.

End Dialects.
