(* ===== verification/ConnStream.v ===== *)
(** A connection from its first byte: the packets its bytes come in cannot be
    told from what it holds, says or sends, and what bounds it.

    First, that what a reply is does not depend on what was written before it:
    every encoder appends to the buffer it is given, so every step does. *)

From S2P Require Import Prelude Bytes Text Core Record Glob Clock Arith Command Backend Apply Read.
From S2P Require Import Float Vcp VcpEncode VcpSpec VcpReply Auth Server ServerBatch ServerSpec.
From S2P Require Import ServerRef Mc McEncode McServer McSpec McServerSpec Resp RespCommand.
From S2P Require Import RespParse RespEncode Scan RespServer RespServerSpec RespGate Conn ConnSpec.
From S2P Require Import ConnDialects.

(** [f] appends to the buffer. *)
Abbreviation appends f := (forall p out : bytes, f (p ++ out) = p ++ f out).

Lemma foldl_appends {A} (f : bytes -> A -> bytes) l : (forall a, appends (fun out => f out a)) -> appends (fun out => foldl f out l).
Proof. intros H p out. revert out. induction l as [|a l IH]; intros out; [done|]. cbn [foldl]. by rewrite H, IH. Qed.

(** Unfold, split the cases, and reassociate. *)
Ltac appending := intros; repeat first [done | rewrite <- !app_assoc; done | progress cbv zeta | case_match].

(** ** The native protocol *)

Lemma vcp_reply_appends op id reply : appends (fun out => encode_reply out op id reply).
Proof. unfold encode_reply, encode_response, encode_value. appending. Qed.

Lemma vcp_error_appends op id status : appends (fun out => encode_error out op id status).
Proof. unfold encode_error. appending. Qed.

(** ** memcached *)

Lemma mc_encode_error_appends kind : appends (fun out => mc_encode_error out kind).
Proof. unfold mc_encode_error. appending. Qed.

Lemma stat_lines_appends entries : appends (fun out => stat_lines out entries).
Proof. apply foldl_appends. intros [name value]. appending. Qed.

Lemma encode_value_line_appends with_cas key value : appends (fun out => encode_value_line out with_cas key value).
Proof. unfold encode_value_line. appending. Qed.

Lemma dump_line_appends style entry : appends (fun out => dump_line out style entry).
Proof. unfold dump_line. appending. Qed.

Lemma encode_retrieval_appends with_cas command reply : appends (fun out => encode_retrieval out with_cas command reply).
Proof.
  unfold encode_retrieval. intros p out. destruct reply; try by rewrite <- app_assoc. rewrite (foldl_appends (fun out '(key, value) => _)).
  - by rewrite <- app_assoc.
  - intros [key [value|]]; [apply encode_value_line_appends|done].
Qed.

Lemma write_key_appends flags command : appends (fun out => write_key_and_opaque out flags command).
Proof. unfold write_key_and_opaque. appending. Qed.

Lemma return_flags_appends now_ms flags command value : appends (fun out => write_return_flags now_ms out flags command value).
Proof.
  intros p out. unfold write_return_flags. cbv zeta. destruct value as [value|]; [|apply write_key_appends].
  rewrite <- write_key_appends. f_equal. appending.
Qed.

Lemma meta_get_hit_appends now_ms flags command value : appends (fun out => encode_meta_get_hit now_ms out flags command value).
Proof.
  intros p out. unfold encode_meta_get_hit. cbv zeta.
  destruct (mf_value flags); rewrite <- !app_assoc, return_flags_appends; by rewrite <- !app_assoc.
Qed.

Lemma encode_meta_appends {FT : FloatText} now_ms style command reply : appends (fun out => encode_meta now_ms out style command reply).
Proof.
  intros p out. unfold encode_meta. cbv zeta. destruct style;
    repeat first [done | apply meta_get_hit_appends | rewrite <- !app_assoc; done
                 | rewrite <- !app_assoc, write_key_appends; by rewrite <- ?app_assoc | case_match].
Qed.

Lemma mc_encode_appends {FT : FloatText} now_ms style command reply : appends (fun out => mc_encode now_ms out style command reply).
Proof.
  intros p out. unfold mc_encode. cbv zeta. destruct style;
    repeat first [done | apply encode_retrieval_appends | apply encode_meta_appends | rewrite <- !app_assoc; done
                 | rewrite stat_lines_appends; by rewrite <- ?app_assoc | case_match].
Qed.

(** ** Redis *)

Lemma error_line_appends code message : appends (fun out => error_line out code message).
Proof. unfold error_line. appending. Qed.

Lemma error_reply_appends reply : appends (fun out => error_reply out reply).
Proof. unfold error_reply, escape, error_line. appending. Qed.

Lemma bulk_appends b : appends (fun out => bulk out b).
Proof. unfold bulk. appending. Qed.

Lemma array_appends n : appends (fun out => array out n).
Proof. unfold array. appending. Qed.

Lemma integer_appends n : appends (fun out => integer out n).
Proof. unfold integer. appending. Qed.

Lemma hello_appends version : appends (fun out => hello out version).
Proof.
  intros p out. unfold hello. cbv zeta. destruct version; [rewrite array_appends|rewrite <- app_assoc];
    by rewrite !bulk_appends, integer_appends, !bulk_appends, integer_appends, !bulk_appends, array_appends.
Qed.

Lemma verbatim_appends text version : appends (fun out => verbatim out text version).
Proof. unfold verbatim, bulk. appending. Qed.

Section RespEncoders.
Context {FT : FloatText} {BI : BuildInfo}.

Lemma write_value_appends version value : appends (fun out => write_value version out value).
Proof. unfold write_value, null, bulk. appending. Qed.

Lemma answer_number_appends version number : appends (fun out => answer_number version out number).
Proof. unfold answer_number, double, bulk, integer. appending. Qed.

Lemma answer_scan_appends cursor entries : appends (fun out => answer_scan out cursor entries).
Proof.
  intros p out. unfold answer_scan. rewrite array_appends, bulk_appends, array_appends. apply (foldl_appends (fun out entry => bulk out (le_name entry))).
  intros entry. apply bulk_appends.
Qed.

(** An answer, with more written before it. *)
Definition answer_after (p : bytes) (answer : Answer bytes) : Answer bytes :=
  match answer with Ok out => Ok (p ++ out) | Err f => Err f | Panic why => Panic why end.

Lemma render_appends now_ms command reply version p out :
  render now_ms command reply version (p ++ out) = answer_after p (render now_ms command reply version out).
Proof.
  destruct command, reply; cbn [render answer_after]; try done;
    repeat first [done | unfold simple, ok; rewrite <- app_assoc; done | rewrite bulk_appends; done
                 | rewrite integer_appends; done | unfold info; rewrite verbatim_appends; done
                 | rewrite write_value_appends; done | unfold null; rewrite <- app_assoc; done
                 | rewrite array_appends, (foldl_appends (write_value version)) by (intros; apply write_value_appends); done
                 | unfold answer_increx; rewrite array_appends, (foldl_appends (answer_number version)) by (intros; apply answer_number_appends); done
                 | unfold mbind, Result_bind; cbn [answer_after]; case_match ].
Qed.

End RespEncoders.

Section Steps.
Context {St : Type} {SO : StoreOps St} {DG : Digest} {FT : FloatText} {BI : BuildInfo}.
Variable conf : ServerConf.
Variable now_ms instant : Z.
Variable stats_section : StatsSection -> bool -> list (bytes * bytes).

(** The connection with more written before what it wrote. *)
Definition cn_after {N} (p : bytes) (c : Server.Conn St N) : Server.Conn St N := with_out c (p ++ cn_out c).

(** Two outcomes of a run, the same but for what was written before. *)
Definition after_as {A B} (shift : A -> A) (r r' : A * B) : Prop := r' = (shift r.1, r.2).

Lemma execute_plainly_after p c frame :
  execute_plainly conf now_ms (cn_after p c) frame = cn_after p (execute_plainly conf now_ms c frame).
Proof.
  assert (forall c raw id status, push_error (cn_after p c) raw id status = cn_after p (push_error c raw id status)) as He.
  { intros c' raw id status. unfold push_error, cn_after, with_out. cbn [cn_out]. by rewrite vcp_error_appends. }
  unfold execute_plainly. change (cn_auth (cn_after p c)) with (cn_auth c).
  destruct (header_refusal _ _ _); [by destruct (rf_no_reply _)|].
  destruct (decode frame) as [[]|[]|]; try apply He.
  - unfold request_plainly, answer_plainly. change (cn_server (cn_after p c)) with (cn_server c).
    destruct (execute _ _ _) as [s r].
    change (mkConn s (cn_auth (cn_after p c)) (cn_out (cn_after p c)) (cn_batch (cn_after p c)))
      with (cn_after p (mkConn s (cn_auth c) (cn_out c) (cn_batch c))).
    destruct (rq_no_reply _); [done|]. destruct r as [r|f|w]; [|apply He|done].
    destruct (oversized r); [apply He|]. unfold cn_after, with_out. cbn [cn_out]. by rewrite vcp_reply_appends.
  - unfold execute_auth. change (cn_auth (cn_after p c)) with (cn_auth c). repeat case_match; unfold cn_after, with_out; cbn [cn_out];
      unfold encode_response; by rewrite <- app_assoc.
Qed.

Lemma push_mc_error_after p (c : Server.Conn St bool) kind : push_mc_error (cn_after p c) kind = cn_after p (push_mc_error c kind).
Proof. unfold push_mc_error, cn_after, with_out. cbn [cn_out]. by rewrite mc_encode_error_appends. Qed.

Lemma refuse_memcached_after p (c : Server.Conn St bool) parsed reason :
  refuse_memcached (cn_after p c) parsed reason = cn_after p (refuse_memcached c parsed reason).
Proof. unfold refuse_memcached. destruct (pa_noreply parsed); [done|apply push_mc_error_after]. Qed.

Lemma execute_generally_after p (c : Server.Conn St bool) parsed :
  after_as (cn_after p) (execute_generally conf now_ms c parsed) (execute_generally conf now_ms (cn_after p c) parsed).
Proof.
  unfold after_as, execute_generally. change (cn_server (cn_after p c)) with (cn_server c).
  destruct (execute _ _ _) as [s r].
  change (mkConn s (cn_auth (cn_after p c)) (cn_out (cn_after p c)) (cn_batch (cn_after p c)))
    with (cn_after p (mkConn s (cn_auth c) (cn_out c) (cn_batch c))).
  destruct r as [r|f|w]; cbn [fst snd]; destruct (pa_noreply parsed); try done.
  - f_equal. unfold cn_after, with_out. cbn [cn_out]. by rewrite mc_encode_appends.
  - f_equal. apply push_mc_error_after.
Qed.

Lemma dump_loop_after fuel dump scanned cursor s p out :
  dump_loop conf fuel dump scanned cursor s (p ++ out)
  = let '(s', out', r) := dump_loop conf fuel dump scanned cursor s out in (s', p ++ out', r).
Proof.
  revert scanned cursor s out. induction fuel as [|fuel IH]; intros scanned cursor s out; [done|]. cbn [dump_loop]. cbv zeta.
  destruct (execute _ _ s) as [s' r]. destruct (r ≫= page_of) as [page|f|w]; [|done..].
  rewrite (foldl_appends (fun out entry => dump_line out (du_style dump) entry)) by (intros; apply dump_line_appends).
  destruct (l_cursor page) as [next|]; [|by rewrite <- app_assoc].
  destruct (_ <? _); [apply IH|by rewrite mc_encode_error_appends].
Qed.

Lemma execute_dump_after dump s p out :
  execute_dump conf dump s (p ++ out) = let '(s', out', r) := execute_dump conf dump s out in (s', p ++ out', r).
Proof.
  unfold execute_dump. destruct (listing_gate conf s) as [s' [u|f|w]]; [|done..]. cbv zeta.
  destruct (negb _); [by rewrite <- !app_assoc|]. by rewrite <- app_assoc, dump_loop_after.
Qed.

Lemma execute_cachedump_after dump s p out :
  execute_cachedump conf dump s (p ++ out) = let '(s', out', r) := execute_cachedump conf dump s out in (s', p ++ out', r).
Proof.
  unfold execute_cachedump. destruct (listing_gate conf s) as [s' [u|f|w]]; [|done..]. cbv zeta.
  destruct (negb _); [by rewrite <- app_assoc|]. destruct (execute _ _ _) as [s1 r]. destruct (r ≫= page_of); [|done..].
  rewrite (foldl_appends cachedump_line); [by rewrite <- app_assoc|]. intros entry. unfold cachedump_line. appending.
Qed.

Lemma after_dump_after p (c : Server.Conn St bool) dumped :
  after_dump (cn_after p c) (let '(s, out, r) := dumped in (s, p ++ out, r)) = cn_after p (after_dump c dumped).
Proof.
  destruct dumped as [[s out] r]. unfold after_dump. cbn [cn_auth cn_after with_out cn_batch].
  destruct r; [done| |done]. by rewrite <- push_mc_error_after.
Qed.

Lemma retrieve_into_after p (c : Server.Conn St bool) with_cas keys :
  retrieve_into (cn_after p c) with_cas keys = cn_after p (retrieve_into c with_cas keys).
Proof.
  unfold retrieve_into. change (cn_server (cn_after p c)) with (cn_server c). change (cn_out (cn_after p c)) with (p ++ cn_out c).
  destruct (st_get_many_with _ keys) as [rendered outcome]. cbv zeta. rewrite (foldl_appends (fun out '(index, value) => _)).
  2:{ intros [index [value|]]; [apply encode_value_line_appends|done]. }
  destruct outcome; [unfold cn_after, with_out; cbn [cn_out]; by rewrite <- app_assoc| |done].
  by rewrite <- push_mc_error_after.
Qed.

Lemma meta_get_into_after p (c : Server.Conn St bool) flags command key :
  meta_get_into now_ms (cn_after p c) flags command key = cn_after p (meta_get_into now_ms c flags command key).
Proof.
  unfold meta_get_into. change (cn_server (cn_after p c)) with (cn_server c). change (cn_out (cn_after p c)) with (p ++ cn_out c).
  destruct (st_get_with _ key) as [[value|]|e|w]; [| |by apply push_mc_error_after|done]; unfold cn_after, with_out; cbn [cn_out].
  - by rewrite meta_get_hit_appends.
  - by rewrite <- app_assoc.
Qed.

Lemma item_plainly_after p tls c item :
  after_as (cn_after p) (item_plainly conf now_ms stats_section tls c item) (item_plainly conf now_ms stats_section tls (cn_after p c) item).
Proof.
  unfold after_as. destruct item as [parsed|kind]; cbn [item_plainly].
  2:{ cbn [fst snd]. f_equal. apply push_mc_error_after. }
  unfold McServer.execute_memcached. change (cn_auth (cn_after p c)) with (cn_auth c).
  change (cn_server (cn_after p c)) with (cn_server c). change (cn_out (cn_after p c)) with (p ++ cn_out c).
  pose proof (execute_generally_after p c parsed) as Hg. unfold after_as in Hg.
  destruct (_ && _).
  - unfold execute_memcached_unauthenticated. change (cn_auth (cn_after p c)) with (cn_auth c).
    assert (forall a, with_auth (cn_after p c) a = cn_after p (with_auth c a)) as Ha by done.
    repeat first [done | rewrite Ha | rewrite refuse_memcached_after; done
                 | unfold cn_after, with_out; cbn [with_auth cn_out]; rewrite mc_encode_appends; done | case_match].
  - destruct (refusal _ _ _) as [[|missing]|]; [|cbn; by rewrite refuse_memcached_after|];
    (destruct (pa_style parsed); try exact Hg;
      [destruct (pa_command parsed); try exact Hg; destruct (negb _); [|exact Hg]; cbn [fst snd]; f_equal; apply retrieve_into_after
      |destruct (negb _); [|exact Hg]; cbn [fst snd]; f_equal; unfold cn_after, with_out; cbn [cn_out]; by rewrite stat_lines_appends, <- ?app_assoc
      |destruct meta; try exact Hg; destruct (pa_command parsed); try exact Hg; destruct (negb _); [|exact Hg]; cbn [fst snd]; f_equal; apply meta_get_into_after
      |rewrite execute_dump_after, after_dump_after; done
      |rewrite execute_cachedump_after, after_dump_after; done]).
Qed.

(** The Redis connection with more written before. *)
Definition rc_after (p : bytes) (c : @RespConn St) : RespConn := rc_with_out c (p ++ rc_out c).

Lemma push_failure_after p (c : @RespConn St) f : push_failure (rc_after p c) f = rc_after p (push_failure c f).
Proof. unfold push_failure, rc_after, rc_with_out, rc_out, with_out. cbn [rc_conn cn_out]. by rewrite error_line_appends. Qed.

Lemma execute_for_after p (c : @RespConn St) command :
  after_as (rc_after p) (execute_for conf c command) (execute_for conf (rc_after p c) command).
Proof. unfold after_as, execute_for. change (cn_server (rc_conn (rc_after p c))) with (cn_server (rc_conn c)). by destruct (execute _ _ _). Qed.

Lemma authenticate_after p (c : @RespConn St) cred :
  after_as (rc_after p) (authenticate conf c cred) (authenticate conf (rc_after p c) cred).
Proof. unfold after_as, authenticate. cbv zeta. by repeat case_match. Qed.

(** A reply written after more is the reply after more. *)
Lemma written_after p (c : @RespConn St) out : rc_with_out (rc_after p c) (p ++ out) = rc_after p (rc_with_out c out).
Proof. done. Qed.

Lemma run_storage_after p (c : @RespConn St) storage :
  after_as (rc_after p) (run_storage conf now_ms c storage) (run_storage conf now_ms (rc_after p c) storage).
Proof.
  unfold after_as, run_storage. destruct (translate now_ms storage) as [d|f|w]; [|done..].
  pose proof (execute_for_after p c d) as E. unfold after_as in E. rewrite E. destruct (execute_for conf c d) as [c' r].
  cbn [fst snd]. destruct r as [r|f|w]; [|done..]. change (rc_out (rc_after p c')) with (p ++ rc_out c').
  change (rc_version (rc_after p c')) with (rc_version c'). rewrite render_appends. by destruct (render _ _ _ _ _).
Qed.

Lemma run_scan_after p (c : @RespConn St) scan :
  after_as (rc_after p) (run_scan conf instant c scan) (run_scan conf instant (rc_after p c) scan).
Proof.
  unfold after_as, run_scan. change (rc_out (rc_after p c)) with (p ++ rc_out c). change (rc_cursors (rc_after p c)) with (rc_cursors c).
  destruct (negb _); [by rewrite answer_scan_appends|]. destruct (scan_position _ _ _) as [pos|f|w]; [|done..]. cbv zeta.
  pose proof (execute_for_after p c (Cmd_ListKeys (mkListRequest (sc_count scan) pos (sc_pattern scan)))) as E. unfold after_as in E.
  rewrite E. destruct (execute_for conf c _) as [c' r]. cbn [fst snd]. destruct r as [r|f|w]; [|done..]. destruct r; try done.
  change (rc_cursors (rc_after p c')) with (rc_cursors c').
  match goal with |- context [l_cursor ?q] => destruct (l_cursor q) as [n|] end; [destruct (issue _ _ _) as [next cursors]|];
    cbn [fst snd]; unfold rc_after, rc_with_out, rc_out, with_out; cbn [rc_conn cn_out]; by rewrite answer_scan_appends.
Qed.

Lemma del_by_tag_after p (c : @RespConn St) n tags :
  after_as (rc_after p) (del_by_tag_loop conf c n tags) (del_by_tag_loop conf (rc_after p c) n tags).
Proof.
  unfold after_as. revert c n. induction tags as [|tag tags IH]; intros c n; [done|]. cbn [del_by_tag_loop].
  pose proof (execute_for_after p c (Cmd_DeleteByTag tag)) as E. unfold after_as in E. rewrite E.
  destruct (execute_for conf c _) as [c' r]. cbn [fst snd]. destruct r as [r|f|w]; [|done..]. by destruct r.
Qed.

Lemma resp_run_after p (c : @RespConn St) command :
  after_as (rc_after p) (resp_run conf now_ms instant c command) (resp_run conf now_ms instant (rc_after p c) command).
Proof.
  destruct command; try apply run_storage_after; cbn [resp_run]; try apply run_scan_after; unfold after_as.
  - unfold run_hello. change (rc_version (rc_after p c)) with (rc_version c). destruct (negotiate _ _) as [v|f|w]; [|done..].
    assert (forall x : @RespConn St, rc_with_out (mkRespConn (rc_conn (rc_after p x)) v (rc_cursors (rc_after p x)))
        (hello (rc_out (mkRespConn (rc_conn (rc_after p x)) v (rc_cursors (rc_after p x)))) v)
      = rc_after p (rc_with_out (mkRespConn (rc_conn x) v (rc_cursors x)) (hello (rc_out (mkRespConn (rc_conn x) v (rc_cursors x))) v))) as Hh.
    { intros x. unfold rc_after, rc_with_out, rc_out, with_out. cbn [rc_conn cn_out]. by rewrite hello_appends. }
    destruct auth as [cred|]; [|by rewrite Hh]. pose proof (authenticate_after p c cred) as E. unfold after_as in E. rewrite E.
    destruct (authenticate conf c cred) as [c' r]. cbn [fst snd]. cbv zeta. destruct r; [by rewrite Hh|done..].
  - cbn [fst snd]. unfold rc_after, rc_with_out, rc_out, with_out, ok. cbn [rc_conn cn_out]. by rewrite <- app_assoc.
  - unfold run_auth. pose proof (authenticate_after p c credential) as E. unfold after_as in E. rewrite E.
    destruct (authenticate conf c credential) as [c' r]. cbn [fst snd]. destruct r; [|done..]. cbn [fst snd].
    unfold rc_after, rc_with_out, rc_out, with_out, ok. cbn [rc_conn cn_out]. by rewrite <- app_assoc.
  - unfold run_get. destruct (key_of key) as [k|f|w]; [|done..]. change (cn_server (rc_conn (rc_after p c))) with (cn_server (rc_conn c)).
    destruct (st_get_with _ k) as [v|e|w]; [|done..]. change (rc_out (rc_after p c)) with (p ++ rc_out c).
    change (rc_version (rc_after p c)) with (rc_version c). by rewrite write_value_appends.
  - unfold run_mget. destruct (keys_of keys) as [ks|f|w]; [|done..]. change (cn_server (rc_conn (rc_after p c))) with (cn_server (rc_conn c)).
    destruct (st_get_many_with _ ks) as [rendered outcome]. cbv zeta. change (rc_out (rc_after p c)) with (p ++ rc_out c).
    change (rc_version (rc_after p c)) with (rc_version c). rewrite array_appends, (foldl_appends (fun out '(_, value) => _)); [done|].
    intros [i v]. apply write_value_appends.
  - unfold run_del_by_tag. pose proof (del_by_tag_after p c 0 tags) as E. unfold after_as in E. rewrite E.
    destruct (del_by_tag_loop conf c 0 tags) as [c' r]. cbn [fst snd]. destruct r as [r|f|w]; [|done..].
    change (rc_out (rc_after p c')) with (p ++ rc_out c'). by rewrite integer_appends.
  - done.
Qed.

Lemma resp_plainly_after p (c : @RespConn St) item :
  after_as (rc_after p) (resp_plainly conf now_ms instant c item) (resp_plainly conf now_ms instant (rc_after p c) item).
Proof.
  unfold after_as. destruct item as [command|reply]; cbn [resp_plainly].
  2:{ change (rc_out (rc_after p c)) with (p ++ rc_out c). by rewrite error_reply_appends. }
  assert (forall command, match resp_run conf now_ms instant (rc_after p c) command with
      | (c, Err failure) => (push_failure c failure, Closing_No) | (c, _) => (c, Closing_No) end
    = (rc_after p (match resp_run conf now_ms instant c command with
      | (c, Err failure) => (push_failure c failure, Closing_No) | (c, _) => (c, Closing_No) end).1, Closing_No)) as Hr.
  { intros command'. pose proof (resp_run_after p c command') as E. unfold after_as in E. rewrite E.
    destruct (resp_run _ _ _ c command') as [c' [r|f|w]]; [done| |done]. cbn [fst snd]. by rewrite push_failure_after. }
  unfold resp_execute. change (cn_auth (rc_conn (rc_after p c))) with (cn_auth (rc_conn c)).
  change (rc_out (rc_after p c)) with (p ++ rc_out c). unfold ok. rewrite <- app_assoc, written_after.
  assert (forall f, push_failure (rc_after p c) f = rc_after p (push_failure c f)) as Hp by apply push_failure_after.
  destruct command; try done;
    (destruct (resp_refusal _ _ _); [cbn [fst snd]; by rewrite Hp|]; destruct (denial _ _ _) as [[]|];
      [by rewrite error_line_appends|]; rewrite Hr; by destruct (resp_run _ _ _ _ _) as [? []]).
Qed.

(** ** The steps of a connection *)

Lemma vcp_step_out p c frame :
  vcp_step conf now_ms (wi_after p c) frame = let '(c', ended) := vcp_step conf now_ms c frame in (wi_after p c', ended).
Proof.
  unfold vcp_step. cbv zeta.
  change (mkConn (wi_server (wi_after p c)) (wi_auth (wi_after p c)) (wi_out (wi_after p c)) [])
    with (cn_after p (mkConn (N := VcpReply) (wi_server c) (wi_auth c) (wi_out c) [])). by rewrite execute_plainly_after.
Qed.

Lemma mc_step_out p c item :
  mc_step conf now_ms stats_section (wi_after p c) item
  = let '(c', ended) := mc_step conf now_ms stats_section c item in (wi_after p c', ended).
Proof.
  unfold mc_step. change (wi_slot (wi_after p c)) with (wi_slot c).
  pose proof (item_plainly_after p (wi_slot c) (mkConn (wi_server c) (wi_auth c) (wi_out c) []) item) as E. unfold after_as in E.
  change (mkConn (wi_server (wi_after p c)) (wi_auth (wi_after p c)) (wi_out (wi_after p c)) [])
    with (cn_after p (mkConn (N := bool) (wi_server c) (wi_auth c) (wi_out c) [])). rewrite E. clear E.
  by destruct (item_plainly _ _ _ _ _ item) as [after closing].
Qed.

Lemma resp_step_out p c piece :
  resp_step conf now_ms instant (wi_after p c) piece
  = let '(c', ended) := resp_step conf now_ms instant c piece in (wi_after p c', ended).
Proof.
  destruct piece as [item|]; [|done]. cbn [resp_step]. pose proof (resp_plainly_after p (resp_conn c) item) as E.
  unfold after_as in E. change (resp_conn (wi_after p c)) with (rc_after p (resp_conn c)). rewrite E. clear E.
  by destruct (resp_plainly _ _ _ (resp_conn c) item) as [after closing].
Qed.

End Steps.

#[local] Existing Instance quit_dec.

Section Serve.
Context {St : Type} {SO : StoreOps St} {DG : Digest} {FT : FloatText} {BI : BuildInfo}.
Variable conf : ServerConf.
Variable now_ms instant : Z.
Variable stats_section : StatsSection -> bool -> list (bytes * bytes).
Variable tier : Tier.
Variable limits : HandleConf.

Abbreviation Handle := (Conn.Handle (St := St)).
Abbreviation read_turn := (on_read conf now_ms instant stats_section tier limits).
Abbreviation drain_handle := (drain_settled conf now_ms instant stats_section tier).

(** The reads of a connection, one after another, while it stays open, and what
    it sends. *)
Fixpoint serve (h : Handle) (packets : list bytes) : option (Handle * bytes) :=
  match packets with
  | [] => Some (h, [])
  | packet :: packets' =>
      match read_turn h packet with
      | Turn_Open h sent => '(h', more) ← serve h packets'; Some (h', sent ++ more)
      | _ => None
      end
  end.

(** ** One read *)

(** The dialect a connection has, or that its first byte would give it. *)
Definition dialect_of (h : Handle) (read_buf : bytes) : option Dialect :=
  match settle limits h read_buf with Some (Ok dialect) => Some dialect | _ => None end.

Definition hd_settled (h : Handle) (dialect : Dialect) : Handle :=
  mkHandle (hd_server h) (hd_auth h) (hd_read_buf h) (Some dialect) (hd_version h) (hd_cursors h) (hd_encrypted h).

(** A read that leaves the connection open drained one dialect. *)
Lemma read_open h received h' sent :
  read_turn h received = Turn_Open h' sent ->
  exists dialect, dialect_of h (hd_read_buf h ++ received) = Some dialect /\ received <> []
    /\ drain_handle h dialect (hd_read_buf h ++ received) = (h', sent, Ended_Closing Closing_No)
    /\ ca_failures (hd_auth h') < hc_max_attempts limits
    /\ len (hd_read_buf h ++ received) <= (if unauthenticated conf h then PRE_AUTH_MAX_BUFFERED else hc_max_buffered_bytes limits).
Proof.
  unfold on_read, dialect_of. case_bool_decide as Hr; [done|]. cbv zeta. destruct (Z.ltb_spec (if unauthenticated conf h then PRE_AUTH_MAX_BUFFERED else hc_max_buffered_bytes limits)
    (len (hd_read_buf h ++ received))); [done|].
  destruct (settle limits h (hd_read_buf h ++ received)) as [[dialect|u|w]|] eqn:Es; [|done..|].
  - destruct (drain_handle h dialect (hd_read_buf h ++ received)) as [[h1 sent1] [[]|]] eqn:Ed; [done| |done].
    destruct (Z.leb_spec (hc_max_attempts limits) (ca_failures (hd_auth h1))); [done|]. intros [= -> ->]. exists dialect. by rewrite Ed.
  - unfold settle in Es. destruct (hd_protocol h); [done|]. destruct (hd_read_buf h ++ received) as [|b l] eqn:E; [|by cbn in Es].
    by apply app_nil in E as [_ ->].
Qed.

Lemma drain_ignores_protocol h d dialect buf : drain_handle (hd_settled h d) dialect buf = drain_handle h dialect buf.
Proof. by destruct dialect. Qed.

Lemma read_settled h received h' sent dialect :
  dialect_of h (hd_read_buf h ++ received) = Some dialect ->
  read_turn h received = Turn_Open h' sent -> read_turn (hd_settled h dialect) received = Turn_Open h' sent.
Proof.
  unfold dialect_of, on_read. intros Hd. cbn [hd_read_buf hd_settled].
  change (unauthenticated conf (hd_settled h dialect)) with (unauthenticated conf h).
  case_bool_decide; [done|]. cbv zeta. destruct (_ <? _); [done|].
  destruct (settle limits h (hd_read_buf h ++ received)) as [[d|u|w]|]; try done. injection Hd as ->.
  cbn [settle hd_protocol hd_settled]. by rewrite drain_ignores_protocol.
Qed.

(** ** Each dialect through the handle *)

Section View.
Context {D Item : Type}.
Variable dialect : Dialect.
Variable wire_of : Handle -> Wire St D.
Variable put : Handle -> Wire St D -> bytes -> Handle.
Variable measure_of : ConnAuth -> bytes -> Measured * list Run.
Variable writes_of : ConnAuth -> option Writes.
Variable on_fatal : bytes -> String.string -> bytes.
Variable run : Wire St D -> bytes -> Wire St D * Ended.
Abbreviation drain_wire := (drain_now (run := run) measure_of writes_of on_fatal tier).
Abbreviation reads := (reads_of (run := run) measure_of writes_of on_fatal tier).

Hypothesis view_drain : forall h buf,
  drain_handle h dialect buf = let '(c, rest, ended) := drain_wire (wire_of h) buf in (put h c rest, wi_out c, ended).
Hypothesis view_put : forall h c rest, wire_of (put h c rest) = wi_with_out c [].
Hypothesis view_again : forall h c rest c' rest', put (put h c rest) c' rest' = put h c' rest'.
Hypothesis view_protocol : forall h c rest, hd_protocol (put h c rest) = Some dialect.
Hypothesis view_buf : forall h c rest, hd_read_buf (put h c rest) = rest.
Hypothesis view_same : forall h, hd_protocol h = Some dialect -> put h (wire_of h) (hd_read_buf h) = h.
Hypothesis view_out : forall h, wi_out (wire_of h) = [].

Lemma serve_reads h packets h' sent :
  hd_protocol h = Some dialect -> serve h packets = Some (h', sent) ->
  exists c' rest, reads (wire_of h) (hd_read_buf h) packets = Some (c', rest, sent) /\ h' = put h c' rest.
Proof.
  revert h sent. induction packets as [|packet packets IH]; intros h sent Hd H.
  - injection H as <- <-. exists (wire_of h), (hd_read_buf h). split; [done|]. symmetry. by apply view_same.
  - cbn [serve] in H. destruct (read_turn h packet) as [h1 sent1| |] eqn:Er; try done.
    destruct (read_open _ _ _ _ Er) as (d & Hs & _ & Hdr & _). unfold dialect_of, settle in Hs. rewrite Hd in Hs. injection Hs as <-.
    rewrite view_drain in Hdr. destruct (drain_wire (wire_of h) (hd_read_buf h ++ packet)) as [[c1 rest1] e1] eqn:Ed. injection Hdr as <- <- ->.
    destruct (serve (put h c1 rest1) packets) as [[h2 sent2]|] eqn:Es; [|done]. injection H as <- <-.
    destruct (IH _ _ (view_protocol _ _ _) Es) as (c2 & rest2 & Hr & ->). rewrite view_put, view_buf in Hr.
    exists c2, rest2. split; [|by rewrite view_again]. cbn [reads_of]. by rewrite Ed, Hr.
Qed.

Context {ST : StoreTotal St} {SB : StoreBatch St} {SI : StoreInOrder St}.
Context {pieces : bytes -> list Item -> bytes -> Prop} {step : Wire St D -> Item -> Wire St D * Ended} {may : Wire St D -> Prop}
  {keeps : Item -> Prop}.
Hypothesis law : forall auth, Lawful pieces step may keeps (measure_of auth) run (writes_of auth).
Hypothesis may_write : forall c, is_Some (writes_of (wi_auth c)) -> may c.
Hypothesis pieces_prefix : forall a b items tail, pieces (a ++ b) items tail -> exists its rest, pieces a its rest.
Hypothesis pieces_left : forall buf items tail, pieces buf items tail -> pieces tail [] tail.
Hypothesis pieces_split : forall a b items tail its rest,
  pieces (a ++ b) items tail -> pieces a its rest -> exists more, items = its ++ more /\ pieces (rest ++ b) more tail.
Hypothesis step_out : forall p c item, step (wi_after p c) item = let '(c', ended) := step c item in (wi_after p c', ended).

Lemma serve_exact h packets items tail h' sent :
  hd_protocol h = Some dialect -> pieces (hd_read_buf h) [] (hd_read_buf h) ->
  pieces (hd_read_buf h ++ concat packets) items tail -> Forall keeps items ->
  serve h packets = Some (h', sent) ->
  hd_read_buf h' = tail
  /\ exists c', h' = put h c' tail /\ wi_out c' = [] /\ steps step (wire_of h) items = (wi_with_out c' sent, Ended_Closing Closing_No).
Proof.
  intros Hd Hb Hp Hk H. destruct (serve_reads _ _ _ _ Hd H) as (c' & rest & Hr & ->).
  destruct (packets_exact measure_of writes_of on_fatal tier law may_write pieces_prefix pieces_left pieces_split step_out
    packets (wire_of h) (hd_read_buf h) items tail c' rest sent Hp Hk Hb (view_out h) Hr) as (-> & Ho & E).
  rewrite view_buf. eauto.
Qed.

End View.


Context {ST : StoreTotal St} {SB : StoreBatch St} {SI : StoreInOrder St}.

Definition vcp_wire (h : Handle) : Wire St unit := mkWire (hd_server h) (hd_auth h) [] tt.

Definition mc_wire (h : Handle) : Wire St bool := mkWire (hd_server h) (hd_auth h) [] (hd_encrypted h).

Definition redis_wire (h : Handle) : Wire St (Version * ScanCursors) :=
  mkWire (hd_server h) (hd_auth h) [] (hd_version h, hd_cursors h).

(** Nothing whole is waiting in the read buffer: what a read leaves there. *)
Definition at_rest (h : Handle) : Prop :=
  match hd_protocol h with
  | None => hd_read_buf h = []
  | Some Dialect_Vcp => cut (hd_read_buf h) [] (hd_read_buf h)
  | Some Dialect_Memcached => mc_scan (hd_read_buf h) = None
  | Some Dialect_Resp => resp_scan (hd_read_buf h) = None
  end.

(** The bytes of a memcached connection whose cut does not depend on what
    follows, and those of a Redis connection that never signs in again. *)
Definition stream_ok (dialect : Dialect) (stream : bytes) : Prop :=
  match dialect with
  | Dialect_Vcp => True
  | Dialect_Memcached => exists items tail, sliced mc_scan stream items tail
  | Dialect_Resp => forall pieces tail, sliced resp_scan stream pieces tail -> Forall (resp_keeps conf) pieces
  end.

Lemma writer_of auth w : is_Some (writes_if (conn_may_write conf auth) w) -> refusal (sv_auth conf) auth Roles_WRITE = None.
Proof. unfold writes_if, conn_may_write. by case_bool_decide; intros []. Qed.


(** What the connection has done when it has done [items], one at a time. *)
Definition did {D Item} (step : Wire St D -> Item -> Wire St D * Ended) (start : Wire St D) (items : list Item) (h' : Handle)
    (wire_of : Handle -> Wire St D) (sent : bytes) : Prop :=
  steps step start items = (wi_with_out (wire_of h') sent, Ended_Closing Closing_No).

Lemma vcp_serve h packets h' sent frames tail :
  hd_protocol h = Some Dialect_Vcp -> at_rest h -> cut (hd_read_buf h ++ concat packets) frames tail ->
  serve h packets = Some (h', sent) ->
  h' = hd_with_wire Dialect_Vcp (vcp_wire h') tail (hd_version h) (hd_cursors h) (hd_encrypted h)
  /\ did (vcp_step conf now_ms) (vcp_wire h) frames h' vcp_wire sent.
Proof.
  intros Hd Ha Hc H. unfold at_rest in Ha. rewrite Hd in Ha.
  destruct (serve_exact Dialect_Vcp vcp_wire
    (fun h c rest => hd_with_wire Dialect_Vcp c rest (hd_version h) (hd_cursors h) (hd_encrypted h))
    (fun auth => measure_vcp (gated conf auth)) (fun _ => None) (fun out _ => out) (run_vcp conf now_ms)
    ltac:(done) ltac:(by intros ? [? ? ? []]) ltac:(done) ltac:(done) ltac:(done)
    ltac:(intros [] E; cbn in E; by rewrite E) ltac:(done)
    (fun auth => vcp_lawful conf now_ms (gated conf auth)) ltac:(done) (fun a b _ _ _ => cut_exists a)
    ltac:(by intros ? ? ? (_ & _ & ?)) cut_split (vcp_step_out conf now_ms)
    h packets frames tail h' sent Hd Ha Hc (Forall_true _ _ (fun _ => I)) H) as (_ & c' & -> & Ho & E).
  destruct c' as [s a o []]. cbn in Ho. subst o. split; [done|exact E].
Qed.

Lemma mc_serve h packets h' sent items tail :
  hd_protocol h = Some Dialect_Memcached -> at_rest h -> sliced mc_scan (hd_read_buf h ++ concat packets) items tail ->
  serve h packets = Some (h', sent) ->
  h' = hd_with_wire Dialect_Memcached (mc_wire h') tail (hd_version h) (hd_cursors h) (hd_encrypted h')
  /\ did (mc_step conf now_ms stats_section) (mc_wire h) items h' mc_wire sent.
Proof.
  intros Hd Ha Hc H. unfold at_rest in Ha. rewrite Hd in Ha.
  destruct (serve_exact Dialect_Memcached mc_wire
    (fun h c rest => hd_with_wire Dialect_Memcached c rest (hd_version h) (hd_cursors h) (wi_slot c))
    (fun _ => measure_memcached) (fun auth => writes_if (conn_may_write conf auth) memcached_writes) (fun out _ => out)
    (run_memcached conf now_ms stats_section)
    ltac:(done) ltac:(done) ltac:(done) ltac:(done) ltac:(done)
    ltac:(intros [] E; cbn in E; by rewrite E) ltac:(done)
    (mc_lawful conf now_ms stats_section) (fun c => writer_of _ _) (sliced_prefix mc_scan mc_scan_more)
    (sliced_left mc_scan) (sliced_split mc_scan) (mc_step_out conf now_ms stats_section)
    h packets items tail h' sent Hd (sliced_tail _ _ Ha) Hc (Forall_true _ _ (fun _ => I)) H) as (_ & c' & -> & Ho & E).
  destruct c' as [s a o e]. cbn in Ho. subst o. split; [done|exact E].
Qed.

Lemma resp_serve h packets h' sent pieces tail :
  hd_protocol h = Some Dialect_Resp -> at_rest h -> sliced resp_scan (hd_read_buf h ++ concat packets) pieces tail ->
  Forall (resp_keeps conf) pieces -> serve h packets = Some (h', sent) ->
  h' = hd_with_wire Dialect_Resp (redis_wire h') tail (hd_version h') (hd_cursors h') (hd_encrypted h)
  /\ did (resp_step conf now_ms instant) (redis_wire h) pieces h' redis_wire sent.
Proof.
  intros Hd Ha Hc Hk H. unfold at_rest in Ha. rewrite Hd in Ha.
  destruct (serve_exact Dialect_Resp redis_wire
    (fun h c rest => hd_with_wire Dialect_Resp c rest (fst (wi_slot c)) (snd (wi_slot c)) (hd_encrypted h))
    (fun _ => measure_resp) (fun auth => writes_if (conn_may_write conf auth) (resp_writes now_ms)) protocol_error
    (run_resp conf now_ms instant)
    ltac:(done) ltac:(by intros ? [? ? ? []]) ltac:(done) ltac:(done) ltac:(done)
    ltac:(intros [] E; cbn in E; by rewrite E) ltac:(done)
    (resp_lawful conf now_ms instant) (fun c => writer_of _ _) (sliced_prefix resp_scan resp_scan_more)
    (sliced_left resp_scan) (sliced_split resp_scan) (resp_step_out conf now_ms instant)
    h packets pieces tail h' sent Hd (sliced_tail _ _ Ha) Hc Hk H) as (_ & c' & -> & Ho & E).
  destruct c' as [s a o [v cur]]. cbn in Ho. subst o. split; [done|exact E].
Qed.

(** ** One drain *)

(** A drain of [buf] into [items] and [tail]: what the items do one at a time,
    and the last words of a framing error. *)
Definition drained {D Item} (step : Wire St D -> Item -> Wire St D * Ended) (wire_of : Handle -> Wire St D)
    (fatal : option String.string) (on_fatal : bytes -> String.string -> bytes)
    (h : Handle) (items : list Item) (tail : bytes) (outcome : Handle * bytes * Ended) : Prop :=
  let '(h', sent, ended) := outcome in
  hd_read_buf h' = tail
  /\ match steps step (wire_of h) items with
     | (_, Ended_Abort) => ended = Ended_Abort
     | (c, Ended_Closing closing) =>
         wire_of h' = wi_with_out c []
         /\ match fatal with
            | None => sent = wi_out c /\ ended = Ended_Closing closing
            | Some detail => sent = on_fatal (wi_out c) detail /\ ended = Ended_Closing Closing_Yes
            end
     end.

Lemma tiers_plain h dialect buf :
  let outcome := drain_handle h dialect buf in
  match dialect with
  | Dialect_Vcp => forall frames tail, cut buf frames tail ->
      drained (vcp_step conf now_ms) vcp_wire (ms_fatal (measure_vcp (gated conf (hd_auth h)) buf).1) (fun out _ => out) h frames tail outcome
  | Dialect_Memcached => forall items tail, sliced mc_scan buf items tail ->
      drained (mc_step conf now_ms stats_section) mc_wire (ms_fatal (measure_memcached buf).1) (fun out _ => out) h items tail outcome
  | Dialect_Resp => forall pieces tail, sliced resp_scan buf pieces tail ->
      (conn_may_write conf (hd_auth h) = true -> Forall (resp_keeps conf) pieces) ->
      drained (resp_step conf now_ms instant) redis_wire (ms_fatal (measure_resp buf).1) protocol_error h pieces tail outcome
  end.
Proof.
  cbv zeta. destruct dialect; cbn [drain_settled].
  - intros frames tail Hc.
    pose proof (drain_exact (vcp_lawful conf now_ms (gated conf (hd_auth h))) tier (fun out _ => out) (vcp_wire h) buf frames tail Hc ltac:(done) ltac:(by intros [])) as H.
    unfold drain_vcp. fold (vcp_wire h). cbn [wi_auth vcp_wire] in *. destruct (drain _ _ _ _ _ _ buf) as [[c rest] ended]. destruct H as [-> H].
    unfold drained. split; [done|]. destruct (steps _ _ frames) as [c0 [closing|]]; [|done].
    destruct (ms_fatal _); destruct H as [-> ->]; by destruct c0 as [? ? ? []].
  - intros items tail Hc.
    pose proof (drain_exact (mc_lawful conf now_ms stats_section (hd_auth h)) tier (fun out _ => out) (mc_wire h) buf items tail Hc
      (writer_of (hd_auth h) memcached_writes) (fun _ => Forall_true _ _ (fun _ => I))) as H.
    unfold drain_memcached. fold (mc_wire h). cbn [wi_auth mc_wire] in *. destruct (drain _ _ _ _ _ _ buf) as [[c rest] ended]. destruct H as [-> H].
    unfold drained. split; [done|]. destruct (steps _ _ items) as [c0 [closing|]]; [|done].
    destruct (ms_fatal _); by destruct H as [-> ->].
  - intros pieces tail Hc Hk.
    pose proof (drain_exact (resp_lawful conf now_ms instant (hd_auth h)) tier protocol_error (redis_wire h) buf pieces tail Hc
      (writer_of (hd_auth h) (resp_writes now_ms))) as H.
    unfold drain_resp. fold (redis_wire h). cbn [wi_auth redis_wire] in *. destruct (drain _ _ _ _ _ _ buf) as [[c rest] ended].
    destruct H as [-> H]. { unfold writes_if. destruct (conn_may_write _ _); [auto|by intros []]. }
    unfold drained. split; [done|]. destruct (steps _ _ pieces) as [c0 [closing|]]; [|done].
    destruct (ms_fatal _); destruct H as [-> ->]; by destruct c0 as [? ? ? []].
Qed.

(** C7 Which tier a command ran on cannot be observed, on a connection that keeps
    to one writer.  Over a store that keeps its promises for a batch - submitted
    together, the writes are done in order - and at one reading of the clocks:
    however a read is split into runs - on the worker, awaited in one submission
    to the writer, declined and run again, or handed to the blocking pool - the
    server, the connection and the bytes written are as executing the whole
    commands of the buffer one at a time, the bytes that are not yet a command
    are what is left, and a framing error closes the connection with its last
    words after every reply.  Two kinds of bytes are left out, and for each the
    tiers do differ: where the connection may write, Redis requests that sign in
    as somebody else, since whether it may write is asked once a read; and
    memcached lines refused for the data block after them, whose run ends in
    front of that block. *)
Theorem tiers_invisible h dialect buf :
  let outcome := drain_handle h dialect buf in
  match dialect with
  | Dialect_Vcp => forall frames tail, cut buf frames tail ->
      drained (vcp_step conf now_ms) vcp_wire (ms_fatal (measure_vcp (gated conf (hd_auth h)) buf).1) (fun out _ => out) h frames tail outcome
  | Dialect_Memcached => forall items tail, sliced mc_scan buf items tail ->
      drained (mc_step conf now_ms stats_section) mc_wire (ms_fatal (measure_memcached buf).1) (fun out _ => out) h items tail outcome
  | Dialect_Resp => forall pieces tail, sliced resp_scan buf pieces tail ->
      (conn_may_write conf (hd_auth h) = true -> Forall (resp_keeps conf) pieces) ->
      drained (resp_step conf now_ms instant) redis_wire (ms_fatal (measure_resp buf).1) protocol_error h pieces tail outcome
  end.
Proof. exact (tiers_plain h dialect buf). Qed.

(** ** Packets *)

Lemma dialect_more h a b : a <> [] -> dialect_of h (a ++ b) = dialect_of h a.
Proof. intros Ha. unfold dialect_of, settle. destruct (hd_protocol h); [done|]. by destruct a. Qed.

Lemma serve_settled h packets r :
  packets <> [] -> serve h packets = Some r ->
  exists dialect, dialect_of h (hd_read_buf h ++ concat packets) = Some dialect /\ serve (hd_settled h dialect) packets = Some r.
Proof.
  intros Hne H. destruct packets as [|packet packets]; [done|]. cbn [serve concat] in *.
  destruct (read_turn h packet) as [h1 sent| |] eqn:Er; try done. destruct (read_open _ _ _ _ Er) as (d & Hd & Hp & _).
  exists d. split.
  - rewrite app_assoc, dialect_more; [done|]. intros [_ E]%app_nil. done.
  - by rewrite (read_settled _ _ _ _ _ Hd Er).
Qed.

Lemma settled_at_rest h dialect buf : at_rest h -> dialect_of h buf = Some dialect -> at_rest (hd_settled h dialect).
Proof.
  unfold at_rest, dialect_of, settle. destruct (hd_protocol h) as [d|]; [by intros ? [= <-]|]. intros E _. cbn.
  rewrite E. destruct dialect; [by repeat split|done..].
Qed.

Lemma serve_nothing h packets r : concat packets = [] -> serve h packets = Some r -> packets = [].
Proof.
  destruct packets as [|packet packets]; [done|]. cbn [concat serve]. intros [E _]%app_nil. subst packet. done.
Qed.

(** C8 The packets a connection's bytes come in cannot be told apart, where its
    stream is the native protocol's, or a memcached stream without a line that is
    refused for the data block after it, or a Redis stream that signs nobody in.
    Over a store that keeps its promises for a batch, and over any two ways to cut
    the same bytes into reads, a connection that stays open through both - at one
    reading of the clocks - ends in the same state, the same server and the same
    bytes left over, and has sent the same bytes: what was whole at the end of one
    read and what was not changes nothing.  (A Redis stream that signs in and then
    writes is told apart: in one read, whether it may write was asked before.) *)
Theorem packets_invisible h packets packets' r r' :
  at_rest h -> concat packets = concat packets' ->
  (forall dialect, dialect_of h (hd_read_buf h ++ concat packets) = Some dialect ->
     stream_ok dialect (hd_read_buf h ++ concat packets)) ->
  serve h packets = Some r -> serve h packets' = Some r' -> r = r'.
Proof.
  intros Ha Hc Hok H H'. destruct (decide (packets = [])) as [->|Hne].
  { apply serve_nothing in H' as E; [|done]. subst. congruence. }
  destruct (decide (packets' = [])) as [->|Hne'].
  { apply serve_nothing in H as E; [|done]. subst. congruence. }
  destruct (serve_settled _ _ _ Hne H) as (d & Hd & Hs). destruct (serve_settled _ _ _ Hne' H') as (d' & Hd' & Hs').
  rewrite <- Hc, Hd in Hd'. injection Hd' as <-. specialize (Hok d Hd). pose proof (settled_at_rest _ _ _ Ha Hd) as Hr.
  clear H H' Ha Hd Hne Hne'. change (hd_read_buf h) with (hd_read_buf (hd_settled h d)) in Hok.
  assert (hd_protocol (hd_settled h d) = Some d) as Hp by done. set (x := hd_settled h d) in *.
  destruct r as [h1 sent1], r' as [h2 sent2]. destruct d.
  - destruct (cut_exists (hd_read_buf x ++ concat packets)) as (frames & tail & Hcut).
    destruct (vcp_serve _ _ _ _ _ _ Hp Hr Hcut Hs) as [E1 D1]. rewrite Hc in Hcut.
    destruct (vcp_serve _ _ _ _ _ _ Hp Hr Hcut Hs') as [E2 D2]. unfold did in D1, D2. rewrite D1 in D2. injection D2 as ? ? ?.
    f_equal; [rewrite E1, E2; unfold hd_with_wire; cbn; congruence|done].
  - destruct Hok as (items & tail & Hcut).
    destruct (mc_serve _ _ _ _ _ _ Hp Hr Hcut Hs) as [E1 D1]. rewrite Hc in Hcut.
    destruct (mc_serve _ _ _ _ _ _ Hp Hr Hcut Hs') as [E2 D2]. unfold did in D1, D2. rewrite D1 in D2. injection D2 as ? ? ? ?.
    f_equal; [rewrite E1, E2; unfold hd_with_wire; cbn; congruence|done].
  - destruct (resp_sliced (hd_read_buf x ++ concat packets)) as (pieces & tail & Hcut). pose proof (Hok _ _ Hcut) as Hk.
    destruct (resp_serve _ _ _ _ _ _ Hp Hr Hcut Hk Hs) as [E1 D1]. rewrite Hc in Hcut.
    destruct (resp_serve _ _ _ _ _ _ Hp Hr Hcut Hk Hs') as [E2 D2]. unfold did in D1, D2. rewrite D1 in D2. injection D2 as ? ? ? ? ?.
    f_equal; [rewrite E1, E2; unfold hd_with_wire; cbn; congruence|done].
Qed.

(** ** Strangers *)

(** No command of the bytes authenticates anybody. *)
Definition signs_nobody_in (dialect : Dialect) (stream : bytes) : Prop :=
  match dialect with
  | Dialect_Vcp => forall frames tail, cut stream frames tail -> Forall (fun f => ~ authenticates conf f) frames
  | Dialect_Memcached => forall items tail, mc_cut stream items tail -> Forall (fun item => ~ signs_in conf item) items
  | Dialect_Resp => forall pieces tail, sliced resp_scan stream pieces tail -> Forall (resp_keeps conf) pieces
  end.

Definition untouched (h h' : Handle) : Prop :=
  hd_server h' = hd_server h /\ hd_version h' = hd_version h /\ hd_cursors h' = hd_cursors h /\ ca_identity (hd_auth h') = None.

(** The whole commands of a buffer, as a block: its executor does what its items
    do. *)
Lemma block_of {D Item} pieces step may keeps measure run writes (law : Lawful (St := St) (D := D) (Item := Item) pieces step may keeps measure run writes)
    buf items tail :
  pieces buf items tail -> exists block, pieces block items [] /\ forall c, alike (run c block) (steps step c items).
Proof.
  intros Hp. pose proof (law_measure _ _ _ _ _ _ _ law buf items tail Hp) as Hm. destruct (measure buf) as [m runs].
  destruct Hm as (_ & _ & groups & -> & Hc). exists (take (ms_complete m) buf). pose proof (cuts_pieces law _ _ _ Hc) as Hb.
  split; [done|]. intros c. by apply (law_run _ _ _ _ _ _ _ law).
Qed.

Section Inert.
Variable h : Handle.
Hypothesis required : au_required (sv_auth conf) = true.
Hypothesis nobody : ca_identity (hd_auth h) = None.

Lemma vcp_steps_inert buf frames tail :
  cut buf frames tail -> Forall (fun f => ~ authenticates conf f) frames ->
  let c := (steps (vcp_step conf now_ms) (vcp_wire h) frames).1 in
  wi_server c = hd_server h /\ ca_identity (wi_auth c) = None.
Proof.
  intros Hc Hno. destruct (block_of _ _ _ _ _ _ _ (vcp_lawful conf now_ms false) _ _ _ Hc) as (block & Hb & Hrun).
  specialize (Hrun (vcp_wire h)). assert (forall frames' tail', cut block frames' tail' -> Forall (fun f => ~ authenticates conf f) frames') as Hn.
  { intros frames' tail' H'. rewrite <- (app_nil_r block) in H'.
    destruct (cut_split _ _ _ _ _ _ H' Hb) as (more & -> & [-> _]%cut_nil). by rewrite app_nil_r. }
  pose proof (vcp_unauthenticated_inert conf now_ms (hd_server h) (hd_auth h) block [] required nobody Hn) as Hin.
  unfold run_vcp in Hrun. cbn [wi_server wi_auth wi_out vcp_wire] in Hrun. destruct (execute_vcp_block _ _ _ _ _ _) as [[s a] o].
  destruct Hin as [-> Ha], Hrun as [_ Hrun]. by rewrite <- Hrun.
Qed.

(** A memcached run may end in front of the data block a refused line was
    refused for, so the slices of a buffer are not cut as the buffer is: what
    each holds is the beginning of what the buffer holds there. *)
Lemma mc_cut_prefix slice items tail buf more rest :
  mc_cut slice items tail -> slice `prefix_of` buf -> mc_cut buf more rest -> items `prefix_of` more.
Proof.
  assert (forall slice after item n, mc_scan slice = Some (item, n) -> (n <= length slice)%nat /\ mc_scan (slice ++ after) = Some (item, n)) as Hs.
  { intros sl after item n H%mc_scan_more. destruct H as [? H]. split; [lia|apply H]. }
  unfold mc_scan in Hs. intros H. revert buf more rest.
  induction H as [slice _ _|slice p items tail E Hc IH|slice k n items tail E Hc IH]; intros buf more rest [after ->] Hm; [apply prefix_nil|..];
    apply mc_cut_inv in Hm; specialize (Hs slice after); rewrite E in Hs; destruct (Hs _ _ eq_refl) as [Hn Ha];
    (destruct (mc_parse (slice ++ after)) as [[|p']|[k' n'|d]|why]; try done); destruct Hm as (items' & -> & Hm).
  - injection Ha as ->. apply prefix_cons. eapply IH; [|exact Hm]. rewrite drop_app_le by done. by eexists.
  - injection Ha as -> ->. apply prefix_cons. eapply IH; [|exact Hm]. rewrite drop_app_le by done. by eexists.
Qed.

(** Where a run may start: what is cut from there signs nobody in. *)
Definition nobody_from (buf : bytes) (pos : nat) : Prop :=
  forall items tail, mc_cut (drop pos buf) items tail -> Forall (fun item => ~ signs_in conf item) items.

Lemma measure_memcached_starts buf : nobody_from buf 0 -> starts (nobody_from buf) 0 (measure_memcached buf).2.
Proof.
  intros H0. unfold measure_memcached.
  enough (forall fuel m runs, starts (nobody_from buf) 0 runs -> runs_len runs = ms_complete m -> nobody_from buf (ms_complete m) ->
    starts (nobody_from buf) 0 (measure_memcached_loop fuel buf m runs).2) as H by by apply H.
  induction fuel as [|fuel IH]; intros m runs Hs Hl Hg; [done|]. pose proof (mc_rounds buf fuel m runs) as Hr.
  destruct (mc_scan (drop (ms_complete m) buf)) as [[item n]|] eqn:E; [|by destruct Hr as (m' & _ & ->)].
  destruct Hr as (kind & ->). destruct (starts_extend (nobody_from buf) runs kind n O Hs) as [H1 H2]; [by rewrite Hl|].
  apply IH; [done|by rewrite H2, Hl|]. intros items tail Hc. cbn [measured_more ms_complete] in Hc. rewrite <- drop_drop in Hc.
  assert (mc_cut (drop (ms_complete m) buf) (item :: items) tail) as Hcut.
  { unfold mc_scan in E. destruct (mc_parse (drop (ms_complete m) buf)) as [[|p]|[k k'|d]|why] eqn:Ep; try done; injection E as <- <-;
      [by apply cut_command|by apply cut_refused with k']. }
  specialize (Hg _ _ Hcut). by apply Forall_cons in Hg as [].
Qed.

Lemma mc_drain_inert buf :
  (forall items tail, mc_cut buf items tail -> Forall (fun item => ~ signs_in conf item) items) ->
  let '(c, _, ended) := drain_memcached conf now_ms stats_section tier (mc_wire h) buf in
  ended <> Ended_Abort -> wi_server c = hd_server h /\ ca_identity (wi_auth c) = None.
Proof.
  intros Hno. destruct (drain_memcached _ _ _ _ _ _) as [[c rest] e] eqn:E. intros He. unfold drain_memcached in E.
  assert (writes_if (conn_may_write conf (wi_auth (mc_wire h))) memcached_writes = None) as Ew.
  { unfold writes_if, conn_may_write, refusal. cbn [mc_wire wi_auth]. by rewrite nobody, required. }
  rewrite Ew in E. refine (drain_keeps (run_memcached conf now_ms stats_section) None
    (fun c => wi_server c = hd_server h /\ ca_identity (wi_auth c) = None) (nobody_from buf) buf _ _ tier measure_memcached
    (fun out _ => out) (mc_wire h) c rest e _ _ _ _ E He); [|done|done|exact Hno|by apply measure_memcached_starts|done].
  intros pos slice c1 c2 e2 Hg Hp [Hs Ha] Hr _.
  pose proof (memcached_unauthenticated_inert conf now_ms stats_section (wi_slot c1) (wi_server c1) (wi_auth c1) slice (wi_out c1) required Ha) as Hi.
  unfold run_memcached in Hr. destruct (execute_memcached_block _ _ _ _ _ _ _ _) as [[[s a] o] cl]. injection Hr as <- _. cbn.
  destruct Hi as [-> Hi]; [|done]. intros items tail Hc. destruct (mc_cut_exists (drop pos buf)) as (more & left & Hm).
  destruct (mc_cut_prefix _ _ _ _ _ _ Hc Hp Hm) as [others E']. specialize (Hg _ _ Hm). rewrite E' in Hg. by apply Forall_app in Hg as [].
Qed.

Lemma resp_steps_inert buf pieces tail :
  sliced resp_scan buf pieces tail -> Forall (resp_keeps conf) pieces ->
  let '(c, ended) := steps (resp_step conf now_ms instant) (redis_wire h) pieces in
  ended <> Ended_Abort ->
  wi_server c = hd_server h /\ ca_identity (wi_auth c) = None /\ wi_slot c = (hd_version h, hd_cursors h).
Proof.
  intros Hc Hno. destruct (block_of _ _ _ _ _ _ _ (resp_lawful conf now_ms instant (hd_auth h)) _ _ _ Hc) as (block & Hb & Hrun).
  specialize (Hrun (redis_wire h)).
  assert (forall items' tail', resp_cut block items' tail' -> Forall (fun item => ~ resp_signs_in conf item) items') as Hn.
  { intros items' tail' H'. destruct (sliced_resp_cut _ _ Hb) as (items & tail0 & Hr & Hp).
    destruct (resp_cut_unique _ _ _ _ _ Hr H') as [<- _]. assert (Forall (resp_keeps conf) (RP_Item <$> items)) as Hk.
    { destruct (aborts tail0); [destruct Hp as [rest ->]; by apply Forall_app in Hno as []|by rewrite <- Hp]. }
    rewrite Forall_fmap in Hk. exact Hk. }
  pose proof (resp_unauthenticated_inert conf now_ms instant (resp_conn (redis_wire h)) block required nobody eq_refl Hn) as Hin.
  unfold run_resp in Hrun. cbn [wi_server wi_auth wi_out wi_slot redis_wire] in Hrun. unfold resp_conn in Hin.
  cbn [wi_server wi_auth wi_out wi_slot redis_wire fst snd] in Hin. destruct (execute_resp_block _ _ _ _ _) as [x e].
  destruct Hin as (Hs & Hv & Hcu & Ha & _). cbn [fst rc_conn cn_server rc_version rc_cursors cn_auth] in Hs, Hv, Hcu, Ha.
  destruct Hrun as [He Hrun]. destruct (steps _ _ pieces) as [c ended]. cbn [snd] in He. subst e. intros Hend.
  specialize (Hrun Hend). injection Hrun as <-. cbn. by rewrite Hs, Hv, Hcu, Ha.
Qed.

End Inert.

Lemma stranger_drain h dialect buf :
  unauthenticated conf h = true -> signs_nobody_in dialect buf ->
  let '(h', _, ended) := drain_handle h dialect buf in ended <> Ended_Abort -> untouched h h'.
Proof.
  intros [Hq Hu%negb_true_iff]%andb_true_iff Hno. assert (ca_identity (hd_auth h) = None) as Hi.
  { unfold is_authenticated in Hu. by destruct (ca_identity (hd_auth h)). }
  pose proof (tiers_plain h dialect buf) as Ht. cbv zeta in Ht. destruct dialect; unfold untouched.
  - destruct (cut_exists buf) as (frames & tail & Hc). specialize (Ht frames tail Hc).
    pose proof (vcp_steps_inert h Hq Hi _ _ _ Hc (Hno _ _ Hc)) as Hs. cbn [drain_settled] in Ht |- *.
    destruct (drain_vcp _ _ _ _ _) as [[c rest] e]. destruct Ht as [_ Ht]. destruct (steps _ _ frames) as [c0 [closing|]]; [intros _|by rewrite Ht].
    destruct Ht as [Ew _], Hs as [Hs Ha]. cbn in Ew, Hs, Ha |- *. injection Ew as -> ->. done.
  - clear Ht. cbn [drain_settled]. pose proof (mc_drain_inert h Hq Hi buf Hno) as Hs.
    destruct (drain_memcached _ _ _ _ _ _) as [[c rest] e]. cbn in Hs |- *. intros He. by destruct (Hs He).
  - destruct (resp_sliced buf) as (pieces & tail & Hc). specialize (Hno _ _ Hc). specialize (Ht pieces tail Hc (fun _ => Hno)).
    pose proof (resp_steps_inert h Hq Hi _ _ _ Hc Hno) as Hs. cbn [drain_settled] in Ht |- *.
    destruct (drain_resp _ _ _ _ _ _) as [[c rest] e]. destruct Ht as [_ Ht]. destruct (steps _ _ pieces) as [c0 [closing|]]; [intros _|by rewrite Ht].
    destruct Ht as [Ew _], (Hs ltac:(done)) as (Hsv & Ha & Hsl). destruct c0 as [s a o [v cur]]. cbn in Ew, Hsv, Ha, Hsl |- *.
    injection Ew as -> -> -> ->. by injection Hsl as -> ->.
Qed.


(** ** What bounds a connection *)

Lemma drain_rest {D} measure run on_fatal writes (c : Wire St D) buf :
  (drain tier measure run on_fatal writes c buf).1.2 = drop (ms_complete (measure buf).1) buf.
Proof.
  unfold drain. destruct (measure buf) as [m runs]. cbv zeta. cbn [fst].
  match goal with |- context [if (0 <? _)%nat then ?x else ?y] => destruct (if (0 <? _)%nat then x else y) as [c' [closing|]] end;
    [by destruct (ms_fatal m)|done].
Qed.

(** What a drain leaves is the end of what it was given, and nothing in it is
    whole. *)
Lemma drain_leaves h dialect buf :
  let h' := (drain_handle h dialect buf).1.1 in
  hd_protocol h' = Some dialect /\ at_rest h' /\ exists n, hd_read_buf h' = drop n buf.
Proof.
  cbv zeta. destruct dialect; cbn [drain_settled].
  - destruct (cut_exists buf) as (frames & tail & Hc).
    pose proof (law_measure _ _ _ _ _ _ _ (vcp_lawful conf now_ms (gated conf (hd_auth h))) buf frames tail Hc) as Hm.
    unfold drain_vcp. cbn [wi_auth]. pose proof (drain_rest (measure_vcp (gated conf (hd_auth h))) (run_vcp conf now_ms) (fun out _ => out) None
      (mkWire (hd_server h) (hd_auth h) [] tt) buf) as Hr. destruct (drain _ _ _ _ _ _ buf) as [[c rest] ended]. cbn [fst snd] in Hr |- *.
    split; [done|]. destruct (measure_vcp _ buf) as [m runs]. cbn [fst] in Hr. destruct Hm as (_ & E & _). split; [|by exists (ms_complete m)].
    unfold at_rest. cbn. rewrite Hr, E. destruct Hc as (_ & _ & Ht). by apply (cut_prefix []).
  - unfold drain_memcached. cbn [wi_auth].
    pose proof (drain_rest measure_memcached (run_memcached conf now_ms stats_section) (fun out _ => out)
      (writes_if (conn_may_write conf (hd_auth h)) memcached_writes) (mkWire (hd_server h) (hd_auth h) [] (hd_encrypted h)) buf) as Hr.
    destruct (drain _ _ _ _ _ _ buf) as [[c rest] ended]. cbn [fst snd] in Hr |- *. split; [done|]. split; [|eauto].
    unfold at_rest. cbn. rewrite Hr.
    apply (measure_rest mc_scan mc_scan_more (fun fuel m runs => measure_memcached_loop fuel buf m runs)). intros. apply mc_rounds.
  - destruct (resp_sliced buf) as (pieces & tail & Hc).
    pose proof (law_measure _ _ _ _ _ _ _ (resp_lawful conf now_ms instant (hd_auth h)) buf pieces tail Hc) as Hm.
    unfold drain_resp. cbn [wi_auth]. pose proof (drain_rest measure_resp (run_resp conf now_ms instant) protocol_error
      (writes_if (conn_may_write conf (hd_auth h)) (resp_writes now_ms))
      (mkWire (hd_server h) (hd_auth h) [] (hd_version h, hd_cursors h)) buf) as Hr.
    destruct (drain _ _ _ _ _ _ buf) as [[c rest] ended]. cbn [fst snd] in Hr |- *. split; [done|].
    destruct (measure_resp buf) as [m runs]. cbn [fst] in Hr. destruct Hm as (_ & E & _). split; [|by exists (ms_complete m)].
    unfold at_rest. cbn. rewrite Hr, E. apply (sliced_left resp_scan) in Hc. apply sliced_inv in Hc. destruct (resp_scan tail) as [[]|]; [|done]. by destruct Hc as (_ & more & ? & _).
Qed.

(** ** Nothing a connection is sent takes its identity away *)

Definition signed_in (auth : ConnAuth) : Prop := is_Some (ca_identity auth).

Lemma execute_auth_signed (c : Server.Conn St VcpReply) id auth : signed_in (cn_auth c) -> signed_in (cn_auth (execute_auth conf c id auth)).
Proof.
  intros H. unfold execute_auth. destruct (Mechanism_from_u8 _) as [[]|]; try exact H.
  by destruct (verify _ _ _); [eexists|].
Qed.

Lemma vcp_run_signed (c : Wire St unit) block : signed_in (wi_auth c) -> signed_in (wi_auth (run_vcp conf now_ms c block).1).
Proof.
  intros H. unfold run_vcp. destruct (vcp_block_plain conf now_ms (wi_server c) (wi_auth c) block (wi_out c)) as (frames & tail & _ & ->).
  cbv zeta. cbn [fst wi_auth]. set (x := mkConn (wi_server c) (wi_auth c) (wi_out c) []).
  change (signed_in (cn_auth x)) in H. generalize dependent x. induction (frame_bytes <$> frames) as [|f fs IH]; intros x H; [done|].
  cbn [foldl]. apply IH. unfold execute_plainly, request_plainly, answer_plainly, push_error.
  repeat first [exact H | apply execute_auth_signed | case_match].
Qed.

Lemma mc_item_signed tls (x : Server.Conn St bool) item :
  signed_in (cn_auth x) -> signed_in (cn_auth (item_plainly conf now_ms stats_section tls x item).1).
Proof.
  intros H. destruct item as [p|kind]; [|done]. cbn [item_plainly]. unfold McServer.execute_memcached.
  assert (is_authenticated (cn_auth x) = true) as -> by (unfold is_authenticated; by destruct H as [i ->]). cbn [negb andb].
  enough (cn_auth (match refusal (sv_auth conf) (cn_auth x) (needed_roles p) with _ => _ end).1 = cn_auth x) as -> by done.
  unfold retrieve_into, meta_get_into, refuse_memcached, push_mc_error.
  repeat first [done | apply execute_generally_auth | apply after_dump_auth | case_match].
Qed.

Lemma mc_run_signed (c : Wire St bool) block : signed_in (wi_auth c) -> signed_in (wi_auth (run_memcached conf now_ms stats_section c block).1).
Proof.
  intros H. unfold run_memcached. destruct (mc_cut_exists block) as (items & tail & Hc).
  rewrite (mc_block_plain conf now_ms stats_section (wi_slot c) _ _ _ _ _ _ Hc). set (x := mkConn (wi_server c) (wi_auth c) (wi_out c) []).
  change (signed_in (cn_auth x)) in H. clear Hc. enough (signed_in (cn_auth (McServerSpec.run (item_plainly conf now_ms stats_section (wi_slot c)) x items).1)) as E
    by by destruct (McServerSpec.run _ x items).
  generalize dependent x. induction items as [|item items IH]; intros x H; [done|]. cbn [McServerSpec.run].
  pose proof (mc_item_signed (wi_slot c) x item H) as Hi. destruct (item_plainly _ _ _ _ x item) as [x' []]; [done|by apply IH].
Qed.

Lemma authenticate_signed (c : @RespConn St) cred :
  signed_in (cn_auth (rc_conn c)) -> signed_in (cn_auth (rc_conn (authenticate conf c cred).1)).
Proof. intros H. unfold authenticate. cbv zeta. repeat case_match; try exact H. by eexists. Qed.

Lemma resp_run_signed (c : @RespConn St) command :
  signed_in (cn_auth (rc_conn c)) -> signed_in (cn_auth (rc_conn (resp_run conf now_ms instant c command).1)).
Proof.
  intros H. destruct command; try (unfold signed_in; rewrite resp_run_identity by (by intros []); done); cbn [resp_run].
  - unfold run_hello. destruct (negotiate _ _); [|done..]. destruct auth as [cred|]; [|done].
    pose proof (authenticate_signed c cred H) as E. by destruct (authenticate conf c cred) as [c' []].
  - unfold run_auth. pose proof (authenticate_signed c credential H) as E. by destruct (authenticate conf c credential) as [c' []].
Qed.

Lemma resp_item_signed (c : @RespConn St) item :
  signed_in (cn_auth (rc_conn c)) -> signed_in (cn_auth (rc_conn (resp_plainly conf now_ms instant c item).1)).
Proof.
  intros H. destruct item as [command|]; [|done]. cbn [resp_plainly]. destruct (decide (command = RC_Quit)) as [->|Hq]; [done|].
  rewrite (resp_execute_gate conf now_ms instant c command Hq). cbv zeta. cbn [fst]. case_decide.
  2:{ by destruct (ca_identity (cn_auth (rc_conn c))) eqn:E. }
  unfold resp_ran. pose proof (resp_run_signed c command H) as Hi. by destruct (resp_run _ _ _ _ _) as [c' []].
Qed.

Lemma resp_items_signed items : forall (c : @RespConn St),
  signed_in (cn_auth (rc_conn c)) -> signed_in (cn_auth (rc_conn (resp_items (resp_plainly conf now_ms instant) c items).1)).
Proof.
  induction items as [|item items IH]; intros c H; [done|]. cbn [resp_items]. pose proof (resp_item_signed c item H) as Hi.
  destruct (resp_plainly _ _ _ c item) as [c' []]; [done|by apply IH].
Qed.

Lemma resp_block_signed (c : Wire St (Version * ScanCursors)) block c' over :
  signed_in (wi_auth c) -> run_resp conf now_ms instant c block = (c', over) -> over <> Ended_Abort -> signed_in (wi_auth c').
Proof.
  intros H Hr He. destruct (resp_cut_exists block) as (items & tail & Hc).
  pose proof (resp_block_plain conf now_ms instant (resp_conn c) block items tail eq_refl Hc) as Hb.
  pose proof (resp_items_signed items (resp_conn c) H) as Hi. unfold run_resp in Hr. destruct c as [s a o [v cur]].
  unfold resp_conn in Hb, Hi. cbn [wi_server wi_auth wi_out wi_slot fst snd] in Hb, Hi, Hr.
  destruct (resp_items _ _ items) as [x closing]. destruct (execute_resp_block _ _ _ _ _) as [y e]. injection Hr as <- <-.
  destruct (ended tail closing) as [cl|]; [|by cbn in Hb]. by injection Hb as -> ->.
Qed.

(** So a drain keeps it. *)
Lemma drain_signed h dialect buf :
  signed_in (hd_auth h) ->
  let '(h', _, over) := drain_handle h dialect buf in over <> Ended_Abort -> signed_in (hd_auth h').
Proof.
  intros H. assert (forall D (w : Writes) slice (c : Wire St D), wi_auth (run_writes_awaited w c slice).1 = wi_auth c) as Hw.
  { intros D w slice c. unfold run_writes_awaited. repeat case_match; done. }
  assert (forall runs pos, starts (fun _ => True) pos runs) as Hs by (induction runs; intros; by cbn).
  destruct dialect; cbn [drain_settled].
  - destruct (drain_vcp _ _ _ _ _) as [[c rest] e] eqn:E. intros He. cbn.
    refine (drain_keeps (run_vcp conf now_ms) None (fun c => signed_in (wi_auth c)) (fun _ => True) buf _ _ tier
      (measure_vcp (gated conf (hd_auth h))) (fun out _ => out) (mkWire (hd_server h) (hd_auth h) [] tt) c rest e _ I (Hs _ _) H E He); [|done|done].
    intros pos slice c1 c2 e2 _ _ H1 Hr _. pose proof (vcp_run_signed c1 slice H1) as H2. by rewrite Hr in H2.
  - destruct (drain_memcached _ _ _ _ _ _) as [[c rest] e] eqn:E. intros He. cbn.
    refine (drain_keeps (run_memcached conf now_ms stats_section) (writes_if (conn_may_write conf (hd_auth h)) memcached_writes)
      (fun c => signed_in (wi_auth c)) (fun _ => True) buf _ _ tier measure_memcached (fun out _ => out)
      (mkWire (hd_server h) (hd_auth h) [] (hd_encrypted h)) c rest e _ I (Hs _ _) H E He); [|by intros w slice c1 _; rewrite Hw|done].
    intros pos slice c1 c2 e2 _ _ H1 Hr _. pose proof (mc_run_signed c1 slice H1) as H2. by rewrite Hr in H2.
  - destruct (drain_resp _ _ _ _ _ _) as [[c rest] e] eqn:E. intros He. cbn.
    refine (drain_keeps (run_resp conf now_ms instant) (writes_if (conn_may_write conf (hd_auth h)) (resp_writes now_ms))
      (fun c => signed_in (wi_auth c)) (fun _ => True) buf _ _ tier measure_resp protocol_error
      (mkWire (hd_server h) (hd_auth h) [] (hd_version h, hd_cursors h)) c rest e _ I (Hs _ _) H E He); [|by intros w slice c1 _; rewrite Hw|done].
    intros pos slice c1 c2 e2 _ _ H1 Hr He2. by apply (resp_block_signed c1 slice c2 e2).
Qed.

End Serve.

Section Reachable.
Context {St : Type} {SO : StoreOps St} {DG : Digest} {FT : FloatText} {BI : BuildInfo}.
Context {ST : StoreTotal St} {SB : StoreBatch St} {SI : StoreInOrder St}.
Variable conf : ServerConf.
Variable stats_section : StatsSection -> bool -> list (bytes * bytes).
Variable tier : Tier.
Variable limits : HandleConf.

Abbreviation Handle := (Conn.Handle (St := St)).

(** The connections there can be: accepted, left open by a turn of the loop at
    any time, or waiting while the other connections of the server run. *)
Inductive reachable : Handle -> Prop :=
| reach_accepted server identity cursors encrypted : reachable (Handle_new server identity cursors encrypted)
| reach_turn h now_ms instant event h' sent :
    reachable h -> handle_turn conf now_ms instant stats_section tier limits h event = Turn_Open h' sent -> reachable h'
| reach_others h server cursors :
    reachable h ->
    reachable (mkHandle server (hd_auth h) (hd_read_buf h) (hd_protocol h) (hd_version h) cursors (hd_encrypted h)).

(** The ceiling on what a connection may hold while it is who it is. *)
Definition ceiling (h : Handle) : Z := if unauthenticated conf h then PRE_AUTH_MAX_BUFFERED else hc_max_buffered_bytes limits.

Definition within_bounds (h : Handle) : Prop :=
  at_rest h
  /\ (unauthenticated conf h = true -> len (hd_read_buf h) <= PRE_AUTH_MAX_BUFFERED)
  /\ len (hd_read_buf h) <= Z.max PRE_AUTH_MAX_BUFFERED (hc_max_buffered_bytes limits)
  /\ (forall dialect, hd_protocol h = Some dialect -> dialect_enabled limits dialect = true)
  /\ (ca_failures (hd_auth h) = 0 \/ ca_failures (hd_auth h) < hc_max_attempts limits).

(** A read that leaves the connection open kept it within its bounds. *)
Lemma read_bounded h now_ms instant received h' sent :
  on_read conf now_ms instant stats_section tier limits h received = Turn_Open h' sent -> within_bounds h ->
  within_bounds h' /\ received <> [] /\ len (hd_read_buf h ++ received) <= ceiling h
  /\ exists dialect, hd_protocol h' = Some dialect /\ (hd_protocol h = None \/ hd_protocol h = Some dialect).
Proof.
  intros H (_ & _ & _ & He & _). destruct (read_open _ _ _ _ _ _ _ _ _ _ H) as (d & Hd & Hr & Hdr & Hf & Hl).
  destruct (drain_leaves conf now_ms instant stats_section tier h d (hd_read_buf h ++ received)) as (Hp & Ha & n & Hn).
  pose proof (drain_signed conf now_ms instant stats_section tier h d (hd_read_buf h ++ received)) as Hsig.
  rewrite Hdr in Hp, Ha, Hn, Hsig. cbn [fst] in Hp, Ha, Hn. unfold dialect_of, settle in Hd.
  assert (len (hd_read_buf h') <= ceiling h) as Hc.
  { unfold ceiling. rewrite Hn. unfold len in *. rewrite length_drop. lia. }
  split; [|split; [done|]; split; [done|]; exists d; split; [done|]; destruct (hd_protocol h); [injection Hd as <-; by right|by left]].
  split; [done|]. split; [|split; [|split; [|by right]]].
  - intros Hu. unfold ceiling in Hc. destruct (unauthenticated conf h) eqn:E; [done|]. unfold unauthenticated, is_authenticated in *.
    apply andb_true_iff in Hu as [Hq Hu]. rewrite Hq in E. destruct (ca_identity (hd_auth h)) eqn:Ei; [|done].
    destruct (Hsig ltac:(by eexists) ltac:(done)) as [i0 Hi]. by rewrite Hi in Hu.
  - unfold ceiling in Hc. destruct (unauthenticated conf h); lia.
  - intros d' Hd'. rewrite Hp in Hd'. injection Hd' as <-. destruct (hd_protocol h); [injection Hd as <-; by apply He|].
    destruct (detect _) as [[d'|b|w]|]; cbn in Hd; try done. destruct (dialect_enabled limits d') eqn:E; [|done]. by injection Hd as <-.
Qed.


End Reachable.
