(* ===== verification/Memory.v ===== *)
(** [vash-store/src/memory.rs]: the store held in memory, the other
    implementation of the [Store] trait.  Its mutex serialises every operation,
    so each is a function of the whole state; a [BTreeMap] is a finite map that
    is walked in key order. *)

From S2P Require Import Prelude Bytes Text Core Record Glob Clock Arith Float Command Backend Apply Listing.
From S2P Require Import Vcp VcpEncode Auth Server.

(** ** State *)

Record Entry := mkEntry {
  e_value : bytes;
  e_mc_flags : Z;
  e_cas : Z;
  e_expires_at_ms : Z;
  e_epoch : Z;
  e_tags : list (Z * Z)
}.

Record TagState := mkTagState { ts_id : Z; ts_generation : Z }.

Record Inner := mkInner {
  in_entries : gmap bytes Entry;
  in_tags : gmap bytes TagState;
  in_next_tag_id : Z;
  in_epoch : Z;
  in_next_cas : Z
}.

Definition Inner_default : Inner := mkInner ∅ ∅ 0 0 0.

(** [BTreeMap::iter]. *)
Definition btree_iter {A} (m : gmap bytes A) : list (bytes * A) := merge_sort key_le (map_to_list m).

Section Memory.
Context {FT : FloatText}.
Variable now_ms : Z.

(** ** Liveness *)

(** [self.tags.values().find(|state| state.id == *id)]. *)
Definition generation_by_id (m : Inner) (id : Z) : option Z :=
  ts_generation <$> find (fun state => ts_id state =? id) (snd <$> btree_iter (in_tags m)).

Definition entry_alive (m : Inner) (entry : Entry) : bool :=
  if negb (e_epoch entry =? in_epoch m) then false
  else if negb (e_expires_at_ms entry =? NEVER) && (e_expires_at_ms entry <=? now_ms) then false
  else forallb (fun '(id, generation) =>
         match generation_by_id m id with Some current => current =? generation | None => false end)
         (e_tags entry).

Definition live (m : Inner) (key : bytes) : option Entry :=
  entry ← in_entries m !! key; if entry_alive m entry then Some entry else None.

(** ** Writing one record *)

(** [self.next_cas += 1]: a release build wraps. *)
Definition memory_next_cas (m : Inner) : Inner * Z :=
  let next := wrapping 64 (in_next_cas m + 1) in
  (mkInner (in_entries m) (in_tags m) (in_next_tag_id m) (in_epoch m) next, next).

Definition resolve_tag (m : Inner) (name : bytes) : Inner * (Z * Z) :=
  let next := in_next_tag_id m in
  let state := match in_tags m !! name with Some state => state | None => mkTagState next 0 end in
  (mkInner (in_entries m) (<[name := state]> (in_tags m))
     (if ts_id state =? next then wrapping 32 (next + 1) else next) (in_epoch m) (in_next_cas m),
   (ts_id state, ts_generation state)).

Fixpoint resolve_tags (m : Inner) (names : list bytes) : Inner * list (Z * Z) :=
  match names with
  | [] => (m, [])
  | name :: names' =>
      let '(m, tag) := resolve_tag m name in
      let '(m, tags) := resolve_tags m names' in (m, tag :: tags)
  end.

Definition memory_deadline (ttl : TtlChange) (current : Z) : Z :=
  match ttl with
  | Ttl_Keep => current
  | Ttl_Set ttl_secs => expiry_from_ttl now_ms ttl_secs
  | Ttl_SetIfPersistent ttl_secs => if current =? NEVER then expiry_from_ttl now_ms ttl_secs else current
  end.

Definition entry_value (entry : Entry) : Value :=
  mkValue (e_value entry) (e_mc_flags entry) (e_cas entry) (Some (e_expires_at_ms entry)).

Definition insert_entry (m : Inner) (key : bytes) (entry : Entry) : Inner :=
  mkInner (<[key := entry]> (in_entries m)) (in_tags m) (in_next_tag_id m) (in_epoch m) (in_next_cas m).

Definition remove_entry (m : Inner) (key : bytes) : Inner :=
  mkInner (delete key (in_entries m)) (in_tags m) (in_next_tag_id m) (in_epoch m) (in_next_cas m).

(** [set.return_previous.then(|| existing.map(value_of)).flatten()]. *)
Definition previous_of (set : SetReq) (existing : option Entry) : option Value :=
  if s_return_previous set then entry_value <$> existing else None.

Definition expiry_of (existing : option Entry) : Z := default NEVER (e_expires_at_ms <$> existing).

Definition memory_put (m : Inner) (set : SetReq) : Inner * (Z * option Value) :=
  let key := s_key set in
  let existing := live m key in
  let previous := previous_of set existing in
  let current_deadline := expiry_of existing in
  let '(m, tags) := resolve_tags m (s_tags set) in
  let '(m, cas) := memory_next_cas m in
  let entry := mkEntry (s_value set) (s_mc_flags set) cas (memory_deadline (s_ttl set) current_deadline)
                 (in_epoch m) tags in
  (insert_entry m key entry, (cas, previous)).

(** ** Reads *)

Definition memory_get (m : Inner) (key : bytes) : Result StoreError (option Value) := Ok (entry_value <$> live m key).

Definition memory_get_many (m : Inner) (keys : list bytes) : Result StoreError (list (option Value)) :=
  Ok ((fun key => entry_value <$> live m key) <$> keys).

Definition memory_get_many_with (m : Inner) (keys : list bytes)
    : list (nat * option Value) * Result StoreError unit :=
  (imap (fun index key => (index, entry_value <$> live m key)) keys, Ok ()).

Definition memory_deadline_of (m : Inner) (key : bytes) : Result StoreError (option Z) :=
  Ok (e_expires_at_ms <$> live m key).

Definition memory_deadlines (m : Inner) (keys : list bytes) : Result StoreError (list (option Z)) :=
  Ok ((fun key => e_expires_at_ms <$> live m key) <$> keys).

(** ** Writes *)

Fixpoint put_all (m : Inner) (sets : list SetReq) : Inner * list Z :=
  match sets with
  | [] => (m, [])
  | set :: sets' =>
      let '(m, (cas, _)) := memory_put m set in
      let '(m, tokens) := put_all m sets' in (m, cas :: tokens)
  end.

Definition memory_set_many (m : Inner) (sets : list SetReq) : Inner * Result StoreError (list Z) :=
  let '(m, tokens) := put_all m sets in (m, Ok tokens).

Definition memory_set_many_if (m : Inner) (sets : list SetReq) (guard : BatchGuard)
    : Inner * Result StoreError bool :=
  let present := (fun set => bool_decide (is_Some (live m (s_key set)))) <$> sets in
  let applies := match guard with
                 | BatchGuard_Always => true
                 | BatchGuard_IfAllAbsent => forallb negb present
                 | BatchGuard_IfAllPresent => forallb (fun p => p) present
                 end in
  if negb applies then (m, Ok false) else ((put_all m sets).1, Ok true).

Definition memory_store (m : Inner) (set : SetReq) : Inner * Result StoreError Written :=
  let existing := live m (s_key set) in
  let refused := fun outcome => (m, Ok (mkWritten outcome (previous_of set existing))) in
  let put := fun effective =>
    let '(m, (cas, previous)) := memory_put m effective in (m, Ok (mkWritten (Stored_Stored cas) previous)) in
  let concatenated := fun entry value =>
    mkSet (s_key set) value Ttl_Keep (e_mc_flags entry) (s_tags set) (s_mode set) (s_return_previous set) in
  match s_mode set, existing with
  | SetMode_Set, _ => put set
  | SetMode_Add, Some _ => refused Stored_NotStored
  | SetMode_Add, None => put set
  | SetMode_Replace, None => refused Stored_NotStored
  | SetMode_Replace, Some _ => put set
  | (SetMode_Append | SetMode_Prepend), None => refused Stored_NotStored
  | SetMode_Cas _, None => refused Stored_NotFound
  | SetMode_Cas expected, Some entry =>
      if negb (e_cas entry =? expected) then refused Stored_Exists else put set
  | SetMode_Append, Some entry => put (concatenated entry (e_value entry ++ s_value set))
  | SetMode_Prepend, Some entry => put (concatenated entry (s_value set ++ e_value entry))
  end.

Definition memory_arithmetic (m : Inner) (op : Arithmetic) : Inner * Result StoreError (option Applied) :=
  let existing := live m (ar_key op) in
  match evaluate op (e_value <$> existing) with
  | Err e => (m, Err (SE_Core e))
  | Panic why => (m, Panic why)
  | Ok Outcome_Missing => (m, Ok None)
  | Ok (Outcome_Unchanged applied) => (m, Ok (Some applied))
  | Ok (Outcome_Store text applied) =>
      let '(m, cas) := memory_next_cas m in
      let entry := mkEntry text (default 0 (e_mc_flags <$> existing)) cas
                     (memory_deadline (ar_ttl op) (expiry_of existing)) (in_epoch m)
                     (default [] (e_tags <$> existing)) in
      (insert_entry m (ar_key op) entry, Ok (Some applied))
  end.

Definition memory_append (m : Inner) (key suffix : bytes) : Inner * Result StoreError Z :=
  let existing := live m key in
  let combined := default [] (e_value <$> existing) ++ suffix in
  let '(m, cas) := memory_next_cas m in
  let entry := mkEntry combined (default 0 (e_mc_flags <$> existing)) cas (expiry_of existing) (in_epoch m)
                 (default [] (e_tags <$> existing)) in
  (insert_entry m key entry, Ok (len combined)).

Definition memory_expire (m : Inner) (key : bytes) (ttl : TtlChange) (guard : ExpireGuard)
    : Inner * Result StoreError bool :=
  match live m key with
  | None => (m, Ok false)
  | Some entry =>
      let target := memory_deadline ttl (e_expires_at_ms entry) in
      let existing := if negb (e_expires_at_ms entry =? NEVER) then Some (e_expires_at_ms entry) else None in
      let applies :=
        match guard with
        | Guard_Always => true
        | Guard_IfPersistent => match existing with None => true | Some _ => false end
        | Guard_IfVolatile => match existing with Some _ => true | None => false end
        | Guard_IfLater =>
            match existing with Some at_ms => negb (target =? NEVER) && (at_ms <? target) | None => false end
        | Guard_IfEarlier =>
            negb (target =? NEVER) && match existing with None => true | Some at_ms => target <? at_ms end
        end in
      if negb applies then (m, Ok false)
      else if negb (target =? NEVER) && (target <=? now_ms) then (remove_entry m key, Ok true)
      else
        let '(m, cas) := memory_next_cas m in
        (insert_entry m key (mkEntry (e_value entry) (e_mc_flags entry) cas target (e_epoch entry) (e_tags entry)),
         Ok true)
  end.

Definition memory_touch (m : Inner) (key : bytes) (ttl_secs : Z) : Inner * Result StoreError bool :=
  memory_expire m key (Ttl_Set ttl_secs) Guard_Always.

Definition memory_get_and_touch (m : Inner) (keys : list bytes) (ttl_secs : Z)
    : Inner * Result StoreError (list (option Value)) :=
  let values := (fun key => entry_value <$> live m key) <$> keys in
  let m := foldl (fun m '(key, value) =>
             match value with Some _ => (memory_touch m key ttl_secs).1 | None => m end) m (zip keys values) in
  (m, Ok values).

Definition memory_delete (m : Inner) (key : bytes) : Inner * Result StoreError bool :=
  let was_live := bool_decide (is_Some (live m key)) in
  (remove_entry m key, Ok was_live).

Fixpoint delete_all (m : Inner) (keys : list bytes) : Inner * list bool :=
  match keys with
  | [] => (m, [])
  | key :: keys' =>
      let was_live := bool_decide (is_Some (live m key)) in
      let '(m, hits) := delete_all (remove_entry m key) keys' in (m, was_live :: hits)
  end.

Definition memory_delete_many (m : Inner) (keys : list bytes) : Inner * Result StoreError (list bool) :=
  let '(m, hits) := delete_all m keys in (m, Ok hits).

(** ** Tags, flushing, listing *)

Definition set_tag_state (m : Inner) (tag : bytes) (state : TagState) : Inner :=
  mkInner (in_entries m) (<[tag := state]> (in_tags m)) (in_next_tag_id m) (in_epoch m) (in_next_cas m).

Definition memory_delete_by_tag (m : Inner) (tag : bytes) : Inner * Result StoreError (option Z) :=
  match in_tags m !! tag with
  | None => (m, Ok None)
  | Some state =>
      let generation := wrapping 64 (ts_generation state + 1) in
      (set_tag_state m tag (mkTagState (ts_id state) generation), Ok (Some generation))
  end.

Definition memory_merge_tag_generation (m : Inner) (tag : bytes) (generation : Z) : Inner * Result StoreError Z :=
  let '(m, (id, current)) := resolve_tag m tag in
  let merged := Z.max current generation in
  (set_tag_state m tag (mkTagState id merged), Ok merged).

Definition memory_tag_generations (m : Inner) : Result StoreError (list TagGeneration) :=
  Ok ((fun '(name, state) => mkTagGeneration name (ts_generation state)) <$> btree_iter (in_tags m)).

Definition memory_flush (m : Inner) : Inner * Result StoreError Z :=
  let epoch := wrapping 32 (in_epoch m + 1) in
  (mkInner ∅ (in_tags m) (in_next_tag_id m) epoch (in_next_cas m), Ok epoch).

Fixpoint list_keys_over (m : Inner) (request : ListRequest) (after : option bytes) (max_scan : Z)
    (rows : list (bytes * Entry)) (listing : Listing) : Listing :=
  match rows with
  | [] => listing
  | (key, entry) :: rows' =>
      if match after with Some from => lex_le key from | None => false end
      then list_keys_over m request after max_scan rows' listing
      else if max_scan <=? l_scanned listing
      then mkListing (l_entries listing) (l_scanned listing) (Some (cursor_encode 0 key)) true
      else
        let scanned := l_scanned listing + 1 in
        if negb (entry_alive m entry) || negb (ListRequest_matches request key)
        then list_keys_over m request after max_scan rows'
               (mkListing (l_entries listing) scanned (l_cursor listing) (l_truncated listing))
        else
          let entries := l_entries listing ++ [ListEntry_record key (e_cas entry) (e_expires_at_ms entry)] in
          if lr_limit request <=? len entries
          then mkListing entries scanned (Some (cursor_encode 0 key)) (l_truncated listing)
          else list_keys_over m request after max_scan rows'
                 (mkListing entries scanned (l_cursor listing) (l_truncated listing))
  end.

Definition memory_list_keys (m : Inner) (request : ListRequest) (max_scan : Z) : Result StoreError Listing :=
  '(_, after) ← cursor_decode (lr_cursor request) 1;
  Ok (list_keys_over m request after max_scan (btree_iter (in_entries m)) Listing_default).

Fixpoint list_tags_over (request : ListRequest) (rows : list (bytes * TagState)) (listing : Listing) : Listing :=
  match rows with
  | [] => listing
  | (name, state) :: rows' =>
      if negb (len (lr_cursor request) =? 0) && lex_le name (lr_cursor request)
      then list_tags_over request rows' listing
      else
        let scanned := l_scanned listing + 1 in
        if negb (ListRequest_matches request name)
        then list_tags_over request rows' (mkListing (l_entries listing) scanned (l_cursor listing) (l_truncated listing))
        else
          let entries := l_entries listing ++ [ListEntry_new name (ts_generation state)] in
          if lr_limit request <=? len entries
          then mkListing entries scanned (Some name) (l_truncated listing)
          else list_tags_over request rows' (mkListing entries scanned (l_cursor listing) (l_truncated listing))
  end.

Definition memory_list_tags (m : Inner) (request : ListRequest) : Result StoreError Listing :=
  Ok (list_tags_over request (btree_iter (in_tags m)) Listing_default).

(** ** The trait *)

Definition memory_ops : StoreOps Inner := {|
  st_get := memory_get;
  st_get_with := memory_get;
  st_get_many := memory_get_many;
  st_get_many_with := memory_get_many_with;
  st_deadline := memory_deadline_of;
  st_deadlines := memory_deadlines;
  st_set_many := memory_set_many;
  st_set_many_if := memory_set_many_if;
  st_store := memory_store;
  st_get_and_touch := memory_get_and_touch;
  st_expire := memory_expire;
  st_append := memory_append;
  st_arithmetic := memory_arithmetic;
  st_delete := memory_delete;
  st_delete_many := memory_delete_many;
  st_touch := memory_touch;
  st_delete_by_tag := memory_delete_by_tag;
  st_merge_tag_generation := memory_merge_tag_generation;
  st_tag_generations := memory_tag_generations;
  st_flush := memory_flush;
  st_list_keys := memory_list_keys;
  st_list_tags := memory_list_tags
|}.

End Memory.
