(* ===== verification/MemorySpec.v ===== *)
(** The in-memory store keeps the promises the executor relies on, and agrees
    with the storage engine: each write means what the abstract cache says, as
    the writes of [Apply.v] do. *)

From S2P Require Import Prelude Bytes Text Core Record Glob Clock Arith Float Command Backend.
From S2P Require Import Tags Engine Apply Cache Listing.
From S2P Require Import Vcp VcpEncode VcpReply Auth Server ServerBatch ServerSpec ServerRef Memory.

Section MemorySpec.
Context {FT : FloatText}.
Variable now_ms : Z.

Abbreviation live := (live now_ms).

(** ** The executor's requirements *)

Lemma memory_store_plain m set :
  plain set ->
  memory_store now_ms m set
  = (let '(m', (cas, previous)) := memory_put now_ms m set in (m', Ok (mkWritten (Stored_Stored cas) previous))).
Proof. intros [Hm _]. unfold memory_store. by rewrite Hm. Qed.

Lemma memory_store_total m set : no_panic (memory_store now_ms m set).2.
Proof.
  unfold memory_store. destruct (s_mode set), (live m (s_key set)); try done; try (by destruct (memory_put _ _ _) as [? []]).
  destruct (negb _); [done|]. by destruct (memory_put _ _ _) as [? []].
Qed.

Lemma memory_expire_total m key ttl guard : no_panic (memory_expire now_ms m key ttl guard).2.
Proof. unfold memory_expire. by repeat case_match. Qed.

Lemma memory_total : StoreTotal Inner (SO := memory_ops now_ms).
Proof.
  constructor; cbn; try done; intros.
  - unfold memory_set_many. by destruct (put_all _ _ _).
  - unfold memory_set_many_if. by destruct (negb _).
  - apply memory_store_total.
  - apply memory_expire_total.
  - unfold memory_arithmetic. pose proof (evaluate_no_panic op (e_value <$> live s (ar_key op))) as H.
    destruct (evaluate _ _) as [[| |]| |]; try done. by destruct (H why).
  - unfold memory_delete_many. by destruct (delete_all _ _ _).
  - apply memory_expire_total.
  - unfold memory_delete_by_tag. by case_match.
  - unfold memory_list_keys, cursor_decode, bad. by repeat case_match.
Qed.

Lemma put_all_stored m sets :
  Forall plain sets ->
  exists written, store_all (SO := memory_ops now_ms) m sets = ((put_all now_ms m sets).1, written)
    /\ (forall i r, written !! i = Some r ->
        exists w c, r = Ok w /\ w_outcome w = Stored_Stored c /\ (put_all now_ms m sets).2 !! i = Some c).
Proof.
  intros Hp. revert m. induction Hp as [|set sets Hp Hps IH]; intros m; [by exists []|].
  cbn [store_all put_all]. cbn [st_store memory_ops]. rewrite memory_store_plain by done.
  destruct (memory_put now_ms m set) as [m' [cas previous]]. destruct (IH m') as (written & Hs & Hw).
  rewrite Hs. destruct (put_all now_ms m' sets) as [m'' tokens]. eexists. split; [done|].
  intros [|i] r Hi; [|by apply Hw]. injection Hi as <-. by eexists _, cas.
Qed.

Lemma memory_batch : StoreBatch Inner (SO := memory_ops now_ms).
Proof.
  constructor; cbn.
  - intros m sets m' cas _ Hp Hs. unfold memory_set_many in Hs. pose proof (put_all_stored m sets Hp) as H.
    destruct (put_all now_ms m sets) as [m1 tokens]. by injection Hs as <- <-.
  - intros m sets m' e. unfold memory_set_many. by destruct (put_all _ _ _).
  - intros m set m' w Hp. rewrite memory_store_plain by done. destruct (memory_put _ _ _) as [m1 [cas previous]].
    intros [= _ <-]. by eexists.
  - done.
  - intros m ks. unfold memory_get_many_with. split; [|by rewrite length_fmap]. by rewrite imap_fmap.
Qed.

(** A repeated key is written again, in its turn. *)
Lemma memory_in_order : StoreInOrder Inner (SO := memory_ops now_ms).
Proof.
  constructor. cbn. intros m sets m' cas Hp Hs. unfold memory_set_many in Hs.
  destruct (put_all_stored m sets Hp) as (written & E & Hw). destruct (put_all now_ms m sets) as [m1 tokens].
  injection Hs as <- <-. exists written. split; [done|]. apply Forall_lookup. intros i r Hi.
  destruct (Hw i r Hi) as (w & c & -> & Hc & _). eauto.
Qed.

(** The pages of the in-memory store: one that stops early has examined a
    record, and none passes its budget. *)
Lemma list_keys_over_scanned m request after budget rows l :
  l_cursor l = None -> 0 <= l_scanned l <= budget ->
  let l' := list_keys_over now_ms m request after budget rows l in
  l_scanned l <= l_scanned l' <= budget /\ (l_cursor l' <> None -> 0 < budget -> 0 < l_scanned l').
Proof.
  revert l. induction rows as [|[key entry] rows IH]; intros l Hc Hs; cbn [list_keys_over]; cbv zeta; [split; [lia|by rewrite Hc]|].
  destruct (match after with Some from => lex_le key from | None => false end); [by apply IH|].
  destruct (Z.leb_spec budget (l_scanned l)); [cbn; lia|].
  destruct (_ || _).
  - specialize (IH (mkListing (l_entries l) (l_scanned l + 1) (l_cursor l) (l_truncated l)) Hc). cbn [l_scanned] in IH.
    destruct (IH ltac:(lia)) as [? ?]. split; [lia|done].
  - destruct (_ <=? _); [cbn; lia|].
    match goal with |- context [list_keys_over _ _ _ _ _ _ ?l1] => specialize (IH l1 Hc); cbn [l_scanned] in IH end.
    destruct (IH ltac:(lia)) as [? ?]. split; [lia|done].
Qed.

Lemma memory_listing : StoreListing Inner (SO := memory_ops now_ms).
Proof.
  split; cbn; unfold memory_list_keys; intros s request budget page H.
  - intros Hc Hb. destruct (cursor_decode _ _) as [[i after]|e|w]; [|done..]. injection H as <-.
    destruct (list_keys_over_scanned s request after budget (btree_iter (in_entries s)) Listing_default eq_refl ltac:(cbn; lia)) as [_ Hp].
    by apply Hp.
  - intros Hb. destruct (cursor_decode _ _) as [[i after]|e|w]; [|done..]. injection H as <-.
    destruct (list_keys_over_scanned s request after budget (btree_iter (in_entries s)) Listing_default eq_refl ltac:(cbn; lia)) as [Hp _].
    cbn in Hp. lia.
Qed.

(** ** What a client sees *)

Definition as_record (e : Entry) : RecordRef :=
  record_of (mkMeta (e_epoch e) (e_mc_flags e) (e_expires_at_ms e) (e_cas e))
    ((fun '(id, generation) => mkTagRef id generation) <$> e_tags e) (e_value e).

Definition memory_seen (m : Inner) (key : bytes) : option RecordRef := as_record <$> live m key.

Definition visible (m : Inner) (rec : RecordRef) : bool := is_alive rec now_ms (in_epoch m) (generation_by_id m).

Lemma alive_as_record m e : entry_alive now_ms m e = visible m (as_record e).
Proof.
  unfold entry_alive, visible, is_alive, is_expired, is_flushed. cbn.
  destruct (e_epoch e =? in_epoch m); cbn; [|by rewrite andb_false_r].
  destruct (_ && _); cbn; [done|]. unfold tags_alive. cbn.
  induction (e_tags e) as [|[id generation] l IH]; [done|]. cbn. by rewrite IH.
Qed.

(** What becomes of a key. *)
Definition after (m : Inner) (ch : Change) (old : option RecordRef) : option RecordRef :=
  match ch with
  | Keep => old
  | Store rec => if visible m rec then Some rec else None
  | Remove => None
  end.

(** An operation on [key] from [m] that leaves [m'] and answers [a] does what
    the abstract cache says; this store has no bound on a value's length. *)
Definition follows {A} (verdict : Verdict A) (key : bytes) (m m' : Inner) (a : Result StoreError A) : Prop :=
  match verdict with
  | Ok (ch, answer) =>
      a = Ok answer /\ memory_seen m' key = after m' ch (memory_seen m key)
      /\ forall k, k <> key -> memory_seen m' k = memory_seen m k
  | Err (SE_Core (ValueTooLarge _ _)) => True
  | Err e => a = Err e /\ m' = m
  | Panic _ => False
  end.

Lemma live_as_record m key : memory_seen m key = (e ← in_entries m !! key; if visible m (as_record e) then Some (as_record e) else None).
Proof.
  unfold memory_seen, Memory.live. destruct (in_entries m !! key) as [e|]; [|done]. cbn.
  rewrite alive_as_record. by destruct (visible m (as_record e)).
Qed.

Lemma seen_insert m key e :
  memory_seen (insert_entry m key e) key = after m (Store (as_record e)) (memory_seen m key)
  /\ forall k, k <> key -> memory_seen (insert_entry m key e) k = memory_seen m k.
Proof.
  split; [|intros k Hk]; rewrite !live_as_record; cbn [in_entries insert_entry];
    [by rewrite lookup_insert_eq|by rewrite lookup_insert_ne].
Qed.

Lemma seen_remove m key :
  memory_seen (remove_entry m key) key = None
  /\ forall k, k <> key -> memory_seen (remove_entry m key) k = memory_seen m k.
Proof.
  split; [|intros k Hk]; rewrite !live_as_record; cbn [in_entries remove_entry];
    [by rewrite lookup_delete_eq|by rewrite lookup_delete_ne].
Qed.

(** ** Tag ids *)

(** Ids are handed out once, and a record's tags have been. *)
Record Inner_ok (m : Inner) : Prop := {
  ok_next : 0 <= in_next_tag_id m;
  ok_ids name st : in_tags m !! name = Some st -> 0 <= ts_id st < in_next_tag_id m;
  ok_once a b st st' : in_tags m !! a = Some st -> in_tags m !! b = Some st' -> ts_id st = ts_id st' -> a = b;
  ok_tags key e : in_entries m !! key = Some e -> Forall (fun tag => 0 <= tag.1 < in_next_tag_id m) (e_tags e)
}.

Lemma btree_iter_elem {A} (t : gmap bytes A) k x : (k, x) ∈ btree_iter t <-> t !! k = Some x.
Proof. unfold btree_iter. by rewrite merge_sort_Permutation, elem_of_map_to_list. Qed.

Lemma generation_by_id_spec m id g :
  Inner_ok m ->
  generation_by_id m id = Some g <-> exists name, in_tags m !! name = Some (mkTagState id g).
Proof.
  intros Ho. unfold generation_by_id. split.
  - destruct (find _ _) as [st|] eqn:E; [|done]. cbn. intros [= <-]. apply find_some in E as [Hin He].
    apply Z.eqb_eq in He as <-. apply list_elem_of_In, list_elem_of_fmap in Hin as ([name st'] & -> & Hin).
    apply btree_iter_elem in Hin. exists name. rewrite Hin. by destruct st'.
  - intros [name Hn]. destruct (find _ _) as [st|] eqn:E.
    + apply find_some in E as [Hin He]. apply Z.eqb_eq in He.
      apply list_elem_of_In, list_elem_of_fmap in Hin as ([name' st'] & -> & Hin). apply btree_iter_elem in Hin.
      cbn [snd] in *. assert (name' = name) as -> by (by eapply ok_once).
      rewrite Hn in Hin. by injection Hin as <-.
    + exfalso. pose proof (find_none _ _ E (mkTagState id g)) as H. cbn in H. rewrite Z.eqb_refl in H.
      discriminate H. apply list_elem_of_In, list_elem_of_fmap. exists (name, mkTagState id g).
      split; [done|]. by apply btree_iter_elem.
Qed.

Lemma generation_by_id_same m m' id :
  Inner_ok m -> Inner_ok m' ->
  (forall g, (exists name, in_tags m !! name = Some (mkTagState id g))
             <-> exists name, in_tags m' !! name = Some (mkTagState id g)) ->
  generation_by_id m' id = generation_by_id m id.
Proof.
  intros Ho Ho' H. apply option_eq. intros g.
  rewrite (generation_by_id_spec m' id g Ho'), (generation_by_id_spec m id g Ho). by symmetry.
Qed.

(** [m'] is [m] with more tags registered. *)
Record more_tags (m m' : Inner) : Prop := {
  mt_ok : Inner_ok m';
  mt_entries : in_entries m' = in_entries m;
  mt_epoch : in_epoch m' = in_epoch m;
  mt_cas : in_next_cas m' = in_next_cas m;
  mt_next : in_next_tag_id m <= in_next_tag_id m';
  mt_generation id : 0 <= id < in_next_tag_id m -> generation_by_id m' id = generation_by_id m id
}.

Lemma more_tags_refl m : Inner_ok m -> more_tags m m.
Proof. by split. Qed.

Lemma more_tags_trans m m' m'' : more_tags m m' -> more_tags m' m'' -> more_tags m m''.
Proof.
  intros H H'. pose proof (mt_next _ _ H). pose proof (mt_next _ _ H').
  split; [apply (mt_ok _ _ H')|..].
  - by rewrite (mt_entries _ _ H'), (mt_entries _ _ H).
  - by rewrite (mt_epoch _ _ H'), (mt_epoch _ _ H).
  - by rewrite (mt_cas _ _ H'), (mt_cas _ _ H).
  - lia.
  - intros id Hid. rewrite (mt_generation _ _ H') by lia. by apply (mt_generation _ _ H).
Qed.

Lemma resolve_tag_ok m name :
  Inner_ok m -> in_next_tag_id m + 1 < 2 ^ 32 ->
  more_tags m (resolve_tag m name).1 /\ in_next_tag_id (resolve_tag m name).1 <= in_next_tag_id m + 1
  /\ 0 <= (resolve_tag m name).2.1 < in_next_tag_id (resolve_tag m name).1.
Proof.
  intros Ho Hroom. unfold resolve_tag. cbn zeta. cbn [fst snd]. pose proof (ok_next _ Ho) as Hn.
  destruct (in_tags m !! name) as [st|] eqn:E.
  - pose proof (ok_ids _ Ho _ _ E) as Hid. destruct (Z.eqb_spec (ts_id st) (in_next_tag_id m)); [lia|].
    rewrite insert_id by done. assert (mkInner (in_entries m) (in_tags m) (in_next_tag_id m) (in_epoch m) (in_next_cas m) = m)
      as -> by (by destruct m). split; [by apply more_tags_refl|]. lia.
  - cbn [ts_id]. rewrite Z.eqb_refl. rewrite wrapping_small by width. cbn [in_next_tag_id].
    set (m' := mkInner _ _ _ _ _). assert (Inner_ok m') as Ho'.
    { split; subst m'; cbn; [lia|..].
      - intros a st [[<- <-]|[_ Ha]]%lookup_insert_Some; [cbn; lia|]. pose proof (ok_ids _ Ho _ _ Ha). lia.
      - intros a b st st' [[<- <-]|[_ Ha]]%lookup_insert_Some [[<- <-]|[_ Hb]]%lookup_insert_Some He; [done|..|by eapply ok_once];
          cbn in He; [pose proof (ok_ids _ Ho _ _ Hb)|pose proof (ok_ids _ Ho _ _ Ha)]; lia.
      - intros k e Hk. eapply Forall_impl; [by apply (ok_tags _ Ho k)|]. cbn. lia. }
    split; [|lia]. split; try done; [cbn; lia|]. intros id Hid. apply generation_by_id_same; [done..|].
    intros g. subst m'. cbn. split; intros [a Ha].
    + exists a. rewrite lookup_insert_ne; [done|]. intros <-. congruence.
    + apply lookup_insert_Some in Ha as [[_ [= He _]]|[_ Ha]]; [lia|by exists a].
Qed.

Lemma resolve_tags_ok m names :
  Inner_ok m -> in_next_tag_id m + len names < 2 ^ 32 ->
  more_tags m (resolve_tags m names).1
  /\ Forall (fun tag => 0 <= tag.1 < in_next_tag_id (resolve_tags m names).1) (resolve_tags m names).2.
Proof.
  revert m. induction names as [|name names IH]; intros m Ho Hroom; [by split; [apply more_tags_refl|]|].
  assert (len (name :: names) = len names + 1) as Hl by (unfold len; cbn; lia). pose proof (len_nonneg names).
  destruct (resolve_tag_ok m name Ho ltac:(lia)) as (H1 & H2 & H3). cbn [resolve_tags].
  destruct (resolve_tag m name) as [m1 tag]. cbn [fst snd] in *.
  destruct (IH m1 (mt_ok _ _ H1) ltac:(lia)) as [H4 H5].
  destruct (resolve_tags m1 names) as [m2 tags]. cbn [fst snd] in *.
  split; [by eapply more_tags_trans|]. constructor; [|done]. pose proof (mt_next _ _ H4). lia.
Qed.

Lemma visible_more_tags m m' key e :
  Inner_ok m -> more_tags m m' -> in_entries m !! key = Some e -> visible m' (as_record e) = visible m (as_record e).
Proof.
  intros Ho Hm He. unfold visible, is_alive. rewrite (mt_epoch _ _ Hm). f_equal. unfold tags_alive. cbn.
  pose proof (ok_tags _ Ho _ _ He) as Ht. induction Ht as [|[id g] l Hid Ht IH]; [done|]. cbn.
  rewrite IH. by rewrite (mt_generation _ _ Hm) by done.
Qed.

Lemma seen_more_tags m m' key : Inner_ok m -> more_tags m m' -> memory_seen m' key = memory_seen m key.
Proof.
  intros Ho Hm. rewrite !live_as_record, (mt_entries _ _ Hm). destruct (in_entries m !! key) as [e|] eqn:He; [|done].
  cbn. by rewrite (visible_more_tags m m' key e).
Qed.

Lemma ok_next_cas m : Inner_ok m -> Inner_ok (memory_next_cas m).1.
Proof. intros []. by split. Qed.

Lemma ok_insert m key e :
  Inner_ok m -> Forall (fun tag => 0 <= tag.1 < in_next_tag_id m) (e_tags e) -> Inner_ok (insert_entry m key e).
Proof.
  intros Ho He. split; [apply Ho..|]. cbn. intros k x [[<- <-]|[_ Hx]]%lookup_insert_Some; [done|by eapply ok_tags].
Qed.

Lemma ok_remove m key : Inner_ok m -> Inner_ok (remove_entry m key).
Proof. intros Ho. split; [apply Ho..|]. cbn. intros k x [_ Hx]%lookup_delete_Some. by eapply ok_tags. Qed.

Lemma live_entry m key e : live m key = Some e -> in_entries m !! key = Some e.
Proof. unfold Memory.live. destruct (in_entries m !! key) as [x|]; [|done]. cbn. by destruct (entry_alive _ _ _); intros [= <-]. Qed.

(** ** Each write against the abstract cache *)

(** The token the next write is stamped with. *)
Definition next_token (m : Inner) : Z := wrapping 64 (in_next_cas m + 1).

Definition refs (tags : list (Z * Z)) : list TagRef := (fun '(id, generation) => mkTagRef id generation) <$> tags.

(** A write as the engine prepares it, its tags resolved. *)
Definition prepared (m : Inner) (set : SetReq) : PreparedSet :=
  mkPreparedSet (s_key set) []
    (match s_ttl set with Ttl_Set ttl_secs => Some (expiry_from_ttl now_ms ttl_secs) | _ => None end)
    (s_ttl set) (refs (resolve_tags m (s_tags set)).2) (s_return_previous set) None.

Definition unstamped (m : Inner) (set : SetReq) : RecordRef :=
  record_of (mkMeta (in_epoch m) (s_mc_flags set) (default NEVER (ps_expires_at_ms (prepared m set))) 0)
    (refs (resolve_tags m (s_tags set)).2) (s_value set).

Definition room (m : Inner) (set : SetReq) : Prop := in_next_tag_id m + len (s_tags set) < 2 ^ 32.

(** [m'] is [m] after [rec] was stored under [key]. *)
Definition stores (rec : RecordRef) (key : bytes) (m m' : Inner) : Prop :=
  memory_seen m' key = after m' (Store rec) (memory_seen m key)
  /\ (forall k, k <> key -> memory_seen m' k = memory_seen m k) /\ Inner_ok m'.

Definition put_entry (m : Inner) (set : SetReq) : Entry :=
  mkEntry (s_value set) (s_mc_flags set) (next_token m)
    (memory_deadline now_ms (s_ttl set) (expiry_of (live m (s_key set)))) (in_epoch m) (resolve_tags m (s_tags set)).2.

(** An entry put under the next token, from the record it replaces. *)
Lemma next_stores m key e :
  Inner_ok m -> Forall (fun tag => 0 <= tag.1 < in_next_tag_id m) (e_tags e) ->
  stores (as_record e) key m (insert_entry (memory_next_cas m).1 key e).
Proof.
  intros Ho He. destruct (seen_insert (memory_next_cas m).1 key e) as [H1 H2].
  split; [exact H1|]. split; [|by apply ok_insert; [apply ok_next_cas|]].
  intros k Hk. by rewrite H2.
Qed.

Lemma put_stores m set :
  Inner_ok m -> room m set ->
  exists m', memory_put now_ms m set = (m', (next_token m, previous_of set (live m (s_key set))))
    /\ stores (as_record (put_entry m set)) (s_key set) m m'.
Proof.
  intros Ho Hroom. destruct (resolve_tags_ok m (s_tags set) Ho Hroom) as [Hm Ht]. unfold memory_put, put_entry.
  destruct (resolve_tags m (s_tags set)) as [m1 tags]. cbn [fst snd] in *.
  assert ((memory_next_cas m1).2 = next_token m) as Etok by (cbn; by rewrite (mt_cas _ _ Hm)).
  assert (in_epoch (memory_next_cas m1).1 = in_epoch m) as Eep by exact (mt_epoch _ _ Hm).
  pose proof (fun e => next_stores m1 (s_key set) e (mt_ok _ _ Hm)) as Hs.
  destruct (memory_next_cas m1) as [m2 cas]. cbn [fst snd] in *. rewrite Etok, Eep. eexists. split; [reflexivity|].
  edestruct Hs as (H1 & H2 & H3); [|split; [rewrite H1; apply (f_equal (after _ _)); by apply seen_more_tags|split; [|exact H3]]]; [exact Ht|].
  intros k Hk. rewrite H2 by done. by apply seen_more_tags.
Qed.

Lemma previous_seen set m : previous_of set (live m (s_key set)) = (if s_return_previous set then value_of <$> memory_seen m (s_key set) else None).
Proof.
  unfold previous_of, memory_seen. destruct (s_return_previous set), (live m (s_key set)); try done.
Qed.

Lemma expiry_seen m key : expiry_of (live m key) = default NEVER (expires_at_ms <$> memory_seen m key).
Proof. unfold expiry_of, memory_seen. by destruct (live m key). Qed.

(** What [put] stores is the prepared record, stamped and settled. *)
Lemma put_settles m set :
  as_record (put_entry m set) = settle now_ms (next_token m) (prepared m set) (unstamped m set) (memory_seen m (s_key set)).
Proof.
  unfold settle, put_entry. rewrite expiry_seen. unfold as_record. by destruct set as [key v [|t|t] flags tags mode rp].
Qed.

Lemma stores_follows {A} rec key m m' (answer : A) :
  stores rec key m m' -> follows (Ok (Store rec, answer)) key m m' (Ok answer) /\ Inner_ok m'.
Proof. by intros (H1 & H2 & H3). Qed.

Lemma keep_follows {A} key m (answer : A) :
  Inner_ok m -> follows (Ok (Keep, answer)) key m m (Ok answer) /\ Inner_ok m.
Proof. by split. Qed.

Lemma concat_stores m set e v :
  Inner_ok m -> room m set -> live m (s_key set) = Some e ->
  exists m',
    memory_put now_ms m (mkSet (s_key set) v Ttl_Keep (e_mc_flags e) (s_tags set) (s_mode set) (s_return_previous set))
      = (m', (next_token m, previous_of set (Some e)))
    /\ stores (new_record (next_token m) (in_epoch m) (e_mc_flags e) (e_expires_at_ms e) (ps_tags (prepared m set)) v)
         (s_key set) m m'.
Proof.
  intros Ho Hroom He. set (effective := mkSet _ _ _ _ _ _ _).
  destruct (put_stores m effective Ho Hroom) as (m' & E & Hs). exists m'. revert E Hs.
  unfold put_entry. cbn [s_key s_ttl effective]. rewrite He. by intros -> Hs.
Qed.

Lemma store_follows cfg m set :
  Inner_ok m -> room m set ->
  let '(m', a) := memory_store now_ms m set in
  follows (spec_conditional cfg now_ms (in_epoch m) (next_token m) (prepared m set) (unstamped m set) (s_mode set)
             (memory_seen m (s_key set))) (s_key set) m m' a
  /\ Inner_ok m'.
Proof.
  intros Ho Hroom. unfold memory_store. cbv zeta.
  assert (follows (Ok (Store (settle now_ms (next_token m) (prepared m set) (unstamped m set) (memory_seen m (s_key set))),
      mkWritten (Stored_Stored (next_token m)) (if s_return_previous set then value_of <$> memory_seen m (s_key set) else None)))
      (s_key set) m (let '(m, (cas, previous)) := memory_put now_ms m set in m)
      (Ok (mkWritten (Stored_Stored (next_token m)) (previous_of set (live m (s_key set)))))
    /\ Inner_ok (let '(m, (cas, previous)) := memory_put now_ms m set in m)) as Hset.
  { destruct (put_stores m set Ho Hroom) as (m' & -> & Hs). rewrite put_settles in Hs.
    rewrite previous_seen. by apply stores_follows. }
  pose proof (concat_stores m set) as Hcat.
  destruct (put_stores m set Ho Hroom) as (mset & Eset & _). rewrite Eset in Hset |- *.
  pose proof (fun outcome => keep_follows (s_key set) m (mkWritten outcome (previous_of set (live m (s_key set)))) Ho) as Hkeep.
  rewrite previous_seen in Hkeep, Hset |- *. unfold spec_conditional. cbn [ps_return_previous prepared].
  destruct (live m (s_key set)) as [e|] eqn:El;
    [assert (memory_seen m (s_key set) = Some (as_record e)) as Es by (unfold memory_seen; by rewrite El)
    |assert (memory_seen m (s_key set) = None) as Es by (unfold memory_seen; by rewrite El)];
    rewrite Es in Hset, Hkeep |- *; destruct (s_mode set) as [| | | | |expected] eqn:Em; try apply Hset; try apply Hkeep.
  - destruct (Hcat e (e_value e ++ s_value set) Ho Hroom eq_refl) as (m' & -> & Hs). cbn [spec_conditional].
    destruct (_ <? _); [split; [done|apply Hs]|]. by apply stores_follows.
  - destruct (Hcat e (s_value set ++ e_value e) Ho Hroom eq_refl) as (m' & -> & Hs). cbn [spec_conditional].
    destruct (_ <? _); [split; [done|apply Hs]|]. by apply stores_follows.
  - change (cas (as_record e)) with (e_cas e). by destruct (e_cas e =? expected); [apply Hset|apply Hkeep].
Qed.

Lemma next_token_follows {A} m key e (answer : A) :
  Inner_ok m -> Forall (fun tag => 0 <= tag.1 < in_next_tag_id m) (e_tags e) ->
  follows (Ok (Store (as_record e), answer)) key m (insert_entry (memory_next_cas m).1 key e) (Ok answer)
  /\ Inner_ok (insert_entry (memory_next_cas m).1 key e).
Proof. intros Ho He. by apply stores_follows, next_stores. Qed.

Lemma remove_follows {A} m key (answer : A) :
  Inner_ok m -> follows (Ok (Remove, answer)) key m (remove_entry m key) (Ok answer) /\ Inner_ok (remove_entry m key).
Proof. intros Ho. destruct (seen_remove m key). split; [done|by apply ok_remove]. Qed.

Lemma live_tags m key e : Inner_ok m -> live m key = Some e -> Forall (fun tag => 0 <= tag.1 < in_next_tag_id m) (e_tags e).
Proof. intros Ho He. eapply ok_tags; [done|by apply live_entry]. Qed.

Lemma expire_follows m key ttl guard :
  Inner_ok m ->
  let '(m', a) := memory_expire now_ms m key ttl guard in
  follows (spec_expire now_ms (next_token m) ttl guard (memory_seen m key)) key m m' a /\ Inner_ok m'.
Proof.
  intros Ho. unfold memory_expire, memory_seen. destruct (live m key) as [e|] eqn:El; cbn [fmap option_fmap option_map];
    [|by apply keep_follows].
  unfold spec_expire. change (expires_at_ms (as_record e)) with (e_expires_at_ms e).
  change (deadline_after now_ms ttl) with (memory_deadline now_ms ttl). cbv zeta.
  set (target := memory_deadline now_ms ttl (e_expires_at_ms e)).
  fold (expire_applies guard (e_expires_at_ms e) target).
  assert (forall b, b = expire_applies guard (e_expires_at_ms e) target ->
    let '(m', a) := (if negb b then (m, Ok false)
      else if negb (target =? NEVER) && (target <=? now_ms) then (remove_entry m key, Ok true)
      else let '(m, cas) := memory_next_cas m in
        (insert_entry m key (mkEntry (e_value e) (e_mc_flags e) cas target (e_epoch e) (e_tags e)), Ok true)) in
    follows (if negb (expire_applies guard (e_expires_at_ms e) target) then Ok (Keep, false)
      else if negb (target =? NEVER) && (target <=? now_ms) then Ok (Remove, true)
      else Ok (Store (new_record (next_token m) (h_epoch (header (as_record e))) (mc_flags (as_record e)) target
                        (tags (as_record e)) (value (as_record e))), true)) key m m' a /\ Inner_ok m') as H.
  { intros b ->. destruct (expire_applies _ _ _); cbn [negb]; [|by apply keep_follows].
    destruct (negb _ && _); [by apply remove_follows|].
    apply (next_token_follows m key (mkEntry (e_value e) (e_mc_flags e) (next_token m) target (e_epoch e) (e_tags e)) true Ho).
    exact (live_tags m key e Ho El). }
  apply H. unfold expire_applies. destruct guard, (e_expires_at_ms e =? NEVER); reflexivity.
Qed.

Lemma expired_invisible m rec : expires_at_ms rec <> NEVER -> expires_at_ms rec <= now_ms -> visible m rec = false.
Proof.
  intros Hn Hl. unfold visible, is_alive, is_expired. rewrite (proj2 (Z.eqb_neq _ _)) by done.
  by rewrite (proj2 (Z.leb_le _ _)).
Qed.

(** A touch to a deadline already past removes the record here, where the engine
    stores one nobody can see. *)
Lemma touch_follows m key ttl_secs :
  Inner_ok m ->
  let '(m', a) := memory_touch now_ms m key ttl_secs in
  follows (spec_touch now_ms (next_token m) ttl_secs (memory_seen m key)) key m m' a /\ Inner_ok m'.
Proof.
  intros Ho. pose proof (expire_follows m key (Ttl_Set ttl_secs) Guard_Always Ho) as H. unfold memory_touch.
  destruct (memory_expire now_ms m key _ _) as [m' a]. destruct H as [H Ho']. split; [|done]. revert H.
  unfold spec_expire, spec_touch. destruct (memory_seen m key) as [r|]; [|done].
  cbn [deadline_after expire_applies negb]. set (target := expiry_from_ttl now_ms ttl_secs).
  destruct (negb (target =? NEVER) && (target <=? now_ms)) eqn:Ed; [|done].
  intros (-> & H & Hk). split; [done|]. split; [|done]. rewrite H. cbn [after].
  apply andb_true_iff in Ed as [E1%negb_true_iff%Z.eqb_neq E2%Z.leb_le].
  by rewrite expired_invisible.
Qed.

Lemma append_follows cfg m key suffix :
  Inner_ok m ->
  let '(m', a) := memory_append now_ms m key suffix in
  follows (spec_append cfg (in_epoch m) (next_token m) suffix (memory_seen m key)) key m m' a /\ Inner_ok m'.
Proof.
  intros Ho. unfold memory_append, memory_seen, spec_append. cbv zeta.
  destruct (live m key) as [e|] eqn:El; cbn [fmap option_fmap option_map default from_option expiry_of].
  - change (value (as_record e)) with (e_value e).
    pose proof (next_token_follows m key (mkEntry (e_value e ++ suffix) (e_mc_flags e) (next_token m) (e_expires_at_ms e)
      (in_epoch m) (e_tags e)) (len (e_value e ++ suffix)) Ho (live_tags _ _ _ Ho El)) as [H Ho'].
    split; [|exact Ho']. by destruct (_ <? _).
  - pose proof (next_token_follows m key (mkEntry suffix 0 (next_token m) NEVER (in_epoch m) []) (len suffix) Ho
      ltac:(constructor)) as [H Ho'].
    split; [|exact Ho']. cbn [app]. by destruct (_ <? _).
Qed.

Lemma arithmetic_follows cfg m op :
  Inner_ok m ->
  let '(m', a) := memory_arithmetic now_ms m op in
  follows (spec_arithmetic cfg now_ms (in_epoch m) (next_token m) op (memory_seen m (ar_key op))) (ar_key op) m m' a
  /\ Inner_ok m'.
Proof.
  intros Ho. unfold memory_arithmetic, spec_arithmetic.
  assert (value <$> memory_seen m (ar_key op) = e_value <$> live m (ar_key op)) as ->
    by (unfold memory_seen; by destruct (live m (ar_key op))).
  pose proof (evaluate_no_panic op (e_value <$> live m (ar_key op))) as Hnp.
  destruct (evaluate op _) as [[|applied|text applied]|e|why]; [| | | |by destruct (Hnp why)]; cbn [map_err mbind Result_bind].
  - by apply keep_follows.
  - by apply keep_follows.
  - unfold memory_seen. destruct (live m (ar_key op)) as [e|] eqn:El; cbn [fmap option_fmap option_map default from_option].
    + pose proof (next_token_follows m (ar_key op) (mkEntry text (e_mc_flags e) (next_token m)
        (memory_deadline now_ms (ar_ttl op) (e_expires_at_ms e)) (in_epoch m) (e_tags e)) (Some applied) Ho
        (live_tags _ _ _ Ho El)) as [H Ho'].
      split; [|exact Ho']. by destruct (_ <? _).
    + pose proof (next_token_follows m (ar_key op) (mkEntry text 0 (next_token m)
        (memory_deadline now_ms (ar_ttl op) NEVER) (in_epoch m) []) (Some applied) Ho ltac:(constructor)) as [H Ho'].
      split; [|exact Ho']. by destruct (_ <? _).
  - split; [|done]. by destruct e.
Qed.

Lemma delete_follows m key :
  Inner_ok m ->
  let '(m', a) := memory_delete now_ms m key in follows (spec_delete (memory_seen m key)) key m m' a /\ Inner_ok m'.
Proof.
  intros Ho. unfold memory_delete, spec_delete.
  assert (bool_decide (is_Some (memory_seen m key)) = bool_decide (is_Some (live m key))) as ->
    by (apply bool_decide_ext; unfold memory_seen; by rewrite fmap_is_Some).
  by apply remove_follows.
Qed.

(** ** Tags and flushing *)

Definition tagged_with (id : Z) (rec : RecordRef) : Prop := exists t, t ∈ tags rec /\ tag_id t = id.

(** No entry's tag has the id: a client's record does not carry it. *)
Definition untagged_by (m : Inner) (id : Z) (key : bytes) : Prop :=
  forall e, in_entries m !! key = Some e -> ~ tagged_with id (as_record e).

Section State.
Variable m : Inner.
Variable tag : bytes.
Variable st : TagState.
Variable gen : Z.
Hypothesis Ho : Inner_ok m.
Hypothesis Hst : in_tags m !! tag = Some st.

Abbreviation m' := (set_tag_state m tag (mkTagState (ts_id st) gen)).

Lemma ok_set_state : Inner_ok m'.
Proof using Ho Hst.
  pose proof (ok_ids _ Ho _ _ Hst) as Hid. split; cbn; [apply Ho|..].
  - intros a x [[<- <-]|[_ Ha]]%lookup_insert_Some; [done|by eapply ok_ids].
  - intros a b x y [[<- <-]|[_ Ha]]%lookup_insert_Some [[<- <-]|[_ Hb]]%lookup_insert_Some He;
      cbn in He; [done|by eapply ok_once..].
  - intros k e Hk. by eapply ok_tags.
Qed.

Lemma generation_set_state id :
  generation_by_id m' id = if decide (id = ts_id st) then Some gen else generation_by_id m id.
Proof using Ho Hst.
  apply option_eq. intros g. rewrite (generation_by_id_spec m' id g ok_set_state). cbn. case_decide as Hid.
  - subst id. split.
    + intros [a [[_ [= <-]]|[Hne Ha]]%lookup_insert_Some]; [done|].
      destruct Hne. by eapply (ok_once _ Ho).
    + intros [= <-]. exists tag. by rewrite lookup_insert_eq.
  - rewrite (generation_by_id_spec m id g Ho). split; intros [a Ha]; exists a.
    + apply lookup_insert_Some in Ha as [[_ [= Hx _]]|[_ Ha]]; [by destruct Hid|done].
    + rewrite lookup_insert_ne; [done|]. intros <-. rewrite Hst in Ha. by injection Ha as ->.
Qed.

Lemma set_state_spares key : untagged_by m (ts_id st) key -> memory_seen m' key = memory_seen m key.
Proof using Ho Hst.
  intros Hno. rewrite !live_as_record. cbn [in_entries set_tag_state].
  destruct (in_entries m !! key) as [e|] eqn:E; [|done]. cbn. specialize (Hno e E).
  assert (visible m' (as_record e) = visible m (as_record e)) as ->; [|done].
  unfold visible, is_alive. f_equal. unfold tags_alive.
  assert (forall t, t ∈ tags (as_record e) -> tag_id t <> ts_id st) as Hne by (intros t Ht He; apply Hno; by exists t).
  induction (tags (as_record e)) as [|t ts IH]; [done|]. cbn [forallb].
  rewrite generation_set_state, decide_False by (apply Hne; by left). f_equal. apply IH.
  intros t' Ht'. apply Hne. by right.
Qed.

(** A generation that moved is one no record was written under. *)
Lemma set_state_hides key rec :
  gen <> ts_generation st -> memory_seen m key = Some rec -> tagged_with (ts_id st) rec -> memory_seen m' key = None.
Proof using Ho Hst.
  intros Hne. rewrite !live_as_record. cbn [in_entries set_tag_state].
  destruct (in_entries m !! key) as [e|]; [|done]. cbn.
  destruct (visible m (as_record e)) eqn:Ev; [|done]. intros [= <-] (t & Ht & Hid).
  destruct (visible m' (as_record e)) eqn:Ev'; [|done]. exfalso.
  unfold visible, is_alive, tags_alive in Ev, Ev'. apply andb_true_iff in Ev as [_ Ev], Ev' as [_ Ev'].
  rewrite forallb_forall in Ev, Ev'. apply list_elem_of_In in Ht. specialize (Ev t Ht). specialize (Ev' t Ht).
  rewrite generation_set_state, decide_True in Ev' by done. rewrite Hid in Ev.
  rewrite (proj2 (generation_by_id_spec m (ts_id st) (ts_generation st) Ho)) in Ev by (exists tag; by destruct st).
  apply Z.eqb_eq in Ev, Ev'. congruence.
Qed.

End State.

(** The tag at [gen], under the id it has or one nobody had. *)
Record tag_moved (m m' : Inner) (tag : bytes) (gen : Z) : Prop := {
  tm_ok : Inner_ok m';
  tm_state : exists id, in_tags m' !! tag = Some (mkTagState id gen)
    /\ match in_tags m !! tag with Some st => id = ts_id st | None => forall key, untagged_by m id key end;
  tm_others name : name <> tag -> in_tags m' !! name = in_tags m !! name;
  tm_hides st key rec : in_tags m !! tag = Some st -> gen <> ts_generation st ->
    memory_seen m key = Some rec -> tagged_with (ts_id st) rec -> memory_seen m' key = None;
  tm_spares key : match in_tags m !! tag with Some st => untagged_by m (ts_id st) key \/ gen = ts_generation st | None => True end ->
    memory_seen m' key = memory_seen m key
}.

Lemma set_state_moved m tag st gen :
  Inner_ok m -> in_tags m !! tag = Some st -> tag_moved m (set_tag_state m tag (mkTagState (ts_id st) gen)) tag gen.
Proof.
  intros Ho Hst. constructor.
  - by apply ok_set_state.
  - exists (ts_id st). cbn. by rewrite lookup_insert_eq, Hst.
  - intros name Hn. cbn. by rewrite lookup_insert_ne.
  - intros st' key rec. rewrite Hst. intros [= <-] Hne. by apply set_state_hides.
  - intros key. rewrite Hst. intros [Hu| ->]; [by apply set_state_spares|].
    assert (set_tag_state m tag (mkTagState (ts_id st) (ts_generation st)) = m) as ->; [|done].
    unfold set_tag_state. rewrite insert_id by (by destruct st). by destruct m.
Qed.

Lemma delete_by_tag_moves m tag :
  Inner_ok m ->
  let '(m', a) := memory_delete_by_tag m tag in
  match in_tags m !! tag with
  | None => m' = m /\ a = Ok None
  | Some st => let gen := wrapping 64 (ts_generation st + 1) in a = Ok (Some gen) /\ gen <> ts_generation st
      /\ tag_moved m m' tag gen
  end.
Proof.
  intros Ho. unfold memory_delete_by_tag. destruct (in_tags m !! tag) as [st|] eqn:E; [|done].
  split; [done|]. split; [|by apply set_state_moved].
  unfold wrapping. intros He. pose proof (Z.div_mod (ts_generation st + 1) (2 ^ 64) ltac:(lia)) as Hd.
  rewrite He in Hd. change (2 ^ 64) with 18446744073709551616 in Hd. lia.
Qed.

Lemma merge_moves m tag generation :
  Inner_ok m -> in_next_tag_id m + 1 < 2 ^ 32 ->
  let '(m', a) := memory_merge_tag_generation m tag generation in
  let gen := Z.max (default 0 (ts_generation <$> in_tags m !! tag)) generation in
  a = Ok gen /\ tag_moved m m' tag gen.
Proof.
  intros Ho Hroom. destruct (resolve_tag_ok m tag Ho Hroom) as (Hm & _ & _).
  unfold memory_merge_tag_generation.
  assert (exists st, in_tags (resolve_tag m tag).1 !! tag = Some st /\ (resolve_tag m tag).2 = (ts_id st, ts_generation st)
    /\ (forall name, name <> tag -> in_tags (resolve_tag m tag).1 !! name = in_tags m !! name)
    /\ match in_tags m !! tag with Some st0 => st = st0 | None => st = mkTagState (in_next_tag_id m) 0 end)
    as (st & Hst & Hr2 & Hother & Hold).
  { unfold resolve_tag. cbn. eexists. rewrite lookup_insert_eq. split; [done|]. split; [done|].
    split; [intros name Hn; by rewrite lookup_insert_ne|]. by destruct (in_tags m !! tag). }
  destruct (resolve_tag m tag) as [m1 [id cur]] eqn:Er. cbn [fst snd] in *. injection Hr2 as -> ->.
  assert (default 0 (ts_generation <$> in_tags m !! tag) = ts_generation st) as ->.
  { destruct (in_tags m !! tag); cbn; by rewrite Hold. }
  split; [done|].
  pose proof (set_state_moved m1 tag st (Z.max (ts_generation st) generation) (mt_ok _ _ Hm) Hst) as [H1 H2 H3 H4 H5].
  rewrite Hst in H2, H5.
  assert (forall key, in_tags m !! tag = None -> untagged_by m (ts_id st) key) as Hfresh.
  { intros key E e He (t & Ht & Hid). rewrite E in Hold. subst st. cbn in Hid.
    pose proof (ok_tags _ Ho _ _ He) as Ht'. rewrite Forall_forall in Ht'. cbn in Ht.
    apply list_elem_of_fmap in Ht as ([i g0] & -> & Hin). apply Ht' in Hin. cbn in *. lia. }
  constructor; [done| |intros name Hn; by rewrite H3, Hother| |].
  - destruct H2 as (i & H2 & ->). exists (ts_id st). split; [done|].
    destruct (in_tags m !! tag); [by rewrite Hold|]. intros key. by apply Hfresh.
  - intros st0 key rec E Hne Hs Ht. rewrite E in Hold. subst st0.
    apply (H4 st key rec Hst Hne); [|done]. by rewrite (seen_more_tags m m1 key).
  - intros key Hk. rewrite H5; [by apply seen_more_tags|].
    destruct (in_tags m !! tag) as [st0|]; [|left].
    + subst st0. destruct Hk as [Hk|Hk]; [left|by right]. intros e. rewrite (mt_entries _ _ Hm). apply Hk.
    + intros e. rewrite (mt_entries _ _ Hm). exact (Hfresh key eq_refl e).
Qed.

Lemma flush_empties m key : memory_seen (memory_flush m).1 key = None.
Proof. by rewrite live_as_record. Qed.

Lemma ok_flush m : Inner_ok m -> Inner_ok (memory_flush m).1.
Proof. intros []. by split. Qed.

(** C13 The two stores agree: each command on one key (the conditional writes,
    expire, touch, append, arithmetic, delete) of the in-memory store that the
    server's tests run against answers, and leaves a client seeing, what the
    abstract cache says - the same specification the writes of the storage
    engine refine - except that it holds no value too long; no other key changes.
    A read shows what a client sees.  An invalidation moves the tag to the next
    generation and hides every record that carries it, a merge moves it to the
    larger of the two (registering a name under an id nobody carries), and
    neither changes another tag or a record without this one.  A flush hides
    everything.  The tag ids stay straight throughout.  A write or a merge is
    asked for while there are tag ids left for the names it may register. *)
Theorem memory_refines_cache cfg m :
  Inner_ok m ->
  (forall set, room m set ->
    let '(m', a) := memory_store now_ms m set in
    follows (spec_conditional cfg now_ms (in_epoch m) (next_token m) (prepared m set) (unstamped m set) (s_mode set)
               (memory_seen m (s_key set))) (s_key set) m m' a /\ Inner_ok m')
  /\ (forall key ttl guard,
    let '(m', a) := memory_expire now_ms m key ttl guard in
    follows (spec_expire now_ms (next_token m) ttl guard (memory_seen m key)) key m m' a /\ Inner_ok m')
  /\ (forall key ttl_secs,
    let '(m', a) := memory_touch now_ms m key ttl_secs in
    follows (spec_touch now_ms (next_token m) ttl_secs (memory_seen m key)) key m m' a /\ Inner_ok m')
  /\ (forall key suffix,
    let '(m', a) := memory_append now_ms m key suffix in
    follows (spec_append cfg (in_epoch m) (next_token m) suffix (memory_seen m key)) key m m' a /\ Inner_ok m')
  /\ (forall op,
    let '(m', a) := memory_arithmetic now_ms m op in
    follows (spec_arithmetic cfg now_ms (in_epoch m) (next_token m) op (memory_seen m (ar_key op))) (ar_key op) m m' a
    /\ Inner_ok m')
  /\ (forall key,
    let '(m', a) := memory_delete now_ms m key in
    follows (spec_delete (memory_seen m key)) key m m' a /\ Inner_ok m')
  /\ (forall key, memory_get now_ms m key = Ok (value_of <$> memory_seen m key)
       /\ memory_deadline_of now_ms m key = Ok (expires_at_ms <$> memory_seen m key))
  /\ (forall tag,
    let '(m', a) := memory_delete_by_tag m tag in
    match in_tags m !! tag with
    | None => m' = m /\ a = Ok None
    | Some st => let gen := wrapping 64 (ts_generation st + 1) in a = Ok (Some gen) /\ gen <> ts_generation st
        /\ tag_moved m m' tag gen
    end)
  /\ (forall tag generation, in_next_tag_id m + 1 < 2 ^ 32 ->
    let '(m', a) := memory_merge_tag_generation m tag generation in
    let gen := Z.max (default 0 (ts_generation <$> in_tags m !! tag)) generation in
    a = Ok gen /\ tag_moved m m' tag gen)
  /\ (let '(m', a) := memory_flush m in
      a = Ok (wrapping 32 (in_epoch m + 1)) /\ in_epoch m' = wrapping 32 (in_epoch m + 1)
      /\ in_tags m' = in_tags m /\ Inner_ok m' /\ forall key, memory_seen m' key = None).
Proof.
  intros Ho. split_and!; [intros; by apply store_follows|intros; by apply expire_follows|intros; by apply touch_follows
    |intros; by apply append_follows|intros; by apply arithmetic_follows|intros; by apply delete_follows
    | |intros; by apply delete_by_tag_moves|intros; by apply merge_moves|].
  - intros key. unfold memory_get, memory_deadline_of, memory_seen. by destruct (live m key).
  - split_and!; try done. by apply (ok_flush m).
Qed.

End MemorySpec.
