(* ===== verification/Demo.v ===== *)
(** A concrete shard: one tagged record, its index rows, two registered tags
    and an outstanding reclamation job, over the map engine of [Backend.v].
    The theorems of the development are applied to it here. *)

From S2P Require Import Prelude Bytes Core Record Clock Arith Command Backend.
From S2P Require Import IndexKeys Tags Engine Apply Cache ApplySpec ApplyRefines.
From S2P Require Import TagOps Read Maint MaintSpec ReclaimSpec.

#[local] Existing Instance small_hash.
#[local] Existing Instance small_floats.

Abbreviation DemoTxn := (MapTxn None).

Definition demo_now : Z := 1700000000000.
Definition demo_cfg : Config := mkConfig 1048576 1000 0 4.
Definition demo_ram : Ram := mkRam 1 1 100 sample_registry Pressure_Normal.

(** ["k"] holds ["10"], tagged ["a"] at its current generation. *)
Definition demo_tags : list TagRef := [mkTagRef 0 1].
Definition demo_record : RecordRef := record_of (mkMeta 1 9 (demo_now + 60000) 4) demo_tags (bs "10").
Definition demo_blob : bytes :=
  header_bytes (header demo_record) ++ tags_bytes demo_tags ++ value demo_record.

Definition demo_base : Views :=
  mkViews ∅ ∅ ∅
    (<[bs "a" := encode_entry 0 1]> (<[bs "b" := encode_entry 7 2]> ∅))
    (<[be_bytes 4 7 := Job_encode (Job_new 2)]> ∅) ∅.

Definition demo_views : Views := store_rows 1000 demo_base (bs "k") demo_blob demo_record None.

Lemma demo_parse : RecordRef_parse demo_blob = Ok demo_record.
Proof. vm_compute. reflexivity. Qed.

Lemma demo_Inv : Inv 1000 demo_views /\ Tight 1000 demo_views.
Proof.
  destruct (empty_Inv 1000 demo_base) as [Hi Ht]; [done..|].
  assert (None = recs demo_base !! bs "k") as Hold by (vm_compute; reflexivity).
  split; [apply store_rows_Inv|apply store_rows_Tight]; try done; try apply demo_parse.
  intros k' [x Hx]. change (v_main demo_base) with (∅ : db_map) in Hx. by rewrite lookup_empty in Hx.
Qed.

Lemma demo_ready : ready demo_cfg demo_now demo_views demo_ram.
Proof. unfold ready; conjs; [unfold demo_now; width|cbn; width|apply demo_Inv]. Qed.

Lemma demo_held k : held demo_views k -> k = bs "k".
Proof.
  intros [x Hx]. cbn [demo_views store_rows v_main] in Hx.
  by apply lookup_insert_Some in Hx as [[<- _]|[_ Hx]].
Qed.

Lemma demo_separates : separates (bs "k") (held demo_views).
Proof. intros k' H _. by apply demo_held in H. Qed.

Lemma demo_views_tags : v_tag_meta demo_views
  = <[bs "a" := encode_entry 0 1]> (<[bs "b" := encode_entry 7 2]> ∅).
Proof. reflexivity. Qed.

Lemma demo_disk_tag n id g :
  disk_tag demo_views n = Some (id, g) -> (n = bs "a" /\ id = 0 /\ g = 1) \/ (n = bs "b" /\ id = 7 /\ g = 2).
Proof.
  unfold disk_tag. rewrite demo_views_tags.
  destruct (decide (n = bs "a")) as [->|]; [rewrite lookup_insert_eq; simpl|rewrite lookup_insert_ne by done].
  { rewrite decode_encode_entry by width. intros [= <- <-]. by left. }
  destruct (decide (n = bs "b")) as [->|]; [rewrite lookup_insert_eq; simpl|].
  { rewrite decode_encode_entry by width. intros [= <- <-]. by right. }
  rewrite lookup_insert_ne, lookup_empty by done. done.
Qed.

Lemma demo_TagTable : TagTable demo_views.
Proof.
  constructor.
  - intros n raw. rewrite demo_views_tags. rewrite !lookup_insert_Some, lookup_empty.
    intros [[_ <-]|[_ [[_ <-]|[_ ?]]]]; [| |done]; rewrite decode_encode_entry by width; eauto.
  - intros n n' id g g' [(-> & -> & ->)|(-> & -> & ->)]%demo_disk_tag
      [(-> & ? & ->)|(-> & ? & ->)]%demo_disk_tag; done.
Qed.

Lemma demo_ids_below : ids_below demo_views demo_ram.
Proof.
  split; [by vm_compute|]. change (next_id (ram_tags demo_ram)) with 8.
  intros n id g [(-> & -> & ->)|(-> & -> & ->)]%demo_disk_tag; lia.
Qed.

Lemma demo_Jobs_ok : Jobs_ok demo_views.
Proof.
  intros jk raw H. change (v_jobs demo_views) with ({[be_bytes 4 7 := Job_encode (Job_new 2)]} : db_map) in H.
  apply lookup_singleton_Some in H as [<- <-]. exists 7, (Job_new 2).
  conjs; [width|done|by vm_compute|done].
Qed.

(** ** Writes *)

Definition demo_set : PreparedSet :=
  mkPreparedSet (bs "k") demo_blob None (Ttl_SetIfPersistent 30) demo_tags true None.

Lemma demo_prepared : prepared_ok demo_set demo_record.
Proof. unfold prepared_ok. conjs; [apply demo_parse|done|done|cbn; width]. Qed.

Lemma apply_set_refines_witness :
  let verdict := spec_set demo_now 8 demo_set demo_record (Some demo_record) in
  wp (apply_set (T:=DemoTxn) demo_cfg demo_now demo_set)
    (answers demo_cfg (bs "k") verdict demo_views demo_ram) (refuses verdict demo_views demo_ram)
    demo_views demo_ram.
Proof.
  exact (apply_set_refines demo_cfg demo_now demo_set demo_record demo_views demo_ram
    demo_ready demo_prepared eq_refl demo_separates).
Defined.

Lemma apply_delete_refines_witness :
  let verdict := spec_delete (Some demo_record) in
  wp (apply_delete (T:=DemoTxn) demo_cfg demo_now (bs "k"))
    (answers demo_cfg (bs "k") verdict demo_views demo_ram) (refuses verdict demo_views demo_ram)
    demo_views demo_ram.
Proof. exact (apply_delete_refines demo_cfg demo_now (bs "k") demo_views demo_ram demo_ready). Defined.

Lemma apply_conditional_set_refines_witness :
  let verdict := spec_conditional demo_cfg demo_now 1 8 demo_set demo_record (SetMode_Cas 4)
                   (Some demo_record) in
  wp (apply_conditional_set (T:=DemoTxn) demo_cfg demo_now demo_set (SetMode_Cas 4))
    (answers demo_cfg (bs "k") verdict demo_views demo_ram) (refuses verdict demo_views demo_ram)
    demo_views demo_ram.
Proof.
  exact (apply_conditional_set_refines demo_cfg demo_now demo_set demo_record (SetMode_Cas 4)
    demo_views demo_ram demo_ready demo_prepared demo_separates).
Defined.

Lemma apply_expire_refines_witness :
  let verdict := spec_expire demo_now 8 (Ttl_Set 30) Guard_Always (Some demo_record) in
  wp (apply_expire (T:=DemoTxn) demo_cfg demo_now (bs "k") (Ttl_Set 30) Guard_Always)
    (answers demo_cfg (bs "k") verdict demo_views demo_ram) (refuses verdict demo_views demo_ram)
    demo_views demo_ram.
Proof.
  refine (apply_expire_refines demo_cfg demo_now (bs "k") (Ttl_Set 30) Guard_Always
    demo_views demo_ram demo_ready _ demo_separates). cbn. width.
Defined.

Lemma apply_arithmetic_refines_witness :
  let op := mkArithmetic (bs "k") (Delta_Int 5 0 100) OnBound_Clamp Missing_CreateAtZero Ttl_Keep in
  let verdict := spec_arithmetic demo_cfg demo_now 1 8 op (Some demo_record) in
  wp (apply_arithmetic (T:=DemoTxn) demo_cfg demo_now op)
    (answers demo_cfg (bs "k") verdict demo_views demo_ram) (refuses verdict demo_views demo_ram)
    demo_views demo_ram.
Proof.
  exact (apply_arithmetic_refines demo_cfg demo_now
    (mkArithmetic (bs "k") (Delta_Int 5 0 100) OnBound_Clamp Missing_CreateAtZero Ttl_Keep)
    demo_views demo_ram demo_ready I demo_separates).
Defined.

Lemma apply_append_refines_witness :
  let verdict := spec_append demo_cfg 1 8 (bs "!") (Some demo_record) in
  wp (apply_append (T:=DemoTxn) demo_cfg demo_now (bs "k") (bs "!"))
    (answers demo_cfg (bs "k") verdict demo_views demo_ram) (refuses verdict demo_views demo_ram)
    demo_views demo_ram.
Proof.
  exact (apply_append_refines demo_cfg demo_now (bs "k") (bs "!") demo_views demo_ram
    demo_ready demo_separates).
Defined.

Lemma apply_touch_refines_witness :
  let verdict := spec_touch demo_now 8 30 (Some demo_record) in
  wp (apply_touch (T:=DemoTxn) demo_cfg demo_now (bs "k") 30)
    (answers demo_cfg (bs "k") verdict demo_views demo_ram) (refuses verdict demo_views demo_ram)
    demo_views demo_ram.
Proof.
  refine (apply_touch_refines demo_cfg demo_now (bs "k") 30 demo_views demo_ram
    demo_ready _ demo_separates). width.
Defined.

Lemma demo_tags_ok : Forall tag_ok demo_tags.
Proof. apply Forall_singleton. split; cbn; width. Qed.

Definition demo_request : SetReq := mkSet (bs "k") (bs "new") (Ttl_Set 30) 9 [bs "a"] SetMode_Set false.

Lemma prepare_set_exact_witness :
  match prepare_set demo_cfg demo_now demo_ram demo_request demo_tags with
  | Ok p => exists rec0, prepared_ok p rec0 /\ value rec0 = bs "new" /\ tags rec0 = demo_tags
  | _ => False
  end.
Proof.
  assert (H : match prepare_set demo_cfg demo_now demo_ram demo_request demo_tags with
              | Ok p => _ | Err e => _ | Panic _ => False end)
    by (apply (prepare_set_exact demo_cfg demo_now demo_ram demo_request demo_tags);
        [unfold demo_now; width|cbn; width|cbn; width|cbn; width|apply demo_tags_ok]).
  revert H. destruct (prepare_set _ _ _ _ _) as [p|e|why] eqn:E; [|by vm_compute in E|done].
  intros (_ & _ & _ & _ & _ & _ & _ & _ & rec0 & H1 & H2 & H3 & _). by exists rec0.
Defined.

(** ** Tags *)

Lemma apply_create_tag_spec_witness :
  wp (apply_create_tag (T:=DemoTxn) (bs "c") 1)
    (fun '(id, g) v' r' => disk_tag v' (bs "c") = Some (id, g) /\ g = 1 /\ TagTable v')
    (fun _ _ _ => True) demo_views demo_ram.
Proof.
  eapply wp_mono.
  - apply (apply_create_tag_spec (bs "c") 1 demo_views demo_ram demo_TagTable demo_ids_below); by vm_compute.
  - intros [id g] v' r' _ (H1 & _ & H2 & _ & H3).
    assert (disk_tag demo_views (bs "c") = None) as E by (vm_compute; reflexivity).
    rewrite E in H3. by destruct H3 as [-> _].
  - done.
Defined.

Lemma apply_merge_tag_spec_witness :
  wp (apply_merge_tag (T:=DemoTxn) (bs "a") 5)
    (fun m v' r' => TagMerge_generation m = 5 /\ disk_tag v' (bs "a") = Some (0, 5))
    (fun _ _ _ => True) demo_views demo_ram.
Proof.
  eapply wp_mono.
  - apply (apply_merge_tag_spec (bs "a") 5 demo_views demo_ram demo_TagTable demo_ids_below); by vm_compute.
  - intros m v' r' _ (_ & H1 & _ & H2).
    assert (disk_tag demo_views (bs "a") = Some (0, 1)) as E by (vm_compute; reflexivity).
    rewrite E in H2. destruct H2 as (H2 & H3 & _). rewrite H1, H2, H3. done.
  - done.
Defined.

Lemma apply_delete_by_tag_spec_witness :
  wp (apply_delete_by_tag (T:=DemoTxn) (bs "a"))
    (fun answer v' r' => answer = Some (0, 2) /\ disk_tag v' (bs "a") = Some (0, 2))
    (fun _ _ _ => False) demo_views demo_ram.
Proof.
  assert (disk_tag demo_views (bs "a") = Some (0, 1)) as E by (vm_compute; reflexivity).
  eapply wp_mono.
  - apply (apply_delete_by_tag_spec (bs "a") demo_views demo_ram demo_TagTable). done.
  - intros answer v' r' _ (_ & _ & H). rewrite E in H. destruct H as (-> & -> & _). done.
  - done.
Defined.

Lemma invalidation_exact_witness :
  is_alive demo_record demo_now 1 (lookup_generation sample_registry) = true
  /\ is_alive demo_record demo_now 1 (lookup_generation (merge_generation sample_registry 0 2)) = false.
Proof.
  split; [by vm_compute|].
  apply (invalidation_exact sample_registry 0 1 2 demo_record demo_now 1 []).
  - exact sample_registry_ok.
  - lia.
  - by vm_compute.
  - lia.
  - apply Forall_singleton. cbn. lia.
  - constructor.
  - by vm_compute.
  - by apply list_elem_of_singleton.
Defined.

(** ** Reads *)

Lemma reads_exact_witness :
  get (mkMapTxn demo_views : DemoTxn) demo_ram demo_now (bs "k") = Ok (Some (value_of demo_record)).
Proof.
  destruct (reads_exact 1000 (mkMapTxn demo_views : DemoTxn) demo_ram demo_now (bs "k") [bs "k"; bs "x"]
    Z (fun v => mc_flags demo_record)) as [H _]; [apply demo_Inv|].
  destruct H as [H|H]; [exact H|]. exfalso. revert H. vm_compute. intros [].
Defined.

(** ** Maintenance *)

Lemma sweep_invisible_complete_witness :
  wp (sweep (T:=DemoTxn) demo_cfg (demo_now + 62000) 10)
    (fun stats v' r' => seen (demo_now + 62000) v' demo_ram (bs "k")
                        = seen (demo_now + 62000) demo_views demo_ram (bs "k"))
    (fun _ _ _ => False) demo_views demo_ram.
Proof.
  eapply wp_mono.
  - apply (sweep_invisible_complete demo_cfg (demo_now + 62000)).
    + unfold demo_now, U64_MAX. lia.
    + apply demo_Inv.
  - intros stats v' r' _ (_ & _ & _ & _ & _ & H & _). apply H.
  - done.
Defined.

Lemma evict_policy_witness :
  wp (evict (T:=DemoTxn) demo_cfg demo_now 10)
    (fun stats v' r' => sw_reclaimed stats = sw_scanned stats /\ 1 <= sw_reclaimed stats)
    (fun _ _ _ => False) demo_views demo_ram.
Proof.
  eapply wp_mono.
  - apply (evict_policy demo_cfg demo_now).
    + unfold demo_now, U64_MAX. lia.
    + apply demo_Inv.
  - intros stats v' r' _ (_ & _ & _ & _ & _ & _ & H1 & H2 & _).
    split; [apply H1, demo_Inv|apply H2; [apply demo_Inv|]]. intros E.
    assert (0 <? length (map_to_list (recs demo_views)))%nat as Hn by (vm_compute; exact I).
    rewrite E in Hn. vm_compute in Hn. exact Hn.
  - done.
Defined.

Lemma reclaim_step_spec_witness :
  wp (reclaim_step (T:=DemoTxn) demo_cfg demo_now 10)
    (fun answer v' r' => is_Some answer /\ Jobs_ok v') (fun _ _ _ => False) demo_views demo_ram.
Proof.
  assert (first_job demo_views = Some (7, Job_new 2)) as E by (vm_compute; reflexivity).
  eapply wp_mono.
  - apply (reclaim_step_spec demo_cfg demo_now 10 demo_views demo_ram); [apply demo_Inv|apply demo_Jobs_ok].
  - intros [stats|] v' r' _ (_ & _ & H & _ & _ & H'); rewrite E in H'; [by eauto|done].
  - done.
Defined.
