(* ===== verification/DemoNode.v ===== *)
(** A shard from its first opening on: two batches, a restart, over the map
    engine of [Backend.v], with the theorems about the writer, opening and the
    shard's life applied to it.  Then two shards of one node, a few keys and a
    tag across them, and the theorems about batches, listings and invalidation. *)

From S2P Require Import Prelude Bytes Text Core Record Glob Clock Arith Command Backend IndexKeys.
From S2P Require Import IndexKeys Tags Engine Apply Cache ApplySpec TagOps Read Shard Maint.
From S2P Require Import MaintSpec ReclaimSpec Queue QueueSpec Writer WriterSpec Life Env.
From S2P Require Import Listing Store StoreSpec NodeWrites Demo.

#[local] Existing Instance small_hash.
#[local] Existing Instance small_floats.

Definition terse_text (e : StoreError) : String.string := "failed".

#[local] Instance terse_errors : ErrorText := { error_text := terse_text }.

Abbreviation DemoTxn := (MapTxn None).

Definition shard_now : Z := 1700000000000.

Definition shard_limits : EvictionConfig :=
  mkEviction (S754_finite false 6755399441055744 (-53)) (S754_finite false 7926335344172073 (-53))
    (S754_finite false 8646911284551352 (-53)) 512.

Definition shard_config : StoreConfig :=
  mkStoreConfig "data" (64 * 1024 * 1024) Durability_Lazy 1048576 false false 1000 10 16 4
    (mkWriteConfig 512 512 shard_limits).

Definition shard_info : EnvInfo := mkEnvInfo (64 * 1024 * 1024) 4096.

Definition open_maps (found : option DemoTxn) : Result StoreError DemoTxn :=
  Ok (default (mkMapTxn empty_views) found).

Lemma open_maps_law found :
  match open_maps found with
  | Ok t => view t = default empty_views (view <$> found)
  | Err _ => True
  | Panic _ => False
  end.
Proof. by destruct found. Qed.

Definition shard_keys (k : bytes) : Prop := k = bs "j" \/ k = bs "k".

Lemma shard_keys_separate k k' :
  shard_keys k -> shard_keys k' -> xxh3_64 k' = xxh3_64 k -> k' = k.
Proof. intros [->| ->] [->| ->]; [done| | |done]; intros H; by vm_compute in H. Qed.

(** Shard 0 of 4, opened on nothing. *)
Definition opened := Engine_open shard_config 0 4 open_maps None.

Definition env_of (o : Result StoreError (DemoTxn * Ram * Config)) : DemoTxn :=
  match o with Ok (env, _, _) => env | _ => mkMapTxn empty_views end.

Definition ram_of (o : Result StoreError (DemoTxn * Ram * Config)) : Ram :=
  match o with Ok (_, r, _) => r | _ => empty_ram end.

Definition env0 : DemoTxn := env_of opened.
Definition ram0 : Ram := ram_of opened.
Definition shard_cfg : Config := engine_config shard_config 0 4.

Lemma opened_ok : opened = Ok (env0, ram0, shard_cfg).
Proof. vm_compute. reflexivity. Qed.

(** Two tags, two counters, one of them deleted, an invalidation, a sync. *)
Definition batch1 : list WriteOp :=
  [ Op_CreateTags [(bs "a", 1); (bs "b", 1)];
    Op_Append (bs "k") (bs "7");
    Op_Append (bs "j") (bs "8");
    Op_Arithmetic (mkArithmetic (bs "k") (Delta_Int 5 0 100) OnBound_Clamp Missing_CreateAtZero Ttl_Keep);
    Op_Delete [bs "j"];
    Op_DeleteByTag (bs "a");
    Op_Sync ].

Lemma batch1_ready : Forall (op_ready shard_keys) batch1.
Proof.
  repeat constructor; cbn; rewrite ?Forall_singleton; unfold shard_keys; try tauto; width.
Qed.

Definition turn1 := writer_turn shard_cfg (sc_write shard_config) shard_info shard_now env0 ram0 batch1 true false.

Definition shard_life := life shard_config 0 4 shard_keys open_maps.

Lemma life0 : shard_life [None; Some (env0, ram0)] env0 ram0.
Proof. exact (life_start _ _ _ _ _ _ _ _ opened_ok). Qed.

Lemma now_ok : 0 <= shard_now < U64_MAX.
Proof. unfold shard_now, U64_MAX. lia. Qed.

Definition disk1 := committed shard_config [None; Some (env0, ram0)] (tn_env turn1) (tn_ram turn1).

Lemma life1 : shard_life disk1 (tn_env turn1) (tn_ram turn1).
Proof.
  apply (life_turn shard_config 0 4 shard_keys open_maps _ env0 ram0 shard_now shard_info batch1 true false);
    [exact life0|exact now_ok|exact batch1_ready|by vm_compute].
Qed.

Lemma fits_0 : fits 32 0.
Proof. width. Qed.

Lemma fits_4 : fits 32 4.
Proof. width. Qed.

Lemma healthy0 : healthy shard_config 0 4 shard_keys (view env0) ram0.
Proof. exact (proj1 (life_healthy shard_config 0 4 shard_keys shard_keys_separate fits_0 fits_4 open_maps
    open_maps_law _ _ _ life0)). Qed.

(** ** The writer *)

Lemma queue_apply_refines_witness :
  wpq (T:=DemoTxn) (queue_apply shard_cfg shard_now (Op_MergeTag (bs "a") 3))
    (fun out v' r' eff' => out = Out_Merged 3 /\ exists id, disk_tag v' (bs "a") = Some (id, 3))
    (fun _ _ _ _ => True) (view env0) ram0 [].
Proof.
  eapply wpq_mono.
  - apply (queue_apply_refines shard_cfg shard_now shard_keys shard_keys_separate
      (Op_MergeTag (bs "a") 3) (view env0) ram0 []);
      [unfold shard_now; width|apply healthy0|cbn; width|by vm_compute].
  - intros out v' r' eff' _ (Hs & _). destruct out; try done.
    destruct Hs as (_ & _ & _ & _ & Hs).
    assert (disk_tag (view env0) (bs "a") = None) as E by (vm_compute; reflexivity).
    rewrite E in Hs. destruct Hs as [-> Hid]. by split.
  - done.
Defined.

Definition batch1_result :=
  commit_batch shard_cfg (sc_write shard_config) shard_info shard_now env0 ram0 batch1 true false.

Lemma commit_batch_atomic_witness :
  Agrees 1000 shard_keys (view (tn_env batch1_result)) (tn_ram batch1_result)
  /\ batch_ends shard_cfg shard_now env0 ram0 batch1 true batch1_result.
Proof.
  apply (commit_batch_atomic shard_cfg (sc_write shard_config) shard_info shard_now shard_keys
    shard_keys_separate now_ok env0 ram0 batch1 true false);
    [apply healthy0|exact batch1_ready|by vm_compute].
Defined.

Example batch1_answers :
  tn_events batch1_result =
    [ Ev_Reply 0 (Ok Out_Done); Ev_Reply 1 (Ok (Out_Length 1)); Ev_Reply 2 (Ok (Out_Length 1));
      Ev_Reply 3 (Ok (Out_Arithmetic (Some (mkApplied (Number_Int 12) (Number_Int 5) true))));
      Ev_Reply 4 (Ok (Out_Deleted [true])); Ev_Reply 5 (Ok (Out_Invalidated (Some 2)));
      Ev_Reply 6 (Ok Out_Done); Ev_Sync ].
Proof. vm_compute. reflexivity. Qed.

(** A map of ten rows, recovery freeing one record at a time: two counters fill
    it, one of them due in a minute, and a third does not fit. *)
Abbreviation SmallTxn := (MapTxn (Some 9)).

Definition one_at_a_time : WriteConfig :=
  mkWriteConfig 512 512 (mkEviction (ev_soft shard_limits) (ev_hard shard_limits) (ev_critical shard_limits) 1).

Definition full_turn (env : SmallTxn) (r : Ram) (batch : list WriteOp) : Turn SmallTxn :=
  writer_turn shard_cfg one_at_a_time shard_info shard_now env r batch false false.

Definition small0 : SmallTxn := mkMapTxn (view env0).

Definition small1 : Turn SmallTxn :=
  full_turn small0 ram0
    [Op_Append (bs "k") (bs "7"); Op_Append (bs "j") (bs "8"); Op_Expire (bs "j") (Ttl_Set 60) Guard_Always].

Lemma small1_agrees : Agrees 1000 shard_keys (view (tn_env small1)) (tn_ram small1).
Proof.
  apply (writer_turn_ok (T:=SmallTxn) shard_cfg one_at_a_time shard_info shard_now shard_keys
    shard_keys_separate now_ok small0 ram0); [apply healthy0| |by vm_compute].
  repeat constructor; cbn; unfold shard_keys; try tauto; width.
Qed.

Definition small2 : Turn SmallTxn := full_turn (tn_env small1) (tn_ram small1) [Op_CreateTags [(bs "a", 1)]].

Lemma writer_turn_recovers_witness :
  tn_events small2 = [Ev_Reply 0 (Err SE_CapacityFull)]
  /\ ram_pressure (tn_ram small2) = Pressure_Critical /\ tn_pending small2 = true
  /\ drained shard_cfg 1 1 (view (tn_env small1)) (view (tn_env small2))
  /\ (map_to_list (recs (view (tn_env small1)))).*1 = [bs "k"; bs "j"]
  /\ (map_to_list (recs (view (tn_env small2)))).*1 = [bs "k"].
Proof.
  destruct (writer_turn_recovers (T:=SmallTxn) shard_cfg one_at_a_time shard_info shard_now shard_keys
    shard_keys_separate now_ok (tn_env small1) (tn_ram small1) [Op_CreateTags [(bs "a", 1)]] false false)
    as (_ & _ & _ & H); [exact small1_agrees|repeat constructor; width|by vm_compute|].
  change (writer_turn _ _ _ _ _ _ _ _ _) with small2 in H.
  set (c := commit_batch _ _ _ _ _ _ _ _ _) in H.
  assert (tn_result c = Err SE_CapacityFull) as Hc by (vm_compute; reflexivity). rewrite Hc in H.
  destruct H as [_ H].
  split; [vm_compute; reflexivity|]. split; [vm_compute; reflexivity|]. split; [vm_compute; reflexivity|].
  split; [|split; vm_compute; reflexivity].
  destruct H as [(tried & budget & rest & n & Hb & _ & Hd & _)|(_ & Hp & _)].
  2:{ exfalso. revert Hp. vm_compute. discriminate. }
  assert (Z.of_nat (size (recs (view (tn_env small1)))) = 2
    /\ Z.of_nat (size (recs (view (tn_env small2)))) = 1
    /\ size (v_exp (view (tn_env small1))) = 2%nat /\ size (v_exp (view (tn_env small2))) = 1%nat)
    as (E1 & E2 & E3 & E4) by (split_and!; vm_compute; reflexivity).
  pose proof (dr_count _ _ _ _ _ Hd) as Hn. rewrite E1, E2 in Hn. assert (n = 1) as -> by lia.
  destruct (dr_rows _ _ _ _ _ Hd) as [He|He].
  { exfalso. apply (f_equal size) in He. rewrite E4 in He. discriminate He. }
  rewrite E3, E4 in He. assert (budget ∈ [1; 1; 8]) as Hin.
  { change (recovery_budgets one_at_a_time) with [1; 1; 8] in Hb. rewrite Hb. apply elem_of_app. right. by left. }
  apply elem_of_cons in Hin as [->|Hin]; [exact Hd|]. apply elem_of_cons in Hin as [->|Hin]; [exact Hd|].
  apply list_elem_of_singleton in Hin as ->. exfalso. clear -He. lia.
Defined.

Lemma shard_cfg_stripe : 0 <= shard_index shard_cfg < shard_count shard_cfg.
Proof. by vm_compute. Qed.

(** Two writes that are answered with their tokens. *)
Definition plain_record : RecordRef := record_of (mkMeta 0 0 NEVER 0) [] (bs "x").

Definition plain_blob : bytes := header_bytes (header plain_record) ++ bs "x".

Definition plain_set (k : bytes) : PreparedSet := mkPreparedSet k plain_blob None Ttl_Keep [] false None.

Lemma plain_ok k : prepared_ok (plain_set k) plain_record.
Proof. unfold prepared_ok. conjs; [by vm_compute|done|done|done]. Qed.

Definition batch2 : list WriteOp :=
  [ Op_Set [plain_set (bs "k"); plain_set (bs "j")];
    Op_ConditionalSet (plain_set (bs "k")) SetMode_Replace ].

Lemma batch2_ready : Forall (op_ready shard_keys) batch2.
Proof.
  assert (forall k, exists rec0, prepared_ok (plain_set k) rec0) as Hok
    by (intros k; eexists; apply plain_ok).
  constructor; [|constructor; [|constructor]]; cbn.
  - constructor; [|constructor; [|constructor]]; conjs; try done; [by right|by left].
  - split; [by right|done].
Qed.

Definition batch2_result :=
  commit_batch shard_cfg (sc_write shard_config) shard_info shard_now env0 ram0 batch2 true false.

Lemma batch2_served :
  served shard_config 0 4 shard_keys env0 ram0 [4; 8; 12] (tn_env batch2_result) (tn_ram batch2_result).
Proof.
  change [4; 8; 12] with ([] ++ [4; 8; 12] : list Z).
  replace [4; 8; 12] with (event_tokens (tn_events batch2_result)) by (vm_compute; reflexivity).
  apply (served_batch shard_config 0 4 shard_keys env0 ram0 [] env0 ram0 shard_now shard_info batch2 true false);
    [apply served_none|exact now_ok|exact batch2_ready|by vm_compute|unfold cas_room; by vm_compute|].
  vm_compute. reflexivity.
Qed.

Lemma tokens_never_reused_witness :
  StronglySorted Z.lt [4; 8; 12]
  /\ exists w', disk_watermark (view (tn_env batch2_result)) = Some w' /\ 12 <= token_of shard_cfg w'.
Proof.
  destruct (empty_agrees shard_config shard_keys) as (Ha & Hw & Hid).
  destruct (tokens_never_reused shard_config 0 4 shard_keys shard_keys_separate fits_0 fits_4 open_maps
    open_maps_law shard_cfg_stripe None None empty_ram 0 env0 ram0 shard_cfg [4; 8; 12]
    (tn_env batch2_result) (tn_ram batch2_result)) as (H1 & _ & _ & w' & _ & H2 & _ & H3);
    [exact Ha|exact Hw|exact Hid|lia| |exact opened_ok|exact batch2_served|].
  - intros k rec Hk. by vm_compute in Hk.
  - split; [exact H1|]. exists w'. split; [exact H2|].
    rewrite Forall_forall in H3. apply H3. by do 2 right; left.
Defined.

Example batch2_answers :
  tn_events batch2_result =
    [ Ev_Reply 0 (Ok (Out_Cas [4; 8])); Ev_Reply 1 (Ok (Out_Written (mkWritten (Stored_Stored 12) None))) ].
Proof. vm_compute. reflexivity. Qed.

(** ** Opening *)

Lemma Engine_open_exact_witness :
  match Engine_open shard_config 0 4 open_maps (Some (tn_env turn1)) with
  | Ok (env, r, _) =>
      Agrees 1000 shard_keys (view env) r
      /\ seen shard_now (view env) r (bs "k") = seen shard_now (view (tn_env turn1)) (tn_ram turn1) (bs "k")
  | _ => False
  end.
Proof.
  pose proof (life_healthy shard_config 0 4 shard_keys shard_keys_separate fits_0 fits_4 open_maps
    open_maps_law _ _ _ life1)
    as ((Ha & Hs & _) & _).
  pose proof (Engine_open_exact shard_config 0 4 shard_keys fits_0 fits_4 open_maps open_maps_law
    (Some (tn_env turn1)) (Some (0, 4)) (tn_ram turn1) (ram_cas_watermark (tn_ram turn1)) Ha) as H.
  assert (is_ok (Engine_open shard_config 0 4 open_maps (Some (tn_env turn1))) = true) as Hok
    by (vm_compute; reflexivity).
  destruct (Engine_open _ _ _ _ _) as [[[env r] c]|e|why] eqn:Eo.
  - destruct H as (H1 & _ & _ & _ & H2 & _); [by vm_compute|exact Hs|]. split; [done|apply H2].
  - done.
  - done.
Defined.

(** ** The shard's life *)


#[local] Existing Instance terse_errors.

#[local] Instance node_sort : SortUnstable := some_sort.

Definition shard_at (index : Z) : DemoTxn * Ram :=
  let o := Engine_open shard_config index 2 open_maps None in (env_of o, ram_of o).

Definition node0 : list (DemoTxn * Ram) := [shard_at 0; shard_at 1].

Definition node_do (index : nat) (op : WriteOp) (shards : list (DemoTxn * Ram)) : list (DemoTxn * Ram) :=
  (submit shard_config shard_info shard_now index op shards).1.

(** The tag ["a"] on both shards, at different generations, and a key on each:
    ["j"] plain, ["k"] carrying the tag. *)
Definition tagged_record : RecordRef := record_of (mkMeta 0 0 NEVER 0) [mkTagRef 0 1] (bs "x").

Definition tagged_set (k : bytes) : PreparedSet :=
  mkPreparedSet k (header_bytes (header tagged_record) ++ tags_bytes (tags tagged_record) ++ bs "x")
    None Ttl_Keep (tags tagged_record) false None.

Definition node_history : list (nat * WriteOp) :=
  [ (0%nat, Op_CreateTags [(bs "a", 4)]); (1%nat, Op_CreateTags [(bs "a", 1)]);
    (0%nat, Op_Append (bs "j") (bs "2")); (1%nat, Op_Set [tagged_set (bs "k")]) ].

Definition node1 : list (DemoTxn * Ram) :=
  foldl (fun shards '(index, op) => node_do index op shards) node0 node_history.

Abbreviation node_agrees := (agrees shard_config shard_keys).

Lemma shard_at_agrees index : (index = 0 \/ index = 1) -> node_agrees (shard_at index).
Proof.
  intros Hi. assert (is_ok (Engine_open shard_config index 2 open_maps None) = true) as Hok
    by (destruct Hi as [-> | ->]; vm_compute; reflexivity).
  unfold shard_at. destruct (Engine_open shard_config index 2 open_maps None)
    as [[[env r] c]|e|why] eqn:Ho; [|discriminate Hok..]. cbn [env_of ram_of].
  apply (open_healthy shard_config index 2 shard_keys
    ltac:(destruct Hi; subst; width) ltac:(width) open_maps open_maps_law None env r c I Ho).
Qed.

Lemma node_do_agrees index op (shards : list (DemoTxn * Ram)) :
  Forall node_agrees shards -> op_ready shard_keys op ->
  match shards !! index with Some s => id_room (creations op) s | None => True end ->
  Forall node_agrees (node_do index op shards).
Proof.
  intros Ha Hop Hroom. unfold node_do.
  destruct (shards !! index) as [[env ram]|] eqn:Hs; [|by unfold submit; rewrite Hs].
  destruct (submit_ok shard_config shard_info shard_now shard_keys shard_keys_separate now_ok
    shards index op env ram Hs (Forall_lookup_1 _ _ _ _ Ha Hs) Hop Hroom) as (s' & H).
  destruct (submit _ _ _ _ _ _) as [shards' res]. destruct H as (-> & Hs' & _). by apply Forall_insert.
Qed.

Lemma node1_agrees : Forall node_agrees node1.
Proof.
  assert (Forall node_agrees node0) as H0.
  { apply Forall_cons; split; [|apply Forall_singleton]; apply shard_at_agrees; auto. }
  unfold node1, node_history. cbn [foldl].
  apply node_do_agrees; [apply node_do_agrees; [apply node_do_agrees; [apply node_do_agrees;
    [exact H0|repeat constructor; width|by vm_compute]|repeat constructor; width|by vm_compute]
    |by left|by vm_compute]| |by vm_compute].
  cbn. apply Forall_singleton. conjs; [by right|done|].
  exists tagged_record. unfold prepared_ok. conjs; [by vm_compute|done|done|done].
Qed.

Lemma node1_Inv : Forall (fun shard => Inv 1000 (view shard.1)) node1.
Proof. eapply Forall_impl; [exact node1_agrees|]. intros s Hs. exact (fl_inv _ _ _ _ _ Hs). Qed.

(** ** Reads *)

Lemma batch_reads_exact_witness :
  yields (T:=DemoTxn) (node_get_many shard_now node1 [bs "k"; bs "q"; bs "j"; bs "k"])
    [Some (mkValue (bs "x") 0 3 (Some 0)); None; Some (mkValue (bs "2") 0 2 (Some 0));
     Some (mkValue (bs "x") 0 3 (Some 0))].
Proof.
  destruct (batch_reads_exact 1000 shard_now node1 ltac:(done) node1_Inv
    [bs "k"; bs "q"; bs "j"; bs "k"]) as (_ & H & _).
  match type of H with yields _ ?x => replace x with
    [Some (mkValue (bs "x") 0 3 (Some 0)); None; Some (mkValue (bs "2") 0 2 (Some 0));
     Some (mkValue (bs "x") 0 3 (Some 0))] in H by (vm_compute; reflexivity) end.
  exact H.
Defined.

(** ** Writes *)

Lemma node1_length : length node1 = 2%nat.
Proof. vm_compute. reflexivity. Qed.

Lemma node1_nonempty : node1 <> [].
Proof. intros E. pose proof node1_length as H. rewrite E in H. discriminate H. Qed.

Lemma node_key_commands_witness :
  (append shard_config shard_info shard_now (bs "j") (bs "3") node1).2 = Ok 2
  /\ put_effect shard_config shard_now shard_keys (bs "j")
       (Cache.Store (record_of (mkMeta 0 0 NEVER 4) [] (bs "23"))) node1
       (append shard_config shard_info shard_now (bs "j") (bs "3") node1).1.
Proof.
  destruct (node_key_commands shard_config shard_info shard_now shard_keys shard_keys_separate now_ok
    (bs "j") node1 node1_nonempty node1_agrees (or_introl eq_refl)) as (_ & _ & H & _).
  specialize (H (bs "3")).
  assert ((append shard_config shard_info shard_now (bs "j") (bs "3") node1).2 = Ok 2) as Hok
    by (vm_compute; reflexivity).
  split; [exact Hok|].
  refine (proj2 (answered_ok _ _ _ _ _ _ _ _ _ 2 2 _ H Hok _)). vm_compute. reflexivity.
Defined.

(** A write that carries a tag its shard knows and one it does not. *)
Definition node_tagged_set : SetReq :=
  mkSet (bs "k") (bs "v") (Ttl_Set 60) 7 [bs "a"; bs "c"] SetMode_Set false.

Lemma tagged_set_ready : set_ready shard_keys node_tagged_set.
Proof. split; [by right|]. split; cbn; width. Qed.

Definition tagged_node : list (DemoTxn * Ram) :=
  (ensure_tags_registered shard_config shard_info shard_now [node_tagged_set] node1).1.

Lemma node1_two_names : Forall (fun s => next_id (ram_tags s.2) + 2 <= U32_MAX) node1.
Proof. apply (bool_decide_unpack _). vm_compute. exact I. Qed.


(** ** Listing *)

Lemma node1_keys : (fun shard => (map_to_list (v_main (view shard.1))).*1) <$> node1 = [[bs "j"]; [bs "k"]].
Proof. vm_compute. reflexivity. Qed.

Lemma node1_held i env ram k :
  node1 !! i = Some (env, ram) -> held (view env) k -> (i = 0%nat /\ k = bs "j") \/ (i = 1%nat /\ k = bs "k").
Proof.
  intros Hi [x Hk]. pose proof (list_lookup_fmap (fun shard => (map_to_list (v_main (view shard.1))).*1) node1 i) as H.
  rewrite node1_keys, Hi in H. cbn [fmap option_fmap option_map fst] in H.
  assert (k ∈ (map_to_list (v_main (view env))).*1) as Hin
    by (apply list_elem_of_fmap; exists (k, x); split; [done|by apply elem_of_map_to_list]).
  set (ks := (map_to_list (v_main (view env))).*1) in *. clearbody ks.
  destruct i as [|[|i]]; [injection H as <-|injection H as <-|discriminate H];
    apply list_elem_of_singleton in Hin; auto.
Qed.

Definition seen_at (index : nat) (k : bytes) : option (Z * Z) :=
  shard ← node1 !! index;
  rec ← seen shard_now (view shard.1) shard.2 k;
  Some (cas rec, expires_at_ms rec).

Lemma seen_at_inv index k c e :
  seen_at index k = Some (c, e) ->
  exists env ram rec, (env, ram) ∈ node1 /\ seen shard_now (view env) ram k = Some rec
    /\ cas rec = c /\ expires_at_ms rec = e.
Proof.
  unfold seen_at. destruct (node1 !! index) as [[env ram]|] eqn:Hn; [|intros [=]].
  cbn [mbind option_bind fst snd]. destruct (seen shard_now (view env) ram k) as [rec|] eqn:Hs; [|intros [=]].
  intros [= <- <-]. exists env, ram, rec. split; [by eapply list_elem_of_lookup_2|]. by split.
Qed.

Lemma listing_complete_witness :
  exists entries,
    yields (T:=DemoTxn) (walk 1 (bs "*") shard_now 100 node1 3 []) (Some entries)
    /\ mkListEntry (bs "k") 3 (Some 0) ∈ entries.
Proof.
  destruct (listing_complete 1 (bs "*") shard_now 100 node1 3) as (entries & Hw & _ & He).
  - vm_compute. discriminate.
  - intros env ram k [i Hi]%list_elem_of_lookup Hk.
    destruct (node1_held i env ram k Hi Hk) as [[_ ->]|[_ ->]]; vm_compute; split; discriminate.
  - intros i j e1 r1 e2 r2 k Hi Hj H1 H2.
    destruct (node1_held i e1 r1 k Hi H1) as [[-> ->]|[-> ->]],
      (node1_held j e2 r2 _ Hj H2) as [[-> E]|[-> E]]; (reflexivity || discriminate E).
  - apply Nat.ltb_lt. vm_compute. reflexivity.
  - exists entries. split; [exact Hw|]. apply He.
    destruct (seen_at_inv 1 (bs "k") 3 0) as (env & ram & rec & Hin & Hs & Hc & Hx);
      [vm_compute; reflexivity|].
    exists env, ram, rec. split; [exact Hin|]. split; [exact Hs|]. split; [vm_compute; reflexivity|].
    rewrite Hc, Hx. reflexivity.
Defined.

(** ** Invalidation *)

Definition node1_room : Forall (fun s => next_id (ram_tags s.2) + 1 <= U32_MAX) node1.
Proof. apply (bool_decide_unpack _). vm_compute. exact I. Qed.

Definition invalidated_node : list (DemoTxn * Ram) :=
  (delete_by_tag shard_config shard_info shard_now (bs "a") node1).1.

Lemma delete_by_tag_everywhere_witness :
  (delete_by_tag shard_config shard_info shard_now (bs "a") node1).2 = Ok (Some 5)
  /\ Forall node_agrees invalidated_node
  /\ forall s s' k, node1 !! 1%nat = Some s -> invalidated_node !! 1%nat = Some s' ->
       (forall rec, recs (view s.1) !! k = Some rec -> ~ carries (bs "a") (view s.1) rec) ->
       seen shard_now (view s'.1) s'.2 k = seen shard_now (view s.1) s.2 k.
Proof.
  pose proof (delete_by_tag_everywhere shard_config shard_info shard_now shard_keys
    shard_keys_separate now_ok (bs "a") node1 node1_agrees node1_room) as H.
  assert ((delete_by_tag shard_config shard_info shard_now (bs "a") node1).2 = Ok (Some 5)) as Hok
    by (vm_compute; reflexivity).
  split; [exact Hok|]. unfold invalidated_node.
  destruct (delete_by_tag _ _ _ _ _) as [node2 res]. cbn [fst snd] in *. subst res.
  destruct H as (_ & Ha & H). split; [exact Ha|]. intros s s' k Hs Hs'.
  destruct (H 1%nat s s' Hs Hs') as (_ & _ & Hspared). apply Hspared.
Defined.
