(* ===== verification/DemoVcp.v ===== *)
(** A server over the in-memory store of [Memory.v], and the protocol's theorems
    applied to it: a client's calls and a pipelined block of frames. *)

From S2P Require Import Prelude Bytes Text Core Record Glob Clock Arith Float Command Backend Apply Read.
From S2P Require Import Engine Cache Listing.
From S2P Require Import Vcp VcpEncode VcpClient VcpSpec VcpReply Auth Server ServerBatch ServerSpec ServerRef Memory MemorySpec.

#[local] Existing Instance small_floats.

(** The clock of the store, and of the server. *)
Definition demo_clock : Z := 1000.

#[local] Instance demo_ops : StoreOps Inner := memory_ops demo_clock.

#[local] Instance demo_total : StoreTotal Inner := memory_total demo_clock.

#[local] Instance demo_batch : StoreBatch Inner := memory_batch demo_clock.

(** ** A server *)

#[export] Instance mem_digest : Digest := { sha256 b := rev b }.

Definition demo_info : ServerInfo := mkServerInfo PROTOCOL_VERSION 1 250 4 0 255.

Definition demo_credentials : gmap bytes Credential :=
  {[ bs "app" := mkCredential Mechanism_Plain (rev (bs "secret")) None Roles_READ false ]}.

Definition demo_conf (required : bool) : ServerConf :=
  mkServerConf demo_info (mkProtocol false false 0) (mkAuth required demo_credentials)
    (mkClusterInfo Mode_Local []) [] (bs "1").

Definition demo_memory : Inner := mkInner {[ bs "k" := mkEntry (bs "v") 0 7 NEVER 0 [] ]} ∅ 0 0 7.

Definition demo_server : Server Inner := mkServer demo_memory [].

Definition demo_set (key value : String.string) : SetReq :=
  mkSet (bs key) (bs value) (Ttl_Set 0) 0 [] SetMode_Set false.

Definition request_of (id : Z) (c : Command) : bytes :=
  match client_request c with Some (op, body) => encode_request [] op id body | None => [] end.

(** Two writes of one key, a read, a batch, an opcode nobody knows, and the
    first byte of a frame that has not arrived. *)
Definition demo_block : bytes :=
  request_of 1 (Cmd_Set (demo_set "a" "1")) ++ request_of 2 (Cmd_Set (demo_set "a" "12345"))
  ++ request_of 3 (Cmd_Get (bs "a")) ++ request_of 4 (Cmd_GetMany (KeyList_Many [bs "k"; bs "b"]))
  ++ FrameHeader_bytes (mkFrameHeader 255 0 0 5 0) ++ [Byte.x10].

(** ** Calls *)

Lemma vcp_request_roundtrip_witness :
  let frame := request_of 7 (Cmd_Set (demo_set "a" "1")) in
  decode (frame ++ [Byte.x10])
  = Ok (Decoded_Request (mkRequest 7 Opcode_Set false (Cmd_Set (demo_set "a" "1"))) (len frame))
  /\ peek_frame_len (frame ++ [Byte.x10]) = FrameLen_Complete (len frame)
  /\ skipn (length frame) (frame ++ [Byte.x10]) = [Byte.x10].
Proof.
  apply (vcp_request_roundtrip (Cmd_Set (demo_set "a" "1")) Opcode_Set
    (encode_set_body [] (bs "a") (bs "1") 0 []) 7 [Byte.x10]); [reflexivity| |by vm_compute|by vm_compute].
  unfold wire_ok, set_ok. conjs; [by vm_compute|by vm_compute|exists 0; by vm_compute|reflexivity..|constructor|by vm_compute].
Defined.

Definition demo_exec (c : Command) : Result Status Reply :=
  map_err fd_status (execute (demo_conf false) c demo_server).2.

Lemma vcp_call_exact_witness :
  call (respond demo_exec) (mkClient [] 9) (Cmd_Get (bs "k"))
  = (mkClient [] 10, Ok (Answer_Value (Some (mkValue (bs "v") 0 7 None))))
  /\ call (respond demo_exec) (mkClient [] 9) Cmd_Flush = (mkClient [] 10, Err (CE_Status Status_Unauthorized)).
Proof.
  split.
  - pose proof (vcp_call_exact demo_exec (mkClient [] 9) (Cmd_Get (bs "k")) Opcode_Get (bs "k") eq_refl
      ltac:(by vm_compute) ltac:(by vm_compute) eq_refl ltac:(by vm_compute)) as H.
    assert (demo_exec (Cmd_Get (bs "k")) = Ok (Reply_Value (mkValue (bs "v") 0 7 (Some NEVER)))) as E by (vm_compute; reflexivity).
    cbv zeta in H. rewrite E in H. apply H; [reflexivity|by vm_compute|by vm_compute].
  - pose proof (vcp_call_exact demo_exec (mkClient [] 9) Cmd_Flush Opcode_Flush [] eq_refl I
      ltac:(by vm_compute) eq_refl ltac:(by vm_compute)) as H.
    assert (demo_exec Cmd_Flush = Err Status_Unauthorized) as E by (vm_compute; reflexivity).
    cbv zeta in H. rewrite E in H. by apply H.
Defined.

(** ** Blocks *)

Lemma vcp_block_answers_witness :
  exists frames tail resps,
    cut demo_block frames tail /\ Forall2 answered frames resps
    /\ (execute_vcp_block (demo_conf false) demo_clock demo_server ConnAuth_default demo_block []).2 = [] ++ mjoin resps.
Proof. exact (vcp_block_answers (demo_conf false) demo_clock demo_server ConnAuth_default demo_block []). Defined.

Lemma vcp_block_sequential_witness :
  exists frames tail,
    cut demo_block frames tail
    /\ execute_vcp_block (demo_conf false) demo_clock demo_server ConnAuth_default demo_block []
       = (let c := foldl (execute_plainly (demo_conf false) demo_clock) (mkConn demo_server ConnAuth_default [] [])
            (frame_bytes <$> frames) in (cn_server c, cn_auth c, cn_out c)).
Proof. exact (vcp_block_sequential (demo_conf false) demo_clock demo_server ConnAuth_default demo_block []). Defined.

(** What the block is answered: stored under tokens 8 and 9, the value of the
    second write, a hit and a miss, an unknown opcode. *)
Example demo_block_answer :
  (execute_vcp_block (demo_conf false) demo_clock demo_server ConnAuth_default demo_block []).2
  = encode_reply [] Opcode_Set 1 (Reply_Stored (Stored_Stored 8))
    ++ encode_reply [] Opcode_Set 2 (Reply_Stored (Stored_Stored 9))
    ++ encode_reply [] Opcode_Get 3 (Reply_Value (mkValue (bs "12345") 0 9 None))
    ++ encode_reply [] Opcode_GetMany 4 (Reply_Values [Some (mkValue (bs "v") 0 7 None); None])
    ++ encode_error [] 255 5 Status_Unsupported.
Proof. vm_compute. reflexivity. Qed.

(** ** Authorisation *)

Definition delete_frame : Frame := (FrameHeader_request Opcode_Delete 6 1, bs "k").

Definition reader : ConnAuth := mkConnAuth (Some (mkIdentity (bs "app") Roles_READ)) 0.

Lemma delete_frame_whole : whole delete_frame.
Proof. unfold whole, header_fits. by vm_compute. Qed.

Lemma vcp_gate_exact_witness :
  let c := mkConn demo_server reader [] [] in
  execute_frame_batched (demo_conf true) demo_clock c (frame_bytes delete_frame) = push_error c 18 6 Status_Unauthorized.
Proof.
  destruct (vcp_gate_exact (demo_conf true) demo_clock (mkConn demo_server reader [] []) delete_frame
    (mkRequest 6 Opcode_Delete false (Cmd_Delete (bs "k"))) 13 delete_frame_whole eq_refl) as [_ H].
  destruct H as [_ H]; [|exact H]. intros Hm. specialize (Hm Role_Write (needs_delete _)). vm_compute in Hm. discriminate Hm.
Defined.

Lemma vcp_unauthenticated_inert_witness :
  let '(s', conn', _) :=
    execute_vcp_block (demo_conf true) demo_clock demo_server ConnAuth_default (frame_bytes delete_frame) [] in
  s' = demo_server /\ ca_identity conn' = None.
Proof.
  apply (vcp_unauthenticated_inert (demo_conf true) demo_clock demo_server ConnAuth_default (frame_bytes delete_frame) []);
    [reflexivity..|].
  intros frames tail Hc. rewrite <- (app_nil_r (frame_bytes delete_frame)) in Hc.
  apply cut_cons in Hc as (frames' & -> & [-> ->]%cut_nil); [|exact delete_frame_whole].
  repeat constructor. intros (id & auth & n & Hd & _). discriminate Hd.
Defined.

(** ** An offset that is not converted

    Thirty-one days, from a clock in 2001: [SET] hands the store an absolute
    stamp, [ARITHMETIC] the bare offset - which the store reads as a stamp in
    January 1970, long past. *)
Definition month_and_a_day : Z := 31 * 86400.

Definition clock_2001 : Z := 1000000000000.

Example arithmetic_offset_unconverted :
  offsets_to_store_ttls clock_2001
    (Cmd_Set (mkSet (bs "n") (bs "1") (Ttl_Set month_and_a_day) 0 [] SetMode_Set false))
  = Cmd_Set (mkSet (bs "n") (bs "1") (Ttl_Set (1000000000 + month_and_a_day)) 0 [] SetMode_Set false)
  /\ let op := mkArithmetic (bs "n") (Delta_Counter 1 false) OnBound_Fail Missing_CreateAtZero (Ttl_Set month_and_a_day) in
     offsets_to_store_ttls clock_2001 (Cmd_Arithmetic op) = Cmd_Arithmetic op
     /\ expiry_from_ttl clock_2001 (1000000000 + month_and_a_day) = clock_2001 + month_and_a_day * 1000
     /\ expiry_from_ttl clock_2001 month_and_a_day = month_and_a_day * 1000
     /\ month_and_a_day * 1000 < clock_2001.
Proof. by vm_compute. Qed.

(** A malformed frame that asked for no reply is answered all the same. *)
Example malformed_no_reply_answered :
  (execute_vcp_block (demo_conf false) demo_clock demo_server ConnAuth_default
     (FrameHeader_bytes (mkFrameHeader (Opcode_code Opcode_Get) flags_NO_REPLY 0 3 0)) []).2
  = encode_error [] 16 3 Status_BadRequest.
Proof. vm_compute. reflexivity. Qed.

(** ** The in-memory store *)

Lemma demo_memory_ok : Inner_ok demo_memory.
Proof.
  split; cbn; [done|..].
  - intros name st. by rewrite lookup_empty.
  - intros a b st st'. by rewrite lookup_empty.
  - intros key e [[_ <-]|[_ H]]%lookup_insert_Some; [constructor|]. by rewrite lookup_empty in H.
Qed.

(** One entry under a tag at generation 3. *)
Definition tagged_memory : Inner :=
  mkInner {[ bs "k" := mkEntry (bs "v") 0 1 NEVER 0 [(0, 3)] ]} {[ bs "a" := mkTagState 0 3 ]} 1 0 1.

Lemma tagged_memory_ok : Inner_ok tagged_memory.
Proof.
  split; cbn; [done|..].
  - intros name st [_ <-]%lookup_singleton_Some. cbn. lia.
  - by intros a b st st' [<- _]%lookup_singleton_Some [<- _]%lookup_singleton_Some.
  - intros key e [_ <-]%lookup_singleton_Some. repeat constructor; cbn; lia.
Qed.

Lemma memory_refines_cache_witness :
  (let '(m', a) := memory_append demo_clock demo_memory (bs "k") (bs "w") in
   follows demo_clock
     (spec_append (mkConfig 4 1000 0 1) 0 8 (bs "w") (memory_seen demo_clock demo_memory (bs "k")))
     (bs "k") demo_memory m' a /\ Inner_ok m')
  /\ is_Some (memory_seen demo_clock tagged_memory (bs "k"))
  /\ let '(m', a) := memory_delete_by_tag tagged_memory (bs "a") in
     a = Ok (Some 4) /\ memory_seen demo_clock m' (bs "k") = None.
Proof.
  destruct (memory_refines_cache demo_clock (mkConfig 4 1000 0 1) demo_memory demo_memory_ok) as (_ & _ & _ & H & _).
  split; [apply (H (bs "k") (bs "w"))|].
  destruct (memory_refines_cache demo_clock (mkConfig 4 1000 0 1) tagged_memory tagged_memory_ok)
    as (_ & _ & _ & _ & _ & _ & _ & Hd & _). specialize (Hd (bs "a")).
  split; [eexists; vm_compute; reflexivity|].
  destruct (memory_delete_by_tag tagged_memory (bs "a")) as [m' a].
  destruct Hd as (Ha & Hne & Hm). split; [exact Ha|].
  eapply (tm_hides _ _ _ _ _ Hm (mkTagState 0 3));
    [reflexivity|exact Hne|vm_compute; reflexivity|exists (mkTagRef 0 3); split; [by left|reflexivity]].
Defined.

(** A page cut short by its budget names the key it has not looked at as the
    last one seen: the next page starts after it, and no page has it. *)
Definition two_keys : Inner :=
  mkInner {[ bs "a" := mkEntry [] 0 1 NEVER 0 []; bs "b" := mkEntry [] 0 2 NEVER 0 [] ]} ∅ 0 0 2.

Example budget_loses_a_key :
  exists cursor,
    memory_list_keys demo_clock two_keys (mkListRequest 10 [] (bs "*")) 1
      = Ok (mkListing [ListEntry_record (bs "a") 1 NEVER] 1 (Some cursor) true)
    /\ memory_list_keys demo_clock two_keys (mkListRequest 10 cursor (bs "*")) 1 = Ok Listing_default.
Proof. exists (cursor_encode 0 (bs "b")). split; vm_compute; reflexivity. Qed.
