(* ===== verification/DemoMc.v ===== *)
(** The memcached theorems applied to a server over the in-memory store, and
    what the two dialects do that their descriptions do not say. *)

From S2P Require Import Prelude Bytes Text Core Record Glob Clock Arith Float Command Backend Apply Read.
From S2P Require Import Tags Engine Listing Vcp VcpEncode Auth Server ServerBatch ServerSpec Memory MemorySpec.
From S2P Require Import Mc McEncode McServer McSpec McTrip McServerSpec DemoVcp.

#[local] Existing Instance small_floats.
#[local] Existing Instance demo_ops.
#[local] Existing Instance demo_total.
#[local] Existing Instance demo_batch.

#[local] Instance demo_listing : StoreListing Inner := memory_listing demo_clock.

Definition no_stats (_ : StatsSection) (_ : bool) : list (bytes * bytes) := [].

Definition line (s : String.string) : bytes := bs s ++ CRLF.

Definition run_block (required : bool) (block : bytes) : bytes :=
  let '(_, _, out, _) :=
    execute_memcached_block (demo_conf required) demo_clock no_stats demo_server ConnAuth_default block false [] in out.

(** ** The grammar *)

Lemma mc_request_roundtrip_witness :
  let request := line "set a 0 0 5" ++ line "12345" in
  mc_parse (request ++ bs "get")
  = Ok (Mc_Command (mkParsed (Cmd_Set (demo_set "a" "12345")) (length request) false Style_Storage)).
Proof.
  destruct (mc_request_roundtrip (Cmd_Set (demo_set "a" "12345")) false (bs "get")) as (verb & args & data & style & E & H).
  - split; [split; [by vm_compute|by apply Forall_singleton]|]. split; [by vm_compute|].
    split; [exists 0; split; [reflexivity|by vm_compute]|]. split; [by vm_compute|]. split; [constructor|]. by vm_compute.
  - split; [done|]. left. by vm_compute.
  - cbn in E. injection E as <- <- <- <-. exact H.
Defined.

(** A block of both dialects: two writes of one key, a read of two keys, a
    refused line, and a command that has not arrived. *)
Definition mc_block : bytes :=
  line "set a 0 0 1" ++ line "1" ++ line "set a 0 0 5" ++ line "12345"
  ++ line "gets k a" ++ line "frobnicate" ++ line "mg k v s" ++ bs "get".

Lemma memcached_block_sequential_witness :
  exists items tail,
    mc_cut mc_block items tail
    /\ (forall items' tail', mc_cut mc_block items' tail' -> items' = items /\ tail' = tail)
    /\ execute_memcached_block (demo_conf false) demo_clock no_stats demo_server ConnAuth_default mc_block false []
       = (let '(c, closing) :=
            run (item_plainly (demo_conf false) demo_clock no_stats false) (mkConn demo_server ConnAuth_default [] []) items in
          (cn_server c, cn_auth c, cn_out c, closing)).
Proof. exact (memcached_block_sequential (demo_conf false) demo_clock no_stats false demo_server ConnAuth_default mc_block []). Defined.

Example mc_block_answer :
  run_block false mc_block
  = line "STORED" ++ line "STORED"
    ++ line "VALUE k 0 1 7" ++ line "v" ++ line "VALUE a 0 5 9" ++ line "12345" ++ line "END"
    ++ line "ERROR" ++ line "VA 1 s1" ++ line "v".
Proof. vm_compute. reflexivity. Qed.

(** ** Authorisation *)

Definition flush_parsed : Parsed := mkParsed Cmd_Flush 11 false Style_Ok.

Lemma memcached_gate_exact_witness :
  let c := mkConn demo_server reader [] [] in
  let '(c', closing) := execute_parsed (demo_conf true) demo_clock no_stats c flush_parsed false in
  cn_server c' = demo_server /\ closing = Closing_No /\ cn_out c' = line "CLIENT_ERROR unauthorized".
Proof.
  exact (memcached_gate_exact (demo_conf true) demo_clock no_stats false (mkConn demo_server reader [] []) flush_parsed).
Defined.

Lemma memcached_unauthenticated_inert_witness :
  let '(s', conn', _, _) :=
    execute_memcached_block (demo_conf true) demo_clock no_stats demo_server ConnAuth_default (line "flush_all") false [] in
  s' = demo_server /\ ca_identity conn' = None.
Proof.
  apply (memcached_unauthenticated_inert (demo_conf true) demo_clock no_stats false demo_server ConnAuth_default
    (line "flush_all") []); [reflexivity..|].
  assert (mc_parse (line "flush_all") = Ok (Mc_Command flush_parsed)) as E by (vm_compute; reflexivity).
  intros items tail Hc%mc_cut_inv. rewrite E in Hc.
  destruct Hc as (more & -> & Hc%mc_cut_inv).
  assert (drop (pa_consumed flush_parsed) (line "flush_all") = []) as En by (vm_compute; reflexivity).
  rewrite En in Hc. destruct Hc as [-> _].
  repeat constructor. intros (set & name & secret & Hs & _). discriminate Hs.
Defined.

(** Signing in: the name and the secret are the data block. *)
Example signing_in :
  run_block true (line "get k" ++ line "set x 0 0 10" ++ line "app secret" ++ line "get k")
  = line "CLIENT_ERROR unauthenticated" ++ line "STORED" ++ line "VALUE k 0 1" ++ line "v" ++ line "END".
Proof. vm_compute. reflexivity. Qed.

(** ** Dumps *)

Definition listing_conf : ServerConf :=
  mkServerConf demo_info (mkProtocol false true 100) (mkAuth false ∅) (mkClusterInfo Mode_Local []) [] (bs "1").

Lemma memcached_dump_ends_witness :
  let '(s', out', r) := execute_dump listing_conf (mkDump DumpStyle_Meta true) demo_server [] in
  s' = demo_server /\ dump_ended DumpStyle_Meta DUMP_ACK out' r.
Proof.
  exact (memcached_dump_ends listing_conf (mkDump DumpStyle_Meta true) demo_server []
    (conj (proj1 (Z.leb_le 0 100) eq_refl) (proj1 (Z.ltb_lt 100 (2 ^ 63 - 1)) eq_refl))).
Defined.

Example dump_answer :
  execute_dump listing_conf (mkDump DumpStyle_Meta true) demo_server []
  = (demo_server, line "OK" ++ bs "key=k exp=-1 cas=7 cls=1 " ++ [LF] ++ line "END", Ok ()).
Proof. vm_compute. reflexivity. Qed.

(** ** What the descriptions do not say *)

(** A key that is the word [noreply] silences the command that writes it. *)
Example a_key_that_silences :
  run_block false (line "set noreply 0 0 1" ++ line "1" ++ line "get noreply")
  = line "VALUE noreply 0 1" ++ line "1" ++ line "END".
Proof. vm_compute. reflexivity. Qed.

(** A refused [ms] leaves its data block in the stream, where it is read as
    commands; the classic grammar promises that no refusal does. *)
Example a_data_block_run_as_commands :
  run_block false (line "ms k 7 N" ++ line "version")
  = line "CLIENT_ERROR unsupported flag" ++ line "VERSION 1.6.38-vash".
Proof. vm_compute. reflexivity. Qed.

(** [q] silences a hit, not only a miss. *)
Example a_quiet_hit : run_block false (line "mg k v q") = [].
Proof. vm_compute. reflexivity. Qed.

(** [md] with a token that does not match deletes all the same. *)
Example a_guard_ignored : run_block false (line "md k C999" ++ line "get k") = line "HD" ++ line "END".
Proof. vm_compute. reflexivity. Qed.

(** Return flags come in an order of the server's own. *)
Example flags_reordered : run_block false (line "mg k s f") = line "HD f0 s1".
Proof. vm_compute. reflexivity. Qed.

(** An absolute deadline past 2106 is read as one already past. *)
Example a_far_deadline : exptime_of 4294967296 = IMMEDIATELY_EXPIRED.
Proof. reflexivity. Qed.

(** A line longer than the limit is taken when its newline came with it. *)
Example a_long_line :
  mc_parse (bs "version" ++ repeat SPACE (Z.to_nat MAX_LINE_LEN) ++ [LF])
  = Ok (Mc_Command (mkParsed Cmd_Version (Z.to_nat (MAX_LINE_LEN + 8)) false Style_Version)).
Proof. vm_compute. reflexivity. Qed.
