(* ===== verification/DemoResp.v ===== *)
(** The Redis theorems applied to a server over the in-memory store, and what
    the dialect does that its descriptions do not say. *)

From S2P Require Import Prelude Bytes Text Core Record Glob Clock Arith Float Command Backend Apply Read.
From S2P Require Import Tags Engine Listing Vcp VcpEncode Auth Server ServerBatch ServerSpec Memory MemorySpec.
From S2P Require Import Resp RespCommand RespParse RespTrip RespEncode Scan.
From S2P Require Import RespServer RespServerSpec RespGate DemoVcp.

#[local] Delimit Scope string_scope with str.

#[local] Existing Instance small_floats.
#[local] Existing Instance demo_ops.
#[local] Existing Instance demo_total.
#[local] Existing Instance demo_batch.

#[local] Instance demo_build : BuildInfo := {|
  bi_os := bs "Linux"; bi_arch := bs "x86_64"; bi_version := bs "0.1.0"; bi_two_decimals _ := bs "0.00"
|}.

(** Words as a client sends them. *)
Definition say (l : list String.string) : bytes := request (bs <$> l).

Definition line (s : String.string) : bytes := bs s ++ CRLF.

Definition cursors0 : ScanCursors := ScanCursors_new 4 60000.

Definition conn0 (server : Server Inner) (auth : ConnAuth) : RespConn :=
  mkRespConn (mkConn server auth [] []) Resp2 cursors0.

Definition run_resp (required : bool) (block : bytes) : RespConn * Ended :=
  execute_resp_block (demo_conf required) demo_clock 0 (conn0 demo_server ConnAuth_default) block.

Definition answer_to (required : bool) (block : bytes) : bytes := rc_out (run_resp required block).1.

(** ** The grammar *)

Definition demo_resp_set : RespCommand :=
  RC_Set (mkRespSet (bs "a") (bs "1") Cond_IfAbsent (Expiry_After 5000) false [] false).

Lemma resp_request_roundtrip_witness :
  let sent := empties 1 ++ request (words demo_resp_set) in
  words demo_resp_set = bs <$> ["SET"; "a"; "1"; "NX"; "PX"; "5000"]%str
  /\ resp_parse (sent ++ bs "*1") = Ok (Resp_Command (mkRespParsed demo_resp_set (length sent))).
Proof.
  split; [vm_compute; reflexivity|].
  pose proof (resp_request_roundtrip demo_resp_set 1 (bs "*1")) as H. cbv zeta. rewrite <- app_assoc. apply H.
  - cbn [resp_command demo_resp_set rs_expiry rs_tags]. split; [by vm_compute|]. split; [done|]. split; [constructor|by vm_compute].
  - done.
  - split; [done|]. split; [by vm_compute|]. repeat constructor; by vm_compute.
Defined.

(** ** Blocks *)

(** Two writes of one key, a read, an unknown command, a refused one, and a
    command that has not arrived. *)
Definition resp_block : bytes :=
  say ["SET"; "a"; "1"]%str ++ say ["SET"; "a"; "12345"]%str ++ say ["MGET"; "a"; "b"; "k"]%str
  ++ say ["FROB"]%str ++ say ["GET"]%str ++ line "*1" ++ bs "$4".

Lemma resp_block_sequential_witness :
  exists items tail,
    resp_cut resp_block items tail
    /\ (forall items' tail', resp_cut resp_block items' tail' -> items' = items /\ tail' = tail)
    /\ let '(c', closing) := resp_items (resp_plainly (demo_conf false) demo_clock 0) (conn0 demo_server ConnAuth_default) items in
       match ended tail closing with
       | Ended_Abort => (run_resp false resp_block).2 = Ended_Abort
       | over => run_resp false resp_block = (c', over)
       end.
Proof. apply (resp_block_sequential (demo_conf false) demo_clock 0 (conn0 demo_server ConnAuth_default) resp_block). reflexivity. Defined.

Example resp_block_answer :
  answer_to false resp_block
  = line "+OK" ++ line "+OK" ++ line "*3" ++ line "$5" ++ line "12345" ++ line "$-1" ++ line "$1" ++ line "v"
    ++ line "-ERR unknown command 'FROB'" ++ line "-ERR wrong number of arguments for 'get' command".
Proof. vm_compute. reflexivity. Qed.

(** ** Authorisation *)

Lemma one_command words c :
  resp_parse words = Ok (Resp_Command (mkRespParsed c (length words))) ->
  forall items tail, resp_cut words items tail -> items = [RItem_Command c].
Proof.
  intros E items tail Hc%resp_cut_inv. rewrite E in Hc. cbn [rp_consumed rp_command] in Hc.
  destruct Hc as (more & -> & Hc%resp_cut_inv). rewrite drop_all in Hc. by destruct Hc as [-> _].
Qed.

Lemma resp_unauthenticated_inert_witness :
  unmoved (conn0 demo_server ConnAuth_default) (run_resp true (say ["DEL"; "k"]%str)).1
  /\ answer_to true (say ["DEL"; "k"]%str) = line "-NOAUTH Authentication required.".
Proof.
  split; [|vm_compute; reflexivity].
  apply (resp_unauthenticated_inert (demo_conf true) demo_clock 0 (conn0 demo_server ConnAuth_default) (say ["DEL"; "k"]%str));
    [reflexivity..|].
  intros items tail ->%(one_command _ (RC_Delete [bs "k"])); [|vm_compute; reflexivity].
  repeat constructor. by intros [].
Defined.

Lemma resp_gate_exact_witness :
  let '(c', closing) := resp_execute (demo_conf true) demo_clock 0 (conn0 demo_server reader) (RC_Delete [bs "k"]) in
  closing = Closing_No /\ unmoved (conn0 demo_server reader) c'.
Proof.
  pose proof (resp_gate_exact (demo_conf true) demo_clock 0 (conn0 demo_server reader) (RC_Delete [bs "k"]) ltac:(done)) as H.
  cbv zeta in H. destruct (resp_execute _ _ _ _ _) as [c' closing]. destruct H as (H1 & _ & H2 & _). split; [done|].
  apply H2. vm_compute. discriminate.
Defined.

Lemma resp_reader_writes_nothing_witness :
  cn_server (rc_conn (execute_resp_block (demo_conf true) demo_clock 0 (conn0 demo_server reader) (say ["DEL"; "k"]%str)).1) = demo_server.
Proof.
  apply (resp_reader_writes_nothing (demo_conf true) demo_clock 0 (conn0 demo_server reader) (say ["DEL"; "k"]%str)).
  - exists (mkIdentity (bs "app") Roles_READ). by vm_compute.
  - reflexivity.
  - intros items tail ->%(one_command _ (RC_Delete [bs "k"])); [|vm_compute; reflexivity].
    repeat constructor. by intros [].
Defined.

Lemma classify_exact_witness :
  let args := bs <$> ["ping"; "hello"]%str in
  classify args = Run_Reads
  /\ inline_safe (RC_Ping (Some (bs "hello"))) = true
  /\ cn_server (rc_conn (resp_execute (demo_conf false) demo_clock 0 (conn0 demo_server ConnAuth_default)
                           (RC_Ping (Some (bs "hello")))).1) = demo_server.
Proof.
  destruct (classify_exact (demo_conf false) demo_clock 0 26 (bs <$> ["ping"; "hello"]%str)
    (mkRespParsed (RC_Ping (Some (bs "hello"))) 26) (conn0 demo_server ConnAuth_default)) as (H1 & H2 & _).
  - vm_compute. reflexivity.
  - assert (classify (bs <$> ["ping"; "hello"]%str) = Run_Reads) as E by (vm_compute; reflexivity).
    split; [exact E|]. split; [by apply H1|by apply H2].
Defined.

(** Signing in, and negotiating the version on the way. *)
Example resp_signing_in :
  answer_to true (say ["GET"; "k"]%str ++ say ["AUTH"; "app"; "secret"]%str ++ say ["GET"; "k"]%str ++ say ["DEL"; "k"]%str)
  = line "-NOAUTH Authentication required." ++ line "+OK" ++ line "$1" ++ line "v"
    ++ line "-NOPERM this user has no permissions to run the 'del' command".
Proof. vm_compute. reflexivity. Qed.

(** ** Time *)


(** ** Scans *)

Definition scan_conf : ServerConf :=
  mkServerConf demo_info (mkProtocol false true 100) (mkAuth false ∅) (mkClusterInfo Mode_Local []) [] (bs "1").

Definition two_keys : Server Inner :=
  mkServer (mkInner {[ bs "j" := mkEntry (bs "u") 0 6 NEVER 0 []; bs "k" := mkEntry (bs "v") 0 7 NEVER 0 [] ]} ∅ 0 0 7) [].

Definition entry_j : ListEntry := ListEntry_record (bs "j") 6 NEVER.
Definition entry_k : ListEntry := ListEntry_record (bs "k") 7 NEVER.

Lemma cursors0_Table : Table cursors0.
Proof. split; cbn; [constructor|constructor|by vm_compute|lia]. Qed.

Lemma scan_token_lives_witness :
  resolve (issues (issue cursors0 (bs "j") 0).2 [(bs "k", 10); (bs "l", 20)]) 1 59999 = Some (bs "j").
Proof.
  pose proof (scan_token_lives cursors0 (bs "j") 0 [(bs "k", 10); (bs "l", 20)] 59999 cursors0_Table) as H.
  destruct (issue cursors0 (bs "j") 0) as [token c1] eqn:E. vm_compute in E. injection E as <- <-.
  destruct H as (_ & _ & H & _); [by vm_compute|cbn; lia|rewrite !Forall_cons, Forall_nil; by vm_compute|by vm_compute|exact H].
Defined.

(** The first key goes and a third one comes while the iteration is on. *)
Definition changed_keys : Inner :=
  mkInner {[ bs "k" := mkEntry (bs "v") 0 7 NEVER 0 []; bs "m" := mkEntry (bs "w") 0 8 NEVER 0 [] ]} ∅ 0 0 8.

Definition entry_m : ListEntry := ListEntry_record (bs "m") 8 NEVER.

Lemma scan_iteration_ends_witness :
  scan_iteration scan_conf [] 1 [sv_store two_keys; changed_keys; changed_keys] START (conn0 two_keys ConnAuth_default) 0
    [[entry_j]; [entry_k]; [entry_m]; []].
Proof.
  apply (scan_iteration_ends scan_conf [] 1 (conn0 two_keys ConnAuth_default) 0).
  - by left.
  - reflexivity.
  - exact cursors0_Table.
  - by vm_compute.
  - cbn. lia.
  - by vm_compute.
  - eapply (pages_more _ _ _ _ _ _ _ (mkListing [entry_j] _ _ _)); [vm_compute; reflexivity..|].
    eapply (pages_more _ _ _ _ _ _ _ (mkListing [entry_k] _ _ _)); [vm_compute; reflexivity..|].
    eapply (pages_more _ _ _ _ _ _ _ (mkListing [entry_m] _ _ _)); [vm_compute; reflexivity..|].
    eapply (pages_last _ _ _ _ _ (mkListing [] _ _ _)); [vm_compute; reflexivity..].
Defined.

(** ** What the descriptions do not say *)

(** Two pairs and nothing after them: the parser reads past its arguments, and
    the process ends, before anybody has authenticated. *)
Example msettags_ends_the_process :
  (run_resp true (say ["MSETTAGS"; "2"; "a"; "1"; "b"; "2"]%str)).2 = Ended_Abort.
Proof. vm_compute. reflexivity. Qed.

(** A header line longer than the limit is taken when its newline came with it,
    and refused when it did not. *)
Definition long_header : bytes := bs "*" ++ repeat "0"%byte 40 ++ bs "1".

Example a_long_header :
  resp_parse (long_header ++ CRLF ++ bulk_of (bs "PING")) = Ok (Resp_Command (mkRespParsed (RC_Ping None) 54))
  /\ resp_parse long_header = Err (Resp_Fatal MULTIBULK).
Proof. by vm_compute. Qed.

(** Bounds that cross as integers and not as floats are taken. *)
Example crossed_bounds :
  exists parsed,
    resp_parse (say ["INCREX"; "k"; "BYINT"; "1"; "LBOUND"; "9007199254740993"; "UBOUND"; "9007199254740992"]%str)
    = Ok (Resp_Command parsed).
Proof. eexists. vm_compute. reflexivity. Qed.

(** [EX 60] and [TTL] at once, at half past a second. *)
Example ttl_of_a_minute :
  ttl_answer 1700000000500 (Some (expiry_from_ttl 1700000000500 (ttl_from_deadline (1700000000500 + 60000) 1700000000500))) = 61.
Proof. reflexivity. Qed.

(** Two threads draw tokens in one order and record them in the other: the
    search does not find the second, which is in the table and young. *)
Example a_race_loses_a_token :
  exists c, races 0 (mkRacing cursors0 []) (mkRacing c [])
    /\ en_token <$> cu_live c = [2; 1] /\ resolve c 2 0 = None.
Proof.
  eexists. split.
  - eapply races_step; [apply (race_draw 0 cursors0 [] (bs "j"))|].
    eapply races_step; [apply race_draw with (cursor := bs "k")|].
    eapply races_step; [apply (race_record 0 _ [mkScanEntry 1 (bs "j") 0] (mkScanEntry 2 (bs "k") 0) [])|].
    eapply races_step; [apply (race_record 0 _ [] (mkScanEntry 1 (bs "j") 0) [])|]. constructor.
  - by vm_compute.
Qed.
