(* ===== verification/DemoConn.v ===== *)
(** The connection theorems applied to a server over the in-memory store, and
    what the runs of a block can show. *)

From S2P Require Import Prelude Bytes Text Core Record Glob Clock Arith Float Command Backend Apply Read.
From S2P Require Import Tags Engine Listing Vcp VcpEncode Auth Server ServerBatch ServerSpec Memory MemorySpec.
From S2P Require Import Mc McEncode McServer McSpec McServerSpec.
From S2P Require Import Resp RespCommand RespParse RespEncode Scan RespServer RespServerSpec RespGate.
From S2P Require Import Conn ConnSpec ConnDialects ConnStream DemoVcp DemoMc DemoResp.

#[local] Delimit Scope string_scope with str.

#[local] Existing Instance small_floats.
#[local] Existing Instance demo_ops.
#[local] Existing Instance demo_total.
#[local] Existing Instance demo_batch.
#[local] Existing Instance demo_build.
#[local] Instance demo_in_order : StoreInOrder Inner := memory_in_order demo_clock.

(** Reads of up to four commands run on the worker. *)
Definition inline_tier : Tier := mkTier true 4.

Definition pooled_tier : Tier := mkTier false 4.

Definition demo_limits : HandleConf := mkHandleConf 65536 30000 3 true true.

Definition fresh : Handle := Handle_new demo_server None cursors0 false.

Definition speaking (dialect : Dialect) (auth : ConnAuth) : Handle :=
  mkHandle demo_server auth [] (Some dialect) Resp2 cursors0 false.

(** ** Tiers *)

Definition mc_stream : bytes := line "set a 0 0 1" ++ line "1" ++ line "set a 0 0 5" ++ line "12345" ++ line "gets a" ++ bs "get".

Definition mc_items : list Item :=
  [ Item_Command (mkParsed (Cmd_Set (demo_set "a" "1")) 16 false Style_Storage);
    Item_Command (mkParsed (Cmd_Set (demo_set "a" "12345")) 20 false Style_Storage);
    Item_Command (mkParsed (Cmd_GetMany (KeyList_One (bs "a"))) 8 false (Style_Retrieval true)) ].

Lemma mc_stream_sliced : sliced mc_scan mc_stream mc_items (bs "get").
Proof.
  unfold mc_items. do 3 (eapply sliced_item; [apply command_settled; vm_compute; reflexivity|]).
  apply sliced_tail. by vm_compute.
Qed.

Lemma tiers_invisible_witness :
  drained (mc_step (demo_conf false) demo_clock no_stats) mc_wire None (fun out _ => out)
    (speaking Dialect_Memcached ConnAuth_default) mc_items (bs "get")
    (drain_settled (demo_conf false) demo_clock 0 no_stats inline_tier (speaking Dialect_Memcached ConnAuth_default)
       Dialect_Memcached mc_stream).
Proof.
  exact (tiers_invisible (demo_conf false) demo_clock 0 no_stats inline_tier (speaking Dialect_Memcached ConnAuth_default)
    Dialect_Memcached mc_stream mc_items (bs "get") mc_stream_sliced).
Defined.

(** ** Packets *)

Definition packets : list bytes := [take 3 mc_stream; take 20 (drop 3 mc_stream); drop 23 mc_stream].

Abbreviation serve_mc := (serve (demo_conf false) demo_clock 0 no_stats inline_tier demo_limits fresh).

Lemma packets_invisible_witness : exists r, serve_mc packets = Some r /\ serve_mc [mc_stream] = Some r.
Proof.
  assert (is_Some (serve_mc packets)) as [r E] by (vm_compute; eexists; reflexivity).
  assert (is_Some (serve_mc [mc_stream])) as [r' E'] by (vm_compute; eexists; reflexivity).
  exists r. split; [done|]. rewrite E'. f_equal. symmetry.
  apply (packets_invisible (demo_conf false) demo_clock 0 no_stats inline_tier demo_limits fresh packets [mc_stream] r r');
    [reflexivity|by vm_compute| |done..].
  intros dialect H. assert (dialect = Dialect_Memcached) as -> by (vm_compute in H; congruence).
  exists mc_items, (bs "get"). exact mc_stream_sliced.
Defined.

Example packets_sent :
  snd <$> serve_mc packets = Some (line "STORED" ++ line "STORED" ++ line "VALUE a 0 5 9" ++ line "12345" ++ line "END").
Proof. vm_compute. reflexivity. Qed.

(** ** Strangers *)

(** A line refused for the data block after it, a read and a word that is no
    command. *)
Definition stranger_bytes : bytes := line "ms a 5 MX" ++ line "get k" ++ line "frobnicate".

Definition get_k : Item := Item_Command (mkParsed (Cmd_GetMany (KeyList_One (bs "k"))) 7 false (Style_Retrieval false)).

Lemma stranger_bytes_cut :
  mc_cut stranger_bytes [Item_Refused (Kind_Client "invalid mode for ms"%str); get_k; Item_Refused Kind_Error] [].
Proof.
  eapply cut_refused; [vm_compute; reflexivity|]. eapply cut_command; [vm_compute; reflexivity|].
  eapply cut_refused; [vm_compute; reflexivity|]. by apply cut_tail.
Qed.


(** ** Bounds *)


(** An unauthenticated connection may hold 4096 bytes, and not one more. *)
Example stranger_ceiling :
  let read bytes := on_read (demo_conf true) demo_clock 0 no_stats inline_tier demo_limits fresh bytes in
  match read (repeat "*"%byte 4097) with Turn_Closed h sent => hd_server h = demo_server /\ sent = [] | _ => False end
  /\ match read (bs "*1" ++ CRLF ++ bs "$9" ++ CRLF) with
     | Turn_Open h sent => hd_protocol h = Some Dialect_Resp /\ sent = []
     | _ => False
     end.
Proof. vm_compute. done. Qed.

(** ** What the runs show

    Whether a connection may write is asked once a read, and an [AUTH] is in a
    run of its own: in the same read, the writes after it are decided by who the
    connection was before it. *)
Definition auth_then_set : bytes := say ["AUTH"; "app"; "secret"]%str ++ say ["SET"; "a"; "1"]%str.

Example stale_writer :
  let sent tier := (drain_settled (demo_conf false) demo_clock 0 no_stats tier (speaking Dialect_Resp ConnAuth_default)
                      Dialect_Resp auth_then_set).1.2 in
  sent inline_tier = line "+OK" ++ line "+OK"
  /\ sent pooled_tier = line "+OK" ++ line "-NOPERM this user has no permissions to run the 'set' command".
Proof. vm_compute. done. Qed.

(** A line refused for the data block after it consumes the line alone, and its
    run ends with it: run by itself it is a command that has not arrived. *)
Definition refused_for_data : bytes := line "ms a 5 MX" ++ line "get k".

Example refused_in_silence :
  let sent tier := (drain_settled (demo_conf false) demo_clock 0 no_stats tier (speaking Dialect_Memcached ConnAuth_default)
                      Dialect_Memcached refused_for_data).1.2 in
  sent inline_tier = line "VALUE k 0 1" ++ line "v" ++ line "END"
  /\ sent pooled_tier = line "CLIENT_ERROR invalid mode for ms" ++ line "VALUE k 0 1" ++ line "v" ++ line "END".
Proof. vm_compute. done. Qed.
