(* ===== verification/Gossip.v ===== *)
(** [vash-server/src/cluster.rs]: what one node tells another about its tags,
    and that a cluster that keeps talking agrees.

    A round of gossip is one [TAG_SYNC] command at the peer, [Server.tag_sync],
    and a merge of its answer at home.  The connection it goes over is a
    parameter of the round: the request may be lost, and so may the reply to a
    request that was carried out; a connection found broken is made anew once,
    and such a round is two of the others ([broken_round_is_two]).  Queues and
    timers decide which rounds happen when; the theorems hold for whatever they
    decide. *)

From S2P Require Import Prelude Bytes Text Core Record Glob Clock Arith Float Command Backend Apply Read.
From S2P Require Import Vcp VcpEncode Auth Server Memory MemorySpec.

(** ** The protocol *)

Section Protocol.
Context {T : Type} {SO : StoreOps T}.

Definition pairs (entries : list TagGeneration) : list (bytes * Z) :=
  (fun entry => (tg_name entry, tg_generation entry)) <$> entries.

(** [all.sort_by(|a, b| a.name.cmp(&b.name))]: no name comes twice. *)
Definition by_name (entries : list TagGeneration) : list TagGeneration :=
  snd <$> merge_sort key_le ((fun entry => (tg_name entry, entry)) <$> entries).

(** [all.iter().cycle().skip(start).take(n)]. *)
Definition window {A} (all : list A) (start n : nat) : list A :=
  omap (fun k => all !! ((start + k) mod length all)%nat) (seq 0 n).

Definition build_digest (store : T) (offset : Z) : Result StoreError (bool * list TagGeneration) :=
  all ← st_tag_generations store;
  let all := filter (fun entry => 0 < tg_generation entry) all in
  if len all <=? MAX_TAG_SYNC_ENTRIES then Ok (true, all)
  else
    let all := by_name all in
    let start := wrapping 64 (offset * MAX_TAG_SYNC_ENTRIES) mod len all in
    Ok (false, window all (Z.to_nat start) (Z.to_nat MAX_TAG_SYNC_ENTRIES)).

(** What becomes of an exchange: a refused or unreachable peer is
    [Lost_request]; a timeout after the peer acted is [Lost_reply]. *)
Inductive Delivery : Type := Delivered | Lost_request | Lost_reply.

(** [exchange], from both ends: the peer after it, and what was learned. *)
Definition exchange (outcome : Delivery) (full : bool) (entries : list (bytes * Z)) (peer : T)
    : T * option (list TagGeneration) :=
  match outcome with
  | Lost_request => (peer, None)
  | Delivered | Lost_reply =>
      let '(server, answer) := tag_sync full entries (mkServer peer []) in
      (sv_store server,
       match outcome, answer with Delivered, Ok learned => Some learned | _, _ => None end)
  end.

(** [try_exchange]: a connection found broken, whether or not the peer acted on
    what it carried, is made anew and the request repeated, once. *)
Definition try_exchange (broken : option bool) (outcome : Delivery) (full : bool) (entries : list (bytes * Z)) (peer : T)
    : T * option (list TagGeneration) :=
  match broken with
  | None => exchange outcome full entries peer
  | Some carried_out =>
      let '(peer, _) := exchange (if carried_out then Lost_reply else Lost_request) full entries peer in
      exchange outcome full entries peer
  end.

Definition merge_into (store : T) (learned : list TagGeneration) : T := apply_merges store (pairs learned).

Definition learn (store : T) (learned : option (list TagGeneration)) : T :=
  match learned with Some learned => merge_into store learned | None => store end.

Definition gossip_round (outcome : Delivery) (round : Z) (self peer : T) : T * T :=
  match build_digest self round with
  | Ok (full, entries) =>
      let '(peer, learned) := exchange outcome full (pairs entries) peer in (learn self learned, peer)
  | _ => (self, peer)
  end.

(** [peer_loop] on an invalidation: one tag, as it happens. *)
Definition push_invalidation (outcome : Delivery) (name : bytes) (generation : Z) (self peer : T) : T * T :=
  let '(peer, learned) := exchange outcome false [(name, generation)] peer in (learn self learned, peer).

(** [gossip_round] over a connection that breaks. *)
Definition gossip_round_over (broken : option bool) (outcome : Delivery) (round : Z) (self peer : T) : T * T :=
  match build_digest self round with
  | Ok (full, entries) =>
      let '(peer, learned) := try_exchange broken outcome full (pairs entries) peer in (learn self learned, peer)
  | _ => (self, peer)
  end.

(** A cluster's nodes, and what happens between two of them. *)
Inductive ClusterEvent : Type :=
| Gossip (i j : nat) (round : Z) (outcome : Delivery)
| Push (i j : nat) (name : bytes) (generation : Z) (outcome : Delivery).

Definition on_pair (i j : nat) (f : T -> T -> T * T) (nodes : list T) : list T :=
  if bool_decide (i = j) then nodes
  else
    match nodes !! i, nodes !! j with
    | Some self, Some peer => let '(self, peer) := f self peer in <[j := peer]> (<[i := self]> nodes)
    | _, _ => nodes
    end.

Definition cluster_step (nodes : list T) (event : ClusterEvent) : list T :=
  match event with
  | Gossip i j round outcome => on_pair i j (gossip_round outcome round) nodes
  | Push i j name generation outcome => on_pair i j (push_invalidation outcome name generation) nodes
  end.

(** A round over a connection that breaks is two rounds, the first unheard: the
    events of a cluster need no third kind. *)
Lemma broken_round_is_two carried_out outcome round self peer :
  gossip_round_over (Some carried_out) outcome round self peer =
  let '(self, peer) := gossip_round (if carried_out then Lost_reply else Lost_request) round self peer in
  gossip_round outcome round self peer.
Proof.
  unfold gossip_round_over, gossip_round, try_exchange. destruct (build_digest self round) as [[full entries]|?|] eqn:E;
    [|by rewrite E..].
  assert (forall o, (exchange o full (pairs entries) peer).2 = None \/ o = Delivered) as H.
  { intros []; [by right|by left|left]. unfold exchange. by destruct (tag_sync _ _ _). }
  specialize (H (if carried_out then Lost_reply else Lost_request)).
  destruct (exchange (if carried_out then _ else _) full (pairs entries) peer) as [peer' learned]. simpl in H.
  assert (learned = None) as -> by (destruct H; [done|by destruct carried_out]). cbn [learn]. by rewrite E.
Qed.

End Protocol.

(** ** What gossip asks of a store *)

(** [generation s n] is the generation of the tag [n], zero where the store does
    not know it; the table lists every tag that has been invalidated, and a
    merge raises one tag to the maximum. *)
Class StoreSync (T : Type) {SO : StoreOps T} := {
  sync_ok : T -> Prop;
  generation : T -> bytes -> Z;
  generation_nonneg s n : sync_ok s -> 0 <= generation s n;
  sync_table s : sync_ok s -> exists table,
    st_tag_generations s = Ok table /\ NoDup (tg_name <$> table)
    /\ (forall n g, 0 < g -> mkTagGeneration n g ∈ table <-> generation s n = g)
    /\ (forall e, e ∈ table -> 0 <= tg_generation e);
  sync_merge s n g : sync_ok s -> 0 < g ->
    sync_ok (st_merge_tag_generation s n g).1
    /\ forall n', generation (st_merge_tag_generation s n g).1 n'
                  = if bool_decide (n' = n) then Z.max (generation s n) g else generation s n'
}.

(** The in-memory store keeps it, once its generations are not negative. *)
Section MemorySync.
Context {FT : FloatText}.
Variable now_ms : Z.

#[local] Existing Instance memory_ops.

Definition memory_sync_ok (m : Inner) : Prop := forall n st, in_tags m !! n = Some st -> 0 <= ts_generation st.

Definition memory_generation (m : Inner) (n : bytes) : Z := default 0 (ts_generation <$> in_tags m !! n).

Lemma memory_merge_tags m n g n' :
  in_tags (memory_merge_tag_generation m n g).1 !! n' =
  if bool_decide (n' = n)
  then Some (mkTagState (ts_id (default (mkTagState (in_next_tag_id m) 0) (in_tags m !! n))) (Z.max (memory_generation m n) g))
  else in_tags m !! n'.
Proof.
  unfold memory_merge_tag_generation, resolve_tag, memory_generation. cbv zeta. cbn [fst snd set_tag_state in_tags].
  case_bool_decide as E; [subst n'; rewrite lookup_insert_eq|by rewrite !lookup_insert_ne].
  by destruct (in_tags m !! n).
Qed.

#[global] Program Instance memory_sync : StoreSync Inner (SO := memory_ops now_ms) :=
  {| sync_ok := memory_sync_ok; generation := memory_generation |}.
Next Obligation.
  intros m n H. unfold memory_generation. destruct (in_tags m !! n) eqn:E; simpl; [by eapply H|done].
Qed.
Next Obligation.
  intros m H. eexists. split; [reflexivity|]. conjs.
  - rewrite <- list_fmap_compose.
    assert ((tg_name ∘ (fun '(name, state) => mkTagGeneration name (ts_generation state))) <$> btree_iter (in_tags m)
            = (btree_iter (in_tags m)).*1) as -> by (apply list_fmap_ext; by intros ? [? ?]).
    unfold btree_iter. rewrite merge_sort_Permutation. apply NoDup_fst_map_to_list.
  - intros n g Hg. rewrite list_elem_of_fmap. unfold memory_generation. split.
    + intros ([n' st] & Heq & Hin). injection Heq as -> ->. by rewrite btree_iter_elem in Hin; rewrite Hin.
    + destruct (in_tags m !! n) as [st|] eqn:E; simpl; [|lia]. intros <-. exists (n, st). by rewrite btree_iter_elem.
  - intros e ([n st] & -> & Hin)%list_elem_of_fmap. rewrite btree_iter_elem in Hin. by eapply H.
Qed.
Next Obligation.
  intros m n g H Hg. cbn [st_merge_tag_generation memory_ops]. split.
  - intros n' st. rewrite memory_merge_tags. case_bool_decide; [|apply H]. intros [= <-]. simpl. lia.
  - intros n'. unfold memory_generation at 1. rewrite memory_merge_tags. by case_bool_decide.
Qed.

End MemorySync.

(** ** One exchange *)

Section Exchange.
Context {T : Type} {SO : StoreOps T} {SY : StoreSync T}.

(** The greatest generation a list has for a name, zero where it has none. *)
Definition top (n : bytes) (entries : list (bytes * Z)) : Z :=
  foldr (fun entry acc => if bool_decide (entry.1 = n) then Z.max entry.2 acc else acc) 0 entries.

Lemma top_nonneg n entries : 0 <= top n entries.
Proof. induction entries as [|[m g] entries IH]; simpl; [done|]. case_bool_decide; lia. Qed.

Lemma top_ge n g entries : (n, g) ∈ entries -> g <= top n entries.
Proof.
  induction entries as [|[m h] entries IH]; [by intros ?%elem_of_nil|]. simpl.
  intros [[= -> ->]|Hin]%elem_of_cons; [rewrite bool_decide_true by done; lia|]. specialize (IH Hin). case_bool_decide; lia.
Qed.

Lemma top_le n b entries : 0 <= b -> (forall g, (n, g) ∈ entries -> g <= b) -> top n entries <= b.
Proof.
  intros Hb. induction entries as [|[m h] entries IH]; intros H; [done|]. simpl.
  assert (top n entries <= b) by (apply IH; intros g Hg; apply H; by right).
  case_bool_decide; [|done]. subst. pose proof (H h ltac:(by left)). lia.
Qed.

Lemma apply_merges_generation s entries :
  sync_ok s -> (forall e, e ∈ entries -> 0 <= e.2) ->
  sync_ok (apply_merges s entries)
  /\ forall n, generation (apply_merges s entries) n = Z.max (generation s n) (top n entries).
Proof.
  revert s. induction entries as [|[m g] entries IH]; intros s Hs Hg; cbn [apply_merges].
  - split; [done|]. intros n. simpl. pose proof (generation_nonneg s n Hs). lia.
  - pose proof (Hg (m, g) ltac:(by left)) as Hg0. simpl in Hg0.
    assert (forall e, e ∈ entries -> 0 <= e.2) as Hg' by (intros e He; apply Hg; by right).
    destruct (Z.eqb_spec g 0) as [->|Hne].
    + destruct (IH s Hs Hg') as [H1 H2]. split; [done|]. intros n. rewrite H2. simpl.
      pose proof (top_nonneg n entries). case_bool_decide; lia.
    + destruct (sync_merge s m g Hs ltac:(lia)) as [Hs' Hm]. destruct (IH _ Hs' Hg') as [H1 H2]. split; [done|].
      intros n. rewrite H2, Hm. simpl. rewrite (bool_decide_ext (m = n) (n = m)) by naive_solver.
      case_bool_decide; subst; lia.
Qed.

Lemma last_generation_spec known n g :
  NoDup (tg_name <$> known) -> last_generation known n = Some g <-> mkTagGeneration n g ∈ known.
Proof.
  induction known as [|e known IH] using rev_ind; intros Hd; [by split; [|intros ?%elem_of_nil]|].
  unfold last_generation. rewrite foldl_snoc. fold (last_generation known n).
  rewrite fmap_app in Hd. apply NoDup_app in Hd as (Hd & Hn & _). rewrite elem_of_app, list_elem_of_singleton.
  case_bool_decide as E.
  - subst n. split.
    + intros [= <-]. right. by destruct e.
    + intros [Hin|<-]; [|done]. exfalso. apply (Hn (tg_name e)); [|by left]. apply list_elem_of_fmap.
      by exists (mkTagGeneration (tg_name e) g).
  - rewrite IH by done. split; [by left|]. intros [?|<-]; [done|]. by destruct E.
Qed.

(** What a peer answers: tags it knows better, as it knows them. *)
Lemma behind_sound s known full entries e :
  sync_ok s -> st_tag_generations s = Ok known -> (forall x, x ∈ entries -> 0 <= x.2) ->
  e ∈ sync_behind known full entries -> 0 < tg_generation e /\ generation s (tg_name e) = tg_generation e.
Proof.
  intros Hs Hk Hx Hin. destruct (sync_table s Hs) as (table & Hk' & Hd & Ht & _). rewrite Hk in Hk'. injection Hk' as <-.
  unfold sync_behind in Hin. cbv zeta in Hin.
  apply (subseteq_take _ _ e) in Hin. apply elem_of_app in Hin as [Hin|Hin].
  - apply list_elem_of_omap in Hin as ([n offered] & Hin & He).
    destruct (last_generation known n) as [mine|] eqn:E; [|done]. destruct (Z.ltb_spec offered mine); [|done].
    injection He as <-. apply last_generation_spec in E; [|done]. specialize (Hx _ Hin). simpl in *.
    split; [lia|]. by apply Ht; [lia|].
  - destruct full; [|by apply elem_of_nil in Hin]. apply list_elem_of_filter in Hin as [[Hp _] Hin].
    split; [done|]. apply Ht; [done|]. by destruct e.
Qed.

Lemma omap_length {A B} (f : A -> option B) l : (length (omap f l) <= length l)%nat.
Proof. induction l as [|x l IH]; [done|]. cbn [omap list_omap length]. destruct (f x); simpl; lia. Qed.

(** It tells what it knows better of what it was asked about. *)
Lemma behind_offered s known full entries n offered :
  sync_ok s -> st_tag_generations s = Ok known -> len entries <= MAX_TAG_SYNC_ENTRIES ->
  (n, offered) ∈ entries -> 0 <= offered < generation s n ->
  mkTagGeneration n (generation s n) ∈ sync_behind known full entries.
Proof.
  intros Hs Hk Hl Hin Ho. destruct (sync_table s Hs) as (table & Hk' & Hd & Ht & _). rewrite Hk in Hk'. injection Hk' as <-.
  unfold sync_behind. cbv zeta. set (behind := omap _ entries).
  assert (length behind <= length entries)%nat as Hb by apply omap_length.
  rewrite firstn_app. apply elem_of_app. left.
  rewrite take_ge by (unfold len in Hl; lia). apply list_elem_of_omap. exists (n, offered). split; [done|].
  assert (last_generation known n = Some (generation s n)) as ->.
  { apply last_generation_spec; [done|]. apply Ht; [lia|done]. }
  by rewrite (proj2 (Z.ltb_lt _ _)) by lia.
Qed.

(** ** The digest *)

(** The tags that have been invalidated somewhere, as the store lists them. *)
Definition invalidated (s : T) : list TagGeneration :=
  match st_tag_generations s with Ok all => filter (fun entry => 0 < tg_generation entry) all | _ => [] end.

Lemma invalidated_spec s :
  sync_ok s ->
  NoDup (tg_name <$> invalidated s)
  /\ forall n g, mkTagGeneration n g ∈ invalidated s <-> 0 < g /\ generation s n = g.
Proof.
  intros Hs. destruct (sync_table s Hs) as (table & Hk & Hd & Ht & _). unfold invalidated. rewrite Hk. split.
  - eapply sublist_NoDup; [exact Hd|]. apply fmap_sublist, sublist_filter.
  - intros n g. rewrite list_elem_of_filter. simpl. split; intros [Hp Hin]; (split; [done|]); by apply Ht.
Qed.

Lemma by_name_perm l : by_name l ≡ₚ l.
Proof.
  unfold by_name. rewrite merge_sort_Permutation, <- list_fmap_compose.
  assert ((snd ∘ (fun entry => (tg_name entry, entry))) <$> l = l) as -> by (induction l; simpl; by f_equal). done.
Qed.

Lemma build_digest_eq s r :
  sync_ok s ->
  build_digest s r =
  if len (invalidated s) <=? MAX_TAG_SYNC_ENTRIES then Ok (true, invalidated s)
  else Ok (false, window (by_name (invalidated s))
                    (Z.to_nat (wrapping 64 (r * MAX_TAG_SYNC_ENTRIES) mod len (by_name (invalidated s))))
                    (Z.to_nat MAX_TAG_SYNC_ENTRIES)).
Proof.
  intros Hs. destruct (sync_table s Hs) as (table & Hk & _). unfold build_digest, invalidated. rewrite Hk. simpl.
  cbv zeta. by destruct (_ <=? _).
Qed.

Lemma window_in {A} (all : list A) start n x : x ∈ window all start n -> x ∈ all.
Proof. intros (k & _ & Hk)%list_elem_of_omap. by eapply list_elem_of_lookup_2. Qed.

Lemma window_covers {A} (all : list A) start n k x :
  (k < n)%nat -> all !! ((start + k) mod length all)%nat = Some x -> x ∈ window all start n.
Proof. intros Hk Hx. apply list_elem_of_omap. exists k. split; [|done]. apply elem_of_seq. lia. Qed.

Lemma build_digest_spec s r :
  sync_ok s -> exists full entries,
    build_digest s r = Ok (full, entries) /\ len entries <= MAX_TAG_SYNC_ENTRIES
    /\ (forall n g, mkTagGeneration n g ∈ entries -> 0 < g /\ generation s n = g)
    /\ (full = true -> entries = invalidated s).
Proof.
  intros Hs. destruct (invalidated_spec s Hs) as [_ Hi]. rewrite build_digest_eq by done.
  destruct (Z.leb_spec (len (invalidated s)) MAX_TAG_SYNC_ENTRIES) as [Hl|Hl].
  - exists true, (invalidated s). conjs; try done. intros n g. apply Hi.
  - eexists false, _. split; [done|]. conjs; [| |done].
    + unfold len, window. etransitivity; [apply inj_le, omap_length|]. rewrite length_seq. unfold MAX_TAG_SYNC_ENTRIES. lia.
    + intros n g Hin. apply window_in in Hin. rewrite by_name_perm in Hin. by apply Hi.
Qed.

(** ** A round *)

Lemma pairs_elem entries n g : (n, g) ∈ pairs entries <-> mkTagGeneration n g ∈ entries.
Proof.
  unfold pairs. rewrite list_elem_of_fmap. split.
  - intros ([] & [= -> ->] & Hin). done.
  - intros Hin. by exists (mkTagGeneration n g).
Qed.

Lemma learn_generation s learned :
  sync_ok s -> (forall n g, mkTagGeneration n g ∈ learned -> 0 <= g) ->
  sync_ok (merge_into s learned)
  /\ forall n, generation (merge_into s learned) n = Z.max (generation s n) (top n (pairs learned)).
Proof. intros Hs Hl. apply apply_merges_generation; [done|]. intros [n g] Hin%pairs_elem. by eapply Hl. Qed.

(** Between the generations two nodes had, and nowhere else. *)
Definition between (self peer self' : T) : Prop :=
  forall n, generation self n <= generation self' n <= Z.max (generation self n) (generation peer n).

Lemma exchange_spec outcome full entries self peer :
  sync_ok self -> sync_ok peer -> len entries <= MAX_TAG_SYNC_ENTRIES ->
  (forall n g, (n, g) ∈ entries -> 0 < g <= generation self n) ->
  let '(peer', learned) := exchange outcome full entries peer in
  sync_ok peer' /\ sync_ok (learn self learned)
  /\ between peer self peer' /\ between self peer (learn self learned)
  /\ (outcome = Delivered -> forall n g, (n, g) ∈ entries -> g = generation self n ->
      generation peer' n = Z.max (generation self n) (generation peer n)
      /\ generation (learn self learned) n = Z.max (generation self n) (generation peer n))
  /\ (outcome = Delivered -> exists known, st_tag_generations peer = Ok known
                                           /\ learned = Some (sync_behind known full entries)).
Proof.
  intros Hs Hp Hl He.
  assert (forall e, e ∈ entries -> 0 <= e.2) as Hpos by (intros [n g] Hin; pose proof (He n g Hin); simpl; lia).
  destruct (apply_merges_generation peer entries Hp Hpos) as [Hp' Hgen].
  assert (between peer self (apply_merges peer entries)) as Hbp.
  { intros n. rewrite Hgen. pose proof (generation_nonneg self n Hs).
    pose proof (top_le n (generation self n) entries ltac:(done) ltac:(intros g Hg; by apply He)). lia. }
  assert (between self peer self) as Hself by (intros n; lia).
  assert (between peer self peer) as Hpeer by (intros n; lia).
  destruct (sync_table peer Hp) as (known & Hk & _).
  assert (tag_sync full entries (mkServer peer []) = (mkServer (apply_merges peer entries) [], Ok (sync_behind known full entries)))
    as Hsync by (unfold tag_sync, reading, mbind, Exec_bind, mret, Exec_ret; simpl; by rewrite Hk).
  set (learned := sync_behind known full entries) in *.
  assert (forall n g, mkTagGeneration n g ∈ learned -> 0 < g /\ generation peer n = g) as Hsound.
  { intros n g Hin. by apply (behind_sound peer known full entries (mkTagGeneration n g)). }
  destruct (learn_generation self learned Hs ltac:(intros n g Hin; apply Hsound in Hin; lia)) as [Hs' Hself'].
  assert (between self peer (merge_into self learned)) as Hbs.
  { intros n. rewrite Hself'. pose proof (generation_nonneg peer n Hp).
    pose proof (top_le n (generation peer n) (pairs learned) ltac:(done)
                  ltac:(intros g Hg%pairs_elem; apply Hsound in Hg; lia)). lia. }
  destruct outcome; unfold exchange; rewrite ?Hsync; cbn [learn sv_store]; conjs; try done.
  - intros _ n g Hin ->. pose proof (Hbp n). pose proof (Hbs n). split.
    + pose proof (top_ge n _ entries Hin). rewrite Hgen in *. lia.
    + destruct (Z.lt_ge_cases (generation self n) (generation peer n)); [|lia].
      pose proof (He _ _ Hin) as Hpos'.
      pose proof (behind_offered peer known full entries n (generation self n) Hp Hk Hl Hin ltac:(lia)) as Hb.
      apply pairs_elem, top_ge in Hb. fold learned in Hb. specialize (Hself' n). lia.
  - intros _. by exists known.
Qed.


Lemma round_spec outcome round self peer :
  sync_ok self -> sync_ok peer ->
  let '(self', peer') := gossip_round outcome round self peer in
  sync_ok self' /\ sync_ok peer' /\ between self peer self' /\ between peer self peer'
  /\ (outcome = Delivered -> forall full entries n g,
        build_digest self round = Ok (full, entries) -> mkTagGeneration n g ∈ entries ->
        generation self' n = Z.max (generation self n) (generation peer n)
        /\ generation peer' n = Z.max (generation self n) (generation peer n)).
Proof.
  intros Hs Hp. destruct (build_digest_spec self round Hs) as (full & entries & Hb & Hl & Hin & _).
  unfold gossip_round. rewrite Hb.
  pose proof (exchange_spec outcome full (pairs entries) self peer Hs Hp) as H.
  destruct (exchange outcome full (pairs entries) peer) as [peer' learned].
  destruct H as (H1 & H2 & H3 & H4 & H5 & _).
  { unfold len, pairs in *. by rewrite length_fmap. }
  { intros n g Hng%pairs_elem%Hin. lia. }
  conjs; try done. intros Ho full' entries' n g [= <- <-] He. pose proof (Hin n g He) as [Hg Hgen].
  destruct (H5 Ho n g) as [Ha Hc]; [by apply pairs_elem|done|]. done.
Qed.

(** ** Small tables: one round settles two nodes *)

(** No more tags have been invalidated than one message carries. *)
Definition fits_message (names : list bytes) (s : T) : Prop := forall n, 0 < generation s n -> n ∈ names.

Lemma invalidated_names s names :
  sync_ok s -> fits_message names s -> (length (invalidated s) <= length names)%nat.
Proof.
  intros Hs Hf. destruct (invalidated_spec s Hs) as [Hd Hi]. rewrite <- (length_fmap tg_name).
  apply submseteq_length, NoDup_submseteq; [done|]. intros n (e & -> & He)%list_elem_of_fmap. destruct e as [n g].
  apply Hi in He as [Hg Hgen]. apply Hf. simpl. lia.
Qed.

Lemma behind_names known entries e :
  e ∈ omap (fun '(name, offered) =>
      match last_generation known name with
      | Some mine => if offered <? mine then Some (mkTagGeneration name mine) else None
      | None => None
      end) entries -> tg_name e ∈ entries.*1.
Proof.
  intros ([n offered] & Hin & He)%list_elem_of_omap. destruct (last_generation known n); [|done].
  destruct (offered <? z); [|done]. injection He as <-. apply list_elem_of_fmap. by exists (n, offered).
Qed.

Lemma behind_nodup known entries :
  NoDup entries.*1 ->
  NoDup (tg_name <$> omap (fun '(name, offered) =>
      match last_generation known name with
      | Some mine => if offered <? mine then Some (mkTagGeneration name mine) else None
      | None => None
      end) entries).
Proof.
  induction entries as [|[n offered] entries IH]; intros Hd; [constructor|]. apply NoDup_cons in Hd as [Hn Hd].
  cbn [omap list_omap]. specialize (IH Hd).
  destruct (last_generation known n); [|done]. destruct (offered <? z); [|done].
  cbn [fmap list_fmap tg_name]. constructor; [|done]. intros (e & -> & He)%list_elem_of_fmap. by apply behind_names in He.
Qed.

(** A peer with such a table tells everything it was not told. *)
Lemma behind_unnamed s known entries names n :
  sync_ok s -> st_tag_generations s = Ok known -> fits_message names s -> len names <= MAX_TAG_SYNC_ENTRIES ->
  NoDup entries.*1 -> (forall m g, (m, g) ∈ entries -> 0 <= g) ->
  n ∉ entries.*1 -> 0 < generation s n ->
  mkTagGeneration n (generation s n) ∈ sync_behind known true entries.
Proof.
  intros Hs Hk Hf Hl Hd Hpos Hn Hg. destruct (sync_table s Hs) as (table & Hk' & Hdk & Ht & _).
  rewrite Hk in Hk'. injection Hk' as <-. unfold sync_behind. cbv zeta.
  pose proof (behind_names known entries) as Hb. pose proof (behind_nodup known entries Hd) as Hbd.
  set (behind := omap _ entries) in *. set (unnamed := filter _ known).
  assert (forall e, e ∈ unnamed <-> (0 < tg_generation e /\ tg_name e ∉ entries.*1) /\ e ∈ known) as Hu
    by (intros e; unfold unnamed; by rewrite list_elem_of_filter).
  assert (NoDup (tg_name <$> unnamed)) as Hud by (eapply sublist_NoDup; [exact Hdk|]; apply fmap_sublist, sublist_filter).
  assert (length (behind ++ unnamed) <= length names)%nat as Hlen.
  { rewrite <- (length_fmap tg_name), fmap_app. apply submseteq_length, NoDup_submseteq.
    - apply NoDup_app. conjs; [done| |done]. intros m (e & -> & He)%list_elem_of_fmap (e' & Heq & He')%list_elem_of_fmap.
      apply Hb in He. apply Hu in He' as [[_ Hnot] _]. by rewrite Heq in He.
    - intros m [Hm|Hm]%elem_of_app; apply list_elem_of_fmap in Hm as ([m' g] & -> & Hm); apply Hf; simpl.
      + apply list_elem_of_omap in Hm as ([m offered] & Hin & He).
        destruct (last_generation known m) as [mine|] eqn:E; [|done]. destruct (Z.ltb_spec offered mine); [|done].
        injection He as <- <-. apply last_generation_spec in E; [|done]. pose proof (Hpos _ _ Hin).
        apply Ht in E; [|lia]. lia.
      + apply Hu in Hm as [[Hp _] Hm]. simpl in Hp. apply Ht in Hm; lia. }
  rewrite take_ge by (unfold len in Hl; lia). apply elem_of_app. right. apply Hu. conjs; [done|done|]. by apply Ht.
Qed.

Lemma full_round round self peer names :
  sync_ok self -> sync_ok peer -> fits_message names self -> fits_message names peer ->
  len names <= MAX_TAG_SYNC_ENTRIES ->
  let '(self', peer') := gossip_round Delivered round self peer in
  forall n, generation self' n = Z.max (generation self n) (generation peer n)
            /\ generation peer' n = Z.max (generation self n) (generation peer n).
Proof.
  intros Hs Hp Hfs Hfp Hl. pose proof (round_spec Delivered round self peer Hs Hp) as HR.
  pose proof (invalidated_names self names Hs Hfs) as Hlen. destruct (invalidated_spec self Hs) as [Hd Hi].
  pose proof (build_digest_eq self round Hs) as Hb. rewrite (proj2 (Z.leb_le _ _)) in Hb by (unfold len in *; lia).
  unfold gossip_round in *. rewrite Hb in *. set (entries := pairs (invalidated self)) in *.
  assert (forall m g, (m, g) ∈ entries -> 0 < g /\ generation self m = g) as He by (intros m g Hin%pairs_elem; by apply Hi).
  assert (NoDup entries.*1) as Hde.
  { unfold entries, pairs. rewrite <- list_fmap_compose. exact Hd. }
  pose proof (exchange_spec Delivered true entries self peer Hs Hp
                ltac:(unfold entries, pairs, len in *; rewrite length_fmap; lia)
                ltac:(intros m g Hin; pose proof (He m g Hin); lia)) as HE.
  destruct (exchange Delivered true entries peer) as [peer' learned] eqn:Ex.
  destruct HR as (Hs' & Hp' & Hbs & Hbp & Hoff). destruct HE as (_ & _ & _ & _ & _ & Hlearn).
  destruct (Hlearn eq_refl) as (known & Hk & ->). intros n.
  pose proof (generation_nonneg self n Hs) as Hn0. pose proof (generation_nonneg peer n Hp) as Hn1.
  pose proof (Hbs n) as Hbsn. pose proof (Hbp n) as Hbpn.
  destruct (Z.eq_dec (generation self n) 0) as [Hz|Hnz].
  - split; [|lia]. destruct (Z.eq_dec (generation peer n) 0); [lia|].
    assert (n ∉ entries.*1) as Hnot.
    { intros ([m g] & Heq & Hin)%list_elem_of_fmap. simpl in Heq. subst m. apply He in Hin. lia. }
    pose proof (behind_unnamed peer known entries names n Hp Hk Hfp Hl Hde
                  ltac:(intros m g Hin; pose proof (He m g Hin); lia) Hnot ltac:(lia)) as Hin.
    apply pairs_elem, top_ge in Hin.
    destruct (learn_generation self (sync_behind known true entries) Hs) as [_ Hgen].
    { intros m g Hm. apply (behind_sound peer known true entries) in Hm; [simpl in Hm; lia|done..|].
      intros [m' g'] Hm'. apply He in Hm'. simpl. lia. }
    cbn [learn] in *. specialize (Hgen n). lia.
  - apply (Hoff eq_refl true (invalidated self) n (generation self n)); [done|]. apply Hi. split; [lia|done].
Qed.

End Exchange.

(** ** The cluster *)

Section Cluster.
Context {T : Type} {SO : StoreOps T} {SY : StoreSync T}.

(** The latest invalidation of a tag that any node knows of. *)
Definition highest (nodes : list T) (n : bytes) : Z := foldr (fun s acc => Z.max (generation s n) acc) 0 nodes.

(** An invalidation is pushed by the node that made it: it has it already. *)
Definition legal (nodes : list T) (event : ClusterEvent) : Prop :=
  match event with
  | Gossip _ _ _ _ => True
  | Push i _ name g _ => forall s, nodes !! i = Some s -> 0 < g <= generation s name
  end.

Fixpoint legal_run (nodes : list T) (events : list ClusterEvent) : Prop :=
  match events with
  | [] => True
  | event :: events' => legal nodes event /\ legal_run (cluster_step nodes event) events'
  end.

Definition cluster_run (nodes : list T) (events : list ClusterEvent) : list T := foldl cluster_step nodes events.

Definition nodes_ok (nodes : list T) : Prop := forall i s, nodes !! i = Some s -> sync_ok s.

(** No node forgets, and none learns what no node knew. *)
Record Settling (nodes nodes' : list T) : Prop := {
  settling_length : length nodes' = length nodes;
  settling_up i s s' n : nodes !! i = Some s -> nodes' !! i = Some s' -> generation s n <= generation s' n;
  settling_source i s' n : nodes' !! i = Some s' -> exists j p, nodes !! j = Some p /\ generation s' n <= generation p n
}.

Lemma settling_refl nodes : Settling nodes nodes.
Proof. split; [done|intros; simplify_eq; lia|]. intros i s' n H. exists i, s'. split; [done|lia]. Qed.

Lemma settling_trans a b c : Settling a b -> Settling b c -> Settling a c.
Proof.
  intros [L1 U1 S1] [L2 U2 S2]. split; [congruence| |].
  - intros i s s'' n Hs Hs''. destruct (lookup_lt_is_Some_2 b i) as [s' Hs'];
      [rewrite L1; by eapply lookup_lt_Some|]. specialize (U1 i s s' n Hs Hs'). specialize (U2 i s' s'' n Hs' Hs''). lia.
  - intros i s'' n Hs. destruct (S2 i s'' n Hs) as (j & s' & Hj & Hle). destruct (S1 j s' n Hj) as (k & s & Hk & Hle').
    exists k, s. split; [done|lia].
Qed.

Lemma pair_settling i j self peer self' peer' nodes :
  i <> j -> nodes !! i = Some self -> nodes !! j = Some peer ->
  between self peer self' -> between peer self peer' -> Settling nodes (<[j := peer']> (<[i := self']> nodes)).
Proof.
  intros Hij Hi Hj Hs Hp.
  assert (forall k x, <[j := peer']> (<[i := self']> nodes) !! k = Some x ->
            (k = j /\ x = peer') \/ (k = i /\ x = self') \/ (k <> i /\ k <> j /\ nodes !! k = Some x)) as Hcase.
  { intros k x Hx. destruct (decide (k = j)) as [->|Hkj].
    - left. rewrite list_lookup_insert_eq in Hx; [by simplify_eq|]. rewrite length_insert. by eapply lookup_lt_Some.
    - rewrite list_lookup_insert_ne in Hx by done. destruct (decide (k = i)) as [->|Hki].
      + right. left. rewrite list_lookup_insert_eq in Hx; [by simplify_eq|]. by eapply lookup_lt_Some.
      + rewrite list_lookup_insert_ne in Hx by done. by right; right. }
  split; [by rewrite !length_insert| |].
  - intros k s s' n Hk Hk'. apply Hcase in Hk' as [[-> ->]|[[-> ->]|(_ & _ & Hk')]]; simplify_eq;
      [pose proof (Hp n)|pose proof (Hs n)|]; lia.
  - intros k s' n Hk. apply Hcase in Hk as [[-> ->]|[[-> ->]|(_ & _ & Hk)]].
    + pose proof (Hp n). destruct (Z.le_ge_cases (generation peer n) (generation self n)); [exists i, self|exists j, peer]; (split; [done|lia]).
    + pose proof (Hs n). destruct (Z.le_ge_cases (generation peer n) (generation self n)); [exists i, self|exists j, peer]; (split; [done|lia]).
    + exists k, s'. split; [done|lia].
Qed.

Lemma step_settling nodes event :
  nodes_ok nodes -> legal nodes event -> nodes_ok (cluster_step nodes event) /\ Settling nodes (cluster_step nodes event).
Proof.
  intros Hok Hl.
  assert (forall i j (f : T -> T -> T * T),
    (forall self peer, nodes !! i = Some self -> nodes !! j = Some peer ->
       let '(self', peer') := f self peer in
       sync_ok self' /\ sync_ok peer' /\ between self peer self' /\ between peer self peer') ->
    nodes_ok (on_pair i j f nodes) /\ Settling nodes (on_pair i j f nodes)) as Hpair.
  { intros i j f Hf. unfold on_pair. case_bool_decide as Hij; [split; [done|apply settling_refl]|].
    destruct (nodes !! i) as [self|] eqn:Hi; [|split; [done|apply settling_refl]].
    destruct (nodes !! j) as [peer|] eqn:Hj; [|split; [done|apply settling_refl]].
    specialize (Hf self peer eq_refl eq_refl). destruct (f self peer) as [self' peer'].
    destruct Hf as (H1 & H2 & H3 & H4). split; [|by apply (pair_settling i j self peer)].
    intros k s Hk. apply list_lookup_insert_Some in Hk as [(_ & <- & _)|[_ Hk]]; [done|].
    apply list_lookup_insert_Some in Hk as [(_ & <- & _)|[_ Hk]]; [done|by eapply Hok]. }
  destruct event as [i j round outcome|i j name g outcome]; simpl; apply Hpair; intros self peer Hi Hj.
  - pose proof (round_spec outcome round self peer (Hok _ _ Hi) (Hok _ _ Hj)) as H.
    destruct (gossip_round outcome round self peer). destruct H as (H1 & H2 & H3 & H4 & _). exact (conj H1 (conj H2 (conj H3 H4))).
  - simpl in Hl. specialize (Hl self Hi). unfold push_invalidation.
    pose proof (exchange_spec outcome false [(name, g)] self peer (Hok _ _ Hi) (Hok _ _ Hj)) as H.
    destruct (exchange outcome false [(name, g)] peer).
    destruct H as (H1 & H2 & H3 & H4 & _); [done| |exact (conj H2 (conj H1 (conj H4 H3)))].
    intros n h [= -> ->]%list_elem_of_singleton. done.
Qed.

Lemma run_settling events nodes :
  nodes_ok nodes -> legal_run nodes events ->
  nodes_ok (cluster_run nodes events) /\ Settling nodes (cluster_run nodes events).
Proof.
  revert nodes. induction events as [|event events IH]; intros nodes Hok Hl; [split; [done|apply settling_refl]|].
  destruct Hl as [Hl Hls]. destruct (step_settling nodes event Hok Hl) as [Hok' Hs].
  destruct (IH _ Hok' Hls) as [H1 H2]. split; [done|]. by eapply settling_trans.
Qed.

Lemma highest_ge nodes i s n : nodes !! i = Some s -> generation s n <= highest nodes n.
Proof.
  revert i. induction nodes as [|x nodes IH]; intros i H; [done|]. destruct i as [|i]; simpl in *.
  - injection H as ->. lia.
  - specialize (IH i H). lia.
Qed.

Lemma highest_holder nodes n : 0 < highest nodes n -> exists h s, nodes !! h = Some s /\ generation s n = highest nodes n.
Proof.
  induction nodes as [|x nodes IH]; simpl; [lia|]. intros H.
  destruct (Z.le_ge_cases (highest nodes n) (generation x n)).
  - exists O, x. split; [done|]. lia.
  - destruct IH as (h & s & Hh & Hg); [lia|]. exists (S h), s. split; [done|]. lia.
Qed.

Lemma highest_nonneg nodes n : 0 <= highest nodes n.
Proof. induction nodes; simpl; lia. Qed.

Lemma settling_highest nodes nodes' i s n :
  Settling nodes nodes' -> nodes' !! i = Some s -> generation s n <= highest nodes n.
Proof. intros HS Hi. destruct (settling_source _ _ HS i s n Hi) as (j & p & Hj & Hle). pose proof (highest_ge nodes j p n Hj). lia. Qed.

(** [i] and [j] talk, one way or the other, and are heard. *)
Definition meet (i j : nat) (event : ClusterEvent) : Prop :=
  exists round, event = Gossip i j round Delivered \/ event = Gossip j i round Delivered.

Lemma meet_agree nodes i j event self peer names :
  nodes_ok nodes -> i <> j -> meet i j event -> nodes !! i = Some self -> nodes !! j = Some peer ->
  (forall k s, nodes !! k = Some s -> fits_message names s) -> len names <= MAX_TAG_SYNC_ENTRIES ->
  exists self', cluster_step nodes event !! i = Some self'
                /\ forall n, generation peer n <= generation self' n.
Proof.
  intros Hok Hij (round & Hm) Hi Hj Hf Hl.
  assert (forall a b x y, a <> b -> nodes !! a = Some x -> nodes !! b = Some y ->
    let '(x', y') := gossip_round Delivered round x y in
    on_pair a b (gossip_round Delivered round) nodes !! a = Some x'
    /\ on_pair a b (gossip_round Delivered round) nodes !! b = Some y') as Hlook.
  { intros a b x y Hab Ha Hb. unfold on_pair. rewrite bool_decide_false, Ha, Hb by done.
    destruct (gossip_round Delivered round x y) as [x' y']. split.
    - rewrite list_lookup_insert_ne, list_lookup_insert_eq by (done || by eapply lookup_lt_Some). done.
    - apply list_lookup_insert_eq. rewrite length_insert. by eapply lookup_lt_Some. }
  destruct Hm as [->| ->]; simpl.
  - specialize (Hlook i j self peer Hij Hi Hj).
    pose proof (full_round round self peer names (Hok _ _ Hi) (Hok _ _ Hj) (Hf _ _ Hi) (Hf _ _ Hj) Hl) as HF.
    destruct (gossip_round Delivered round self peer) as [self' peer']. exists self'. split; [apply Hlook|].
    intros n. destruct (HF n) as [-> _]. lia.
  - specialize (Hlook j i peer self ltac:(done) Hj Hi).
    pose proof (full_round round peer self names (Hok _ _ Hj) (Hok _ _ Hi) (Hf _ _ Hj) (Hf _ _ Hi) Hl) as HF.
    destruct (gossip_round Delivered round peer self) as [peer' self']. exists self'. split; [apply Hlook|].
    intros n. destruct (HF n) as [_ ->]. lia.
Qed.

(** C36 A cluster whose invalidated tags, over all its nodes, fit in one message
    converges: whatever else is pushed, gossiped, lost or cut off half-way, and in
    whatever order, once every two nodes have had one round between them that was
    delivered, all nodes hold, for every tag, the latest invalidation that any of
    them knew of; on the way there no node forgets an invalidation and none is
    invented.  A round is one step here: nothing else happens to its two nodes
    between the digest and the merge of the answer.  (A larger table takes as many
    rounds as it takes messages: [gossip_reaches].) *)
Theorem cluster_converges (nodes : list T) (events : list ClusterEvent) (names : list bytes) :
  nodes_ok nodes -> legal_run nodes events ->
  (forall i s, nodes !! i = Some s -> fits_message names s) -> len names <= MAX_TAG_SYNC_ENTRIES ->
  (forall i j, (i < j < length nodes)%nat -> exists event, event ∈ events /\ meet i j event) ->
  Settling nodes (cluster_run nodes events)
  /\ forall i s n, cluster_run nodes events !! i = Some s -> generation s n = highest nodes n.
Proof.
  intros Hok Hl Hf Hn Hmeet. destruct (run_settling events nodes Hok Hl) as [Hok' HS]. split; [done|].
  intros i s n Hi. pose proof (settling_highest _ _ _ _ n HS Hi) as Hle.
  pose proof (generation_nonneg s n (Hok' _ _ Hi)) as H0. pose proof (highest_nonneg nodes n).
  destruct (Z.eq_dec (highest nodes n) 0) as [Hz|Hz]; [lia|].
  destruct (highest_holder nodes n ltac:(lia)) as (h & p & Hh & Hp).
  assert (i < length nodes)%nat as Hilt by (rewrite <- (settling_length _ _ HS); by eapply lookup_lt_Some).
  pose proof (lookup_lt_Some _ _ _ Hh) as Hhlt.
  destruct (decide (i = h)) as [->|Hih]; [pose proof (settling_up _ _ HS h p s n Hh Hi); lia|].
  assert (exists event, event ∈ events /\ meet i h event) as (event & Hin & Hm).
  { destruct (decide (i < h)%nat); [by apply Hmeet|]. destruct (Hmeet h i ltac:(lia)) as (event & ? & round & ?).
    exists event. split; [done|]. exists round. tauto. }
  apply list_elem_of_split in Hin as (before & after & ->). unfold cluster_run in *. rewrite foldl_app in Hi. simpl in Hi.
  assert (legal_run nodes before /\ legal_run (foldl cluster_step nodes before) (event :: after)) as [Hl1 [Hl2 Hl3]].
  { clear -Hl. revert nodes Hl. induction before as [|e before IH]; intros nodes; simpl; [done|]. intros [? H].
    destruct (IH _ H). done. }
  destruct (run_settling before nodes Hok Hl1) as [Hok1 HS1]. unfold cluster_run in *.
  set (mid := foldl cluster_step nodes before) in *.
  destruct (lookup_lt_is_Some_2 mid i) as [self Hself]; [rewrite (settling_length _ _ HS1); lia|].
  destruct (lookup_lt_is_Some_2 mid h) as [peer Hpeer]; [rewrite (settling_length _ _ HS1); lia|].
  assert (forall k x, mid !! k = Some x -> fits_message names x) as Hfm.
  { intros k x Hk m Hm0. destruct (settling_source _ _ HS1 k x m Hk) as (j & y & Hj & Hy). apply (Hf j y Hj). lia. }
  destruct (meet_agree mid i h event self peer names Hok1 Hih Hm Hself Hpeer Hfm Hn) as (self' & Hs' & Hge).
  destruct (step_settling mid event Hok1 Hl2) as [Hok2 HS2].
  destruct (run_settling after _ Hok2 Hl3) as [_ HS3]. unfold cluster_run in HS3.
  pose proof (settling_up _ _ HS3 i self' s n Hs' Hi). pose proof (Hge n).
  pose proof (settling_up _ _ HS1 h p peer n Hh Hpeer). lia.
Qed.

End Cluster.

(** ** Large tables: the rotating window *)

Section Window.
Context {T : Type} {SO : StoreOps T} {SY : StoreSync T}.

Fixpoint gossip_rounds (round : Z) (k : nat) (self peer : T) : T * T :=
  match k with
  | O => (self, peer)
  | S k' => let '(self, peer) := gossip_round Delivered round self peer in gossip_rounds (round + 1) k' self peer
  end.

Lemma rounds_between k round self peer :
  sync_ok self -> sync_ok peer ->
  let '(self', peer') := gossip_rounds round k self peer in
  sync_ok self' /\ sync_ok peer' /\ between self peer self' /\ between peer self peer'.
Proof.
  revert round self peer. induction k as [|k IH]; intros round self peer Hs Hp; cbn [gossip_rounds].
  - conjs; try done; intros n; lia.
  - pose proof (round_spec Delivered round self peer Hs Hp) as H.
    destruct (gossip_round Delivered round self peer) as [s1 p1]. destruct H as (Hs1 & Hp1 & Hb1 & Hb2 & _).
    specialize (IH (round + 1) s1 p1 Hs1 Hp1). destruct (gossip_rounds (round + 1) k s1 p1) as [s2 p2].
    destruct IH as (H1 & H2 & H3 & H4). conjs; try done; intros n;
      specialize (Hb1 n); specialize (Hb2 n); specialize (H3 n); specialize (H4 n); lia.
Qed.

(** The names a digest walks over, in their order. *)
Definition names_of (s : T) : list bytes := tg_name <$> by_name (invalidated s).

Lemma by_name_names (l : list TagGeneration) : tg_name <$> by_name l = (merge_sort key_le ((fun e => (tg_name e, e)) <$> l)).*1.
Proof.
  unfold by_name.
  assert (Forall (fun x : bytes * TagGeneration => tg_name x.2 = x.1) (merge_sort key_le ((fun e => (tg_name e, e)) <$> l))) as H.
  { rewrite merge_sort_Permutation. apply Forall_fmap, Forall_true. done. }
  induction H as [|x k Hx _ IH]; [done|]. cbn [fmap list_fmap]. by f_equal.
Qed.

Lemma names_sorted s : StronglySorted (fun a b => lex_le a b = true) (names_of s).
Proof.
  unfold names_of. rewrite by_name_names.
  pose proof (StronglySorted_merge_sort key_le ((fun e => (tg_name e, e)) <$> invalidated s)) as H.
  induction H as [|x k _ IH Hx]; simpl; constructor; [done|]. apply Forall_fmap. exact Hx.
Qed.

Lemma names_of_elem s n : sync_ok s -> n ∈ names_of s <-> 0 < generation s n.
Proof.
  intros Hs. destruct (invalidated_spec s Hs) as [_ Hi]. unfold names_of. rewrite by_name_perm, list_elem_of_fmap. split.
  - intros ([m g] & -> & Hin). apply Hi in Hin. simpl. lia.
  - intros Hg. exists (mkTagGeneration n (generation s n)). split; [done|]. by apply Hi.
Qed.

Lemma names_of_same s s' :
  sync_ok s -> sync_ok s' -> (forall n, 0 < generation s n <-> 0 < generation s' n) -> names_of s' = names_of s.
Proof.
  intros Hs Hs' H.
  assert (AntiSymm (=) (fun a b : bytes => lex_le a b = true)) by (intros a b; apply lex_le_antisym).
  apply (StronglySorted_unique (fun a b => lex_le a b = true)); try apply names_sorted.
  apply NoDup_Permutation.
  - unfold names_of. rewrite by_name_perm. by apply invalidated_spec.
  - unfold names_of. rewrite by_name_perm. by apply invalidated_spec.
  - intros n. rewrite !names_of_elem by done. symmetry. apply H.
Qed.

Lemma names_of_length s : length (names_of s) = length (invalidated s).
Proof. unfold names_of. by rewrite length_fmap, by_name_perm. Qed.

(** A window answers for the tags it shows only. *)
Lemma window_round round self peer :
  sync_ok self -> sync_ok peer -> MAX_TAG_SYNC_ENTRIES < len (names_of self) ->
  names_of (gossip_round Delivered round self peer).1 = names_of self.
Proof.
  intros Hs Hp Hl. pose proof (round_spec Delivered round self peer Hs Hp) as HR.
  pose proof (build_digest_eq self round Hs) as Hb.
  assert (len (invalidated self) = len (names_of self)) as Heq by (unfold len; by rewrite names_of_length).
  rewrite (proj2 (Z.leb_gt _ _)) in Hb by lia. destruct (build_digest_spec self round Hs) as (full & es & Hb' & Hle & Hin & _).
  rewrite Hb in Hb'. injection Hb' as <- Hes. unfold gossip_round in *. rewrite Hb in *. rewrite Hes in *.
  pose proof (exchange_spec Delivered false (pairs es) self peer Hs Hp ltac:(unfold pairs, len in *; by rewrite length_fmap)
                ltac:(intros m g Hm%pairs_elem%Hin; lia)) as HE.
  destruct (exchange Delivered false (pairs es) peer) as [peer' learned]. destruct HR as (Hs' & _ & Hbs & _ & _).
  destruct HE as (_ & _ & _ & _ & _ & Hlearn). destruct (Hlearn eq_refl) as (known & Hk & ->). cbn [fst].
  apply names_of_same; [done..|]. intros n. pose proof (Hbs n) as Hbn. split; [lia|]. intros Hpos.
  destruct (Z.eq_dec (generation self n) 0) as [Hz|]; [|pose proof (generation_nonneg self n Hs); lia]. exfalso.
  destruct (learn_generation self (sync_behind known false (pairs es)) Hs) as [_ Hgen].
  { intros m g Hm. apply (behind_sound peer known false (pairs es)) in Hm; [simpl in Hm; lia|done..|].
    intros [m' g'] Hm'%pairs_elem%Hin. simpl. lia. }
  cbn [learn] in Hpos. rewrite Hgen, Hz in Hpos.
  assert (top n (pairs (sync_behind known false (pairs es))) <= 0); [|lia].
  apply top_le; [done|]. intros g Hg%pairs_elem. exfalso. unfold sync_behind in Hg. cbv zeta in Hg. rewrite app_nil_r in Hg.
  apply subseteq_take, behind_names in Hg. apply list_elem_of_fmap in Hg as ([m h] & Hm & Hg%pairs_elem%Hin).
  simpl in Hm. subst m. lia.
Qed.

Definition window_start (s : T) (round : Z) : nat :=
  Z.to_nat (wrapping 64 (round * MAX_TAG_SYNC_ENTRIES) mod len (names_of s)).

(** A tag the window shows is settled by the round. *)
Lemma window_settles round self peer q n :
  sync_ok self -> sync_ok peer -> MAX_TAG_SYNC_ENTRIES < len (names_of self) ->
  (q < Z.to_nat MAX_TAG_SYNC_ENTRIES)%nat ->
  names_of self !! ((window_start self round + q) mod length (names_of self))%nat = Some n ->
  generation (gossip_round Delivered round self peer).1 n = Z.max (generation self n) (generation peer n)
  /\ generation (gossip_round Delivered round self peer).2 n = Z.max (generation self n) (generation peer n).
Proof.
  intros Hs Hp Hl Hq Hn. pose proof (round_spec Delivered round self peer Hs Hp) as HR.
  destruct (gossip_round Delivered round self peer) as [self' peer']. destruct HR as (_ & _ & _ & _ & HR).
  pose proof (build_digest_eq self round Hs) as Hb.
  assert (len (invalidated self) = len (names_of self)) as Heq by (unfold len; by rewrite names_of_length).
  assert (length (by_name (invalidated self)) = length (names_of self)) as Hlen by (unfold names_of; by rewrite length_fmap).
  rewrite (proj2 (Z.leb_gt _ _)) in Hb by lia.
  change ((tg_name <$> by_name (invalidated self)) !! ((window_start self round + q) mod length (names_of self))%nat = Some n) in Hn.
  rewrite list_lookup_fmap in Hn. apply fmap_Some in Hn as ([m g] & Hm & ->). simpl.
  apply (HR eq_refl false _ m g Hb). apply window_covers with q; [done|].
  unfold window_start in Hm. replace (len (by_name (invalidated self))) with (len (names_of self)) by (unfold len; by rewrite Hlen).
  by rewrite Hlen.
Qed.

Lemma rounds_settle k t q n round self peer :
  sync_ok self -> sync_ok peer -> MAX_TAG_SYNC_ENTRIES < len (names_of self) ->
  (t < k)%nat -> (q < Z.to_nat MAX_TAG_SYNC_ENTRIES)%nat ->
  names_of self !! ((window_start self (round + Z.of_nat t) + q) mod length (names_of self))%nat = Some n ->
  let '(self', peer') := gossip_rounds round k self peer in
  generation self' n = Z.max (generation self n) (generation peer n)
  /\ generation peer' n = Z.max (generation self n) (generation peer n).
Proof.
  revert t round self peer. induction k as [|k IH]; intros t round self peer Hs Hp Hl Ht Hq Hn; [lia|].
  cbn [gossip_rounds]. pose proof (round_spec Delivered round self peer Hs Hp) as HR.
  pose proof (window_round round self peer Hs Hp Hl) as HN. pose proof (window_settles round self peer q n Hs Hp Hl Hq) as HW.
  destruct (gossip_round Delivered round self peer) as [s1 p1]. cbn [fst snd] in *. destruct HR as (Hs1 & Hp1 & Hb1 & Hb2 & _).
  destruct t as [|t].
  - rewrite Z.add_0_r in Hn. destruct (HW Hn) as [Hg1 Hg2]. pose proof (rounds_between k (round + 1) s1 p1 Hs1 Hp1) as HB.
    destruct (gossip_rounds (round + 1) k s1 p1) as [s2 p2]. destruct HB as (_ & _ & B1 & B2).
    specialize (B1 n). specialize (B2 n). lia.
  - specialize (IH t (round + 1) s1 p1 Hs1 Hp1). unfold window_start in *. rewrite HN in IH.
    replace (round + 1 + Z.of_nat t) with (round + Z.of_nat (S t)) in IH by lia.
    specialize (IH Hl ltac:(lia) Hq Hn). destruct (gossip_rounds (round + 1) k s1 p1) as [s2 p2].
    specialize (Hb1 n). specialize (Hb2 n). lia.
Qed.

(** Windows of [m] over a ring of [n] places, begun at multiples of [m], meet
    every place once they are as many as it takes to cover the ring. *)
Lemma windows_cover m n round (k p : Z) :
  0 < m -> 0 < n -> n <= k * m -> 0 <= p < n ->
  exists t q, 0 <= t < k /\ 0 <= q < m /\ (((round + t) * m) mod n + q) mod n = p.
Proof.
  intros Hm Hn Hk Hp. set (x := (p - round * m) mod n).
  pose proof (Z.mod_pos_bound (p - round * m) n Hn) as Hx. fold x in Hx.
  exists (x / m), (x mod m). pose proof (Z.mod_pos_bound x m Hm). pose proof (Z.div_mod x m ltac:(lia)) as Hdm.
  assert (0 <= x / m) by (apply Z.div_pos; lia). assert (x / m < k) by (apply Z.div_lt_upper_bound; lia).
  conjs; try lia. rewrite Zplus_mod_idemp_l.
  replace ((round + x / m) * m + x mod m) with (round * m + x) by lia. unfold x.
  rewrite Zplus_mod_idemp_r. replace (round * m + (p - round * m)) with p by lia. by apply Z.mod_small.
Qed.

(** C37 Gossip reaches every tag, however many there are: once a node has had as
    many rounds with a peer as its invalidated tags take to fit in messages, the
    two hold the later of what either held for each of those tags. *)
Theorem gossip_reaches (round : Z) (k : nat) (self peer : T) :
  sync_ok self -> sync_ok peer -> 0 <= round -> (round + Z.of_nat k) * MAX_TAG_SYNC_ENTRIES < 2 ^ 64 ->
  len (invalidated self) <= Z.of_nat k * MAX_TAG_SYNC_ENTRIES ->
  let '(self', peer') := gossip_rounds round k self peer in
  forall n, 0 < generation self n ->
    generation self' n = Z.max (generation self n) (generation peer n)
    /\ generation peer' n = Z.max (generation self n) (generation peer n).
Proof.
  intros Hs Hp Hr Hw Hk. pose proof (names_of_length self) as Hlen.
  assert (0 < MAX_TAG_SYNC_ENTRIES) as HM by done.
  destruct (Z.le_gt_cases (len (names_of self)) MAX_TAG_SYNC_ENTRIES) as [Hsmall|Hlarge].
  - destruct k as [|k].
    + simpl. intros n Hn. exfalso. apply names_of_elem in Hn; [|done].
      assert (names_of self = []) as E by (apply nil_length_inv; unfold len in Hk; lia).
      rewrite E in Hn. by apply not_elem_of_nil in Hn.
    + cbn [gossip_rounds]. pose proof (round_spec Delivered round self peer Hs Hp) as HR.
      pose proof (build_digest_eq self round Hs) as Hb. rewrite (proj2 (Z.leb_le _ _)) in Hb by (unfold len in *; lia).
      destruct (gossip_round Delivered round self peer) as [s1 p1]. destruct HR as (Hs1 & Hp1 & _ & _ & HR).
      pose proof (rounds_between k (round + 1) s1 p1 Hs1 Hp1) as HB.
      destruct (gossip_rounds (round + 1) k s1 p1) as [s2 p2]. destruct HB as (_ & _ & B1 & B2). intros n Hn.
      destruct (HR eq_refl true (invalidated self) n (generation self n) Hb) as [E1 E2].
      { by apply invalidated_spec. }
      specialize (B1 n). specialize (B2 n). lia.
  - destruct (gossip_rounds round k self peer) as [self' peer'] eqn:E. intros n Hn.
    apply names_of_elem in Hn; [|done]. apply list_elem_of_lookup in Hn as [p Hpn].
    pose proof (lookup_lt_Some _ _ _ Hpn) as Hplt.
    destruct (windows_cover MAX_TAG_SYNC_ENTRIES (len (names_of self)) round (Z.of_nat k) (Z.of_nat p))
      as (t & q & Ht & Hq & Hcov); [done|lia|unfold len in *; lia|unfold len; lia|].
    pose proof (rounds_settle k (Z.to_nat t) (Z.to_nat q) n round self peer Hs Hp Hlarge ltac:(lia) ltac:(lia)) as H.
    rewrite E in H. apply H. rewrite <- Hpn. f_equal. unfold window_start. rewrite Z2Nat.id by lia.
    rewrite wrapping_small by (unfold fits, MAX_TAG_SYNC_ENTRIES in *; nia).
    apply Nat2Z.inj. rewrite Nat2Z.inj_mod, Nat2Z.inj_add, !Z2Nat.id by (try lia; apply Z.mod_pos_bound; lia).
    exact Hcov.
Qed.

End Window.
