(* ===== verification/Introspect.v ===== *)
(** [vash-server/src/introspect]: the slow log, the hot keys and the hot tags,
    and what dispatch offers them.

    Each keeps one part per lane of [metrics.rs]; a thread's lane is an index a
    step is given.  A poisoned lock is not modelled: the release build aborts on
    a panic.  The counts are as wide as the stream that makes them
    ([IntrospectSpec] bounds them by it); identifiers and what is scaled back
    wrap as [u64] does.  The theorems are in [IntrospectSpec]. *)

From S2P Require Import Prelude Bytes Text Core Record Glob Clock Arith Float Command Backend Conn.

Definition LANES : nat := 256.

(** [metrics::CommandKind]. *)
Inductive CommandKind : Type :=
| Kind_Hello | Kind_Ping | Kind_Get | Kind_GetMany | Kind_Deadline | Kind_Set | Kind_SetMany | Kind_Delete
| Kind_DeleteMany | Kind_Touch | Kind_Expire | Kind_Append | Kind_Arithmetic | Kind_GetAndTouch | Kind_DeleteByTag
| Kind_Flush | Kind_TagSync | Kind_Cluster | Kind_Listing | Kind_Stats | Kind_Other.

#[global] Instance CommandKind_eq_dec : EqDecision CommandKind.
Proof. solve_decision. Defined.

Definition CommandKind_of (command : Command) : CommandKind :=
  match command with
  | Cmd_Hello _ => Kind_Hello
  | Cmd_Ping => Kind_Ping
  | Cmd_Get _ => Kind_Get
  | Cmd_GetMany _ => Kind_GetMany
  | Cmd_Deadline _ | Cmd_Deadlines _ => Kind_Deadline
  | Cmd_Set _ => Kind_Set
  | Cmd_SetMany _ _ => Kind_SetMany
  | Cmd_Delete _ => Kind_Delete
  | Cmd_DeleteMany _ => Kind_DeleteMany
  | Cmd_Touch _ _ => Kind_Touch
  | Cmd_Expire _ _ _ => Kind_Expire
  | Cmd_Append _ _ => Kind_Append
  | Cmd_Arithmetic _ => Kind_Arithmetic
  | Cmd_GetAndTouch _ _ => Kind_GetAndTouch
  | Cmd_DeleteByTag _ => Kind_DeleteByTag
  | Cmd_Flush => Kind_Flush
  | Cmd_TagSync _ _ => Kind_TagSync
  | Cmd_Cluster => Kind_Cluster
  | Cmd_ListKeys _ | Cmd_ListTags _ => Kind_Listing
  | Cmd_Stats => Kind_Stats
  | Cmd_Version | Cmd_Quit => Kind_Other
  end.

(** ** Steps on a flat array *)

(** [iter_mut().find(p)], and what is done to the one found. *)
Fixpoint update_first {A} (p : A -> bool) (f : A -> A) (l : list A) : option (list A) :=
  match l with
  | [] => None
  | x :: l' => if p x then Some (f x :: l') else cons x <$> update_first p f l'
  end.

(** [iter_mut().min_by_key(key)]: the first of the least. *)
Fixpoint min_by_key {A} (key : A -> Z) (l : list A) : option nat :=
  match l with
  | [] => None
  | x :: l' =>
      match min_by_key key l' with
      | None => Some 0%nat
      | Some i => match l' !! i with Some y => if key y <? key x then Some (S i) else Some 0%nat | None => Some 0%nat end
      end
  end.

Section Introspect.
Context {HS : Hash}.

(** ** hotkeys.rs *)

Definition MAX_KEPT_KEY : Z := 128.

Record Counter := mkCounter {
  c_digest : Z;
  c_key : bytes;
  c_truncated : bool;
  c_read_samples : Z;
  c_write_samples : Z;
  c_error : Z
}.

Definition Counter_total (c : Counter) : Z := c_read_samples c + c_write_samples c.

Record Summary := mkSummary { sm_counters : list Counter; sm_sampled : Z }.

Definition Summary_default : Summary := mkSummary [] 0.

Definition kept_key (key : bytes) : bytes := take (Z.to_nat (Z.min (len key) MAX_KEPT_KEY)) key.

Definition one_if (b : bool) : Z := if b then 1 else 0.

Definition Summary_observe (s : Summary) (capacity : nat) (digest : Z) (key : bytes) (write : bool)
    : Result Empty_set Summary :=
  let sampled := sm_sampled s + 1 in
  match update_first (fun c => c_digest c =? digest)
          (fun c =>
             if write
             then mkCounter (c_digest c) (c_key c) (c_truncated c) (c_read_samples c) (c_write_samples c + 1) (c_error c)
             else mkCounter (c_digest c) (c_key c) (c_truncated c) (c_read_samples c + 1) (c_write_samples c) (c_error c))
          (sm_counters s) with
  | Some counters => Ok (mkSummary counters sampled)
  | None =>
      if (length (sm_counters s) <? capacity)%nat then
        Ok (mkSummary (sm_counters s ++ [mkCounter digest (kept_key key) (MAX_KEPT_KEY <? len key)
                                           (one_if (negb write)) (one_if write) 0]) sampled)
      else
        match min_by_key Counter_total (sm_counters s) with
        | None => Panic "capacity is non-zero"
        | Some i =>
            Ok (mkSummary
                  (alter (fun victim =>
                     let inherited := Counter_total victim in
                     mkCounter digest (kept_key key) (MAX_KEPT_KEY <? len key)
                       (inherited + one_if (negb write)) (one_if write) inherited) i (sm_counters s))
                  sampled)
        end
  end.

Record HotKeys := mkHotKeys {
  hk_enabled : bool;
  hk_mask : Z;
  hk_sample_rate : Z;
  hk_capacity : nat;
  hk_summaries : list Summary
}.

(** [u64::next_power_of_two], of a positive number. *)
Definition next_power_of_two (n : Z) : Z := wrapping 64 (2 ^ Z.log2_up n).

Definition HotKeys_new (sample_rate : Z) (capacity : nat) : HotKeys :=
  let rounded := next_power_of_two (Z.max sample_rate 1) in
  mkHotKeys (negb (sample_rate =? 0)) (wrapping 32 (wrapping 64 (rounded - 1))) rounded (Nat.max capacity 1)
    (replicate LANES Summary_default).

(** The step of [xorshift32]. *)
Definition xorshift (rng : Z) : Z :=
  let rng := Z.lxor rng (wrapping 32 (Z.shiftl rng 13)) in
  let rng := Z.lxor rng (Z.shiftr rng 17) in
  Z.lxor rng (wrapping 32 (Z.shiftl rng 5)).

Definition HotKeys_admit (h : HotKeys) (lane : nat) (key : bytes) (write : bool) : Result Empty_set HotKeys :=
  match hk_summaries h !! lane with
  | None => Panic "index out of bounds"
  | Some summary =>
      summary ← Summary_observe summary (hk_capacity h) (xxh3_64 key) key write;
      Ok (mkHotKeys (hk_enabled h) (hk_mask h) (hk_sample_rate h) (hk_capacity h)
            (<[lane := summary]> (hk_summaries h)))
  end.

(** A thread's generator is zero until its first use, when [seed] stands for it. *)
Definition HotKeys_observe (h : HotKeys) (lane : nat) (seed rng : Z) (key : bytes) (write : bool)
    : Result Empty_set (HotKeys * Z) :=
  if negb (hk_enabled h) then Ok (h, rng)
  else
    let rng := if rng =? 0 then seed else rng in
    let rng := xorshift rng in
    if Z.land rng (hk_mask h) =? 0
    then h ← HotKeys_admit h lane key write; Ok (h, rng)
    else Ok (h, rng).

Record Merged := mkMerged { mg_counters : list Counter; mg_sampled : Z; mg_sample_rate : Z }.

Definition merge_counter (counters : list Counter) (counter : Counter) : list Counter :=
  match update_first (fun c => c_digest c =? c_digest counter)
          (fun existing =>
             mkCounter (c_digest existing) (c_key existing) (c_truncated existing)
               (c_read_samples existing + c_read_samples counter)
               (c_write_samples existing + c_write_samples counter)
               (c_error existing + c_error counter))
          counters with
  | Some counters => counters
  | None => counters ++ [counter]
  end.

(** Hottest first; a digest stands once, so the order of the unstable sort is
    not in doubt. *)
Definition hotter (a b : Counter) : Prop :=
  Counter_total b < Counter_total a \/ (Counter_total a = Counter_total b /\ c_digest a <= c_digest b).

#[global] Instance hotter_dec : RelDecision hotter.
Proof. intros a b. unfold hotter. apply _. Defined.

Definition HotKeys_merge (h : HotKeys) : Merged :=
  let '(counters, sampled) :=
    foldl (fun '(counters, sampled) summary =>
             (foldl merge_counter counters (sm_counters summary), sampled + sm_sampled summary))
      ([], 0) (hk_summaries h) in
  mkMerged (merge_sort hotter counters) sampled (hk_sample_rate h).

Definition estimated_ops (m : Merged) (counter : Counter) : Z :=
  wrapping 64 (Counter_total counter * mg_sample_rate m).

(** ** hottags.rs *)

Definition MAX_KEPT_TAG : Z := 128.

Record TagCounter := mkTagCounter {
  tc_digest : Z;
  tc_name : bytes;
  tc_truncated : bool;
  tc_invalidations : Z;
  tc_error : Z
}.

Record TagSummary := mkTagSummary { tm_counters : list TagCounter; tm_total : Z }.

Definition TagSummary_default : TagSummary := mkTagSummary [] 0.

Definition kept_tag (name : bytes) : bytes := take (Z.to_nat (Z.min (len name) MAX_KEPT_TAG)) name.

Definition TagSummary_observe (s : TagSummary) (capacity : nat) (digest : Z) (name : bytes)
    : Result Empty_set TagSummary :=
  let total := tm_total s + 1 in
  match update_first (fun c => tc_digest c =? digest)
          (fun c => mkTagCounter (tc_digest c) (tc_name c) (tc_truncated c) (tc_invalidations c + 1) (tc_error c))
          (tm_counters s) with
  | Some counters => Ok (mkTagSummary counters total)
  | None =>
      if (length (tm_counters s) <? capacity)%nat then
        Ok (mkTagSummary (tm_counters s ++ [mkTagCounter digest (kept_tag name) (MAX_KEPT_TAG <? len name) 1 0]) total)
      else
        match min_by_key tc_invalidations (tm_counters s) with
        | None => Panic "capacity is non-zero"
        | Some i =>
            Ok (mkTagSummary
                  (alter (fun victim =>
                     let inherited := tc_invalidations victim in
                     mkTagCounter digest (kept_tag name) (MAX_KEPT_TAG <? len name) (inherited + 1) inherited)
                     i (tm_counters s))
                  total)
        end
  end.

Record HotTags := mkHotTags { ht_enabled : bool; ht_capacity : nat; ht_summaries : list TagSummary }.

Definition HotTags_new (enabled : bool) (capacity : nat) : HotTags :=
  mkHotTags enabled (Nat.max capacity 1) (replicate LANES TagSummary_default).

Definition HotTags_invalidated (h : HotTags) (lane : nat) (tag : bytes) : Result Empty_set HotTags :=
  if negb (ht_enabled h) then Ok h
  else
    match ht_summaries h !! lane with
    | None => Panic "index out of bounds"
    | Some summary =>
        summary ← TagSummary_observe summary (ht_capacity h) (xxh3_64 tag) tag;
        Ok (mkHotTags (ht_enabled h) (ht_capacity h) (<[lane := summary]> (ht_summaries h)))
    end.

Definition merge_tag_counter (counters : list TagCounter) (counter : TagCounter) : list TagCounter :=
  match update_first (fun c => tc_digest c =? tc_digest counter)
          (fun existing =>
             mkTagCounter (tc_digest existing) (tc_name existing) (tc_truncated existing)
               (tc_invalidations existing + tc_invalidations counter) (tc_error existing + tc_error counter))
          counters with
  | Some counters => counters
  | None => counters ++ [counter]
  end.

Definition hotter_tag (a b : TagCounter) : Prop :=
  tc_invalidations b < tc_invalidations a \/ (tc_invalidations a = tc_invalidations b /\ tc_digest a <= tc_digest b).

#[global] Instance hotter_tag_dec : RelDecision hotter_tag.
Proof. intros a b. unfold hotter_tag. apply _. Defined.

Definition HotTags_merge (h : HotTags) : list TagCounter * Z :=
  let '(counters, total) :=
    foldl (fun '(counters, total) summary =>
             (foldl merge_tag_counter counters (tm_counters summary), total + tm_total summary))
      ([], 0) (ht_summaries h) in
  (merge_sort hotter_tag counters, total).

(** ** slowlog.rs *)

(** [std::net::SocketAddr], which is carried and never looked at. *)
Context {SocketAddr : Type}.

Record Origin := mkOrigin { or_dialect : Dialect; or_conn_id : Z; or_peer : SocketAddr }.

Record SlowEntry := mkSlowEntry {
  se_id : Z;
  se_timestamp : Z;
  se_queue_us : Z;
  se_exec_us : Z;
  se_command : CommandKind;
  se_origin : Origin;
  se_keys : Z;
  se_key : bytes;
  se_digest : Z;
  se_value_bytes : Z;
  se_batch : Z
}.

Record SlowRecord := mkSlowRecord {
  sr_queue_us : Z;
  sr_exec_us : Z;
  sr_command : CommandKind;
  sr_origin : Origin;
  sr_keys : Z;
  sr_key : bytes;
  sr_value_bytes : Z;
  sr_batch : Z
}.

Record Slowlog := mkSlowlog {
  sl_threshold_us : Z;
  sl_max_len : nat;
  sl_next_id : Z;
  sl_rings : list (list SlowEntry);
  sl_admitted : Z;
  sl_evicted : Z
}.

Definition Slowlog_new (threshold_us : Z) (max_len : nat) : Slowlog :=
  mkSlowlog threshold_us (Nat.max max_len 1) 1 (replicate LANES []) 0 0.

Definition crosses (s : Slowlog) (total_us : Z) : bool :=
  negb (sl_threshold_us s =? 0) && (sl_threshold_us s <=? total_us).

Definition slow_entry (id now_secs : Z) (record : SlowRecord) : SlowEntry :=
  mkSlowEntry id now_secs (sr_queue_us record) (sr_exec_us record) (sr_command record) (sr_origin record)
    (sr_keys record) (kept_key (sr_key record)) (xxh3_64 (sr_key record)) (sr_value_bytes record) (sr_batch record).

(** [while ring.len() >= max_len { ring.pop_front() }]. *)
Definition make_room (max_len : nat) (ring : list SlowEntry) : list SlowEntry :=
  drop (S (length ring) - max_len) ring.

Definition Slowlog_record (s : Slowlog) (lane : nat) (now_secs : Z) (record : SlowRecord) : Result Empty_set Slowlog :=
  let entry := slow_entry (sl_next_id s) now_secs record in
  match sl_rings s !! lane with
  | None => Panic "index out of bounds"
  | Some ring =>
      let left := make_room (sl_max_len s) ring in
      Ok (mkSlowlog (sl_threshold_us s) (sl_max_len s) (wrapping 64 (sl_next_id s + 1))
            (<[lane := left ++ [entry]]> (sl_rings s))
            (sl_admitted s + 1) (sl_evicted s + Z.of_nat (length ring - length left)))
  end.

Definition newer (a b : SlowEntry) : Prop := se_id b <= se_id a.

#[global] Instance newer_dec : RelDecision newer.
Proof. intros a b. unfold newer. apply _. Defined.

Definition Slowlog_entries (s : Slowlog) (count : nat) : list SlowEntry :=
  take count (merge_sort newer (concat (sl_rings s))).

Definition Slowlog_len (s : Slowlog) : nat := sum_list (length <$> sl_rings s).

Definition Slowlog_reset (s : Slowlog) : Slowlog :=
  mkSlowlog (sl_threshold_us s) (sl_max_len s) (sl_next_id s) ((fun _ => []) <$> sl_rings s)
    (sl_admitted s) (sl_evicted s).

(** ** mod.rs *)

Record IntrospectConfig := mkIntrospectConfig {
  ic_slowlog_threshold_us : Z;
  ic_slowlog_max_len : nat;
  ic_hotkeys_enabled : bool;
  ic_hotkeys_sample_rate : Z;
  ic_hotkeys_counters : nat;
  ic_hottags_enabled : bool;
  ic_hottags_counters : nat
}.

Definition IntrospectConfig_default : IntrospectConfig := mkIntrospectConfig 10000 128 true 128 64 true 64.

Record Introspect := mkIntrospect { in_slowlog : Slowlog; in_hotkeys : HotKeys; in_hottags : HotTags }.

Definition Introspect_new (config : IntrospectConfig) : Introspect :=
  mkIntrospect (Slowlog_new (ic_slowlog_threshold_us config) (ic_slowlog_max_len config))
    (HotKeys_new (if ic_hotkeys_enabled config then ic_hotkeys_sample_rate config else 0) (ic_hotkeys_counters config))
    (HotTags_new (ic_hottags_enabled config) (ic_hottags_counters config)).

(** [split]. *)
Definition split_times (total_us queue_us : Z) : Z * Z :=
  let queued := Z.min queue_us total_us in
  (queued, total_us - queued).

Definition is_read (command : Command) : bool :=
  match command with
  | Cmd_Get _ | Cmd_GetMany _ | Cmd_GetAndTouch _ _ | Cmd_Deadline _ | Cmd_Deadlines _ => true
  | _ => false
  end.

(** The keys [for_each_key] offers, in order. *)
Definition each_key (command : Command) : list bytes :=
  match command with
  | Cmd_Get key | Cmd_Deadline key | Cmd_Delete key => [key]
  | Cmd_Touch key _ | Cmd_Expire key _ _ | Cmd_Append key _ => [key]
  | Cmd_GetMany keys | Cmd_GetAndTouch keys _ => KeyList_as_slice keys
  | Cmd_Deadlines keys | Cmd_DeleteMany keys => keys
  | Cmd_Set set => [s_key set]
  | Cmd_SetMany sets _ => s_key <$> sets
  | Cmd_Arithmetic op => [ar_key op]
  | Cmd_Hello _ | Cmd_Ping | Cmd_DeleteByTag _ | Cmd_Flush | Cmd_TagSync _ _ | Cmd_Cluster | Cmd_ListKeys _
  | Cmd_ListTags _ | Cmd_Stats | Cmd_Version | Cmd_Quit => []
  end.

Definition first_key (command : Command) : bytes :=
  foldl (fun first key => match first with [] => key | _ => first end) [] (each_key command).

Definition key_count (command : Command) : Z :=
  foldl (fun count _ => Z.min (count + 1) U32_MAX) 0 (each_key command).

Definition value_bytes (command : Command) : Z :=
  match command with
  | Cmd_Set set => len (s_value set)
  | Cmd_SetMany sets _ => foldr Z.add 0 ((fun set => len (s_value set)) <$> sets)
  | Cmd_Append _ suffix => len suffix
  | _ => 0
  end.

(** A thread offers keys: its lane, its seed, and its generator. *)
Fixpoint observe_keys (h : HotKeys) (lane : nat) (seed rng : Z) (keys : list bytes) (write : bool)
    : Result Empty_set (HotKeys * Z) :=
  match keys with
  | [] => Ok (h, rng)
  | key :: keys =>
      '(h, rng) ← HotKeys_observe h lane seed rng key write;
      observe_keys h lane seed rng keys write
  end.

(** What is recorded of a request that crossed the threshold, and nothing of one
    that did not. *)
Definition log_if_slow (s : Slowlog) (lane : nat) (now_secs total_us : Z) (record : SlowRecord)
    : Result Empty_set Slowlog :=
  if crosses s total_us then Slowlog_record s lane now_secs record else Ok s.

Definition observed (i : Introspect) (lane : nat) (seed rng now_secs : Z) (command : Command) (kind : CommandKind)
    (origin : Origin) (total_us queue_us : Z) : Result Empty_set (Introspect * Z) :=
  let write := negb (is_read command) in
  '(hotkeys, rng) ← observe_keys (in_hotkeys i) lane seed rng (each_key command) write;
  let '(queue_us, exec_us) := split_times total_us queue_us in
  slowlog ← log_if_slow (in_slowlog i) lane now_secs total_us
              (mkSlowRecord queue_us exec_us kind origin (key_count command) (first_key command)
                 (value_bytes command) 1);
  Ok (mkIntrospect slowlog hotkeys (in_hottags i), rng).

Definition observed_get (i : Introspect) (lane : nat) (seed rng now_secs : Z) (key : bytes) (kind : CommandKind)
    (origin : Origin) (total_us : Z) : Result Empty_set (Introspect * Z) :=
  '(hotkeys, rng) ← HotKeys_observe (in_hotkeys i) lane seed rng key false;
  slowlog ← log_if_slow (in_slowlog i) lane now_secs total_us (mkSlowRecord 0 total_us kind origin 1 key 0 1);
  Ok (mkIntrospect slowlog hotkeys (in_hottags i), rng).

Definition observed_batch (i : Introspect) (lane : nat) (seed rng now_secs : Z) (sets : list SetReq)
    (origin : Origin) (total_us queue_us : Z) : Result Empty_set (Introspect * Z) :=
  '(hotkeys, rng) ← observe_keys (in_hotkeys i) lane seed rng (s_key <$> sets) true;
  slowlog ← match sets with
            | [] => Ok (in_slowlog i)
            | first :: _ =>
                let '(queue_us, exec_us) := split_times total_us queue_us in
                log_if_slow (in_slowlog i) lane now_secs total_us
                  (mkSlowRecord queue_us exec_us Kind_Set origin (Z.min (len sets) U32_MAX) (s_key first)
                     (foldr Z.add 0 ((fun set => len (s_value set)) <$> sets)) (Z.min (len sets) U32_MAX))
            end;
  Ok (mkIntrospect slowlog hotkeys (in_hottags i), rng).

Definition invalidated_tag (i : Introspect) (lane : nat) (tag : bytes) : Result Empty_set Introspect :=
  hottags ← HotTags_invalidated (in_hottags i) lane tag;
  Ok (mkIntrospect (in_slowlog i) (in_hotkeys i) hottags).

End Introspect.
