(* ===== verification/IntrospectSpec.v ===== *)
(** What the hot keys, the hot tags and the slow log promise.

    Both rankings are refinements of one step relation, that of the Space-Saving
    summary ([Observed]); what a summary bounds is proved of the relation
    ([Bracketed]) and carried through the merge of the lanes.  The slow log keeps
    the newest entries of every lane, so a short page of the merged log is the
    newest of all. *)

From S2P Require Import Prelude Bytes Text Core Record Glob Clock Arith Float Command Backend Conn Introspect.

(** ** Lists *)

Section Lists.
Context {A : Type}.

Lemma update_first_some (p : A -> bool) f l l' :
  update_first p f l = Some l' -> exists l1 x l2, l = l1 ++ x :: l2 /\ p x = true /\ l' = l1 ++ f x :: l2.
Proof.
  revert l'. induction l as [|x l IH]; intros l' H; simpl in H; [done|]. destruct (p x) eqn:E.
  - injection H as <-. by exists [], x, l.
  - destruct (update_first p f l) as [k|] eqn:Ek; [|done]. injection H as <-.
    destruct (IH k eq_refl) as (l1 & y & l2 & -> & Hp & ->). by exists (x :: l1), y, l2.
Qed.

Lemma update_first_none (p : A -> bool) f l : update_first p f l = None -> forall x, x ∈ l -> p x = false.
Proof.
  induction l as [|x l IH]; simpl; intros H y Hy; [by apply elem_of_nil in Hy|]. destruct (p x) eqn:E; [done|].
  destruct (update_first p f l); [done|]. apply elem_of_cons in Hy as [->|Hy]; [done|by apply IH].
Qed.

Lemma min_by_key_spec (key : A -> Z) l :
  l <> [] -> exists l1 v l2, min_by_key key l = Some (length l1) /\ l = l1 ++ v :: l2 /\ forall x, x ∈ l -> key v <= key x.
Proof.
  induction l as [|x l IH]; intros H; [done|]. simpl. destruct l as [|y l].
  - exists [], x, []. split; [done|]. split; [done|]. intros z Hz%list_elem_of_singleton. subst. lia.
  - destruct (IH ltac:(done)) as (l1 & v & l2 & -> & Heq & Hle).
    rewrite Heq, list_lookup_middle by done. destruct (Z.ltb_spec (key v) (key x)).
    + exists (x :: l1), v, l2. split; [done|]. split; [done|]. intros z [->|Hz]%elem_of_cons; [lia|]. apply Hle. by rewrite Heq.
    + exists [], x, (l1 ++ v :: l2). split; [done|]. split; [done|]. intros z [->|Hz]%elem_of_cons; [lia|].
      rewrite <- Heq in Hz. specialize (Hle z Hz). lia.
Qed.

Lemma alter_middle (f : A -> A) l1 x l2 : alter f (length l1) (l1 ++ x :: l2) = l1 ++ f x :: l2.
Proof. induction l1 as [|y l1 IH]; [done|]. simpl. by f_equal. Qed.

Lemma elem_replaced l1 (c' x : A) l2 : x ∈ l1 ++ c' :: l2 <-> x = c' \/ x ∈ l1 ++ l2.
Proof. rewrite !elem_of_app, elem_of_cons. tauto. Qed.

Lemma elem_middle l1 (x : A) l2 : x ∈ l1 ++ x :: l2.
Proof. apply elem_replaced. by left. Qed.

Lemma elem_beside l1 (c x : A) l2 : x ∈ l1 ++ l2 -> x ∈ l1 ++ c :: l2.
Proof. intros H. apply elem_replaced. by right. Qed.

(** The sum of a measure over a list. *)
Definition weigh (f : A -> Z) (l : list A) : Z := foldr (fun x acc => f x + acc) 0 l.

Lemma weigh_app f l l' : weigh f (l ++ l') = weigh f l + weigh f l'.
Proof. induction l as [|x l IH]; simpl; lia. Qed.

Lemma weigh_ge f l b : (forall x, x ∈ l -> b <= f x) -> Z.of_nat (length l) * b <= weigh f l.
Proof.
  induction l as [|x l IH]; intros H; cbn [weigh foldr length]; [lia|].
  assert (b <= f x) by (apply H; by left). fold (weigh f l). assert (Z.of_nat (length l) * b <= weigh f l) by (apply IH; intros; apply H; by right).
  lia.
Qed.

Lemma weigh_le_seq f (g : nat -> Z) l start :
  (forall j x, l !! j = Some x -> f x <= g (start + j)%nat) ->
  weigh f l <= foldr (fun j acc => g j + acc) 0 (seq start (length l)).
Proof.
  revert start. induction l as [|x l IH]; intros start H; simpl; [lia|].
  pose proof (H 0%nat x eq_refl) as H0. rewrite Nat.add_0_r in H0. fold (weigh f l).
  specialize (IH (S start)). assert (weigh f l <= foldr (fun j acc => g j + acc) 0 (seq (S start) (length l))); [|lia].
  apply IH. intros j y Hj. replace (S start + j)%nat with (start + S j)%nat by lia. by apply H.
Qed.

End Lists.

Definition over (n : nat) (g : nat -> Z) : Z := weigh g (seq 0 n).

Lemma weigh_over {A} (f : A -> Z) (g : nat -> Z) l :
  (forall j x, l !! j = Some x -> f x <= g j) -> weigh f l <= over (length l) g.
Proof. intros H. by apply (weigh_le_seq f g l 0). Qed.

Lemma weigh_over_eq {A} (f : A -> Z) (g : nat -> Z) l :
  (forall j x, l !! j = Some x -> f x = g j) -> weigh f l = over (length l) g.
Proof.
  intros H. apply Z.le_antisymm; [apply weigh_over; intros j x Hj; rewrite (H j x Hj); lia|].
  pose proof (weigh_over (fun x => - f x) (fun j => - g j) l) as Hn.
  assert (forall (B : Type) (k : B -> Z) (t : list B), weigh (fun x => - k x) t = - weigh k t) as Hneg
    by (intros B k t; induction t; simpl; lia).
  unfold over in *. rewrite !Hneg in Hn. specialize (Hn ltac:(intros j x Hj; rewrite (H j x Hj); lia)). lia.
Qed.

Lemma over_add n f g : over n (fun j => f j + g j) = over n f + over n g.
Proof. unfold over. induction (seq 0 n) as [|x l IH]; simpl; lia. Qed.

Lemma over_mul n c f : over n (fun j => c * f j) = c * over n f.
Proof. unfold over. induction (seq 0 n) as [|x l IH]; simpl; lia. Qed.

Lemma over_le n f g : (forall j, (j < n)%nat -> f j <= g j) -> over n f <= over n g.
Proof.
  unfold over. intros H. assert (Forall (fun j => f j <= g j) (seq 0 n)) as HF
    by (apply Forall_forall; intros j Hj%elem_of_seq; apply H; lia).
  induction HF; simpl; lia.
Qed.

Lemma over_ext n f g : (forall j, (j < n)%nat -> f j = g j) -> over n f = over n g.
Proof. intros H. apply Z.le_antisymm; apply over_le; intros j Hj; rewrite H by done; lia. Qed.

Lemma over_single n i b : (i < n)%nat -> over n (fun j => if decide (j = i) then b else 0) = b.
Proof.
  intros Hi. unfold over. replace n with (i + S (n - S i))%nat by lia. rewrite seq_app, weigh_app. simpl.
  rewrite decide_True by lia.
  assert (forall s m, (forall j, j ∈ seq s m -> j <> i) -> weigh (fun j => if decide (j = i) then b else 0) (seq s m) = 0) as H.
  { intros s m. induction (seq s m) as [|x l IH]; intros Hne; [done|]. simpl. rewrite decide_False by (apply Hne; by left).
    apply IH. intros j Hj. apply Hne. by right. }
  fold (weigh (fun j => if decide (j = i) then b else 0) (seq (S i) (n - S i))).
  rewrite !H; [lia| |]; intros j Hj%elem_of_seq; lia.
Qed.

(** How often a digest was seen. *)
Definition tally (d : Z) (seen : list Z) : Z := len (filter (fun x => x = d) seen).

Lemma tally_nonneg d seen : 0 <= tally d seen.
Proof. unfold tally, len. lia. Qed.

Lemma tally_snoc d seen x : tally d (seen ++ [x]) = tally d seen + if decide (x = d) then 1 else 0.
Proof.
  unfold tally, len. rewrite filter_app, length_app, filter_cons. destruct (decide (x = d)); simpl; lia.
Qed.

(** ** The Space-Saving summary *)

Section SpaceSaving.
Context {C : Type} (digest total err : C -> Z).

(** A seen digest is counted in its slot; or takes a new one; or, where there is
    no room, takes the slot of a digest that was seen least, and its count. *)
Inductive Observed (m : nat) (d : Z) : list C -> list C -> Prop :=
| Observed_hit l1 c c' l2 :
    digest c = d -> digest c' = d -> total c' = total c + 1 -> err c' = err c ->
    Observed m d (l1 ++ c :: l2) (l1 ++ c' :: l2)
| Observed_fresh l c :
    d ∉ digest <$> l -> (length l < m)%nat -> digest c = d -> total c = 1 -> err c = 0 ->
    Observed m d l (l ++ [c])
| Observed_take l1 v c l2 :
    d ∉ digest <$> (l1 ++ v :: l2) -> length (l1 ++ v :: l2) = m ->
    (forall x, x ∈ l1 ++ v :: l2 -> total v <= total x) ->
    digest c = d -> total c = total v + 1 -> err c = total v ->
    Observed m d (l1 ++ v :: l2) (l1 ++ c :: l2).

(** What a summary of [m] slots knows of what it has seen. *)
Record Bracketed (m : nat) (seen : list Z) (l : list C) : Prop := {
  br_size : (length l <= m)%nat;
  br_distinct : NoDup (digest <$> l);
  br_sum : weigh total l = len seen;
  br_counts c : c ∈ l -> 0 <= err c /\ 1 <= total c - err c <= tally (digest c) seen /\ tally (digest c) seen <= total c;
  br_rest d : d ∉ digest <$> l ->
    tally d seen = 0 \/ (length l = m /\ forall c, c ∈ l -> tally d seen <= total c)
}.

Lemma bracketed_nil m : Bracketed m [] [].
Proof. split; try done; [simpl; lia|constructor|by intros c ?%elem_of_nil|by left]. Qed.

Lemma replaced_distinct l1 (c c' : C) l2 :
  NoDup (digest <$> l1 ++ c :: l2) -> digest c' = digest c \/ digest c' ∉ digest <$> (l1 ++ c :: l2) ->
  NoDup (digest <$> l1 ++ c' :: l2).
Proof.
  rewrite !fmap_app. cbn [fmap list_fmap]. intros Hd [->|Hn]; [done|].
  rewrite <- Permutation_middle in Hd |- *. rewrite <- Permutation_middle in Hn.
  apply NoDup_cons in Hd as [_ Hd]. apply NoDup_cons. split; [|done]. intros H. apply Hn. by right.
Qed.

Lemma others_differ l1 (c x : C) l2 : NoDup (digest <$> l1 ++ c :: l2) -> x ∈ l1 ++ l2 -> digest x <> digest c.
Proof.
  rewrite fmap_app. cbn [fmap list_fmap]. rewrite <- Permutation_middle, NoDup_cons. intros [Hn _] Hx Heq. apply Hn.
  rewrite <- Heq, <- fmap_app. by apply list_elem_of_fmap_2.
Qed.

Lemma digest_replaced l1 (c' : C) l2 d :
  d ∈ digest <$> (l1 ++ c' :: l2) <-> d = digest c' \/ d ∈ digest <$> (l1 ++ l2).
Proof.
  rewrite !list_elem_of_fmap. setoid_rewrite elem_replaced. split.
  - intros (x & -> & [->|Hx]); [by left|]. right. by exists x.
  - intros [->|(x & -> & Hx)]; [exists c'; split; [done|by left]|]. exists x. split; [done|by right].
Qed.

Lemma hit_bracketed m seen l1 c c' l2 d :
  Bracketed m seen (l1 ++ c :: l2) -> digest c = d -> digest c' = d -> total c' = total c + 1 -> err c' = err c ->
  Bracketed m (seen ++ [d]) (l1 ++ c' :: l2).
Proof.
  intros [Hs Hd Hw Hc Hr] E1 E2 E3 E4.
  assert (forall x, x ∈ l1 ++ l2 -> x ∈ l1 ++ c :: l2) as Hold by (intros x Hx; by apply elem_beside).
  split.
  - rewrite length_app in *. simpl in *. done.
  - apply (replaced_distinct _ c); [done|left; congruence].
  - rewrite weigh_app in *. unfold len in *. rewrite length_app. simpl in *. lia.
  - intros x [->|Hx]%elem_replaced; rewrite tally_snoc.
    + destruct (Hc c (elem_middle _ _ _)) as (H1 & H2 & H3). rewrite E2, E1 in *.
      rewrite decide_True by done. lia.
    + destruct (Hc x (Hold x Hx)) as (H1 & H2 & H3). pose proof (others_differ _ _ _ _ Hd Hx).
      rewrite decide_False by congruence. lia.
  - intros d' Hd'. rewrite digest_replaced, E2 in Hd'. assert (d' <> d) by tauto.
    rewrite tally_snoc, decide_False by congruence.
    assert (d' ∉ digest <$> l1 ++ c :: l2) as Hn by (rewrite digest_replaced, E1; tauto).
    destruct (Hr d' Hn) as [H0|[Hl Hall]]; [left; lia|right]. split; [rewrite length_app in *; done|].
    intros x [->|Hx]%elem_replaced; [|specialize (Hall x (Hold x Hx)); lia].
    specialize (Hall c (elem_middle _ _ _)). lia.
Qed.

Lemma fresh_bracketed m seen l c d :
  Bracketed m seen l -> d ∉ digest <$> l -> (length l < m)%nat -> digest c = d -> total c = 1 -> err c = 0 ->
  Bracketed m (seen ++ [d]) (l ++ [c]).
Proof.
  intros [Hs Hd Hw Hc Hr] Hn Hlt E1 E2 E3.
  assert (tally d seen = 0) as H0 by (destruct (Hr d Hn) as [?|[? _]]; [done|lia]).
  split.
  - rewrite length_app. simpl. lia.
  - rewrite fmap_app. apply NoDup_app. split; [done|]. split; [|apply NoDup_singleton].
    intros x Hx ->%list_elem_of_singleton. congruence.
  - rewrite weigh_app. unfold len in *. rewrite length_app. simpl. lia.
  - intros x [Hx| ->%list_elem_of_singleton]%elem_of_app; rewrite tally_snoc.
    + destruct (Hc x Hx) as (H1 & H2 & H3). rewrite decide_False; [lia|]. intros ->. apply Hn. by apply list_elem_of_fmap_2.
    + rewrite E1, decide_True by done. lia.
  - intros d' Hd'. rewrite fmap_app, elem_of_app in Hd'. cbn [fmap list_fmap] in Hd'. rewrite list_elem_of_singleton, E1 in Hd'.
    left. rewrite tally_snoc, decide_False by (intros ->; tauto). destruct (Hr d' ltac:(tauto)) as [?|[? _]]; lia.
Qed.

Lemma take_bracketed m seen l1 v c l2 d :
  Bracketed m seen (l1 ++ v :: l2) -> d ∉ digest <$> (l1 ++ v :: l2) -> length (l1 ++ v :: l2) = m ->
  (forall x, x ∈ l1 ++ v :: l2 -> total v <= total x) ->
  digest c = d -> total c = total v + 1 -> err c = total v -> Bracketed m (seen ++ [d]) (l1 ++ c :: l2).
Proof.
  intros [Hs Hd Hw Hc Hr] Hn Hl Hmin E1 E2 E3.
  assert (tally d seen <= total v) as Hdv.
  { destruct (Hr d Hn) as [?|[_ Hall]]; [|apply Hall, elem_middle].
    destruct (Hc v (elem_middle _ _ _)) as (? & ? & ?). lia. }
  assert (forall x, x ∈ l1 ++ l2 -> x ∈ l1 ++ v :: l2) as Hold by (intros x Hx; by apply elem_beside).
  destruct (Hc v (elem_middle _ _ _)) as (Hv1 & Hv2 & Hv3).
  split.
  - rewrite length_app in *. simpl in *. lia.
  - apply (replaced_distinct _ v); [done|right; congruence].
  - rewrite weigh_app in *. unfold len in *. rewrite length_app. simpl in *. lia.
  - intros x [->|Hx]%elem_replaced; rewrite tally_snoc.
    + rewrite E1, decide_True by done. pose proof (tally_nonneg d seen). lia.
    + destruct (Hc x (Hold x Hx)) as (? & ? & ?). rewrite decide_False; [lia|]. intros ->. apply Hn.
      by apply list_elem_of_fmap_2, Hold.
  - intros d' Hd'. rewrite digest_replaced, E1 in Hd'. right. split; [rewrite length_app in *; done|].
    rewrite tally_snoc, decide_False by (intros ->; tauto).
    assert (forall x, x ∈ l1 ++ v :: l2 -> tally d' seen <= total x) as Hall.
    { intros x Hx. destruct (Z.eq_dec d' (digest v)) as [->|Hne]; [specialize (Hmin x Hx); lia|].
      destruct (Hr d' ltac:(rewrite digest_replaced; tauto)) as [->|[_ Ha]]; [|by apply Ha].
      destruct (Hc x Hx) as (? & ? & ?). lia. }
    intros x [->|Hx]%elem_replaced; [|specialize (Hall x (Hold x Hx)); lia].
    specialize (Hall v (elem_middle _ _ _)). lia.
Qed.

Lemma observed_bracketed m seen l l' d :
  Bracketed m seen l -> Observed m d l l' -> Bracketed m (seen ++ [d]) l'.
Proof.
  intros HB H. destruct H as [l1 c c' l2|l c|l1 v c l2];
    [by eapply hit_bracketed|by apply fresh_bracketed|by eapply take_bracketed].
Qed.

(** A digest seen more often than one time in [m] has a slot. *)
Lemma bracketed_heavy m seen l d :
  Bracketed m seen l -> d ∉ digest <$> l -> Z.of_nat m * tally d seen <= len seen.
Proof.
  intros [Hs Hd Hw Hc Hr] Hn. destruct (Hr d Hn) as [->|[<- Hall]]; [unfold len; lia|].
  rewrite <- Hw. by apply weigh_ge.
Qed.

(** While there are no more digests than slots, nothing is evicted and every
    count is exact. *)
Lemma observed_exact m D l l' d :
  (length D <= m)%nat -> d ∈ D -> NoDup (digest <$> l) ->
  (forall c, c ∈ l -> digest c ∈ D /\ err c = 0) -> Observed m d l l' ->
  forall c, c ∈ l' -> digest c ∈ D /\ err c = 0.
Proof.
  intros HD Hd Hn Hl H. destruct H as [l1 c c' l2 E1 E2 E3 E4|l c Hout Hlt E1 E2 E3|l1 v c l2 Hout Hm Hmin E1 E2 E3].
  - intros x [->|Hx]%elem_replaced; [|by apply Hl, elem_beside]. split; [congruence|].
    rewrite E4. apply Hl, elem_middle.
  - intros x [Hx| ->%list_elem_of_singleton]%elem_of_app; [by apply Hl|]. split; congruence.
  - exfalso. assert (S m <= length D)%nat; [|lia]. rewrite <- Hm, <- (length_fmap digest).
    change (length (d :: (digest <$> l1 ++ v :: l2)) <= length D)%nat. apply submseteq_length, NoDup_submseteq.
    + by constructor.
    + intros x [->|(y & -> & Hy)%list_elem_of_fmap]%elem_of_cons; [done|by apply Hl].
Qed.

End SpaceSaving.

(** ** The merge of the lanes *)

Section Merging.
Context {C : Type} (digest : C -> Z) (add : C -> C -> C).
Hypothesis add_digest : forall a b, digest (add a b) = digest a.

(** [merge]'s inner loop. *)
Definition merge_one (acc : list C) (c : C) : list C :=
  match update_first (fun x => digest x =? digest c) (fun x => add x c) acc with Some acc => acc | None => acc ++ [c] end.

(** What the slots of a digest hold together. *)
Definition weight (f : C -> Z) (d : Z) (l : list C) : Z := weigh f (filter (fun c => digest c = d) l).

Lemma weight_cons f d c l : weight f d (c :: l) = (if decide (digest c = d) then f c else 0) + weight f d l.
Proof. unfold weight. rewrite filter_cons. destruct (decide _); simpl; lia. Qed.

Lemma weight_app f d l l' : weight f d (l ++ l') = weight f d l + weight f d l'.
Proof. unfold weight. by rewrite filter_app, weigh_app. Qed.

Lemma weight_absent f d l : d ∉ digest <$> l -> weight f d l = 0.
Proof.
  induction l as [|c l IH]; intros H; [done|]. rewrite fmap_cons, not_elem_of_cons in H. destruct H as [Hne H].
  rewrite weight_cons, decide_False, IH by congruence. lia.
Qed.

Lemma weight_present f c l : NoDup (digest <$> l) -> c ∈ l -> weight f (digest c) l = f c.
Proof.
  induction l as [|x l IH]; intros Hd Hc; [by apply elem_of_nil in Hc|]. rewrite fmap_cons, NoDup_cons in Hd.
  destruct Hd as [Hn Hd]. rewrite weight_cons. apply elem_of_cons in Hc as [->|Hc].
  - rewrite decide_True, weight_absent by done. lia.
  - rewrite decide_False, IH by (done || intros Heq; apply Hn; rewrite Heq; by apply list_elem_of_fmap_2). lia.
Qed.

Lemma merge_one_digests acc c :
  NoDup (digest <$> acc) -> NoDup (digest <$> merge_one acc c)
                            /\ forall d, d ∈ digest <$> merge_one acc c <-> d = digest c \/ d ∈ digest <$> acc.
Proof.
  intros Hd. unfold merge_one. destruct (update_first _ _ acc) as [acc'|] eqn:E.
  - apply update_first_some in E as (l1 & x & l2 & -> & Heq & ->). apply Z.eqb_eq in Heq.
    assert (digest <$> (l1 ++ add x c :: l2) = digest <$> (l1 ++ x :: l2)) as ->.
    { rewrite !fmap_app. cbn [fmap list_fmap]. by rewrite add_digest. }
    split; [done|]. intros d. split; [tauto|]. intros [->|?]; [|done]. rewrite <- Heq.
    apply list_elem_of_fmap_2, elem_middle.
  - pose proof (update_first_none _ _ _ E) as Hn. rewrite fmap_app. cbn [fmap list_fmap]. split.
    + apply NoDup_app. split; [done|]. split; [|apply NoDup_singleton].
      intros d (x & -> & Hx)%list_elem_of_fmap Hs%list_elem_of_singleton. apply Hn in Hx. lia.
    + intros d. rewrite elem_of_app, list_elem_of_singleton. tauto.
Qed.

Lemma merge_one_weight f acc c d :
  (forall a b, f (add a b) = f a + f b) -> weight f d (merge_one acc c) = weight f d acc + weight f d [c].
Proof.
  intros Hf. unfold merge_one. destruct (update_first _ _ acc) as [acc'|] eqn:E; [|by apply weight_app].
  apply update_first_some in E as (l1 & x & l2 & -> & Heq & ->). apply Z.eqb_eq in Heq.
  rewrite !weight_app, !weight_cons, add_digest, Hf, Heq. change (weight f d []) with 0. destruct (decide _); lia.
Qed.

Lemma merge_from l acc :
  NoDup (digest <$> acc) ->
  NoDup (digest <$> foldl merge_one acc l)
  /\ (forall d, d ∈ digest <$> foldl merge_one acc l <-> d ∈ digest <$> acc \/ d ∈ digest <$> l)
  /\ (forall f d, (forall a b, f (add a b) = f a + f b) -> weight f d (foldl merge_one acc l) = weight f d acc + weight f d l).
Proof.
  revert acc. induction l as [|c l IH]; intros acc Hd; cbn [foldl].
  - split; [done|]. split; [|intros f d _; change (weight f d []) with 0; lia]. intros d. rewrite elem_of_nil. tauto.
  - destruct (merge_one_digests acc c Hd) as [Hd' He]. destruct (IH _ Hd') as (H1 & H2 & H3). split; [done|]. split.
    + intros d. rewrite H2, He, fmap_cons, elem_of_cons. tauto.
    + intros f d Hf. rewrite H3, merge_one_weight, !weight_cons by done. change (weight f d []) with 0. lia.
Qed.

Lemma merge_keeps (P : C -> Prop) l acc :
  (forall a b, P a -> P (add a b)) -> (forall c, c ∈ acc -> P c) -> (forall c, c ∈ l -> P c) ->
  forall c, c ∈ foldl merge_one acc l -> P c.
Proof.
  intros Hadd. revert acc. induction l as [|x l IH]; intros acc Ha Hl; cbn [foldl]; [done|].
  apply IH; [|intros c Hc; apply Hl; by right]. intros c Hc. pose proof (Hl x ltac:(by left)) as Hx. revert Hc.
  unfold merge_one. destruct (update_first _ _ acc) as [acc'|] eqn:E.
  - apply update_first_some in E as (l1 & y & l2 & -> & _ & ->). intros [->|Hc]%elem_replaced.
    + apply Hadd, Ha, elem_middle.
    + by apply Ha, elem_beside.
  - intros [Hc| ->%list_elem_of_singleton]%elem_of_app; [by apply Ha|done].
Qed.

End Merging.

(** ** The hot keys *)

Section HotKeysSpec.
Context {HS : Hash}.

#[local] Notation Sample := (bytes * bool)%type.

Definition digests (seen : list Sample) : list Z := (fun x => xxh3_64 x.1) <$> seen.

Definition writes (d : Z) (seen : list Sample) : Z := tally d (digests (filter (fun x => x.2 = true) seen)).

(** A slot names a key that was seen, whole or cut, and claims no write that did
    not happen. *)
Record Honest (seen : list Sample) (c : Counter) : Prop := {
  ho_named : exists k w, (k, w) ∈ seen /\ c_digest c = xxh3_64 k /\ c_key c = kept_key k
                         /\ c_truncated c = (MAX_KEPT_KEY <? len k);
  ho_reads : 0 <= c_read_samples c;
  ho_writes : 0 <= c_write_samples c <= writes (c_digest c) seen
}.

Definition Sound (capacity : nat) (seen : list Sample) (s : Summary) : Prop :=
  Bracketed c_digest Counter_total c_error capacity (digests seen) (sm_counters s)
  /\ (forall c, c ∈ sm_counters s -> Honest seen c) /\ sm_sampled s = len seen.

Lemma writes_snoc d seen k w :
  writes d (seen ++ [(k, w)]) = writes d seen + if decide (xxh3_64 k = d) then one_if w else 0.
Proof.
  unfold writes, digests. rewrite filter_app, filter_cons. destruct w; cbn [snd].
  - rewrite decide_True by done. rewrite fmap_app. cbn [filter list_filter fmap list_fmap fst].
    rewrite tally_snoc. simpl. repeat case_decide; done || lia.
  - rewrite decide_False by done. rewrite app_nil_r. simpl. destruct (decide _); by rewrite Z.add_0_r.
Qed.

Lemma honest_later seen k w c : Honest seen c -> Honest (seen ++ [(k, w)]) c.
Proof.
  intros [(k' & w' & Hin & Hn) Hr Hw]. split; [exists k', w'; split; [by apply elem_of_app; left|done]|done|].
  rewrite writes_snoc. destruct w, (decide _); simpl; lia.
Qed.

Lemma not_digest d (l : list Counter) : (forall x, x ∈ l -> (c_digest x =? d) = false) -> d ∉ c_digest <$> l.
Proof. intros H (x & -> & Hx)%list_elem_of_fmap. apply H in Hx. lia. Qed.

(** The summary of the code is the Space-Saving summary, and stays honest. *)
Lemma Summary_observe_spec s capacity key write seen :
  (0 < capacity)%nat -> (length (sm_counters s) <= capacity)%nat -> (forall c, c ∈ sm_counters s -> Honest seen c) ->
  exists counters,
    Summary_observe s capacity (xxh3_64 key) key write = Ok (mkSummary counters (sm_sampled s + 1))
    /\ Observed c_digest Counter_total c_error capacity (xxh3_64 key) (sm_counters s) counters
    /\ (forall c, c ∈ counters -> Honest (seen ++ [(key, write)]) c).
Proof.
  intros Hc Hl Hh. unfold Summary_observe.
  destruct (update_first _ _ (sm_counters s)) as [counters|] eqn:E.
  - apply update_first_some in E as (l1 & c & l2 & Hl' & Hd & ->). apply Z.eqb_eq in Hd. rewrite Hl' in *.
    eexists. split; [done|]. split; [destruct write; by constructor; unfold Counter_total; simpl; lia|].
    intros x [->|Hx]%elem_replaced; [|by apply honest_later, Hh, elem_beside].
    destruct (Hh c (elem_middle _ _ _)) as [(k & w & Hin & Hn) Hr Hw].
    assert (exists k' w', (k', w') ∈ seen ++ [(key, write)] /\ c_digest c = xxh3_64 k' /\ c_key c = kept_key k'
                          /\ c_truncated c = (MAX_KEPT_KEY <? len k')) as Hn'
      by (exists k, w; split; [by apply elem_of_app; left|done]).
    pose proof (writes_snoc (c_digest c) seen key write) as Hs. rewrite decide_True in Hs by done.
    destruct write; split; cbn [c_digest c_key c_truncated c_read_samples c_write_samples one_if] in *; try done; lia.
  - pose proof (not_digest _ _ (update_first_none _ _ _ E)) as Hn.
    assert (forall reads writes' err, 0 <= reads -> writes' = one_if write ->
              Honest (seen ++ [(key, write)]) (mkCounter (xxh3_64 key) (kept_key key) (MAX_KEPT_KEY <? len key) reads writes' err))
      as Hnew.
    { intros reads writes' err Hr ->. split; simpl; [|done|].
      - exists key, write. split; [|done]. apply elem_of_app. right. by apply list_elem_of_singleton.
      - rewrite writes_snoc, decide_True by done. unfold writes.
        pose proof (tally_nonneg (xxh3_64 key) (digests (filter (fun x => x.2 = true) seen))). destruct write; simpl; lia. }
    destruct (Nat.ltb_spec (length (sm_counters s)) capacity) as [Hlt|Hge].
    + eexists. split; [done|]. split; [apply Observed_fresh; try done; unfold Counter_total; by destruct write|].
      intros x [Hx| ->%list_elem_of_singleton]%elem_of_app; [by apply honest_later, Hh|]. apply Hnew; [by destruct write|done].
    + destruct (min_by_key_spec Counter_total (sm_counters s)) as (l1 & v & l2 & -> & Hv & Hmin).
      { intros H0. rewrite H0 in Hge. simpl in Hge. lia. }
      rewrite Hv in *. rewrite alter_middle. cbv zeta. eexists. split; [done|].
      destruct (Hh v (elem_middle _ _ _)) as [_ Hr Hw].
      assert (0 <= Counter_total v) by (unfold Counter_total; lia). split.
      * apply Observed_take; [done|lia|done|done|unfold Counter_total; destruct write; simpl; lia|done].
      * intros x [->|Hx]%elem_replaced; [|by apply honest_later, Hh, elem_beside].
        apply Hnew; [destruct write; simpl; lia|done].
Qed.

Lemma sound_observe s capacity key write seen :
  (0 < capacity)%nat -> Sound capacity seen s ->
  exists s', Summary_observe s capacity (xxh3_64 key) key write = Ok s' /\ Sound capacity (seen ++ [(key, write)]) s'.
Proof.
  intros Hc (HB & HH & Hn). destruct (Summary_observe_spec s capacity key write seen Hc (br_size _ _ _ _ _ _ HB) HH)
    as (counters & -> & HO & HH'). eexists. split; [done|]. split; [|split; [done|]].
  - unfold digests. rewrite fmap_app. by apply (observed_bracketed _ _ _ _ _ (sm_counters s)).
  - simpl. unfold len in *. rewrite length_app. simpl. lia.
Qed.

(** What each lane has seen of a run of admitted samples. *)
Definition of_lane {A} (i : nat) (samples : list (nat * A)) : list A :=
  omap (fun x => if decide (x.1 = i) then Some x.2 else None) samples.

Lemma of_lane_snoc {A} i (samples : list (nat * A)) lane x :
  of_lane i (samples ++ [(lane, x)]) = of_lane i samples ++ if decide (lane = i) then [x] else [].
Proof. unfold of_lane. rewrite omap_app. simpl. by destruct (decide (lane = i)). Qed.

Lemma of_lane_cons {A} i (samples : list (nat * A)) lane x :
  of_lane i ((lane, x) :: samples) = (if decide (lane = i) then [x] else []) ++ of_lane i samples.
Proof. unfold of_lane. cbn [omap list_omap fst snd]. by destruct (decide (lane = i)). Qed.

Lemma of_lane_sum {A} (f : list A -> Z) (samples : list (nat * A)) n :
  f [] = 0 -> (forall l x, f (l ++ [x]) = f l + f [x]) -> (forall x, x ∈ samples -> (x.1 < n)%nat) ->
  over n (fun i => f (of_lane i samples)) = f samples.*2.
Proof.
  intros H0 Hf. induction samples as [|[lane x] samples IH] using rev_ind; intros Hl.
  - rewrite (over_ext n _ (fun _ => 0 * 0)); [rewrite over_mul; simpl; lia|]. intros j _. exact H0.
  - rewrite (over_ext n _ (fun i => f (of_lane i samples) + if decide (i = lane) then f [x] else 0)).
    + rewrite over_add, over_single, IH, fmap_app by
        first [by apply (Hl (lane, x)), elem_of_app; right; left | intros y Hy; apply Hl, elem_of_app; by left].
      simpl. by rewrite Hf.
    + intros j _. rewrite of_lane_snoc. destruct (decide (lane = j)) as [->|Hne].
      * rewrite decide_True by done. apply Hf.
      * rewrite app_nil_r, decide_False by congruence. lia.
Qed.

(** [admit], sample after sample, each on the lane of its thread. *)
Fixpoint admit_all (h : HotKeys) (samples : list (nat * Sample)) : Result Empty_set HotKeys :=
  match samples with
  | [] => Ok h
  | (lane, (key, write)) :: samples => h ← HotKeys_admit h lane key write; admit_all h samples
  end.

Definition KeysSound (samples : list (nat * Sample)) (h : HotKeys) : Prop :=
  (0 < hk_capacity h)%nat /\ length (hk_summaries h) = LANES
  /\ forall i s, hk_summaries h !! i = Some s -> Sound (hk_capacity h) (of_lane i samples) s.

Lemma keys_sound_new sample_rate capacity : KeysSound [] (HotKeys_new sample_rate capacity).
Proof.
  split; [simpl; lia|]. split; [apply length_replicate|]. intros i s [-> _]%lookup_replicate.
  split; [apply bracketed_nil|]. split; [by intros c ?%elem_of_nil|done].
Qed.

Lemma keys_sound_admit samples h lane key write :
  KeysSound samples h -> (lane < LANES)%nat ->
  exists h', HotKeys_admit h lane key write = Ok h' /\ KeysSound (samples ++ [(lane, (key, write))]) h'
             /\ hk_capacity h' = hk_capacity h /\ hk_sample_rate h' = hk_sample_rate h.
Proof.
  intros (Hc & Hl & Hs) Hlane. unfold HotKeys_admit.
  destruct (lookup_lt_is_Some_2 (hk_summaries h) lane) as [s Hls]; [by rewrite Hl|]. rewrite Hls.
  destruct (sound_observe s (hk_capacity h) key write _ Hc (Hs _ _ Hls)) as (s' & -> & Hs').
  eexists. split; [reflexivity|]. split; [|done]. split; [done|]. simpl. split; [by rewrite length_insert|].
  intros i t Hi. rewrite of_lane_snoc. apply list_lookup_insert_Some in Hi as [(<- & <- & _)|[Hne Hi]].
  - by rewrite decide_True.
  - rewrite decide_False, app_nil_r by done. by apply Hs.
Qed.

Lemma keys_sound_all samples h past :
  KeysSound past h -> (forall x, x ∈ samples -> (x.1 < LANES)%nat) ->
  exists h', admit_all h samples = Ok h' /\ KeysSound (past ++ samples) h'
             /\ hk_capacity h' = hk_capacity h /\ hk_sample_rate h' = hk_sample_rate h.
Proof.
  revert h past. induction samples as [|[lane [key write]] samples IH]; intros h past Hh Hl; cbn [admit_all].
  - exists h. by rewrite app_nil_r.
  - destruct (keys_sound_admit past h lane key write Hh) as (h1 & -> & Hh1 & E1 & E2); [apply (Hl (lane, (key, write))); by left|].
    destruct (IH h1 _ Hh1) as (h2 & Heq & Hh2 & E3 & E4); [intros x Hx; apply Hl; by right|].
    exists h2. rewrite <- app_assoc in Hh2. split; [exact Heq|]. split; [done|]. split; congruence.
Qed.

(** The merge, as one pass over the slots of every lane. *)
Definition add_counter (a b : Counter) : Counter :=
  mkCounter (c_digest a) (c_key a) (c_truncated a) (c_read_samples a + c_read_samples b)
    (c_write_samples a + c_write_samples b) (c_error a + c_error b).

Lemma HotKeys_merge_eq h :
  HotKeys_merge h =
  mkMerged (merge_sort hotter (foldl (merge_one c_digest add_counter) [] (concat (sm_counters <$> hk_summaries h))))
    (weigh sm_sampled (hk_summaries h)) (hk_sample_rate h).
Proof.
  unfold HotKeys_merge.
  assert (forall l acc n,
    foldl (fun '(counters, sampled) summary =>
             (foldl merge_counter counters (sm_counters summary), sampled + sm_sampled summary)) (acc, n) l
    = (foldl (merge_one c_digest add_counter) acc (concat (sm_counters <$> l)), n + weigh sm_sampled l)) as H.
  { induction l as [|s l IH]; intros acc n; [by rewrite Z.add_0_r|]. cbn [foldl]. rewrite IH.
    cbn [fmap list_fmap concat weigh foldr]. rewrite foldl_app. fold (weigh sm_sampled l). by rewrite Z.add_assoc. }
  by rewrite H.
Qed.

#[global] Instance hotter_trans : Transitive hotter.
Proof. intros a b c. unfold hotter. lia. Qed.

#[global] Instance hotter_total : Total hotter.
Proof. intros a b. unfold hotter. lia. Qed.

Lemma weigh_concat f (l : list Summary) d :
  weight c_digest f d (concat (sm_counters <$> l)) = weigh (fun s => weight c_digest f d (sm_counters s)) l.
Proof. induction l as [|s l IH]; [done|]. cbn [fmap list_fmap concat]. by rewrite weight_app, IH. Qed.

Lemma weight_le f d (l : list Counter) : (forall c, c ∈ l -> 0 <= f c) -> weight c_digest f d l <= weigh f l.
Proof.
  induction l as [|c l IH]; intros H; [done|]. rewrite weight_cons. cbn [weigh foldr]. fold (weigh f l).
  assert (0 <= f c) by (apply H; by left). specialize (IH ltac:(intros x Hx; apply H; by right)).
  destruct (decide _); lia.
Qed.

(** What one lane's slots say of a digest. *)
Record LaneSays (seen : list Sample) (s : Summary) (d : Z) : Prop := {
  ls_error : 0 <= weight c_digest c_error d (sm_counters s);
  ls_low : 0 <= weight c_digest Counter_total d (sm_counters s) - weight c_digest c_error d (sm_counters s)
             <= tally d (digests seen);
  ls_writes : weight c_digest c_write_samples d (sm_counters s) <= writes d seen;
  ls_all : weight c_digest Counter_total d (sm_counters s) <= len seen;
  ls_there : d ∈ c_digest <$> sm_counters s ->
    1 <= weight c_digest Counter_total d (sm_counters s) - weight c_digest c_error d (sm_counters s)
    /\ tally d (digests seen) <= weight c_digest Counter_total d (sm_counters s)
}.

Lemma sound_lane capacity seen s d : Sound capacity seen s -> LaneSays seen s d.
Proof.
  intros (HB & HH & _).
  assert (weight c_digest Counter_total d (sm_counters s) <= len seen) as Hall.
  { etransitivity; [apply weight_le; intros c Hc; unfold Counter_total; destruct (HH c Hc); lia|].
    rewrite (br_sum _ _ _ _ _ _ HB). unfold len, digests. rewrite length_fmap. done. }
  destruct (decide (d ∈ c_digest <$> sm_counters s)) as [Hin|Hout].
  - apply list_elem_of_fmap in Hin as (c & -> & Hc). pose proof (br_distinct _ _ _ _ _ _ HB) as Hd.
    destruct (br_counts _ _ _ _ _ _ HB c Hc) as (? & ? & ?). destruct (HH c Hc) as [_ _ ?].
    rewrite weight_present in Hall by done. split; rewrite ?weight_present by done; lia.
  - pose proof (tally_nonneg d (digests seen)). pose proof (tally_nonneg d (digests (filter (fun x => x.2 = true) seen))).
    rewrite weight_absent in Hall by done. unfold writes.
    split; rewrite ?weight_absent by done; try done; lia.
Qed.

Lemma digests_sum (samples : list (nat * Sample)) d :
  (forall x, x ∈ samples -> (x.1 < LANES)%nat) ->
  over LANES (fun i => tally d (digests (of_lane i samples))) = tally d (digests samples.*2)
  /\ over LANES (fun i => writes d (of_lane i samples)) = writes d samples.*2
  /\ over LANES (fun i => len (of_lane i samples)) = len samples.
Proof.
  intros Hl. split; [|split].
  - apply (of_lane_sum (fun l => tally d (digests l))); [done| |done]. intros l x. unfold digests. rewrite fmap_app.
    cbn [fmap list_fmap]. rewrite tally_snoc. unfold tally. rewrite filter_cons. destruct (decide _); done.
  - apply (of_lane_sum (fun l => writes d l)); [done| |done]. intros l [k w]. rewrite writes_snoc.
    pose proof (writes_snoc d [] k w) as H. cbn [app] in H. rewrite H. change (writes d []) with 0. lia.
  - rewrite (of_lane_sum (fun l => len l)); [unfold len; by rewrite length_fmap|done| |done].
    intros l x. unfold len. rewrite length_app. lia.
Qed.

(** A sum over the lanes' slots is bounded lane by lane. *)
Lemma lanes_le samples h f (g : nat -> Z) d :
  KeysSound samples h ->
  (forall i s, Sound (hk_capacity h) (of_lane i samples) s -> weight c_digest f d (sm_counters s) <= g i) ->
  weight c_digest f d (concat (sm_counters <$> hk_summaries h)) <= over LANES g.
Proof.
  intros (_ & Hl & Hs) H. rewrite weigh_concat, <- Hl. apply weigh_over. intros i s Hi. by apply H, Hs.
Qed.

Lemma weigh_sub {A} (f g : A -> Z) l : weigh (fun x => f x - g x) l = weigh f l - weigh g l.
Proof. induction l as [|x l IH]; simpl; lia. Qed.

Lemma weigh_member {A} (f : A -> Z) l x : (forall y, y ∈ l -> 0 <= f y) -> x ∈ l -> f x <= weigh f l.
Proof.
  intros H Hx. apply list_elem_of_split in Hx as (l1 & l2 & ->). rewrite weigh_app. cbn [weigh foldr]. fold (weigh f l2).
  assert (0 <= weigh f l1) by (etransitivity; [|apply (weigh_ge f l1 0); intros y Hy; apply H, elem_of_app; by left]; lia).
  assert (0 <= weigh f l2) by (etransitivity; [|apply (weigh_ge f l2 0); intros y Hy; apply H, elem_of_app; right; by right]; lia).
  lia.
Qed.

Lemma tracked_lane samples h d :
  KeysSound samples h -> d ∈ c_digest <$> concat (sm_counters <$> hk_summaries h) ->
  exists i s, hk_summaries h !! i = Some s /\ d ∈ c_digest <$> sm_counters s.
Proof.
  intros _ (c & -> & Hc)%list_elem_of_fmap. apply list_elem_of_In, in_concat in Hc as (l & Hl%list_elem_of_In & Hc%list_elem_of_In).
  apply list_elem_of_fmap in Hl as (s & -> & Hs). apply list_elem_of_lookup in Hs as [i Hi]. exists i, s. split; [done|].
  by apply list_elem_of_fmap_2.
Qed.

(** ** What the lanes' slots say together *)

Section Together.
Context (samples : list (nat * Sample)) (h : HotKeys) (d : Z).
Hypothesis HK : KeysSound samples h.
Hypothesis Hl : forall x, x ∈ samples -> (x.1 < LANES)%nat.

Let L := concat (sm_counters <$> hk_summaries h).
Let n := tally d (digests samples.*2).

Lemma lane_says i s : hk_summaries h !! i = Some s -> LaneSays (of_lane i samples) s d.
Proof. intros Hi. destruct HK as (_ & _ & Hs). by eapply sound_lane, Hs. Qed.

Lemma lanes_low : weight c_digest Counter_total d L - weight c_digest c_error d L <= n.
Proof.
  unfold L, n. rewrite !weigh_concat, <- weigh_sub. destruct (digests_sum samples d Hl) as (<- & _ & _).
  destruct HK as (_ & <- & _). apply weigh_over. intros i s Hi. apply (lane_says i s Hi).
Qed.

Lemma lanes_writes : weight c_digest c_write_samples d L <= writes d samples.*2.
Proof.
  destruct (digests_sum samples d Hl) as (_ & <- & _). apply (lanes_le samples); [done|]. intros i s Hi.
  by eapply sound_lane.
Qed.

Lemma lanes_all : weight c_digest Counter_total d L <= len samples.
Proof.
  destruct (digests_sum samples d Hl) as (_ & _ & <-). apply (lanes_le samples); [done|]. intros i s Hi.
  by eapply sound_lane.
Qed.

Lemma lanes_there :
  d ∈ c_digest <$> L -> 1 <= weight c_digest Counter_total d L - weight c_digest c_error d L.
Proof.
  intros Hin. destruct (tracked_lane samples h d HK Hin) as (i & s & Hi & Hd).
  destruct (ls_there _ _ _ (lane_says i s Hi) Hd) as [H1 _]. unfold L. rewrite !weigh_concat, <- weigh_sub.
  etransitivity; [exact H1|].
  apply (weigh_member (fun s => weight c_digest Counter_total d (sm_counters s) - weight c_digest c_error d (sm_counters s)));
    [|by eapply list_elem_of_lookup_2].
  intros y (k & Hy)%list_elem_of_lookup. apply (lane_says k y Hy).
Qed.

Lemma of_one_lane lane i :
  (forall x, x ∈ samples -> x.1 = lane) -> of_lane i samples = if decide (lane = i) then samples.*2 else [].
Proof.
  clear. induction samples as [|[l x] rest IH]; intros H; [by destruct (decide _)|].
  pose proof (H (l, x) ltac:(by left)) as Hx. simpl in Hx. subst l. rewrite of_lane_cons.
  rewrite IH by (intros y Hy; apply H; by right). by destruct (decide (lane = i)).
Qed.

Lemma lanes_one :
  (exists lane, forall x, x ∈ samples -> x.1 = lane) -> d ∈ c_digest <$> L -> n <= weight c_digest Counter_total d L.
Proof.
  intros [lane Hlane] Hin. destruct (tracked_lane samples h d HK Hin) as (i & s & Hi & Hd).
  destruct (ls_there _ _ _ (lane_says i s Hi) Hd) as [H1 H2]. pose proof (ls_low _ _ _ (lane_says i s Hi)) as H3.
  rewrite (of_one_lane lane i Hlane) in *. destruct (decide (lane = i)); [|change (tally d (digests [])) with 0 in *; lia].
  unfold n, L. rewrite weigh_concat. etransitivity; [exact H2|].
  apply (weigh_member (fun s => weight c_digest Counter_total d (sm_counters s))); [|by eapply list_elem_of_lookup_2].
  intros y (k & Hy)%list_elem_of_lookup. destruct (lane_says k y Hy). lia.
Qed.

Lemma lanes_heavy : d ∉ c_digest <$> L -> Z.of_nat (hk_capacity h) * n <= len samples.
Proof.
  intros Hout. unfold n. destruct (digests_sum samples d Hl) as (<- & _ & <-). rewrite <- over_mul. apply over_le.
  intros i Hi. destruct HK as (_ & Hlen & Hs). destruct (lookup_lt_is_Some_2 (hk_summaries h) i) as [s His]; [by rewrite Hlen|].
  destruct (Hs i s His) as (HB & _ & _). rewrite (bracketed_heavy _ _ _ _ _ _ d HB); [by unfold len, digests; rewrite length_fmap|].
  intros (c & -> & Hc)%list_elem_of_fmap. apply Hout. apply list_elem_of_fmap_2, list_elem_of_In, in_concat.
  exists (sm_counters s). split; [|by apply list_elem_of_In]. apply list_elem_of_In, list_elem_of_fmap_2.
  by eapply list_elem_of_lookup_2.
Qed.

Lemma lanes_honest c : c ∈ L -> Honest samples.*2 c.
Proof.
  intros Hc. apply list_elem_of_In, in_concat in Hc as (l & Hl'%list_elem_of_In & Hc%list_elem_of_In).
  apply list_elem_of_fmap in Hl' as (s & -> & Hs). apply list_elem_of_lookup in Hs as [i Hi].
  destruct HK as (_ & _ & Hsd). destruct (Hsd i s Hi) as (_ & HH & _). destruct (HH c Hc) as [(k & w & Hin & Hn) Hr Hw].
  assert (forall x, x ∈ of_lane i samples -> x ∈ samples.*2) as Hsub.
  { intros x (y & Hy & Hf)%list_elem_of_omap. destruct (decide _); [|done]. injection Hf as <-. by apply list_elem_of_fmap_2. }
  split; [exists k, w; split; [by apply Hsub|done]|done|]. split; [lia|].
  destruct (digests_sum samples (c_digest c) Hl) as (_ & <- & _). etransitivity; [apply Hw|].
  apply (weigh_member (fun j => writes (c_digest c) (of_lane j samples))).
  - intros y _. apply tally_nonneg.
  - apply elem_of_seq. destruct HK as (_ & Hlen & _). rewrite <- Hlen. split; [lia|]. by eapply lookup_lt_Some.
Qed.

End Together.

(** C38 Whatever keys are sampled on whatever threads, the ranking of the hot
    keys counts every sample, is in order, names each key once and truly, claims
    for it no more than was seen beyond its error, and leaves out no key that was
    seen more often than one sample in as many as a lane has counters; where one
    lane saw everything no key was seen more often than its count says. *)
Theorem hot_keys_exact (sample_rate : Z) (capacity : nat) (samples : list (nat * (bytes * bool))) :
  (forall x, x ∈ samples -> (x.1 < LANES)%nat) ->
  exists h, admit_all (HotKeys_new sample_rate capacity) samples = Ok h
  /\ let m := HotKeys_merge h in
     mg_sampled m = len samples
     /\ StronglySorted hotter (mg_counters m) /\ NoDup (c_digest <$> mg_counters m)
     /\ (forall c, c ∈ mg_counters m ->
         1 <= Counter_total c - c_error c <= tally (c_digest c) (digests samples.*2)
         /\ Counter_total c <= len samples /\ c_write_samples c <= writes (c_digest c) samples.*2
         /\ (exists k w, (k, w) ∈ samples.*2 /\ c_digest c = xxh3_64 k /\ c_key c = kept_key k
                         /\ c_truncated c = (MAX_KEPT_KEY <? len k))
         /\ ((exists lane, forall x, x ∈ samples -> x.1 = lane) ->
             tally (c_digest c) (digests samples.*2) <= Counter_total c))
     /\ (forall key, len samples < Z.max (Z.of_nat capacity) 1 * tally (xxh3_64 key) (digests samples.*2) ->
         exists c, c ∈ mg_counters m /\ c_digest c = xxh3_64 key).
Proof.
  intros Hl. destruct (keys_sound_all samples _ [] (keys_sound_new sample_rate capacity) Hl) as (h & Hh & HK & Hc & _).
  exists h. split; [done|]. rewrite HotKeys_merge_eq. cbv zeta. cbn [mg_sampled mg_counters app] in *.
  set (L := concat (sm_counters <$> hk_summaries h)).
  destruct (merge_from c_digest add_counter (fun _ _ => eq_refl) L [] NoDup_nil_2) as (Hd & He & Hw).
  pose proof (merge_sort_Permutation hotter (foldl (merge_one c_digest add_counter) [] L)) as HP.
  assert (forall c, c ∈ foldl (merge_one c_digest add_counter) [] L ->
    c_digest c ∈ c_digest <$> L /\ forall f, (forall a b, f (add_counter a b) = f a + f b) ->
                                           f c = weight c_digest f (c_digest c) L) as Hc'.
  { intros c Hin. split.
    - destruct (proj1 (He (c_digest c))) as [H|H]; [by apply list_elem_of_fmap_2|by apply elem_of_nil in H|done].
    - intros f Hf. rewrite <- (weight_present c_digest f c _ Hd Hin), Hw by done. by apply Z.add_0_l. }
  conjs.
  - destruct HK as (_ & Hlen & Hs). destruct (digests_sum samples 0 Hl) as (_ & _ & <-). rewrite <- Hlen.
    apply weigh_over_eq. intros i s Hi. apply (Hs i s Hi).
  - apply StronglySorted_merge_sort; apply _.
  - by rewrite HP.
  - intros c Hin. rewrite HP in Hin. destruct (Hc' c Hin) as [Hdig Hf].
    rewrite (Hf Counter_total), (Hf c_error), (Hf c_write_samples)
      by (done || intros a b; unfold Counter_total; simpl; lia).
    split; [split; [by apply (lanes_there samples)|by apply (lanes_low samples)]|].
    split; [by apply (lanes_all samples)|]. split; [by apply (lanes_writes samples)|].
    split; [|intros H1; by apply (lanes_one samples)].
    apply (merge_keeps c_digest add_counter (fun c => exists k w, (k, w) ∈ samples.*2 /\ c_digest c = xxh3_64 k
             /\ c_key c = kept_key k /\ c_truncated c = (MAX_KEPT_KEY <? len k)) L []); try done.
    + by intros a ?%elem_of_nil.
    + intros a Ha. apply (lanes_honest samples h 0 HK Hl a Ha).
  - intros key Hheavy. destruct (decide (xxh3_64 key ∈ c_digest <$> L)) as [Hin|Hout].
    + pose proof (proj2 (He (xxh3_64 key)) (or_intror Hin)) as (c & Heq & Hcin)%list_elem_of_fmap.
      exists c. split; [by rewrite HP|done].
    + pose proof (lanes_heavy samples h _ HK Hl Hout) as H. rewrite Hc in H. simpl in H. lia.
Qed.

End HotKeysSpec.

(** ** The hot tags *)

Section HotTagsSpec.
Context {HS : Hash}.

Lemma not_tag_digest d (l : list TagCounter) : (forall x, x ∈ l -> (tc_digest x =? d) = false) -> d ∉ tc_digest <$> l.
Proof. intros H (x & -> & Hx)%list_elem_of_fmap. apply H in Hx. lia. Qed.

(** The rule written out again is the same rule. *)
Lemma TagSummary_observe_spec s capacity digest name :
  (0 < capacity)%nat -> (length (tm_counters s) <= capacity)%nat ->
  exists counters,
    TagSummary_observe s capacity digest name = Ok (mkTagSummary counters (tm_total s + 1))
    /\ Observed tc_digest tc_invalidations tc_error capacity digest (tm_counters s) counters.
Proof.
  intros Hc Hl. unfold TagSummary_observe. destruct (update_first _ _ (tm_counters s)) as [counters|] eqn:E.
  - apply update_first_some in E as (l1 & c & l2 & Hl' & Hd & ->). apply Z.eqb_eq in Hd. rewrite Hl' in *.
    eexists. split; [done|]. by constructor.
  - pose proof (not_tag_digest _ _ (update_first_none _ _ _ E)) as Hn.
    destruct (Nat.ltb_spec (length (tm_counters s)) capacity) as [Hlt|Hge].
    + eexists. split; [done|]. by apply Observed_fresh.
    + destruct (min_by_key_spec tc_invalidations (tm_counters s)) as (l1 & v & l2 & -> & Hv & Hmin).
      { intros H0. rewrite H0 in Hge. simpl in Hge. lia. }
      rewrite Hv in *. rewrite alter_middle. cbv zeta. eexists. split; [done|].
      apply Observed_take; try done. lia.
Qed.

(** Invalidations, one after another, on one lane. *)
Fixpoint invalidate_all (s : TagSummary) (capacity : nat) (names : list bytes) : Result Empty_set TagSummary :=
  match names with
  | [] => Ok s
  | name :: names => s ← TagSummary_observe s capacity (xxh3_64 name) name; invalidate_all s capacity names
  end.

Definition TagsSound (capacity : nat) (D seen : list Z) (s : TagSummary) : Prop :=
  Bracketed tc_digest tc_invalidations tc_error capacity seen (tm_counters s) /\ tm_total s = len seen
  /\ ((length D <= capacity)%nat -> forall c, c ∈ tm_counters s -> tc_digest c ∈ D /\ tc_error c = 0).

Lemma tags_sound_all capacity D names s seen :
  (0 < capacity)%nat -> (forall name, name ∈ names -> xxh3_64 name ∈ D) -> TagsSound capacity D seen s ->
  exists s', invalidate_all s capacity names = Ok s' /\ TagsSound capacity D (seen ++ (xxh3_64 <$> names)) s'.
Proof.
  intros Hc. revert s seen. induction names as [|name names IH]; intros s seen HD (HB & Ht & HE); cbn [invalidate_all].
  - exists s. rewrite app_nil_r. by split.
  - destruct (TagSummary_observe_spec s capacity (xxh3_64 name) name Hc (br_size _ _ _ _ _ _ HB)) as (l & -> & HO).
    destruct (IH (mkTagSummary l (tm_total s + 1)) (seen ++ [xxh3_64 name])) as (s' & Hs' & HS').
    + intros n Hn. apply HD. by right.
    + split; [by apply (observed_bracketed _ _ _ _ _ (tm_counters s))|]. split.
      * simpl. unfold len in *. rewrite length_app. simpl. lia.
      * intros HDc. apply (observed_exact tc_digest tc_invalidations tc_error capacity D (tm_counters s) l (xxh3_64 name));
          [done|apply HD; by left|apply HB|by apply HE|done].
    + exists s'. split; [exact Hs'|]. rewrite <- app_assoc in HS'. exact HS'.
Qed.

(** A lane of the hot tags counts every invalidation, claims for no tag more than
    happened to it beyond its error, holds every tag that had more than one in as
    many as there are counters; and where no more tags were named than there are
    counters, every count is exact. *)
Theorem hot_tags_exact (capacity : nat) (names : list bytes) :
  (0 < capacity)%nat ->
  exists s, invalidate_all TagSummary_default capacity names = Ok s
  /\ tm_total s = len names /\ NoDup (tc_digest <$> tm_counters s)
  /\ (forall c, c ∈ tm_counters s ->
      tc_invalidations c - tc_error c <= tally (tc_digest c) (xxh3_64 <$> names) <= tc_invalidations c
      /\ ((length (remove_dups (xxh3_64 <$> names)) <= capacity)%nat ->
          tc_invalidations c = tally (tc_digest c) (xxh3_64 <$> names)))
  /\ (forall name, len names < Z.of_nat capacity * tally (xxh3_64 name) (xxh3_64 <$> names) ->
      xxh3_64 name ∈ tc_digest <$> tm_counters s).
Proof.
  intros Hc. destruct (tags_sound_all capacity (remove_dups (xxh3_64 <$> names)) names TagSummary_default [] Hc)
    as (s & Hs & HB & Ht & HE).
  - intros name Hn. apply elem_of_remove_dups. by apply list_elem_of_fmap_2.
  - split; [apply bracketed_nil|]. split; [done|]. by intros _ c ?%elem_of_nil.
  - exists s. cbn [app] in *. split; [done|]. split; [rewrite Ht; unfold len; by rewrite length_fmap|].
    split; [apply HB|]. split.
    + intros c Hin. destruct (br_counts _ _ _ _ _ _ HB c Hin) as (H1 & H2 & H3). split; [lia|]. intros HD.
      destruct (HE HD c Hin) as [_ H0]. lia.
    + intros name Hh. destruct (decide (xxh3_64 name ∈ tc_digest <$> tm_counters s)) as [|Hout]; [done|].
      pose proof (bracketed_heavy _ _ _ _ _ _ _ HB Hout) as H. unfold len in *. rewrite length_fmap in H. lia.
Qed.

End HotTagsSpec.

(** ** The sampler *)

Lemma shift_left_injective k x : 0 < k -> fits 32 x -> x = wrapping 32 (Z.shiftl x k) -> x = 0.
Proof.
  intros Hk Hf Hx.
  assert (forall n : nat, forall i, 0 <= i < Z.of_nat n -> Z.testbit x i = false) as H.
  { induction n as [|n IH]; intros i Hi; [lia|]. rewrite Hx. unfold wrapping.
    destruct (Z.lt_ge_cases i 32); [|rewrite Z.mod_pow2_bits_high by lia; done].
    rewrite Z.mod_pow2_bits_low, Z.shiftl_spec by lia.
    destruct (Z.lt_ge_cases i k); [by apply Z.testbit_neg_r; lia|]. apply IH. lia. }
  apply Z.bits_inj'. intros i Hi. rewrite Z.bits_0. apply (H (S (Z.to_nat i))). lia.
Qed.

Lemma shift_right_injective k x : 0 < k -> fits 32 x -> x = Z.shiftr x k -> x = 0.
Proof.
  intros Hk [Hf _] Hx. rewrite Z.shiftr_div_pow2 in Hx by lia. destruct (Z.eq_dec x 0) as [|Hne]; [done|].
  assert (1 < 2 ^ k) by (apply Z.pow_gt_1; lia). pose proof (Z.div_lt x (2 ^ k)). lia.
Qed.

Lemma lxor_fits x y : fits 32 x -> fits 32 y -> fits 32 (Z.lxor x y).
Proof.
  intros [Hx Hx'] [Hy Hy']. split; [by apply Z.lxor_nonneg|].
  destruct (Z.eq_dec (Z.lxor x y) 0) as [->|Hne]; [lia|]. apply Z.log2_lt_pow2.
  - pose proof (proj2 (Z.lxor_nonneg x y) ltac:(lia)). lia.
  - pose proof (Z.log2_lxor x y Hx Hy).
    assert (forall z, 0 <= z -> z < 2 ^ 32 -> Z.log2 z < 32) as Hl.
    { intros z H0 H1. destruct (Z.eq_dec z 0) as [->|]; [done|]. apply Z.log2_lt_pow2; lia. }
    pose proof (Hl x Hx Hx'). pose proof (Hl y Hy Hy'). lia.
Qed.

(** A generator that is not at zero never gets there, where it would stay. *)
Lemma xorshift_nonzero rng : fits 32 rng -> rng <> 0 -> fits 32 (xorshift rng) /\ xorshift rng <> 0.
Proof.
  intros Hf Hne. unfold xorshift. cbv zeta.
  assert (forall k x, 0 < k -> fits 32 x -> x <> 0 ->
    fits 32 (Z.lxor x (wrapping 32 (Z.shiftl x k))) /\ Z.lxor x (wrapping 32 (Z.shiftl x k)) <> 0) as HL.
  { intros k x Hk Hx H0. split; [apply lxor_fits; [done|by apply wrapping_fits]|].
    intros E%Z.lxor_eq. apply H0. by apply (shift_left_injective k). }
  destruct (HL 13 rng ltac:(lia) Hf Hne) as [H1 H2]. set (a := Z.lxor rng _) in *.
  assert (fits 32 (Z.lxor a (Z.shiftr a 17)) /\ Z.lxor a (Z.shiftr a 17) <> 0) as [H3 H4].
  { split.
    - apply lxor_fits; [done|]. destruct H1 as [H1 H1']. rewrite Z.shiftr_div_pow2 by lia.
      split; [by apply Z.div_pos|]. apply Z.div_lt_upper_bound; [done|]. unfold fits in *. lia.
    - intros E%Z.lxor_eq. apply H2. by apply (shift_right_injective 17). }
  by apply HL.
Qed.

Section Sampler.
Context {HS : Hash}.

(** The rate at its ends: zero samples nothing, one samples every key, and a rate
    above [2^31] nothing again - the mask is then the whole word, and the
    generator is never zero. *)
Theorem sampling_ends (capacity lane : nat) (seed rng : Z) (key : bytes) (write : bool) :
  fits 32 seed -> seed <> 0 -> fits 32 rng ->
  HotKeys_observe (HotKeys_new 0 capacity) lane seed rng key write = Ok (HotKeys_new 0 capacity, rng)
  /\ HotKeys_observe (HotKeys_new 1 capacity) lane seed rng key write =
     (h ← HotKeys_admit (HotKeys_new 1 capacity) lane key write; Ok (h, xorshift (if rng =? 0 then seed else rng)))
  /\ forall rate, 2 ^ 31 < rate < 2 ^ 64 ->
     HotKeys_observe (HotKeys_new rate capacity) lane seed rng key write
     = Ok (HotKeys_new rate capacity, xorshift (if rng =? 0 then seed else rng)).
Proof.
  intros Hs Hs0 Hr. split; [done|]. split.
  - unfold HotKeys_observe. cbn [HotKeys_new hk_enabled hk_mask]. cbv zeta.
    change (wrapping 32 (wrapping 64 (next_power_of_two (Z.max 1 1) - 1))) with 0. by rewrite Z.land_0_r.
  - intros rate Hrate. unfold HotKeys_observe. cbn [HotKeys_new hk_enabled hk_mask]. cbv zeta.
    rewrite (proj2 (Z.eqb_neq rate 0)) by lia. cbn [negb].
    assert (wrapping 32 (wrapping 64 (next_power_of_two (Z.max rate 1) - 1)) = Z.ones 32) as ->.
    { rewrite Z.max_l by lia. unfold next_power_of_two, wrapping.
      assert (32 <= Z.log2_up rate) as Hlog by (change 32 with (Z.succ 31); apply Z.le_succ_l, Z.log2_up_lt_pow2; lia).
      rewrite Zminus_mod_idemp_l, <- (Z.mod_mod_divide _ (2 ^ 64) (2 ^ 32)) by (exists (2 ^ 32); done).
      rewrite Zmod_mod, Z.mod_mod_divide by (exists (2 ^ 32); done).
      replace (2 ^ Z.log2_up rate) with (2 ^ (Z.log2_up rate - 32) * 2 ^ 32) by (rewrite <- Z.pow_add_r; [f_equal; lia|lia..]).
      rewrite Zminus_mod, Z_mod_mult. done. }
    rewrite Z.land_ones by done.
    assert (fits 32 (if rng =? 0 then seed else rng) /\ (if rng =? 0 then seed else rng) <> 0) as [H1 H2]
      by (destruct (Z.eqb_spec rng 0); done).
    destruct (xorshift_nonzero _ H1 H2) as [H3 H4]. unfold fits in H3. rewrite Z.mod_small by done.
    by rewrite (proj2 (Z.eqb_neq _ 0)).
Qed.

End Sampler.

(** ** The slow log *)

Section SlowlogSpec.
Context {HS : Hash} {SocketAddr : Type}.
Notation SlowEntry := (@SlowEntry SocketAddr).
Notation SlowRecord := (@SlowRecord SocketAddr).
Notation Slowlog := (@Slowlog SocketAddr).

(** The requests that crossed the threshold: the lane, the time, the record. *)
Notation Slow := (nat * (Z * SlowRecord))%type.

Fixpoint record_all (s : Slowlog) (slow : list Slow) : Result Empty_set Slowlog :=
  match slow with
  | [] => Ok s
  | (lane, (now_secs, record)) :: slow => s ← Slowlog_record s lane now_secs record; record_all s slow
  end.

(** Everything that was ever written, oldest first, with its lane. *)
Fixpoint written (id : Z) (slow : list Slow) : list (nat * SlowEntry) :=
  match slow with
  | [] => []
  | (lane, (now_secs, record)) :: slow => (lane, slow_entry id now_secs record) :: written (id + 1) slow
  end.

(** The last [n] of a list. *)
Definition last_of {A} (n : nat) (l : list A) : list A := drop (length l - n) l.

Lemma length_last_of {A} n (l : list A) : length (last_of n l) = Nat.min n (length l).
Proof. unfold last_of. rewrite length_drop. lia. Qed.

Lemma last_of_app {A} n (l l' : list A) : (length l' <= n)%nat -> exists l0, last_of n (l ++ l') = l0 ++ l'.
Proof.
  intros H. unfold last_of. rewrite length_app, drop_app.
  replace (length l + length l' - n - length l)%nat with O by lia. rewrite drop_0. eauto.
Qed.

Lemma last_of_sub {A} n (l : list A) x : x ∈ last_of n l -> x ∈ l.
Proof. apply subseteq_drop. Qed.

Lemma room_last_of max_len (l : list SlowEntry) e :
  (0 < max_len)%nat -> make_room max_len (last_of max_len l) ++ [e] = last_of max_len (l ++ [e]).
Proof.
  intros Hm. unfold make_room, last_of. rewrite drop_drop, length_drop, length_app, drop_app_le by (simpl; lia).
  f_equal. f_equal. simpl. lia.
Qed.

Record Logged (start : Z) (past : list (nat * SlowEntry)) (s : Slowlog) : Prop := {
  lg_lanes : length (sl_rings s) = LANES;
  lg_rings i ring : sl_rings s !! i = Some ring -> ring = last_of (sl_max_len s) (of_lane i past);
  lg_next : sl_next_id s = start + len past
}.

Lemma logged_record start past s lane now_secs record :
  Logged start past s -> (0 < sl_max_len s)%nat -> (lane < LANES)%nat -> 0 <= start -> start + len past + 1 < 2 ^ 64 ->
  exists s', Slowlog_record s lane now_secs record = Ok s'
  /\ Logged start (past ++ [(lane, slow_entry (start + len past) now_secs record)]) s'
  /\ sl_max_len s' = sl_max_len s /\ sl_threshold_us s' = sl_threshold_us s
  /\ sl_admitted s' = sl_admitted s + 1
  /\ sl_evicted s' + Z.of_nat (Slowlog_len s') = sl_evicted s + Z.of_nat (Slowlog_len s) + 1.
Proof.
  intros [Hl Hr Hn] Hm Hlane H0 Hw. unfold Slowlog_record. cbv zeta.
  destruct (lookup_lt_is_Some_2 (sl_rings s) lane) as [ring Hring]; [by rewrite Hl|]. rewrite Hring.
  eexists. split; [reflexivity|]. rewrite Hn. split; [split|]; cbn [sl_rings sl_max_len sl_next_id].
  - by rewrite length_insert.
  - intros i r Hi. rewrite of_lane_snoc. apply list_lookup_insert_Some in Hi as [(<- & <- & _)|[Hne Hi]].
    + rewrite decide_True by done. rewrite (Hr _ _ Hring). by apply room_last_of.
    + rewrite decide_False, app_nil_r by done. by apply Hr.
  - rewrite wrapping_small by (unfold fits, len in *; lia). unfold len. rewrite length_app. simpl. lia.
  - split; [done|]. split; [done|]. split; [done|]. cbn [sl_evicted]. unfold Slowlog_len. cbn [sl_rings].
    assert (forall l : list (list SlowEntry), forall i r r', l !! i = Some r ->
              (sum_list (length <$> <[i := r']> l) + length r = sum_list (length <$> l) + length r')%nat) as Hsum.
    { induction l as [|x l IH]; intros [|i] r r' Hi; simpl in *; simplify_eq; [lia|].
      specialize (IH i r r' Hi). unfold fmap in IH. lia. }
    pose proof (Hsum _ _ _ (make_room (sl_max_len s) ring ++ [slow_entry (start + len past) now_secs record]) Hring) as E.
    rewrite length_app in E. simpl in E.
    assert (length (make_room (sl_max_len s) ring) <= length ring)%nat by (unfold make_room; rewrite length_drop; lia). lia.
Qed.

Lemma logged_all slow start past s :
  Logged start past s -> (0 < sl_max_len s)%nat -> (forall x, x ∈ slow -> (x.1 < LANES)%nat) -> 0 <= start ->
  start + len past + len slow < 2 ^ 64 ->
  exists s', record_all s slow = Ok s' /\ Logged start (past ++ written (start + len past) slow) s'
  /\ sl_max_len s' = sl_max_len s /\ sl_admitted s' = sl_admitted s + len slow
  /\ sl_evicted s' + Z.of_nat (Slowlog_len s') = sl_evicted s + Z.of_nat (Slowlog_len s) + len slow.
Proof.
  revert past s. induction slow as [|[lane [now_secs record]] slow IH]; intros past s Hs Hm Hl H0 Hw; cbn [record_all written].
  - exists s. rewrite app_nil_r. unfold len. simpl. conjs; try done; lia.
  - assert (len ((lane, (now_secs, record)) :: slow) = 1 + len slow) as Hlen by (unfold len; simpl; lia). rewrite Hlen in *.
    assert (0 <= len slow) by (unfold len; lia).
    destruct (logged_record start past s lane now_secs record Hs Hm) as (s1 & -> & Hs1 & Em & _ & Ea & Ee);
      [apply (Hl (lane, (now_secs, record))); by left|done|lia|].
    assert (len (past ++ [(lane, slow_entry (start + len past) now_secs record)]) = len past + 1) as Hlp
      by (unfold len; rewrite length_app; simpl; lia).
    destruct (IH _ s1 Hs1) as (s2 & Hr & Hs2 & Em2 & Ea2 & Ee2); [by rewrite Em|intros x Hx; apply Hl; by right|done|lia|].
    rewrite Hlp, <- app_assoc in Hs2. replace (start + (len past + 1)) with (start + len past + 1) in Hs2 by lia.
    exists s2. split; [exact Hr|]. split; [exact Hs2|]. conjs; [congruence|lia|lia].
Qed.

(** *** Newest first *)

Definition later (a b : SlowEntry) : Prop := se_id b < se_id a.

Lemma written_ids id slow x : x ∈ written id slow -> id <= se_id x.2.
Proof.
  revert id. induction slow as [|[lane [now record]] slow IH]; intros id; [by intros ?%elem_of_nil|].
  cbn [written]. intros [->|H]%elem_of_cons; [simpl; lia|]. specialize (IH _ H). lia.
Qed.

Lemma StronglySorted_snoc {A} (R : A -> A -> Prop) l x :
  StronglySorted R l -> (forall y, y ∈ l -> R y x) -> StronglySorted R (l ++ [x]).
Proof.
  induction 1 as [|y l Hl IH Hy]; intros H; simpl; [by repeat constructor|]. constructor.
  - apply IH. intros z Hz. apply H. by right.
  - apply Forall_app. split; [done|]. apply Forall_singleton, H. by left.
Qed.

(** Everything written, newest first. *)
Definition newest (id : Z) (slow : list Slow) : list SlowEntry := reverse (written id slow).*2.

Lemma newest_sorted id slow : StronglySorted later (newest id slow).
Proof.
  unfold newest. revert id. induction slow as [|[lane [now record]] slow IH]; intros id; [constructor|].
  cbn [written fmap list_fmap snd]. rewrite reverse_cons. apply StronglySorted_snoc; [apply IH|].
  intros e He. rewrite elem_of_reverse in He. apply list_elem_of_fmap in He as (x & -> & Hx).
  apply written_ids in Hx. unfold later. simpl. lia.
Qed.

(** A sorted part of a sorted list that has its first elements begins with them. *)
Lemma take_of_sorted n (l whole : list SlowEntry) :
  StronglySorted later l -> StronglySorted later whole ->
  (forall x, x ∈ l -> x ∈ whole) -> (forall x, x ∈ take n whole -> x ∈ l) -> take n l = take n whole.
Proof.
  revert n l. induction whole as [|a whole IH]; intros n l Hl Hw Hsub Hfirst.
  - destruct l as [|x l]; [done|]. pose proof (Hsub x ltac:(by left)) as H. by apply elem_of_nil in H.
  - destruct n as [|n]; [done|]. cbn [take] in *. pose proof (Hfirst a ltac:(by left)) as Ha.
    destruct l as [|x l]; [by apply elem_of_nil in Ha|].
    apply StronglySorted_inv in Hl as [Hl Hx]. apply StronglySorted_inv in Hw as [Hw Haw]. rewrite Forall_forall in Hx, Haw.
    assert (x = a) as ->.
    { apply elem_of_cons in Ha as [|Ha]; [done|]. pose proof (Hsub x ltac:(by left)) as Hin.
      apply elem_of_cons in Hin as [|Hin]; [done|]. pose proof (Hx a Ha). pose proof (Haw x Hin). unfold later in *. lia. }
    cbn [firstn]. f_equal. apply IH; [done|done| |].
    + intros y Hy. pose proof (Hsub y ltac:(by right)) as Hin. apply elem_of_cons in Hin as [->|]; [|done].
      pose proof (Hx a Hy). unfold later in *. lia.
    + intros y Hy. pose proof (Hfirst y ltac:(by right)) as Hin. apply elem_of_cons in Hin as [->|]; [|done].
      apply subseteq_take in Hy. pose proof (Haw a Hy). unfold later in *. lia.
Qed.

Lemma sorted_take n l : StronglySorted later l -> StronglySorted later (take n l).
Proof.
  intros H. revert n. induction H as [|x l _ IH Hx]; intros [|n]; try constructor; [apply IH|].
  rewrite Forall_forall in Hx |- *. intros y Hy%subseteq_take. by apply Hx.
Qed.

Lemma sorted_ids l : StronglySorted later l -> NoDup (se_id <$> l).
Proof.
  induction 1 as [|x l _ IH Hx]; [constructor|]. rewrite fmap_cons. constructor; [|done].
  intros (y & Heq & Hy)%list_elem_of_fmap. rewrite Forall_forall in Hx. specialize (Hx y Hy). unfold later in Hx. lia.
Qed.

Lemma sorted_strictly l : StronglySorted newer l -> NoDup (se_id <$> l) -> StronglySorted later l.
Proof.
  induction 1 as [|x l _ IH Hx]; intros Hd; [constructor|]. rewrite fmap_cons, NoDup_cons in Hd. destruct Hd as [Hn Hd].
  constructor; [by apply IH|]. rewrite Forall_forall in Hx |- *. intros y Hy. specialize (Hx y Hy). unfold newer, later in *.
  assert (se_id y <> se_id x); [|lia]. intros Heq. apply Hn. rewrite <- Heq. by apply list_elem_of_fmap_2.
Qed.

Lemma of_lane_sublist {A} i (past : list (nat * A)) : of_lane i past `sublist_of` past.*2.
Proof.
  induction past as [|[lane x] past IH]; [constructor|]. rewrite of_lane_cons. cbn [fmap list_fmap snd].
  destruct (decide _); by constructor.
Qed.

Lemma of_lane_elem {A} i (past : list (nat * A)) x : x ∈ of_lane i past <-> (i, x) ∈ past.
Proof.
  unfold of_lane. rewrite list_elem_of_omap. split.
  - intros ([lane y] & Hin & Hf). simpl in Hf. destruct (decide _); [|done]. by simplify_eq.
  - intros Hin. exists (i, x). split; [done|]. simpl. by rewrite decide_True.
Qed.

Lemma concat_ids (l : list (list SlowEntry)) :
  (forall i r, l !! i = Some r -> NoDup (se_id <$> r)) ->
  (forall i j r r' x y, i <> j -> l !! i = Some r -> l !! j = Some r' -> x ∈ r -> y ∈ r' -> se_id x <> se_id y) ->
  NoDup (se_id <$> concat l).
Proof.
  induction l as [|r l IH]; intros Hd Hx; [constructor|]. cbn [concat]. rewrite fmap_app, NoDup_app. split; [by apply (Hd 0%nat)|].
  split.
  - intros d (x & -> & Hin)%list_elem_of_fmap (y & Heq & Hy)%list_elem_of_fmap.
    apply list_elem_of_In, in_concat in Hy as (r' & Hr'%list_elem_of_In & Hy%list_elem_of_In).
    apply list_elem_of_lookup in Hr' as [j Hj]. by apply (Hx 0%nat (S j) r r' x y).
  - apply IH; [intros i r' Hi; by apply (Hd (S i))|].
    intros i j r1 r2 x y Hne Hi Hj. by apply (Hx (S i) (S j) r1 r2 x y ltac:(congruence)).
Qed.

Lemma written_once id slow i j e e' :
  (i, e) ∈ written id slow -> (j, e') ∈ written id slow -> se_id e = se_id e' -> i = j /\ e = e'.
Proof.
  intros Hi Hj Heq. assert (NoDup (se_id <$> (written id slow).*2)) as Hd.
  { rewrite <- (reverse_involutive (written id slow).*2), reverse_Permutation. apply sorted_ids, newest_sorted. }
  apply list_elem_of_lookup in Hi as [a Ha]. apply list_elem_of_lookup in Hj as [b Hb].
  assert (a = b) as ->; [|by simplify_eq].
  apply (NoDup_lookup _ _ _ (se_id e) Hd); rewrite !list_lookup_fmap; [by rewrite Ha|rewrite Hb; simpl; by rewrite Heq].
Qed.

Section Log.
Context (start : Z) (slow : list Slow) (s : Slowlog).
Hypothesis HL : Logged start (written start slow) s.

Lemma ring_of i ring x : sl_rings s !! i = Some ring -> x ∈ ring -> (i, x) ∈ written start slow.
Proof. intros Hi Hx. rewrite (lg_rings _ _ _ HL i ring Hi) in Hx. by apply last_of_sub, of_lane_elem in Hx. Qed.

Lemma log_ids : NoDup (se_id <$> concat (sl_rings s)).
Proof.
  apply concat_ids.
  - intros i r Hi. rewrite (lg_rings _ _ _ HL i r Hi).
    assert (NoDup (se_id <$> (written start slow).*2)) as Hd.
    { rewrite <- (reverse_involutive (written start slow).*2), reverse_Permutation. apply sorted_ids, newest_sorted. }
    eapply sublist_NoDup; [exact Hd|]. apply fmap_sublist. etransitivity; [apply sublist_drop|apply of_lane_sublist].
  - intros i j r r' x y Hne Hi Hj Hx Hy Heq. apply Hne.
    by apply (written_once start slow i j x y (ring_of i r x Hi Hx) (ring_of j r' y Hj Hy)).
Qed.

Lemma log_sub x : x ∈ concat (sl_rings s) -> x ∈ newest start slow.
Proof.
  intros (r & Hr%list_elem_of_In & Hx%list_elem_of_In)%list_elem_of_In%in_concat. apply list_elem_of_lookup in Hr as [i Hi].
  unfold newest. rewrite elem_of_reverse. apply list_elem_of_fmap. exists (i, x). split; [done|]. by eapply ring_of.
Qed.

(** The newest are in their rings: each lane keeps its own newest. *)
Lemma log_keeps count x :
  (count <= sl_max_len s)%nat -> (forall y, y ∈ slow -> (y.1 < LANES)%nat) ->
  x ∈ take count (newest start slow) -> x ∈ concat (sl_rings s).
Proof.
  intros Hc Hl Hx. unfold newest in Hx. rewrite <- fmap_reverse, <- fmap_take, list_elem_of_fmap in Hx.
  destruct Hx as ([i e] & -> & Hx). cbn [snd].
  assert (exists before after, written start slow = before ++ after /\ (length after <= count)%nat /\ (i, e) ∈ after)
    as (before & after & Hw & Hlen & Hin).
  { exists (reverse (drop count (reverse (written start slow)))), (reverse (take count (reverse (written start slow)))).
    rewrite <- reverse_app, take_drop, reverse_involutive. split; [done|].
    rewrite length_reverse, length_take, elem_of_reverse. split; [lia|done]. }
  assert (i < LANES)%nat as Hi.
  { assert ((i, e) ∈ written start slow) as Hin' by (rewrite Hw; apply elem_of_app; by right).
    clear -Hin' Hl. revert start Hin'. induction slow as [|[lane [now record]] rest IH]; intros start; [by intros ?%elem_of_nil|].
    cbn [written]. intros [Heq|H]%elem_of_cons; [|eapply IH; [intros y Hy; apply Hl; by right|exact H]].
    injection Heq as -> _. apply (Hl (lane, (now, record))). by left. }
  destruct (lookup_lt_is_Some_2 (sl_rings s) i) as [ring Hring]; [by rewrite (lg_lanes _ _ _ HL)|].
  apply list_elem_of_In, in_concat. exists ring. split; apply list_elem_of_In; [by eapply list_elem_of_lookup_2|].
  rewrite (lg_rings _ _ _ HL i ring Hring), Hw. unfold of_lane. rewrite omap_app.
  destruct (last_of_app (sl_max_len s) (of_lane i before) (of_lane i after)) as [l0 Hl0].
  { etransitivity; [apply sublist_length, of_lane_sublist|]. rewrite length_fmap. lia. }
  unfold of_lane in Hl0. rewrite Hl0. apply elem_of_app. right. by apply of_lane_elem.
Qed.

Lemma log_entries count :
  StronglySorted later (Slowlog_entries s count)
  /\ (forall e, e ∈ Slowlog_entries s count -> e ∈ newest start slow)
  /\ ((count <= sl_max_len s)%nat -> (forall y, y ∈ slow -> (y.1 < LANES)%nat) ->
      Slowlog_entries s count = take count (newest start slow)).
Proof.
  unfold Slowlog_entries. set (merged := merge_sort newer (concat (sl_rings s))).
  assert (merged ≡ₚ concat (sl_rings s)) as HP by apply merge_sort_Permutation.
  assert (StronglySorted later merged) as Hss.
  { apply sorted_strictly; [|rewrite HP; apply log_ids]. apply StronglySorted_merge_sort.
    - intros a b c. unfold newer. lia.
    - intros a b. unfold newer. lia. }
  conjs.
  - by apply sorted_take.
  - intros e He%subseteq_take. rewrite HP in He. by apply log_sub.
  - intros Hc Hl. apply take_of_sorted; [done|apply newest_sorted| |].
    + intros x Hx. rewrite HP in Hx. by apply log_sub.
    + intros x Hx. rewrite HP. by apply (log_keeps count).
Qed.

End Log.

(** C39 From an empty log, whatever requests are recorded on whatever lanes, the
    log answers entries of distinct, decreasing identifiers, each as it was
    recorded; a page no longer than one lane's ring is exactly the newest of all;
    no ring outgrows its bound, and what was admitted and is not there was
    counted as evicted. *)
Theorem slowlog_newest (s : Slowlog) (slow : list Slow) :
  length (sl_rings s) = LANES -> (forall ring, ring ∈ sl_rings s -> ring = []) -> (0 < sl_max_len s)%nat ->
  (forall x, x ∈ slow -> (x.1 < LANES)%nat) -> 0 <= sl_next_id s -> sl_next_id s + len slow < 2 ^ 64 ->
  exists s', record_all s slow = Ok s'
  /\ (forall count,
      StronglySorted later (Slowlog_entries s' count)
      /\ (forall e, e ∈ Slowlog_entries s' count -> e ∈ newest (sl_next_id s) slow)
      /\ ((count <= sl_max_len s)%nat -> Slowlog_entries s' count = take count (newest (sl_next_id s) slow)))
  /\ (forall ring, ring ∈ sl_rings s' -> (length ring <= sl_max_len s)%nat)
  /\ sl_admitted s' = sl_admitted s + len slow
  /\ sl_evicted s' + Z.of_nat (Slowlog_len s') = sl_evicted s + len slow.
Proof.
  intros Hlen Hempty Hm Hl H0 Hw.
  assert (Logged (sl_next_id s) [] s) as HL0.
  { split; [done| |unfold len; simpl; lia]. intros i ring Hi. by apply Hempty; eapply list_elem_of_lookup_2. }
  destruct (logged_all slow (sl_next_id s) [] s HL0 Hm Hl H0 ltac:(unfold len in *; simpl; lia)) as (s' & Hr & HL & Em & Ea & Ee).
  change (len []) with 0 in HL. rewrite Z.add_0_r in HL. cbn [app] in HL.
  exists s'. split; [done|]. conjs.
  - intros count. rewrite <- Em. destruct (log_entries (sl_next_id s) slow s' HL count) as (H1 & H2 & H3).
    split; [done|]. split; [done|]. intros Hc. by apply H3.
  - intros ring (i & Hi)%list_elem_of_lookup. rewrite (lg_rings _ _ _ HL i ring Hi), length_last_of, Em. lia.
  - done.
  - assert (Slowlog_len s = 0%nat) as E; [|lia]. unfold Slowlog_len. clear -Hempty.
    induction (sl_rings s) as [|r l IH]; [done|]. simpl. rewrite (Hempty r) by (by left). simpl. apply IH.
    intros x Hx. apply Hempty. by right.
Qed.

End SlowlogSpec.

(** ** What dispatch offers *)

Section ObservedSpec.
Context {HS : Hash} {SocketAddr : Type}.

Lemma split_times_exact total_us queue_us :
  0 <= total_us -> 0 <= queue_us ->
  let '(queued, executed) := split_times total_us queue_us in
  queued + executed = total_us /\ 0 <= queued <= queue_us /\ 0 <= executed.
Proof. intros Ht Hq. unfold split_times. cbv zeta. lia. Qed.

Lemma key_count_exact command : key_count command = Z.min (len (each_key command)) U32_MAX.
Proof.
  unfold key_count. assert (forall (l : list bytes) n, 0 <= n <= U32_MAX ->
    foldl (fun count _ => Z.min (count + 1) U32_MAX) n l = Z.min (n + len l) U32_MAX) as H.
  { induction l as [|k l IH]; intros n Hn; cbn [foldl]; [unfold len; simpl; lia|]. rewrite IH by lia. unfold len. simpl. lia. }
  by rewrite H.
Qed.

Lemma first_key_exact command :
  Forall (fun key => key <> []) (each_key command) -> first_key command = default [] (head (each_key command)).
Proof.
  unfold first_key. destruct (each_key command) as [|key keys]; [done|]. intros [Hk _]%Forall_cons. simpl.
  assert (forall l : list bytes, foldl (fun first key => match first with [] => key | _ => first end) key l = key) as H.
  { intros l. induction l as [|k l IH]; [done|]. simpl. by destruct key. }
  apply H.
Qed.

Lemma observe_keys_sound h lane seed rng keys write samples :
  KeysSound samples h -> (lane < LANES)%nat ->
  exists h' rng' admitted,
    observe_keys h lane seed rng keys write = Ok (h', rng') /\ admitted `sublist_of` keys
    /\ KeysSound (samples ++ ((fun key => (lane, (key, write))) <$> admitted)) h'
    /\ (hk_enabled h = false -> h' = h /\ rng' = rng /\ admitted = []).
Proof.
  intros Hh Hl. revert h rng samples Hh. induction keys as [|key keys IH]; intros h rng samples Hh; cbn [observe_keys].
  - exists h, rng, []. rewrite app_nil_r. split; [done|]. split; [constructor|]. by split.
  - assert (exists h1 rng1 one, HotKeys_observe h lane seed rng key write = Ok (h1, rng1) /\ one `sublist_of` [key]
      /\ KeysSound (samples ++ ((fun key => (lane, (key, write))) <$> one)) h1
      /\ (hk_enabled h = false -> h1 = h /\ rng1 = rng /\ one = [])) as (h1 & rng1 & one & -> & Hs1 & Hh1 & Hd1).
    { unfold HotKeys_observe. destruct (hk_enabled h) eqn:E; cbn [negb].
      - destruct (Z.land _ (hk_mask h) =? 0).
        + destruct (keys_sound_admit samples h lane key write Hh Hl) as (h1 & -> & Hh1 & _). eexists h1, _, [key].
          split; [reflexivity|]. by split.
        + eexists h, _, []. split; [reflexivity|]. rewrite app_nil_r. split; [constructor; constructor|]. by split.
      - exists h, rng, []. rewrite app_nil_r. split; [done|]. split; [constructor; constructor|]. by split. }
    cbn [Result_bind mbind]. destruct (IH h1 rng1 _ Hh1) as (h2 & rng2 & rest & Hr & Hs2 & Hh2 & Hd2).
    exists h2, rng2, (one ++ rest). split; [exact Hr|]. split; [by apply (sublist_app one [key])|].
    rewrite fmap_app, app_assoc. split; [done|]. intros Ho. destruct (Hd1 Ho) as (-> & -> & ->).
    destruct (Hd2 Ho) as (-> & -> & ->). done.
Qed.

(** Dispatch offers a command's keys to the sampler, all of them and in order,
    and the command to the slow log; what is logged of it are two times that sum
    to the whole, its first key, and how many there were. *)
Theorem observed_spec (i : @Introspect SocketAddr) lane seed rng now_secs command kind origin total_us queue_us samples :
  KeysSound samples (in_hotkeys i) -> (lane < LANES)%nat -> length (sl_rings (in_slowlog i)) = LANES ->
  0 <= total_us -> 0 <= queue_us -> Forall (fun key => key <> []) (each_key command) ->
  exists i' rng' admitted,
    observed i lane seed rng now_secs command kind origin total_us queue_us = Ok (i', rng')
    /\ in_hottags i' = in_hottags i
    /\ admitted `sublist_of` each_key command
    /\ KeysSound (samples ++ ((fun key => (lane, (key, negb (is_read command)))) <$> admitted)) (in_hotkeys i')
    /\ (crosses (in_slowlog i) total_us = false -> in_slowlog i' = in_slowlog i)
    /\ (crosses (in_slowlog i) total_us = true -> exists queued executed,
        queued + executed = total_us /\ 0 <= queued <= queue_us /\ 0 <= executed
        /\ Slowlog_record (in_slowlog i) lane now_secs
             (mkSlowRecord queued executed kind origin (Z.min (len (each_key command)) U32_MAX)
                (default [] (head (each_key command))) (value_bytes command) 1) = Ok (in_slowlog i')).
Proof.
  intros Hh Hl Hr Ht Hq Hk. pose proof (split_times_exact total_us queue_us Ht Hq) as Hsp.
  destruct (observe_keys_sound _ lane seed rng (each_key command) (negb (is_read command)) samples Hh Hl)
    as (h' & rng' & admitted & Ho & Hsub & Hh' & _).
  unfold observed. cbv zeta. rewrite Ho. destruct (split_times total_us queue_us) as [queued executed]. cbn.
  rewrite key_count_exact, first_key_exact by done. unfold log_if_slow. destruct (crosses (in_slowlog i) total_us).
  - unfold Slowlog_record. cbv zeta. destruct (lookup_lt_is_Some_2 (sl_rings (in_slowlog i)) lane) as [ring ->]; [by rewrite Hr|].
    eexists _, rng', admitted. split; [reflexivity|]. conjs; try done. intros _. exists queued, executed. conjs; try lia. reflexivity.
  - eexists _, rng', admitted. split; [reflexivity|]. conjs; done.
Qed.

End ObservedSpec.
