(* ===== verification/Config.v ===== *)
(** [vash-server/src/config.rs]: the settings of a server, what starting one
    refuses, and what the store and a connection are given of them.

    Parsing TOML is [serde]'s; the record is what it yields.  Whether the binary
    was built with TLS, the environment's secret and the number of processors
    are arguments.  What validation promises the parts it configures is proved
    at the end: above all that a connection is never closed for sending a value
    the store accepts. *)

From S2P Require Import Prelude Bytes Text Core Record Glob Clock Arith Float Command Backend IndexKeys Tags Engine.
From S2P Require Import Apply Writer Env Vcp VcpEncode VcpClient VcpSpec Auth AuthFile Mc McTrip RespCommand RespTrip Conn Introspect.
From Stdlib Require Import Floats.SpecFloat.

#[local] Delimit Scope string_scope with str.

(** ** The sections of the file *)

Inductive BackendChoice : Type := Backend_Lmdb | Backend_Mdbx.

Inductive Durability : Type := Durable | Relaxed | Lazy.

Record ServerSection := mkServerSection {
  sv_listen : bytes;
  sv_max_connections : Z;
  sv_read_buffer : Z;
  sv_max_buffered_bytes : Z;
  sv_first_byte_timeout_ms : Z;
  sv_max_blocking_threads : Z
}.

Record WriteSection := mkWriteSection {
  wr_max_batch : Z;
  wr_queue_depth : Z;
  wr_linger_us : Z;
  wr_sync_interval_ms : Z
}.

Record TtlSection := mkTtlSection {
  tl_bucket_granularity_ms : Z;
  tl_sweep_interval_ms : Z;
  tl_sweep_batch : Z
}.

Record TagSection := mkTagSection {
  tn_max_tags : Z;
  tn_max_per_record : Z;
  tn_reclaim_batch : Z
}.

Record StoreSection := mkStoreSection {
  st_path : String.string;
  st_backend : BackendChoice;
  st_shards : Z;
  st_map_size_mb : Z;
  st_preallocate_mb : Z;
  st_max_readers : Z;
  st_durability : Durability;
  st_max_value_bytes : Z;
  st_wipe_on_start : bool;
  st_write_map : bool;
  st_prefault : bool;
  st_inline_reads : bool;
  st_resident_mode : bool;
  st_inline_max_commands : Z;
  st_resident_recheck_ms : Z;
  st_write : WriteSection;
  st_ttl : TtlSection;
  st_tags : TagSection;
  st_eviction : EvictionConfig
}.

Inductive ClientAuth : Type := ClientAuth_None | ClientAuth_Required.

Record TlsSection := mkTlsSection {
  tls_listen : bytes;
  tls_cert : bytes;
  tls_key : bytes;
  tls_handshake_timeout_ms : Z;
  tls_client_auth : ClientAuth;
  tls_client_ca : bytes
}.

Definition tls_enabled (tls : TlsSection) : bool := negb (bool_decide (tls_listen tls = [])).

Inductive FanoutMode : Type := Fanout_Local | Fanout_Async | Fanout_Sync.

Record ClusterSection := mkClusterSection {
  cl_peers : list bytes;
  cl_delete_by_tag : FanoutMode;
  cl_gossip_interval_ms : Z;
  cl_fanout_timeout_ms : Z;
  cl_queue_depth : Z;
  cl_auth_name : text;
  cl_auth_secret : text;
  cl_tls : bool;
  cl_tls_ca : bytes;
  cl_tls_server_name : bytes
}.

Definition cluster_mode (mode : FanoutMode) : ClusterMode :=
  match mode with Fanout_Local => Mode_Local | Fanout_Async => Mode_Fanout | Fanout_Sync => Mode_FanoutSync end.

Record ObservabilitySection := mkObservabilitySection {
  ob_log_format : bytes;
  ob_log_level : bytes;
  ob_introspect : IntrospectConfig;
  ob_admin_listen : bytes
}.

Record ProtocolSection := mkProtocolSection {
  pr_flush_enabled : bool;
  pr_listing_enabled : bool;
  pr_listing_max_scan : Z;
  pr_scan_cursors : Z;
  pr_scan_cursor_ttl_ms : Z;
  pr_memcached_enabled : bool;
  pr_resp_enabled : bool
}.

Record Settings := mkSettings {
  cf_server : ServerSection;
  cf_store : StoreSection;
  cf_protocol : ProtocolSection;
  cf_auth : AuthConfig;
  cf_tls : TlsSection;
  cf_cluster : ClusterSection;
  cf_observability : ObservabilitySection
}.

(** ** The defaults *)

Definition EvictionConfig_default : EvictionConfig :=
  mkEviction (S754_finite false 6755399441055744 (-53)) (S754_finite false 7926335344172073 (-53))
    (S754_finite false 8646911284551352 (-53)) 512.

Definition ServerSection_default : ServerSection :=
  mkServerSection (bs "127.0.0.1:11311") 10000 (16 * 1024) (ABSOLUTE_MAX_VALUE_LEN + 1024 * 1024) 10000 128.

Definition StoreSection_default : StoreSection :=
  mkStoreSection "data"%str Backend_Lmdb 0 4096 0 256 Lazy DEFAULT_MAX_VALUE_LEN false false false false true 4 5000
    (mkWriteSection 1024 4096 0 1000) (mkTtlSection 1000 100 512) (mkTagSection 100000 DEFAULT_MAX_TAGS 512)
    EvictionConfig_default.

Definition ProtocolSection_default : ProtocolSection := mkProtocolSection false false 100000 1024 60000 true true.

Definition AuthConfig_default : AuthConfig := mkAuthConfig false [] 5000 3 0 None.

Definition TlsSection_default : TlsSection := mkTlsSection [] [] [] 3000 ClientAuth_None [].

Definition ClusterSection_default : ClusterSection :=
  mkClusterSection [] Fanout_Async 5000 2000 1024 [] [] false [] [].

Definition ObservabilitySection_default : ObservabilitySection :=
  mkObservabilitySection (bs "pretty") (bs "info") IntrospectConfig_default [].

Definition Settings_default : Settings :=
  mkSettings ServerSection_default StoreSection_default ProtocolSection_default AuthConfig_default TlsSection_default
    ClusterSection_default ObservabilitySection_default.

(** ** Peers *)

Definition PEER_COLON : byte := ":"%byte.

Definition square_bracket (b : byte) : bool := bool_decide (b = "["%byte \/ b = "]"%byte).

Fixpoint trim_left (l : bytes) : bytes :=
  match l with b :: l' => if square_bracket b then trim_left l' else l | [] => [] end.

(** [trim_matches(['[', ']'])]. *)
Definition trim_brackets (l : bytes) : bytes := reverse (trim_left (reverse (trim_left l))).

(** [rsplit_once(':')]: what stands before the last colon. *)
Definition before_last_colon (addr : bytes) : option bytes :=
  (fun i => reverse (drop (S i) (reverse addr))) <$> find_byte PEER_COLON (reverse addr).

Definition tls_name_for (cluster : ClusterSection) (addr : bytes) : bytes :=
  if bool_decide (cl_tls_server_name cluster = []) then
    match before_last_colon addr with Some host => trim_brackets host | None => addr end
  else cl_tls_server_name cluster.

(** ** Validation *)

Definition MAX_FRAMING_OVERHEAD : Z := 512 * 1024.

Inductive ConfigRefused : Type :=
| R_map_size | R_preallocate | R_max_readers | R_max_connections | R_max_value_bytes | R_read_buffer
| R_max_buffered_bytes | R_buffered_below_read | R_blocking_threads | R_readers_below_threads
| R_tls_unbuilt | R_tls_without_certificate | R_certificate_without_tls | R_cluster_tls_unbuilt | R_cluster_without_ca
| R_peer (e : PeerError) | R_peers_unauthenticated | R_max_attempts | R_auth_timeout
| R_max_batch | R_queue_depth | R_sweep_interval | R_sweep_batch | R_granularity | R_max_tags | R_max_per_record
| R_absolute_tags | R_reclaim_batch | R_listing_max_scan | R_scan_cursors | R_scan_cursor_ttl
| R_watermarks | R_watermark_order | R_eviction_batch | R_gossip_interval | R_fanout_timeout | R_cluster_queue
| R_peer_address (peer : bytes).

(** [usize] arithmetic of a release build. *)
Definition mebibytes (mb : Z) : Z := wrapping 64 (mb * 1024 * 1024).

(** [(0.0..1.0).contains(&x)] and [(0.0..=1.0).contains(&x)]. *)
Definition f64_one : f64 := S754_finite false 4503599627370496 (-52).

Definition below_one (x : f64) : bool := SFleb f64_zero x && SFltb x f64_one.

Definition to_one (x : f64) : bool := SFleb f64_zero x && SFleb x f64_one.

Definition peer_address (peer : bytes) : bool :=
  bool_decide (PEER_COLON ∈ peer) && negb (bool_decide (head peer = Some PEER_COLON)).

Fixpoint check_peers (peers : list bytes) : Result ConfigRefused unit :=
  match peers with
  | [] => Ok ()
  | peer :: peers => _ ← guard_or (peer_address peer) (R_peer_address peer); check_peers peers
  end.

Definition check_sizes (server : ServerSection) (store : StoreSection) : Result ConfigRefused unit :=
  _ ← guard_or (MIN_MAP_SIZE <=? mebibytes (st_map_size_mb store)) R_map_size;
  _ ← guard_or (st_preallocate_mb store <=? st_map_size_mb store) R_preallocate;
  _ ← guard_or (0 <? st_max_readers store) R_max_readers;
  _ ← guard_or ((0 <? sv_max_connections server) && (sv_max_connections server <=? U32_MAX)) R_max_connections;
  _ ← guard_or (st_max_value_bytes store <=? ABSOLUTE_MAX_VALUE_LEN) R_max_value_bytes;
  _ ← guard_or (HEADER_LEN <=? sv_read_buffer server) R_read_buffer;
  _ ← guard_or (st_max_value_bytes store + MAX_FRAMING_OVERHEAD <=? sv_max_buffered_bytes server) R_max_buffered_bytes;
  _ ← guard_or (sv_read_buffer server <=? sv_max_buffered_bytes server) R_buffered_below_read;
  _ ← guard_or (0 <? sv_max_blocking_threads server) R_blocking_threads;
  guard_or (sv_max_blocking_threads server <? st_max_readers store) R_readers_below_threads.

Definition check_tls (built_with_tls : bool) (tls : TlsSection) (cluster : ClusterSection) : Result ConfigRefused unit :=
  let empty (l : bytes) := bool_decide (l = []) in
  _ ← guard_or (built_with_tls || negb (tls_enabled tls)) R_tls_unbuilt;
  _ ← guard_or (negb (tls_enabled tls) || negb (empty (tls_cert tls) || empty (tls_key tls))) R_tls_without_certificate;
  _ ← guard_or (tls_enabled tls || (empty (tls_cert tls) && empty (tls_key tls))) R_certificate_without_tls;
  _ ← guard_or (built_with_tls || negb (cl_tls cluster)) R_cluster_tls_unbuilt;
  guard_or (negb (cl_tls cluster) || negb (empty (cl_tls_ca cluster))) R_cluster_without_ca.

Definition check_auth (auth : AuthConfig) (cluster : ClusterSection) (from_env : option bytes) : Result ConfigRefused unit :=
  peer_credential ← map_err R_peer (credential_from (cl_auth_name cluster) (cl_auth_secret cluster) from_env);
  _ ← guard_or (negb (ac_required auth) || bool_decide (cl_peers cluster = []) || bool_decide (is_Some peer_credential))
        R_peers_unauthenticated;
  _ ← guard_or (0 <? ac_max_attempts auth) R_max_attempts;
  guard_or (0 <? ac_timeout_ms auth) R_auth_timeout.

Definition check_upkeep (store : StoreSection) : Result ConfigRefused unit :=
  _ ← guard_or (0 <? wr_max_batch (st_write store)) R_max_batch;
  _ ← guard_or (0 <? wr_queue_depth (st_write store)) R_queue_depth;
  _ ← guard_or (0 <? tl_sweep_interval_ms (st_ttl store)) R_sweep_interval;
  _ ← guard_or (0 <? tl_sweep_batch (st_ttl store)) R_sweep_batch;
  _ ← guard_or (0 <? tl_bucket_granularity_ms (st_ttl store)) R_granularity;
  _ ← guard_or (0 <? tn_max_tags (st_tags store)) R_max_tags;
  _ ← guard_or (0 <? tn_max_per_record (st_tags store)) R_max_per_record;
  _ ← guard_or (tn_max_per_record (st_tags store) <=? ABSOLUTE_MAX_TAGS) R_absolute_tags;
  guard_or (0 <? tn_reclaim_batch (st_tags store)) R_reclaim_batch.

Definition check_protocol (protocol : ProtocolSection) : Result ConfigRefused unit :=
  _ ← guard_or (0 <? pr_listing_max_scan protocol) R_listing_max_scan;
  _ ← guard_or (0 <? pr_scan_cursors protocol) R_scan_cursors;
  guard_or (0 <? pr_scan_cursor_ttl_ms protocol) R_scan_cursor_ttl.

Definition check_eviction (evict : EvictionConfig) : Result ConfigRefused unit :=
  _ ← guard_or (below_one (ev_soft evict) && below_one (ev_hard evict) && to_one (ev_critical evict)) R_watermarks;
  _ ← guard_or (SFltb (ev_soft evict) (ev_hard evict) && SFltb (ev_hard evict) (ev_critical evict)) R_watermark_order;
  guard_or (0 <? ev_batch evict) R_eviction_batch.

Definition check_cluster (cluster : ClusterSection) : Result ConfigRefused unit :=
  _ ← guard_or (0 <? cl_gossip_interval_ms cluster) R_gossip_interval;
  _ ← guard_or (0 <? cl_fanout_timeout_ms cluster) R_fanout_timeout;
  _ ← guard_or (0 <? cl_queue_depth cluster) R_cluster_queue;
  check_peers (cl_peers cluster).

Definition validate (built_with_tls : bool) (from_env : option bytes) (config : Settings) : Result ConfigRefused unit :=
  _ ← check_sizes (cf_server config) (cf_store config);
  _ ← check_tls built_with_tls (cf_tls config) (cf_cluster config);
  _ ← check_auth (cf_auth config) (cf_cluster config) from_env;
  _ ← check_upkeep (cf_store config);
  _ ← check_protocol (cf_protocol config);
  _ ← check_eviction (st_eviction (cf_store config));
  check_cluster (cf_cluster config).

(** ** What the parts are given *)

(** [available_parallelism] may not know. *)
Definition shard_count (parallelism : option Z) (config : Settings) : Z :=
  match st_shards (cf_store config) with
  | 0 => Z.min (default 1 parallelism) 2
  | n => n
  end.

(** [impl From<Durability> for vash_store::Durability] *)
Definition Durability_into (d : Durability) : Env.Durability :=
  match d with
  | Durable => Durability_Durable
  | Relaxed => Durability_Relaxed
  | Lazy => Durability_Lazy
  end.

Definition store_config (parallelism : option Z) (config : Settings) : StoreConfig :=
  let store := cf_store config in
  mkStoreConfig (st_path store) (mebibytes (st_map_size_mb store)) (Durability_into (st_durability store))
    (st_max_value_bytes store) (st_wipe_on_start store) (st_write_map store)
    (tl_bucket_granularity_ms (st_ttl store)) (tn_max_tags (st_tags store)) (tn_max_per_record (st_tags store))
    (shard_count parallelism config)
    (mkWriteConfig (tl_sweep_batch (st_ttl store)) (tn_reclaim_batch (st_tags store)) (st_eviction store)).

(** What the engine and the writer's channel are given besides. *)
Record Launch := mkLaunch {
  la_backend : BackendChoice;
  la_preallocate : Z;
  la_max_readers : Z;
  la_prefault : bool;
  la_lock_map : bool;
  la_warm_at_open : bool;
  la_write : WriteSection;
  la_sweep_interval_ms : Z
}.

Definition launch_config (config : Settings) : Launch :=
  let store := cf_store config in
  mkLaunch (st_backend store) (mebibytes (st_preallocate_mb store)) (st_max_readers store)
    (st_prefault store || st_resident_mode store) (st_resident_mode store) (st_prefault store)
    (st_write store) (tl_sweep_interval_ms (st_ttl store)).

(** [ConnLimits::from], the limits of authentication and the dialects. *)
Definition handle_conf (config : Settings) : HandleConf :=
  mkHandleConf (sv_max_buffered_bytes (cf_server config)) (sv_first_byte_timeout_ms (cf_server config))
    (ac_max_attempts (cf_auth config)) (pr_memcached_enabled (cf_protocol config)) (pr_resp_enabled (cf_protocol config)).

(** ** What validation promises *)

(** What the parts rely on, of a configuration that was let through. *)
Record Promises (config : Settings) : Prop := {
  pm_map : MIN_MAP_SIZE <= mebibytes (st_map_size_mb (cf_store config));
  pm_value : st_max_value_bytes (cf_store config) <= ABSOLUTE_MAX_VALUE_LEN;
  pm_room : st_max_value_bytes (cf_store config) + MAX_FRAMING_OVERHEAD <= sv_max_buffered_bytes (cf_server config);
  pm_header : HEADER_LEN <= sv_read_buffer (cf_server config) <= sv_max_buffered_bytes (cf_server config);
  pm_readers : 0 < sv_max_blocking_threads (cf_server config) < st_max_readers (cf_store config);
  pm_attempts : 0 < ac_max_attempts (cf_auth config);
  pm_sweep : 0 < tl_sweep_batch (st_ttl (cf_store config)) /\ 0 < tl_bucket_granularity_ms (st_ttl (cf_store config));
  pm_tags : 0 < tn_max_per_record (st_tags (cf_store config)) <= ABSOLUTE_MAX_TAGS
            /\ 0 < tn_max_tags (st_tags (cf_store config)) /\ 0 < tn_reclaim_batch (st_tags (cf_store config));
  pm_scan : 0 < pr_listing_max_scan (cf_protocol config) /\ 0 < pr_scan_cursors (cf_protocol config)
            /\ 0 < pr_scan_cursor_ttl_ms (cf_protocol config);
  pm_levels : let evict := st_eviction (cf_store config) in
    SFltb (ev_soft evict) (ev_hard evict) = true /\ SFltb (ev_hard evict) (ev_critical evict) = true
    /\ to_one (ev_critical evict) = true /\ 0 < ev_batch evict;
  pm_peers : Forall (fun peer => peer_address peer = true) (cl_peers (cf_cluster config))
}.

Lemma guard_or_inv {E} (b : bool) (e : E) (u : unit) : guard_or b e = Ok u -> b = true.
Proof. by destruct b. Qed.

Ltac guards :=
  inv_ok; repeat match goal with H : guard_or _ _ = Ok _ |- _ => apply guard_or_inv in H end.

Lemma check_peers_ok peers u : check_peers peers = Ok u -> Forall (fun peer => peer_address peer = true) peers.
Proof.
  induction peers as [|peer peers IH]; intros H; [done|]. cbn [check_peers] in H. guards. constructor; [done|by apply IH].
Qed.

Theorem validate_promises built_with_tls from_env config :
  validate built_with_tls from_env config = Ok () -> Promises config.
Proof.
  unfold validate. intros H. inv_ok. unfold check_sizes, check_auth, check_upkeep, check_protocol, check_eviction, check_cluster in *.
  guards. repeat match goal with H : _ && _ = true |- _ => apply andb_prop in H as [? ?] end.
  split; cbv zeta; try lia.
  - conjs; (done || lia).
  - by eapply check_peers_ok.
Qed.

(** What was validated opens, where the product of its size is below [2^64]. *)
Theorem validated_size built_with_tls from_env parallelism config :
  validate built_with_tls from_env config = Ok () ->
  (sc_map_size (store_config parallelism config) <? MIN_MAP_SIZE) = false
  /\ (0 <= st_map_size_mb (cf_store config) < 2 ^ 44 ->
      sc_map_size (store_config parallelism config) = st_map_size_mb (cf_store config) * 1024 * 1024).
Proof.
  intros H%validate_promises. destruct H as [Hm _ _ _ _ _ _ _ _ _ _]. cbn [store_config sc_map_size]. split; [lia|].
  intros Hs. unfold mebibytes. apply wrapping_small. unfold fits. lia.
Qed.

(** *** The longest write *)

Lemma len_cons {A} (x : A) l : len (x :: l) = 1 + len l.
Proof. unfold len. simpl. lia. Qed.

Lemma len_u64_text v : len (u64_text v) <= 20.
Proof.
  unfold u64_text. assert (forall fuel v acc, len (digit_loop fuel v acc) <= Z.of_nat fuel + len acc) as H.
  { induction fuel as [|fuel IH]; intros w acc; cbn [digit_loop]; [lia|]. cbv zeta.
    destruct (w / 10 =? 0); [rewrite len_cons; lia|]. etransitivity; [apply IH|]. rewrite len_cons. lia. }
  apply (H 20%nat v []).
Qed.

Lemma len_i64_text v : len (i64_text v) <= 21.
Proof.
  unfold i64_text. pose proof (len_u64_text (- v)). pose proof (len_u64_text v).
  destruct (v <? 0); [rewrite len_app; change (len (bs "-")) with 1|]; lia.
Qed.

Lemma len_le_bytes n z : len (le_bytes n z) = Z.of_nat n.
Proof. unfold len. by rewrite length_le_bytes. Qed.

(** A list of words, each with its framing, is no longer than the words allow. *)
Lemma len_concat {A} (f : A -> bytes) (m : Z) l :
  Forall (fun x => len (f x) <= m) l -> len (concat (f <$> l)) <= m * len l.
Proof.
  induction 1 as [|x l Hx _ IH]; [unfold len; simpl; lia|]. cbn [fmap list_fmap concat]. rewrite len_app, len_cons. lia.
Qed.

Lemma mjoin_concat {A} (l : list (list A)) : mjoin l = concat l.
Proof. induction l as [|x l IH]; [done|]. change (x ++ mjoin l = x ++ concat l). by f_equal. Qed.

(** More than the widest framing of a value, in any dialect. *)
Definition FRAMING : Z := 128 * 1024.

Lemma vcp_write_len id set opcode body :
  client_request (Cmd_Set set) = Some (opcode, body) -> set_ok set ->
  len (encode_request [] opcode id body) <= len (s_value set) + FRAMING.
Proof.
  cbn [client_request]. intros Hb (Hk & _ & _ & _ & _ & _ & Ht & Hn). destruct (s_ttl set); try done. injection Hb as _ <-.
  unfold encode_request, FrameHeader_bytes. rewrite encode_set_body_app, !len_app, !len_le_bytes.
  assert (len (mjoin (prefixed <$> s_tags set)) <= 257 * len (s_tags set)).
  { rewrite mjoin_concat. apply len_concat. eapply Forall_impl; [exact Ht|]. intros name [_ Hl]. unfold prefixed.
    rewrite len_app, len_le_bytes. unfold MAX_TAG_LEN in Hl. lia. }
  unfold valid_key, MAX_KEY_LEN in Hk. unfold FRAMING. change (@len byte []) with 0. lia.
Qed.

Lemma mode_tokens_len m : len (concat (cons SPACE <$> mode_tokens m)) <= 21.
Proof.
  destruct m as [| | | | |cas]; try done. change (len (SPACE :: u64_text cas ++ []) <= 21).
  rewrite app_nil_r, len_cons. pose proof (len_u64_text cas). lia.
Qed.

Lemma mc_write_len set noreply verb args data style :
  mc_request (Cmd_Set set) noreply = Some (verb, args, data, style) -> valid_key (s_key set) ->
  len (request_bytes verb args data) <= len (s_value set) + FRAMING.
Proof.
  cbn [mc_request]. intros H Hk. injection H as <- <- <- _.
  pose proof (len_u64_text (s_mc_flags set)). pose proof (len_u64_text (ttl_of (s_ttl set))).
  pose proof (len_u64_text (len (s_value set))). pose proof (mode_tokens_len (s_mode set)).
  assert (len (mode_verb (s_mode set)) <= 7) by (by destruct (s_mode set)).
  assert (len (concat (cons SPACE <$> noreply_tokens noreply)) <= 8) by (by destruct noreply).
  set (numbers := mode_tokens (s_mode set) ++ noreply_tokens noreply) in *.
  assert (len (concat (cons SPACE <$> numbers)) <= 29)
    by (unfold numbers; rewrite fmap_app, concat_app, len_app; lia).
  change (request_bytes (mode_verb (s_mode set)) _ _)
    with ((mode_verb (s_mode set) ++ (SPACE :: s_key set) ++ (SPACE :: u64_text (s_mc_flags set))
           ++ (SPACE :: u64_text (ttl_of (s_ttl set))) ++ (SPACE :: u64_text (len (s_value set)))
           ++ concat (cons SPACE <$> numbers)) ++ CRLF ++ s_value set ++ CRLF).
  rewrite !len_app, !len_cons. change (len CRLF) with 2. unfold valid_key, MAX_KEY_LEN in Hk. unfold FRAMING. lia.
Qed.

Section RespWrite.
Context {FT : FloatText}.

Lemma len_bulk a : len (bulk_of a) <= len a + 25.
Proof. unfold bulk_of. rewrite len_cons, !len_app. change (len CRLF) with 2. pose proof (len_u64_text (len a)). lia. Qed.

Lemma len_bulks m l : Forall (fun a => len a <= m) l -> len (concat (bulk_of <$> l)) <= (m + 25) * len l.
Proof. intros H. apply len_concat. eapply Forall_impl; [exact H|]. intros a Ha. cbv beta in Ha. pose proof (len_bulk a). lia. Qed.

(** The words of a SET after its key and value: a few short ones, and its tags. *)
Lemma set_words_len set :
  Forall name_ok (rs_tags set) -> len (rs_tags set) <= 255 ->
  let rest := tag_words (rs_tagged set) (rs_tags set) ++ condition_words (rs_condition set)
              ++ expiry_words (rs_expiry set) ++ flag_words (bs "GET") (rs_return_previous set) in
  Forall (fun a => len a <= 255) rest /\ len rest <= 260.
Proof.
  intros Ht Hn rest. unfold rest.
  assert (Forall (fun a => len a <= 255) (tag_words (rs_tagged set) (rs_tags set))
          /\ len (tag_words (rs_tagged set) (rs_tags set)) <= 256) as [H1 L1].
  { destruct (rs_tagged set); [|by split]. cbn [tag_words]. split.
    - constructor; [pose proof (len_i64_text (len (rs_tags set))); lia|]. eapply Forall_impl; [exact Ht|]. by intros a [_ ?].
    - rewrite len_cons. lia. }
  assert (Forall (fun a => len a <= 255) (condition_words (rs_condition set))
          /\ len (condition_words (rs_condition set)) <= 1) as [H2 L2]
    by (destruct (rs_condition set); split; repeat constructor; done).
  assert (Forall (fun a => len a <= 255) (expiry_words (rs_expiry set)) /\ len (expiry_words (rs_expiry set)) <= 2) as [H3 L3].
  { destruct (rs_expiry set) as [|v|v| |]; split; cbn [expiry_words]; repeat constructor; try done;
      pose proof (len_i64_text v); lia. }
  assert (Forall (fun a => len a <= 255) (flag_words (bs "GET") (rs_return_previous set))
          /\ len (flag_words (bs "GET") (rs_return_previous set)) <= 1) as [H4 L4]
    by (destruct (rs_return_previous set); split; repeat constructor; done).
  split; [repeat (apply Forall_app; split; [done|]); done|]. rewrite !len_app. lia.
Qed.

Lemma resp_write_len set :
  valid_key (rs_key set) -> Forall name_ok (rs_tags set) -> len (rs_tags set) <= 255 ->
  len (request (words (RC_Set set))) <= len (rs_value set) + FRAMING.
Proof.
  intros Hk Ht Hn. pose proof (set_words_len set Ht Hn) as Hr. cbn [words]. cbv zeta in Hr.
  set (rest := tag_words _ _ ++ _) in *. destruct Hr as [Hrest Hlen]. set (verb := if rs_tagged set then _ else _).
  assert (len verb <= 7) by (unfold verb; by destruct (rs_tagged set)).
  pose proof (len_bulks 255 rest Hrest). pose proof (len_bulk verb). pose proof (len_bulk (rs_key set)).
  pose proof (len_bulk (rs_value set)). unfold request. rewrite len_cons, !len_app.
  pose proof (len_u64_text (len (verb :: rs_key set :: rs_value set :: rest))).
  change (concat (bulk_of <$> verb :: rs_key set :: rs_value set :: rest))
    with (bulk_of verb ++ bulk_of (rs_key set) ++ bulk_of (rs_value set) ++ concat (bulk_of <$> rest)).
  rewrite !len_app. change (len CRLF) with 2. unfold valid_key, MAX_KEY_LEN in Hk. unfold FRAMING. lia.
Qed.

(** One write of a value, as a client of each dialect sends it. *)
Inductive WriteRequest (max : Z) : bytes -> Prop :=
| Write_vcp id set opcode body :
    client_request (Cmd_Set set) = Some (opcode, body) -> set_ok set -> len (s_value set) <= max ->
    WriteRequest max (encode_request [] opcode id body)
| Write_memcached set noreply verb args data style :
    mc_request (Cmd_Set set) noreply = Some (verb, args, data, style) -> valid_key (s_key set) -> len (s_value set) <= max ->
    WriteRequest max (request_bytes verb args data)
| Write_resp set :
    valid_key (rs_key set) -> Forall name_ok (rs_tags set) -> len (rs_tags set) <= 255 -> len (rs_value set) <= max ->
    WriteRequest max (request (words (RC_Set set))).

(** C40 A connection is not closed for sending a value the store accepts: under a
    configuration that was let through, whatever part of a write of a legal value
    a connection holds, in any dialect, the next read does not take it over its
    ceiling, as long as it brings no more than the margin left for it. *)
Theorem config_leaves_room (built_with_tls : bool) (from_env : option bytes) (config : Settings)
    (request buffered received : bytes) :
  validate built_with_tls from_env config = Ok () ->
  WriteRequest (st_max_value_bytes (cf_store config)) request ->
  buffered `prefix_of` request -> len received <= MAX_FRAMING_OVERHEAD - FRAMING ->
  (hc_max_buffered_bytes (handle_conf config) <? len (buffered ++ received)) = false.
Proof.
  intros Hv HW [rest ->] Hr. destruct (validate_promises _ _ _ Hv) as [_ _ Hroom _ _ _ _ _ _ _ _].
  assert (len (buffered ++ rest) <= st_max_value_bytes (cf_store config) + FRAMING) as Hlen.
  { remember (buffered ++ rest) as whole. destruct HW as [id set opcode body Hb Hs Hl|set noreply verb args data style Hb Hs Hl|set Hk Ht Hn Hl].
    - pose proof (vcp_write_len id set opcode body Hb Hs). lia.
    - pose proof (mc_write_len set noreply verb args data style Hb Hs). lia.
    - pose proof (resp_write_len set Hk Ht Hn). lia. }
  rewrite len_app in *. cbn [handle_conf hc_max_buffered_bytes]. pose proof (len_nonneg rest). lia.
Qed.

End RespWrite.
