(* ===== verification/DemoServer.v ===== *)
(** Three nodes that gossip: the theorems of the cluster applied to in-memory
    stores, and a round of the protocol run in the open.  And a server that
    watches itself: the theorems of the hot keys and the slow log applied to a
    few requests. *)

From S2P Require Import Prelude Bytes Text Core Record Glob Clock Arith Float Command Backend Apply Read.
From S2P Require Import Vcp VcpEncode Auth Server Memory MemorySpec Gossip Conn.
From S2P Require Import Engine Writer Env VcpClient VcpSpec AuthFile Mc McTrip RespCommand RespTrip Config Introspect IntrospectSpec.

#[local] Existing Instance small_floats.
#[local] Instance gossip_ops : StoreOps Inner := memory_ops 1000.
#[local] Instance gossip_sync : StoreSync Inner := memory_sync 1000.

(** A node that knows these tags and holds nothing. *)
Definition node_of (tags : list (bytes * Z)) : Inner :=
  mkInner ∅ (list_to_map ((fun '(n, g) => (n, mkTagState 1 g)) <$> tags)) 2 0 0.

Definition n_news := bs "news".
Definition n_user := bs "user".

Definition three : list Inner := [node_of [(n_news, 3)]; node_of [(n_news, 5); (n_user, 1)]; node_of [(n_user, 0)]].

(** The first push is lost and the second arrives; a reply is lost half-way. *)
Definition events_of_three : list ClusterEvent :=
  [Push 0 1 n_news 3 Lost_request; Gossip 0 1 0 Lost_reply; Push 1 2 n_news 5 Delivered;
   Gossip 2 0 7 Delivered; Gossip 0 1 1 Delivered; Gossip 1 1 2 Delivered; Gossip 1 2 4 Delivered].

Lemma node_of_ok tags : Forall (fun x : bytes * Z => 0 <= x.2) tags -> memory_sync_ok (node_of tags).
Proof.
  intros H n st Hn. apply elem_of_list_to_map_2, list_elem_of_fmap in Hn as ([m g] & [= -> ->] & Hin).
  rewrite Forall_forall in H. by apply (H (m, g)).
Qed.

Lemma three_ok : nodes_ok three.
Proof.
  intros i s Hi. apply list_elem_of_lookup_2 in Hi. unfold three in Hi.
  rewrite !elem_of_cons, elem_of_nil in Hi.
  destruct Hi as [->|[->|[->|[]]]]; apply node_of_ok; repeat constructor; done.
Qed.

Lemma node_of_fits names tags :
  (forall x, x ∈ tags -> x.1 ∈ names) -> fits_message names (node_of tags).
Proof.
  intros H n Hn. unfold generation, gossip_sync, memory_sync, memory_generation in Hn. simpl in Hn.
  destruct (list_to_map _ !! n) as [st|] eqn:E in Hn; [|done].
  apply elem_of_list_to_map_2, list_elem_of_fmap in E as ([m g] & [= -> ->] & Hin). exact (H _ Hin).
Qed.

Lemma three_fit i s : three !! i = Some s -> fits_message [n_news; n_user] s.
Proof.
  intros Hi. apply list_elem_of_lookup_2 in Hi. unfold three in Hi. rewrite !elem_of_cons, elem_of_nil in Hi.
  destruct Hi as [->|[->|[->|[]]]]; apply node_of_fits; apply Forall_forall; repeat constructor; done.
Qed.

Definition legalb (nodes : list Inner) (event : ClusterEvent) : bool :=
  match event with
  | Gossip _ _ _ _ => true
  | Push i _ name g _ => match nodes !! i with Some s => (0 <? g) && (g <=? generation s name) | None => true end
  end.

Fixpoint legal_runb (nodes : list Inner) (events : list ClusterEvent) : bool :=
  match events with
  | [] => true
  | event :: events' => legalb nodes event && legal_runb (cluster_step nodes event) events'
  end.

Lemma legal_runb_sound events nodes : legal_runb nodes events = true -> legal_run nodes events.
Proof.
  revert nodes. induction events as [|event events IH]; intros nodes; cbn [legal_runb legal_run]; [done|].
  intros [H1 H2]%andb_prop. split; [|by apply IH].
  destruct event as [|i j name g outcome]; [done|]. cbn [legalb legal] in *. intros s Hs. rewrite Hs in H1. lia.
Qed.

Lemma three_legal : legal_run three events_of_three.
Proof. apply legal_runb_sound. vm_compute. reflexivity. Qed.

Lemma three_meet i j :
  (i < j < length three)%nat -> exists event, event ∈ events_of_three /\ meet i j event.
Proof.
  intros [Hij Hj]. simpl in Hj.
  assert ((i = 0 /\ j = 1) \/ (i = 0 /\ j = 2) \/ (i = 1 /\ j = 2))%nat as [[-> ->]|[[-> ->]|[-> ->]]] by lia.
  - exists (Gossip 0 1 1 Delivered). split; [unfold events_of_three; set_solver|]. exists 1. by left.
  - exists (Gossip 2 0 7 Delivered). split; [unfold events_of_three; set_solver|]. exists 7. by right.
  - exists (Gossip 1 2 4 Delivered). split; [unfold events_of_three; set_solver|]. exists 4. by left.
Qed.

Lemma cluster_converges_witness :
  Settling three (cluster_run three events_of_three)
  /\ forall i s n, cluster_run three events_of_three !! i = Some s -> generation s n = highest three n.
Proof.
  apply (cluster_converges three events_of_three [n_news; n_user]).
  - exact three_ok.
  - exact three_legal.
  - exact three_fit.
  - vm_compute. done.
  - exact three_meet.
Defined.

Example what_they_agree_on :
  (fun s => (generation s n_news, generation s n_user)) <$> cluster_run three events_of_three = [(5, 1); (5, 1); (5, 1)].
Proof. vm_compute. reflexivity. Qed.

(** Before the round between the last two, the third node does not know one of
    the tags: the meetings are needed. *)
Example a_push_says_one_thing :
  (fun s => (generation s n_news, generation s n_user)) <$> cluster_run three [Push 1 2 n_news 5 Delivered]
  = [(3, 0); (5, 1); (5, 0)].
Proof. vm_compute. reflexivity. Qed.

Lemma gossip_reaches_witness :
  let self := node_of [(n_news, 3)] in
  let peer := node_of [(n_news, 5); (n_user, 1)] in
  let '(self', peer') := gossip_rounds 4 1 self peer in
  forall n, 0 < generation self n ->
    generation self' n = Z.max (generation self n) (generation peer n)
    /\ generation peer' n = Z.max (generation self n) (generation peer n).
Proof.
  apply (gossip_reaches 4 1 (node_of [(n_news, 3)]) (node_of [(n_news, 5); (n_user, 1)])).
  - apply node_of_ok. repeat constructor; done.
  - apply node_of_ok. repeat constructor; done.
  - lia.
  - vm_compute. reflexivity.
  - vm_compute. done.
Defined.

(** A window that wraps: the ring is walked past its end. *)
Example a_window_wraps : window [1; 2; 3; 4; 5] 3 4 = [4; 5; 1; 2].
Proof. vm_compute. reflexivity. Qed.

(** An exchange whose reply is lost has told the peer and taught us nothing; the
    next one, told the same, repairs it. *)
Example a_lost_reply :
  let '(self, peer) := gossip_round Lost_reply 0 (node_of [(n_news, 3)]) (node_of [(n_user, 2)]) in
  let '(self', peer') := gossip_round Delivered 1 self peer in
  (generation self n_user, generation peer n_news, generation self' n_user, generation peer' n_news) = (0, 3, 2, 3).
Proof. vm_compute. reflexivity. Qed.

(** ** Introspection *)

#[local] Instance demo_hash : Hash := small_hash.

Definition k_a := bs "a".
Definition k_b := bs "b".
Definition k_c := bs "c".

(** Two threads; the first has room for two keys and sees three. *)
Definition some_samples : list (nat * (bytes * bool)) :=
  [(0%nat, (k_a, false)); (0%nat, (k_a, true)); (0%nat, (k_b, false)); (3%nat, (k_a, false)); (0%nat, (k_c, true))].

Lemma hot_keys_exact_witness :
  exists h, admit_all (HotKeys_new 128 2) some_samples = Ok h
  /\ let m := HotKeys_merge h in
     mg_sampled m = len some_samples
     /\ StronglySorted hotter (mg_counters m) /\ NoDup (c_digest <$> mg_counters m)
     /\ (forall c, c ∈ mg_counters m ->
         1 <= Counter_total c - c_error c <= tally (c_digest c) (digests some_samples.*2)
         /\ Counter_total c <= len some_samples /\ c_write_samples c <= writes (c_digest c) some_samples.*2
         /\ (exists k w, (k, w) ∈ some_samples.*2 /\ c_digest c = xxh3_64 k /\ c_key c = kept_key k
                         /\ c_truncated c = (MAX_KEPT_KEY <? len k))
         /\ ((exists lane, forall x, x ∈ some_samples -> x.1 = lane) ->
             tally (c_digest c) (digests some_samples.*2) <= Counter_total c))
     /\ (forall key, len some_samples < Z.max 2 1 * tally (xxh3_64 key) (digests some_samples.*2) ->
         exists c, c ∈ mg_counters m /\ c_digest c = xxh3_64 key).
Proof.
  apply (hot_keys_exact 128 2 some_samples). apply Forall_forall. repeat constructor; simpl; unfold LANES; lia.
Defined.

Definition ranking (r : Result Empty_set HotKeys) : list (bytes * Z * Z * Z) :=
  match r with
  | Ok h => (fun c => (c_key c, c_read_samples c, c_write_samples c, c_error c)) <$> mg_counters (HotKeys_merge h)
  | _ => []
  end.

(** The newcomer has the count it inherited as reads; its true count, one, is
    its count less its error, the end of the interval that [Counter.error] is
    said to leave out. *)
Example a_newcomer_inherits :
  ranking (admit_all (HotKeys_new 128 2) some_samples) = [(k_a, 2, 1, 0); (k_c, 1, 1, 1)].
Proof. vm_compute. reflexivity. Qed.

(** Across lanes a key may have been seen more often than its count says: it was
    evicted on one lane and is whole on another. *)
Example a_count_across_lanes :
  ranking (admit_all (HotKeys_new 128 1) [(0%nat, (k_a, false)); (0%nat, (k_b, false)); (1%nat, (k_a, false))])
  = [(k_b, 2, 0, 1); (k_a, 1, 0, 0)].
Proof. vm_compute. reflexivity. Qed.

(** ** The slow log *)

Definition nobody : @Origin unit := mkOrigin Dialect_Vcp 0 tt.

Definition slow_of (key : bytes) (queue_us exec_us : Z) : Z * @SlowRecord unit :=
  (1700000000, mkSlowRecord queue_us exec_us Kind_Get nobody 1 key 0 1).

Definition some_slow : list (nat * (Z * @SlowRecord unit)) :=
  [(0%nat, slow_of k_a 0 900); (1%nat, slow_of k_b 10 20); (0%nat, slow_of k_c 5 6); (0%nat, slow_of k_a 7 8)].

Definition short_log : @Slowlog unit := Slowlog_new 10 2.

Lemma slowlog_newest_witness :
  exists s', record_all short_log some_slow = Ok s'
  /\ (forall count,
      StronglySorted later (Slowlog_entries s' count)
      /\ (forall e, e ∈ Slowlog_entries s' count -> e ∈ newest (sl_next_id short_log) some_slow)
      /\ ((count <= sl_max_len short_log)%nat -> Slowlog_entries s' count = take count (newest (sl_next_id short_log) some_slow)))
  /\ (forall ring, ring ∈ sl_rings s' -> (length ring <= sl_max_len short_log)%nat)
  /\ sl_admitted s' = sl_admitted short_log + len some_slow
  /\ sl_evicted s' + Z.of_nat (Slowlog_len s') = sl_evicted short_log + len some_slow.
Proof.
  apply (slowlog_newest short_log some_slow).
  - apply length_replicate.
  - intros ring H. by apply elem_of_replicate in H as [-> _].
  - simpl. lia.
  - apply Forall_forall. repeat constructor; simpl; unfold LANES; lia.
  - vm_compute. done.
  - vm_compute. done.
Defined.

Definition ids_of (r : Result Empty_set (@Slowlog unit)) (count : nat) : list Z :=
  match r with Ok s => se_id <$> Slowlog_entries s count | _ => [] end.

(** Entry 1 was pushed out of its ring; entry 2, older than the newest two, is
    in a ring of its own. *)
Example rings_by_lane : ids_of (record_all short_log some_slow) 9 = [4; 3; 2].
Proof. vm_compute. reflexivity. Qed.

(** [slowlog_max_len] bounds a lane, not the log. *)
Example longer_than_its_length :
  (match record_all (Slowlog_new 10 1) some_slow with Ok s => Slowlog_len s | _ => 0%nat end) = 2%nat.
Proof. vm_compute. reflexivity. Qed.

(** A request that waited longer than it took is clamped. *)
Example a_wait_clamped : split_times 100 40000 = (100, 0).
Proof. reflexivity. Qed.

(** ** Configuration *)

Example the_defaults_stand : validate false None Settings_default = Ok ().
Proof. vm_compute. reflexivity. Qed.

Definition with_store (f : StoreSection -> StoreSection) (c : Settings) : Settings :=
  mkSettings (cf_server c) (f (cf_store c)) (cf_protocol c) (cf_auth c) (cf_tls c) (cf_cluster c) (cf_observability c).

Definition with_map (mb : Z) (s : StoreSection) : StoreSection :=
  mkStoreSection (st_path s) (st_backend s) (st_shards s) mb (st_preallocate_mb s) (st_max_readers s) (st_durability s)
    (st_max_value_bytes s) (st_wipe_on_start s) (st_write_map s) (st_prefault s) (st_inline_reads s) (st_resident_mode s)
    (st_inline_max_commands s) (st_resident_recheck_ms s) (st_write s) (st_ttl s) (st_tags s) (st_eviction s).

(** A size whose product leaves [2^64] is let through as what is left of it. *)
Example a_size_that_wraps :
  let config := with_store (with_map (2 ^ 44 + 16)) Settings_default in
  validate false None config = Ok () /\ sc_map_size (store_config None config) = 16 * 1024 * 1024.
Proof. vm_compute. by split. Qed.

Definition one_write : SetReq := mkSet (bs "k") (bs "value") (Ttl_Set 0) 0 [n_news] SetMode_Set false.

Definition one_frame : bytes :=
  match client_request (Cmd_Set one_write) with Some (opcode, body) => encode_request [] opcode 7 body | None => [] end.

Lemma config_leaves_room_witness :
  (hc_max_buffered_bytes (handle_conf Settings_default) <? len (take 20 one_frame ++ bs "more")) = false.
Proof.
  apply (config_leaves_room false None Settings_default one_frame (take 20 one_frame) (bs "more")).
  - vm_compute. reflexivity.
  - apply (Write_vcp _ 7 one_write Opcode_Set (encode_set_body [] (bs "k") (bs "value") 0 [n_news])).
    + reflexivity.
    + unfold set_ok. conjs; try done. exists 0. done. repeat constructor; done.
    + vm_compute. done.
  - exists (drop 20 one_frame). symmetry. apply take_drop.
  - vm_compute. done.
Defined.

(** The ceiling that leaves room for a value leaves none for two: an MSET of two
    legal values is longer than a connection may hold. *)
Definition snug : Settings :=
  mkSettings
    (mkServerSection (bs "127.0.0.1:11311") 10000 16384 (DEFAULT_MAX_VALUE_LEN + MAX_FRAMING_OVERHEAD) 10000 128)
    StoreSection_default ProtocolSection_default AuthConfig_default TlsSection_default ClusterSection_default
    ObservabilitySection_default.

Definition full_value : bytes := replicate (Z.to_nat DEFAULT_MAX_VALUE_LEN) Byte.x00.

Example two_values_outgrow :
  validate false None snug = Ok ()
  /\ len full_value <= st_max_value_bytes (cf_store snug)
  /\ hc_max_buffered_bytes (handle_conf snug) < len (request (words (RC_MSet [(k_a, full_value); (k_b, full_value)]))).
Proof.
  assert (len full_value = DEFAULT_MAX_VALUE_LEN) as H by (unfold full_value, len; rewrite length_replicate; by apply Z2Nat.id).
  split; [vm_compute; reflexivity|]. split; [rewrite H; vm_compute; done|].
  assert (forall a, len a <= len (bulk_of a)) as Hb.
  { intros a. unfold bulk_of. rewrite len_cons, !len_app. pose proof (len_nonneg (u64_text (len a))).
    pose proof (len_nonneg CRLF). lia. }
  pose proof (Hb full_value) as Hf. rewrite H in Hf.
  assert (2 * len (bulk_of full_value) <= len (request [bs "MSET"; k_a; full_value; k_b; full_value])).
  { unfold request. cbn [fmap list_fmap concat]. rewrite len_cons, !len_app.
    pose proof (len_nonneg (u64_text (len [bs "MSET"; k_a; full_value; k_b; full_value]))).
    pose proof (len_nonneg CRLF). pose proof (len_nonneg (bulk_of (bs "MSET"))). pose proof (len_nonneg (bulk_of k_a)).
    pose proof (len_nonneg (bulk_of k_b)). pose proof (len_nonneg (@nil byte)). lia. }
  change (words (RC_MSet [(k_a, full_value); (k_b, full_value)])) with [bs "MSET"; k_a; full_value; k_b; full_value].
  change (hc_max_buffered_bytes (handle_conf snug)) with (DEFAULT_MAX_VALUE_LEN + MAX_FRAMING_OVERHEAD).
  unfold DEFAULT_MAX_VALUE_LEN, MAX_FRAMING_OVERHEAD in *. lia.
Qed.
