(* ===== verification/DemoAuth.v ===== *)
(** A credential file, a printed row and a certificate: the theorems about
    loading credentials applied to them, with a digest that only keeps what the
    proofs need of one, its length. *)

From S2P Require Import Prelude Bytes Text Core Record Glob Clock Arith Float Command Vcp Auth AuthFile.
From S2P Require Import AuthFileSpec AuthLoadSpec.

#[local] Instance first_bytes : Digest := {| sha256 b := take 32 (b ++ replicate 32 Byte.x00) |}.

Lemma first_bytes_len b : length (sha256 b) = 32%nat.
Proof.
  change (length (take 32 (b ++ replicate 32 Byte.x00)) = 32%nat).
  rewrite length_take, length_app, length_replicate. lia.
Qed.

Definition zeros64 : text := replicate 64 48.

(** A comment, a blank line, a row with roles and one without. *)
Definition sample_file : text :=
  txt "# who may connect" ++ [10; 10] ++ txt "reader   sha256:" ++ zeros64 ++ txt "  roles=read,list" ++ [13; 10]
  ++ txt " billing" ++ [9] ++ txt "mtls:billing.svc" ++ [10].

Definition sample_table : Table := default ∅ (result_ok (parse sample_file)).

Example sample_loads : parse sample_file = Ok sample_table.
Proof.
  assert (is_ok (parse sample_file) = true) as H by (vm_compute; reflexivity).
  unfold sample_table. by destruct (parse sample_file).
Qed.

Example sample_rows :
  sample_table !! bs "reader" = Some (mkCredential Mechanism_Plain (replicate 32 Byte.x00) None 9 false)
  /\ sample_table !! bs "billing" = Some (bare (replicate 32 Byte.x00) (Some (bs "billing.svc")))
  /\ length (map_to_list sample_table) = 2%nat.
Proof. vm_compute. conjs; reflexivity. Qed.

Definition sample_entropy : bytes := replicate 32 Byte.xa7.

Definition printed : text * text :=
  match generate (txt "writer") (Some (txt "write,invalidate")) (Some sample_entropy) with Ok p => p | _ => ([], []) end.

Lemma generated_row_verifies_witness :
  exists c,
    parse (sample_file ++ printed.2 ++ [NEWLINE]) = Ok (<[utf8_encode (txt "writer") := c]> sample_table)
    /\ forall required default,
         exists granted,
           verify (mkAuth required (resolve_defaults (<[utf8_encode (txt "writer") := c]> sample_table) default))
             (utf8_encode (txt "writer")) (utf8_encode printed.1) = Some (mkIdentity (utf8_encode (txt "writer")) granted)
           /\ parse_list (txt "write,invalidate") = Ok granted.
Proof.
  apply (generated_row_verifies first_bytes_len (txt "writer") (Some (txt "write,invalidate")) (Some sample_entropy)
           printed.1 printed.2 sample_file sample_table).
  - vm_compute. reflexivity.
  - right. eexists. unfold sample_file. rewrite !app_assoc. reflexivity.
  - exact sample_loads.
  - vm_compute. reflexivity.
Defined.

(** A file whose last line was never ended takes no row: the row printed joins
    the one before it, and the file that loaded no longer does. *)
Definition unended_file : text := removelast sample_file.

Example row_joins_an_unended_line :
  parse unended_file = parse sample_file
  /\ exists e, parse (unended_file ++ printed.2 ++ [NEWLINE]) = Err e.
Proof. split; [vm_compute; reflexivity|]. eexists. vm_compute. reflexivity. Qed.

(** A certificate for a name under which two rows stand is refused, whatever the
    order of the table. *)
Definition sample_matches (subject : bytes) : bool := bool_decide (head subject = Some Byte.x62).

Lemma certificate_unambiguous_witness :
  identity_for_certificate (map_to_list sample_table) sample_matches =
  match hits sample_matches (map_to_list sample_table) with
  | [] => Certificate_None
  | [row] => Certificate_One (identity_of row)
  | many => Certificate_Ambiguous (merge_sort name_le many.*1)
  end.
Proof. exact (certificate_unambiguous sample_matches sample_table (map_to_list sample_table) (Permutation_refl _)). Defined.

Example certificate_taken :
  identity_for_certificate (map_to_list sample_table) sample_matches
  = Certificate_One (mkIdentity (bs "billing") Roles_UNRESTRICTED).
Proof. vm_compute. reflexivity. Qed.

Example certificate_shared :
  identity_for_certificate
    [(bs "b2", bare [] (Some (bs "b.x"))); (bs "a", bare [] None); (bs "b1", bare [] (Some (bs "b.y")))] sample_matches
  = Certificate_Ambiguous [bs "b1"; bs "b2"].
Proof. vm_compute. reflexivity. Qed.

(** ** What the loader takes and should not *)

(** Two spellings of one digest: the standard library reads a sign where the
    format has a digit. *)
Example a_signed_digit :
  parse_hex32 (txt "+0" ++ replicate 62 48) = parse_hex32 zeros64
  /\ is_ok (parse_hex32 (txt "+0" ++ replicate 62 48)) = true.
Proof. vm_compute. split; reflexivity. Qed.

(** A three-byte character among the digits: not an error of the line, a panic. *)
Example a_character_that_panics :
  match parse (txt "reader sha256:" ++ [8364] ++ replicate 61 48 ++ [10]) with Panic _ => true | _ => false end = true.
Proof. vm_compute. reflexivity. Qed.

(** At a reload the panic takes the task that waits for the signal, and the
    server where panics abort: the file is put right, the next signal does
    nothing. *)
Definition broken_then_fixed : Files :=
  {| read_file path := Some (utf8_encode (if bool_decide (path = bs "broken")
                                          then txt "reader sha256:" ++ [8364] ++ replicate 61 48 else sample_file));
     file_mode _ := Some 384 |}.

Definition file_config (path : bytes) : AuthConfig := mkAuthConfig true path 5000 3 0 None.

Example a_reload_that_is_the_last :
  let start := mkReload (AuthState_new (mkAuth true ∅) (mkLimits 5000 3 1)) true in
  let after := @reload _ broken_then_fixed (file_config (bs "fixed")) None
                 (@reload _ broken_then_fixed (file_config (bs "broken")) None start) in
  re_running after = false /\ au_table (as_current (re_state after)) = ∅.
Proof. vm_compute. split; reflexivity. Qed.
